(* ===== verification/_CoqProject ===== *)
-Q . S2P
Prelude.v
Bits.v
Endian.v
Digits.v
Int128.v
CivilTime.v
CivilWidth.v
Duration.v
DurationText.v
BigUnsigned.v
ControlBytes.v
SwissTable.v
RawTable.v
TableSpec.v
TableOps.v
TableResize.v
TableRehash.v
TableInsert.v
HashSet.v
SpinLock.v
AsciiChars.v
Utf8.v
Escaping.v
Base64.v
CharSet.v
HexUrl.v
FastInt.v
NumberParse.v
StrMatch.v
NodeSet.v
GraphNode.v
GraphCycles.v
GraphSearch.v
GraphInsert.v
GraphPaths.v
GraphState.v
GraphLaws.v
Crc.v
Crc32c.v
CordState.v
LogProto.v
FnMatch.v
VModule.v
VLogSites.v
LengthSeq.v
Punycode.v
LowLevelAlloc.v
SkipList.v
AllocLevels.v
AllocGeometry.v
AllocFree.v
AllocLaws.v
CallOnce.v
ZoneText.v
ZoneInfo.v
ZoneTime.v
ZoneLookup.v
ZoneLoad.v
ZoneDecode.v
ZoneRule.v
ZoneExtend.v
ZoneFuture.v
ZoneLaws.v
