(* ===== verification/Prelude.v ===== *)
(** * Abseil in Rocq

    A verification of parts of Abseil, the C++ library under src/absl: its integer, time, string, hash
    table and locking code, translated into executable definitions and proved correct.  The library has
    no main program; its parts are used separately and build on each other as follows.

    - [numeric] (bit operations, 128-bit integers) and [base] (byte order, the spin lock, call_once, the
      low-level allocator) carry everything else; [strings] (characters, escapes, numbers as text, search)
      uses both; [time] (durations, civil time, time zones) uses the 128-bit integers and the number text;
      [container] (the Swiss table) uses the bit operations and the byte order; the lock-order graph of
      [synchronization] takes its memory from the allocator, and [crc] keeps the checksums of strings.

    ** How code is modelled

    A machine integer is a [Z] with its wrap-around written out ([wrapu], [wraps] and the notations of
    [mach_scope] below); signed overflow, which C++ leaves undefined, is [None] ([checked]).  A buffer is a
    list, and a read or a store outside it is [None] ([read], [write], [store]); so a theorem that a function
    returns [Some] says that it stays inside its buffers and that nothing in it is undefined.  Loops are
    [Fixpoint]s: structural where the loop walks its input, and otherwise with fuel, the theorem about the
    function then showing that the fuel its definition passes is enough.  Code that the source leaves to the
    platform is a parameter: the byte order of the host is an argument of everything that loads or stores
    words, the hash function and the equality of keys are arguments of the table, and the source of a time
    zone's bytes is an argument of its loader.  Where threads share a word, as in the spin lock, call_once and
    the positions that time zone lookups remember, the theorems hold for every interleaving or every value.

    ** The files

    - [Prelude]: machine integers, the option monad, bytes and arrays, tactics and the hint database.
    - [Bits] ([numeric/bits.h], [numeric/internal/bits.h]): rotations, population count, leading and trailing
      zeros, powers of two.  [bits_correct]: each portable branch computes what its name says.
    - [Endian] ([base/internal/endian.h], [unaligned_access.h]): byte swaps, loads and stores on hosts of both
      byte orders, and the lemmas on words as lists of bytes that the string routines share.
    - [Digits]: positional notation, the specification of every routine that prints or reads numbers.
    - [Int128] ([numeric/int128.h], [int128.cc], [int128_no_intrinsic.inc]): uint128 and int128 as two halves.
      The theorems give the value of every operator, the shift-subtract division and the text; signed addition
      is shown to be undefined on some operands whose sum is representable.
    - [CivilTime] ([time/internal/cctz/include/cctz/civil_time_detail.h]): normalization, steps, differences,
      weekdays.  The specification is the number of days since an epoch: normalization preserves it, addition
      and difference are inverse, differences are computed without avoidable overflow.
      [CivilWidth]: normalization, steps and the operators at 64 bits, with exactly what overflows.
    - [Duration] ([time/time.h], [time.cc], [duration.cc]): durations as extended integers of ticks; every
      operator implements the extended integers, the fast paths of the division included.  [DurationText]
      ([duration.cc]): [ParseDuration] against a grammar, with the products that saturate before they are divided.
    - [BigUnsigned] ([strings/internal/charconv_bigint.h], [.cc]): in-place multiplication, powers of five,
      printing and comparison of fixed-width big integers, modulo their width.
    - The Swiss table.  [ControlBytes] ([container/internal/hashtable_control_bytes.h]): control bytes and the
      portable and SSE2 groups, behind the interface [GroupLaws].  [SwissTable] ([raw_hash_set.h],
      [raw_hash_set.cc]): capacities, the packed inline data, growth information, layout, probe sequences.
      [RawTable]: find, insert, rehash in place, erase, clear, iterate and resize on the backing array.
      [TableSpec], [TableOps], [TableResize], [TableRehash], [TableInsert]: the invariant and what each operation
      does to it.  [HashSet]: the table as a
      transition system; its reachable states keep the invariant, every operation ends, and the table refines
      a finite set of keys.
    - [SpinLock] ([base/internal/spinlock.h], [spinlock.cc]): threads as interleaved steps on one atomic word;
      mutual exclusion by induction on the steps, progress, and the wait time kept in the word.
    - Strings.  [AsciiChars] ([strings/ascii.h], [ascii.cc]), [Utf8] ([strings/internal/utf8.cc]), [CharSet]
      ([strings/charset.h]): characters and their sets.  [Escaping], [Base64], [HexUrl] ([strings/escaping.cc]):
      encoders and decoders, each pair shown inverse, the decoders total on every input, the unescaper safe
      over its own source.  [FastInt], [NumberParse] ([strings/numbers.cc], [numbers.h]): printing and parsing
      of integers from 8 to 128 bits, each against [Digits], and their composition.  [StrMatch]
      ([strings/match.cc], [internal/memutil.cc]): caseless search and common affixes.
    - The lock-order graph ([synchronization/internal/graphcycles.cc], [base/internal/hide_ptr.h]).  [NodeSet]: the hash
      sets of node indices, which refine mathematical sets.  [GraphNode]: nodes, identifiers and the chained map
      from pointers to nodes.  [GraphCycles]: the operations.  [GraphSearch]: depth-first search with an explicit
      stack and the reassignment of ranks, on plain functions.  [GraphInsert], [GraphPaths], [GraphState]: the
      invariant (the nodes represent an acyclic relation, ranks are a permutation, no marker is set, chains are
      complete) and what each operation does to it.  [GraphLaws]: an edge is refused exactly when it closes a
      cycle, paths are found when there are any, identifiers name pointers until they expire, and every reachable
      state passes [CheckInvariants].
    - Checksums ([crc/]).  [Crc]: the table-driven CRC32C engine ([crc/internal/crc.cc]) against a shift register that
      takes one bit at a time: the tables are computed and checked, four interleaved words give the remainder of the
      bytes, zero bytes are multiplications in the field of polynomials and can be taken away.  [Crc32c]: checksums of
      extended, concatenated and shortened messages, proved against the interface of an engine, of which [Crc] is an
      instance, with the instructions of the short path as a parameter; copying with a checksum.  [CordState]: the copy-on-write
      checksums of a cord on a heap with reference counts, which refine independent values.
    - Logging ([log/internal]).  [LogProto] ([proto.cc]): the protocol buffer encoding of log records, which reads back.
      [FnMatch] ([fnmatch.cc]): wildcard patterns against their meaning.  [VModule] ([vlog_config.cc]): the list of
      patterns with levels and the level it gives to a file, which is that of the first pattern that matches.
      [VLogSites] ([vlog_config.h], [vlog_config.cc]): threads that register sites in a lock-free list and setters that
      walk it, step by step; with one thread per site the cached levels settle, and three schedules outside that
      discipline break the list or leave a level stale.
    - Rust symbols ([debugging/internal]).  [LengthSeq]: the sequence of two-bit UTF-8 lengths, which refines a list.  [Punycode]: the
      decoder into a bounded buffer, which refines the decoder of RFC 3492 on code points.
    - The allocator under the locks ([base/internal/low_level_alloc.cc]).  [LowLevelAlloc]: blocks, the skip list of free
      blocks, allocation, release and the deletion of an arena, on a memory of block headers.  [SkipList]: the memory
      represents a sorted list, level by level, and search, insertion and deletion are those of the list.  [AllocLevels]:
      the random number generator ends, and levels fit.  [AllocGeometry]: blocks as disjoint ranges that cover the mapped
      memory.  [AllocFree]: merging with both neighbours.  [AllocLaws]: the invariant over all interleavings of the
      operations under the arena's lock and the writes of clients, allocations that succeed and overlap nothing, and
      whole pages given back.
    - [CallOnce] ([base/call_once.h], [internal/spinlock_wait.cc]): threads that interleave on the control word and sleep on it;
      the function runs once, nobody returns before it has ended, every schedule ends, and an exception blocks the flag.
    - [ZoneText] ([time/internal/cctz/src/time_zone_posix.cc], [time_zone_fixed.cc]): POSIX rules and the names of fixed zones,
      read safely from any text, in range, and read back from their text.
    - [ZoneInfo], [ZoneLoad] ([time/internal/cctz/src/time_zone_info.h], [time_zone_info.cc]): the state of a time zone and its
      lookups; loading it from zoneinfo bytes, with the rule for future transitions.  [ZoneTime]: civil seconds on a line,
      the binary search, and what a civil time means on a clock that jumps.  [ZoneLookup]: the invariant of a zone and its
      lookups against that clock.  [ZoneDecode], [ZoneRule], [ZoneExtend]: any bytes decode safely, rule dates are calendar
      days, and what loads satisfies the invariant.  [ZoneFuture]: the rule is in order in every year and is followed for
      ever.  [ZoneLaws]: the whole, with built-in zones and unsafe names.
    ** Bounds and fuel

    Counts that bound a loop are taken from the code: the probe loop of the table gets one round per group of
    the capacity, the normalization of days the number of chunks the year count allows, the string loops the
    length of their input, the searches of the lock-order graph one round for each pair of nodes and the path
    search two for each node; walks of the allocator's skip list get one step per block, and its random levels
    the period of their generator; the lookups of a time zone call themselves at most once, and the extension
    of a zone runs its 402 years.  Hypotheses on sizes are those of the types: strings are shorter than
    [string_view::max_size], capacities are what [MaxValidCapacity] admits, and the tables of the lock-order graph
    have fewer cells than their 32-bit cursors can count.

    ** Not modelled

    Floating point (double conversions of durations, [SixDigitsToBuffer], the formatter of fractional seconds,
    charconv's conversion itself); vector intrinsics other than SSE2's group; the branch of the Base64 decoder
    for a null destination, which no caller takes; growing a table to the next capacity during an insertion, tables of
    one slot and the sampling of tables; and the parts listed as not modelled in the manifest: input and output
    (log messages and sinks, symbolization, flags, opening time zone files), template plumbing over the standard library (algorithm,
    functional, meta, types, utility), and the components whose behaviour is a distribution or an operating
    system service (random, parts of synchronization and debugging). *)
From Stdlib Require Import Ascii String ZArith Lia List Bool Permutation.
Import ListNotations.
#[local] Open Scope Z_scope.

(** ** Machine integers

    A w-bit integer of the source is a [Z].  Unsigned arithmetic wraps modulo
    [2^w] ([wrapu]); a conversion to a signed type is two's complement
    ([wraps]); signed arithmetic that would overflow is undefined behaviour in
    C++, which the models return as [None] ([checked]). *)
Definition wrapu (w x : Z) : Z := x mod 2 ^ w.

Definition wraps (w x : Z) : Z := (x + 2 ^ (w - 1)) mod 2 ^ w - 2 ^ (w - 1).

Definition in_u (w x : Z) : Prop := 0 <= x < 2 ^ w.

Definition in_s (w x : Z) : Prop := - 2 ^ (w - 1) <= x < 2 ^ (w - 1).

Definition in_sb (w x : Z) : bool := (- 2 ^ (w - 1) <=? x) && (x <? 2 ^ (w - 1)).

Definition checked (w x : Z) : option Z := if in_sb w x then Some x else None.

Declare Scope mach_scope.
Delimit Scope mach_scope with mach.
Notation "x +[ w ] y" := (wrapu w (x + y)) (at level 50, left associativity) : mach_scope.
Notation "x -[ w ] y" := (wrapu w (x - y)) (at level 50, left associativity) : mach_scope.
Notation "x *[ w ] y" := (wrapu w (x * y)) (at level 40, left associativity) : mach_scope.
Notation "x <<[ w ] n" := (wrapu w (Z.shiftl x n)) (at level 56, left associativity) : mach_scope.
Notation "x >> n" := (Z.shiftr x n) (at level 56, left associativity) : mach_scope.
Notation "x .& y" := (Z.land x y) (at level 57, left associativity) : mach_scope.
Notation "x .^ y" := (Z.lxor x y) (at level 58, left associativity) : mach_scope.
Notation "x .| y" := (Z.lor x y) (at level 59, left associativity) : mach_scope.
Notation "~[ w ] x" := (wrapu w (Z.lnot x)) (at level 35, x at level 35) : mach_scope.

(** ** The option monad, for undefined behaviour and early error returns *)
Definition obind {A B} (m : option A) (k : A -> option B) : option B :=
  match m with Some a => k a | None => None end.

Notation "'do' x <- m ; k" := (obind m (fun x => k))
  (at level 60, x pattern, m at next level, k at level 200, right associativity) : mach_scope.

(** ** Bytes and strings: a [char] is its unsigned value in [0, 256) *)
Definition chr (a : ascii) : Z := Z.of_N (N_of_ascii a).

Arguments chr a%_char.

Fixpoint str (s : string) : list Z :=
  match s with
  | EmptyString => []
  | String a s' => chr a :: str s'
  end.
Arguments str s%_string.

Definition is_byte (b : Z) : bool := (0 <=? b) && (b <? 256).

(** ** Tactics *)
Ltac zbool :=
  repeat match goal with
  | H : andb _ _ = true |- _ => apply andb_true_iff in H; destruct H
  | H : andb _ _ = false |- _ => apply andb_false_iff in H
  | H : orb _ _ = false |- _ => apply orb_false_iff in H; destruct H
  | H : negb _ = true |- _ => apply negb_true_iff in H
  | H : negb _ = false |- _ => apply negb_false_iff in H
  | H : (_ =? _) = true |- _ => apply Z.eqb_eq in H
  | H : (_ =? _) = false |- _ => apply Z.eqb_neq in H
  | H : (_ <? _) = true |- _ => apply Z.ltb_lt in H
  | H : (_ <? _) = false |- _ => apply Z.ltb_ge in H
  | H : (_ <=? _) = true |- _ => apply Z.leb_le in H
  | H : (_ <=? _) = false |- _ => apply Z.leb_gt in H
  | H : (_ >? _) = _ |- _ => rewrite Z.gtb_ltb in H
  | H : (_ >=? _) = _ |- _ => rewrite Z.geb_leb in H
  end.

(** Case on every boolean comparison that guards an [if] of the goal. *)
Ltac case_if :=
  match goal with
  | |- context [if ?b then _ else _] =>
      lazymatch b with context [if _ then _ else _] => fail | _ => destruct b eqn:? end
  end.

(** Linear arithmetic with division and remainder by constants. *)
Ltac zlia := zbool; Z.to_euclidean_division_equations; lia.

(** Decide every comparison of the goal that linear arithmetic settles. *)
Ltac decide_cmp :=
  repeat match goal with
  | |- context [?a <=? ?b] =>
      first [rewrite (proj2 (Z.leb_le a b)) by lia | rewrite (proj2 (Z.leb_gt a b)) by lia]
  | |- context [?a <? ?b] =>
      first [rewrite (proj2 (Z.ltb_lt a b)) by lia | rewrite (proj2 (Z.ltb_ge a b)) by lia]
  end.

(** ** Wrapping *)
Lemma pow2_pos w : 0 <= w -> 0 < 2 ^ w.
Proof. intros. apply Z.pow_pos_nonneg; lia. Qed.

Lemma wrapu_range w x : 0 <= w -> 0 <= wrapu w x < 2 ^ w.
Proof. intros. apply Z.mod_pos_bound, pow2_pos; lia. Qed.

Lemma wrapu_small w x : 0 <= x < 2 ^ w -> wrapu w x = x.
Proof. apply Z.mod_small. Qed.

Lemma wrapu_idem w x : 0 <= w -> wrapu w (wrapu w x) = wrapu w x.
Proof. intros. apply wrapu_small, wrapu_range; lia. Qed.

Lemma wrapu_add_l w x y : wrapu w (wrapu w x + y) = wrapu w (x + y).
Proof. apply Zplus_mod_idemp_l. Qed.

Lemma wrapu_add_r w x y : wrapu w (x + wrapu w y) = wrapu w (x + y).
Proof. apply Zplus_mod_idemp_r. Qed.

Lemma wrapu_mul_l w x y : wrapu w (wrapu w x * y) = wrapu w (x * y).
Proof. apply Zmult_mod_idemp_l. Qed.

Lemma wrapu_mul_r w x y : wrapu w (x * wrapu w y) = wrapu w (x * y).
Proof. apply Zmult_mod_idemp_r. Qed.

Lemma wrapu_testbit w x i :
  0 <= w -> Z.testbit (wrapu w x) i = (i <? w) && Z.testbit x i.
Proof.
  intros Hw. unfold wrapu. destruct (i <? w) eqn:E; zbool; simpl.
  - apply Z.mod_pow2_bits_low; lia.
  - apply Z.mod_pow2_bits_high; lia.
Qed.

Lemma wraps_range w x : 0 < w -> in_s w (wraps w x).
Proof.
  intros. unfold wraps, in_s.
  pose proof (Z.mod_pos_bound (x + 2 ^ (w - 1)) (2 ^ w) ltac:(apply pow2_pos; lia)).
  replace (2 ^ w) with (2 * 2 ^ (w - 1)) in *; [lia|].
  rewrite <- Z.pow_succ_r by lia. f_equal; lia.
Qed.

Lemma wraps_small w x : 0 < w -> in_s w x -> wraps w x = x.
Proof.
  intros Hw H. unfold wraps, in_s in *. rewrite Z.mod_small; [lia|].
  replace (2 ^ w) with (2 * 2 ^ (w - 1)); [lia|].
  rewrite <- Z.pow_succ_r by lia. f_equal; lia.
Qed.

Lemma checked_some w x y : checked w x = Some y <-> in_s w x /\ y = x.
Proof.
  unfold checked, in_sb, in_s. split.
  - case_if; intros H; [|discriminate]. zbool. split; [lia|congruence].
  - intros [H ->]. case_if; [reflexivity|]. zbool. lia.
Qed.

Lemma checked_in w x : in_s w x -> checked w x = Some x.
Proof. intros. apply checked_some; auto. Qed.

(** The widths in use, as literal bounds for [lia]. *)
Lemma in_s64_iff x : in_s 64 x <-> - 9223372036854775808 <= x < 9223372036854775808.
Proof. unfold in_s. change (2 ^ (64 - 1)) with 9223372036854775808. lia. Qed.

Lemma in_u64_iff x : in_u 64 x <-> 0 <= x < 18446744073709551616.
Proof. unfold in_u. change (2 ^ 64) with 18446744073709551616. lia. Qed.

Lemma in_u32_iff x : in_u 32 x <-> 0 <= x < 4294967296.
Proof. unfold in_u. change (2 ^ 32) with 4294967296. lia. Qed.

Lemma wraps_unique w x k : 0 < w -> in_s w (x + k * 2 ^ w) -> wraps w x = x + k * 2 ^ w.
Proof.
  intros Hw H. rewrite <- (wraps_small w (x + k * 2 ^ w)) by assumption. unfold wraps.
  replace (x + k * 2 ^ w + 2 ^ (w - 1)) with (x + 2 ^ (w - 1) + k * 2 ^ w) by lia.
  rewrite Z.mod_add by (pose proof (pow2_pos w); lia). reflexivity.
Qed.

Lemma wraps_of_wrapu w x : 0 < w -> wraps w (wrapu w x) = wraps w x.
Proof.
  intros. unfold wraps, wrapu. rewrite Zplus_mod_idemp_l. reflexivity.
Qed.

(** ** Bits of values *)
Lemma testbit_above w x i : in_u w x -> 0 <= w <= i -> Z.testbit x i = false.
Proof.
  intros Hx Hi. rewrite <- (Z.mod_small x (2 ^ w)) by exact Hx.
  apply Z.mod_pow2_bits_high. lia.
Qed.

Lemma in_u_bits w x :
  0 <= w -> (forall i, w <= i -> Z.testbit x i = false) -> 0 <= x -> in_u w x.
Proof.
  intros Hw H Hx. split; [lia|].
  destruct (Z.eq_dec x 0) as [->|]; [apply pow2_pos; lia|].
  apply Z.log2_lt_pow2; [lia|].
  destruct (Z.lt_ge_cases (Z.log2 x) w) as [|Hge]; [assumption|].
  specialize (H _ Hge). rewrite Z.bit_log2 in H by lia. discriminate.
Qed.

(** A low part below [2^k] and a multiple of [2^k] have disjoint bits. *)
Lemma testbit_lohi k a b i :
  0 <= k -> in_u k a ->
  Z.testbit (a + 2 ^ k * b) i = if i <? k then Z.testbit a i else Z.testbit b (i - k).
Proof.
  intros Hk Ha. destruct (i <? k) eqn:E; zbool.
  - destruct (Z.lt_ge_cases i 0); [now rewrite !Z.testbit_neg_r by lia|].
    rewrite <- (Z.mod_pow2_bits_low (a + 2 ^ k * b) k) by lia.
    rewrite Z.mul_comm, Z.mod_add by (apply Z.pow_nonzero; lia).
    rewrite Z.mod_small; auto.
  - replace i with ((i - k) + k) at 1 by lia.
    rewrite <- Z.div_pow2_bits by lia. f_equal.
    rewrite Z.mul_comm, Z.div_add by (apply Z.pow_nonzero; lia).
    rewrite Z.div_small; auto.
Qed.

Lemma lor_lohi k a b : 0 <= k -> in_u k a -> Z.lor a (Z.shiftl b k) = a + 2 ^ k * b.
Proof.
  intros Hk Ha. apply Z.bits_inj'. intros i Hi.
  rewrite testbit_lohi, Z.lor_spec, Z.shiftl_spec by assumption.
  destruct (i <? k) eqn:E; zbool.
  - rewrite (Z.testbit_neg_r b) by lia. apply orb_false_r.
  - rewrite (testbit_above k a) by (auto; lia). reflexivity.
Qed.

Lemma in_u_land_l w x y : 0 <= w -> in_u w x -> in_u w (Z.land x y).
Proof.
  intros Hw Hx. apply in_u_bits; [lia| |apply Z.land_nonneg; left; apply Hx].
  intros i Hi. rewrite Z.land_spec, (testbit_above w x); auto; lia.
Qed.

Lemma in_u_lor w x y : 0 <= w -> in_u w x -> in_u w y -> in_u w (Z.lor x y).
Proof.
  intros Hw Hx Hy. apply in_u_bits; [lia| |apply Z.lor_nonneg; split; [apply Hx|apply Hy]].
  intros i Hi. rewrite Z.lor_spec, !(testbit_above w) by (auto; lia). reflexivity.
Qed.

Lemma in_u_lxor w x y : 0 <= w -> in_u w x -> in_u w y -> in_u w (Z.lxor x y).
Proof.
  intros Hw Hx Hy. apply in_u_bits; [lia| |].
  - intros i Hi. rewrite Z.lxor_spec, !(testbit_above w) by (auto; lia). reflexivity.
  - apply Z.lxor_nonneg; split; intros _; [apply Hy|apply Hx].
Qed.

Lemma in_u_shiftr w x n : 0 <= w -> 0 <= n -> in_u w x -> in_u w (Z.shiftr x n).
Proof.
  intros Hw Hn Hx. rewrite Z.shiftr_div_pow2 by lia. unfold in_u in *.
  pose proof (pow2_pos n Hn). split; [apply Z.div_pos; lia|].
  apply Z.div_lt_upper_bound; nia.
Qed.

(** Shift-and-mask works piecewise on a low part of [k] bits when the mask of the
    low part leaves out the [s] bits the shift brings down from the high part. *)
Lemma land_shiftr_lohi k s a b m n :
  0 <= s <= k -> in_u k a -> in_u (k - s) m ->
  Z.land (Z.shiftr (a + 2 ^ k * b) s) (m + 2 ^ k * n) =
  Z.land (Z.shiftr a s) m + 2 ^ k * Z.land (Z.shiftr b s) n.
Proof.
  intros Hs Ha Hm.
  assert (Hmk : in_u k m).
  { unfold in_u in *. split; [lia|].
    apply Z.lt_le_trans with (2 ^ (k - s)); [lia|apply Z.pow_le_mono_r; lia]. }
  apply Z.bits_inj'. intros i Hi.
  rewrite Z.land_spec, Z.shiftr_spec, !testbit_lohi by (auto; lia).
  destruct (i <? k) eqn:Ek; zbool.
  - rewrite testbit_lohi;
      [|lia|rewrite Z.land_comm; apply in_u_land_l; [lia|exact Hmk]].
    replace (i <? k) with true by (symmetry; apply Z.ltb_lt; lia).
    rewrite Z.land_spec, Z.shiftr_spec by lia.
    destruct (i + s <? k) eqn:E; zbool; [reflexivity|].
    rewrite (testbit_above (k - s) m i) by (auto; lia). now rewrite !andb_false_r.
  - rewrite testbit_lohi;
      [|lia|rewrite Z.land_comm; apply in_u_land_l; [lia|exact Hmk]].
    replace (i <? k) with false by (symmetry; apply Z.ltb_ge; lia).
    replace (i + s <? k) with false by (symmetry; apply Z.ltb_ge; lia).
    rewrite Z.land_spec, Z.shiftr_spec by lia. do 2 f_equal. lia.
Qed.

(** Clearing the [k] low bits of a word. *)
Lemma land_clear_low w k v : 0 <= k -> 0 <= w -> in_u w v ->
  Z.land v (wrapu w (Z.lnot (Z.ones k))) = 2 ^ k * (v / 2 ^ k).
Proof.
  intros Hk Hw R. rewrite Z.mul_comm, <- Z.shiftr_div_pow2, <- Z.shiftl_mul_pow2 by lia.
  apply Z.bits_inj'. intros i Hi. rewrite Z.land_spec, wrapu_testbit, Z.lnot_spec, Z.testbit_ones_nonneg by lia.
  destruct (Z.lt_ge_cases i k) as [C|C].
  - rewrite Z.shiftl_spec_low, (proj2 (Z.ltb_lt i k)) by lia. cbn [negb]. now rewrite !andb_false_r.
  - rewrite Z.shiftl_spec, Z.shiftr_spec, Z.sub_add, (proj2 (Z.ltb_ge i k)) by lia. cbn [negb]. rewrite andb_true_r.
    destruct (i <? w) eqn:E; zbool; [apply andb_true_r|now rewrite (testbit_above w v) by (auto; lia)].
Qed.

(** ** Exhaustive checks over small ranges *)
Fixpoint forallb_below (n : nat) (p : Z -> bool) : bool :=
  match n with
  | O => true
  | S n' => p (Z.of_nat n') && forallb_below n' p
  end.

Lemma forallb_below_spec n p :
  forallb_below n p = true -> forall x, 0 <= x < Z.of_nat n -> p x = true.
Proof.
  induction n as [|n IH]; intros H x Hx; [lia|].
  simpl in H. apply andb_true_iff in H as [H1 H2].
  destruct (Z.eq_dec x (Z.of_nat n)) as [->|]; [exact H1|apply IH; auto; lia].
Qed.

(** ** Byte lists, least significant byte first *)
Fixpoint le_val (bs : list Z) : Z :=
  match bs with
  | [] => 0
  | b :: bs' => b + 256 * le_val bs'
  end.

Fixpoint le_bytes (n : nat) (x : Z) : list Z :=
  match n with
  | O => []
  | S n' => x mod 256 :: le_bytes n' (x / 256)
  end.

Lemma le_bytes_length n x : length (le_bytes n x) = n.
Proof. revert x. induction n; intros; simpl; auto. Qed.

Lemma le_bytes_forall n x : Forall (in_u 8) (le_bytes n x).
Proof.
  revert x. induction n; intros; simpl; constructor; auto. unfold in_u. zlia.
Qed.

Lemma le_val_bytes n x : in_u (8 * Z.of_nat n) x -> le_val (le_bytes n x) = x.
Proof.
  unfold in_u. revert x. induction n as [|n IH]; intros x Hx.
  - change (8 * Z.of_nat 0) with 0 in Hx. simpl. lia.
  - cbn [le_bytes le_val].
    replace (8 * Z.of_nat (S n)) with (8 + 8 * Z.of_nat n) in Hx by lia.
    rewrite Z.pow_add_r in Hx by lia. rewrite IH; zlia.
Qed.

Lemma le_bytes_val bs :
  Forall (in_u 8) bs -> le_bytes (length bs) (le_val bs) = bs.
Proof.
  induction 1 as [|b bs Hb _ IH]; [reflexivity|].
  unfold in_u in Hb. cbn [length le_bytes le_val].
  replace ((b + 256 * le_val bs) mod 256) with b by zlia.
  replace ((b + 256 * le_val bs) / 256) with (le_val bs) by zlia.
  now rewrite IH.
Qed.

Lemma le_val_range bs : Forall (in_u 8) bs -> in_u (8 * Z.of_nat (length bs)) (le_val bs).
Proof.
  induction 1 as [|b bs Hb _ IH]; [unfold in_u; cbn; lia|]. unfold in_u in *.
  cbn [length le_val]. replace (8 * Z.of_nat (S (length bs))) with (8 + 8 * Z.of_nat (length bs)) by lia.
  rewrite Z.pow_add_r by lia. lia.
Qed.

Lemma le_val_app xs ys :
  le_val (xs ++ ys) = le_val xs + 2 ^ (8 * Z.of_nat (length xs)) * le_val ys.
Proof.
  induction xs as [|x xs IH]; [change (8 * Z.of_nat (length (@nil Z))) with 0; cbn [app le_val]; lia|].
  cbn [app le_val length].
  replace (8 * Z.of_nat (S (length xs))) with (8 + 8 * Z.of_nat (length xs)) by lia.
  rewrite IH, Z.pow_add_r by lia. lia.
Qed.

(** Shifting whole bytes out, and storing more bytes than there are. *)
Lemma le_val_shiftr xs ys : Forall (in_u 8) xs ->
  Z.shiftr (le_val (xs ++ ys)) (8 * Z.of_nat (length xs)) = le_val ys.
Proof.
  intros F. pose proof (le_val_range xs F) as R. unfold in_u in R. rewrite Z.shiftr_div_pow2, le_val_app by lia.
  rewrite Z.mul_comm, Z.div_add by lia. rewrite Z.div_small by exact R. reflexivity.
Qed.

Lemma le_bytes_pad bs k : Forall (in_u 8) bs -> le_bytes (length bs + k) (le_val bs) = bs ++ repeat 0 k.
Proof.
  induction 1 as [|b bs Hb _ IH]; cbn [length Nat.add le_val app].
  - induction k as [|k IHk]; [reflexivity|]. cbn [le_bytes repeat]. f_equal. exact IHk.
  - unfold in_u in Hb. change (2 ^ 8) with 256 in Hb. cbn [le_bytes].
    replace ((b + 256 * le_val bs) mod 256) with b by zlia.
    replace ((b + 256 * le_val bs) / 256) with (le_val bs) by zlia. now rewrite IH.
Qed.

(** The word whose [n] bytes are all [m]. *)
Definition rep_byte (n : nat) (m : Z) : Z := le_val (repeat m n).

Definition zsum (l : list Z) : Z := fold_right Z.add 0 l.

(** ** Arrays as lists

    [write] is the store of one cell and [read] the load of one; outside the array both are
    undefined behaviour. *)
Fixpoint replace_nth {A} (n : nat) (x : A) (l : list A) : list A :=
  match l, n with
  | [], _ => []
  | _ :: t, O => x :: t
  | y :: t, S n' => y :: replace_nth n' x t
  end.

Definition read {A} (l : list A) (i : Z) : option A :=
  if 0 <=? i then nth_error l (Z.to_nat i) else None.

Definition write {A} (l : list A) (i : Z) (x : A) : option (list A) :=
  if (0 <=? i) && (i <? Z.of_nat (length l)) then Some (replace_nth (Z.to_nat i) x l) else None.

Section Arrays.
Context {A : Type}.
Implicit Types (l : list A) (x d : A).

Lemma replace_nth_length n x l : length (replace_nth n x l) = length l.
Proof. revert n. induction l; intros [|n]; cbn; auto. Qed.

Lemma nth_replace_nth n x l k d :
  nth k (replace_nth n x l) d = if (k =? n)%nat && (n <? length l)%nat then x else nth k l d.
Proof.
  revert n k. induction l as [|y l IH]; intros n k; cbn [replace_nth length].
  - rewrite andb_false_r. now destruct n.
  - destruct n as [|n], k as [|k]; cbn; auto.
Qed.

Lemma nth_error_replace_nth n x l k :
  nth_error (replace_nth n x l) k = if (k =? n)%nat && (n <? length l)%nat then Some x else nth_error l k.
Proof.
  revert n k. induction l as [|y l IH]; intros n k; cbn [replace_nth length].
  - rewrite andb_false_r. now destruct n.
  - destruct n as [|n], k as [|k]; cbn; auto.
Qed.

Lemma Forall_replace_nth (Q : A -> Prop) n x l : Q x -> Forall Q l -> Forall Q (replace_nth n x l).
Proof. intros Hx. revert n. induction l; intros [|n] H; inversion H; subst; cbn; auto. Qed.

Lemma write_some l i x :
  0 <= i < Z.of_nat (length l) -> write l i x = Some (replace_nth (Z.to_nat i) x l).
Proof.
  intros H. unfold write. rewrite (proj2 (Z.leb_le _ _)), (proj2 (Z.ltb_lt _ _)) by lia. reflexivity.
Qed.

Lemma read_some l i d : 0 <= i < Z.of_nat (length l) -> read l i = Some (nth (Z.to_nat i) l d).
Proof.
  intros H. unfold read. rewrite (proj2 (Z.leb_le _ _)) by lia. apply nth_error_nth'. lia.
Qed.

(** Replacing one cell changes a concatenation of images by that cell's image. *)
Lemma flat_map_replace_nth {B} (f : A -> list B) n x l y :
  nth_error l n = Some y ->
  Permutation (f y ++ flat_map f (replace_nth n x l)) (f x ++ flat_map f l).
Proof.
  revert n. induction l as [|z l IH]; intros [|n] E; try discriminate; cbn in *.
  - injection E as ->. rewrite !app_assoc. apply Permutation_app_tail, Permutation_app_comm.
  - rewrite !app_assoc. rewrite (Permutation_app_comm (f y)), (Permutation_app_comm (f x)), <- !app_assoc.
    apply Permutation_app_head. now apply IH.
Qed.
End Arrays.

Lemma combine_replace_nth {A B} n (x : A) (y : B) l l' :
  combine (replace_nth n x l) (replace_nth n y l') = replace_nth n (x, y) (combine l l').
Proof.
  revert n l'. induction l as [|a l IH]; intros n l'; [now destruct n|].
  destruct l', n; cbn; auto. now rewrite IH.
Qed.

Lemma nth_error_combine {A B} n (l : list A) (l' : list B) :
  nth_error (combine l l') n =
  match nth_error l n, nth_error l' n with Some a, Some b => Some (a, b) | _, _ => None end.
Proof.
  revert n l'. induction l as [|a l IH]; intros n l'; [now destruct n|].
  destruct l', n; cbn; auto. now destruct (nth_error l n).
Qed.

(** Stores cell after cell, and what a run of stores leaves. *)
Fixpoint store {A} (dst : list A) (d : Z) (bytes : list A) : option (list A) :=
  match bytes with
  | [] => Some dst
  | b :: bytes' => (do dst <- write dst d b; store dst (d + 1) bytes')%mach
  end.

Lemma store_spec {A} (bytes : list A) : forall dst d, (d + length bytes <= length dst)%nat ->
  store dst (Z.of_nat d) bytes = Some (firstn d dst ++ bytes ++ skipn (d + length bytes) dst).
Proof.
  induction bytes as [|b bytes IH]; intros dst d H; cbn [store length app].
  - now rewrite Nat.add_0_r, firstn_skipn.
  - cbn [length] in H. rewrite write_some by lia. cbn [obind]. rewrite Nat2Z.id.
    replace (Z.of_nat d + 1) with (Z.of_nat (S d)) by lia. rewrite IH by (rewrite replace_nth_length; lia).
    f_equal. replace (S d + length bytes)%nat with (d + S (length bytes))%nat by lia.
    clear IH. revert d H. induction dst as [|x dst IHd]; intros d H; cbn in H; [lia|].
    destruct d as [|d]; [reflexivity|]. cbn [replace_nth firstn app Nat.add skipn]. f_equal. rewrite <- IHd by lia.
    reflexivity.
Qed.

Lemma write_store {A} (dst : list A) d c : write dst d c = store dst d [c].
Proof. cbn. now destruct (write dst d c). Qed.

Lemma stored_length {A} (dst bytes : list A) d : (d + length bytes <= length dst)%nat ->
  length (firstn d dst ++ bytes ++ skipn (d + length bytes) dst) = length dst.
Proof. intros H. rewrite !length_app, length_firstn, length_skipn. lia. Qed.

(** ** Comparing texts *)
Fixpoint list_eqb (a b : list Z) : bool :=
  match a, b with
  | [], [] => true
  | x :: a', y :: b' => (x =? y) && list_eqb a' b'
  | _, _ => false
  end.

Lemma list_eqb_eq a : forall b, list_eqb a b = true -> a = b.
Proof.
  induction a as [|x a IH]; intros [|y b]; try discriminate; [reflexivity|]. cbn.
  rewrite andb_true_iff, Z.eqb_eq. intros (-> & H). f_equal. auto.
Qed.

Create HintDb mach.
#[export] Hint Resolve wrapu_range wraps_range in_u_land_l in_u_lor in_u_lxor in_u_shiftr
  pow2_pos : mach.
