(* ===== verification/Bits.v ===== *)
(** [absl/numeric/bits.h], [absl/numeric/internal/bits.h]: the portable bit
    routines (the branches taken when no compiler builtin is available). *)
From Stdlib Require Import ZArith Lia List Bool.
From S2P Require Import Prelude.
Import ListNotations.
#[local] Open Scope Z_scope.
#[local] Open Scope mach_scope.

(** ** Definitions *)

(** The type a [w]-bit unsigned operand is promoted to has at least 32 bits. *)
Definition promoted (w : Z) : Z := Z.max w 32.

Definition IsPowerOf2 (x : Z) : bool :=
  negb (x =? 0) && (x .& (x -[32] 1) =? 0).

Definition RotateRight (w x s : Z) : Z :=
  let n := w in
  let r := s .& (n - 1) in
  if r =? 0 then x
  else wrapu w ((x >> r) .| (x <<[promoted w] (n - r))).

Definition RotateLeft (w x s : Z) : Z :=
  let n := w in
  let r := s .& (n - 1) in
  if r =? 0 then x
  else wrapu w ((x <<[promoted w] r) .| (x >> (n - r))).

Definition Popcount32 (x : Z) : Z :=
  let x := x -[32] ((x >> 1) .& 0x55555555) in
  let x := ((x >> 2) .& 0x33333333) +[32] (x .& 0x33333333) in
  (((x +[32] (x >> 4)) .& 0xF0F0F0F) *[32] 0x1010101) >> 24.

Definition Popcount64 (x : Z) : Z :=
  let x := x -[64] ((x >> 1) .& 0x5555555555555555) in
  let x := ((x >> 2) .& 0x3333333333333333) +[64] (x .& 0x3333333333333333) in
  (((x +[64] (x >> 4)) .& 0xF0F0F0F0F0F0F0F) *[64] 0x101010101010101) >> 56.

Definition Popcount (w x : Z) : Z :=
  if w <=? 32 then Popcount32 x else Popcount64 x.

(** The string literal that the leading-zero counts index; position 15 is its
    terminating NUL. *)
Definition clz_table : list Z := [4;3;2;2;1;1;1;1;0;0;0;0;0;0;0;0].

(** One [if (x >> k) { zeroes -= k; x >>= k; }] step on the pair (zeroes, x). *)
Definition clz_step (k : Z) (st : Z * Z) : Z * Z :=
  let '(zeroes, x) := st in
  if negb (x >> k =? 0) then (zeroes - k, x >> k) else (zeroes, x).

Definition CountLeadingZeroes32 (x : Z) : Z :=
  let '(zeroes, x) := clz_step 4 (clz_step 8 (clz_step 16 (28, x))) in
  nth (Z.to_nat x) clz_table 0 + zeroes.

Definition CountLeadingZeroes16 (x : Z) : Z := CountLeadingZeroes32 x - 16.

Definition CountLeadingZeroes64 (x : Z) : Z :=
  let '(zeroes, x) := clz_step 4 (clz_step 8 (clz_step 16 (clz_step 32 (60, x)))) in
  nth (Z.to_nat x) clz_table 0 + zeroes.

Definition CountLeadingZeroes (w x : Z) : Z :=
  if w <=? 16 then CountLeadingZeroes16 (wrapu 16 x) - (16 - w)
  else if w <=? 32 then CountLeadingZeroes32 (wrapu 32 x) - (32 - w)
  else CountLeadingZeroes64 x.

(** One [if (x & mask) c -= k;] step. *)
Definition ctz_step (x mask k c : Z) : Z :=
  if negb (x .& mask =? 0) then c - k else c.

Definition CountTrailingZeroesNonzero32 (x : Z) : Z :=
  let c := 31 in
  let x := x .& (~[32] x +[32] 1) in
  let c := ctz_step x 0x0000FFFF 16 c in
  let c := ctz_step x 0x00FF00FF 8 c in
  let c := ctz_step x 0x0F0F0F0F 4 c in
  let c := ctz_step x 0x33333333 2 c in
  ctz_step x 0x55555555 1 c.

Definition CountTrailingZeroesNonzero64 (x : Z) : Z :=
  let c := 63 in
  let x := x .& (~[64] x +[64] 1) in
  let c := ctz_step x 0x00000000FFFFFFFF 32 c in
  let c := ctz_step x 0x0000FFFF0000FFFF 16 c in
  let c := ctz_step x 0x00FF00FF00FF00FF 8 c in
  let c := ctz_step x 0x0F0F0F0F0F0F0F0F 4 c in
  let c := ctz_step x 0x3333333333333333 2 c in
  ctz_step x 0x5555555555555555 1 c.

Definition CountTrailingZeroesNonzero16 (x : Z) : Z := CountTrailingZeroesNonzero32 x.

Definition CountTrailingZeroes (w x : Z) : Z :=
  if x =? 0 then w
  else if w <=? 16 then CountTrailingZeroesNonzero16 (wrapu 16 x)
  else if w <=? 32 then CountTrailingZeroesNonzero32 (wrapu 32 x)
  else CountTrailingZeroesNonzero64 x.

(** [T{1} << n] in the promoted type of [T]: [int] for a narrow [T], [T] itself
    otherwise; a shift by the width of the promoted type or more is undefined. *)
Definition shl_one (w n : Z) : option Z :=
  if n <? promoted w then
    Some (if w <? 32 then wraps 32 (Z.shiftl 1 n) else wrapu w (Z.shiftl 1 n))
  else None.

Definition BitCeilPromotionHelper (w x promotion : Z) : option Z :=
  do v <- shl_one w (x + promotion); Some (wrapu w (v >> promotion)).

Definition BitCeilNonPowerOf2 (w x : Z) : option Z :=
  BitCeilPromotionHelper w (wrapu w (w - CountLeadingZeroes w x))
    (if 32 <=? w then 0 else 32 - w).

Definition rotl (w x s : Z) : Z := RotateLeft w x s.

Definition rotr (w x s : Z) : Z := RotateRight w x s.

Definition countl_zero (w x : Z) : Z := CountLeadingZeroes w x.

Definition countl_one (w x : Z) : Z := countl_zero w (~[w] x).

Definition countr_zero (w x : Z) : Z := CountTrailingZeroes w x.

Definition countr_one (w x : Z) : Z := countr_zero w (~[w] x).

Definition popcount (w x : Z) : Z := Popcount w x.

(** [x - 1] is computed in the promoted type; for a narrow [T] and [x = 0] it is
    the negative [int] -1, but that operand is not reached then. *)
Definition has_single_bit (w x : Z) : bool :=
  negb (x =? 0) && (x .& (x - 1) =? 0).

Definition bit_width (w x : Z) : Z := w - countl_zero w x.

Definition bit_floor (w x : Z) : option Z :=
  if x =? 0 then Some 0
  else do v <- shl_one w (bit_width w x - 1); Some (wrapu w v).

Definition bit_ceil (w x : Z) : option Z :=
  if has_single_bit w x
  then do v <- shl_one w (bit_width w x - 1); Some (wrapu w v)
  else BitCeilNonPowerOf2 w x.

(** The widths of the unsigned types of the source. *)
Definition std_width (w : Z) : Prop := w = 8 \/ w = 16 \/ w = 32 \/ w = 64.

(** ** Specifications *)

(** The number of set bits among the [n] low bits. *)
Fixpoint bitcount (n : nat) (x : Z) : Z :=
  match n with
  | O => 0
  | S n' => Z.b2z (Z.odd x) + bitcount n' (Z.div2 x)
  end.

(** [t] is the number of trailing zero bits of the non-zero [x]. *)
Definition trailing_zeros (x t : Z) : Prop :=
  0 <= t /\ Z.testbit x t = true /\ forall i, 0 <= i < t -> Z.testbit x i = false.

(** ** Population count *)

(** The first two steps of the counting trick, without wrap-around. *)
Definition pairs (m5 x : Z) : Z := x - ((x >> 1) .& m5).
Definition nibbles (m3 x : Z) : Z := ((x >> 2) .& m3) + (x .& m3).

Lemma pairs_byte a : in_u 8 a -> in_u 8 (pairs 0x55 a).
Proof.
  intros Ha.
  enough (H : (0 <=? pairs 0x55 a) && (pairs 0x55 a <? 256) = true)
    by (zbool; unfold in_u; lia).
  apply (forallb_below_spec 256 (fun a => (0 <=? pairs 0x55 a) && (pairs 0x55 a <? 256)));
    [vm_compute; reflexivity|exact Ha].
Qed.

Lemma nibbles_byte a :
  in_u 8 a ->
  let n := nibbles 0x33 (pairs 0x55 a) in
  in_u 8 n /\ n mod 16 <= 4 /\ n / 16 <= 4 /\ n mod 16 + n / 16 = bitcount 8 a.
Proof.
  intros Ha n.
  pose (p := fun a => let n := nibbles 0x33 (pairs 0x55 a) in
    (0 <=? n) && (n <? 256) && (n mod 16 <=? 4) && (n / 16 <=? 4)
    && (n mod 16 + n / 16 =? bitcount 8 a)).
  assert (H : p a = true)
    by (apply (forallb_below_spec 256 p); [vm_compute; reflexivity|exact Ha]).
  unfold p in H. fold n in H. zbool. unfold in_u. lia.
Qed.

Lemma pairs_lohi a b m :
  in_u 8 a -> pairs (0x55 + 256 * m) (a + 256 * b) = pairs 0x55 a + 256 * pairs m b.
Proof.
  intros Ha. unfold pairs. change 256 with (2 ^ 8).
  rewrite land_shiftr_lohi by (auto; unfold in_u; lia). lia.
Qed.

Lemma nibbles_lohi a b m :
  in_u 8 a -> nibbles (0x33 + 256 * m) (a + 256 * b) = nibbles 0x33 a + 256 * nibbles m b.
Proof.
  intros Ha. unfold nibbles. change 256 with (2 ^ 8).
  rewrite land_shiftr_lohi by (auto; unfold in_u; lia).
  rewrite <- (Z.shiftr_0_r (a + _)), land_shiftr_lohi by (auto; unfold in_u; lia).
  rewrite !Z.shiftr_0_r. lia.
Qed.

(** The third step adds the two nibbles of every byte. *)
Lemma bytes_lohi a b m :
  in_u 8 a -> a mod 16 <= 4 -> a / 16 <= 4 -> b mod 16 <= 4 ->
  ((a + 256 * b) + ((a + 256 * b) >> 4)) .& (15 + 256 * m) =
  (a mod 16 + a / 16) + 256 * ((b + (b >> 4)) .& m).
Proof.
  intros Ha H1 H2 H3. unfold in_u in Ha. rewrite !Z.shiftr_div_pow2 by lia.
  set (lo := a mod 16 + a / 16).
  replace (a + 256 * b + (a + 256 * b) / 2 ^ 4)
    with ((lo + 16 * (a / 16 + b mod 16)) + 2 ^ 8 * (b + b / 2 ^ 4)) by (subst lo; zlia).
  change 256 with (2 ^ 8).
  assert (in_u 8 (lo + 16 * (a / 16 + b mod 16))) by (unfold in_u; subst lo; zlia).
  rewrite <- (Z.shiftr_0_r (_ + 2 ^ 8 * _)), land_shiftr_lohi
    by (auto; unfold in_u; lia).
  rewrite !Z.shiftr_0_r. f_equal.
  change 15 with (Z.ones 4). rewrite Z.land_ones by lia. subst lo. zlia.
Qed.

Lemma bitcount_lohi n m a b :
  in_u (Z.of_nat n) a ->
  bitcount (n + m) (a + 2 ^ Z.of_nat n * b) = bitcount n a + bitcount m b.
Proof.
  revert a. induction n as [|n IH]; intros a Ha.
  - unfold in_u in Ha. change (Z.of_nat 0) with 0 in *. change (2 ^ 0) with 1 in *.
    cbn [bitcount Nat.add]. replace (a + 1 * b) with b by lia. reflexivity.
  - cbn [bitcount Nat.add]. unfold in_u in *. rewrite Nat2Z.inj_succ, Z.pow_succ_r in Ha |- * by lia.
    rewrite !Z.div2_div, Z.odd_add, <- Z.mul_assoc, Z.odd_mul. simpl Z.odd at 2.
    rewrite andb_false_l, xorb_false_r.
    replace ((a + 2 * (2 ^ Z.of_nat n * b)) / 2) with (a / 2 + 2 ^ Z.of_nat n * b) by zlia.
    rewrite IH by zlia. lia.
Qed.

(** The same steps on a whole word, byte by byte. *)
Lemma pairs_word bs :
  Forall (in_u 8) bs ->
  pairs (rep_byte (length bs) 0x55) (le_val bs) = le_val (map (pairs 0x55) bs).
Proof.
  unfold rep_byte. induction 1 as [|b bs Hb _ IH]; [reflexivity|].
  cbn [length repeat le_val map]. rewrite pairs_lohi by assumption. now rewrite IH.
Qed.

Lemma nibbles_word bs :
  Forall (in_u 8) bs ->
  nibbles (rep_byte (length bs) 0x33) (le_val bs) = le_val (map (nibbles 0x33) bs).
Proof.
  unfold rep_byte. induction 1 as [|b bs Hb _ IH]; [reflexivity|].
  cbn [length repeat le_val map]. rewrite nibbles_lohi by assumption. now rewrite IH.
Qed.

Definition small_nibbles (a : Z) : Prop := in_u 8 a /\ a mod 16 <= 4 /\ a / 16 <= 4.

Lemma bytes_word bs :
  Forall small_nibbles bs ->
  (le_val bs + (le_val bs >> 4)) .& rep_byte (length bs) 15
  = le_val (map (fun a => a mod 16 + a / 16) bs).
Proof.
  unfold rep_byte. induction 1 as [|b bs (Hb & H1 & H2) Hbs IH]; [reflexivity|].
  cbn [length repeat le_val map]. rewrite bytes_lohi, IH; auto.
  destruct Hbs as [|c cs (Hc & Hl & _) _]; cbn [le_val]; [cbn; lia|].
  unfold in_u in *. zlia.
Qed.

Lemma small_nibbles_fit ns :
  Forall small_nibbles ns -> in_u (8 * Z.of_nat (length ns)) (le_val ns + (le_val ns >> 4)).
Proof.
  intros H. enough (0 <= le_val ns /\ 2 * le_val ns < 2 ^ (8 * Z.of_nat (length ns))).
  { unfold in_u. rewrite Z.shiftr_div_pow2 by lia. zlia. }
  induction H as [|b bs (Hb & H1 & H2) _ IH]; [cbn; lia|].
  cbn [length le_val]. replace (8 * Z.of_nat (S (length bs))) with (8 + 8 * Z.of_nat (length bs)) by lia.
  rewrite Z.pow_add_r by lia. unfold in_u in Hb. zlia.
Qed.

Lemma bitcount_word bs :
  Forall (in_u 8) bs -> bitcount (8 * length bs) (le_val bs) = zsum (map (bitcount 8) bs).
Proof.
  induction 1 as [|b bs Hb _ IH]; [reflexivity|].
  replace (8 * length (b :: bs))%nat with (8 + 8 * length bs)%nat by (simpl; lia).
  cbn [le_val map]. change 256 with (2 ^ Z.of_nat 8).
  rewrite bitcount_lohi, IH by exact Hb. reflexivity.
Qed.

Lemma bitcount_byte_range a : in_u 8 a -> 0 <= bitcount 8 a <= 8.
Proof.
  intros Ha. destruct (nibbles_byte a Ha) as (B & L & U & <-). unfold in_u in B. zlia.
Qed.

(** The three steps of the counting trick leave in each byte its bit count. *)
Lemma swar_word bs :
  Forall (in_u 8) bs ->
  let n := length bs in
  let w := 8 * Z.of_nat n in
  let x1 := le_val bs -[w] ((le_val bs >> 1) .& rep_byte n 0x55) in
  let x2 := ((x1 >> 2) .& rep_byte n 0x33) +[w] (x1 .& rep_byte n 0x33) in
  (x2 +[w] (x2 >> 4)) .& rep_byte n 15 = le_val (map (bitcount 8) bs).
Proof.
  intros Hbs n w x1 x2.
  assert (H1 : Forall (in_u 8) (map (pairs 0x55) bs))
    by (apply Forall_map; eapply Forall_impl; [|exact Hbs]; apply pairs_byte).
  assert (E1 : x1 = le_val (map (pairs 0x55) bs)).
  { subst x1. fold (pairs (rep_byte n 0x55) (le_val bs)). subst n. rewrite pairs_word by auto.
    apply wrapu_small. pose proof (le_val_range _ H1) as R. now rewrite length_map in R. }
  set (ns := map (nibbles 0x33) (map (pairs 0x55) bs)).
  assert (H2 : Forall small_nibbles ns).
  { subst ns. rewrite map_map. apply Forall_map. eapply Forall_impl; [|exact Hbs].
    intros a Ha. destruct (nibbles_byte a Ha) as (B & L & U & _). repeat split; auto; apply B. }
  assert (Ln : length ns = n) by (subst ns n; now rewrite !length_map).
  assert (E2 : x2 = le_val ns).
  { subst x2. rewrite E1. fold (nibbles (rep_byte n 0x33) (le_val (map (pairs 0x55) bs))).
    replace n with (length (map (pairs 0x55) bs)) by apply length_map.
    rewrite nibbles_word by auto. apply wrapu_small. fold ns. unfold w. rewrite <- Ln.
    apply le_val_range. eapply Forall_impl; [|exact H2]. now intros a (B & _). }
  rewrite E2, wrapu_small by (unfold w; rewrite <- Ln; now apply small_nibbles_fit).
  rewrite <- Ln, bytes_word by exact H2.
  f_equal. subst ns. rewrite !map_map. apply map_ext_in. intros a Ha.
  rewrite Forall_forall in Hbs. now destruct (nibbles_byte a (Hbs a Ha)) as (_ & _ & _ & E).
Qed.

(** Multiplying by 0x01..01 leaves the partial sums of the byte counts, so their
    total in the top byte. *)
Fixpoint psums (acc : Z) (cs : list Z) : list Z :=
  match cs with
  | [] => []
  | c :: cs' => (acc + c) :: psums (acc + c) cs'
  end.

Lemma rep_byte_succ n m : rep_byte (S n) m = rep_byte n m + 2 ^ (8 * Z.of_nat n) * m.
Proof.
  unfold rep_byte. change (S n) with (1 + n)%nat. rewrite Nat.add_comm, repeat_app, le_val_app, repeat_length.
  cbn [repeat le_val]. lia.
Qed.

Lemma psums_mul acc cs :
  exists q, le_val (psums acc cs) =
    (acc + le_val cs) * rep_byte (length cs) 1 + q * 2 ^ (8 * Z.of_nat (length cs)).
Proof.
  revert acc. induction cs as [|c cs IH]; intros acc.
  { exists 0. cbn. lia. }
  cbn [psums le_val length]. destruct (IH (acc + c)) as [q ->].
  exists (q - le_val cs).
  assert (E1 : rep_byte (S (length cs)) 1 = 1 + 256 * rep_byte (length cs) 1) by reflexivity.
  pose proof (rep_byte_succ (length cs) 1) as E2. rewrite E1 in *.
  replace (8 * Z.of_nat (S (length cs))) with (8 + 8 * Z.of_nat (length cs)) by lia.
  rewrite Z.pow_add_r by lia. change (2 ^ 8) with 256.
  set (R := rep_byte (length cs) 1) in *. set (P := 2 ^ _) in *. nia.
Qed.

Lemma psums_range acc cs :
  0 <= acc -> Forall (fun c => 0 <= c) cs -> acc + zsum cs < 256 ->
  Forall (in_u 8) (psums acc cs).
Proof.
  intros Ha Hc. revert acc Ha. induction Hc as [|c cs Hc Hcs IH]; intros acc Ha Hs.
  - constructor.
  - cbn [psums zsum fold_right] in *. fold (zsum cs) in Hs.
    assert (0 <= zsum cs) by (clear - Hcs; unfold zsum; induction Hcs; cbn in *; lia).
    constructor; [unfold in_u; lia|apply IH; lia].
Qed.

Lemma zsum_bound k cs :
  Forall (fun c => 0 <= c <= k) cs -> 0 <= zsum cs <= k * Z.of_nat (length cs).
Proof.
  unfold zsum. induction 1; cbn [fold_right length] in *; [lia|rewrite Nat2Z.inj_succ; nia].
Qed.

Lemma psums_snoc acc cs c : psums acc (cs ++ [c]) = psums acc cs ++ [acc + zsum cs + c].
Proof.
  revert acc. induction cs as [|d cs IH]; intros acc; cbn.
  - do 2 f_equal. lia.
  - rewrite IH. unfold zsum. cbn [fold_right]. do 3 f_equal. lia.
Qed.

Lemma psums_length acc cs : length (psums acc cs) = length cs.
Proof. revert acc. induction cs; intros; cbn; auto. Qed.

Lemma top_byte_sum n cs :
  length cs = S n -> Forall (fun c => 0 <= c) cs -> zsum cs < 256 ->
  (le_val cs *[8 * Z.of_nat (S n)] rep_byte (S n) 1) >> (8 * Z.of_nat n) = zsum cs.
Proof.
  intros Hl Hc Hs.
  assert (Hr : Forall (in_u 8) (psums 0 cs)) by (apply psums_range; auto; lia).
  destruct (psums_mul 0 cs) as [q Hq]. rewrite Hl in Hq.
  replace (le_val cs * rep_byte (S n) 1)
    with (le_val (psums 0 cs) + (- q) * 2 ^ (8 * Z.of_nat (S n))) by lia.
  unfold wrapu. rewrite Z.mod_add by (apply Z.pow_nonzero; lia).
  rewrite Z.mod_small
    by (rewrite <- Hl, <- (psums_length 0); apply (le_val_range _ Hr)).
  destruct (exists_last (l := cs)) as (cs' & c & ->); [now destruct cs|].
  rewrite psums_snoc in *. apply Forall_app in Hr as [Hr _].
  rewrite length_app in Hl. cbn in Hl. assert (length cs' = n) as <- by lia.
  pose proof (le_val_range _ Hr) as R. unfold in_u in R. rewrite psums_length in R.
  rewrite le_val_app, psums_length. cbn [le_val].
  rewrite Z.shiftr_div_pow2, Z.mul_comm, Z.div_add, Z.div_small by (auto; lia).
  unfold zsum. rewrite fold_right_app. cbn [fold_right].
  clear. induction cs'; cbn in *; lia.
Qed.

Lemma Popcount32_bitcount x : in_u 32 x -> Popcount32 x = bitcount 32 x.
Proof.
  intros Hx. rewrite <- (le_val_bytes 4 x) by exact Hx.
  set (bs := le_bytes 4 x). pose proof (le_bytes_forall 4 x : Forall (in_u 8) bs) as Hbs.
  pose proof (swar_word bs Hbs) as S. pose proof (bitcount_word bs Hbs) as C.
  change (length bs) with 4%nat in S, C. cbv zeta in S.
  change (8 * Z.of_nat 4) with 32 in S.
  change (rep_byte 4 85) with 0x55555555 in S. change (rep_byte 4 51) with 0x33333333 in S.
  change (rep_byte 4 15) with 0x0F0F0F0F in S. change (8 * 4)%nat with 32%nat in C.
  unfold Popcount32. rewrite S, C. clear S C.
  assert (Forall (fun c => 0 <= c <= 8) (map (bitcount 8) bs)).
  { apply Forall_map. eapply Forall_impl; [|exact Hbs]. apply bitcount_byte_range. }
  apply (top_byte_sum 3); [reflexivity| |].
  - eapply Forall_impl; [|eassumption]. cbn. lia.
  - apply zsum_bound in H. rewrite length_map, (le_bytes_length _ x : length bs = _) in H. lia.
Qed.

Lemma Popcount64_bitcount x : in_u 64 x -> Popcount64 x = bitcount 64 x.
Proof.
  intros Hx. rewrite <- (le_val_bytes 8 x) by exact Hx.
  set (bs := le_bytes 8 x). pose proof (le_bytes_forall 8 x : Forall (in_u 8) bs) as Hbs.
  pose proof (swar_word bs Hbs) as S. pose proof (bitcount_word bs Hbs) as C.
  change (length bs) with 8%nat in S, C. cbv zeta in S.
  change (8 * Z.of_nat 8) with 64 in S.
  change (rep_byte 8 85) with 0x5555555555555555 in S.
  change (rep_byte 8 51) with 0x3333333333333333 in S.
  change (rep_byte 8 15) with 0x0F0F0F0F0F0F0F0F in S. change (8 * 8)%nat with 64%nat in C.
  unfold Popcount64. rewrite S, C. clear S C.
  assert (Forall (fun c => 0 <= c <= 8) (map (bitcount 8) bs)).
  { apply Forall_map. eapply Forall_impl; [|exact Hbs]. apply bitcount_byte_range. }
  apply (top_byte_sum 7); [reflexivity| |].
  - eapply Forall_impl; [|eassumption]. cbn. lia.
  - apply zsum_bound in H. rewrite length_map, (le_bytes_length _ x : length bs = _) in H. lia.
Qed.

(** ** Leading zeros *)

(** The number of bits needed to write [x]. *)
Definition bitlen (x : Z) : Z := if x =? 0 then 0 else Z.log2 x + 1.

Lemma bitlen_bound w x : 0 <= w -> in_u w x -> 0 <= bitlen x <= w.
Proof.
  intros Hw [H0 H1]. unfold bitlen. case_if; zbool; [lia|].
  pose proof (Z.log2_nonneg x). assert (Z.log2 x < w) by (apply Z.log2_lt_pow2; lia). lia.
Qed.

Lemma bitlen_shiftr k x : 0 <= k -> 0 <= x -> x >> k <> 0 -> bitlen (x >> k) = bitlen x - k.
Proof.
  intros Hk Hx Hn. assert (x <> 0) by (intros ->; now rewrite Z.shiftr_0_l in Hn).
  assert (0 <= x >> k) by (apply Z.shiftr_nonneg; lia).
  assert (Hl : k <= Z.log2 x).
  { destruct (Z.lt_ge_cases (Z.log2 x) k) as [Hlt|]; [|lia].
    rewrite Z.shiftr_div_pow2, Z.div_small in Hn; [lia| |lia].
    split; [lia|]. apply Z.log2_lt_pow2; lia. }
  unfold bitlen. do 2 (case_if; zbool; try lia). rewrite Z.log2_shiftr by lia. lia.
Qed.

Lemma clz_step_spec k z x z' x' :
  0 < k -> in_u (2 * k) x -> clz_step k (z, x) = (z', x') ->
  in_u k x' /\ z' - bitlen x' = z - bitlen x.
Proof.
  unfold clz_step, in_u. intros Hk Hx. replace (2 * k) with (k + k) in Hx by lia.
  rewrite Z.pow_add_r in Hx by lia. pose proof (pow2_pos k).
  assert (Hs : x >> k = x / 2 ^ k) by (apply Z.shiftr_div_pow2; lia).
  destruct (x >> k =? 0) eqn:E; zbool; simpl; intros [= <- <-].
  - split; [|lia]. split; [lia|]. rewrite Hs in E.
    apply Z.div_small_iff in E; lia.
  - rewrite bitlen_shiftr by lia. split; [|lia]. rewrite Hs.
    split; [apply Z.div_pos; lia|apply Z.div_lt_upper_bound; lia].
Qed.

Lemma clz_table_spec x : in_u 4 x -> nth (Z.to_nat x) clz_table 0 = 4 - bitlen x.
Proof.
  intros Hx. apply Z.eqb_eq.
  apply (forallb_below_spec 16 (fun x => nth (Z.to_nat x) clz_table 0 =? 4 - bitlen x));
    [reflexivity|exact Hx].
Qed.

Lemma CountLeadingZeroes32_bitlen x : in_u 32 x -> CountLeadingZeroes32 x = 32 - bitlen x.
Proof.
  intros Hx. unfold CountLeadingZeroes32.
  destruct (clz_step 16 (28, x)) as [z1 x1] eqn:E1.
  destruct (clz_step 8 (z1, x1)) as [z2 x2] eqn:E2.
  destruct (clz_step 4 (z2, x2)) as [z3 x3] eqn:E3.
  apply clz_step_spec in E1 as [B1 I1]; [|lia|assumption].
  apply clz_step_spec in E2 as [B2 I2]; [|lia|assumption].
  apply clz_step_spec in E3 as [B3 I3]; [|lia|assumption].
  rewrite clz_table_spec by assumption. lia.
Qed.

Lemma CountLeadingZeroes64_bitlen x : in_u 64 x -> CountLeadingZeroes64 x = 64 - bitlen x.
Proof.
  intros Hx. unfold CountLeadingZeroes64.
  destruct (clz_step 32 (60, x)) as [z0 x0] eqn:E0.
  destruct (clz_step 16 (z0, x0)) as [z1 x1] eqn:E1.
  destruct (clz_step 8 (z1, x1)) as [z2 x2] eqn:E2.
  destruct (clz_step 4 (z2, x2)) as [z3 x3] eqn:E3.
  apply clz_step_spec in E0 as [B0 I0]; [|lia|assumption].
  apply clz_step_spec in E1 as [B1 I1]; [|lia|assumption].
  apply clz_step_spec in E2 as [B2 I2]; [|lia|assumption].
  apply clz_step_spec in E3 as [B3 I3]; [|lia|assumption].
  rewrite clz_table_spec by assumption. lia.
Qed.

Lemma in_u_mono v w x : v <= w -> in_u v x -> in_u w x.
Proof.
  intros Hvw [H0 H1]. split; [lia|].
  apply Z.lt_le_trans with (2 ^ v); [lia|apply Z.pow_le_mono_r; lia].
Qed.

Lemma countl_zero_bitlen w x : std_width w -> in_u w x -> countl_zero w x = w - bitlen x.
Proof.
  intros Hw Hx. unfold countl_zero, CountLeadingZeroes, CountLeadingZeroes16.
  destruct Hw as [-> | [-> | [-> | ->]]]; cbn [Z.leb Z.compare Pos.compare Pos.compare_cont].
  - assert (in_u 16 x) by (apply (in_u_mono 8); [lia|assumption]).
    rewrite wrapu_small, CountLeadingZeroes32_bitlen by (try apply (in_u_mono 8); auto; lia). lia.
  - rewrite wrapu_small, CountLeadingZeroes32_bitlen by (try apply (in_u_mono 16); auto; lia). lia.
  - rewrite wrapu_small, CountLeadingZeroes32_bitlen by assumption. lia.
  - now apply CountLeadingZeroes64_bitlen.
Qed.

Lemma bit_width_bitlen w x : std_width w -> in_u w x -> bit_width w x = bitlen x.
Proof. intros. unfold bit_width. rewrite countl_zero_bitlen by assumption. lia. Qed.

(** ** Trailing zeros *)
Lemma odd_part x : 0 < x -> exists t m, 0 <= t /\ 0 <= m /\ x = 2 ^ t * (2 * m + 1).
Proof.
  destruct x as [|p|p]; try lia. intros _.
  induction p as [p _|p IH|].
  - exists 0, (Z.pos p). split; [lia|split; [lia|]]. change (2 ^ 0) with 1. lia.
  - destruct IH as (t & m & Ht & Hm & E). exists (t + 1), m.
    split; [lia|split; [lia|]]. rewrite Z.pow_add_r by lia. change (2 ^ 1) with 2. nia.
  - exists 0, 0. split; [lia|split; [lia|reflexivity]].
Qed.

Lemma odd_part_bits t m i :
  0 <= t -> 0 <= i ->
  Z.testbit (2 ^ t * (2 * m + 1)) i = if i <? t then false else Z.testbit (2 * m + 1) (i - t).
Proof.
  intros Ht Hi. replace (2 ^ t * (2 * m + 1)) with (0 + 2 ^ t * (2 * m + 1)) by lia.
  rewrite testbit_lohi by (first [lia | split; [lia|apply pow2_pos; lia]]).
  now rewrite Z.bits_0.
Qed.

Lemma odd_part_pred_bits t m i :
  0 <= t -> 0 <= i ->
  Z.testbit (2 ^ t * (2 * m + 1) - 1) i = if i <? t then true else Z.testbit (2 * m) (i - t).
Proof.
  intros Ht Hi.
  replace (2 ^ t * (2 * m + 1) - 1) with (Z.ones t + 2 ^ t * (2 * m))
    by (rewrite Z.ones_equiv; lia).
  pose proof (pow2_pos t Ht).
  rewrite testbit_lohi by (try lia; rewrite Z.ones_equiv; unfold in_u; lia).
  destruct (i <? t) eqn:E; zbool; [apply Z.ones_spec_low; lia|reflexivity].
Qed.

(** [x & -x] isolates the lowest set bit. *)
Lemma land_opp t m : 0 <= t -> Z.land (2 ^ t * (2 * m + 1)) (- (2 ^ t * (2 * m + 1))) = 2 ^ t.
Proof.
  intros Ht. set (x := 2 ^ t * (2 * m + 1)).
  replace (- x) with (Z.lnot (x - 1)) by (unfold Z.lnot; lia).
  apply Z.bits_inj'. intros i Hi. unfold x.
  rewrite Z.land_spec, Z.lnot_spec, odd_part_bits, odd_part_pred_bits by lia.
  rewrite Z.pow2_bits_eqb by lia.
  destruct (Z.lt_trichotomy i t) as [H|[->|H]].
  - rewrite (proj2 (Z.ltb_lt i t) H). symmetry. apply Z.eqb_neq. lia.
  - rewrite Z.ltb_irrefl, Z.sub_diag, Z.testbit_odd_0, Z.testbit_even_0, Z.eqb_refl. reflexivity.
  - replace (i <? t) with false by (symmetry; apply Z.ltb_ge; lia).
    replace (t =? i) with false by (symmetry; apply Z.eqb_neq; lia).
    replace (i - t) with (Z.succ (i - t - 1)) by lia.
    rewrite Z.testbit_odd_succ, Z.testbit_even_succ by lia. apply andb_negb_r.
Qed.

Lemma isolate_lowest w t m :
  0 <= t -> in_u w (2 ^ t * (2 * m + 1)) -> 0 <= m -> 0 <= w ->
  let x := 2 ^ t * (2 * m + 1) in x .& (~[w] x +[w] 1) = 2 ^ t.
Proof.
  intros Ht Hx Hm Hw x. rewrite wrapu_add_l. unfold Z.lnot.
  replace (Z.pred (- x) + 1) with (- x) by lia.
  rewrite <- (land_opp t m Ht). fold x. apply Z.bits_inj'. intros i Hi.
  rewrite !Z.land_spec, wrapu_testbit by lia.
  destruct (i <? w) eqn:E; zbool; [reflexivity|].
  rewrite (testbit_above w x i) by (auto; lia). reflexivity.
Qed.

Lemma odd_part_trailing t m : 0 <= t -> trailing_zeros (2 ^ t * (2 * m + 1)) t.
Proof.
  intros Ht. split; [lia|split].
  - rewrite odd_part_bits, Z.ltb_irrefl, Z.sub_diag by lia. apply Z.testbit_odd_0.
  - intros i Hi. rewrite odd_part_bits by lia.
    now replace (i <? t) with true by (symmetry; apply Z.ltb_lt; lia).
Qed.

Lemma odd_part_lt w t m : 0 <= w -> 0 <= t -> 0 <= m -> in_u w (2 ^ t * (2 * m + 1)) -> t < w.
Proof.
  intros Hw Ht Hm [_ H]. pose proof (pow2_pos t Ht).
  apply (Z.pow_lt_mono_r_iff 2); [lia|lia|nia].
Qed.

(** The binary search over the isolated bit, for each of its positions. *)
Lemma CountTrailingZeroesNonzero32_spec t m :
  0 <= t -> 0 <= m -> in_u 32 (2 ^ t * (2 * m + 1)) ->
  CountTrailingZeroesNonzero32 (2 ^ t * (2 * m + 1)) = t.
Proof.
  intros Ht Hm Hx. pose proof (odd_part_lt 32 t m ltac:(lia) Ht Hm Hx).
  unfold CountTrailingZeroesNonzero32. rewrite isolate_lowest by (auto; lia). apply Z.eqb_eq.
  apply (forallb_below_spec 32 (fun t =>
    ctz_step (2 ^ t) 0x55555555 1 (ctz_step (2 ^ t) 0x33333333 2 (ctz_step (2 ^ t) 0x0F0F0F0F 4
      (ctz_step (2 ^ t) 0x00FF00FF 8 (ctz_step (2 ^ t) 0x0000FFFF 16 31)))) =? t));
    [vm_compute; reflexivity|lia].
Qed.

Lemma CountTrailingZeroesNonzero64_spec t m :
  0 <= t -> 0 <= m -> in_u 64 (2 ^ t * (2 * m + 1)) ->
  CountTrailingZeroesNonzero64 (2 ^ t * (2 * m + 1)) = t.
Proof.
  intros Ht Hm Hx. pose proof (odd_part_lt 64 t m ltac:(lia) Ht Hm Hx).
  unfold CountTrailingZeroesNonzero64. rewrite isolate_lowest by (auto; lia). apply Z.eqb_eq.
  apply (forallb_below_spec 64 (fun t =>
    ctz_step (2 ^ t) 0x5555555555555555 1 (ctz_step (2 ^ t) 0x3333333333333333 2
     (ctz_step (2 ^ t) 0x0F0F0F0F0F0F0F0F 4 (ctz_step (2 ^ t) 0x00FF00FF00FF00FF 8
      (ctz_step (2 ^ t) 0x0000FFFF0000FFFF 16 (ctz_step (2 ^ t) 0x00000000FFFFFFFF 32 63)))))
      =? t)); [vm_compute; reflexivity|lia].
Qed.

Lemma CountTrailingZeroes_odd_part w t m :
  std_width w -> 0 <= t -> 0 <= m -> in_u w (2 ^ t * (2 * m + 1)) ->
  CountTrailingZeroes w (2 ^ t * (2 * m + 1)) = t.
Proof.
  intros Hw Ht Hm Hx. pose proof (pow2_pos t Ht).
  unfold CountTrailingZeroes, CountTrailingZeroesNonzero16.
  replace (2 ^ t * (2 * m + 1) =? 0) with false by (symmetry; apply Z.eqb_neq; nia).
  destruct Hw as [-> | [-> | [-> | ->]]]; cbn [Z.leb Z.compare Pos.compare Pos.compare_cont].
  - rewrite wrapu_small by (apply (in_u_mono 8); [lia|assumption]).
    apply CountTrailingZeroesNonzero32_spec; auto. apply (in_u_mono 8); [lia|assumption].
  - rewrite wrapu_small by assumption.
    apply CountTrailingZeroesNonzero32_spec; auto. apply (in_u_mono 16); [lia|assumption].
  - rewrite wrapu_small by assumption. now apply CountTrailingZeroesNonzero32_spec.
  - now apply CountTrailingZeroesNonzero64_spec.
Qed.

(** ** Powers of two *)
Lemma has_single_bit_spec w x :
  0 <= x -> has_single_bit w x = true <-> exists k, 0 <= k /\ x = 2 ^ k.
Proof.
  intros Hx. unfold has_single_bit. split.
  - intros H. apply andb_true_iff in H as [H1 H2]. zbool.
    destruct (odd_part x) as (t & m & Ht & Hm & ->); [lia|]. exists t. split; [lia|].
    enough (m = 0) as -> by lia.
    apply Z.bits_inj'. intros i Hi. rewrite Z.bits_0.
    apply (f_equal (fun z => Z.testbit z (t + 1 + i))) in H2.
    rewrite Z.land_spec, odd_part_bits, odd_part_pred_bits, Z.bits_0 in H2 by lia.
    replace (t + 1 + i <? t) with false in H2 by (symmetry; apply Z.ltb_ge; lia).
    replace (t + 1 + i - t) with (Z.succ i) in H2 by lia.
    rewrite Z.testbit_odd_succ, Z.testbit_even_succ, andb_diag in H2 by lia. exact H2.
  - intros (k & Hk & ->). pose proof (pow2_pos k Hk).
    apply andb_true_iff. split; [apply negb_true_iff, Z.eqb_neq; lia|]. apply Z.eqb_eq.
    apply Z.bits_inj'. intros i Hi.
    pose proof (odd_part_bits k 0 i Hk Hi) as B1. pose proof (odd_part_pred_bits k 0 i Hk Hi) as B2.
    change (2 * 0 + 1) with 1 in *. change (2 * 0) with 0 in B2. rewrite Z.mul_1_r in *.
    rewrite Z.land_spec, B1, B2, !Z.bits_0. destruct (i <? k); [reflexivity|].
    apply andb_false_r.
Qed.

Lemma bitlen_pow2 k : 0 <= k -> bitlen (2 ^ k) = k + 1.
Proof.
  intros Hk. unfold bitlen. pose proof (pow2_pos k Hk).
  replace (2 ^ k =? 0) with false by (symmetry; apply Z.eqb_neq; lia).
  now rewrite Z.log2_pow2.
Qed.

Lemma shl_one_spec w n :
  std_width w -> 0 <= n < w -> exists v, shl_one w n = Some v /\ wrapu w v = 2 ^ n.
Proof.
  intros Hw Hn. unfold shl_one, promoted.
  replace (n <? Z.max w 32) with true by (symmetry; apply Z.ltb_lt; lia).
  eexists; split; [reflexivity|]. rewrite Z.shiftl_1_l.
  assert (in_u w (2 ^ n)) by (split; [apply Z.pow_nonneg; lia|apply Z.pow_lt_mono_r; lia]).
  destruct (w <? 32) eqn:E; zbool.
  - rewrite wraps_small; [now apply wrapu_small|lia|].
    assert (2 ^ n < 2 ^ 31) by (apply Z.pow_lt_mono_r; lia).
    unfold in_s, in_u in *. lia.
  - rewrite wrapu_idem by lia. now apply wrapu_small.
Qed.

(** [(T{1} << (x + promotion)) >> promotion]: defined exactly for [x < digits], and then [2^x]. *)
Lemma BitCeilPromotionHelper_spec w x :
  std_width w -> 0 <= x <= w ->
  BitCeilPromotionHelper w x (if 32 <=? w then 0 else 32 - w)
  = if x <? w then Some (2 ^ x) else None.
Proof.
  intros Hw Hx. unfold BitCeilPromotionHelper.
  destruct (Z.eq_dec x w) as [->|].
  - rewrite Z.ltb_irrefl. destruct Hw as [-> | [-> | [-> | ->]]]; reflexivity.
  - replace (x <? w) with true by (symmetry; apply Z.ltb_lt; lia).
    assert (H : forall p, forallb_below (Z.to_nat w) p = true -> p x = true)
      by (intros p Hp; apply (forallb_below_spec _ _ Hp); lia).
    enough (E : match BitCeilPromotionHelper w x (if 32 <=? w then 0 else 32 - w) with
                | Some v => v =? 2 ^ x | None => false end = true).
    { fold (BitCeilPromotionHelper w x (if 32 <=? w then 0 else 32 - w)).
      destruct (BitCeilPromotionHelper _ _ _); [|discriminate]. zbool. congruence. }
    revert H. destruct Hw as [-> | [-> | [-> | ->]]]; intros H;
      apply (H (fun x => match BitCeilPromotionHelper _ x _ with
                         | Some v => v =? 2 ^ x | None => false end)); vm_compute; reflexivity.
Qed.

Lemma bitlen_pow2_bounds x : 0 < x -> 2 ^ (bitlen x - 1) <= x < 2 ^ bitlen x.
Proof.
  intros Hx. unfold bitlen. replace (x =? 0) with false by (symmetry; apply Z.eqb_neq; lia).
  replace (Z.log2 x + 1 - 1) with (Z.log2 x) by lia. apply Z.log2_spec. lia.
Qed.

(** ** Rotations *)
Lemma rotate_amount w s : std_width w -> s .& (w - 1) = s mod w.
Proof.
  intros Hw.
  destruct Hw as [-> | [-> | [-> | ->]]];
    [ change (s .& Z.ones 3 = s mod 2 ^ 3) | change (s .& Z.ones 4 = s mod 2 ^ 4)
    | change (s .& Z.ones 5 = s mod 2 ^ 5) | change (s .& Z.ones 6 = s mod 2 ^ 6) ];
    apply Z.land_ones; lia.
Qed.

Lemma mod_in_window w a q : 0 < w -> 0 <= a + q * w < w -> a mod w = a + q * w.
Proof. intros Hw H. symmetry. apply Z.mod_unique with (- q); lia. Qed.

(** Joining the part of [x] moved up by [r] and the part moved down by [w - r] rotates. *)
Lemma rotate_join w x r i :
  std_width w -> in_u w x -> 0 < r < w -> 0 <= i < w ->
  Z.testbit (wrapu w ((x <<[promoted w] r) .| (x >> (w - r)))) i
  = Z.testbit x ((i - r) mod w).
Proof.
  intros Hw Hx Hr Hi. unfold promoted.
  rewrite wrapu_testbit, Z.lor_spec, wrapu_testbit, Z.shiftl_spec, Z.shiftr_spec by lia.
  replace (i <? w) with true by (symmetry; apply Z.ltb_lt; lia).
  replace (i <? Z.max w 32) with true by (symmetry; apply Z.ltb_lt; lia).
  cbn [andb]. destruct (Z.lt_ge_cases i r) as [Hlt|Hge].
  - rewrite (Z.testbit_neg_r x (i - r)) by lia. rewrite (mod_in_window w (i - r) 1) by lia.
    cbn [orb]. f_equal. lia.
  - rewrite (testbit_above w x (i + (w - r))) by (auto; lia).
    rewrite (mod_in_window w (i - r) 0) by lia. rewrite orb_false_r. f_equal. lia.
Qed.

Lemma RotateLeft_testbit w x s i :
  std_width w -> in_u w x -> 0 <= i < w ->
  Z.testbit (RotateLeft w x s) i = Z.testbit x ((i - s) mod w).
Proof.
  intros Hw Hx Hi. assert (Hp : 0 < w) by (destruct Hw as [-> | [-> | [-> | ->]]]; lia).
  unfold RotateLeft. rewrite rotate_amount by assumption.
  pose proof (Z.mod_pos_bound s w Hp). pose proof (Z.div_mod s w ltac:(lia)) as E.
  replace ((i - s) mod w) with ((i - s mod w) mod w)
    by (rewrite (Zminus_mod i s), (Zminus_mod i (s mod w)), Z.mod_mod by lia; reflexivity).
  destruct (s mod w =? 0) eqn:Z0; zbool.
  - rewrite Z0, Z.sub_0_r, Z.mod_small by lia. reflexivity.
  - apply rotate_join; auto; lia.
Qed.

Lemma RotateRight_as_left w x s :
  std_width w -> RotateRight w x s = RotateLeft w x (- s).
Proof.
  intros Hw. assert (Hp : 0 < w) by (destruct Hw as [-> | [-> | [-> | ->]]]; lia).
  unfold RotateRight, RotateLeft. rewrite !rotate_amount by assumption.
  destruct (s mod w =? 0) eqn:E; zbool.
  - rewrite Z.mod_opp_l_z by lia. reflexivity.
  - rewrite Z.mod_opp_l_nz by lia.
    replace (w - s mod w =? 0) with false
      by (symmetry; apply Z.eqb_neq; pose proof (Z.mod_pos_bound s w Hp); lia).
    rewrite Z.lor_comm. replace (w - (w - s mod w)) with (s mod w) by lia. reflexivity.
Qed.

Lemma RotateLeft_range w x s : std_width w -> in_u w x -> in_u w (RotateLeft w x s).
Proof.
  intros Hw Hx. unfold RotateLeft. case_if; [assumption|].
  apply wrapu_range. destruct Hw as [-> | [-> | [-> | ->]]]; lia.
Qed.

Lemma testbit_ext_in w x y :
  0 <= w -> in_u w x -> in_u w y ->
  (forall i, 0 <= i < w -> Z.testbit x i = Z.testbit y i) -> x = y.
Proof.
  intros Hw Hx Hy H. apply Z.bits_inj'. intros i Hi.
  destruct (Z.lt_ge_cases i w); [apply H; lia|].
  now rewrite !(testbit_above w) by (auto; lia).
Qed.

Lemma bitcount_zero n : bitcount n 0 = 0.
Proof. induction n; simpl; auto. Qed.

Lemma bitcount_narrow n m x : in_u (Z.of_nat n) x -> bitcount (n + m) x = bitcount n x.
Proof.
  intros Hx. pose proof (bitcount_lohi n m x 0 Hx) as E.
  rewrite Z.mul_0_r, Z.add_0_r, bitcount_zero, Z.add_0_r in E. exact E.
Qed.

(** ** Theorems *)

Lemma popcount_spec w x :
  std_width w -> in_u w x -> popcount w x = bitcount (Z.to_nat w) x.
Proof.
  intros Hw Hx. unfold popcount, Popcount.
  destruct Hw as [-> | [-> | [-> | ->]]]; cbn [Z.leb Z.compare Pos.compare Pos.compare_cont].
  - rewrite Popcount32_bitcount by (apply (in_u_mono 8); [lia|exact Hx]).
    now apply (bitcount_narrow 8 24).
  - rewrite Popcount32_bitcount by (apply (in_u_mono 16); [lia|exact Hx]).
    now apply (bitcount_narrow 16 16).
  - now apply Popcount32_bitcount.
  - now apply Popcount64_bitcount.
Qed.

Lemma count_zero_spec w x :
  std_width w -> in_u w x ->
  (x = 0 /\ countl_zero w x = w /\ countr_zero w x = w) \/
  (x <> 0 /\
   let hi := w - 1 - countl_zero w x in
   0 <= hi < w /\ Z.testbit x hi = true /\
   (forall i, hi < i -> Z.testbit x i = false) /\
   trailing_zeros x (countr_zero w x)).
Proof.
  intros Hw Hx. rewrite countl_zero_bitlen by assumption.
  destruct (Z.eq_dec x 0) as [->|Hn].
  - left. unfold bitlen. cbn. lia.
  - right. split; [assumption|]. unfold in_u in Hx.
    assert (0 <= w) by (destruct Hw as [-> | [-> | [-> | ->]]]; lia).
    pose proof (bitlen_bound w x ltac:(assumption) Hx) as B.
    unfold bitlen in *. replace (x =? 0) with false in * by (symmetry; apply Z.eqb_neq; lia).
    replace (w - 1 - (w - (Z.log2 x + 1))) with (Z.log2 x) by lia.
    pose proof (Z.log2_nonneg x). split; [lia|]. split; [apply Z.bit_log2; lia|].
    split; [intros i Hi; apply Z.bits_above_log2; lia|].
    destruct (odd_part x) as (t & m & Ht & Hm & ->); [lia|].
    unfold countr_zero. rewrite CountTrailingZeroes_odd_part by assumption.
    now apply odd_part_trailing.
Qed.

Lemma bit_ceil_spec w x :
  std_width w -> in_u w x ->
  if x <=? 2 ^ (w - 1)
  then exists k, 0 <= k < w /\ bit_ceil w x = Some (2 ^ k) /\ x <= 2 ^ k /\
                 (forall j, 0 <= j -> x <= 2 ^ j -> 2 ^ k <= 2 ^ j)
  else bit_ceil w x = None.
Proof.
  intros Hw Hx. unfold bit_ceil. rewrite bit_width_bitlen by assumption.
  assert (Hp : 0 < w) by (destruct Hw as [-> | [-> | [-> | ->]]]; lia).
  pose proof (bitlen_bound w x ltac:(lia) Hx) as B.
  destruct (has_single_bit w x) eqn:E.
  - apply has_single_bit_spec in E as (k & Hk & ->); [|apply Hx].
    assert (k < w) by (apply (Z.pow_lt_mono_r_iff 2); [lia|lia|apply Hx]).
    rewrite bitlen_pow2 by lia. replace (k + 1 - 1) with k by lia.
    destruct (shl_one_spec w k Hw ltac:(lia)) as (v & -> & Ev). cbn [obind]. rewrite Ev.
    replace (2 ^ k <=? 2 ^ (w - 1)) with true
      by (symmetry; apply Z.leb_le, Z.pow_le_mono_r; lia).
    exists k. repeat split; auto; lia.
  - unfold BitCeilNonPowerOf2.
    fold (countl_zero w x). rewrite countl_zero_bitlen by assumption.
    replace (w - (w - bitlen x)) with (bitlen x) by lia.
    assert (w < 2 ^ w) by (destruct Hw as [-> | [-> | [-> | ->]]]; reflexivity).
    rewrite wrapu_small, BitCeilPromotionHelper_spec by (auto; lia).
    destruct (Z.eq_dec x 0) as [->|].
    { replace (0 <=? 2 ^ (w - 1)) with true by (symmetry; apply Z.leb_le, Z.pow_nonneg; lia).
      exists 0. change (bitlen 0) with 0. replace (0 <? w) with true by (symmetry; apply Z.ltb_lt; lia).
      repeat split; lia. }
    pose proof (bitlen_pow2_bounds x ltac:(unfold in_u in Hx; lia)) as [L U].
    assert (Hne : forall j, 0 <= j -> x <> 2 ^ j).
    { intros j Hj ->. rewrite (proj2 (has_single_bit_spec w _ (proj1 Hx))) in E; [discriminate|eauto]. }
    assert (Hmin : forall j, 0 <= j -> x <= 2 ^ j -> bitlen x <= j).
    { intros j Hj Hle. specialize (Hne j Hj).
      assert (bitlen x - 1 < j); [|lia].
      apply (Z.pow_lt_mono_r_iff 2); lia. }
    destruct (x <=? 2 ^ (w - 1)) eqn:Ex; zbool.
    + assert (bitlen x < w) by (specialize (Hmin (w - 1)); lia).
      replace (bitlen x <? w) with true by (symmetry; apply Z.ltb_lt; lia).
      exists (bitlen x). repeat split; auto; try lia.
      intros j Hj Hle. apply Z.pow_le_mono_r; [lia|auto].
    + replace (bitlen x <? w) with false; [reflexivity|].
      symmetry. apply Z.ltb_ge. destruct (Z.lt_ge_cases (bitlen x) w) as [Hlt|]; [|lia].
      assert (2 ^ bitlen x <= 2 ^ (w - 1)) by (apply Z.pow_le_mono_r; lia). lia.
Qed.

Lemma rotl_rotr_spec w x s :
  std_width w -> in_u w x ->
  in_u w (rotl w x s) /\
  (forall i, 0 <= i < w -> Z.testbit (rotl w x s) i = Z.testbit x ((i - s) mod w)) /\
  rotr w (rotl w x s) s = x.
Proof.
  intros Hw Hx. unfold rotl, rotr.
  assert (Hp : 0 < w) by (destruct Hw as [-> | [-> | [-> | ->]]]; lia).
  pose proof (RotateLeft_range w x s Hw Hx) as R.
  split; [assumption|]. split; [intros; now apply RotateLeft_testbit|].
  rewrite RotateRight_as_left by assumption.
  apply (testbit_ext_in w); [lia|now apply RotateLeft_range|assumption|].
  intros i Hi. rewrite RotateLeft_testbit by assumption.
  rewrite RotateLeft_testbit by (auto; apply Z.mod_pos_bound; lia).
  f_equal. rewrite Zminus_mod_idemp_l. replace (i - - s - s) with i by lia.
  apply Z.mod_small; lia.
Qed.

(** At every unsigned width [popcount] returns the number of one bits, and [countl_zero] and
    [countr_zero] locate the highest and the lowest set bit (every bit above the one and below the
    other is clear), or return the width on 0; [bit_ceil] returns the smallest power of two not below
    its argument when the type can represent it, and its shift is undefined exactly when it cannot;
    [rotl] moves bit [i - s] to bit [i] cyclically for every [int] amount, negative ones included,
    and [rotr] undoes it. *)
Lemma bits_correct w x s :
  std_width w -> in_u w x ->
  (popcount w x = bitcount (Z.to_nat w) x /\
   ((x = 0 /\ countl_zero w x = w /\ countr_zero w x = w) \/
    (x <> 0 /\
     let hi := w - 1 - countl_zero w x in
     0 <= hi < w /\ Z.testbit x hi = true /\
     (forall i, hi < i -> Z.testbit x i = false) /\
     trailing_zeros x (countr_zero w x)))) /\
  (if x <=? 2 ^ (w - 1)
   then exists k, 0 <= k < w /\ bit_ceil w x = Some (2 ^ k) /\ x <= 2 ^ k /\
                  (forall j, 0 <= j -> x <= 2 ^ j -> 2 ^ k <= 2 ^ j)
   else bit_ceil w x = None) /\
  in_u w (rotl w x s) /\
  (forall i, 0 <= i < w -> Z.testbit (rotl w x s) i = Z.testbit x ((i - s) mod w)) /\
  rotr w (rotl w x s) s = x.
Proof.
  intros. split; [split; [now apply popcount_spec|now apply count_zero_spec]|].
  split; [now apply bit_ceil_spec|now apply rotl_rotr_spec].
Qed.

Lemma bits_correct_witness :
  popcount 64 0xFF00000000000001 = bitcount 64 0xFF00000000000001 /\
  rotr 64 (rotl 64 0xFF00000000000001 (-3)) (-3) = 0xFF00000000000001.
Proof.
  assert (H : std_width 64 /\ in_u 64 0xFF00000000000001) by (unfold std_width, in_u; lia).
  destruct (bits_correct 64 0xFF00000000000001 (-3) (proj1 H) (proj2 H)) as ((P & _) & _ & _ & _ & R).
  split; [exact P|exact R].
Defined.
