(* ===== verification/Endian.v ===== *)
(** [absl/base/internal/endian.h]: byte swapping, host/network byte order, and the
    alignment-safe loads and stores; [absl/numeric/bits.h]: [byteswap]. *)
From Stdlib Require Import ZArith Lia List Bool.
From S2P Require Import Prelude Bits.
Import ListNotations.
#[local] Open Scope Z_scope.
#[local] Open Scope mach_scope.

(** ** Byte swapping *)
Definition gbswap_64 (x : Z) : Z :=
  ((x .& 0xFF) <<[64] 56) .|
  ((x .& 0xFF00) <<[64] 40) .|
  ((x .& 0xFF0000) <<[64] 24) .|
  ((x .& 0xFF000000) <<[64] 8) .|
  ((x .& 0xFF00000000) >> 8) .|
  ((x .& 0xFF0000000000) >> 24) .|
  ((x .& 0xFF000000000000) >> 40) .|
  ((x .& 0xFF00000000000000) >> 56).

Definition gbswap_32 (x : Z) : Z :=
  ((x .& 0xFF) <<[32] 24) .|
  ((x .& 0xFF00) <<[32] 8) .|
  ((x .& 0xFF0000) >> 8) .|
  ((x .& 0xFF000000) >> 24).

(** The 16-bit operands are promoted to [int]; the result is converted back. *)
Definition gbswap_16 (x : Z) : Z :=
  wrapu 16 (((x .& 0xFF) <<[32] 8) .| ((x .& 0xFF00) >> 8)).

(** [byteswap<T>] for an unsigned or signed [T] of [n] bytes. *)
Definition byteswap (n : nat) (signed : bool) (x : Z) : Z :=
  let back w v := if signed then wraps w v else v in
  match n with
  | 1%nat => x
  | 2%nat => back 16 (gbswap_16 (wrapu 16 x))
  | 4%nat => back 32 (gbswap_32 (wrapu 32 x))
  | _ => back 64 (gbswap_64 (wrapu 64 x))
  end.

(** ** Byte order of the host: which of [ABSL_IS_LITTLE_ENDIAN] and
    [ABSL_IS_BIG_ENDIAN] is defined *)
Inductive endian := little | big.

Definition gbswap (n : nat) (x : Z) : Z :=
  match n with
  | 1%nat => x
  | 2%nat => gbswap_16 x
  | 4%nat => gbswap_32 x
  | _ => gbswap_64 x
  end.

(** [ghtons], [ghtonl], [ghtonll], by the number of bytes. *)
Definition ghton (host : endian) (n : nat) (x : Z) : Z :=
  match host with little => gbswap n x | big => x end.

Definition gntoh (host : endian) (n : nat) (x : Z) : Z := ghton host n x.

(** A scalar of [n] bytes in memory on the given host, as [memcpy] copies it. *)
Definition UNALIGNED_STORE (host : endian) (n : nat) (v : Z) : list Z :=
  match host with little => le_bytes n v | big => rev (le_bytes n v) end.

Definition UNALIGNED_LOAD (host : endian) (p : list Z) : Z :=
  match host with little => le_val p | big => le_val (rev p) end.

Module little_endian.

Definition FromHost (host : endian) (n : nat) (x : Z) : Z :=
  match host with little => x | big => gbswap n x end.

Definition ToHost (host : endian) (n : nat) (x : Z) : Z :=
  match host with little => x | big => gbswap n x end.

Definition FromHostSigned (host : endian) (n : nat) (x : Z) : Z :=
  wraps (8 * Z.of_nat n) (FromHost host n (wrapu (8 * Z.of_nat n) x)).

Definition ToHostSigned (host : endian) (n : nat) (x : Z) : Z :=
  wraps (8 * Z.of_nat n) (ToHost host n (wrapu (8 * Z.of_nat n) x)).

Definition Load (host : endian) (n : nat) (p : list Z) : Z :=
  ToHost host n (UNALIGNED_LOAD host (firstn n p)).

(** The bytes at [p] after the store: [n] bytes are overwritten, the rest is kept. *)
Definition Store (host : endian) (n : nat) (p : list Z) (v : Z) : list Z :=
  UNALIGNED_STORE host n (FromHost host n v) ++ skipn n p.

End little_endian.

Module big_endian.

Definition FromHost (host : endian) (n : nat) (x : Z) : Z :=
  match host with little => gbswap n x | big => x end.

Definition ToHost (host : endian) (n : nat) (x : Z) : Z :=
  match host with little => gbswap n x | big => x end.

Definition FromHostSigned (host : endian) (n : nat) (x : Z) : Z :=
  wraps (8 * Z.of_nat n) (FromHost host n (wrapu (8 * Z.of_nat n) x)).

Definition ToHostSigned (host : endian) (n : nat) (x : Z) : Z :=
  wraps (8 * Z.of_nat n) (ToHost host n (wrapu (8 * Z.of_nat n) x)).

Definition Load (host : endian) (n : nat) (p : list Z) : Z :=
  ToHost host n (UNALIGNED_LOAD host (firstn n p)).

Definition Store (host : endian) (n : nat) (p : list Z) (v : Z) : list Z :=
  UNALIGNED_STORE host n (FromHost host n v) ++ skipn n p.

End big_endian.

(** The byte counts of the scalar types. *)
Definition std_bytes (n : nat) : Prop := (n = 1 \/ n = 2 \/ n = 4 \/ n = 8)%nat.

(** ** Byte swapping reverses the bytes *)
Lemma land_byte_shl w x k s i :
  0 <= w -> 0 <= k -> 0 <= s -> 0 <= i ->
  Z.testbit ((x .& Z.shiftl 255 k) <<[w] s) i
  = ((i <? w) && (k + s <=? i) && (i <? k + s + 8) && Z.testbit x (i - s)).
Proof.
  intros. change 255 with (Z.ones 8).
  rewrite wrapu_testbit, Z.shiftl_spec by lia.
  destruct (Z.lt_ge_cases i s).
  - rewrite !Z.testbit_neg_r by lia. now rewrite !andb_false_r.
  - rewrite Z.land_spec, Z.shiftl_spec, Z.testbit_ones by lia.
    replace (0 <=? i - s - k) with (k + s <=? i) by (apply eq_true_iff_eq; rewrite !Z.leb_le; lia).
    replace (i - s - k <? 8) with (i <? k + s + 8) by (apply eq_true_iff_eq; rewrite !Z.ltb_lt; lia).
    destruct (i <? w), (k + s <=? i), (i <? k + s + 8), (Z.testbit x (i - s)); reflexivity.
Qed.

Lemma land_byte_shr x k s i :
  0 <= k -> 0 <= s -> 0 <= i ->
  Z.testbit ((x .& Z.shiftl 255 k) >> s) i
  = ((k - s <=? i) && (i <? k - s + 8) && Z.testbit x (i + s)).
Proof.
  intros. change 255 with (Z.ones 8).
  rewrite Z.shiftr_spec, Z.land_spec, Z.shiftl_spec, Z.testbit_ones by lia.
  replace (0 <=? i + s - k) with (k - s <=? i) by (apply eq_true_iff_eq; rewrite !Z.leb_le; lia).
  replace (i + s - k <? 8) with (i <? k - s + 8) by (apply eq_true_iff_eq; rewrite !Z.ltb_lt; lia).
  destruct (k - s <=? i), (i <? k - s + 8), (Z.testbit x (i + s)); reflexivity.
Qed.

Lemma gbswap_testbit n x j r :
  std_bytes n -> 0 <= j < Z.of_nat n -> 0 <= r < 8 ->
  Z.testbit (gbswap n x) (8 * j + r) = Z.testbit x (8 * (Z.of_nat n - 1 - j) + r).
Proof.
  intros Hn Hj Hr. destruct Hn as [-> | [-> | [-> | ->]]]; cbn [gbswap].
  - f_equal. lia.
  - unfold gbswap_16. rewrite wrapu_testbit, Z.lor_spec by lia.
    change 0xFF with (Z.shiftl 255 0). change 0xFF00 with (Z.shiftl 255 8).
    rewrite land_byte_shl, land_byte_shr by lia.
    assert (C : j = 0 \/ j = 1) by lia.
    destruct C as [-> | ->]; decide_cmp; cbn [andb orb]; rewrite ?orb_false_r; f_equal; lia.
  - unfold gbswap_32. rewrite !Z.lor_spec by lia.
    change 0xFF with (Z.shiftl 255 0). change 0xFF00 with (Z.shiftl 255 8).
    change 0xFF0000 with (Z.shiftl 255 16). change 0xFF000000 with (Z.shiftl 255 24).
    rewrite !land_byte_shl, !land_byte_shr by lia.
    assert (C : j = 0 \/ j = 1 \/ j = 2 \/ j = 3) by lia.
    destruct C as [-> | [-> | [-> | ->]]]; decide_cmp; cbn [andb orb]; rewrite ?orb_false_r;
      f_equal; lia.
  - unfold gbswap_64. rewrite !Z.lor_spec by lia.
    change 0xFF with (Z.shiftl 255 0). change 0xFF00 with (Z.shiftl 255 8).
    change 0xFF0000 with (Z.shiftl 255 16). change 0xFF000000 with (Z.shiftl 255 24).
    change 0xFF00000000 with (Z.shiftl 255 32). change 0xFF0000000000 with (Z.shiftl 255 40).
    change 0xFF000000000000 with (Z.shiftl 255 48).
    change 0xFF00000000000000 with (Z.shiftl 255 56).
    rewrite !land_byte_shl, !land_byte_shr by lia.
    assert (C : j = 0 \/ j = 1 \/ j = 2 \/ j = 3 \/ j = 4 \/ j = 5 \/ j = 6 \/ j = 7) by lia.
    destruct C as [-> | [-> | [-> | [-> | [-> | [-> | [-> | ->]]]]]]]; decide_cmp;
      cbn [andb orb]; rewrite ?orb_false_r; f_equal; lia.
Qed.

Lemma nth_le_bytes n x j r :
  (j < n)%nat -> 0 <= r < 8 ->
  Z.testbit (nth j (le_bytes n x) 0) r = Z.testbit x (8 * Z.of_nat j + r).
Proof.
  revert x j. induction n as [|n IH]; intros x j Hj Hr; [lia|]. destruct j as [|j]; cbn [le_bytes nth].
  - change 256 with (2 ^ 8). rewrite Z.mod_pow2_bits_low by lia. f_equal; lia.
  - rewrite IH by lia. change 256 with (2 ^ 8). rewrite Z.div_pow2_bits by lia. f_equal. lia.
Qed.

Lemma gbswap_bytes n x : std_bytes n -> le_bytes n (gbswap n x) = rev (le_bytes n x).
Proof.
  intros Hn. apply nth_ext with 0 0; [now rewrite length_rev, !le_bytes_length|].
  rewrite le_bytes_length. intros j Hj.
  assert (Hin : forall y k, (k < n)%nat -> in_u 8 (nth k (le_bytes n y) 0)).
  { intros y k Hk. apply Forall_nth; [apply le_bytes_forall|now rewrite le_bytes_length]. }
  rewrite rev_nth by now rewrite le_bytes_length. rewrite le_bytes_length.
  apply (testbit_ext_in 8); [lia|apply Hin; lia|apply Hin; lia|]. intros r Hr.
  rewrite !nth_le_bytes, gbswap_testbit by (auto; lia). f_equal. lia.
Qed.

Lemma gbswap_range n x : std_bytes n -> in_u (8 * Z.of_nat n) x -> in_u (8 * Z.of_nat n) (gbswap n x).
Proof.
  intros Hn Hx. destruct Hn as [-> | [-> | [-> | ->]]]; cbn [gbswap]; [assumption|..];
    [apply wrapu_range; lia| |];
    unfold gbswap_32, gbswap_64; repeat apply in_u_lor; try lia;
    first [apply wrapu_range; lia | apply in_u_shiftr; [lia|lia|apply in_u_land_l; [lia|exact Hx]]].
Qed.

Lemma le_bytes_inj n x y :
  in_u (8 * Z.of_nat n) x -> in_u (8 * Z.of_nat n) y -> le_bytes n x = le_bytes n y -> x = y.
Proof. intros Hx Hy E. rewrite <- (le_val_bytes n x Hx), E. now apply le_val_bytes. Qed.

Lemma gbswap_involutive n x :
  std_bytes n -> in_u (8 * Z.of_nat n) x -> gbswap n (gbswap n x) = x.
Proof.
  intros Hn Hx. apply (le_bytes_inj n); auto using gbswap_range.
  now rewrite !gbswap_bytes, rev_involutive by assumption.
Qed.

Lemma Store_bytes_little host n v :
  std_bytes n ->
  UNALIGNED_STORE host n (little_endian.FromHost host n v) = le_bytes n v.
Proof.
  intros Hn. destruct host; cbn; [reflexivity|]. now rewrite gbswap_bytes, rev_involutive.
Qed.

Lemma Store_bytes_big host n v :
  std_bytes n ->
  UNALIGNED_STORE host n (big_endian.FromHost host n v) = rev (le_bytes n v).
Proof. intros Hn. destruct host; cbn; [now apply gbswap_bytes|reflexivity]. Qed.

Lemma firstn_store n (l p : list Z) : length l = n -> firstn n (l ++ p) = l.
Proof. intros <-. rewrite firstn_app, Nat.sub_diag, firstn_all. apply app_nil_r. Qed.

Lemma store_load_host host n v :
  std_bytes n -> in_u (8 * Z.of_nat n) v -> UNALIGNED_LOAD host (UNALIGNED_STORE host n v) = v.
Proof.
  intros Hn Hv. destruct host; cbn; rewrite ?rev_involutive; now apply le_val_bytes.
Qed.

Lemma store_length host n v : length (UNALIGNED_STORE host n v) = n.
Proof. destruct host; cbn; rewrite ?length_rev; apply le_bytes_length. Qed.

(** A big-endian load reads the bytes most significant first, on either host. *)
Lemma big_Load_val host n p : std_bytes n -> Forall (in_u 8) p -> (n <= length p)%nat ->
  big_endian.Load host n p = le_val (rev (firstn n p)).
Proof.
  intros Hn F L. unfold big_endian.Load. destruct host; [|reflexivity]. cbn [UNALIGNED_LOAD big_endian.ToHost].
  assert (Ln : length (firstn n p) = n) by (rewrite length_firstn; lia).
  assert (Fn : Forall (in_u 8) (firstn n p))
    by (apply Forall_forall; intros x I; rewrite Forall_forall in F; apply F; rewrite <- (firstn_skipn n p); apply in_or_app; auto).
  pose proof (le_val_range _ Fn) as R. rewrite Ln in R.
  rewrite <- (le_val_bytes n (gbswap n _)) by now apply gbswap_range.
  rewrite gbswap_bytes by exact Hn. now rewrite <- Ln at 1; rewrite le_bytes_val.
Qed.

(** A little-endian load reads them least significant first. *)
Lemma little_Load_val host n p : std_bytes n -> Forall (in_u 8) p -> (n <= length p)%nat ->
  little_endian.Load host n p = le_val (firstn n p).
Proof.
  intros Hn F L. unfold little_endian.Load. destruct host; [reflexivity|]. cbn [UNALIGNED_LOAD little_endian.ToHost].
  assert (Ln : length (rev (firstn n p)) = n) by (rewrite length_rev, length_firstn; lia).
  assert (Fn : Forall (in_u 8) (rev (firstn n p))) by (apply Forall_rev; rewrite <- (firstn_skipn n p) in F; now apply Forall_app in F as [? _]).
  pose proof (le_val_range _ Fn) as R. rewrite Ln in R.
  rewrite <- (le_val_bytes n (gbswap n _)) by now apply gbswap_range.
  rewrite gbswap_bytes by exact Hn. rewrite <- Ln at 1. rewrite le_bytes_val by exact Fn. now rewrite rev_involutive.
Qed.

(** ** The first byte of a word that is not zero *)
Lemma trailing_unique x t s : trailing_zeros x t -> trailing_zeros x s -> t = s.
Proof.
  intros (Ht & T1 & T2) (Hs & S1 & S2).
  destruct (Z.lt_trichotomy t s) as [C|[C|C]]; [|exact C|].
  - rewrite S2 in T1 by lia. discriminate.
  - rewrite T2 in S1 by lia. discriminate.
Qed.

Lemma byte_trailing d : 0 < d < 256 -> exists t, trailing_zeros d t /\ t < 8.
Proof.
  intros H. assert (R : in_u 8 d) by (unfold in_u; change (2 ^ 8) with 256; lia).
  destruct (count_zero_spec 8 d) as [(E & _)|(_ & _ & _ & _ & T)]; [unfold std_width; lia|exact R|lia|].
  exists (countr_zero 8 d). split; [exact T|]. destruct T as (T0 & T1 & _).
  destruct (Z.lt_ge_cases (countr_zero 8 d) 8) as [C|C]; [exact C|]. rewrite (testbit_above 8) in T1 by (auto; lia). discriminate.
Qed.

Lemma shifted_trailing z d r : 0 < d < 256 -> Forall (in_u 8) r ->
  exists t, trailing_zeros (le_val (repeat 0 z ++ d :: r)) t /\ 8 * Z.of_nat z <= t < 8 * Z.of_nat z + 8.
Proof.
  intros D F. destruct (byte_trailing d D) as (t & (T0 & T1 & T2) & T3). exists (8 * Z.of_nat z + t). split; [|lia].
  rewrite le_val_app, repeat_length. replace (le_val (repeat 0 z)) with 0 by (clear; induction z; cbn [repeat le_val]; lia).
  rewrite Z.add_0_l, Z.mul_comm, <- Z.shiftl_mul_pow2 by lia. cbn [le_val].
  assert (R : in_u 8 d) by (unfold in_u; change (2 ^ 8) with 256; lia).
  split; [lia|]. split.
  - rewrite Z.shiftl_spec by lia. replace (8 * Z.of_nat z + t - 8 * Z.of_nat z) with t by lia.
    change 256 with (2 ^ 8). rewrite testbit_lohi, (proj2 (Z.ltb_lt t 8)) by (auto; lia). exact T1.
  - intros i Hi. destruct (Z.lt_ge_cases i (8 * Z.of_nat z)) as [C|C]; [now rewrite Z.shiftl_spec_low by lia|].
    rewrite Z.shiftl_spec by lia. change 256 with (2 ^ 8). rewrite testbit_lohi, (proj2 (Z.ltb_lt _ 8)) by (auto; lia).
    apply T2. lia.
Qed.

(** The trailing zero bits of a word tell how many of its first bytes are zero. *)
Lemma word_trailing n z d r : std_bytes n -> (z + S (length r) = n)%nat -> 0 < d < 256 -> Forall (in_u 8) r ->
  8 * Z.of_nat z <= countr_zero (8 * Z.of_nat n) (le_val (repeat 0 z ++ d :: r)) < 8 * Z.of_nat z + 8.
Proof.
  intros Hn L D F. set (x := le_val _). destruct (shifted_trailing z d r D F) as (t & T & B). fold x in T.
  assert (Fb : Forall (in_u 8) (repeat 0 z ++ d :: r)).
  { apply Forall_app. split; [apply Forall_forall; intros y I; apply repeat_spec in I; subst; split; [lia|reflexivity]|].
    constructor; [unfold in_u; change (2 ^ 8) with 256; lia|exact F]. }
  assert (Rx : in_u (8 * Z.of_nat n) x).
  { pose proof (le_val_range _ Fb) as R. rewrite length_app, repeat_length in R. cbn [length] in R. rewrite L in R. exact R. }
  assert (Sw : std_width (8 * Z.of_nat n)) by (unfold std_width; destruct Hn as [-> |[-> |[-> | ->]]]; lia).
  destruct (count_zero_spec _ x Sw Rx) as [(E & _)|(_ & _ & _ & _ & T')].
  - destruct T as (_ & T & _). rewrite E, Z.bits_0 in T. discriminate.
  - now rewrite (trailing_unique _ _ _ T' T).
Qed.

(** ** Theorems *)

(** The bytes that a store writes do not depend on the host. *)
Lemma Store_host_independent host n p v :
  std_bytes n ->
  little_endian.Store host n p v = le_bytes n v ++ skipn n p /\
  big_endian.Store host n p v = rev (le_bytes n v) ++ skipn n p.
Proof.
  intros Hn. unfold little_endian.Store, big_endian.Store.
  now rewrite Store_bytes_little, Store_bytes_big.
Qed.

Lemma load_store_roundtrip host n p v :
  std_bytes n -> in_u (8 * Z.of_nat n) v ->
  Forall (in_u 8) p -> (n <= length p)%nat ->
  little_endian.Load host n (little_endian.Store host n p v) = v /\
  big_endian.Load host n (big_endian.Store host n p v) = v /\
  little_endian.Store host n p (little_endian.Load host n p) = p /\
  big_endian.Store host n p (big_endian.Load host n p) = p.
Proof.
  intros Hn Hv Hp Hl.
  assert (Hf : Forall (in_u 8) (firstn n p)) 
    by (rewrite <- (firstn_skipn n p) in Hp; now apply Forall_app in Hp as [? _]).
  assert (Hfl : length (firstn n p) = n) by (rewrite length_firstn; lia).
  assert (Hr : forall l, Forall (in_u 8) l -> length l = n -> le_bytes n (le_val l) = l)
    by (intros l H1 H2; rewrite <- H2; now apply le_bytes_val).
  assert (Hb : forall l, Forall (in_u 8) l -> length l = n -> in_u (8 * Z.of_nat n) (le_val l))
    by (intros l H1 H2; rewrite <- H2; now apply le_val_range).
  assert (Hrev : Forall (in_u 8) (rev (firstn n p))) by now apply Forall_rev.
  assert (Hrl : length (rev (firstn n p)) = n) by now rewrite length_rev.
  unfold little_endian.Load, little_endian.Store, big_endian.Load, big_endian.Store.
  rewrite !firstn_store by apply store_length.
  rewrite !store_load_host
    by (unfold little_endian.FromHost, big_endian.FromHost; destruct host; auto using gbswap_range).
  unfold little_endian.ToHost, big_endian.ToHost, UNALIGNED_LOAD.
  split; [|split; [|split]].
  - unfold little_endian.FromHost, big_endian.FromHost. destruct host; auto using gbswap_involutive.
  - unfold little_endian.FromHost, big_endian.FromHost. destruct host; auto using gbswap_involutive.
  - rewrite Store_bytes_little by assumption.
    destruct host; rewrite ?gbswap_bytes, Hr, ?rev_involutive by auto; apply firstn_skipn.
  - rewrite Store_bytes_big by assumption.
    destruct host; rewrite ?gbswap_bytes, Hr, ?rev_involutive by auto; apply firstn_skipn.
Qed.

(** The bytes that [little_endian::Store] and [big_endian::Store] write do not depend on the
    byte order of the host (least significant first for the one, most significant first for the
    other, bytes past the scalar kept); on either host a [Load] reads back what a [Store] of an
    [n]-byte value wrote, and a [Store] of a loaded value leaves memory unchanged. *)
Lemma load_store_correct host n p v :
  std_bytes n -> in_u (8 * Z.of_nat n) v -> Forall (in_u 8) p -> (n <= length p)%nat ->
  (little_endian.Store host n p v = le_bytes n v ++ skipn n p /\
   big_endian.Store host n p v = rev (le_bytes n v) ++ skipn n p) /\
  little_endian.Load host n (little_endian.Store host n p v) = v /\
  big_endian.Load host n (big_endian.Store host n p v) = v /\
  little_endian.Store host n p (little_endian.Load host n p) = p /\
  big_endian.Store host n p (big_endian.Load host n p) = p.
Proof. intros. split; [now apply Store_host_independent|now apply load_store_roundtrip]. Qed.
