(* ===== verification/Digits.v ===== *)
(** Positional notation, shared by the printing and parsing components: the
    canonical digit list of a non-negative integer in a base, most significant
    digit first, its zero-padded form, and the value of a digit list. *)
From Stdlib Require Import Ascii String.
From Stdlib Require Import ZArith Lia List Bool.
From S2P Require Import Prelude.
Import ListNotations.
#[local] Open Scope Z_scope.

Section Base.
Context (b : Z) (Hb : 2 <= b).

(** Value of a digit list read left to right. *)
Definition digits_val (ds : list Z) : Z := fold_left (fun v d => v * b + d) ds 0.

Fixpoint digits_fuel (fuel : nat) (x : Z) : list Z :=
  match fuel with
  | O => [x]
  | S f => if x <? b then [x] else digits_fuel f (x / b) ++ [x mod b]
  end.

(** [log2 x] steps are enough: each divides by at least 2. *)
Definition digits (x : Z) : list Z := digits_fuel (Z.to_nat (Z.log2 x)) x.

(** Exactly [n] digits, with leading zeros. *)
Fixpoint padded (n : nat) (x : Z) : list Z :=
  match n with
  | O => []
  | S n' => padded n' (x / b) ++ [x mod b]
  end.

Definition is_digit (d : Z) : Prop := 0 <= d < b.

Lemma digits_val_acc ds v :
  fold_left (fun v d => v * b + d) ds v = v * b ^ Z.of_nat (length ds) + digits_val ds.
Proof.
  unfold digits_val. revert v. induction ds as [|d ds IH]; intros v.
  - cbn. lia.
  - cbn [fold_left length]. rewrite IH, (IH (0 * b + d)), Nat2Z.inj_succ, Z.pow_succ_r by lia. lia.
Qed.

Lemma digits_val_app xs ys :
  digits_val (xs ++ ys) = digits_val xs * b ^ Z.of_nat (length ys) + digits_val ys.
Proof. unfold digits_val at 1. rewrite fold_left_app. apply digits_val_acc. Qed.

Lemma digits_val_cons d ds :
  digits_val (d :: ds) = d * b ^ Z.of_nat (length ds) + digits_val ds.
Proof. unfold digits_val at 1. cbn [fold_left]. rewrite digits_val_acc. lia. Qed.

Lemma digits_val_snoc xs d : digits_val (xs ++ [d]) = digits_val xs * b + d.
Proof.
  rewrite digits_val_app. cbn [length]. change (Z.of_nat 1) with 1.
  rewrite Z.pow_1_r. unfold digits_val at 2. cbn. lia.
Qed.

Lemma digits_val_range ds : Forall is_digit ds -> 0 <= digits_val ds < b ^ Z.of_nat (length ds).
Proof.
  induction 1 as [|d ds Hd _ IH]; [cbn; lia|].
  rewrite digits_val_cons. cbn [length]. rewrite Nat2Z.inj_succ, Z.pow_succ_r by lia.
  unfold is_digit in Hd. nia.
Qed.

Lemma digits_fuel_val fuel x : digits_val (digits_fuel fuel x) = x.
Proof.
  revert x. induction fuel as [|f IH]; intros x; cbn [digits_fuel]; [reflexivity|].
  case_if; [reflexivity|]. rewrite digits_val_snoc, IH. pose proof (Z.div_mod x b). lia.
Qed.

(** The digits of [x] read back as [x]. *)
Lemma digits_val_digits x : digits_val (digits x) = x.
Proof. apply digits_fuel_val. Qed.

Lemma div_base_log2 x : b <= x -> Z.log2 (x / b) < Z.log2 x.
Proof.
  intros Hx. assert (1 <= x / b) by (apply Z.div_le_lower_bound; lia).
  assert (x / b <= x / 2) by (apply Z.div_le_compat_l; lia).
  apply Z.le_lt_trans with (Z.log2 (x / 2)); [apply Z.log2_le_mono; lia|].
  rewrite <- Z.div2_div, Z.div2_spec, Z.log2_shiftr by lia.
  assert (0 < Z.log2 x) by (apply Z.log2_pos; lia). lia.
Qed.

Lemma digits_fuel_digit fuel x :
  0 <= x -> Z.log2 x <= Z.of_nat fuel -> Forall is_digit (digits_fuel fuel x).
Proof.
  revert x. induction fuel as [|f IH]; intros x Hx Hf; cbn [digits_fuel].
  - constructor; [|constructor]. unfold is_digit. split; [lia|].
    destruct (Z.lt_ge_cases x 2); [lia|]. assert (0 < Z.log2 x) by (apply Z.log2_pos; lia). lia.
  - case_if; zbool; [constructor; [unfold is_digit; lia|constructor]|].
    apply Forall_app. split.
    + apply IH; [apply Z.div_pos; lia|]. pose proof (div_base_log2 x ltac:(lia)). lia.
    + constructor; [|constructor]. apply Z.mod_pos_bound. lia.
Qed.

Lemma digits_digit x : 0 <= x -> Forall is_digit (digits x).
Proof. intros Hx. apply digits_fuel_digit; [lia|]. pose proof (Z.log2_nonneg x). lia. Qed.

Lemma digits_fuel_irrel f g x :
  0 <= x -> Z.log2 x <= Z.of_nat f -> Z.log2 x <= Z.of_nat g -> digits_fuel f x = digits_fuel g x.
Proof.
  revert g x. induction f as [|f IH]; intros g x Hx Hf Hg.
  - destruct g as [|g]; [reflexivity|]. cbn [digits_fuel]. case_if; [reflexivity|]. zbool.
    assert (0 < Z.log2 x) by (apply Z.log2_pos; lia). lia.
  - destruct g as [|g]; cbn [digits_fuel]; case_if; try reflexivity; zbool.
    + assert (0 < Z.log2 x) by (apply Z.log2_pos; lia). lia.
    + f_equal. pose proof (div_base_log2 x ltac:(lia)).
      apply IH; [apply Z.div_pos; lia|lia|lia].
Qed.

Lemma digits_small x : 0 <= x < b -> digits x = [x].
Proof.
  intros Hx. unfold digits. destruct (Z.to_nat (Z.log2 x)); cbn [digits_fuel]; [reflexivity|].
  now replace (x <? b) with true by (symmetry; apply Z.ltb_lt; lia).
Qed.

Lemma digits_step x : b <= x -> digits x = digits (x / b) ++ [x mod b].
Proof.
  intros Hx. unfold digits. pose proof (div_base_log2 x Hx).
  assert (0 <= x / b) by (apply Z.div_pos; lia). pose proof (Z.log2_nonneg (x / b)).
  destruct (Z.to_nat (Z.log2 x)) as [|f] eqn:E; [lia|]. cbn [digits_fuel].
  replace (x <? b) with false by (symmetry; apply Z.ltb_ge; lia).
  f_equal. apply digits_fuel_irrel; lia.
Qed.

Lemma padded_length n x : length (padded n x) = n.
Proof. revert x. induction n; intros; cbn; [reflexivity|]. rewrite length_app, IHn. cbn. lia. Qed.

Lemma padded_app n m x : padded (n + m) x = padded n (x / b ^ Z.of_nat m) ++ padded m x.
Proof.
  revert x. induction m as [|m IH]; intros x.
  - rewrite Nat.add_0_r, Z.div_1_r. cbn [padded]. symmetry. apply app_nil_r.
  - rewrite Nat.add_succ_r. cbn [padded]. rewrite IH, <- app_assoc, Nat2Z.inj_succ, Z.pow_succ_r by lia.
    now rewrite Z.div_div by (try apply Z.pow_pos_nonneg; lia).
Qed.

(** Only the low places of the number show. *)
Lemma padded_mod n x : padded n (x mod b ^ Z.of_nat n) = padded n x.
Proof.
  revert x. induction n as [|n IH]; intros x; [reflexivity|]. cbn [padded].
  rewrite Nat2Z.inj_succ, Z.pow_succ_r by lia.
  assert (0 < b ^ Z.of_nat n) by (apply Z.pow_pos_nonneg; lia). rewrite Z.rem_mul_r by lia.
  rewrite (Z.mul_comm b), Z.div_add, Z.mod_add by lia.
  rewrite (Z.div_small (x mod b)), Z.mod_mod, Z.add_0_l, IH by (try apply Z.mod_pos_bound; lia). reflexivity.
Qed.

Lemma padded_digit n x : Forall is_digit (padded n x).
Proof.
  revert x. induction n as [|n IH]; intros; cbn; [constructor|].
  apply Forall_app. split; [apply IH|constructor; [|constructor]].
  apply Z.mod_pos_bound. lia.
Qed.

Lemma padded_val n x : 0 <= x < b ^ Z.of_nat n -> digits_val (padded n x) = x.
Proof.
  revert x. induction n as [|n IH]; intros x Hx; cbn [padded].
  - cbn in *. lia.
  - rewrite Nat2Z.inj_succ, Z.pow_succ_r in Hx by lia.
    rewrite digits_val_snoc, IH.
    + pose proof (Z.div_mod x b). lia.
    + split; [apply Z.div_pos; lia|apply Z.div_lt_upper_bound; lia].
Qed.

(** A leading chunk followed by [n] padded digits. *)
Lemma digits_chunk n h l :
  0 < h -> 0 <= l < b ^ Z.of_nat n -> digits (h * b ^ Z.of_nat n + l) = digits h ++ padded n l.
Proof.
  revert l. induction n as [|n IH]; intros l Hh Hl; cbn [padded].
  - rewrite app_nil_r. cbn in *. f_equal. lia.
  - rewrite Nat2Z.inj_succ, Z.pow_succ_r in * by lia.
    assert (0 < b ^ Z.of_nat n) by (apply Z.pow_pos_nonneg; lia).
    rewrite digits_step by nia.
    replace (h * (b * b ^ Z.of_nat n) + l) with (l + h * b ^ Z.of_nat n * b) by lia.
    rewrite Z.div_add, Z.mod_add by lia.
    rewrite (Z.add_comm (l / b)), IH, <- app_assoc; [reflexivity|lia|].
    split; [apply Z.div_pos; lia|apply Z.div_lt_upper_bound; lia].
Qed.

(** Zero-padding the canonical digits to [n] places. *)
Lemma padded_digits n x :
  0 <= x < b ^ Z.of_nat n -> (0 < n)%nat ->
  padded n x = repeat 0 (n - length (digits x)) ++ digits x /\ (length (digits x) <= n)%nat.
Proof.
  revert x. induction n as [|n IH]; intros x Hx Hn; [lia|].
  rewrite Nat2Z.inj_succ, Z.pow_succ_r in Hx by lia. cbn [padded].
  destruct (Z.lt_ge_cases x b) as [Hlt|Hge].
  - rewrite digits_small, Z.div_small, Z.mod_small by lia. cbn [length].
    split; [|lia]. f_equal. clear - Hb. replace (S n - 1)%nat with n by lia.
    induction n; cbn [padded repeat]; [reflexivity|].
    rewrite Z.div_0_l, Z.mod_0_l, IHn by lia. symmetry. apply repeat_cons.
  - assert (x / b < b ^ Z.of_nat n) by (apply Z.div_lt_upper_bound; lia).
    assert (0 < x / b) by (apply Z.div_str_pos; lia).
    assert (0 < n)%nat by (destruct n; [rewrite Z.pow_0_r in *; lia|lia]).
    destruct (IH (x / b) ltac:(lia) ltac:(lia)) as [E L].
    rewrite (digits_step x), E, length_app, <- app_assoc by lia. cbn [length].
    split; [|lia]. replace (S n - (length (digits (x / b)) + 1))%nat
      with (n - length (digits (x / b)))%nat by lia. reflexivity.
Qed.

(** Canonical: no leading zero, except for zero itself. *)
Definition canonical (ds : list Z) : Prop :=
  Forall is_digit ds /\ match ds with [] => False | [d] => True | d :: _ => d <> 0 end.

Lemma digits_hd x : 0 < x -> exists d ds, digits x = d :: ds /\ d <> 0.
Proof.
  intros Hx. remember (Z.to_nat x) as n eqn:En. revert x Hx En.
  induction n as [n IH] using lt_wf_ind. intros x Hx En.
  destruct (Z.lt_ge_cases x b).
  - rewrite digits_small by lia. exists x, []. split; [reflexivity|lia].
  - assert (0 < x / b) by (apply Z.div_str_pos; lia).
    assert (x / b < x) by (apply Z.div_lt; lia).
    destruct (IH (Z.to_nat (x / b)) ltac:(lia) (x / b) ltac:(lia) eq_refl) as (d & ds & E & Hd).
    rewrite digits_step, E by lia. exists d, (ds ++ [x mod b]). auto.
Qed.

Lemma digits_canonical x : 0 <= x -> canonical (digits x).
Proof.
  intros Hx. split; [now apply digits_digit|].
  destruct (Z.eq_dec x 0) as [->|]; [rewrite digits_small by lia; exact I|].
  destruct (digits_hd x ltac:(lia)) as (d & ds & -> & Hd). now destruct ds.
Qed.

Lemma canonical_pos d e ds : canonical (d :: e :: ds) -> b <= digits_val (d :: e :: ds).
Proof.
  intros [Hf Hd]. apply Forall_cons_iff in Hf as [H1 H2]. unfold is_digit in H1.
  rewrite digits_val_cons. pose proof (digits_val_range _ H2). cbn [length].
  rewrite Nat2Z.inj_succ, Z.pow_succ_r by lia.
  assert (0 < b ^ Z.of_nat (length ds)) by (apply Z.pow_pos_nonneg; lia).
  assert (b <= b * b ^ Z.of_nat (length ds)) by nia. nia.
Qed.

(** Canonical digit lists are determined by their value. *)
Lemma digits_unique ds : canonical ds -> digits (digits_val ds) = ds.
Proof.
  induction ds as [|d ds IH] using rev_ind; intros Hc; [destruct Hc as [_ []]|].
  rewrite digits_val_snoc.
  assert (Hd : is_digit d) by (destruct Hc as [Hf _]; apply Forall_app in Hf as [_ Hf]; now inversion Hf).
  unfold is_digit in Hd. destruct ds as [|e ds].
  - cbn. apply digits_small. lia.
  - assert (Hc' : canonical (e :: ds)).
    { destruct Hc as [Hf He]. split; [now apply Forall_app in Hf as [Hf _]|].
      destruct ds; [exact I|exact He]. }
    assert (Hpos : 1 <= digits_val (e :: ds)).
    { destruct ds as [|e' ds]; [|apply canonical_pos in Hc'; lia].
      destruct Hc as [Hf He]. apply Forall_cons_iff in Hf as [Hf _]. unfold is_digit in Hf.
      cbn in *. lia. }
    rewrite digits_step by nia.
    rewrite (Z.add_comm _ d), Z.div_add, Z.mod_add, Z.div_small, Z.mod_small by lia.
    rewrite Z.add_0_l, IH by assumption. reflexivity.
Qed.

End Base.

(** Decimal digits as characters. *)
Definition dec_text (ds : list Z) : list Z := map (fun d => chr "0" + d) ds.

Lemma dec_text_app a b : dec_text (a ++ b) = dec_text a ++ dec_text b.
Proof. apply map_app. Qed.

Lemma dec_text_length ds : length (dec_text ds) = length ds.
Proof. apply length_map. Qed.
