(* ===== verification/Int128.v ===== *)
(** [absl/numeric/int128.h], [int128.cc] and [int128_no_intrinsic.inc]: 128-bit
    integers built from two 64-bit halves, as they are compiled when the
    compiler has no intrinsic 128-bit type. *)
From Stdlib Require Import Ascii String ZArith Lia List Bool.
From S2P Require Import Prelude Bits Digits.
Import ListNotations.
#[local] Open Scope Z_scope.
#[local] Open Scope mach_scope.

(** ** Representation *)
Record uint128 := MakeUint128 { Uint128High64 : Z; Uint128Low64 : Z }.

Record int128 := MakeInt128 { Int128High64 : Z; Int128Low64 : Z }.

Definition uint128_ok (v : uint128) : Prop :=
  in_u 64 (Uint128High64 v) /\ in_u 64 (Uint128Low64 v).

Definition int128_ok (v : int128) : Prop :=
  in_s 64 (Int128High64 v) /\ in_u 64 (Int128Low64 v).

(** The integers the two halves stand for. *)
Definition uval (v : uint128) : Z := Uint128High64 v * 2 ^ 64 + Uint128Low64 v.
Definition ival (v : int128) : Z := Int128High64 v * 2 ^ 64 + Int128Low64 v.

Definition uint64_max : Z := 2 ^ 64 - 1.

(** ** uint128 *)
Module U.

(** Construction from a signed and from an unsigned built-in type. *)
Definition of_signed (v : Z) : uint128 :=
  MakeUint128 (if v <? 0 then uint64_max else 0) (wrapu 64 v).

Definition of_unsigned (v : Z) : uint128 := MakeUint128 0 v.

Definition of_int128 (v : int128) : uint128 :=
  MakeUint128 (wrapu 64 (Int128High64 v)) (Int128Low64 v).

Definition to_bool (v : uint128) : bool :=
  negb (Uint128Low64 v =? 0) || negb (Uint128High64 v =? 0).

(** Conversion to an unsigned and to a signed type of [w] bits. *)
Definition to_unsigned (w : Z) (v : uint128) : Z := wrapu w (Uint128Low64 v).
Definition to_signed (w : Z) (v : uint128) : Z := wraps w (Uint128Low64 v).

Definition eqb (lhs rhs : uint128) : bool :=
  (Uint128Low64 lhs =? Uint128Low64 rhs) && (Uint128High64 lhs =? Uint128High64 rhs).

Definition neqb (lhs rhs : uint128) : bool := negb (eqb lhs rhs).

Definition ltb (lhs rhs : uint128) : bool :=
  if Uint128High64 lhs =? Uint128High64 rhs
  then Uint128Low64 lhs <? Uint128Low64 rhs
  else Uint128High64 lhs <? Uint128High64 rhs.

Definition gtb (lhs rhs : uint128) : bool := ltb rhs lhs.
Definition leb (lhs rhs : uint128) : bool := negb (ltb rhs lhs).
Definition geb (lhs rhs : uint128) : bool := negb (ltb lhs rhs).

(** The three-way comparison. *)
Definition compare (lhs rhs : uint128) : comparison :=
  if Uint128High64 lhs <? Uint128High64 rhs then Lt
  else if Uint128High64 lhs >? Uint128High64 rhs then Gt
  else if Uint128Low64 lhs <? Uint128Low64 rhs then Lt
  else if Uint128Low64 lhs >? Uint128Low64 rhs then Gt
  else Eq.

Definition opp (val : uint128) : uint128 :=
  MakeUint128 (~[64] (Uint128High64 val) +[64] Z.b2z (Uint128Low64 val =? 0))
              (~[64] (Uint128Low64 val) +[64] 1).

Definition is_zero (val : uint128) : bool :=
  (Uint128High64 val =? 0) && (Uint128Low64 val =? 0).

Definition lnot (val : uint128) : uint128 :=
  MakeUint128 (~[64] (Uint128High64 val)) (~[64] (Uint128Low64 val)).

Definition lor (lhs rhs : uint128) : uint128 :=
  MakeUint128 (Uint128High64 lhs .| Uint128High64 rhs) (Uint128Low64 lhs .| Uint128Low64 rhs).

Definition land (lhs rhs : uint128) : uint128 :=
  MakeUint128 (Uint128High64 lhs .& Uint128High64 rhs) (Uint128Low64 lhs .& Uint128Low64 rhs).

Definition lxor (lhs rhs : uint128) : uint128 :=
  MakeUint128 (Uint128High64 lhs .^ Uint128High64 rhs) (Uint128Low64 lhs .^ Uint128Low64 rhs).

(** Shifts by [0 <= amount < 128]; a larger one shifts a [uint64_t] by 64 or more, which C++
    leaves undefined. *)
Definition shl (lhs : uint128) (amount : Z) : uint128 :=
  if amount >=? 64 then MakeUint128 (Uint128Low64 lhs <<[64] (amount - 64)) 0
  else if amount =? 0 then lhs
  else MakeUint128 ((Uint128High64 lhs <<[64] amount) .| (Uint128Low64 lhs >> (64 - amount)))
                   (Uint128Low64 lhs <<[64] amount).

Definition shr (lhs : uint128) (amount : Z) : uint128 :=
  if amount >=? 64 then MakeUint128 0 (Uint128High64 lhs >> (amount - 64))
  else if amount =? 0 then lhs
  else MakeUint128 (Uint128High64 lhs >> amount)
                   ((Uint128Low64 lhs >> amount) .| (Uint128High64 lhs <<[64] (64 - amount))).

Definition AddResult (result lhs : uint128) : uint128 :=
  if Uint128Low64 result <? Uint128Low64 lhs
  then MakeUint128 (Uint128High64 result +[64] 1) (Uint128Low64 result)
  else result.

Definition add (lhs rhs : uint128) : uint128 :=
  AddResult (MakeUint128 (Uint128High64 lhs +[64] Uint128High64 rhs)
                         (Uint128Low64 lhs +[64] Uint128Low64 rhs)) lhs.

Definition SubstructResult (result lhs rhs : uint128) : uint128 :=
  if Uint128Low64 lhs <? Uint128Low64 rhs
  then MakeUint128 (Uint128High64 result -[64] 1) (Uint128Low64 result)
  else result.

Definition sub (lhs rhs : uint128) : uint128 :=
  SubstructResult (MakeUint128 (Uint128High64 lhs -[64] Uint128High64 rhs)
                               (Uint128Low64 lhs -[64] Uint128Low64 rhs)) lhs rhs.

Definition mul (lhs rhs : uint128) : uint128 :=
  let a32 := Uint128Low64 lhs >> 32 in
  let a00 := Uint128Low64 lhs .& 0xffffffff in
  let b32 := Uint128Low64 rhs >> 32 in
  let b00 := Uint128Low64 rhs .& 0xffffffff in
  let result :=
    MakeUint128 ((Uint128High64 lhs *[64] Uint128Low64 rhs)
                  +[64] (Uint128Low64 lhs *[64] Uint128High64 rhs) +[64] (a32 *[64] b32))
                (a00 *[64] b00) in
  let result := add result (shl (of_unsigned (a32 *[64] b00)) 32) in
  let result := add result (shl (of_unsigned (a00 *[64] b32)) 32) in
  result.

(** [++] and [--]; the postfix forms return the old value beside the new one. *)
Definition incr (v : uint128) : uint128 := add v (of_signed 1).
Definition decr (v : uint128) : uint128 := sub v (of_signed 1).
Definition post_incr (v : uint128) : uint128 * uint128 := (v, add v (of_signed 1)).
Definition post_decr (v : uint128) : uint128 * uint128 := (v, sub v (of_signed 1)).

(** Position of the most significant set bit. *)
Definition Fls128 (n : uint128) : Z :=
  let hi := Uint128High64 n in
  if negb (hi =? 0) then 127 - countl_zero 64 hi
  else 63 - countl_zero 64 (Uint128Low64 n).

End U.

(** ** Long division, over the word interface it needs *)

(** The word operations the shift-subtract division uses ... *)
Class UWord (T : Type) := {
  w_zero : T;
  w_one : T;
  w_gtb : T -> T -> bool;
  w_geb : T -> T -> bool;
  w_eqb : T -> T -> bool;
  w_sub : T -> T -> T;
  w_or : T -> T -> T;
  w_shl : T -> Z -> T;
  w_shr : T -> Z -> T;
  w_fls : T -> Z
}.

(** ... and what it relies on: each operation is the operation on [width]-bit integers. *)
Class UWordLaws (T : Type) `{UWord T} (width : Z) (ok : T -> Prop) (val : T -> Z) := {
  w_range : forall a, ok a -> in_u width (val a);
  w_zero_val : ok w_zero /\ val w_zero = 0;
  w_one_val : ok w_one /\ val w_one = 1;
  w_gtb_val : forall a b, ok a -> ok b -> w_gtb a b = (val b <? val a);
  w_geb_val : forall a b, ok a -> ok b -> w_geb a b = (val b <=? val a);
  w_eqb_val : forall a b, ok a -> ok b -> w_eqb a b = (val a =? val b);
  w_sub_val : forall a b, ok a -> ok b -> ok (w_sub a b) /\ val (w_sub a b) = val a -[width] val b;
  w_or_val : forall a b, ok a -> ok b -> ok (w_or a b) /\ val (w_or a b) = val a .| val b;
  w_shl_val : forall a n, ok a -> 0 <= n < width ->
    ok (w_shl a n) /\ val (w_shl a n) = val a <<[width] n;
  w_shr_val : forall a n, ok a -> 0 <= n < width ->
    ok (w_shr a n) /\ val (w_shr a n) = val a >> n;
  w_fls_val : forall a, ok a -> val a <> 0 -> w_fls a = Z.log2 (val a)
}.

Section LongDivision.
Context {T : Type} {Ops : UWord T}.

(** One iteration: [quotient <<= 1; if (dividend >= denominator) ...]. *)
Definition div_step (dividend denominator quotient : T) : T * T :=
  let quotient := w_shl quotient 1 in
  if w_geb dividend denominator
  then (w_sub dividend denominator, w_or quotient w_one)
  else (dividend, quotient).

(** [for (int i = 0; i <= shift; ++i)] with [n] iterations left. *)
Fixpoint div_loop (n : nat) (dividend denominator quotient : T) : T * T :=
  match n with
  | O => (quotient, dividend)
  | S n' =>
      let '(dividend, quotient) := div_step dividend denominator quotient in
      div_loop n' dividend (w_shr denominator 1) quotient
  end.

(** Returns the quotient and the remainder. *)
Definition DivModImpl (dividend divisor : T) : T * T :=
  if w_gtb divisor dividend then (w_zero, dividend)
  else if w_eqb divisor dividend then (w_one, w_zero)
  else
    let shift := w_fls dividend - w_fls divisor in
    div_loop (Z.to_nat (shift + 1)) dividend (w_shl divisor shift) w_zero.

Context (width : Z) (ok : T -> Prop) (val : T -> Z) {Laws : UWordLaws T width ok val}.

Lemma lor_one_even q : Z.lor (2 * q) 1 = 2 * q + 1.
Proof.
  replace (2 * q) with (Z.shiftl q 1) by (rewrite Z.shiftl_mul_pow2; lia).
  rewrite Z.lor_comm, lor_lohi, Z.shiftl_mul_pow2 by (unfold in_u; lia). lia.
Qed.

(** A step turns [q * 2P + v = D], [v < 2P] (with [P] the denominator) into
    [q' * P + v' = D], [v' < P]. *)
Lemma div_step_spec dividend denominator quotient P D :
  1 < width -> 0 < P -> 0 <= D < 2 ^ width ->
  ok dividend -> ok denominator -> ok quotient ->
  val denominator = P -> val dividend < 2 * P -> val quotient * (2 * P) + val dividend = D ->
  let '(v, q) := div_step dividend denominator quotient in
  ok v /\ ok q /\ 0 <= val v < P /\ val q * P + val v = D.
Proof.
  intros Hw HP HD Ov Od Oq EP Hlt Eq. unfold div_step.
  pose proof (w_range _ Ov) as Rv. pose proof (w_range _ Od) as Rd.
  pose proof (w_range _ Oq) as Rq. unfold in_u in *.
  assert (Hq : 2 * val quotient < 2 ^ width) by nia.
  assert (H1 : 0 <= 1 < width) by lia. destruct (w_shl_val quotient 1 Oq H1) as [Os Es].
  rewrite Z.shiftl_mul_pow2, wrapu_small in Es by lia. change (2 ^ 1) with 2 in Es.
  rewrite w_geb_val by assumption. rewrite EP.
  destruct (P <=? val dividend) eqn:E; zbool.
  - destruct (w_sub_val dividend denominator Ov Od) as [Ob Eb].
    destruct w_one_val as [O1 E1]. destruct (w_or_val _ w_one Os O1) as [Oo Eo].
    rewrite EP, wrapu_small in Eb by lia.
    rewrite Es, E1, (Z.mul_comm (val quotient)), lor_one_even in Eo.
    rewrite Eb, Eo. repeat split; auto; nia.
  - rewrite Es. repeat split; auto; nia.
Qed.

Lemma div_loop_spec n dividend denominator quotient d D :
  1 < width -> 0 < d -> 0 <= D < 2 ^ width ->
  ok dividend -> ok denominator -> ok quotient ->
  val denominator = d * 2 ^ Z.of_nat n ->
  val dividend < 2 * val denominator ->
  val quotient * (2 * val denominator) + val dividend = D ->
  let '(q, r) := div_loop (S n) dividend denominator quotient in
  ok q /\ ok r /\ val q * d + val r = D /\ 0 <= val r < d.
Proof.
  intros Hw Hd HD. revert dividend denominator quotient.
  induction n as [|n IH]; intros dividend denominator quotient Ov Od Oq Eden Hlt Eq;
    (assert (HP : 0 < val denominator)
      by (rewrite Eden; apply Z.mul_pos_pos; [lia|apply pow2_pos; lia]));
    pose proof (div_step_spec dividend denominator quotient _ D Hw HP HD Ov Od Oq eq_refl Hlt Eq) as S;
    cbn [div_loop]; destruct (div_step dividend denominator quotient) as [v q];
    destruct S as (Ov' & Oq' & Rv & Ev).
  - rewrite Eden in *. change (2 ^ Z.of_nat 0) with 1 in *. repeat split; auto; lia.
  - assert (H1 : 0 <= 1 < width) by lia. destruct (w_shr_val denominator 1 Od H1) as [Os Es].
    rewrite Nat2Z.inj_succ, Z.pow_succ_r in Eden by lia.
    assert (Es' : val (w_shr denominator 1) = d * 2 ^ Z.of_nat n).
    { rewrite Es, Eden, Z.shiftr_div_pow2 by lia. change (2 ^ 1) with 2.
      replace (d * (2 * 2 ^ Z.of_nat n)) with (d * 2 ^ Z.of_nat n * 2) by lia.
      apply Z.div_mul. lia. }
    apply IH; auto; rewrite Es'; lia.
Qed.

(** Long division divides: on any word implementation that satisfies the laws. *)
Lemma DivModImpl_spec dividend divisor :
  1 < width -> ok dividend -> ok divisor -> val divisor <> 0 ->
  let '(q, r) := DivModImpl dividend divisor in
  ok q /\ ok r /\ val q = val dividend / val divisor /\ val r = val dividend mod val divisor.
Proof.
  intros Hw Ov Od Hnz. pose proof (w_range _ Ov) as Rv. pose proof (w_range _ Od) as Rd.
  unfold in_u in *. unfold DivModImpl.
  destruct w_zero_val as [O0 E0]. destruct w_one_val as [O1 E1].
  rewrite w_gtb_val, w_eqb_val by assumption.
  destruct (val dividend <? val divisor) eqn:Hgt; zbool.
  { rewrite E0, Z.div_small, Z.mod_small by lia. auto. }
  destruct (val divisor =? val dividend) eqn:Heq; zbool.
  { rewrite E0, E1, Heq, Z.div_same, Z.mod_same by lia. auto. }
  rewrite !w_fls_val by (auto; lia).
  set (shift := Z.log2 (val dividend) - Z.log2 (val divisor)).
  assert (Hs0 : 0 <= shift) by (subst shift; pose proof (Z.log2_le_mono (val divisor) (val dividend)); lia).
  pose proof (Z.log2_nonneg (val divisor)).
  pose proof (Z.log2_spec (val divisor) ltac:(lia)) as [L1 U1].
  pose proof (Z.log2_spec (val dividend) ltac:(lia)) as [L2 U2].
  assert (HL : Z.log2 (val dividend) < width) by (apply Z.log2_lt_pow2; lia).
  assert (Hsw : 0 <= shift < width) by lia.
  destruct (w_shl_val divisor shift Od Hsw) as [Os Es].
  rewrite Z.shiftl_mul_pow2 in Es by lia.
  assert (Hup : val divisor * 2 ^ shift < 2 * 2 ^ Z.log2 (val dividend)).
  { replace (Z.log2 (val dividend)) with (Z.log2 (val divisor) + shift) by lia.
    rewrite Z.pow_succ_r in U1 by lia. rewrite Z.pow_add_r by lia. pose proof (pow2_pos shift). nia. }
  assert (Hlo : 2 ^ Z.log2 (val dividend) <= val divisor * 2 ^ shift).
  { replace (Z.log2 (val dividend)) with (Z.log2 (val divisor) + shift) by lia.
    rewrite Z.pow_add_r by lia. pose proof (pow2_pos shift). nia. }
  assert (2 * 2 ^ Z.log2 (val dividend) <= 2 ^ width)
    by (rewrite <- Z.pow_succ_r by lia; apply Z.pow_le_mono_r; lia).
  rewrite wrapu_small in Es by lia. rewrite Z.pow_succ_r in U2 by lia.
  pose proof (div_loop_spec (Z.to_nat shift) dividend (w_shl divisor shift) w_zero
    (val divisor) (val dividend)) as L.
  replace (Z.to_nat (shift + 1)) with (S (Z.to_nat shift)) by lia.
  destruct (div_loop _ _ _ _) as [q r].
  destruct L as (Oq & Or & E & R); auto; try lia.
  { rewrite Es, Z2Nat.id by lia. reflexivity. }
  repeat split; auto.
  - apply Z.div_unique with (val r); lia.
  - apply Z.mod_unique with (val q); lia.
Qed.

End LongDivision.

(** ** Correctness of the uint128 operations *)
Lemma uval_range a : uint128_ok a -> in_u 128 (uval a).
Proof. unfold uint128_ok, uval, in_u. lia. Qed.

Lemma uval_inj a b : uint128_ok a -> uint128_ok b -> uval a = uval b -> a = b.
Proof.
  destruct a, b. unfold uint128_ok, uval, in_u. cbn. intros. f_equal; lia.
Qed.

(** Unfold the representation and leave linear arithmetic on the halves. *)
Ltac u128 :=
  unfold uint128_ok, uval, in_u, wrapu, uint64_max in *; cbn [Uint128High64 Uint128Low64] in *.

Lemma U_add_val a b :
  uint128_ok a -> uint128_ok b ->
  uint128_ok (U.add a b) /\ uval (U.add a b) = uval a +[128] uval b.
Proof.
  destruct a as [ah al], b as [bh bl]. unfold U.add, U.AddResult. u128.
  intros Ha Hb. case_if; cbn [Uint128High64 Uint128Low64]; zlia.
Qed.

Lemma U_sub_val a b :
  uint128_ok a -> uint128_ok b ->
  uint128_ok (U.sub a b) /\ uval (U.sub a b) = uval a -[128] uval b.
Proof.
  destruct a as [ah al], b as [bh bl]. unfold U.sub, U.SubstructResult. u128.
  intros Ha Hb. case_if; cbn [Uint128High64 Uint128Low64]; zlia.
Qed.

Lemma lnot_opp x : Z.lnot x = - x - 1.
Proof. unfold Z.lnot. lia. Qed.

Lemma U_opp_val a : uint128_ok a -> uint128_ok (U.opp a) /\ uval (U.opp a) = wrapu 128 (- uval a).
Proof.
  destruct a as [ah al]. unfold U.opp. cbn [Uint128High64 Uint128Low64].
  rewrite !wrapu_add_l, !lnot_opp. u128. intros Ha.
  destruct (al =? 0) eqn:E; cbn [Z.b2z]; zlia.
Qed.

Lemma U_lnot_val a : uint128_ok a -> uint128_ok (U.lnot a) /\ uval (U.lnot a) = ~[128] (uval a).
Proof.
  destruct a as [ah al]. unfold U.lnot. cbn [Uint128High64 Uint128Low64].
  rewrite !lnot_opp. u128. intros Ha. zlia.
Qed.

Lemma U_eqb_val a b : uint128_ok a -> uint128_ok b -> U.eqb a b = (uval a =? uval b).
Proof.
  destruct a, b. unfold U.eqb. u128. intros.
  apply eq_true_iff_eq. rewrite andb_true_iff, !Z.eqb_eq. lia.
Qed.

Lemma U_ltb_val a b : uint128_ok a -> uint128_ok b -> U.ltb a b = (uval a <? uval b).
Proof.
  destruct a, b. unfold U.ltb. u128. intros. case_if; zbool;
  apply eq_true_iff_eq; rewrite !Z.ltb_lt; lia.
Qed.

Lemma U_geb_val a b : uint128_ok a -> uint128_ok b -> U.geb a b = (uval b <=? uval a).
Proof. intros. unfold U.geb. rewrite U_ltb_val by assumption. lia. Qed.

Lemma U_compare_val a b : uint128_ok a -> uint128_ok b -> U.compare a b = (uval a ?= uval b).
Proof.
  destruct a, b. unfold U.compare. u128. intros.
  repeat (case_if; zbool); symmetry;
    first [apply Z.compare_lt_iff; lia | apply Z.compare_gt_iff; lia | apply Z.compare_eq_iff; lia].
Qed.

(** Bits of the value are the bits of the halves. *)
Lemma uval_testbit a i :
  uint128_ok a -> Z.testbit (uval a) i =
  if i <? 64 then Z.testbit (Uint128Low64 a) i else Z.testbit (Uint128High64 a) (i - 64).
Proof.
  intros [Hh Hl]. unfold uval. rewrite Z.mul_comm, Z.add_comm. apply testbit_lohi; [lia|assumption].
Qed.

Lemma U_bitwise_val (f : Z -> Z -> Z) (g : bool -> bool -> bool) h l a b :
  (forall x y i, Z.testbit (f x y) i = g (Z.testbit x i) (Z.testbit y i)) ->
  (forall x y, in_u 64 x -> in_u 64 y -> in_u 64 (f x y)) ->
  uint128_ok a -> uint128_ok b ->
  h = f (Uint128High64 a) (Uint128High64 b) -> l = f (Uint128Low64 a) (Uint128Low64 b) ->
  uint128_ok (MakeUint128 h l) /\ uval (MakeUint128 h l) = f (uval a) (uval b).
Proof.
  intros Hf Hr Ha Hb -> ->.
  assert (Hok : uint128_ok (MakeUint128 (f (Uint128High64 a) (Uint128High64 b))
                                        (f (Uint128Low64 a) (Uint128Low64 b))))
    by (split; apply Hr; first [apply Ha | apply Hb]).
  split; [exact Hok|]. apply Z.bits_inj'. intros i Hi.
  rewrite Hf, !uval_testbit by assumption. cbn [Uint128High64 Uint128Low64].
  case_if; apply Hf.
Qed.

Lemma U_lor_val a b :
  uint128_ok a -> uint128_ok b -> uint128_ok (U.lor a b) /\ uval (U.lor a b) = uval a .| uval b.
Proof.
  intros Ha Hb.
  apply (U_bitwise_val Z.lor orb _ _ a b Z.lor_spec (fun x y => in_u_lor 64 x y ltac:(lia)) Ha Hb);
    reflexivity.
Qed.

Lemma U_land_val a b :
  uint128_ok a -> uint128_ok b -> uint128_ok (U.land a b) /\ uval (U.land a b) = uval a .& uval b.
Proof.
  intros Ha Hb.
  apply (U_bitwise_val Z.land andb _ _ a b Z.land_spec
           (fun x y Hx _ => in_u_land_l 64 x y ltac:(lia) Hx) Ha Hb); reflexivity.
Qed.

Lemma U_lxor_val a b :
  uint128_ok a -> uint128_ok b -> uint128_ok (U.lxor a b) /\ uval (U.lxor a b) = uval a .^ uval b.
Proof.
  intros Ha Hb.
  apply (U_bitwise_val Z.lxor xorb _ _ a b Z.lxor_spec (fun x y => in_u_lxor 64 x y ltac:(lia)) Ha Hb);
    reflexivity.
Qed.

Lemma U_shl_val a n :
  uint128_ok a -> 0 <= n < 128 ->
  uint128_ok (U.shl a n) /\ uval (U.shl a n) = uval a <<[128] n.
Proof.
  intros Ha Hn. assert (Ha' := Ha). destruct Ha' as [Hh Hl]. unfold U.shl.
  destruct (n >=? 64) eqn:E; zbool; [|destruct (n =? 0) eqn:E0; zbool].
  - assert (Hok : uint128_ok (MakeUint128 (Uint128Low64 a <<[64] (n - 64)) 0))
      by (split; [apply wrapu_range; lia|unfold in_u; cbn; lia]).
    split; [exact Hok|]. apply Z.bits_inj'. intros i Hi.
    rewrite uval_testbit, wrapu_testbit, Z.shiftl_spec, uval_testbit by (auto; lia).
    cbn [Uint128High64 Uint128Low64]. rewrite Z.bits_0, wrapu_testbit by lia.
    destruct (i <? 64) eqn:E1; zbool.
    + rewrite (Z.testbit_neg_r _ (i - n)), (Z.testbit_neg_r _ (i - n - 64)) by lia.
      now case_if; rewrite andb_false_r.
    + rewrite Z.shiftl_spec by lia.
      replace (i - 64 <? 64) with (i <? 128) by (apply eq_true_iff_eq; rewrite !Z.ltb_lt; lia).
      destruct (i <? 128) eqn:E2; zbool; [|reflexivity].
      replace (i - n <? 64) with true by (symmetry; apply Z.ltb_lt; lia). cbn [andb]. f_equal. lia.
  - subst n. rewrite Z.shiftl_0_r, wrapu_small by (apply uval_range; assumption). auto.
  - assert (Hok : uint128_ok (MakeUint128 ((Uint128High64 a <<[64] n) .| (Uint128Low64 a >> (64 - n)))
                                          (Uint128Low64 a <<[64] n))).
    { split; [apply in_u_lor; [lia|apply wrapu_range; lia|apply in_u_shiftr; auto; lia]
             |apply wrapu_range; lia]. }
    split; [exact Hok|]. apply Z.bits_inj'. intros i Hi.
    rewrite uval_testbit, wrapu_testbit, Z.shiftl_spec, uval_testbit by (auto; lia).
    cbn [Uint128High64 Uint128Low64].
    rewrite Z.lor_spec, !wrapu_testbit by lia.
    destruct (i <? 64) eqn:E1; zbool.
    + rewrite Z.shiftl_spec by lia.
      replace (i <? 128) with true by (symmetry; apply Z.ltb_lt; lia).
      now replace (i - n <? 64) with true by (symmetry; apply Z.ltb_lt; lia).
    + rewrite Z.shiftl_spec, Z.shiftr_spec by lia.
      replace (i - 64 <? 64) with (i <? 128) by (apply eq_true_iff_eq; rewrite !Z.ltb_lt; lia).
      destruct (i <? 128) eqn:E2; zbool; cbn [andb orb].
      * destruct (i - n <? 64) eqn:E3; zbool.
        -- rewrite (Z.testbit_neg_r _ (i - 64 - n)) by lia. cbn [orb]. f_equal. lia.
        -- rewrite (testbit_above 64 (Uint128Low64 a)) by (auto; lia). rewrite orb_false_r. f_equal. lia.
      * apply (testbit_above 64); [assumption|lia].
Qed.

Lemma U_shr_val a n :
  uint128_ok a -> 0 <= n < 128 -> uint128_ok (U.shr a n) /\ uval (U.shr a n) = uval a >> n.
Proof.
  intros Ha Hn. assert (Ha' := Ha). destruct Ha' as [Hh Hl]. unfold U.shr.
  destruct (n >=? 64) eqn:E; zbool; [|destruct (n =? 0) eqn:E0; zbool].
  - assert (Hok : uint128_ok (MakeUint128 0 (Uint128High64 a >> (n - 64))))
      by (split; [unfold in_u; cbn; lia|apply in_u_shiftr; auto; lia]).
    split; [exact Hok|]. apply Z.bits_inj'. intros i Hi.
    rewrite Z.shiftr_spec, !uval_testbit by (auto; lia). cbn [Uint128High64 Uint128Low64].
    replace (i + n <? 64) with false by (symmetry; apply Z.ltb_ge; lia).
    destruct (i <? 64) eqn:E1; zbool; [rewrite Z.shiftr_spec by lia; f_equal; lia|].
    rewrite Z.bits_0, (testbit_above 64 (Uint128High64 a)) by (auto; lia). reflexivity.
  - subst n. now rewrite Z.shiftr_0_r.
  - assert (Hok : uint128_ok (MakeUint128 (Uint128High64 a >> n)
       ((Uint128Low64 a >> n) .| (Uint128High64 a <<[64] (64 - n))))).
    { split; [apply in_u_shiftr; auto; lia
             |apply in_u_lor; [lia|apply in_u_shiftr; auto; lia|apply wrapu_range; lia]]. }
    split; [exact Hok|]. apply Z.bits_inj'. intros i Hi.
    rewrite Z.shiftr_spec, !uval_testbit by (auto; lia). cbn [Uint128High64 Uint128Low64].
    destruct (i <? 64) eqn:E1; zbool.
    + rewrite Z.lor_spec, wrapu_testbit, Z.shiftr_spec, Z.shiftl_spec by lia.
      replace (i <? 64) with true by (symmetry; apply Z.ltb_lt; lia). cbn [andb].
      destruct (i + n <? 64) eqn:E2; zbool.
      * rewrite (Z.testbit_neg_r _ (i - (64 - n))) by lia. apply orb_false_r.
      * rewrite (testbit_above 64 (Uint128Low64 a)) by (auto; lia). cbn [orb]. f_equal. lia.
    + replace (i + n <? 64) with false by (symmetry; apply Z.ltb_ge; lia).
      rewrite Z.shiftr_spec by lia. f_equal. lia.
Qed.

Lemma wrapu_eq w x y q : 0 <= w -> x = y + q * 2 ^ w -> wrapu w x = wrapu w y.
Proof. intros Hw ->. apply Z.mod_add. apply Z.pow_nonzero; lia. Qed.

Lemma U_of_unsigned_val v :
  in_u 64 v -> uint128_ok (U.of_unsigned v) /\ uval (U.of_unsigned v) = v.
Proof. unfold U.of_unsigned. u128. lia. Qed.

Lemma U_of_signed_val v :
  in_s 64 v -> uint128_ok (U.of_signed v) /\ uval (U.of_signed v) = wrapu 128 v.
Proof. unfold U.of_signed, in_s. u128. intros. case_if; zlia. Qed.

Lemma U_of_int128_val v :
  int128_ok v -> uint128_ok (U.of_int128 v) /\ uval (U.of_int128 v) = wrapu 128 (ival v).
Proof. destruct v. unfold U.of_int128, int128_ok, ival, in_s. cbn. u128. intros. zlia. Qed.

Lemma wrapu_sum3 w x y z :
  wrapu w (wrapu w (wrapu w x + wrapu w y) + wrapu w z) = wrapu w (x + y + z).
Proof.
  rewrite wrapu_add_r, wrapu_add_l, <- Z.add_assoc, wrapu_add_l.
  replace (x + (wrapu w y + z)) with (wrapu w y + (x + z)) by lia.
  rewrite wrapu_add_l. f_equal. lia.
Qed.

Lemma wrapu_sum3' w x y z :
  0 <= w -> wrapu w (wrapu w (x + wrapu w y) + wrapu w z) = wrapu w (x + y + z).
Proof.
  intros Hw. rewrite <- (wrapu_sum3 w x y z). now rewrite (wrapu_add_l w x (wrapu w y)).
Qed.

Lemma U_mul_val a b :
  uint128_ok a -> uint128_ok b ->
  uint128_ok (U.mul a b) /\ uval (U.mul a b) = uval a *[128] uval b.
Proof.
  destruct a as [ah al], b as [bh bl]. intros [Hah Hal] [Hbh Hbl].
  cbn [Uint128High64 Uint128Low64] in *. unfold U.mul. cbn [Uint128High64 Uint128Low64].
  assert (Hm : forall x, x .& 0xffffffff = x mod 2 ^ 32) by (intros; apply (Z.land_ones x 32); lia).
  rewrite !Hm, !Z.shiftr_div_pow2, wrapu_sum3 by lia. unfold in_u in *.
  set (a32 := al / 2 ^ 32). set (a00 := al mod 2 ^ 32).
  set (b32 := bl / 2 ^ 32). set (b00 := bl mod 2 ^ 32).
  assert (Ea : al = a32 * 2 ^ 32 + a00 /\ 0 <= a32 < 2 ^ 32 /\ 0 <= a00 < 2 ^ 32) by (subst a32 a00; zlia).
  assert (Eb : bl = b32 * 2 ^ 32 + b00 /\ 0 <= b32 < 2 ^ 32 /\ 0 <= b00 < 2 ^ 32) by (subst b32 b00; zlia).
  clearbody a32 a00 b32 b00. destruct Ea as (Ea & Ra32 & Ra00), Eb as (Eb & Rb32 & Rb00).
  set (K := ah * bl + al * bh + a32 * b32).
  rewrite (wrapu_small 64 (a00 * b00)), (wrapu_small 64 (a32 * b00)), (wrapu_small 64 (a00 * b32)) by nia.
  destruct (U_of_unsigned_val (a32 * b00)) as [O1 V1]; [unfold in_u; nia|].
  destruct (U_of_unsigned_val (a00 * b32)) as [O2 V2]; [unfold in_u; nia|].
  destruct (U_shl_val _ 32 O1 ltac:(lia)) as [O3 V3].
  destruct (U_shl_val _ 32 O2 ltac:(lia)) as [O4 V4].
  assert (O0 : uint128_ok (MakeUint128 (wrapu 64 K) (a00 * b00)))
    by (split; cbn; [apply wrapu_range; lia|unfold in_u; nia]).
  destruct (U_add_val _ _ O0 O3) as [O5 V5]. destruct (U_add_val _ _ O5 O4) as [O6 V6].
  split; [exact O6|]. rewrite V6, V5, V4, V3, V2, V1, wrapu_sum3' by lia.
  rewrite !Z.shiftl_mul_pow2 by lia. unfold uval. cbn [Uint128High64 Uint128Low64].
  pose proof (Z.div_mod K (2 ^ 64) ltac:(lia)) as EK. fold (wrapu 64 K) in EK.
  apply (wrapu_eq 128 _ _ (- (K / 2 ^ 64) - ah * bh)); [lia|].
  replace (wrapu 64 K) with (K - 2 ^ 64 * (K / 2 ^ 64)) by lia.
  generalize (K / 2 ^ 64). intros q. subst K. rewrite Ea, Eb. ring.
Qed.

Lemma U_Fls128_val n : uint128_ok n -> uval n <> 0 -> U.Fls128 n = Z.log2 (uval n).
Proof.
  intros Hok Hn. pose proof (uval_range n Hok) as R. unfold U.Fls128.
  destruct n as [hi lo]. destruct Hok as [Hh Hl]. cbn [Uint128High64 Uint128Low64] in *.
  unfold uval in *. cbn [Uint128High64 Uint128Low64] in *. unfold in_u in *.
  destruct (hi =? 0) eqn:E; zbool; cbn [negb];
    rewrite countl_zero_bitlen by (unfold std_width, in_u; auto; lia); unfold bitlen.
  - subst hi. replace (lo =? 0) with false by (symmetry; apply Z.eqb_neq; lia).
    rewrite Z.mul_0_l, Z.add_0_l. lia.
  - replace (hi =? 0) with false by (symmetry; apply Z.eqb_neq; lia).
    symmetry. apply Z.log2_unique; [pose proof (Z.log2_nonneg hi); lia|].
    pose proof (Z.log2_spec hi ltac:(lia)) as [L U]. pose proof (Z.log2_nonneg hi).
    replace (127 - (64 - (Z.log2 hi + 1))) with (Z.log2 hi + 64) by lia.
    rewrite Z.pow_add_r by lia.
    replace (Z.succ (Z.log2 hi + 64)) with (Z.succ (Z.log2 hi) + 64) by lia.
    rewrite Z.pow_add_r by lia. lia.
Qed.

#[export] Instance uint128_UWord : UWord uint128 := {
  w_zero := U.of_signed 0;
  w_one := U.of_signed 1;
  w_gtb := U.gtb;
  w_geb := U.geb;
  w_eqb := U.eqb;
  w_sub := U.sub;
  w_or := U.lor;
  w_shl := U.shl;
  w_shr := U.shr;
  w_fls := U.Fls128
}.

#[export] Instance uint128_laws : UWordLaws uint128 128 uint128_ok uval.
Proof.
  constructor; cbn.
  - apply uval_range.
  - apply (U_of_signed_val 0). unfold in_s; lia.
  - apply (U_of_signed_val 1). unfold in_s; lia.
  - intros. unfold U.gtb. now apply U_ltb_val.
  - apply U_geb_val.
  - apply U_eqb_val.
  - apply U_sub_val.
  - apply U_lor_val.
  - apply U_shl_val.
  - apply U_shr_val.
  - apply U_Fls128_val.
Qed.

Definition U_div (lhs rhs : uint128) : uint128 := fst (DivModImpl lhs rhs).
Definition U_mod (lhs rhs : uint128) : uint128 := snd (DivModImpl lhs rhs).

Lemma U_divmod_val a b :
  uint128_ok a -> uint128_ok b -> uval b <> 0 ->
  uint128_ok (fst (DivModImpl a b)) /\ uint128_ok (snd (DivModImpl a b)) /\
  uval (fst (DivModImpl a b)) = uval a / uval b /\
  uval (snd (DivModImpl a b)) = uval a mod uval b.
Proof.
  intros Ha Hb Hn. pose proof (DivModImpl_spec 128 uint128_ok uval a b ltac:(lia) Ha Hb Hn) as S.
  now destruct (DivModImpl a b).
Qed.

(** ** int128 *)
Definition BitCastToSigned (v : Z) : Z :=
  if negb (v .& (1 <<[64] 63) =? 0) then Z.lnot (wraps 64 (~[64] v)) else wraps 64 v.

(** Signed addition of the high halves is undefined when it overflows: [None]. *)
Module I.

Definition of_signed (v : Z) : int128 := MakeInt128 (if v <? 0 then Z.lnot 0 else 0) (wrapu 64 v).
Definition of_unsigned (v : Z) : int128 := MakeInt128 0 v.
Definition of_uint128 (v : uint128) : int128 :=
  MakeInt128 (wraps 64 (Uint128High64 v)) (Uint128Low64 v).

Definition to_bool (v : int128) : bool :=
  negb (Int128Low64 v =? 0) || negb (Int128High64 v =? 0).

(** [operator long long], and the other signed types, which narrow it. *)
Definition to_int64 (v : int128) : Z := BitCastToSigned (Int128Low64 v).
Definition to_signed (w : Z) (v : int128) : Z := wraps w (to_int64 v).
Definition to_unsigned (w : Z) (v : int128) : Z := wrapu w (Int128Low64 v).

Definition eqb (lhs rhs : int128) : bool :=
  (Int128Low64 lhs =? Int128Low64 rhs) && (Int128High64 lhs =? Int128High64 rhs).

Definition neqb (lhs rhs : int128) : bool := negb (eqb lhs rhs).

Definition ltb (lhs rhs : int128) : bool :=
  if Int128High64 lhs =? Int128High64 rhs
  then Int128Low64 lhs <? Int128Low64 rhs
  else Int128High64 lhs <? Int128High64 rhs.

Definition gtb (lhs rhs : int128) : bool :=
  if Int128High64 lhs =? Int128High64 rhs
  then Int128Low64 lhs >? Int128Low64 rhs
  else Int128High64 lhs >? Int128High64 rhs.

Definition leb (lhs rhs : int128) : bool := negb (gtb lhs rhs).
Definition geb (lhs rhs : int128) : bool := negb (ltb lhs rhs).

Definition compare (lhs rhs : int128) : comparison :=
  if Int128High64 lhs <? Int128High64 rhs then Lt
  else if Int128High64 lhs >? Int128High64 rhs then Gt
  else if Uint128Low64 (U.of_int128 lhs) <? Uint128Low64 (U.of_int128 rhs) then Lt
  else if Uint128Low64 (U.of_int128 lhs) >? Uint128Low64 (U.of_int128 rhs) then Gt
  else Eq.

Definition opp (v : int128) : option int128 :=
  do h <- checked 64 (Z.lnot (Int128High64 v) + Z.b2z (Int128Low64 v =? 0));
  Some (MakeInt128 h (~[64] (Int128Low64 v) +[64] 1)).

Definition is_zero (v : int128) : bool := (Int128Low64 v =? 0) && (Int128High64 v =? 0).

Definition lnot (val : int128) : int128 :=
  MakeInt128 (Z.lnot (Int128High64 val)) (~[64] (Int128Low64 val)).

Definition SignedAddResult (result lhs : int128) : option int128 :=
  if Int128Low64 result <? Int128Low64 lhs
  then do h <- checked 64 (Int128High64 result + 1); Some (MakeInt128 h (Int128Low64 result))
  else Some result.

Definition add (lhs rhs : int128) : option int128 :=
  do h <- checked 64 (Int128High64 lhs + Int128High64 rhs);
  SignedAddResult (MakeInt128 h (Int128Low64 lhs +[64] Int128Low64 rhs)) lhs.

Definition SignedSubstructResult (result lhs rhs : int128) : option int128 :=
  if Int128Low64 lhs <? Int128Low64 rhs
  then do h <- checked 64 (Int128High64 result - 1); Some (MakeInt128 h (Int128Low64 result))
  else Some result.

Definition sub (lhs rhs : int128) : option int128 :=
  do h <- checked 64 (Int128High64 lhs - Int128High64 rhs);
  SignedSubstructResult (MakeInt128 h (Int128Low64 lhs -[64] Int128Low64 rhs)) lhs rhs.

Definition mul (lhs rhs : int128) : int128 :=
  let p := U.mul (U.of_int128 lhs) (U.of_int128 rhs) in
  MakeInt128 (BitCastToSigned (Uint128High64 p)) (Uint128Low64 p).

Definition incr (v : int128) : option int128 := add v (of_signed 1).
Definition decr (v : int128) : option int128 := sub v (of_signed 1).

Definition lor (lhs rhs : int128) : int128 :=
  MakeInt128 (Int128High64 lhs .| Int128High64 rhs) (Int128Low64 lhs .| Int128Low64 rhs).
Definition land (lhs rhs : int128) : int128 :=
  MakeInt128 (Int128High64 lhs .& Int128High64 rhs) (Int128Low64 lhs .& Int128Low64 rhs).
Definition lxor (lhs rhs : int128) : int128 :=
  MakeInt128 (Int128High64 lhs .^ Int128High64 rhs) (Int128Low64 lhs .^ Int128Low64 rhs).

(** A left shift of an [int64_t] keeps the low 64 bits (two's complement). *)
Definition shl (lhs : int128) (amount : Z) : int128 :=
  let hi := Int128High64 lhs in
  let lo := Int128Low64 lhs in
  if amount <=? 0 then lhs
  else if amount <? 63 then
    MakeInt128 (wraps 64 (Z.shiftl hi amount) .| wraps 64 (lo >> (64 - amount))) (lo <<[64] amount)
  else if amount =? 63 then
    MakeInt128 (wraps 64 (Z.shiftl (wraps 64 (Z.shiftl hi 32)) 31) .| wraps 64 (lo >> 1))
               ((lo <<[64] 32) <<[64] 31)
  else if amount =? 127 then MakeInt128 (wraps 64 (lo <<[64] 63)) 0
  else if amount >? 127 then MakeInt128 0 0
  else MakeInt128 (wraps 64 (lo <<[64] (amount - 64))) 0.

Definition shr (lhs : int128) (amount : Z) : int128 :=
  let hi := Int128High64 lhs in
  let lo := Int128Low64 lhs in
  if amount <=? 0 then lhs
  else if amount <? 63 then
    MakeInt128 (hi >> amount) ((lo >> amount) .| (wrapu 64 hi <<[64] (64 - amount)))
  else if amount =? 63 then
    MakeInt128 ((hi >> 32) >> 31)
               (wrapu 64 (wraps 64 (Z.shiftl hi 1)) .| ((lo >> 32) >> 31))
  else if amount >=? 127 then
    MakeInt128 ((hi >> 32) >> 31) (wrapu 64 ((hi >> 32) >> 31))
  else MakeInt128 ((hi >> 32) >> 31) (wrapu 64 (hi >> (amount - 64))).

Definition UnsignedAbsoluteValue (v : int128) : uint128 :=
  if Int128High64 v <? 0 then U.opp (U.of_int128 v) else U.of_int128 v.

Definition div (lhs rhs : int128) : int128 :=
  let '(quotient, _) := DivModImpl (UnsignedAbsoluteValue lhs) (UnsignedAbsoluteValue rhs) in
  let quotient := if xorb (Int128High64 lhs <? 0) (Int128High64 rhs <? 0)
                  then U.opp quotient else quotient in
  MakeInt128 (BitCastToSigned (Uint128High64 quotient)) (Uint128Low64 quotient).

Definition mod_ (lhs rhs : int128) : int128 :=
  let '(_, remainder) := DivModImpl (UnsignedAbsoluteValue lhs) (UnsignedAbsoluteValue rhs) in
  let remainder := if Int128High64 lhs <? 0 then U.opp remainder else remainder in
  MakeInt128 (BitCastToSigned (Uint128High64 remainder)) (Uint128Low64 remainder).

Definition Int128Max : int128 := MakeInt128 (2 ^ 63 - 1) uint64_max.
Definition Int128Min : int128 := MakeInt128 (- 2 ^ 63) 0.

End I.

(** ** Correctness of the int128 operations *)
Lemma BitCastToSigned_wraps v : in_u 64 v -> BitCastToSigned v = wraps 64 v.
Proof.
  unfold in_u. intros Hv. unfold BitCastToSigned. change (1 <<[64] 63) with (2 ^ 63).
  assert (E : v .& 2 ^ 63 = 2 ^ 63 * (v / 2 ^ 63 .& 1)).
  { pose proof (land_shiftr_lohi 63 0 (v mod 2 ^ 63) (v / 2 ^ 63) 0 1
      ltac:(lia) ltac:(unfold in_u; zlia) ltac:(unfold in_u; lia)) as E.
    rewrite !Z.shiftr_0_r, Z.land_0_r, Z.add_0_l in E.
    replace (v mod 2 ^ 63 + 2 ^ 63 * (v / 2 ^ 63)) with v in E by zlia.
    exact E. }
  rewrite E. assert (C : v / 2 ^ 63 = 0 \/ v / 2 ^ 63 = 1) by zlia.
  destruct C as [C | C]; rewrite C; [reflexivity|].
  change (negb (2 ^ 63 * (1 .& 1) =? 0)) with true. cbv iota.
  rewrite !lnot_opp. unfold wraps, wrapu. change (64 - 1) with 63. zlia.
Qed.

(** Reading the bits of a uint128 as a two's complement int128. *)
Lemma of_bits_val u :
  uint128_ok u ->
  let v := MakeInt128 (BitCastToSigned (Uint128High64 u)) (Uint128Low64 u) in
  int128_ok v /\ ival v = wraps 128 (uval u).
Proof.
  destruct u as [h l]. intros [Hh Hl]. cbn [Uint128High64 Uint128Low64] in *.
  rewrite BitCastToSigned_wraps by assumption. cbv zeta. split.
  - split; [apply wraps_range; lia|assumption].
  - unfold ival, uval, wraps, in_u in *. cbn [Uint128High64 Uint128Low64 Int128High64 Int128Low64].
    change (64 - 1) with 63. change (128 - 1) with 127. zlia.
Qed.

Lemma wraps_wrapu w x : 0 < w -> wraps w (wrapu w x) = wraps w x.
Proof. intros. unfold wraps, wrapu. now rewrite Zplus_mod_idemp_l. Qed.

Lemma ival_range v : int128_ok v -> in_s 128 (ival v).
Proof. destruct v. unfold int128_ok, ival, in_s, in_u. cbn. lia. Qed.

Lemma I_sign v : int128_ok v -> (Int128High64 v <? 0) = (ival v <? 0).
Proof.
  destruct v. unfold int128_ok, ival, in_s, in_u. cbn [Int128High64 Int128Low64]. intros.
  apply eq_true_iff_eq. rewrite !Z.ltb_lt. lia.
Qed.

Lemma I_abs_val v :
  int128_ok v ->
  uint128_ok (I.UnsignedAbsoluteValue v) /\ uval (I.UnsignedAbsoluteValue v) = Z.abs (ival v).
Proof.
  intros Hv. pose proof (ival_range v Hv) as R. unfold I.UnsignedAbsoluteValue.
  destruct (U_of_int128_val v Hv) as [Ou Eu]. rewrite I_sign by assumption.
  unfold in_s in R. case_if; zbool.
  - destruct (U_opp_val _ Ou) as [Oo Eo]. split; [assumption|]. rewrite Eo, Eu. unfold wrapu. zlia.
  - split; [assumption|]. rewrite Eu. unfold wrapu. zlia.
Qed.

Lemma wraps_opp_wrapu w x : 0 < w -> wraps w (wrapu w (- wrapu w x)) = wraps w (- x).
Proof.
  intros. rewrite wraps_wrapu by assumption. unfold wraps, wrapu. f_equal.
  rewrite !Z.add_opp_l, Zminus_mod_idemp_r. reflexivity.
Qed.

(** Truncating division from the division of the magnitudes. *)
Lemma quot_rem_abs x y :
  y <> 0 ->
  Z.quot x y = (if xorb (x <? 0) (y <? 0) then - (Z.abs x / Z.abs y) else Z.abs x / Z.abs y) /\
  Z.rem x y = (if x <? 0 then - (Z.abs x mod Z.abs y) else Z.abs x mod Z.abs y).
Proof.
  intros Hy. pose proof (Z.quot_rem' x y) as E.
  assert (Hx : 0 <= Z.abs x) by lia. assert (Hy' : 0 < Z.abs y) by lia.
  rewrite <- Z.quot_div_nonneg, <- Z.rem_mod_nonneg by lia.
  destruct (x <? 0) eqn:S1, (y <? 0) eqn:S2; zbool; cbn [xorb];
    rewrite ?(Z.abs_neq x), ?(Z.abs_neq y), ?(Z.abs_eq x), ?(Z.abs_eq y) by lia;
    rewrite ?Z.quot_opp_l, ?Z.quot_opp_r, ?Z.rem_opp_l, ?Z.rem_opp_r by lia; lia.
Qed.

(** A magnitude, negated when the sign is set, read as an int128. *)
Lemma signed_result u (neg : bool) :
  uint128_ok u ->
  (neg = true -> uval u <= 2 ^ 127) -> (neg = false -> uval u < 2 ^ 127) ->
  let w := if neg then U.opp u else u in
  ival (MakeInt128 (BitCastToSigned (Uint128High64 w)) (Uint128Low64 w))
  = if neg then - uval u else uval u.
Proof.
  intros Hu H1 H2 w. pose proof (uval_range u Hu) as B. unfold in_u in B. subst w. destruct neg.
  - destruct (U_opp_val u Hu) as [Oo Eo]. rewrite (proj2 (of_bits_val _ Oo)), Eo, wraps_wrapu by lia.
    apply wraps_small; [lia|]. specialize (H1 eq_refl). unfold in_s. lia.
  - rewrite (proj2 (of_bits_val _ Hu)). apply wraps_small; [lia|].
    specialize (H2 eq_refl). unfold in_s. lia.
Qed.

(** ** Printing *)

(** The [std::ios_base] state the stream operators read. *)
Inductive basefield := hex | oct | dec.
Inductive adjustfield := left_adj | internal_adj | right_adj.

Record fmtflags := {
  fl_base : basefield;
  fl_showbase : bool;
  fl_uppercase : bool;
  fl_showpos : bool;
  fl_adjust : adjustfield;
  fl_width : Z;
  fl_fill : Z
}.

Definition base_of (f : fmtflags) : Z :=
  match fl_base f with hex => 16 | oct => 8 | dec => 10 end.

Definition digit_char (uppercase : bool) (d : Z) : Z :=
  if d <? 10 then chr "0" + d else (if uppercase then chr "A" else chr "a") + (d - 10).

(** [os << v] for a [uint64_t]: digits in the base, the base prefix under [showbase] when [v] is
    not zero, left-padded with the fill character to the field width. *)
Definition base_prefix (f : fmtflags) (v : Z) : list Z :=
  if v =? 0 then []
  else match fl_base f with
       | hex => if fl_uppercase f then str "0X" else str "0x"
       | oct => str "0"
       | dec => []
       end.

Definition put_u64 (f : fmtflags) (showbase : bool) (width : nat) (v : Z) : list Z :=
  let rep := (if showbase then base_prefix f v else [])
               ++ map (digit_char (fl_uppercase f)) (digits (base_of f) v) in
  repeat (chr "0") (width - length rep) ++ rep.

Definition div_base_log (f : fmtflags) : nat :=
  match fl_base f with hex => 15 | oct => 21 | dec => 19 end.

Definition format_div (f : fmtflags) : uint128 :=
  match fl_base f with
  | hex => U.of_unsigned 0x1000000000000000
  | oct => U.of_unsigned (8 ^ 21)
  | dec => U.of_unsigned 10000000000000000000
  end.

(** Three chunks, each below [div]; the first one printed carries the base prefix. *)
Definition Uint128ToFormattedString (v : uint128) (flags : fmtflags) : list Z :=
  let div := format_div flags in
  let n := div_base_log flags in
  let '(high, low) := DivModImpl v div in
  let '(high, mid) := DivModImpl high div in
  let put := put_u64 flags in
  if negb (Uint128Low64 high =? 0) then
    put (fl_showbase flags) O (Uint128Low64 high)
      ++ put false n (Uint128Low64 mid) ++ put false n (Uint128Low64 low)
  else if negb (Uint128Low64 mid =? 0) then
    put (fl_showbase flags) O (Uint128Low64 mid) ++ put false n (Uint128Low64 low)
  else put (fl_showbase flags) O (Uint128Low64 low).

Definition dec_flags : fmtflags :=
  {| fl_base := dec; fl_showbase := false; fl_uppercase := false; fl_showpos := false;
     fl_adjust := right_adj; fl_width := 0; fl_fill := 32 |}.

Definition uint128_ToString (v : uint128) : list Z := Uint128ToFormattedString v dec_flags.

(** [rep.insert(pos, count, fill)]. *)
Definition insert_fill (rep : list Z) (pos count : nat) (fill : Z) : list Z :=
  firstn pos rep ++ repeat fill count ++ skipn pos rep.

Definition put_uint128 (flags : fmtflags) (v : uint128) : list Z :=
  let rep := Uint128ToFormattedString v flags in
  if Z.of_nat (length rep) <? fl_width flags then
    let count := (Z.to_nat (fl_width flags) - length rep)%nat in
    match fl_adjust flags with
    | left_adj => rep ++ repeat (fl_fill flags) count
    | internal_adj =>
        match fl_base flags with
        | hex => if fl_showbase flags && U.neqb v (U.of_signed 0)
                 then insert_fill rep 2 count (fl_fill flags)
                 else insert_fill rep 0 count (fl_fill flags)
        | _ => insert_fill rep 0 count (fl_fill flags)
        end
    | right_adj => insert_fill rep 0 count (fl_fill flags)
    end
  else rep.

Definition int128_ToString (v : int128) : list Z :=
  (if Int128High64 v <? 0 then str "-" else [])
    ++ Uint128ToFormattedString (I.UnsignedAbsoluteValue v) dec_flags.

Definition put_int128 (flags : fmtflags) (v : int128) : list Z :=
  let print_as_decimal := match fl_base flags with dec => true | _ => false end in
  let sign := if print_as_decimal
              then (if Int128High64 v <? 0 then str "-"
                    else if fl_showpos flags then str "+" else [])
              else [] in
  let rep := sign ++ Uint128ToFormattedString
    (if print_as_decimal then I.UnsignedAbsoluteValue v else U.of_int128 v) flags in
  if Z.of_nat (length rep) <? fl_width flags then
    let count := (Z.to_nat (fl_width flags) - length rep)%nat in
    match fl_adjust flags with
    | left_adj => rep ++ repeat (fl_fill flags) count
    | internal_adj =>
        let c0 := nth 0 rep 0 in
        if print_as_decimal && ((c0 =? chr "+") || (c0 =? chr "-"))
        then insert_fill rep 1 count (fl_fill flags)
        else if (match fl_base flags with hex => true | _ => false end)
                  && fl_showbase flags && I.neqb v (I.of_signed 0)
        then insert_fill rep 2 count (fl_fill flags)
        else insert_fill rep 0 count (fl_fill flags)
    | right_adj => insert_fill rep 0 count (fl_fill flags)
    end
  else rep.

Lemma base_of_ge2 f : 2 <= base_of f.
Proof. unfold base_of. destruct (fl_base f); lia. Qed.

Lemma format_div_val f :
  uint128_ok (format_div f) /\ uval (format_div f) = base_of f ^ Z.of_nat (div_base_log f).
Proof.
  unfold format_div, base_of, div_base_log.
  destruct (fl_base f); split;
    first [reflexivity | (split; [unfold in_u; cbn; lia|apply (wrapu_range 64 (8 ^ 21)); lia])
          | (split; unfold in_u; cbn; lia)].
Qed.

Lemma format_div_big f : 2 ^ 128 <= base_of f ^ Z.of_nat (div_base_log f) * base_of f ^ Z.of_nat (div_base_log f) * 2 ^ 64.
Proof. unfold base_of, div_base_log. destruct (fl_base f); vm_compute; discriminate. Qed.

Lemma format_div_small f : 0 < base_of f ^ Z.of_nat (div_base_log f) < 2 ^ 64.
Proof. unfold base_of, div_base_log. destruct (fl_base f); vm_compute; auto. Qed.

(** An unpadded chunk, and a chunk padded to the full number of digits. *)
Lemma put_u64_padded f n v :
  (0 < n)%nat -> 0 <= v < base_of f ^ Z.of_nat n ->
  put_u64 f false n v = map (digit_char (fl_uppercase f)) (padded (base_of f) n v).
Proof.
  intros Hn Hv. unfold put_u64. cbn [app].
  destruct (padded_digits (base_of f) (base_of_ge2 f) n v Hv Hn) as [E L].
  rewrite E, map_app, length_map. f_equal. rewrite map_repeat. reflexivity.
Qed.

Lemma put_u64_first f b v :
  put_u64 f b 0 v = (if b then base_prefix f v else [])
                      ++ map (digit_char (fl_uppercase f)) (digits (base_of f) v).
Proof. reflexivity. Qed.

Lemma low64_small u : uint128_ok u -> uval u < 2 ^ 64 -> Uint128Low64 u = uval u.
Proof. destruct u. unfold uint128_ok, uval, in_u. cbn. lia. Qed.

Lemma base_prefix_nonzero f u v : (u = 0 <-> v = 0) -> base_prefix f u = base_prefix f v.
Proof.
  intros H. unfold base_prefix. destruct (u =? 0) eqn:E1, (v =? 0) eqn:E2; zbool; auto; lia.
Qed.

Lemma format_correct v f :
  uint128_ok v ->
  Uint128ToFormattedString v f =
  (if fl_showbase f then base_prefix f (uval v) else [])
    ++ map (digit_char (fl_uppercase f)) (digits (base_of f) (uval v)).
Proof.
  intros Hv. unfold Uint128ToFormattedString.
  destruct (format_div_val f) as [Od Ed]. pose proof (format_div_small f) as Sd.
  pose proof (format_div_big f) as Bd. pose proof (uval_range v Hv) as Rv. unfold in_u in Rv.
  set (D := base_of f ^ Z.of_nat (div_base_log f)) in *.
  destruct (U_divmod_val v (format_div f) Hv Od ltac:(lia)) as (O1 & O2 & E1 & E2).
  destruct (DivModImpl v (format_div f)) as [high low]. cbn [fst snd] in *.
  destruct (U_divmod_val high (format_div f) O1 Od ltac:(lia)) as (O3 & O4 & E3 & E4).
  destruct (DivModImpl high (format_div f)) as [high' mid]. cbn [fst snd] in *.
  rewrite Ed in *.
  pose proof (Z.mod_pos_bound (uval v) D ltac:(lia)) as B2. rewrite <- E2 in B2.
  pose proof (Z.mod_pos_bound (uval high) D ltac:(lia)) as B4. rewrite <- E4 in B4.
  pose proof (Z.div_mod (uval v) D ltac:(lia)) as R1. rewrite <- E1, <- E2 in R1.
  pose proof (Z.div_mod (uval high) D ltac:(lia)) as R3. rewrite <- E3, <- E4 in R3.
  pose proof (uval_range _ O3) as P3. unfold in_u in P3.
  assert (Hh : uval high' < 2 ^ 64).
  { assert (uval high' * (D * D) <= uval v) by nia.
    destruct (Z.lt_ge_cases (uval high') (2 ^ 64)); [assumption|nia]. }
  rewrite !(low64_small low), !(low64_small mid), !(low64_small high') by (auto; lia).
  assert (Hn : (0 < div_base_log f)%nat) by (unfold div_base_log; destruct (fl_base f); lia).
  rewrite !put_u64_padded by (auto; fold D; lia). rewrite !put_u64_first.
  destruct (uval high' =? 0) eqn:Z3; zbool; [destruct (uval mid =? 0) eqn:Z4; zbool|]; cbn [negb].
  - replace (uval v) with (uval low) by lia. reflexivity.
  - rewrite (base_prefix_nonzero f (uval mid) (uval v)) by nia.
    replace (uval v) with (uval mid * D + uval low) at 3 by lia. unfold D in *.
    rewrite digits_chunk by (first [apply base_of_ge2 | lia]). now rewrite map_app, app_assoc.
  - rewrite (base_prefix_nonzero f (uval high') (uval v)) by nia.
    replace (uval v) with ((uval high' * D + uval mid) * D + uval low) at 3 by lia. unfold D in *.
    rewrite !digits_chunk by (first [apply base_of_ge2 | lia | nia]).
    now rewrite !map_app, !app_assoc.
Qed.

(** The decimal value of a string of the form [-]digits. *)
Definition parse_dec (s : list Z) : Z :=
  match s with
  | c :: s' => if c =? chr "-" then - digits_val 10 (map (fun c => c - chr "0") s')
               else digits_val 10 (map (fun c => c - chr "0") s)
  | [] => 0
  end.

Lemma dec_chars ds :
  Forall (is_digit 10) ds -> map (fun c => c - chr "0") (map (digit_char false) ds) = ds.
Proof.
  induction 1 as [|d ds Hd _ IH]; [reflexivity|]. cbn [map]. rewrite IH. f_equal.
  unfold is_digit in Hd. unfold digit_char.
  replace (d <? 10) with true by (symmetry; apply Z.ltb_lt; lia).
  generalize (chr "0"). intros. lia.
Qed.

Lemma dec_string x :
  0 <= x -> exists c s, map (digit_char false) (digits 10 x) = c :: s /\ chr "0" <= c <= chr "9".
Proof.
  intros Hx. pose proof (digits_digit 10 ltac:(lia) x Hx) as F.
  destruct (digits_canonical 10 ltac:(lia) x Hx) as [_ C].
  destruct (digits 10 x) as [|d ds]; [contradiction|].
  apply Forall_cons_iff in F as [Hd _]. unfold is_digit in Hd.
  exists (digit_char false d), (map (digit_char false) ds). split; [reflexivity|].
  unfold digit_char. replace (d <? 10) with true by (symmetry; apply Z.ltb_lt; lia).
  change (chr "0") with 48. change (chr "9") with 57. lia.
Qed.

Lemma checked_none w x : ~ in_s w x -> checked w x = None.
Proof.
  intros H. destruct (checked w x) as [y|] eqn:E; [|reflexivity].
  apply checked_some in E. tauto.
Qed.

(** ** Two's complement bits *)
Lemma in_s_shiftr w x : 0 < w -> in_s w x <-> Z.shiftr x (w - 1) = 0 \/ Z.shiftr x (w - 1) = -1.
Proof.
  intros Hw. unfold in_s. rewrite Z.shiftr_div_pow2 by lia. pose proof (pow2_pos (w - 1) ltac:(lia)).
  set (p := 2 ^ (w - 1)) in *. pose proof (Z.div_mod x p ltac:(lia)). pose proof (Z.mod_pos_bound x p ltac:(lia)).
  split; intros; nia.
Qed.

Lemma in_s_lor w x y : 0 < w -> in_s w x -> in_s w y -> in_s w (Z.lor x y).
Proof.
  intros Hw. rewrite !in_s_shiftr, Z.shiftr_lor by lia.
  intros [-> | ->] [-> | ->]; cbn; lia.
Qed.

Lemma in_s_shr w x n : 0 < w -> 0 <= n -> in_s w x -> in_s w (Z.shiftr x n).
Proof.
  intros Hw Hn. rewrite !in_s_shiftr, Z.shiftr_shiftr by lia.
  replace (n + (w - 1)) with (w - 1 + n) by lia. rewrite <- Z.shiftr_shiftr by lia.
  intros [-> | ->]; [rewrite Z.shiftr_0_l; auto|].
  right. apply Z.bits_inj'. intros i Hi. rewrite Z.shiftr_spec, !Z.bits_m1 by lia. reflexivity.
Qed.

Lemma in_s_wrapu w x : 0 < w -> in_s w x -> wraps w (wrapu w x) = x.
Proof. intros. rewrite wraps_wrapu by lia. now apply wraps_small. Qed.

Lemma testbit_ext_s w x y :
  0 < w -> in_s w x -> in_s w y ->
  (forall i, 0 <= i < w -> Z.testbit x i = Z.testbit y i) -> x = y.
Proof.
  intros Hw Hx Hy H. rewrite <- (in_s_wrapu w x), <- (in_s_wrapu w y) by assumption. f_equal.
  apply Z.bits_inj'. intros i Hi. rewrite !wrapu_testbit by lia.
  destruct (i <? w) eqn:E; zbool; [|reflexivity]. cbn. apply H. lia.
Qed.

Lemma wraps_testbit_low w x i : 0 < w -> 0 <= i < w -> Z.testbit (wraps w x) i = Z.testbit x i.
Proof.
  intros Hw Hi.
  assert (E : wrapu w (wraps w x) = wrapu w x).
  { unfold wraps, wrapu. rewrite Zminus_mod_idemp_l. f_equal. lia. }
  apply (f_equal (fun z => Z.testbit z i)) in E. rewrite !wrapu_testbit in E by lia.
  now replace (i <? w) with true in E by (symmetry; apply Z.ltb_lt; lia).
Qed.

Lemma ival_testbit v i :
  int128_ok v -> Z.testbit (ival v) i =
  if i <? 64 then Z.testbit (Int128Low64 v) i else Z.testbit (Int128High64 v) (i - 64).
Proof.
  intros [_ Hl]. unfold ival. rewrite Z.mul_comm, Z.add_comm. apply testbit_lohi; [lia|assumption].
Qed.

(** Sign extension: every bit from 63 up of a 64-bit two's complement value is the sign bit. *)
Lemma testbit_sign w x i j :
  0 < w -> in_s w x -> w - 1 <= i -> w - 1 <= j -> Z.testbit x i = Z.testbit x j.
Proof.
  intros Hw Hx Hi Hj.
  assert (forall k, w - 1 <= k -> Z.testbit x k = Z.testbit (Z.shiftr x (w - 1)) (k - (w - 1)))
    as H by (intros; rewrite Z.shiftr_spec by lia; f_equal; lia).
  rewrite !H by lia. apply in_s_shiftr in Hx; [|lia].
  destruct Hx as [-> | ->]; [now rewrite !Z.bits_0|]. now rewrite !Z.bits_m1 by lia.
Qed.

Lemma I_shr_val v n :
  int128_ok v -> 0 <= n -> int128_ok (I.shr v n) /\ ival (I.shr v n) = ival v >> n.
Proof.
  intros Hv Hn. assert (Hv' := Hv). destruct Hv' as [Hh Hl].
  assert (Hs : (Int128High64 v >> 32) >> 31 = Int128High64 v >> 63)
    by (rewrite Z.shiftr_shiftr by lia; reflexivity).
  assert (Hi63 : in_s 64 (Int128High64 v >> 63)) by (apply in_s_shr; auto; lia).
  assert (Hok : int128_ok (I.shr v n)).
  { unfold I.shr. rewrite Hs. repeat case_if; zbool; try assumption; split;
      cbn [Int128High64 Int128Low64]; auto using wrapu_range;
      try (apply in_s_shr; auto; lia); try (apply wrapu_range; lia).
    - apply in_u_lor; [lia|apply in_u_shiftr; auto; lia|apply wrapu_range; lia].
    - apply in_u_lor; [lia|apply wrapu_range; lia|repeat apply in_u_shiftr; auto; lia]. }
  split; [exact Hok|].
  apply (testbit_ext_s 128); [lia|now apply ival_range|apply in_s_shr; [lia|lia|now apply ival_range]|].
  intros i Hi. rewrite Z.shiftr_spec, !ival_testbit by (auto; lia).
  unfold I.shr. rewrite Hs.
  repeat case_if; zbool; cbn [Int128High64 Int128Low64];
    rewrite ?Z.lor_spec, ?wrapu_testbit, ?Z.shiftl_spec, ?Z.shiftr_spec by lia;
    try (f_equal; lia); try lia; decide_cmp; cbn [andb].
  - rewrite (Z.testbit_neg_r _ (i - (64 - n))) by lia. apply orb_false_r.
  - rewrite (testbit_above 64 (Int128Low64 v)), wrapu_testbit by (auto; lia).
    decide_cmp. cbn [andb orb]. f_equal. lia.
  - rewrite wraps_testbit_low, Z.shiftl_spec, (Z.testbit_neg_r _ (i - 1)) by lia. cbn [orb]. f_equal. lia.
  - rewrite wraps_testbit_low, Z.shiftl_spec, (testbit_above 64 (Int128Low64 v)) by (auto; lia).
    rewrite orb_false_r. f_equal. lia.
  - apply (testbit_sign 64); auto; lia.
  - f_equal. lia.
  - apply (testbit_sign 64); auto; lia.
  - apply (testbit_sign 64); auto; lia.
Qed.

Lemma I_shl_val v n :
  int128_ok v -> 0 <= n -> int128_ok (I.shl v n) /\ ival (I.shl v n) = wraps 128 (Z.shiftl (ival v) n).
Proof.
  intros Hv Hn. assert (Hv' := Hv). destruct Hv' as [Hh Hl].
  assert (Hok : int128_ok (I.shl v n)).
  { unfold I.shl. repeat case_if; zbool; try assumption; split;
      cbn [Int128High64 Int128Low64]; try (apply wrapu_range; lia); try (apply wraps_range; lia);
      try (apply in_s_lor; [lia|apply wraps_range; lia|apply wraps_range; lia]);
      unfold in_s, in_u; lia. }
  split; [exact Hok|].
  apply (testbit_ext_s 128); [lia|now apply ival_range|apply wraps_range; lia|].
  intros i Hi. rewrite wraps_testbit_low, Z.shiftl_spec, !ival_testbit by (auto; lia).
  unfold I.shl.
  repeat case_if; zbool; cbn [Int128High64 Int128Low64];
    rewrite ?Z.bits_0, ?Z.lor_spec, ?wrapu_testbit, ?wraps_testbit_low, ?wrapu_testbit,
      ?Z.shiftl_spec, ?Z.shiftr_spec by lia;
    try (f_equal; lia); try lia; decide_cmp; cbn [andb];
    try (rewrite Z.testbit_neg_r by lia; reflexivity); try (f_equal; lia).
  - destruct (Z.lt_ge_cases i 31); [now rewrite !Z.testbit_neg_r by lia|].
    rewrite wrapu_testbit, Z.shiftl_spec by lia. decide_cmp. cbn [andb]. f_equal. lia.
  - rewrite (Z.testbit_neg_r _ (i - 64 - n)) by lia. cbn [orb]. f_equal. lia.
  - rewrite (testbit_above 64 (Int128Low64 v)) by (auto; lia). rewrite orb_false_r. f_equal. lia.
  - replace (Z.testbit (wraps 64 _) _) with false; [cbn [orb]; f_equal; lia|].
    symmetry. destruct (Z.lt_ge_cases i 95); [now rewrite Z.testbit_neg_r by lia|].
    now rewrite wraps_testbit_low, Z.shiftl_spec, Z.testbit_neg_r by lia.
  - rewrite (testbit_above 64 (Int128Low64 v)), wraps_testbit_low, Z.shiftl_spec by (auto; lia).
    rewrite orb_false_r. f_equal. lia.
Qed.

(** ** Theorems *)

(** Uint128 addition, subtraction, multiplication and negation on the two 64-bit halves are
    arithmetic modulo 2^128, carries and partial products included. *)
Lemma uint128_arith_correct a b :
  uint128_ok a -> uint128_ok b ->
  (uint128_ok (U.add a b) /\ uval (U.add a b) = (uval a + uval b) mod 2 ^ 128) /\
  (uint128_ok (U.sub a b) /\ uval (U.sub a b) = (uval a - uval b) mod 2 ^ 128) /\
  (uint128_ok (U.mul a b) /\ uval (U.mul a b) = (uval a * uval b) mod 2 ^ 128) /\
  (uint128_ok (U.opp a) /\ uval (U.opp a) = (- uval a) mod 2 ^ 128).
Proof.
  intros Ha Hb.
  exact (conj (U_add_val a b Ha Hb) (conj (U_sub_val a b Ha Hb)
          (conj (U_mul_val a b Ha Hb) (U_opp_val a Ha)))).
Qed.

(** Uint128 shifts by 0 to 127 are the shifts of the 128-bit value, whichever half the bits
    cross, the bitwise operators act on its bits, and the comparison operators order it. *)
Lemma uint128_bits_correct a b n :
  uint128_ok a -> uint128_ok b -> 0 <= n < 128 ->
  (uint128_ok (U.shl a n) /\ uval (U.shl a n) = Z.shiftl (uval a) n mod 2 ^ 128) /\
  (uint128_ok (U.shr a n) /\ uval (U.shr a n) = Z.shiftr (uval a) n) /\
  uval (U.lor a b) = Z.lor (uval a) (uval b) /\
  uval (U.land a b) = Z.land (uval a) (uval b) /\
  uval (U.lxor a b) = Z.lxor (uval a) (uval b) /\
  uval (U.lnot a) = Z.lnot (uval a) mod 2 ^ 128 /\
  U.eqb a b = (uval a =? uval b) /\ U.ltb a b = (uval a <? uval b) /\
  U.compare a b = (uval a ?= uval b).
Proof.
  intros Ha Hb Hn. split; [now apply U_shl_val|]. split; [now apply U_shr_val|].
  repeat split; first [now apply U_lor_val | now apply U_land_val | now apply U_lxor_val
    | now apply U_lnot_val | now apply U_eqb_val | now apply U_ltb_val | now apply U_compare_val].
Qed.

(** C5: the shift-subtract division of uint128 returns quotient and remainder of the values for
    every dividend and every divisor other than zero. *)
Theorem uint128_divmod_correct a b :
  uint128_ok a -> uint128_ok b -> uval b <> 0 ->
  uint128_ok (U_div a b) /\ uint128_ok (U_mod a b) /\
  uval (U_div a b) = uval a / uval b /\ uval (U_mod a b) = uval a mod uval b.
Proof. intros. now apply U_divmod_val. Qed.

Lemma uint128_divmod_correct_witness :
  let a := MakeUint128 7 11 in let b := MakeUint128 0 1000 in
  uval (U_div a b) = (7 * 2 ^ 64 + 11) / 1000.
Proof.
  intros a b. apply (uint128_divmod_correct a b); [split; unfold in_u; cbn; lia..|discriminate].
Defined.

(** Int128 multiplication is two's complement multiplication, and division and remainder
    truncate toward zero, for all operands except division by zero and Int128Min / -1. *)
Lemma int128_muldiv_correct a b :
  int128_ok a -> int128_ok b ->
  ival (I.mul a b) = wraps 128 (ival a * ival b) /\
  (ival b <> 0 -> (ival a <> - 2 ^ 127 \/ ival b <> -1) ->
   ival (I.div a b) = Z.quot (ival a) (ival b) /\
   ival (I.mod_ a b) = Z.rem (ival a) (ival b)).
Proof.
  intros Ha Hb. pose proof (ival_range a Ha) as Ra. pose proof (ival_range b Hb) as Rb.
  destruct (U_of_int128_val a Ha) as [Oa Ea]. destruct (U_of_int128_val b Hb) as [Ob Eb].
  split.
  - unfold I.mul. destruct (U_mul_val _ _ Oa Ob) as [Om Em].
    rewrite (proj2 (of_bits_val _ Om)), Em, Ea, Eb, wraps_wrapu by lia.
    unfold wraps, wrapu. f_equal.
    rewrite <- Zplus_mod_idemp_l, <- Zmult_mod, Zplus_mod_idemp_l. reflexivity.
  - intros Hnz Hmin. unfold in_s in *. unfold I.div, I.mod_. rewrite !I_sign by assumption.
    destruct (I_abs_val a Ha) as [Aa Va]. destruct (I_abs_val b Hb) as [Ab Vb].
    destruct (U_divmod_val _ _ Aa Ab ltac:(lia)) as (Oq & Or & Eq & Er).
    destruct (DivModImpl _ _) as [q r]. cbn [fst snd] in *. rewrite Va, Vb in *.
    assert (Hq : uval q * Z.abs (ival b) <= Z.abs (ival a))
      by (rewrite Eq, Z.mul_comm; apply Z.mul_div_le; lia).
    assert (Hr : 0 <= uval r < Z.abs (ival b)) by (rewrite Er; apply Z.mod_pos_bound; lia).
    pose proof (uval_range q Oq) as Bq. unfold in_u in *.
    destruct (quot_rem_abs (ival a) (ival b) Hnz) as [-> ->]. rewrite <- Eq, <- Er.
    split; apply signed_result; auto; intros S.
    + nia.
    + destruct (Z.eq_dec (Z.abs (ival b)) 1); [|nia].
      destruct (ival a <? 0) eqn:S1, (ival b <? 0) eqn:S2; zbool; try discriminate S; nia.
    + lia.
    + lia.
Qed.

(** Int128 shifts: left shift keeps the low 128 bits in two's complement, right shift is
    arithmetic, for every non-negative amount (63, 64 and 127 take branches of their own). *)
Lemma int128_shift_correct v n :
  int128_ok v -> 0 <= n ->
  (int128_ok (I.shl v n) /\ ival (I.shl v n) = wraps 128 (Z.shiftl (ival v) n)) /\
  (int128_ok (I.shr v n) /\ ival (I.shr v n) = Z.shiftr (ival v) n).
Proof. intros Hv Hn. split; [now apply I_shl_val|now apply I_shr_val]. Qed.

Lemma add_spurious_overflow :
  exists a b, int128_ok a /\ int128_ok b /\ in_s 128 (ival a + ival b) /\ I.add a b = None.
Proof.
  exists (MakeInt128 (- 2 ^ 63) (2 ^ 64 - 1)), (MakeInt128 (-1) (2 ^ 64 - 1)).
  split; [split; unfold in_s, in_u; cbn; lia|].
  split; [split; unfold in_s, in_u; cbn; lia|].
  split; [unfold in_s, ival; cbn; lia|reflexivity].
Qed.

Lemma sub_spurious_overflow :
  exists a b, int128_ok a /\ int128_ok b /\ in_s 128 (ival a - ival b) /\ I.sub a b = None.
Proof.
  exists (MakeInt128 (2 ^ 63 - 1) 0), (MakeInt128 (-1) 1).
  split; [split; unfold in_s, in_u; cbn; lia|].
  split; [split; unfold in_s, in_u; cbn; lia|].
  split; [unfold in_s, ival; cbn; lia|reflexivity].
Qed.

(** C37: int128 addition (subtraction) is defined exactly when both the sum (difference) of the high
    halves and the 128-bit result fit, and then returns the exact result; negation is undefined
    exactly on Int128Min.  Both are undefined on some operands whose 128-bit result is
    representable: the carry or borrow of the low halves would have brought the high half back. *)
Theorem int128_addsub_defined a b :
  int128_ok a -> int128_ok b ->
  match I.add a b with
  | Some r => in_s 64 (Int128High64 a + Int128High64 b) /\ in_s 128 (ival a + ival b) /\
              int128_ok r /\ ival r = ival a + ival b
  | None => ~ in_s 64 (Int128High64 a + Int128High64 b) \/ ~ in_s 128 (ival a + ival b)
  end /\
  match I.sub a b with
  | Some r => in_s 64 (Int128High64 a - Int128High64 b) /\ in_s 128 (ival a - ival b) /\
              int128_ok r /\ ival r = ival a - ival b
  | None => ~ in_s 64 (Int128High64 a - Int128High64 b) \/ ~ in_s 128 (ival a - ival b)
  end /\
  match I.opp a with
  | Some r => a <> I.Int128Min /\ int128_ok r /\ ival r = - ival a
  | None => a = I.Int128Min
  end /\
  (exists x y, int128_ok x /\ int128_ok y /\ in_s 128 (ival x + ival y) /\ I.add x y = None) /\
  (exists x y, int128_ok x /\ int128_ok y /\ in_s 128 (ival x - ival y) /\ I.sub x y = None).
Proof.
  destruct a as [ah al], b as [bh bl]. intros [Hah Hal] [Hbh Hbl].
  cbn [Int128High64 Int128Low64] in *.
  unfold I.add, I.sub, I.opp, I.SignedAddResult, I.SignedSubstructResult, checked, in_sb.
  unfold in_u, in_s in Hah, Hal, Hbh, Hbl. change (64 - 1) with 63 in *.
  rewrite !wrapu_add_l, !lnot_opp. split; [|split; [|split; [|split; [exact add_spurious_overflow|exact sub_spurious_overflow]]]].
  - repeat (case_if; cbn [obind Int128High64 Int128Low64 ival]; zbool);
      unfold int128_ok, ival, in_s, in_u, wrapu in *; cbn [Int128High64 Int128Low64] in *;
      change (64 - 1) with 63 in *; change (128 - 1) with 127 in *; zlia.
  - repeat (case_if; cbn [obind Int128High64 Int128Low64 ival]; zbool);
      unfold int128_ok, ival, in_s, in_u, wrapu in *; cbn [Int128High64 Int128Low64] in *;
      change (64 - 1) with 63 in *; change (128 - 1) with 127 in *; zlia.
  - cbn [Int128High64 Int128Low64]. destruct (al =? 0) eqn:Ez; zbool; cbn [Z.b2z]; case_if; cbn [obind]; zbool;
      unfold int128_ok, ival, in_s, in_u, wrapu, I.Int128Min in *; cbn [Int128High64 Int128Low64] in *;
      change (64 - 1) with 63 in *; try (split; [intros [= -> ->]; lia|]); try zlia. f_equal; lia.
Qed.

Lemma int128_addsub_defined_witness :
  match I.add (I.of_signed (-7)) (I.of_signed 9) with
  | Some r => in_s 64 (-1) /\ in_s 128 2 /\ int128_ok r /\ ival r = 2
  | None => False
  end.
Proof.
  destruct (int128_addsub_defined (I.of_signed (-7)) (I.of_signed 9)) as [H _];
    [split; unfold in_s, in_u; cbn; lia..|]. exact H.
Defined.

(** The chunked formatter prints the base prefix (under showbase, for a non-zero value)
    followed by the canonical digits of the 128-bit value, in base 8, 10 and 16, with no digit
    lost or duplicated at the chunk boundaries. *)
Lemma Uint128ToFormattedString_correct v f :
  uint128_ok v ->
  Uint128ToFormattedString v f =
  (if fl_showbase f then base_prefix f (uval v) else [])
    ++ map (digit_char (fl_uppercase f)) (digits (base_of f) (uval v)).
Proof. apply format_correct. Qed.

(** The decimal string of an int128 reads back as its value, Int128Min included. *)
Lemma int128_ToString_roundtrip v : int128_ok v -> parse_dec (int128_ToString v) = ival v.
Proof.
  intros Hv. destruct (I_abs_val v Hv) as [Oa Ea]. unfold int128_ToString.
  rewrite format_correct by assumption. cbn [fl_showbase dec_flags app fl_uppercase base_of fl_base].
  rewrite I_sign by assumption. rewrite Ea.
  destruct (dec_string (Z.abs (ival v)) ltac:(lia)) as (c & s & Es & Hc).
  pose proof (dec_chars _ (digits_digit 10 ltac:(lia) (Z.abs (ival v)) ltac:(lia))) as D.
  destruct (ival v <? 0) eqn:S; zbool.
  - cbn [str app parse_dec]. rewrite Z.eqb_refl, D, digits_val_digits by lia. lia.
  - cbn [app]. rewrite Es in *. cbn [parse_dec].
    replace (c =? chr "-") with false
      by (symmetry; apply Z.eqb_neq; change (chr "-") with 45; change (chr "0") with 48 in Hc; lia).
    rewrite D, digits_val_digits by lia. lia.
Qed.

(** The operators of uint128 on the two 64-bit halves: addition, subtraction, multiplication and negation
    are arithmetic modulo [2^128], carries and partial products included; shifts by 0 to 127 are the shifts of
    the 128-bit value, whichever half the bits cross; the bitwise operators act on its bits and the comparison
    operators order it. *)
Lemma uint128_operators_correct a b n :
  uint128_ok a -> uint128_ok b -> 0 <= n < 128 ->
  ((uint128_ok (U.add a b) /\ uval (U.add a b) = (uval a + uval b) mod 2 ^ 128) /\
  (uint128_ok (U.sub a b) /\ uval (U.sub a b) = (uval a - uval b) mod 2 ^ 128) /\
  (uint128_ok (U.mul a b) /\ uval (U.mul a b) = (uval a * uval b) mod 2 ^ 128) /\
  (uint128_ok (U.opp a) /\ uval (U.opp a) = (- uval a) mod 2 ^ 128)) /\
  (uint128_ok (U.shl a n) /\ uval (U.shl a n) = Z.shiftl (uval a) n mod 2 ^ 128) /\
  (uint128_ok (U.shr a n) /\ uval (U.shr a n) = Z.shiftr (uval a) n) /\
  uval (U.lor a b) = Z.lor (uval a) (uval b) /\
  uval (U.land a b) = Z.land (uval a) (uval b) /\
  uval (U.lxor a b) = Z.lxor (uval a) (uval b) /\
  uval (U.lnot a) = Z.lnot (uval a) mod 2 ^ 128 /\
  U.eqb a b = (uval a =? uval b) /\ U.ltb a b = (uval a <? uval b) /\
  U.compare a b = (uval a ?= uval b).
Proof. intros. split; [now apply uint128_arith_correct|now apply uint128_bits_correct]. Qed.

Lemma uint128_operators_correct_witness :
  let a := MakeUint128 (2 ^ 64 - 1) (2 ^ 64 - 1) in uval (U.mul a a) = 1 /\ uval (U.shr a 69) = 2 ^ 59 - 1.
Proof.
  intros a. assert (Ha : uint128_ok a) by (split; unfold in_u; cbn; lia).
  destruct (uint128_operators_correct a a 69 Ha Ha ltac:(lia)) as ((_ & _ & (_ & M) & _) & _ & (_ & S) & _).
  rewrite M, S. split; reflexivity.
Defined.

(** The operators of int128: multiplication is two's complement multiplication, division and remainder
    truncate toward zero for all operands except division by zero and Int128Min / -1, a left shift keeps the
    low 128 bits in two's complement and a right shift is arithmetic, for every non-negative amount (63, 64
    and 127 take branches of their own). *)
Lemma int128_operators_correct a b n :
  int128_ok a -> int128_ok b -> 0 <= n ->
  (ival (I.mul a b) = wraps 128 (ival a * ival b) /\
  (ival b <> 0 -> (ival a <> - 2 ^ 127 \/ ival b <> -1) ->
   ival (I.div a b) = Z.quot (ival a) (ival b) /\
   ival (I.mod_ a b) = Z.rem (ival a) (ival b))) /\
  (int128_ok (I.shl a n) /\ ival (I.shl a n) = wraps 128 (Z.shiftl (ival a) n)) /\
  (int128_ok (I.shr a n) /\ ival (I.shr a n) = Z.shiftr (ival a) n).
Proof. intros. split; [now apply int128_muldiv_correct|now apply int128_shift_correct]. Qed.

Lemma int128_operators_correct_witness :
  ival (I.div (I.of_signed (-7)) (I.of_signed 2)) = -3 /\ ival (I.shr (I.of_signed (-7)) 63) = -1.
Proof.
  destruct (int128_operators_correct (I.of_signed (-7)) (I.of_signed 2) 63) as ((_ & H) & _ & (_ & S));
    [split; unfold in_s, in_u; cbn; lia..|lia|].
  split; [apply H; [discriminate|right; discriminate]|rewrite S; reflexivity].
Defined.

(** The text of 128-bit integers: the chunked formatter prints the base prefix (under showbase, for a
    non-zero value) followed by the canonical digits of the 128-bit value, in base 8, 10 and 16, with no digit
    lost or duplicated at the chunk boundaries, and the decimal string of an int128 reads back as its value,
    Int128Min included. *)
Lemma int128_text_correct u f v :
  uint128_ok u -> int128_ok v ->
  Uint128ToFormattedString u f =
  (if fl_showbase f then base_prefix f (uval u) else [])
    ++ map (digit_char (fl_uppercase f)) (digits (base_of f) (uval u)) /\
  parse_dec (int128_ToString v) = ival v.
Proof. intros. split; [now apply Uint128ToFormattedString_correct|now apply int128_ToString_roundtrip]. Qed.

Lemma int128_text_correct_witness :
  uint128_ToString (MakeUint128 0 10000000000000000000) = str "10000000000000000000" /\
  parse_dec (int128_ToString I.Int128Min) = - 2 ^ 127.
Proof.
  destruct (int128_text_correct (MakeUint128 0 10000000000000000000) dec_flags I.Int128Min) as (E & R);
    [split; unfold in_u; cbn; lia|split; unfold in_s, in_u; cbn; lia|].
  split; [unfold uint128_ToString; rewrite E; vm_compute; reflexivity|rewrite R; reflexivity].
Defined.
