(* ===== verification/CivilTime.v ===== *)
(** [absl/time/internal/cctz/include/cctz/civil_time_detail.h]: civil-time fields,
    their normalization, steps, differences, alignment, ordering and weekdays.

    Years and counts are 64-bit in the source; the normalization and the steps of this file
    compute exactly, with C's truncating division ([Z.quot], [Z.rem]), and [CivilWidth] has them
    at 64 bits with what overflows.  The [for (;;)] loops that count a day
    number down by chunks are one fuelled loop; [n_day_spec] shows that the fuel given
    at each use is enough for the loop to leave by its [break]. *)
From Stdlib Require Import ZArith Lia List Bool.
From S2P Require Import Prelude.
Import ListNotations.
#[local] Open Scope Z_scope.
#[local] Open Scope mach_scope.

Record fields := mk_fields { f_y : Z; f_m : Z; f_d : Z; f_hh : Z; f_mm : Z; f_ss : Z }.

Inductive tag := second_tag | minute_tag | hour_tag | day_tag | month_tag | year_tag.

(** ** Calendar arithmetic *)
Definition is_leap_year (y : Z) : bool :=
  (Z.rem y 4 =? 0) && (negb (Z.rem y 100 =? 0) || (Z.rem y 400 =? 0)).

Definition year_index (y m : Z) : Z :=
  let yi := Z.rem (y + Z.b2z (m >? 2)) 400 in
  if yi <? 0 then yi + 400 else yi.

Definition days_per_century (yi : Z) : Z := 36524 + Z.b2z ((yi =? 0) || (yi >? 300)).

Definition days_per_4years (yi : Z) : Z :=
  1460 + Z.b2z ((yi =? 0) || (yi >? 300) || (Z.rem (yi - 1) 100 <? 96)).

Definition days_per_year (y m : Z) : Z :=
  if is_leap_year (y + Z.b2z (m >? 2)) then 366 else 365.

Definition k_days_per_month : list Z := [-1; 31; 28; 31; 30; 31; 30; 31; 31; 30; 31; 30; 31].

Definition days_per_month (y m : Z) : Z :=
  nth (Z.to_nat m) k_days_per_month 0 + Z.b2z ((m =? 2) && is_leap_year y).

(** [for (;;) { n = len(s); if (d <= n) break; d -= n; s = adv(s); }] *)
Fixpoint chunk_loop {S : Type} (len : S -> Z) (adv : S -> S) (fuel : nat) (s : S) (d : Z) : S * Z :=
  match fuel with
  | O => (s, d)
  | Datatypes.S fuel' =>
      if d <=? len s then (s, d) else chunk_loop len adv fuel' (adv s) (d - len s)
  end.

(** Advancing the pair (ey, yi) by [k] years within the 400-year cycle. *)
Definition adv_years (k : Z) (s : Z * Z) : Z * Z :=
  let '(ey, yi) := s in
  let yi := yi + k in (ey + k, if yi >=? 400 then yi - 400 else yi).

(** Advancing the pair (ey, m) by a month. *)
Definition adv_month (s : Z * Z) : Z * Z :=
  let '(ey, m) := s in if m + 1 >? 12 then (ey + 1, 1) else (ey, m + 1).

(** The part of [n_day] before the chunk loops: a day of year [ey] in [1, 146097]. *)
Definition n_day_era (y m d cd : Z) : Z * Z :=
  let ey := Z.rem y 400 in
  let ey := ey + Z.quot cd 146097 * 400 in
  let cd := Z.rem cd 146097 in
  let '(ey, cd) := if cd <? 0 then (ey - 400, cd + 146097) else (ey, cd) in
  let ey := ey + Z.quot d 146097 * 400 in
  let d := Z.rem d 146097 + cd in
  if d >? 0 then
    if d >? 146097 then (ey + 400, d - 146097) else (ey, d)
  else if d >? -365 then (ey - 1, d + days_per_year (ey - 1) m)
  else (ey - 400, d + 146097).

(** The centuries, then the 4-year groups, then the years. *)
Definition n_day_years (ey m d : Z) : Z * Z :=
  if d >? 365 then
    let yi := year_index ey m in
    let '((ey, yi), d) :=
      chunk_loop (fun s => days_per_century (snd s)) (adv_years 100) 4 (ey, yi) d in
    let '((ey, yi), d) :=
      chunk_loop (fun s => days_per_4years (snd s)) (adv_years 4) 25 (ey, yi) d in
    chunk_loop (fun ey => days_per_year ey m) (fun ey => ey + 1) 4 ey d
  else (ey, d).

Definition n_day (y m d cd hh mm ss : Z) : fields :=
  let oey := Z.rem y 400 in
  let '(ey, d) := n_day_era y m d cd in
  let '(ey, d) := n_day_years ey m d in
  let '((ey, m), d) :=
    if d >? 28
    then chunk_loop (fun s => days_per_month (fst s) (snd s)) adv_month 12 (ey, m) d
    else ((ey, m), d) in
  mk_fields (y + (ey - oey)) m d hh mm ss.

Definition n_mon (y m d cd hh mm ss : Z) : fields :=
  let '(y, m) :=
    if negb (m =? 12) then
      let y := y + Z.quot m 12 in
      let m := Z.rem m 12 in
      if m <=? 0 then (y - 1, m + 12) else (y, m)
    else (y, m) in
  n_day y m d cd hh mm ss.

Definition n_hour (y m d cd hh mm ss : Z) : fields :=
  let cd := cd + Z.quot hh 24 in
  let hh := Z.rem hh 24 in
  let '(cd, hh) := if hh <? 0 then (cd - 1, hh + 24) else (cd, hh) in
  n_mon y m d cd hh mm ss.

Definition n_min (y m d hh ch mm ss : Z) : fields :=
  let ch := ch + Z.quot mm 60 in
  let mm := Z.rem mm 60 in
  let '(ch, mm) := if mm <? 0 then (ch - 1, mm + 60) else (ch, mm) in
  n_hour y m d (Z.quot hh 24 + Z.quot ch 24) (Z.rem hh 24 + Z.rem ch 24) mm ss.

Definition n_sec (y m d hh mm ss : Z) : fields :=
  if (0 <=? ss) && (ss <? 60) then
    if (0 <=? mm) && (mm <? 60) then
      if (0 <=? hh) && (hh <? 24) then
        if (1 <=? d) && (d <=? 28) && (1 <=? m) && (m <=? 12) then mk_fields y m d hh mm ss
        else n_mon y m d 0 hh mm ss
      else n_hour y m d (Z.quot hh 24) (Z.rem hh 24) mm ss
    else n_min y m d hh (Z.quot mm 60) (Z.rem mm 60) ss
  else
    let cm := Z.quot ss 60 in
    let ss := Z.rem ss 60 in
    let '(cm, ss) := if ss <? 0 then (cm - 1, ss + 60) else (cm, ss) in
    n_min y m d hh (Z.quot mm 60 + Z.quot cm 60) (Z.rem mm 60 + Z.rem cm 60) ss.

(** ** Steps, differences, alignment *)
Definition step (t : tag) (f : fields) (n : Z) : fields :=
  match t with
  | second_tag => n_sec (f_y f) (f_m f) (f_d f) (f_hh f) (f_mm f + Z.quot n 60) (f_ss f + Z.rem n 60)
  | minute_tag => n_min (f_y f) (f_m f) (f_d f) (f_hh f + Z.quot n 60) 0 (f_mm f + Z.rem n 60) (f_ss f)
  | hour_tag => n_hour (f_y f) (f_m f) (f_d f + Z.quot n 24) 0 (f_hh f + Z.rem n 24) (f_mm f) (f_ss f)
  | day_tag => n_day (f_y f) (f_m f) (f_d f) n (f_hh f) (f_mm f) (f_ss f)
  | month_tag => n_mon (f_y f + Z.quot n 12) (f_m f + Z.rem n 12) (f_d f) 0 (f_hh f) (f_mm f) (f_ss f)
  | year_tag => mk_fields (f_y f + n) (f_m f) (f_d f) (f_hh f) (f_mm f) (f_ss f)
  end.

Definition scale_add (v f a : Z) : Z :=
  if v <? 0 then ((v + 1) * f + a) - f else ((v - 1) * f + a) + f.

Definition ymd_ord (y m d : Z) : Z :=
  let eyear := if m <=? 2 then y - 1 else y in
  let era := Z.quot (if eyear >=? 0 then eyear else eyear - 399) 400 in
  let yoe := eyear - era * 400 in
  let doy := Z.quot (153 * (m + (if m >? 2 then -3 else 9)) + 2) 5 + d - 1 in
  let doe := yoe * 365 + Z.quot yoe 4 - Z.quot yoe 100 + doy in
  era * 146097 + doe - 719468.

Definition day_difference (y1 m1 d1 y2 m2 d2 : Z) : Z :=
  let a_c4_off := Z.rem y1 400 in
  let b_c4_off := Z.rem y2 400 in
  let c4_diff := (y1 - a_c4_off) - (y2 - b_c4_off) in
  let delta := ymd_ord a_c4_off m1 d1 - ymd_ord b_c4_off m2 d2 in
  let '(delta, c4_diff) :=
    if (c4_diff >? 0) && (delta <? 0) then (delta + 2 * 146097, c4_diff - 2 * 400)
    else if (c4_diff <? 0) && (delta >? 0) then (delta - 2 * 146097, c4_diff + 2 * 400)
    else (delta, c4_diff) in
  Z.quot c4_diff 400 * 146097 + delta.

Definition difference_year (f1 f2 : fields) : Z := f_y f1 - f_y f2.
Definition difference_month (f1 f2 : fields) : Z :=
  scale_add (difference_year f1 f2) 12 (f_m f1 - f_m f2).
Definition difference_day (f1 f2 : fields) : Z :=
  day_difference (f_y f1) (f_m f1) (f_d f1) (f_y f2) (f_m f2) (f_d f2).
Definition difference_hour (f1 f2 : fields) : Z :=
  scale_add (difference_day f1 f2) 24 (f_hh f1 - f_hh f2).
Definition difference_minute (f1 f2 : fields) : Z :=
  scale_add (difference_hour f1 f2) 60 (f_mm f1 - f_mm f2).
Definition difference_second (f1 f2 : fields) : Z :=
  scale_add (difference_minute f1 f2) 60 (f_ss f1 - f_ss f2).

Definition difference (t : tag) (f1 f2 : fields) : Z :=
  match t with
  | year_tag => difference_year f1 f2
  | month_tag => difference_month f1 f2
  | day_tag => difference_day f1 f2
  | hour_tag => difference_hour f1 f2
  | minute_tag => difference_minute f1 f2
  | second_tag => difference_second f1 f2
  end.

(** The same differences in [diff_t] arithmetic: [None] where a 64-bit operation overflows. *)
#[local] Abbreviation s64 := (checked 64).

Definition scale_add64 (v f a : Z) : option Z :=
  if v <? 0 then
    do v1 <- s64 (v + 1); do p <- s64 (v1 * f); do q <- s64 (p + a); s64 (q - f)
  else
    do v1 <- s64 (v - 1); do p <- s64 (v1 * f); do q <- s64 (p + a); s64 (q + f).

Definition ymd_ord64 (y m d : Z) : option Z :=
  do eyear <- (if m <=? 2 then s64 (y - 1) else Some y);
  do num <- (if eyear >=? 0 then Some eyear else s64 (eyear - 399));
  let era := Z.quot num 400 in
  do e4 <- s64 (era * 400);
  do yoe <- s64 (eyear - e4);
  do doy <- s64 (Z.quot (153 * (m + (if m >? 2 then -3 else 9)) + 2) 5 + d - 1);
  do y365 <- s64 (yoe * 365);
  do doe <- s64 (y365 + Z.quot yoe 4 - Z.quot yoe 100 + doy);
  do ed <- s64 (era * 146097);
  do sum <- s64 (ed + doe);
  s64 (sum - 719468).

Definition day_difference64 (y1 m1 d1 y2 m2 d2 : Z) : option Z :=
  let a_c4_off := Z.rem y1 400 in
  let b_c4_off := Z.rem y2 400 in
  do ya <- s64 (y1 - a_c4_off);
  do yb <- s64 (y2 - b_c4_off);
  do c4_diff <- s64 (ya - yb);
  do o1 <- ymd_ord64 a_c4_off m1 d1;
  do o2 <- ymd_ord64 b_c4_off m2 d2;
  do delta <- s64 (o1 - o2);
  do dc <- (if (c4_diff >? 0) && (delta <? 0) then
              do e <- s64 (delta + 2 * 146097); do c <- s64 (c4_diff - 2 * 400); Some (e, c)
            else if (c4_diff <? 0) && (delta >? 0) then
              do e <- s64 (delta - 2 * 146097); do c <- s64 (c4_diff + 2 * 400); Some (e, c)
            else Some (delta, c4_diff));
  let '(delta, c4_diff) := dc in
  do p <- s64 (Z.quot c4_diff 400 * 146097);
  s64 (p + delta).

Definition difference64 (t : tag) (f1 f2 : fields) : option Z :=
  let dday := day_difference64 (f_y f1) (f_m f1) (f_d f1) (f_y f2) (f_m f2) (f_d f2) in
  let dhour := do d <- dday; scale_add64 d 24 (f_hh f1 - f_hh f2) in
  let dmin := do h <- dhour; scale_add64 h 60 (f_mm f1 - f_mm f2) in
  match t with
  | year_tag => s64 (f_y f1 - f_y f2)
  | month_tag => do y <- s64 (f_y f1 - f_y f2); scale_add64 y 12 (f_m f1 - f_m f2)
  | day_tag => dday
  | hour_tag => dhour
  | minute_tag => dmin
  | second_tag => do m <- dmin; scale_add64 m 60 (f_ss f1 - f_ss f2)
  end.

Definition align (t : tag) (f : fields) : fields :=
  match t with
  | second_tag => f
  | minute_tag => mk_fields (f_y f) (f_m f) (f_d f) (f_hh f) (f_mm f) 0
  | hour_tag => mk_fields (f_y f) (f_m f) (f_d f) (f_hh f) 0 0
  | day_tag => mk_fields (f_y f) (f_m f) (f_d f) 0 0 0
  | month_tag => mk_fields (f_y f) (f_m f) 1 0 0 0
  | year_tag => mk_fields (f_y f) 1 1 0 0 0
  end.

(** ** The class template [civil_time<T>]: fields aligned to its tag *)
Record civil_time := mk_civil { ct_tag : tag; ct_f : fields }.

Definition of_fields (t : tag) (f : fields) : civil_time := mk_civil t (align t f).

Definition make_civil (t : tag) (y m d hh mm ss : Z) : civil_time := of_fields t (n_sec y m d hh mm ss).

Definition civil_default (t : tag) : civil_time := mk_civil t (mk_fields 1970 1 1 0 0 0).

(** Conversion between alignments. *)
Definition convert (t : tag) (c : civil_time) : civil_time := of_fields t (ct_f c).

Definition civil_max (t : tag) : civil_time := make_civil t (2 ^ 63 - 1) 12 31 23 59 59.
Definition civil_min (t : tag) : civil_time := make_civil t (- 2 ^ 63) 1 1 0 0 0.

Definition civil_add (a : civil_time) (n : Z) : civil_time :=
  of_fields (ct_tag a) (step (ct_tag a) (ct_f a) n).

Definition civil_sub (a : civil_time) (n : Z) : civil_time :=
  if negb (n =? - 2 ^ 63) then of_fields (ct_tag a) (step (ct_tag a) (ct_f a) (- n))
  else of_fields (ct_tag a) (step (ct_tag a) (step (ct_tag a) (ct_f a) (- (n + 1))) 1).

Definition civil_diff (lhs rhs : civil_time) : Z :=
  difference (ct_tag lhs) (ct_f lhs) (ct_f rhs).

(** Prefix and postfix increments; the postfix forms also return the old value. *)
Definition civil_incr (a : civil_time) : civil_time := civil_add a 1.
Definition civil_decr (a : civil_time) : civil_time := civil_sub a 1.
Definition civil_post_incr (a : civil_time) : civil_time * civil_time := (a, civil_incr a).
Definition civil_post_decr (a : civil_time) : civil_time * civil_time := (a, civil_decr a).

Definition civil_ltb (l r : fields) : bool :=
  (f_y l <? f_y r) ||
  ((f_y l =? f_y r) &&
   ((f_m l <? f_m r) ||
    ((f_m l =? f_m r) &&
     ((f_d l <? f_d r) || ((f_d l =? f_d r) &&
       ((f_hh l <? f_hh r) ||
        ((f_hh l =? f_hh r) &&
         ((f_mm l <? f_mm r) ||
          ((f_mm l =? f_mm r) && (f_ss l <? f_ss r)))))))))).

Definition civil_leb (l r : fields) : bool := negb (civil_ltb r l).
Definition civil_geb (l r : fields) : bool := negb (civil_ltb l r).
Definition civil_gtb (l r : fields) : bool := civil_ltb r l.

Definition civil_eqb (l r : fields) : bool :=
  (f_y l =? f_y r) && (f_m l =? f_m r) && (f_d l =? f_d r) &&
  (f_hh l =? f_hh r) && (f_mm l =? f_mm r) && (f_ss l =? f_ss r).

Definition civil_neqb (l r : fields) : bool := negb (civil_eqb l r).

(** ** Weekdays *)
Inductive weekday := monday | tuesday | wednesday | thursday | friday | saturday | sunday.

Definition weekday_index (w : weekday) : Z :=
  match w with
  | monday => 0 | tuesday => 1 | wednesday => 2 | thursday => 3
  | friday => 4 | saturday => 5 | sunday => 6
  end.

Definition weekday_eqb (a b : weekday) : bool := weekday_index a =? weekday_index b.

Definition k_weekday_by_mon_off : list weekday :=
  [monday; tuesday; wednesday; thursday; friday; saturday; sunday;
   monday; tuesday; wednesday; thursday; friday; saturday].

Definition k_weekday_offsets : list Z := [-1; 0; 3; 2; 5; 0; 3; 5; 1; 4; 6; 2; 4].

Definition get_weekday (cs : fields) : weekday :=
  let wd := 2400 + Z.rem (f_y cs) 400 - Z.b2z (f_m cs <? 3) in
  let wd := wd + (Z.quot wd 4 - Z.quot wd 100 + Z.quot wd 400) in
  let wd := wd + (nth (Z.to_nat (f_m cs)) k_weekday_offsets 0 + f_d cs) in
  nth (Z.to_nat (Z.rem wd 7 + 6)) k_weekday_by_mon_off monday.

Definition k_weekdays_forw : list weekday :=
  [monday; tuesday; wednesday; thursday; friday; saturday; sunday;
   monday; tuesday; wednesday; thursday; friday; saturday; sunday].

Definition k_weekdays_back : list weekday :=
  [sunday; saturday; friday; thursday; wednesday; tuesday; monday;
   sunday; saturday; friday; thursday; wednesday; tuesday; monday].

(** The least index from [i] on at which the table holds [w]. *)
Fixpoint find_weekday (w : weekday) (l : list weekday) (i : Z) : option Z :=
  match l with
  | [] => None
  | x :: l' => if weekday_eqb w x then Some i else find_weekday w l' (i + 1)
  end.

(** The two nested searches: [base] from index 0, then [wd] after it; the distance [j - i]. *)
Definition weekday_distance (table : list weekday) (base wd : weekday) : option Z :=
  match find_weekday base table 0 with
  | None => None
  | Some i =>
      match find_weekday wd (skipn (Z.to_nat (i + 1)) table) (i + 1) with
      | None => None
      | Some j => Some (j - i)
      end
  end.

Definition next_weekday (cd : civil_time) (wd : weekday) : option civil_time :=
  match weekday_distance k_weekdays_forw (get_weekday (ct_f cd)) wd with
  | Some n => Some (civil_add cd n)
  | None => None
  end.

Definition prev_weekday (cd : civil_time) (wd : weekday) : option civil_time :=
  match weekday_distance k_weekdays_back (get_weekday (ct_f cd)) wd with
  | Some n => Some (civil_sub cd n)
  | None => None
  end.

Definition k_month_offsets : list Z :=
  [-1; 0; 31; 59; 90; 120; 151; 181; 212; 243; 273; 304; 334].

Definition get_yearday (cs : fields) : Z :=
  let feb29 := Z.b2z ((f_m cs >? 2) && is_leap_year (f_y cs)) in
  nth (Z.to_nat (f_m cs)) k_month_offsets 0 + feb29 + f_d cs.

(** ** Specification *)

(** A date of the calendar, and normalized fields. *)
Definition valid_ymd (y m d : Z) : Prop := 1 <= m <= 12 /\ 1 <= d <= days_per_month y m.

Definition valid_fields (f : fields) : Prop :=
  valid_ymd (f_y f) (f_m f) (f_d f) /\ 0 <= f_hh f < 24 /\ 0 <= f_mm f < 60 /\ 0 <= f_ss f < 60.

(** The day after a date, by the lengths of the months. *)
Definition next_day (t : Z * Z * Z) : Z * Z * Z :=
  let '(y, m, d) := t in
  if d <? days_per_month y m then (y, m, d + 1)
  else if m <? 12 then (y, m + 1, 1) else (y + 1, 1, 1).

(** Days and seconds since 1970-01-01 00:00:00. *)
Definition ord (f : fields) : Z := ymd_ord (f_y f) (f_m f) (f_d f).

Definition sec_ord (f : fields) : Z :=
  ((ord f * 24 + f_hh f) * 60 + f_mm f) * 60 + f_ss f.

(** ** The day number *)

(** 365 days a year and a leap day every fourth, but not hundredth, but four-hundredth year. *)
Definition year_days (e : Z) : Z := 365 * e + e / 4 - e / 100 + e / 400.

Definition month_days (m : Z) : Z := (153 * (m + (if m >? 2 then -3 else 9)) + 2) / 5.

(** The March-based year of a month. *)
Definition eyear (y m : Z) : Z := if m <=? 2 then y - 1 else y.

Lemma quot_pos a b : 0 <= a -> 0 < b -> Z.quot a b = a / b.
Proof. intros. apply Z.quot_div_nonneg; lia. Qed.

Lemma ymd_ord_closed y m d :
  1 <= m <= 12 -> ymd_ord y m d = year_days (eyear y m) + month_days m + d - 719469.
Proof.
  intros Hm. unfold ymd_ord, year_days, month_days, eyear.
  set (e := if m <=? 2 then y - 1 else y).
  replace (Z.quot (if e >=? 0 then e else e - 399) 400) with (e / 400)
    by (destruct (e >=? 0) eqn:E; zbool; zlia).
  rewrite (quot_pos (_ - _) 4), (quot_pos (_ - _) 100), (quot_pos (153 * _ + 2) 5)
    by (try lia; try zlia; destruct (m >? 2) eqn:?; zbool; lia).
  zlia.
Qed.

Lemma rem_zero_mod a b : 0 < b -> (Z.rem a b =? 0) = (a mod b =? 0).
Proof.
  intros Hb. apply eq_true_iff_eq. rewrite !Z.eqb_eq.
  rewrite Z.rem_divide, Z.mod_divide by lia. reflexivity.
Qed.

Lemma is_leap_year_mod y :
  is_leap_year y = (y mod 4 =? 0) && (negb (y mod 100 =? 0) || (y mod 400 =? 0)).
Proof. unfold is_leap_year. now rewrite !rem_zero_mod by lia. Qed.

Lemma year_days_succ e :
  year_days (e + 1) - year_days e = if is_leap_year (e + 1) then 366 else 365.
Proof.
  rewrite is_leap_year_mod. unfold year_days.
  destruct ((e + 1) mod 4 =? 0) eqn:E1, ((e + 1) mod 100 =? 0) eqn:E2,
    ((e + 1) mod 400 =? 0) eqn:E3; cbn [andb orb negb]; zlia.
Qed.

Lemma year_days_period e k : year_days (e + 400 * k) = year_days e + 146097 * k.
Proof. unfold year_days. zlia. Qed.

Lemma eyear_shift y m k : eyear (y + k) m = eyear y m + k.
Proof. unfold eyear. case_if; lia. Qed.

Lemma year_index_mod y m : year_index y m = (eyear y m + 1) mod 400.
Proof.
  unfold year_index, eyear. destruct (m >? 2) eqn:E1, (m <=? 2) eqn:E2; zbool; try lia;
    cbn [Z.b2z]; case_if; zlia.
Qed.

Lemma days_per_year_pos y m :
  days_per_year y m = year_days (eyear (y + 1) m) - year_days (eyear y m).
Proof.
  unfold days_per_year. rewrite eyear_shift, year_days_succ.
  unfold eyear. destruct (m >? 2) eqn:E1, (m <=? 2) eqn:E2; zbool; try lia; cbn [Z.b2z];
    [reflexivity|]. now replace (y - 1 + 1) with (y + 0) by lia.
Qed.

(** A span of years depends only on its place in the 400-year cycle. *)
Lemma year_span (len : Z -> Z) k :
  forallb_below 400 (fun r => len r =? year_days (r - 1 + k) - year_days (r - 1)) = true ->
  forall y m, len (year_index y m) = year_days (eyear (y + k) m) - year_days (eyear y m).
Proof.
  intros H y m. rewrite year_index_mod, eyear_shift. set (e := eyear y m).
  pose proof (forallb_below_spec 400 _ H ((e + 1) mod 400) ltac:(zlia)) as E.
  cbv beta in E. apply Z.eqb_eq in E. rewrite E.
  pose proof (Z.div_mod (e + 1) 400 ltac:(lia)) as D.
  set (r := (e + 1) mod 400) in *. set (q := (e + 1) / 400) in *.
  replace (e + k) with (r - 1 + k + 400 * q) by lia.
  replace (year_days e) with (year_days (r - 1 + 400 * q)) by (f_equal; lia).
  rewrite !year_days_period. lia.
Qed.

Lemma days_per_century_pos y m :
  days_per_century (year_index y m) = year_days (eyear (y + 100) m) - year_days (eyear y m).
Proof. apply (year_span days_per_century). vm_compute. reflexivity. Qed.

Lemma days_per_4years_pos y m :
  days_per_4years (year_index y m) = year_days (eyear (y + 4) m) - year_days (eyear y m).
Proof. apply (year_span days_per_4years). vm_compute. reflexivity. Qed.

Lemma adv_years_index k ey m :
  0 <= k <= 400 -> adv_years k (ey, year_index ey m) = (ey + k, year_index (ey + k) m).
Proof.
  intros Hk. unfold adv_years. rewrite !year_index_mod, eyear_shift. f_equal. case_if; zlia.
Qed.

(** The months, as positions in the year that starts in March. *)
Definition month_pos (s : Z * Z) : Z := year_days (eyear (fst s) (snd s)) + month_days (snd s).

Ltac month_cases m :=
  let H := fresh in
  assert (H : m = 1 \/ m = 2 \/ m = 3 \/ m = 4 \/ m = 5 \/ m = 6 \/ m = 7 \/ m = 8 \/ m = 9
              \/ m = 10 \/ m = 11 \/ m = 12) by lia;
  destruct H as [->|[->|[->|[->|[->|[->|[->|[->|[->|[->|[->| ->]]]]]]]]]]].

(** Evaluate the lookups at literal indices of the constant tables. *)
Ltac eval_tables :=
  repeat match goal with
  | |- context [nth (Z.to_nat ?k) ?t ?d] =>
      let v := eval vm_compute in (nth (Z.to_nat k) t d) in
      change (nth (Z.to_nat k) t d) with v
  end.

Lemma adv_month_pos y m :
  1 <= m <= 12 ->
  month_pos (adv_month (y, m)) = month_pos (y, m) + days_per_month y m /\
  1 <= snd (adv_month (y, m)) <= 12.
Proof.
  intros Hm. pose proof (year_days_succ (y - 1)) as Y. replace (y - 1 + 1) with y in Y by lia.
  month_cases m;
    unfold adv_month, month_pos, eyear, month_days, days_per_month; eval_tables;
    cbn - [year_days is_leap_year];
    (split; [|lia]); rewrite ?Z.add_simpl_r; revert Y;
    destruct (is_leap_year y); cbn [Z.b2z]; intros Y; lia.
Qed.

(** ** The chunk loops *)
Section ChunkLoop.
Context {S : Type} (len : S -> Z) (adv : S -> S) (pos : S -> Z) (P : S -> Prop).
Hypothesis Hadv : forall s, P s -> P (adv s) /\ pos (adv s) = pos s + len s.

(** [K] rounds of fuel are enough when the day lies within [K] chunks: the loop leaves by its
    break, in the chunk that holds the day. *)
Lemma chunk_loop_spec K s d :
  P s -> 0 < d <= pos (Nat.iter K adv s) - pos s ->
  let '(s', d') := chunk_loop len adv K s d in
  P s' /\ 0 < d' <= len s' /\ pos s' + d' = pos s + d.
Proof.
  revert s d. induction K as [|K IH]; intros s d HP Hd; cbn [chunk_loop]; [cbn in Hd; lia|].
  destruct (Hadv s HP) as [HP' Hpos].
  destruct (d <=? len s) eqn:E; zbool; [repeat split; auto; lia|].
  rewrite Nat.iter_succ_r in Hd. specialize (IH (adv s) (d - len s) HP' ltac:(lia)).
  destruct (chunk_loop len adv K (adv s) (d - len s)) as [s' d'].
  destruct IH as (H1 & H2 & H3). repeat split; auto; lia.
Qed.
End ChunkLoop.

(** Positions of the (ey, yi) states of the century and 4-year loops. *)
Definition year_state (m : Z) (s : Z * Z) : Prop := snd s = year_index (fst s) m.
Definition year_pos (m : Z) (s : Z * Z) : Z := year_days (eyear (fst s) m).

Lemma adv_years_state k m s :
  0 <= k <= 400 -> year_state m s -> adv_years k s = (fst s + k, year_index (fst s + k) m).
Proof.
  intros Hk Hs. destruct s as [ey yi]. unfold year_state in Hs. cbn in *. subst yi.
  now apply adv_years_index.
Qed.

Lemma iter_adv_years n k m ey :
  0 <= k <= 400 ->
  fst (Nat.iter n (adv_years k) (ey, year_index ey m)) = ey + Z.of_nat n * k /\
  year_state m (Nat.iter n (adv_years k) (ey, year_index ey m)).
Proof.
  intros Hk. induction n as [|n [IH1 IH2]].
  - cbn. split; [lia|reflexivity].
  - rewrite Nat.iter_succ, (adv_years_state k m) by assumption. unfold year_state. cbn [fst snd].
    rewrite IH1. split; [lia|reflexivity].
Qed.

Lemma year_loop_spec (len : Z -> Z) k K ey m d :
  0 <= k <= 400 ->
  (forall y m, len (year_index y m) = year_days (eyear (y + k) m) - year_days (eyear y m)) ->
  0 < d <= year_days (eyear (ey + Z.of_nat K * k) m) - year_days (eyear ey m) ->
  exists ey' d',
    chunk_loop (fun s => len (snd s)) (adv_years k) K (ey, year_index ey m) d
    = ((ey', year_index ey' m), d') /\
    0 < d' <= year_days (eyear (ey' + k) m) - year_days (eyear ey' m) /\
    year_days (eyear ey' m) + d' = year_days (eyear ey m) + d.
Proof.
  intros Hk Hlen Hd.
  assert (Hadv : forall s, year_state m s ->
    year_state m (adv_years k s) /\ year_pos m (adv_years k s) = year_pos m s + len (snd s)).
  { intros [y yi] Hs. rewrite (adv_years_state k m) by assumption. unfold year_state in *. cbn in *.
    subst yi. split; [reflexivity|]. unfold year_pos. cbn. rewrite Hlen. lia. }
  pose proof (chunk_loop_spec _ _ _ _ Hadv K (ey, year_index ey m) d eq_refl) as L.
  destruct (iter_adv_years K k m ey Hk) as [I1 _].
  unfold year_pos at 1 in L. rewrite I1 in L. specialize (L Hd).
  destruct (chunk_loop _ _ _ _ _) as [[ey' yi'] d']. destruct L as (H1 & H2 & H3).
  unfold year_state in H1. unfold year_pos in H3. cbn [fst snd] in *. subst yi'.
  exists ey', d'. rewrite Hlen in H2. auto.
Qed.

Lemma n_day_years_spec ey m d :
  1 <= d <= 146097 ->
  let '(ey', d') := n_day_years ey m d in
  0 < d' <= year_days (eyear (ey' + 1) m) - year_days (eyear ey' m) /\
  year_days (eyear ey' m) + d' = year_days (eyear ey m) + d.
Proof.
  intros Hd. unfold n_day_years. destruct (d >? 365) eqn:E; zbool.
  2: { pose proof (days_per_year_pos ey m) as Y. unfold days_per_year in Y.
       split; [|lia]. destruct (is_leap_year _); lia. }
  assert (P400 : year_days (eyear (ey + 400) m) = year_days (eyear ey m) + 146097)
    by (rewrite eyear_shift; apply (year_days_period _ 1)).
  destruct (year_loop_spec days_per_century 100 4 ey m d) as (e1 & d1 & -> & B1 & S1);
    [lia|apply days_per_century_pos|change (Z.of_nat 4 * 100) with 400; lia|].
  destruct (year_loop_spec days_per_4years 4 25 e1 m d1) as (e2 & d2 & -> & B2 & S2);
    [lia|apply days_per_4years_pos|exact B1|].
  pose proof (chunk_loop_spec (fun ey => days_per_year ey m) (fun ey => ey + 1)
    (fun ey => year_days (eyear ey m)) (fun _ => True)) as L.
  specialize (L ltac:(intros y _; split; [exact I|rewrite days_per_year_pos; lia]) 4%nat e2 d2 I).
  change (Nat.iter 4 (fun ey => ey + 1) e2) with (e2 + 1 + 1 + 1 + 1) in L.
  replace (e2 + 1 + 1 + 1 + 1) with (e2 + 4) in L by lia. specialize (L B2).
  destruct (chunk_loop _ _ _ _ _) as [e3 d3]. destruct L as (_ & B3 & S3).
  rewrite days_per_year_pos in B3. split; [exact B3|lia].
Qed.

Lemma year_shift y m k : year_days (eyear (y + 400 * k) m) = year_days (eyear y m) + 146097 * k.
Proof. rewrite eyear_shift. apply year_days_period. Qed.

Lemma days_per_year_shift y m k : days_per_year (y + 400 * k) m = days_per_year y m.
Proof.
  rewrite !days_per_year_pos. replace (y + 400 * k + 1) with (y + 1 + 400 * k) by lia.
  rewrite !year_shift. lia.
Qed.

Lemma quot_rem_eq a b : a = b * Z.quot a b + Z.rem a b.
Proof. apply Z.quot_rem'. Qed.

Lemma n_day_era_spec y m d cd :
  let '(ey, d') := n_day_era y m d cd in
  1 <= d' <= 146097 /\
  year_days (eyear (y + (ey - Z.rem y 400)) m) + d' = year_days (eyear y m) + d + cd.
Proof.
  unfold n_day_era. set (oey := Z.rem y 400).
  pose proof (quot_rem_eq cd 146097) as Ec. pose proof (quot_rem_eq d 146097) as Ed.
  pose proof (Z.rem_bound_abs cd 146097 ltac:(lia)) as Bc.
  pose proof (Z.rem_bound_abs d 146097 ltac:(lia)) as Bd.
  set (qc := Z.quot cd 146097) in *. set (rc := Z.rem cd 146097) in *.
  set (qd := Z.quot d 146097) in *. set (rd := Z.rem d 146097) in *.
  assert (Hyear : forall k e, e - oey = 400 * k ->
            year_days (eyear (y + (e - oey)) m) = year_days (eyear y m) + 146097 * k)
    by (intros k e ->; apply year_shift).
  assert (Hprev : forall k e, e - oey = 400 * k ->
            year_days (eyear (y + (e - 1 - oey)) m) + days_per_year (e - 1) m
            = year_days (eyear y m) + 146097 * k /\ 365 <= days_per_year (e - 1) m <= 366).
  { intros k e He.
    assert (Hy : y = 400 * Z.quot y 400 + oey) by apply quot_rem_eq.
    split; [|unfold days_per_year; destruct (is_leap_year _); lia].
    replace (days_per_year (e - 1) m) with (days_per_year (y - 1) m)
      by (rewrite <- (days_per_year_shift (y - 1) m (k - Z.quot y 400)); f_equal; lia).
    rewrite days_per_year_pos. replace (y + (e - 1 - oey)) with (y - 1 + 400 * k) by lia.
    rewrite year_shift. replace (y - 1 + 1) with y by lia. lia. }
  destruct (rc <? 0) eqn:E1; cbv zeta iota beta;
    repeat (case_if; cbv zeta iota beta); zbool.
  - rewrite (Hyear (qc + qd)) by lia. lia.
  - rewrite (Hyear (qc + qd - 1)) by lia. lia.
  - destruct (Hprev (qc + qd - 1) (oey + qc * 400 - 400 + qd * 400)); lia.
  - rewrite (Hyear (qc + qd - 2)) by lia. lia.
  - rewrite (Hyear (qc + qd + 1)) by lia. lia.
  - rewrite (Hyear (qc + qd)) by lia. lia.
  - destruct (Hprev (qc + qd) (oey + qc * 400 + qd * 400)); lia.
  - rewrite (Hyear (qc + qd - 1)) by lia. lia.
Qed.

Lemma is_leap_year_shift y k : is_leap_year (y + 400 * k) = is_leap_year y.
Proof.
  rewrite !is_leap_year_mod.
  replace ((y + 400 * k) mod 4) with (y mod 4) by zlia.
  replace ((y + 400 * k) mod 100) with (y mod 100) by zlia.
  replace ((y + 400 * k) mod 400) with (y mod 400) by zlia. reflexivity.
Qed.

Lemma days_per_month_shift y m k : days_per_month (y + 400 * k) m = days_per_month y m.
Proof. unfold days_per_month. now rewrite is_leap_year_shift. Qed.

Lemma days_per_month_range y m : 1 <= m <= 12 -> 28 <= days_per_month y m <= 31.
Proof.
  intros Hm. month_cases m; unfold days_per_month; eval_tables;
    cbn - [is_leap_year]; destruct (is_leap_year y); cbn; lia.
Qed.

Lemma iter_adv_month y m : 1 <= m <= 12 -> Nat.iter 12 adv_month (y, m) = (y + 1, m).
Proof. intros Hm. month_cases m; reflexivity. Qed.

Lemma month_loop_spec ey m d :
  1 <= m <= 12 ->
  0 < d <= year_days (eyear (ey + 1) m) - year_days (eyear ey m) ->
  let '((ey', m'), d') :=
    if d >? 28
    then chunk_loop (fun s => days_per_month (fst s) (snd s)) adv_month 12 (ey, m) d
    else ((ey, m), d) in
  valid_ymd ey' m' d' /\ month_pos (ey', m') + d' = month_pos (ey, m) + d.
Proof.
  intros Hm Hd. unfold valid_ymd. destruct (d >? 28) eqn:E; zbool.
  - pose proof (chunk_loop_spec (fun s => days_per_month (fst s) (snd s)) adv_month month_pos
      (fun s => 1 <= snd s <= 12)) as L.
    specialize (L ltac:(intros [y m0] H; cbn [fst snd] in *; destruct (adv_month_pos y m0 H); auto)
      12%nat (ey, m) d Hm).
    rewrite iter_adv_month in L by assumption. unfold month_pos at 1 2 in L. cbn [fst snd] in L.
    specialize (L ltac:(lia)).
    destruct (chunk_loop _ _ _ _ _) as [[ey' m'] d']. cbn [fst snd] in *.
    destruct L as (H1 & H2 & H3). repeat split; auto; lia.
  - pose proof (days_per_month_range ey m Hm). repeat split; lia.
Qed.

Lemma ymd_ord_month y m d : 1 <= m <= 12 -> ymd_ord y m d = month_pos (y, m) + d - 719469.
Proof. intros Hm. rewrite ymd_ord_closed by assumption. unfold month_pos. cbn [fst snd]. lia. Qed.

(** Day normalization: the result is the date [d - 1 + cd] days after the first of the month. *)
Lemma n_day_spec y m d cd hh mm ss :
  1 <= m <= 12 ->
  let f := n_day y m d cd hh mm ss in
  valid_ymd (f_y f) (f_m f) (f_d f) /\
  ymd_ord (f_y f) (f_m f) (f_d f) = ymd_ord y m d + cd /\
  f_hh f = hh /\ f_mm f = mm /\ f_ss f = ss.
Proof.
  intros Hm. unfold n_day. pose proof (n_day_era_spec y m d cd) as E.
  destruct (n_day_era y m d cd) as [ey d1]. destruct E as [B1 S1].
  pose proof (n_day_years_spec ey m d1 B1) as Y.
  destruct (n_day_years ey m d1) as [ey2 d2]. destruct Y as [B2 S2].
  pose proof (month_loop_spec ey2 m d2 Hm B2) as M.
  destruct (if d2 >? 28 then _ else _) as [[ey3 m3] d3]. destruct M as [V3 S3].
  cbn [f_y f_m f_d f_hh f_mm f_ss].
  assert (Hy : y = 400 * Z.quot y 400 + Z.rem y 400) by apply quot_rem_eq.
  set (oey := Z.rem y 400) in *. set (q := Z.quot y 400) in *.
  replace (y + (ey3 - oey)) with (ey3 + 400 * q) by lia.
  destruct V3 as [Hm3 Hd3]. split; [|split; [|auto]].
  - unfold valid_ymd. rewrite days_per_month_shift. auto.
  - rewrite !ymd_ord_month by assumption. unfold month_pos in *. cbn [fst snd] in *.
    rewrite year_shift. replace (y + (ey - oey)) with (ey + 400 * q) in S1 by lia.
    rewrite year_shift in S1. lia.
Qed.

(** ** Normalization of the larger units *)

(** The month [m] counted from January of [y], brought into 1..12. *)
Definition norm_year (y m : Z) : Z := y + (m - 1) / 12.
Definition norm_month (m : Z) : Z := (m - 1) mod 12 + 1.

Lemma norm_month_range m : 1 <= norm_month m <= 12.
Proof. unfold norm_month. zlia. Qed.

Lemma norm_id y m : 1 <= m <= 12 -> norm_year y m = y /\ norm_month m = m.
Proof. unfold norm_year, norm_month. intros. zlia. Qed.

Lemma n_mon_n_day y m d cd hh mm ss :
  n_mon y m d cd hh mm ss = n_day (norm_year y m) (norm_month m) d cd hh mm ss.
Proof.
  unfold n_mon, norm_year, norm_month.
  destruct (negb (m =? 12)) eqn:E; zbool.
  - destruct (Z.rem m 12 <=? 0) eqn:E1; zbool; f_equal; zlia.
  - subst. f_equal. change ((12 - 1) / 12) with 0. lia.
Qed.

(** Days of un-normalized fields, and the count of each unit up to them. *)
Definition raw_ord (y m d : Z) : Z := ymd_ord (norm_year y m) (norm_month m) d.

Lemma raw_ord_valid y m d : 1 <= m <= 12 -> raw_ord y m d = ymd_ord y m d.
Proof. intros Hm. unfold raw_ord. now destruct (norm_id y m Hm) as [-> ->]. Qed.

Lemma ymd_ord_add y m d k : 1 <= m <= 12 -> ymd_ord y m (d + k) = ymd_ord y m d + k.
Proof. intros. rewrite !ymd_ord_month by assumption. lia. Qed.

Lemma raw_ord_add y m d k : raw_ord y m (d + k) = raw_ord y m d + k.
Proof. unfold raw_ord. apply ymd_ord_add, norm_month_range. Qed.

Lemma n_mon_spec y m d cd hh mm ss :
  let f := n_mon y m d cd hh mm ss in
  valid_ymd (f_y f) (f_m f) (f_d f) /\ ord f = raw_ord y m d + cd /\
  f_hh f = hh /\ f_mm f = mm /\ f_ss f = ss.
Proof. rewrite n_mon_n_day. apply n_day_spec, norm_month_range. Qed.

(** Splitting off a unit with truncating division and fixing up a negative remainder. *)
Lemma carry_spec (c v k : Z) :
  0 < k ->
  let '(c', v') := if Z.rem v k <? 0 then (c + Z.quot v k - 1, Z.rem v k + k)
                   else (c + Z.quot v k, Z.rem v k) in
  0 <= v' < k /\ c' * k + v' = c * k + v.
Proof.
  intros Hk. pose proof (quot_rem_eq v k). pose proof (Z.rem_bound_abs v k ltac:(lia)).
  destruct (Z.rem v k <? 0) eqn:E; zbool; split; nia.
Qed.

Lemma n_hour_spec y m d cd hh mm ss :
  let f := n_hour y m d cd hh mm ss in
  valid_ymd (f_y f) (f_m f) (f_d f) /\ 0 <= f_hh f < 24 /\
  ord f * 24 + f_hh f = (raw_ord y m d + cd) * 24 + hh /\ f_mm f = mm /\ f_ss f = ss.
Proof.
  unfold n_hour. pose proof (carry_spec cd hh 24 ltac:(lia)) as C.
  destruct (if Z.rem hh 24 <? 0 then _ else _) as [cd' hh']. destruct C as [C1 C2].
  destruct (n_mon_spec y m d cd' hh' mm ss) as (V & O & -> & -> & ->). rewrite O.
  repeat split; try apply V; lia.
Qed.

Lemma n_min_spec y m d hh ch mm ss :
  let f := n_min y m d hh ch mm ss in
  valid_ymd (f_y f) (f_m f) (f_d f) /\ 0 <= f_hh f < 24 /\ 0 <= f_mm f < 60 /\
  (ord f * 24 + f_hh f) * 60 + f_mm f = (raw_ord y m d * 24 + hh + ch) * 60 + mm /\ f_ss f = ss.
Proof.
  unfold n_min. pose proof (carry_spec ch mm 60 ltac:(lia)) as C.
  destruct (if Z.rem mm 60 <? 0 then _ else _) as [ch' mm']. destruct C as [C1 C2].
  match goal with |- context [n_hour y m d ?c ?h mm' ss] =>
    destruct (n_hour_spec y m d c h mm' ss) as (V & H1 & O & -> & ->) end.
  repeat split; try apply V; try lia.
  pose proof (quot_rem_eq hh 24). pose proof (quot_rem_eq ch' 24). lia.
Qed.

(** The second that un-normalized fields denote. *)
Definition raw_sec (y m d hh mm ss : Z) : Z := ((raw_ord y m d * 24 + hh) * 60 + mm) * 60 + ss.

Lemma n_sec_spec y m d hh mm ss :
  valid_fields (n_sec y m d hh mm ss) /\
  sec_ord (n_sec y m d hh mm ss) = raw_sec y m d hh mm ss.
Proof.
  unfold n_sec, valid_fields, sec_ord, raw_sec.
  destruct ((0 <=? ss) && (ss <? 60)) eqn:Es; [zbool; destruct ((0 <=? mm) && (mm <? 60)) eqn:Em;
    [zbool; destruct ((0 <=? hh) && (hh <? 24)) eqn:Eh;
     [zbool; destruct ((1 <=? d) && (d <=? 28) && (1 <=? m) && (m <=? 12)) eqn:Ed|]|]|].
  - zbool. cbn [f_y f_m f_d f_hh f_mm f_ss]. unfold ord. cbn [f_y f_m f_d].
    rewrite raw_ord_valid by lia. pose proof (days_per_month_range y m ltac:(lia)).
    unfold valid_ymd. repeat split; lia.
  - destruct (n_mon_spec y m d 0 hh mm ss) as (V & O & -> & -> & ->). rewrite O.
    repeat split; try apply V; lia.
  - destruct (n_hour_spec y m d (Z.quot hh 24) (Z.rem hh 24) mm ss) as (V & R1 & O & -> & ->).
    pose proof (quot_rem_eq hh 24). repeat split; try apply V; lia.
  - destruct (n_min_spec y m d hh (Z.quot mm 60) (Z.rem mm 60) ss) as (V & R1 & R2 & O & ->).
    pose proof (quot_rem_eq mm 60). zbool. repeat split; try apply V; lia.
  - pose proof (carry_spec 0 ss 60 ltac:(lia)) as C. rewrite !Z.add_0_l in C.
    destruct (if Z.rem ss 60 <? 0 then _ else _) as [cm ss']. destruct C as [C1 C2].
    match goal with |- context [n_min y m d hh ?c ?q ss'] =>
      destruct (n_min_spec y m d hh c q ss') as (V & R1 & R2 & O & ->) end.
    pose proof (quot_rem_eq mm 60). pose proof (quot_rem_eq cm 60).
    repeat split; try apply V; lia.
Qed.

(** ** Order and uniqueness of dates *)

(** Months numbered from January of year 0. *)
Definition month_at (n : Z) : Z * Z := (n / 12, n mod 12 + 1).

Lemma month_at_succ n : month_at (n + 1) = adv_month (month_at n).
Proof. unfold month_at, adv_month. destruct (n mod 12 + 1 + 1 >? 12) eqn:E; zbool; f_equal; zlia. Qed.

Lemma month_at_index y m : 1 <= m <= 12 -> month_at (12 * y + m - 1) = (y, m).
Proof. intros. unfold month_at. f_equal; zlia. Qed.

Lemma month_pos_mono n k :
  let len := days_per_month (fst (month_at n)) (snd (month_at n)) in
  0 <= k -> month_pos (month_at n) + len <= month_pos (month_at (n + 1 + k)).
Proof.
  intros len. revert k. apply natlike_ind.
  - rewrite Z.add_0_r, month_at_succ. unfold len, month_at at 1 2 3 4.
    destruct (adv_month_pos (n / 12) (n mod 12 + 1)) as [-> _]; cbn [fst snd]; zlia.
  - intros k Hk IH. replace (n + 1 + Z.succ k) with (n + 1 + k + 1) by lia.
    rewrite month_at_succ. set (n' := n + 1 + k) in *. unfold month_at at 2.
    destruct (adv_month_pos (n' / 12) (n' mod 12 + 1)) as [-> _]; [zlia|].
    change (n' / 12, n' mod 12 + 1) with (month_at n').
    pose proof (days_per_month_range (n' / 12) (n' mod 12 + 1) ltac:(zlia)). lia.
Qed.

(** An earlier date has a smaller day number. *)
Lemma ymd_ord_lt y1 m1 d1 y2 m2 d2 :
  valid_ymd y1 m1 d1 -> valid_ymd y2 m2 d2 ->
  y1 < y2 \/ (y1 = y2 /\ (m1 < m2 \/ (m1 = m2 /\ d1 < d2))) ->
  ymd_ord y1 m1 d1 < ymd_ord y2 m2 d2.
Proof.
  intros [M1 D1] [M2 D2] L. rewrite !ymd_ord_month by assumption.
  destruct (Z.eq_dec (12 * y1 + m1) (12 * y2 + m2)) as [E|N].
  - assert (y1 = y2 /\ m1 = m2) as [-> ->] by lia. lia.
  - pose proof (month_pos_mono (12 * y1 + m1 - 1) (12 * y2 + m2 - 1 - (12 * y1 + m1))) as H.
    replace (12 * y1 + m1 - 1 + 1 + (12 * y2 + m2 - 1 - (12 * y1 + m1)))
      with (12 * y2 + m2 - 1) in H by lia.
    rewrite !month_at_index in H by assumption. cbn [fst snd] in H. lia.
Qed.

Lemma ymd_ord_inj y1 m1 d1 y2 m2 d2 :
  valid_ymd y1 m1 d1 -> valid_ymd y2 m2 d2 -> ymd_ord y1 m1 d1 = ymd_ord y2 m2 d2 ->
  y1 = y2 /\ m1 = m2 /\ d1 = d2.
Proof.
  intros V1 V2 E.
  pose proof (ymd_ord_lt _ _ _ _ _ _ V1 V2). pose proof (ymd_ord_lt _ _ _ _ _ _ V2 V1).
  destruct (Z_dec y1 y2) as [[|]|]; [lia..|]. destruct (Z_dec m1 m2) as [[|]|]; [lia..|].
  destruct (Z_dec d1 d2) as [[|]|]; lia.
Qed.

Lemma sec_ord_inj f1 f2 : valid_fields f1 -> valid_fields f2 -> sec_ord f1 = sec_ord f2 -> f1 = f2.
Proof.
  destruct f1 as [y1 m1 d1 h1 n1 s1], f2 as [y2 m2 d2 h2 n2 s2].
  unfold valid_fields, sec_ord, ord. cbn [f_y f_m f_d f_hh f_mm f_ss].
  intros (V1 & ?) (V2 & ?) E.
  destruct (ymd_ord_inj y1 m1 d1 y2 m2 d2 V1 V2) as (-> & -> & ->); [lia|].
  f_equal; lia.
Qed.

(** Normalized fields are ordered as the seconds they denote. *)
Lemma sec_ord_lt f1 f2 :
  valid_fields f1 -> valid_fields f2 -> civil_ltb f1 f2 = true -> sec_ord f1 < sec_ord f2.
Proof.
  destruct f1 as [y1 m1 d1 h1 n1 s1], f2 as [y2 m2 d2 h2 n2 s2].
  unfold valid_fields, sec_ord, ord, civil_ltb. cbn [f_y f_m f_d f_hh f_mm f_ss].
  intros (V1 & ?) (V2 & ?) L. pose proof (ymd_ord_lt _ _ _ _ _ _ V1 V2) as H1.
  repeat rewrite ?orb_true_iff, ?andb_true_iff, ?Z.ltb_lt, ?Z.eqb_eq in L.
  destruct L as [L|[-> [L|[-> [L|[-> L]]]]]]; try (specialize (H1 ltac:(auto)); lia). lia.
Qed.

Lemma civil_eqb_eq f1 f2 : civil_eqb f1 f2 = true <-> f1 = f2.
Proof.
  destruct f1, f2. unfold civil_eqb. cbn [f_y f_m f_d f_hh f_mm f_ss].
  repeat rewrite ?andb_true_iff, ?Z.eqb_eq. split; [intuition congruence|now intros [= -> -> -> -> -> ->]].
Qed.

Lemma civil_trichotomy f1 f2 : civil_ltb f1 f2 = false -> civil_ltb f2 f1 = false -> f1 = f2.
Proof.
  destruct f1 as [y1 m1 d1 h1 n1 s1], f2 as [y2 m2 d2 h2 n2 s2].
  unfold civil_ltb. cbn [f_y f_m f_d f_hh f_mm f_ss]. intros A B.
  repeat rewrite ?orb_false_iff, ?andb_false_iff, ?Z.ltb_ge, ?Z.eqb_neq in A, B.
  f_equal; lia.
Qed.

Lemma civil_ltb_sec f1 f2 :
  valid_fields f1 -> valid_fields f2 -> civil_ltb f1 f2 = (sec_ord f1 <? sec_ord f2).
Proof.
  intros V1 V2. symmetry. destruct (civil_ltb f1 f2) eqn:E.
  - apply Z.ltb_lt. now apply sec_ord_lt.
  - apply Z.ltb_ge. destruct (civil_ltb f2 f1) eqn:E2.
    + apply Z.lt_le_incl. now apply sec_ord_lt.
    + rewrite (civil_trichotomy f1 f2) by assumption. lia.
Qed.

(** ** Differences *)
Lemma scale_add_eq v f a : scale_add v f a = v * f + a.
Proof. unfold scale_add. case_if; ring. Qed.

Lemma ymd_ord_rem y m d :
  1 <= m <= 12 -> ymd_ord (Z.rem y 400) m d = ymd_ord y m d - 146097 * Z.quot y 400.
Proof.
  intros Hm. rewrite !ymd_ord_closed by assumption.
  replace (eyear y m) with (eyear (Z.rem y 400 + 400 * Z.quot y 400) m)
    by (f_equal; pose proof (quot_rem_eq y 400); lia).
  rewrite year_shift. lia.
Qed.

Lemma day_difference_eq y1 m1 d1 y2 m2 d2 :
  1 <= m1 <= 12 -> 1 <= m2 <= 12 ->
  day_difference y1 m1 d1 y2 m2 d2 = ymd_ord y1 m1 d1 - ymd_ord y2 m2 d2.
Proof.
  intros M1 M2. unfold day_difference. rewrite !ymd_ord_rem by assumption.
  pose proof (quot_rem_eq y1 400) as E1. pose proof (quot_rem_eq y2 400) as E2.
  set (q1 := Z.quot y1 400) in *. set (q2 := Z.quot y2 400) in *.
  replace (y1 - Z.rem y1 400 - (y2 - Z.rem y2 400)) with ((q1 - q2) * 400) by lia.
  destruct (((q1 - q2) * 400 >? 0) && _); [|destruct (((q1 - q2) * 400 <? 0) && _)].
  - replace ((q1 - q2) * 400 - 2 * 400) with ((q1 - q2 - 2) * 400) by lia.
    rewrite Z.quot_mul by lia. lia.
  - replace ((q1 - q2) * 400 + 2 * 400) with ((q1 - q2 + 2) * 400) by lia.
    rewrite Z.quot_mul by lia. lia.
  - rewrite Z.quot_mul by lia. lia.
Qed.

(** ** Well-formed civil times: normalized, and aligned to their tag *)
Definition wf_civil (c : civil_time) : Prop :=
  valid_fields (ct_f c) /\ align (ct_tag c) (ct_f c) = ct_f c.

(** The number of units of each tag since the epoch of that unit. *)
Definition units (t : tag) (f : fields) : Z :=
  match t with
  | year_tag => f_y f
  | month_tag => 12 * f_y f + f_m f
  | day_tag => ord f
  | hour_tag => ord f * 24 + f_hh f
  | minute_tag => (ord f * 24 + f_hh f) * 60 + f_mm f
  | second_tag => sec_ord f
  end.

Lemma difference_units t f1 f2 :
  valid_fields f1 -> valid_fields f2 -> difference t f1 f2 = units t f1 - units t f2.
Proof.
  intros [[M1 _] _] [[M2 _] _]. destruct t; cbn [difference units];
    unfold difference_second, difference_minute, difference_hour, difference_day,
      difference_month, difference_year, sec_ord, ord;
    rewrite ?scale_add_eq, ?day_difference_eq by assumption; lia.
Qed.

(** Aligned fields are determined by their unit count. *)
Lemma units_inj t f1 f2 :
  wf_civil (mk_civil t f1) -> wf_civil (mk_civil t f2) -> units t f1 = units t f2 -> f1 = f2.
Proof.
  intros [V1 A1] [V2 A2] E. cbn [ct_tag ct_f] in *. apply sec_ord_inj; try assumption.
  pose proof V1 as ((? & ?) & ?). pose proof V2 as ((? & ?) & ?).
  destruct t; cbn [units align] in *; [exact E|..];
    rewrite <- A1, <- A2 in E |- *; unfold sec_ord, ord in *;
    cbn [f_y f_m f_d f_hh f_mm f_ss] in *; try lia.
  - assert (f_y f1 = f_y f2 /\ f_m f1 = f_m f2) as [-> ->] by lia. reflexivity.
  - rewrite E. reflexivity.
Qed.

Lemma align_valid t f : valid_fields f -> valid_fields (align t f).
Proof.
  intros ((M & D) & ?). pose proof (days_per_month_range (f_y f) 1 ltac:(lia)).
  destruct t; unfold valid_fields, valid_ymd; cbn [align f_y f_m f_d f_hh f_mm f_ss];
    repeat split; lia.
Qed.

Lemma align_idem t f : align t (align t f) = align t f.
Proof. destruct t; reflexivity. Qed.

Lemma of_fields_wf t f : valid_fields f -> wf_civil (of_fields t f).
Proof. intros V. split; cbn [ct_tag ct_f of_fields]; [now apply align_valid|apply align_idem]. Qed.

Lemma units_align t f : 1 <= f_m f <= 12 -> units t (align t f) = units t f.
Proof. intros. destruct t; cbn [units align f_y f_m f_d f_hh f_mm f_ss]; try reflexivity;
  unfold ord; cbn [f_y f_m f_d]; reflexivity. Qed.

(** A step of [n] units keeps the fields normalized and moves the unit count by [n]. *)
Lemma step_units t f n :
  wf_civil (mk_civil t f) -> valid_fields (step t f n) /\ units t (step t f n) = units t f + n.
Proof.
  intros [V A]. cbn [ct_tag ct_f] in *. pose proof V as ((M & D) & H24 & H60 & HS).
  destruct t; cbn [step units align] in *.
  - destruct (n_sec_spec (f_y f) (f_m f) (f_d f) (f_hh f) (f_mm f + Z.quot n 60) (f_ss f + Z.rem n 60))
      as [V' ->]. split; [exact V'|]. unfold raw_sec, sec_ord, ord. rewrite raw_ord_valid by exact M.
    pose proof (quot_rem_eq n 60). lia.
  - destruct (n_min_spec (f_y f) (f_m f) (f_d f) (f_hh f + Z.quot n 60) 0 (f_mm f + Z.rem n 60) (f_ss f))
      as (V' & R1 & R2 & O & E). rewrite O. unfold valid_fields. rewrite E.
    rewrite raw_ord_valid by exact M. pose proof (quot_rem_eq n 60). unfold ord.
    repeat split; try apply V'; lia.
  - destruct (n_hour_spec (f_y f) (f_m f) (f_d f + Z.quot n 24) 0 (f_hh f + Z.rem n 24) (f_mm f) (f_ss f))
      as (V' & R1 & O & E1 & E2). rewrite O. unfold valid_fields. rewrite E1, E2.
    rewrite raw_ord_add, raw_ord_valid by exact M. pose proof (quot_rem_eq n 24). unfold ord.
    repeat split; try apply V'; lia.
  - destruct (n_day_spec (f_y f) (f_m f) (f_d f) n (f_hh f) (f_mm f) (f_ss f) M)
      as (V' & O & E0 & E1 & E2). unfold valid_fields, ord. rewrite E0, E1, E2, O.
    repeat split; try apply V'; lia.
  - rewrite n_mon_n_day. set (y' := norm_year _ _). set (m' := norm_month _).
    assert (M' : 1 <= m' <= 12) by apply norm_month_range.
    destruct (n_day_spec y' m' (f_d f) 0 (f_hh f) (f_mm f) (f_ss f) M')
      as (V' & O & E0 & E1 & E2). unfold valid_fields. rewrite E0, E1, E2.
    assert (Ed : f_d f = 1) by (rewrite <- A; reflexivity). rewrite Ed in *.
    assert (V1 : valid_ymd y' m' 1)
      by (pose proof (days_per_month_range y' m' M'); unfold valid_ymd; lia).
    destruct (ymd_ord_inj _ _ _ _ _ _ V' V1 ltac:(lia)) as (-> & -> & ->).
    repeat split; try apply V1; try lia.
    unfold y', m', norm_year, norm_month. pose proof (quot_rem_eq n 12). zlia.
  - cbn [f_y f_m f_d f_hh f_mm f_ss]. split; [|lia].
    assert (Em : f_m f = 1 /\ f_d f = 1) by (rewrite <- A; split; reflexivity).
    destruct Em as [Em Ed]. pose proof (days_per_month_range (f_y f + n) 1 ltac:(lia)).
    unfold valid_fields, valid_ymd. cbn [f_y f_m f_d f_hh f_mm f_ss]. rewrite Em, Ed.
    repeat split; lia.
Qed.

Lemma civil_add_units a n :
  wf_civil a ->
  wf_civil (civil_add a n) /\ ct_tag (civil_add a n) = ct_tag a /\
  units (ct_tag a) (ct_f (civil_add a n)) = units (ct_tag a) (ct_f a) + n.
Proof.
  destruct a as [t f]. intros W. destruct (step_units t f n W) as [V U].
  unfold civil_add. cbn [ct_tag ct_f]. split; [now apply of_fields_wf|split; [reflexivity|]].
  cbn [of_fields ct_f]. rewrite units_align; [exact U|apply V].
Qed.

Lemma civil_eq_units a b :
  wf_civil a -> wf_civil b -> ct_tag a = ct_tag b ->
  units (ct_tag a) (ct_f a) = units (ct_tag a) (ct_f b) -> a = b.
Proof.
  destruct a as [t f], b as [t' g]. cbn [ct_tag ct_f]. intros Wa Wb <- E. f_equal.
  now apply (units_inj t).
Qed.

(** ** Weekdays and days of the year *)
Lemma get_weekday_index cs :
  valid_fields cs -> weekday_index (get_weekday cs) = (ord cs + 3) mod 7.
Proof.
  intros ((M & D) & _). unfold ord. rewrite ymd_ord_closed by assumption.
  pose proof (days_per_month_range (f_y cs) (f_m cs) M) as R. unfold get_weekday.
  set (w := 2400 + Z.rem (f_y cs) 400 - Z.b2z (f_m cs <? 3)).
  pose proof (quot_rem_eq (f_y cs) 400) as Ey.
  pose proof (Z.rem_bound_abs (f_y cs) 400 ltac:(lia)) as By.
  assert (Ew : w = eyear (f_y cs) (f_m cs) + 400 * (6 - Z.quot (f_y cs) 400) /\ 2000 <= w)
    by (unfold w, eyear; destruct (f_m cs <? 3) eqn:?, (f_m cs <=? 2) eqn:?; zbool; cbn [Z.b2z]; lia).
  destruct Ew as [Ew Hw]. rewrite !quot_pos by lia.
  set (o := nth (Z.to_nat (f_m cs)) k_weekday_offsets 0 + f_d cs).
  assert (Eo : 0 <= o /\ (o + 6) mod 7 = (month_days (f_m cs) + f_d cs - 719469 + 3) mod 7)
    by (clear -D M; unfold o, month_days; destruct cs as [y m d hh mm ss]; cbn [f_m f_d f_y] in *;
        month_cases m; eval_tables; cbn [Z.gtb Z.compare Pos.compare Pos.compare_cont];
        (split; [lia|zlia])).
  destruct Eo as [Ho Eo]. set (x := w + (w / 4 - w / 100 + w / 400) + o).
  assert (Hx : 0 <= x) by (unfold x; zlia). rewrite Z.rem_mod_nonneg by lia.
  transitivity ((x + 6) mod 7).
  - rewrite Z.add_mod by lia. pose proof (Z.mod_pos_bound x 7 ltac:(lia)) as Bx.
    set (r := x mod 7) in *. clearbody r. clear -Bx.
    assert (r = 0 \/ r = 1 \/ r = 2 \/ r = 3 \/ r = 4 \/ r = 5 \/ r = 6) as C by lia.
    destruct C as [->|[->|[->|[->|[->|[->| ->]]]]]]; reflexivity.
  - unfold x, year_days. set (md := month_days (f_m cs)) in *. set (e := eyear _ _) in *.
    clearbody md e o w. subst w. clear -Eo.
    replace ((e + 400 * (6 - Z.quot (f_y cs) 400)) / 4) with (e / 4 + 100 * (6 - Z.quot (f_y cs) 400)) by zlia.
    replace ((e + 400 * (6 - Z.quot (f_y cs) 400)) / 100) with (e / 100 + 4 * (6 - Z.quot (f_y cs) 400)) by zlia.
    replace ((e + 400 * (6 - Z.quot (f_y cs) 400)) / 400) with (e / 400 + (6 - Z.quot (f_y cs) 400)) by zlia.
    zlia.
Qed.

Lemma weekday_index_inj a b : weekday_index a = weekday_index b -> a = b.
Proof. destruct a, b; cbn; congruence. Qed.

Lemma weekday_distance_forw a b :
  exists n, weekday_distance k_weekdays_forw a b = Some n /\ 1 <= n <= 7 /\
            (weekday_index a + n) mod 7 = weekday_index b.
Proof. destruct a, b; (eexists; split; [vm_compute; reflexivity|split; [lia|reflexivity]]). Qed.

Lemma weekday_distance_back a b :
  exists n, weekday_distance k_weekdays_back a b = Some n /\ 1 <= n <= 7 /\
            (weekday_index a - n) mod 7 = weekday_index b.
Proof. destruct a, b; (eexists; split; [vm_compute; reflexivity|split; [lia|reflexivity]]). Qed.

(** The sub-unit fields keep their first values. *)
Lemma step_aligned t f n : wf_civil (mk_civil t f) -> align t (step t f n) = step t f n.
Proof.
  intros [V A]. cbn [ct_tag ct_f] in *. pose proof V as ((M & D) & _).
  destruct t; cbn [step align] in *; [reflexivity|..].
  - destruct (n_min_spec (f_y f) (f_m f) (f_d f) (f_hh f + Z.quot n 60) 0 (f_mm f + Z.rem n 60) (f_ss f))
      as (_ & _ & _ & _ & E). rewrite <- A in E at 7. cbn [f_ss] in E.
    destruct (n_min _ _ _ _ _ _ _). cbn in *. now rewrite E.
  - destruct (n_hour_spec (f_y f) (f_m f) (f_d f + Z.quot n 24) 0 (f_hh f + Z.rem n 24) (f_mm f) (f_ss f))
      as (_ & _ & _ & E1 & E2).
    assert (f_mm f = 0 /\ f_ss f = 0) as [Z1 Z2] by (rewrite <- A; split; reflexivity).
    destruct (n_hour _ _ _ _ _ _ _). cbn in *. congruence.
  - destruct (n_day_spec (f_y f) (f_m f) (f_d f) n (f_hh f) (f_mm f) (f_ss f) M) as (_ & _ & E0 & E1 & E2).
    assert (f_hh f = 0 /\ f_mm f = 0 /\ f_ss f = 0) as (Z0 & Z1 & Z2)
      by (rewrite <- A; repeat split; reflexivity).
    destruct (n_day _ _ _ _ _ _ _). cbn in *. congruence.
  - assert (Z4 : f_d f = 1 /\ f_hh f = 0 /\ f_mm f = 0 /\ f_ss f = 0)
      by (rewrite <- A; repeat split; reflexivity). destruct Z4 as (Zd & Z0 & Z1 & Z2).
    rewrite n_mon_n_day. set (y' := norm_year _ _). set (m' := norm_month _).
    assert (M' : 1 <= m' <= 12) by apply norm_month_range.
    destruct (n_day_spec y' m' (f_d f) 0 (f_hh f) (f_mm f) (f_ss f) M') as (V' & O & E0 & E1 & E2).
    assert (V1 : valid_ymd y' m' 1)
      by (pose proof (days_per_month_range y' m' M'); unfold valid_ymd; lia).
    rewrite Zd in *. destruct (ymd_ord_inj _ _ _ _ _ _ V' V1 ltac:(lia)) as (_ & _ & E).
    destruct (n_day _ _ _ _ _ _ _). cbn in *. congruence.
  - rewrite <- A. reflexivity.
Qed.

Lemma step_wf t f n : wf_civil (mk_civil t f) -> wf_civil (mk_civil t (step t f n)).
Proof.
  intros W. split; cbn [ct_tag ct_f]; [now apply step_units|now apply step_aligned].
Qed.

Lemma civil_sub_add a n : wf_civil a -> civil_sub a n = civil_add a (- n).
Proof.
  intros W. unfold civil_sub. destruct (negb (n =? - 2 ^ 63)) eqn:E; [reflexivity|].
  destruct a as [t f]. unfold civil_add, of_fields. cbn [ct_tag ct_f].
  pose proof (step_wf t f (- (n + 1)) W) as W1. pose proof (step_wf t _ 1 W1) as W2.
  pose proof (step_wf t f (- n) W) as W3. f_equal. f_equal.
  apply (units_inj t); try assumption.
  rewrite (proj2 (step_units t _ 1 W1)), (proj2 (step_units t f _ W)), (proj2 (step_units t f _ W)). lia.
Qed.

Lemma get_yearday_ord cs :
  valid_fields cs -> get_yearday cs = ord cs - ymd_ord (f_y cs) 1 1 + 1.
Proof.
  intros ((M & D) & _). unfold ord, get_yearday. rewrite !ymd_ord_closed by lia.
  destruct cs as [y m d hh mm ss]. cbn [f_y f_m f_d] in *. clear D.
  pose proof (year_days_succ (y - 1)) as Y. replace (y - 1 + 1) with y in Y by lia.
  month_cases m; unfold eyear, month_days; eval_tables; cbn [Z.gtb Z.leb Z.compare Pos.compare Pos.compare_cont andb];
    revert Y; destruct (is_leap_year y); cbn [Z.b2z]; intros Y; zlia.
Qed.

(** ** The 64-bit differences *)
(** Discharge the checks of a 64-bit computation one by one. *)
Ltac run64 tac :=
  repeat (rewrite checked_in by (apply in_s64_iff; tac); cbn [obind]).

Lemma scale_add64_exact v f a :
  0 < f <= 60 -> - f < a < f -> in_s 64 (v * f + a) ->
  scale_add64 v f a = Some (v * f + a) /\ in_s 64 v.
Proof.
  intros Hf Ha Hv. rewrite !in_s64_iff in *. unfold scale_add64.
  split; [|nia]. destruct (v <? 0) eqn:E; zbool; run64 nia; f_equal; ring.
Qed.

Lemma ymd_ord64_exact y m d :
  - 400 < y < 400 -> 1 <= m <= 12 -> 1 <= d <= 31 -> ymd_ord64 y m d = Some (ymd_ord y m d).
Proof.
  intros Hy Hm Hd. unfold ymd_ord64, ymd_ord.
  replace (if m <=? 2 then checked 64 (y - 1) else Some y)
    with (Some (if m <=? 2 then y - 1 else y)) by (case_if; run64 lia; reflexivity).
  cbn [obind]. set (e := if m <=? 2 then y - 1 else y).
  assert (He : - 400 <= e < 400) by (unfold e; case_if; lia). clearbody e.
  replace (if e >=? 0 then Some e else checked 64 (e - 399))
    with (Some (if e >=? 0 then e else e - 399)) by (case_if; run64 lia; reflexivity).
  cbn [obind]. set (era := Z.quot _ 400).
  assert (Hera : -1 <= era <= 0 /\ 0 <= e - era * 400 < 400)
    by (unfold era; destruct (e >=? 0) eqn:?; zbool; zlia). clearbody era.
  set (doy := Z.quot _ 5).
  assert (Hdoy : 0 <= doy <= 400) by (unfold doy; destruct (m >? 2) eqn:?; zbool; zlia).
  clearbody doy. run64 lia.
  rewrite (checked_in 64 (_ + Z.quot _ 4 - _ + _)) by (apply in_s64_iff; zlia). cbn [obind].
  set (doe := _ * 365 + _ - _ + _). assert (0 <= doe < 1000000) by (unfold doe; zlia).
  clearbody doe. run64 lia. reflexivity.
Qed.

Lemma ymd_ord_rem_bound y m d :
  - 400 < y < 400 -> valid_ymd y m d -> -865260 < ymd_ord y m d < -573431.
Proof.
  intros Hy V. pose proof V as [M D]. pose proof (days_per_month_range y m M) as R.
  assert (B1 : valid_ymd (-400) 12 31) by (vm_compute; repeat split; congruence).
  assert (B2 : valid_ymd 400 1 1) by (vm_compute; repeat split; congruence).
  pose proof (ymd_ord_lt _ _ _ _ _ _ B1 V ltac:(lia)) as L1.
  pose proof (ymd_ord_lt _ _ _ _ _ _ V B2 ltac:(lia)) as L2.
  change (ymd_ord (-400) 12 31) with (-865260) in L1. change (ymd_ord 400 1 1) with (-573431) in L2.
  lia.
Qed.

Lemma valid_rem y m d : valid_ymd y m d -> valid_ymd (Z.rem y 400) m d.
Proof.
  intros [M D]. split; [exact M|]. pose proof (quot_rem_eq y 400).
  rewrite <- (days_per_month_shift _ m (Z.quot y 400)).
  now replace (Z.rem y 400 + 400 * Z.quot y 400) with y by lia.
Qed.

Lemma day_difference64_exact y1 m1 d1 y2 m2 d2 :
  valid_ymd y1 m1 d1 -> valid_ymd y2 m2 d2 -> in_s 64 y1 -> in_s 64 y2 ->
  in_s 64 (ymd_ord y1 m1 d1 - ymd_ord y2 m2 d2) ->
  day_difference64 y1 m1 d1 y2 m2 d2 = Some (ymd_ord y1 m1 d1 - ymd_ord y2 m2 d2).
Proof.
  intros V1 V2 I1 I2 ID. rewrite in_s64_iff in *.
  pose proof (valid_rem _ _ _ V1) as R1. pose proof (valid_rem _ _ _ V2) as R2.
  pose proof (Z.rem_bound_abs y1 400 ltac:(lia)) as A1.
  pose proof (Z.rem_bound_abs y2 400 ltac:(lia)) as A2.
  pose proof (ymd_ord_rem_bound (Z.rem y1 400) m1 d1 ltac:(lia) R1) as O1.
  pose proof (ymd_ord_rem_bound (Z.rem y2 400) m2 d2 ltac:(lia) R2) as O2.
  destruct V1 as [M1 D1], V2 as [M2 D2].
  pose proof (days_per_month_range y1 m1 M1). pose proof (days_per_month_range y2 m2 M2).
  pose proof (Z.quot_rem' y1 400) as Q1. pose proof (Z.quot_rem' y2 400) as Q2.
  assert (C1 : - 9223372036854775808 <= y1 - Z.rem y1 400 < 9223372036854775808)
    by (clear -I1; zlia).
  assert (C2 : - 9223372036854775808 <= y2 - Z.rem y2 400 < 9223372036854775808)
    by (clear -I2; zlia).
  unfold day_difference64. rewrite !ymd_ord64_exact by lia.
  rewrite (ymd_ord_rem y1) in * by assumption. rewrite (ymd_ord_rem y2) in * by assumption.
  set (o1 := ymd_ord y1 m1 d1) in *. set (o2 := ymd_ord y2 m2 d2) in *.
  set (q1 := Z.quot y1 400) in *. set (q2 := Z.quot y2 400) in *.
  replace (y1 - Z.rem y1 400) with (q1 * 400) in * by lia.
  replace (y2 - Z.rem y2 400) with (q2 * 400) in * by lia.
  clearbody o1 o2 q1 q2. clear Q1 Q2 R1 R2.
  run64 lia. replace (q1 * 400 - q2 * 400) with ((q1 - q2) * 400) by lia.
  destruct (((q1 - q2) * 400 >? 0) && _) eqn:E1; [|destruct (((q1 - q2) * 400 <? 0) && _) eqn:E2].
  - zbool. run64 lia. replace ((q1 - q2) * 400 - 2 * 400) with ((q1 - q2 - 2) * 400) by lia.
    cbn [obind]. rewrite Z.quot_mul by lia. run64 lia. f_equal. lia.
  - zbool. run64 lia. replace ((q1 - q2) * 400 + 2 * 400) with ((q1 - q2 + 2) * 400) by lia.
    cbn [obind]. rewrite Z.quot_mul by lia. run64 lia. f_equal. lia.
  - cbn [obind]. rewrite Z.quot_mul by lia. zbool. rewrite ?Z.ltb_ge, ?Z.gtb_ltb, ?Z.ltb_ge in *.
    run64 lia. f_equal. lia.
Qed.

(** ** Properties *)

(** Whatever the six arguments, the normalization in exact arithmetic returns the one date-time that lies the
    arguments' number of seconds from the epoch. *)
Lemma n_sec_exact y m d hh mm ss :
  valid_fields (n_sec y m d hh mm ss) /\
  sec_ord (n_sec y m d hh mm ss) = raw_sec y m d hh mm ss /\
  (forall f, valid_fields f -> sec_ord f = raw_sec y m d hh mm ss -> f = n_sec y m d hh mm ss).
Proof.
  destruct (n_sec_spec y m d hh mm ss) as [V E]. split; [exact V|]. split; [exact E|].
  intros f Vf Ef. apply sec_ord_inj; [exact Vf|exact V|congruence].
Qed.

(** The day number counts the days of the Gregorian calendar. *)
Lemma ymd_ord_counts_days :
  ymd_ord 1970 1 1 = 0 /\
  (forall y m d, valid_ymd y m d ->
     let '(y', m', d') := next_day (y, m, d) in
     valid_ymd y' m' d' /\ ymd_ord y' m' d' = ymd_ord y m d + 1) /\
  (forall y1 m1 d1 y2 m2 d2, valid_ymd y1 m1 d1 -> valid_ymd y2 m2 d2 ->
     ymd_ord y1 m1 d1 = ymd_ord y2 m2 d2 -> (y1, m1, d1) = (y2, m2, d2)).
Proof.
  split; [reflexivity|split].
  - intros y m d [M D]. unfold next_day. destruct (d <? days_per_month y m) eqn:E; zbool.
    + rewrite ymd_ord_add by assumption. unfold valid_ymd. lia.
    + destruct (adv_month_pos y m M) as [P B]. unfold adv_month in P, B.
      destruct (m + 1 >? 12) eqn:E1, (m <? 12) eqn:E2; zbool; try lia; cbn [snd] in B;
        [pose proof (days_per_month_range (y + 1) 1 ltac:(lia))
        |pose proof (days_per_month_range y (m + 1) ltac:(lia))];
        unfold valid_ymd; rewrite !ymd_ord_month by lia; split; try lia.
  - intros y1 m1 d1 y2 m2 d2 V1 V2 E.
    now destruct (ymd_ord_inj _ _ _ _ _ _ V1 V2 E) as (-> & -> & ->).
Qed.

(** Civil times of every alignment form a line of units: construction and conversion give
    well-formed values, adding [n] units keeps well-formedness and is undone by the difference,
    the difference added back gives the other operand, and subtraction (its special case for
    the most negative count included) is the addition of the opposite. *)
Lemma civil_arithmetic a b n :
  wf_civil a -> wf_civil b -> ct_tag a = ct_tag b ->
  wf_civil (civil_add a n) /\
  civil_diff (civil_add a n) a = n /\
  civil_add b (civil_diff a b) = a /\
  civil_sub a n = civil_add a (- n) /\
  civil_decr (civil_incr a) = a /\
  (forall t, wf_civil (convert t a)).
Proof.
  intros Wa Wb T. destruct (civil_add_units a n Wa) as (W1 & T1 & U1).
  split; [exact W1|]. split; [|split; [|split; [|split]]].
  - unfold civil_diff. rewrite T1, difference_units; [lia|apply W1|apply Wa].
  - destruct (civil_add_units b (civil_diff a b) Wb) as (W2 & T2 & U2).
    apply civil_eq_units; [exact W2|exact Wa|congruence|].
    rewrite T2, U2. unfold civil_diff. rewrite T, difference_units; [lia|apply Wa|apply Wb].
  - now apply civil_sub_add.
  - unfold civil_incr, civil_decr. destruct (civil_add_units a 1 Wa) as (W2 & T2 & U2).
    rewrite civil_sub_add by exact W2. destruct (civil_add_units _ (-(1)) W2) as (W3 & T3 & U3).
    apply civil_eq_units; [exact W3|exact Wa|congruence|].
    rewrite T3, U3, T2, U2. lia.
  - intros t. apply of_fields_wf, Wa.
Qed.

Lemma civil_arithmetic_witness :
  let a := make_civil day_tag 2024 2 30 25 61 61 in
  let b := make_civil day_tag 1969 12 31 0 0 0 in
  ct_f a = mk_fields 2024 3 2 0 0 0 /\ civil_diff a b = 19785 /\
  civil_add b (civil_diff a b) = a.
Proof.
  intros a b. split; [reflexivity|]. split; [reflexivity|].
  apply (civil_arithmetic a b 0); [| |reflexivity];
    (split; [|reflexivity]; vm_compute; repeat split; discriminate).
Defined.

(** Differences are computed without avoidable overflow.  For normalized fields with 64-bit
    years, whenever the number of units between them is a 64-bit value, every intermediate of
    the 64-bit computation is in range and the result is that number, in all six units. *)
Lemma difference64_exact t f1 f2 :
  valid_fields f1 -> valid_fields f2 -> in_s 64 (f_y f1) -> in_s 64 (f_y f2) ->
  in_s 64 (units t f1 - units t f2) ->
  difference64 t f1 f2 = Some (units t f1 - units t f2).
Proof.
  intros (V1 & H1) (V2 & H2) I1 I2 ID. unfold difference64.
  assert (DD : in_s 64 (ord f1 - ord f2) ->
    day_difference64 (f_y f1) (f_m f1) (f_d f1) (f_y f2) (f_m f2) (f_d f2) = Some (ord f1 - ord f2))
    by (intros; now apply day_difference64_exact).
  set (dd := day_difference64 _ _ _ _ _ _) in *. clearbody dd.
  set (o1 := ord f1) in *. set (o2 := ord f2) in *.
  assert (DH : in_s 64 (units hour_tag f1 - units hour_tag f2) ->
    (do d <- dd; scale_add64 d 24 (f_hh f1 - f_hh f2))
    = Some (units hour_tag f1 - units hour_tag f2)).
  { cbn [units]. fold o1 o2. intros I.
    destruct (scale_add64_exact (o1 - o2) 24 (f_hh f1 - f_hh f2)) as [E J]; [lia|lia| |].
    - rewrite in_s64_iff in *. lia.
    - rewrite (DD J). cbn [obind]. rewrite E. f_equal. lia. }
  set (dh := obind dd _) in *. clearbody dh.
  assert (DM : in_s 64 (units minute_tag f1 - units minute_tag f2) ->
    (do h <- dh; scale_add64 h 60 (f_mm f1 - f_mm f2))
    = Some (units minute_tag f1 - units minute_tag f2)).
  { cbn [units] in *. fold o1 o2 in DH |- *. intros I.
    destruct (scale_add64_exact (o1 * 24 + f_hh f1 - (o2 * 24 + f_hh f2)) 60 (f_mm f1 - f_mm f2))
      as [E J]; [lia|lia| |].
    - rewrite in_s64_iff in *. lia.
    - rewrite (DH J). cbn [obind]. rewrite E. f_equal. lia. }
  set (dm := obind dh _) in *. clearbody dm.
  destruct t; cbn [units] in *; fold o1 o2 in DH, DM, ID |- *.
  - unfold sec_ord in *. fold o1 o2 in ID |- *.
    destruct (scale_add64_exact ((o1 * 24 + f_hh f1) * 60 + f_mm f1 - ((o2 * 24 + f_hh f2) * 60 + f_mm f2))
                60 (f_ss f1 - f_ss f2)) as [E J]; [lia|lia| |].
    + rewrite in_s64_iff in *. lia.
    + rewrite (DM J). cbn [obind]. rewrite E. f_equal. lia.
  - auto.
  - auto.
  - auto.
  - destruct V1 as [M1 _], V2 as [M2 _].
    destruct (scale_add64_exact (f_y f1 - f_y f2) 12 (f_m f1 - f_m f2)) as [E J]; [lia|lia| |].
    + rewrite in_s64_iff in *. lia.
    + rewrite checked_in by exact J. cbn [obind]. rewrite E. f_equal. lia.
  - now apply checked_in.
Qed.

Lemma difference64_exact_witness :
  let f1 := mk_fields (2 ^ 63 - 1) 12 31 23 59 59 in
  let f2 := mk_fields (2 ^ 63 - 1) 1 1 0 0 0 in
  difference64 second_tag f1 f2 = Some 31535999 /\
  difference64 second_tag f1 f2 = Some (units second_tag f1 - units second_tag f2).
Proof.
  intros f1 f2. split; [vm_compute; reflexivity|].
  apply difference64_exact; vm_compute; repeat split; congruence.
Defined.

(** Weekdays advance daily, and the searches for a weekday end at the nearest one. *)
Lemma weekday_spec cd wd :
  wf_civil cd -> ct_tag cd = day_tag ->
  weekday_index (get_weekday (ct_f cd)) = (ord (ct_f cd) + 3) mod 7 /\
  (exists r n, next_weekday cd wd = Some r /\ wf_civil r /\ 1 <= n <= 7 /\
     ord (ct_f r) = ord (ct_f cd) + n /\ get_weekday (ct_f r) = wd) /\
  (exists r n, prev_weekday cd wd = Some r /\ wf_civil r /\ 1 <= n <= 7 /\
     ord (ct_f r) = ord (ct_f cd) - n /\ get_weekday (ct_f r) = wd).
Proof.
  intros W T. pose proof (get_weekday_index _ (proj1 W)) as G. split; [exact G|]. split.
  - destruct (weekday_distance_forw (get_weekday (ct_f cd)) wd) as (n & D & B & E).
    destruct (civil_add_units cd n W) as (W1 & _ & U). rewrite T in U. cbn [units] in U.
    unfold next_weekday. rewrite D. exists (civil_add cd n), n. repeat split; try apply W1; try lia.
    apply weekday_index_inj. rewrite get_weekday_index by apply W1. rewrite <- E, G, U. zlia.
  - destruct (weekday_distance_back (get_weekday (ct_f cd)) wd) as (n & D & B & E).
    destruct (civil_add_units cd (- n) W) as (W1 & _ & U). rewrite T in U. cbn [units] in U.
    unfold prev_weekday. rewrite D, civil_sub_add by exact W. exists (civil_add cd (- n)), n.
    repeat split; try apply W1; try lia.
    apply weekday_index_inj. rewrite get_weekday_index by apply W1. rewrite <- E, G, U. zlia.
Qed.

(** Day numbers and weekdays.  The day number computed by [ymd_ord] counts the days of the
    Gregorian calendar: it is 0 on 1970-01-01, the day after a valid date is valid and one higher,
    and different valid dates have different numbers.  [get_weekday] advances by one every day, with
    1970-01-01 a Thursday; [next_weekday] and [prev_weekday] always return, and return the nearest
    day strictly after (before) the given one that falls on the requested weekday. *)
Lemma weekday_correct :
  (ymd_ord 1970 1 1 = 0 /\
   (forall y m d, valid_ymd y m d ->
      let '(y', m', d') := next_day (y, m, d) in
      valid_ymd y' m' d' /\ ymd_ord y' m' d' = ymd_ord y m d + 1) /\
   (forall y1 m1 d1 y2 m2 d2, valid_ymd y1 m1 d1 -> valid_ymd y2 m2 d2 ->
      ymd_ord y1 m1 d1 = ymd_ord y2 m2 d2 -> (y1, m1, d1) = (y2, m2, d2))) /\
  (forall cd wd, wf_civil cd -> ct_tag cd = day_tag ->
     weekday_index (get_weekday (ct_f cd)) = (ord (ct_f cd) + 3) mod 7 /\
     (exists r n, next_weekday cd wd = Some r /\ wf_civil r /\ 1 <= n <= 7 /\
        ord (ct_f r) = ord (ct_f cd) + n /\ get_weekday (ct_f r) = wd) /\
     (exists r n, prev_weekday cd wd = Some r /\ wf_civil r /\ 1 <= n <= 7 /\
        ord (ct_f r) = ord (ct_f cd) - n /\ get_weekday (ct_f r) = wd)).
Proof. exact (conj ymd_ord_counts_days weekday_spec). Qed.

Lemma weekday_correct_witness :
  let cd := make_civil day_tag 2015 8 13 0 0 0 in
  get_weekday (ct_f cd) = thursday /\
  next_weekday cd thursday = Some (make_civil day_tag 2015 8 20 0 0 0) /\
  (exists r n, next_weekday cd thursday = Some r /\ wf_civil r /\ 1 <= n <= 7 /\
     ord (ct_f r) = ord (ct_f cd) + n /\ get_weekday (ct_f r) = thursday).
Proof.
  intros cd. split; [reflexivity|]. split; [reflexivity|].
  apply (proj2 weekday_correct cd thursday); [|reflexivity].
  split; [|reflexivity]. vm_compute; repeat split; discriminate.
Defined.

(** Comparison of normalized civil times, field by field, orders them as the instants they
    denote; the six relational operators agree with the order of the integers, and the day of
    the year is the distance to its first of January. *)
Lemma civil_compare_correct l r :
  valid_fields l -> valid_fields r ->
  civil_ltb l r = (sec_ord l <? sec_ord r) /\ civil_leb l r = (sec_ord l <=? sec_ord r) /\
  civil_gtb l r = (sec_ord l >? sec_ord r) /\ civil_geb l r = (sec_ord l >=? sec_ord r) /\
  civil_eqb l r = (sec_ord l =? sec_ord r) /\ civil_neqb l r = negb (sec_ord l =? sec_ord r) /\
  get_yearday l = ord l - ymd_ord (f_y l) 1 1 + 1.
Proof.
  intros Vl Vr.
  assert (E : civil_eqb l r = (sec_ord l =? sec_ord r)).
  { apply eq_true_iff_eq. rewrite civil_eqb_eq, Z.eqb_eq.
    split; [congruence|now apply sec_ord_inj]. }
  unfold civil_leb, civil_gtb, civil_geb, civil_neqb. rewrite !civil_ltb_sec, E by assumption.
  repeat split; try (symmetry; rewrite ?Z.gtb_ltb, ?Z.geb_leb, ?Z.leb_antisym; reflexivity).
  now apply get_yearday_ord.
Qed.
