(* ===== verification/CivilWidth.v ===== *)
(** Normalization of civil time at the width of the source: [year_t] and [diff_t] are 64-bit signed integers, and
    every operation on them that would overflow has no result.  The exact computations of [CivilTime] are what it
    gives otherwise, and the operations that overflow are determined. *)
From Stdlib Require Import ZArith Lia List Bool.
From S2P Require Import Prelude CivilTime.
#[local] Open Scope Z_scope.
#[local] Open Scope mach_scope.

#[local] Abbreviation s64 := (checked 64).

(** ** The code *)

(** The part of [n_day] before the chunk loops. *)
Definition n_day_era64 (y m d cd : Z) : option (Z * Z) :=
  let ey := Z.rem y 400 in
  do c <- s64 (Z.quot cd 146097 * 400);
  do ey <- s64 (ey + c);
  let cd := Z.rem cd 146097 in
  do (ey, cd) <- (if cd <? 0 then do ey <- s64 (ey - 400); do cd <- s64 (cd + 146097); Some (ey, cd)
                  else Some (ey, cd));
  do c <- s64 (Z.quot d 146097 * 400);
  do ey <- s64 (ey + c);
  do d <- s64 (Z.rem d 146097 + cd);
  if d >? 0 then
    if d >? 146097 then do ey <- s64 (ey + 400); do d <- s64 (d - 146097); Some (ey, d) else Some (ey, d)
  else if d >? -365 then do ey <- s64 (ey - 1); do d <- s64 (d + days_per_year ey m); Some (ey, d)
  else do ey <- s64 (ey - 400); do d <- s64 (d + 146097); Some (ey, d).

(** The chunk loops only add to [ey], so its last value fits exactly when all do. *)
Definition n_day64 (y m d cd hh mm ss : Z) : option fields :=
  let oey := Z.rem y 400 in
  do (ey, d) <- n_day_era64 y m d cd;
  let '(ey, d) := n_day_years ey m d in
  do ey <- s64 ey;
  let '((ey, m), d) :=
    if d >? 28
    then chunk_loop (fun s => days_per_month (fst s) (snd s)) adv_month 12 (ey, m) d
    else ((ey, m), d) in
  do ey <- s64 ey;
  do dy <- s64 (ey - oey);
  do y <- s64 (y + dy);
  Some (mk_fields y m d hh mm ss).

Definition n_mon64 (y m d cd hh mm ss : Z) : option fields :=
  do (y, m) <- (if negb (m =? 12) then
                  do y <- s64 (y + Z.quot m 12);
                  let m := Z.rem m 12 in
                  if m <=? 0 then do y <- s64 (y - 1); do m <- s64 (m + 12); Some (y, m) else Some (y, m)
                else Some (y, m));
  n_day64 y m d cd hh mm ss.

Definition n_hour64 (y m d cd hh mm ss : Z) : option fields :=
  do cd <- s64 (cd + Z.quot hh 24);
  let hh := Z.rem hh 24 in
  do (cd, hh) <- (if hh <? 0 then do cd <- s64 (cd - 1); do hh <- s64 (hh + 24); Some (cd, hh) else Some (cd, hh));
  n_mon64 y m d cd hh mm ss.

Definition n_min64 (y m d hh ch mm ss : Z) : option fields :=
  do ch <- s64 (ch + Z.quot mm 60);
  let mm := Z.rem mm 60 in
  do (ch, mm) <- (if mm <? 0 then do ch <- s64 (ch - 1); do mm <- s64 (mm + 60); Some (ch, mm) else Some (ch, mm));
  do cd <- s64 (Z.quot hh 24 + Z.quot ch 24);
  do hh <- s64 (Z.rem hh 24 + Z.rem ch 24);
  n_hour64 y m d cd hh mm ss.

Definition n_sec64 (y m d hh mm ss : Z) : option fields :=
  if (0 <=? ss) && (ss <? 60) then
    if (0 <=? mm) && (mm <? 60) then
      if (0 <=? hh) && (hh <? 24) then
        if (1 <=? d) && (d <=? 28) && (1 <=? m) && (m <=? 12) then Some (mk_fields y m d hh mm ss)
        else n_mon64 y m d 0 hh mm ss
      else n_hour64 y m d (Z.quot hh 24) (Z.rem hh 24) mm ss
    else n_min64 y m d hh (Z.quot mm 60) (Z.rem mm 60) ss
  else
    let cm := Z.quot ss 60 in
    let ss := Z.rem ss 60 in
    do (cm, ss) <- (if ss <? 0 then do cm <- s64 (cm - 1); do ss <- s64 (ss + 60); Some (cm, ss) else Some (cm, ss));
    do c <- s64 (Z.quot mm 60 + Z.quot cm 60);
    do mm <- s64 (Z.rem mm 60 + Z.rem cm 60);
    n_min64 y m d hh c mm ss.

Definition step64 (t : tag) (f : fields) (n : Z) : option fields :=
  match t with
  | second_tag => do mm <- s64 (f_mm f + Z.quot n 60); do ss <- s64 (f_ss f + Z.rem n 60);
                  n_sec64 (f_y f) (f_m f) (f_d f) (f_hh f) mm ss
  | minute_tag => do hh <- s64 (f_hh f + Z.quot n 60); do mm <- s64 (f_mm f + Z.rem n 60);
                  n_min64 (f_y f) (f_m f) (f_d f) hh 0 mm (f_ss f)
  | hour_tag => do d <- s64 (f_d f + Z.quot n 24); do hh <- s64 (f_hh f + Z.rem n 24);
                n_hour64 (f_y f) (f_m f) d 0 hh (f_mm f) (f_ss f)
  | day_tag => n_day64 (f_y f) (f_m f) (f_d f) n (f_hh f) (f_mm f) (f_ss f)
  | month_tag => do y <- s64 (f_y f + Z.quot n 12); do m <- s64 (f_m f + Z.rem n 12);
                 n_mon64 y m (f_d f) 0 (f_hh f) (f_mm f) (f_ss f)
  | year_tag => do y <- s64 (f_y f + n); Some (mk_fields y (f_m f) (f_d f) (f_hh f) (f_mm f) (f_ss f))
  end.

(** The class template. *)
Definition make_civil64 (t : tag) (y m d hh mm ss : Z) : option civil_time :=
  do f <- n_sec64 y m d hh mm ss; Some (of_fields t f).

Definition civil_max64 (t : tag) : option civil_time := make_civil64 t (2 ^ 63 - 1) 12 31 23 59 59.
Definition civil_min64 (t : tag) : option civil_time := make_civil64 t (- 2 ^ 63) 1 1 0 0 0.

Definition civil_add64 (a : civil_time) (n : Z) : option civil_time :=
  do f <- step64 (ct_tag a) (ct_f a) n; Some (of_fields (ct_tag a) f).

Definition civil_sub64 (a : civil_time) (n : Z) : option civil_time :=
  if negb (n =? - 2 ^ 63) then
    do k <- s64 (- n); do f <- step64 (ct_tag a) (ct_f a) k; Some (of_fields (ct_tag a) f)
  else
    do k <- s64 (n + 1); do k <- s64 (- k);
    do f <- step64 (ct_tag a) (ct_f a) k; do f <- step64 (ct_tag a) f 1; Some (of_fields (ct_tag a) f).

Definition civil_incr64 (a : civil_time) : option civil_time := civil_add64 a 1.
Definition civil_decr64 (a : civil_time) : option civil_time := civil_sub64 a 1.
Definition civil_post_incr64 (a : civil_time) : option (civil_time * civil_time) := do b <- civil_incr64 a; Some (a, b).
Definition civil_post_decr64 (a : civil_time) : option (civil_time * civil_time) := do b <- civil_decr64 a; Some (a, b).

(** ** The years the loops go through *)
Lemma chunk_loop_bound {S} (len : S -> Z) adv (pos : S -> Z) k fuel : forall s d,
  (forall s, pos s <= pos (adv s) <= pos s + k) -> 0 <= k ->
  pos s <= pos (fst (chunk_loop len adv fuel s d)) <= pos s + k * Z.of_nat fuel.
Proof.
  induction fuel as [|fuel IH]; intros s d A K; cbn [chunk_loop fst]; [lia|].
  destruct (d <=? len s); cbn [fst]; [lia|]. specialize (IH (adv s) (d - len s) A K). specialize (A s). lia.
Qed.

Lemma adv_years_bound k s : 0 <= k -> fst s <= fst (adv_years k s) <= fst s + k.
Proof. destruct s as [ey yi]. cbn. lia. Qed.

Lemma adv_month_bound s : fst s <= fst (adv_month s) <= fst s + 1.
Proof. destruct s as [ey m]. cbn. destruct (m + 1 >? 12); cbn; lia. Qed.

Lemma n_day_years_bound ey m d : ey <= fst (n_day_years ey m d) <= ey + 504.
Proof.
  unfold n_day_years. destruct (d >? 365); [|cbn; lia].
  pose proof (chunk_loop_bound (fun s => days_per_century (snd s)) (adv_years 100) fst 100 4 (ey, year_index ey m) d
                (fun s => adv_years_bound 100 s ltac:(lia)) ltac:(lia)) as B1.
  destruct (chunk_loop _ (adv_years 100) 4 _ d) as [[e1 y1] d1]. cbn [fst] in B1.
  pose proof (chunk_loop_bound (fun s => days_per_4years (snd s)) (adv_years 4) fst 4 25 (e1, y1) d1
                (fun s => adv_years_bound 4 s ltac:(lia)) ltac:(lia)) as B2.
  destruct (chunk_loop _ (adv_years 4) 25 _ d1) as [[e2 y2] d2]. cbn [fst] in B2.
  assert (A : forall e, (fun e => e) e <= (fun e => e) (e + 1) <= (fun e => e) e + 1) by (intros; lia).
  pose proof (chunk_loop_bound (fun e => days_per_year e m) (fun e => e + 1) (fun e => e) 1 4 e2 d2 A ltac:(lia)) as B3.
  lia.
Qed.

(** ** When nothing overflows *)
Lemma in_sb64_iff x : in_sb 64 x = true <-> in_s 64 x.
Proof. unfold in_sb, in_s. rewrite andb_true_iff, Z.leb_le, Z.ltb_lt. tauto. Qed.

Lemma quot_rem_small x k : in_s 64 x -> 0 < k ->
  k * Z.abs (Z.quot x k) <= 2 ^ 63 /\ - k < Z.rem x k < k.
Proof.
  intros H K. rewrite in_s64_iff in H. pose proof (quot_rem_eq x k) as E. change (2 ^ 63) with 9223372036854775808.
  destruct (Z.le_gt_cases 0 x) as [S|S].
  - pose proof (Z.rem_bound_pos x k S K). pose proof (Z.quot_pos x k S K). split; [|lia]. rewrite Z.abs_eq by lia. nia.
  - pose proof (Z.rem_bound_pos_neg x k K ltac:(lia)). split; [|lia].
    assert (Z.quot x k <= 0) by nia. rewrite Z.abs_neq by lia. nia.
Qed.

Lemma n_day_era64_exact y m d cd : in_s 64 y -> in_s 64 d -> in_s 64 cd ->
  n_day_era64 y m d cd = Some (n_day_era y m d cd) /\ - 2 ^ 57 <= fst (n_day_era y m d cd) <= 2 ^ 57.
Proof.
  intros Y D C. unfold n_day_era64, n_day_era.
  pose proof (quot_rem_small y 400 Y ltac:(lia)) as [_ Ry].
  pose proof (quot_rem_small d 146097 D ltac:(lia)) as [Qd Rd].
  pose proof (quot_rem_small cd 146097 C ltac:(lia)) as [Qc Rc].
  generalize dependent (Z.rem y 400). generalize dependent (Z.quot d 146097). generalize dependent (Z.rem d 146097).
  generalize dependent (Z.quot cd 146097). generalize dependent (Z.rem cd 146097). clear. intros rc Rc qc Qc rd Rd qd Qd ry Ry.
  assert (P : forall e, 365 <= days_per_year e m <= 366) by (intros e; unfold days_per_year; case_if; lia).
  run64 lia. destruct (rc <? 0) eqn:E; zbool; run64 lia; cbn [obind]; run64 lia;
    repeat (case_if; zbool; run64 lia); try (match goal with |- context [days_per_year ?e m] => pose proof (P e) end; run64 lia);
    (split; [reflexivity|cbn [fst]; lia]).
Qed.

(** [n_day]: only the year of the result can fail to fit. *)
Lemma n_day64_exact y m d cd hh mm ss : in_s 64 y -> in_s 64 d -> in_s 64 cd ->
  n_day64 y m d cd hh mm ss =
  let f := n_day y m d cd hh mm ss in if in_sb 64 (f_y f) then Some f else None.
Proof.
  intros Y D C. unfold n_day64, n_day. destruct (n_day_era64_exact y m d cd Y D C) as [-> B]. cbn [obind].
  destruct (n_day_era y m d cd) as [ey d1]. cbn [fst] in B.
  pose proof (n_day_years_bound ey m d1) as B2. destruct (n_day_years ey m d1) as [ey2 d2]. cbn [fst] in B2.
  pose proof (quot_rem_small y 400 Y ltac:(lia)) as [_ Ry]. change (2 ^ 57) with 144115188075855872 in B. run64 lia.
  set (M := if d2 >? 28 then _ else _).
  assert (B3 : ey2 <= fst (fst M) <= ey2 + 12).
  { subst M. destruct (d2 >? 28); [|cbn; lia].
    pose proof (chunk_loop_bound (fun s => days_per_month (fst s) (snd s)) adv_month fst 1 12 (ey2, m) d2
                  adv_month_bound ltac:(lia)) as B3. cbn [fst] in B3. lia. }
  destruct M as [[ey3 m3] d3]. cbn [fst] in B3. run64 lia. cbn zeta. cbn [f_y]. unfold checked.
  now destruct (in_sb 64 (y + (ey3 - Z.rem y 400))).
Qed.

(** The carry of the months into the year, which is computed before the days are looked at. *)
Definition month_fits (y m : Z) : bool :=
  (m =? 12) || in_sb 64 (y + Z.quot m 12) && in_sb 64 (norm_year y m).

Definition fits (y m : Z) (f : fields) : bool := month_fits y m && in_sb 64 (f_y f).

Lemma n_mon64_exact y m d cd hh mm ss : in_s 64 y -> in_s 64 m -> in_s 64 d -> in_s 64 cd ->
  n_mon64 y m d cd hh mm ss =
  let f := n_mon y m d cd hh mm ss in if fits y m f then Some f else None.
Proof.
  intros Y M D C. cbn zeta. rewrite n_mon_n_day. unfold n_mon64, fits, month_fits.
  destruct (m =? 12) eqn:E; cbn [negb orb andb obind].
  - zbool. subst. rewrite n_day64_exact by auto. destruct (norm_id y 12 ltac:(lia)) as [-> ->]. reflexivity.
  - unfold checked at 1. destruct (in_sb 64 (y + Z.quot m 12)) eqn:F1; cbn [obind andb]; [|reflexivity].
    assert (X : (if Z.rem m 12 <=? 0 then do y <- s64 (y + Z.quot m 12 - 1); do m <- s64 (Z.rem m 12 + 12); Some (y, m)
                 else Some (y + Z.quot m 12, Z.rem m 12)) =
                if in_sb 64 (norm_year y m) then Some (norm_year y m, norm_month m) else None).
    { pose proof (quot_rem_small m 12 M ltac:(lia)) as [_ R]. unfold norm_year, norm_month.
      destruct (Z.rem m 12 <=? 0) eqn:Z1; zbool.
      - replace (y + (m - 1) / 12) with (y + Z.quot m 12 - 1) by zlia.
        replace ((m - 1) mod 12 + 1) with (Z.rem m 12 + 12) by zlia. unfold checked at 1.
        destruct (in_sb 64 (y + Z.quot m 12 - 1)); [|reflexivity]. cbn [obind]. run64 lia. reflexivity.
      - replace (y + (m - 1) / 12) with (y + Z.quot m 12) by zlia.
        replace ((m - 1) mod 12 + 1) with (Z.rem m 12) by zlia. now rewrite F1. }
    rewrite X. destruct (in_sb 64 (norm_year y m)) eqn:F2; cbn [obind andb]; [|reflexivity].
    apply n_day64_exact; auto. now apply in_sb64_iff.
Qed.

Lemma n_hour64_exact y m d cd hh mm ss : in_s 64 y -> in_s 64 m -> in_s 64 d -> - 2 ^ 62 <= cd <= 2 ^ 62 -> in_s 64 hh ->
  n_hour64 y m d cd hh mm ss =
  let f := n_hour y m d cd hh mm ss in if fits y m f then Some f else None.
Proof.
  intros Y M D C H. unfold n_hour64, n_hour. pose proof (quot_rem_small hh 24 H ltac:(lia)) as [Q R].
  change (2 ^ 62) with 4611686018427387904 in C. change (2 ^ 63) with 9223372036854775808 in Q. run64 lia.
  destruct (Z.rem hh 24 <? 0) eqn:E; zbool; run64 lia; cbn [obind]; apply n_mon64_exact; auto; apply in_s64_iff; lia.
Qed.

Lemma n_min64_exact y m d hh ch mm ss : in_s 64 y -> in_s 64 m -> in_s 64 d -> in_s 64 hh -> - 2 ^ 60 <= ch <= 2 ^ 60 ->
  in_s 64 mm ->
  n_min64 y m d hh ch mm ss =
  let f := n_min y m d hh ch mm ss in if fits y m f then Some f else None.
Proof.
  intros Y M D H C N. unfold n_min64, n_min. pose proof (quot_rem_small mm 60 N ltac:(lia)) as [Q R].
  pose proof (quot_rem_small hh 24 H ltac:(lia)) as [Qh Rh].
  change (2 ^ 60) with 1152921504606846976 in C. change (2 ^ 63) with 9223372036854775808 in Q, Qh. run64 lia.
  set (p := if Z.rem mm 60 <? 0 then (ch + Z.quot mm 60 - 1, Z.rem mm 60 + 60) else (ch + Z.quot mm 60, Z.rem mm 60)).
  replace (if Z.rem mm 60 <? 0 then _ else _) with (Some p)
    by (subst p; destruct (Z.rem mm 60 <? 0) eqn:E; zbool; run64 lia; reflexivity).
  assert (B : - 2 ^ 61 <= fst p <= 2 ^ 61) by (change (2 ^ 61) with 2305843009213693952; subst p; case_if; cbn; lia).
  destruct p as [ch' mm']. cbn [fst] in B. cbn [obind]. change (2 ^ 61) with 2305843009213693952 in B.
  assert (C' : in_s 64 ch') by (apply in_s64_iff; lia).
  pose proof (quot_rem_small ch' 24 C' ltac:(lia)) as [Qc Rc]. change (2 ^ 63) with 9223372036854775808 in Qc. run64 lia.
  apply n_hour64_exact; auto; [change (2 ^ 62) with 4611686018427387904; lia|apply in_s64_iff; lia].
Qed.

Lemma n_sec64_exact y m d hh mm ss :
  in_s 64 y -> in_s 64 m -> in_s 64 d -> in_s 64 hh -> in_s 64 mm -> in_s 64 ss ->
  n_sec64 y m d hh mm ss =
  let f := n_sec y m d hh mm ss in if fits y m f then Some f else None.
Proof.
  intros Y M D H N S. unfold n_sec64, n_sec. pose proof (quot_rem_small mm 60 N ltac:(lia)) as [Q R].
  pose proof (quot_rem_small hh 24 H ltac:(lia)) as [Qh Rh]. pose proof (quot_rem_small ss 60 S ltac:(lia)) as [Qs Rs].
  change (2 ^ 63) with 9223372036854775808 in Q, Qh, Qs.
  repeat match goal with |- context [if ?a && ?b then _ else _] => destruct (a && b) eqn:? end.
  - zbool. unfold fits, month_fits. cbn [f_y]. rewrite (proj2 (in_sb64_iff y) Y), andb_true_r.
    destruct (norm_id y m ltac:(lia)) as [-> _]. destruct (m =? 12) eqn:E; [reflexivity|]. zbool.
    rewrite Z.quot_small, Z.add_0_r, (proj2 (in_sb64_iff y) Y) by lia. reflexivity.
  - apply n_mon64_exact; auto. apply in_s64_iff. lia.
  - apply n_hour64_exact; auto; [change (2 ^ 62) with 4611686018427387904; lia|apply in_s64_iff; lia].
  - apply n_min64_exact; auto; [change (2 ^ 60) with 1152921504606846976; lia|apply in_s64_iff; lia].
  - set (p := if Z.rem ss 60 <? 0 then (Z.quot ss 60 - 1, Z.rem ss 60 + 60) else (Z.quot ss 60, Z.rem ss 60)).
    replace (if Z.rem ss 60 <? 0 then _ else _) with (Some p)
      by (subst p; destruct (Z.rem ss 60 <? 0) eqn:E; zbool; run64 lia; reflexivity).
    assert (B : - 2 ^ 58 <= fst p <= 2 ^ 58) by (change (2 ^ 58) with 288230376151711744; subst p; case_if; cbn; lia).
    destruct p as [cm ss']. cbn [fst] in B. cbn [obind]. change (2 ^ 58) with 288230376151711744 in B.
    assert (C' : in_s 64 cm) by (apply in_s64_iff; lia).
    pose proof (quot_rem_small cm 60 C' ltac:(lia)) as [Qc Rc]. change (2 ^ 63) with 9223372036854775808 in Qc. run64 lia.
    apply n_min64_exact; auto; [change (2 ^ 60) with 1152921504606846976; lia|apply in_s64_iff; lia].
Qed.

Lemma month_fits_valid y m : in_s 64 y -> 1 <= m <= 12 -> month_fits y m = true.
Proof.
  intros Y M. unfold month_fits. destruct (norm_id y m M) as [-> _]. destruct (m =? 12) eqn:E; [reflexivity|]. zbool.
  rewrite Z.quot_small, Z.add_0_r, (proj2 (in_sb64_iff y) Y) by lia. reflexivity.
Qed.

(** Steps: by months the carry into the year is computed first; otherwise only the year of the result matters. *)
Definition step_fits (t : tag) (f : fields) (n : Z) : bool :=
  match t with
  | month_tag => in_sb 64 (f_y f + Z.quot n 12) && month_fits (f_y f + Z.quot n 12) (f_m f + Z.rem n 12)
  | _ => true
  end.

Lemma step64_exact t f n : valid_fields f -> in_s 64 (f_y f) -> in_s 64 n ->
  step64 t f n = let g := step t f n in if step_fits t f n && in_sb 64 (f_y g) then Some g else None.
Proof.
  intros ((Hm & Hd) & Hh & Hmi & Hs) Y N. pose proof (days_per_month_range (f_y f) (f_m f) Hm) as Dm.
  pose proof (month_fits_valid _ _ Y Hm) as MF. assert (S : forall x, - 100 <= x <= 100 -> in_s 64 x) by (intros; apply in_s64_iff; lia).
  pose proof (quot_rem_small n 60 N ltac:(lia)) as [Q60 R60]. pose proof (quot_rem_small n 24 N ltac:(lia)) as [Q24 R24].
  pose proof (quot_rem_small n 12 N ltac:(lia)) as [Q12 R12]. change (2 ^ 63) with 9223372036854775808 in *.
  destruct t; cbn [step64 step step_fits andb].
  - run64 lia. rewrite n_sec64_exact by (auto; try (apply S; lia); apply in_s64_iff; lia). unfold fits. now rewrite MF.
  - run64 lia. rewrite n_min64_exact by (auto; try (apply S; lia); try (apply in_s64_iff; lia); lia). unfold fits. now rewrite MF.
  - run64 lia. rewrite n_hour64_exact by (auto; try (apply S; lia); try (apply in_s64_iff; lia); lia). unfold fits. now rewrite MF.
  - apply n_day64_exact; auto. apply S. lia.
  - unfold checked at 1. destruct (in_sb 64 (f_y f + Z.quot n 12)) eqn:F; [|reflexivity]. cbn [obind andb]. run64 lia.
    apply n_mon64_exact; try (apply S; lia). now apply in_sb64_iff.
  - unfold checked. cbn [f_y]. now destruct (in_sb 64 (f_y f + n)).
Qed.

(** The operators of [civil_time] are the exact ones of [CivilTime] whenever they are defined. *)
Lemma civil_add64_exact a n : wf_civil a -> in_s 64 (f_y (ct_f a)) -> in_s 64 n ->
  civil_add64 a n = if step_fits (ct_tag a) (ct_f a) n && in_sb 64 (f_y (step (ct_tag a) (ct_f a) n))
                    then Some (civil_add a n) else None.
Proof.
  intros [V _] Y N. unfold civil_add64, civil_add. rewrite step64_exact by assumption. cbn zeta. now case_if.
Qed.

Lemma civil_sub64_exact a n : wf_civil a -> in_s 64 (f_y (ct_f a)) -> in_s 64 n -> n <> - 2 ^ 63 ->
  civil_sub64 a n = if step_fits (ct_tag a) (ct_f a) (- n) && in_sb 64 (f_y (step (ct_tag a) (ct_f a) (- n)))
                    then Some (civil_sub a n) else None.
Proof.
  intros [V W] Y N M. unfold civil_sub64, civil_sub. rewrite (proj2 (Z.eqb_neq _ _) M). cbn [negb].
  rewrite in_s64_iff in N. change (- 2 ^ 63) with (-9223372036854775808) in M. run64 lia.
  rewrite step64_exact by (auto; apply in_s64_iff; lia). cbn zeta. now case_if.
Qed.

(** The largest and the smallest civil times exist. *)
Lemma civil_limits64 t : civil_max64 t = Some (civil_max t) /\ civil_min64 t = Some (civil_min t).
Proof. destruct t; split; reflexivity. Qed.

(** ** Property *)

(** C26: The civil-time constructor's normalization of any six 64-bit arguments.  When it is defined it returns a date of
    the calendar with hour, minute and second in range, the one date-time that lies the arguments' number of seconds
    from the epoch (months counted from January of the given year, then days, hours, minutes and seconds added up);
    it is undefined, by signed overflow, exactly when carrying the months into the year overflows or when the year of
    that date-time does not fit 64 bits. *)
Theorem n_sec_correct y m d hh mm ss :
  in_s 64 y -> in_s 64 m -> in_s 64 d -> in_s 64 hh -> in_s 64 mm -> in_s 64 ss ->
  match n_sec64 y m d hh mm ss with
  | Some f => month_fits y m = true /\ in_s 64 (f_y f) /\ valid_fields f /\ sec_ord f = raw_sec y m d hh mm ss /\
              (forall g, valid_fields g -> sec_ord g = raw_sec y m d hh mm ss -> g = f)
  | None => month_fits y m = false \/
            (forall g, valid_fields g -> sec_ord g = raw_sec y m d hh mm ss -> ~ in_s 64 (f_y g))
  end.
Proof.
  intros Y M D H N S. destruct (n_sec_exact y m d hh mm ss) as (V & O & U).
  rewrite n_sec64_exact by assumption. cbn zeta. unfold fits.
  destruct (month_fits y m); cbn [andb]; [|now left].
  destruct (in_sb 64 (f_y (n_sec y m d hh mm ss))) eqn:F.
  - apply in_sb64_iff in F. auto.
  - right. intros g Vg Og I. apply in_sb64_iff in I. rewrite (U g Vg Og) in I. congruence.
Qed.

Lemma n_sec_correct_witness : exists f, n_sec64 2023 14 0 25 (-61) 3600 = Some f /\
  valid_fields f /\ sec_ord f = sec_ord (mk_fields 2024 2 1 0 59 0) /\ f = mk_fields 2024 2 1 0 59 0.
Proof.
  assert (V : valid_fields (mk_fields 2024 2 1 0 59 0)) by (repeat split; cbn; discriminate).
  pose proof (n_sec_correct 2023 14 0 25 (-61) 3600) as C.
  destruct (n_sec64 2023 14 0 25 (-61) 3600) as [f|] eqn:E; [|vm_compute in E; discriminate].
  destruct C as (_ & _ & Vf & O & U); try (apply in_s64_iff; lia).
  exists f. split; [reflexivity|]. split; [exact Vf|]. split; [exact O|]. symmetry. now apply U.
Defined.

(** The carry of the months is an overflow that another order of the additions would avoid: the month after the last
    representable December, less six days, is a date of that December. *)
Lemma avoidable_overflow : n_sec64 (2 ^ 63 - 1) 13 (-5) 0 0 0 = None /\
  sec_ord (mk_fields (2 ^ 63 - 1) 12 26 0 0 0) = raw_sec (2 ^ 63 - 1) 13 (-5) 0 0 0.
Proof. split; reflexivity. Qed.
