(* ===== verification/Duration.v ===== *)
(** [absl/time/time.h], [absl/time/duration.cc], [absl/time/time.cc]: durations and absolute
    times as 64-bit seconds and a 32-bit count of quarter nanoseconds, with infinities.

    The specification reads a duration as an extended integer number of ticks ([ticks]); the
    theorems show that arithmetic, rounding, comparison and unit conversions are those of the
    integers, saturating to the infinities.  128-bit intermediates use the operators of
    [Int128].  Operations on [double] are not modelled. *)
From Stdlib Require Import Ascii String.
From Stdlib Require Import ZArith Lia List Bool.
From S2P Require Import Prelude Int128 Digits.
Import ListNotations.
#[local] Open Scope Z_scope.
#[local] Open Scope mach_scope.

Definition kint64max : Z := 2 ^ 63 - 1.
Definition kint64min : Z := - 2 ^ 63.
Definition kTicksPerNanosecond : Z := 4.
Definition kTicksPerSecond : Z := 1000 * 1000 * 1000 * kTicksPerNanosecond.

(** ** Representation *)

(** [Duration::HiRep]: a 64-bit count of seconds stored as two 32-bit words. *)
Record HiRep := mk_HiRep { hr_lo : Z; hr_hi : Z }.

Definition HiRep_set (value : Z) : HiRep :=
  let unsigned_value := wrapu 64 value in
  mk_HiRep (wrapu 32 unsigned_value) (wrapu 32 (unsigned_value >> 32)).

Definition HiRep_Get (h : HiRep) : Z := wraps 64 ((hr_hi h <<[64] 32) .| hr_lo h).

Record Duration := mk_Duration { rep_hi_ : HiRep; rep_lo_ : Z }.

Definition MakeDuration (hi lo : Z) : Duration := mk_Duration (HiRep_set hi) (wrapu 32 lo).
Definition GetRepHi (d : Duration) : Z := HiRep_Get (rep_hi_ d).
Definition GetRepLo (d : Duration) : Z := rep_lo_ d.

Definition MakeNormalizedDuration (sec ticks : Z) : Duration :=
  if ticks <? 0 then MakeDuration (sec - 1) (ticks + kTicksPerSecond) else MakeDuration sec ticks.

Definition uint32_max : Z := 2 ^ 32 - 1.

Definition ZeroDuration : Duration := MakeDuration 0 0.
Definition InfiniteDuration : Duration := MakeDuration kint64max uint32_max.
Definition IsInfiniteDuration (d : Duration) : bool := GetRepLo d =? uint32_max.

Definition OppositeInfinity (d : Duration) : Duration :=
  if GetRepHi d <? 0 then MakeDuration kint64max uint32_max else MakeDuration kint64min uint32_max.

Definition NegateAndSubtractOne (n : Z) : Z := if n <? 0 then - (n + 1) else - n - 1.

(** ** Comparison and negation *)
Definition ltb (lhs rhs : Duration) : bool :=
  if negb (GetRepHi lhs =? GetRepHi rhs) then GetRepHi lhs <? GetRepHi rhs
  else if GetRepHi lhs =? kint64min then (GetRepLo lhs +[32] 1) <? (GetRepLo rhs +[32] 1)
  else GetRepLo lhs <? GetRepLo rhs.

Definition compare (lhs rhs : Duration) : comparison :=
  match GetRepHi lhs ?= GetRepHi rhs with
  | Eq =>
      if GetRepHi lhs =? kint64min then (GetRepLo lhs +[32] 1) ?= (GetRepLo rhs +[32] 1)
      else GetRepLo lhs ?= GetRepLo rhs
  | c => c
  end.

Definition eqb (lhs rhs : Duration) : bool :=
  (GetRepHi lhs =? GetRepHi rhs) && (GetRepLo lhs =? GetRepLo rhs).

Definition gtb (lhs rhs : Duration) : bool := ltb rhs lhs.
Definition geb (lhs rhs : Duration) : bool := negb (ltb lhs rhs).
Definition leb (lhs rhs : Duration) : bool := negb (ltb rhs lhs).
Definition neqb (lhs rhs : Duration) : bool := negb (eqb lhs rhs).

Definition opp (d : Duration) : Duration :=
  if GetRepLo d =? 0 then
    if GetRepHi d =? kint64min then InfiniteDuration else MakeDuration (- GetRepHi d) 0
  else if IsInfiniteDuration d then OppositeInfinity d
  else MakeDuration (NegateAndSubtractOne (GetRepHi d)) (kTicksPerSecond - GetRepLo d).

Definition AbsDuration (d : Duration) : Duration := if ltb d ZeroDuration then opp d else d.

(** ** Addition and subtraction *)
Definition EncodeTwosComp (v : Z) : Z := wrapu 64 v.
Definition DecodeTwosComp (v : Z) : Z := wraps 64 v.

Definition add (this rhs : Duration) : Duration :=
  if IsInfiniteDuration this then this
  else if IsInfiniteDuration rhs then rhs
  else
    let orig_rep_hi := GetRepHi this in
    let hi := DecodeTwosComp (EncodeTwosComp (GetRepHi this) +[64] EncodeTwosComp (GetRepHi rhs)) in
    let '(hi, lo) :=
      if GetRepLo this >=? kTicksPerSecond - GetRepLo rhs
      then (DecodeTwosComp (EncodeTwosComp hi +[64] 1), GetRepLo this -[32] kTicksPerSecond)
      else (hi, GetRepLo this) in
    let lo := lo +[32] GetRepLo rhs in
    if (if GetRepHi rhs <? 0 then hi >? orig_rep_hi else hi <? orig_rep_hi)
    then if GetRepHi rhs <? 0 then opp InfiniteDuration else InfiniteDuration
    else MakeDuration hi lo.

Definition sub (this rhs : Duration) : Duration :=
  if IsInfiniteDuration this then this
  else if IsInfiniteDuration rhs then
    if GetRepHi rhs >=? 0 then opp InfiniteDuration else InfiniteDuration
  else
    let orig_rep_hi := GetRepHi this in
    let hi := DecodeTwosComp (EncodeTwosComp (GetRepHi this) -[64] EncodeTwosComp (GetRepHi rhs)) in
    let '(hi, lo) :=
      if GetRepLo this <? GetRepLo rhs
      then (DecodeTwosComp (EncodeTwosComp hi -[64] 1), GetRepLo this +[32] kTicksPerSecond)
      else (hi, GetRepLo this) in
    let lo := lo -[32] GetRepLo rhs in
    if (if GetRepHi rhs <? 0 then hi <? orig_rep_hi else hi >? orig_rep_hi)
    then if GetRepHi rhs >=? 0 then opp InfiniteDuration else InfiniteDuration
    else MakeDuration hi lo.

(** ** 128-bit tick counts *)
Definition MakeU128 (a : Z) : uint128 :=
  let '(u, a) := if a <? 0 then (U.incr (U.of_signed 0), - (a + 1)) else (U.of_signed 0, a) in
  U.add u (U.of_unsigned (wrapu 64 a)).

Definition MakeU128Ticks (d : Duration) : uint128 :=
  let rep_hi := GetRepHi d in
  let rep_lo := GetRepLo d in
  let '(rep_hi, rep_lo) :=
    if rep_hi <? 0 then (- (rep_hi + 1), kTicksPerSecond -[32] rep_lo) else (rep_hi, rep_lo) in
  let u128 := U.of_unsigned (wrapu 64 rep_hi) in
  let u128 := U.mul u128 (U.of_unsigned kTicksPerSecond) in
  U.add u128 (U.of_unsigned rep_lo).

Definition kMaxRepHi64 : Z := 0x77359400.

Definition MakeDurationFromU128 (u128 : uint128) (is_neg : bool) : Duration :=
  let h64 := Uint128High64 u128 in
  let l64 := Uint128Low64 u128 in
  let finish rep_hi rep_lo :=
    let '(rep_hi, rep_lo) :=
      if is_neg then
        let rep_hi := - rep_hi in
        if negb (rep_lo =? 0) then (rep_hi - 1, kTicksPerSecond -[32] rep_lo) else (rep_hi, rep_lo)
      else (rep_hi, rep_lo) in
    MakeDuration rep_hi rep_lo in
  if h64 =? 0 then
    let hi := l64 / kTicksPerSecond in
    finish (wraps 64 hi) (wrapu 32 (l64 -[64] (hi *[64] kTicksPerSecond)))
  else if h64 >=? kMaxRepHi64 then
    if is_neg && (h64 =? kMaxRepHi64) && (l64 =? 0) then MakeDuration kint64min 0
    else if is_neg then opp InfiniteDuration else InfiniteDuration
  else
    let kTicksPerSecond128 := U.of_unsigned kTicksPerSecond in
    let hi := U_div u128 kTicksPerSecond128 in
    finish (wraps 64 (Uint128Low64 hi))
           (wrapu 32 (Uint128Low64 (U.sub u128 (U.mul hi kTicksPerSecond128)))).

(** ** Scaling by integers *)
Definition Uint128Max : uint128 := MakeUint128 uint64_max uint64_max.

Definition SafeMultiply (a b : uint128) : uint128 :=
  if Uint128High64 a =? 0 then
    if ((Uint128Low64 a .| Uint128Low64 b) >> 32) =? 0
    then U.of_unsigned (Uint128Low64 a *[64] Uint128Low64 b)
    else U.mul a b
  else if U.eqb b (U.of_signed 0) then b
  else if U.gtb a (U_div Uint128Max b) then Uint128Max
  else U.mul a b.

Definition ScaleFixed (Operation : uint128 -> uint128 -> uint128) (d : Duration) (r : Z) : Duration :=
  let a := MakeU128Ticks d in
  let b := MakeU128 r in
  let q := Operation a b in
  let is_neg := xorb (GetRepHi d <? 0) (r <? 0) in
  MakeDurationFromU128 q is_neg.

Definition mul (this : Duration) (r : Z) : Duration :=
  if IsInfiniteDuration this then
    let is_neg := xorb (r <? 0) (GetRepHi this <? 0) in
    if is_neg then opp InfiniteDuration else InfiniteDuration
  else ScaleFixed SafeMultiply this r.

Definition div (this : Duration) (r : Z) : Duration :=
  if IsInfiniteDuration this || (r =? 0) then
    let is_neg := xorb (r <? 0) (GetRepHi this <? 0) in
    if is_neg then opp InfiniteDuration else InfiniteDuration
  else ScaleFixed U_div this r.

(** ** Integer division of durations *)
Definition IDivFastPath (num den : Duration) : option (Z * Duration) :=
  if IsInfiniteDuration num || IsInfiniteDuration den then None
  else
    let num_hi := GetRepHi num in
    let num_lo := GetRepLo num in
    let den_hi := GetRepHi den in
    let den_lo := GetRepLo den in
    let by_unit ticks per_sec :=
      if (num_hi >=? 0) && (num_hi <? Z.quot (kint64max - kTicksPerSecond) per_sec)
      then Some (num_hi * per_sec + Z.quot num_lo ticks, MakeDuration 0 (Z.rem num_lo den_lo))
      else None in
    if den_hi =? 0 then
      if den_lo =? kTicksPerNanosecond then by_unit kTicksPerNanosecond 1000000000
      else if den_lo =? 100 * kTicksPerNanosecond then by_unit (100 * kTicksPerNanosecond) 10000000
      else if den_lo =? 1000 * kTicksPerNanosecond then by_unit (1000 * kTicksPerNanosecond) 1000000
      else if den_lo =? 1000000 * kTicksPerNanosecond then by_unit (1000000 * kTicksPerNanosecond) 1000
      else None
    else if (den_hi >? 0) && (den_lo =? 0) then
      if num_hi >=? 0 then
        if den_hi =? 1 then Some (num_hi, MakeDuration 0 num_lo)
        else Some (Z.quot num_hi den_hi, MakeDuration (Z.rem num_hi den_hi) num_lo)
      else
        let num_hi := if negb (num_lo =? 0) then num_hi + 1 else num_hi in
        let quotient := Z.quot num_hi den_hi in
        let rem_sec := Z.rem num_hi den_hi in
        let '(rem_sec, quotient) :=
          if rem_sec >? 0 then (rem_sec - den_hi, quotient + 1) else (rem_sec, quotient) in
        let rem_sec := if negb (num_lo =? 0) then rem_sec - 1 else rem_sec in
        Some (quotient, MakeDuration rem_sec num_lo)
    else None.

Definition IDivSlowPath (satq : bool) (num den : Duration) : Z * Duration :=
  let num_neg := ltb num ZeroDuration in
  let den_neg := ltb den ZeroDuration in
  let quotient_neg := xorb num_neg den_neg in
  if IsInfiniteDuration num || eqb den ZeroDuration then
    (if quotient_neg then kint64min else kint64max,
     if num_neg then opp InfiniteDuration else InfiniteDuration)
  else if IsInfiniteDuration den then (0, num)
  else
    let a := MakeU128Ticks num in
    let b := MakeU128Ticks den in
    let quotient128 := U_div a b in
    let quotient128 :=
      if satq && U.gtb quotient128 (U.of_unsigned (wrapu 64 kint64max))
      then if quotient_neg then U.of_unsigned (wrapu 64 kint64min) else U.of_unsigned (wrapu 64 kint64max)
      else quotient128 in
    let remainder128 := U.sub a (U.mul quotient128 b) in
    let rem := MakeDurationFromU128 remainder128 num_neg in
    if negb quotient_neg || U.eqb quotient128 (U.of_signed 0)
    then (wraps 64 (Uint128Low64 quotient128 .& kint64max), rem)
    else (- wraps 64 (Uint128Low64 (U.sub quotient128 (U.of_signed 1)) .& kint64max) - 1, rem).

Definition IDivDurationImpl (satq : bool) (num den : Duration) : Z * Duration :=
  match IDivFastPath num den with
  | Some qr => qr
  | None => IDivSlowPath satq num den
  end.

Definition IDivDuration (num den : Duration) : Z * Duration := IDivDurationImpl true num den.

(** [operator/(Duration, Duration)] and [operator%]. *)
Definition quot (lhs rhs : Duration) : Z := fst (IDivDuration lhs rhs).
Definition rem (lhs rhs : Duration) : Duration := snd (IDivDurationImpl false lhs rhs).

(** ** Rounding *)
Definition Trunc (d unit : Duration) : Duration := sub d (rem d unit).

Definition Floor (d unit : Duration) : Duration :=
  let td := Trunc d unit in if leb td d then td else sub td (AbsDuration unit).

Definition Ceil (d unit : Duration) : Duration :=
  let td := Trunc d unit in if geb td d then td else add td (AbsDuration unit).

(** ** Unit conversions *)

(** [FromInt64] for a ratio 1/N, for minutes and for hours. *)
Definition FromInt64 (N v : Z) : Duration :=
  MakeNormalizedDuration (Z.quot v N)
    (Z.quot (Z.rem v N * kTicksPerNanosecond * 1000 * 1000 * 1000) N).

Definition FromInt64_scaled (k v : Z) : Duration :=
  if (v <=? Z.quot kint64max k) && (v >=? Z.quot kint64min k) then MakeDuration (v * k) 0
  else if v >? 0 then InfiniteDuration else opp InfiniteDuration.

Definition Nanoseconds (n : Z) : Duration := FromInt64 1000000000 n.
Definition Microseconds (n : Z) : Duration := FromInt64 1000000 n.
Definition Milliseconds (n : Z) : Duration := FromInt64 1000 n.
Definition Seconds (n : Z) : Duration := FromInt64 1 n.
Definition Minutes (n : Z) : Duration := FromInt64_scaled 60 n.
Definition Hours (n : Z) : Duration := FromInt64_scaled 3600 n.

Definition ToInt64Nanoseconds (d : Duration) : Z :=
  if (GetRepHi d >=? 0) && ((GetRepHi d >> 33) =? 0)
  then GetRepHi d * 1000 * 1000 * 1000 + Z.quot (GetRepLo d) kTicksPerNanosecond
  else quot d (Nanoseconds 1).

Definition ToInt64Microseconds (d : Duration) : Z :=
  if (GetRepHi d >=? 0) && ((GetRepHi d >> 43) =? 0)
  then GetRepHi d * 1000 * 1000 + Z.quot (GetRepLo d) (kTicksPerNanosecond * 1000)
  else quot d (Microseconds 1).

Definition ToInt64Milliseconds (d : Duration) : Z :=
  if (GetRepHi d >=? 0) && ((GetRepHi d >> 53) =? 0)
  then GetRepHi d * 1000 + Z.quot (GetRepLo d) (kTicksPerNanosecond * 1000 * 1000)
  else quot d (Milliseconds 1).

(** The seconds of a duration, truncated; infinities give the extreme values. *)
Definition trunc_hi (d : Duration) : Z :=
  let hi := GetRepHi d in
  if (hi <? 0) && negb (GetRepLo d =? 0) then hi + 1 else hi.

Definition ToInt64Seconds (d : Duration) : Z :=
  if IsInfiniteDuration d then GetRepHi d else trunc_hi d.
Definition ToInt64Minutes (d : Duration) : Z :=
  if IsInfiniteDuration d then GetRepHi d else Z.quot (trunc_hi d) 60.
Definition ToInt64Hours (d : Duration) : Z :=
  if IsInfiniteDuration d then GetRepHi d else Z.quot (trunc_hi d) (60 * 60).

(** ** [timespec] and [timeval]: the width of [time_t] is [tw], that of [tv_sec] [vw] *)
Record timespec := mk_timespec { tv_sec : Z; tv_nsec : Z }.
Record timeval := mk_timeval { v_sec : Z; v_usec : Z }.

Definition DurationFromTimespec (ts : timespec) : Duration :=
  if wrapu 64 (tv_nsec ts) <? 1000 * 1000 * 1000 then
    MakeDuration (tv_sec ts) (tv_nsec ts * kTicksPerNanosecond)
  else add (Seconds (tv_sec ts)) (Nanoseconds (tv_nsec ts)).

Definition DurationFromTimeval (tv : timeval) : Duration :=
  if wrapu 64 (v_usec tv) <? 1000 * 1000 then
    MakeDuration (v_sec tv) (v_usec tv * 1000 * kTicksPerNanosecond)
  else add (Seconds (v_sec tv)) (Microseconds (v_usec tv)).

Definition extreme_timespec (tw : Z) (d : Duration) : timespec :=
  if geb d ZeroDuration then mk_timespec (2 ^ (tw - 1) - 1) (1000 * 1000 * 1000 - 1)
  else mk_timespec (- 2 ^ (tw - 1)) 0.

Definition ToTimespec (tw : Z) (d : Duration) : timespec :=
  if negb (IsInfiniteDuration d) then
    let '(rep_hi, rep_lo) :=
      if GetRepHi d <? 0 then
        let rep_lo := GetRepLo d +[32] (kTicksPerNanosecond - 1) in
        if rep_lo >=? kTicksPerSecond then (GetRepHi d + 1, rep_lo -[32] kTicksPerSecond)
        else (GetRepHi d, rep_lo)
      else (GetRepHi d, GetRepLo d) in
    if wraps tw rep_hi =? rep_hi then mk_timespec (wraps tw rep_hi) (Z.quot rep_lo kTicksPerNanosecond)
    else extreme_timespec tw d
  else extreme_timespec tw d.

Definition narrow_timeval (vw : Z) (ts : timespec) : timeval :=
  let sec := wraps vw (tv_sec ts) in
  if negb (sec =? tv_sec ts) then
    if tv_sec ts <? 0 then mk_timeval (- 2 ^ (vw - 1)) 0
    else mk_timeval (2 ^ (vw - 1) - 1) (1000 * 1000 - 1)
  else mk_timeval sec (Z.quot (tv_nsec ts) 1000).

Definition ToTimeval (tw vw : Z) (d : Duration) : timeval :=
  let ts := ToTimespec tw d in
  let ts :=
    if tv_sec ts <? 0 then
      let nsec := tv_nsec ts + (1000 - 1) in
      if nsec >=? 1000 * 1000 * 1000 then mk_timespec (tv_sec ts + 1) (nsec - 1000 * 1000 * 1000)
      else mk_timespec (tv_sec ts) nsec
    else ts in
  narrow_timeval vw ts.

(** ** Absolute times: the duration since the Unix epoch *)
Record Time := mk_Time { t_rep_ : Duration }.

Definition FromUnixDuration (d : Duration) : Time := mk_Time d.
Definition ToUnixDuration (t : Time) : Duration := t_rep_ t.
Definition UnixEpoch : Time := mk_Time ZeroDuration.
Definition UniversalEpoch : Time := mk_Time (MakeDuration (-24 * 719162 * 3600) 0).
Definition InfiniteFuture : Time := mk_Time (MakeDuration kint64max uint32_max).
Definition InfinitePast : Time := mk_Time (MakeDuration kint64min uint32_max).

Definition time_add (lhs : Time) (rhs : Duration) : Time := mk_Time (add (t_rep_ lhs) rhs).
Definition time_sub (lhs : Time) (rhs : Duration) : Time := mk_Time (sub (t_rep_ lhs) rhs).
Definition time_diff (lhs rhs : Time) : Duration := sub (t_rep_ lhs) (t_rep_ rhs).
Definition time_ltb (lhs rhs : Time) : bool := ltb (t_rep_ lhs) (t_rep_ rhs).
Definition time_eqb (lhs rhs : Time) : bool := eqb (t_rep_ lhs) (t_rep_ rhs).

Definition FromUnixNanos (ns : Z) : Time := FromUnixDuration (Nanoseconds ns).
Definition FromUnixMicros (us : Z) : Time := FromUnixDuration (Microseconds us).
Definition FromUnixMillis (ms : Z) : Time := FromUnixDuration (Milliseconds ms).
Definition FromUnixSeconds (s : Z) : Time := FromUnixDuration (Seconds s).
Definition FromTimeT (t : Z) : Time := FromUnixDuration (Seconds t).
Definition FromUniversal (universal : Z) : Time :=
  time_add UniversalEpoch (mul (Nanoseconds universal) 100).

Definition FloorToUnit (d unit : Duration) : Z :=
  let '(q, rem) := IDivDuration d unit in
  if (q >? 0) || geb rem ZeroDuration || (q =? kint64min) then q else q - 1.

Definition ToUnixNanos (t : Time) : Z :=
  let d := ToUnixDuration t in
  if (GetRepHi d >=? 0) && ((GetRepHi d >> 33) =? 0)
  then GetRepHi d * 1000 * 1000 * 1000 + Z.quot (GetRepLo d) 4
  else FloorToUnit d (Nanoseconds 1).

Definition ToUnixMicros (t : Time) : Z :=
  let d := ToUnixDuration t in
  if (GetRepHi d >=? 0) && ((GetRepHi d >> 43) =? 0)
  then GetRepHi d * 1000 * 1000 + Z.quot (GetRepLo d) 4000
  else FloorToUnit d (Microseconds 1).

Definition ToUnixMillis (t : Time) : Z :=
  let d := ToUnixDuration t in
  if (GetRepHi d >=? 0) && ((GetRepHi d >> 53) =? 0)
  then GetRepHi d * 1000 + Z.quot (GetRepLo d) (4000 * 1000)
  else FloorToUnit d (Milliseconds 1).

Definition ToUnixSeconds (t : Time) : Z := GetRepHi (ToUnixDuration t).

Definition ToUniversal (t : Time) : Z := FloorToUnit (time_diff t UniversalEpoch) (Nanoseconds 100).

Definition TimeFromTimespec (ts : timespec) : Time := FromUnixDuration (DurationFromTimespec ts).
Definition TimeFromTimeval (tv : timeval) : Time := FromUnixDuration (DurationFromTimeval tv).

Definition TimeToTimespec (tw : Z) (t : Time) : timespec :=
  let d := ToUnixDuration t in
  if negb (IsInfiniteDuration d) && (wraps tw (GetRepHi d) =? GetRepHi d)
  then mk_timespec (wraps tw (GetRepHi d)) (Z.quot (GetRepLo d) 4)
  else extreme_timespec tw d.

Definition TimeToTimeval (tw vw : Z) (t : Time) : timeval := narrow_timeval vw (TimeToTimespec tw t).

Definition ToTimeT (tw : Z) (t : Time) : Z := tv_sec (TimeToTimespec tw t).

(** ** Specification: extended tick counts *)
Inductive ext := NegInf | Fin (z : Z) | PosInf.

Definition dur_ok (d : Duration) : Prop :=
  in_u 32 (hr_lo (rep_hi_ d)) /\ in_u 32 (hr_hi (rep_hi_ d)) /\
  (0 <= GetRepLo d < kTicksPerSecond \/
   GetRepLo d = uint32_max /\ (GetRepHi d = kint64min \/ GetRepHi d = kint64max)).

Definition ticks (d : Duration) : ext :=
  if IsInfiniteDuration d then if GetRepHi d <? 0 then NegInf else PosInf
  else Fin (GetRepHi d * kTicksPerSecond + GetRepLo d).

(** The first tick count that is too large. *)
Definition tick_limit : Z := 2 ^ 63 * kTicksPerSecond.

Definition saturate (z : Z) : ext :=
  if z <? - tick_limit then NegInf else if z >=? tick_limit then PosInf else Fin z.

Definition NegInfiniteDuration : Duration := MakeDuration kint64min uint32_max.

(** The duration of an extended tick count. *)
Definition of_ext (e : ext) : Duration :=
  match e with
  | NegInf => NegInfiniteDuration
  | Fin z => MakeDuration (z / kTicksPerSecond) (z mod kTicksPerSecond)
  | PosInf => InfiniteDuration
  end.

Definition ext_ok (e : ext) : Prop :=
  match e with Fin z => - tick_limit <= z < tick_limit | _ => True end.

(** Arithmetic on extended integers: infinities absorb, the left one first. *)
Definition ext_opp (e : ext) : ext :=
  match e with NegInf => PosInf | PosInf => NegInf | Fin z => saturate (- z) end.

Definition ext_add (a b : ext) : ext :=
  match a, b with
  | Fin x, Fin y => saturate (x + y)
  | Fin _, e => e
  | e, _ => e
  end.

Definition ext_sub (a b : ext) : ext :=
  match a, b with
  | Fin x, Fin y => saturate (x - y)
  | Fin _, e => ext_opp e
  | e, _ => e
  end.

Definition ext_inf (neg : bool) : ext := if neg then NegInf else PosInf.
Definition ext_neg (e : ext) : bool :=
  match e with NegInf => true | PosInf => false | Fin z => z <? 0 end.

Definition ext_mul (a : ext) (r : Z) : ext :=
  match a with
  | Fin x => saturate (x * r)
  | e => ext_inf (xorb (r <? 0) (ext_neg e))
  end.

Definition ext_div (a : ext) (r : Z) : ext :=
  match a with
  | Fin x => if r =? 0 then ext_inf (x <? 0) else saturate (Z.quot x r)
  | e => ext_inf (xorb (r <? 0) (ext_neg e))
  end.

Definition ext_compare (a b : ext) : comparison :=
  match a, b with
  | NegInf, NegInf | PosInf, PosInf => Eq
  | NegInf, _ | _, PosInf => Lt
  | _, NegInf | PosInf, _ => Gt
  | Fin x, Fin y => x ?= y
  end.

(** ** The representation *)
Ltac lits :=
  change tick_limit with 36893488147419103232000000000 in *;
  change kTicksPerSecond with 4000000000 in *; change kTicksPerNanosecond with 4 in *;
  change uint32_max with 4294967295 in *; change kint64min with (-9223372036854775808) in *;
  change kint64max with 9223372036854775807 in *;
  rewrite ?in_s64_iff, ?in_u64_iff, ?in_u32_iff in *;
  change (2 ^ 63) with 9223372036854775808 in *; change (2 ^ 32) with 4294967296 in *;
  change (2 ^ 64) with 18446744073709551616 in *.

Lemma HiRep_Get_set v : in_s 64 v -> HiRep_Get (HiRep_set v) = v.
Proof.
  intros Hv. unfold HiRep_Get, HiRep_set. cbn [hr_hi hr_lo].
  set (u := wrapu 64 v). assert (Hu : in_u 64 u) by (apply wrapu_range; lia).
  rewrite (wrapu_small 32 (u >> 32)), (wrapu_small 64).
  - rewrite Z.lor_comm, lor_lohi by (try apply wrapu_range; lia).
    rewrite Z.shiftr_div_pow2 by lia. unfold wrapu at 1.
    rewrite Z.add_comm, <- Z.div_mod by lia. unfold u.
    rewrite wraps_of_wrapu by lia. now apply wraps_small.
  - rewrite Z.shiftl_mul_pow2, Z.shiftr_div_pow2 by lia.
    change (2 ^ 32) with 4294967296 in *. lits. zlia.
  - rewrite Z.shiftr_div_pow2 by lia. lits. zlia.
Qed.

Lemma HiRep_set_Get h :
  in_u 32 (hr_lo h) -> in_u 32 (hr_hi h) -> HiRep_set (HiRep_Get h) = h /\ in_s 64 (HiRep_Get h).
Proof.
  intros Hl Hh. split; [|apply wraps_range; lia]. destruct h as [l h]. cbn in Hl, Hh.
  unfold HiRep_Get, HiRep_set. cbn [hr_hi hr_lo].
  assert (E : (h <<[64] 32) .| l = l + 2 ^ 32 * h).
  { rewrite wrapu_small by (rewrite Z.shiftl_mul_pow2 by lia; lits; zlia).
    rewrite Z.lor_comm. apply lor_lohi; [lia|exact Hl]. }
  rewrite E. assert (Hx : in_u 64 (l + 2 ^ 32 * h)) by (lits; lia).
  assert (W : wrapu 64 (wraps 64 (l + 2 ^ 32 * h)) = l + 2 ^ 32 * h).
  { unfold wraps, wrapu. rewrite Zminus_mod_idemp_l, Z.add_simpl_r. now apply Z.mod_small. }
  rewrite W, Z.shiftr_div_pow2 by lia. f_equal.
  - unfold wrapu. rewrite (Z.mul_comm (2 ^ 32)), Z.mod_add by lia. now apply Z.mod_small.
  - rewrite (Z.mul_comm (2 ^ 32)), Z.div_add, Z.div_small, Z.add_0_l by (lits; lia).
    now apply wrapu_small.
Qed.

Lemma GetRepHi_Make hi lo : in_s 64 hi -> GetRepHi (MakeDuration hi lo) = hi.
Proof. apply HiRep_Get_set. Qed.

Lemma GetRepLo_Make hi lo : in_u 32 lo -> GetRepLo (MakeDuration hi lo) = lo.
Proof. apply wrapu_small. Qed.

Lemma GetRep_Fin z :
  - tick_limit <= z < tick_limit ->
  GetRepHi (of_ext (Fin z)) = z / kTicksPerSecond /\ GetRepLo (of_ext (Fin z)) = z mod kTicksPerSecond.
Proof.
  intros Hz. cbn [of_ext]. split; [apply GetRepHi_Make|apply GetRepLo_Make]; lits; zlia.
Qed.

Lemma of_ext_ticks d : dur_ok d -> of_ext (ticks d) = d /\ ext_ok (ticks d).
Proof.
  intros (H1 & H2 & H3). destruct d as [h lo]. unfold GetRepLo, GetRepHi in H3.
  cbn [rep_hi_ rep_lo_] in H1, H2, H3.
  destruct (HiRep_set_Get h H1 H2) as [E R]. unfold ticks, IsInfiniteDuration, GetRepLo, GetRepHi.
  cbn [rep_hi_ rep_lo_].
  destruct (lo =? uint32_max) eqn:El; zbool.
  - subst lo. destruct H3 as [H3|[_ [H3|H3]]]; [lits; lia|..]; rewrite H3;
      (split; [|exact I]); cbn [of_ext Z.ltb]; unfold NegInfiniteDuration, InfiniteDuration, MakeDuration;
      rewrite <- E, H3; reflexivity.
  - assert (L : 0 <= lo < kTicksPerSecond) by intuition lia.
    cbn [of_ext ext_ok]. split; [|lits; lia].
    rewrite Z.div_add_l, Z.div_small, Z.add_0_r by (lits; lia).
    rewrite Z.add_comm, Z.mod_add, Z.mod_small by (lits; lia).
    unfold MakeDuration. rewrite E, wrapu_small by (lits; lia). reflexivity.
Qed.

Lemma MakeDuration_words hi lo :
  in_u 32 (hr_lo (rep_hi_ (MakeDuration hi lo))) /\ in_u 32 (hr_hi (rep_hi_ (MakeDuration hi lo))).
Proof. cbn. split; apply wrapu_range; lia. Qed.

Lemma ticks_of_ext e : ext_ok e -> ticks (of_ext e) = e /\ dur_ok (of_ext e).
Proof.
  destruct e as [|z|]; intros Hz; [split; [reflexivity|]; vm_compute; intuition congruence| |
    split; [reflexivity|]; vm_compute; intuition congruence].
  destruct (GetRep_Fin z Hz) as [E1 E2]. pose proof (Z.mod_pos_bound z kTicksPerSecond eq_refl) as B.
  unfold ticks, IsInfiniteDuration, dur_ok. rewrite E1, E2.
  destruct (MakeDuration_words (z / kTicksPerSecond) (z mod kTicksPerSecond)) as [W1 W2].
  split; [|auto]. destruct (_ =? uint32_max) eqn:E; zbool; [lits; lia|].
  f_equal. rewrite Z.mul_comm. symmetry. apply Z.div_mod. discriminate.
Qed.

Lemma saturate_ok z : ext_ok (saturate z).
Proof. unfold saturate. repeat case_if; cbn [ext_ok]; try exact I. zbool. lia. Qed.

Lemma saturate_in z : - tick_limit <= z < tick_limit -> saturate z = Fin z.
Proof. intros. unfold saturate. repeat case_if; zbool; try lia; reflexivity. Qed.

Lemma make_fin hi lo z :
  in_s 64 hi -> 0 <= lo < kTicksPerSecond -> hi * kTicksPerSecond + lo = z ->
  MakeDuration hi lo = of_ext (saturate z).
Proof.
  intros Hhi Hlo <-. rewrite saturate_in by (lits; lia). cbn [of_ext].
  rewrite Z.div_add_l, Z.div_small, Z.add_0_r by (lits; lia).
  rewrite Z.add_comm, Z.mod_add, Z.mod_small by (lits; lia). reflexivity.
Qed.

Lemma infinite_Fin z : ext_ok (Fin z) -> IsInfiniteDuration (of_ext (Fin z)) = false.
Proof.
  intros Hz. unfold IsInfiniteDuration. destruct (GetRep_Fin z Hz) as [_ ->].
  apply Z.eqb_neq. pose proof (Z.mod_pos_bound z kTicksPerSecond eq_refl). lits. lia.
Qed.

Lemma infinite_of_ext e :
  ext_ok e -> IsInfiniteDuration (of_ext e) = match e with Fin _ => false | _ => true end.
Proof. destruct e; [reflexivity|apply infinite_Fin|reflexivity]. Qed.

(** The two fields of a finite duration, as the quotient and remainder of its tick count. *)
Lemma fields_of_Fin z :
  ext_ok (Fin z) ->
  exists hi lo, GetRepHi (of_ext (Fin z)) = hi /\ GetRepLo (of_ext (Fin z)) = lo /\
    in_s 64 hi /\ 0 <= lo < kTicksPerSecond /\ z = hi * kTicksPerSecond + lo.
Proof.
  intros Hz. destruct (GetRep_Fin z Hz) as [E1 E2].
  exists (z / kTicksPerSecond), (z mod kTicksPerSecond). cbn [ext_ok] in Hz.
  repeat split; auto; try (lits; zlia).
Qed.

Ltac fin_fields z Hz hi lo :=
  let E1 := fresh "Ehi" in let E2 := fresh "Elo" in
  let B1 := fresh "Bhi" in let B2 := fresh "Blo" in let E := fresh "Ez" in
  destruct (fields_of_Fin z Hz) as (hi & lo & E1 & E2 & B1 & B2 & E);
  rewrite ?(infinite_Fin z Hz), ?E1, ?E2.

Lemma saturate_pos z : tick_limit <= z -> saturate z = PosInf.
Proof. intros. unfold saturate. repeat case_if; zbool; try reflexivity; lits; lia. Qed.

Lemma saturate_neg z : z < - tick_limit -> saturate z = NegInf.
Proof. intros. unfold saturate. repeat case_if; zbool; try reflexivity; lits; lia. Qed.

Lemma opp_Infinite : opp InfiniteDuration = of_ext NegInf.
Proof. reflexivity. Qed.

Lemma opp_of_ext e : ext_ok e -> opp (of_ext e) = of_ext (ext_opp e).
Proof.
  destruct e as [|z|]; intros Hz; [reflexivity| |reflexivity].
  unfold opp. fin_fields z Hz hi lo. cbn [ext_opp].
  destruct (lo =? 0) eqn:E0; [destruct (hi =? kint64min) eqn:E1|]; zbool.
  - rewrite saturate_pos by (lits; lia). reflexivity.
  - apply make_fin; lits; lia.
  - unfold NegateAndSubtractOne. apply make_fin; destruct (hi <? 0); lits; lia.
Qed.

Lemma twos_add a b : DecodeTwosComp (EncodeTwosComp a +[64] EncodeTwosComp b) = wraps 64 (a + b).
Proof.
  unfold DecodeTwosComp, EncodeTwosComp. rewrite wraps_of_wrapu by lia.
  rewrite <- wraps_of_wrapu, wrapu_add_l, wrapu_add_r, wraps_of_wrapu by lia. reflexivity.
Qed.

Lemma twos_sub a b : DecodeTwosComp (EncodeTwosComp a -[64] EncodeTwosComp b) = wraps 64 (a - b).
Proof.
  unfold DecodeTwosComp, EncodeTwosComp. rewrite wraps_of_wrapu by lia.
  rewrite <- wraps_of_wrapu by lia. unfold wrapu. rewrite <- Zminus_mod. apply wraps_of_wrapu. lia.
Qed.

Lemma twos_succ x : DecodeTwosComp (EncodeTwosComp (wraps 64 x) +[64] 1) = wraps 64 (x + 1).
Proof.
  change 1 with (EncodeTwosComp 1) at 1. rewrite twos_add. unfold wraps at 2.
  replace (_ + 1) with ((x + 2 ^ (64 - 1)) mod 2 ^ 64 + (1 - 2 ^ (64 - 1))) by lia.
  unfold wraps. rewrite <- Z.add_assoc, Zplus_mod_idemp_l. do 2 f_equal. lia.
Qed.

Lemma twos_pred x : DecodeTwosComp (EncodeTwosComp (wraps 64 x) -[64] 1) = wraps 64 (x - 1).
Proof.
  change 1 with (EncodeTwosComp 1) at 1. rewrite twos_sub. unfold wraps at 2.
  replace (_ - 1) with ((x + 2 ^ (64 - 1)) mod 2 ^ 64 + (- 1 - 2 ^ (64 - 1))) by lia.
  unfold wraps. rewrite <- Z.add_assoc, Zplus_mod_idemp_l. do 2 f_equal. lia.
Qed.

(** A sum of two 64-bit values and a carry wraps at most once. *)
Lemma wraps64_cases x :
  - 18446744073709551616 <= x < 18446744073709551616 ->
  (in_s 64 x /\ wraps 64 x = x) \/
  (9223372036854775808 <= x /\ wraps 64 x = x - 18446744073709551616) \/
  (x < - 9223372036854775808 /\ wraps 64 x = x + 18446744073709551616).
Proof.
  intros Hx. destruct (Z_lt_ge_dec x (-9223372036854775808)); [|destruct (Z_lt_ge_dec x 9223372036854775808)].
  - right; right. split; [lia|]. rewrite (wraps_unique 64 x 1); [reflexivity|lia|lits; lia].
  - left. split; [lits; lia|]. apply wraps_small; lits; lia.
  - right; left. split; [lia|]. rewrite (wraps_unique 64 x (-1)); [reflexivity|lia|lits; lia].
Qed.

(** The tail of addition and subtraction: the wrapped seconds, and the overflow test. *)
Lemma add_finish (orig rhs_hi s lo z : Z) :
  in_s 64 orig -> in_s 64 rhs_hi -> 0 <= lo < kTicksPerSecond ->
  (s = orig + rhs_hi \/ s = orig + rhs_hi + 1) -> z = s * kTicksPerSecond + lo ->
  (if (if rhs_hi <? 0 then wraps 64 s >? orig else wraps 64 s <? orig)
   then if rhs_hi <? 0 then opp InfiniteDuration else InfiniteDuration
   else MakeDuration (wraps 64 s) lo) = of_ext (saturate z).
Proof.
  intros Ho Hr Hl Hs ->. rewrite opp_Infinite. change InfiniteDuration with (of_ext PosInf).
  destruct (wraps64_cases s) as [[R ->]|[[R ->]|[R ->]]]; [lits; lia|..].
  - destruct (rhs_hi <? 0) eqn:E; zbool; case_if; zbool; try (exfalso; lits; lia); apply make_fin; lits; lia.
  - rewrite saturate_pos by (lits; lia).
    destruct (rhs_hi <? 0) eqn:E; zbool; case_if; zbool; try reflexivity; lits; lia.
  - rewrite saturate_neg by (lits; lia).
    destruct (rhs_hi <? 0) eqn:E; zbool; case_if; zbool; try reflexivity; lits; lia.
Qed.

Lemma sub_finish (orig rhs_hi s lo z : Z) :
  in_s 64 orig -> in_s 64 rhs_hi -> 0 <= lo < kTicksPerSecond ->
  (s = orig - rhs_hi \/ s = orig - rhs_hi - 1) -> z = s * kTicksPerSecond + lo ->
  (if (if rhs_hi <? 0 then wraps 64 s <? orig else wraps 64 s >? orig)
   then if rhs_hi >=? 0 then opp InfiniteDuration else InfiniteDuration
   else MakeDuration (wraps 64 s) lo) = of_ext (saturate z).
Proof.
  intros Ho Hr Hl Hs ->. rewrite opp_Infinite. change InfiniteDuration with (of_ext PosInf).
  destruct (wraps64_cases s) as [[R ->]|[[R ->]|[R ->]]]; [lits; lia|..].
  - destruct (rhs_hi <? 0) eqn:E; zbool; case_if; zbool; try (exfalso; lits; lia);
      apply make_fin; lits; lia.
  - rewrite saturate_pos by (lits; lia).
    destruct (rhs_hi <? 0) eqn:E, (rhs_hi >=? 0) eqn:E'; zbool; case_if; zbool;
      try reflexivity; lits; lia.
  - rewrite saturate_neg by (lits; lia).
    destruct (rhs_hi <? 0) eqn:E, (rhs_hi >=? 0) eqn:E'; zbool; case_if; zbool;
      try reflexivity; lits; lia.
Qed.

Lemma add_of_ext a b :
  ext_ok a -> ext_ok b -> add (of_ext a) (of_ext b) = of_ext (ext_add a b).
Proof.
  intros Ha Hb. unfold add. rewrite !infinite_of_ext by assumption.
  destruct a as [|x|], b as [|y|]; try reflexivity.
  fin_fields x Ha hi lo. fin_fields y Hb hi' lo'. rewrite twos_add. cbn [ext_add].
  destruct (lo >=? kTicksPerSecond - lo') eqn:E; zbool; [rewrite twos_succ|];
    apply add_finish; auto; try (unfold wrapu; lits; zlia).
Qed.

Lemma sub_of_ext a b :
  ext_ok a -> ext_ok b -> sub (of_ext a) (of_ext b) = of_ext (ext_sub a b).
Proof.
  intros Ha Hb. unfold sub. rewrite !infinite_of_ext by assumption.
  destruct a as [|x|], b as [|y|]; try reflexivity.
  fin_fields x Ha hi lo. fin_fields y Hb hi' lo'. rewrite twos_sub. cbn [ext_sub].
  destruct (lo <? lo') eqn:E; zbool; [rewrite twos_pred|];
    apply sub_finish; auto; try (unfold wrapu; lits; zlia).
Qed.

(** ** Comparison *)

(** The order of the representation, as one integer. *)
Definition order_key (hi lo : Z) : Z :=
  hi * 4294967296 + (if hi =? kint64min then (lo + 1) mod 4294967296 else lo).

Lemma compare_key a b :
  in_u 32 (GetRepLo a) -> in_u 32 (GetRepLo b) ->
  compare a b = (order_key (GetRepHi a) (GetRepLo a) ?= order_key (GetRepHi b) (GetRepLo b)).
Proof.
  unfold compare, order_key. set (h := GetRepHi a). set (h' := GetRepHi b).
  set (l := GetRepLo a). set (l' := GetRepLo b). intros Hl Hl'. unfold wrapu. lits.
  pose proof (Z.mod_pos_bound (l + 1) 4294967296 eq_refl).
  pose proof (Z.mod_pos_bound (l' + 1) 4294967296 eq_refl).
  destruct (Z.compare_spec h h') as [<-|L|L]; symmetry.
  - destruct (h =? _); apply Zcompare_plus_compat.
  - apply Z.compare_lt_iff. destruct (h =? _), (h' =? _); lia.
  - apply Z.compare_gt_iff. destruct (h =? _), (h' =? _); lia.
Qed.

Definition ext_key (e : ext) : Z :=
  match e with
  | NegInf => order_key kint64min uint32_max
  | Fin z => order_key (z / kTicksPerSecond) (z mod kTicksPerSecond)
  | PosInf => order_key kint64max uint32_max
  end.

Lemma of_ext_key e :
  ext_ok e -> order_key (GetRepHi (of_ext e)) (GetRepLo (of_ext e)) = ext_key e /\
              in_u 32 (GetRepLo (of_ext e)).
Proof.
  destruct e as [|z|]; intros H; [split; [reflexivity|vm_compute; intuition congruence]| |
                                  split; [reflexivity|vm_compute; intuition congruence]].
  destruct (GetRep_Fin z H) as [-> ->]. split; [reflexivity|].
  pose proof (Z.mod_pos_bound z kTicksPerSecond eq_refl). lits. lia.
Qed.

Lemma ext_key_compare a b :
  ext_ok a -> ext_ok b -> (ext_key a ?= ext_key b) = ext_compare a b.
Proof.
  change (ext_key NegInf) with (order_key kint64min uint32_max).
  assert (F : forall z, ext_ok (Fin z) ->
    ext_key NegInf < ext_key (Fin z) < ext_key PosInf).
  { intros z Hz. cbn [ext_ok] in Hz. unfold ext_key, order_key.
    pose proof (Z.mod_pos_bound z kTicksPerSecond eq_refl) as B.
    pose proof (Z.div_mod z kTicksPerSecond ltac:(discriminate)) as D. lits.
    change (-9223372036854775808 =? -9223372036854775808) with true.
    change (9223372036854775807 =? -9223372036854775808) with false.
    change ((4294967295 + 1) mod 4294967296) with 0. cbv iota.
    destruct (_ =? _) eqn:E; zbool; [rewrite Z.mod_small by lia|]; lia. }
  intros Ha Hb. destruct a as [|x|], b as [|y|]; cbn [ext_compare]; try apply Z.compare_refl.
  all: try (apply Z.compare_lt_iff; first [apply F; assumption|reflexivity]).
  all: try (apply Z.compare_gt_iff; first [apply F; assumption|reflexivity]).
  cbn [ext_ok] in Ha, Hb. unfold ext_key, order_key.
  pose proof (Z.mod_pos_bound x kTicksPerSecond eq_refl) as Bx.
  pose proof (Z.div_mod x kTicksPerSecond ltac:(discriminate)) as Dx.
  pose proof (Z.mod_pos_bound y kTicksPerSecond eq_refl) as By.
  pose proof (Z.div_mod y kTicksPerSecond ltac:(discriminate)) as Dy.
  rewrite !(Z.mod_small (_ + 1)) by (lits; lia).
  destruct (Z.compare_spec x y) as [<-|L|L]; [apply Z.compare_refl|apply Z.compare_lt_iff|apply Z.compare_gt_iff];
    destruct (x / _ =? _) eqn:E1, (y / _ =? _) eqn:E2; zbool; lits; lia.
Qed.

Lemma compare_of_ext a b :
  ext_ok a -> ext_ok b -> compare (of_ext a) (of_ext b) = ext_compare a b.
Proof.
  intros Ha Hb. destruct (of_ext_key a Ha) as [Ea Ia], (of_ext_key b Hb) as [Eb Ib].
  rewrite compare_key, Ea, Eb by assumption. now apply ext_key_compare.
Qed.

Lemma ltb_compare a b : ltb a b = match compare a b with Lt => true | _ => false end.
Proof.
  unfold ltb, compare. destruct (Z.compare_spec (GetRepHi a) (GetRepHi b)) as [E|L|L].
  - rewrite E, Z.eqb_refl. cbn [negb]. now destruct (GetRepHi b =? kint64min).
  - rewrite (proj2 (Z.eqb_neq _ _)) by lia. apply Z.ltb_lt. lia.
  - rewrite (proj2 (Z.eqb_neq _ _)) by lia. apply Z.ltb_ge. lia.
Qed.

Definition ext_ltb (a b : ext) : bool := match ext_compare a b with Lt => true | _ => false end.

Lemma ltb_of_ext a b : ext_ok a -> ext_ok b -> ltb (of_ext a) (of_ext b) = ext_ltb a b.
Proof. intros. rewrite ltb_compare, compare_of_ext by assumption. reflexivity. Qed.

Lemma eqb_eq_dur a b : dur_ok a -> dur_ok b -> eqb a b = true <-> a = b.
Proof.
  intros Ha Hb. split; [|intros ->; unfold eqb; now rewrite !Z.eqb_refl].
  unfold eqb. intros [Eh El]%andb_true_iff. rewrite Z.eqb_eq in Eh, El.
  assert (T : ticks a = ticks b) by (unfold ticks, IsInfiniteDuration; now rewrite Eh, El).
  destruct (of_ext_ticks a Ha) as [Ea _], (of_ext_ticks b Hb) as [Eb _]. congruence.
Qed.

(** ** 128-bit tick counts *)
Lemma in_u128_iff x : in_u 128 x <-> 0 <= x < 340282366920938463463374607431768211456.
Proof. unfold in_u. change (2 ^ 128) with 340282366920938463463374607431768211456. lia. Qed.

Lemma wrapu128_small x : 0 <= x < 340282366920938463463374607431768211456 -> wrapu 128 x = x.
Proof. intros. apply wrapu_small. now rewrite <- in_u128_iff in *. Qed.

Lemma U_ticks_val :
  uint128_ok (U.of_unsigned kTicksPerSecond) /\ uval (U.of_unsigned kTicksPerSecond) = kTicksPerSecond.
Proof. apply U_of_unsigned_val. lits. lia. Qed.

Lemma U_zero_val : uint128_ok (U.of_signed 0) /\ uval (U.of_signed 0) = 0.
Proof. split; [vm_compute; intuition congruence|reflexivity]. Qed.

Lemma U_one_val : uint128_ok (U.of_signed 1) /\ uval (U.of_signed 1) = 1.
Proof. split; [vm_compute; intuition congruence|reflexivity]. Qed.

Lemma MakeU128_val a : in_s 64 a -> uint128_ok (MakeU128 a) /\ uval (MakeU128 a) = Z.abs a.
Proof.
  intros Ha. unfold MakeU128. destruct U_zero_val as [Z1 Z2].
  destruct (a <? 0) eqn:E; zbool.
  - assert (I : uint128_ok (U.incr (U.of_signed 0)) /\ uval (U.incr (U.of_signed 0)) = 1)
      by (split; [vm_compute; intuition congruence|reflexivity]). destruct I as [I1 I2].
    assert (W : wrapu 64 (- (a + 1)) = - (a + 1)) by (apply wrapu_small; lits; lia).
    destruct (U_of_unsigned_val (wrapu 64 (- (a + 1)))) as [V1 V2]; [apply wrapu_range; lia|].
    destruct (U_add_val _ _ I1 V1) as [A1 A2]. split; [exact A1|].
    rewrite A2, I2, V2, W, wrapu128_small; lits; lia.
  - assert (W : wrapu 64 a = a) by (apply wrapu_small; lits; lia).
    destruct (U_of_unsigned_val (wrapu 64 a)) as [V1 V2]; [apply wrapu_range; lia|].
    destruct (U_add_val _ _ Z1 V1) as [A1 A2]. split; [exact A1|].
    rewrite A2, Z2, V2, W, wrapu128_small; lits; lia.
Qed.

Lemma MakeU128Ticks_val z :
  ext_ok (Fin z) ->
  uint128_ok (MakeU128Ticks (of_ext (Fin z))) /\ uval (MakeU128Ticks (of_ext (Fin z))) = Z.abs z.
Proof.
  intros Hz. unfold MakeU128Ticks. fin_fields z Hz hi lo.
  set (p := if hi <? 0 then _ else _).
  assert (P : in_u 64 (fst p) /\ in_u 32 (snd p) /\ fst p * kTicksPerSecond + snd p = Z.abs z).
  { unfold p. destruct (hi <? 0) eqn:E; zbool; cbn [fst snd]; unfold wrapu;
      rewrite ?Z.mod_small by (lits; lia); lits; lia. }
  destruct p as [h l]. cbn [fst snd] in P. destruct P as (Ph & Pl & PE).
  rewrite (wrapu_small 64 h) by (lits; lia).
  destruct U_ticks_val as [T1 T2]. destruct (U_of_unsigned_val h) as [V1 V2]; [lits; lia|].
  destruct (U_of_unsigned_val l) as [L1 L2]; [lits; lia|].
  destruct (U_mul_val _ _ V1 T1) as [M1 M2]. destruct (U_add_val _ _ M1 L1) as [A1 A2].
  split; [exact A1|]. rewrite A2, M2, V2, T2, L2. rewrite (wrapu128_small (h * _)) by (lits; lia). rewrite wrapu128_small; lits; lia.
Qed.

(** The last lines of [MakeDurationFromU128], given the quotient and remainder. *)
Lemma from_u128_finish (is_neg : bool) hi lo u :
  0 <= hi <= kint64max -> 0 <= lo < kTicksPerSecond -> u = hi * kTicksPerSecond + lo ->
  (let '(rep_hi, rep_lo) :=
     if is_neg then
       let rep_hi := - hi in
       if negb (lo =? 0) then (rep_hi - 1, kTicksPerSecond -[32] lo) else (rep_hi, lo)
     else (hi, lo) in
   MakeDuration rep_hi rep_lo) = of_ext (saturate (if is_neg then - u else u)).
Proof.
  intros Hh Hl Hu. destruct is_neg; cbv zeta; [destruct (lo =? 0) eqn:E; zbool; cbn [negb]|].
  - apply make_fin; lits; lia.
  - unfold wrapu. rewrite Z.mod_small by (lits; lia). apply make_fin; lits; lia.
  - apply make_fin; lits; lia.
Qed.

Lemma MakeDurationFromU128_val u (is_neg : bool) :
  uint128_ok u ->
  MakeDurationFromU128 u is_neg = of_ext (saturate (if is_neg then - uval u else uval u)).
Proof.
  intros Hu. pose proof Hu as [Hh Hl]. unfold MakeDurationFromU128.
  set (h := Uint128High64 u) in *. set (l := Uint128Low64 u) in *.
  assert (EU : uval u = h * 18446744073709551616 + l) by reflexivity.
  destruct (h =? 0) eqn:E0; [|destruct (h >=? kMaxRepHi64) eqn:E1]; zbool.
  - assert (D : 0 <= l / kTicksPerSecond <= kint64max) by (lits; zlia).
    rewrite (wraps_small 64 (l / _)) by (lits; lia). unfold wrapu.
    rewrite (Z.mod_small (l / _ * _)) by (lits; zlia).
    rewrite (Z.mod_small (_ - _) (2 ^ 64)) by (lits; zlia).
    rewrite (Z.mod_small (_ - _)) by (lits; zlia).
    apply from_u128_finish; [exact D|lits; zlia|lits; zlia].
  - change kMaxRepHi64 with 2000000000 in *.
    change (opp InfiniteDuration) with (of_ext NegInf). change InfiniteDuration with (of_ext PosInf).
    destruct is_neg; cbn [andb]; [|rewrite saturate_pos by (lits; lia); reflexivity].
    destruct ((h =? 2000000000) && (l =? 0)) eqn:E; [zbool|apply andb_false_iff in E; rewrite !Z.eqb_neq in E].
    + apply make_fin; lits; lia.
    + rewrite saturate_neg by (lits; lia). reflexivity.
  - change kMaxRepHi64 with 2000000000 in *. destruct U_ticks_val as [T1 T2].
    destruct (U_divmod_val u _ Hu T1 ltac:(rewrite T2; discriminate)) as (D1 & _ & D2 & _).
    fold (U_div u (U.of_unsigned kTicksPerSecond)) in D1, D2. set (q := U_div _ _) in *.
    rewrite T2 in D2. destruct (U_mul_val _ _ D1 T1) as [M1 M2].
    destruct (U_sub_val _ _ Hu M1) as [S1 S2]. rewrite T2, D2 in M2. rewrite M2 in S2.
    assert (Q : 0 <= uval u / kTicksPerSecond <= kint64max) by (lits; zlia).
    rewrite (wrapu128_small (_ * _)) in S2 by (lits; zlia).
    rewrite (wrapu128_small (_ - _)) in S2 by (lits; zlia).
    rewrite (low64_small q), D2 by (auto; rewrite D2; lits; lia).
    rewrite (low64_small (U.sub _ _)), S2 by (auto; rewrite S2; lits; zlia).
    rewrite wraps_small by (lits; lia). rewrite wrapu_small by (lits; zlia).
    apply from_u128_finish; [exact Q|lits; zlia|lits; zlia].
Qed.

(** ** Scaling *)
Lemma SafeMultiply_val a b :
  uint128_ok a -> uint128_ok b -> Uint128High64 b = 0 ->
  uint128_ok (SafeMultiply a b) /\ uval (SafeMultiply a b) = Z.min (uval a * uval b) (2 ^ 128 - 1).
Proof.
  intros Ha Hb Hb0. pose proof (uval_range a Ha) as Ra. pose proof (uval_range b Hb) as Rb.
  destruct (U_mul_val a b Ha Hb) as [M1 M2]. destruct U_zero_val as [Z1 Z2].
  assert (B : uval b = Uint128Low64 b) by (unfold uval; rewrite Hb0; lia).
  unfold SafeMultiply, U.gtb. rewrite (U_eqb_val b _ Hb Z1), Z2. rewrite in_u128_iff in *.
  change (2 ^ 128 - 1) with 340282366920938463463374607431768211455.
  destruct Ha as [Ha1 Ha2], Hb as [Hb1 Hb2]. rewrite in_u64_iff in *.
  destruct (Uint128High64 a =? 0) eqn:E0; zbool.
  - assert (A : uval a = Uint128Low64 a) by (unfold uval; rewrite E0; lia).
    assert (P : uval a * uval b < 340282366920938463463374607431768211456) by (rewrite A, B; nia).
    destruct (_ =? 0) eqn:E1; zbool.
    + assert (L : in_u 32 (Uint128Low64 a) /\ in_u 32 (Uint128Low64 b)).
      { rewrite Z.shiftr_lor in E1. apply Z.lor_eq_0_iff in E1. rewrite !Z.shiftr_div_pow2 in E1 by lia.
        change (2 ^ 32) with 4294967296 in E1. rewrite !in_u32_iff. clear -E1 Ha2 Hb2. zlia. }
      rewrite !in_u32_iff in L.
      rewrite wrapu_small by (change (2 ^ 64) with 18446744073709551616; nia).
      destruct (U_of_unsigned_val (Uint128Low64 a * Uint128Low64 b)) as [V1 V2];
        [rewrite in_u64_iff; nia|].
      split; [exact V1|]. rewrite V2, A, B. nia.
    + split; [exact M1|]. rewrite M2, wrapu128_small by nia. lia.
  - destruct (uval b =? 0) eqn:E1; zbool; [split; [split; assumption|lia]|].
    assert (X : uint128_ok Uint128Max /\ uval Uint128Max = 340282366920938463463374607431768211455)
      by (split; [vm_compute; intuition congruence|reflexivity]). destruct X as [X1 X2].
    destruct (U_divmod_val Uint128Max b X1 ltac:(split; rewrite ?in_u64_iff; lia) E1) as (D1 & _ & D2 & _).
    rewrite U_ltb_val by (try exact D1; split; rewrite ?in_u64_iff; lia).
    fold (U_div Uint128Max b) in D2. rewrite D2, X2.
    pose proof (Z.div_mod 340282366920938463463374607431768211455 (uval b) E1) as DM.
    pose proof (Z.mod_pos_bound 340282366920938463463374607431768211455 (uval b) ltac:(lia)) as MB.
    destruct (_ <? uval a) eqn:E2; zbool.
    + split; [exact X1|]. rewrite X2. nia.
    + split; [exact M1|]. rewrite M2, wrapu128_small by nia. nia.
Qed.

Lemma U_high_small u : uint128_ok u -> uval u < 2 ^ 64 -> Uint128High64 u = 0.
Proof. unfold uint128_ok, uval, in_u. lia. Qed.

Lemma saturate_min z m : tick_limit <= m -> saturate (Z.min z m) = saturate z.
Proof.
  intros. destruct (Z_lt_ge_dec z tick_limit); [f_equal; lia|].
  rewrite !saturate_pos by lia. reflexivity.
Qed.

Lemma saturate_opp_min z m : tick_limit < m -> saturate (- Z.min z m) = saturate (- z).
Proof.
  intros. destruct (Z_le_gt_dec z tick_limit); [do 2 f_equal; lia|].
  rewrite !saturate_neg by lia. reflexivity.
Qed.

Lemma mul_of_ext e r : ext_ok e -> in_s 64 r -> mul (of_ext e) r = of_ext (ext_mul e r).
Proof.
  intros He Hr. unfold mul. rewrite infinite_of_ext by assumption.
  destruct e as [|z|]; [cbn [ext_mul ext_div ext_neg]; destruct (r <? 0); reflexivity| |
    cbn [ext_mul ext_div ext_neg]; destruct (r <? 0); reflexivity].
  destruct (MakeU128Ticks_val z He) as [A1 A2]. destruct (MakeU128_val r Hr) as [B1 B2].
  destruct (SafeMultiply_val _ _ A1 B1) as [S1 S2].
  { apply U_high_small; [exact B1|]. rewrite B2. lits. lia. }
  unfold ScaleFixed. fin_fields z He hi lo.
  rewrite MakeDurationFromU128_val, S2, A2, B2 by exact S1. cbn [ext_mul]. f_equal.
  assert (Sg : (hi <? 0) = (z <? 0)) by (apply eq_true_iff_eq; rewrite !Z.ltb_lt; lits; lia).
  rewrite Sg. clear -Hr.
  destruct (z <? 0) eqn:E1, (r <? 0) eqn:E2; cbn [xorb]; zbool;
    rewrite ?saturate_opp_min, ?saturate_min by (lits; lia); f_equal; nia.
Qed.

Lemma div_of_ext e r : ext_ok e -> in_s 64 r -> div (of_ext e) r = of_ext (ext_div e r).
Proof.
  intros He Hr. unfold div. rewrite infinite_of_ext by assumption.
  destruct e as [|z|]; [cbn [ext_mul ext_div ext_neg]; destruct (r <? 0); reflexivity| |
    cbn [ext_mul ext_div ext_neg]; destruct (r <? 0); reflexivity]. cbn [ext_div orb].
  fin_fields z He hi lo.
  assert (Sg : (hi <? 0) = (z <? 0)) by (apply eq_true_iff_eq; rewrite !Z.ltb_lt; lits; lia).
  rewrite Sg. destruct (r =? 0) eqn:E0; zbool; [subst r; now destruct (z <? 0)|].
  destruct (MakeU128Ticks_val z He) as [A1 A2]. destruct (MakeU128_val r Hr) as [B1 B2].
  destruct (U_divmod_val _ _ A1 B1) as (D1 & _ & D2 & _); [lia|].
  unfold ScaleFixed. fold (U_div (MakeU128Ticks (of_ext (Fin z))) (MakeU128 r)) in D1, D2.
  rewrite MakeDurationFromU128_val, D2, A2, B2, Ehi, Sg by exact D1. do 2 f_equal.
  destruct (quot_rem_abs z r E0) as [Q _]. rewrite Q.
  destruct (z <? 0) eqn:E1, (r <? 0) eqn:E2; cbn [xorb]; reflexivity.
Qed.

(** ** Integer division of durations *)
Definition clamp64 (q : Z) : Z := if q <? kint64min then kint64min else if q >? kint64max then kint64max else q.

Lemma clamp64_in q : in_s 64 q -> clamp64 q = q.
Proof. intros. unfold clamp64. repeat case_if; zbool; lits; lia. Qed.

Lemma quot_rem_unique x y q r :
  0 < y -> x = y * q + r -> (0 <= x /\ 0 <= r < y) \/ (x <= 0 /\ - y < r <= 0) ->
  Z.quot x y = q /\ Z.rem x y = r.
Proof.
  intros Hy E [[Hx Hr]|[Hx Hr]].
  - assert (Q : Z.quot x y = q) by (symmetry; now apply (Z.quot_unique x y q r)).
    split; [exact Q|]. pose proof (Z.quot_rem' x y). rewrite Q in *. lia.
  - assert (Q : Z.quot (- x) y = - q) by (symmetry; apply (Z.quot_unique (- x) y (- q) (- r)); lia).
    rewrite Z.quot_opp_l in Q by lia. split; [lia|]. pose proof (Z.quot_rem' x y). nia.
Qed.

(** Dividing by a unit that splits the second into [per_sec] parts. *)
Lemma by_unit_spec hi lo x y per_sec q d :
  x = hi * kTicksPerSecond + lo -> 0 <= lo < kTicksPerSecond ->
  0 < y -> 0 < per_sec <= 1000000000 -> y * per_sec = kTicksPerSecond ->
  (if (hi >=? 0) && (hi <? Z.quot (kint64max - kTicksPerSecond) per_sec)
   then Some (hi * per_sec + Z.quot lo y, MakeDuration 0 (Z.rem lo y)) else None) = Some (q, d) ->
  q = Z.quot x y /\ in_s 64 q /\ d = of_ext (saturate (Z.rem x y)).
Proof.
  intros Ex Hl Hy Hp HT. destruct (_ && _) eqn:E; [|discriminate]. zbool. intros [= <- <-].
  rewrite Z.quot_div_nonneg in * by (lits; lia).
  rewrite Z.rem_mod_nonneg by lia.
  pose proof (Z.div_mod lo y ltac:(lia)) as DM. pose proof (Z.mod_pos_bound lo y Hy) as MB.
  pose proof (Z.div_mod (kint64max - kTicksPerSecond) per_sec ltac:(lia)) as PM.
  pose proof (Z.mod_pos_bound (kint64max - kTicksPerSecond) per_sec ltac:(lia)) as PB.
  assert (B1 : 0 <= lo / y < per_sec) by (split; [apply Z.div_pos; lia|apply Z.div_lt_upper_bound; lia]).
  assert (LY : lo mod y < kTicksPerSecond) by nia.
  set (m := (kint64max - kTicksPerSecond) / per_sec) in *.
  destruct (quot_rem_unique x y (hi * per_sec + lo / y) (lo mod y)) as [-> ->]; [lia|nia|left; nia|].
  split; [reflexivity|]. split; [lits; nia|]. apply make_fin; [lits; lia|lia|lia].
Qed.

(** The branch for a divisor of whole seconds. *)
Lemma by_seconds_spec hi lo x k y :
  x = hi * kTicksPerSecond + lo -> in_s 64 hi -> 0 <= lo < kTicksPerSecond ->
  0 < k <= kint64max -> y = k * kTicksPerSecond -> hi < 0 ->
  let num_hi := if negb (lo =? 0) then hi + 1 else hi in
  let rem_sec := if negb (lo =? 0) then Z.rem num_hi k - 1 else Z.rem num_hi k in
  Z.rem num_hi k <= 0 /\ Z.quot num_hi k = Z.quot x y /\ in_s 64 (Z.quot num_hi k) /\
  MakeDuration rem_sec lo = of_ext (saturate (Z.rem x y)).
Proof.
  intros Ex Hh Hl Hk Ey Hneg num_hi rem_sec.
  assert (N : num_hi <= 0 /\ in_s 64 num_hi) by (unfold num_hi; destruct (lo =? 0) eqn:E; zbool; cbn [negb]; lits; lia).
  destruct N as [N1 N2]. pose proof (Z.quot_rem' num_hi k) as QR.
  pose proof (Z.rem_nonpos num_hi k ltac:(lia) N1) as RN.
  assert (RB' : - k < Z.rem num_hi k <= 0).
  { pose proof (Z.rem_bound_abs num_hi k ltac:(lia)). lia. }
  assert (QB : num_hi <= Z.quot num_hi k <= 0) by nia.
  destruct (quot_rem_unique x y (Z.quot num_hi k) (rem_sec * kTicksPerSecond + lo)) as [Q R].
  - lits; lia.
  - unfold rem_sec, num_hi in *. destruct (lo =? 0) eqn:E; zbool; cbn [negb] in *; lits; nia.
  - right. unfold rem_sec, num_hi in *. destruct (lo =? 0) eqn:E; zbool; cbn [negb] in *; lits; nia.
  - split; [lia|]. split; [congruence|]. split; [lits; lia|]. rewrite R.
    apply make_fin; [|exact Hl|reflexivity].
    unfold rem_sec. destruct (negb (lo =? 0)); lits; lia.
Qed.

Lemma IDivFastPath_spec x y q d :
  ext_ok (Fin x) -> ext_ok (Fin y) -> IDivFastPath (of_ext (Fin x)) (of_ext (Fin y)) = Some (q, d) ->
  y <> 0 /\ q = Z.quot x y /\ in_s 64 q /\ d = of_ext (saturate (Z.rem x y)).
Proof.
  intros Hx Hy. unfold IDivFastPath. rewrite !infinite_Fin by assumption. cbn [orb].
  fin_fields x Hx hi lo. fin_fields y Hy dhi dlo. clear Ehi Elo Ehi0 Elo0.
  destruct (dhi =? 0) eqn:E0; zbool.
  - assert (EY : y = dlo) by (lits; lia).
    destruct (dlo =? kTicksPerNanosecond) eqn:E1; [|destruct (dlo =? 100 * kTicksPerNanosecond) eqn:E2;
      [|destruct (dlo =? 1000 * kTicksPerNanosecond) eqn:E3;
        [|destruct (dlo =? 1000000 * kTicksPerNanosecond) eqn:E4; [|discriminate]]]]; zbool;
      clear Ez0; subst y; subst dlo; intros H;
      (split; [lits; lia|]); (eapply by_unit_spec; [exact Ez|exact Blo| | | |exact H]); lits; lia.
  - destruct ((dhi >? 0) && (dlo =? 0)) eqn:E1; [|discriminate]. zbool. subst dlo.
    assert (EY : y = dhi * kTicksPerSecond) by lia. intros HS. split; [lits; lia|].
    destruct (hi >=? 0) eqn:E2; zbool.
    + assert (G : q = Z.quot hi dhi /\ d = MakeDuration (Z.rem hi dhi) lo).
      { destruct (dhi =? 1) eqn:E3; zbool; injection HS as <- <-; [|auto].
        subst dhi. rewrite Z.quot_1_r, Z.rem_1_r. auto. }
      destruct G as [-> ->]. pose proof (Z.quot_rem' hi dhi) as QR.
      pose proof (Z.rem_bound_pos hi dhi ltac:(lia) ltac:(lia)) as RB.
      assert (QB : 0 <= Z.quot hi dhi <= hi) by nia.
      destruct (quot_rem_unique x y (Z.quot hi dhi) (Z.rem hi dhi * kTicksPerSecond + lo)) as [-> ->].
      * lits; lia.
      * rewrite EY, Ez. lits. nia.
      * left. rewrite EY, Ez. lits. nia.
      * split; [reflexivity|]. split; [lits; lia|]. apply make_fin; [lits; lia|lia|reflexivity].
    + destruct (by_seconds_spec hi lo x dhi y Ez Bhi Blo) as (R1 & R2 & R3 & R4);
        [lits; lia|exact EY|lia|]. cbv zeta in HS, R1, R2, R3, R4.
      set (num_hi := if negb (lo =? 0) then hi + 1 else hi) in *.
      rewrite Z.gtb_ltb, (proj2 (Z.ltb_ge _ _)) in HS by exact R1.
      injection HS as <- <-. rewrite <- R2. auto.
Qed.

Lemma land_max63 x : 0 <= x < 9223372036854775808 -> wraps 64 (Z.land x kint64max) = x.
Proof.
  intros Hx. change kint64max with (Z.ones 63). rewrite Z.land_ones by lia.
  rewrite Z.mod_small by (change (2 ^ 63) with 9223372036854775808; lia).
  apply wraps_small; [lia|lits; lia].
Qed.

(** The saturated magnitude of the quotient. *)
Definition slow_quotient (satq quotient_neg : bool) (q : Z) : Z :=
  if satq && (kint64max <? q) then if quotient_neg then 2 ^ 63 else kint64max else q.

Lemma slow_core (satq qneg nneg : bool) a b :
  uint128_ok a -> uint128_ok b -> uval b <> 0 -> uval a <= tick_limit ->
  let q := slow_quotient satq qneg (uval a / uval b) in
  let quotient128 :=
    if satq && U.gtb (U_div a b) (U.of_unsigned (wrapu 64 kint64max))
    then if qneg then U.of_unsigned (wrapu 64 kint64min) else U.of_unsigned (wrapu 64 kint64max)
    else U_div a b in
  uint128_ok quotient128 /\ uval quotient128 = q /\ 0 <= q /\ 0 <= q * uval b <= uval a /\
  MakeDurationFromU128 (U.sub a (U.mul quotient128 b)) nneg
  = of_ext (saturate (if nneg then - (uval a - q * uval b) else uval a - q * uval b)).
Proof.
  intros Ha Hb Hb0 HL q quotient128. pose proof (uval_range a Ha) as Ra. pose proof (uval_range b Hb) as Rb.
  destruct (U_divmod_val a b Ha Hb Hb0) as (D1 & _ & D2 & _). fold (U_div a b) in D1, D2.
  destruct (U_of_unsigned_val kint64max) as [X1 X2]; [lits; lia|].
  destruct (U_of_unsigned_val (2 ^ 63)) as [N1 N2]; [lits; lia|].
  assert (Q : uint128_ok quotient128 /\ uval quotient128 = q).
  { unfold quotient128, q, slow_quotient, U.gtb.
    change (wrapu 64 kint64max) with kint64max. change (wrapu 64 kint64min) with (2 ^ 63).
    rewrite U_ltb_val, X2, D2 by assumption.
    destruct (satq && (kint64max <? uval a / uval b)); [destruct qneg|]; split; assumption. }
  destruct Q as [Q1 Q2]. rewrite in_u128_iff in *.
  assert (QB : 0 <= q <= uval a / uval b).
  { pose proof (Z.div_pos (uval a) (uval b)). unfold q, slow_quotient.
    clearbody quotient128. destruct (satq && (kint64max <? uval a / uval b)) eqn:E; [zbool; destruct qneg; lits; lia|lia]. }
  pose proof (Z.div_mod (uval a) (uval b) Hb0) as DM.
  pose proof (Z.mod_pos_bound (uval a) (uval b) ltac:(lia)) as MB.
  assert (QM : 0 <= q * uval b <= uval a) by nia.
  destruct (U_mul_val _ _ Q1 Hb) as [M1 M2]. destruct (U_sub_val _ _ Ha M1) as [S1 S2].
  rewrite Q2 in M2. rewrite wrapu128_small in M2 by (lits; lia).
  rewrite M2, wrapu128_small in S2 by (lits; lia).
  split; [exact Q1|]. split; [exact Q2|]. split; [lia|]. split; [exact QM|].
  rewrite MakeDurationFromU128_val, S2 by exact S1. reflexivity.
Qed.

Lemma ZeroDuration_ext : ZeroDuration = of_ext (Fin 0).
Proof. reflexivity. Qed.

Lemma zero_ok : ext_ok (Fin 0).
Proof. cbn [ext_ok]. lits. lia. Qed.

Lemma ltb_zero e : ext_ok e -> ltb (of_ext e) ZeroDuration = ext_neg e.
Proof.
  intros He. rewrite ZeroDuration_ext, ltb_of_ext by (auto using zero_ok).
  unfold ext_ltb. destruct e as [|z|]; try reflexivity.
Qed.

Lemma of_ext_inj a b : ext_ok a -> ext_ok b -> of_ext a = of_ext b -> a = b.
Proof.
  intros Ha Hb E. destruct (ticks_of_ext a Ha) as [<- _], (ticks_of_ext b Hb) as [<- _]. congruence.
Qed.

Lemma eqb_zero e :
  ext_ok e -> eqb (of_ext e) ZeroDuration = match e with Fin z => z =? 0 | _ => false end.
Proof.
  intros He. apply eq_true_iff_eq. rewrite ZeroDuration_ext.
  rewrite eqb_eq_dur by (apply ticks_of_ext; auto using zero_ok). split.
  - intros E. apply of_ext_inj in E; auto using zero_ok. subst e. reflexivity.
  - destruct e as [|z|]; try discriminate. intros E. apply Z.eqb_eq in E. now subst.
Qed.

Lemma slow_quotient_true qneg q :
  0 <= q ->
  let s := slow_quotient true qneg q in
  (if qneg then - s else s) = clamp64 (if qneg then - q else q) /\
  (if qneg then s <= 2 ^ 63 else s <= kint64max).
Proof.
  intros Hq. unfold slow_quotient, clamp64. cbn [andb].
  destruct qneg, (kint64max <? q) eqn:E; zbool; split; repeat case_if; zbool; lits; lia.
Qed.

Lemma sign_quot x y :
  y <> 0 -> Z.quot x y = (if xorb (x <? 0) (y <? 0) then - (Z.abs x / Z.abs y) else Z.abs x / Z.abs y).
Proof. apply quot_rem_abs. Qed.

Lemma spill x y (q : Z) :
  (if x <? 0 then - (Z.abs x - q * Z.abs y) else Z.abs x - q * Z.abs y)
  = x - (if xorb (x <? 0) (y <? 0) then - q else q) * y.
Proof. destruct (x <? 0) eqn:E1, (y <? 0) eqn:E2; cbn [xorb]; zbool; nia. Qed.

Lemma IDivSlowPath_spec satq x y :
  ext_ok (Fin x) -> ext_ok (Fin y) -> y <> 0 ->
  let q := Z.quot x y in
  snd (IDivSlowPath satq (of_ext (Fin x)) (of_ext (Fin y)))
    = of_ext (saturate (if satq then x - clamp64 q * y else Z.rem x y)) /\
  (satq = true -> fst (IDivSlowPath satq (of_ext (Fin x)) (of_ext (Fin y))) = clamp64 q).
Proof.
  intros Hx Hy Hy0 q. unfold IDivSlowPath.
  rewrite !ltb_zero, eqb_zero, !infinite_Fin by assumption. cbn [ext_neg].
  rewrite (proj2 (Z.eqb_neq y 0) Hy0). cbn [orb].
  destruct (MakeU128Ticks_val x Hx) as [A1 A2]. destruct (MakeU128Ticks_val y Hy) as [B1 B2].
  set (a := MakeU128Ticks (of_ext (Fin x))) in *. set (b := MakeU128Ticks (of_ext (Fin y))) in *.
  set (qneg := xorb (x <? 0) (y <? 0)).
  cbn [ext_ok] in Hx, Hy.
  destruct (slow_core satq qneg (x <? 0) a b A1 B1) as (K1 & K2 & K3 & K4 & K5); [lia|lits; lia|].
  set (quotient128 := if _ && _ then _ else _) in *. rewrite A2, B2 in *.
  set (s := slow_quotient satq qneg (Z.abs x / Z.abs y)) in *.
  rewrite spill in K5. fold qneg in K5.
  assert (Sg : (if qneg then - (Z.abs x / Z.abs y) else Z.abs x / Z.abs y) = q)
    by (symmetry; apply sign_quot, Hy0).
  destruct U_zero_val as [Z1 Z2]. destruct U_one_val as [O1 O2].
  rewrite (U_eqb_val _ _ K1 Z1), K2, Z2.
  assert (Snd : of_ext (saturate (x - (if qneg then - s else s) * y))
                = of_ext (saturate (if satq then x - clamp64 q * y else Z.rem x y))).
  { do 2 f_equal. destruct satq.
    - destruct (slow_quotient_true qneg (Z.abs x / Z.abs y)) as [E _]; [apply Z.div_pos; lia|].
      unfold s. rewrite E, Sg. reflexivity.
    - unfold s, slow_quotient. cbn [andb]. rewrite Sg. unfold q. pose proof (Z.quot_rem' x y). lia. }
  rewrite <- Snd, <- K5.
  destruct (negb qneg || (s =? 0)) eqn:E; cbn [fst snd]; (split; [reflexivity|]); intros ->.
  - destruct (slow_quotient_true qneg (Z.abs x / Z.abs y)) as [E1 E2]; [apply Z.div_pos; lia|].
    fold s in E1, E2. rewrite <- Sg, <- E1.
    rewrite low64_small, K2 by (auto; rewrite K2; destruct qneg; lits; lia).
    destruct qneg; cbn [negb orb] in E; zbool; rewrite land_max63 by (lits; lia); lia.
  - apply orb_false_iff in E. destruct E as [En Es0]. zbool.
    destruct (slow_quotient_true qneg (Z.abs x / Z.abs y)) as [E1 E2]; [apply Z.div_pos; lia|].
    fold s in E1, E2. rewrite <- Sg, <- E1. clearbody quotient128 s. rewrite En in E2 |- *.
    destruct (U_sub_val _ _ K1 O1) as [S1 S2]. rewrite K2, O2, wrapu128_small in S2 by (lits; lia).
    rewrite low64_small, S2 by (auto; rewrite S2; lits; lia).
    rewrite land_max63 by (lits; lia). lia.
Qed.

(** Between 0 and the exact quotient, the spilled remainder keeps the sign and shrinks. *)
Lemma spill_ok x y c :
  ext_ok (Fin x) -> y <> 0 -> (0 <= c <= Z.quot x y \/ Z.quot x y <= c <= 0) -> ext_ok (Fin (x - c * y)).
Proof.
  cbn [ext_ok]. intros Hx Hy Hc.
  destruct (quot_rem_abs x y Hy) as [Q _]. rewrite Q in Hc.
  pose proof (Z.mul_div_le (Z.abs x) (Z.abs y) ltac:(lia)) as M.
  pose proof (Z.div_pos (Z.abs x) (Z.abs y) ltac:(lia) ltac:(lia)) as P.
  assert (B : 0 <= Z.abs c <= Z.abs x / Z.abs y).
  { destruct (x <? 0), (y <? 0); cbn [xorb] in Hc; lia. }
  assert (B2 : 0 <= Z.abs c * Z.abs y <= Z.abs x) by nia.
  assert (S : (0 <= x -> 0 <= c * y <= x) /\ (x < 0 -> x <= c * y <= 0)).
  { assert (E : Z.abs (c * y) = Z.abs c * Z.abs y) by apply Z.abs_mul.
    destruct (x <? 0) eqn:E1, (y <? 0) eqn:E2; cbn [xorb] in Hc; zbool; split; intros; nia. }
  lits. lia.
Qed.

Lemma clamp64_between q : 0 <= clamp64 q <= q \/ q <= clamp64 q <= 0.
Proof. unfold clamp64. repeat case_if; zbool; lits; lia. Qed.

Lemma rem_ok x y : ext_ok (Fin x) -> y <> 0 -> ext_ok (Fin (Z.rem x y)).
Proof.
  intros Hx Hy. pose proof (Z.quot_rem' x y).
  replace (Z.rem x y) with (x - Z.quot x y * y) by lia. apply spill_ok; [assumption|assumption|lia].
Qed.

Lemma saturate_Fin z : ext_ok (Fin z) -> saturate z = Fin z.
Proof. apply saturate_in. Qed.

Lemma IDivDuration_fin x y :
  ext_ok (Fin x) -> ext_ok (Fin y) -> y <> 0 ->
  let q := clamp64 (Z.quot x y) in
  IDivDuration (of_ext (Fin x)) (of_ext (Fin y)) = (q, of_ext (Fin (x - q * y))) /\
  ext_ok (Fin (x - q * y)).
Proof.
  intros Hx Hy Hy0 q.
  assert (Ok : ext_ok (Fin (x - q * y))) by (apply spill_ok; [assumption|assumption|apply clamp64_between]).
  split; [|exact Ok]. unfold IDivDuration, IDivDurationImpl.
  destruct (IDivFastPath _ _) as [[q' d']|] eqn:E.
  - destruct (IDivFastPath_spec x y q' d' Hx Hy E) as (_ & -> & I & ->).
    unfold q. rewrite clamp64_in by exact I. do 2 f_equal.
    rewrite saturate_Fin by (apply rem_ok; assumption). f_equal.
    pose proof (Z.quot_rem' x y). lia.
  - destruct (IDivSlowPath_spec true x y Hx Hy Hy0) as [S F].
    rewrite (surjective_pairing (IDivSlowPath _ _ _)), (F eq_refl), S.
    fold q. now rewrite saturate_Fin by exact Ok.
Qed.

Lemma rem_fin x y :
  ext_ok (Fin x) -> ext_ok (Fin y) -> y <> 0 ->
  rem (of_ext (Fin x)) (of_ext (Fin y)) = of_ext (Fin (Z.rem x y)).
Proof.
  intros Hx Hy Hy0. unfold rem, IDivDurationImpl.
  destruct (IDivFastPath _ _) as [[q' d']|] eqn:E.
  - destruct (IDivFastPath_spec x y q' d' Hx Hy E) as (_ & _ & _ & ->).
    cbn [snd]. now rewrite saturate_Fin by (apply rem_ok; assumption).
  - destruct (IDivSlowPath_spec false x y Hx Hy Hy0) as [-> _].
    now rewrite saturate_Fin by (apply rem_ok; assumption).
Qed.

(** An infinite numerator, a zero or an infinite denominator. *)
Lemma IDivDuration_special satq a b :
  ext_ok a -> ext_ok b -> (forall x, a <> Fin x) \/ b = Fin 0 ->
  IDivDurationImpl satq (of_ext a) (of_ext b)
  = (if xorb (ext_neg a) (ext_neg b) then kint64min else kint64max, of_ext (ext_inf (ext_neg a))).
Proof.
  intros Ha Hb H. unfold IDivDurationImpl, IDivFastPath.
  assert (S : IDivSlowPath satq (of_ext a) (of_ext b)
    = (if xorb (ext_neg a) (ext_neg b) then kint64min else kint64max, of_ext (ext_inf (ext_neg a)))).
  { unfold IDivSlowPath. rewrite !ltb_zero, eqb_zero, !infinite_of_ext by assumption.
    destruct H as [H|H]; [destruct a as [|x|]; [|now elim (H x)|]|subst b];
      cbn [orb Z.eqb]; rewrite ?orb_true_r; f_equal; now destruct (ext_neg _). }
  rewrite !infinite_of_ext by assumption. destruct H as [H|H].
  - destruct a as [|x|]; [exact S|now elim (H x)|exact S].
  - subst b. destruct a as [|x|]; exact S.
Qed.

(** ** Rounding *)
Lemma Trunc_fin x y :
  ext_ok (Fin x) -> ext_ok (Fin y) -> y <> 0 ->
  Trunc (of_ext (Fin x)) (of_ext (Fin y)) = of_ext (Fin (Z.quot x y * y)) /\
  ext_ok (Fin (Z.quot x y * y)).
Proof.
  intros Hx Hy Hy0. unfold Trunc. rewrite rem_fin by assumption.
  rewrite sub_of_ext by (try apply rem_ok; assumption). cbn [ext_sub].
  pose proof (Z.quot_rem' x y) as QR. replace (x - Z.rem x y) with (Z.quot x y * y) by lia.
  assert (Ok : ext_ok (Fin (Z.quot x y * y))); [|now rewrite saturate_Fin].
  cbn [ext_ok] in *. destruct (quot_rem_abs x y Hy0) as [_ R].
  pose proof (Z.mod_pos_bound (Z.abs x) (Z.abs y) ltac:(lia)).
  pose proof (Z.mod_le (Z.abs x) (Z.abs y) ltac:(lia) ltac:(lia)).
  destruct (x <? 0) eqn:E; zbool; lits; lia.
Qed.

Lemma AbsDuration_fin y :
  ext_ok (Fin y) -> AbsDuration (of_ext (Fin y)) = of_ext (saturate (Z.abs y)).
Proof.
  intros Hy. unfold AbsDuration. rewrite ltb_zero by assumption. cbn [ext_neg].
  destruct (y <? 0) eqn:E; zbool.
  - rewrite opp_of_ext by assumption. cbn [ext_opp]. do 2 f_equal. lia.
  - rewrite Z.abs_eq, saturate_Fin by (auto; lia). reflexivity.
Qed.

Lemma leb_fin x y :
  ext_ok (Fin x) -> ext_ok (Fin y) -> leb (of_ext (Fin x)) (of_ext (Fin y)) = (x <=? y).
Proof.
  intros. unfold leb. rewrite ltb_of_ext by assumption. unfold ext_ltb. cbn [ext_compare].
  rewrite Z.leb_antisym. reflexivity.
Qed.

(** Rounding down and up from truncation. *)
Lemma quot_floor x y :
  y <> 0 ->
  x / Z.abs y * Z.abs y = (if Z.quot x y * y <=? x then Z.quot x y * y else Z.quot x y * y - Z.abs y) /\
  - (- x / Z.abs y) * Z.abs y = (if Z.quot x y * y >=? x then Z.quot x y * y else Z.quot x y * y + Z.abs y).
Proof.
  intros Hy. pose proof (Z.quot_rem' x y) as QR. pose proof (Z.rem_bound_abs x y Hy) as RB.
  set (q := Z.quot x y) in *. set (r := Z.rem x y) in *. clearbody q r.
  assert (Hk : exists k, q * y = k * Z.abs y)
    by (destruct (Z.abs_spec y) as [[_ ->]|[_ ->]]; [exists q|exists (- q)]; lia).
  destruct Hk as [k Hk].
  assert (F : forall a m s, a = m * Z.abs y + s -> 0 <= s < Z.abs y -> a / Z.abs y = m)
    by (intros a m s -> Hs; rewrite Z.div_add_l, Z.div_small by lia; lia).
  split.
  - destruct (q * y <=? x) eqn:E; zbool; [rewrite (F x k r)|rewrite (F x (k - 1) (r + Z.abs y))]; lia.
  - destruct (q * y >=? x) eqn:E; zbool;
      [rewrite (F (- x) (- k) (- r))|rewrite (F (- x) (- k - 1) (Z.abs y - r))]; lia.
Qed.

Lemma Floor_fin x y :
  ext_ok (Fin x) -> ext_ok (Fin y) -> y <> 0 -> y <> - tick_limit ->
  Floor (of_ext (Fin x)) (of_ext (Fin y)) = of_ext (saturate (x / Z.abs y * Z.abs y)).
Proof.
  intros Hx Hy Hy0 Hy1. unfold Floor. destruct (Trunc_fin x y Hx Hy Hy0) as [-> Ok].
  rewrite leb_fin by assumption. destruct (quot_floor x y Hy0) as [-> _].
  assert (Oka : ext_ok (Fin (Z.abs y))) by (cbn [ext_ok] in *; lits; lia).
  destruct (_ <=? x); [now rewrite saturate_Fin|].
  rewrite AbsDuration_fin, (saturate_Fin (Z.abs y)), sub_of_ext by assumption. reflexivity.
Qed.

Lemma Ceil_fin x y :
  ext_ok (Fin x) -> ext_ok (Fin y) -> y <> 0 -> y <> - tick_limit ->
  Ceil (of_ext (Fin x)) (of_ext (Fin y)) = of_ext (saturate (- (- x / Z.abs y) * Z.abs y)).
Proof.
  intros Hx Hy Hy0 Hy1. unfold Ceil. destruct (Trunc_fin x y Hx Hy Hy0) as [-> Ok].
  change (geb (of_ext (Fin (Z.quot x y * y))) (of_ext (Fin x)))
    with (leb (of_ext (Fin x)) (of_ext (Fin (Z.quot x y * y)))).
  rewrite leb_fin by assumption. destruct (quot_floor x y Hy0) as [_ ->]. rewrite Z.geb_leb.
  assert (Oka : ext_ok (Fin (Z.abs y))) by (cbn [ext_ok] in *; lits; lia).
  destruct (x <=? _); [now rewrite saturate_Fin|].
  rewrite AbsDuration_fin, (saturate_Fin (Z.abs y)), add_of_ext by assumption. reflexivity.
Qed.

(** ** Unit conversions *)
Lemma FromInt64_val N v :
  0 < N -> (N | 1000 * 1000 * 1000) -> in_s 64 v ->
  FromInt64 N v = of_ext (saturate (v * (kTicksPerSecond / N))) /\
  ext_ok (Fin (v * (kTicksPerSecond / N))).
Proof.
  intros HN [k Hk] Hv. assert (Hk0 : 0 < k) by nia.
  assert (ET : kTicksPerSecond = 4 * k * N) by (unfold kTicksPerSecond, kTicksPerNanosecond; lia).
  assert (ED : kTicksPerSecond / N = 4 * k) by (rewrite ET; apply Z.div_mul; lia).
  rewrite ED. pose proof (Z.quot_rem' v N) as QR. pose proof (Z.rem_bound_abs v N ltac:(lia)) as RB.
  assert (QB : - Z.abs v <= Z.quot v N <= Z.abs v) by nia.
  unfold FromInt64, MakeNormalizedDuration.
  replace (Z.rem v N * kTicksPerNanosecond * 1000 * 1000 * 1000) with (Z.rem v N * (4 * k) * N)
    by (unfold kTicksPerNanosecond; rewrite <- (Z.mul_assoc _ (4 * k) N), <- (Z.mul_assoc 4 k N), <- Hk; ring).
  rewrite Z.quot_mul by lia. set (q := Z.quot v N) in *. set (r := Z.rem v N) in *.
  assert (RN : r < 0 -> q <= 0).
  { intros Hr. unfold r in Hr. destruct (Z_lt_ge_dec 0 v) as [Hp|Hp].
    - pose proof (Z.rem_nonneg v N ltac:(lia) ltac:(lia)). lia.
    - unfold q. apply Z.le_0_sub. rewrite <- Z.quot_opp_l by lia. apply Z.quot_pos; lia. }
  assert (Ev : v * (4 * k) = q * kTicksPerSecond + r * (4 * k)) by (rewrite ET; nia).
  assert (RT : - kTicksPerSecond < r * (4 * k) < kTicksPerSecond) by (rewrite ET; nia).
  assert (Q1 : r < 0 -> in_s 64 (q - 1)).
  { intros Hr. specialize (RN Hr). destruct (Z.eq_dec N 1) as [->|]; [|lits; nia]. lia. }
  split.
  - destruct (r * (4 * k) <? 0) eqn:E; zbool; (apply make_fin; [|lia|lia]); [apply Q1; nia|lits; lia].
  - cbn [ext_ok]. clear - ET Hv Hk0 HN. lits. nia.
Qed.

Lemma FromInt64_scaled_val k v :
  0 < k <= 3600 -> in_s 64 v -> FromInt64_scaled k v = of_ext (saturate (v * k * kTicksPerSecond)).
Proof.
  intros Hk Hv. unfold FromInt64_scaled. change (opp InfiniteDuration) with (of_ext NegInf).
  change InfiniteDuration with (of_ext PosInf).
  pose proof (Z.quot_rem' kint64max k) as Q1. pose proof (Z.rem_bound_pos kint64max k ltac:(lits; lia) ltac:(lia)).
  pose proof (Z.quot_rem' kint64min k) as Q2. pose proof (Z.rem_bound_abs kint64min k ltac:(lia)).
  pose proof (Z.rem_nonpos kint64min k ltac:(lia) ltac:(lits; lia)).
  destruct (_ && _) eqn:E; [zbool|apply andb_false_iff in E; rewrite Z.geb_leb, !Z.leb_gt in E].
  - apply make_fin; lits; nia.
  - destruct (v >? 0) eqn:E1; zbool.
    + rewrite saturate_pos by (lits; nia). reflexivity.
    + rewrite saturate_neg by (lits; nia). reflexivity.
Qed.

(** The number of units in an extended tick count, truncated and clamped to 64 bits. *)
Definition to_units (e : ext) (u : Z) : Z :=
  match e with Fin x => clamp64 (Z.quot x u) | NegInf => kint64min | PosInf => kint64max end.

(** The same, rounded down. *)
Definition floor_units (e : ext) (u : Z) : Z :=
  match e with Fin x => clamp64 (x / u) | NegInf => kint64min | PosInf => kint64max end.

Lemma quot_units e u :
  ext_ok e -> 0 < u < tick_limit -> quot (of_ext e) (of_ext (Fin u)) = to_units e u.
Proof.
  intros He Hu. assert (Ou : ext_ok (Fin u)) by (cbn [ext_ok]; lits; lia).
  unfold quot, IDivDuration. destruct e as [|x|].
  - rewrite IDivDuration_special by (auto; left; discriminate). cbn [ext_neg fst].
    rewrite (proj2 (Z.ltb_ge u 0)) by lia. reflexivity.
  - destruct (IDivDuration_fin x u He Ou ltac:(lia)) as [E _]. unfold IDivDuration in E. now rewrite E.
  - rewrite IDivDuration_special by (auto; left; discriminate). cbn [ext_neg fst].
    rewrite (proj2 (Z.ltb_ge u 0)) by lia. reflexivity.
Qed.

Lemma FloorToUnit_val e u :
  ext_ok e -> 0 < u < tick_limit -> FloorToUnit (of_ext e) (of_ext (Fin u)) = floor_units e u.
Proof.
  intros He Hu. assert (Ou : ext_ok (Fin u)) by (cbn [ext_ok]; lits; lia).
  assert (U0 : (u <? 0) = false) by (apply Z.ltb_ge; lia).
  unfold FloorToUnit. destruct e as [|x|].
  - unfold IDivDuration. rewrite IDivDuration_special by (auto; left; discriminate).
    cbn [ext_neg]. rewrite U0. reflexivity.
  - destruct (IDivDuration_fin x u He Ou ltac:(lia)) as [-> Ok].
    unfold geb. rewrite ltb_zero by assumption. cbn [ext_neg floor_units].
    pose proof (Z.quot_rem' x u) as QR. pose proof (Z.rem_bound_abs x u ltac:(lia)) as RB.
    destruct (quot_floor x u ltac:(lia)) as [F _]. rewrite Z.abs_eq in F by lia.
    assert (RS : (0 <= x /\ 0 <= Z.rem x u) \/ (x < 0 /\ Z.rem x u <= 0)).
    { destruct (Z_lt_ge_dec x 0); [right|left]; (split; [lia|]);
        [apply Z.rem_nonpos|apply Z.rem_nonneg]; lia. }
    set (q := Z.quot x u) in *. set (c := clamp64 q).
    assert (C : (c = q /\ in_s 64 q) \/ (c = kint64max /\ kint64max < q) \/ (c = kint64min /\ q < kint64min))
      by (unfold c, clamp64; repeat case_if; zbool; lits; lia).
    assert (Fl : x / u = if q * u <=? x then q else q - 1) by (destruct (q * u <=? x); nia).
    rewrite Fl. unfold clamp64. clear F Fl.
    destruct (c >? 0) eqn:E1, (x - c * u <? 0) eqn:E2, (c =? kint64min) eqn:E3, (q * u <=? x) eqn:E4;
      cbn [orb negb]; zbool; repeat case_if; zbool; lits; nia.
  - unfold IDivDuration. rewrite IDivDuration_special by (auto; left; discriminate).
    cbn [ext_neg]. rewrite U0. reflexivity.
Qed.

(** The unit constants. *)
Lemma unit_consts :
  Nanoseconds 1 = of_ext (Fin 4) /\ Nanoseconds 100 = of_ext (Fin 400) /\
  Microseconds 1 = of_ext (Fin 4000) /\ Milliseconds 1 = of_ext (Fin 4000000) /\
  Seconds 1 = of_ext (Fin 4000000000) /\ Minutes 1 = of_ext (Fin 240000000000) /\
  Hours 1 = of_ext (Fin 14400000000000).
Proof. vm_compute. repeat split. Qed.

(** The shortcut for non-negative durations: seconds below [2^k], each of [per_sec] units. *)
Lemma shortcut_units hi lo x u per_sec k :
  x = hi * kTicksPerSecond + lo -> 0 <= lo < kTicksPerSecond -> 0 <= k ->
  0 < u -> u * per_sec = kTicksPerSecond -> 0 < per_sec ->
  2 ^ k * per_sec <= kint64max -> (hi >=? 0) && ((hi >> k) =? 0) = true ->
  hi * per_sec + Z.quot lo u = to_units (Fin x) u /\ hi * per_sec + Z.quot lo u = floor_units (Fin x) u.
Proof.
  intros Ex Hl Hk Hu HT Hp HM E. zbool. rewrite Z.shiftr_div_pow2 in H0 by lia.
  assert (HB : hi < 2 ^ k) by (apply Z.div_small_iff in H0; [lia|apply Z.pow_nonzero; lia]).
  rewrite Z.quot_div_nonneg by lia. cbn [to_units floor_units].
  pose proof (Z.div_mod lo u ltac:(lia)) as DM. pose proof (Z.mod_pos_bound lo u Hu) as MB.
  assert (B : 0 <= lo / u < per_sec) by (split; [apply Z.div_pos; lia|apply Z.div_lt_upper_bound; lia]).
  assert (ED : x / u = hi * per_sec + lo / u).
  { rewrite Ex, <- HT. replace (hi * (u * per_sec) + lo) with (hi * per_sec * u + lo) by ring.
    apply Z.div_add_l. lia. }
  rewrite Z.quot_div_nonneg by nia. rewrite ED, clamp64_in by (lits; nia). auto.
Qed.

Lemma infinite_shortcut e k :
  e = NegInf \/ e = PosInf -> 0 <= k < 63 ->
  (GetRepHi (of_ext e) >=? 0) && ((GetRepHi (of_ext e) >> k) =? 0) = false.
Proof.
  intros [-> | ->] Hk; [reflexivity|]. change (GetRepHi (of_ext PosInf)) with kint64max.
  apply andb_false_iff. right. apply Z.eqb_neq. rewrite Z.shiftr_div_pow2 by lia.
  assert (2 ^ k <= 2 ^ 62) by (apply Z.pow_le_mono_r; lia).
  assert (1 <= kint64max / 2 ^ k); [|lia].
  apply Z.div_le_lower_bound; [apply pow2_pos; lia|]. lits. change (2 ^ 62) with 4611686018427387904 in *. lia.
Qed.

Lemma trunc_hi_val hi lo x :
  x = hi * kTicksPerSecond + lo -> 0 <= lo < kTicksPerSecond ->
  (if (hi <? 0) && negb (lo =? 0) then hi + 1 else hi) = Z.quot x kTicksPerSecond.
Proof.
  intros Ex Hl. destruct ((hi <? 0) && negb (lo =? 0)) eqn:E; zbool.
  - destruct (quot_rem_unique x kTicksPerSecond (hi + 1) (lo - kTicksPerSecond)) as [-> _];
      [reflexivity|lits; lia|right; lits; lia|reflexivity].
  - rewrite Z.ltb_ge, negb_false_iff, Z.eqb_eq in E.
    destruct (quot_rem_unique x kTicksPerSecond hi lo) as [-> _]; [reflexivity|lits; lia|lits; lia|reflexivity].
Qed.

Lemma ToInt64_val e :
  ext_ok e ->
  ToInt64Nanoseconds (of_ext e) = to_units e 4 /\
  ToInt64Microseconds (of_ext e) = to_units e 4000 /\
  ToInt64Milliseconds (of_ext e) = to_units e 4000000 /\
  ToInt64Seconds (of_ext e) = to_units e kTicksPerSecond /\
  ToInt64Minutes (of_ext e) = to_units e (60 * kTicksPerSecond) /\
  ToInt64Hours (of_ext e) = to_units e (3600 * kTicksPerSecond).
Proof.
  intros He. destruct unit_consts as (U1 & _ & U2 & U3 & _).
  unfold ToInt64Nanoseconds, ToInt64Microseconds, ToInt64Milliseconds.
  rewrite U1, U2, U3, !quot_units by (auto; lits; lia). destruct e as [|x|].
  - rewrite !infinite_shortcut by (auto; lia). repeat split.
  - unfold ToInt64Seconds, ToInt64Minutes, ToInt64Hours, trunc_hi.
    fin_fields x He hi lo. rewrite (trunc_hi_val hi lo x Ez Blo).
    assert (SB : in_s 64 (Z.quot x kTicksPerSecond)).
    { rewrite <- (trunc_hi_val hi lo x Ez Blo). destruct ((hi <? 0) && negb (lo =? 0)) eqn:E; zbool; lits; lia. }
    assert (UB : forall k, 0 < k -> Z.quot (Z.quot x kTicksPerSecond) k = to_units (Fin x) (k * kTicksPerSecond)).
    { intros k Hk. cbn [to_units]. rewrite (Z.mul_comm k), <- Z.quot_quot by (lits; lia).
      symmetry. apply clamp64_in. set (s := Z.quot x kTicksPerSecond) in *.
      pose proof (Z.quot_rem' s k). pose proof (Z.rem_bound_abs s k ltac:(lia)). lits. nia. }
    repeat split.
    + destruct (_ && _) eqn:E; [|reflexivity].
      rewrite <- (proj1 (shortcut_units hi lo x 4 1000000000 33 Ez Blo ltac:(lia) ltac:(lia) eq_refl
        ltac:(lia) ltac:(vm_compute; congruence) E)). 
        change (kTicksPerNanosecond * 1000 * 1000) with 4000000.
        change (kTicksPerNanosecond * 1000) with 4000. change kTicksPerNanosecond with 4. lia.
    + destruct (_ && _) eqn:E; [|reflexivity].
      rewrite <- (proj1 (shortcut_units hi lo x 4000 1000000 43 Ez Blo ltac:(lia) ltac:(lia) eq_refl
        ltac:(lia) ltac:(vm_compute; congruence) E)). 
        change (kTicksPerNanosecond * 1000 * 1000) with 4000000.
        change (kTicksPerNanosecond * 1000) with 4000. change kTicksPerNanosecond with 4. lia.
    + destruct (_ && _) eqn:E; [|reflexivity].
      rewrite <- (proj1 (shortcut_units hi lo x 4000000 1000 53 Ez Blo ltac:(lia) ltac:(lia) eq_refl
        ltac:(lia) ltac:(vm_compute; congruence) E)). 
        change (kTicksPerNanosecond * 1000 * 1000) with 4000000.
        change (kTicksPerNanosecond * 1000) with 4000. change kTicksPerNanosecond with 4. lia.
    + cbn [to_units]. symmetry. now apply clamp64_in.
    + apply UB. lia.
    + apply UB. lia.
  - rewrite !infinite_shortcut by (auto; lia). repeat split.
Qed.

Lemma ToUnix_val e :
  ext_ok e ->
  ToUnixNanos (mk_Time (of_ext e)) = floor_units e 4 /\
  ToUnixMicros (mk_Time (of_ext e)) = floor_units e 4000 /\
  ToUnixMillis (mk_Time (of_ext e)) = floor_units e 4000000 /\
  ToUnixSeconds (mk_Time (of_ext e)) = floor_units e kTicksPerSecond.
Proof.
  intros He. destruct unit_consts as (U1 & _ & U2 & U3 & _).
  unfold ToUnixNanos, ToUnixMicros, ToUnixMillis, ToUnixSeconds, ToUnixDuration. cbn [t_rep_].
  rewrite U1, U2, U3, !FloorToUnit_val by (auto; lits; lia). destruct e as [|x|].
  - rewrite !infinite_shortcut by (auto; lia). repeat split.
  - fin_fields x He hi lo. repeat split.
    + destruct (_ && _) eqn:E; [|reflexivity].
      rewrite <- (proj2 (shortcut_units hi lo x 4 1000000000 33 Ez Blo ltac:(lia) ltac:(lia) eq_refl
        ltac:(lia) ltac:(vm_compute; congruence) E)). lia.
    + destruct (_ && _) eqn:E; [|reflexivity].
      rewrite <- (proj2 (shortcut_units hi lo x 4000 1000000 43 Ez Blo ltac:(lia) ltac:(lia) eq_refl
        ltac:(lia) ltac:(vm_compute; congruence) E)). lia.
    + change (4000 * 1000) with 4000000. destruct (_ && _) eqn:E; [|reflexivity].
      rewrite <- (proj2 (shortcut_units hi lo x 4000000 1000 53 Ez Blo ltac:(lia) ltac:(lia) eq_refl
        ltac:(lia) ltac:(vm_compute; congruence) E)). lia.
    + cbn [floor_units]. rewrite Ez, Z.div_add_l, Z.div_small, Z.add_0_r by (lits; lia).
      symmetry. now apply clamp64_in.
  - rewrite !infinite_shortcut by (auto; lia). repeat split.
Qed.

(** Replace a well-formed duration by the one of its tick count. *)
Ltac by_ticks a Ha e :=
  let E := fresh "E" in let O := fresh "O" in
  destruct (of_ext_ticks a Ha) as [E O]; rewrite <- E;
  rewrite ?(proj1 (ticks_of_ext _ O)); set (e := ticks a) in *; clearbody e; clear E Ha a.

(** ** [timespec] *)
Lemma ToTimespec_fin x :
  ext_ok (Fin x) ->
  let ts := ToTimespec 64 (of_ext (Fin x)) in
  0 <= tv_nsec ts < 1000000000 /\ tv_sec ts * 1000000000 + tv_nsec ts = Z.quot x kTicksPerNanosecond.
Proof.
  intros Hx. unfold ToTimespec. rewrite infinite_Fin by assumption. cbn [negb].
  fin_fields x Hx hi lo. set (p := if hi <? 0 then _ else _).
  assert (P : in_s 64 (fst p) /\ 0 <= snd p < kTicksPerSecond /\
              fst p * kTicksPerSecond + snd p = x + (if hi <? 0 then 3 else 0)).
  { unfold p. destruct (hi <? 0) eqn:E; zbool; [|cbn [fst snd]; lits; lia].
    unfold wrapu. rewrite (Z.mod_small (lo + _)) by (lits; lia).
    destruct (lo + _ >=? _) eqn:E1; zbool; cbn [fst snd]; [|lits; lia].
    rewrite Z.mod_small by (lits; lia). lits; lia. }
  destruct p as [h l]. cbn [fst snd] in P. destruct P as (P1 & P2 & P3).
  rewrite wraps_small, Z.eqb_refl by (auto; lia). cbn [tv_sec tv_nsec].
  clear - P2 P3 Blo Ez. lits. destruct (hi <? 0) eqn:E; zlia.
Qed.

Lemma DurationFromTimespec_val sec nsec :
  in_s 64 sec -> in_s 64 nsec ->
  DurationFromTimespec (mk_timespec sec nsec) = of_ext (saturate (sec * kTicksPerSecond + nsec * 4)).
Proof.
  intros Hs Hn. unfold DurationFromTimespec. cbn [tv_sec tv_nsec].
  destruct (wrapu 64 nsec <? 1000 * 1000 * 1000) eqn:E; zbool.
  - assert (N : 0 <= nsec < 1000000000) by (unfold wrapu in E; lits; zlia).
    apply make_fin; lits; lia.
  - destruct (FromInt64_val 1 sec) as [E1 O1]; [lia|now exists 1000000000|assumption|].
    destruct (FromInt64_val 1000000000 nsec) as [E2 O2]; [lia|now exists 1|assumption|].
    unfold Seconds, Nanoseconds. rewrite E1, E2, !saturate_Fin, add_of_ext by assumption.
    cbn [ext_add]. rewrite Z.div_1_r. reflexivity.
Qed.

(** ** Properties *)

(** Addition, subtraction and negation of durations are those of the extended integers of
    quarter-nanosecond ticks, saturating to the infinities, for every pair of durations
    (infinite operands absorb, the left one first), and they preserve the representation
    invariant. *)
Lemma duration_additive_correct a b :
  dur_ok a -> dur_ok b ->
  (dur_ok (add a b) /\ ticks (add a b) = ext_add (ticks a) (ticks b)) /\
  (dur_ok (sub a b) /\ ticks (sub a b) = ext_sub (ticks a) (ticks b)) /\
  (dur_ok (opp a) /\ ticks (opp a) = ext_opp (ticks a)).
Proof.
  intros Ha Hb. by_ticks a Ha x. by_ticks b Hb y.
  rewrite add_of_ext, sub_of_ext, opp_of_ext by assumption.
  assert (K : ext_ok (ext_add x y) /\ ext_ok (ext_sub x y) /\ ext_ok (ext_opp x)).
  { destruct x, y; cbn [ext_add ext_sub ext_opp]; auto using saturate_ok. }
  destruct K as (K1 & K2 & K3).
  destruct (ticks_of_ext _ K1), (ticks_of_ext _ K2), (ticks_of_ext _ K3). auto.
Qed.

(** Scaling a duration by a 64-bit integer multiplies or (truncating) divides its tick
    count, saturating to the infinity of the right sign; a zero divisor gives the infinity of
    the dividend's sign.  The 128-bit fast paths, the overflow check by division and the
    saturation thresholds are covered for every operand. *)
Lemma duration_scale_correct a r :
  dur_ok a -> in_s 64 r ->
  (dur_ok (mul a r) /\ ticks (mul a r) = ext_mul (ticks a) r) /\
  (dur_ok (div a r) /\ ticks (div a r) = ext_div (ticks a) r).
Proof.
  intros Ha Hr. by_ticks a Ha x. rewrite mul_of_ext, div_of_ext by assumption.
  assert (I : forall n, ext_ok (ext_inf n)) by (intros []; exact I).
  assert (K : ext_ok (ext_mul x r) /\ ext_ok (ext_div x r)).
  { destruct x; cbn [ext_mul ext_div]; split; auto using saturate_ok.
    destruct (r =? 0); auto using saturate_ok. }
  destruct K as [K1 K2]. destruct (ticks_of_ext _ K1), (ticks_of_ext _ K2). auto.
Qed.

Lemma duration_scale_correct_witness :
  ticks (mul (MakeDuration (-3) 1) (2 ^ 60 + 1)) = Fin (- 11999999999 * (2 ^ 60 + 1)) /\
  ticks (mul (MakeDuration 5 0) (2 ^ 61)) = PosInf /\
  ticks (mul (MakeDuration 5 0) (2 ^ 61)) = ext_mul (ticks (MakeDuration 5 0)) (2 ^ 61).
Proof.
  split; [vm_compute; reflexivity|]. split; [vm_compute; reflexivity|].
  apply (duration_scale_correct (MakeDuration 5 0) (2 ^ 61)); vm_compute; intuition congruence.
Defined.

(** C28: Integer division of durations, with its fast paths for common units, truncates: for
    finite operands and a non-zero denominator the quotient is the truncated quotient clamped
    to 64 bits and the remainder is what the returned quotient leaves (so the excess of a
    saturated quotient spills into the remainder), while [%] is the exact remainder.  An
    infinite numerator or a zero denominator gives the extreme quotient and an infinite
    remainder; an infinite denominator gives zero and the numerator. *)
Theorem IDivDuration_correct num den :
  dur_ok num -> dur_ok den ->
  (forall x y, ticks num = Fin x -> ticks den = Fin y -> y <> 0 ->
     let q := clamp64 (Z.quot x y) in
     fst (IDivDuration num den) = q /\ ticks (snd (IDivDuration num den)) = Fin (x - q * y) /\
     ticks (rem num den) = Fin (Z.rem x y)) /\
  ((ticks num = NegInf \/ ticks num = PosInf \/ ticks den = Fin 0) ->
     fst (IDivDuration num den)
       = (if xorb (ext_neg (ticks num)) (ext_neg (ticks den)) then kint64min else kint64max) /\
     ticks (snd (IDivDuration num den)) = ext_inf (ext_neg (ticks num))) /\
  (forall x, ticks num = Fin x -> (ticks den = NegInf \/ ticks den = PosInf) ->
     IDivDuration num den = (0, num)).
Proof.
  intros Hn Hd. by_ticks num Hn a. by_ticks den Hd b. split; [|split].
  - intros x y -> -> Hy. destruct (IDivDuration_fin x y O O0 Hy) as [E Ok].
    rewrite E, rem_fin by assumption. cbn [fst snd].
    split; [reflexivity|]. split; apply ticks_of_ext; auto using rem_ok.
  - intros H. unfold IDivDuration. rewrite IDivDuration_special; try assumption.
    + cbn [fst snd]. split; [reflexivity|]. apply ticks_of_ext. now destruct (ext_neg _).
    + destruct H as [-> |[-> | ->]]; auto; left; discriminate.
  - intros x -> H. unfold IDivDuration, IDivDurationImpl, IDivFastPath, IDivSlowPath.
    rewrite infinite_Fin, !ltb_zero, eqb_zero by assumption. rewrite infinite_of_ext by assumption.
    destruct H as [-> | ->]; reflexivity.
Qed.

Lemma IDivDuration_correct_witness :
  ticks (Hours (-1)) = Fin (-14400000000000) /\
  fst (IDivDuration (Hours (-1)) (Nanoseconds 7)) = -514285714285 /\
  fst (IDivDuration (Hours (-1)) (Nanoseconds 7)) = clamp64 (Z.quot (-14400000000000) 28).
Proof.
  split; [vm_compute; reflexivity|]. split; [vm_compute; reflexivity|].
  apply (proj1 (IDivDuration_correct (Hours (-1)) (Nanoseconds 7)
    ltac:(vm_compute; intuition congruence) ltac:(vm_compute; intuition congruence))
    (-14400000000000) 28); [vm_compute; reflexivity|vm_compute; reflexivity|discriminate].
Defined.

(** Rounding to a multiple of a unit.  For a finite duration and a finite non-zero unit
    whose magnitude is representable, [Trunc], [Floor] and [Ceil] give the multiple of the unit
    toward zero, the largest one not above and the smallest one not below the duration,
    saturating when that multiple is out of range. *)
Lemma duration_rounding_correct d unit x y :
  dur_ok d -> dur_ok unit -> ticks d = Fin x -> ticks unit = Fin y -> y <> 0 -> y <> - tick_limit ->
  ticks (Trunc d unit) = Fin (Z.quot x y * y) /\
  ticks (Floor d unit) = saturate (x / Z.abs y * Z.abs y) /\
  ticks (Ceil d unit) = saturate (- (- x / Z.abs y) * Z.abs y).
Proof.
  intros Hd Hu. by_ticks d Hd a. by_ticks unit Hu b. intros -> -> Hy0 Hy1.
  destruct (Trunc_fin x y O O0 Hy0) as [-> Ok].
  rewrite Floor_fin, Ceil_fin by assumption.
  split; [|split]; apply ticks_of_ext; auto using saturate_ok.
Qed.

(** The comparison operators order durations as extended integers, with equality of the
    representations as equality: the wrap-around comparison of the low words puts negative
    infinity below the most negative finite durations. *)
Lemma duration_compare_correct a b :
  dur_ok a -> dur_ok b ->
  compare a b = ext_compare (ticks a) (ticks b) /\ ltb a b = ext_ltb (ticks a) (ticks b) /\
  gtb a b = ext_ltb (ticks b) (ticks a) /\ leb a b = negb (ext_ltb (ticks b) (ticks a)) /\
  geb a b = negb (ext_ltb (ticks a) (ticks b)) /\
  (eqb a b = true <-> ticks a = ticks b) /\ (ticks a = ticks b <-> a = b).
Proof.
  intros Ha Hb. rewrite (eqb_eq_dur a b Ha Hb). by_ticks a Ha x. by_ticks b Hb y.
  unfold gtb, leb, geb. rewrite compare_of_ext, !ltb_of_ext by assumption.
  repeat split; auto using of_ext_inj; congruence.
Qed.

(** Conversions between integer counts and durations.  Every factory returns the exact
    number of ticks (minutes and hours saturate), every [ToInt64] conversion truncates toward
    zero and clamps to 64 bits, with the extreme values for infinities, and converting a count
    to a duration and back is the identity for every 64-bit count of nano-, micro-,
    milliseconds and seconds. *)
Lemma duration_units_correct n d :
  in_s 64 n -> dur_ok d ->
  (ticks (Nanoseconds n) = Fin (n * 4) /\ ticks (Microseconds n) = Fin (n * 4000) /\
   ticks (Milliseconds n) = Fin (n * 4000000) /\ ticks (Seconds n) = Fin (n * kTicksPerSecond) /\
   ticks (Minutes n) = saturate (n * 60 * kTicksPerSecond) /\
   ticks (Hours n) = saturate (n * 3600 * kTicksPerSecond)) /\
  (ToInt64Nanoseconds d = to_units (ticks d) 4 /\
   ToInt64Microseconds d = to_units (ticks d) 4000 /\
   ToInt64Milliseconds d = to_units (ticks d) 4000000 /\
   ToInt64Seconds d = to_units (ticks d) kTicksPerSecond /\
   ToInt64Minutes d = to_units (ticks d) (60 * kTicksPerSecond) /\
   ToInt64Hours d = to_units (ticks d) (3600 * kTicksPerSecond)) /\
  (ToInt64Nanoseconds (Nanoseconds n) = n /\ ToInt64Microseconds (Microseconds n) = n /\
   ToInt64Milliseconds (Milliseconds n) = n /\ ToInt64Seconds (Seconds n) = n).
Proof.
  intros Hn Hd. unfold Nanoseconds, Microseconds, Milliseconds, Seconds, Minutes, Hours.
  destruct (FromInt64_val 1000000000 n) as [-> O1]; [lia|now exists 1|assumption|].
  destruct (FromInt64_val 1000000 n) as [-> O2]; [lia|now exists 1000|assumption|].
  destruct (FromInt64_val 1000 n) as [-> O3]; [lia|now exists 1000000|assumption|].
  destruct (FromInt64_val 1 n) as [-> O4]; [lia|now exists 1000000000|assumption|].
  rewrite !FromInt64_scaled_val, !saturate_Fin by (assumption || lia).
  change (kTicksPerSecond / 1000000000) with 4 in *. change (kTicksPerSecond / 1000000) with 4000 in *.
  change (kTicksPerSecond / 1000) with 4000000 in *. rewrite Z.div_1_r in *.
  split; [|split].
  - repeat split; apply ticks_of_ext; auto using saturate_ok.
  - by_ticks d Hd e. now apply ToInt64_val.
  - destruct (ToInt64_val _ O1) as (-> & _), (ToInt64_val _ O2) as (_ & -> & _),
      (ToInt64_val _ O3) as (_ & _ & -> & _), (ToInt64_val _ O4) as (_ & _ & _ & -> & _).
    cbn [to_units]. rewrite !Z.quot_mul, !clamp64_in by (assumption || discriminate). auto.
Qed.

(** Absolute times.  The Unix conversions round down (clamped to 64 bits) and invert the
    factories; a time built from a normalized [timespec] gives that [timespec] back, and
    converting a finite duration to a [timespec] truncates to nanoseconds with a normalized
    nanosecond field. *)
Lemma time_conversions_correct n ts e :
  in_s 64 n -> in_s 64 (tv_sec ts) -> 0 <= tv_nsec ts < 1000000000 -> ext_ok e ->
  (let t := mk_Time (of_ext e) in
   ToUnixNanos t = floor_units e 4 /\ ToUnixMicros t = floor_units e 4000 /\
   ToUnixMillis t = floor_units e 4000000 /\ ToUnixSeconds t = floor_units e kTicksPerSecond) /\
  (ToUnixNanos (FromUnixNanos n) = n /\ ToUnixMicros (FromUnixMicros n) = n /\
   ToUnixMillis (FromUnixMillis n) = n /\ ToUnixSeconds (FromUnixSeconds n) = n) /\
  TimeToTimespec 64 (TimeFromTimespec ts) = ts /\
  (forall x, e = Fin x ->
     let ts' := ToTimespec 64 (of_ext e) in
     0 <= tv_nsec ts' < 1000000000 /\
     tv_sec ts' * 1000000000 + tv_nsec ts' = Z.quot x kTicksPerNanosecond).
Proof.
  intros Hn Hs Hns He. split; [now apply ToUnix_val|split; [|split]].
  - unfold FromUnixNanos, FromUnixMicros, FromUnixMillis, FromUnixSeconds, FromUnixDuration,
      Nanoseconds, Microseconds, Milliseconds, Seconds.
    destruct (FromInt64_val 1000000000 n) as [-> O1]; [lia|now exists 1|assumption|].
    destruct (FromInt64_val 1000000 n) as [-> O2]; [lia|now exists 1000|assumption|].
    destruct (FromInt64_val 1000 n) as [-> O3]; [lia|now exists 1000000|assumption|].
    destruct (FromInt64_val 1 n) as [-> O4]; [lia|now exists 1000000000|assumption|].
    rewrite !saturate_Fin by assumption.
    destruct (ToUnix_val _ O1) as (-> & _), (ToUnix_val _ O2) as (_ & -> & _),
      (ToUnix_val _ O3) as (_ & _ & -> & _), (ToUnix_val _ O4) as (_ & _ & _ & ->).
    cbn [floor_units]. rewrite Z.div_1_r, !Z.div_mul, !clamp64_in by (assumption || discriminate). auto.
  - destruct ts as [sec nsec]. cbn [tv_sec tv_nsec] in *.
    unfold TimeFromTimespec, FromUnixDuration, TimeToTimespec, ToUnixDuration. cbn [t_rep_].
    assert (O : ext_ok (Fin (sec * kTicksPerSecond + nsec * 4))) by (cbn [ext_ok]; lits; lia).
    rewrite DurationFromTimespec_val, saturate_Fin by (try assumption; lits; lia).
    rewrite infinite_Fin by assumption. destruct (GetRep_Fin _ O) as [-> ->].
    rewrite Z.div_add_l, Z.div_small, Z.add_0_r by (lits; lia).
    rewrite Z.add_comm, Z.mod_add, Z.mod_small by (lits; lia).
    rewrite wraps_small, Z.eqb_refl, Z.quot_mul by (try assumption; lia). reflexivity.
  - intros x ->. now apply ToTimespec_fin.
Qed.

(** Durations are the integers of quarter-nanosecond ticks with two infinities. Addition, subtraction and
    negation are the extended operations, saturating, for every pair of durations (infinite operands absorb,
    the left one first), and preserve the representation invariant; the comparison operators are the order,
    with equality of representations as equality (the wrap-around comparison of the low words puts negative
    infinity below the most negative finite durations); and for a finite duration and a finite non-zero unit
    whose magnitude is representable, [Trunc], [Floor] and [Ceil] give the multiple of the unit toward zero,
    the largest one not above and the smallest one not below, saturating when it is out of range. *)
Lemma duration_arithmetic_correct a b :
  dur_ok a -> dur_ok b ->
  ((dur_ok (add a b) /\ ticks (add a b) = ext_add (ticks a) (ticks b)) /\
  (dur_ok (sub a b) /\ ticks (sub a b) = ext_sub (ticks a) (ticks b)) /\
  (dur_ok (opp a) /\ ticks (opp a) = ext_opp (ticks a))) /\
  (compare a b = ext_compare (ticks a) (ticks b) /\ ltb a b = ext_ltb (ticks a) (ticks b) /\
  gtb a b = ext_ltb (ticks b) (ticks a) /\ leb a b = negb (ext_ltb (ticks b) (ticks a)) /\
  geb a b = negb (ext_ltb (ticks a) (ticks b)) /\
  (eqb a b = true <-> ticks a = ticks b) /\ (ticks a = ticks b <-> a = b)) /\
  (forall x y, ticks a = Fin x -> ticks b = Fin y -> y <> 0 -> y <> - tick_limit ->
   ticks (Trunc a b) = Fin (Z.quot x y * y) /\
   ticks (Floor a b) = saturate (x / Z.abs y * Z.abs y) /\
   ticks (Ceil a b) = saturate (- (- x / Z.abs y) * Z.abs y)).
Proof.
  intros Ha Hb. split; [now apply duration_additive_correct|]. split; [now apply duration_compare_correct|].
  intros. now apply duration_rounding_correct.
Qed.

Lemma duration_arithmetic_correct_witness :
  ticks (add (MakeDuration kint64max 3999999999) (MakeDuration 0 1)) = PosInf /\
  ticks (add (MakeDuration kint64max 3999999999) (MakeDuration 0 1))
  = ext_add (ticks (MakeDuration kint64max 3999999999)) (ticks (MakeDuration 0 1)).
Proof.
  split; [vm_compute; reflexivity|].
  apply (duration_arithmetic_correct (MakeDuration kint64max 3999999999) (MakeDuration 0 1));
    vm_compute; intuition congruence.
Defined.

(** Conversions between counts, durations and absolute times. Every factory returns the exact number of
    ticks (minutes and hours saturate), every [ToInt64] conversion truncates toward zero and clamps to 64 bits,
    with the extreme values for infinities; the Unix conversions round down (clamped); counts of nano-, micro-,
    milliseconds and seconds survive the way to a duration or a time and back; a time built from a normalized
    [timespec] gives that [timespec] back, and converting a finite duration to a [timespec] truncates to
    nanoseconds with a normalized nanosecond field. *)
Lemma time_units_correct n d ts e :
  in_s 64 n -> dur_ok d -> in_s 64 (tv_sec ts) -> 0 <= tv_nsec ts < 1000000000 -> ext_ok e ->
  ((ticks (Nanoseconds n) = Fin (n * 4) /\ ticks (Microseconds n) = Fin (n * 4000) /\
   ticks (Milliseconds n) = Fin (n * 4000000) /\ ticks (Seconds n) = Fin (n * kTicksPerSecond) /\
   ticks (Minutes n) = saturate (n * 60 * kTicksPerSecond) /\
   ticks (Hours n) = saturate (n * 3600 * kTicksPerSecond)) /\
  (ToInt64Nanoseconds d = to_units (ticks d) 4 /\
   ToInt64Microseconds d = to_units (ticks d) 4000 /\
   ToInt64Milliseconds d = to_units (ticks d) 4000000 /\
   ToInt64Seconds d = to_units (ticks d) kTicksPerSecond /\
   ToInt64Minutes d = to_units (ticks d) (60 * kTicksPerSecond) /\
   ToInt64Hours d = to_units (ticks d) (3600 * kTicksPerSecond)) /\
  (ToInt64Nanoseconds (Nanoseconds n) = n /\ ToInt64Microseconds (Microseconds n) = n /\
   ToInt64Milliseconds (Milliseconds n) = n /\ ToInt64Seconds (Seconds n) = n)) /\
  (let t := mk_Time (of_ext e) in
   ToUnixNanos t = floor_units e 4 /\ ToUnixMicros t = floor_units e 4000 /\
   ToUnixMillis t = floor_units e 4000000 /\ ToUnixSeconds t = floor_units e kTicksPerSecond) /\
  (ToUnixNanos (FromUnixNanos n) = n /\ ToUnixMicros (FromUnixMicros n) = n /\
   ToUnixMillis (FromUnixMillis n) = n /\ ToUnixSeconds (FromUnixSeconds n) = n) /\
  TimeToTimespec 64 (TimeFromTimespec ts) = ts /\
  (forall x, e = Fin x ->
     let ts' := ToTimespec 64 (of_ext e) in
     0 <= tv_nsec ts' < 1000000000 /\
     tv_sec ts' * 1000000000 + tv_nsec ts' = Z.quot x kTicksPerNanosecond).
Proof. intros. split; [now apply duration_units_correct|now apply time_conversions_correct]. Qed.

Lemma time_units_correct_witness :
  ToInt64Milliseconds (Milliseconds (- 2 ^ 63)) = - 2 ^ 63 /\
  TimeToTimespec 64 (TimeFromTimespec (mk_timespec (-5) 999999999)) = mk_timespec (-5) 999999999.
Proof.
  split; apply (time_units_correct (- 2 ^ 63) InfiniteDuration (mk_timespec (-5) 999999999) (Fin 0));
    vm_compute; intuition congruence.
Defined.
