(* ===== verification/DurationText.v ===== *)
(** [absl/time/duration.cc]: the text of durations.  [ParseDuration] with its helpers, and the
    integer part of the formatter ([Format64], [AppendNumberUnit] on [int64_t]); the formatter
    for fractions computes in [double] and is not modelled. *)
From Stdlib Require Import Ascii String.
From Stdlib Require Import ZArith Lia List Bool.
From S2P Require Import Prelude Int128 Digits Duration.
Import ListNotations.
#[local] Open Scope Z_scope.

(** ** Formatting integers *)

(** [do { --width; *--ep = '0' + v % 10; } while (v /= 10);] on a 64-bit value: at most 19 rounds. *)
Fixpoint format64_loop (fuel : nat) (v : Z) (acc : list Z) : list Z :=
  let acc := (chr "0" + Z.rem v 10) :: acc in
  match fuel with
  | O => acc
  | S f => if Z.quot v 10 =? 0 then acc else format64_loop f (Z.quot v 10) acc
  end.

Definition Format64 (width : Z) (v : Z) : list Z :=
  let ds := format64_loop 19 v [] in
  repeat (chr "0") (Z.to_nat (width - Z.of_nat (length ds))) ++ ds.

Definition AppendNumberUnit (out : list Z) (n : Z) (abbr : list Z) : list Z :=
  match Format64 0 n with
  | [c] => if c =? chr "0" then out else out ++ [c] ++ abbr
  | ds => out ++ ds ++ abbr
  end.

(** ** Parsing *)

(** The loop over the integer digits; [None] on overflow. *)
Fixpoint consume_int (s : list Z) (int_part : Z) : option (Z * list Z) :=
  match s with
  | [] => Some (int_part, [])
  | c :: s' =>
      let d := c - chr "0" in
      if (d <? 0) || (10 <=? d) then Some (int_part, s)
      else if int_part >? Z.quot kint64max 10 then None
      else
        let int_part := int_part * 10 in
        if int_part >? kint64max - d then None else consume_int s' (int_part + d)
  end.

(** The loop over the fraction digits; digits beyond the scale's capacity are skipped. *)
Fixpoint consume_frac (s : list Z) (frac_part frac_scale : Z) : Z * Z * list Z :=
  match s with
  | [] => (frac_part, frac_scale, [])
  | c :: s' =>
      let d := c - chr "0" in
      if (d <? 0) || (10 <=? d) then (frac_part, frac_scale, s)
      else if frac_scale <=? Z.quot kint64max 10
      then consume_frac s' (frac_part * 10 + d) (frac_scale * 10)
      else consume_frac s' frac_part frac_scale
  end.

(** The integer part, the fraction, its scale, and the unconsumed text. *)
Definition ConsumeDurationNumber (s : list Z) : option (Z * Z * Z * list Z) :=
  match consume_int s 0 with
  | None => None
  | Some (int_part, rest) =>
      let int_part_empty := Nat.eqb (length rest) (length s) in
      match rest with
      | c :: rest' =>
          if c =? chr "." then
            let '(frac_part, frac_scale, rest2) := consume_frac rest' 0 1 in
            if negb int_part_empty || negb (frac_scale =? 1)
            then Some (int_part, frac_part, frac_scale, rest2) else None
          else if negb int_part_empty then Some (int_part, 0, 1, rest) else None
      | [] => if negb int_part_empty then Some (int_part, 0, 1, rest) else None
      end
  end.

Definition ConsumeDurationUnit (s : list Z) : option (Duration * list Z) :=
  let single c rest :=
    if c =? chr "s" then Some (Seconds 1, rest)
    else if c =? chr "m" then Some (Minutes 1, rest)
    else if c =? chr "h" then Some (Hours 1, rest)
    else None in
  match s with
  | [] => None
  | [c] => single c []
  | c :: (c2 :: rest') as rest =>
      if (c =? chr "n") && (c2 =? chr "s") then Some (Nanoseconds 1, rest')
      else if (c =? chr "u") && (c2 =? chr "s") then Some (Microseconds 1, rest')
      else if (c =? chr "m") && (c2 =? chr "s") then Some (Milliseconds 1, rest')
      else single c (tl s)
  end.

(** The loop over the number-unit pairs. *)
Fixpoint parse_loop (fuel : nat) (sign : Z) (s : list Z) (dur : Duration) : option Duration :=
  match s with
  | [] => Some dur
  | _ =>
      match fuel with
      | O => None
      | S fuel' =>
          match ConsumeDurationNumber s with
          | None => None
          | Some (int_part, frac_part, frac_scale, s1) =>
              match ConsumeDurationUnit s1 with
              | None => None
              | Some (unit, s2) =>
                  let dur := if negb (int_part =? 0) then add dur (mul unit (sign * int_part)) else dur in
                  let dur := if negb (frac_part =? 0)
                             then add dur (div (mul unit (sign * frac_part)) frac_scale) else dur in
                  parse_loop fuel' sign s2 dur
              end
          end
      end
  end.

Definition ParseDuration (dur_sv : list Z) : option Duration :=
  let '(sign, s) :=
    match dur_sv with
    | c :: s' => if c =? chr "-" then (-1, s') else if c =? chr "+" then (1, s') else (1, dur_sv)
    | [] => (1, dur_sv)
    end in
  match s with
  | [] => None
  | _ =>
      if list_eqb s (str "0") then Some ZeroDuration
      else if list_eqb s (str "inf") then Some (mul InfiniteDuration sign)
      else parse_loop (length s) sign s ZeroDuration
  end.

(** ** The grammar and its meaning *)
Inductive time_unit := Ns | Us | Ms | Sec | Min | Hour.

Definition unit_text (u : time_unit) : list Z :=
  match u with
  | Ns => str "ns" | Us => str "us" | Ms => str "ms" | Sec => str "s" | Min => str "m" | Hour => str "h"
  end.

Definition unit_ticks (u : time_unit) : Z :=
  match u with
  | Ns => 4 | Us => 4000 | Ms => 4000000 | Sec => 4000000000
  | Min => 240000000000 | Hour => 14400000000000
  end.

(** A number (integer and fraction digits) with its unit. *)
Record item := mk_item { it_int : list Z; it_frac : list Z; it_unit : time_unit }.

Definition item_text (i : item) : list Z :=
  dec_text (it_int i) ++ match it_frac i with [] => [] | f => chr "." :: dec_text f end
  ++ unit_text (it_unit i).

(** The first 18 digits of the fraction, and the power of ten that scales them. *)
Definition frac_value (i : item) : Z := digits_val 10 (firstn 18 (it_frac i)).
Definition frac_power (i : item) : Z := 10 ^ Z.of_nat (length (firstn 18 (it_frac i))).

Definition item_ticks (i : item) : Z :=
  digits_val 10 (it_int i) * unit_ticks (it_unit i)
  + Z.quot (frac_value i * unit_ticks (it_unit i)) (frac_power i).

Definition item_ok (i : item) : Prop :=
  Forall (is_digit 10) (it_int i) /\ Forall (is_digit 10) (it_frac i) /\
  (it_int i <> [] \/ it_frac i <> []) /\
  digits_val 10 (it_int i) <= kint64max /\ frac_value i * unit_ticks (it_unit i) < tick_limit.

Definition sign_text (neg : bool) (explicit : bool) : list Z :=
  if neg then [chr "-"] else if explicit then [chr "+"] else [].

Definition sgn (neg : bool) (z : Z) : Z := if neg then - z else z.

(** ** Lemmas *)
Definition not_digit_start (s : list Z) : Prop :=
  match s with [] => True | c :: _ => c < chr "0" \/ chr "0" + 10 <= c end.

Lemma digit_char_test d : is_digit 10 d -> (chr "0" + d - chr "0" <? 0) || (10 <=? chr "0" + d - chr "0") = false.
Proof.
  unfold is_digit. intros Hd. replace (chr "0" + d - chr "0") with d by lia.
  apply orb_false_iff. rewrite Z.ltb_ge, Z.leb_gt. lia.
Qed.

Lemma stop_char_test c s :
  not_digit_start (c :: s) -> (c - chr "0" <? 0) || (10 <=? c - chr "0") = true.
Proof. cbn [not_digit_start]. intros H. apply orb_true_iff. rewrite Z.ltb_lt, Z.leb_le. lia. Qed.

Lemma consume_int_spec ds rest acc :
  Forall (is_digit 10) ds -> not_digit_start rest -> 0 <= acc ->
  fold_left (fun v d => v * 10 + d) ds acc <= kint64max ->
  consume_int (dec_text ds ++ rest) acc = Some (fold_left (fun v d => v * 10 + d) ds acc, rest).
Proof.
  intros F Hr. revert acc. induction F as [|d ds Hd F IH]; intros acc Ha HM.
  - cbn [dec_text map app fold_left]. destruct rest as [|c s]; [reflexivity|].
    cbn [consume_int]. now rewrite (stop_char_test c s Hr).
  - cbn [dec_text map app consume_int fold_left] in *. rewrite digit_char_test by assumption.
    replace (chr "0" + d - chr "0") with d by lia. unfold is_digit in Hd.
    assert (M : acc * 10 + d <= kint64max).
    { rewrite digits_val_acc in HM by lia. pose proof (digits_val_range 10 ltac:(lia) ds F).
      assert (1 <= 10 ^ Z.of_nat (length ds)) by (apply (Z.pow_le_mono_r 10 0); lia). nia. }
    replace (Z.quot kint64max 10) with (kint64max / 10) by reflexivity.
    destruct (acc >? kint64max / 10) eqn:E1; zbool; [lits; zlia|].
    destruct (acc * 10 >? kint64max - d) eqn:E2; zbool; [lia|].
    apply IH; [lia|exact HM].
Qed.

Lemma consume_frac_full ds rest fp fs :
  Forall (is_digit 10) ds -> not_digit_start rest -> Z.quot kint64max 10 < fs ->
  consume_frac (dec_text ds ++ rest) fp fs = (fp, fs, rest).
Proof.
  intros F Hr Hs. induction F as [|d ds Hd F IH].
  - cbn [dec_text map app]. destruct rest as [|c s]; [reflexivity|].
    cbn [consume_frac]. now rewrite (stop_char_test c s Hr).
  - cbn [dec_text map app consume_frac]. rewrite digit_char_test by assumption.
    rewrite (proj2 (Z.leb_gt _ _)) by exact Hs. exact IH.
Qed.

Lemma consume_frac_spec ds rest k fp :
  Forall (is_digit 10) ds -> not_digit_start rest -> (k <= 18)%nat ->
  consume_frac (dec_text ds ++ rest) fp (10 ^ Z.of_nat (18 - k))
  = (fold_left (fun v d => v * 10 + d) (firstn k ds) fp,
     10 ^ (Z.of_nat (18 - k) + Z.of_nat (length (firstn k ds))), rest).
Proof.
  intros F Hr. revert k fp. induction F as [|d ds Hd F IH]; intros k fp Hk.
  - rewrite firstn_nil. cbn [dec_text map app fold_left length]. rewrite Z.add_0_r.
    destruct rest as [|c s]; [reflexivity|]. cbn [consume_frac]. now rewrite (stop_char_test c s Hr).
  - destruct k as [|k].
    + rewrite consume_frac_full; [|now constructor|assumption|].
      * cbn [firstn fold_left length]. now rewrite Z.add_0_r.
      * vm_compute. reflexivity.
    + cbn [dec_text map app consume_frac firstn fold_left length]. rewrite digit_char_test by assumption.
      assert (P : 10 ^ Z.of_nat (18 - S k) <= 10 ^ 17) by (apply Z.pow_le_mono_r; lia).
      replace (10 ^ Z.of_nat (18 - S k) <=? _) with true
        by (symmetry; apply Z.leb_le; change (Z.quot kint64max 10) with 922337203685477580; lia).
      replace (chr "0" + d - chr "0") with d by lia.
      replace (10 ^ Z.of_nat (18 - S k) * 10) with (10 ^ Z.of_nat (18 - k)).
      * fold (dec_text ds). rewrite IH by lia. f_equal. f_equal. f_equal. lia.
      * replace (Z.of_nat (18 - k)) with (Z.succ (Z.of_nat (18 - S k))) by lia.
        rewrite Z.pow_succ_r by lia. lia.
Qed.

Lemma unit_text_start u rest : not_digit_start (unit_text u ++ rest).
Proof. destruct u; cbn; lia. Qed.

Lemma length_neq_app {A} (a b : list A) : a <> [] -> Nat.eqb (length b) (length (a ++ b)) = false.
Proof. intros H. apply Nat.eqb_neq. rewrite length_app. destruct a; [easy|]. cbn. lia. Qed.

Lemma dec_text_nil ds : dec_text ds <> [] <-> ds <> [].
Proof. destruct ds; cbn; easy. Qed.

Lemma ConsumeDurationNumber_spec i rest :
  item_ok i ->
  ConsumeDurationNumber (item_text i ++ rest)
  = Some (digits_val 10 (it_int i), frac_value i, frac_power i, unit_text (it_unit i) ++ rest).
Proof.
  intros (F1 & F2 & NE & M & _). unfold ConsumeDurationNumber, item_text.
  rewrite <- !app_assoc. set (tail := unit_text (it_unit i) ++ rest).
  assert (T : not_digit_start tail) by apply unit_text_start.
  destruct (it_frac i) as [|f fs] eqn:Ef.
  - cbn [app]. rewrite consume_int_spec by (try assumption; lia).
    assert (N : dec_text (it_int i) <> []) by (apply dec_text_nil; tauto).
    rewrite length_neq_app by exact N. unfold frac_value, frac_power. rewrite Ef.
    destruct tail as [|c t] eqn:Et; [reflexivity|].
    destruct (c =? chr ".") eqn:E; [|reflexivity]. exfalso. apply Z.eqb_eq in E. subst c.
    unfold tail in Et. destruct (it_unit i); discriminate.
  - rewrite <- Ef in *. rewrite consume_int_spec; [|assumption|cbn; lia|lia|exact M].
    cbn [app]. change (chr "." =? chr ".") with true. cbv iota.
    change (consume_frac (dec_text (it_frac i) ++ tail) 0 1)
      with (consume_frac (dec_text (it_frac i) ++ tail) 0 (10 ^ Z.of_nat (18 - 18))).
    rewrite consume_frac_spec by (auto; lia).
    change (Z.of_nat (18 - 18)) with 0. rewrite Z.add_0_l. fold (frac_power i).
    replace (negb _ || negb _) with true; [reflexivity|]. symmetry. apply orb_true_iff. right.
    apply negb_true_iff, Z.eqb_neq. unfold frac_power. rewrite Ef. cbn [firstn length].
    rewrite Nat2Z.inj_succ, Z.pow_succ_r by lia.
    pose proof (Z.pow_pos_nonneg 10 (Z.of_nat (length (firstn 17 fs)))). lia.
Qed.

Lemma ConsumeDurationUnit_spec u rest :
  (forall t, rest <> chr "s" :: t) ->
  ConsumeDurationUnit (unit_text u ++ rest) = Some (of_ext (Fin (unit_ticks u)), rest).
Proof.
  intros H. destruct unit_consts as (U1 & _ & U2 & U3 & U4 & U5 & U6).
  destruct u; cbn [unit_text str app unit_ticks]; unfold ConsumeDurationUnit;
    rewrite ?U1, ?U2, ?U3, ?U4, ?U5, ?U6; destruct rest as [|c t]; try reflexivity.
  change (chr "m" =? chr "n") with false. change (chr "m" =? chr "u") with false.
  change (chr "m" =? chr "m") with true. cbn [andb].
  destruct (c =? chr "s") eqn:E; [|reflexivity]. apply Z.eqb_eq in E. subst c. now elim (H t).
Qed.

(** Sums of one sign saturate only when the whole sum does. *)
Lemma saturate_sum neg a b :
  0 <= a -> 0 <= b ->
  ext_add (saturate (sgn neg a)) (saturate (sgn neg b)) = saturate (sgn neg (a + b)).
Proof.
  intros Ha Hb. unfold saturate, sgn. destruct neg; repeat case_if; zbool; cbn [ext_add];
    unfold saturate; repeat case_if; zbool; try reflexivity; try (lits; lia); f_equal; lia.
Qed.

Definition sign_of (neg : bool) : Z := if neg then -1 else 1.

Lemma unit_ticks_range u : 0 < unit_ticks u <= 14400000000000.
Proof. destruct u; cbn; lia. Qed.

Lemma unit_ok u : ext_ok (Fin (unit_ticks u)).
Proof. pose proof (unit_ticks_range u). cbn [ext_ok]. lits. lia. Qed.

Lemma frac_power_range i : 1 <= frac_power i <= 10 ^ 18.
Proof.
  unfold frac_power. pose proof (firstn_le_length 18 (it_frac i)).
  split; [apply (Z.pow_le_mono_r 10 0); lia|apply Z.pow_le_mono_r; lia].
Qed.

Lemma frac_value_range i : item_ok i -> 0 <= frac_value i < frac_power i.
Proof.
  intros (_ & F & _). apply digits_val_range; [lia|].
  apply Forall_forall. intros x Hx. rewrite Forall_forall in F.
  apply F. rewrite <- (firstn_skipn 18). apply in_or_app. now left.
Qed.

Lemma int_value_range i : item_ok i -> 0 <= digits_val 10 (it_int i) <= kint64max.
Proof. intros (F & _ & _ & M & _). pose proof (digits_val_range 10 ltac:(lia) _ F). lia. Qed.

(** One number-unit pair adds its ticks to the accumulated duration. *)
Lemma item_step neg i a :
  item_ok i -> 0 <= a ->
  let unit := of_ext (Fin (unit_ticks (it_unit i))) in
  let dur := of_ext (saturate (sgn neg a)) in
  let n := digits_val 10 (it_int i) in
  let dur := if negb (n =? 0) then add dur (mul unit (sign_of neg * n)) else dur in
  (if negb (frac_value i =? 0)
   then add dur (div (mul unit (sign_of neg * frac_value i)) (frac_power i)) else dur)
  = of_ext (saturate (sgn neg (a + item_ticks i))) /\ 0 <= item_ticks i.
Proof.
  intros Hi Ha unit dur n. pose proof (int_value_range i Hi) as Rn. fold n in Rn.
  pose proof (frac_value_range i Hi) as Rf. pose proof (frac_power_range i) as Rp.
  pose proof (unit_ok (it_unit i)) as Hu. pose proof (unit_ticks_range (it_unit i)) as Ru.
  destruct Hi as (_ & _ & _ & _ & HL). unfold item_ticks. fold n.
  set (u := unit_ticks (it_unit i)) in *. set (fp := frac_value i) in *. set (ps := frac_power i) in *.
  assert (Q : 0 <= Z.quot (fp * u) ps) by (apply Z.quot_pos; nia).
  split; [|nia].
  assert (S1 : (if negb (n =? 0) then add dur (mul unit (sign_of neg * n)) else dur)
               = of_ext (saturate (sgn neg (a + n * u)))).
  { destruct (n =? 0) eqn:E; zbool; cbn [negb].
    - rewrite E, Z.mul_0_l, Z.add_0_r. reflexivity.
    - unfold dur, unit. rewrite mul_of_ext by (try exact Hu; destruct neg; unfold sign_of; lits; lia).
      cbn [ext_mul]. rewrite add_of_ext by apply saturate_ok. f_equal.
      rewrite <- saturate_sum by nia. do 2 f_equal. unfold sign_of, sgn. destruct neg; ring. }
  cbv zeta. rewrite S1. destruct (fp =? 0) eqn:E; zbool; cbn [negb].
  - rewrite E, Z.mul_0_l, Z.quot_0_l, Z.add_0_r by lia. reflexivity.
  - change (10 ^ 18) with 1000000000000000000 in Rp.
    assert (Of : ext_ok (Fin (sgn neg (fp * u))))
      by (unfold sgn; cbn [ext_ok]; destruct neg; lits; nia).
    unfold unit. rewrite mul_of_ext by (try exact Hu; destruct neg; unfold sign_of; lits; lia).
    cbn [ext_mul].
    replace (u * (sign_of neg * fp)) with (sgn neg (fp * u)) by (unfold sign_of, sgn; destruct neg; ring).
    rewrite (saturate_Fin (sgn neg (fp * u))), div_of_ext by (try exact Of; lits; lia). cbn [ext_div].
    rewrite (proj2 (Z.eqb_neq ps 0)) by lia.
    rewrite add_of_ext by apply saturate_ok. f_equal. rewrite Z.add_assoc, <- (saturate_sum neg (a + n * u)) by nia.
    do 2 f_equal. unfold sgn. destruct neg; [|reflexivity]. apply Z.quot_opp_l. lia.
Qed.

Definition total_ticks (its : list item) : Z := zsum (map item_ticks its).

Lemma item_text_start i rest : item_ok i -> forall t, item_text i ++ rest <> chr "s" :: t.
Proof.
  intros (F1 & F2 & NE & _) t. unfold item_text.
  destruct (it_int i) as [|d ds]; [destruct (it_frac i); [tauto|discriminate]|].
  apply Forall_cons_iff in F1 as [Hd _]. unfold is_digit in Hd.
  intros E. apply (f_equal (hd 0)) in E. change (48 + d = 115) in E. lia.
Qed.

Lemma items_text_start its : Forall item_ok its -> forall t, concat (map item_text its) <> chr "s" :: t.
Proof. destruct 1 as [|i its Hi _]; [discriminate|]. cbn. now apply item_text_start. Qed.

Lemma item_text_nonempty i : (1 <= length (item_text i))%nat.
Proof.
  unfold item_text. rewrite !length_app.
  assert (1 <= length (unit_text (it_unit i)))%nat by (destruct (it_unit i); cbn; lia). lia.
Qed.

Lemma parse_loop_spec neg its fuel a :
  Forall item_ok its -> 0 <= a -> (length (concat (map item_text its)) <= fuel)%nat ->
  parse_loop fuel (sign_of neg) (concat (map item_text its)) (of_ext (saturate (sgn neg a)))
  = Some (of_ext (saturate (sgn neg (a + total_ticks its)))).
Proof.
  intros F. revert fuel a. induction F as [|i its Hi F IH]; intros fuel a Ha Hf.
  - unfold total_ticks. cbn. rewrite Z.add_0_r. destruct fuel; reflexivity.
  - cbn [map concat] in *. rewrite length_app in Hf. pose proof (item_text_nonempty i) as NE.
    destruct fuel as [|fuel]; [lia|].
    destruct (item_text i ++ concat (map item_text its)) as [|c s] eqn:E.
    { apply (f_equal (@length Z)) in E. rewrite length_app in E. cbn in E. lia. }
    cbn [parse_loop]. rewrite <- E, ConsumeDurationNumber_spec by assumption.
    rewrite ConsumeDurationUnit_spec by now apply items_text_start.
    destruct (item_step neg i a Hi Ha) as [-> P]. rewrite IH by (assumption || lia).
    unfold total_ticks. cbn [map]. unfold zsum. cbn [fold_right]. do 4 f_equal. lia.
Qed.

(** The loop's fuel, the length of the text, is never what makes it fail. *)
Lemma consume_int_length s acc v rest : consume_int s acc = Some (v, rest) -> (length rest <= length s)%nat.
Proof.
  revert acc. induction s as [|c s IH]; intros acc; cbn [consume_int]; [intros [= _ <-]; auto|].
  repeat case_if; try discriminate; [intros [= _ <-]; auto|]. intros H. apply IH in H. cbn. lia.
Qed.

Lemma consume_frac_length s fp fs : (length (snd (consume_frac s fp fs)) <= length s)%nat.
Proof.
  revert fp fs. induction s as [|c s IH]; intros fp fs; cbn [consume_frac]; [auto|].
  repeat case_if; cbn [snd length]; auto.
Qed.

Lemma ConsumeDurationNumber_length s a b c rest :
  ConsumeDurationNumber s = Some (a, b, c, rest) -> (length rest <= length s)%nat.
Proof.
  unfold ConsumeDurationNumber. destruct (consume_int s 0) as [[v r]|] eqn:E; [|discriminate].
  apply consume_int_length in E. destruct r as [|x r].
  - case_if; [|discriminate]. intros [= _ _ _ <-]. exact E.
  - pose proof (consume_frac_length r 0 1) as L. cbn [length] in E.
    destruct (x =? chr "."); [destruct (consume_frac r 0 1) as [[fp fs] r2]; cbn [snd] in L|];
      (case_if; [|discriminate]); intros [= _ _ _ <-]; cbn [length]; lia.
Qed.

Lemma ConsumeDurationUnit_length s d rest :
  ConsumeDurationUnit s = Some (d, rest) -> (length rest < length s)%nat.
Proof.
  unfold ConsumeDurationUnit. destruct s as [|c [|c2 s]]; [discriminate|..];
    repeat (case_if; [intros [= _ <-]; cbn; lia|]); discriminate.
Qed.

Lemma parse_loop_fuel fuel k sign s dur :
  (length s <= fuel)%nat -> parse_loop (fuel + k) sign s dur = parse_loop fuel sign s dur.
Proof.
  revert s dur. induction fuel as [|fuel IH]; intros s dur Hf.
  - destruct s; [destruct k; reflexivity|cbn in Hf; lia].
  - destruct s as [|c s]; [reflexivity|]. cbn [Nat.add parse_loop].
    destruct (ConsumeDurationNumber (c :: s)) as [[[[a b] e] s1]|] eqn:E1; [|reflexivity].
    destruct (ConsumeDurationUnit s1) as [[u s2]|] eqn:E2; [|reflexivity].
    apply ConsumeDurationNumber_length in E1. apply ConsumeDurationUnit_length in E2.
    apply IH. cbn [length] in *. lia.
Qed.

(** The digits printed by the formatter. *)
Lemma format64_loop_spec fuel v acc :
  0 <= v < 10 ^ (Z.of_nat fuel + 1) ->
  format64_loop fuel v acc = dec_text (digits 10 v) ++ acc.
Proof.
  revert v acc. induction fuel as [|f IH]; intros v acc Hv; cbn [format64_loop].
  - change (10 ^ (Z.of_nat 0 + 1)) with 10 in Hv.
    rewrite digits_small, Z.rem_small by lia. reflexivity.
  - rewrite Z.quot_div_nonneg, Z.rem_mod_nonneg by lia.
    destruct (v / 10 =? 0) eqn:E; zbool.
    + assert (v < 10) by zlia. rewrite digits_small, Z.mod_small by lia. reflexivity.
    + assert (10 <= v) by zlia. rewrite digits_step by lia. rewrite IH.
      * unfold dec_text. rewrite map_app, <- app_assoc. reflexivity.
      * replace (Z.of_nat (S f) + 1) with (Z.succ (Z.of_nat f + 1)) in Hv by lia.
        rewrite Z.pow_succ_r in Hv by lia. split; [apply Z.div_pos; lia|].
        apply Z.div_lt_upper_bound; lia.
Qed.

Lemma list_eqb_unit its : Forall item_ok its -> its <> [] ->
  list_eqb (concat (map item_text its)) (str "0") = false /\
  list_eqb (concat (map item_text its)) (str "inf") = false.
Proof.
  destruct 1 as [|i its Hi F]; [easy|]. intros _. cbn [map concat].
  destruct Hi as (F1 & F2 & NE & _). unfold item_text.
  destruct (it_int i) as [|d ds].
  - destruct (it_frac i) as [|e fs]; [tauto|]. split; reflexivity.
  - apply Forall_cons_iff in F1 as [Hd _]. unfold is_digit in Hd. split.
    + cbn [dec_text map app list_eqb str].
      destruct (map (fun d => chr "0" + d) ds) as [|]; [|apply andb_false_r].
      cbn [app]. destruct (it_frac i); [destruct (it_unit i)|]; apply andb_false_r.
    + cbn [dec_text map app list_eqb str].
      replace (chr "0" + d =? chr "i") with false; [reflexivity|].
      symmetry. apply Z.eqb_neq. change (48 + d <> 105). lia.
Qed.

Lemma items_first its c s :
  Forall item_ok its -> concat (map item_text its) = c :: s ->
  (c =? chr "-") = false /\ (c =? chr "+") = false.
Proof.
  intros F E. destruct F as [|i its Hi F]; [discriminate|]. cbn [map concat] in E.
  destruct Hi as (F1 & F2 & NE & _). unfold item_text in E.
  destruct (it_int i) as [|d ds].
  - destruct (it_frac i) as [|e fs]; [tauto|]. apply (f_equal (hd 0)) in E. cbn in E. now subst c.
  - apply Forall_cons_iff in F1 as [Hd _]. unfold is_digit in Hd.
    apply (f_equal (hd 0)) in E. change (48 + d = c) in E.
    split; apply Z.eqb_neq; [change (c <> 45)|change (c <> 43)]; lia.
Qed.

(** ** Properties *)

(** C33: Parsing a duration.  A text made of an optional sign and one or more numbers with
    units, each number having integer digits, fraction digits or both, parses to the exact sum
    of its terms in ticks (each fraction truncated to ticks), saturating to the infinity of the
    sign, provided every integer part fits 64 bits and the first 18 fraction digits times the
    unit do not overflow a duration; the loop's fuel is never the reason of a failure.  Without
    the last proviso the product saturates before it is divided by the scale: half a minute
    written with 18 fraction digits parses as the infinite duration. *)
Theorem ParseDuration_correct neg explicit its :
  its <> [] -> Forall item_ok its ->
  ParseDuration (sign_text neg explicit ++ concat (map item_text its))
    = Some (of_ext (saturate (sgn neg (total_ticks its)))) /\
  (forall k sign s dur, parse_loop (length s + k) sign s dur = parse_loop (length s) sign s dur) /\
  ParseDuration (str "0.5m") = Some (Seconds 30) /\
  ParseDuration (str "0.500000000000000000m") = Some InfiniteDuration /\
  ParseDuration (str "-0.100000000000000000h") = Some (opp InfiniteDuration).
Proof.
  intros NE F. split; [|split; [intros; now apply parse_loop_fuel|vm_compute; repeat split]].
  destruct (list_eqb_unit its F NE) as [E1 E2].
  pose proof (parse_loop_spec neg its (length (concat (map item_text its))) 0 F ltac:(lia) ltac:(lia)) as P.
  replace (of_ext (saturate (sgn neg 0))) with ZeroDuration in P by (destruct neg; reflexivity).
  unfold ParseDuration. pose proof (items_first its) as I.
  destruct (concat (map item_text its)) as [|c s] eqn:E.
  { destruct F as [|i its Hi F]; [easy|]. cbn [map concat] in E.
    apply (f_equal (@length Z)) in E. rewrite length_app in E.
    pose proof (item_text_nonempty i). cbn in E. lia. }
  destruct (I c s F eq_refl) as [I1 I2].
  destruct neg; [|destruct explicit]; cbn [sign_text app].
  - change (chr "-" =? chr "-") with true. cbv iota. rewrite E1, E2. exact P.
  - change (chr "+" =? chr "-") with false. change (chr "+" =? chr "+") with true. cbv iota.
    rewrite E1, E2. exact P.
  - rewrite I1, I2, E1, E2. exact P.
Qed.

Lemma ParseDuration_correct_witness :
  option_map ticks (ParseDuration (str "-1.5h20ms")) = Some (Fin (-21600080000000)) /\
  ParseDuration (sign_text true false ++ concat (map item_text [mk_item [1] [5] Hour; mk_item [2; 0] [] Ms]))
  = Some (of_ext (saturate (sgn true (total_ticks [mk_item [1] [5] Hour; mk_item [2; 0] [] Ms])))).
Proof.
  split; [vm_compute; reflexivity|].
  apply ParseDuration_correct; [discriminate|].
  repeat constructor; cbn; try lia; try (vm_compute; intuition congruence); left; discriminate.
Defined.

(** The integer formatter writes the canonical decimal digits, zero-padded to the field width. *)
Lemma Format64_correct width v out abbr :
  0 <= v < 10 ^ 20 ->
  let ds := dec_text (digits 10 v) in
  Format64 width v = repeat (chr "0") (Z.to_nat (width - Z.of_nat (length ds))) ++ ds /\
  AppendNumberUnit out v abbr = (if v =? 0 then out else out ++ ds ++ abbr).
Proof.
  intros Hv ds.
  assert (E : forall w, Format64 w v = repeat (chr "0") (Z.to_nat (w - Z.of_nat (length ds))) ++ ds).
  { intros w. unfold Format64. rewrite format64_loop_spec by exact Hv. now rewrite app_nil_r. }
  split; [apply E|]. unfold AppendNumberUnit. rewrite E.
  replace (Z.to_nat (0 - _)) with 0%nat by lia. cbn [repeat app].
  destruct (v =? 0) eqn:E0; zbool; [now subst v|].
  destruct (digits_hd 10 ltac:(lia) v ltac:(lia)) as (d & r & Ed & Hd). unfold ds. rewrite Ed.
  destruct r as [|e r]; [|reflexivity]. cbn [dec_text map].
  destruct (chr "0" + d =? chr "0") eqn:E1; zbool; [lia|reflexivity].
Qed.

