(* ===== verification/BigUnsigned.v ===== *)
(** [absl/strings/internal/charconv_bigint.h], [charconv_bigint.cc]: the fixed-width big integer
    of the decimal-to-binary conversion, an array of [W] 32-bit words with a count of the words
    that may be non-zero.

    All arithmetic is in place; the loops run over indices of the array as in the source.  The
    operand words of a multiplication are given as a function of the current array, so that
    multiplying a value by itself (the operand aliasing the destination) is covered. *)
From Stdlib Require Import Ascii String.
From Stdlib Require Import ZArith Lia List Bool.
From S2P Require Import Prelude Digits.
Import ListNotations.
#[local] Open Scope Z_scope.
#[local] Open Scope mach_scope.

(** ** Tables *)
Definition kMaxSmallPowerOfFive : nat := 13.
Definition kMaxSmallPowerOfTen : nat := 9.
Definition kLargePowerOfFiveStep : nat := 27.
Definition kLargestPowerOfFiveIndex : nat := 20.

Definition kFiveToNth : list Z :=
  [1; 5; 25; 125; 625; 3125; 15625; 78125; 390625; 1953125; 9765625; 48828125; 244140625; 1220703125].

Definition kTenToNth : list Z :=
  [1; 10; 100; 1000; 10000; 100000; 1000000; 10000000; 100000000; 1000000000].

(** The powers [5^27], [5^54], ..., [5^540], least significant word first. *)
Definition kLargePowersOfFive : list Z :=
  [
   0xfa10079d; 0x6765c793;
   0x97d9f649; 0x6664242d; 0x29939b14; 0x29c30f10;
   0xc4f809c5; 0x7bf3f22a; 0x67bdae34; 0xad340517; 0x369d1b5f; 0x10de1593;
   0x92b260d1; 0x9efff7c7; 0x81de0ec6; 0xaeba5d56; 0x410664a4; 0x4f40737a;
   0x20d3846f; 0x06d00f73;
   0xff1b172d; 0x13a1d71c; 0xefa07617; 0x7f682d3d; 0xff8c90c0; 0x3f0131e7;
   0x3fdcb9fe; 0x917b0177; 0x16c407a7; 0x02c06b9d;
   0x960f7199; 0x056667ec; 0xe07aefd8; 0x80f2b9cc; 0x8273f5e3; 0xeb9a214a;
   0x40b38005; 0x0e477ad4; 0x277d08e6; 0xfa28b11e; 0xd3f7d784; 0x011c835b;
   0xf723d9d5; 0x3282d3f3; 0xe00857d1; 0x69659d25; 0x2cf117cf; 0x24da6d07;
   0x954d1417; 0x3e5d8ced; 0x7a8bb766; 0xfd785ae6; 0x645436d2; 0x40c78b34;
   0x94151217; 0x0072e9f7;
   0x2b416aa1; 0x7893c5a7; 0xe37dc6d4; 0x2bad2bea; 0xf0fc846c; 0x7575ae4b;
   0x62587b14; 0x83b67a34; 0x02110cdb; 0xf7992f55; 0x00deb022; 0xa4a23bec;
   0x8af5c5cd; 0xb85b654f; 0x818df38b; 0x002e69d2;
   0x3518cbbd; 0x20b0c15f; 0x38756c2f; 0xfb5dc3dd; 0x22ad2d94; 0xbf35a952;
   0xa699192a; 0x9a613326; 0xad2a9ced; 0xd7f48968; 0xe87dfb54; 0xc8f05db6;
   0x5ef67531; 0x31c1ab49; 0xe202ac9f; 0x9b2957b5; 0xa143f6d3; 0x0012bf07;
   0x8b971de9; 0x21aba2e1; 0x63944362; 0x57172336; 0xd9544225; 0xfb534166;
   0x08c563ee; 0x14640ee2; 0x24e40d31; 0x02b06537; 0x03887f14; 0x0285e533;
   0xb744ef26; 0x8be3a6c4; 0x266979b4; 0x6761ece2; 0xd9cb39e4; 0xe67de319;
   0x0d39e796; 0x00079250;
   0x260eb6e5; 0xf414a796; 0xee1a7491; 0xdb9368eb; 0xf50c105b; 0x59157750;
   0x9ed2fb5c; 0xf6e56d8b; 0xeaee8d23; 0x0f319f75; 0x2aa134d6; 0xac2908e9;
   0xd4413298; 0x02f02a55; 0x989d5a7a; 0x70dde184; 0xba8040a7; 0x03200981;
   0xbe03b11c; 0x3c1c2a18; 0xd60427a1; 0x00030ee0;
   0xce566d71; 0xf1c4aa25; 0x4e93ca53; 0xa72283d0; 0x551a73ea; 0x3d0538e2;
   0x8da4303f; 0x6a58de60; 0x0e660221; 0x49cf61a6; 0x8d058fc1; 0xb9d1a14c;
   0x4bab157d; 0xc85c6932; 0x518c8b9e; 0x9b92b8d0; 0x0d8a0e21; 0xbd855df9;
   0xb3ea59a1; 0x8da29289; 0x4584d506; 0x3752d80f; 0xb72569c6; 0x00013c33;
   0x190f354d; 0x83695cfe; 0xe5a4d0c7; 0xb60fb7e8; 0xee5bbcc4; 0xb922054c;
   0xbb4f0d85; 0x48394028; 0x1d8957db; 0x0d7edb14; 0x4ecc7587; 0x505e9e02;
   0x4c87f36b; 0x99e66bd6; 0x44b9ed35; 0x753037d4; 0xe5fe5f27; 0x2742c203;
   0x13b2ed2b; 0xdc525d2c; 0xe6fde59a; 0x77ffb18f; 0x13c5752c; 0x08a84bcc;
   0x859a4940; 0x00007fb6;
   0x4f98cb39; 0xa60edbbc; 0x83b5872e; 0xa501acff; 0x9cc76f78; 0xbadd4c73;
   0x43e989fa; 0xca7acf80; 0x2e0c824f; 0xb19f4ffc; 0x092fd81c; 0xe4eb645b;
   0xa1ff84c2; 0x8a5a83ba; 0xa8a1fae9; 0x1db43609; 0xb0fed50b; 0x0dd7d2bd;
   0x7d7accd8; 0x91fa640f; 0x37dcc6c5; 0x1c417fd5; 0xe4d462ad; 0xe8a43399;
   0x131bf9a5; 0x8df54d29; 0x36547dc1; 0x00003395;
   0x5bd330f5; 0x77d21967; 0x1ac481b7; 0x6be2f7ce; 0x7f4792a9; 0xe84c2c52;
   0x84592228; 0x9dcaf829; 0xdab44ce1; 0x3d0c311b; 0x532e297d; 0x4704e8b4;
   0x9cdc32be; 0x41e64d9d; 0x7717bea1; 0xa824c00d; 0x08f50b27; 0x0f198d77;
   0x49bbfdf0; 0x025c6c69; 0xd4e55cd3; 0xf083602b; 0xb9f0fecd; 0xc0864aea;
   0x9cb98681; 0xaaf620e9; 0xacb6df30; 0x4faafe66; 0x8af13c3b; 0x000014d5;
   0x682bb941; 0x89a9f297; 0xcba75d7b; 0x404217b1; 0xb4e519e9; 0xa1bc162b;
   0xf7f5910a; 0x98715af5; 0x2ff53e57; 0xe3ef118c; 0x490c4543; 0xbc9b1734;
   0x2affbe4d; 0x4cedcb4c; 0xfb14e99e; 0x35e34212; 0xece39c24; 0x07673ab3;
   0xe73115dd; 0xd15d38e7; 0x093eed3b; 0xf8e7eac5; 0x78a8cc80; 0x25227aac;
   0x3f590551; 0x413da1cb; 0xdf643a55; 0xab65ad44; 0xd70b23d7; 0xc672cd76;
   0x3364ea62; 0x0000086a;
   0x22f163dd; 0x23cf07ac; 0xbe2af6c2; 0xf412f6f6; 0xc3ff541e; 0x6eeaf7de;
   0xa47047e0; 0x408cda92; 0x0f0eeb08; 0x56deba9d; 0xcfc6b090; 0x8bbbdf04;
   0x3933cdb3; 0x9e7bb67d; 0x9f297035; 0x38946244; 0xee1d37bb; 0xde898174;
   0x63f3559d; 0x705b72fb; 0x138d27d9; 0xf8603a78; 0x735eec44; 0xe30987d5;
   0xc6d38070; 0x9cfe548e; 0x9ff01422; 0x7c564aa8; 0x91cc60ba; 0xcbc3565d;
   0x7550a50b; 0x6909aead; 0x13234c45; 0x00000366;
   0x17954989; 0x3a7d7709; 0x98042de5; 0xa9011443; 0x45e723c2; 0x269ffd6f;
   0x58852a46; 0xaaa1042a; 0x2eee8153; 0xb2b6c39e; 0xaf845b65; 0xf6c365d7;
   0xe4cffb2b; 0xc840e90c; 0xabea8abb; 0x5c58f8d2; 0x5c19fa3a; 0x4670910a;
   0x4449f21c; 0xefa645b3; 0xcc427dec; 0x083c3d73; 0x467cb413; 0x6fe10ae4;
   0x3caffc72; 0x9f8da55e; 0x5e5c8ea7; 0x490594bb; 0xf0871b0b; 0xdd89816c;
   0x8e931df8; 0xe85ce1c9; 0xcca090a5; 0x575fa16b; 0x6b9f106c; 0x0000015f;
   0xee20d805; 0x57bc3c07; 0xcdea624e; 0xd3f0f52d; 0x9924b4f4; 0xcf968640;
   0x61d41962; 0xe87fb464; 0xeaaf51c7; 0x564c8b60; 0xccda4028; 0x529428bb;
   0x313a1fa8; 0x96bd0f94; 0x7a82ebaa; 0xad99e7e9; 0xf2668cd4; 0xbe33a45e;
   0xfd0db669; 0x87ee369f; 0xd3ec20ed; 0x9c4d7db7; 0xdedcf0d8; 0x7cd2ca64;
   0xe25a6577; 0x61003fd4; 0xe56f54cc; 0x10b7c748; 0x40526e5e; 0x7300ae87;
   0x5c439261; 0x2c0ff469; 0xbf723f12; 0xb2379b61; 0xbf59b4f5; 0xc91b1c3f;
   0xf0046d27; 0x0000008d;
   0x525c9e11; 0xf4e0eb41; 0xebb2895d; 0x5da512f9; 0x7d9b29d4; 0x452f4edc;
   0x0b90bc37; 0x341777cb; 0x63d269af; 0x1da77929; 0x0a5c1826; 0x77991898;
   0x5aeddf86; 0xf853a877; 0x538c31cc; 0xe84896da; 0xb7a0010b; 0x17ef4de5;
   0xa52a2ade; 0x029fd81c; 0x987ce701; 0x27fefd77; 0xdb46c66f; 0x5d301900;
   0x496998c0; 0xbb6598b9; 0x5eebb607; 0xe547354a; 0xdf4a2f7e; 0xf06c4955;
   0x96242ffa; 0x1775fb27; 0xbecc58ce; 0xebf2a53b; 0x3eaad82a; 0xf41137ba;
   0x573e6fba; 0xfb4866b8; 0x54002148; 0x00000039].

(** The words of [5^(27 i)]. *)
Definition LargePowerOfFiveSize (i : nat) : nat := 2 * i.
Definition LargePowerOfFiveData (i : nat) : list Z :=
  firstn (LargePowerOfFiveSize i) (skipn (i * (i - 1)) kLargePowersOfFive).

(** ** Arrays *)
Definition word (ws : list Z) (i : nat) : Z := nth i ws 0.

Fixpoint upd (i : nat) (v : Z) (ws : list Z) : list Z :=
  match ws, i with
  | [], _ => []
  | _ :: t, O => v :: t
  | w :: t, S i' => w :: upd i' v t
  end.

(** [std::fill_n(words, n, 0)] *)
Fixpoint fill_zero (n : nat) (ws : list Z) : list Z :=
  match n, ws with
  | S n', _ :: t => 0 :: fill_zero n' t
  | _, _ => ws
  end.

Record BigUnsigned := mk_Big { size_ : nat; words_ : list Z }.

(** ** Operations; [W] is the template parameter [max_words] *)
Section Ops.
Context (W : nat).

Definition Big_zero : BigUnsigned := mk_Big 0 (repeat 0 W).

Definition of_uint64 (v : Z) : BigUnsigned :=
  mk_Big (if negb (Z.shiftr v 32 =? 0) then 2 else if negb (v =? 0) then 1 else 0)
         ([wrapu 32 (v .& 0xffffffff); wrapu 32 (v >> 32)] ++ repeat 0 (W - 2)).

Definition SetToZero (b : BigUnsigned) : BigUnsigned := mk_Big 0 (fill_zero (size_ b) (words_ b)).

Definition GetWord (b : BigUnsigned) (index : Z) : Z :=
  if (index <? 0) || (index >=? Z.of_nat (size_ b)) then 0 else word (words_ b) (Z.to_nat index).

Definition Digits10 : Z := Z.of_nat W * 9975007 / 1035508.

(** [for (i = lo + n; i > lo; --i) words[i] = f(words, i)] *)
Fixpoint down_loop (f : list Z -> nat -> Z) (lo n : nat) (ws : list Z) : list Z :=
  match n with
  | O => ws
  | S n' => down_loop f lo n' (upd (lo + n) (f ws (lo + n)%nat) ws)
  end.

Definition ShiftLeft (b : BigUnsigned) (count : Z) : BigUnsigned :=
  if count >? 0 then
    let word_shift := Z.to_nat (Z.quot count 32) in
    if (W <=? word_shift)%nat then SetToZero b
    else
      let size := Nat.min (size_ b + word_shift) W in
      let count := Z.rem count 32 in
      if count =? 0 then
        (* [std::copy_backward] *)
        let ws :=
          match (size - word_shift)%nat with
          | O => words_ b
          | S n =>
              let ws := down_loop (fun ws i => word ws (i - word_shift)) word_shift n (words_ b) in
              upd word_shift (word ws 0) ws
          end in
        mk_Big size (fill_zero word_shift ws)
      else
        let ws :=
          down_loop (fun ws i => (word ws (i - word_shift) <<[32] count)
                                 .| (word ws (i - word_shift - 1) >> (32 - count)))
                    word_shift (Nat.min size (W - 1) - word_shift) (words_ b) in
        let ws := upd word_shift (word ws 0 <<[32] count) ws in
        let size := if (size <? W)%nat && negb (word ws size =? 0) then S size else size in
        mk_Big size (fill_zero word_shift ws)
  else b.

(** The multiplication loop: the last window and the words. *)
Fixpoint mul_loop (n i : nat) (factor window : Z) (ws : list Z) : Z * list Z :=
  match n with
  | O => (window, ws)
  | S n' =>
      let window := window +[64] (factor *[64] word ws i) in
      mul_loop n' (S i) factor (window >> 32) (upd i (window .& 0xffffffff) ws)
  end.

Definition MultiplyBy32 (b : BigUnsigned) (v : Z) : BigUnsigned :=
  if (size_ b =? 0)%nat || (v =? 1) then b
  else if v =? 0 then SetToZero b
  else
    let '(window, ws) := mul_loop (size_ b) 0 v 0 (words_ b) in
    if negb (window =? 0) && (size_ b <? W)%nat
    then mk_Big (S (size_ b)) (upd (size_ b) (window .& 0xffffffff) ws)
    else mk_Big (size_ b) ws.

(** Adding a word with carry: the words and the last index. *)
Fixpoint add_loop (fuel index : nat) (value : Z) (ws : list Z) : list Z * nat :=
  match fuel with
  | O => (ws, index)
  | S f =>
      if (index <? W)%nat && (value >? 0) then
        let w := word ws index +[32] value in
        if value >? w then add_loop f (S index) 1 (upd index w ws) else (upd index w ws, index)
      else (ws, index)
  end.

Definition AddWithCarry32 (b : BigUnsigned) (index : nat) (value : Z) : BigUnsigned :=
  if negb (value =? 0) then
    let '(ws, index) := add_loop (S W) index value (words_ b) in
    mk_Big (Nat.min W (Nat.max (S index) (size_ b))) ws
  else b.

Definition AddWithCarry64 (b : BigUnsigned) (index : nat) (value : Z) : BigUnsigned :=
  if negb (value =? 0) && (index <? W)%nat then
    let high := wrapu 32 (value >> 32) in
    let low := value .& 0xffffffff in
    let w := word (words_ b) index +[32] low in
    let b := mk_Big (size_ b) (upd index w (words_ b)) in
    let finish high :=
      if high >? 0 then AddWithCarry32 b (S index) high
      else mk_Big (Nat.min W (Nat.max (S index) (size_ b))) (words_ b) in
    if w <? low then
      let high := high +[32] 1 in
      if high =? 0 then AddWithCarry32 b (index + 2) 1 else finish high
    else finish high
  else b.

(** The inner loop of [MultiplyStep], from [this_i = k - 1] down: the word and the carry. *)
Fixpoint step_loop (k other_i other_size : nat) (ws other : list Z) (this_word carry : Z) : Z * Z :=
  match k with
  | O => (this_word, carry)
  | S this_i =>
      if (other_i <? other_size)%nat then
        let product := word ws this_i *[64] word other other_i in
        let this_word := this_word +[64] product in
        let carry := carry +[64] (this_word >> 32) in
        step_loop this_i (S other_i) other_size ws other (this_word .& 0xffffffff) carry
      else (this_word, carry)
  end.

(** [other] gives the operand's words from the current array (the array itself when aliased). *)
Definition MultiplyStep (b : BigUnsigned) (original_size : nat) (other : list Z -> list Z)
    (other_size step : nat) : BigUnsigned :=
  let k := Nat.min original_size (S step) in
  let '(this_word, carry) :=
    step_loop k (S step - k) other_size (words_ b) (other (words_ b)) 0 0 in
  let b := AddWithCarry64 b (S step) carry in
  let ws := upd step (this_word .& 0xffffffff) (words_ b) in
  mk_Big (if (this_word >? 0) && (size_ b <=? step)%nat then S step else size_ b) ws.

(** [for (step = n - 1; step >= 0; --step)] *)
Fixpoint multiply_steps (n : nat) (b : BigUnsigned) (original_size : nat) (other : list Z -> list Z)
    (other_size : nat) : BigUnsigned :=
  match n with
  | O => b
  | S step => multiply_steps step (MultiplyStep b original_size other other_size step)
                original_size other other_size
  end.

Definition MultiplyByWords (b : BigUnsigned) (other_size : nat) (other : list Z -> list Z) : BigUnsigned :=
  let original_size := size_ b in
  let first_step := Z.min (Z.of_nat original_size + Z.of_nat other_size - 2) (Z.of_nat W - 1) in
  multiply_steps (Z.to_nat (first_step + 1)) b original_size other other_size.

Definition MultiplyByBig (b other : BigUnsigned) : BigUnsigned :=
  MultiplyByWords b (size_ other) (fun _ => words_ other).

(** The operand is the destination. *)
Definition MultiplyBySelf (b : BigUnsigned) : BigUnsigned :=
  MultiplyByWords b (size_ b) (fun ws => ws).

Definition MultiplyBy64 (b : BigUnsigned) (v : Z) : BigUnsigned :=
  let words := [wrapu 32 v; wrapu 32 (v >> 32)] in
  if word words 1 =? 0 then MultiplyBy32 b (word words 0) else MultiplyByWords b 2 (fun _ => words).

(** [while (n >= 13) ...] with [n] as fuel. *)
Fixpoint five_loop (fuel : nat) (b : BigUnsigned) (n : nat) : BigUnsigned * nat :=
  match fuel with
  | O => (b, n)
  | S f =>
      if (kMaxSmallPowerOfFive <=? n)%nat
      then five_loop f (MultiplyBy32 b (word kFiveToNth kMaxSmallPowerOfFive)) (n - kMaxSmallPowerOfFive)
      else (b, n)
  end.

Definition MultiplyByFiveToTheNth (b : BigUnsigned) (n : nat) : BigUnsigned :=
  let '(b, n) := five_loop n b n in
  if (0 <? n)%nat then MultiplyBy32 b (word kFiveToNth n) else b.

Definition MultiplyByTenToTheNth (b : BigUnsigned) (n : nat) : BigUnsigned :=
  if (kMaxSmallPowerOfTen <? n)%nat then ShiftLeft (MultiplyByFiveToTheNth b n) (Z.of_nat n)
  else if (0 <? n)%nat then MultiplyBy32 b (word kTenToNth n) else b.

(** The loop of [FiveToTheNth]; [None] where the copied words do not fit the array. *)
Fixpoint large_five_loop (fuel : nat) (answer : BigUnsigned) (n : nat) (first_pass : bool)
    : option (BigUnsigned * nat) :=
  match fuel with
  | O => Some (answer, n)
  | S f =>
      if (kLargePowerOfFiveStep <=? n)%nat then
        let big_power := Nat.min (n / kLargePowerOfFiveStep) kLargestPowerOfFiveIndex in
        let sz := LargePowerOfFiveSize big_power in
        let rest := (n - kLargePowerOfFiveStep * big_power)%nat in
        if first_pass then
          if (sz <=? W)%nat
          then large_five_loop f (mk_Big sz (LargePowerOfFiveData big_power ++ skipn sz (words_ answer))) rest false
          else None
        else large_five_loop f (MultiplyByWords answer sz (fun _ => LargePowerOfFiveData big_power)) rest false
      else Some (answer, n)
  end.

Definition FiveToTheNth (n : nat) : option BigUnsigned :=
  match large_five_loop n (of_uint64 1) n true with
  | Some (answer, n) => Some (MultiplyByFiveToTheNth answer n)
  | None => None
  end.

(** Division by a constant: the words from the top down, and the accumulator. *)
Fixpoint div_words (divisor : Z) (n : nat) (accumulator : Z) (ws : list Z) : Z * list Z :=
  match n with
  | O => (accumulator, ws)
  | S i =>
      let accumulator := (accumulator <<[64] 32) +[64] word ws i in
      div_words divisor i (accumulator mod divisor) (upd i (wrapu 32 (accumulator / divisor)) ws)
  end.

(** [while (size > 0 && words[size - 1] == 0) --size;] *)
Fixpoint trim (size : nat) (ws : list Z) : nat :=
  match size with
  | O => O
  | S n => if word ws n =? 0 then trim n ws else size
  end.

Definition DivMod (divisor : Z) (b : BigUnsigned) : Z * BigUnsigned :=
  let '(accumulator, ws) := div_words divisor (size_ b) 0 (words_ b) in
  (wrapu 32 accumulator, mk_Big (trim (size_ b) ws) ws).

(** The digits of [ToString], least significant first; a word has at most 10 digits. *)
Fixpoint to_string_loop (fuel : nat) (copy : BigUnsigned) : list Z :=
  match fuel with
  | O => []
  | S f =>
      if (0 <? size_ copy)%nat then
        let '(next_digit, copy) := DivMod 10 copy in
        (chr "0" + next_digit) :: to_string_loop f copy
      else []
  end.

Definition ToString (b : BigUnsigned) : list Z :=
  match to_string_loop (10 * W + 1) b with
  | [] => [chr "0"]
  | result => rev result
  end.

End Ops.

(** ** Comparison *)
Fixpoint compare_loop (n : nat) (lhs rhs : BigUnsigned) : Z :=
  match n with
  | O => 0
  | S i =>
      let lhs_word := GetWord lhs (Z.of_nat i) in
      let rhs_word := GetWord rhs (Z.of_nat i) in
      if lhs_word <? rhs_word then -1
      else if lhs_word >? rhs_word then 1
      else compare_loop i lhs rhs
  end.

Definition Compare (lhs rhs : BigUnsigned) : Z :=
  compare_loop (Nat.max (size_ lhs) (size_ rhs)) lhs rhs.

Definition Big_eqb (lhs rhs : BigUnsigned) : bool :=
  forallb (fun i => GetWord lhs (Z.of_nat i) =? GetWord rhs (Z.of_nat i))
          (seq 0 (Nat.max (size_ lhs) (size_ rhs))).

Definition Big_ltb (lhs rhs : BigUnsigned) : bool := Compare lhs rhs =? -1.
Definition Big_gtb (lhs rhs : BigUnsigned) : bool := Big_ltb rhs lhs.
Definition Big_leb (lhs rhs : BigUnsigned) : bool := negb (Big_ltb rhs lhs).
Definition Big_geb (lhs rhs : BigUnsigned) : bool := negb (Big_ltb lhs rhs).
Definition Big_neqb (lhs rhs : BigUnsigned) : bool := negb (Big_eqb lhs rhs).

(** ** Specification *)
Definition B32 : Z := 4294967296.

(** The value of an array of words, least significant first. *)
Fixpoint wval (ws : list Z) : Z :=
  match ws with
  | [] => 0
  | w :: t => w + B32 * wval t
  end.

Definition is_word (w : Z) : Prop := 0 <= w < B32.

Definition Big_ok (W : nat) (b : BigUnsigned) : Prop :=
  length (words_ b) = W /\ Forall is_word (words_ b) /\ (size_ b <= W)%nat /\
  (forall i, (size_ b <= i)%nat -> word (words_ b) i = 0).

Definition bval (b : BigUnsigned) : Z := wval (words_ b).

(** The modulus of the arithmetic: overflow truncates. *)
Definition modulus (W : nat) : Z := B32 ^ Z.of_nat W.

(** ** Arrays *)
Lemma modulus_pos W : 0 < modulus W.
Proof. apply Z.pow_pos_nonneg; unfold B32; lia. Qed.

Lemma modulus_S W : modulus (S W) = B32 * modulus W.
Proof. unfold modulus. rewrite Nat2Z.inj_succ, Z.pow_succ_r by lia. reflexivity. Qed.

Lemma modulus_add n m : modulus (n + m) = modulus n * modulus m.
Proof. unfold modulus. rewrite Nat2Z.inj_add, Z.pow_add_r by lia. reflexivity. Qed.

Lemma wval_app a b : wval (a ++ b) = wval a + modulus (length a) * wval b.
Proof.
  induction a as [|x a IH]; cbn [app wval length]; [change (modulus 0) with 1; lia|].
  rewrite IH, modulus_S. ring.
Qed.

Lemma wval_range ws : Forall is_word ws -> 0 <= wval ws < modulus (length ws).
Proof.
  induction 1 as [|w ws Hw _ IH]; cbn [wval length]; [change (modulus 0) with 1; lia|].
  rewrite modulus_S. unfold is_word in Hw. nia.
Qed.

Lemma wval_zeros n : wval (repeat 0 n) = 0.
Proof. induction n as [|n IH]; cbn [repeat wval]; [reflexivity|]. rewrite IH. lia. Qed.

Lemma upd_length i v ws : length (upd i v ws) = length ws.
Proof. revert i. induction ws as [|w ws IH]; intros [|i]; cbn; auto. Qed.

Lemma upd_word i j v ws :
  (i < length ws)%nat -> word (upd i v ws) j = if (j =? i)%nat then v else word ws j.
Proof.
  unfold word. revert i j. induction ws as [|w ws IH]; intros i j Hi; [cbn in Hi; lia|].
  destruct i as [|i], j as [|j]; cbn [upd nth Nat.eqb]; auto. apply IH. cbn in Hi. lia.
Qed.

Lemma upd_Forall i v ws : is_word v -> Forall is_word ws -> Forall is_word (upd i v ws).
Proof.
  intros Hv F. revert i. induction F as [|w ws Hw F IH]; intros [|i]; cbn [upd]; auto.
Qed.

Lemma upd_at pre x t v : upd (length pre) v (pre ++ x :: t) = pre ++ v :: t.
Proof. induction pre as [|p pre IH]; cbn; [reflexivity|]. now rewrite IH. Qed.

Lemma word_at pre x t : word (pre ++ x :: t) (length pre) = x.
Proof. unfold word. induction pre as [|p pre IH]; cbn; auto. Qed.

Lemma word_is_word ws i : Forall is_word ws -> is_word (word ws i).
Proof.
  intros F. unfold word. destruct (nth_in_or_default i ws 0) as [H| ->].
  - rewrite Forall_forall in F. now apply F.
  - unfold is_word, B32. lia.
Qed.

(** Arrays with the same words are equal. *)
Lemma words_ext a b : length a = length b -> (forall i, (i < length a)%nat -> word a i = word b i) -> a = b.
Proof. intros HL H. now apply (nth_ext a b 0 0). Qed.

Lemma zero_tail ws n :
  (n <= length ws)%nat -> (forall i, (n <= i)%nat -> word ws i = 0) ->
  ws = firstn n ws ++ repeat 0 (length ws - n).
Proof.
  intros Hn HZ. rewrite <- (firstn_skipn n ws) at 1. f_equal.
  apply words_ext; [rewrite length_skipn, repeat_length; reflexivity|].
  intros i Hi. unfold word. rewrite nth_skipn, nth_repeat. apply HZ. lia.
Qed.

Lemma fill_zero_spec n ws :
  length (fill_zero n ws) = length ws /\
  (forall i, word (fill_zero n ws) i = if (i <? n)%nat then 0 else word ws i).
Proof.
  revert n. induction ws as [|w ws IH]; intros [|n]; cbn [fill_zero length]; split; auto.
  - intros i. unfold word. destruct (i <? S n)%nat; destruct i; reflexivity.
  - f_equal. apply IH.
  - intros [|i]; [reflexivity|]. apply (proj2 (IH n) i).
Qed.

Lemma SetToZero_spec W b : Big_ok W b -> Big_ok W (SetToZero b) /\ bval (SetToZero b) = 0.
Proof.
  intros (HL & F & HS & HZ). destruct (fill_zero_spec (size_ b) (words_ b)) as [L1 W1].
  assert (E : fill_zero (size_ b) (words_ b) = repeat 0 W).
  { apply words_ext; [rewrite repeat_length; congruence|]. intros i _. rewrite W1.
    unfold word at 2. rewrite nth_repeat. destruct (i <? size_ b)%nat eqn:Ei; [reflexivity|].
    apply HZ. apply Nat.ltb_ge in Ei. exact Ei. }
  unfold SetToZero, bval, Big_ok. cbn [size_ words_]. rewrite E. split; [|apply wval_zeros].
  repeat split; [apply repeat_length| |lia|].
  - apply Forall_forall. intros x Hx%repeat_spec. subst x. unfold is_word, B32. lia.
  - intros i _. apply nth_repeat.
Qed.

(** The value of a well-formed integer is that of its used words. *)
Lemma bval_used W b : Big_ok W b -> bval b = wval (firstn (size_ b) (words_ b)) /\
  words_ b = firstn (size_ b) (words_ b) ++ repeat 0 (W - size_ b) /\
  length (firstn (size_ b) (words_ b)) = size_ b.
Proof.
  intros (HL & F & HS & HZ). pose proof (zero_tail (words_ b) (size_ b) ltac:(lia) HZ) as E.
  rewrite HL in E. split; [|split; [exact E|apply firstn_length_le; lia]].
  unfold bval. rewrite E at 1. rewrite wval_app, wval_zeros. lia.
Qed.

(** ** Multiplication by a word *)
Fixpoint mul_words (f carry : Z) (ws : list Z) : Z * list Z :=
  match ws with
  | [] => (carry, [])
  | w :: t =>
      let '(c, t') := mul_words f ((carry + f * w) / B32) t in (c, (carry + f * w) mod B32 :: t')
  end.

Lemma mul_words_spec f ws carry :
  0 <= f < B32 -> Forall is_word ws -> is_word carry ->
  let '(c, ws') := mul_words f carry ws in
  length ws' = length ws /\ Forall is_word ws' /\ is_word c /\
  wval ws' + modulus (length ws) * c = f * wval ws + carry.
Proof.
  intros Hf F. revert carry. induction F as [|w ws Hw F IH]; intros carry Hc; cbn [mul_words].
  - cbn [length wval]. change (modulus 0) with 1. repeat split; auto; try apply Hc; lia.
  - unfold is_word in Hw, Hc.
    assert (Hc' : is_word ((carry + f * w) / B32)).
    { split; [apply Z.div_pos; unfold B32 in *; nia|]. apply Z.div_lt_upper_bound; unfold B32 in *; nia. }
    specialize (IH _ Hc'). destruct (mul_words f _ ws) as [c t'].
    destruct IH as (I1 & I2 & I3 & I4). cbn [length wval]. repeat split; auto; try apply I3.
    + constructor; [apply Z.mod_pos_bound; reflexivity|exact I2].
    + rewrite modulus_S. pose proof (Z.div_mod (carry + f * w) B32 ltac:(discriminate)). nia.
Qed.

Lemma land_low32 x : x .& 0xffffffff = x mod B32.
Proof. change 0xffffffff with (Z.ones 32). apply Z.land_ones. lia. Qed.

Lemma shr32 x : x >> 32 = x / B32.
Proof. apply Z.shiftr_div_pow2. lia. Qed.

Lemma mul_loop_words f ws pre rest carry :
  0 <= f < B32 -> Forall is_word ws -> is_word carry ->
  mul_loop (length ws) (length pre) f carry (pre ++ ws ++ rest)
  = (fst (mul_words f carry ws), pre ++ snd (mul_words f carry ws) ++ rest).
Proof.
  intros Hf F. revert pre carry. induction F as [|w ws Hw F IH]; intros pre carry Hc; [reflexivity|].
  cbn [length mul_loop mul_words app]. rewrite word_at, upd_at. unfold is_word in Hw, Hc.
  rewrite (wrapu_small 64 (f * w)) by (change (2 ^ 64) with 18446744073709551616; unfold B32 in *; nia).
  rewrite (wrapu_small 64 (carry + _)) by (change (2 ^ 64) with 18446744073709551616; unfold B32 in *; nia).
  rewrite land_low32, shr32.
  replace (pre ++ (carry + f * w) mod B32 :: ws ++ rest)
    with ((pre ++ [(carry + f * w) mod B32]) ++ ws ++ rest) by (rewrite <- app_assoc; reflexivity).
  replace (S (length pre)) with (length (pre ++ [(carry + f * w) mod B32]))
    by (rewrite length_app; cbn; lia).
  rewrite IH.
  - destruct (mul_words f _ ws). cbn [fst snd]. now rewrite <- app_assoc.
  - split; [apply Z.div_pos; unfold B32 in *; nia|]. apply Z.div_lt_upper_bound; unfold B32 in *; nia.
Qed.

Lemma zero_is_word : is_word 0.
Proof. unfold is_word, B32. lia. Qed.

Lemma zeros_words n : Forall is_word (repeat 0 n).
Proof. apply Forall_forall. intros x Hx%repeat_spec. subst x. apply zero_is_word. Qed.

Lemma Big_intro W n ws :
  length ws = n -> (n <= W)%nat -> Forall is_word ws ->
  Big_ok W (mk_Big n (ws ++ repeat 0 (W - n))) /\ bval (mk_Big n (ws ++ repeat 0 (W - n))) = wval ws.
Proof.
  intros HL Hn F. unfold Big_ok, bval. cbn [size_ words_].
  split; [|rewrite wval_app, wval_zeros; lia]. repeat split; auto.
  - rewrite length_app, repeat_length. lia.
  - apply Forall_app. auto using zeros_words.
  - intros i Hi. unfold word. rewrite app_nth2 by lia. apply nth_repeat.
Qed.

Lemma bval_range W b : Big_ok W b -> 0 <= bval b < modulus W.
Proof. intros (HL & F & _). rewrite <- HL. now apply wval_range. Qed.

Lemma bval_mod W b : Big_ok W b -> bval b mod modulus W = bval b.
Proof. intros H. apply Z.mod_small. now apply bval_range. Qed.

(** A value in range congruent to [x] is [x] reduced. *)
Lemma mod_of_cong W v x k : 0 <= v < modulus W -> v = x + k * modulus W -> v = x mod modulus W.
Proof.
  intros Hv E. rewrite <- (Z.mod_small v (modulus W)) by exact Hv. rewrite E.
  apply Z.mod_add. pose proof (modulus_pos W). lia.
Qed.

Lemma MultiplyBy32_spec W b v :
  Big_ok W b -> is_word v ->
  Big_ok W (MultiplyBy32 W b v) /\ bval (MultiplyBy32 W b v) = (bval b * v) mod modulus W.
Proof.
  intros Hb Hv. destruct (bval_used W b Hb) as (E1 & E2 & E3).
  unfold MultiplyBy32. destruct (size_ b =? 0)%nat eqn:E0; cbn [orb].
  { split; [exact Hb|]. apply Nat.eqb_eq in E0. rewrite E1, E0. cbn [firstn wval].
    now rewrite Z.mul_0_l, Zmod_0_l. }
  destruct (v =? 1) eqn:Ev1; zbool.
  { split; [exact Hb|]. subst v. rewrite Z.mul_1_r. symmetry. now apply bval_mod. }
  destruct (v =? 0) eqn:Ev0; zbool.
  { destruct (SetToZero_spec W b Hb) as [O V]. split; [exact O|].
    rewrite V. subst v. now rewrite Z.mul_0_r, Zmod_0_l. }
  pose proof Hb as (HL & F & HS & _). set (used := firstn (size_ b) (words_ b)) in *.
  assert (FU : Forall is_word used) by (apply Forall_forall; intros x Hx; rewrite Forall_forall in F;
    apply F; rewrite <- (firstn_skipn (size_ b)); apply in_or_app; now left).
  pose proof (mul_loop_words v used [] (repeat 0 (W - size_ b)) 0 Hv FU zero_is_word) as LE.
  cbn [app length] in LE. rewrite E3, <- E2 in LE. rewrite LE.
  pose proof (mul_words_spec v used 0 Hv FU zero_is_word) as S.
  destruct (mul_words v 0 used) as [c ws']. cbn [fst snd]. destruct S as (S1 & S2 & S3 & S4).
  rewrite E3 in S1, S4. unfold is_word in S3.
  destruct (c =? 0) eqn:Ec; zbool; cbn [negb andb].
  - subst c. destruct (Big_intro W (size_ b) ws' S1 HS S2) as [O V].
    split; [exact O|]. rewrite V, E1. apply (mod_of_cong W _ _ 0); [|lia].
    rewrite <- V. now apply bval_range.
  - destruct (size_ b <? W)%nat eqn:Es; [apply Nat.ltb_lt in Es|apply Nat.ltb_ge in Es].
    + assert (EU : upd (size_ b) (c .& 0xffffffff) (ws' ++ repeat 0 (W - size_ b))
                   = (ws' ++ [c]) ++ repeat 0 (W - S (size_ b))).
      { replace (W - size_ b)%nat with (S (W - S (size_ b))) by lia. cbn [repeat].
        rewrite <- S1, upd_at, <- app_assoc, land_low32, Z.mod_small by exact S3. reflexivity. }
      rewrite EU. destruct (Big_intro W (S (size_ b)) (ws' ++ [c])) as [O V];
        [rewrite length_app; cbn; lia|lia|apply Forall_app; auto|].
      split; [exact O|]. rewrite V, E1. apply (mod_of_cong W _ _ 0).
      * rewrite <- V. now apply bval_range.
      * rewrite wval_app, S1. cbn [wval]. lia.
    + assert (EW : size_ b = W) by lia.
      destruct (Big_intro W (size_ b) ws' S1 HS S2) as [O V]. split; [exact O|].
      rewrite V, E1. apply (mod_of_cong W _ _ (- c)); [rewrite <- V; now apply bval_range|].
      rewrite <- EW at 1. rewrite EW in S4 |- *. lia.
Qed.

(** ** Addition with carry *)
Fixpoint add_words (v : Z) (ws : list Z) : list Z :=
  match ws with
  | [] => []
  | w :: t => if v =? 0 then ws else (w + v) mod B32 :: add_words ((w + v) / B32) t
  end.

Lemma add_words_spec ws v :
  Forall is_word ws -> is_word v ->
  length (add_words v ws) = length ws /\ Forall is_word (add_words v ws) /\
  exists k, wval (add_words v ws) = wval ws + v + k * modulus (length ws).
Proof.
  intros F. revert v. induction F as [|w ws Hw F IH]; intros v Hv; cbn [add_words].
  - repeat split; auto. exists (- v). cbn [wval length]. change (modulus 0) with 1. lia.
  - destruct (v =? 0) eqn:E; zbool; [repeat split; auto; exists 0; lia|].
    unfold is_word in Hv, Hw.
    assert (C : is_word ((w + v) / B32)).
    { split; [apply Z.div_pos; unfold B32 in *; lia|]. apply Z.div_lt_upper_bound; unfold B32 in *; lia. }
    destruct (IH _ C) as (I1 & I2 & k & I3). cbn [length wval]. repeat split; [auto| |].
    + constructor; [apply Z.mod_pos_bound; reflexivity|exact I2].
    + exists k. rewrite I3, modulus_S. pose proof (Z.div_mod (w + v) B32 ltac:(discriminate)). lia.
Qed.

(** The carry out of a 32-bit addition, as the comparison detects it. *)
Lemma carry_out w v :
  is_word w -> is_word v -> (v >? (w + v) mod B32) = negb ((w + v) / B32 =? 0) /\
  ((w + v) / B32 = 0 \/ (w + v) / B32 = 1).
Proof.
  unfold is_word, B32. intros Hw Hv. destruct (_ >? _) eqn:E1, (_ =? 0) eqn:E2; zbool; cbn [negb];
    split; try reflexivity; zlia.
Qed.

Lemma add_loop_words W fuel pre ws v :
  length (pre ++ ws) = W -> (length ws < fuel)%nat -> Forall is_word ws -> is_word v -> v <> 0 ->
  fst (add_loop W fuel (length pre) v (pre ++ ws)) = pre ++ add_words v ws /\
  (length pre <= snd (add_loop W fuel (length pre) v (pre ++ ws)))%nat /\
  (forall i, (snd (add_loop W fuel (length pre) v (pre ++ ws)) < i)%nat ->
     word (pre ++ add_words v ws) i = word (pre ++ ws) i).
Proof.
  revert pre ws v. induction fuel as [|f IH]; intros pre ws v HL Hf F Hv Hv0; [lia|].
  cbn [add_loop]. rewrite length_app in HL. destruct F as [|w ws Hw F].
  - cbn [length add_words] in *. rewrite (proj2 (Nat.ltb_ge _ _)) by lia. cbn [andb fst snd]. auto.
  - cbn [length] in HL, Hf. rewrite (proj2 (Nat.ltb_lt _ _)) by lia.
    rewrite Z.gtb_ltb, (proj2 (Z.ltb_lt 0 v)) by (unfold is_word in Hv; lia). cbn [andb].
    rewrite word_at, upd_at. cbn [add_words]. rewrite (proj2 (Z.eqb_neq v 0)) by assumption.
    change (w +[32] v) with ((w + v) mod B32).
    destruct (carry_out w v Hw Hv) as [Hg Hc]. rewrite Hg.
    destruct ((w + v) / B32 =? 0) eqn:E; zbool; cbn [negb].
    + cbn [fst snd]. rewrite E.
      assert (A : add_words 0 ws = ws) by (destruct ws; reflexivity). rewrite A.
      repeat split; auto. intros i Hi. unfold word. rewrite !app_nth2 by lia.
      destruct (i - length pre)%nat eqn:Ei; [lia|reflexivity].
    + destruct Hc as [Hc|Hc]; [lia|]. rewrite Hc.
      replace (pre ++ (w + v) mod B32 :: ws) with ((pre ++ [(w + v) mod B32]) ++ ws)
        by (rewrite <- app_assoc; reflexivity).
      replace (S (length pre)) with (length (pre ++ [(w + v) mod B32])) by (rewrite length_app; cbn; lia).
      destruct (IH (pre ++ [(w + v) mod B32]) ws 1) as (I1 & I2 & I3).
      * rewrite !length_app. cbn. lia.
      * lia.
      * exact F.
      * unfold is_word, B32. lia.
      * lia.
      * assert (L2 : length (pre ++ [(w + v) mod B32]) = S (length pre)) by (rewrite length_app; cbn; lia).
        split; [rewrite I1, <- app_assoc; reflexivity|]. split; [lia|].
        intros i Hi. specialize (I3 i Hi). rewrite <- !app_assoc in I3. cbn [app] in I3.
        rewrite I3. unfold word. rewrite !app_nth2 by lia.
        destruct (i - length pre)%nat eqn:Ei; [lia|reflexivity].
Qed.

(** An array whose words from [n] on are 0 wherever the size does not cover them. *)
Definition Big_upto (W n : nat) (b : BigUnsigned) : Prop :=
  length (words_ b) = W /\ Forall is_word (words_ b) /\ (size_ b <= W)%nat /\
  (forall i, (Nat.max (size_ b) n <= i)%nat -> word (words_ b) i = 0).

Lemma Big_ok_upto W n b : Big_ok W b -> Big_upto W n b.
Proof. intros (HL & F & HS & HZ). repeat split; auto. intros i Hi. apply HZ. lia. Qed.

(** A new array, with a size that covers what changed. *)
Lemma Big_ok_words W m b n ws :
  Big_upto W m b -> length ws = W -> Forall is_word ws -> (Nat.min W (Nat.max m (size_ b)) <= n <= W)%nat ->
  (forall i, (n <= i)%nat -> word ws i = word (words_ b) i) -> Big_ok W (mk_Big n ws).
Proof.
  intros (HL & F & HS & HZ) HL' F' Hn HE. unfold Big_ok. cbn [size_ words_]. repeat split; auto; [lia|].
  intros i Hi. rewrite HE by assumption. destruct (Nat.le_gt_cases W i).
  - unfold word. apply nth_overflow. lia.
  - apply HZ. lia.
Qed.

Lemma AddWithCarry32_words W b pre ws v :
  Big_upto W (length pre) b -> words_ b = pre ++ ws -> is_word v -> v <> 0 ->
  let b' := AddWithCarry32 W b (length pre) v in
  words_ b' = pre ++ add_words v ws /\ Big_ok W b'.
Proof.
  intros Hb E Hv E0. pose proof Hb as (HL & F & HS & HZ). unfold AddWithCarry32.
  rewrite E in HL, F. apply Forall_app in F as [Fp Fw].
  rewrite (proj2 (Z.eqb_neq v 0)) by assumption. cbn [negb].
  rewrite E. destruct (add_loop_words W (S W) pre ws v HL) as (A1 & A2 & A3); auto.
  { rewrite length_app in HL. lia. }
  destruct (add_loop W (S W) (length pre) v (pre ++ ws)) as [ws' idx]. cbn [fst snd] in *. subst ws'.
  destruct (add_words_spec ws v Fw Hv) as (L1 & L2 & _).
  split; [reflexivity|]. apply (Big_ok_words W (length pre) b).
  - exact Hb.
  - rewrite length_app, L1, <- length_app. exact HL.
  - apply Forall_app. auto.
  - lia.
  - intros i Hi. rewrite E. destruct (Nat.le_gt_cases W i) as [Hi2|Hi2].
    + unfold word. rewrite !nth_overflow; [reflexivity|lia|rewrite length_app, L1, <- length_app; lia].
    + apply A3. lia.
Qed.

(** Past the end of the array nothing is added. *)
Lemma AddWithCarry32_past W b m index v :
  Big_upto W m b -> (W <= index)%nat -> v <> 0 ->
  words_ (AddWithCarry32 W b index v) = words_ b /\ Big_ok W (AddWithCarry32 W b index v).
Proof.
  intros Hb Hi Hv. unfold AddWithCarry32. rewrite (proj2 (Z.eqb_neq v 0)) by assumption.
  cbn [negb add_loop]. rewrite (proj2 (Nat.ltb_ge _ _)) by lia. cbn [andb words_].
  split; [reflexivity|]. pose proof Hb as (HL & F & HS & HZ).
  apply (Big_ok_words W m b); auto. lia.
Qed.

Lemma split64 value :
  in_u 64 value ->
  wrapu 32 (value >> 32) = value / B32 /\ value .& 0xffffffff = value mod B32 /\
  is_word (value / B32) /\ is_word (value mod B32) /\ value = value mod B32 + B32 * (value / B32).
Proof.
  intros Hv. rewrite in_u64_iff in Hv. rewrite shr32, land_low32.
  assert (is_word (value / B32)) by (unfold is_word, B32; zlia).
  rewrite wrapu_small by (unfold is_word, B32 in *; change (2 ^ 32) with 4294967296; lia).
  repeat split; try apply H; try (apply Z.mod_pos_bound; reflexivity).
  pose proof (Z.div_mod value B32 ltac:(discriminate)). lia.
Qed.

(** What an addition of [value] to the suffix [ws] leaves. *)
Definition suffix_added (W : nat) (pre ws : list Z) (value : Z) (b' : BigUnsigned) : Prop :=
  Big_ok W b' /\
  exists ws' k, words_ b' = pre ++ ws' /\ length ws' = length ws /\ Forall is_word ws' /\
    wval ws' = wval ws + value + k * modulus (length ws).

(** The high part, without overflow of its word. *)
Lemma add_high W b pre w1 t high :
  Big_upto W (S (length pre)) b -> words_ b = pre ++ w1 :: t -> is_word high ->
  suffix_added W pre (w1 :: t) (B32 * high)
    (if high >? 0 then AddWithCarry32 W b (S (length pre)) high
     else mk_Big (Nat.min W (Nat.max (S (length pre)) (size_ b))) (words_ b)).
Proof.
  intros Hb E Hh. pose proof Hb as (HL & F & HS & HZ). rewrite E in F, HL.
  apply Forall_app in F as [Fp Fw]. apply Forall_cons_iff in Fw as [Hw Ft]. rewrite length_app in HL.
  destruct (high >? 0) eqn:E0; zbool.
  - replace (S (length pre)) with (length (pre ++ [w1])) in * by (rewrite length_app; cbn; lia).
    assert (E' : words_ b = (pre ++ [w1]) ++ t) by (rewrite E, <- app_assoc; reflexivity).
    destruct (AddWithCarry32_words W b (pre ++ [w1]) t high Hb E' Hh ltac:(lia)) as [A1 A2].
    split; [exact A2|]. destruct (add_words_spec t high Ft Hh) as (L1 & L2 & k & L3).
    exists (w1 :: add_words high t), k. rewrite A1, <- app_assoc. cbn [length wval].
    repeat split; [auto|constructor; auto|]. rewrite L3, modulus_S. ring.
  - split.
    + apply (Big_ok_words W (S (length pre)) b); auto; [rewrite E, length_app; exact HL|
        rewrite E; apply Forall_app; auto|lia].
    + exists (w1 :: t), 0. cbn [words_]. repeat split; auto. unfold is_word in Hh.
      replace high with 0 by lia. lia.
Qed.

Lemma AddWithCarry64_words W b pre ws value :
  Big_ok W b -> words_ b = pre ++ ws -> in_u 64 value ->
  suffix_added W pre ws value (AddWithCarry64 W b (length pre) value).
Proof.
  intros Hb E Hv. pose proof Hb as (HL & F & HS & HZ). unfold AddWithCarry64.
  rewrite E in HL, F. apply Forall_app in F as [Fp Fw]. rewrite length_app in HL.
  destruct (value =? 0) eqn:E0; zbool; cbn [negb andb].
  { split; [exact Hb|]. exists ws, 0. repeat split; auto. lia. }
  destruct Fw as [|w t Hw Ft].
  { rewrite (proj2 (Nat.ltb_ge _ _)) by (cbn [length] in HL; lia).
    split; [exact Hb|]. exists [], (- value). repeat split; auto. cbn. change (modulus 0) with 1. lia. }
  cbn [length] in HL. rewrite (proj2 (Nat.ltb_lt _ _)) by lia.
  destruct (split64 value Hv) as (E1 & E2 & Hh & Hl & Ev). rewrite E1, E2, E, word_at, upd_at.
  set (high := value / B32) in *. set (low := value mod B32) in *. clearbody high low.
  change (w +[32] low) with ((w + low) mod B32).
  destruct (carry_out w low Hw Hl) as [Hg Hc]. rewrite Z.gtb_ltb in Hg. rewrite Hg.
  pose proof (Z.div_mod (w + low) B32 ltac:(discriminate)) as Ew.
  set (w1 := (w + low) mod B32) in *. set (c := (w + low) / B32) in *.
  assert (Hw1 : is_word w1) by (apply Z.mod_pos_bound; reflexivity). clearbody w1 c.
  set (b1 := mk_Big (size_ b) (pre ++ w1 :: t)).
  assert (Hb1 : Big_upto W (S (length pre)) b1).
  { unfold b1. repeat split; cbn [size_ words_]; [rewrite length_app; cbn; lia|apply Forall_app; auto|lia|].
    intros i Hi. rewrite <- (HZ i) by lia. rewrite E. unfold word. rewrite !app_nth2 by lia.
    destruct (i - length pre)%nat eqn:Ei; [lia|reflexivity]. }
  (* from an addition to the changed word to the addition of the value *)
  assert (Weaken : forall v b', suffix_added W pre (w1 :: t) v b' -> w1 + v = w + value + 0 ->
            suffix_added W pre (w :: t) value b').
  { intros v b' (O & ws' & k & S1 & S2 & S3 & S4) EV. split; [exact O|].
    exists ws', k. repeat split; auto. rewrite S4. cbn [wval length]. lia. }
  destruct (c =? 0) eqn:Ec; zbool; cbn [negb].
  - subst c. apply (Weaken (B32 * high)); [|lia]. apply (add_high W b1 pre w1 t high Hb1 eq_refl Hh).
  - destruct Hc as [Hc|Hc]; [lia|]. subst c.
    destruct (high +[32] 1 =? 0) eqn:E3; zbool.
    + assert (Eh : high = B32 - 1).
      { unfold is_word, B32, wrapu in *. change (2 ^ 32) with 4294967296 in E3. zlia. }
      apply (Weaken (B32 * B32)); [|nia].
      destruct t as [|t0 t1].
      * destruct (AddWithCarry32_past W b1 _ (length pre + 2) 1 Hb1) as [A1 A2]; [cbn in HL; lia|lia|].
        split; [exact A2|]. exists [w1], (- B32). rewrite A1. repeat split; auto. cbn [length wval].
        rewrite modulus_S. change (modulus 0) with 1. lia.
      * replace (length pre + 2)%nat with (length (pre ++ [w1; t0])) by (rewrite length_app; cbn; lia).
        assert (Hb2 : Big_upto W (length (pre ++ [w1; t0])) b1).
        { destruct Hb1 as (U1 & U2 & U3 & U4). repeat split; auto. intros i Hi. apply U4.
          rewrite length_app in Hi. cbn [length] in Hi. lia. }
        apply Forall_cons_iff in Ft as [Ht0 Ft1].
        destruct (AddWithCarry32_words W b1 (pre ++ [w1; t0]) t1 1 Hb2) as [A1 A2];
          [rewrite <- app_assoc; reflexivity|unfold is_word, B32; lia|lia|].
        destruct (add_words_spec t1 1 Ft1 ltac:(unfold is_word, B32; lia)) as (L1 & L2 & k & L3).
        split; [exact A2|]. exists (w1 :: t0 :: add_words 1 t1), k.
        rewrite A1, <- app_assoc. cbn [length wval]. repeat split; auto.
        rewrite L3, !modulus_S. ring.
    + assert (Eh : high +[32] 1 = high + 1).
      { unfold is_word, B32, wrapu in *. change (2 ^ 32) with 4294967296 in *. zlia. }
      rewrite Eh in *. apply (Weaken (B32 * (high + 1))); [|lia].
      apply (add_high W b1 pre w1 t (high + 1) Hb1 eq_refl).
      unfold is_word, B32, wrapu in *. change (2 ^ 32) with 4294967296 in *. zlia.
Qed.

(** ** Multiplication of arrays *)

(** [A_(k-1) O_oi + A_(k-2) O_(oi+1) + ... + A_0 O_(oi+k-1)] *)
Fixpoint csum (k oi : nat) (A O : list Z) : Z :=
  match k with
  | O%nat => 0
  | S i => word A i * word O oi + csum i (S oi) A O
  end.

Lemma csum_zero k oi A O : (forall j, (oi <= j)%nat -> word O j = 0) -> csum k oi A O = 0.
Proof.
  revert oi. induction k as [|k IH]; intros oi H; cbn [csum]; [reflexivity|].
  rewrite (H oi), IH by (auto; intros; apply H; lia). lia.
Qed.

Lemma step_loop_spec k oi osz ws other A O tw carry :
  (forall i, (i < k)%nat -> word ws i = word A i) ->
  (forall j, (oi <= j < oi + k)%nat -> (j < osz)%nat -> word other j = word O j) ->
  (forall j, (osz <= j)%nat -> word O j = 0) ->
  Forall is_word A -> Forall is_word O -> is_word tw ->
  0 <= carry -> carry + Z.of_nat k * B32 <= B32 * B32 - 1 ->
  let '(tw', carry') := step_loop k oi osz ws other tw carry in
  is_word tw' /\ 0 <= carry' <= carry + Z.of_nat k * B32 /\
  tw' + B32 * carry' = tw + B32 * carry + csum k oi A O.
Proof.
  intros HA HO HZ FA FO. revert oi tw carry HO.
  induction k as [|k IH]; intros oi tw carry HO Htw Hc Hb; cbn [step_loop csum].
  - repeat split; try apply Htw; lia.
  - destruct (oi <? osz)%nat eqn:E; [apply Nat.ltb_lt in E|apply Nat.ltb_ge in E].
    + rewrite (HA k), (HO oi) by lia.
      pose proof (word_is_word A k FA) as Ha. pose proof (word_is_word O oi FO) as Ho.
      set (a := word A k) in *. set (o := word O oi) in *. unfold is_word in Ha, Ho, Htw.
      assert (Hp : 0 <= a * o <= (B32 - 1) * (B32 - 1)) by nia.
      rewrite (wrapu_small 64 (a * o)) by (change (2 ^ 64) with (B32 * B32); nia).
      rewrite (wrapu_small 64 (tw + _)) by (change (2 ^ 64) with (B32 * B32); unfold B32 in *; lia).
      rewrite land_low32, shr32.
      pose proof (Z.div_mod (tw + a * o) B32 ltac:(discriminate)) as DM.
      pose proof (Z.mod_pos_bound (tw + a * o) B32 ltac:(reflexivity)) as MB.
      assert (HD : 0 <= (tw + a * o) / B32 < B32).
      { split; [apply Z.div_pos; unfold B32 in *; lia|]. apply Z.div_lt_upper_bound; unfold B32 in *; lia. }
      set (d := (tw + a * o) / B32) in *. set (m := (tw + a * o) mod B32) in *.
      rewrite (wrapu_small 64 (carry + d)) by (change (2 ^ 64) with (B32 * B32); unfold B32 in *; lia).
      specialize (IH ltac:(intros; apply HA; lia) (S oi) m (carry + d)).
      specialize (IH ltac:(intros; apply HO; lia) MB ltac:(lia) ltac:(lia)).
      destruct (step_loop k (S oi) osz ws other m (carry + d)) as [tw' carry'].
      destruct IH as (I1 & I2 & I3). repeat split; try apply I1; unfold B32 in *; lia.
    + rewrite (HZ oi) by lia. rewrite csum_zero by (intros; apply HZ; lia).
      repeat split; try apply Htw; unfold B32 in *; lia.
Qed.

(** The words of the product, before carries: coefficient [s] of the convolution. *)
Definition coeff (A O : list Z) (s : nat) : Z := csum (S s) 0 A O.

Lemma csum_cons k oi a A O : csum (S k) oi (a :: A) O = csum k oi A O + a * word O (oi + k).
Proof.
  revert oi. induction k as [|k IH]; intros oi.
  - cbn [csum]. rewrite Nat.add_0_r. unfold word. cbn [nth]. lia.
  - change (csum (S (S k)) oi (a :: A) O)
      with (word (a :: A) (S k) * word O oi + csum (S k) (S oi) (a :: A) O).
    rewrite IH. cbn [csum]. replace (S oi + k)%nat with (oi + S k)%nat by lia.
    change (word (a :: A) (S k)) with (word A k). lia.
Qed.

Fixpoint coeff_sum (A O : list Z) (s n : nat) : Z :=
  match n with
  | O%nat => 0
  | S n' => coeff A O s + B32 * coeff_sum A O (S s) n'
  end.

(** Evaluating the coefficients from [s] on gives the product's part from there. *)
Fixpoint pad_sum (a : Z) (O : list Z) (s n : nat) : Z :=
  match n with
  | O%nat => 0
  | S n' => a * word O s + B32 * pad_sum a O (S s) n'
  end.

Lemma pad_sum_val a O s n : (length O <= s + n)%nat -> pad_sum a O s n = a * wval (skipn s O).
Proof.
  revert s. induction n as [|n IH]; intros s H; cbn [pad_sum].
  - rewrite skipn_all2 by lia. cbn. lia.
  - rewrite IH by lia. destruct (Nat.lt_ge_cases s (length O)) as [Hs|Hs].
    + assert (E : skipn s O = word O s :: skipn (S s) O).
      { clear -Hs. revert s Hs. induction O as [|x O IH]; intros [|s] Hs; cbn in *; try lia; auto.
        apply IH. lia. }
      rewrite E. cbn [wval]. ring.
    + rewrite !skipn_all2 by lia. unfold word. rewrite nth_overflow by lia. cbn [wval]. ring.
Qed.

Lemma coeff_sum_cons a A O s n :
  coeff_sum (a :: A) O (S s) n = coeff_sum A O s n + pad_sum a O (S s) n.
Proof.
  revert s. induction n as [|n IH]; intros s; cbn [coeff_sum pad_sum]; [lia|].
  rewrite IH. unfold coeff at 1. rewrite csum_cons. fold (coeff A O s). rewrite Nat.add_0_l. ring.
Qed.

Lemma coeff_sum_val A O n :
  (length A + length O <= n + 1)%nat -> (1 <= length O)%nat -> coeff_sum A O 0 n = wval A * wval O.
Proof.
  revert n. induction A as [|a A IH]; intros n Hn HO.
  - assert (Z0 : forall s m, coeff_sum [] O s m = 0).
    { intros s m. revert s. induction m as [|m IHm]; intros s; cbn [coeff_sum]; [reflexivity|].
      rewrite IHm. unfold coeff. generalize (S s), 0%nat. induction n0 as [|k IHk]; intros oi; cbn [csum].
      - lia.
      - unfold word at 1. rewrite nth_overflow by (cbn; lia). specialize (IHk (S oi)). lia. }
    rewrite Z0. cbn. lia.
  - cbn [length] in Hn. destruct n as [|n]; [lia|].
    cbn [coeff_sum wval]. rewrite coeff_sum_cons, IH by lia. rewrite pad_sum_val by lia.
    unfold coeff. cbn [csum]. unfold word at 1. cbn [nth].
    destruct O as [|o O]; [cbn in HO; lia|]. cbn [skipn wval]. unfold word. cbn [nth]. ring.
Qed.

Lemma coeff_sum_split A O s n d :
  coeff_sum A O s (n + d) = coeff_sum A O s n + modulus n * coeff_sum A O (s + n) d.
Proof.
  revert s. induction n as [|n IH]; intros s; cbn [Nat.add coeff_sum].
  - change (modulus 0) with 1. rewrite Nat.add_0_r. lia.
  - rewrite IH, modulus_S. replace (S s + n)%nat with (s + S n)%nat by lia. ring.
Qed.

Lemma csum_skip k d oi A O :
  (forall i, (k <= i < d + k)%nat -> word A i = 0) -> csum (d + k) oi A O = csum k (oi + d) A O.
Proof.
  revert oi. induction d as [|d IH]; intros oi H; cbn [Nat.add csum].
  - now rewrite Nat.add_0_r.
  - rewrite (H (d + k)%nat), IH by (intros; try apply H; lia).
    replace (oi + S d)%nat with (S oi + d)%nat by lia. lia.
Qed.

Section MultiplySteps.
Context (W : nat) (arr A O : list Z) (osz : nat) (other : list Z -> list Z).
Hypothesis HW : (W <= 84)%nat.
Hypothesis HarrL : length arr = W.
Hypothesis FA : Forall is_word A.
Hypothesis FO : Forall is_word O.
Hypothesis HarrA : forall i, word arr i = word A i.
Hypothesis HAzero : forall i, (length A <= i)%nat -> word A i = 0.
Hypothesis HOzero : forall j, (osz <= j)%nat -> word O j = 0.

(** The operand is unchanged at the indices that are still to be read. *)
Hypothesis Hother : forall cw s, (forall j, (j <= s)%nat -> word cw j = word arr j) ->
  forall j, (j <= s)%nat -> (j < osz)%nat -> word (other cw) j = word O j.

(** After the steps from [s] up: the words below are the original ones, those from [s] on hold
    the sum of the coefficients from [s] on, up to overflow. *)
Definition step_inv (s m : nat) (b : BigUnsigned) : Prop :=
  Big_ok W b /\
  exists hi k, words_ b = firstn s arr ++ hi /\ Forall is_word hi /\
    wval hi = coeff_sum A O s m + k * modulus (W - s).

Lemma firstn_word s i : (i < s)%nat -> (s <= W)%nat -> word (firstn s arr) i = word arr i.
Proof. intros Hi Hs. unfold word. rewrite nth_firstn. now rewrite (proj2 (Nat.ltb_lt i s)). Qed.

Lemma MultiplyStep_inv s m b :
  (S s <= W)%nat -> step_inv (S s) m b ->
  step_inv s (S m) (MultiplyStep W b (length A) other osz s).
Proof.
  intros Hs (Ob & hi & k & Ew & Fh & Ev). unfold MultiplyStep.
  assert (Lf : length (firstn (S s) arr) = S s) by (apply firstn_length_le; lia).
  assert (Lw : forall j, (j <= s)%nat -> word (words_ b) j = word arr j).
  { intros j Hj. rewrite Ew. unfold word. rewrite app_nth1 by lia. apply firstn_word; lia. }
  assert (Lhi : length hi = (W - S s)%nat).
  { destruct Ob as (L & _). rewrite Ew, length_app in L. lia. }
  set (kk := Nat.min (length A) (S s)).
  pose proof (step_loop_spec kk (S s - kk) osz (words_ b) (other (words_ b)) A O 0 0) as SL.
  assert (Hk : (kk <= 84)%nat) by (unfold kk; lia).
  specialize (SL ltac:(intros i Hi; rewrite Lw by (unfold kk in Hi; lia); apply HarrA)
    ltac:(intros j Hj Hj2; apply (Hother _ s Lw); [unfold kk in Hj; lia|exact Hj2])
    HOzero FA FO zero_is_word ltac:(lia) ltac:(unfold B32; lia)).
  destruct (step_loop _ _ _ _ _ _ _) as [tw carry]. destruct SL as (T1 & T2 & T3).
  assert (EC : csum kk (S s - kk) A O = coeff A O s).
  { unfold coeff. replace (S s) with ((S s - kk) + kk)%nat at 2 by (unfold kk; lia).
    rewrite csum_skip; [now rewrite Nat.add_0_l|].
    intros i Hi. apply HAzero. unfold kk in Hi. lia. }
  rewrite EC, Z.mul_0_r, Z.add_0_r, Z.add_0_l in T3.
  pose proof (AddWithCarry64_words W b (firstn (S s) arr) hi carry Ob Ew) as AW. rewrite Lf in AW.
  destruct AW as (Ob1 & hi' & k' & Ew1 & L1 & F1 & V1).
  { rewrite in_u64_iff. unfold B32 in *. lia. }
  set (b1 := AddWithCarry64 W b (S s) carry) in *.
  unfold is_word in T1. rewrite land_low32, Z.mod_small by exact T1.
  assert (EF : firstn (S s) arr = firstn s arr ++ [word arr s]).
  { apply words_ext.
    - rewrite length_app, Lf, firstn_length_le by lia. cbn. lia.
    - intros i Hi. rewrite Lf in Hi. rewrite firstn_word by lia. unfold word.
      destruct (Nat.lt_ge_cases i s).
      + rewrite app_nth1 by (rewrite firstn_length_le; lia). symmetry. apply firstn_word; lia.
      + rewrite app_nth2; rewrite firstn_length_le by lia; [|lia].
        replace i with s by lia. now rewrite Nat.sub_diag. }
  assert (EU : upd s tw (words_ b1) = firstn s arr ++ tw :: hi').
  { rewrite Ew1, EF, <- app_assoc. cbn [app].
    rewrite <- (firstn_length_le arr (n := s)) at 1 by lia. apply upd_at. }
  split.
  - destruct Ob1 as (O1 & O2 & O3 & O4). unfold Big_ok. cbn [size_ words_].
    split; [now rewrite upd_length|]. split; [apply upd_Forall; assumption|]. split.
    + destruct ((tw >? 0) && (size_ b1 <=? s)%nat); lia.
    + intros i Hi. rewrite upd_word by lia.
      destruct (Nat.leb_spec (size_ b1) s), (tw >? 0) eqn:Et; cbn [andb] in Hi; zbool;
        (destruct (Nat.eqb_spec i s) as [Ei|Ei]; [lia|apply O4; lia]).
  - exists (tw :: hi'), (k' + k). cbn [words_]. split; [exact EU|]. split; [constructor; assumption|].
    cbn [wval coeff_sum]. rewrite V1, Ev, <- T3, Lhi.
    replace (W - s)%nat with (S (W - S s)) by lia. rewrite modulus_S. ring.
Qed.

Lemma multiply_steps_inv s m b :
  (s <= W)%nat -> step_inv s m b ->
  step_inv 0 (s + m) (multiply_steps W s b (length A) other osz).
Proof.
  revert m b. induction s as [|s IH]; intros m b Hs H; cbn [multiply_steps]; [exact H|].
  replace (S s + m)%nat with (s + S m)%nat by lia. apply IH; [lia|]. now apply MultiplyStep_inv.
Qed.
End MultiplySteps.

(** The product, modulo the width; the operand has at least one word. *)
Lemma MultiplyByWords_spec W b osz O (other : list Z -> list Z) :
  (W <= 84)%nat -> Big_ok W b -> Forall is_word O -> length O = osz -> (1 <= osz)%nat ->
  (forall cw s, (forall j, (j <= s)%nat -> word cw j = word (words_ b) j) ->
     forall j, (j <= s)%nat -> (j < osz)%nat -> word (other cw) j = word O j) ->
  Big_ok W (MultiplyByWords W b osz other) /\
  bval (MultiplyByWords W b osz other) = (bval b * wval O) mod modulus W.
Proof.
  intros HW Hb FO LO Hosz Hother. destruct (bval_used W b Hb) as (E1 & E2 & E3).
  pose proof Hb as (HL & F & HS & HZ). set (A := firstn (size_ b) (words_ b)) in *.
  assert (FA : Forall is_word A) by (rewrite E2 in F; apply Forall_app in F; tauto).
  unfold MultiplyByWords. rewrite <- E3.
  set (n := Z.to_nat _).
  assert (Hn : n = Nat.min (length A + osz - 1) W) by (unfold n; lia).
  assert (HarrA : forall i, word (words_ b) i = word A i).
  { intros i. rewrite E2. unfold word. destruct (Nat.lt_ge_cases i (length A)).
    - now rewrite app_nth1.
    - rewrite app_nth2, nth_repeat, nth_overflow by lia. reflexivity. }
  pose proof (multiply_steps_inv W (words_ b) A O osz other HW HL FA FO HarrA
    ltac:(intros i Hi; unfold word; now apply nth_overflow)
    ltac:(intros j Hj; unfold word; apply nth_overflow; lia) Hother n 0 b ltac:(lia)) as I.
  destruct I as (Ob & hi & k & Ew & Fh & Ev).
  { split; [exact Hb|]. exists (skipn n (words_ b)), 0.
    split; [symmetry; apply firstn_skipn|]. split.
    - apply Forall_forall. intros x Hx. rewrite Forall_forall in F. apply F.
      rewrite <- (firstn_skipn n). apply in_or_app. now right.
    - cbn [coeff_sum]. replace (skipn n (words_ b)) with (repeat 0 (W - n)); [rewrite wval_zeros; lia|].
      apply words_ext; [rewrite repeat_length, length_skipn; lia|].
      intros i _. unfold word. rewrite nth_repeat, nth_skipn. symmetry.
      destruct (Nat.le_gt_cases W (n + i)); [apply nth_overflow; lia|apply HZ; lia]. }
  rewrite Nat.add_0_r in Ev. cbn [firstn app] in Ew. rewrite Nat.sub_0_r in Ev.
  split; [exact Ob|].
  assert (Full : exists q, coeff_sum A O 0 n = wval A * wval O + q * modulus W).
  { destruct (Nat.le_gt_cases (length A + osz - 1) W) as [Hle|Hgt].
    - exists 0. rewrite coeff_sum_val; lia.
    - assert (EW : n = W) by lia. pose proof (coeff_sum_split A O 0 W (length A + osz - 1 - W)) as S.
      replace (W + (length A + osz - 1 - W))%nat with (length A + osz - 1)%nat in S by lia.
      rewrite coeff_sum_val in S by lia. rewrite EW.
      exists (- coeff_sum A O (0 + W) (length A + osz - 1 - W)). rewrite S. ring. }
  destruct Full as [q Q]. rewrite E1.
  apply (mod_of_cong W _ _ (q + k)); [now apply bval_range|].
  unfold bval. rewrite Ew, Ev, Q. ring.
Qed.

(** ** Shifts *)
Lemma down_loop_spec f lo n ws :
  (lo + n < length ws)%nat \/ n = 0%nat ->
  (forall ws1 ws2 i, (forall j, (j <= i)%nat -> word ws1 j = word ws2 j) -> f ws1 i = f ws2 i) ->
  length (down_loop f lo n ws) = length ws /\
  (forall i, word (down_loop f lo n ws) i
             = if (lo <? i)%nat && (i <=? lo + n)%nat then f ws i else word ws i).
Proof.
  intros Hn Hf. revert ws Hn. induction n as [|n IH]; intros ws Hn; cbn [down_loop].
  - split; [reflexivity|]. intros i.
    destruct (Nat.ltb_spec lo i), (Nat.leb_spec i (lo + 0)); cbn [andb]; try reflexivity; lia.
  - destruct Hn as [Hn|Hn]; [|lia].
    set (ws1 := upd (lo + S n) (f ws (lo + S n)%nat) ws).
    assert (L1 : length ws1 = length ws) by apply upd_length.
    destruct (IH ws1) as [I1 I2]; [left; lia|]. split; [congruence|]. intros i. rewrite I2.
    assert (U : forall j, word ws1 j = if (j =? lo + S n)%nat then f ws (lo + S n)%nat else word ws j)
      by (intros j; apply upd_word; lia).
    destruct (Nat.ltb_spec lo i), (Nat.leb_spec i (lo + n)), (Nat.leb_spec i (lo + S n)); cbn [andb];
      try lia.
    + apply Hf. intros j Hj. rewrite U. now rewrite (proj2 (Nat.eqb_neq j _)) by lia.
    + rewrite U. replace i with (lo + S n)%nat by lia. now rewrite Nat.eqb_refl.
    + rewrite U. now rewrite (proj2 (Nat.eqb_neq i _)) by lia.
    + rewrite U. now rewrite (proj2 (Nat.eqb_neq i _)) by lia.
Qed.

(** Shifting an array by [c] bits, with what enters at the bottom. *)
Fixpoint shl_words (c carry : Z) (ws : list Z) : list Z :=
  match ws with
  | [] => []
  | w :: t => ((w * 2 ^ c) mod B32 + carry) :: shl_words c (w / 2 ^ (32 - c)) t
  end.

Lemma pow_split c : 0 <= c < 32 -> B32 = 2 ^ c * 2 ^ (32 - c) /\ 0 < 2 ^ c /\ 0 < 2 ^ (32 - c).
Proof.
  intros Hc. rewrite <- Z.pow_add_r by lia. replace (c + (32 - c)) with 32 by lia.
  repeat split; try apply pow2_pos; try lia.
Qed.

Lemma shl_word w c :
  0 <= c < 32 -> is_word w ->
  (w * 2 ^ c) mod B32 = 2 ^ c * (w mod 2 ^ (32 - c)) /\ 0 <= w / 2 ^ (32 - c) < 2 ^ c /\
  w * 2 ^ c = (w * 2 ^ c) mod B32 + B32 * (w / 2 ^ (32 - c)).
Proof.
  intros Hc Hw. destruct (pow_split c Hc) as (EB & P1 & P2). unfold is_word in Hw.
  assert (E : (w * 2 ^ c) mod B32 = 2 ^ c * (w mod 2 ^ (32 - c)))
    by (rewrite EB, (Z.mul_comm w), Z.mul_mod_distr_l by lia; reflexivity).
  split; [exact E|]. split.
  - split; [apply Z.div_pos; lia|]. apply Z.div_lt_upper_bound; [lia|]. lia.
  - rewrite E. pose proof (Z.div_mod w (2 ^ (32 - c)) ltac:(lia)). rewrite EB. nia.
Qed.

Lemma shl_words_spec c ws carry :
  0 <= c < 32 -> Forall is_word ws -> 0 <= carry < 2 ^ c ->
  length (shl_words c carry ws) = length ws /\ Forall is_word (shl_words c carry ws) /\
  (exists q, wval (shl_words c carry ws) = 2 ^ c * wval ws + carry + q * modulus (length ws)) /\
  (forall i, (i < length ws)%nat ->
     word (shl_words c carry ws) i
     = (word ws i * 2 ^ c) mod B32 + match i with O => carry | S j => word ws j / 2 ^ (32 - c) end).
Proof.
  intros Hc F. revert carry. induction F as [|w ws Hw F IH]; intros carry Hcar; cbn [shl_words].
  - repeat split; auto; [|cbn; lia]. exists (- carry). cbn [wval length]. change (modulus 0) with 1. lia.
  - destruct (shl_word w c Hc Hw) as (E1 & E2 & E3). destruct (pow_split c Hc) as (EB & P1 & P2).
    destruct (IH _ E2) as (I1 & I2 & (q & I3) & I4). cbn [length]. split; [congruence|]. split; [|split].
    + constructor; [|exact I2]. unfold is_word. rewrite E1.
      pose proof (Z.mod_pos_bound w (2 ^ (32 - c)) P2). rewrite EB. nia.
    + exists q. cbn [wval]. rewrite I3, modulus_S. nia.
    + intros [|i] Hi; [reflexivity|]. unfold word in *. cbn [nth]. rewrite I4 by lia.
      destruct i; reflexivity.
Qed.

Lemma shl_or x y c :
  0 < c < 32 -> is_word x -> is_word y ->
  (x <<[32] c) .| (y >> (32 - c)) = (x * 2 ^ c) mod B32 + y / 2 ^ (32 - c).
Proof.
  intros Hc Hx Hy. destruct (shl_word x c ltac:(lia) Hx) as (E1 & _ & _).
  destruct (shl_word y c ltac:(lia) Hy) as (_ & E2 & _).
  rewrite Z.shiftr_div_pow2, Z.shiftl_mul_pow2 by lia. unfold wrapu.
  change (2 ^ 32) with B32. rewrite E1, Z.lor_comm.
  rewrite (Z.mul_comm (2 ^ c)), <- Z.shiftl_mul_pow2 by lia. rewrite lor_lohi by (auto; lia).
  rewrite Z.shiftl_mul_pow2 by lia. lia.
Qed.

(** The target of a shift by [ws] words and [c] bits. *)
Definition shift_target (W ws : nat) (c : Z) (l : list Z) : list Z :=
  firstn W (repeat 0 ws ++ shl_words c 0 l).

Lemma shift_target_spec W ws c l :
  0 <= c < 32 -> Forall is_word l -> length l = W -> (ws < W)%nat ->
  length (shift_target W ws c l) = W /\ Forall is_word (shift_target W ws c l) /\
  wval (shift_target W ws c l) = (wval l * 2 ^ (32 * Z.of_nat ws + c)) mod modulus W /\
  (forall i, (i < W)%nat -> word (shift_target W ws c l) i
     = if (i <? ws)%nat then 0
       else (word l (i - ws) * 2 ^ c) mod B32
            + (if (i =? ws)%nat then 0 else word l (i - ws - 1) / 2 ^ (32 - c))).
Proof.
  intros Hc F HL Hws. destruct (pow_split c Hc) as (EB & P1 & P2).
  destruct (shl_words_spec c l 0 Hc F ltac:(lia)) as (S1 & S2 & (q & S3) & S4).
  unfold shift_target. set (X := repeat 0 ws ++ shl_words c 0 l).
  assert (LX : length X = (ws + W)%nat) by (unfold X; rewrite length_app, repeat_length; lia).
  assert (FX : Forall is_word X) by (apply Forall_app; auto using zeros_words).
  assert (LF : length (firstn W X) = W) by (apply firstn_length_le; lia).
  assert (FF : Forall is_word (firstn W X)).
  { apply Forall_forall. intros x Hx. rewrite Forall_forall in FX. apply FX.
    rewrite <- (firstn_skipn W). apply in_or_app. now left. }
  split; [exact LF|]. split; [exact FF|]. split.
  - assert (EX : wval X = modulus ws * wval (shl_words c 0 l)).
    { unfold X. rewrite wval_app, wval_zeros, repeat_length. lia. }
    assert (ES : wval X = wval (firstn W X) + modulus W * wval (skipn W X)).
    { rewrite <- (firstn_skipn W X) at 1. rewrite wval_app, LF. reflexivity. }
    rewrite Z.pow_add_r by lia.
    assert (EM : 2 ^ (32 * Z.of_nat ws) = modulus ws).
    { unfold modulus. change B32 with (2 ^ 32). rewrite Z.pow_mul_r by lia. reflexivity. }
    rewrite EM. pose proof (wval_range _ FF) as RF. rewrite LF in RF.
    apply (mod_of_cong W _ _ (q * modulus ws - wval (skipn W X))); [exact RF|].
    rewrite S3, HL in EX. rewrite EX in ES. lia.
  - intros i Hi. unfold word at 1. rewrite nth_firstn, (proj2 (Nat.ltb_lt i W)) by assumption.
    unfold X. destruct (Nat.ltb_spec i ws).
    + rewrite app_nth1 by (rewrite repeat_length; lia). apply nth_repeat.
    + rewrite app_nth2 by (rewrite repeat_length; lia). rewrite repeat_length.
      fold (word (shl_words c 0 l) (i - ws)). rewrite S4 by lia. f_equal.
      destruct (Nat.eqb_spec i ws) as [->|Hne]; [now rewrite Nat.sub_diag|].
      destruct (i - ws)%nat eqn:Ei; [lia|]. replace (S n - 1)%nat with n by lia. reflexivity.
Qed.

(** Both branches leave the words of [shift_target]. *)
Lemma shift_words W b ws c :
  Big_ok W b -> (ws < W)%nat -> 0 <= c < 32 ->
  let size := Nat.min (size_ b + ws) W in
  (c = 0 -> (0 < ws)%nat ->
   fill_zero ws
     match (size - ws)%nat with
     | O => words_ b
     | S n => let l := down_loop (fun l i => word l (i - ws)) ws n (words_ b) in upd ws (word l 0) l
     end = shift_target W ws c (words_ b)) /\
  (0 < c ->
   let l := down_loop (fun l i => (word l (i - ws) <<[32] c) .| (word l (i - ws - 1) >> (32 - c)))
              ws (Nat.min size (W - 1) - ws) (words_ b) in
   forall i, (i < W)%nat ->
     word (upd ws (word l 0 <<[32] c) l) i
     = if (i <? ws)%nat then word (words_ b) i else word (shift_target W ws c (words_ b)) i).
Proof.
  intros Hb Hws Hc size. pose proof Hb as (HL & F & HS & HZ).
  destruct (shift_target_spec W ws c (words_ b) Hc F HL Hws) as (T1 & T2 & _ & T4).
  assert (Past : forall i, (i < W)%nat -> (size < i)%nat ->
            word (shift_target W ws c (words_ b)) i = 0 /\ word (words_ b) i = 0).
  { intros i Hi Hs. rewrite T4 by assumption. rewrite !HZ by (unfold size in Hs; lia).
    rewrite Z.mul_0_l, Zmod_0_l, Z.div_0_l by (pose proof (pow2_pos (32 - c)); lia).
    destruct (i <? ws)%nat, (i =? ws)%nat; auto. }
  split.
  - intros -> Hw0. assert (P0 : forall x, (x * 2 ^ 0) mod B32 = x mod B32) by (intros; f_equal; lia).
    assert (Hsm : forall i, word (words_ b) i mod B32 = word (words_ b) i /\ word (words_ b) i / 2 ^ (32 - 0) = 0).
    { intros i. pose proof (word_is_word _ i F). split; [now apply Z.mod_small|now apply Z.div_small]. }
    assert (T0 : forall i, (i < W)%nat -> word (shift_target W ws 0 (words_ b)) i
              = if (i <? ws)%nat then 0 else word (words_ b) (i - ws)).
    { intros i Hi. rewrite T4, P0 by assumption.
      rewrite (proj1 (Hsm _)), (proj2 (Hsm (i - ws - 1)%nat)).
      destruct (i <? ws)%nat, (i =? ws)%nat; lia. }
    assert (LEN : length match (size - ws)%nat with
        | O => words_ b
        | S n => let l := down_loop (fun l i => word l (i - ws)) ws n (words_ b) in upd ws (word l 0) l
        end = W).
    { destruct (size - ws)%nat as [|n] eqn:En; [exact HL|]. cbv zeta. rewrite upd_length.
      destruct (down_loop_spec (fun l i => word l (i - ws)) ws n (words_ b)) as [D1 D2];
        [unfold size in *; lia|intros ws1 ws2 j H; apply H; lia|congruence]. }
    apply words_ext.
    + rewrite (proj1 (fill_zero_spec _ _)), T1. exact LEN.
    + rewrite (proj1 (fill_zero_spec _ _)), LEN. intros i Hi'.
      rewrite (proj2 (fill_zero_spec _ _)), T0 by assumption.
      destruct (Nat.ltb_spec i ws) as [|Hge]; [reflexivity|].
      destruct (size - ws)%nat as [|n] eqn:En.
      * rewrite !HZ by (unfold size in *; lia). reflexivity.
      * destruct (down_loop_spec (fun l i => word l (i - ws)) ws n (words_ b)) as [D1 D2];
          [unfold size in *; lia|intros ws1 ws2 j H; apply H; lia|].
        cbv zeta. rewrite upd_word by lia. rewrite !D2.
        destruct (Nat.eqb_spec i ws) as [->|Hne].
        { rewrite Nat.sub_diag. rewrite (proj2 (Nat.ltb_ge ws 0)) by lia. reflexivity. }
        rewrite (proj2 (Nat.ltb_lt ws i)) by lia.
        destruct (Nat.leb_spec i (ws + n)); cbn [andb]; [reflexivity|].
        rewrite !HZ by (unfold size in *; lia). reflexivity.
  - intros Hc0 l i Hi.
    destruct (down_loop_spec (fun l i => (word l (i - ws) <<[32] c) .| (word l (i - ws - 1) >> (32 - c)))
      ws (Nat.min size (W - 1) - ws) (words_ b)) as [D1 D2];
      [unfold size in *; lia|intros ws1 ws2 j H; now rewrite !H by lia|]. fold l in D1, D2.
    rewrite upd_word by lia. rewrite !D2.
    destruct (Nat.ltb_spec i ws) as [Hlt|Hge].
    { rewrite (proj2 (Nat.eqb_neq i ws)), (proj2 (Nat.ltb_ge ws i)) by lia. reflexivity. }
    rewrite T4, (proj2 (Nat.ltb_ge i ws)) by lia.
    destruct (Nat.eqb_spec i ws) as [->|Hne].
    { rewrite Nat.sub_diag, (proj2 (Nat.ltb_ge ws 0)) by lia. cbn [andb].
      rewrite Z.shiftl_mul_pow2, Z.add_0_r by lia. reflexivity. }
    rewrite (proj2 (Nat.ltb_lt ws i)) by lia. cbn [andb].
    destruct (Nat.leb_spec i (ws + (Nat.min size (W - 1) - ws))).
    + apply shl_or; auto using word_is_word. lia.
    + destruct (Past i Hi ltac:(unfold size in *; lia)) as [P1 P2]. rewrite P2.
      rewrite T4 in P1 by assumption. rewrite (proj2 (Nat.ltb_ge i ws)), (proj2 (Nat.eqb_neq i ws)) in P1 by lia.
      symmetry. exact P1.
Qed.

Lemma ShiftLeft_spec W b count :
  Big_ok W b ->
  Big_ok W (ShiftLeft W b count) /\ bval (ShiftLeft W b count) = (bval b * 2 ^ Z.max count 0) mod modulus W.
Proof.
  intros Hb. pose proof Hb as (HL & F & HS & HZ). unfold ShiftLeft.
  destruct (count >? 0) eqn:E; zbool.
  2: { rewrite Z.max_r, Z.mul_1_r by lia. split; [exact Hb|]. symmetry. now apply bval_mod. }
  rewrite Z.max_l by lia. rewrite Z.quot_div_nonneg, Z.rem_mod_nonneg by lia.
  set (ws := Z.to_nat (count / 32)). set (c := count mod 32).
  assert (Ec : count = 32 * Z.of_nat ws + c /\ 0 <= c < 32) by (unfold ws, c; zlia).
  destruct Ec as [Ec Hc].
  destruct (W <=? ws)%nat eqn:EW; [apply Nat.leb_le in EW|apply Nat.leb_gt in EW].
  { destruct (SetToZero_spec W b Hb) as [O V]. split; [exact O|]. rewrite V. symmetry.
    apply Z.mod_divide; [pose proof (modulus_pos W); lia|]. exists (bval b * 2 ^ (count - 32 * Z.of_nat W)).
    unfold modulus. change B32 with (2 ^ 32). rewrite <- Z.pow_mul_r by lia.
    rewrite <- Z.mul_assoc, <- Z.pow_add_r by lia. do 2 f_equal. lia. }
  destruct (shift_target_spec W ws c (words_ b) Hc F HL EW) as (T1 & T2 & T3 & T4).
  destruct (shift_words W b ws c Hb EW Hc) as [S1 S2].
  set (size := Nat.min (size_ b + ws) W) in *. rewrite Ec. unfold bval. rewrite <- T3.
  assert (Past : forall i, (size < i)%nat -> word (shift_target W ws c (words_ b)) i = 0).
  { intros i Hi. destruct (Nat.lt_ge_cases i W); [|unfold word; apply nth_overflow; lia].
    rewrite T4 by assumption. rewrite !HZ by (unfold size in Hi; lia).
    rewrite Z.mul_0_l, Zmod_0_l, Z.div_0_l by (pose proof (pow2_pos (32 - c)); lia).
    destruct (i <? ws)%nat, (i =? ws)%nat; auto. }
  destruct (c =? 0) eqn:E0; zbool.
  - cbv zeta in S1. rewrite S1 by (try assumption; lia). split; [|reflexivity].
    unfold Big_ok. cbn [size_ words_]. repeat split; auto; [unfold size; lia|].
    intros i Hi. destruct (Nat.lt_ge_cases i W); [|unfold word; apply nth_overflow; lia].
    rewrite T4, E0 by assumption. rewrite (HZ (i - ws)%nat) by (unfold size in Hi; lia).
    rewrite Z.mul_0_l, Zmod_0_l, Z.div_small by (rewrite Z.sub_0_r; now apply word_is_word).
    destruct (i <? ws)%nat, (i =? ws)%nat; auto.
  - specialize (S2 ltac:(lia)). cbv zeta in S2.
    set (l := upd ws _ _) in *.
    assert (LL : length l = W).
    { unfold l. rewrite upd_length.
      destruct (down_loop_spec (fun l i => (word l (i - ws) <<[32] c) .| (word l (i - ws - 1) >> (32 - c)))
        ws (Nat.min size (W - 1) - ws) (words_ b)) as [D1 _];
        [unfold size in *; lia|intros ws1 ws2 j H; now rewrite !H by lia|]. rewrite D1. exact HL. }
    assert (EF : fill_zero ws l = shift_target W ws c (words_ b)).
    { apply words_ext; [rewrite (proj1 (fill_zero_spec _ _)); congruence|].
      rewrite (proj1 (fill_zero_spec _ _)), LL. intros i Hi.
      rewrite (proj2 (fill_zero_spec _ _)), S2, T4 by assumption.
      destruct (i <? ws)%nat eqn:Ei; reflexivity. }
    cbn [words_]. rewrite EF. split; [|reflexivity].
    unfold Big_ok. cbn [size_ words_]. split; [exact T1|]. split; [exact T2|].
    destruct (Nat.ltb_spec size W) as [Hlt|Hge]; cbn [andb].
    + assert (Es : word l size = word (shift_target W ws c (words_ b)) size).
      { rewrite S2 by assumption. destruct (Nat.ltb_spec size ws); [unfold size in *; lia|reflexivity]. }
      rewrite Es. destruct (word (shift_target W ws c (words_ b)) size =? 0) eqn:Ez; zbool; cbn [negb].
      * split; [unfold size; lia|]. intros i Hi. destruct (Nat.eq_dec i size) as [->|]; [exact Ez|apply Past; lia].
      * split; [lia|]. intros i Hi. apply Past. lia.
    + split; [unfold size; lia|]. intros i Hi. unfold word. apply nth_overflow. lia.
Qed.

(** ** Powers *)

(** [b'] is well formed and holds [x] times [b]. *)
Definition scaled (W : nat) (b b' : BigUnsigned) (x : Z) : Prop :=
  Big_ok W b' /\ bval b' = (bval b * x) mod modulus W.

Lemma scaled_refl W b : Big_ok W b -> scaled W b b 1.
Proof. intros Hb. split; [exact Hb|]. rewrite Z.mul_1_r. symmetry. now apply bval_mod. Qed.

Lemma scaled_trans W b b' b'' x y : scaled W b b' x -> scaled W b' b'' y -> scaled W b b'' (x * y).
Proof.
  intros [_ E1] [O2 E2]. split; [exact O2|].
  rewrite E2, E1, Zmult_mod_idemp_l, Z.mul_assoc. reflexivity.
Qed.

Lemma kFiveToNth_spec n : (n <= kMaxSmallPowerOfFive)%nat ->
  word kFiveToNth n = 5 ^ Z.of_nat n /\ is_word (word kFiveToNth n).
Proof.
  unfold kMaxSmallPowerOfFive. intros Hn. unfold is_word.
  do 14 (destruct n as [|n]; [split; [reflexivity|split; [discriminate|reflexivity]]|]). lia.
Qed.

Lemma kTenToNth_spec n : (n <= kMaxSmallPowerOfTen)%nat ->
  word kTenToNth n = 10 ^ Z.of_nat n /\ is_word (word kTenToNth n).
Proof.
  unfold kMaxSmallPowerOfTen. intros Hn. unfold is_word.
  do 10 (destruct n as [|n]; [split; [reflexivity|split; [discriminate|reflexivity]]|]). lia.
Qed.

(** Every entry of the table of large powers, recomputed. *)
Lemma LargePowerOfFiveData_spec i : (1 <= i <= kLargestPowerOfFiveIndex)%nat ->
  length (LargePowerOfFiveData i) = LargePowerOfFiveSize i /\
  Forall is_word (LargePowerOfFiveData i) /\
  wval (LargePowerOfFiveData i) = 5 ^ (27 * Z.of_nat i).
Proof.
  intros Hi.
  assert (C : forallb (fun j => (length (LargePowerOfFiveData j) =? LargePowerOfFiveSize j)%nat
    && forallb (fun w => (0 <=? w) && (w <? B32)) (LargePowerOfFiveData j)
    && (wval (LargePowerOfFiveData j) =? 5 ^ (27 * Z.of_nat j))) (seq 1 20) = true)
    by (vm_compute; reflexivity).
  rewrite forallb_forall in C. specialize (C i). rewrite in_seq in C.
  specialize (C ltac:(unfold kLargestPowerOfFiveIndex in Hi; lia)).
  apply andb_true_iff in C as [C C3]. apply andb_true_iff in C as [C1 C2].
  apply Nat.eqb_eq in C1. apply Z.eqb_eq in C3. split; [exact C1|]. split; [|exact C3].
  rewrite forallb_forall in C2. apply Forall_forall. intros w Hw. specialize (C2 w Hw).
  unfold is_word. zbool. lia.
Qed.

Lemma five_loop_spec W fuel b n :
  Big_ok W b -> (n <= fuel)%nat ->
  let '(b', n') := five_loop W fuel b n in
  (n' < kMaxSmallPowerOfFive)%nat /\ (n' <= n)%nat /\ scaled W b b' (5 ^ Z.of_nat (n - n')).
Proof.
  revert b n. induction fuel as [|f IH]; intros b n Hb Hn; cbn [five_loop].
  - replace (n - n)%nat with 0%nat by lia. unfold kMaxSmallPowerOfFive.
    split; [lia|]. split; [lia|]. now apply scaled_refl.
  - destruct (Nat.leb_spec kMaxSmallPowerOfFive n) as [Hle|Hgt].
    + destruct (kFiveToNth_spec kMaxSmallPowerOfFive (le_n _)) as [E Hw].
      pose proof (MultiplyBy32_spec W b _ Hb Hw) as S. rewrite E in S at 3.
      specialize (IH _ (n - kMaxSmallPowerOfFive)%nat (proj1 S)
        ltac:(unfold kMaxSmallPowerOfFive in *; lia)).
      destruct (five_loop W f _ _) as [b' n']. destruct IH as (I1 & I2 & I3).
      split; [exact I1|]. split; [lia|].
      replace (n - n')%nat with (kMaxSmallPowerOfFive + (n - kMaxSmallPowerOfFive - n'))%nat by lia.
      rewrite Nat2Z.inj_add, Z.pow_add_r by lia. exact (scaled_trans _ _ _ _ _ _ S I3).
    + split; [exact Hgt|]. split; [lia|]. rewrite Nat.sub_diag. now apply scaled_refl.
Qed.

Lemma MultiplyByFiveToTheNth_spec W b n :
  Big_ok W b -> scaled W b (MultiplyByFiveToTheNth W b n) (5 ^ Z.of_nat n).
Proof.
  intros Hb. unfold MultiplyByFiveToTheNth.
  pose proof (five_loop_spec W n b n Hb (le_n _)) as S. destruct (five_loop W n b n) as [b' n'].
  destruct S as (S1 & S2 & S3). destruct (Nat.ltb_spec 0 n').
  - destruct (kFiveToNth_spec n' ltac:(lia)) as [E Hw].
    pose proof (MultiplyBy32_spec W b' _ (proj1 S3) Hw) as S. rewrite E in S at 3.
    replace (Z.of_nat n) with (Z.of_nat (n - n') + Z.of_nat n') by lia. rewrite Z.pow_add_r by lia.
    exact (scaled_trans _ _ _ _ _ _ S3 S).
  - now replace (Z.of_nat n) with (Z.of_nat (n - n')) by lia.
Qed.

Lemma MultiplyByTenToTheNth_spec W b n :
  Big_ok W b -> scaled W b (MultiplyByTenToTheNth W b n) (10 ^ Z.of_nat n).
Proof.
  intros Hb. unfold MultiplyByTenToTheNth. destruct (Nat.ltb_spec kMaxSmallPowerOfTen n).
  - pose proof (MultiplyByFiveToTheNth_spec W b n Hb) as S.
    pose proof (ShiftLeft_spec W _ (Z.of_nat n) (proj1 S)) as T. rewrite Z.max_l in T by lia.
    change 10 with (5 * 2). rewrite Z.pow_mul_l. exact (scaled_trans _ _ _ _ _ _ S T).
  - destruct (Nat.ltb_spec 0 n).
    + destruct (kTenToNth_spec n ltac:(lia)) as [E Hw].
      pose proof (MultiplyBy32_spec W b _ Hb Hw) as S. rewrite E in S at 3. exact S.
    + replace n with 0%nat by lia. now apply scaled_refl.
Qed.

Lemma of_uint64_spec W v : (2 <= W)%nat -> in_u 64 v -> Big_ok W (of_uint64 W v) /\ bval (of_uint64 W v) = v.
Proof.
  intros HW Hv. rewrite in_u64_iff in Hv. unfold of_uint64. rewrite shr32, land_low32.
  assert (H1 : is_word (v mod B32)) by (apply Z.mod_pos_bound; reflexivity).
  assert (H2 : is_word (v / B32)).
  { split; [apply Z.div_pos; [lia|reflexivity]|]. apply Z.div_lt_upper_bound; unfold B32; lia. }
  assert (EV : v = v mod B32 + B32 * (v / B32)) by (pose proof (Z.div_mod v B32 ltac:(discriminate)); lia).
  rewrite (wrapu_small 32 (v mod B32)) by exact H1. rewrite (wrapu_small 32 (v / B32)) by exact H2.
  assert (FW : Forall is_word [v mod B32; v / B32]) by auto.
  destruct (Big_intro W 2 [v mod B32; v / B32] eq_refl HW FW) as [(O1 & O2 & _ & O4) V].
  unfold bval in *. cbn [size_ words_] in *. cbn [wval] in V.
  split; [|rewrite V; rewrite EV at 3; ring].
  split; [exact O1|]. split; [exact O2|]. cbn [size_ words_].
  destruct (v / B32 =? 0) eqn:E1; zbool; cbn [negb]; [|split; [exact HW|exact O4]].
  destruct (v =? 0) eqn:E2; zbool; cbn [negb].
  - split; [lia|]. intros i _. destruct (Nat.lt_ge_cases i 2); [|now apply O4].
    subst v. destruct i as [|[|i]]; [reflexivity|reflexivity|lia].
  - split; [lia|]. intros i Hi. destruct (Nat.lt_ge_cases i 2); [|now apply O4].
    destruct i as [|[|i]]; [lia|exact E1|lia].
Qed.

Lemma table_power_spec W b i :
  (W <= 84)%nat -> Big_ok W b -> (1 <= i <= kLargestPowerOfFiveIndex)%nat ->
  scaled W b (MultiplyByWords W b (LargePowerOfFiveSize i) (fun _ => LargePowerOfFiveData i))
         (5 ^ (27 * Z.of_nat i)).
Proof.
  intros HW Hb Hi. destruct (LargePowerOfFiveData_spec i Hi) as (T1 & T2 & T3). unfold scaled. rewrite <- T3.
  apply MultiplyByWords_spec; auto. unfold LargePowerOfFiveSize. lia.
Qed.

(** What is left of the exponent after the table has been used. *)
Lemma step_exponent n i :
  i = Nat.min (n / kLargePowerOfFiveStep) kLargestPowerOfFiveIndex -> (kLargePowerOfFiveStep <= n)%nat ->
  (1 <= i <= kLargestPowerOfFiveIndex)%nat /\ (kLargePowerOfFiveStep * i <= n)%nat.
Proof.
  unfold kLargePowerOfFiveStep, kLargestPowerOfFiveIndex. intros -> Hn.
  assert (1 <= n / 27)%nat by (apply Nat.div_le_lower_bound; lia).
  assert (27 * (n / 27) <= n)%nat by (apply Nat.Div0.mul_div_le). lia.
Qed.

Lemma large_five_loop_next W fuel b n :
  (W <= 84)%nat -> Big_ok W b -> (n <= fuel)%nat ->
  exists b' n', large_five_loop W fuel b n false = Some (b', n') /\ (n' <= n)%nat /\
                scaled W b b' (5 ^ Z.of_nat (n - n')).
Proof.
  intros HW. revert b n. induction fuel as [|f IH]; intros b n Hb Hn; cbn [large_five_loop].
  - exists b, n. rewrite Nat.sub_diag. split; [reflexivity|]. split; [lia|]. now apply scaled_refl.
  - destruct (Nat.leb_spec kLargePowerOfFiveStep n) as [Hle|Hgt].
    2: { exists b, n. rewrite Nat.sub_diag. split; [reflexivity|]. split; [lia|]. now apply scaled_refl. }
    set (i := Nat.min _ _). destruct (step_exponent n i eq_refl Hle) as [Hi Hr].
    pose proof (table_power_spec W b i HW Hb Hi) as S.
    unfold kLargePowerOfFiveStep in *.
    destruct (IH _ (n - 27 * i)%nat (proj1 S) ltac:(lia)) as (b' & n' & E & L & S').
    exists b', n'. split; [exact E|]. split; [lia|].
    replace (Z.of_nat (n - n')) with (27 * Z.of_nat i + Z.of_nat (n - 27 * i - n')) by lia.
    rewrite Z.pow_add_r by lia. exact (scaled_trans _ _ _ _ _ _ S S').
Qed.

Lemma skipn_zeros n m : skipn n (repeat 0 m) = repeat 0 (m - n).
Proof. revert n. induction m as [|m IH]; intros [|n]; cbn [repeat skipn Nat.sub]; auto. Qed.

(** The copy of the first table entry, when it fits. *)
Lemma first_copy_spec W i :
  (2 <= W)%nat -> (1 <= i <= kLargestPowerOfFiveIndex)%nat -> (LargePowerOfFiveSize i <= W)%nat ->
  scaled W (of_uint64 W 1)
    (mk_Big (LargePowerOfFiveSize i)
       (LargePowerOfFiveData i ++ skipn (LargePowerOfFiveSize i) (words_ (of_uint64 W 1))))
    (5 ^ (27 * Z.of_nat i)).
Proof.
  intros HW Hi Hs. destruct (LargePowerOfFiveData_spec i Hi) as (T1 & T2 & T3).
  destruct (of_uint64_spec W 1 HW ltac:(split; [lia|reflexivity])) as [_ V].
  destruct (Big_intro W _ _ T1 Hs T2) as [O VB].
  replace (skipn _ _) with (repeat 0 (W - LargePowerOfFiveSize i)).
  2: { unfold of_uint64. cbn [words_]. rewrite skipn_app. unfold LargePowerOfFiveSize in *.
       rewrite skipn_all2 by (cbn [length]; lia). rewrite skipn_zeros. cbn [app length]. f_equal. lia. }
  split; [exact O|]. rewrite V, VB, <- T3, Z.mul_1_l. symmetry. rewrite <- VB. now apply bval_mod.
Qed.

Definition first_copy_fits (W n : nat) : Prop :=
  (LargePowerOfFiveSize (Nat.min (n / kLargePowerOfFiveStep) kLargestPowerOfFiveIndex) <= W)%nat.

Lemma FiveToTheNth_spec W n :
  (2 <= W <= 84)%nat -> first_copy_fits W n ->
  exists r, FiveToTheNth W n = Some r /\ Big_ok W r /\ bval r = 5 ^ Z.of_nat n mod modulus W.
Proof.
  intros HW Hfit. unfold FiveToTheNth.
  destruct (of_uint64_spec W 1 ltac:(lia) ltac:(split; [lia|reflexivity])) as [O V].
  assert (L : exists b' n', large_five_loop W n (of_uint64 W 1) n true = Some (b', n') /\ (n' <= n)%nat /\
                scaled W (of_uint64 W 1) b' (5 ^ Z.of_nat (n - n'))).
  { destruct n as [|f]; cbn [large_five_loop].
    { exists (of_uint64 W 1), 0%nat. split; [reflexivity|]. split; [lia|]. now apply scaled_refl. }
    destruct (Nat.leb_spec kLargePowerOfFiveStep (S f)) as [Hle|Hgt].
    2: { exists (of_uint64 W 1), (S f). rewrite Nat.sub_diag. split; [reflexivity|]. split; [lia|]. now apply scaled_refl. }
    unfold first_copy_fits in Hfit. set (i := Nat.min _ _) in *.
    destruct (step_exponent (S f) i eq_refl Hle) as [Hi Hr]. unfold kLargePowerOfFiveStep in *.
    rewrite (proj2 (Nat.leb_le _ _) Hfit).
    pose proof (first_copy_spec W i ltac:(lia) Hi Hfit) as Sc.
    destruct (large_five_loop_next W f _ (S f - 27 * i) ltac:(lia) (proj1 Sc) ltac:(lia))
      as (b' & n' & E & Le & S'). exists b', n'. split; [exact E|]. split; [lia|].
    replace (Z.of_nat (S f - n')) with (27 * Z.of_nat i + Z.of_nat (S f - 27 * i - n')) by lia.
    rewrite Z.pow_add_r by lia. exact (scaled_trans _ _ _ _ _ _ Sc S'). }
  destruct L as (b' & n' & -> & Hle & S).
  pose proof (scaled_trans _ _ _ _ _ _ S (MultiplyByFiveToTheNth_spec W b' n' (proj1 S))) as [Or Vr].
  exists (MultiplyByFiveToTheNth W b' n'). split; [reflexivity|]. split; [exact Or|].
  rewrite Vr, V, Z.mul_1_l, <- Z.pow_add_r by lia. do 2 f_equal. lia.
Qed.

Lemma FiveToTheNth_overrun W n :
  (2 <= W <= 84)%nat -> ~ first_copy_fits W n -> FiveToTheNth W n = None.
Proof.
  unfold first_copy_fits, FiveToTheNth. intros HW H. destruct n as [|f]; [exfalso; apply H; cbn; lia|].
  cbn [large_five_loop].
  assert (Hle : (kLargePowerOfFiveStep <= S f)%nat).
  { destruct (Nat.lt_ge_cases (S f) kLargePowerOfFiveStep) as [Hlt|]; [|assumption].
    exfalso. apply H. rewrite Nat.div_small by exact Hlt. cbn. lia. }
  rewrite (proj2 (Nat.leb_le _ _) Hle). now rewrite (proj2 (Nat.leb_nle _ _) H).
Qed.

Lemma fits_84 n : first_copy_fits 84 n.
Proof.
  unfold first_copy_fits, LargePowerOfFiveSize, kLargestPowerOfFiveIndex. lia.
Qed.

Lemma fits_4 n : first_copy_fits 4 n <-> (n < 81)%nat.
Proof.
  unfold first_copy_fits, LargePowerOfFiveSize, kLargestPowerOfFiveIndex, kLargePowerOfFiveStep.
  pose proof (Nat.div_mod_eq n 27). pose proof (Nat.mod_upper_bound n 27). lia.
Qed.

(** ** Division and printing *)
Lemma wval_firstn_S i ws : wval (firstn (S i) ws) = wval (firstn i ws) + modulus i * word ws i.
Proof.
  revert i. induction ws as [|w ws IH]; intros i.
  - rewrite !firstn_nil. unfold word. destruct i; cbn [nth wval]; lia.
  - destruct i as [|i]; [unfold word; cbn [firstn wval nth]; change (modulus 0) with 1; lia|].
    rewrite (firstn_cons (S i)), (firstn_cons i). cbn [wval]. rewrite IH, modulus_S. unfold word. cbn [nth]. ring.
Qed.

Lemma upd_firstn i v ws : firstn i (upd i v ws) = firstn i ws.
Proof. revert i. induction ws as [|w ws IH]; intros [|i]; cbn [upd firstn]; [..|now rewrite IH]; auto. Qed.

Lemma words_firstn n ws : Forall is_word ws -> Forall is_word (firstn n ws).
Proof.
  intros F. rewrite <- (firstn_skipn n ws) in F. now apply Forall_app in F.
Qed.

(** Long division of the low [n] words with an incoming remainder. *)
Lemma div_words_spec d n acc ws :
  0 < d <= B32 -> (n <= length ws)%nat -> Forall is_word ws -> 0 <= acc < d ->
  let '(acc', ws') := div_words d n acc ws in
  length ws' = length ws /\ Forall is_word ws' /\ 0 <= acc' < d /\
  (forall i, (n <= i)%nat -> word ws' i = word ws i) /\
  acc * modulus n + wval (firstn n ws) = d * wval (firstn n ws') + acc'.
Proof.
  intros Hd. revert acc ws. induction n as [|n IH]; intros acc ws Hn F Hacc; cbn [div_words].
  - change (modulus 0) with 1. cbn [firstn wval]. repeat split; auto; lia.
  - pose proof (word_is_word _ n F) as Hw. unfold is_word in Hw.
    assert (EA : wrapu 64 (wrapu 64 (Z.shiftl acc 32) + word ws n) = acc * B32 + word ws n).
    { rewrite Z.shiftl_mul_pow2 by lia. change (2 ^ 32) with B32. unfold B32 in *.
      rewrite (wrapu_small 64 (acc * _)); [apply wrapu_small|]; change (2 ^ 64) with 18446744073709551616; lia. }
    rewrite EA. set (a := acc * B32 + word ws n) in *.
    assert (Hq : is_word (a / d)).
    { split; [apply Z.div_pos; unfold a, B32 in *; lia|]. apply Z.div_lt_upper_bound; [lia|]. unfold a. nia. }
    rewrite (wrapu_small 32 (a / d)) by exact Hq.
    specialize (IH (a mod d) (upd n (a / d) ws)). rewrite upd_length in IH.
    specialize (IH ltac:(lia) (upd_Forall _ _ _ Hq F) ltac:(apply Z.mod_pos_bound; lia)).
    destruct (div_words d n _ _) as [acc' ws']. destruct IH as (I1 & I2 & I3 & I4 & I5).
    split; [exact I1|]. split; [exact I2|]. split; [exact I3|]. split.
    + intros i Hi. rewrite I4, upd_word by lia. destruct (Nat.eqb_spec i n); [lia|reflexivity].
    + rewrite !wval_firstn_S, I4, upd_word, Nat.eqb_refl by lia. rewrite upd_firstn in I5.
      rewrite modulus_S. pose proof (Z.div_mod a d ltac:(lia)) as D.
      transitivity (modulus n * a + wval (firstn n ws)); [unfold a; ring|].
      rewrite D at 1. lia.
Qed.

Lemma trim_spec n ws :
  (trim n ws <= n)%nat /\ (forall i, (trim n ws <= i < n)%nat -> word ws i = 0) /\
  ((0 < trim n ws)%nat -> word ws (trim n ws - 1) <> 0).
Proof.
  induction n as [|n (I1 & I2 & I3)]; cbn [trim]; [repeat split; lia|].
  destruct (word ws n =? 0) eqn:E; zbool.
  - split; [lia|]. split; [|exact I3]. intros i Hi. destruct (Nat.eq_dec i n) as [->|]; [exact E|apply I2; lia].
  - split; [lia|]. split; [lia|]. intros _. now replace (S n - 1)%nat with n by lia.
Qed.

(** A word is a lower bound of the number it belongs to. *)
Lemma word_le_wval i ws : Forall is_word ws -> 0 <= word ws i <= wval ws.
Proof.
  intros F. revert i. induction F as [|w ws Hw F IH]; intros i; [destruct i; cbn; lia|].
  unfold is_word in Hw. pose proof (wval_range _ F). cbn [wval].
  destruct i as [|i]; unfold word in *; cbn [nth]; [unfold B32 in *; lia|].
  specialize (IH i). unfold B32. lia.
Qed.

Lemma DivMod_spec W d b :
  0 < d < B32 -> Big_ok W b ->
  let '(r, b') := DivMod d b in
  Big_ok W b' /\ bval b' = bval b / d /\ r = bval b mod d /\ (size_ b' = 0%nat <-> bval b' = 0).
Proof.
  intros Hd Hb. pose proof Hb as (HL & F & HS & HZ). destruct (bval_used W b Hb) as (EV & _ & _).
  unfold DivMod.
  pose proof (div_words_spec d (size_ b) 0 (words_ b) ltac:(lia) ltac:(lia) F ltac:(lia)) as D.
  destruct (div_words d (size_ b) 0 (words_ b)) as [acc ws]. destruct D as (D1 & D2 & D3 & D4 & D5).
  destruct (trim_spec (size_ b) ws) as (T1 & T2 & T3).
  assert (Z' : forall i, (trim (size_ b) ws <= i)%nat -> word ws i = 0).
  { intros i Hi. destruct (Nat.lt_ge_cases i (size_ b)); [apply T2; lia|rewrite D4 by lia; now apply HZ]. }
  assert (O : Big_ok W (mk_Big (trim (size_ b) ws) ws)).
  { unfold Big_ok. cbn [size_ words_]. repeat split; [congruence|assumption|lia|exact Z']. }
  assert (EW : wval ws = wval (firstn (size_ b) ws)).
  { rewrite (zero_tail ws (size_ b)) at 1; [rewrite wval_app, wval_zeros; lia|lia|].
    intros i Hi. apply Z'. lia. }
  rewrite Z.mul_0_l, Z.add_0_l, <- EV, <- EW in D5.
  split; [exact O|]. unfold bval in *. cbn [size_ words_].
  rewrite (wrapu_small 32 acc) by (change (2 ^ 32) with B32; lia).
  split; [apply (Z.div_unique_pos _ _ _ acc); lia|]. split; [apply (Z.mod_unique_pos _ _ (wval ws)); lia|].
  split; intros E0.
  - rewrite E0 in Z'. rewrite (zero_tail ws 0); [rewrite firstn_O; apply wval_zeros|lia|exact Z'].
  - destruct (Nat.eq_0_gt_0_cases (trim (size_ b) ws)) as [|Hp]; [assumption|]. exfalso.
    apply (T3 Hp). pose proof (word_le_wval (trim (size_ b) ws - 1) ws D2). lia.
Qed.

Lemma to_string_loop_S f copy :
  to_string_loop (S f) copy
  = if (0 <? size_ copy)%nat then
      let '(next_digit, copy) := DivMod 10 copy in (chr "0" + next_digit) :: to_string_loop f copy
    else [].
Proof. reflexivity. Qed.

Lemma to_string_loop_spec W fuel b :
  Big_ok W b -> (0 < size_ b)%nat -> bval b < 10 ^ Z.of_nat (S fuel) ->
  to_string_loop (S fuel) b = rev (dec_text (digits 10 (bval b))).
Proof.
  revert b. induction fuel as [|f IH]; intros b Hb Hs Hv; rewrite to_string_loop_S;
    rewrite (proj2 (Nat.ltb_lt _ _) Hs);
    pose proof (DivMod_spec W 10 b ltac:(unfold B32; lia) Hb) as D;
    destruct (DivMod 10 b) as [r b']; destruct D as (D1 & D2 & -> & D4);
    pose proof (bval_range W b Hb) as R.
  - rewrite digits_small, Z.mod_small by (change (10 ^ Z.of_nat 1) with 10 in Hv; lia). reflexivity.
  - destruct (Z.lt_ge_cases (bval b) 10) as [Hlt|Hge].
    + rewrite digits_small, Z.mod_small by lia. rewrite to_string_loop_S.
      rewrite Z.div_small in D2 by lia. rewrite (proj2 D4 D2). reflexivity.
    + rewrite digits_step by lia. rewrite dec_text_app, rev_app_distr, <- D2. cbn [dec_text map rev app].
      f_equal. apply IH; [exact D1| |].
      * destruct (size_ b'); [|lia]. exfalso. rewrite (proj1 D4 eq_refl) in D2. zlia.
      * rewrite D2. rewrite Nat2Z.inj_succ, Z.pow_succ_r in Hv by lia. apply Z.div_lt_upper_bound; lia.
Qed.

Lemma ToString_spec W b : Big_ok W b -> ToString W b = dec_text (digits 10 (bval b)).
Proof.
  intros Hb. unfold ToString. replace (10 * W + 1)%nat with (S (10 * W)) by lia.
  destruct (Nat.eq_0_gt_0_cases (size_ b)) as [E0|Hs].
  - rewrite to_string_loop_S, E0. cbn [Nat.ltb Nat.leb].
    assert (EV : bval b = 0) by (destruct (bval_used W b Hb) as (-> & _); now rewrite E0).
    rewrite EV, digits_small by lia. reflexivity.
  - rewrite (to_string_loop_spec W); [|assumption..|].
    + pose proof (bval_range W b Hb).
      destruct (rev (dec_text (digits 10 (bval b)))) as [|c l] eqn:E;
        [exfalso|rewrite <- E; apply rev_involutive].
      apply (f_equal (@rev Z)) in E. rewrite rev_involutive in E. cbn [rev] in E.
      pose proof (digits_canonical 10 ltac:(lia) (bval b) ltac:(lia)) as [_ C].
      destruct (digits 10 (bval b)); [exact C|discriminate].
    + pose proof (bval_range W b Hb) as R. apply Z.lt_le_trans with (modulus W); [lia|].
      unfold modulus. apply Z.le_trans with ((10 ^ 10) ^ Z.of_nat W).
      * apply Z.pow_le_mono_l. unfold B32. lia.
      * rewrite <- Z.pow_mul_r by lia. apply Z.pow_le_mono_r; lia.
Qed.

(** ** Comparison *)
Lemma GetWord_spec W b i : Big_ok W b -> GetWord b (Z.of_nat i) = word (words_ b) i.
Proof.
  intros (_ & _ & _ & HZ). unfold GetWord. rewrite Nat2Z.id, Z.geb_leb.
  destruct (Z.of_nat i <? 0) eqn:E; zbool; [lia|]. cbn [orb].
  destruct (Z.of_nat (size_ b) <=? Z.of_nat i) eqn:E'; zbool; [|reflexivity].
  symmetry. apply HZ. lia.
Qed.

Lemma bval_prefix W b n : Big_ok W b -> (size_ b <= n)%nat -> wval (firstn n (words_ b)) = bval b.
Proof.
  intros Hb Hn. destruct (bval_used W b Hb) as (E & _ & _).
  induction Hn as [|n Hn IH]; [auto|]. rewrite wval_firstn_S, IH.
  destruct Hb as (_ & _ & _ & HZ). rewrite HZ by lia. lia.
Qed.

Definition sign_of (c : comparison) : Z := match c with Lt => -1 | Eq => 0 | Gt => 1 end.

(** The top words decide the order. *)
Lemma prefix_compare n l r :
  Forall is_word l -> Forall is_word r ->
  (wval (firstn (S n) l) ?= wval (firstn (S n) r))
  = match word l n ?= word r n with Eq => wval (firstn n l) ?= wval (firstn n r) | c => c end.
Proof.
  intros Fl Fr. rewrite !wval_firstn_S.
  pose proof (wval_range _ (words_firstn n l Fl)) as Rl. pose proof (wval_range _ (words_firstn n r Fr)) as Rr.
  assert (M : forall k, (k <= n)%nat -> modulus k <= modulus n)
    by (intros k Hk; apply Z.pow_le_mono_r; [reflexivity|lia]).
  pose proof (M _ (firstn_le_length n l)). pose proof (M _ (firstn_le_length n r)).
  destruct (Z.compare_spec (word l n) (word r n)) as [E|E|E].
  - rewrite E. rewrite !(Z.add_comm (wval _)). apply Zcompare_plus_compat.
  - apply Z.compare_lt_iff. nia.
  - apply Z.compare_gt_iff. nia.
Qed.

Section Order.
Context (W W' : nat) (lhs rhs : BigUnsigned) (Hl : Big_ok W lhs) (Hr : Big_ok W' rhs).

Lemma compare_loop_spec n :
  compare_loop n lhs rhs = sign_of (wval (firstn n (words_ lhs)) ?= wval (firstn n (words_ rhs))).
Proof.
  pose proof Hl as (_ & Fl & _). pose proof Hr as (_ & Fr & _).
  induction n as [|n IH]; [reflexivity|]. cbn [compare_loop].
  rewrite (GetWord_spec W), (GetWord_spec W'), prefix_compare, IH by assumption.
  rewrite Z.gtb_ltb. unfold Z.ltb. rewrite (Z.compare_antisym (word (words_ lhs) n) (word (words_ rhs) n)).
  destruct (word (words_ lhs) n ?= word (words_ rhs) n); reflexivity.
Qed.

Lemma Compare_spec : Compare lhs rhs = sign_of (bval lhs ?= bval rhs).
Proof.
  unfold Compare. rewrite compare_loop_spec, (bval_prefix W lhs), (bval_prefix W' rhs) by (auto; lia).
  reflexivity.
Qed.

Lemma Big_ltb_spec : Big_ltb lhs rhs = (bval lhs <? bval rhs).
Proof. unfold Big_ltb. rewrite Compare_spec. unfold Z.ltb. now destruct (_ ?= _). Qed.

Lemma Big_eqb_spec : Big_eqb lhs rhs = (bval lhs =? bval rhs).
Proof.
  pose proof Hl as (_ & Fl & _). pose proof Hr as (_ & Fr & _). unfold Big_eqb.
  rewrite <- (bval_prefix W lhs (Nat.max (size_ lhs) (size_ rhs))),
    <- (bval_prefix W' rhs (Nat.max (size_ lhs) (size_ rhs))) by (auto; lia).
  induction (Nat.max (size_ lhs) (size_ rhs)) as [|n IH]; [reflexivity|].
  rewrite seq_S, forallb_app, IH. cbn [forallb Nat.add]. rewrite andb_true_r.
  rewrite (GetWord_spec W), (GetWord_spec W') by assumption. rewrite !Z.eqb_compare, prefix_compare by assumption.
  destruct (word (words_ lhs) n ?= word (words_ rhs) n), (wval (firstn n (words_ lhs)) ?= _); reflexivity.
Qed.

End Order.

(** ** Products of big integers *)
Lemma MultiplyByBig_spec W W' b other :
  (W <= 84)%nat -> Big_ok W b -> Big_ok W' other -> (0 < size_ other)%nat ->
  scaled W b (MultiplyByBig W b other) (bval other).
Proof.
  intros HW Hb Ho Hs. destruct (bval_used W' other Ho) as (E1 & E2 & E3). rewrite E1.
  apply MultiplyByWords_spec; auto; [apply words_firstn, Ho|].
  intros cw s _ j _ Hj. rewrite E2 at 1. unfold word. now rewrite app_nth1 by lia.
Qed.

(** The destination's words below the current step are still the original ones. *)
Lemma MultiplyBySelf_spec W b :
  (W <= 84)%nat -> Big_ok W b -> scaled W b (MultiplyBySelf W b) (bval b).
Proof.
  intros HW Hb. destruct (bval_used W b Hb) as (E1 & E2 & E3).
  destruct (Nat.eq_0_gt_0_cases (size_ b)) as [E0|Hs].
  - unfold MultiplyBySelf, MultiplyByWords. rewrite E0.
    replace (Z.to_nat _) with 0%nat by lia. cbn [multiply_steps].
    split; [exact Hb|]. rewrite E1, E0. reflexivity.
  - rewrite E1 at 1. apply MultiplyByWords_spec; auto; [apply words_firstn, Hb|].
    intros cw s H j Hj Hj'. rewrite H by exact Hj. rewrite E2 at 1. unfold word. now rewrite app_nth1 by lia.
Qed.

Lemma MultiplyBy64_spec W b v :
  (W <= 84)%nat -> Big_ok W b -> in_u 64 v -> scaled W b (MultiplyBy64 W b v) v.
Proof.
  intros HW Hb Hv. destruct (split64 v) as (S1 & S2 & S3); [exact Hv|].
  unfold MultiplyBy64. cbn [word nth].
  destruct S3 as (S3 & S4 & S5). rewrite S1. change (wrapu 32 v) with (v mod B32).
  destruct (v / B32 =? 0) eqn:E; zbool.
  - assert (EV : v mod B32 = v) by (rewrite E in S5; lia). rewrite EV in *. now apply MultiplyBy32_spec.
  - assert (EV : wval [v mod B32; v / B32] = v) by (cbn [wval]; lia).
    pose proof (MultiplyByWords_spec W b 2 [v mod B32; v / B32] (fun _ => [v mod B32; v / B32])) as M.
    rewrite EV in M. apply M; auto.
Qed.

(** With no operand words, each step only clears its word. *)
Lemma multiply_steps_empty W n b osz other :
  multiply_steps W n b osz other 0 = mk_Big (size_ b) (fill_zero n (words_ b)).
Proof.
  assert (F : forall s ws, fill_zero s (upd s 0 ws) = fill_zero (S s) ws).
  { induction s as [|s IH]; intros [|w ws]; try reflexivity. cbn [upd]. change (fill_zero (S s) (w :: upd s 0 ws))
      with (0 :: fill_zero s (upd s 0 ws)). rewrite IH. reflexivity. }
  revert b. induction n as [|n IH]; intros b; cbn [multiply_steps].
  - destruct b as [s [|w ws]]; reflexivity.
  - rewrite IH. unfold MultiplyStep.
    assert (E : forall k oi ws O, step_loop k oi 0 ws O 0 0 = (0, 0)) by (intros [|k]; reflexivity).
    rewrite E. cbn [AddWithCarry64 negb Z.eqb andb size_ words_]. unfold AddWithCarry64. cbn [Z.eqb negb andb].
    cbn [size_ words_ Z.gtb Z.compare andb]. rewrite Z.land_0_l, F. reflexivity.
Qed.

Lemma MultiplyByBig_empty W b other :
  Big_ok W b -> (0 < size_ b)%nat -> size_ other = 0%nat ->
  bval (MultiplyByBig W b other) = modulus (size_ b - 1) * word (words_ b) (size_ b - 1).
Proof.
  intros Hb Hs Ho. pose proof Hb as (HL & F & HS & HZ).
  unfold MultiplyByBig, MultiplyByWords. rewrite Ho.
  replace (Z.to_nat _) with (size_ b - 1)%nat by lia. rewrite multiply_steps_empty.
  set (n := (size_ b - 1)%nat). destruct (fill_zero_spec n (words_ b)) as [L1 L2].
  unfold bval. cbn [words_].
  rewrite (zero_tail (fill_zero n (words_ b)) (S n)); [|lia|].
  2: { intros i Hi. rewrite L2. rewrite (proj2 (Nat.ltb_ge i n)) by lia. apply HZ. lia. }
  rewrite wval_app, wval_zeros, wval_firstn_S, L2, Nat.ltb_irrefl.
  replace (firstn n _) with (repeat 0 n); [rewrite wval_zeros; lia|].
  apply words_ext; [rewrite repeat_length; symmetry; apply firstn_length_le; lia|].
  intros i Hi. rewrite repeat_length in Hi. unfold word. rewrite nth_repeat, nth_firstn.
  rewrite (proj2 (Nat.ltb_lt i n)) by lia. specialize (L2 i). unfold word in L2.
  rewrite L2, (proj2 (Nat.ltb_lt i n)) by lia. reflexivity.
Qed.

(** ** Properties *)

(** C34: every in-place product (by a 32-bit word, a 64-bit word, another integer with at least
    one word in use, the integer itself) leaves a well-formed integer that holds the product
    modulo [2^(32 W)], for widths up to 84 words: the inner accumulators never overflow.  A
    product with an integer of size 0 (the value zero) does not give zero: the top used word of the
    destination survives, so 5 times 0 is 5. *)
Theorem multiply_correct W W' b other v v32 :
  (W <= 84)%nat -> Big_ok W b -> Big_ok W' other -> (0 < size_ other)%nat -> in_u 64 v -> in_u 32 v32 ->
  scaled W b (MultiplyBy32 W b v32) v32 /\
  scaled W b (MultiplyBy64 W b v) v /\
  scaled W b (MultiplyByBig W b other) (bval other) /\
  scaled W b (MultiplyBySelf W b) (bval b) /\
  (forall zero, (0 < size_ b)%nat -> size_ zero = 0%nat ->
     bval (MultiplyByBig W b zero) = modulus (size_ b - 1) * word (words_ b) (size_ b - 1)) /\
  MultiplyByBig 4 (of_uint64 4 5) (of_uint64 4 0) = of_uint64 4 5.
Proof.
  intros HW Hb Ho Hs Hv Hv32. split; [now apply MultiplyBy32_spec|].
  split; [now apply MultiplyBy64_spec|]. split; [now apply (MultiplyByBig_spec W W')|].
  split; [now apply MultiplyBySelf_spec|]. split; [intros; now apply MultiplyByBig_empty|reflexivity].
Qed.

(** A left shift multiplies by the power of two, and the scaling by powers of five and ten by
    repeated small products and shifts multiplies by exactly that power, all modulo [2^(32 W)],
    for every shift count and every exponent. *)
Lemma shift_and_powers_correct W b count n :
  Big_ok W b ->
  scaled W b (ShiftLeft W b count) (2 ^ Z.max count 0) /\
  scaled W b (MultiplyByFiveToTheNth W b n) (5 ^ Z.of_nat n) /\
  scaled W b (MultiplyByTenToTheNth W b n) (10 ^ Z.of_nat n).
Proof.
  intros Hb. split; [now apply ShiftLeft_spec|]. split.
  - now apply MultiplyByFiveToTheNth_spec.
  - now apply MultiplyByTenToTheNth_spec.
Qed.

(** C38: [FiveToTheNth] gives [5^n] modulo [2^(32 W)] whenever the first entry it copies from the
    table of large powers fits the array; for the 84-word instance that is every [n], while the
    4-word instance copies past its array from [n = 81] on. *)
Theorem FiveToTheNth_correct W n :
  (2 <= W <= 84)%nat ->
  (first_copy_fits W n ->
   exists r, FiveToTheNth W n = Some r /\ Big_ok W r /\ bval r = 5 ^ Z.of_nat n mod modulus W) /\
  (~ first_copy_fits W n -> FiveToTheNth W n = None) /\
  first_copy_fits 84 n /\ (first_copy_fits 4 n <-> (n < 81)%nat).
Proof.
  intros HW. split; [now apply FiveToTheNth_spec|]. split; [now apply FiveToTheNth_overrun|].
  split; [apply fits_84|apply fits_4].
Qed.

(** [ToString] prints the canonical decimal digits of the value, and the six comparison
    operators compare the values, whatever leading zero words the two operands carry. *)
Lemma print_compare_correct W W' lhs rhs :
  Big_ok W lhs -> Big_ok W' rhs ->
  ToString W lhs = dec_text (digits 10 (bval lhs)) /\
  Compare lhs rhs = sign_of (bval lhs ?= bval rhs) /\
  Big_eqb lhs rhs = (bval lhs =? bval rhs) /\ Big_neqb lhs rhs = negb (bval lhs =? bval rhs) /\
  Big_ltb lhs rhs = (bval lhs <? bval rhs) /\ Big_gtb lhs rhs = (bval lhs >? bval rhs) /\
  Big_leb lhs rhs = (bval lhs <=? bval rhs) /\ Big_geb lhs rhs = (bval lhs >=? bval rhs).
Proof.
  intros Hl Hr. unfold Big_neqb, Big_gtb, Big_leb, Big_geb.
  rewrite (Big_eqb_spec W W'), (Big_ltb_spec W W' lhs rhs), (Big_ltb_spec W' W rhs lhs) by assumption.
  rewrite (Compare_spec W W'), (ToString_spec W) by assumption.
  rewrite <- !Z.leb_antisym, Z.gtb_ltb, Z.geb_leb. repeat split.
Qed.

Lemma Big_ok_example : Big_ok 4 (of_uint64 4 7) /\ Big_ok 4 (of_uint64 4 5).
Proof. split; apply of_uint64_spec; try lia; split; reflexivity || discriminate. Qed.

Lemma multiply_correct_witness :
  scaled 4 (of_uint64 4 7) (MultiplyBySelf 4 (of_uint64 4 7)) 7.
Proof.
  apply (multiply_correct 4 4 (of_uint64 4 7) (of_uint64 4 5) 3 2); try apply Big_ok_example;
    try (split; reflexivity || discriminate); cbn; lia.
Defined.

Lemma FiveToTheNth_correct_witness :
  FiveToTheNth 4 81 = None /\ exists r, FiveToTheNth 84 600 = Some r /\ bval r = 5 ^ 600.
Proof.
  split.
  - apply (FiveToTheNth_correct 4 81); [lia|]. rewrite fits_4. lia.
  - destruct (proj1 (FiveToTheNth_correct 84 600 ltac:(lia)) (fits_84 600)) as (r & E & _ & V).
    exists r. split; [exact E|]. rewrite V. apply Z.mod_small. vm_compute. split; [discriminate|reflexivity].
Defined.
