(* ===== verification/ControlBytes.v ===== *)
(** [absl/container/internal/hashtable_control_bytes.h]: the control bytes of the Swiss table, the
    bit masks a probing group returns and the portable and SSE2 implementations of the group.

    A control byte [ctrl_t] is its [int8_t] value.  A group reads a window of [kWidth] control
    bytes; what the rest of the table relies on is the interface [GroupLaws], which both
    implementations discharge. *)
From Stdlib Require Import ZArith Lia List Bool.
From S2P Require Import Prelude Bits Endian.
Import ListNotations.
#[local] Open Scope Z_scope.
#[local] Open Scope mach_scope.

(** ** Bit masks *)
Definition kMsbs8Bytes : Z := 0x8080808080808080.
Definition k8EmptyBytes : Z := kMsbs8Bytes.

(** [T] is an unsigned type of [w] bits; the argument is not zero. *)
Definition TrailingZeros (w x : Z) : Z := wrapu 32 (countr_zero w x).

Module NonIterableBitMask.
Section Mask.
Context (w SignificantBits Shift : Z).

Definition to_bool (mask_ : Z) : bool := negb (mask_ =? 0).
Definition LowestBitSet (mask_ : Z) : Z := TrailingZeros w mask_ >> Shift.
Definition TrailingZeros (mask_ : Z) : Z := TrailingZeros w mask_ >> Shift.
Definition LeadingZeros (mask_ : Z) : Z :=
  let total_significant_bits := Z.shiftl SignificantBits Shift in
  let extra_bits := w - total_significant_bits in
  wrapu 32 (countl_zero w (mask_ <<[w] extra_bits)) >> Shift.

End Mask.
End NonIterableBitMask.

Module BitMask.
Section Mask.
Context (w SignificantBits Shift : Z) (NullifyBitsOnIteration : bool).

(** [operator++] *)
Definition incr (mask_ : Z) : Z :=
  let mask_ := if (Shift =? 3) && NullifyBitsOnIteration then mask_ .& kMsbs8Bytes else mask_ in
  mask_ .& (mask_ -[w] 1).

(** [operator*] *)
Definition deref (mask_ : Z) : Z := NonIterableBitMask.LowestBitSet w Shift mask_.

(** [for (uint32_t i : mask)]: from [begin()] until the mask equals [end()], which is zero. *)
Fixpoint iterate (fuel : nat) (mask_ : Z) : list Z :=
  match fuel with
  | O => []
  | S f => if mask_ =? 0 then [] else deref mask_ :: iterate f (incr mask_)
  end.

End Mask.
End BitMask.

(** ** Control bytes *)
Definition kEmpty : Z := -128.
Definition kDeleted : Z := -2.
Definition kSentinel : Z := -1.

Definition IsEmpty (c : Z) : bool := c =? kEmpty.
Definition IsFull (c : Z) : bool := c >=? 0.
Definition IsDeleted (c : Z) : bool := c =? kDeleted.
Definition IsEmptyOrDeleted (c : Z) : bool := c <? kSentinel.

(** ** The portable group: eight control bytes in a 64-bit word *)
Module GroupPortableImpl.

Definition kWidth : nat := 8.

(** The constructor; [host] is the byte order of the machine. *)
Definition load (host : endian) (pos : list Z) : Z := little_endian.Load host 8 (map (wrapu 8) pos).

Definition Match (ctrl hash : Z) : Z :=
  let lsbs := 0x0101010101010101 in
  let x := ctrl .^ (lsbs *[64] hash) in
  ((x -[64] lsbs) .& (~[64] x)) .& kMsbs8Bytes.

Definition MaskEmpty (ctrl : Z) : Z := (ctrl .& (~[64] (ctrl <<[64] 6))) .& kMsbs8Bytes.
Definition MaskFull (ctrl : Z) : Z := (ctrl .^ kMsbs8Bytes) .& kMsbs8Bytes.
Definition MaskNonFull (ctrl : Z) : Z := ctrl .& kMsbs8Bytes.
Definition MaskEmptyOrDeleted (ctrl : Z) : Z := (ctrl .& (~[64] (ctrl <<[64] 7))) .& kMsbs8Bytes.
Definition MaskFullOrSentinel (ctrl : Z) : Z := ((~[64] ctrl) .| (ctrl <<[64] 7)) .& kMsbs8Bytes.

(** The control bytes at [dst] after the store. *)
Definition ConvertSpecialToEmptyAndFullToDeleted (host : endian) (ctrl : Z) (dst : list Z) : list Z :=
  let lsbs := 0x0101010101010101 in
  let x := ctrl .& kMsbs8Bytes in
  let res := ((~[64] x) +[64] (x >> 7)) .& (~[64] lsbs) in
  map (wraps 8) (little_endian.Store host 8 (map (wrapu 8) dst) res).

End GroupPortableImpl.

(** ** The SSE2 group: sixteen signed lanes

    The intrinsics are lane-wise, as the reference guide in the header describes them. *)
Module Sse2.

Definition set1_epi8 (x : Z) : list Z := repeat x 16.
Definition map2 (f : Z -> Z -> Z) (a b : list Z) : list Z := map (fun p => f (fst p) (snd p)) (combine a b).
Definition and_si128 : list Z -> list Z -> list Z := map2 (fun x y => wraps 8 (Z.land x y)).
Definition lane_mask (b : bool) : Z := if b then -1 else 0.
Definition cmpeq_epi8 : list Z -> list Z -> list Z := map2 (fun x y => lane_mask (x =? y)).
Definition cmpgt_epi8 : list Z -> list Z -> list Z := map2 (fun x y => lane_mask (x >? y)).
(** Saturating subtraction. *)
Definition subs_epi8 : list Z -> list Z -> list Z := map2 (fun x y => Z.max (-128) (Z.min 127 (x - y))).
(** Retains, negates (wrapping) or zeroes each lane by the sign of the second operand. *)
Definition sign_epi8 : list Z -> list Z -> list Z :=
  map2 (fun x y => if y >? 0 then x else if y <? 0 then wraps 8 (- x) else 0).
(** The sign bits of the lanes. *)
Fixpoint movemask_epi8 (xmm : list Z) : Z :=
  match xmm with
  | [] => 0
  | x :: t => (if x <? 0 then 1 else 0) + 2 * movemask_epi8 t
  end.

End Sse2.

Module GroupSse2Impl.
Import Sse2.

Definition kWidth : nat := 16.

(** [unsigned_char]: GCC with [-funsigned-char], which takes the work-around. *)
Definition cmpgt_epi8_fixed (unsigned_char : bool) (a b : list Z) : list Z :=
  if unsigned_char then
    let mask := set1_epi8 (-128) in
    let diff := subs_epi8 b a in
    cmpeq_epi8 (and_si128 diff mask) mask
  else cmpgt_epi8 a b.

Definition load (pos : list Z) : list Z := firstn 16 pos.

Definition MoveMask (xmm : list Z) : Z := wrapu 32 (movemask_epi8 xmm).

Definition Match (ctrl : list Z) (hash : Z) : Z :=
  let match_ := set1_epi8 (wraps 8 hash) in
  MoveMask (cmpeq_epi8 match_ ctrl).

(** With and without SSSE3. *)
Definition MaskEmpty (ssse3 : bool) (ctrl : list Z) : Z :=
  if ssse3 then MoveMask (sign_epi8 ctrl ctrl)
  else let match_ := set1_epi8 kEmpty in MoveMask (cmpeq_epi8 match_ ctrl).

Definition MaskFull (ctrl : list Z) : Z := MoveMask ctrl .^ 0xffff.
Definition MaskNonFull (ctrl : list Z) : Z := MoveMask ctrl.

Definition MaskEmptyOrDeleted (unsigned_char : bool) (ctrl : list Z) : Z :=
  let special := set1_epi8 kSentinel in MoveMask (cmpgt_epi8_fixed unsigned_char special ctrl).

Definition MaskFullOrSentinel (unsigned_char : bool) (ctrl : list Z) : Z :=
  let special := set1_epi8 (kSentinel - 1) in MoveMask (cmpgt_epi8_fixed unsigned_char ctrl special).

Definition ConvertSpecialToEmptyAndFullToDeleted (ctrl dst : list Z) : list Z :=
  let msbs := set1_epi8 (-128) in
  let twos := set1_epi8 2 in
  let res := subs_epi8 (and_si128 msbs ctrl) twos in
  res ++ skipn 16 dst.

End GroupSse2Impl.

(** ** Abstract bits: a mask that encodes one boolean every [st] bits, in the top bit of its field *)
Fixpoint enc (st : Z) (bs : list bool) : Z :=
  match bs with
  | [] => 0
  | b :: t => (if b then 2 ^ (st - 1) else 0) + 2 ^ st * enc st t
  end.

(** Indices of the set abstract bits, from [k]. *)
Fixpoint trues (k : Z) (bs : list bool) : list Z :=
  match bs with
  | [] => []
  | b :: t => if b then k :: trues (k + 1) t else trues (k + 1) t
  end.

Fixpoint first_true (bs : list bool) : Z :=
  match bs with
  | [] => 0
  | b :: t => if b then 0 else 1 + first_true t
  end.

Lemma pow_stride st : 0 < st -> 2 ^ st = 2 * 2 ^ (st - 1) /\ 0 < 2 ^ (st - 1).
Proof.
  intros H. rewrite <- Z.pow_succ_r by lia. split; [f_equal; lia|apply pow2_pos; lia].
Qed.

Lemma enc_range st bs : 0 < st -> 0 <= enc st bs < 2 ^ (st * Z.of_nat (length bs)).
Proof.
  intros Hs. induction bs as [|b bs IH]; cbn [enc length]; [change (Z.of_nat 0) with 0; rewrite Z.mul_0_r; lia|].
  destruct (pow_stride st Hs). rewrite Nat2Z.inj_succ, <- Z.add_1_r, Z.mul_add_distr_l, Z.mul_1_r.
  rewrite Z.pow_add_r by nia. destruct b; nia.
Qed.

Lemma enc_falses st k bs : 0 < st -> enc st (repeat false k ++ bs) = 2 ^ (st * Z.of_nat k) * enc st bs.
Proof.
  intros Hs. induction k as [|k IH]; cbn [repeat app enc];
    [change (Z.of_nat 0) with 0; rewrite Z.mul_0_r; lia|].
  replace (st * Z.of_nat (S k)) with (st * Z.of_nat k + st) by lia.
  rewrite IH, Z.pow_add_r by (try apply Z.mul_nonneg_nonneg; lia). ring.
Qed.

(** The lowest abstract bit as an odd part. *)
Lemma enc_lowest st k bs : 0 < st ->
  enc st (repeat false k ++ true :: bs) = 2 ^ (st * Z.of_nat k + (st - 1)) * (2 * enc st bs + 1).
Proof.
  intros Hs. rewrite enc_falses, Z.pow_add_r by nia. cbn [enc]. destruct (pow_stride st Hs) as [E _].
  rewrite E. ring.
Qed.

Lemma land_pred t m : 0 <= t ->
  Z.land (2 ^ t * (2 * m + 1)) (2 ^ t * (2 * m + 1) - 1) = 2 ^ t * (2 * m).
Proof.
  intros Ht. apply Z.bits_inj'. intros i Hi.
  rewrite Z.land_spec, odd_part_bits, odd_part_pred_bits by lia.
  rewrite (Z.mul_comm (2 ^ t) (2 * m)), Z.mul_pow2_bits by lia.
  destruct (i <? t) eqn:E; zbool; [rewrite Z.testbit_neg_r by lia; reflexivity|].
  destruct (Z.eq_dec i t) as [->|Hne].
  - now rewrite Z.sub_diag, Z.testbit_odd_0, Z.testbit_even_0.
  - replace (i - t) with (Z.succ (i - t - 1)) by lia.
    rewrite Z.testbit_odd_succ, Z.testbit_even_succ by lia. apply andb_diag.
Qed.

Lemma bools_split bs : bs = repeat false (length bs) \/
  exists k t, bs = repeat false k ++ true :: t /\ first_true bs = Z.of_nat k.
Proof.
  induction bs as [|b bs IH]; [now left|]. destruct b.
  - right. exists 0%nat, bs. auto.
  - destruct IH as [E|(k & t & E & F)].
    + left. cbn [length repeat]. now rewrite <- E.
    + right. exists (S k), t. cbn [repeat app first_true]. rewrite <- E, F. split; [reflexivity|lia].
Qed.

(** ** What the mask operations say of the encoded booleans *)
Section Masks.
Context (w n Shift : Z) (Hw : std_width w) (HS : Shift = 0 \/ Shift = 3) (Hn : Z.shiftl n Shift <= w)
  (Hn0 : 0 <= n).
Abbreviation st := (2 ^ Shift).

Lemma stride_pos : 0 < st.
Proof. destruct HS as [-> | ->]; reflexivity. Qed.

Lemma width_small : 0 < w <= 64.
Proof. destruct Hw as [-> | [-> | [-> | ->]]]; lia. Qed.

Lemma enc_in bs : Z.of_nat (length bs) <= n -> in_u w (enc st bs).
Proof.
  intros HL. pose proof stride_pos. pose proof (enc_range st bs ltac:(lia)) as R.
  rewrite Z.shiftl_mul_pow2 in Hn by (destruct HS; lia). unfold in_u. split; [lia|].
  apply Z.lt_le_trans with (1 := proj2 R). apply Z.pow_le_mono_r; [lia|nia].
Qed.

Lemma stride_index k : 0 <= k -> (st * k + (st - 1)) >> Shift = k.
Proof.
  intros Hk. rewrite Z.shiftr_div_pow2 by (destruct HS; lia). pose proof stride_pos.
  symmetry. apply (Z.div_unique_pos _ _ _ (st - 1)); lia.
Qed.

Lemma TrailingZeros_enc bs k t :
  Z.of_nat (length bs) <= n -> bs = repeat false k ++ true :: t ->
  TrailingZeros w (enc st bs) = st * Z.of_nat k + (st - 1).
Proof.
  intros HL E. pose proof (enc_in bs HL) as R. pose proof stride_pos.
  assert (P : 0 <= st * Z.of_nat k) by (apply Z.mul_nonneg_nonneg; lia).
  rewrite E, enc_lowest in * by lia. unfold TrailingZeros, countr_zero.
  pose proof (enc_range st t ltac:(lia)).
  pose proof (odd_part_lt w (st * Z.of_nat k + (st - 1)) (enc st t) ltac:(pose proof width_small; lia)
    ltac:(lia) ltac:(lia) R) as B. rewrite CountTrailingZeroes_odd_part by (assumption || lia).
  apply wrapu_small. pose proof width_small. change (2 ^ 32) with 4294967296. lia.
Qed.

(** Some abstract bit is set. *)
Lemma to_bool_enc bs : NonIterableBitMask.to_bool (enc st bs) = existsb (fun b => b) bs.
Proof.
  pose proof stride_pos. unfold NonIterableBitMask.to_bool.
  induction bs as [|b bs IH]; cbn [enc existsb]; [reflexivity|].
  destruct (pow_stride st ltac:(lia)). pose proof (enc_range st bs ltac:(lia)).
  destruct b; cbn [orb]; [|rewrite <- IH].
  - apply negb_true_iff, Z.eqb_neq. nia.
  - f_equal. apply eq_true_iff_eq. rewrite !Z.eqb_eq. nia.
Qed.

Lemma LowestBitSet_enc bs :
  Z.of_nat (length bs) <= n -> existsb (fun b => b) bs = true ->
  NonIterableBitMask.LowestBitSet w Shift (enc st bs) = first_true bs.
Proof.
  intros HL Hex. destruct (bools_split bs) as [E|(k & t & E & F)].
  - rewrite E in Hex. exfalso. clear - Hex. induction (length bs); [discriminate|auto].
  - unfold NonIterableBitMask.LowestBitSet. rewrite (TrailingZeros_enc bs k t HL E), F.
    apply stride_index. lia.
Qed.

Lemma incr_enc nullify k t :
  nullify = false -> Z.of_nat (k + S (length t)) <= n ->
  BitMask.incr w Shift nullify (enc st (repeat false k ++ true :: t))
  = enc st (repeat false (S k) ++ t).
Proof.
  intros -> HL. pose proof stride_pos. unfold BitMask.incr. rewrite andb_false_r.
  pose proof (enc_in (repeat false k ++ true :: t)
    ltac:(rewrite length_app, repeat_length; cbn [length]; lia)) as R.
  assert (P : 0 <= st * Z.of_nat k) by (apply Z.mul_nonneg_nonneg; lia).
  rewrite enc_lowest, enc_falses in * by lia. pose proof (enc_range st t ltac:(lia)).
  set (T := st * Z.of_nat k + (st - 1)) in *. pose proof (pow2_pos T ltac:(lia)).
  rewrite wrapu_small by (unfold in_u in R; nia). rewrite land_pred by lia.
  replace (st * Z.of_nat (S k)) with (T + 1) by (unfold T; lia). rewrite Z.pow_add_r by lia. lia.
Qed.

(** Iterating visits the set abstract bits in increasing order. *)
Lemma iterate_enc bs :
  Z.of_nat (length bs) <= n ->
  BitMask.iterate w Shift false (S (length bs)) (enc st bs) = trues 0 bs.
Proof.
  intros HL. change bs with (repeat false 0 ++ bs) at 2. change 0 with (Z.of_nat 0) at 1.
  assert (HL' : Z.of_nat (0 + length bs) <= n) by exact HL. clear HL. revert HL'.
  generalize 0%nat as k. generalize (le_n (length bs)). generalize (length bs) at 2 4 as fuel.
  induction bs as [|b bs IH]; intros fuel Hf k HL; cbn [length trues] in *.
  - cbn [BitMask.iterate]. rewrite enc_falses by apply stride_pos. cbn [enc]. now rewrite Z.mul_0_r.
  - destruct b.
    + cbn [BitMask.iterate]. destruct fuel as [|fuel]; [lia|].
      rewrite (incr_enc false k bs eq_refl HL).
      assert (EZ : (enc st (repeat false k ++ true :: bs) =? 0) = false).
      { apply Z.eqb_neq. pose proof (to_bool_enc (repeat false k ++ true :: bs)) as B.
        unfold NonIterableBitMask.to_bool in B. rewrite existsb_app in B. cbn [existsb orb] in B.
        rewrite orb_true_r in B. apply negb_true_iff, Z.eqb_neq in B. exact B. }
      rewrite EZ. f_equal.
      * unfold BitMask.deref, NonIterableBitMask.LowestBitSet.
        rewrite (TrailingZeros_enc _ k bs) by (auto; rewrite length_app, repeat_length; cbn [length]; lia).
        apply stride_index. lia.
      * rewrite (IH fuel) by lia. f_equal. lia.
    + replace (repeat false k ++ false :: bs) with (repeat false (S k) ++ bs)
        by (cbn [repeat]; rewrite repeat_cons, <- app_assoc; reflexivity).
      rewrite (IH fuel) by lia. f_equal. lia.
Qed.

Lemma enc_app bs cs : enc st (bs ++ cs) = enc st bs + 2 ^ (st * Z.of_nat (length bs)) * enc st cs.
Proof.
  pose proof stride_pos. induction bs as [|b bs IH]; cbn [enc app length].
  - change (Z.of_nat 0) with 0. rewrite Z.mul_0_r. lia.
  - replace (st * Z.of_nat (S (length bs))) with (st + st * Z.of_nat (length bs)) by lia.
    rewrite IH, Z.pow_add_r by (try apply Z.mul_nonneg_nonneg; lia). ring.
Qed.

(** The abstract bits above the highest set one. *)
Lemma LeadingZeros_enc bs :
  Z.of_nat (length bs) = n -> existsb (fun b => b) bs = true ->
  NonIterableBitMask.LeadingZeros w n Shift (enc st bs) = first_true (rev bs).
Proof.
  intros HL Hex. pose proof stride_pos. pose proof width_small as WS.
  destruct (bools_split (rev bs)) as [E|(k & t & E & F)].
  { apply (f_equal (@rev bool)) in E. rewrite rev_involutive, rev_repeat in E. rewrite E in Hex.
    exfalso. clear - Hex. induction (length (rev bs)); [discriminate|auto]. }
  apply (f_equal (@rev bool)) in E. rewrite rev_involutive, rev_app_distr, rev_repeat in E.
  cbn [rev] in E. rewrite <- app_assoc in E. cbn [app] in E.
  assert (ES : Z.shiftl n Shift = st * n) by (rewrite Z.shiftl_mul_pow2 by (destruct HS; lia); lia).
  pose proof Hn as Hn'. rewrite ES in Hn'. unfold NonIterableBitMask.LeadingZeros. cbv zeta. rewrite ES.
  set (j := length (rev t)) in *.
  assert (EN : n = Z.of_nat j + 1 + Z.of_nat k).
  { rewrite <- HL, E, length_app. cbn [length]. rewrite repeat_length. unfold j. lia. }
  assert (L2 : Z.log2 (enc st bs) = st * Z.of_nat j + (st - 1)).
  { rewrite E, enc_app. fold j. change (true :: repeat false k) with (repeat false 0 ++ true :: repeat false k).
    rewrite enc_lowest by lia. change (Z.of_nat 0) with 0. rewrite Z.mul_0_r, Z.add_0_l.
    replace (repeat false k) with (repeat false k ++ []) by apply app_nil_r.
    rewrite enc_falses by lia. cbn [enc]. pose proof (enc_range st (rev t) ltac:(lia)) as R. fold j in R.
    assert (0 <= st * Z.of_nat j) by (apply Z.mul_nonneg_nonneg; lia).
    destruct (pow_stride st ltac:(lia)) as [P1 P2].
    apply Z.log2_unique; [lia|]. rewrite Z.pow_succ_r, Z.pow_add_r by lia.
    pose proof (pow2_pos (st * Z.of_nat j) ltac:(lia)). nia. }
  pose proof (enc_in bs ltac:(lia)) as R. pose proof (enc_range st bs ltac:(lia)) as R'. rewrite HL in R'.
  assert (Pos : 0 < enc st bs).
  { pose proof (to_bool_enc bs) as B. rewrite Hex in B. unfold NonIterableBitMask.to_bool in B.
    apply negb_true_iff, Z.eqb_neq in B. lia. }
  rewrite Z.shiftl_mul_pow2 by lia.
  assert (IN : in_u w (enc st bs * 2 ^ (w - st * n))).
  { split; [nia|]. replace w with (st * n + (w - st * n)) at 2 by lia.
    rewrite Z.pow_add_r by nia. pose proof (pow2_pos (w - st * n) ltac:(lia)). nia. }
  rewrite (wrapu_small w) by exact IN. rewrite countl_zero_bitlen by assumption.
  unfold bitlen. rewrite (proj2 (Z.eqb_neq _ 0)) by (pose proof (pow2_pos (w - st * n) ltac:(lia)); nia).
  rewrite Z.log2_mul_pow2, L2 by lia.
  replace (w - _) with (st * Z.of_nat k) by (rewrite EN; ring).
  assert (st * Z.of_nat k <= 64) by (rewrite EN in Hn'; nia).
  rewrite wrapu_small by (change (2 ^ 32) with 4294967296; nia).
  rewrite F, Z.shiftr_div_pow2, Z.mul_comm, Z.div_mul by (destruct HS; lia). reflexivity.
Qed.

End Masks.

(** ** Words of eight bytes *)
Lemma testbit_le_val bs i j :
  Forall (in_u 8) bs -> 0 <= j < 8 ->
  Z.testbit (le_val bs) (8 * Z.of_nat i + j) = Z.testbit (nth i bs 0) j.
Proof.
  intros F Hj. revert i. induction F as [|b bs Hb F IH]; intros i; cbn [le_val].
  - destruct i; now rewrite !Z.bits_0.
  - change 256 with (2 ^ 8). rewrite testbit_lohi by (assumption || lia). destruct i as [|i]; cbn [nth].
    + replace (8 * Z.of_nat 0 + j) with j by lia. now rewrite (proj2 (Z.ltb_lt j 8)) by lia.
    + rewrite (proj2 (Z.ltb_ge (8 * Z.of_nat (S i) + j) 8)) by lia. rewrite <- IH. f_equal. lia.
Qed.

Lemma le_val_lxor a b :
  Forall (in_u 8) a -> Forall (in_u 8) b -> length a = length b ->
  Z.lxor (le_val a) (le_val b) = le_val (map (fun p => Z.lxor (fst p) (snd p)) (combine a b)).
Proof.
  intros Fa. revert b. induction Fa as [|x a Hx Fa IH]; intros b Fb HL; destruct b as [|y b];
    try discriminate; [reflexivity|]. inversion Fb as [|? ? Hy Fb']; subst.
  cbn [combine map le_val fst snd]. rewrite <- IH by (auto; cbn in HL; lia). change 256 with (2 ^ 8).
  apply Z.bits_inj'. intros i Hi.
  rewrite Z.lxor_spec, !testbit_lohi by (try apply in_u_lxor; auto; lia).
  destruct (i <? 8); now rewrite Z.lxor_spec.
Qed.

Lemma load_le_val host bs :
  Forall (in_u 8) bs -> length bs = 8%nat -> little_endian.Load host 8 bs = le_val bs.
Proof.
  intros F HL. unfold little_endian.Load. rewrite firstn_all2 by lia.
  destruct host; cbn [little_endian.ToHost UNALIGNED_LOAD]; [reflexivity|].
  pose proof (le_val_range bs F) as R. rewrite HL in R.
  assert (R' : in_u (8 * Z.of_nat 8) (le_val (rev bs))).
  { pose proof (le_val_range (rev bs) (Forall_rev F)) as R'. now rewrite length_rev, HL in R'. }
  assert (S8 : std_bytes 8) by (unfold std_bytes; lia).
  apply (le_bytes_inj 8); [now apply gbswap_range|exact R|].
  rewrite gbswap_bytes by exact S8.
  rewrite <- HL, le_bytes_val by exact F. rewrite <- (length_rev bs).
  rewrite le_bytes_val by (now apply Forall_rev). apply rev_involutive.
Qed.

Lemma kMsbs8Bytes_testbit i j : 0 <= j < 8 -> (i < 8)%nat ->
  Z.testbit kMsbs8Bytes (8 * Z.of_nat i + j) = (j =? 7).
Proof.
  intros Hj Hi. change kMsbs8Bytes with (le_val (repeat 128 8)).
  rewrite testbit_le_val by (try lia; apply Forall_forall; intros x Hx%repeat_spec; subst; split; reflexivity || discriminate).
  rewrite nth_repeat_lt by exact Hi.
  change 128 with (2 ^ 7). rewrite Z.pow2_bits_eqb by lia. apply Z.eqb_sym.
Qed.

Lemma enc8_testbit bs i j : 0 <= j < 8 ->
  Z.testbit (enc 8 bs) (8 * Z.of_nat i + j) = (j =? 7) && nth i bs false.
Proof.
  intros Hj.
  assert (E : enc 8 bs = le_val (map (fun b : bool => if b then 128 else 0) bs)).
  { induction bs as [|b bs IH]; cbn [enc map le_val]; [reflexivity|]. rewrite IH. reflexivity. }
  rewrite E, testbit_le_val; [|apply Forall_forall; intros x Hx%in_map_iff; destruct Hx as ([|] & <- & _);
    split; reflexivity || discriminate|lia].
  change 0 with ((fun b : bool => if b then 128 else 0) false). rewrite map_nth.
  destruct (nth i bs false); [|now rewrite Z.bits_0, andb_false_r].
  change 128 with (2 ^ 7). rewrite Z.pow2_bits_eqb, andb_true_r by lia. apply Z.eqb_sym.
Qed.

(** Masking a word with the top bits of its bytes. *)
Lemma mask_msbs X bs :
  length bs = 8%nat ->
  (forall i, (i < 8)%nat -> Z.testbit X (8 * Z.of_nat i + 7) = nth i bs false) ->
  X .& kMsbs8Bytes = enc 8 bs.
Proof.
  intros HL H. apply Z.bits_inj'. intros q Hq.
  assert (Eq : exists i j, q = 8 * Z.of_nat i + j /\ 0 <= j < 8).
  { exists (Z.to_nat (q / 8)), (q mod 8). zlia. }
  destruct Eq as (i & j & -> & Hj). rewrite Z.land_spec, enc8_testbit by exact Hj.
  destruct (Nat.lt_ge_cases i 8) as [Hi|Hi].
  - rewrite kMsbs8Bytes_testbit by assumption. destruct (j =? 7) eqn:E; zbool.
    + subst j. rewrite H by exact Hi. apply andb_true_r.
    + apply andb_false_r.
  - rewrite (nth_overflow bs) by lia. rewrite andb_false_r.
    rewrite (testbit_above 64 kMsbs8Bytes); [apply andb_false_r|split; [discriminate|reflexivity]|lia].
Qed.

(** ** The interface of a probing group *)
Record GroupOps := mk_GroupOps {
  gWidth : nat;
  gBits : Z;      (** bits of the mask type *)
  gShift : Z;
  gMatch : list Z -> Z -> Z;
  gMaskEmpty : list Z -> Z;
  gMaskFull : list Z -> Z;
  gMaskNonFull : list Z -> Z;
  gMaskEmptyOrDeleted : list Z -> Z;
  gMaskFullOrSentinel : list Z -> Z;
  gConvert : list Z -> list Z -> list Z
}.

(** Control bytes that a table holds. *)
Definition valid_ctrl (c : Z) : Prop := 0 <= c < 128 \/ c = kEmpty \/ c = kDeleted \/ c = kSentinel.

Definition window (n : nat) (win : list Z) : Prop := length win = n /\ Forall valid_ctrl win.

Definition IsFullOrSentinel (c : Z) : bool := IsFull c || (c =? kSentinel).

(** [bs] reports every byte equal to [h], only full bytes, and a real match first. *)
Definition match_report (win : list Z) (h : Z) (bs : list bool) : Prop :=
  (forall i, (i < length win)%nat -> nth i win 0 = h -> nth i bs false = true) /\
  (forall i, nth i bs false = true -> IsFull (nth i win 0) = true) /\
  (forall i, nth i bs false = true -> (forall j, (j < i)%nat -> nth j bs false = false) -> nth i win 0 = h).

Class GroupLaws (G : GroupOps) : Prop := {
  law_bits : std_width (gBits G);
  law_shift : gShift G = 0 \/ gShift G = 3;
  law_fits : Z.shiftl (Z.of_nat (gWidth G)) (gShift G) <= gBits G;
  law_match win h : window (gWidth G) win -> 0 <= h < 128 ->
    exists bs, gMatch G win h = enc (2 ^ gShift G) bs /\ length bs = gWidth G /\ match_report win h bs;
  law_empty win : window (gWidth G) win -> gMaskEmpty G win = enc (2 ^ gShift G) (map IsEmpty win);
  law_full win : window (gWidth G) win -> gMaskFull G win = enc (2 ^ gShift G) (map IsFull win);
  law_nonfull win : window (gWidth G) win ->
    gMaskNonFull G win = enc (2 ^ gShift G) (map (fun c => negb (IsFull c)) win);
  law_empty_or_deleted win : window (gWidth G) win ->
    gMaskEmptyOrDeleted G win = enc (2 ^ gShift G) (map IsEmptyOrDeleted win);
  law_full_or_sentinel win : window (gWidth G) win ->
    gMaskFullOrSentinel G win = enc (2 ^ gShift G) (map IsFullOrSentinel win);
  law_convert win dst : window (gWidth G) win -> Forall valid_ctrl dst ->
    gConvert G win dst = map (fun c => if IsFull c then kDeleted else kEmpty) win ++ skipn (gWidth G) dst
}.

(** ** The portable implementation *)
Definition portable_group (host : endian) : GroupOps := {|
  gWidth := GroupPortableImpl.kWidth; gBits := 64; gShift := 3;
  gMatch win h := GroupPortableImpl.Match (GroupPortableImpl.load host win) h;
  gMaskEmpty win := GroupPortableImpl.MaskEmpty (GroupPortableImpl.load host win);
  gMaskFull win := GroupPortableImpl.MaskFull (GroupPortableImpl.load host win);
  gMaskNonFull win := GroupPortableImpl.MaskNonFull (GroupPortableImpl.load host win);
  gMaskEmptyOrDeleted win := GroupPortableImpl.MaskEmptyOrDeleted (GroupPortableImpl.load host win);
  gMaskFullOrSentinel win := GroupPortableImpl.MaskFullOrSentinel (GroupPortableImpl.load host win);
  gConvert win dst :=
    GroupPortableImpl.ConvertSpecialToEmptyAndFullToDeleted host (GroupPortableImpl.load host win) dst
|}.

Lemma bytes_forall win : Forall (in_u 8) (map (wrapu 8) win).
Proof. apply Forall_forall. intros x Hx%in_map_iff. destruct Hx as (y & <- & _). apply wrapu_range. lia. Qed.

Lemma portable_load host win :
  length win = 8%nat -> GroupPortableImpl.load host win = le_val (map (wrapu 8) win).
Proof. intros HL. apply load_le_val; [apply bytes_forall|now rewrite length_map]. Qed.

(** A property of control bytes that holds of all valid ones. *)
Lemma valid_ctrl_check (p : Z -> bool) :
  forallb p (kEmpty :: kDeleted :: kSentinel :: map Z.of_nat (seq 0 128)) = true ->
  forall c, valid_ctrl c -> p c = true.
Proof.
  intros H c Hc. rewrite forallb_forall in H. apply H. destruct Hc as [Hc|[-> | [-> | ->]]]; cbn [In]; auto.
  do 3 right. apply in_map_iff. exists (Z.to_nat c). split; [lia|]. apply in_seq. lia.
Qed.

(** A mask whose bits depend on the bits of one control byte each. *)
Lemma portable_mask win X (p q : Z -> bool) :
  window 8 win ->
  (forall i, (i < 8)%nat -> Z.testbit X (8 * Z.of_nat i + 7) = p (wrapu 8 (nth i win 0))) ->
  (forall c, valid_ctrl c -> Bool.eqb (p (wrapu 8 c)) (q c) = true) ->
  X .& kMsbs8Bytes = enc (2 ^ 3) (map q win).
Proof.
  intros [HL F] H Hpq. apply mask_msbs; [now rewrite length_map|]. intros i Hi. rewrite H by exact Hi.
  rewrite (nth_indep _ _ (q 0)) by (rewrite length_map; lia). rewrite map_nth.
  apply eqb_prop, Hpq. rewrite Forall_forall in F. apply F, nth_In. lia.
Qed.

Lemma byte_bit win i j :
  0 <= j < 8 -> (i < length win)%nat ->
  Z.testbit (le_val (map (wrapu 8) win)) (8 * Z.of_nat i + j) = Z.testbit (wrapu 8 (nth i win 0)) j.
Proof.
  intros Hj Hi. rewrite testbit_le_val by (try apply bytes_forall; lia).
  now rewrite (nth_indep _ _ (wrapu 8 0)), map_nth by (rewrite length_map; lia).
Qed.

(** Bit [7] of byte [i] after a left shift by [s] is bit [7 - s] of the byte. *)
Lemma byte_bit_shl win i s :
  0 <= s < 8 -> (i < 8)%nat -> length win = 8%nat ->
  Z.testbit (le_val (map (wrapu 8) win) <<[64] s) (8 * Z.of_nat i + 7)
  = Z.testbit (wrapu 8 (nth i win 0)) (7 - s).
Proof.
  intros Hs Hi HL. rewrite wrapu_testbit by lia. rewrite (proj2 (Z.ltb_lt _ 64)) by lia.
  rewrite Z.shiftl_spec by lia. cbn [andb]. rewrite <- byte_bit by lia. f_equal. lia.
Qed.

Lemma not_bit x q : 0 <= q < 64 -> Z.testbit (~[64] x) q = negb (Z.testbit x q).
Proof.
  intros Hq. rewrite wrapu_testbit, Z.lnot_spec by lia. now rewrite (proj2 (Z.ltb_lt q 64)) by lia.
Qed.

Section PortableMasks.
Context (host : endian) (win : list Z) (Hwin : window 8 win).

Local Ltac by_bytes p :=
  apply (portable_mask win _ p); [exact Hwin| |apply valid_ctrl_check; vm_compute; reflexivity];
  intros i Hi; destruct Hwin as [HL F].

Lemma portable_empty : gMaskEmpty (portable_group host) win = enc (2 ^ 3) (map IsEmpty win).
Proof.
  cbn [gMaskEmpty portable_group]. rewrite portable_load by apply Hwin.
  by_bytes (fun b => Z.testbit b 7 && negb (Z.testbit b 1)).
  rewrite Z.land_spec, not_bit, byte_bit_shl, byte_bit by lia. reflexivity.
Qed.

Lemma portable_full : gMaskFull (portable_group host) win = enc (2 ^ 3) (map IsFull win).
Proof.
  cbn [gMaskFull portable_group]. rewrite portable_load by apply Hwin.
  by_bytes (fun b => xorb (Z.testbit b 7) true).
  rewrite Z.lxor_spec, byte_bit, kMsbs8Bytes_testbit by lia. reflexivity.
Qed.

Lemma portable_nonfull :
  gMaskNonFull (portable_group host) win = enc (2 ^ 3) (map (fun c => negb (IsFull c)) win).
Proof.
  cbn [gMaskNonFull portable_group]. rewrite portable_load by apply Hwin.
  by_bytes (fun b => Z.testbit b 7). now rewrite byte_bit by lia.
Qed.

Lemma portable_empty_or_deleted :
  gMaskEmptyOrDeleted (portable_group host) win = enc (2 ^ 3) (map IsEmptyOrDeleted win).
Proof.
  cbn [gMaskEmptyOrDeleted portable_group]. rewrite portable_load by apply Hwin.
  by_bytes (fun b => Z.testbit b 7 && negb (Z.testbit b 0)).
  rewrite Z.land_spec, not_bit, byte_bit_shl, byte_bit by lia. reflexivity.
Qed.

Lemma portable_full_or_sentinel :
  gMaskFullOrSentinel (portable_group host) win = enc (2 ^ 3) (map IsFullOrSentinel win).
Proof.
  cbn [gMaskFullOrSentinel portable_group]. rewrite portable_load by apply Hwin.
  by_bytes (fun b => negb (Z.testbit b 7) || Z.testbit b 0).
  rewrite Z.lor_spec, not_bit, byte_bit_shl, byte_bit by lia. reflexivity.
Qed.

End PortableMasks.

(** Conversion: every byte of the word is decided by its top bit. *)
Lemma convert_word bs :
  length bs = 8%nat ->
  ((~[64] (enc 8 bs)) +[64] (enc 8 bs >> 7)) .& (~[64] 0x0101010101010101)
  = le_val (map (fun b : bool => if b then 128 else 254) bs).
Proof.
  intros HL. do 8 (destruct bs as [|[|] bs]; [discriminate| |]); destruct bs; try discriminate;
    vm_compute; reflexivity.
Qed.

Lemma ctrl_bytes dst : Forall valid_ctrl dst -> map (wraps 8) (map (wrapu 8) dst) = dst.
Proof.
  intros F. rewrite map_map. transitivity (map (fun c => c) dst); [|apply map_id]. apply map_ext_in. intros c Hc.
  rewrite Forall_forall in F. specialize (F c Hc). rewrite wraps_of_wrapu by lia.
  apply wraps_small; [lia|]. unfold in_s. cbn. unfold valid_ctrl, kEmpty, kDeleted, kSentinel in F. lia.
Qed.

Lemma portable_convert host win dst :
  window 8 win -> Forall valid_ctrl dst ->
  gConvert (portable_group host) win dst
  = map (fun c => if IsFull c then kDeleted else kEmpty) win ++ skipn 8 dst.
Proof.
  intros Hwin Fd. pose proof (portable_nonfull host win Hwin) as N. destruct Hwin as [HL F].
  cbn [gConvert gMaskNonFull portable_group] in *.
  unfold GroupPortableImpl.ConvertSpecialToEmptyAndFullToDeleted. fold (GroupPortableImpl.MaskNonFull
    (GroupPortableImpl.load host win)). rewrite N. change (2 ^ 3) with 8.
  rewrite convert_word by now rewrite length_map.
  unfold little_endian.Store. rewrite Store_bytes_little by (unfold std_bytes; lia).
  rewrite map_map. set (l := map _ win).
  assert (LL : length l = 8%nat) by (unfold l; now rewrite length_map).
  rewrite <- LL at 1. rewrite le_bytes_val.
  2: { apply Forall_forall. intros x Hx%in_map_iff. destruct Hx as (c & <- & _).
       destruct (negb (IsFull c)); split; reflexivity || discriminate. }
  rewrite map_app, <- skipn_map, ctrl_bytes by exact Fd. f_equal.
  unfold l. rewrite map_map. apply map_ext. intros c. destruct (IsFull c); reflexivity.
Qed.

(** Matching: subtracting one from every byte of [x] borrows exactly through the bytes it reports. *)
Fixpoint match_bits (borrow : Z) (xs : list Z) : list bool :=
  match xs with
  | [] => []
  | x :: t => (x <=? borrow) :: match_bits (if x <=? borrow then 1 else 0) t
  end.

Fixpoint sub_bytes (borrow : Z) (xs : list Z) : list Z :=
  match xs with
  | [] => []
  | x :: t => (x - 1 - borrow) mod 256 :: sub_bytes (if x <=? borrow then 1 else 0) t
  end.

Lemma sub_bytes_spec borrow xs :
  Forall (in_u 8) xs -> 0 <= borrow <= 1 ->
  length (sub_bytes borrow xs) = length xs /\ Forall (in_u 8) (sub_bytes borrow xs) /\
  (exists q, le_val xs - rep_byte (length xs) 1 - borrow
             = le_val (sub_bytes borrow xs) + q * 2 ^ (8 * Z.of_nat (length xs))) /\
  (forall i, (i < length xs)%nat ->
     Z.testbit (nth i (sub_bytes borrow xs) 0) 7 && negb (Z.testbit (nth i xs 0) 7)
     = nth i (match_bits borrow xs) false).
Proof.
  intros F. revert borrow. induction F as [|x xs Hx F IH]; intros b Hb; cbn [sub_bytes match_bits length].
  - repeat split; auto; [|intros; lia]. exists (- b). unfold rep_byte. cbn. lia.
  - destruct (IH (if x <=? b then 1 else 0)) as (I1 & I2 & (q & I3) & I4); [destruct (x <=? b); lia|].
    unfold in_u in Hx. change (2 ^ 8) with 256 in Hx.
    assert (Hy : in_u 8 ((x - 1 - b) mod 256)) by (unfold in_u; change (2 ^ 8) with 256; zlia).
    split; [congruence|]. split; [now constructor|]. split.
    + exists q. unfold rep_byte in *. cbn [repeat le_val].
      replace (8 * Z.of_nat (S (length xs))) with (8 + 8 * Z.of_nat (length xs)) by lia.
      rewrite Z.pow_add_r by lia. change (2 ^ 8) with 256.
      assert (E : x - 1 - b = (x - 1 - b) mod 256 - 256 * (if x <=? b then 1 else 0)).
      { destruct (x <=? b) eqn:E; zlia. }
      lia.
    + intros [|i] Hi; cbn [nth]; [|apply I4; cbn in Hi; lia].
      assert (T : forall y, 0 <= y < 256 -> Z.testbit y 7 = (128 <=? y)).
      { intros y Hy'. apply eqb_prop.
        apply (forallb_below_spec 256 (fun y => Bool.eqb (Z.testbit y 7) (128 <=? y)));
          [vm_compute; reflexivity|exact Hy']. }
      rewrite !T by (exact Hx || exact Hy). destruct (x <=? b) eqn:E.
      * destruct (128 <=? (x - 1 - b) mod 256) eqn:E1, (128 <=? x) eqn:E2; try reflexivity; zlia.
      * destruct (128 <=? (x - 1 - b) mod 256) eqn:E1, (128 <=? x) eqn:E2; try reflexivity; zlia.
Qed.

Lemma match_bits_length b xs : length (match_bits b xs) = length xs.
Proof. revert b. induction xs; intros; cbn; auto. Qed.

Lemma match_bits_spec b xs :
  0 <= b <= 1 -> Forall (in_u 8) xs ->
  (forall i, (i < length xs)%nat -> nth i xs 0 = 0 -> nth i (match_bits b xs) false = true) /\
  (forall i, nth i (match_bits b xs) false = true -> (i < length xs)%nat /\ nth i xs 0 <= 1) /\
  (b = 0 -> forall i, nth i (match_bits b xs) false = true ->
     (forall j, (j < i)%nat -> nth j (match_bits b xs) false = false) -> nth i xs 0 = 0).
Proof.
  intros Hb F. revert b Hb. induction F as [|x xs Hx F IH]; intros b Hb; cbn [match_bits length nth].
  - repeat split; intros; try lia; destruct i; discriminate.
  - destruct (IH (if x <=? b then 1 else 0)) as (I1 & I2 & I3); [destruct (x <=? b); lia|].
    unfold in_u in Hx. split; [|split].
    + intros [|i] Hi E; [apply Z.leb_le; lia|apply I1; [cbn in Hi; lia|exact E]].
    + intros [|i] E; [zbool; lia|]. destruct (I2 i E). split; [lia|assumption].
    + intros -> [|i] E Hj; [zbool; lia|].
      assert (E0 := Hj 0%nat ltac:(lia)). cbn [nth] in E0. rewrite E0 in *.
      apply (I3 eq_refl i E). intros j Hlt. apply (Hj (S j)). lia.
Qed.

Lemma lxor_byte_zero c h : valid_ctrl c -> 0 <= h < 128 ->
  (Z.lxor (wrapu 8 c) h = 0 <-> c = h) /\ (Z.lxor (wrapu 8 c) h <= 1 -> IsFull c = true).
Proof.
  intros Hc Hh.
  assert (R : in_u 8 (wrapu 8 c)) by (apply wrapu_range; lia).
  assert (EC : c = wraps 8 (wrapu 8 c)).
  { rewrite wraps_of_wrapu by lia. symmetry. apply wraps_small; [lia|]. unfold in_s. cbn.
    unfold valid_ctrl, kEmpty, kDeleted, kSentinel in Hc. lia. }
  assert (EH : h = wrapu 8 h) by (symmetry; apply wrapu_small; change (2 ^ 8) with 256; lia).
  split.
  - rewrite Z.lxor_eq_0_iff. split; [|congruence]. intros E. rewrite EC, E.
    apply wraps_small; [lia|]. unfold in_s. cbn. lia.
  - intros Hle. unfold IsFull. rewrite Z.geb_leb. apply Z.leb_le.
    destruct Hc as [Hc|Hc]; [lia|]. exfalso.
    assert (B7 : Z.testbit (wrapu 8 c) 7 = true) by (destruct Hc as [-> | [-> | ->]]; reflexivity).
    assert (H7 : Z.testbit h 7 = false) by (apply (testbit_above 7); [split; [lia|cbn; lia]|lia]).
    assert (X : in_u 1 (Z.lxor (wrapu 8 c) h)).
    { split; [|change (2 ^ 1) with 2; lia]. apply Z.lxor_nonneg. unfold in_u in R. lia. }
    pose proof (testbit_above 1 _ 7 X ltac:(lia)) as T. rewrite Z.lxor_spec, B7, H7 in T. discriminate.
Qed.

Lemma portable_match host win h :
  window 8 win -> 0 <= h < 128 ->
  exists bs, gMatch (portable_group host) win h = enc (2 ^ 3) bs /\ length bs = 8%nat /\ match_report win h bs.
Proof.
  intros [HL F] Hh. cbn [gMatch portable_group]. rewrite portable_load by exact HL.
  set (bytes := map (wrapu 8) win). set (xs := map (fun b => Z.lxor b h) bytes).
  assert (H8 : in_u 8 h) by (split; [lia|change (2 ^ 8) with 256; lia]).
  assert (FX : Forall (in_u 8) xs).
  { apply Forall_forall. intros x Hx%in_map_iff. destruct Hx as (b & <- & Hb). apply in_u_lxor; [lia| |exact H8].
    pose proof (bytes_forall win) as FB. rewrite Forall_forall in FB. now apply FB. }
  assert (LX : length xs = 8%nat) by (unfold xs, bytes; now rewrite !length_map).
  assert (EX : le_val bytes .^ (0x0101010101010101 *[64] h) = le_val xs).
  { replace (0x0101010101010101 *[64] h) with (le_val (repeat h 8)).
    - rewrite le_val_lxor; [f_equal|apply bytes_forall| |].
      + unfold xs. clear - HL. assert (LB : length bytes = 8%nat) by (unfold bytes; now rewrite length_map).
        revert LB. generalize bytes as l, 8%nat as n. induction l as [|b l IH]; intros [|n] E; try discriminate;
          [reflexivity|]. cbn [repeat combine map fst snd]. f_equal. apply IH. now inversion E.
      + apply Forall_forall. intros x Hx%repeat_spec. now subst.
      + unfold bytes. now rewrite length_map, repeat_length.
    - cbn [repeat le_val]. rewrite wrapu_small; [lia|]. change (2 ^ 64) with 18446744073709551616. lia. }
  exists (match_bits 0 xs). unfold GroupPortableImpl.Match. cbv zeta. rewrite EX.
  destruct (sub_bytes_spec 0 xs FX ltac:(lia)) as (S1 & S2 & (q & S3) & S4). rewrite LX in *.
  assert (ED : le_val xs -[64] 0x0101010101010101 = le_val (sub_bytes 0 xs)).
  { pose proof (le_val_range _ S2) as R. rewrite S1 in R. change (8 * Z.of_nat 8) with 64 in *.
    change (rep_byte 8 1) with 0x0101010101010101 in S3. rewrite Z.sub_0_r in S3. rewrite S3.
    unfold wrapu. rewrite Z.mod_add by discriminate. now apply Z.mod_small. }
  rewrite ED. split; [|split; [now rewrite match_bits_length|]].
  - apply mask_msbs; [now rewrite match_bits_length|]. intros i Hi.
    rewrite Z.land_spec, not_bit by lia. rewrite !testbit_le_val by (assumption || lia). now apply S4.
  - destruct (match_bits_spec 0 xs ltac:(lia) FX) as (M1 & M2 & M3). rewrite LX in *.
    assert (NX : forall i, (i < 8)%nat -> nth i xs 0 = Z.lxor (wrapu 8 (nth i win 0)) h).
    { intros i Hi. unfold xs, bytes. rewrite map_map.
      rewrite (nth_indep _ _ ((fun c => Z.lxor (wrapu 8 c) h) 0)) by (rewrite length_map; lia).
      now rewrite (map_nth (fun c => Z.lxor (wrapu 8 c) h)). }
    assert (V : forall i, (i < 8)%nat -> valid_ctrl (nth i win 0)).
    { intros i Hi. rewrite Forall_forall in F. apply F, nth_In. lia. }
    split; [|split].
    + intros i Hi E. rewrite HL in Hi. apply M1; [exact Hi|]. rewrite NX by exact Hi.
      now apply lxor_byte_zero; [apply V| |].
    + intros i E. destruct (M2 i E) as [Hi Hle]. rewrite NX in Hle by exact Hi.
      now apply (lxor_byte_zero _ h (V i Hi) Hh).
    + intros i E Hj. destruct (M2 i E) as [Hi _]. specialize (M3 eq_refl i E Hj).
      rewrite NX in M3 by exact Hi. now apply (lxor_byte_zero _ h (V i Hi) Hh).
Qed.

#[export] Instance portable_laws host : GroupLaws (portable_group host).
Proof.
  constructor; cbn [gBits gShift gWidth portable_group].
  - unfold std_width. lia.
  - now right.
  - cbn. lia.
  - apply portable_match.
  - apply portable_empty.
  - apply portable_full.
  - apply portable_nonfull.
  - apply portable_empty_or_deleted.
  - apply portable_full_or_sentinel.
  - apply portable_convert.
Qed.

(** ** The SSE2 implementation *)
Definition sse2_group (ssse3 unsigned_char : bool) : GroupOps := {|
  gWidth := GroupSse2Impl.kWidth; gBits := 32; gShift := 0;
  gMatch win h := GroupSse2Impl.Match (GroupSse2Impl.load win) h;
  gMaskEmpty win := GroupSse2Impl.MaskEmpty ssse3 (GroupSse2Impl.load win);
  gMaskFull win := GroupSse2Impl.MaskFull (GroupSse2Impl.load win);
  gMaskNonFull win := GroupSse2Impl.MaskNonFull (GroupSse2Impl.load win);
  gMaskEmptyOrDeleted win := GroupSse2Impl.MaskEmptyOrDeleted unsigned_char (GroupSse2Impl.load win);
  gMaskFullOrSentinel win := GroupSse2Impl.MaskFullOrSentinel unsigned_char (GroupSse2Impl.load win);
  gConvert win dst := GroupSse2Impl.ConvertSpecialToEmptyAndFullToDeleted (GroupSse2Impl.load win) dst
|}.

Lemma map2_const_l f x l : length l = 16%nat -> Sse2.map2 f (Sse2.set1_epi8 x) l = map (f x) l.
Proof.
  unfold Sse2.map2, Sse2.set1_epi8. generalize 16%nat as n. intros n HL. revert n HL.
  induction l as [|y l IH]; intros [|n] HL; try discriminate; [reflexivity|].
  cbn [repeat combine map fst snd]. f_equal. apply IH. now inversion HL.
Qed.

Lemma map2_const_r f x l : length l = 16%nat -> Sse2.map2 f l (Sse2.set1_epi8 x) = map (fun y => f y x) l.
Proof.
  unfold Sse2.map2, Sse2.set1_epi8. generalize 16%nat as n. intros n HL. revert n HL.
  induction l as [|y l IH]; intros [|n] HL; try discriminate; [reflexivity|].
  cbn [repeat combine map fst snd]. f_equal. apply IH. now inversion HL.
Qed.

Lemma map2_diag f l : Sse2.map2 f l l = map (fun y => f y y) l.
Proof. unfold Sse2.map2. induction l; cbn [combine map fst snd]; congruence. Qed.

Lemma MoveMask_enc l : length l = 16%nat -> GroupSse2Impl.MoveMask l = enc (2 ^ 0) (map (fun c => c <? 0) l).
Proof.
  intros HL. unfold GroupSse2Impl.MoveMask. change (2 ^ 0) with 1.
  assert (E : Sse2.movemask_epi8 l = enc 1 (map (fun c => c <? 0) l)).
  { clear HL. induction l as [|c l IH]; cbn [Sse2.movemask_epi8 map enc]; [reflexivity|]. now rewrite IH. }
  rewrite E. apply wrapu_small. pose proof (enc_range 1 (map (fun c => c <? 0) l) ltac:(lia)) as R.
  rewrite length_map, HL in R. change (2 ^ (1 * Z.of_nat 16)) with 65536 in R.
  change (2 ^ 32) with 4294967296. lia.
Qed.

(** A lane-wise mask is decided by the sign of each lane. *)
Lemma lanes_mask win g (q : Z -> bool) :
  window 16 win -> (forall c, valid_ctrl c -> Bool.eqb (g c <? 0) (q c) = true) ->
  GroupSse2Impl.MoveMask (map g win) = enc (2 ^ 0) (map q win).
Proof.
  intros [HL F] H. rewrite MoveMask_enc by now rewrite length_map. f_equal. rewrite map_map.
  apply map_ext_in. intros c Hc. rewrite Forall_forall in F. now apply eqb_prop, H, F.
Qed.

Lemma enc1_lnot bs : Z.lxor (enc 1 bs) (enc 1 (repeat true (length bs))) = enc 1 (map negb bs).
Proof.
  induction bs as [|b bs IH]; cbn [length repeat map enc]; [reflexivity|].
  rewrite <- IH. change (2 ^ (1 - 1)) with 1. apply Z.bits_inj'. intros i Hi.
  assert (B : forall c : bool, in_u 1 (if c then 1 else 0)) by (intros [|]; split; reflexivity || discriminate).
  rewrite Z.lxor_spec, !testbit_lohi by (try apply B; try (split; reflexivity || discriminate); lia).
  destruct (i <? 1) eqn:E; [|now rewrite Z.lxor_spec]. zbool. replace i with 0 by lia. now destruct b.
Qed.

(** The sign of a saturated difference. *)
Lemma sat_sign c x : -128 <= c < 128 -> -128 <= x < 128 ->
  (wraps 8 (Z.land (Z.max (-128) (Z.min 127 (c - x))) (-128)) =? -128) = (x >? c).
Proof.
  intros Hc Hx. set (d := Z.max _ _). rewrite Z.gtb_ltb.
  assert (Hd : -128 <= d < 128) by (unfold d; lia).
  assert (T : (wraps 8 (Z.land d (-128)) =? -128) = (d <? 0)).
  { apply eqb_prop. pose proof (forallb_below_spec 256 (fun y => Bool.eqb
      (wraps 8 (Z.land (y - 128) (-128)) =? -128) (y - 128 <? 0)) ltac:(vm_compute; reflexivity)
      (d + 128) ltac:(lia)) as P. cbv beta in P. now replace (d + 128 - 128) with d in P by lia. }
  rewrite T. apply eq_true_iff_eq. rewrite !Z.ltb_lt. unfold d. lia.
Qed.

Section Sse2Masks.
Context (ssse3 uchar : bool) (win : list Z) (Hwin : window 16 win).

Lemma sse2_load : GroupSse2Impl.load win = win.
Proof. apply firstn_all2. destruct Hwin as [HL _]. lia. Qed.

Local Ltac by_lanes := apply lanes_mask; [exact Hwin|apply valid_ctrl_check; vm_compute; reflexivity].

(** The work-around computes the same comparison. *)
Lemma cmpgt_fixed_r x (q : Z -> bool) :
  forallb (fun c => Bool.eqb (x >? c) (q c)) (kEmpty :: kDeleted :: kSentinel :: map Z.of_nat (seq 0 128)) = true ->
  -128 <= x < 128 ->
  GroupSse2Impl.MoveMask (GroupSse2Impl.cmpgt_epi8_fixed uchar (Sse2.set1_epi8 x) win) = enc (2 ^ 0) (map q win).
Proof.
  intros H Hx. destruct Hwin as [HL F]. unfold GroupSse2Impl.cmpgt_epi8_fixed, Sse2.cmpgt_epi8,
    Sse2.cmpeq_epi8, Sse2.and_si128, Sse2.subs_epi8. destruct uchar.
  - rewrite (map2_const_r _ x win) by exact HL.
    rewrite (map2_const_r _ (-128) (map _ win)) by now rewrite length_map.
    rewrite map2_const_r by now rewrite !length_map. rewrite !map_map.
    apply lanes_mask; [exact Hwin|]. intros c Hc. pose proof (valid_ctrl_check _ H c Hc) as Q.
    apply eqb_prop in Q. rewrite <- Q. apply eqb_true_iff.
    rewrite <- (sat_sign c x) by (unfold valid_ctrl, kEmpty, kDeleted, kSentinel in Hc; lia).
    unfold Sse2.lane_mask. now destruct (wraps 8 _ =? -128).
  - rewrite map2_const_l by exact HL. apply lanes_mask; [exact Hwin|]. intros c Hc.
    pose proof (valid_ctrl_check _ H c Hc) as Q. apply eqb_prop in Q. rewrite <- Q. apply eqb_true_iff.
    unfold Sse2.lane_mask. now destruct (x >? c).
Qed.

Lemma cmpgt_fixed_l x (q : Z -> bool) :
  forallb (fun c => Bool.eqb (c >? x) (q c)) (kEmpty :: kDeleted :: kSentinel :: map Z.of_nat (seq 0 128)) = true ->
  -128 <= x < 128 ->
  GroupSse2Impl.MoveMask (GroupSse2Impl.cmpgt_epi8_fixed uchar win (Sse2.set1_epi8 x)) = enc (2 ^ 0) (map q win).
Proof.
  intros H Hx. destruct Hwin as [HL F]. unfold GroupSse2Impl.cmpgt_epi8_fixed, Sse2.cmpgt_epi8,
    Sse2.cmpeq_epi8, Sse2.and_si128, Sse2.subs_epi8. destruct uchar.
  - rewrite (map2_const_l _ x win) by exact HL.
    rewrite (map2_const_r _ (-128) (map _ win)) by now rewrite length_map.
    rewrite map2_const_r by now rewrite !length_map. rewrite !map_map.
    apply lanes_mask; [exact Hwin|]. intros c Hc. pose proof (valid_ctrl_check _ H c Hc) as Q.
    apply eqb_prop in Q. rewrite <- Q. apply eqb_true_iff.
    rewrite <- (sat_sign x c) by (unfold valid_ctrl, kEmpty, kDeleted, kSentinel in Hc; lia).
    unfold Sse2.lane_mask. now destruct (wraps 8 _ =? -128).
  - rewrite map2_const_r by exact HL. apply lanes_mask; [exact Hwin|]. intros c Hc.
    pose proof (valid_ctrl_check _ H c Hc) as Q. apply eqb_prop in Q. rewrite <- Q. apply eqb_true_iff.
    unfold Sse2.lane_mask. now destruct (c >? x).
Qed.

Lemma sse2_empty : gMaskEmpty (sse2_group ssse3 uchar) win = enc (2 ^ 0) (map IsEmpty win).
Proof.
  cbn [gMaskEmpty sse2_group]. rewrite sse2_load. destruct Hwin as [HL F].
  unfold GroupSse2Impl.MaskEmpty, Sse2.sign_epi8, Sse2.cmpeq_epi8. destruct ssse3.
  - rewrite map2_diag. by_lanes.
  - rewrite map2_const_l by exact HL. by_lanes.
Qed.

Lemma sse2_nonfull :
  gMaskNonFull (sse2_group ssse3 uchar) win = enc (2 ^ 0) (map (fun c => negb (IsFull c)) win).
Proof.
  cbn [gMaskNonFull sse2_group]. rewrite sse2_load. unfold GroupSse2Impl.MaskNonFull.
  rewrite <- (map_id win) at 1. by_lanes.
Qed.

Lemma sse2_full : gMaskFull (sse2_group ssse3 uchar) win = enc (2 ^ 0) (map IsFull win).
Proof.
  pose proof sse2_nonfull as N. cbn [gMaskFull gMaskNonFull sse2_group] in *. unfold GroupSse2Impl.MaskNonFull in N.
  unfold GroupSse2Impl.MaskFull. rewrite N. change (2 ^ 0) with 1. destruct Hwin as [HL F].
  change 0xffff with (enc 1 (repeat true 16)).
  replace 16%nat with (length (map (fun c => negb (IsFull c)) win)) by now rewrite length_map.
  rewrite enc1_lnot, map_map. f_equal. apply map_ext. intros c. apply negb_involutive.
Qed.

Lemma sse2_convert dst :
  gConvert (sse2_group ssse3 uchar) win dst
  = map (fun c => if IsFull c then kDeleted else kEmpty) win ++ skipn 16 dst.
Proof.
  cbn [gConvert sse2_group]. rewrite sse2_load. destruct Hwin as [HL F].
  unfold GroupSse2Impl.ConvertSpecialToEmptyAndFullToDeleted, Sse2.subs_epi8, Sse2.and_si128.
  rewrite (map2_const_l _ (-128) win) by exact HL. rewrite map2_const_r by now rewrite length_map.
  rewrite map_map. f_equal. apply map_ext_in. intros c Hc. rewrite Forall_forall in F. apply Z.eqb_eq.
  apply (valid_ctrl_check (fun c => Z.max (-128) (Z.min 127 (wraps 8 (-128 .& c) - 2))
    =? (if IsFull c then kDeleted else kEmpty))); [vm_compute; reflexivity|now apply F].
Qed.

(** The vector comparison matches exactly. *)
Lemma sse2_match h :
  0 <= h < 128 ->
  exists bs, gMatch (sse2_group ssse3 uchar) win h = enc (2 ^ 0) bs /\ length bs = 16%nat /\ match_report win h bs.
Proof.
  intros Hh. exists (map (fun c => h =? c) win). cbn [gMatch sse2_group]. rewrite sse2_load.
  pose proof Hwin as [HL F]. unfold GroupSse2Impl.Match, Sse2.cmpeq_epi8. cbv zeta.
  rewrite (wraps_small 8 h) by (try lia; unfold in_s; cbn; lia).
  rewrite map2_const_l by exact HL. split; [|split; [now rewrite length_map|]].
  - apply lanes_mask; [exact Hwin|]. intros c Hc. unfold Sse2.lane_mask. now destruct (h =? c).
  - assert (N : forall i, nth i (map (fun c => h =? c) win) false = true -> nth i win 0 = h /\ (i < length win)%nat).
    { intros i E. destruct (Nat.lt_ge_cases i (length win)) as [Hi|Hi].
      - rewrite (nth_indep _ _ ((fun c => h =? c) 0)) in E by now rewrite length_map.
        rewrite (map_nth (fun c => h =? c)) in E. zbool. auto.
      - rewrite nth_overflow in E by now rewrite length_map. discriminate. }
    split; [|split].
    + intros i Hi E. rewrite (nth_indep _ _ ((fun c => h =? c) 0)) by now rewrite length_map.
      rewrite (map_nth (fun c => h =? c)), E. apply Z.eqb_refl.
    + intros i E. destruct (N i E) as [-> _]. unfold IsFull. rewrite Z.geb_leb. apply Z.leb_le. lia.
    + intros i E _. apply (N i E).
Qed.

End Sse2Masks.

#[export] Instance sse2_laws ssse3 uchar : GroupLaws (sse2_group ssse3 uchar).
Proof.
  constructor; cbn [gBits gShift gWidth sse2_group].
  - unfold std_width. lia.
  - now left.
  - cbn. lia.
  - intros. now apply sse2_match.
  - apply sse2_empty.
  - apply sse2_full.
  - apply sse2_nonfull.
  - intros win Hwin. cbn [gMaskEmptyOrDeleted sse2_group]. rewrite sse2_load by exact Hwin.
    apply cmpgt_fixed_r; [exact Hwin|vm_compute; reflexivity|unfold kSentinel; lia].
  - intros win Hwin. cbn [gMaskFullOrSentinel sse2_group]. rewrite sse2_load by exact Hwin.
    apply cmpgt_fixed_l; [exact Hwin|vm_compute; reflexivity|unfold kSentinel; lia].
  - intros. now apply sse2_convert.
Qed.

(** ** What the table relies on *)

(** A non-iterable mask stands for [p] on the window. *)
Definition mask_finds (G : GroupOps) (m : Z) (p : Z -> bool) (win : list Z) : Prop :=
  NonIterableBitMask.to_bool m = existsb p win /\
  (existsb p win = true ->
   NonIterableBitMask.LowestBitSet (gBits G) (gShift G) m = first_true (map p win) /\
   NonIterableBitMask.TrailingZeros (gBits G) (gShift G) m = first_true (map p win) /\
   NonIterableBitMask.LeadingZeros (gBits G) (Z.of_nat (gWidth G)) (gShift G) m = first_true (rev (map p win))).

Definition mask_positions (G : GroupOps) (m : Z) : list Z :=
  BitMask.iterate (gBits G) (gShift G) false (S (gWidth G)) m.

Lemma existsb_map {A} (p : A -> bool) l : existsb (fun b => b) (map p l) = existsb p l.
Proof. induction l; cbn; congruence. Qed.

Lemma trues_spec bs k i : In i (trues k bs) <-> k <= i < k + Z.of_nat (length bs) /\ nth (Z.to_nat (i - k)) bs false = true.
Proof.
  revert k. induction bs as [|b bs IH]; intros k; cbn [trues length]; [cbn; lia|].
  assert (Tail : k + 1 <= i -> nth (Z.to_nat (i - k)) (b :: bs) false = nth (Z.to_nat (i - (k + 1))) bs false).
  { intros H. replace (Z.to_nat (i - k)) with (S (Z.to_nat (i - (k + 1)))) by lia. reflexivity. }
  destruct (Z.lt_trichotomy i k) as [H|[->|H]].
  - destruct b; cbn [In]; rewrite IH; lia.
  - rewrite Z.sub_diag. destruct b; cbn [In nth Z.to_nat]; rewrite ?IH; intuition lia || congruence.
  - rewrite Tail by lia. destruct b; cbn [In]; rewrite IH; intuition lia.
Qed.

Section GroupClient.
Context (G : GroupOps) `{L : GroupLaws G} (win : list Z) (Hwin : window (gWidth G) win).

Lemma mask_finds_enc m p : m = enc (2 ^ gShift G) (map p win) -> mask_finds G m p win.
Proof.
  intros ->. destruct Hwin as [HL F].
  assert (LN : Z.of_nat (length (map p win)) = Z.of_nat (gWidth G)) by (rewrite length_map; lia).
  split; [rewrite (to_bool_enc (gBits G) (Z.of_nat (gWidth G))) by apply L; apply existsb_map|].
  intros E. rewrite <- existsb_map in E.
  assert (Low : NonIterableBitMask.LowestBitSet (gBits G) (gShift G) (enc (2 ^ gShift G) (map p win))
                = first_true (map p win))
    by (apply (LowestBitSet_enc _ (Z.of_nat (gWidth G))); auto using law_bits, law_shift, law_fits; lia).
  split; [exact Low|]. split; [exact Low|].
  apply LeadingZeros_enc; auto using law_bits, law_shift, law_fits; lia.
Qed.

Lemma mask_positions_enc bs : length bs = gWidth G ->
  mask_positions G (enc (2 ^ gShift G) bs) = trues 0 bs.
Proof.
  intros HL. unfold mask_positions. rewrite <- HL.
  apply (iterate_enc _ (Z.of_nat (gWidth G))); auto using law_bits, law_shift, law_fits; lia.
Qed.

Lemma match_positions h : 0 <= h < 128 ->
  (forall i, (i < gWidth G)%nat -> nth i win 0 = h -> In (Z.of_nat i) (mask_positions G (gMatch G win h))) /\
  (forall i, In i (mask_positions G (gMatch G win h)) ->
     0 <= i < Z.of_nat (gWidth G) /\ IsFull (nth (Z.to_nat i) win 0) = true) /\
  (~ In h win -> mask_positions G (gMatch G win h) = []).
Proof.
  intros Hh. destruct (law_match win h Hwin Hh) as (bs & E & HL & M1 & M2 & M3).
  rewrite E, mask_positions_enc by exact HL. destruct Hwin as [HLw F]. split; [|split].
  - intros i Hi Ei. apply trues_spec. split; [lia|]. rewrite Z.sub_0_r, Nat2Z.id. apply M1; [lia|exact Ei].
  - intros i Hi%trues_spec. rewrite Z.sub_0_r in Hi. split; [lia|]. now apply M2.
  - intros Hn. destruct (bools_split bs) as [Eb|(k & t & Eb & _)].
    + rewrite Eb. generalize 0 as z. clear. induction (length bs); intros z; cbn [repeat trues]; auto.
    + exfalso. apply Hn.
      assert (Hk : (k < length bs)%nat) by (rewrite Eb, length_app, repeat_length; cbn [length]; lia).
      rewrite <- (M3 k); [apply nth_In; lia| |].
      * rewrite Eb, app_nth2, repeat_length, Nat.sub_diag by (rewrite repeat_length; lia). reflexivity.
      * intros j Hj. rewrite Eb, app_nth1 by (rewrite repeat_length; lia). apply nth_repeat.
Qed.

End GroupClient.

(** C35: the portable group (on hosts of either byte order) and the SSE2 group (with and without
    SSSE3, with and without the unsigned-char work-around) give the table the same contract: the
    match mask visits every slot whose byte is [h], only full slots, and nothing when no byte is
    [h]; the empty, empty-or-deleted and full-or-sentinel masks find the first and the last such
    slot; the full and non-full masks visit exactly those slots in order; and the conversion
    turns full bytes into deleted ones and special bytes into empty ones. *)
Theorem group_correct G win dst h :
  (exists host, G = portable_group host) \/ (exists ssse3 uchar, G = sse2_group ssse3 uchar) ->
  window (gWidth G) win -> Forall valid_ctrl dst -> 0 <= h < 128 ->
  ((forall i, (i < gWidth G)%nat -> nth i win 0 = h -> In (Z.of_nat i) (mask_positions G (gMatch G win h))) /\
   (forall i, In i (mask_positions G (gMatch G win h)) ->
      0 <= i < Z.of_nat (gWidth G) /\ IsFull (nth (Z.to_nat i) win 0) = true) /\
   (~ In h win -> mask_positions G (gMatch G win h) = [])) /\
  mask_finds G (gMaskEmpty G win) IsEmpty win /\
  mask_finds G (gMaskEmptyOrDeleted G win) IsEmptyOrDeleted win /\
  mask_finds G (gMaskFullOrSentinel G win) IsFullOrSentinel win /\
  mask_positions G (gMaskFull G win) = trues 0 (map IsFull win) /\
  mask_positions G (gMaskNonFull G win) = trues 0 (map (fun c => negb (IsFull c)) win) /\
  gConvert G win dst = map (fun c => if IsFull c then kDeleted else kEmpty) win ++ skipn (gWidth G) dst.
Proof.
  intros HG Hwin Hd Hh.
  assert (L : GroupLaws G) by (destruct HG as [[host ->]|[a [b ->]]]; typeclasses eauto).
  split; [now apply match_positions|].
  split; [now apply mask_finds_enc, law_empty|]. split; [now apply mask_finds_enc, law_empty_or_deleted|].
  split; [now apply mask_finds_enc, law_full_or_sentinel|].
  rewrite law_full, law_nonfull, law_convert by assumption.
  rewrite !mask_positions_enc by (try rewrite length_map; apply Hwin || exact L || exact win). auto.
Qed.

Lemma group_correct_witness :
  mask_positions (portable_group big)
    (gMatch (portable_group big) [kEmpty; 18; kDeleted; 18; kSentinel; 3; 4; 5] 18) = [1; 3] /\
  NonIterableBitMask.to_bool (gMaskEmpty (portable_group big) [kEmpty; 18; kDeleted; 18; kSentinel; 3; 4; 5]) = true.
Proof.
  split; [vm_compute; reflexivity|].
  apply (group_correct (portable_group big) [kEmpty; 18; kDeleted; 18; kSentinel; 3; 4; 5] [] 18).
  - left. now exists big.
  - split; [reflexivity|]. repeat constructor; unfold valid_ctrl, kEmpty, kDeleted, kSentinel; lia.
  - constructor.
  - lia.
Defined.
