(* ===== verification/SwissTable.v ===== *)
(** [absl/container/internal/raw_hash_set.h], [raw_hash_set.cc]: the arithmetic the Swiss table
    rests on.

    - capacities and load factor;
    - the packed inline data (size, blocked elements, sampling bit, seed, capacity), in both
      storage modes;
    - the growth information kept in the bytes before the control bytes;
    - the layout of the backing array;
    - the probe sequence and the transfer of an element to the next capacity.

    [size_t] has 64 bits.  [kWidth] is the width of a probing group, 8 or 16. *)
From Stdlib Require Import ZArith Lia List Bool.
From S2P Require Import Prelude Bits Endian ControlBytes.
Import ListNotations.
#[local] Open Scope Z_scope.
#[local] Open Scope mach_scope.

(** [~size_t{}] *)
Definition size_max : Z := 2 ^ 64 - 1.

Definition b2z (b : bool) : Z := if b then 1 else 0.

(** ** Capacities *)
Definition kMaxSmallCapacity : Z := 1.

Definition IsValidCapacity (n : Z) : bool := (((n +[64] 1) .& n) =? 0) && (n >? 0).
Definition IsSmallCapacity (capacity : Z) : bool := capacity <=? kMaxSmallCapacity.
Definition IsCapacityValidForBlockedElements (cap : Z) : bool := negb (IsSmallCapacity cap).
Definition NormalizeCapacity (n : Z) : Z :=
  if negb (n =? 0) then size_max >> countl_zero 64 n else 1.
Definition NextCapacity (n : Z) : Z := (n *[64] 2) +[64] 1.
Definition PreviousCapacity (n : Z) : Z := n / 2.

Section Width.
Context (kWidth : Z).

Definition is_single_group (capacity : Z) : bool := capacity <=? kWidth.

Definition kMaxCapacityForLoadFactorOne : Z := kWidth * 4 - 1.

Definition CapacityToGrowth (capacity : Z) : Z :=
  if capacity <=? kMaxCapacityForLoadFactorOne
  then capacity -[64] b2z (capacity >=? kWidth - 1)
  else capacity -[64] capacity / 8.

(** A negative shift amount is undefined behaviour. *)
Definition SizeToCapacity (size : Z) : option Z :=
  if size =? 0 then Some 0
  else
    let leading_zeros := countl_zero 64 (size +[64] b2z (size >=? kWidth / 2)) in
    if size <? kMaxCapacityForLoadFactorOne then Some (size_max >> leading_zeros)
    else
      let kLast3Bits := 7 <<[64] (64 - 3) in
      let max_size_for_next_capacity := kLast3Bits >> leading_zeros in
      let leading_zeros := leading_zeros - b2z (size >? max_size_for_next_capacity) in
      if leading_zeros <? 0 then None else Some (size_max >> leading_zeros).

(** ** Layout of the backing array; [gen] is [NumGenerationBytes()], [infoz] the size of the
    sampling handle *)
Definition NumClonedBytes : Z := kWidth - 1.
Definition NumControlBytes (capacity : Z) : Z :=
  if IsSmallCapacity capacity then 0 else capacity +[64] 1 +[64] NumClonedBytes.

Definition kMaxGrowthLeftLowerBound : Z := 127.

Definition GrowthInfoSizeForCapacity (capacity : Z) : Z :=
  if IsSmallCapacity capacity then 0
  else if capacity <=? kMaxGrowthLeftLowerBound then 1 else 8.

Definition MetadataBeforeControlSize (infoz gen : Z) (has_infoz : bool) (capacity : Z) : Z :=
  if has_infoz then infoz + 8 + gen else GrowthInfoSizeForCapacity capacity +[64] gen.

Definition AlignUpTo (offset align : Z) : Z := (offset +[64] align -[64] 1) .& ((~[64] align) +[64] 1).

Record RawHashSetLayout := mk_Layout {
  control_offset_ : Z; generation_offset_ : Z; slot_offset_ : Z; alloc_size_ : Z
}.

Definition make_layout (infoz gen capacity slot_size slot_align : Z) (has_infoz : bool)
    (blocked_element_count : Z) : RawHashSetLayout :=
  let control_offset := MetadataBeforeControlSize infoz gen has_infoz capacity in
  let generation_offset := control_offset -[64] gen in
  let slot_offset := control_offset +[64] NumControlBytes capacity in
  let aligned_slot_offset := AlignUpTo slot_offset slot_align in
  let slot_array_padding := aligned_slot_offset -[64] slot_offset in
  mk_Layout (control_offset +[64] slot_array_padding) (generation_offset +[64] slot_array_padding)
    aligned_slot_offset
    (aligned_slot_offset +[64] ((capacity -[64] blocked_element_count) *[64] slot_size)).

(** ** Probe sequence *)
Definition H1 (hash : Z) : Z := hash.
Definition H2 (hash : Z) : Z := wrapu 8 (hash >> (8 * 8 - 7)).

Record probe_seq := mk_seq { capacity_ : Z; offset_ : Z; index_ : Z }.

Definition probe_h1 (capacity h1 : Z) : probe_seq := mk_seq capacity (h1 .& capacity) 0.
Definition probe (capacity hash : Z) : probe_seq := probe_h1 capacity (H1 hash).
Definition offset (s : probe_seq) (i : Z) : Z := (offset_ s +[64] i) .& capacity_ s.
Definition next (s : probe_seq) : probe_seq :=
  let index := index_ s +[64] kWidth in
  mk_seq (capacity_ s) ((offset_ s +[64] index) .& capacity_ s) index.

Definition kProbedElementIndexSentinel : Z := size_max.

(** [window offset] gives the control bytes of the group at an offset of [new_ctrl]. *)
Definition TryFindNewIndexWithoutProbing (G : GroupOps) (h1 old_index old_capacity : Z)
    (window : Z -> list Z) (new_capacity : Z) : Z :=
  let index_diff := old_index -[64] h1 in
  let in_floating_group_index := index_diff .& (kWidth - 1) in
  let index_diff := index_diff -[64] in_floating_group_index in
  if (index_diff .& old_capacity) =? 0 then (h1 +[64] in_floating_group_index) .& new_capacity
  else if (h1 .& old_capacity) >=? old_index then kProbedElementIndexSentinel
  else
    let offset := h1 .& new_capacity in
    let mask := gMaskNonFull G (window offset) in
    if NonIterableBitMask.to_bool mask
    then offset +[64] NonIterableBitMask.LowestBitSet (gBits G) (gShift G) mask
    else kProbedElementIndexSentinel.

End Width.

(** ** Growth information *)
Module GrowthInfoLowerBound.
Definition kGrowthLeftMask : Z := 0x7F.
Definition kDeletedBit : Z := 0x80.
Definition HasNoDeletedAndGrowthLeft (g : Z) : bool := wraps 8 g >? 0.
Definition HasDeletedAndGrowthLeft (g : Z) : bool := g >? kDeletedBit.
Definition HasNoGrowthLeftAndNoDeleted (g : Z) : bool := g =? 0.
Definition HasNoGrowthLeftAndHaveDeleted (g : Z) : bool := g =? kDeletedBit.
Definition HasNoDeleted (g : Z) : bool := (g .& kDeletedBit) =? 0.
Definition GetGrowthLeft (g : Z) : Z := g .& kGrowthLeftMask.
End GrowthInfoLowerBound.

Module GrowthInfo.
Import GrowthInfoLowerBound.
Section Host.
Context (host : endian).

Definition kLowerBoundShift : Z := 64 - 8.

(** The memory is the eight bytes that end with the lower bound; a table of at most 127 slots
    owns only the last one. *)
Definition lower_bound (mem : list Z) : Z := nth 7 mem 0.
Definition set_lower_bound (mem : list Z) (b : Z) : list Z := firstn 7 mem ++ [b].

Definition Load64 (mem : list Z) : Z := little_endian.Load host 8 mem.
Definition Store64 (mem : list Z) (v : Z) : list Z := little_endian.Store host 8 mem v.

Definition GetPackedIncrement (lower_bound_increment overflow_increment : Z) : Z :=
  (lower_bound_increment <<[64] kLowerBoundShift) +[64] overflow_increment.
Definition GetRebalanceIncrement (overflow_to_lower_bound_size : Z) : Z :=
  GetPackedIncrement overflow_to_lower_bound_size (0 -[64] overflow_to_lower_bound_size).
Definition GetOverflowGrowthLeftFromPacked (packed : Z) : Z :=
  packed .& ((1 <<[64] kLowerBoundShift) -[64] 1).
Definition GetGrowthInfoLowerBoundFromPacked (packed : Z) : Z := wrapu 8 (packed >> kLowerBoundShift).
Definition GetGrowthLeftLowerBoundFromPacked (packed : Z) : Z :=
  GetGrowthLeft (GetGrowthInfoLowerBoundFromPacked packed).
Definition GetGrowthLeftTotalBigCapacity (mem : list Z) : Z :=
  let packed_full_growth_left := Load64 mem in
  GetOverflowGrowthLeftFromPacked packed_full_growth_left
  +[64] GetGrowthLeftLowerBoundFromPacked packed_full_growth_left.

Definition InitGrowthLeftNoDeleted (mem : list Z) (growth_left capacity : Z) : list Z :=
  if capacity <=? kMaxGrowthLeftLowerBound then set_lower_bound mem (wrapu 8 growth_left)
  else
    let lower_bound := Z.min growth_left kMaxGrowthLeftLowerBound in
    Store64 mem (GetPackedIncrement lower_bound (growth_left -[64] lower_bound)).

Definition GetGrowthInfoLowerBound (mem : list Z) : Z := lower_bound mem.
Definition GetGrowthLeftLowerBound (mem : list Z) : Z := GetGrowthLeft (GetGrowthInfoLowerBound mem).

(** The lower bound returned, and the memory. *)
Definition RebalanceGrowthLeftLowerBoundLargeCapacity (mem : list Z) : Z * list Z :=
  let packed_full_growth_info := Load64 mem in
  let overflow_growth_left := GetOverflowGrowthLeftFromPacked packed_full_growth_info in
  let lower_bound_growth_left := GetGrowthLeftLowerBoundFromPacked packed_full_growth_info in
  let overflow_to_lower_bound_size :=
    Z.min overflow_growth_left (kMaxGrowthLeftLowerBound -[64] lower_bound_growth_left) in
  let packed_full_growth_info :=
    packed_full_growth_info +[64] GetRebalanceIncrement overflow_to_lower_bound_size in
  (GetGrowthInfoLowerBoundFromPacked packed_full_growth_info, Store64 mem packed_full_growth_info).

Definition RebalanceGrowthLeftLowerBound (mem : list Z) (capacity : Z) : Z * list Z :=
  let growth_left_lower_bound := GetGrowthInfoLowerBound mem in
  if (capacity <=? kMaxGrowthLeftLowerBound) || HasDeletedAndGrowthLeft growth_left_lower_bound
  then (growth_left_lower_bound, mem)
  else RebalanceGrowthLeftLowerBoundLargeCapacity mem.

Definition GetGrowthLeftTotalSlow (mem : list Z) (capacity : Z) : Z :=
  if capacity <=? kMaxGrowthLeftLowerBound then GetGrowthLeftLowerBound mem
  else GetGrowthLeftTotalBigCapacity mem.

Definition OverwriteFullAsEmpty (mem : list Z) : list Z :=
  if GetGrowthLeftLowerBound mem <? kMaxGrowthLeftLowerBound
  then set_lower_bound mem (lower_bound mem +[8] 1)
  else Store64 mem (Load64 mem +[64] GetPackedIncrement 0 1).

Definition OverwriteEmptyAsFull (mem : list Z) : list Z :=
  set_lower_bound mem (lower_bound mem -[8] 1).
Definition OverwriteControlAsFull (mem : list Z) (ctrl : Z) : list Z :=
  set_lower_bound mem (lower_bound mem -[8] b2z (IsEmpty ctrl)).
Definition OverwriteFullAsDeleted (mem : list Z) : list Z :=
  set_lower_bound mem (lower_bound mem .| kDeletedBit).

End Host.
End GrowthInfo.

(** ** Capacities: [2^m - 1] *)
Lemma size_max_shiftr k : 0 <= k <= 64 -> size_max >> k = 2 ^ (64 - k) - 1.
Proof.
  intros Hk. unfold size_max. rewrite Z.shiftr_div_pow2 by lia. pose proof (pow2_pos k ltac:(lia)).
  assert (E : 2 ^ 64 = 2 ^ k * 2 ^ (64 - k)) by (rewrite <- Z.pow_add_r by lia; f_equal; lia).
  rewrite E. symmetry. apply (Z.div_unique_pos _ _ _ (2 ^ k - 1)); lia.
Qed.

Lemma IsValidCapacity_spec n : in_u 64 n ->
  IsValidCapacity n = true <-> exists m, 1 <= m <= 64 /\ n = 2 ^ m - 1.
Proof.
  intros Hn. rewrite in_u64_iff in Hn. unfold IsValidCapacity. rewrite Z.gtb_ltb, andb_true_iff, Z.ltb_lt.
  destruct (Z.eq_dec n (2 ^ 64 - 1)) as [->|Hne].
  - split; [intros _; exists 64; lia|]. intros _. split; reflexivity.
  - rewrite wrapu_small by (change (2 ^ 64) with 18446744073709551616 in *; lia).
    pose proof (has_single_bit_spec 64 (n + 1) ltac:(lia)) as S. unfold has_single_bit in S.
    replace (n + 1 - 1) with n in S by lia. rewrite (proj2 (Z.eqb_neq (n + 1) 0)) in S by lia.
    cbn [negb andb] in S. rewrite S. split.
    + intros [(k & Hk & E) Hpos]. exists k. split; [|lia]. split.
      * destruct (Z.eq_dec k 0) as [->|]; [cbn in E; lia|lia].
      * apply (Z.pow_le_mono_r_iff 2); lia.
    + intros (m & Hm & ->). assert (2 ^ 1 <= 2 ^ m) by (apply Z.pow_le_mono_r; lia).
      split; [exists m|]; lia.
Qed.

Lemma bitlen_le_iff x m : 0 <= x -> 0 <= m -> bitlen x <= m <-> x < 2 ^ m.
Proof.
  intros Hx Hm. unfold bitlen. pose proof (pow2_pos m Hm). case_if; zbool; [lia|].
  pose proof (Z.log2_lt_pow2 x m ltac:(lia)). lia.
Qed.

(** All bits from the highest set one down. *)
Lemma size_max_countl x : in_u 64 x -> size_max >> countl_zero 64 x = 2 ^ bitlen x - 1.
Proof.
  intros Hx. pose proof (bitlen_bound 64 x ltac:(lia) Hx) as B.
  rewrite countl_zero_bitlen by (auto; unfold std_width; lia).
  rewrite size_max_shiftr by lia. do 2 f_equal. lia.
Qed.

Section Growth.
Context (kWidth w : Z) (HW : kWidth = 2 ^ w) (Hw : w = 3 \/ w = 4).

Lemma CapacityToGrowth_val m : 1 <= m <= 64 ->
  CapacityToGrowth kWidth (2 ^ m - 1)
  = if m <? w then 2 ^ m - 1 else if m <=? w + 2 then 2 ^ m - 2 else 7 * 2 ^ (m - 3).
Proof.
  intros Hm. unfold CapacityToGrowth, kMaxCapacityForLoadFactorOne.
  assert (E4 : kWidth * 4 = 2 ^ (w + 2)) by (rewrite Z.pow_add_r by lia; lia). rewrite E4, HW.
  assert (M : forall a b, 0 <= a -> 0 <= b -> (2 ^ a <= 2 ^ b <-> a <= b))
    by (intros; symmetry; apply Z.pow_le_mono_r_iff; lia).
  assert (2 ^ 1 <= 2 ^ m) by (apply Z.pow_le_mono_r; lia).
  assert (2 ^ m <= 2 ^ 64) by (apply Z.pow_le_mono_r; lia).
  destruct (2 ^ m - 1 <=? 2 ^ (w + 2) - 1) eqn:E; zbool.
  - assert (m <= w + 2) by (apply M; lia). rewrite (proj2 (Z.leb_le m (w + 2))) by lia.
    destruct (2 ^ m - 1 >=? 2 ^ w - 1) eqn:E2; zbool; cbn [b2z].
    + assert (w <= m) by (apply M; lia). rewrite (proj2 (Z.ltb_ge m w)) by lia.
      rewrite wrapu_small by lia. lia.
    + assert (m < w) by (apply Z.lt_nge; intros C; apply M in C; lia). rewrite (proj2 (Z.ltb_lt m w)) by lia.
      rewrite wrapu_small by lia. lia.
  - assert (w + 2 < m) by (apply Z.lt_nge; intros C; apply M in C; lia).
    rewrite (proj2 (Z.ltb_ge m w)), (proj2 (Z.leb_gt m (w + 2))) by lia.
    assert (E8 : 2 ^ m = 8 * 2 ^ (m - 3)) by (change 8 with (2 ^ 3); rewrite <- Z.pow_add_r by lia; f_equal; lia).
    pose proof (pow2_pos (m - 3) ltac:(lia)). rewrite wrapu_small; [|split]; zlia.
Qed.

(** The capacity of a size is the least valid one whose growth admits it. *)
Lemma SizeToCapacity_galois size :
  0 < size <= 7 * 2 ^ 61 ->
  exists m, 1 <= m <= 64 /\ SizeToCapacity kWidth size = Some (2 ^ m - 1) /\
    forall m', 1 <= m' <= 64 -> (size <= CapacityToGrowth kWidth (2 ^ m' - 1) <-> m <= m').
Proof.
  intros Hs. unfold SizeToCapacity. rewrite (proj2 (Z.eqb_neq size 0)) by lia.
  set (b := b2z (size >=? kWidth / 2)).
  assert (Hb : 0 <= b <= 1) by (unfold b; destruct (_ >=? _); cbn; lia).
  change (2 ^ 61) with 2305843009213693952 in Hs.
  rewrite (wrapu_small 64 (size + b)) by (change (2 ^ 64) with 18446744073709551616; lia).
  assert (Hy : in_u 64 (size + b)) by (rewrite in_u64_iff; lia).
  set (m0 := bitlen (size + b)).
  assert (B0 : 1 <= m0 <= 64).
  { pose proof (bitlen_bound 64 _ ltac:(lia) Hy). unfold m0 in *. split; [|lia].
    pose proof (proj1 (bitlen_le_iff (size + b) 0 ltac:(lia) ltac:(lia))). cbn in *. lia. }
  assert (LE : forall m', 0 <= m' -> m0 <= m' <-> size + b < 2 ^ m') by (intros; apply bitlen_le_iff; lia).
  assert (EH : kWidth / 2 = 2 ^ (w - 1)) by (destruct Hw as [-> | ->]; rewrite HW; reflexivity).
  assert (Eb : b = if size <? 2 ^ (w - 1) then 0 else 1).
  { unfold b. rewrite EH, Z.geb_leb. destruct (size <? 2 ^ (w - 1)) eqn:E; zbool;
      [rewrite (proj2 (Z.leb_gt _ _)) by lia|rewrite (proj2 (Z.leb_le _ _)) by lia]; reflexivity. }
  assert (E4 : kMaxCapacityForLoadFactorOne kWidth = 2 ^ (w + 2) - 1)
    by (unfold kMaxCapacityForLoadFactorOne; rewrite Z.pow_add_r by lia; lia).
  destruct (size <? kMaxCapacityForLoadFactorOne kWidth) eqn:E; zbool; rewrite E4 in E.
  - exists m0. split; [exact B0|]. split; [f_equal; now apply size_max_countl|].
    intros m' Hm'. rewrite LE, CapacityToGrowth_val by lia.
    assert (MO : forall a c, 0 <= a <= c -> 2 ^ a <= 2 ^ c) by (intros; apply Z.pow_le_mono_r; lia).
    assert (ED : 2 ^ w = 2 * 2 ^ (w - 1)) by (rewrite <- Z.pow_succ_r by lia; f_equal; lia).
    assert (EQ : 2 ^ (w + 2) = 4 * 2 ^ w) by (rewrite Z.pow_add_r by lia; lia).
    pose proof (pow2_pos (w - 1) ltac:(lia)).
    destruct (m' <? w) eqn:E1; zbool; [|destruct (m' <=? w + 2) eqn:E2; zbool].
    + pose proof (MO m' (w - 1) ltac:(lia)). destruct (size <? 2 ^ (w - 1)) eqn:E3; zbool; lia.
    + pose proof (MO w m' ltac:(lia)). destruct (size <? 2 ^ (w - 1)) eqn:E3; zbool; lia.
    + pose proof (MO w (m' - 3) ltac:(lia)). pose proof (MO (w + 2) m' ltac:(lia)). lia.
  - assert (MO : forall a c, 0 <= a <= c -> 2 ^ a <= 2 ^ c) by (intros; apply Z.pow_le_mono_r; lia).
    assert (P8 : forall a, 3 <= a -> 2 ^ a = 8 * 2 ^ (a - 3) /\ 0 < 2 ^ (a - 3)).
    { intros a Ha. change 8 with (2 ^ 3). rewrite <- Z.pow_add_r by lia.
      split; [f_equal; lia|apply pow2_pos; lia]. }
    assert (Hb1 : b = 1).
    { rewrite Eb. pose proof (MO (w - 1) (w + 1) ltac:(lia)). pose proof (pow2_pos (w + 1) ltac:(lia)).
      assert (2 ^ (w + 2) = 2 * 2 ^ (w + 1)) by (rewrite <- Z.pow_succ_r by lia; f_equal; lia).
      rewrite (proj2 (Z.ltb_ge _ _)) by lia. reflexivity. }
    rewrite Hb1 in *.
    assert (Bm : w + 3 <= m0).
    { destruct (Z.lt_ge_cases m0 (w + 3)) as [C|]; [|assumption].
      pose proof (proj1 (LE (w + 2) ltac:(lia)) ltac:(lia)). lia. }
    pose proof (proj1 (LE m0 ltac:(lia)) ltac:(lia)) as U.
    assert (Lo : 2 ^ (m0 - 1) <= size + 1).
    { destruct (Z.lt_ge_cases (size + 1) (2 ^ (m0 - 1))) as [C|]; [|assumption].
      apply LE in C; lia. }
    rewrite countl_zero_bitlen by (auto; unfold std_width; lia).
    replace (bitlen (size + 1)) with m0 by (unfold m0; now rewrite ?Hb1).
    cbv zeta. change (7 <<[64] (64 - 3)) with (7 * 2 ^ 61).
    assert (EM : (7 * 2 ^ 61) >> (64 - m0) = 7 * 2 ^ (m0 - 3)).
    { rewrite Z.shiftr_div_pow2 by lia.
      replace (2 ^ 61) with (2 ^ (m0 - 3) * 2 ^ (64 - m0)) by (rewrite <- Z.pow_add_r by lia; f_equal; lia).
      rewrite Z.mul_assoc, Z.div_mul by (pose proof (pow2_pos (64 - m0)); lia). reflexivity. }
    rewrite EM. set (inc := b2z (size >? 7 * 2 ^ (m0 - 3))).
    assert (Hinc : inc = 0 /\ size <= 7 * 2 ^ (m0 - 3) \/ inc = 1 /\ 7 * 2 ^ (m0 - 3) < size).
    { unfold inc. destruct (size >? 7 * 2 ^ (m0 - 3)) eqn:Ei; zbool; cbn [b2z]; lia. }
    assert (H64 : m0 + inc <= 64).
    { destruct (Z.eq_dec m0 64) as [E64|]; [|lia].
      rewrite E64 in Hinc. change (2 ^ (64 - 3)) with 2305843009213693952 in Hinc. lia. }
    rewrite (proj2 (Z.ltb_ge (64 - m0 - inc) 0)) by lia.
    exists (m0 + inc). split; [lia|].
    split; [rewrite size_max_shiftr by lia; do 3 f_equal; lia|].
    destruct (P8 m0 ltac:(lia)) as [P1 P2]. destruct (P8 (m0 - 1) ltac:(lia)) as [P3 P4].
    assert (D1 : 2 ^ m0 = 2 * 2 ^ (m0 - 1)) by (rewrite <- Z.pow_succ_r by lia; f_equal; lia).
    intros m' Hm'. rewrite CapacityToGrowth_val by lia.
    destruct (m' <? w) eqn:E1; zbool; [|destruct (m' <=? w + 2) eqn:E2; zbool].
    + pose proof (MO m' (w + 1) ltac:(lia)). pose proof (MO 0 (w + 1) ltac:(lia)).
      assert (2 ^ (w + 2) = 2 * 2 ^ (w + 1)) by (rewrite <- Z.pow_succ_r by lia; f_equal; lia). lia.
    + pose proof (MO m' (w + 2) ltac:(lia)). lia.
    + split.
      * intros Hg. apply Z.nlt_ge. intros Hlt. destruct Hinc as [[I1 I2]|[I1 I2]].
        -- pose proof (MO (m' - 3) (m0 - 1 - 3) ltac:(lia)).
           pose proof (MO 2 (m0 - 1 - 3) ltac:(lia)). lia.
        -- pose proof (MO (m' - 3) (m0 - 3) ltac:(lia)). lia.
      * intros Hle. pose proof (MO (m0 + inc - 3) (m' - 3) ltac:(lia)). destruct Hinc as [[I1 I2]|[I1 I2]].
        -- rewrite I1, Z.add_0_r in *. lia.
        -- rewrite I1 in *. replace (m0 + 1 - 3) with (Z.succ (m0 - 3)) in * by lia.
           rewrite Z.pow_succ_r in * by lia. lia.
Qed.

End Growth.

(** ** The probe sequence *)
Definition tri (i : Z) : Z := i * (i + 1) / 2.

Lemma tri_double i : 2 * tri i = i * (i + 1).
Proof.
  unfold tri. pose proof (Z.div_mod (i * (i + 1)) 2 ltac:(lia)).
  assert (E : (i * (i + 1)) mod 2 = 0); [|lia].
  rewrite Z.mul_mod by lia. assert (C : i mod 2 = 0 /\ (i + 1) mod 2 = 1 \/ i mod 2 = 1 /\ (i + 1) mod 2 = 0) by zlia.
  destruct C as [[-> ->]|[-> ->]]; reflexivity.
Qed.

Lemma tri_succ i : tri (i + 1) = tri i + (i + 1).
Proof. pose proof (tri_double i). pose proof (tri_double (i + 1)). lia. Qed.

(** A power of two that divides a product with an odd factor divides the other factor. *)
Lemma pow2_odd_divides k a b : 0 <= k -> a mod 2 = 1 -> (2 ^ k | a * b) -> (2 ^ k | b).
Proof.
  intros Hk Ha. revert b. pattern k. apply natlike_ind; [| |exact Hk]; clear k Hk.
  - intros b _. exists b. cbn. lia.
  - intros k Hk IH b [c E]. rewrite Z.pow_succ_r in * by lia.
    assert (Eb : b mod 2 = 0).
    { assert (M : (a * b) mod 2 = 0).
      { rewrite E. replace (c * (2 * 2 ^ k)) with (c * 2 ^ k * 2) by ring. apply Z.mod_mul. lia. }
      rewrite Z.mul_mod, Ha, Z.mul_1_l, Z.mod_mod in M by lia. exact M. }
    destruct (IH (b / 2)) as [d D].
    + exists c. pose proof (Z.div_mod b 2 ltac:(lia)). nia.
    + exists d. pose proof (Z.div_mod b 2 ltac:(lia)). lia.
Qed.

(** The triangular numbers are a bijection modulo a power of two. *)
Lemma tri_inj n i j :
  0 <= n -> 0 <= i < 2 ^ n -> 0 <= j < 2 ^ n -> tri i mod 2 ^ n = tri j mod 2 ^ n -> i = j.
Proof.
  intros Hn.
  assert (W : forall i j, 0 <= i -> i <= j -> j < 2 ^ n -> tri i mod 2 ^ n = tri j mod 2 ^ n -> i = j).
  { clear i j. intros i j Hi Hij Hj E. pose proof (pow2_pos n Hn).
    assert (D : (2 ^ (n + 1) | (j - i) * (j + i + 1))).
    { exists (tri j / 2 ^ n - tri i / 2 ^ n). rewrite Z.pow_add_r by lia. change (2 ^ 1) with 2.
      pose proof (Z.div_mod (tri i) (2 ^ n) ltac:(lia)). pose proof (Z.div_mod (tri j) (2 ^ n) ltac:(lia)).
      pose proof (tri_double i). pose proof (tri_double j). nia. }
    assert (P : 2 ^ (n + 1) = 2 * 2 ^ n) by (rewrite Z.pow_add_r by lia; lia).
    assert (C : (j - i) mod 2 = 1 \/ (j + i + 1) mod 2 = 1) by zlia.
    destruct C as [C|C].
    - apply pow2_odd_divides in D; [|lia|exact C]. apply Z.divide_pos_le in D; lia.
    - rewrite Z.mul_comm in D. apply pow2_odd_divides in D; [|lia|exact C].
      destruct (Z.eq_dec i j) as [|Hne]; [assumption|]. apply Z.divide_pos_le in D; lia. }
  intros Hi Hj E. destruct (Z.le_ge_cases i j); [apply W; lia|symmetry; apply W; lia].
Qed.

Lemma tri_surj n r : 0 <= n -> 0 <= r < 2 ^ n -> exists i, 0 <= i < 2 ^ n /\ tri i mod 2 ^ n = r.
Proof.
  intros Hn Hr. pose proof (pow2_pos n Hn).
  set (dom := map Z.of_nat (seq 0 (Z.to_nat (2 ^ n)))).
  assert (Dom : forall x, In x dom <-> 0 <= x < 2 ^ n).
  { intros x. unfold dom. rewrite in_map_iff. split.
    - intros (k & <- & Hk%in_seq). lia.
    - intros Hx. exists (Z.to_nat x). split; [lia|]. apply in_seq. lia. }
  assert (ND : NoDup dom).
  { apply NoDup_map_NoDup_ForallPairs; [intros a b _ _; lia|apply seq_NoDup]. }
  assert (I : incl dom (map (fun i => tri i mod 2 ^ n) dom)).
  { apply NoDup_length_incl.
    - apply NoDup_map_NoDup_ForallPairs; [|exact ND]. intros a b Ha Hb E.
      apply (tri_inj n); [exact Hn|now apply Dom|now apply Dom|exact E].
    - now rewrite length_map.
    - intros x Hx%in_map_iff. destruct Hx as (i & <- & _). apply Dom. apply Z.mod_pos_bound. lia. }
  specialize (I r (proj2 (Dom r) Hr)). apply in_map_iff in I as (i & E & Hi).
  exists i. split; [now apply Dom|exact E].
Qed.

Lemma land_cap m x : 1 <= m <= 64 -> x .& (2 ^ m - 1) = x mod 2 ^ m.
Proof. intros Hm. rewrite <- Z.land_ones, Z.ones_equiv by lia. reflexivity. Qed.

Lemma mod_wrap m x : 1 <= m <= 64 -> wrapu 64 x mod 2 ^ m = x mod 2 ^ m.
Proof.
  intros Hm. unfold wrapu. replace (2 ^ 64) with (2 ^ m * 2 ^ (64 - m)) by (rewrite <- Z.pow_add_r by lia; f_equal; lia).
  rewrite Z.rem_mul_r by (pose proof (pow2_pos m); pose proof (pow2_pos (64 - m)); lia).
  rewrite Z.mul_comm, Z.mod_add by (pose proof (pow2_pos m); lia). apply Z.mod_mod.
  pose proof (pow2_pos m). lia.
Qed.

Section Probe.
Context (kWidth w m h1 : Z) (HW : kWidth = 2 ^ w) (Hw : 0 <= w) (Hm : 1 <= m <= 64) (Hh : in_u 64 h1).
Abbreviation cap := (2 ^ m - 1).

Definition probe_at (i : nat) : probe_seq := Nat.iter i (next kWidth) (probe_h1 cap h1).

(** [p(i) = kWidth * (i^2 + i)/2 + hash (mod mask + 1)] *)
Lemma probe_at_spec i :
  capacity_ (probe_at i) = cap /\ index_ (probe_at i) = wrapu 64 (Z.of_nat i * kWidth) /\
  offset_ (probe_at i) = (h1 + kWidth * tri (Z.of_nat i)) mod 2 ^ m.
Proof.
  induction i as [|i (I1 & I2 & I3)].
  - change (probe_at 0) with (mk_seq cap (h1 .& cap) 0). cbn [capacity_ index_ offset_]. rewrite land_cap by lia.
    repeat split; change (tri (Z.of_nat 0)) with 0; f_equal; lia.
  - change (probe_at (S i)) with (next kWidth (probe_at i)). unfold next. cbn [capacity_ index_ offset_].
    rewrite I1, I2, I3, land_cap, mod_wrap by lia. split; [reflexivity|].
    replace (wrapu 64 (wrapu 64 (Z.of_nat i * kWidth) + kWidth)) with (wrapu 64 (Z.of_nat (S i) * kWidth))
      by (rewrite wrapu_add_l; f_equal; lia).
    split; [reflexivity|]. rewrite Zplus_mod_idemp_l, <- Zplus_mod_idemp_r, mod_wrap, Zplus_mod_idemp_r by lia.
    f_equal. replace (Z.of_nat (S i)) with (Z.of_nat i + 1) by lia. rewrite tri_succ. ring.
Qed.

Lemma offset_spec i j : offset (probe_at i) j = (h1 + kWidth * tri (Z.of_nat i) + j) mod 2 ^ m.
Proof.
  destruct (probe_at_spec i) as (I1 & _ & I3). unfold offset.
  rewrite I1, I3, land_cap, mod_wrap, Zplus_mod_idemp_l by lia. reflexivity.
Qed.

(** Every slot lies in exactly one of the first [(capacity + 1) / kWidth] groups. *)
Lemma probe_covers q :
  w <= m -> 0 <= q < 2 ^ m ->
  exists i j, 0 <= Z.of_nat i < 2 ^ (m - w) /\ 0 <= j < kWidth /\ offset (probe_at i) j = q /\
    (forall i' j', 0 <= Z.of_nat i' < 2 ^ (m - w) -> 0 <= j' < kWidth -> offset (probe_at i') j' = q ->
       i' = i /\ j' = j).
Proof.
  intros Hwm Hq. pose proof (pow2_pos w Hw) as Pw. pose proof (pow2_pos (m - w) ltac:(lia)) as Pn.
  assert (EM : 2 ^ m = kWidth * 2 ^ (m - w)) by (rewrite HW, <- Z.pow_add_r by lia; f_equal; lia).
  set (d := (q - h1) mod 2 ^ m).
  assert (Hd : 0 <= d < 2 ^ m) by (apply Z.mod_pos_bound; lia).
  destruct (tri_surj (m - w) (d / kWidth) ltac:(lia)) as (i & Hi & Ei).
  { split; [apply Z.div_pos; lia|]. apply Z.div_lt_upper_bound; lia. }
  (* the offsets that hit [q] *)
  assert (Hit : forall i' j', 0 <= j' < kWidth ->
            (offset (probe_at i') j' = q <-> tri (Z.of_nat i') mod 2 ^ (m - w) = d / kWidth /\ j' = d mod kWidth)).
  { intros i' j' Hj'. rewrite offset_spec.
    assert (Q : (h1 + kWidth * tri (Z.of_nat i') + j') mod 2 ^ m = q
                <-> (kWidth * tri (Z.of_nat i') + j') mod 2 ^ m = d).
    { unfold d. split; intros E.
      - rewrite <- E, Zminus_mod_idemp_l. f_equal. lia.
      - rewrite <- Z.add_assoc, <- Zplus_mod_idemp_r, E, Zplus_mod_idemp_r.
        replace (h1 + (q - h1)) with q by lia. apply Z.mod_small. exact Hq. }
    rewrite Q. set (t := tri (Z.of_nat i')).
    assert (R : (kWidth * t + j') mod 2 ^ m = kWidth * (t mod 2 ^ (m - w)) + j').
    { rewrite EM, Z.rem_mul_r by lia. rewrite (Z.add_comm (kWidth * t)), (Z.mul_comm kWidth t).
      rewrite Z.mod_add, Z.div_add, Z.mod_small, Z.div_small by lia. rewrite Z.add_0_l. ring. }
    rewrite R. split.
    - intros <-. rewrite (Z.add_comm (kWidth * _)), (Z.mul_comm kWidth).
      rewrite Z.div_add, Z.mod_add, (Z.div_small j'), (Z.mod_small j') by lia. split; lia.
    - intros [-> ->]. symmetry. apply Z.div_mod. lia. }
  exists (Z.to_nat i), (d mod kWidth). rewrite Z2Nat.id by lia.
  assert (Hj : 0 <= d mod kWidth < kWidth) by (apply Z.mod_pos_bound; lia).
  split; [exact Hi|]. split; [exact Hj|]. split; [apply Hit; [exact Hj|]; rewrite Z2Nat.id by lia; auto|].
  intros i' j' Hi' Hj' E. apply Hit in E as [E ->]; [|exact Hj']. split; [|reflexivity].
  apply Nat2Z.inj. rewrite Z2Nat.id by lia. apply (tri_inj (m - w)); [lia|exact Hi'|exact Hi|congruence].
Qed.

(** A table smaller than a group is covered by its first window. *)
Lemma probe_covers_small q :
  m < w -> 0 <= q < 2 ^ m -> exists j, 0 <= j < kWidth /\ offset (probe_at 0) j = q.
Proof.
  intros Hmw Hq. exists ((q - h1) mod 2 ^ m).
  assert (2 ^ m <= 2 ^ w) by (apply Z.pow_le_mono_r; lia).
  pose proof (Z.mod_pos_bound (q - h1) (2 ^ m) ltac:(lia)). split; [lia|].
  rewrite offset_spec. change (tri (Z.of_nat 0)) with 0.
  rewrite Zplus_mod_idemp_r. replace (h1 + kWidth * 0 + (q - h1)) with q by lia. now apply Z.mod_small.
Qed.

End Probe.

(** ** Transfer to the next capacity *)
Section Transfer.
Context (kWidth w m h1 old_index : Z) (HW : kWidth = 2 ^ w) (Hw : 0 <= w) (Hm : w <= m < 64) (Hm1 : 1 <= m)
  (Hh : in_u 64 h1) (Hi : 0 <= old_index < 2 ^ m).

Definition in_first_group (cap q : Z) : Prop :=
  exists j, 0 <= j < kWidth /\ offset (probe_h1 cap h1) j = q.

Lemma first_group_spec k q : 1 <= k <= 64 ->
  in_first_group (2 ^ k - 1) q <-> exists j, 0 <= j < kWidth /\ (h1 + j) mod 2 ^ k = q.
Proof.
  intros Hk. unfold in_first_group.
  assert (E : forall j, offset (probe_h1 (2 ^ k - 1) h1) j = (h1 + j) mod 2 ^ k).
  { intros j. pose proof (offset_spec kWidth w k h1 Hk 0 j) as O. change (tri (Z.of_nat 0)) with 0 in O.
    rewrite Z.mul_0_r, Z.add_0_r in O. exact O. }
  split; intros (j & Hj & Ej); exists j; split; auto; rewrite ?E in *; auto.
Qed.

(** An element of the first group of the old table goes to one of its two images, which lies in the
    first group of the new table; and this is the case exactly for such elements. *)
Lemma transfer_direct :
  let ifg := (old_index -[64] h1) .& (kWidth - 1) in
  (((old_index -[64] h1 -[64] ifg) .& (2 ^ m - 1) = 0) <-> in_first_group (2 ^ m - 1) old_index) /\
  (in_first_group (2 ^ m - 1) old_index ->
   let r := (h1 +[64] ifg) .& (2 ^ (m + 1) - 1) in
   (r = old_index \/ r = old_index + 2 ^ m) /\ in_first_group (2 ^ (m + 1) - 1) r).
Proof.
  intros ifg. pose proof (pow2_pos w Hw) as Pw. pose proof (pow2_pos m ltac:(lia)) as Pm.
  assert (EI : ifg = (old_index - h1) mod kWidth).
  { unfold ifg. rewrite HW. destruct (Z.eq_dec w 0) as [->|].
    - cbn. rewrite Z.land_0_r. symmetry. apply Z.mod_1_r.
    - rewrite (land_cap w) by lia. apply mod_wrap. lia. }
  assert (HI : 0 <= ifg < kWidth) by (rewrite EI; apply Z.mod_pos_bound; lia).
  assert (EM : 2 ^ m = kWidth * 2 ^ (m - w)) by (rewrite HW, <- Z.pow_add_r by lia; f_equal; lia).
  assert (C : (old_index -[64] h1 -[64] ifg) .& (2 ^ m - 1) = (old_index - h1 - ifg) mod 2 ^ m).
  { rewrite land_cap, mod_wrap by lia. rewrite <- Zminus_mod_idemp_l, mod_wrap, Zminus_mod_idemp_l by lia.
    reflexivity. }
  rewrite C, first_group_spec by lia.
  assert (K : (old_index - h1 - ifg) mod 2 ^ m = 0 <-> exists j, 0 <= j < kWidth /\ (h1 + j) mod 2 ^ m = old_index).
  { split.
    - intros E. exists ifg. split; [exact HI|]. apply Z.mod_divide in E as [c E]; [|lia].
      replace (h1 + ifg) with (old_index + (- c) * 2 ^ m) by lia. rewrite Z.mod_add by lia. now apply Z.mod_small.
    - intros (j & Hj & E). pose proof (Z.div_mod (h1 + j) (2 ^ m) ltac:(lia)) as D. rewrite E in D.
      set (c := (h1 + j) / 2 ^ m) in *.
      assert (EJ : ifg = j).
      { rewrite EI. replace (old_index - h1) with (j + (- (2 ^ (m - w) * c)) * kWidth) by (rewrite EM in D; lia).
        rewrite Z.mod_add by lia. now apply Z.mod_small. }
      rewrite EJ. replace (old_index - h1 - j) with ((- c) * 2 ^ m) by lia. apply Z.mod_mul. lia. }
  split; [exact K|]. intros Hg r. apply K in Hg. apply Z.mod_divide in Hg as [c E]; [|lia].
  assert (ER : r = (h1 + ifg) mod 2 ^ (m + 1)) by (unfold r; rewrite land_cap, mod_wrap by lia; reflexivity).
  split; [|apply first_group_spec; [lia|exists ifg; auto]].
  rewrite ER. assert (P2 : 2 ^ (m + 1) = 2 * 2 ^ m) by (rewrite Z.pow_add_r by lia; lia).
  pose proof (Z.div_mod c 2 ltac:(lia)). pose proof (Z.mod_pos_bound c 2 ltac:(lia)).
  assert (R : h1 + ifg = old_index + (c mod 2) * 2 ^ m + (- (c / 2) - c mod 2) * 2 ^ (m + 1)) by (rewrite P2; nia).
  rewrite R, Z.mod_add by lia. assert (C2 : c mod 2 = 0 \/ c mod 2 = 1) by lia.
  destruct C2 as [-> | ->]; [left|right]; rewrite Z.mod_small by lia; lia.
Qed.

End Transfer.

(** ** Growth information: a count and a flag *)
Section GrowthInfoSpec.
Import GrowthInfoLowerBound GrowthInfo.
Context (host : endian).

Definition mem_of (ov lb : Z) : list Z := le_bytes 7 ov ++ [lb].

(** The bytes of a growth-information block. *)
Definition mem_ok (mem : list Z) : Prop := length mem = 8%nat /\ Forall (in_u 8) mem.

Lemma mem_ok_split mem : mem_ok mem ->
  exists ov lb, mem = mem_of ov lb /\ 0 <= ov < 2 ^ 56 /\ 0 <= lb < 256.
Proof.
  intros [HL F]. exists (le_val (firstn 7 mem)), (nth 7 mem 0).
  assert (E : mem = firstn 7 mem ++ [nth 7 mem 0]).
  { do 8 (destruct mem as [|? mem]; [discriminate|]). now destruct mem. }
  assert (L7 : length (firstn 7 mem) = 7%nat) by (rewrite firstn_length_le; lia).
  rewrite E in F. apply Forall_app in F as [F1 F2]. pose proof (le_val_range _ F1) as R. rewrite L7 in R.
  split; [unfold mem_of; rewrite <- L7 at 1; rewrite le_bytes_val by exact F1; exact E|].
  split; [exact R|]. inversion F2; assumption.
Qed.

Lemma mem_of_ok ov lb : 0 <= lb < 256 -> mem_ok (mem_of ov lb).
Proof.
  intros H. split; [unfold mem_of; rewrite length_app, le_bytes_length; reflexivity|].
  apply Forall_app. split; [apply le_bytes_forall|]. constructor; [exact H|constructor].
Qed.

Lemma growth_left_mod g : 0 <= g -> GetGrowthLeft g = g mod 128.
Proof. intros Hg. unfold GetGrowthLeft, kGrowthLeftMask. change 0x7F with (Z.ones 7). now rewrite Z.land_ones. Qed.

Section Fields.
Context (ov lb : Z) (Ho : 0 <= ov < 2 ^ 56) (Hl : 0 <= lb < 256).

Lemma lower_bound_mem : lower_bound (mem_of ov lb) = lb.
Proof. unfold lower_bound, mem_of. now rewrite app_nth2, le_bytes_length by (rewrite le_bytes_length; lia). Qed.

Lemma set_lower_bound_mem b : set_lower_bound (mem_of ov lb) b = mem_of ov b.
Proof. reflexivity. Qed.

Lemma Load64_mem : Load64 host (mem_of ov lb) = ov + 2 ^ 56 * lb.
Proof.
  destruct (mem_of_ok ov lb Hl) as [L F]. unfold Load64. rewrite load_le_val by assumption.
  unfold mem_of. rewrite le_val_app, le_bytes_length, le_val_bytes by exact Ho. cbn [le_val].
  change (8 * Z.of_nat 7) with 56. lia.
Qed.

Lemma Store64_mem ov' lb' :
  0 <= ov' < 2 ^ 56 -> 0 <= lb' < 256 -> Store64 host (mem_of ov lb) (ov' + 2 ^ 56 * lb') = mem_of ov' lb'.
Proof.
  intros Ho' Hl'. unfold Store64, little_endian.Store. rewrite Store_bytes_little by (unfold std_bytes; lia).
  destruct (mem_of_ok ov lb Hl) as [L _]. rewrite skipn_all2 by lia. rewrite app_nil_r.
  destruct (mem_of_ok ov' lb' Hl') as [L' F']. rewrite <- L'.
  rewrite <- (le_bytes_val (mem_of ov' lb') F') at 2. f_equal.
  unfold mem_of. rewrite le_val_app, le_bytes_length, le_val_bytes by exact Ho'. cbn [le_val].
  change (8 * Z.of_nat 7) with 56. lia.
Qed.

Lemma packed_fields :
  GetOverflowGrowthLeftFromPacked (ov + 2 ^ 56 * lb) = ov /\
  GetGrowthInfoLowerBoundFromPacked (ov + 2 ^ 56 * lb) = lb /\
  GetGrowthLeftLowerBoundFromPacked (ov + 2 ^ 56 * lb) = lb mod 128.
Proof.
  unfold GetOverflowGrowthLeftFromPacked, GetGrowthLeftLowerBoundFromPacked, GetGrowthInfoLowerBoundFromPacked.
  change ((1 <<[64] kLowerBoundShift) -[64] 1) with (Z.ones 56). unfold kLowerBoundShift.
  rewrite Z.land_ones, Z.shiftr_div_pow2 by lia. change (64 - 8) with 56.
  rewrite (Z.mul_comm (2 ^ 56)), Z.mod_add, Z.div_add, Z.mod_small, Z.div_small by lia.
  rewrite Z.add_0_l, wrapu_small by (change (2 ^ 8) with 256; lia).
  rewrite growth_left_mod by lia. auto.
Qed.

(** The abstract state: slots that can still be filled, and whether a slot may be deleted. *)
Lemma total_mem capacity :
  GetGrowthLeftTotalSlow host (mem_of ov lb) capacity
  = if capacity <=? 127 then lb mod 128 else ov + lb mod 128.
Proof.
  unfold GetGrowthLeftTotalSlow, kMaxGrowthLeftLowerBound. case_if.
  - unfold GetGrowthLeftLowerBound, GetGrowthInfoLowerBound. rewrite lower_bound_mem. apply growth_left_mod. lia.
  - unfold GetGrowthLeftTotalBigCapacity. rewrite Load64_mem. destruct packed_fields as (-> & _ & ->).
    apply wrapu_small. change (2 ^ 64) with (256 * 2 ^ 56). pose proof (Z.mod_pos_bound lb 128 ltac:(lia)). lia.
Qed.

End Fields.

Definition growth_abs (mem : list Z) (capacity : Z) : Z * bool :=
  (GetGrowthLeftTotalSlow host mem capacity, negb (HasNoDeleted (GetGrowthInfoLowerBound mem))).

Lemma growth_abs_mem ov lb capacity : 0 <= ov < 2 ^ 56 -> 0 <= lb < 256 ->
  growth_abs (mem_of ov lb) capacity
  = (if capacity <=? 127 then lb mod 128 else ov + lb mod 128, 128 <=? lb).
Proof.
  intros Ho Hl. unfold growth_abs. rewrite total_mem by assumption. f_equal.
  unfold GetGrowthInfoLowerBound. rewrite lower_bound_mem. apply eqb_prop.
  apply (forallb_below_spec 256 (fun lb => Bool.eqb (negb (HasNoDeleted lb)) (128 <=? lb)));
    [vm_compute; reflexivity|exact Hl].
Qed.

(** A lower-bound byte as a count and a flag. *)
Lemma lb_split lb : 0 <= lb < 256 -> exists g d, lb = g + 128 * b2z d /\ 0 <= g < 128 /\
  lb mod 128 = g /\ (128 <=? lb) = d.
Proof.
  intros H. exists (lb mod 128), (128 <=? lb). pose proof (Z.mod_pos_bound lb 128 ltac:(lia)).
  repeat split; try lia. destruct (128 <=? lb) eqn:E; cbn [b2z]; zlia.
Qed.

Lemma lb_join g d : 0 <= g < 128 -> (g + 128 * b2z d) mod 128 = g /\ (128 <=? g + 128 * b2z d) = d /\
  0 <= g + 128 * b2z d < 256.
Proof.
  intros H. rewrite Z.mul_comm, Z.mod_add, Z.mod_small by lia.
  destruct d; cbn [b2z]; repeat split; lia.
Qed.

Lemma Init_abs mem growth_left capacity :
  mem_ok mem -> 0 <= growth_left < 2 ^ 56 -> (capacity <= 127 -> growth_left <= 127) ->
  mem_ok (InitGrowthLeftNoDeleted host mem growth_left capacity) /\
  growth_abs (InitGrowthLeftNoDeleted host mem growth_left capacity) capacity = (growth_left, false).
Proof.
  intros Hm Hg Hc. destruct (mem_ok_split mem Hm) as (ov & lb & -> & Ho & Hl).
  unfold InitGrowthLeftNoDeleted, kMaxGrowthLeftLowerBound. destruct (capacity <=? 127) eqn:E; zbool.
  - rewrite set_lower_bound_mem, wrapu_small by (change (2 ^ 8) with 256; lia).
    split; [apply mem_of_ok; lia|]. rewrite growth_abs_mem by lia.
    rewrite (proj2 (Z.leb_le capacity 127)), (proj2 (Z.leb_gt 128 growth_left)) by lia.
    now rewrite Z.mod_small by lia.
  - set (l := Z.min growth_left 127). unfold GetPackedIncrement. change kLowerBoundShift with 56.
    change (2 ^ 56) with 72057594037927936 in *.
    rewrite Z.shiftl_mul_pow2 by lia. change (2 ^ 56) with 72057594037927936.
    rewrite !wrapu_small by (repeat rewrite wrapu_small; change (2 ^ 64) with 18446744073709551616; unfold l; lia).
    replace (l * 72057594037927936 + (growth_left - l)) with ((growth_left - l) + 2 ^ 56 * l)
      by (change (2 ^ 56) with 72057594037927936; lia).
    rewrite Store64_mem by (change (2 ^ 56) with 72057594037927936; unfold l; lia).
    split; [apply mem_of_ok; unfold l; lia|].
    rewrite growth_abs_mem by (change (2 ^ 56) with 72057594037927936; unfold l; lia).
    rewrite (proj2 (Z.leb_gt capacity 127)), (proj2 (Z.leb_gt 128 l)) by (unfold l; lia).
    rewrite (Z.mod_small l) by (unfold l; lia). f_equal. lia.
Qed.

(** The byte updates. *)
Lemma byte_ops_abs mem capacity :
  mem_ok mem ->
  let '(g, d) := growth_abs mem capacity in
  growth_abs (OverwriteFullAsDeleted mem) capacity = (g, true) /\
  (0 < GetGrowthLeftLowerBound mem ->
   growth_abs (OverwriteEmptyAsFull mem) capacity = (g - 1, d)) /\
  (forall ctrl, b2z (IsEmpty ctrl) <= GetGrowthLeftLowerBound mem ->
   growth_abs (OverwriteControlAsFull mem ctrl) capacity = (g - b2z (IsEmpty ctrl), d)) /\
  mem_ok (OverwriteFullAsDeleted mem) /\ mem_ok (OverwriteEmptyAsFull mem) /\
  (forall ctrl, mem_ok (OverwriteControlAsFull mem ctrl)).
Proof.
  intros Hm. destruct (mem_ok_split mem Hm) as (ov & lb & -> & Ho & Hl).
  rewrite growth_abs_mem by assumption.
  destruct (lb_split lb Hl) as (g & d & E & Hg & E1 & E2). rewrite E1, E2.
  unfold OverwriteFullAsDeleted, OverwriteEmptyAsFull, OverwriteControlAsFull, GetGrowthLeftLowerBound,
    GetGrowthInfoLowerBound. rewrite !lower_bound_mem, !set_lower_bound_mem.
  rewrite growth_left_mod, E1 by lia.
  assert (Sub : forall b, 0 <= b <= g -> lb -[8] b = (g - b) + 128 * b2z d).
  { intros b Hb. rewrite wrapu_small; [lia|]. change (2 ^ 8) with 256.
    destruct (lb_join (g - b) d ltac:(lia)) as (_ & _ & R). lia. }
  assert (Dec : forall b, 0 <= b <= g -> growth_abs (mem_of ov (lb -[8] b)) capacity
            = ((if capacity <=? 127 then g else ov + g) - b, d)).
  { intros b Hb. rewrite Sub by exact Hb. destruct (lb_join (g - b) d ltac:(lia)) as (J1 & J2 & J3).
    rewrite growth_abs_mem, J1, J2 by assumption. f_equal. destruct (capacity <=? 127); lia. }
  assert (Lor : lb .| kDeletedBit = g + 128 * b2z true).
  { rewrite <- E1. apply Z.eqb_eq.
    apply (forallb_below_spec 256 (fun b => (b .| kDeletedBit) =? b mod 128 + 128 * b2z true));
      [vm_compute; reflexivity|exact Hl]. }
  assert (Rg : forall b, 0 <= lb -[8] b < 256) by (intros; apply wrapu_range; lia).
  rewrite !Lor. destruct (lb_join g true ltac:(lia)) as (J1 & J2 & J3).
  split; [rewrite growth_abs_mem, J1, J2 by assumption; reflexivity|].
  split; [intros; apply Dec; lia|].
  split; [intros ctrl Hc; apply Dec; split; [destruct (IsEmpty ctrl); cbn; lia|exact Hc]|].
  repeat split; try apply mem_of_ok; auto.
Qed.

Lemma packed_add ov lb dv dl :
  0 <= ov + dv < 2 ^ 56 -> 0 <= lb + dl < 256 ->
  (ov + 2 ^ 56 * lb) +[64] ((dl <<[64] kLowerBoundShift) +[64] (dv -[64] 0)) = (ov + dv) + 2 ^ 56 * (lb + dl).
Proof.
  intros H1 H2. change kLowerBoundShift with 56. rewrite Z.shiftl_mul_pow2 by lia.
  rewrite wrapu_add_r, Z.sub_0_r.
  replace (ov + 2 ^ 56 * lb + (wrapu 64 (dl * 2 ^ 56) + wrapu 64 dv))
    with (wrapu 64 (dl * 2 ^ 56) + (wrapu 64 dv + (ov + 2 ^ 56 * lb))) by lia.
  rewrite wrapu_add_l.
  replace (dl * 2 ^ 56 + (wrapu 64 dv + (ov + 2 ^ 56 * lb)))
    with (wrapu 64 dv + (dl * 2 ^ 56 + (ov + 2 ^ 56 * lb))) by lia.
  rewrite wrapu_add_l, wrapu_small; [ring|]. change (2 ^ 64) with (256 * 2 ^ 56). lia.
Qed.

Lemma FullAsEmpty_abs mem capacity :
  mem_ok mem ->
  let '(g, d) := growth_abs mem capacity in
  (capacity <= 127 -> g < 127) -> g + 1 < 2 ^ 56 ->
  growth_abs (OverwriteFullAsEmpty host mem) capacity = (g + 1, d) /\ mem_ok (OverwriteFullAsEmpty host mem).
Proof.
  intros Hm. destruct (mem_ok_split mem Hm) as (ov & lb & -> & Ho & Hl).
  rewrite growth_abs_mem by assumption.
  destruct (lb_split lb Hl) as (g & d & E & Hg & E1 & E2). rewrite E1, E2. intros Hc Hb.
  unfold OverwriteFullAsEmpty, GetGrowthLeftLowerBound, GetGrowthInfoLowerBound, kMaxGrowthLeftLowerBound.
  rewrite lower_bound_mem, growth_left_mod, E1 by lia.
  destruct (g <? 127) eqn:Eg; zbool.
  - rewrite set_lower_bound_mem. destruct (lb_join (g + 1) d ltac:(lia)) as (J1 & J2 & J3).
    rewrite wrapu_small by (change (2 ^ 8) with 256; lia).
    replace (lb + 1) with (g + 1 + 128 * b2z d) by lia. split; [|now apply mem_of_ok].
    rewrite growth_abs_mem, J1, J2 by assumption. f_equal. destruct (capacity <=? 127); lia.
  - destruct (capacity <=? 127) eqn:Ec; zbool; [lia|].
    rewrite Load64_mem by assumption. unfold GetPackedIncrement.
    replace (wrapu 64 (wrapu 64 (Z.shiftl 0 kLowerBoundShift) + 1)) with
      (wrapu 64 (wrapu 64 (Z.shiftl 0 kLowerBoundShift) + wrapu 64 (1 - 0))) by reflexivity.
    rewrite packed_add by lia. rewrite Z.add_0_r, Store64_mem by lia.
    split; [|now apply mem_of_ok]. rewrite growth_abs_mem by lia.
    rewrite (proj2 (Z.leb_gt capacity 127)), E1, E2 by lia. f_equal. lia.
Qed.

Lemma Rebalance_abs mem capacity :
  mem_ok mem ->
  let '(r, mem') := RebalanceGrowthLeftLowerBound host mem capacity in
  mem_ok mem' /\ growth_abs mem' capacity = growth_abs mem capacity /\
  r = GetGrowthInfoLowerBound mem' /\ (GetGrowthLeft r > 0 <-> fst (growth_abs mem capacity) > 0).
Proof.
  intros Hm. destruct (mem_ok_split mem Hm) as (ov & lb & -> & Ho & Hl).
  destruct (lb_split lb Hl) as (g & d & E & Hg & E1 & E2).
  unfold RebalanceGrowthLeftLowerBound, kMaxGrowthLeftLowerBound.
  change (GetGrowthInfoLowerBound (mem_of ov lb)) with (lower_bound (mem_of ov lb)).
  rewrite lower_bound_mem, growth_abs_mem, E1, E2 by assumption. cbn [fst].
  destruct (capacity <=? 127) eqn:Ec; cbn [orb].
  - unfold GetGrowthInfoLowerBound. rewrite lower_bound_mem, growth_abs_mem, Ec, growth_left_mod, E1, E2 by lia.
    split; [exact Hm|]. split; [reflexivity|]. split; [reflexivity|]. reflexivity.
  - unfold HasDeletedAndGrowthLeft, kDeletedBit. destruct (lb >? 128) eqn:Eh; zbool.
    + unfold GetGrowthInfoLowerBound. rewrite lower_bound_mem, growth_abs_mem, growth_left_mod, E1, E2 by lia.
      rewrite (proj2 (Z.leb_gt capacity 127)) by lia. repeat split; try apply Hm; destruct d; cbn [b2z] in *; lia.
    + unfold RebalanceGrowthLeftLowerBoundLargeCapacity. rewrite Load64_mem by assumption.
      destruct (packed_fields ov lb Ho Hl) as (-> & _ & ->). rewrite E1.
      unfold kMaxGrowthLeftLowerBound. rewrite (wrapu_small 64 (127 - g)) by (change (2 ^ 64) with 18446744073709551616; lia).
      set (k := Z.min ov (127 - g)). unfold GetRebalanceIncrement, GetPackedIncrement.
      replace (wrapu 64 (0 - k)) with (wrapu 64 (- k - 0)) by (f_equal; lia).
      assert (Hk : 0 <= k <= ov /\ g + k < 128) by (unfold k; lia).
      destruct (lb_join (g + k) d ltac:(lia)) as (J1 & J2 & J3).
      rewrite packed_add by lia. replace (lb + k) with (g + k + 128 * b2z d) by lia.
      replace (ov + - k) with (ov - k) by lia.
      destruct (packed_fields (ov - k) (g + k + 128 * b2z d) ltac:(lia) J3) as (_ & -> & _).
      rewrite Store64_mem by lia. split; [now apply mem_of_ok|].
      unfold GetGrowthInfoLowerBound. rewrite lower_bound_mem, growth_abs_mem, J1, J2, growth_left_mod, J1 by lia.
      rewrite (proj2 (Z.leb_gt capacity 127)) by lia. split; [f_equal; lia|]. split; [reflexivity|].
      unfold k. lia.
Qed.

End GrowthInfoSpec.

(** ** The capacity as stored, in both modes *)
Inductive StorageMode := kCapacityByValue | kCapacityByLog.

Module HashtableCapacity.
Section Mode.
Context (mode : StorageMode).

(** Bits of [IntType]. *)
Definition int_bits : Z := match mode with kCapacityByValue => 64 | kCapacityByLog => 8 end.

Definition kAboveMaxValidCapacity : Z :=
  match mode with kCapacityByValue => 2 ^ 64 - 1 - 100 | kCapacityByLog => 64 - 10 end.
Definition kReentrance : Z := kAboveMaxValidCapacity + 1.
Definition kDestroyed : Z := kAboveMaxValidCapacity + 2.
Definition kMovedFrom : Z := kAboveMaxValidCapacity + 3.
Definition kSelfMovedFrom : Z := kAboveMaxValidCapacity + 4.

(** The constructor from a capacity gives [capacity_data_]. *)
Definition make (capacity : Z) : Z :=
  wrapu int_bits
    match mode with
    | kCapacityByValue => capacity
    | kCapacityByLog => TrailingZeros 64 (capacity +[64] 1)
    end.

Definition FromRawData (raw : Z) : Z := wrapu int_bits raw.
Definition ToRawData (capacity_data : Z) : Z := capacity_data.

Definition IsValid (c : Z) : bool := c <=? kAboveMaxValidCapacity.
Definition IsDestroyed (c : Z) : bool := c =? kDestroyed.
Definition IsReentrance (c : Z) : bool := c =? kReentrance.
Definition IsMovedFrom (c : Z) : bool := c >=? kMovedFrom.
Definition IsSelfMovedFrom (c : Z) : bool := c =? kSelfMovedFrom.

Definition capacity (c : Z) : Z :=
  match mode with
  | kCapacityByValue => c
  | kCapacityByLog => (1 <<[64] c) -[64] 1
  end.

Definition is_small (c : Z) : bool := c <=? 1.

End Mode.
End HashtableCapacity.

(** ** The inline data: two bit fields *)
Module HashtableInlineData.
Section Mode.
Context (mode : StorageMode).

Definition kSeedBitCount : Z := 5.
Definition kBlockedElementBitCount : Z := 3.
Definition kMaxBlockedElementCount : Z := (1 <<[64] kBlockedElementBitCount) -[64] 1.
Definition kCapacityBitCount : Z := match mode with kCapacityByValue => 64 | kCapacityByLog => 6 end.
Definition kCapacityBitStoredInDataCount : Z :=
  match mode with kCapacityByValue => 0 | kCapacityByLog => kCapacityBitCount end.
Definition kSizeBitCount : Z :=
  64 - (kBlockedElementBitCount + kSeedBitCount + 1 + kCapacityBitStoredInDataCount).
Definition kDataBitCount : Z := kSeedBitCount + 1 + kSizeBitCount + kBlockedElementBitCount.
Definition kSizeShift : Z := kDataBitCount - kSizeBitCount.
Definition kSizeOneNoMetadata : Z := 1 <<[64] kSizeShift.
Definition kMetadataMask : Z := kSizeOneNoMetadata -[64] 1.
Definition kSeedMask : Z := (1 <<[64] kSeedBitCount) -[64] 1.
Definition kHasInfozMask : Z := kSeedMask +[64] 1.
Definition kBlockedElementsShift : Z := kSeedBitCount + 1.
Definition kBlockedElementMask : Z := kMaxBlockedElementCount <<[64] kBlockedElementsShift.
Definition kSooHasTriedSamplingMask : Z := 1.
Definition kSampledSeed : Z := wrapu 8 (Z.shiftl 1 kSeedBitCount - 1).

Record t := mk { capacity_internal_ : Z; data_ : Z }.

(** A store into [data_] keeps [kDataBitCount] bits. *)
Definition set_data (s : t) (v : Z) : t := mk (capacity_internal_ s) (wrapu kDataBitCount v).

Definition no_seed_empty (cap : Z) : t := mk (wrapu kCapacityBitCount cap) 0.
Definition full_soo (cap : Z) (has_tried_sampling : bool) : t :=
  mk (wrapu kCapacityBitCount cap)
     (wrapu kDataBitCount (kSizeOneNoMetadata .| (if has_tried_sampling then kSooHasTriedSamplingMask else 0))).

Definition capacity (s : t) : Z := HashtableCapacity.FromRawData mode (capacity_internal_ s).
Definition set_capacity (s : t) (c : Z) : t :=
  mk (wrapu kCapacityBitCount (HashtableCapacity.ToRawData c)) (data_ s).

Definition size (s : t) : Z := data_ s >> kSizeShift.
Definition increment_size (s : t) : t := set_data s (data_ s +[64] kSizeOneNoMetadata).
Definition increment_size_by (s : t) (n : Z) : t := set_data s (data_ s +[64] (n <<[64] kSizeShift)).
Definition decrement_size (s : t) : t := set_data s (data_ s -[64] kSizeOneNoMetadata).
Definition empty (s : t) : bool := data_ s <? kSizeOneNoMetadata.
Definition set_size (s : t) (n : Z) : t :=
  set_data s ((data_ s .& kMetadataMask) .| (n <<[64] kSizeShift)).

Definition soo_has_tried_sampling (s : t) : bool := negb ((data_ s .& kSooHasTriedSamplingMask) =? 0).
Definition set_soo_has_tried_sampling (s : t) : t := set_data s (data_ s .| kSooHasTriedSamplingMask).

Definition ToPublicSeed (seed : Z) : Z := seed <<[64] kCapacityBitStoredInDataCount.
(** [PerTableSeed] keeps 16 bits. *)
Definition seed (s : t) : Z := wrapu 16 (ToPublicSeed (data_ s .& kSeedMask)).
Definition set_seed (s : t) (sd : Z) : t :=
  set_data s ((data_ s .& (~[64] kSeedMask)) .| (sd .& kSeedMask)).
Definition set_sampled_seed (s : t) : t := set_seed s kSampledSeed.
Definition is_sampled_seed (s : t) : bool := seed s =? ToPublicSeed kSampledSeed.
Definition set_no_seed_for_testing (s : t) : t := set_data s (data_ s .& (~[64] kSeedMask)).

Definition has_infoz (s : t) : bool := negb ((data_ s .& kHasInfozMask) =? 0).
Definition set_has_infoz (s : t) : t := set_data s (data_ s .| kHasInfozMask).

Definition blocked_element_count (s : t) : Z := (data_ s .& kBlockedElementMask) >> kBlockedElementsShift.
Definition init_blocked_element_count (s : t) (count : Z) : t :=
  set_data s (data_ s .| (count <<[64] kBlockedElementsShift)).
Definition set_blocked_element_count_to_zero (s : t) : t :=
  set_data s (data_ s .& (~[64] kBlockedElementMask)).

End Mode.
End HashtableInlineData.

(** ** The fields of the inline data *)
Section InlineDataSpec.
Import HashtableInlineData.
Context (mode : StorageMode).

Definition data_bits : Z := kDataBitCount mode.

Lemma data_bits_val : data_bits = match mode with kCapacityByValue => 64 | kCapacityByLog => 58 end.
Proof. unfold data_bits. destruct mode; reflexivity. Qed.

Lemma data_bits_range : 58 <= data_bits <= 64.
Proof. rewrite data_bits_val. destruct mode; lia. Qed.

Definition data_ok (s : t) : Prop := in_u data_bits (data_ s).

(** Nine bits of metadata below the size. *)
Definition data_at (s : t) (m sz : Z) : Prop :=
  data_ s = m + 2 ^ 9 * sz /\ in_u 9 m /\ 0 <= sz < 2 ^ (data_bits - 9).

Lemma data_split s : data_ok s -> data_at s (data_ s mod 2 ^ 9) (data_ s / 2 ^ 9).
Proof.
  intros [H0 H1]. unfold data_at. pose proof (Z.div_mod (data_ s) (2 ^ 9) ltac:(lia)).
  split; [lia|]. split; [apply Z.mod_pos_bound; lia|]. split; [apply Z.div_pos; lia|].
  apply Z.div_lt_upper_bound; [lia|]. rewrite <- Z.pow_add_r by (pose proof data_bits_range; lia).
  now replace (9 + (data_bits - 9)) with data_bits by lia.
Qed.

Lemma data_pow : 2 ^ data_bits = 2 ^ 9 * 2 ^ (data_bits - 9) /\ 2 ^ data_bits <= 2 ^ 64.
Proof.
  split; [rewrite <- Z.pow_add_r by (pose proof data_bits_range; lia); f_equal; lia|].
  apply Z.pow_le_mono_r; [lia|apply data_bits_range].
Qed.

Lemma data_at_set s m sz : in_u 9 m -> 0 <= sz < 2 ^ (data_bits - 9) ->
  data_at (set_data mode s (m + 2 ^ 9 * sz)) m sz.
Proof.
  intros Hm Hs. unfold data_at, set_data. cbn [data_]. split; [|auto].
  apply wrapu_small. destruct data_pow as [E _]. unfold in_u in Hm. fold data_bits. lia.
Qed.

Lemma data_at_ok s m sz : data_at s m sz -> data_ok s.
Proof.
  intros (E & Hm & Hs). unfold data_ok, in_u in *. destruct data_pow as [E2 _]. lia.
Qed.

Lemma data_at_inj s m sz m' sz' : data_at s m sz -> data_at s m' sz' -> m = m' /\ sz = sz'.
Proof. intros (E & Hm & Hs) (E' & Hm' & Hs'). unfold in_u in *. lia. Qed.

(** Masks act on the metadata alone. *)
Lemma meta_lor m sz x : in_u 9 m -> in_u 9 x -> (m + 2 ^ 9 * sz) .| x = (m .| x) + 2 ^ 9 * sz.
Proof.
  intros Hm Hx. apply Z.bits_inj'. intros i Hi.
  rewrite Z.lor_spec, !testbit_lohi by (try apply in_u_lor; auto; lia).
  destruct (i <? 9) eqn:E; zbool; [now rewrite Z.lor_spec|].
  rewrite (testbit_above 9 x) by (auto; lia). apply orb_false_r.
Qed.

Lemma meta_land m sz x : in_u 9 m -> in_u 9 x -> (m + 2 ^ 9 * sz) .& x = m .& x.
Proof.
  intros Hm Hx. apply Z.bits_inj'. intros i Hi. rewrite !Z.land_spec, testbit_lohi by (auto; lia).
  destruct (i <? 9) eqn:E; zbool; [reflexivity|].
  rewrite (testbit_above 9 x) by (auto; lia). now rewrite !andb_false_r.
Qed.

Lemma meta_clear m sz x : in_u 9 m -> in_u 9 x -> 0 <= sz < 2 ^ 55 ->
  (m + 2 ^ 9 * sz) .& (~[64] x) = (m .& Z.lnot x) + 2 ^ 9 * sz.
Proof.
  intros Hm Hx Hs. apply Z.bits_inj'. intros i Hi.
  rewrite Z.land_spec, wrapu_testbit, Z.lnot_spec by lia.
  rewrite !testbit_lohi by (try apply in_u_land_l; auto; lia).
  destruct (i <? 9) eqn:E; zbool.
  - rewrite (proj2 (Z.ltb_lt i 64)) by lia. now rewrite Z.land_spec, Z.lnot_spec by lia.
  - rewrite (testbit_above 9 x) by (auto; lia). cbn [negb].
    destruct (i <? 64) eqn:E2; zbool; cbn [andb]; [apply andb_true_r|].
    rewrite andb_false_r. symmetry. apply (testbit_above 55); [exact Hs|lia].
Qed.

(** Reading the fields of [m + 512 sz]. *)
Record fields := mk_fields { f_size : Z; f_blocked : Z; f_infoz : bool; f_seed : Z }.

Definition meta_fields (m sz : Z) : fields :=
  mk_fields sz ((m / 2 ^ 6) mod 2 ^ 3) (Z.testbit m 5) (m mod 2 ^ 5).

Definition view (s : t) : fields :=
  mk_fields (size mode s) (blocked_element_count s) (has_infoz s) (data_ s .& kSeedMask).

Lemma view_at s m sz : data_at s m sz -> view s = meta_fields m sz.
Proof.
  intros (E & Hm & Hs). unfold view, meta_fields, size, blocked_element_count, has_infoz.
  assert (KS : kSizeShift mode = 9) by (destruct mode; reflexivity).
  rewrite KS, E. rewrite !meta_land by (try assumption; split; reflexivity || discriminate).
  rewrite Z.shiftr_div_pow2 by lia.
  rewrite (Z.mul_comm (2 ^ 9)), Z.div_add, Z.div_small, Z.add_0_l by (exact Hm || lia).
  f_equal.
  - apply Z.eqb_eq. apply (forallb_below_spec 512 (fun m => ((m .& kBlockedElementMask) >> kBlockedElementsShift)
      =? (m / 2 ^ 6) mod 2 ^ 3)); [vm_compute; reflexivity|exact Hm].
  - apply eqb_prop. apply (forallb_below_spec 512 (fun m => Bool.eqb (negb ((m .& kHasInfozMask) =? 0))
      (Z.testbit m 5))); [vm_compute; reflexivity|exact Hm].
  - change kSeedMask with (Z.ones 5). apply Z.land_ones. lia.
Qed.

(** An operation that replaces the metadata [m] by [m'] and keeps or replaces the size. *)
Lemma set_data_view s v m sz f :
  v = m + 2 ^ 9 * sz -> in_u 9 m -> 0 <= sz < 2 ^ (data_bits - 9) -> meta_fields m sz = f ->
  view (set_data mode s v) = f /\ data_ok (set_data mode s v).
Proof.
  intros -> Hm Hs <-. pose proof (data_at_set s m sz Hm Hs) as D.
  split; [now apply view_at|exact (data_at_ok _ _ _ D)].
Qed.

Section Ops.
Context (s : t) (Hok : data_ok s).
Let m := data_ s mod 2 ^ 9.
Let sz := data_ s / 2 ^ 9.

Lemma at_s : data_ s = m + 2 ^ 9 * sz /\ in_u 9 m /\ 0 <= sz < 2 ^ (data_bits - 9).
Proof. exact (data_split s Hok). Qed.

Lemma view_s : view s = meta_fields m sz.
Proof. apply view_at, data_split, Hok. Qed.

Lemma size_limit : 2 ^ (data_bits - 9) <= 2 ^ 55.
Proof. apply Z.pow_le_mono_r; pose proof data_bits_range; lia. Qed.

(** Adding to the size field. *)
Lemma add_size_view v n :
  v = data_ s +[64] 2 ^ 9 * n -> 0 <= sz + n < 2 ^ (data_bits - 9) ->
  view (set_data mode s v) = meta_fields m (sz + n) /\ data_ok (set_data mode s v).
Proof.
  intros -> Hn. destruct at_s as (E & Hm & Hs). pose proof size_limit as L.
  apply (set_data_view s _ m (sz + n)); auto. rewrite E, wrapu_small; [ring|].
  change (2 ^ 64) with (2 ^ 9 * 2 ^ 55). unfold in_u in Hm. lia.
Qed.

(** Changing metadata bits only. *)
Lemma meta_view v m' f :
  v = m' + 2 ^ 9 * sz -> in_u 9 m' -> meta_fields m' sz = f ->
  view (set_data mode s v) = f /\ data_ok (set_data mode s v).
Proof. intros Ev Hm' Ef. apply (set_data_view s v m' sz f); auto. apply at_s. Qed.

Lemma meta_or_view x f :
  in_u 9 x -> meta_fields (m .| x) sz = f ->
  view (set_data mode s (data_ s .| x)) = f /\ data_ok (set_data mode s (data_ s .| x)).
Proof.
  intros Hx Ef. destruct at_s as (E & Hm & Hs). apply (meta_view _ (m .| x)); auto.
  - rewrite E. now apply meta_lor.
  - apply in_u_lor; auto; lia.
Qed.

Lemma meta_clear_or_view x y f :
  in_u 9 x -> in_u 9 y -> meta_fields ((m .& Z.lnot x) .| y) sz = f ->
  view (set_data mode s ((data_ s .& (~[64] x)) .| y)) = f /\
  data_ok (set_data mode s ((data_ s .& (~[64] x)) .| y)).
Proof.
  intros Hx Hy Ef. destruct at_s as (E & Hm & Hs). pose proof size_limit.
  assert (Hc : in_u 9 (m .& Z.lnot x)) by (apply in_u_land_l; auto; lia).
  apply (meta_view _ ((m .& Z.lnot x) .| y)); auto.
  - rewrite E, meta_clear by (auto; lia). now apply meta_lor.
  - apply in_u_lor; auto; lia.
Qed.

(** A fact about the metadata bits, checked for every value of them and of a small argument. *)
Lemma meta_check (p : Z -> Z -> bool) k c :
  forallb_below 512 (fun m => forallb_below k (p m)) = true -> 0 <= c < Z.of_nat k -> p m c = true.
Proof.
  intros H Hc. destruct at_s as (_ & Hm & _).
  pose proof (forallb_below_spec 512 _ H m Hm) as H1. exact (forallb_below_spec k _ H1 c Hc).
Qed.

Definition meta_same (x bl : Z) (iz : bool) (sd : Z) : bool :=
  ((x / 2 ^ 6) mod 2 ^ 3 =? bl) && Bool.eqb (Z.testbit x 5) iz && (x mod 2 ^ 5 =? sd).

Lemma meta_same_fields x bl iz sd : meta_same x bl iz sd = true -> meta_fields x sz = mk_fields sz bl iz sd.
Proof.
  unfold meta_same, meta_fields. intros H. apply andb_true_iff in H as [H H3].
  apply andb_true_iff in H as [H1 H2]. apply Z.eqb_eq in H1, H3. apply eqb_prop in H2. congruence.
Qed.

(** The size operations. *)
Lemma size_ops n :
  let f := view s in
  (n = f_size f + 1 -> n < 2 ^ (data_bits - 9) ->
   view (increment_size mode s) = mk_fields n (f_blocked f) (f_infoz f) (f_seed f) /\ data_ok (increment_size mode s)) /\
  (0 <= n -> f_size f + n < 2 ^ (data_bits - 9) ->
   view (increment_size_by mode s n) = mk_fields (f_size f + n) (f_blocked f) (f_infoz f) (f_seed f) /\
   data_ok (increment_size_by mode s n)) /\
  (0 < f_size f ->
   view (decrement_size mode s) = mk_fields (f_size f - 1) (f_blocked f) (f_infoz f) (f_seed f) /\
   data_ok (decrement_size mode s)) /\
  (0 <= n < 2 ^ (data_bits - 9) ->
   view (set_size mode s n) = mk_fields n (f_blocked f) (f_infoz f) (f_seed f) /\ data_ok (set_size mode s n)) /\
  empty mode s = (f_size f =? 0).
Proof.
  rewrite view_s. cbn [meta_fields f_size f_blocked f_infoz f_seed].
  destruct at_s as (E & Hm & Hs). pose proof size_limit as L.
  assert (K1 : kSizeOneNoMetadata mode = 2 ^ 9 /\ kSizeShift mode = 9 /\ kMetadataMask mode = Z.ones 9)
    by (destruct mode; auto). destruct K1 as (K1 & K2 & K3).
  assert (Sh : forall n, 0 <= n < 2 ^ (data_bits - 9) -> n <<[64] 9 = 2 ^ 9 * n).
  { intros x Hx. rewrite Z.shiftl_mul_pow2, wrapu_small by (try lia; change (2 ^ 64) with (2 ^ 9 * 2 ^ 55); lia). lia. }
  split; [|split; [|split; [|split]]].
  - intros -> Hn. unfold increment_size. rewrite K1. apply (add_size_view _ 1); [reflexivity|lia].
  - intros Hn Hb. unfold increment_size_by. rewrite K2, Sh by lia. apply (add_size_view _ n); [reflexivity|lia].
  - intros Hp. unfold decrement_size. rewrite K1. apply (add_size_view _ (-1)); [f_equal; lia|lia].
  - intros Hn. unfold set_size. rewrite K2, K3, Sh by exact Hn.
    rewrite Z.land_ones by lia. fold m. apply (set_data_view s _ m n); auto.
    rewrite (Z.mul_comm (2 ^ 9)), <- Z.shiftl_mul_pow2 by lia. rewrite lor_lohi by (auto; lia).
    rewrite Z.shiftl_mul_pow2 by lia. ring.
  - unfold empty. rewrite K1, E. unfold in_u in Hm. apply eq_true_iff_eq. rewrite Z.ltb_lt, Z.eqb_eq. lia.
Qed.

(** The metadata operations. *)
Lemma meta_ops c :
  let f := view s in
  (0 <= c < 32 -> view (set_seed mode s c) = mk_fields (f_size f) (f_blocked f) (f_infoz f) c /\
                  data_ok (set_seed mode s c)) /\
  (view (set_no_seed_for_testing mode s) = mk_fields (f_size f) (f_blocked f) (f_infoz f) 0 /\
   data_ok (set_no_seed_for_testing mode s)) /\
  (view (set_has_infoz mode s) = mk_fields (f_size f) (f_blocked f) true (f_seed f) /\
   data_ok (set_has_infoz mode s)) /\
  (0 <= c < 8 -> f_blocked f = 0 ->
   view (init_blocked_element_count mode s c) = mk_fields (f_size f) c (f_infoz f) (f_seed f) /\
   data_ok (init_blocked_element_count mode s c)) /\
  (view (set_blocked_element_count_to_zero mode s) = mk_fields (f_size f) 0 (f_infoz f) (f_seed f) /\
   data_ok (set_blocked_element_count_to_zero mode s)) /\
  (view (set_soo_has_tried_sampling mode s)
   = mk_fields (f_size f) (f_blocked f) (f_infoz f) (Z.setbit (f_seed f) 0) /\
   data_ok (set_soo_has_tried_sampling mode s)) /\
  soo_has_tried_sampling s = Z.testbit (f_seed f) 0.
Proof.
  rewrite view_s. cbn [meta_fields f_size f_blocked f_infoz f_seed].
  destruct at_s as (E & Hm & Hs).
  assert (R : forall x, 0 <= x < 512 -> in_u 9 x) by (intros; exact H).
  assert (NoOr : forall v, v = v .| 0) by (intros; now rewrite Z.lor_0_r).
  split; [|split; [|split; [|split; [|split; [|split]]]]].
  - intros Hc. unfold set_seed. change kSeedMask with 31.
    assert (HL : 0 <= c .& 31 < 512) by (change 31 with (Z.ones 5); rewrite Z.land_ones by lia; zlia).
    apply meta_clear_or_view; [apply R; lia|apply R; exact HL|apply meta_same_fields].
    apply (meta_check (fun m c => meta_same ((m .& Z.lnot 31) .| (c .& 31)) ((m / 2 ^ 6) mod 2 ^ 3) (Z.testbit m 5) c) 32);
      [vm_compute; reflexivity|lia].
  - unfold set_no_seed_for_testing. change kSeedMask with 31. rewrite (NoOr (data_ s .& _)).
    apply meta_clear_or_view; [apply R; lia|apply R; lia|apply meta_same_fields].
    apply (meta_check (fun m c => meta_same ((m .& Z.lnot 31) .| 0) ((m / 2 ^ 6) mod 2 ^ 3) (Z.testbit m 5) c) 1 0);
      [vm_compute; reflexivity|lia].
  - unfold set_has_infoz. change kHasInfozMask with 32. apply meta_or_view; [apply R; lia|apply meta_same_fields].
    apply (meta_check (fun m _ => meta_same (m .| 32) ((m / 2 ^ 6) mod 2 ^ 3) true (m mod 2 ^ 5)) 1 0);
      [vm_compute; reflexivity|lia].
  - intros Hc Hb. unfold init_blocked_element_count. change kBlockedElementsShift with 6.
    rewrite Z.shiftl_mul_pow2, wrapu_small by (change (2 ^ 6) with 64; change (2 ^ 64) with 18446744073709551616; lia).
    apply meta_or_view; [apply R; change (2 ^ 6) with 64; lia|apply meta_same_fields].
    pose proof (meta_check (fun m c => negb ((m / 2 ^ 6) mod 2 ^ 3 =? 0)
      || meta_same (m .| (c * 2 ^ 6)) c (Z.testbit m 5) (m mod 2 ^ 5)) 8 c ltac:(vm_compute; reflexivity) ltac:(lia)) as P.
    cbv beta in P. rewrite Hb in P. exact P.
  - unfold set_blocked_element_count_to_zero. change kBlockedElementMask with 448. rewrite (NoOr (data_ s .& _)).
    apply meta_clear_or_view; [apply R; lia|apply R; lia|apply meta_same_fields].
    apply (meta_check (fun m c => meta_same ((m .& Z.lnot 448) .| 0) c (Z.testbit m 5) (m mod 2 ^ 5)) 1 0);
      [vm_compute; reflexivity|lia].
  - unfold set_soo_has_tried_sampling. change kSooHasTriedSamplingMask with 1.
    apply meta_or_view; [apply R; lia|apply meta_same_fields].
    apply (meta_check (fun m _ => meta_same (m .| 1) ((m / 2 ^ 6) mod 2 ^ 3) (Z.testbit m 5) (Z.setbit (m mod 2 ^ 5) 0)) 1 0);
      [vm_compute; reflexivity|lia].
  - unfold soo_has_tried_sampling. change kSooHasTriedSamplingMask with 1. rewrite E, meta_land by (auto; apply R; lia).
    apply eqb_prop. apply (meta_check (fun m _ => Bool.eqb (negb ((m .& 1) =? 0)) (Z.testbit (m mod 2 ^ 5) 0)) 1 0);
      [vm_compute; reflexivity|lia].
Qed.

End Ops.

(** The public seed determines the raw one. *)
Lemma public_seed x : 0 <= x < 32 ->
  wrapu 16 (ToPublicSeed mode x) = ToPublicSeed mode x /\
  (forall y, 0 <= y < 32 -> ToPublicSeed mode x = ToPublicSeed mode y -> x = y).
Proof.
  intros Hx. unfold ToPublicSeed. set (k := kCapacityBitStoredInDataCount mode).
  assert (Hk : k = 0 \/ k = 6) by (unfold k; destruct mode; auto).
  assert (E : forall z, 0 <= z < 32 -> z <<[64] k = z * 2 ^ k).
  { intros z Hz. rewrite Z.shiftl_mul_pow2, wrapu_small by (destruct Hk as [-> | ->]; cbn; lia). reflexivity. }
  rewrite E by exact Hx. split; [apply wrapu_small; destruct Hk as [-> | ->]; cbn; lia|].
  intros y Hy. rewrite E by exact Hy. destruct Hk as [-> | ->]; cbn; lia.
Qed.

Lemma sampled_seed_spec s : data_ok s -> is_sampled_seed mode s = (f_seed (view s) =? 31).
Proof.
  intros Hok. unfold is_sampled_seed, seed. change kSampledSeed with 31. cbn [view f_seed].
  assert (R : 0 <= data_ s .& kSeedMask < 32)
    by (change kSeedMask with (Z.ones 5); rewrite Z.land_ones by lia; apply Z.mod_pos_bound; lia).
  rewrite (proj1 (public_seed _ R)). apply eq_true_iff_eq. rewrite !Z.eqb_eq.
  split; [intros E; exact (proj2 (public_seed _ R) 31 ltac:(lia) E)|congruence].
Qed.

End InlineDataSpec.

(** ** Limits on the size; [mode] gives the bits of the stored size *)
Section MaxSize.
Context (kWidth : Z) (mode : StorageMode).

Definition MaxSizeAtMaxValidCapacity (slot_size : Z) : Z :=
  CapacityToGrowth kWidth (size_max >> 2) / slot_size.

Definition MaxStorableSize : Z := (1 <<[64] HashtableInlineData.kSizeBitCount mode) -[64] 1.

Definition MaxValidSizeForKeySize (key_size : Z) : Z :=
  if key_size <? 8 then 1 <<[64] (8 * key_size) else size_max.

Definition MaxValidSizeForSlotSize (slot_size : Z) : Z :=
  if slot_size <? (1 <<[64] (64 - HashtableInlineData.kSizeBitCount mode)) then MaxStorableSize
  else MaxSizeAtMaxValidCapacity slot_size.

Definition MaxValidSize (key_size slot_size : Z) : Z :=
  Z.min (MaxValidSizeForKeySize key_size) (MaxValidSizeForSlotSize slot_size).

End MaxSize.

(** ** The capacity round trip *)
Lemma capacity_roundtrip mode m :
  1 <= m <= 53 -> let c := HashtableCapacity.make mode (2 ^ m - 1) in
  HashtableCapacity.capacity mode c = 2 ^ m - 1 /\ HashtableCapacity.IsValid mode c = true /\
  HashtableCapacity.is_small c = IsSmallCapacity (2 ^ m - 1) /\
  HashtableCapacity.FromRawData mode (HashtableCapacity.ToRawData c) = c.
Proof.
  intros Hm c. assert (B : 2 ^ 1 <= 2 ^ m <= 2 ^ 53) by (split; apply Z.pow_le_mono_r; lia).
  change (2 ^ 1) with 2 in B. change (2 ^ 53) with 9007199254740992 in B.
  assert (Small : IsSmallCapacity (2 ^ m - 1) = (m <=? 1)).
  { unfold IsSmallCapacity, kMaxSmallCapacity. apply eq_true_iff_eq. rewrite !Z.leb_le.
    pose proof (Z.pow_le_mono_r_iff 2 m 1 ltac:(lia) ltac:(lia)) as P. change (2 ^ 1) with 2 in P. lia. }
  rewrite Small. unfold c, HashtableCapacity.make, HashtableCapacity.capacity, HashtableCapacity.IsValid,
    HashtableCapacity.is_small, HashtableCapacity.FromRawData, HashtableCapacity.ToRawData,
    HashtableCapacity.int_bits, HashtableCapacity.kAboveMaxValidCapacity. destruct mode.
  - rewrite !(wrapu_small 64) by (change (2 ^ 64) with 18446744073709551616; lia).
    split; [reflexivity|]. split; [apply Z.leb_le; change (2 ^ 64) with 18446744073709551616; lia|].
    split; [|reflexivity]. unfold IsSmallCapacity, kMaxSmallCapacity in Small. exact Small.
  - rewrite (wrapu_small 64 (2 ^ m - 1 + 1)) by (change (2 ^ 64) with 18446744073709551616; lia).
    replace (2 ^ m - 1 + 1) with (2 ^ m * (2 * 0 + 1)) by lia. unfold TrailingZeros, countr_zero.
    rewrite CountTrailingZeroes_odd_part; [|unfold std_width; lia|lia|lia|].
    2: { rewrite in_u64_iff. lia. }
    rewrite !(wrapu_small 32) by (change (2 ^ 32) with 4294967296; lia).
    rewrite !(wrapu_small 8) by (change (2 ^ 8) with 256; lia).
    split; [|split; [apply Z.leb_le; lia|split; reflexivity]].
    rewrite Z.shiftl_mul_pow2, Z.mul_1_l by lia.
    rewrite !wrapu_small by (rewrite ?wrapu_small; change (2 ^ 64) with 18446744073709551616; lia). reflexivity.
Qed.

(** ** Layout *)
Lemma AlignUpTo_spec x k :
  0 <= k < 64 -> 0 <= x -> x + 2 ^ k - 1 < 2 ^ 64 ->
  AlignUpTo x (2 ^ k) mod 2 ^ k = 0 /\ x <= AlignUpTo x (2 ^ k) < x + 2 ^ k.
Proof.
  intros Hk Hx Hb. pose proof (pow2_pos k ltac:(lia)) as P. unfold AlignUpTo.
  assert (P64 : 2 ^ k <= 2 ^ 63) by (apply Z.pow_le_mono_r; lia). change (2 ^ 63) with 9223372036854775808 in P64.
  change (2 ^ 64) with 18446744073709551616 in Hb.
  assert (E1 : x +[64] 2 ^ k -[64] 1 = x + 2 ^ k - 1).
  { unfold wrapu. rewrite Zminus_mod_idemp_l. apply Z.mod_small. change (2 ^ 64) with 18446744073709551616. lia. }
  assert (E2 : (~[64] 2 ^ k) +[64] 1 = 2 ^ k * (2 ^ (64 - k) - 1)).
  { rewrite wrapu_add_l. unfold Z.lnot. replace (Z.pred (- 2 ^ k) + 1) with (- 2 ^ k) by lia.
    assert (E64 : 2 ^ 64 = 2 ^ k * 2 ^ (64 - k)) by (rewrite <- Z.pow_add_r by lia; f_equal; lia).
    unfold wrapu. rewrite E64. pose proof (pow2_pos (64 - k) ltac:(lia)). symmetry.
    apply (Z.mod_unique_pos _ _ (-1)); lia. }
  rewrite E1, E2. set (y := x + 2 ^ k - 1) in *.
  assert (E : Z.land y (2 ^ k * (2 ^ (64 - k) - 1)) = 2 ^ k * (y / 2 ^ k)).
  { apply Z.bits_inj'. intros i Hi. rewrite Z.land_spec, !(Z.mul_comm (2 ^ k)), !Z.mul_pow2_bits by lia.
    destruct (Z.lt_ge_cases i k); [rewrite !(Z.testbit_neg_r _ (i - k)) by lia; apply andb_false_r|].
    rewrite Z.div_pow2_bits by lia. replace (i - k + k) with i by lia.
    replace (2 ^ (64 - k) - 1) with (Z.ones (64 - k)) by (rewrite Z.ones_equiv; lia).
    destruct (Z.lt_ge_cases i 64).
    - rewrite Z.ones_spec_low by lia. apply andb_true_r.
    - rewrite (testbit_above 64 y); [reflexivity| |lia]. rewrite in_u64_iff. unfold y. lia. }
  rewrite E. rewrite Z.mul_comm, Z.mod_mul by lia. split; [reflexivity|].
  pose proof (Z.div_mod y (2 ^ k) ltac:(lia)). pose proof (Z.mod_pos_bound y (2 ^ k) P). unfold y in *. lia.
Qed.

(** When the backing array fits the address space, no offset wraps around. *)
Lemma make_layout_spec kWidth infoz gen capacity slot_size k has_infoz blocked :
  kWidth = 8 \/ kWidth = 16 -> 0 <= infoz <= 16 -> 0 <= gen <= 1 -> 1 <= capacity < 2 ^ 62 -> 0 < slot_size ->
  0 <= k < 64 -> 0 <= blocked <= capacity ->
  infoz + 9 + (capacity + kWidth) + 2 ^ k + (capacity - blocked) * slot_size < 2 ^ 64 ->
  let l := make_layout kWidth infoz gen capacity slot_size (2 ^ k) has_infoz blocked in
  generation_offset_ l + gen = control_offset_ l /\
  control_offset_ l + NumControlBytes kWidth capacity = slot_offset_ l /\
  slot_offset_ l mod 2 ^ k = 0 /\
  MetadataBeforeControlSize infoz gen has_infoz capacity <= control_offset_ l /\
  alloc_size_ l = slot_offset_ l + (capacity - blocked) * slot_size.
Proof.
  intros HW Hi Hg Hc Hs Hk Hb Ht l. pose proof (pow2_pos k ltac:(lia)) as P.
  change (2 ^ 62) with 4611686018427387904 in *. change (2 ^ 64) with 18446744073709551616 in Ht.
  set (M := MetadataBeforeControlSize infoz gen has_infoz capacity).
  assert (HM : gen <= M <= infoz + 8 + gen).
  { unfold M, MetadataBeforeControlSize, GrowthInfoSizeForCapacity. destruct has_infoz; [lia|].
    destruct (IsSmallCapacity capacity), (capacity <=? kMaxGrowthLeftLowerBound);
      rewrite wrapu_small by (change (2 ^ 64) with 18446744073709551616; lia); lia. }
  set (N := NumControlBytes kWidth capacity).
  assert (HN : 0 <= N <= capacity + kWidth).
  { unfold N, NumControlBytes, NumClonedBytes. destruct (IsSmallCapacity capacity); [lia|].
    rewrite !wrapu_small by (rewrite ?wrapu_small; change (2 ^ 64) with 18446744073709551616; lia). lia. }
  assert (Prod : 0 <= (capacity - blocked) * slot_size) by nia.
  assert (S : forall x, 0 <= x < 18446744073709551616 -> wrapu 64 x = x)
    by (intros; apply wrapu_small; change (2 ^ 64) with 18446744073709551616; lia).
  destruct (AlignUpTo_spec (M + N) k Hk ltac:(lia)) as [A1 A2];
    [change (2 ^ 64) with 18446744073709551616; lia|].
  unfold l, make_layout. cbv zeta. cbn [control_offset_ generation_offset_ slot_offset_ alloc_size_].
  fold M N. rewrite (S (M + N)), (S (M - gen)) by lia.
  set (A := AlignUpTo (M + N) (2 ^ k)) in *. rewrite (S (A - (M + N))) by lia.
  rewrite (S (M - gen + (A - (M + N)))), (S (M + (A - (M + N)))) by lia.
  rewrite (S (capacity - blocked)) by lia. rewrite (S ((capacity - blocked) * slot_size)) by lia.
  rewrite S by lia. repeat split; try lia.
Qed.

(** ** The allocation of the largest tables *)
Section Allocation.
Context (kWidth w : Z) (HW : kWidth = 2 ^ w) (Hw : w = 3 \/ w = 4) (mode : StorageMode).

(** Slots of at least [2^slot_bits] bytes are limited by the address space, smaller ones by the
    bits of the size field. *)
Definition slot_bits : Z := 64 - HashtableInlineData.kSizeBitCount mode.

Lemma slot_bits_val : slot_bits = 9 \/ slot_bits = 15.
Proof. unfold slot_bits. destruct mode; [now left|now right]. Qed.

Lemma MaxStorable_val : MaxStorableSize mode = 2 ^ (64 - slot_bits) - 1.
Proof. unfold slot_bits. destruct mode; reflexivity. Qed.

Lemma MaxValidSize_le key slot : 0 < slot ->
  MaxValidSize kWidth mode key slot
  <= if slot <? 2 ^ slot_bits then 2 ^ (64 - slot_bits) - 1 else 7 * 2 ^ 59 / slot.
Proof.
  intros Hs. unfold MaxValidSize, MaxValidSizeForSlotSize. rewrite MaxStorable_val.
  assert (E : 1 <<[64] (64 - HashtableInlineData.kSizeBitCount mode) = 2 ^ slot_bits)
    by (unfold slot_bits; destruct mode; reflexivity).
  rewrite E. case_if; [lia|]. unfold MaxSizeAtMaxValidCapacity.
  rewrite size_max_shiftr by lia. change (64 - 2) with 62.
  rewrite (CapacityToGrowth_val kWidth w HW Hw 62) by lia.
  rewrite (proj2 (Z.ltb_ge 62 w)), (proj2 (Z.leb_gt 62 (w + 2))) by lia.
  change (2 ^ (62 - 3)) with (2 ^ 59). lia.
Qed.

Lemma SizeToCapacity_le size cap :
  0 < size <= 7 * 2 ^ 61 -> SizeToCapacity kWidth size = Some cap -> size <= cap <= 3 * size /\ 1 <= cap.
Proof.
  intros Hs E. destruct (SizeToCapacity_galois kWidth w HW Hw size Hs) as (m & Hm & E' & G).
  rewrite E in E'. injection E' as ->.
  pose proof (proj2 (G m Hm) ltac:(lia)) as Up. rewrite (CapacityToGrowth_val kWidth w HW Hw) in Up by lia.
  pose proof (pow2_pos (m - 1) ltac:(lia)).
  assert (P1 : 2 ^ m = 2 * 2 ^ (m - 1)) by (rewrite <- Z.pow_succ_r by lia; f_equal; lia).
  assert (Lo : size <= 2 ^ m - 1).
  { destruct (m <? w); [lia|]. destruct (m <=? w + 2) eqn:E2; zbool; [lia|].
    assert (2 ^ m = 8 * 2 ^ (m - 3)) by (change 8 with (2 ^ 3); rewrite <- Z.pow_add_r by lia; f_equal; lia).
    pose proof (pow2_pos (m - 3) ltac:(lia)). lia. }
  split; [split; [exact Lo|]|lia].
  destruct (Z.eq_dec m 1) as [->|]; [change (2 ^ 1) with 2; lia|].
  assert (N : ~ size <= CapacityToGrowth kWidth (2 ^ (m - 1) - 1)) by (rewrite G by lia; lia).
  rewrite (CapacityToGrowth_val kWidth w HW Hw) in N by lia.
  destruct (m - 1 <? w); [lia|]. destruct (m - 1 <=? w + 2) eqn:E2; zbool; [lia|].
  assert (2 ^ m = 16 * 2 ^ (m - 1 - 3)) by (change 16 with (2 ^ 4); rewrite <- Z.pow_add_r by lia; f_equal; lia).
  lia.
Qed.

(** The sizes that the limit admits do not overflow the allocation, except for slots between half
    and the whole of [2^slot_bits] bytes. *)
Lemma allocation_fits key size cap slot k infoz blocked :
  0 < size <= MaxValidSize kWidth mode key slot -> SizeToCapacity kWidth size = Some cap ->
  0 < slot -> 0 <= k < 64 -> 0 <= infoz <= 16 -> 0 <= blocked <= cap ->
  (slot < 2 ^ (slot_bits - 1) /\ 2 ^ k <= 2 ^ (slot_bits - 2)) \/ (2 ^ slot_bits <= slot /\ 2 ^ k <= slot) ->
  1 <= cap < 2 ^ 62 /\ infoz + 9 + (cap + kWidth) + 2 ^ k + (cap - blocked) * slot < 2 ^ 64.
Proof.
  intros Hs E Hslot Hk Hi Hb Hcase. pose proof (MaxValidSize_le key slot Hslot) as L.
  assert (KW : kWidth <= 16) by (destruct Hw as [-> | ->]; rewrite HW; cbn; lia).
  assert (Hmono : (cap - blocked) * slot <= cap * slot) by nia.
  destruct Hcase as [[C1 C2]|[C1 C2]].
  - assert (CT : (slot <? 2 ^ slot_bits) = true).
    { apply Z.ltb_lt. apply Z.lt_le_trans with (1 := C1). apply Z.pow_le_mono_r; destruct slot_bits_val; lia. }
    rewrite CT in L.
    assert (S61 : size <= 7 * 2 ^ 61) by (destruct slot_bits_val as [R|R]; rewrite R in L; cbn in *; lia).
    destruct (SizeToCapacity_galois kWidth w HW Hw size ltac:(lia)) as (m & Hm & E' & G).
    rewrite E in E'. injection E' as ->.
    assert (ML : m <= 65 - slot_bits).
    { apply G; [destruct slot_bits_val; lia|]. rewrite (CapacityToGrowth_val kWidth w HW Hw) by (destruct slot_bits_val; lia).
      destruct slot_bits_val as [R|R]; rewrite R in *;
        rewrite (proj2 (Z.ltb_ge _ w)), (proj2 (Z.leb_gt _ (w + 2))) by lia; cbn in *; lia. }
    assert (CB : 2 ^ m <= 2 ^ (65 - slot_bits)) by (apply Z.pow_le_mono_r; lia).
    pose proof (pow2_pos m ltac:(lia)). assert (2 ^ 1 <= 2 ^ m) by (apply Z.pow_le_mono_r; lia).
    destruct slot_bits_val as [R|R]; rewrite R in *; cbn in C1, C2, CB |- *; nia.
  - assert (CT : (slot <? 2 ^ slot_bits) = false) by (apply Z.ltb_ge; lia). rewrite CT in L.
    assert (PS : size * slot <= 7 * 2 ^ 59).
    { pose proof (Z.mul_div_le (7 * 2 ^ 59) slot Hslot). nia. }
    assert (S512 : 512 <= slot).
    { destruct slot_bits_val as [R|R]; rewrite R in C1; cbn in C1; lia. }
    assert (SS : size * 512 <= size * slot) by nia. assert (S1 : slot <= size * slot) by nia.
    change (2 ^ 59) with 576460752303423488 in *.
    assert (S61 : size <= 7 * 2 ^ 61) by (change (2 ^ 61) with 2305843009213693952; lia).
    destruct (SizeToCapacity_le size cap ltac:(lia) E) as [[B1 B2] B3].
    assert (SC : cap * slot <= 3 * (size * slot)) by nia.
    change (2 ^ 62) with 4611686018427387904. change (2 ^ 64) with 18446744073709551616. lia.
Qed.

End Allocation.

Lemma NormalizeCapacity_spec n : in_u 64 n ->
  exists m, 1 <= m <= 64 /\ NormalizeCapacity n = 2 ^ m - 1 /\
    forall m', 1 <= m' <= 64 -> (n <= 2 ^ m' - 1 <-> m <= m').
Proof.
  intros Hn. unfold NormalizeCapacity. destruct (n =? 0) eqn:E; zbool; cbn [negb].
  - exists 1. split; [lia|]. split; [reflexivity|]. intros m' Hm'. pose proof (pow2_pos m' ltac:(lia)). lia.
  - exists (bitlen n). pose proof (bitlen_bound 64 n ltac:(lia) Hn) as B. unfold in_u in Hn.
    split; [split; [|lia]|].
    + destruct (Z.lt_ge_cases (bitlen n) 1) as [C|]; [|assumption].
      pose proof (proj1 (bitlen_le_iff n 0 ltac:(lia) ltac:(lia)) ltac:(lia)) as X. cbn in X. lia.
    + split; [now apply size_max_countl|]. intros m' Hm'. rewrite bitlen_le_iff by lia. lia.
Qed.

(** ** Properties *)

(** C39: the valid capacities are exactly [2^m - 1]; [NormalizeCapacity] gives the least one that is
    not below its argument, [NextCapacity] and [PreviousCapacity] the neighbours; and
    [SizeToCapacity] is the left adjoint of the load factor: the least valid capacity whose
    [CapacityToGrowth] admits the size, never a negative shift.  Its comment claims
    [NormalizeCapacity(size*8/7)], which is another capacity for size 14 in tables of 16-wide
    groups. *)
Theorem capacity_correct kWidth w n size :
  kWidth = 2 ^ w -> w = 3 \/ w = 4 -> in_u 64 n -> 0 < size <= 7 * 2 ^ 61 ->
  (IsValidCapacity n = true <-> exists m, 1 <= m <= 64 /\ n = 2 ^ m - 1) /\
  (exists m, 1 <= m <= 64 /\ NormalizeCapacity n = 2 ^ m - 1 /\
     forall m', 1 <= m' <= 64 -> (n <= 2 ^ m' - 1 <-> m <= m')) /\
  (forall m, 1 <= m < 64 -> NextCapacity (2 ^ m - 1) = 2 ^ (m + 1) - 1 /\
                            PreviousCapacity (2 ^ (m + 1) - 1) = 2 ^ m - 1) /\
  (exists m, 1 <= m <= 64 /\ SizeToCapacity kWidth size = Some (2 ^ m - 1) /\
     forall m', 1 <= m' <= 64 -> (size <= CapacityToGrowth kWidth (2 ^ m' - 1) <-> m <= m')) /\
  SizeToCapacity 16 14 = Some 15 /\ NormalizeCapacity (14 * 8 / 7) = 31.
Proof.
  intros HW Hw Hn Hs. split; [now apply IsValidCapacity_spec|]. split; [now apply NormalizeCapacity_spec|].
  split; [|split; [now apply (SizeToCapacity_galois kWidth w)|split; vm_compute; reflexivity]].
  intros m Hm. assert (P : 2 ^ (m + 1) = 2 * 2 ^ m) by (rewrite Z.pow_add_r by lia; lia).
  pose proof (pow2_pos m ltac:(lia)). assert (2 ^ (m + 1) <= 2 ^ 64) by (apply Z.pow_le_mono_r; lia).
  unfold NextCapacity, PreviousCapacity. split; [|zlia].
  rewrite wrapu_add_l, wrapu_small; lia.
Qed.

(** the [i]-th probe is at [hash + kWidth (i^2 + i)/2] modulo the table size; the first
    [(capacity + 1) / kWidth] windows visit every slot exactly once (a table smaller than a group is
    covered by the first window); and growing to the next capacity moves an element without
    probing exactly when it lies in its first old window, to one of its two images, which is in
    its first new window. *)
Lemma probe_correct kWidth w m h1 q i old_index :
  kWidth = 2 ^ w -> 0 <= w -> 1 <= m < 64 -> in_u 64 h1 -> 0 <= q < 2 ^ m -> 0 <= old_index < 2 ^ m ->
  offset_ (probe_at kWidth m h1 i) = (h1 + kWidth * tri (Z.of_nat i)) mod 2 ^ m /\
  (w <= m -> exists i j, 0 <= Z.of_nat i < 2 ^ (m - w) /\ 0 <= j < kWidth /\ offset (probe_at kWidth m h1 i) j = q /\
     (forall i' j', 0 <= Z.of_nat i' < 2 ^ (m - w) -> 0 <= j' < kWidth ->
        offset (probe_at kWidth m h1 i') j' = q -> i' = i /\ j' = j)) /\
  (m < w -> exists j, 0 <= j < kWidth /\ offset (probe_at kWidth m h1 0) j = q) /\
  (w <= m -> forall G window, in_first_group kWidth h1 (2 ^ m - 1) old_index ->
     let r := TryFindNewIndexWithoutProbing kWidth G h1 old_index (2 ^ m - 1) window (2 ^ (m + 1) - 1) in
     (r = old_index \/ r = old_index + 2 ^ m) /\ in_first_group kWidth h1 (2 ^ (m + 1) - 1) r).
Proof.
  intros HW Hw Hm Hh Hq Ho. split; [now apply (probe_at_spec kWidth w); lia|].
  split; [intros; apply (probe_covers kWidth w); auto; lia|].
  split; [intros; apply (probe_covers_small kWidth w); auto; lia|].
  intros Hwm G window Hf. unfold TryFindNewIndexWithoutProbing. cbv zeta.
  destruct (transfer_direct kWidth w m h1 old_index HW Hw ltac:(lia) ltac:(lia) Ho) as [T1 T2].
  rewrite (proj2 T1 Hf). exact (T2 Hf).
Qed.

(** The growth information implements a counter of free slots and a "may have deleted slots"
    flag: initialization, the four overwrites and the rebalancing between the low byte and the
    seven bytes before it change exactly the count and the flag they should, whatever the
    capacity and the byte order of the host; rebalancing reports growth left in the low byte
    exactly when there is some. *)
Lemma growth_info_correct host mem capacity growth_left ctrl :
  mem_ok mem -> 0 <= growth_left < 2 ^ 56 -> (capacity <= 127 -> growth_left <= 127) ->
  let '(g, d) := growth_abs host mem capacity in
  let abs m := growth_abs host m capacity in
  abs (GrowthInfo.InitGrowthLeftNoDeleted host mem growth_left capacity) = (growth_left, false) /\
  abs (GrowthInfo.OverwriteFullAsDeleted mem) = (g, true) /\
  (0 < GrowthInfo.GetGrowthLeftLowerBound mem -> abs (GrowthInfo.OverwriteEmptyAsFull mem) = (g - 1, d)) /\
  (b2z (IsEmpty ctrl) <= GrowthInfo.GetGrowthLeftLowerBound mem ->
   abs (GrowthInfo.OverwriteControlAsFull mem ctrl) = (g - b2z (IsEmpty ctrl), d)) /\
  ((capacity <= 127 -> g < 127) -> g + 1 < 2 ^ 56 -> abs (GrowthInfo.OverwriteFullAsEmpty host mem) = (g + 1, d)) /\
  (let '(r, mem') := GrowthInfo.RebalanceGrowthLeftLowerBound host mem capacity in
   mem_ok mem' /\ abs mem' = (g, d) /\ r = GrowthInfo.GetGrowthInfoLowerBound mem' /\
   (GrowthInfoLowerBound.GetGrowthLeft r > 0 <-> g > 0)).
Proof.
  intros Hm Hg Hc. pose proof (Init_abs host mem growth_left capacity Hm Hg Hc) as [_ I].
  pose proof (byte_ops_abs host mem capacity Hm) as B.
  pose proof (FullAsEmpty_abs host mem capacity Hm) as E.
  pose proof (Rebalance_abs host mem capacity Hm) as R.
  destruct (growth_abs host mem capacity) as [g d]. cbv zeta.
  destruct B as (B1 & B2 & B3 & _). split; [exact I|]. split; [exact B1|]. split; [exact B2|].
  split; [apply B3|]. split; [intros; now apply E|]. exact R.
Qed.

(** The packed inline data implements a record of size, blocked count, sampling bit and seed:
    every setter and counter changes its own field and leaves the others and the capacity alone,
    in both storage modes, as long as the size fits its bits; and a valid capacity survives being
    stored as a value or as a logarithm. *)
Lemma inline_data_correct mode s n c m :
  data_ok mode s -> 0 <= n -> 0 <= c < 8 -> 1 <= m <= 53 ->
  let f := view mode s in
  let sized k := mk_fields k (f_blocked f) (f_infoz f) (f_seed f) in
  (f_size f + 1 < 2 ^ (data_bits mode - 9) -> view mode (HashtableInlineData.increment_size mode s) = sized (f_size f + 1)) /\
  (f_size f + n < 2 ^ (data_bits mode - 9) -> view mode (HashtableInlineData.increment_size_by mode s n) = sized (f_size f + n)) /\
  (0 < f_size f -> view mode (HashtableInlineData.decrement_size mode s) = sized (f_size f - 1)) /\
  (n < 2 ^ (data_bits mode - 9) -> view mode (HashtableInlineData.set_size mode s n) = sized n) /\
  HashtableInlineData.empty mode s = (f_size f =? 0) /\
  view mode (HashtableInlineData.set_seed mode s c) = mk_fields (f_size f) (f_blocked f) (f_infoz f) c /\
  view mode (HashtableInlineData.set_has_infoz mode s) = mk_fields (f_size f) (f_blocked f) true (f_seed f) /\
  (f_blocked f = 0 -> view mode (HashtableInlineData.init_blocked_element_count mode s c)
                      = mk_fields (f_size f) c (f_infoz f) (f_seed f)) /\
  view mode (HashtableInlineData.set_blocked_element_count_to_zero mode s)
  = mk_fields (f_size f) 0 (f_infoz f) (f_seed f) /\
  HashtableInlineData.is_sampled_seed mode s = (f_seed f =? 31) /\
  HashtableCapacity.capacity mode (HashtableCapacity.make mode (2 ^ m - 1)) = 2 ^ m - 1.
Proof.
  intros Hok Hn Hc Hm. pose proof (size_ops mode s Hok n) as S. pose proof (meta_ops mode s Hok c) as M.
  pose proof (size_ops mode s Hok (f_size (view mode s) + 1)) as S1. cbv zeta in *.
  destruct S as (_ & S2 & S3 & S4 & S5). destruct S1 as (S1 & _).
  destruct M as (M1 & _ & M3 & M4 & M5 & _).
  split; [intros; now apply S1|]. split; [intros; now apply S2|]. split; [intros; now apply S3|].
  split; [intros; now apply S4|]. split; [exact S5|]. split; [apply M1; lia|]. split; [apply M3|].
  split; [intros; now apply M4|]. split; [apply M5|]. split; [now apply sampled_seed_spec|].
  now apply capacity_roundtrip.
Qed.

(** C40: for every size that [MaxValidSize] admits, the backing array of the table that holds it is
    laid out without overflow (growth information, generation, control bytes, then the slots at
    their alignment, and an allocation that ends with the last slot), provided the slot is smaller
    than half of [2^slot_bits] bytes or at least [2^slot_bits].  For the slots in between the limit
    admits sizes whose allocation size wraps around: 16384-byte slots, size [2^49 - 1]. *)
Theorem layout_correct kWidth w mode key size cap slot k infoz gen has_infoz blocked :
  kWidth = 2 ^ w -> w = 3 \/ w = 4 ->
  0 < size <= MaxValidSize kWidth mode key slot -> SizeToCapacity kWidth size = Some cap ->
  0 < slot -> 0 <= k < 64 -> 0 <= infoz <= 16 -> 0 <= gen <= 1 -> 0 <= blocked <= cap ->
  (slot < 2 ^ (slot_bits mode - 1) /\ 2 ^ k <= 2 ^ (slot_bits mode - 2)) \/
  (2 ^ slot_bits mode <= slot /\ 2 ^ k <= slot) ->
  let l := make_layout kWidth infoz gen cap slot (2 ^ k) has_infoz blocked in
  generation_offset_ l + gen = control_offset_ l /\
  control_offset_ l + NumControlBytes kWidth cap = slot_offset_ l /\
  slot_offset_ l mod 2 ^ k = 0 /\
  MetadataBeforeControlSize infoz gen has_infoz cap <= control_offset_ l /\
  alloc_size_ l = slot_offset_ l + (cap - blocked) * slot /\
  (2 ^ 49 - 1 <= MaxValidSize 16 kCapacityByLog 8 (2 ^ 14) /\
   SizeToCapacity 16 (2 ^ 49 - 1) = Some (2 ^ 50 - 1) /\
   let bad := make_layout 16 8 0 (2 ^ 50 - 1) (2 ^ 14) (2 ^ 3) false 0 in alloc_size_ bad < slot_offset_ bad).
Proof.
  intros HW Hw Hs E Hslot Hk Hi Hg Hb Hcase l.
  destruct (allocation_fits kWidth w HW Hw mode key size cap slot k infoz blocked) as [C T]; auto.
  destruct (make_layout_spec kWidth infoz gen cap slot k has_infoz blocked) as (L1 & L2 & L3 & L4 & L5); auto.
  - destruct Hw as [-> | ->]; [left|right]; exact HW.
  - repeat split; auto; try (vm_compute; intuition congruence).
Qed.

Lemma capacity_correct_witness : IsValidCapacity 127 = true /\ exists m, SizeToCapacity 8 100 = Some (2 ^ m - 1).
Proof.
  destruct (capacity_correct 8 3 127 100 eq_refl (or_introl eq_refl) ltac:(split; reflexivity || discriminate)
    ltac:(split; [reflexivity|discriminate])) as (V & _ & _ & (m & _ & E & _) & _).
  split; [apply V; exists 7; split; [lia|reflexivity]|exists m; exact E].
Defined.

Lemma probe_correct_witness : offset_ (probe_at 16 10 12345 3) = (12345 + 16 * 6) mod 1024.
Proof.
  apply (probe_correct 16 4 10 12345 0 3 0); try reflexivity; try lia; split; reflexivity || discriminate.
Defined.

Lemma growth_info_correct_witness :
  growth_abs big (GrowthInfo.InitGrowthLeftNoDeleted big (repeat 0 8) 896 1023) 1023 = (896, false).
Proof.
  pose proof (growth_info_correct big (repeat 0 8) 1023 896 kEmpty) as H.
  assert (M : mem_ok (repeat 0 8)) by (split; [reflexivity|repeat constructor; discriminate || reflexivity]).
  specialize (H M ltac:(split; reflexivity || discriminate) ltac:(lia)).
  destruct (growth_abs big (repeat 0 8) 1023) as [g d]. apply H.
Defined.

Lemma layout_correct_witness :
  let l := make_layout 16 8 0 127 24 (2 ^ 3) false 0 in alloc_size_ l = slot_offset_ l + 127 * 24.
Proof.
  apply (layout_correct 16 4 kCapacityByLog 8 100 127 24 3 8 0 false 0);
    try reflexivity; try lia; try (now right).
  - vm_compute. split; [reflexivity|discriminate].
  - left. vm_compute. split; [reflexivity|discriminate].
Defined.
