(* ===== verification/RawTable.v ===== *)
(** The Swiss table on its backing array: probing for an element or a free slot, writing control
    bytes with their mirror, insertion into a table that has room or can be rehashed in place,
    erasure, clearing, iteration over the full slots and re-insertion into a resized array ([raw_hash_set.h],
    [raw_hash_set.cc]), for tables of more than one slot.  The probing group is any
    implementation of [GroupOps] that satisfies [GroupLaws]. *)
From Stdlib Require Import ZArith Lia List Bool Permutation.
From S2P Require Import Prelude.
From S2P Require Import Bits.
From S2P Require Import Endian.
From S2P Require Import ControlBytes.
From S2P Require Import SwissTable.
Import ListNotations.
#[local] Open Scope Z_scope.
#[local] Open Scope mach_scope.

(** ** Policy: what the container is instantiated with *)
Record Policy (V K : Type) := mk_Policy {
  key_of : V -> K;
  hash_of : Z -> K -> Z;   (** the hash of a key under a table's seed *)
  equal_to : K -> K -> bool
}.
Arguments key_of {V K}. Arguments hash_of {V K}. Arguments equal_to {V K}.

(** What the documentation asks of hash and equality functors. *)
Class PolicyLaws {V K} (P : Policy V K) : Prop := {
  hash_range seed k : in_u 64 (hash_of P seed k);
  eq_refl_k k : equal_to P k k = true;
  eq_sym_k k k' : equal_to P k k' = equal_to P k' k;
  eq_trans_k k1 k2 k3 : equal_to P k1 k2 = true -> equal_to P k2 k3 = true -> equal_to P k1 k3 = true;
  eq_hash seed k k' : equal_to P k k' = true -> hash_of P seed k = hash_of P seed k'
}.

(** ** The state *)
Record CommonFields (V : Type) := mk_Common {
  inline_data_ : HashtableInlineData.t;
  control : list Z;               (** [NumControlBytes(capacity)] control bytes *)
  slot_array : list (option V);   (** the slots; [None] is uninitialized memory *)
  growth_mem : list Z             (** the eight bytes of growth information *)
}.
Arguments mk_Common {V}. Arguments inline_data_ {V}. Arguments control {V}.
Arguments slot_array {V}. Arguments growth_mem {V}.

Record FindInfo := mk_FindInfo { fi_offset : Z; fi_probe_length : Z }.

Definition kMaxBlockedElementsForLargeTables : Z := 5.

Section Ops.
Context {V K : Type} (G : GroupOps) (host : endian) (mode : StorageMode) (P : Policy V K).

Abbreviation kWidth := (Z.of_nat (gWidth G)).
Abbreviation CommonFields := (CommonFields V).

Definition with_inline (c : CommonFields) (d : HashtableInlineData.t) : CommonFields :=
  mk_Common d (control c) (slot_array c) (growth_mem c).
Definition with_control (c : CommonFields) (ctrl : list Z) : CommonFields :=
  mk_Common (inline_data_ c) ctrl (slot_array c) (growth_mem c).
Definition with_slots (c : CommonFields) (s : list (option V)) : CommonFields :=
  mk_Common (inline_data_ c) (control c) s (growth_mem c).
Definition with_growth (c : CommonFields) (g : list Z) : CommonFields :=
  mk_Common (inline_data_ c) (control c) (slot_array c) g.

Definition capacity (c : CommonFields) : Z :=
  HashtableCapacity.capacity mode (HashtableInlineData.capacity mode (inline_data_ c)).
Definition size (c : CommonFields) : Z := HashtableInlineData.size mode (inline_data_ c).
Definition seed (c : CommonFields) : Z := HashtableInlineData.seed mode (inline_data_ c).
Definition blocked_element_count (c : CommonFields) : Z :=
  HashtableInlineData.blocked_element_count (inline_data_ c).

(** A group load at a position of the control array. *)
Definition load_group (width : nat) (ctrl : list Z) (pos : Z) : option (list Z) :=
  if (0 <=? pos) && (pos + Z.of_nat width <=? Z.of_nat (length ctrl))
  then Some (firstn width (skipn (Z.to_nat pos) ctrl)) else None.

(** An initialized slot. *)
Definition read_slot (slots : list (option V)) (i : Z) : option V := do s <- read slots i; s.

(** ** Probing *)

(** [while (true) { ...; seq.next(); }]: the body stops with [Some a] or goes on with [None]. *)
Fixpoint probe_loop {A} (fuel : nat) (body : probe_seq -> option (option A)) (seq : probe_seq) : option A :=
  match fuel with
  | O => None
  | S f =>
      do r <- body seq;
      match r with Some a => Some a | None => probe_loop f body (next kWidth seq) end
  end.

(** The windows of one round. *)
Definition rounds (capacity : Z) : nat := S (Z.to_nat (capacity / kWidth)).

Definition probe_till_first_non_full_group (ctrl : list Z) (seq : probe_seq) (capacity : Z)
    : option (Z * probe_seq) :=
  probe_loop (rounds capacity) (fun seq =>
    do g <- load_group (gWidth G) ctrl (offset_ seq);
    let mask := gMaskEmptyOrDeleted G g in
    Some (if NonIterableBitMask.to_bool mask then Some (mask, seq) else None)) seq.

Definition find_first_non_full_from_h1 (ctrl : list Z) (h1 capacity : Z) : option FindInfo :=
  let seq := probe_h1 capacity h1 in
  do b <- read ctrl (offset_ seq);
  if IsEmptyOrDeleted b then Some (mk_FindInfo (offset_ seq) 0)
  else
    do (mask, seq) <- probe_till_first_non_full_group ctrl seq capacity;
    Some (mk_FindInfo (offset seq (NonIterableBitMask.LowestBitSet (gBits G) (gShift G) mask)) (index_ seq)).

Definition find_first_non_full (c : CommonFields) (hash : Z) : option FindInfo :=
  find_first_non_full_from_h1 (control c) (H1 hash) (capacity c).

(** [for (uint32_t i : g.Match(h2)) if (equal_to(key, slot_array + seq.offset(i))) return ...] *)
Fixpoint match_loop (slots : list (option V)) (key : K) (seq : probe_seq) (is_ : list Z) : option (option Z) :=
  match is_ with
  | [] => Some None
  | i :: rest =>
      do v <- read_slot slots (offset seq i);
      if equal_to P key (key_of P v) then Some (Some (offset seq i)) else match_loop slots key seq rest
  end.

(** The offset of the slot with the key, or [None] for [end()]. *)
Definition find_large (c : CommonFields) (key : K) : option (option Z) :=
  let cap := capacity c in
  let hash := hash_of P (seed c) key in
  let h2 := H2 hash in
  probe_loop (rounds cap) (fun seq =>
    do g <- load_group (gWidth G) (control c) (offset_ seq);
    do hit <- match_loop (slot_array c) key seq (mask_positions G (gMatch G g h2));
    match hit with
    | Some off => Some (Some (Some off))
    | None => Some (if NonIterableBitMask.to_bool (gMaskEmpty G g) then Some None else None)
    end) (probe cap hash).

(** ** Control bytes *)
Definition NumCloned : Z := NumClonedBytes kWidth.

Definition SetCtrlNoSanitizeImpl (c : CommonFields) (i h : Z) : option CommonFields :=
  let cap := capacity c in
  do ctrl <- write (control c) i h;
  do ctrl <- write ctrl (((i -[64] NumCloned) .& cap) +[64] (NumCloned .& cap)) h;
  Some (with_control c ctrl).

Definition SetCtrl (c : CommonFields) (i h : Z) : option CommonFields := SetCtrlNoSanitizeImpl c i h.

Definition BlockCtrl (c : CommonFields) (i : Z) : option CommonFields := SetCtrlNoSanitizeImpl c i kSentinel.

Definition SetCtrlInSingleGroupTable (c : CommonFields) (i h : Z) : option CommonFields :=
  let cap := capacity c in
  do ctrl <- write (control c) i h;
  do ctrl <- write ctrl (i +[64] cap +[64] 1) h;
  Some (with_control c ctrl).

Definition SetCtrlInLargeTable (c : CommonFields) (i h : Z) : option CommonFields :=
  do ctrl <- write (control c) i h;
  do ctrl <- write ctrl (((i -[64] NumCloned) .& capacity c) +[64] NumCloned) h;
  Some (with_control c ctrl).

(** [while (n > 0) { BlockCtrl(common, capacity - n); --n; }] *)
Fixpoint BlockControlBytes (c : CommonFields) (n : nat) : option CommonFields :=
  match n with
  | O => Some c
  | S n' => do c <- BlockCtrl c (capacity c -[64] Z.of_nat n); BlockControlBytes c n'
  end.

(** [std::memset(ctrl + pos, kEmpty, n)] *)
Fixpoint memset_empty (ctrl : list Z) (pos : Z) (n : nat) : option (list Z) :=
  match n with
  | O => Some ctrl
  | S n' => do ctrl <- write ctrl pos kEmpty; memset_empty ctrl (pos + 1) n'
  end.

Definition ResetCtrl (c : CommonFields) (blocked : Z) : option CommonFields :=
  let capacity := capacity c in
  let kTwoGroupCapacity := 2 * kWidth - 1 in
  if (capacity <=? kTwoGroupCapacity) && IsSmallCapacity capacity then Some c
  else
    do ctrl <-
      (if capacity <=? kTwoGroupCapacity then
         do ctrl <- memset_empty (control c) 0 (gWidth G);
         do ctrl <- memset_empty ctrl capacity (gWidth G);
         if capacity =? kTwoGroupCapacity then memset_empty ctrl kWidth (gWidth G) else Some ctrl
       else memset_empty (control c) 0 (Z.to_nat (capacity + 1 + NumCloned)));
    do ctrl <- write ctrl capacity kSentinel;
    BlockControlBytes (with_control c ctrl) (Z.to_nat blocked).

(** ** Growth information *)
Definition ResetGrowthLeft (mem : list Z) (capacity occupied_elements : Z) : list Z :=
  GrowthInfo.InitGrowthLeftNoDeleted host mem (CapacityToGrowth kWidth capacity -[64] occupied_elements) capacity.

Definition PrepareInsertCommon (c : CommonFields) : CommonFields :=
  with_inline c (HashtableInlineData.increment_size mode (inline_data_ c)).

(** ** Erasure *)
Definition WasNeverFull (c : CommonFields) (index : Z) : option bool :=
  if is_single_group kWidth (capacity c) then Some true
  else
    let index_before := (index -[64] kWidth) .& capacity c in
    do after <- load_group (gWidth G) (control c) index;
    let empty_after := gMaskEmpty G after in
    do before <- load_group (gWidth G) (control c) index_before;
    let empty_before := gMaskEmpty G before in
    Some (NonIterableBitMask.to_bool empty_before && NonIterableBitMask.to_bool empty_after &&
          (NonIterableBitMask.TrailingZeros (gBits G) (gShift G) empty_after
           + NonIterableBitMask.LeadingZeros (gBits G) kWidth (gShift G) empty_before <? kWidth)).

Definition EraseMetaOnlyLarge (c : CommonFields) (index : Z) : option CommonFields :=
  let c := with_inline c (HashtableInlineData.decrement_size mode (inline_data_ c)) in
  do never <- WasNeverFull c index;
  if never : bool then
    do c <- SetCtrl c index kEmpty;
    Some (with_growth c (GrowthInfo.OverwriteFullAsEmpty host (growth_mem c)))
  else
    let c := with_growth c (GrowthInfo.OverwriteFullAsDeleted (growth_mem c)) in
    SetCtrlInLargeTable c index kDeleted.

(** [destroy] of an initialized slot. *)
Definition destroy (c : CommonFields) (index : Z) : option CommonFields :=
  do _ <- read_slot (slot_array c) index;
  do s <- write (slot_array c) index None;
  Some (with_slots c s).

(** [erase(iterator)] *)
Definition erase_at (c : CommonFields) (index : Z) : option CommonFields :=
  do c <- destroy c index; EraseMetaOnlyLarge c index.

(** [erase(key)]: the number of erased elements. *)
Definition erase_key (c : CommonFields) (key : K) : option (CommonFields * Z) :=
  do it <- find_large c key;
  match it with
  | None => Some (c, 0)
  | Some index => do c <- erase_at c index; Some (c, 1)
  end.

(** ** Rehashing in place *)

(** [for (ctrl_t* pos = ctrl; pos < ctrl + capacity; pos += Group::kWidth)] *)
Fixpoint convert_loop (fuel : nat) (ctrl : list Z) (pos capacity : Z) : option (list Z) :=
  if pos <? capacity then
    match fuel with
    | O => None
    | S f =>
        do g <- load_group (gWidth G) ctrl pos;
        convert_loop f (firstn (Z.to_nat pos) ctrl ++ gConvert G g (skipn (Z.to_nat pos) ctrl)) (pos + kWidth) capacity
    end
  else Some ctrl.

(** [std::memcpy(dst + pos, dst, n)] of ranges that do not overlap. *)
Definition memcpy_front (ctrl : list Z) (pos n : Z) : option (list Z) :=
  if (0 <=? n) && (n <=? pos) && (pos + n <=? Z.of_nat (length ctrl))
  then Some (firstn (Z.to_nat pos) ctrl ++ firstn (Z.to_nat n) ctrl ++ skipn (Z.to_nat (pos + n)) ctrl) else None.

Definition ConvertDeletedToEmptyAndFullToDeleted (ctrl : list Z) (capacity : Z) : option (list Z) :=
  do ctrl <- convert_loop (rounds capacity) ctrl 0 capacity;
  do ctrl <- memcpy_front ctrl (capacity + 1) NumCloned;
  write ctrl capacity kSentinel.

(** [FindEmptySlot(start, start + n, ctrl)] *)
Fixpoint FindEmptySlot (n : nat) (start : Z) (ctrl : list Z) : option Z :=
  match n with
  | O => None
  | S n' => do b <- read ctrl start; if IsEmpty b then Some start else FindEmptySlot n' (start + 1) ctrl
  end.

(** [transfer_n(set, dst, src, 1)]: the source slot is left uninitialized. *)
Definition transfer (c : CommonFields) (dst src : Z) : option CommonFields :=
  do v <- read_slot (slot_array c) src;
  do s <- write (slot_array c) dst (Some v);
  do s <- write s src None;
  Some (with_slots c s).

Definition kUnknownId : Z := size_max.

(** The loop over the slots: [tmp] is [tmp_space_id], [total] is [total_probe_length]. *)
Fixpoint rehash_loop (fuel : nat) (c : CommonFields) (i tmp total : Z) : option (CommonFields * Z) :=
  let cap := capacity c in
  if i =? cap then Some (c, total)
  else
    match fuel with
    | O => None
    | S f =>
        do b <- read (control c) i;
        if IsEmpty b then rehash_loop f c (i + 1) i total
        else if negb (IsDeleted b) then rehash_loop f c (i + 1) tmp total
        else
          do v <- read_slot (slot_array c) i;
          let hash := hash_of P (seed c) (key_of P v) in
          do target <- find_first_non_full c hash;
          let new_i := fi_offset target in
          let total := total +[64] fi_probe_length target in
          let probe_offset := offset_ (probe cap hash) in
          let h2 := H2 hash in
          let probe_index pos := ((pos -[64] probe_offset) .& cap) / kWidth in
          if probe_index new_i =? probe_index i then
            do c <- SetCtrlInLargeTable c i h2;
            rehash_loop f c (i + 1) tmp total
          else
            do b' <- read (control c) new_i;
            if IsEmpty b' then
              do c <- SetCtrlInLargeTable c new_i h2;
              do c <- transfer c new_i i;
              do c <- SetCtrlInLargeTable c i kEmpty;
              rehash_loop f c (i + 1) i total
            else
              do c <- SetCtrlInLargeTable c new_i h2;
              do tmp <- (if tmp =? kUnknownId then FindEmptySlot (Z.to_nat (cap - (i + 1))) (i + 1) (control c)
                         else Some tmp);
              do c <- transfer c tmp new_i;
              do c <- transfer c new_i i;
              do c <- transfer c i tmp;
              rehash_loop f c i tmp total
    end.

(** The table and the slot prepared for the new element. *)
Definition DropDeletesWithoutResizeAndPrepareInsert (c : CommonFields) (new_hash : Z) : option (CommonFields * Z) :=
  let cap := capacity c in
  let blocked := blocked_element_count c in
  do ctrl <- ConvertDeletedToEmptyAndFullToDeleted (control c) cap;
  do c <- BlockControlBytes (with_control c ctrl) (Z.to_nat blocked);
  do (c, _) <- rehash_loop (Z.to_nat (2 * cap)) c 0 kUnknownId 0;
  let c := PrepareInsertCommon c in
  let c := with_growth c (ResetGrowthLeft (growth_mem c) cap (size c +[64] blocked)) in
  do find_info <- find_first_non_full c new_hash;
  do c <- SetCtrlInLargeTable c (fi_offset find_info) (H2 new_hash);
  Some (c, fi_offset find_info).

(** ** Insertion.  The call that replaces the backing array by the next larger one is an outcome. *)
Inductive Prepared :=
  | InsertAt (c : CommonFields) (slot : Z)
  | GrowToNextCapacityAndPrepareInsert (c : CommonFields) (hash : Z).

Definition RehashOrGrowToNextCapacityAndPrepareInsert (c : CommonFields) (new_hash : Z) : option Prepared :=
  let cap := capacity c in
  if size c *[64] 32 <=? (cap -[64] kMaxBlockedElementsForLargeTables) *[64] 25
  then do (c, slot) <- DropDeletesWithoutResizeAndPrepareInsert c new_hash; Some (InsertAt c slot)
  else Some (GrowToNextCapacityAndPrepareInsert c new_hash).

Definition PrepareInsertLargeSlow (c : CommonFields) (hash : Z) : option Prepared :=
  let (lower_bound, mem) := GrowthInfo.RebalanceGrowthLeftLowerBound host (growth_mem c) (capacity c) in
  let c := with_growth c mem in
  if GrowthInfoLowerBound.HasNoGrowthLeftAndNoDeleted lower_bound
  then Some (GrowToNextCapacityAndPrepareInsert c hash)
  else if GrowthInfoLowerBound.HasNoGrowthLeftAndHaveDeleted lower_bound
  then RehashOrGrowToNextCapacityAndPrepareInsert c hash
  else
    do target <- find_first_non_full c hash;
    let c := PrepareInsertCommon c in
    do b <- read (control c) (fi_offset target);
    let c := with_growth c (GrowthInfo.OverwriteControlAsFull (growth_mem c) b) in
    do c <- SetCtrlInLargeTable c (fi_offset target) (H2 hash);
    Some (InsertAt c (fi_offset target)).

Definition PrepareInsertLarge (c : CommonFields) (hash mask_empty : Z) (target_group : FindInfo)
    : option Prepared :=
  if negb (GrowthInfoLowerBound.HasNoDeletedAndGrowthLeft (GrowthInfo.GetGrowthInfoLowerBound (growth_mem c)))
  then PrepareInsertLargeSlow c hash
  else
    let c := PrepareInsertCommon c in
    let c := with_growth c (GrowthInfo.OverwriteEmptyAsFull (growth_mem c)) in
    let off := (fi_offset target_group
                +[64] NonIterableBitMask.LowestBitSet (gBits G) (gShift G) mask_empty) .& capacity c in
    do c <- SetCtrl c off (H2 hash);
    Some (InsertAt c off).

(** The slot that holds the key, or the slot prepared for it. *)
Definition find_or_prepare_insert_large (c : CommonFields) (key : K) : option (Z + Prepared) :=
  let cap := capacity c in
  let hash := hash_of P (seed c) key in
  let h2 := H2 hash in
  do r <- probe_loop (rounds cap) (fun seq =>
    do g <- load_group (gWidth G) (control c) (offset_ seq);
    do hit <- match_loop (slot_array c) key seq (mask_positions G (gMatch G g h2));
    match hit with
    | Some off => Some (Some (inl off))
    | None =>
        let mask_empty := gMaskEmpty G g in
        Some (if NonIterableBitMask.to_bool mask_empty
              then Some (inr (mask_empty, mk_FindInfo (offset_ seq) (index_ seq))) else None)
    end) (probe cap hash);
  match r with
  | inl off => Some (inl off)
  | inr (mask_empty, target) => do p <- PrepareInsertLarge c hash mask_empty target; Some (inr p)
  end.

(** [EmplaceDecomposable]: construct the value in the prepared slot. *)
Definition construct (c : CommonFields) (slot : Z) (v : V) : option CommonFields :=
  do s <- write (slot_array c) slot (Some v); Some (with_slots c s).

Inductive Emplaced :=
  | Found (slot : Z)
  | Inserted (c : CommonFields) (slot : Z)
  | Reallocates (p : Prepared).

Definition emplace (c : CommonFields) (v : V) : option Emplaced :=
  do r <- find_or_prepare_insert_large c (key_of P v);
  match r with
  | inl off => Some (Found off)
  | inr (InsertAt c slot) => do c <- construct c slot v; Some (Inserted c slot)
  | inr p => Some (Reallocates p)
  end.

(** ** Iteration: the slots the callback is called on, in order *)
Definition is_half_group (capacity : Z) : bool := capacity <? kWidth - 1.

Fixpoint full_groups_loop (fuel : nat) (ctrl : list Z) (pos remaining : Z) : option (list Z) :=
  if remaining =? 0 then Some []
  else
    match fuel with
    | O => None
    | S f =>
        do g <- load_group (gWidth G) ctrl pos;
        let is_ := mask_positions G (gMaskFull G g) in
        do rest <- full_groups_loop f ctrl (pos + kWidth) (remaining -[64] Z.of_nat (length is_));
        Some (map (fun i => pos + i) is_ ++ rest)
    end.

Definition IterateOverFullSlotsImpl (c : CommonFields) : option (list Z) :=
  let cap := capacity c in
  if is_half_group cap then
    do g <- load_group GroupPortableImpl.kWidth (control c) cap;
    let mask := mask_positions (portable_group host) (gMaskFull (portable_group host) g) in
    Some (map (fun i => i - 1) mask)
  else full_groups_loop (rounds cap) (control c) 0 (size c).

Fixpoint FindFirstFullSlot (n : nat) (start : Z) (ctrl : list Z) : option Z :=
  match n with
  | O => None
  | S n' => do b <- read ctrl start; if IsFull b then Some start else FindFirstFullSlot n' (start + 1) ctrl
  end.

(** ** Clearing *)
Fixpoint destroy_each (c : CommonFields) (is_ : list Z) : option CommonFields :=
  match is_ with
  | [] => Some c
  | i :: rest => do c <- destroy c i; destroy_each c rest
  end.

Definition DestroySlots (c : CommonFields) : option CommonFields :=
  do is_ <- IterateOverFullSlotsImpl c; destroy_each c is_.

(** [CommonFields{soo_tag_t{}}] and [CommonFields{non_soo_tag_t{}}] *)
Definition CreateDefault (soo_enabled : bool) : CommonFields :=
  mk_Common (HashtableInlineData.no_seed_empty mode
               (HashtableCapacity.make mode (if soo_enabled then 1 else 0))) [] [] [].

Definition ClearBackingArray (soo_enabled : bool) (c : CommonFields) (reuse : bool) : option CommonFields :=
  if reuse then
    let blocked := blocked_element_count c in
    let c := with_inline c (HashtableInlineData.set_size mode (inline_data_ c) 0) in
    do c <- ResetCtrl c blocked;
    Some (with_growth c (ResetGrowthLeft (growth_mem c) (capacity c) blocked))
  else Some (CreateDefault soo_enabled).

Definition Clear (soo_enabled : bool) (c : CommonFields) : option CommonFields :=
  do c <- DestroySlots c;
  ClearBackingArray soo_enabled c (capacity c <? 128).

(** ** Allocation of an empty table; [has_infoz] tells whether the table is sampled *)
Definition generate_new_seed (d : HashtableInlineData.t) (has_infoz : bool) (next_seed : Z) : HashtableInlineData.t :=
  if has_infoz then HashtableInlineData.set_sampled_seed mode d
  else HashtableInlineData.set_seed mode d next_seed.

Definition ResizeEmptyNonAllocatedTableImpl (c : CommonFields) (new_capacity blocked : Z) (has_infoz : bool)
    (next_seed : Z) (fresh fresh_growth : list Z) : option CommonFields :=
  let d := HashtableInlineData.set_capacity mode (inline_data_ c) (HashtableCapacity.make mode new_capacity) in
  let d := HashtableInlineData.init_blocked_element_count mode d blocked in
  let d := generate_new_seed d has_infoz next_seed in
  let c := mk_Common d fresh (repeat None (Z.to_nat (new_capacity - blocked))) fresh_growth in
  do c <- ResetCtrl c blocked;
  let c := if GrowthInfoSizeForCapacity new_capacity >? 0
           then with_growth c (ResetGrowthLeft (growth_mem c) new_capacity blocked) else c in
  Some (if has_infoz then with_inline c (HashtableInlineData.set_has_infoz mode (inline_data_ c)) else c).

Definition BlockedElementCountForReservedTable (capacity reserved_size : Z) : Z :=
  if negb (IsCapacityValidForBlockedElements capacity) then 0
  else
    let blocked_elements := CapacityToGrowth kWidth capacity -[64] reserved_size in
    if is_single_group kWidth capacity then blocked_elements
    else Z.min blocked_elements kMaxBlockedElementsForLargeTables.

Definition ReserveEmptyNonAllocatedTableToFitNewSize (c : CommonFields) (new_size : Z) (has_infoz : bool)
    (next_seed : Z) (fresh fresh_growth : list Z) : option CommonFields :=
  do new_capacity <- SizeToCapacity kWidth new_size;
  ResizeEmptyNonAllocatedTableImpl c new_capacity
    (BlockedElementCountForReservedTable new_capacity new_size) has_infoz next_seed fresh fresh_growth.

(** ** Resizing with re-insertion *)
Definition insert_slot (c : CommonFields) (v : V) : option (CommonFields * Z) :=
  let hash := hash_of P (seed c) (key_of P v) in
  do (c, target) <-
    (if IsSmallCapacity (capacity c) then Some (c, mk_FindInfo 0 0)
     else
       do target <- find_first_non_full c hash;
       do c <- SetCtrl c (fi_offset target) (H2 hash);
       Some (c, target));
  do s <- write (slot_array c) (fi_offset target) (Some v);
  Some (with_slots c s, fi_probe_length target).

Fixpoint transfer_loop (c : CommonFields) (old : list (Z * option V)) (total : Z) : option (CommonFields * Z) :=
  match old with
  | [] => Some (c, total)
  | (b, s) :: rest =>
      if IsFull b then
        do v <- s;
        do (c, len) <- insert_slot c v;
        transfer_loop c rest (total +[64] len)
      else transfer_loop c rest total
  end.

Definition FindNewPositionsAndTransferSlots (c : CommonFields) (old_ctrl : list Z)
    (old_slots : list (option V)) (old_capacity : Z) : option (CommonFields * Z) :=
  if IsSmallCapacity old_capacity then
    (if size c =? 1 then
       do v <- read_slot old_slots 0;
       do (c, _) <- insert_slot c v; Some (c, 0)
     else Some (c, 0))
  else transfer_loop c (combine old_ctrl old_slots) 0.

(** [next_seed] is what [NextHashTableSeed] returns; [fresh] and [fresh_growth] are what the
    allocated memory holds. *)
Definition ResizeAllocatedTableWithSeedChange (c : CommonFields) (new_capacity next_seed : Z)
    (fresh fresh_growth : list Z) : option CommonFields :=
  let old_ctrl := control c in
  let old_slots := slot_array c in
  let old_capacity := capacity c in
  let has_infoz := HashtableInlineData.has_infoz (inline_data_ c) in
  let d := HashtableInlineData.set_capacity mode (inline_data_ c) (HashtableCapacity.make mode new_capacity) in
  let d := HashtableInlineData.set_blocked_element_count_to_zero mode d in
  let d := generate_new_seed d has_infoz next_seed in
  let c := mk_Common d fresh (repeat None (Z.to_nat new_capacity)) fresh_growth in
  do c <- ResetCtrl c 0;
  do (c, _) <- FindNewPositionsAndTransferSlots c old_ctrl old_slots old_capacity;
  Some (if GrowthInfoSizeForCapacity new_capacity >? 0
        then with_growth c (ResetGrowthLeft (growth_mem c) new_capacity (size c)) else c).

End Ops.
Arguments InsertAt {V}. Arguments GrowToNextCapacityAndPrepareInsert {V}.
Arguments Found {V}. Arguments Inserted {V}. Arguments Reallocates {V}.
Arguments Prepared V : clear implicits. Arguments Emplaced V : clear implicits.
