(* ===== verification/TableSpec.v ===== *)
(** The invariant of the Swiss table and what its operations promise: every operation of
    [RawTable] is defined (no access outside the arrays, no uninitialized slot, every probe loop
    ends), keeps the invariant, and acts on the collection of stored elements as its abstract
    counterpart does. *)
From Stdlib Require Import ZArith Lia List Bool Permutation.
From S2P Require Import Prelude.
From S2P Require Import Bits.
From S2P Require Import Endian.
From S2P Require Import ControlBytes.
From S2P Require Import SwissTable.
From S2P Require Import RawTable.
Import ListNotations.
#[local] Open Scope Z_scope.
#[local] Open Scope mach_scope.

(** ** The control array *)
Definition cbyte (ctrl : list Z) (q : Z) : Z := nth (Z.to_nat q) ctrl 0.

Section Ctrl.
Context (G : GroupOps) (m : Z).
Abbreviation W := (Z.of_nat (gWidth G)).
Abbreviation cap := (2 ^ m - 1).

(** [capacity] control bytes, the sentinel, and the mirror of the first bytes followed by empty
    ones in a table smaller than a group. *)
Record ctrl_ok (ctrl : list Z) : Prop := {
  ctrl_len : Z.of_nat (length ctrl) = cap + W;
  ctrl_valid : Forall valid_ctrl ctrl;
  ctrl_sentinel : cbyte ctrl cap = kSentinel;
  ctrl_mirror p : cap < p < cap + W -> cbyte ctrl p = if p <=? 2 * cap then cbyte ctrl (p - cap - 1) else kEmpty
}.

(** The byte a window at offset [o] shows at position [j]. *)
Definition seen (ctrl : list Z) (o j : Z) : Z :=
  if o + j <=? 2 * cap then cbyte ctrl ((o + j) mod 2 ^ m) else kEmpty.

Definition win_has (p : Z -> bool) (ctrl : list Z) (o : Z) : Prop :=
  exists j, 0 <= j < W /\ p (seen ctrl o j) = true.
End Ctrl.

(** ** First positions *)
Lemma first_true_spec bs : existsb (fun b => b) bs = true ->
  0 <= first_true bs < Z.of_nat (length bs) /\ nth (Z.to_nat (first_true bs)) bs false = true /\
  forall k, (k < Z.to_nat (first_true bs))%nat -> nth k bs false = false.
Proof.
  intros E. destruct (bools_split bs) as [R|(k & t & R & F)].
  - rewrite R in E. exfalso. revert E. clear. induction (length bs); cbn; auto; discriminate.
  - rewrite F, Nat2Z.id. rewrite R at 1 2. split; [rewrite length_app, repeat_length; cbn [length]; lia|]. split.
    + rewrite app_nth2, repeat_length, Nat.sub_diag by (rewrite repeat_length; lia). reflexivity.
    + intros k' Hk. rewrite R, app_nth1 by (rewrite repeat_length; lia). apply nth_repeat.
Qed.

Lemma least_nat (b : nat -> bool) n :
  (exists i, (i < n)%nat /\ b i = true) ->
  exists i, (i < n)%nat /\ b i = true /\ forall i', (i' < i)%nat -> b i' = false.
Proof.
  induction n as [|n IH]; intros (i & Hi & Bi); [lia|].
  destruct (existsb b (seq 0 n)) eqn:E.
  - apply existsb_exists in E as (k & Hk%in_seq & Bk). destruct IH as (i0 & H0 & H1 & H2); [exists k; split; [lia|exact Bk]|].
    exists i0. split; [lia|auto].
  - assert (N : forall k, (k < n)%nat -> b k = false).
    { intros k Hk. destruct (b k) eqn:Bk; [|reflexivity]. exfalso.
      assert (existsb b (seq 0 n) = true) by (apply existsb_exists; exists k; split; [apply in_seq; lia|exact Bk]).
      congruence. }
    exists n. assert (i = n) by (destruct (Nat.eq_dec i n); auto; rewrite N in Bi by lia; discriminate). subst.
    repeat split; auto.
Qed.

(** ** Shapes *)
Lemma cap_range m : 2 <= m <= 55 -> 3 <= 2 ^ m - 1 < 2 ^ 55.
Proof.
  intros Hm. pose proof (Z.pow_le_mono_r 2 2 m ltac:(lia) ltac:(lia)).
  pose proof (Z.pow_le_mono_r 2 m 55 ltac:(lia) ltac:(lia)). change (2 ^ 2) with 4 in *. lia.
Qed.

Lemma mod_range m x : 2 <= m <= 55 -> 0 <= x mod 2 ^ m <= 2 ^ m - 1.
Proof. intros Hm. pose proof (cap_range m Hm). pose proof (Z.mod_pos_bound x (2 ^ m) ltac:(lia)). lia. Qed.

Lemma width_cases W w : W = 2 ^ w -> w = 3 \/ w = 4 -> W = 8 \/ W = 16.
Proof. intros -> [-> | ->]; auto. Qed.

(** A table either is smaller than a group and leaves room for an empty byte, or its size is a
    multiple of the group. *)
Lemma cap_width W w m : W = 2 ^ w -> w = 3 \/ w = 4 -> 2 <= m <= 55 ->
  (m < w /\ 2 * (2 ^ m - 1) + 2 <= W) \/ (w <= m /\ W <= 2 ^ m).
Proof.
  intros -> Hw Hm. destruct (Z.lt_ge_cases m w) as [H|H]; [left|right]; split; try lia.
  - replace (2 * (2 ^ m - 1) + 2) with (2 ^ (m + 1)) by (rewrite Z.pow_add_r by lia; lia).
    apply Z.pow_le_mono_r; lia.
  - apply Z.pow_le_mono_r; lia.
Qed.

Section Windows.
Context (G : GroupOps) {L : GroupLaws G} (w m : Z) (HW : Z.of_nat (gWidth G) = 2 ^ w) (Hw : w = 3 \/ w = 4)
  (Hm : 2 <= m <= 55) (ctrl : list Z) (Hc : ctrl_ok G m ctrl).
Abbreviation W := (Z.of_nat (gWidth G)).
Abbreviation cap := (2 ^ m - 1).

Lemma cbyte_valid q : 0 <= q < cap + W -> valid_ctrl (cbyte ctrl q).
Proof.
  intros Hq. pose proof (ctrl_len _ _ _ Hc). pose proof (ctrl_valid _ _ _ Hc) as F.
  rewrite Forall_forall in F. apply F, nth_In. lia.
Qed.

Lemma cbyte_seen o j : 0 <= o <= cap -> 0 <= j < W -> cbyte ctrl (o + j) = seen m ctrl o j.
Proof.
  intros Ho Hj. unfold seen. pose proof (cap_range m Hm). destruct (Z.le_gt_cases (o + j) cap).
  - rewrite (proj2 (Z.leb_le _ _)), Z.mod_small by lia. reflexivity.
  - rewrite (ctrl_mirror _ _ _ Hc) by lia. destruct (o + j <=? 2 * cap) eqn:E; zbool; [|reflexivity].
    f_equal. apply Z.mod_unique with 1; lia.
Qed.

Definition win (o : Z) : list Z := firstn (gWidth G) (skipn (Z.to_nat o) ctrl).

Lemma load_win o : 0 <= o <= cap -> load_group (gWidth G) ctrl o = Some (win o).
Proof.
  intros Ho. unfold load_group. pose proof (ctrl_len _ _ _ Hc).
  rewrite (proj2 (Z.leb_le _ _)), (proj2 (Z.leb_le _ _)) by lia. reflexivity.
Qed.

Lemma win_nth o j : 0 <= o <= cap -> (j < gWidth G)%nat -> nth j (win o) 0 = seen m ctrl o (Z.of_nat j).
Proof.
  intros Ho Hj. unfold win. rewrite nth_firstn, (proj2 (Nat.ltb_lt j (gWidth G))), nth_skipn by exact Hj.
  rewrite <- cbyte_seen by lia. unfold cbyte. f_equal. lia.
Qed.

Lemma win_window o : 0 <= o <= cap -> window (gWidth G) (win o).
Proof.
  intros Ho. pose proof (ctrl_len _ _ _ Hc). unfold win. split.
  - rewrite length_firstn, length_skipn. lia.
  - apply Forall_forall. intros x Hx.
    pose proof (ctrl_valid _ _ _ Hc) as F. rewrite Forall_forall in F. apply F.
    apply (In_nth _ _ 0) in Hx as (k & Hk & <-).
    rewrite length_firstn, length_skipn in Hk. rewrite nth_firstn, (proj2 (Nat.ltb_lt k (gWidth G))), nth_skipn by lia.
    apply nth_In. lia.
Qed.

Lemma win_existsb p o : 0 <= o <= cap -> existsb p (win o) = true <-> win_has G m p ctrl o.
Proof.
  intros Ho. destruct (win_window o Ho) as [HL _]. rewrite existsb_exists. split.
  - intros (x & Hx & Px). apply (In_nth _ _ 0) in Hx as (k & Hk & <-). exists (Z.of_nat k).
    split; [lia|]. rewrite <- win_nth by lia. exact Px.
  - intros (j & Hj & Pj). exists (nth (Z.to_nat j) (win o) 0). split; [apply nth_In; lia|].
    rewrite win_nth, Z2Nat.id by lia. exact Pj.
Qed.

(** What a mask over a window tells. *)
Definition first_at (p : Z -> bool) (o j : Z) : Prop :=
  0 <= j < W /\ p (seen m ctrl o j) = true /\ forall j', 0 <= j' < j -> p (seen m ctrl o j') = false.

Lemma mask_window mask p o : 0 <= o <= cap -> mask_finds G mask p (win o) ->
  (NonIterableBitMask.to_bool mask = true <-> win_has G m p ctrl o) /\
  (win_has G m p ctrl o ->
   first_at p o (NonIterableBitMask.LowestBitSet (gBits G) (gShift G) mask) /\
   first_at p o (NonIterableBitMask.TrailingZeros (gBits G) (gShift G) mask) /\
   let t := NonIterableBitMask.LeadingZeros (gBits G) W (gShift G) mask in
   0 <= t < W /\ p (seen m ctrl o (W - 1 - t)) = true /\
   forall j, W - 1 - t < j < W -> p (seen m ctrl o j) = false).
Proof.
  intros Ho [M1 M2]. destruct (win_window o Ho) as [HL _]. rewrite M1, win_existsb by exact Ho.
  split; [reflexivity|]. intros Hh. pose proof (proj2 (win_existsb p o Ho) Hh) as E.
  destruct (M2 E) as (-> & -> & ->). rewrite <- existsb_map in E.
  assert (N : forall j, 0 <= j < W -> nth (Z.to_nat j) (map p (win o)) false = p (seen m ctrl o j)).
  { intros j Hj. rewrite (nth_indep _ false (p 0)) by (rewrite length_map; lia).
    rewrite map_nth, win_nth, Z2Nat.id by lia. reflexivity. }
  assert (FA : first_at p o (first_true (map p (win o)))).
  { destruct (first_true_spec _ E) as (F1 & F2 & F3). rewrite length_map, HL in F1.
    split; [exact F1|]. split; [rewrite <- N by lia; exact F2|].
    intros j' Hj'. rewrite <- N by lia. apply F3. lia. }
  split; [exact FA|]. split; [exact FA|]. cbv zeta.
  assert (E' : existsb (fun b => b) (rev (map p (win o))) = true).
  { apply existsb_exists in E as (x & Hx & Ex). apply existsb_exists. exists x. split; [now apply -> in_rev|exact Ex]. }
  destruct (first_true_spec _ E') as (F1 & F2 & F3). rewrite length_rev, length_map, HL in F1.
  set (t := first_true (rev (map p (win o)))) in *.
  assert (R : forall j, 0 <= j < W -> nth (Z.to_nat j) (rev (map p (win o))) false = p (seen m ctrl o (W - 1 - j))).
  { intros j Hj. rewrite rev_nth by (rewrite length_map; lia). rewrite length_map, HL, <- N by lia. f_equal. lia. }
  split; [exact F1|]. split; [rewrite <- R by lia; exact F2|].
  intros j Hj. replace j with (W - 1 - (W - 1 - j)) by lia. rewrite <- R by lia. apply F3. lia.
Qed.

(** ** Windows along a probe sequence *)
Context (h1 : Z) (Hh : in_u 64 h1).
Abbreviation at_ := (probe_at W m h1).

Lemma at_offset i : 0 <= offset_ (at_ i) <= cap.
Proof.
  destruct (probe_at_spec W w m h1 ltac:(lia) i) as (_ & _ & ->).
  pose proof (Z.mod_pos_bound (h1 + W * tri (Z.of_nat i)) (2 ^ m) ltac:(lia)). lia.
Qed.

Lemma at_slot i j : offset (at_ i) j = (offset_ (at_ i) + j) mod 2 ^ m.
Proof.
  destruct (probe_at_spec W w m h1 ltac:(lia) i) as (C & _ & _). unfold offset. rewrite C, land_cap, mod_wrap by lia.
  reflexivity.
Qed.

(** Every slot is seen, as itself, in some window of a round; in a small table already in the
    first part of every window. *)
Lemma slot_in_round q : 0 <= q <= cap -> exists i j, (i < rounds G cap)%nat /\ 0 <= j < W /\
  offset_ (at_ i) + j <= 2 * cap /\ (offset_ (at_ i) + j) mod 2 ^ m = q.
Proof.
  intros Hq. pose proof (cap_range m Hm). destruct (cap_width W w m HW Hw Hm) as [[H1 H2]|[H1 H2]].
  - exists 0%nat, ((q - offset_ (at_ 0)) mod 2 ^ m). pose proof (mod_range m (q - offset_ (at_ 0)) Hm).
    pose proof (at_offset 0). split; [unfold rounds; lia|]. split; [lia|]. split; [lia|].
    rewrite Zplus_mod_idemp_r. replace (offset_ (at_ 0) + (q - offset_ (at_ 0))) with q by lia.
    apply Z.mod_small. lia.
  - destruct (probe_covers W w m h1 HW ltac:(lia) ltac:(lia) q ltac:(lia) ltac:(lia)) as (i & j & Hi & Hj & E & _).
    exists i, j. rewrite at_slot in E. pose proof (at_offset i). repeat split; try lia.
    unfold rounds. assert (2 ^ m = W * 2 ^ (m - w)) by (rewrite HW, <- Z.pow_add_r by lia; f_equal; lia).
    assert (E2 : cap / W = 2 ^ (m - w) - 1).
    { symmetry. apply Z.div_unique with (W - 1); lia. }
    rewrite E2. lia.
Qed.

Lemma round_has p q : 0 <= q <= cap -> p (cbyte ctrl q) = true ->
  exists i, (i < rounds G cap)%nat /\ win_has G m p ctrl (offset_ (at_ i)).
Proof.
  intros Hq Pq. destruct (slot_in_round q Hq) as (i & j & Hi & Hj & Hr & E).
  exists i. split; [exact Hi|]. exists j. split; [exact Hj|]. unfold seen. rewrite (proj2 (Z.leb_le _ _)), E by lia. exact Pq.
Qed.

(** A table smaller than a group shows an empty byte in every window. *)
Lemma half_group_has_empty o : m < w -> 0 <= o <= cap -> win_has G m IsEmpty ctrl o.
Proof.
  intros H Ho. exists (2 * cap + 1 - o). pose proof (cap_width W w m HW Hw Hm). split; [lia|].
  unfold seen. rewrite (proj2 (Z.leb_gt _ _)) by lia. reflexivity.
Qed.

(** The first hit of a window is a slot whenever some slot is a hit. *)
Lemma first_at_slot p o j : 0 <= o <= cap -> p kSentinel = false -> first_at p o j ->
  (exists q, 0 <= q < cap /\ p (cbyte ctrl q) = true) ->
  o + j <= 2 * cap /\ 0 <= (o + j) mod 2 ^ m < cap /\ p (cbyte ctrl ((o + j) mod 2 ^ m)) = true.
Proof.
  intros Ho Ps (Hj & Pj & Fj) (q & Hq & Pq). pose proof (cap_range m Hm).
  assert (R : o + j <= 2 * cap).
  { destruct (Z.le_gt_cases (o + j) (2 * cap)) as [|C]; [assumption|exfalso].
    destruct (Z.le_gt_cases o q).
    - specialize (Fj (q - o)). unfold seen in Fj. rewrite (proj2 (Z.leb_le _ _)) in Fj by lia.
      replace (o + (q - o)) with q in Fj by lia. rewrite Z.mod_small in Fj by lia. rewrite Fj in Pq by lia. discriminate.
    - specialize (Fj (q + 2 ^ m - o)). unfold seen in Fj. rewrite (proj2 (Z.leb_le _ _)) in Fj by lia.
      replace (o + (q + 2 ^ m - o)) with (q + 1 * 2 ^ m) in Fj by lia. rewrite Z.mod_add, Z.mod_small in Fj by lia.
      rewrite Fj in Pq by lia. discriminate. }
  split; [exact R|]. unfold seen in Pj. rewrite (proj2 (Z.leb_le _ _)) in Pj by exact R. split; [|exact Pj].
  pose proof (mod_range m (o + j) Hm). destruct (Z.eq_dec ((o + j) mod 2 ^ m) cap) as [E|]; [|lia].
  rewrite E, (ctrl_sentinel _ _ _ Hc) in Pj. congruence.
Qed.

End Windows.

(** ** Writing a control byte and its mirror *)
Section Update.
Context (G : GroupOps) (w m : Z) (HW : Z.of_nat (gWidth G) = 2 ^ w) (Hw : w = 3 \/ w = 4) (Hm : 2 <= m <= 55)
  (ctrl : list Z) (Hc : ctrl_ok G m ctrl) (i h : Z) (Hi : 0 <= i < 2 ^ m - 1) (Hv : valid_ctrl h).
Abbreviation W := (Z.of_nat (gWidth G)).
Abbreviation cap := (2 ^ m - 1).

Definition mirror : Z := if i <? W - 1 then i + cap + 1 else i.
Definition set_ctrl : list Z := replace_nth (Z.to_nat mirror) h (replace_nth (Z.to_nat i) h ctrl).

Lemma mirror_range : 0 <= mirror < cap + W.
Proof. unfold mirror. pose proof (cap_range m Hm). case_if; zbool; lia. Qed.

Lemma set_ctrl_byte q : 0 <= q < cap + W ->
  cbyte set_ctrl q = if (q =? mirror) || (q =? i) then h else cbyte ctrl q.
Proof.
  intros Hq. pose proof (ctrl_len _ _ _ Hc). pose proof mirror_range. pose proof (width_cases W w HW Hw).
  unfold cbyte, set_ctrl. rewrite !nth_replace_nth, replace_nth_length.
  assert (E : forall x, 0 <= x < cap + W -> (Z.to_nat q =? Z.to_nat x)%nat && (Z.to_nat x <? length ctrl)%nat = (q =? x)).
  { intros x Hx. rewrite (proj2 (Nat.ltb_lt _ _)), andb_true_r by lia.
    apply eq_true_iff_eq. rewrite Nat.eqb_eq, Z.eqb_eq. lia. }
  rewrite !E by lia. destruct (q =? mirror), (q =? i); reflexivity.
Qed.

Lemma set_ctrl_main q : 0 <= q <= cap -> cbyte set_ctrl q = if q =? i then h else cbyte ctrl q.
Proof.
  intros Hq. pose proof (width_cases W w HW Hw). rewrite set_ctrl_byte by lia. unfold mirror.
  destruct (q =? i) eqn:E; zbool; [now rewrite orb_true_r|]. rewrite orb_false_r.
  replace (q =? _) with false; [reflexivity|]. symmetry. apply Z.eqb_neq. case_if; lia.
Qed.

Lemma set_ctrl_ok : ctrl_ok G m set_ctrl.
Proof.
  pose proof (width_cases W w HW Hw). pose proof (cap_range m Hm). pose proof (cap_width W w m HW Hw Hm).
  constructor.
  - unfold set_ctrl. rewrite !replace_nth_length. apply Hc.
  - unfold set_ctrl. repeat (apply Forall_replace_nth; [exact Hv|]). apply Hc.
  - rewrite set_ctrl_main by lia. rewrite (proj2 (Z.eqb_neq _ _)) by lia. apply Hc.
  - intros p Hp. rewrite set_ctrl_byte, (ctrl_mirror _ _ _ Hc) by lia.
    rewrite (proj2 (Z.eqb_neq p i)), orb_false_r by lia. unfold mirror.
    destruct (p <=? 2 * cap) eqn:E; zbool.
    + rewrite set_ctrl_main by lia. destruct (p - cap - 1 =? i) eqn:E2; zbool.
      * rewrite (proj2 (Z.ltb_lt i (W - 1))) by lia. rewrite (proj2 (Z.eqb_eq _ _)) by lia. reflexivity.
      * replace (p =? _) with false; [reflexivity|]. symmetry. apply Z.eqb_neq. case_if; lia.
    + replace (p =? _) with false; [reflexivity|]. symmetry. apply Z.eqb_neq. case_if; lia.
Qed.

Lemma set_ctrl_seen o j : 0 <= o <= cap -> 0 <= j < W ->
  seen m set_ctrl o j = if (o + j <=? 2 * cap) && ((o + j) mod 2 ^ m =? i) then h else seen m ctrl o j.
Proof.
  intros Ho Hj. unfold seen. pose proof (mod_range m (o + j) Hm). case_if; [|reflexivity].
  cbn [andb]. apply set_ctrl_main. lia.
Qed.

(** The two mirror positions the source computes. *)
Lemma mirror_large : w <= m -> ((i -[64] (W - 1)) .& cap) +[64] (W - 1) = mirror.
Proof.
  intros H. pose proof (width_cases W w HW Hw). pose proof (cap_range m Hm). pose proof (cap_width W w m HW Hw Hm).
  rewrite land_cap, mod_wrap by lia. unfold mirror. change (2 ^ 55) with 36028797018963968 in *.
  assert (E : (i - (W - 1)) mod 2 ^ m = if i <? W - 1 then i - (W - 1) + 2 ^ m else i - (W - 1)).
  { case_if; zbool; [symmetry; apply Z.mod_unique with (-1); lia|apply Z.mod_small; lia]. }
  rewrite E, wrapu_small by (change (2 ^ 64) with 18446744073709551616; case_if; zbool; lia).
  case_if; lia.
Qed.

Lemma mirror_any : ((i -[64] (W - 1)) .& cap) +[64] ((W - 1) .& cap) = mirror.
Proof.
  pose proof (width_cases W w HW Hw). pose proof (cap_range m Hm).
  destruct (cap_width W w m HW Hw Hm) as [[H1 H2]|[H1 H2]].
  - rewrite !land_cap, mod_wrap by lia. change (2 ^ 55) with 36028797018963968 in *.
    assert (Hk : W = 2 ^ m * 2 ^ (w - m)) by (rewrite HW, <- Z.pow_add_r by lia; f_equal; lia).
    assert (E1 : (W - 1) mod 2 ^ m = 2 ^ m - 1).
    { symmetry. apply Z.mod_unique with (2 ^ (w - m) - 1); lia. }
    assert (E2 : (i - (W - 1)) mod 2 ^ m = i + 1).
    { symmetry. apply Z.mod_unique with (- 2 ^ (w - m)); lia. }
    rewrite E1, E2. unfold mirror. rewrite (proj2 (Z.ltb_lt _ _)) by lia.
    rewrite wrapu_small by (change (2 ^ 64) with 18446744073709551616; lia). lia.
  - rewrite (land_cap m (W - 1)), (Z.mod_small (W - 1)) by lia. now apply mirror_large.
Qed.

Lemma write_set_ctrl q :
  q = mirror -> (do c1 <- write ctrl i h; write c1 q h) = Some set_ctrl.
Proof.
  intros ->. pose proof (ctrl_len _ _ _ Hc). pose proof mirror_range. pose proof (width_cases W w HW Hw).
  rewrite write_some by lia. cbn [obind]. rewrite write_some by (rewrite replace_nth_length; lia). reflexivity.
Qed.

End Update.

(** ** Lists under an update *)
Lemma replace_nth_twice {A} n (x : A) l : replace_nth n x (replace_nth n x l) = replace_nth n x l.
Proof. revert n. induction l; intros [|n]; cbn; congruence. Qed.

Lemma combine_replace_ge {A B} n (x : A) l (l' : list B) :
  (length l' <= n)%nat -> combine (replace_nth n x l) l' = combine l l'.
Proof.
  revert n l'. induction l as [|a l IH]; intros [|n] [|b l'] H; cbn in *; auto; [lia|]. rewrite IH by lia. reflexivity.
Qed.

Lemma firstn_replace_lt {A} k n (x : A) l : (n < k)%nat -> firstn k (replace_nth n x l) = replace_nth n x (firstn k l).
Proof.
  revert k n. induction l as [|a l IH]; intros [|k] [|n] H; cbn; auto; try lia. now rewrite IH by lia.
Qed.

Lemma firstn_replace_ge {A} k n (x : A) l : (k <= n)%nat -> firstn k (replace_nth n x l) = firstn k l.
Proof.
  revert k n. induction l as [|a l IH]; intros [|k] [|n] H; cbn; auto; try lia. now rewrite IH by lia.
Qed.

Lemma nth_error_firstn_lt {A} k n (l : list A) : (n < k)%nat -> nth_error (firstn k l) n = nth_error l n.
Proof. revert k n. induction l; intros [|k] [|n] H; cbn; auto; try lia. apply IHl. lia. Qed.

(** ** The contents of a table *)
Section Contents.
Context {V K : Type} (P : Policy V K).

Definition slot_element (bs : Z * option V) : list V :=
  match bs with (b, Some v) => if IsFull b then [v] else [] | _ => [] end.

(** The stored elements, in the order of the slots. *)
Definition elements (c : CommonFields V) : list V :=
  flat_map slot_element (combine (control c) (slot_array c)).

Definition empty_mark (b : Z) : list unit := if IsEmpty b then [tt] else [].

(** The number of empty slots. *)
Definition empties (m : Z) (ctrl : list Z) : Z :=
  Z.of_nat (length (flat_map empty_mark (firstn (Z.to_nat (2 ^ m - 1)) ctrl))).

(** No two elements have equal keys. *)
Definition distinct (l : list V) : Prop :=
  ForallOrdPairs (fun v v' => equal_to P (key_of P v) (key_of P v') = false) l.

Lemma distinct_cons v l : distinct (v :: l) <->
  Forall (fun v' => equal_to P (key_of P v) (key_of P v') = false) l /\ distinct l.
Proof. split; [intros H; inversion H; auto|intros [H1 H2]; constructor; auto]. Qed.

Lemma distinct_perm `{PL : PolicyLaws V K P} l l' : Permutation l l' -> distinct l -> distinct l'.
Proof.
  induction 1 as [|x l l' HP IH|x y l|l1 l2 l3 _ IH1 _ IH2]; auto.
  - rewrite !distinct_cons. intros [H1 H2]. split; [now rewrite <- HP|auto].
  - rewrite !distinct_cons. intros (H1 & H2 & H3). inversion H1; subst. repeat split; auto.
    constructor; auto. now rewrite eq_sym_k.
Qed.

Lemma in_elements c v : In v (elements c) <->
  exists q, 0 <= q /\ (Z.to_nat q < length (control c))%nat /\
    IsFull (cbyte (control c) q) = true /\ read_slot (slot_array c) q = Some v.
Proof.
  unfold elements. rewrite in_flat_map. split.
  - intros ([b [v'|]] & HI & HE); cbn in HE; [|contradiction].
    destruct (IsFull b) eqn:F; [|contradiction]. destruct HE as [->|[]].
    apply In_nth_error in HI as (n & E). rewrite nth_error_combine in E.
    destruct (nth_error (control c) n) as [b'|] eqn:E1; [|discriminate].
    destruct (nth_error (slot_array c) n) as [s'|] eqn:E2; [|discriminate]. injection E as -> ->.
    exists (Z.of_nat n). rewrite Nat2Z.id. split; [lia|]. split; [now apply nth_error_Some; rewrite E1|].
    unfold cbyte, read_slot, read. rewrite Nat2Z.id, (proj2 (Z.leb_le _ _)) by lia.
    rewrite (nth_error_nth _ _ _ E1), E2. auto.
  - intros (q & Hq & HL & HF & HR). exists (cbyte (control c) q, Some v). split.
    + apply nth_error_In with (Z.to_nat q). rewrite nth_error_combine.
      unfold read_slot, read in HR. rewrite (proj2 (Z.leb_le _ _)) in HR by lia.
      rewrite (nth_error_nth' _ 0) by exact HL.
      destruct (nth_error (slot_array c) (Z.to_nat q)) as [s|]; [|discriminate]. cbn in HR. now rewrite HR.
    + cbn. rewrite HF. now left.
Qed.

(** An update of a control byte and of its slot. *)
Section UpdateContents.
Context (G : GroupOps) (w m : Z) (HW : Z.of_nat (gWidth G) = 2 ^ w) (Hw : w = 3 \/ w = 4) (Hm : 2 <= m <= 55)
  (c c' : CommonFields V) (Hc : ctrl_ok G m (control c)) (i h : Z) (s : option V)
  (Hi : 0 <= i < Z.of_nat (length (slot_array c))) (Hl : Z.of_nat (length (slot_array c)) <= 2 ^ m - 1)
  (E1 : control c' = set_ctrl G m (control c) i h) (E2 : slot_array c' = replace_nth (Z.to_nat i) s (slot_array c)).

Lemma combine_update : combine (control c') (slot_array c') =
  replace_nth (Z.to_nat i) (h, s) (combine (control c) (slot_array c)).
Proof.
  rewrite E1, E2. unfold set_ctrl. rewrite <- combine_replace_nth. unfold mirror. case_if.
  - apply combine_replace_ge. rewrite replace_nth_length. lia.
  - now rewrite replace_nth_twice.
Qed.

Lemma elements_update :
  Permutation (slot_element (cbyte (control c) i, nth (Z.to_nat i) (slot_array c) None) ++ elements c')
              (slot_element (h, s) ++ elements c).
Proof.
  unfold elements. rewrite combine_update. apply flat_map_replace_nth. rewrite nth_error_combine.
  pose proof (ctrl_len _ _ _ Hc). rewrite (nth_error_nth' _ 0), (nth_error_nth' _ None) by lia. reflexivity.
Qed.

Lemma main_update : firstn (Z.to_nat (2 ^ m - 1)) (control c') =
  replace_nth (Z.to_nat i) h (firstn (Z.to_nat (2 ^ m - 1)) (control c)).
Proof.
  rewrite E1. unfold set_ctrl, mirror. case_if.
  - rewrite firstn_replace_ge by lia. apply firstn_replace_lt. lia.
  - rewrite replace_nth_twice. apply firstn_replace_lt. lia.
Qed.

(** Counting the slots with a mark. *)
Lemma marks_update (mark : Z -> list unit) :
  let marks ctrl := Z.of_nat (length (flat_map mark (firstn (Z.to_nat (2 ^ m - 1)) ctrl))) in
  marks (control c') + Z.of_nat (length (mark (cbyte (control c) i))) = marks (control c) + Z.of_nat (length (mark h)).
Proof.
  cbv beta zeta. pose proof (ctrl_len _ _ _ Hc). rewrite main_update.
  pose proof (flat_map_replace_nth mark (Z.to_nat i) h (firstn (Z.to_nat (2 ^ m - 1)) (control c))
                (cbyte (control c) i)) as F.
  rewrite nth_error_firstn_lt, (nth_error_nth' _ 0) in F by lia.
  apply Permutation_length in F; [|reflexivity]. rewrite !length_app in F. lia.
Qed.

Lemma empties_update :
  empties m (control c') + Z.of_nat (length (empty_mark (cbyte (control c) i))) =
  empties m (control c) + Z.of_nat (length (empty_mark h)).
Proof. exact (marks_update empty_mark). Qed.
End UpdateContents.

Lemma empties_pos G m ctrl : 2 <= m <= 55 -> ctrl_ok G m ctrl ->
  0 < empties m ctrl <-> exists q, 0 <= q < 2 ^ m - 1 /\ IsEmpty (cbyte ctrl q) = true.
Proof.
  intros Hm Hc. pose proof (ctrl_len _ _ _ Hc) as HL. pose proof (cap_range m Hm). unfold empties. split.
  - intros H1. destruct (flat_map empty_mark (firstn (Z.to_nat (2 ^ m - 1)) ctrl)) as [|u t] eqn:E; [cbn in H1; lia|].
    assert (I : In u (flat_map empty_mark (firstn (Z.to_nat (2 ^ m - 1)) ctrl))) by (rewrite E; now left).
    apply in_flat_map in I as (b & Ib & Eb). apply In_nth_error in Ib as (n & En).
    assert (Hn : (n < Z.to_nat (2 ^ m - 1))%nat).
    { assert (n < length (firstn (Z.to_nat (2 ^ m - 1)) ctrl))%nat by (apply nth_error_Some; congruence).
      rewrite length_firstn in *. lia. }
    exists (Z.of_nat n). split; [lia|]. unfold cbyte. rewrite Nat2Z.id. rewrite nth_error_firstn_lt in En by exact Hn.
    rewrite (nth_error_nth _ _ _ En). unfold empty_mark in Eb. destruct (IsEmpty b); [reflexivity|contradiction].
  - intros (q & Hq & Eq).
    assert (I : In tt (flat_map empty_mark (firstn (Z.to_nat (2 ^ m - 1)) ctrl))).
    { apply in_flat_map. exists (cbyte ctrl q). split.
      - apply nth_error_In with (Z.to_nat q). rewrite nth_error_firstn_lt by lia. apply nth_error_nth'. lia.
      - unfold empty_mark. rewrite Eq. now left. }
    destruct (flat_map _ _); [contradiction|]. cbn [length]. lia.
Qed.

End Contents.

(** ** The invariant *)
Section Invariant.
Context {V K : Type} (G : GroupOps) (host : endian) (mode : StorageMode) (P : Policy V K).
Abbreviation W := (Z.of_nat (gWidth G)).

Definition key_hash (c : CommonFields V) (v : V) : Z := hash_of P (seed mode c) (key_of P v).

(** The slot is seen in a window of its probe sequence before any window with an empty byte has
    been passed. *)
Definition reach (m : Z) (ctrl : list Z) (h1 q : Z) : Prop :=
  exists i j, 0 <= j < W /\ offset_ (probe_at W m h1 i) + j <= 2 * (2 ^ m - 1) /\
    (offset_ (probe_at W m h1 i) + j) mod 2 ^ m = q /\
    forall i', (i' < i)%nat -> ~ win_has G m IsEmpty ctrl (offset_ (probe_at W m h1 i')).

Record table_ok (m : Z) (c : CommonFields V) : Prop := {
  t_m : 2 <= m <= data_bits mode - 9;
  t_cap : capacity mode c = 2 ^ m - 1;
  t_data : data_ok mode (inline_data_ c);
  t_ctrl : ctrl_ok G m (control c);
  t_slots : Z.of_nat (length (slot_array c)) = 2 ^ m - 1 - blocked_element_count c;
  t_blocked q : 0 <= q < 2 ^ m - 1 ->
    (cbyte (control c) q = kSentinel <-> Z.of_nat (length (slot_array c)) <= q);
  t_full q : 0 <= q < 2 ^ m - 1 -> IsFull (cbyte (control c) q) = true ->
    exists v, read_slot (slot_array c) q = Some v /\ cbyte (control c) q = H2 (key_hash c v) /\
      reach m (control c) (key_hash c v) q;
  t_distinct : distinct P (elements c)
}.

(** The counters: the size is the number of elements; the growth left is the number of empty
    slots beyond the ones the load factor reserves; without the "deleted" flag no slot is deleted,
    and a table of one group never sets it; a larger table has few blocked slots. *)
Record table_inv (m : Z) (c : CommonFields V) : Prop := {
  i_ok : table_ok m c;
  i_size : size mode c = Z.of_nat (length (elements c));
  i_mem : mem_ok (growth_mem c);
  i_growth : fst (growth_abs host (growth_mem c) (2 ^ m - 1)) =
             empties m (control c) - (2 ^ m - 1 - CapacityToGrowth W (2 ^ m - 1));
  i_deleted : snd (growth_abs host (growth_mem c) (2 ^ m - 1)) = false ->
    forall q, 0 <= q < 2 ^ m - 1 -> cbyte (control c) q <> kDeleted;
  i_single : snd (growth_abs host (growth_mem c) (2 ^ m - 1)) = true -> W <= 2 ^ m - 1;
  i_blocked : W < 2 ^ m - 1 -> blocked_element_count c <= kMaxBlockedElementsForLargeTables
}.

Lemma data_bits_55 : data_bits mode - 9 <= 55.
Proof. pose proof (data_bits_range mode). lia. Qed.

Lemma t_m55 m c : table_ok m c -> 2 <= m <= 55.
Proof. intros H. pose proof (t_m _ _ H). pose proof data_bits_55. lia. Qed.

End Invariant.

Lemma probe_loop_spec {A} G (body : probe_seq -> option (option A)) i a fuel s :
  (i < fuel)%nat ->
  (forall i', (i' < i)%nat -> body (Nat.iter i' (next (Z.of_nat (gWidth G))) s) = Some None) ->
  body (Nat.iter i (next (Z.of_nat (gWidth G))) s) = Some (Some a) ->
  probe_loop G fuel body s = Some a.
Proof.
  revert i s. induction fuel as [|f IH]; intros i s Hi Hn Hs; [lia|]. cbn [probe_loop].
  destruct i as [|i].
  - cbn in Hs. rewrite Hs. reflexivity.
  - pose proof (Hn 0%nat ltac:(lia)) as H0. cbn in H0. rewrite H0. cbn [obind].
    apply (IH i); [lia| |].
    + intros i' Hi'. rewrite <- Nat.iter_succ_r. apply Hn. lia.
    + rewrite <- Nat.iter_succ_r. exact Hs.
Qed.

Lemma H2_range hash : in_u 64 hash -> 0 <= H2 hash < 128.
Proof.
  intros [H0 H1]. unfold H2. change (8 * 8 - 7) with 57. rewrite Z.shiftr_div_pow2 by lia.
  assert (0 <= hash / 2 ^ 57 < 128).
  { split; [apply Z.div_pos; lia|]. apply Z.div_lt_upper_bound; [lia|]. change (2 ^ 57 * 128) with (2 ^ 64). exact H1. }
  rewrite wrapu_small; [assumption|]. change (2 ^ 8) with 256. lia.
Qed.

Lemma H2_full hash : in_u 64 hash -> valid_ctrl (H2 hash) /\ IsFull (H2 hash) = true.
Proof.
  intros H. pose proof (H2_range hash H). split; [left; assumption|]. unfold IsFull. rewrite Z.geb_leb. apply Z.leb_le. lia.
Qed.

(** ** Looking for a key *)
Lemma match_loop_spec {V K} (P : Policy V K) slots key seq is_ :
  (forall i, In i is_ -> exists v, read_slot slots (offset seq i) = Some v) ->
  exists hit, match_loop P slots key seq is_ = Some hit /\
    (forall off, hit = Some off -> exists i v, In i is_ /\ off = offset seq i /\ read_slot slots off = Some v /\
       equal_to P key (key_of P v) = true) /\
    (hit = None -> forall i v, In i is_ -> read_slot slots (offset seq i) = Some v ->
       equal_to P key (key_of P v) = false).
Proof.
  induction is_ as [|i is_ IH]; intros HI.
  - exists None. split; [reflexivity|]. split; [discriminate|intros _ i v []].
  - cbn [match_loop]. destruct (HI i (or_introl eq_refl)) as (v & Ev). rewrite Ev. cbn [obind].
    destruct (equal_to P key (key_of P v)) eqn:E.
    + eexists. split; [reflexivity|]. split; [|discriminate]. intros off [= <-]. exists i, v. cbn. auto.
    + destruct IH as (hit & E1 & E2 & E3); [intros j Hj; apply HI; now right|].
      exists hit. split; [exact E1|]. split.
      * intros off Ho. destruct (E2 off Ho) as (j & u & Hj & R). exists j, u. cbn. tauto.
      * intros Hn j u [<-|Hj] Hu; [congruence|eauto].
Qed.

Section Find.
Context {V K : Type} (G : GroupOps) {L : GroupLaws G} (mode : StorageMode) (P : Policy V K) {PL : PolicyLaws P}
  (w m : Z) (HW : Z.of_nat (gWidth G) = 2 ^ w) (Hw : w = 3 \/ w = 4)
  (c : CommonFields V) (T : table_ok G mode P m c) (Stop : m < w \/ 0 < empties m (control c)).
Abbreviation W := (Z.of_nat (gWidth G)).
Abbreviation cap := (2 ^ m - 1).

(** An element at a slot. *)
Definition stored (q : Z) (v : V) : Prop :=
  0 <= q < cap /\ IsFull (cbyte (control c) q) = true /\ read_slot (slot_array c) q = Some v.

Lemma stored_in q v : stored q v -> In v (elements c).
Proof.
  intros (Hq & F & R). apply in_elements. exists q. pose proof (ctrl_len _ _ _ (t_ctrl _ _ _ _ _ T)).
  pose proof (width_cases W w HW Hw). repeat split; auto; lia.
Qed.

Lemma in_stored v : In v (elements c) -> exists q, stored q v.
Proof.
  intros (q & Hq & HL & F & R)%in_elements. exists q. split; [|auto].
  assert (Z.to_nat q < length (slot_array c))%nat.
  { apply nth_error_Some. unfold read_slot, read in R. rewrite (proj2 (Z.leb_le _ _)) in R by lia.
    destruct (nth_error (slot_array c) (Z.to_nat q)); [discriminate|cbn in R; discriminate]. }
  pose proof (t_slots _ _ _ _ _ T). pose proof (ctrl_len _ _ _ (t_ctrl _ _ _ _ _ T)).
  destruct (Z.lt_ge_cases q cap); [lia|exfalso].
  assert (0 <= blocked_element_count c); [|lia].
  apply Z.shiftr_nonneg, Z.land_nonneg. right. discriminate.
Qed.

Context (key : K).
Abbreviation h := (hash_of P (seed mode c) key).
Abbreviation at_ := (probe_at W m h).
Abbreviation probe_window i := (win G (control c) (offset_ (at_ i))).
Abbreviation probe_match i := (match_loop P (slot_array c) key (at_ i) (mask_positions G (gMatch G (probe_window i) (H2 h)))).

Lemma Hm55 : 2 <= m <= 55.
Proof. exact (t_m55 _ _ _ _ _ T). Qed.

Lemma offset_range i : 0 <= offset_ (at_ i) <= cap.
Proof. apply (at_offset G w m Hm55). Qed.

Lemma match_window i : exists hit, probe_match i = Some hit /\
  (forall off, hit = Some off -> exists v, stored off v /\ equal_to P key (key_of P v) = true) /\
  (hit = None -> forall j v, 0 <= j < W -> offset_ (at_ i) + j <= 2 * cap ->
     cbyte (control c) ((offset_ (at_ i) + j) mod 2 ^ m) = H2 h ->
     read_slot (slot_array c) ((offset_ (at_ i) + j) mod 2 ^ m) = Some v ->
     equal_to P key (key_of P v) = false).
Proof.
  pose proof Hm55 as Hm. pose proof (t_ctrl _ _ _ _ _ T) as Hc. pose proof (offset_range i) as Ho.
  set (o := offset_ (at_ i)) in *.
  pose proof (win_window G w m HW Hw Hm (control c) Hc o Ho) as HWin.
  destruct (match_positions G (win G (control c) o) HWin (H2 h) (H2_range h (hash_range _ _))) as (M1 & M2 & _).
  assert (Slot : forall j, offset (at_ i) j = (o + j) mod 2 ^ m) by (intros; apply (at_slot G w m Hm h)).
  (* a position of the match mask is a full slot *)
  assert (S : forall j, In j (mask_positions G (gMatch G (win G (control c) o) (H2 h))) ->
            exists v, stored (offset (at_ i) j) v).
  { intros j Hj. destruct (M2 j Hj) as [Rj Fj]. rewrite (win_nth G w m Hw Hm (control c) Hc), Z2Nat.id in Fj by lia.
    unfold seen in Fj. destruct (o + j <=? 2 * cap) eqn:E; [|discriminate]. rewrite Slot.
    pose proof (mod_range m (o + j) Hm) as R.
    assert (R' : 0 <= (o + j) mod 2 ^ m < cap).
    { destruct (Z.eq_dec ((o + j) mod 2 ^ m) cap) as [Ec|]; [|lia].
      rewrite Ec, (ctrl_sentinel _ _ _ Hc) in Fj. discriminate. }
    destruct (t_full _ _ _ _ _ T _ R' Fj) as (v & Rv & _). exists v. repeat split; auto; lia. }
  destruct (match_loop_spec P (slot_array c) key (at_ i) (mask_positions G (gMatch G (win G (control c) o) (H2 h))))
    as (hit & E1 & E2 & E3).
  { intros j Hj. destruct (S j Hj) as (v & _ & _ & R). eauto. }
  exists hit. split; [exact E1|]. split.
  - intros off Hoff. destruct (E2 off Hoff) as (j & v & Hj & -> & R & Q).
    destruct (S j Hj) as (v' & S1 & S2 & S3). exists v. rewrite R in S3. injection S3 as <-. repeat split; auto; lia.
  - intros Hn j v Hj Hr Hb Hv. apply (E3 Hn j v); [|now rewrite Slot].
    replace j with (Z.of_nat (Z.to_nat j)) by lia. apply M1; [lia|].
    rewrite (win_nth G w m Hw Hm (control c) Hc), Z2Nat.id by lia. unfold seen. rewrite (proj2 (Z.leb_le _ _)) by lia. exact Hb.
Qed.

(** Some window of the round has an empty byte. *)
Lemma round_stops : exists i, (i < rounds G cap)%nat /\ win_has G m IsEmpty (control c) (offset_ (at_ i)).
Proof.
  pose proof Hm55 as Hm. pose proof (t_ctrl _ _ _ _ _ T) as Hc. destruct Stop as [Hs|Hs].
  - exists 0%nat. split; [unfold rounds; lia|]. apply (half_group_has_empty G w m HW Hw Hm); auto using offset_range.
  - apply (empties_pos G) in Hs as (q & Hq & Eq); auto.
    apply (round_has G w m HW Hw Hm (control c) h IsEmpty q); auto; lia.
Qed.

(** How a probe for the key ends: at the slot of an element with that key, or at the first window
    with an empty byte, and then no element has that key. *)
Lemma probe_ends : exists i hit, (i < rounds G cap)%nat /\ probe_match i = Some hit /\
  (forall i', (i' < i)%nat -> probe_match i' = Some None /\ ~ win_has G m IsEmpty (control c) (offset_ (at_ i'))) /\
  ((exists off v, hit = Some off /\ stored off v /\ equal_to P key (key_of P v) = true) \/
   (hit = None /\ win_has G m IsEmpty (control c) (offset_ (at_ i)) /\
    Forall (fun v => equal_to P key (key_of P v) = false) (elements c))).
Proof.
  pose proof Hm55 as Hm. pose proof (t_ctrl _ _ _ _ _ T) as Hc.
  set (stop := fun i => match probe_match i with Some None => existsb IsEmpty (probe_window i) | _ => true end).
  destruct (least_nat stop (rounds G cap)) as (i & Hi & Si & Li).
  { destruct round_stops as (i & Hi & Ei). exists i. split; [exact Hi|]. unfold stop.
    destruct (probe_match i) as [[|]|]; auto. apply (win_existsb G w m HW Hw Hm); auto using offset_range. }
  assert (NE : forall i', (i' < i)%nat -> probe_match i' = Some None /\ ~ win_has G m IsEmpty (control c) (offset_ (at_ i'))).
  { intros i' Hi'. specialize (Li i' Hi'). unfold stop in Li. destruct (probe_match i') as [[|]|]; try discriminate.
    split; [reflexivity|]. intros X. apply (win_existsb G w m HW Hw Hm) in X; auto using offset_range. congruence. }
  destruct (match_window i) as (hit & E1 & E2 & E3). exists i, hit. do 3 (split; [assumption|]).
  destruct hit as [off|]; [left; destruct (E2 off eq_refl) as (v & Sv); exists off, v; tauto|right].
  split; [reflexivity|]. unfold stop in Si. rewrite E1 in Si.
  apply (win_existsb G w m HW Hw Hm) in Si; auto using offset_range. split; [exact Si|].
  apply Forall_forall. intros v Hv. destruct (in_stored v Hv) as (q & Hq & Fq & Rq).
  destruct (equal_to P key (key_of P v)) eqn:EK; [exfalso|reflexivity].
  destruct (t_full _ _ _ _ _ T q Hq Fq) as (v' & Rv' & Bq & (i0 & j & Hj & Hr & Eq & Hn)).
  rewrite Rq in Rv'. injection Rv' as <-.
  assert (EH : key_hash mode P c v = h) by (unfold key_hash; symmetry; now apply eq_hash).
  rewrite EH in *. subst q.
  assert (C : (i0 < i)%nat \/ i0 = i \/ (i < i0)%nat) by lia. destruct C as [C|[->|C]].
  - destruct (match_window i0) as (hit0 & X1 & _ & X3). destruct (NE i0 C) as [NE1 _]. rewrite NE1 in X1.
    injection X1 as <-. rewrite (X3 eq_refl j v) in EK; auto; discriminate.
  - rewrite (E3 eq_refl j v) in EK; auto; discriminate.
  - exact (Hn i C Si).
Qed.

(** The search always ends, and answers membership. *)
Lemma find_large_spec : exists r, find_large G mode P c key = Some r /\
  match r with
  | Some off => exists v, stored off v /\ equal_to P key (key_of P v) = true
  | None => Forall (fun v => equal_to P key (key_of P v) = false) (elements c)
  end.
Proof.
  pose proof Hm55 as Hm. pose proof (t_ctrl _ _ _ _ _ T) as Hc.
  destruct probe_ends as (i & hit & Hi & E & Hn & Hr).
  assert (Mask : forall i, NonIterableBitMask.to_bool (gMaskEmpty G (probe_window i)) = true <->
            win_has G m IsEmpty (control c) (offset_ (at_ i))).
  { intros k. apply (mask_window G w m HW Hw Hm (control c) Hc); [apply offset_range|].
    apply mask_finds_enc; [exact L|now apply (win_window G w m HW Hw Hm); auto using offset_range|].
    apply law_empty. apply (win_window G w m HW Hw Hm); auto using offset_range. }
  exists hit. split.
  - unfold find_large. rewrite (t_cap _ _ _ _ _ T). apply (probe_loop_spec G _ i); [exact Hi| |].
    + intros i' Hi'. destruct (Hn i' Hi') as [N1 N2]. change (Nat.iter i' _ _) with (at_ i').
      rewrite (load_win G w m Hw Hm (control c) Hc) by apply offset_range. cbn [obind]. rewrite N1. cbn [obind].
      rewrite <- Mask in N2. apply not_true_is_false in N2. now rewrite N2.
    + change (Nat.iter i _ _) with (at_ i). rewrite (load_win G w m Hw Hm (control c) Hc) by apply offset_range.
      cbn [obind]. rewrite E. cbn [obind]. destruct Hr as [(off & v & -> & _)|(-> & He & _)]; [reflexivity|].
      rewrite <- Mask in He. now rewrite He.
  - destruct Hr as [(off & v & -> & Sv & Q)|(-> & _ & F)]; eauto.
Qed.

End Find.
