(* ===== verification/TableOps.v ===== *)
(** Finding a free slot for a hash, filling a slot and erasing an element keep the invariant of
    the Swiss table and act on its elements as on a finite set of distinct keys. *)
From Stdlib Require Import ZArith Lia List Bool Permutation.
From S2P Require Import Prelude.
From S2P Require Import Bits.
From S2P Require Import Endian.
From S2P Require Import ControlBytes.
From S2P Require Import SwissTable.
From S2P Require Import RawTable.
From S2P Require Import TableSpec.
Import ListNotations.
#[local] Open Scope Z_scope.
#[local] Open Scope mach_scope.

Lemma empty_is_free b : IsEmpty b = true -> IsEmptyOrDeleted b = true.
Proof. unfold IsEmpty, IsEmptyOrDeleted, kEmpty, kSentinel. intros H. zbool. lia. Qed.

Lemma free_cases b : IsEmptyOrDeleted b = true ->
  IsFull b = false /\ b <> kSentinel /\ (valid_ctrl b -> b = kEmpty \/ b = kDeleted).
Proof.
  unfold IsEmptyOrDeleted, IsFull, valid_ctrl, kSentinel, kEmpty, kDeleted. intros H. zbool.
  rewrite Z.geb_leb. repeat split; lia.
Qed.

(** ** Slots on the probe path of a hash *)

(** A slot in a window of the probe sequence, with no window before it that has a hit. *)
Definition path (G : GroupOps) (m : Z) (p : Z -> bool) (ctrl : list Z) (h1 q : Z) : Prop :=
  exists i j, 0 <= j < Z.of_nat (gWidth G) /\
    offset_ (probe_at (Z.of_nat (gWidth G)) m h1 i) + j <= 2 * (2 ^ m - 1) /\
    (offset_ (probe_at (Z.of_nat (gWidth G)) m h1 i) + j) mod 2 ^ m = q /\
    forall i', (i' < i)%nat -> ~ win_has G m p ctrl (offset_ (probe_at (Z.of_nat (gWidth G)) m h1 i')).

Lemma path_reach G m p ctrl h1 q : (forall b, IsEmpty b = true -> p b = true) ->
  path G m p ctrl h1 q -> reach G m ctrl h1 q.
Proof.
  intros Pe (i & j & Hj & Hr & E & N). exists i, j. do 3 (split; [assumption|]).
  intros i' Hi' (j' & Hj' & E'). apply (N i' Hi'). exists j'. auto.
Qed.

(** ** A free slot for a hash *)
Section FreeSlot.
Context (G : GroupOps) {L : GroupLaws G} (w m : Z) (HW : Z.of_nat (gWidth G) = 2 ^ w) (Hw : w = 3 \/ w = 4)
  (Hm : 2 <= m <= 55) (ctrl : list Z) (Hc : ctrl_ok G m ctrl) (h1 : Z)
  (Free : exists q, 0 <= q < 2 ^ m - 1 /\ IsEmptyOrDeleted (cbyte ctrl q) = true).
Abbreviation W := (Z.of_nat (gWidth G)).
Abbreviation cap := (2 ^ m - 1).
Abbreviation at_ := (probe_at W m h1).

Lemma probe_window_offset i : 0 <= offset_ (at_ i) <= cap.
Proof. exact (at_offset G w m Hm h1 i). Qed.

(** The masks of the probe windows. *)
Lemma window_mask p mask i :
  mask = enc (2 ^ gShift G) (map p (win G ctrl (offset_ (at_ i)))) ->
  (NonIterableBitMask.to_bool mask = true <-> win_has G m p ctrl (offset_ (at_ i))) /\
  (win_has G m p ctrl (offset_ (at_ i)) ->
   first_at G m ctrl p (offset_ (at_ i)) (NonIterableBitMask.LowestBitSet (gBits G) (gShift G) mask)).
Proof.
  intros E. pose proof (probe_window_offset i) as Ho.
  pose proof (win_window G w m HW Hw Hm ctrl Hc _ Ho) as Hwin.
  destruct (mask_window G w m HW Hw Hm ctrl Hc mask p (offset_ (at_ i)) Ho) as [M1 M2].
  { now apply mask_finds_enc. }
  split; [exact M1|]. intros H. apply M2, H.
Qed.

(** A first hit of a window is a slot on the path of the hash. *)
Lemma first_free_path p i j : p kSentinel = false ->
  (exists q, 0 <= q < cap /\ p (cbyte ctrl q) = true) ->
  first_at G m ctrl p (offset_ (at_ i)) j ->
  (forall i', (i' < i)%nat -> ~ win_has G m p ctrl (offset_ (at_ i'))) ->
  let q := offset (at_ i) j in
  0 <= q < cap /\ p (cbyte ctrl q) = true /\ path G m p ctrl h1 q.
Proof.
  intros Ps Ex Fj Hn q. pose proof (probe_window_offset i) as Ho.
  assert (Eq : q = (offset_ (at_ i) + j) mod 2 ^ m) by apply (at_slot G w m Hm h1).
  destruct (first_at_slot G w m Hw Hm ctrl Hc p _ j Ho Ps Fj Ex) as (R & Rq & Pq). rewrite <- Eq in *.
  split; [exact Rq|]. split; [exact Pq|]. exists i, j. split; [apply Fj|]. split; [exact R|]. split; [now symmetry|].
  exact Hn.
Qed.

Lemma find_first_non_full_path : exists t, find_first_non_full_from_h1 G ctrl h1 cap = Some t /\
  0 <= fi_offset t < cap /\ IsEmptyOrDeleted (cbyte ctrl (fi_offset t)) = true /\
  path G m IsEmptyOrDeleted ctrl h1 (fi_offset t).
Proof.
  pose proof (probe_window_offset 0) as Ho. pose proof (ctrl_len _ _ _ Hc) as HL.
  unfold find_first_non_full_from_h1. change (probe_h1 cap h1) with (at_ 0).
  rewrite (read_some _ _ 0) by (pose proof (width_cases W w HW Hw); lia). cbn [obind].
  change (nth _ ctrl 0) with (cbyte ctrl (offset_ (at_ 0))).
  destruct (IsEmptyOrDeleted (cbyte ctrl (offset_ (at_ 0)))) eqn:E0.
  - eexists. split; [reflexivity|]. cbn [fi_offset].
    assert (offset_ (at_ 0) <> cap).
    { intros Ec. rewrite Ec, (ctrl_sentinel _ _ _ Hc) in E0. discriminate. }
    split; [lia|]. split; [exact E0|]. exists 0%nat, 0. pose proof (width_cases W w HW Hw).
    split; [lia|]. split; [lia|]. split; [rewrite Z.add_0_r; apply Z.mod_small; lia|lia].
  - destruct Free as (q & Hq & Fq).
    set (b := fun i => existsb IsEmptyOrDeleted (win G ctrl (offset_ (at_ i)))).
    assert (B : forall i, b i = true <-> win_has G m IsEmptyOrDeleted ctrl (offset_ (at_ i))).
    { intros i. apply (win_existsb G w m HW Hw Hm ctrl Hc), probe_window_offset. }
    destruct (least_nat b (rounds G cap)) as (i & Hi & Bi & Li).
    { destruct (round_has G w m HW Hw Hm ctrl h1 IsEmptyOrDeleted q) as (i & Hi & Ei); [lia|exact Fq|].
      exists i. split; [exact Hi|now apply B]. }
    set (mask i := gMaskEmptyOrDeleted G (win G ctrl (offset_ (at_ i)))).
    assert (Mask : forall i, mask i = enc (2 ^ gShift G) (map IsEmptyOrDeleted (win G ctrl (offset_ (at_ i))))).
    { intros k. apply law_empty_or_deleted. apply (win_window G w m HW Hw Hm ctrl Hc), probe_window_offset. }
    assert (PT : probe_till_first_non_full_group G ctrl (at_ 0) cap = Some (mask i, at_ i)).
    { apply (probe_loop_spec G _ i); [exact Hi| |].
      - intros i' Hi'. change (Nat.iter i' _ _) with (at_ i'). rewrite (load_win G w m Hw Hm ctrl Hc) by apply probe_window_offset.
        cbn [obind]. fold (mask i'). destruct (NonIterableBitMask.to_bool (mask i')) eqn:E; [|reflexivity].
        apply (window_mask _ _ _ (Mask i')) in E. apply B in E. rewrite Li in E by exact Hi'. discriminate.
      - change (Nat.iter i _ _) with (at_ i). rewrite (load_win G w m Hw Hm ctrl Hc) by apply probe_window_offset.
        cbn [obind]. fold (mask i). now rewrite (proj2 (proj1 (window_mask _ _ _ (Mask i))) (proj1 (B i) Bi)). }
    rewrite PT. cbn [obind]. eexists. split; [reflexivity|]. cbn [fi_offset].
    apply (first_free_path IsEmptyOrDeleted); auto.
    + apply (window_mask _ _ _ (Mask i)). now apply B.
    + intros i' Hi' X%B. rewrite Li in X by exact Hi'. discriminate.
Qed.

Lemma find_first_non_full_spec : exists t, find_first_non_full_from_h1 G ctrl h1 cap = Some t /\
  0 <= fi_offset t < cap /\ IsEmptyOrDeleted (cbyte ctrl (fi_offset t)) = true /\ reach G m ctrl h1 (fi_offset t).
Proof.
  destruct find_first_non_full_path as (t & E & R & F & Pt). exists t. do 3 (split; [assumption|]).
  exact (path_reach G m IsEmptyOrDeleted ctrl h1 _ empty_is_free Pt).
Qed.

End FreeSlot.

(** ** Replacing one slot *)
Section Replace.
Context {V K : Type} (G : GroupOps) (mode : StorageMode) (P : Policy V K) {PL : PolicyLaws P}
  (w m : Z) (HW : Z.of_nat (gWidth G) = 2 ^ w) (Hw : w = 3 \/ w = 4)
  (c c' : CommonFields V) (T : table_ok G mode P m c) (i h : Z) (s : option V)
  (Hi : 0 <= i < Z.of_nat (length (slot_array c))).
Abbreviation cap := (2 ^ m - 1).

(** The inline data may change in its size only. *)
Record same_data : Prop := {
  same_cap : capacity mode c' = capacity mode c;
  same_seed : seed mode c' = seed mode c;
  same_blocked : blocked_element_count c' = blocked_element_count c;
  same_ok : data_ok mode (inline_data_ c')
}.

Context (Same : same_data) (E1 : control c' = set_ctrl G m (control c) i h)
  (E2 : slot_array c' = replace_nth (Z.to_nat i) s (slot_array c)) (Hv : valid_ctrl h) (Hns : h <> kSentinel)
  (Hfull : IsFull h = true -> exists v, s = Some v /\ h = H2 (key_hash mode P c v) /\
             reach G m (control c) (key_hash mode P c v) i)
  (Mono : forall h1 q, 0 <= q < cap -> reach G m (control c) h1 q -> reach G m (control c') h1 q).

Lemma slots_in_cap : Z.of_nat (length (slot_array c)) <= cap.
Proof.
  clear - T. pose proof (t_slots _ _ _ _ _ T). assert (0 <= blocked_element_count c); [|lia].
  apply Z.shiftr_nonneg, Z.land_nonneg. right. discriminate.
Qed.

Lemma replace_ok : distinct P (elements c') -> table_ok G mode P m c'.
Proof.
  intros D. pose proof (t_m55 _ _ _ _ _ T) as Hm. pose proof (t_ctrl _ _ _ _ _ T) as Hc. pose proof slots_in_cap as Hl.
  assert (Hic : 0 <= i < cap) by lia.
  assert (Len : length (slot_array c') = length (slot_array c)) by (rewrite E2; apply replace_nth_length).
  assert (Main : forall q, 0 <= q <= cap -> cbyte (control c') q = if q =? i then h else cbyte (control c) q).
  { intros q Hq. rewrite E1. now apply (set_ctrl_main G w). }
  constructor.
  - apply T.
  - rewrite (same_cap Same). apply T.
  - apply (same_ok Same).
  - rewrite E1. now apply (set_ctrl_ok G w).
  - rewrite Len, (same_blocked Same). apply T.
  - intros q Hq. rewrite Main, Len by lia. destruct (q =? i) eqn:E; zbool.
    + subst q. split; [intros; contradiction|lia].
    + now apply T.
  - intros q Hq. rewrite Main by lia. unfold key_hash. rewrite (same_seed Same). fold (key_hash mode P c).
    unfold read_slot, read. rewrite E2, (proj2 (Z.leb_le _ _)), nth_error_replace_nth by lia.
    rewrite (proj2 (Nat.ltb_lt (Z.to_nat i) _)), andb_true_r by lia. destruct (q =? i) eqn:E; zbool.
    + subst q. rewrite Nat.eqb_refl. intros F. destruct (Hfull F) as (v & -> & Eh & R). exists v. cbn.
      split; [reflexivity|]. split; [exact Eh|]. now apply Mono.
    + rewrite (proj2 (Nat.eqb_neq _ _)) by lia. intros F. destruct (t_full _ _ _ _ _ T q Hq F) as (v & R1 & R2 & R3).
      exists v. unfold read_slot, read in R1. rewrite (proj2 (Z.leb_le _ _)) in R1 by lia.
      split; [exact R1|]. split; [exact R2|]. now apply Mono.
  - exact D.
Qed.

End Replace.
Arguments same_data {V}.

(** ** Load factor, growth information and inline data as the table uses them *)
Lemma growth_bounds W w m : W = 2 ^ w -> w = 3 \/ w = 4 -> 2 <= m <= 55 ->
  0 < CapacityToGrowth W (2 ^ m - 1) <= 2 ^ m - 1 /\
  (m < w -> CapacityToGrowth W (2 ^ m - 1) = 2 ^ m - 1) /\
  (w <= m -> CapacityToGrowth W (2 ^ m - 1) < 2 ^ m - 1) /\
  (2 ^ m - 1 <= 127 -> CapacityToGrowth W (2 ^ m - 1) <= 126).
Proof.
  intros HW Hw Hm. rewrite (CapacityToGrowth_val W w HW Hw m) by lia. pose proof (cap_range m Hm).
  destruct (m <? w) eqn:E; zbool.
  - assert (2 ^ m <= 2 ^ 3) by (apply Z.pow_le_mono_r; lia). change (2 ^ 3) with 8 in *. lia.
  - destruct (m <=? w + 2) eqn:E2; zbool; [lia|].
    assert (M3 : 2 ^ m = 8 * 2 ^ (m - 3)) by (change 8 with (2 ^ 3); rewrite <- Z.pow_add_r by lia; f_equal; lia).
    assert (2 ^ 2 <= 2 ^ (m - 3)) by (apply Z.pow_le_mono_r; lia). change (2 ^ 2) with 4 in *. lia.
Qed.

Section GrowthFacts.
Context (host : endian) (mem : list Z) (cap : Z) (Hmem : mem_ok mem).
Abbreviation lb := (GrowthInfo.GetGrowthInfoLowerBound mem).

Lemma lower_bound_cases :
  0 <= lb < 256 /\ GrowthInfo.GetGrowthLeftLowerBound mem = lb mod 128 /\
  snd (growth_abs host mem cap) = (128 <=? lb) /\ lb mod 128 <= fst (growth_abs host mem cap).
Proof.
  destruct (mem_ok_split mem Hmem) as (ov & b & -> & Ho & Hb). rewrite growth_abs_mem by assumption.
  unfold GrowthInfo.GetGrowthLeftLowerBound, GrowthInfo.GetGrowthInfoLowerBound. rewrite lower_bound_mem.
  rewrite growth_left_mod by lia. repeat split; try lia. cbn [fst]. case_if; lia.
Qed.

Lemma fast_path_growth :
  GrowthInfoLowerBound.HasNoDeletedAndGrowthLeft lb = true ->
  snd (growth_abs host mem cap) = false /\ 0 < GrowthInfo.GetGrowthLeftLowerBound mem.
Proof.
  destruct lower_bound_cases as (R & -> & -> & _).
  intros H. apply (forallb_below_spec 256 (fun b => implb (GrowthInfoLowerBound.HasNoDeletedAndGrowthLeft b)
     (negb (128 <=? b) && (0 <? b mod 128)))) in R; [|vm_compute; reflexivity].
  rewrite H in R. cbn [implb] in R. zbool. split; [now apply Z.leb_gt|lia].
Qed.

Lemma slow_path_growth :
  GrowthInfoLowerBound.HasNoGrowthLeftAndNoDeleted lb = false ->
  GrowthInfoLowerBound.HasNoGrowthLeftAndHaveDeleted lb = false ->
  0 < GrowthInfo.GetGrowthLeftLowerBound mem.
Proof.
  destruct lower_bound_cases as (R & -> & _). unfold GrowthInfoLowerBound.HasNoGrowthLeftAndNoDeleted,
    GrowthInfoLowerBound.HasNoGrowthLeftAndHaveDeleted, GrowthInfoLowerBound.kDeletedBit.
  intros H1 H2. zbool. assert (lb <> 0 /\ lb <> 128) by auto. clear H1 H2. zlia.
Qed.
End GrowthFacts.

(** A change of the size alone keeps the rest of the inline data. *)
Lemma same_data_resized {V} mode (c : CommonFields V) d n :
  HashtableInlineData.capacity_internal_ d = HashtableInlineData.capacity_internal_ (inline_data_ c) ->
  view mode d = mk_fields n (f_blocked (view mode (inline_data_ c))) (f_infoz (view mode (inline_data_ c)))
                            (f_seed (view mode (inline_data_ c))) /\ data_ok mode d ->
  forall c', inline_data_ c' = d -> same_data mode c c' /\ size mode c' = n.
Proof.
  intros E [Ev Ok] c' E'.
  assert (VB : f_blocked (view mode d) = f_blocked (view mode (inline_data_ c))) by now rewrite Ev.
  assert (VS : f_seed (view mode d) = f_seed (view mode (inline_data_ c))) by now rewrite Ev.
  assert (VN : f_size (view mode d) = n) by now rewrite Ev.
  unfold view in VB, VS, VN. cbn [f_blocked f_seed f_size] in *.
  split; [constructor|].
  - unfold capacity, HashtableInlineData.capacity. now rewrite E', E.
  - unfold seed, HashtableInlineData.seed. now rewrite E', VS.
  - unfold blocked_element_count. now rewrite E'.
  - now rewrite E'.
  - unfold size. now rewrite E'.
Qed.

Section InlineFacts.
Context {V : Type} (mode : StorageMode) (c : CommonFields V) (Hok : data_ok mode (inline_data_ c)).

Lemma increment_same c' : inline_data_ c' = HashtableInlineData.increment_size mode (inline_data_ c) ->
  size mode c + 1 < 2 ^ (data_bits mode - 9) ->
  same_data mode c c' /\ size mode c' = size mode c + 1.
Proof.
  intros E H. pose proof (size_ops mode _ Hok (size mode c + 1)) as S. cbv zeta in S. destruct S as (S1 & _).
  apply (same_data_resized mode c (HashtableInlineData.increment_size mode (inline_data_ c)) (size mode c + 1) eq_refl (S1 eq_refl H) c' E).
Qed.

Lemma decrement_same c' : inline_data_ c' = HashtableInlineData.decrement_size mode (inline_data_ c) ->
  0 < size mode c -> same_data mode c c' /\ size mode c' = size mode c - 1.
Proof.
  intros E H. pose proof (size_ops mode _ Hok 0) as S. cbv zeta in S. destruct S as (_ & _ & S3 & _).
  apply (same_data_resized mode c (HashtableInlineData.decrement_size mode (inline_data_ c)) (size mode c - 1) eq_refl (S3 H) c' E).
Qed.

Lemma set_size_same c' n : inline_data_ c' = HashtableInlineData.set_size mode (inline_data_ c) n ->
  0 <= n < 2 ^ (data_bits mode - 9) -> same_data mode c c' /\ size mode c' = n.
Proof.
  intros E H. pose proof (size_ops mode _ Hok n) as S. cbv zeta in S. destruct S as (_ & _ & _ & S4 & _).
  apply (same_data_resized mode c (HashtableInlineData.set_size mode (inline_data_ c) n) n eq_refl (S4 H) c' E).
Qed.

Lemma size_nonneg : 0 <= size mode c.
Proof. unfold size, HashtableInlineData.size. apply Z.shiftr_nonneg. apply Hok. Qed.

End InlineFacts.

(** ** The stores of a control byte *)
Section SetCtrl.
Context {V : Type} (G : GroupOps) (mode : StorageMode) (w m : Z) (HW : Z.of_nat (gWidth G) = 2 ^ w)
  (Hw : w = 3 \/ w = 4) (Hm : 2 <= m <= 55) (c : CommonFields V) (Ecap : capacity mode c = 2 ^ m - 1)
  (Hc : ctrl_ok G m (control c)) (i h : Z) (Hi : 0 <= i < 2 ^ m - 1).

Lemma write_twice q : q = mirror G m i ->
  (do c1 <- write (control c) i h; do c2 <- write c1 q h; Some (with_control c c2)) =
  Some (with_control c (set_ctrl G m (control c) i h)).
Proof.
  intros E. pose proof (write_set_ctrl G w m HW Hw Hm (control c) Hc i h Hi q E) as X.
  destruct (write (control c) i h) as [c1|]; [|discriminate]. cbn [obind] in *.
  destruct (write c1 q h); [|discriminate]. cbn [obind]. congruence.
Qed.

Lemma SetCtrl_some : SetCtrl G mode c i h = Some (with_control c (set_ctrl G m (control c) i h)).
Proof.
  unfold SetCtrl, SetCtrlNoSanitizeImpl. rewrite Ecap. apply write_twice. now apply (mirror_any G w).
Qed.

Lemma SetCtrlInLargeTable_some : w <= m ->
  SetCtrlInLargeTable G mode c i h = Some (with_control c (set_ctrl G m (control c) i h)).
Proof.
  intros H. unfold SetCtrlInLargeTable. rewrite Ecap. apply write_twice. now apply (mirror_large G w).
Qed.

Lemma SetCtrlInSingleGroupTable_some : m <= w ->
  SetCtrlInSingleGroupTable mode c i h = Some (with_control c (set_ctrl G m (control c) i h)).
Proof.
  intros H. unfold SetCtrlInSingleGroupTable. rewrite Ecap. apply write_twice. unfold mirror.
  pose proof (cap_range m Hm). pose proof (Z.pow_le_mono_r 2 m w ltac:(lia) ltac:(lia)).
  rewrite wrapu_add_l, (proj2 (Z.ltb_lt _ _)) by lia. apply wrapu_small.
  change (2 ^ 55) with 36028797018963968 in *. change (2 ^ 64) with 18446744073709551616. lia.
Qed.
End SetCtrl.

(** A store of a byte that is not empty leaves no window with a new empty byte. *)
Lemma reach_mono G m ctrl ctrl' h1 q : 2 <= m <= 55 ->
  (forall o, 0 <= o <= 2 ^ m - 1 -> win_has G m IsEmpty ctrl' o -> win_has G m IsEmpty ctrl o) ->
  reach G m ctrl h1 q -> reach G m ctrl' h1 q.
Proof.
  intros Hm H (i & j & Hj & Hr & E & N). exists i, j. repeat (split; [assumption|]).
  intros i' Hi' X. apply (N i' Hi'). apply H; [apply (at_offset G 0 m Hm)|exact X].
Qed.

Lemma no_new_empty G w m ctrl i h : Z.of_nat (gWidth G) = 2 ^ w -> w = 3 \/ w = 4 -> 2 <= m <= 55 ->
  ctrl_ok G m ctrl -> 0 <= i < 2 ^ m - 1 -> IsEmpty h = false -> forall o, 0 <= o <= 2 ^ m - 1 ->
  win_has G m IsEmpty (set_ctrl G m ctrl i h) o -> win_has G m IsEmpty ctrl o.
Proof.
  intros HW Hw Hm Hc Hi Hh o Ho (j & Hj & E). exists j. split; [exact Hj|].
  rewrite (set_ctrl_seen G w m HW Hw Hm ctrl Hc i h Hi o j Ho Hj) in E. revert E. case_if; [congruence|auto].
Qed.

Lemma elements_le_slots {V} (c : CommonFields V) : (length (elements c) <= length (slot_array c))%nat.
Proof.
  unfold elements. generalize (slot_array c). induction (control c) as [|b l IH]; intros s; cbn; [lia|].
  destruct s as [|o s]; cbn; [lia|]. rewrite length_app. specialize (IH s).
  destruct o; cbn; [destruct (IsFull b); cbn; lia|lia].
Qed.

(** ** Filling a reachable free slot *)
Lemma full_marks hash : in_u 64 hash ->
  IsEmpty (H2 hash) = false /\ H2 hash <> kSentinel /\ H2 hash <> kDeleted.
Proof.
  intros H. pose proof (H2_range hash H). unfold IsEmpty, kEmpty, kSentinel, kDeleted.
  split; [apply Z.eqb_neq|]; lia.
Qed.

Section Fill.
Context {V K : Type} (G : GroupOps) (mode : StorageMode) (P : Policy V K) {PL : PolicyLaws P}
  (w m : Z) (HW : Z.of_nat (gWidth G) = 2 ^ w) (Hw : w = 3 \/ w = 4)
  (c c' : CommonFields V) (T : table_ok G mode P m c) (t : Z) (v : V)
  (Ht : 0 <= t < 2 ^ m - 1) (Ft : IsEmptyOrDeleted (cbyte (control c) t) = true).
Abbreviation cap := (2 ^ m - 1).
Abbreviation h := (key_hash mode P c v).

Lemma free_slot_exists : 0 <= t < Z.of_nat (length (slot_array c)).
Proof.
  clear - T Ht Ft. split; [lia|]. destruct (Z.lt_ge_cases t (Z.of_nat (length (slot_array c)))) as [|C]; [assumption|].
  apply (t_blocked _ _ _ _ _ T t Ht) in C. now apply free_cases in Ft.
Qed.

Context (E1 : control c' = set_ctrl G m (control c) t (H2 h))
  (E2 : slot_array c' = replace_nth (Z.to_nat t) (Some v) (slot_array c)).

Lemma fill_byte q : 0 <= q <= cap -> cbyte (control c') q = if q =? t then H2 h else cbyte (control c) q.
Proof. intros Hq. rewrite E1. apply (set_ctrl_main G w); auto; [apply (t_m55 _ _ _ _ _ T)|apply T]. Qed.

Lemma fill_elements : Permutation (elements c') (v :: elements c) /\
  empties m (control c') = empties m (control c) - b2z (IsEmpty (cbyte (control c) t)).
Proof.
  pose proof (t_m55 _ _ _ _ _ T) as Hm. pose proof (t_ctrl _ _ _ _ _ T) as Hc. destruct (free_cases _ Ft) as (F1 & _).
  pose proof free_slot_exists as Hts. pose proof (slots_in_cap G mode P m c T) as Hl.
  destruct (H2_full h (hash_range _ _)) as [_ Hf]. destruct (full_marks h (hash_range _ _)) as (Hne & _).
  pose proof (elements_update G w m HW Hw Hm c c' Hc t (H2 h) (Some v) Hts Hl E1 E2) as EP.
  pose proof (empties_update G w m HW Hw Hm c c' Hc t (H2 h) Hts Hl E1) as EE.
  cbn [slot_element] in EP. rewrite Hf in EP. split.
  - destruct (nth (Z.to_nat t) (slot_array c) None); cbn in EP; rewrite ?F1 in EP; exact EP.
  - unfold empty_mark in EE. rewrite Hne in EE. destruct (IsEmpty (cbyte (control c) t)); cbn [b2z length] in *; lia.
Qed.

Lemma fill_stored : stored m c' t v.
Proof.
  pose proof free_slot_exists. split; [exact Ht|]. rewrite fill_byte, Z.eqb_refl by lia.
  split; [apply (H2_full h), hash_range|]. unfold read_slot, read. rewrite (proj2 (Z.leb_le _ _)), E2 by lia.
  rewrite nth_error_replace_nth, Nat.eqb_refl, (proj2 (Nat.ltb_lt _ _)) by lia. reflexivity.
Qed.

Lemma fill_ok : same_data mode c c' -> reach G m (control c) h t -> distinct P (v :: elements c) ->
  table_ok G mode P m c'.
Proof.
  intros Same Rt D. pose proof (t_m55 _ _ _ _ _ T) as Hm.
  destruct (H2_full h (hash_range _ _)) as [Hv Hf]. destruct (full_marks h (hash_range _ _)) as (Hne & Hns & _).
  apply (replace_ok G mode P w m HW Hw c c' T t (H2 h) (Some v) free_slot_exists); auto.
  - intros _. exists v. auto.
  - intros h1 q _. rewrite E1. apply reach_mono; [exact Hm|]. apply (no_new_empty G w); auto. apply T.
  - exact (distinct_perm P _ _ (Permutation_sym (proj1 fill_elements)) D).
Qed.

End Fill.

(** ** Insertion *)
Section Insert.
Context {V K : Type} (G : GroupOps) {L : GroupLaws G} (host : endian) (mode : StorageMode) (P : Policy V K)
  {PL : PolicyLaws P} (w m : Z) (HW : Z.of_nat (gWidth G) = 2 ^ w) (Hw : w = 3 \/ w = 4)
  (c : CommonFields V) (I : table_inv G host mode P m c).
Abbreviation W := (Z.of_nat (gWidth G)).
Abbreviation cap := (2 ^ m - 1).
Abbreviation growth mem := (growth_abs host mem cap).

Lemma inv_stops : m < w \/ 0 < empties m (control c).
Proof.
  pose proof (t_m55 _ _ _ _ _ (i_ok _ _ _ _ _ _ I)) as Hm. destruct (Z.lt_ge_cases m w) as [|H]; [now left|right].
  destruct (growth_bounds W w m HW Hw Hm) as (_ & _ & B & _). specialize (B H).
  pose proof (i_growth _ _ _ _ _ _ I). pose proof (lower_bound_cases host (growth_mem c) cap (i_mem _ _ _ _ _ _ I)) as (R & _ & _ & F).
  pose proof (Z.mod_pos_bound (GrowthInfo.GetGrowthInfoLowerBound (growth_mem c)) 128 ltac:(lia)). lia.
Qed.

(** Filling a reachable free slot. *)
Lemma fill_inv c' v t mem' :
  0 <= t < cap -> IsEmptyOrDeleted (cbyte (control c) t) = true ->
  reach G m (control c) (key_hash mode P c v) t -> distinct P (v :: elements c) ->
  c' = mk_Common (HashtableInlineData.increment_size mode (inline_data_ c))
         (set_ctrl G m (control c) t (H2 (key_hash mode P c v)))
         (replace_nth (Z.to_nat t) (Some v) (slot_array c)) mem' ->
  mem_ok mem' ->
  growth mem' = (fst (growth (growth_mem c)) - b2z (IsEmpty (cbyte (control c) t)), snd (growth (growth_mem c))) ->
  table_inv G host mode P m c' /\ Permutation (elements c') (v :: elements c) /\ stored m c' t v.
Proof.
  intros Ht Ft Rt D Ec' Hmem Eg. pose proof (i_ok _ _ _ _ _ _ I) as T.
  assert (E1 : control c' = set_ctrl G m (control c) t (H2 (key_hash mode P c v))) by now rewrite Ec'.
  assert (E2 : slot_array c' = replace_nth (Z.to_nat t) (Some v) (slot_array c)) by now rewrite Ec'.
  assert (E3 : growth_mem c' = mem') by now rewrite Ec'.
  destruct (fill_elements G mode P w m HW Hw c c' T t v Ht Ft E1 E2) as [EP EE].
  assert (Sz : size mode c + 1 <= cap).
  { rewrite (i_size _ _ _ _ _ _ I). pose proof (elements_le_slots c') as B. apply Permutation_length in EP.
    cbn [length] in EP. rewrite E2, replace_nth_length in B. pose proof (slots_in_cap G mode P m c T). lia. }
  assert (Pw : 2 ^ m <= 2 ^ (data_bits mode - 9)) by (apply Z.pow_le_mono_r; pose proof (t_m _ _ _ _ _ T); lia).
  destruct (increment_same mode c (t_data _ _ _ _ _ T) c') as [Same SzE]; [now rewrite Ec'|lia|].
  split; [|split; [exact EP|now apply (fill_stored G mode P w m HW Hw c c' T)]]. constructor.
  - now apply (fill_ok G mode P w m HW Hw c c' T t v).
  - rewrite SzE, (i_size _ _ _ _ _ _ I), (Permutation_length EP). cbn [length]. lia.
  - now rewrite E3.
  - rewrite E3, Eg. cbn [fst]. rewrite (i_growth _ _ _ _ _ _ I), EE. lia.
  - rewrite E3, Eg. cbn [snd]. intros Hd q Hq. rewrite (fill_byte G mode P w m HW Hw c c' T t v Ht E1) by lia.
    case_if; [now apply full_marks, hash_range|]. exact (i_deleted _ _ _ _ _ _ I Hd q Hq).
  - rewrite E3, Eg. exact (i_single _ _ _ _ _ _ I).
  - rewrite (same_blocked _ _ _ Same). apply I.
Qed.

(** Rebalancing the growth information is invisible. *)
Lemma rebalanced_inv mem' : mem_ok mem' -> growth mem' = growth (growth_mem c) ->
  table_inv G host mode P m (with_growth c mem').
Proof.
  intros Hmem Eg. destruct I as [[] J2 J3 J4 J5 J6 J7]. constructor; auto.
  - now constructor.
  - change (growth_mem (with_growth c mem')) with mem'. now rewrite Eg.
  - change (growth_mem (with_growth c mem')) with mem'. now rewrite Eg.
  - change (growth_mem (with_growth c mem')) with mem'. now rewrite Eg.
Qed.

Lemma growth_left_empties : 0 < fst (growth (growth_mem c)) ->
  exists q, 0 <= q < cap /\ IsEmpty (cbyte (control c) q) = true.
Proof.
  intros H. pose proof (i_ok _ _ _ _ _ _ I) as T. pose proof (t_m55 _ _ _ _ _ T) as Hm.
  apply (empties_pos G); auto; [apply T|]. pose proof (i_growth _ _ _ _ _ _ I).
  pose proof (growth_bounds W w m HW Hw Hm). lia.
Qed.

End Insert.

(** ** Erasure *)
Section NeverFull.
Context {V : Type} (G : GroupOps) {L : GroupLaws G} (mode : StorageMode) (w m : Z)
  (HW : Z.of_nat (gWidth G) = 2 ^ w) (Hw : w = 3 \/ w = 4) (Hm : 2 <= m <= 55)
  (c : CommonFields V) (Ecap : capacity mode c = 2 ^ m - 1) (Hc : ctrl_ok G m (control c))
  (i : Z) (Hi : 0 <= i < 2 ^ m - 1).
Abbreviation W := (Z.of_nat (gWidth G)).
Abbreviation cap := (2 ^ m - 1).

(** In a table of one group every slot is in the first window of every probe. *)
Lemma single_group_reach ctrl' h1 q : m <= w -> 0 <= q <= cap -> reach G m ctrl' h1 q.
Proof.
  intros H Hq. destruct (slot_in_round G w m HW Hw Hm h1 q Hq) as (k & j & Hk & Hj & Hr & E).
  assert (2 ^ m <= 2 ^ w) by (apply Z.pow_le_mono_r; lia). pose proof (cap_range m Hm).
  assert (k = 0)%nat by (unfold rounds in Hk; rewrite Z.div_small in Hk by lia; lia). subst k.
  exists 0%nat, j. repeat (split; [assumption|]). lia.
Qed.

(** An empty byte at most [a] after and one more than [t] before a slot, with [a + t < W]: every
    window over the slot has one of them. *)
Lemma window_over_slot a t o j :
  w < m -> 0 <= a -> 0 <= t -> a + t < W ->
  IsEmpty (cbyte (control c) ((i + a) mod 2 ^ m)) = true ->
  IsEmpty (cbyte (control c) ((i - 1 - t) mod 2 ^ m)) = true ->
  0 <= o <= cap -> 0 <= j < W -> (o + j) mod 2 ^ m = i -> win_has G m IsEmpty (control c) o.
Proof.
  intros Hwm Ha Ht Hat Ea Et Ho Hj E.
  assert (2 ^ (w + 1) <= 2 ^ m) by (apply Z.pow_le_mono_r; lia). rewrite Z.pow_add_r in * by lia.
  change (2 ^ 1) with 2 in *.
  destruct (Z.lt_ge_cases (j + a) W) as [C|C].
  - exists (j + a). split; [lia|]. unfold seen. rewrite (proj2 (Z.leb_le _ _)) by lia.
    rewrite Z.add_assoc, <- Zplus_mod_idemp_l, E. exact Ea.
  - exists (j - 1 - t). split; [lia|]. unfold seen. rewrite (proj2 (Z.leb_le _ _)) by lia.
    replace (o + (j - 1 - t)) with ((o + j) - (1 + t)) by lia. rewrite <- Zminus_mod_idemp_l, E.
    replace (i - (1 + t)) with (i - 1 - t) by lia. exact Et.
Qed.

Lemma WasNeverFull_spec : exists b, WasNeverFull G mode c i = Some b /\
  (b = true -> forall h1 q, 0 <= q < cap -> reach G m (control c) h1 q ->
     reach G m (set_ctrl G m (control c) i kEmpty) h1 q) /\
  (b = false -> w < m).
Proof.
  pose proof (cap_range m Hm) as Hcap. unfold WasNeverFull, is_single_group. rewrite Ecap.
  destruct (cap <=? W) eqn:Esg; zbool.
  { exists true. split; [reflexivity|]. split; [|discriminate]. intros _ h1 q Hq _. apply single_group_reach; [|lia].
    destruct (Z.le_gt_cases m w) as [|C]; [assumption|exfalso].
    assert (2 ^ (w + 1) <= 2 ^ m) by (apply Z.pow_le_mono_r; lia). rewrite Z.pow_add_r in * by lia.
    pose proof (width_cases W w HW Hw). change (2 ^ 1) with 2 in *. lia. }
  assert (Hwm : w < m).
  { destruct (Z.lt_ge_cases w m) as [|C]; [assumption|exfalso].
    assert (2 ^ m <= 2 ^ w) by (apply Z.pow_le_mono_r; lia). lia. }
  rewrite land_cap, mod_wrap by lia. set (ob := (i - W) mod 2 ^ m).
  assert (Hob : 0 <= ob <= cap) by apply (mod_range m _ Hm).
  rewrite !(load_win G w m Hw Hm (control c) Hc) by lia. cbn [obind].
  assert (Mask : forall o, 0 <= o <= cap -> mask_finds G (gMaskEmpty G (win G (control c) o)) IsEmpty (win G (control c) o)).
  { intros o Ho. pose proof (win_window G w m HW Hw Hm (control c) Hc o Ho).
    apply mask_finds_enc; auto. now apply law_empty. }
  destruct (mask_window G w m HW Hw Hm (control c) Hc _ IsEmpty i ltac:(lia) (Mask i ltac:(lia))) as [A1 A2].
  destruct (mask_window G w m HW Hw Hm (control c) Hc _ IsEmpty ob Hob (Mask ob Hob)) as [B1 B2].
  eexists. split; [reflexivity|]. split; [|auto].
  intros E. zbool. rewrite A1 in *. rewrite B1 in *.
  match goal with H : win_has G m IsEmpty (control c) i |- _ => apply A2 in H as (_ & (Ra & Ea & _) & _) end.
  match goal with H : win_has G m IsEmpty (control c) ob |- _ => apply B2 in H as (_ & _ & (Rt & Et & _)) end.
  cbv zeta in *. set (a := NonIterableBitMask.TrailingZeros _ _ (gMaskEmpty G (win G (control c) i))) in *.
  set (t := NonIterableBitMask.LeadingZeros _ _ _ (gMaskEmpty G (win G (control c) ob))) in *.
  assert (2 ^ (w + 1) <= 2 ^ m) by (apply Z.pow_le_mono_r; lia). rewrite Z.pow_add_r in * by lia. change (2 ^ 1) with 2 in *.
  unfold seen in Ea, Et. rewrite (proj2 (Z.leb_le _ _)) in Ea by lia. rewrite (proj2 (Z.leb_le _ _)) in Et by lia.
  replace ((ob + (W - 1 - t)) mod 2 ^ m) with ((i - 1 - t) mod 2 ^ m) in Et
    by (unfold ob; rewrite Zplus_mod_idemp_l; f_equal; lia).
  intros h1 q _. apply reach_mono; [exact Hm|]. intros o Ho (j & Hj & Ej).
  rewrite (set_ctrl_seen G w m HW Hw Hm (control c) Hc i kEmpty Hi o j Ho Hj) in Ej.
  destruct ((o + j <=? 2 * cap) && ((o + j) mod 2 ^ m =? i)) eqn:X; [|exists j; auto]. zbool.
  apply (window_over_slot a t o j); auto; lia.
Qed.

End NeverFull.

Section Erase.
Context {V K : Type} (G : GroupOps) {L : GroupLaws G} (host : endian) (mode : StorageMode) (P : Policy V K)
  {PL : PolicyLaws P} (w m : Z) (HW : Z.of_nat (gWidth G) = 2 ^ w) (Hw : w = 3 \/ w = 4)
  (c : CommonFields V) (I : table_inv G host mode P m c).
Abbreviation W := (Z.of_nat (gWidth G)).
Abbreviation cap := (2 ^ m - 1).
Abbreviation growth mem := (growth_abs host mem cap).

Lemma stored_slot q v : stored m c q v ->
  0 <= q < Z.of_nat (length (slot_array c)) /\ nth (Z.to_nat q) (slot_array c) None = Some v.
Proof.
  intros (Hq & F & R). unfold read_slot, read in R. rewrite (proj2 (Z.leb_le _ _)) in R by lia.
  destruct (nth_error (slot_array c) (Z.to_nat q)) as [s|] eqn:E; [|discriminate]. cbn in R. subst s.
  split; [|now apply nth_error_nth]. split; [lia|].
  assert (Z.to_nat q < length (slot_array c))%nat by (apply nth_error_Some; congruence). lia.
Qed.

(** Emptying a full slot with one of the two free marks. *)
Lemma vacate_inv c' q v b mem' :
  stored m c q v -> b = kEmpty \/ (b = kDeleted /\ w < m) ->
  (forall h1 x, 0 <= x < cap -> reach G m (control c) h1 x -> reach G m (set_ctrl G m (control c) q b) h1 x) ->
  c' = mk_Common (HashtableInlineData.decrement_size mode (inline_data_ c)) (set_ctrl G m (control c) q b)
         (replace_nth (Z.to_nat q) None (slot_array c)) mem' ->
  mem_ok mem' ->
  growth mem' = (fst (growth (growth_mem c)) + b2z (IsEmpty b), negb (IsEmpty b) || snd (growth (growth_mem c))) ->
  table_inv G host mode P m c' /\ Permutation (elements c) (v :: elements c').
Proof.
  intros Sq Hb Mono -> Hmem Eg. pose proof (i_ok _ _ _ _ _ _ I) as T. pose proof (t_m55 _ _ _ _ _ T) as Hm.
  pose proof (t_ctrl _ _ _ _ _ T) as Hc. pose proof (slots_in_cap G mode P m c T) as Hl.
  destruct (stored_slot q v Sq) as [Hq Nq]. destruct Sq as (Hqc & Fq & _).
  set (c' := mk_Common _ _ _ _).
  assert (Bv : valid_ctrl b /\ b <> kSentinel /\ IsFull b = false)
    by (destruct Hb as [->|[-> _]]; unfold valid_ctrl, kEmpty, kDeleted, kSentinel, IsFull; repeat split; lia || auto).
  pose proof (elements_update G w m HW Hw Hm c c' Hc q b None Hq Hl eq_refl eq_refl) as EP.
  rewrite Nq in EP. cbn [slot_element] in EP. rewrite Fq in EP. cbn [app] in EP.
  pose proof (empties_update G w m HW Hw Hm c c' Hc q b Hq Hl eq_refl) as EE.
  assert (Ne : IsEmpty (cbyte (control c) q) = false).
  { unfold IsEmpty, IsFull, kEmpty in *. zbool. apply Z.eqb_neq. lia. }
  unfold empty_mark in EE. rewrite Ne in EE. cbn [length] in EE.
  pose proof (Permutation_length EP) as EL. cbn [length] in EL.
  destruct (decrement_same mode c (t_data _ _ _ _ _ T) c' eq_refl ltac:(rewrite (i_size _ _ _ _ _ _ I); lia)) as [Same SzE].
  split; [|now symmetry]. constructor.
  - apply (replace_ok G mode P w m HW Hw c c' T q b None); auto; try apply Bv.
    + destruct Bv as (_ & _ & ->). discriminate.
    + pose proof (distinct_perm P _ _ (Permutation_sym EP) (t_distinct _ _ _ _ _ T)) as D. now apply distinct_cons in D.
  - rewrite SzE, (i_size _ _ _ _ _ _ I). lia.
  - exact Hmem.
  - change (growth_mem c') with mem'. rewrite Eg. cbn [fst]. rewrite (i_growth _ _ _ _ _ _ I).
    destruct (IsEmpty b); cbn [b2z length] in *; lia.
  - change (growth_mem c') with mem'. rewrite Eg. cbn [snd]. intros Hd x Hx. apply orb_false_iff in Hd as [D1 D2].
    change (control c') with (set_ctrl G m (control c) q b). rewrite (set_ctrl_main G w) by (auto; lia).
    case_if; [|exact (i_deleted _ _ _ _ _ _ I D2 x Hx)].
    destruct Hb as [->|[-> _]]; [unfold kEmpty, kDeleted; lia|discriminate].
  - change (growth_mem c') with mem'. rewrite Eg. cbn [snd]. intros [D|D]%orb_true_iff; [|exact (i_single _ _ _ _ _ _ I D)].
    destruct Hb as [->|[-> Hlt]]; [discriminate|]. assert (2 ^ w < 2 ^ m) by (apply Z.pow_lt_mono_r; lia). lia.
  - rewrite (same_blocked _ _ _ Same). apply I.
Qed.

(** [erase(iterator)] is defined and removes exactly that element. *)
Lemma erase_at_spec q v : stored m c q v ->
  exists c', erase_at G host mode c q = Some c' /\ table_inv G host mode P m c' /\
    Permutation (elements c) (v :: elements c').
Proof.
  intros Sq. pose proof (i_ok _ _ _ _ _ _ I) as T. pose proof (t_m55 _ _ _ _ _ T) as Hm.
  pose proof (t_ctrl _ _ _ _ _ T) as Hc. destruct (stored_slot q v Sq) as [Hq Nq]. pose proof Sq as (Hqc & Fq & Rq).
  unfold erase_at, destroy. rewrite Rq. cbn [obind]. rewrite write_some by exact Hq. cbn [obind].
  unfold EraseMetaOnlyLarge. set (c1 := with_inline _ _).
  destruct (WasNeverFull_spec G mode w m HW Hw Hm c1 (t_cap _ _ _ _ _ T) Hc q Hqc) as (never & -> & Yes & No).
  cbn [obind]. pose proof (byte_ops_abs host (growth_mem c) cap (i_mem _ _ _ _ _ _ I)) as B.
  pose proof (FullAsEmpty_abs host (growth_mem c) cap (i_mem _ _ _ _ _ _ I)) as FE.
  pose proof (i_growth _ _ _ _ _ _ I) as Gr.
  assert (Lt : empties m (control c) < cap).
  { pose proof (empties_update G w m HW Hw Hm c (with_control c (set_ctrl G m (control c) q kEmpty)) Hc q kEmpty Hq
      (slots_in_cap G mode P m c T) eq_refl) as EE.
    assert (Ne : IsEmpty (cbyte (control c) q) = false).
    { unfold IsEmpty, IsFull, kEmpty in *. zbool. apply Z.eqb_neq. lia. }
    unfold empty_mark in EE. rewrite Ne in EE. cbn in EE. unfold empties in EE at 1.
    assert (X : forall l, (length (flat_map empty_mark l) <= length l)%nat).
    { induction l as [|b l IH]; cbn; [lia|]. rewrite length_app. unfold empty_mark at 1. destruct (IsEmpty b); cbn; lia. }
    specialize (X (firstn (Z.to_nat cap) (set_ctrl G m (control c) q kEmpty))). rewrite length_firstn in X.
    pose proof (cap_range m Hm). lia. }
  destruct (growth_bounds W w m HW Hw Hm) as (GB1 & _ & _ & GB4). pose proof (cap_range m Hm) as Hcap.
  change (2 ^ 55) with 36028797018963968 in Hcap.
  destruct (growth (growth_mem c)) as [g d] eqn:Eg. cbn [fst snd] in *.
  destruct never.
  - rewrite (SetCtrl_some G mode w m HW Hw Hm c1 (t_cap _ _ _ _ _ T) Hc q kEmpty Hqc). cbn [obind].
    eexists. split; [reflexivity|].
    destruct (FE ltac:(lia) ltac:(change (2 ^ 56) with 72057594037927936; lia)) as [F1 F2].
    apply (vacate_inv _ q v kEmpty (GrowthInfo.OverwriteFullAsEmpty host (growth_mem c))); auto.
    rewrite Eg. exact F1.
  - destruct B as (B1 & _ & _ & B4 & _).
    rewrite (SetCtrlInLargeTable_some G mode w m HW Hw Hm) by (auto; try apply (t_cap _ _ _ _ _ T); pose proof (No eq_refl); lia).
    eexists. split; [reflexivity|].
    apply (vacate_inv _ q v kDeleted (GrowthInfo.OverwriteFullAsDeleted (growth_mem c))); auto.
    + intros h1 x _. apply reach_mono; [exact Hm|]. now apply (no_new_empty G w).
    + rewrite Eg. cbn [fst snd b2z IsEmpty]. change (IsEmpty kDeleted) with false. cbn [b2z negb orb].
      rewrite Z.add_0_r. exact B1.
Qed.

(** [erase(key)] removes the element with that key if there is one. *)
Lemma erase_key_spec key :
  exists c' n, erase_key G host mode P c key = Some (c', n) /\ table_inv G host mode P m c' /\
    ((n = 1 /\ exists v, equal_to P key (key_of P v) = true /\ Permutation (elements c) (v :: elements c')) \/
     (n = 0 /\ c' = c)) /\
    Forall (fun v => equal_to P key (key_of P v) = false) (elements c').
Proof.
  pose proof (i_ok _ _ _ _ _ _ I) as T. unfold erase_key.
  destruct (find_large_spec G mode P w m HW Hw c T (inv_stops G host mode P w m HW Hw c I) key) as (r & -> & Hr). cbn [obind].
  destruct r as [q|]; [|exists c, 0; auto 6].
  destruct Hr as (v & Sq & Ek). destruct (erase_at_spec q v Sq) as (c' & -> & I' & Perm). cbn [obind].
  exists c', 1. split; [reflexivity|]. split; [exact I'|]. split; [left; split; [reflexivity|]; exists v; auto|].
  pose proof (distinct_perm P _ _ Perm (t_distinct _ _ _ _ _ T)) as D. apply distinct_cons in D as [D _].
  eapply Forall_impl; [|exact D]. intros v' Hv'. destruct (equal_to P key (key_of P v')) eqn:E; [|reflexivity].
  rewrite <- Hv'. symmetry. apply (eq_trans_k _ key); [now rewrite eq_sym_k|exact E].
Qed.

End Erase.
