(* ===== verification/TableResize.v ===== *)
(** Empty tables, iteration, clearing, resizing with a new seed and reserving room keep the
    invariant of the Swiss table. *)
From Stdlib Require Import ZArith Lia List Bool Permutation.
From S2P Require Import Prelude.
From S2P Require Import Bits.
From S2P Require Import Endian.
From S2P Require Import ControlBytes.
From S2P Require Import SwissTable.
From S2P Require Import RawTable.
From S2P Require Import TableSpec.
From S2P Require Import TableOps.
Import ListNotations.
#[local] Open Scope Z_scope.
#[local] Open Scope mach_scope.

(** ** Filling memory *)
Lemma memset_empty_spec n : forall ctrl pos, 0 <= pos -> pos + Z.of_nat n <= Z.of_nat (length ctrl) ->
  exists ctrl', memset_empty ctrl pos n = Some ctrl' /\ length ctrl' = length ctrl /\
    forall q, 0 <= q -> cbyte ctrl' q = if (pos <=? q) && (q <? pos + Z.of_nat n) then kEmpty else cbyte ctrl q.
Proof.
  induction n as [|n IH]; intros ctrl pos Hp Hl; cbn [memset_empty].
  - exists ctrl. split; [reflexivity|]. split; [reflexivity|]. intros q Hq. rewrite Z.add_0_r.
    destruct ((pos <=? q) && (q <? pos)) eqn:E; [zbool; lia|reflexivity].
  - rewrite write_some by lia. cbn [obind].
    destruct (IH (replace_nth (Z.to_nat pos) kEmpty ctrl) (pos + 1)) as (ctrl' & -> & HL & HB);
      [lia|rewrite replace_nth_length; lia|].
    exists ctrl'. split; [reflexivity|]. split; [now rewrite HL, replace_nth_length|].
    intros q Hq. rewrite HB by exact Hq. unfold cbyte. rewrite nth_replace_nth.
    rewrite (proj2 (Nat.ltb_lt (Z.to_nat pos) _)), andb_true_r by lia.
    destruct (Z.to_nat q =? Z.to_nat pos)%nat eqn:E.
    + apply Nat.eqb_eq in E. assert (q = pos) by lia. subst q.
      decide_cmp. reflexivity.
    + apply Nat.eqb_neq in E. replace (pos <=? q) with (pos + 1 <=? q); [|apply eq_true_iff_eq; rewrite !Z.leb_le; lia].
      replace (pos + 1 + Z.of_nat n) with (pos + Z.of_nat (S n)) by lia. reflexivity.
Qed.

(** ** Resetting the control bytes *)
Section Reset.
Context {V : Type} (G : GroupOps) (mode : StorageMode) (w m : Z) (HW : Z.of_nat (gWidth G) = 2 ^ w)
  (Hw : w = 3 \/ w = 4) (Hm : 2 <= m <= 55).
Abbreviation W := (Z.of_nat (gWidth G)).
Abbreviation cap := (2 ^ m - 1).

(** The control bytes of an empty table with [b] blocked slots. *)
Record reset_ctrl (b : Z) (ctrl : list Z) : Prop := {
  r_ok : ctrl_ok G m ctrl;
  r_byte q : 0 <= q < cap -> cbyte ctrl q = if q <? cap - b then kEmpty else kSentinel
}.

Lemma all_empty_ctrl ctrl : Z.of_nat (length ctrl) = cap + W -> (forall q, 0 <= q < cap + W -> cbyte ctrl q = kEmpty) ->
  reset_ctrl 0 (replace_nth (Z.to_nat cap) kSentinel ctrl).
Proof.
  intros HL HE. pose proof (cap_range m Hm). pose proof (width_cases W w HW Hw).
  assert (B : forall q, 0 <= q < cap + W ->
            cbyte (replace_nth (Z.to_nat cap) kSentinel ctrl) q = if q =? cap then kSentinel else kEmpty).
  { intros q Hq. unfold cbyte. rewrite nth_replace_nth, (proj2 (Nat.ltb_lt _ _)), andb_true_r by lia.
    fold (cbyte ctrl q). rewrite HE by lia.
    replace (Z.to_nat q =? Z.to_nat cap)%nat with (q =? cap); [reflexivity|].
    apply eq_true_iff_eq. rewrite Nat.eqb_eq, Z.eqb_eq. lia. }
  constructor; [constructor|].
  - now rewrite replace_nth_length.
  - apply Forall_replace_nth; [unfold valid_ctrl; auto|]. apply Forall_forall. intros x Hx.
    apply (In_nth _ _ 0) in Hx as (k & Hk & <-). specialize (HE (Z.of_nat k) ltac:(lia)).
    unfold cbyte in HE. rewrite Nat2Z.id in HE. rewrite HE. unfold valid_ctrl. auto.
  - rewrite B, Z.eqb_refl by lia. reflexivity.
  - intros p Hp. rewrite B, (proj2 (Z.eqb_neq _ _)) by lia. destruct (p <=? 2 * cap) eqn:E; zbool; [|reflexivity].
    rewrite B, (proj2 (Z.eqb_neq _ _)) by lia. reflexivity.
  - intros q Hq. rewrite B, (proj2 (Z.eqb_neq _ _)), (proj2 (Z.ltb_lt _ _)) by lia. reflexivity.
Qed.

(** Blocking the last [n] slots. *)
Lemma BlockControlBytes_spec n : forall (c : CommonFields V),
  capacity mode c = cap -> ctrl_ok G m (control c) -> Z.of_nat n <= cap ->
  exists ctrl', BlockControlBytes G mode c n = Some (with_control c ctrl') /\ ctrl_ok G m ctrl' /\
    forall q, 0 <= q < cap -> cbyte ctrl' q = if q <? cap - Z.of_nat n then cbyte (control c) q else kSentinel.
Proof.
  pose proof (cap_range m Hm) as Hcap. change (2 ^ 55) with 36028797018963968 in Hcap.
  induction n as [|n IH]; intros c Ec Hc Hn; cbn [BlockControlBytes].
  - exists (control c). split; [now destruct c|]. split; [exact Hc|]. intros q Hq. decide_cmp. reflexivity.
  - rewrite Ec. change (Z.of_nat (S n)) with (Z.of_nat (S n)).
    rewrite wrapu_small by (change (2 ^ 64) with 18446744073709551616; lia).
    assert (Hi : 0 <= cap - Z.of_nat (S n) < cap) by lia.
    pose proof (SetCtrl_some G mode w m HW Hw Hm c Ec Hc _ kSentinel Hi) as SC. unfold SetCtrl in SC.
    unfold BlockCtrl. rewrite SC. cbn [obind].
    set (ctrl1 := set_ctrl G m (control c) (cap - Z.of_nat (S n)) kSentinel).
    destruct (IH (with_control c ctrl1)) as (ctrl' & E & Ok & B); [exact Ec| |lia|].
    { apply (set_ctrl_ok G w); auto. unfold valid_ctrl. auto. }
    exists ctrl'. split; [exact E|]. split; [exact Ok|]. intros q Hq. rewrite B by exact Hq.
    change (control (with_control c ctrl1)) with ctrl1. unfold ctrl1. rewrite (set_ctrl_main G w) by (auto; lia).
    destruct (q =? cap - Z.of_nat (S n)) eqn:E1; zbool; [subst q; decide_cmp; reflexivity|].
    replace (q <? cap - Z.of_nat (S n)) with (q <? cap - Z.of_nat n); [reflexivity|].
    apply eq_true_iff_eq. rewrite !Z.ltb_lt. lia.
Qed.

Lemma ResetCtrl_spec (c : CommonFields V) b :
  capacity mode c = cap -> Z.of_nat (length (control c)) = cap + W -> 0 <= b <= cap ->
  exists ctrl', ResetCtrl G mode c b = Some (with_control c ctrl') /\ reset_ctrl b ctrl'.
Proof.
  intros Ec HL Hb. pose proof (cap_range m Hm) as Hcap. pose proof (width_cases W w HW Hw) as HWc.
  unfold ResetCtrl. rewrite Ec. unfold IsSmallCapacity, kMaxSmallCapacity.
  replace ((cap <=? 2 * W - 1) && (cap <=? 1)) with false by (rewrite (proj2 (Z.leb_gt cap 1)) by lia; now rewrite andb_false_r).
  assert (X : exists ctrl, (if cap <=? 2 * W - 1 then
         do ctrl <- memset_empty (control c) 0 (gWidth G);
         do ctrl <- memset_empty ctrl cap (gWidth G);
         if cap =? 2 * W - 1 then memset_empty ctrl W (gWidth G) else Some ctrl
       else memset_empty (control c) 0 (Z.to_nat (cap + 1 + NumCloned G))) = Some ctrl /\
       length ctrl = length (control c) /\ forall q, 0 <= q < cap + W -> cbyte ctrl q = kEmpty).
  { destruct (cap <=? 2 * W - 1) eqn:E; zbool.
    - destruct (memset_empty_spec (gWidth G) (control c) 0) as (c1 & -> & L1 & B1); [lia|lia|]. cbn [obind].
      destruct (memset_empty_spec (gWidth G) c1 cap) as (c2 & -> & L2 & B2); [lia|lia|]. cbn [obind].
      destruct (cap =? 2 * W - 1) eqn:E2; zbool.
      + destruct (memset_empty_spec (gWidth G) c2 W) as (c3 & -> & L3 & B3); [lia|lia|].
        exists c3. split; [reflexivity|]. split; [lia|]. intros q Hq. rewrite B3, B2, B1 by lia.
        repeat case_if; zbool; try reflexivity; lia.
      + exists c2. split; [reflexivity|]. split; [lia|]. intros q Hq. rewrite B2, B1 by lia.
        assert (cap + 1 <= W).
        { destruct (cap_width W w m HW Hw Hm) as [[]|[C1 _]]; [lia|]. destruct (Z.eq_dec m w) as [->|]; [lia|exfalso].
          assert (2 ^ (w + 1) <= 2 ^ m) by (apply Z.pow_le_mono_r; lia). rewrite Z.pow_add_r in * by lia.
          change (2 ^ 1) with 2 in *. lia. }
        repeat case_if; zbool; try reflexivity; lia.
    - destruct (memset_empty_spec (Z.to_nat (cap + 1 + NumCloned G)) (control c) 0) as (c1 & -> & L1 & B1);
        [lia|unfold NumCloned, NumClonedBytes; lia|].
      exists c1. split; [reflexivity|]. split; [lia|]. intros q Hq. rewrite B1 by lia. unfold NumCloned, NumClonedBytes.
      case_if; zbool; [reflexivity|]. destruct Heqb0; zbool; lia. }
  destruct X as (ctrl & -> & L1 & B1). cbn [obind]. rewrite write_some by lia. cbn [obind].
  destruct (all_empty_ctrl ctrl ltac:(lia) B1) as [Ok By].
  destruct (BlockControlBytes_spec (Z.to_nat b) (with_control c (replace_nth (Z.to_nat cap) kSentinel ctrl)) Ec Ok ltac:(lia))
    as (ctrl' & -> & Ok' & By'). exists ctrl'. split; [reflexivity|]. constructor; [exact Ok'|].
  intros q Hq. rewrite By' by exact Hq. cbn [with_control control]. rewrite By, Z2Nat.id by lia.
  rewrite Z.sub_0_r, (proj2 (Z.ltb_lt q cap)) by lia. reflexivity.
Qed.

End Reset.

(** ** Empty tables *)
Lemma flat_map_repeat {A B} (f : A -> list B) x n k : length (f x) = k -> length (flat_map f (repeat x n)) = (n * k)%nat.
Proof. intros H. induction n; cbn; [reflexivity|]. rewrite length_app. lia. Qed.

Section Empty.
Context {V K : Type} (G : GroupOps) {L : GroupLaws G} (host : endian) (mode : StorageMode) (P : Policy V K)
  {PL : PolicyLaws P} (w m : Z) (HW : Z.of_nat (gWidth G) = 2 ^ w) (Hw : w = 3 \/ w = 4)
  (Hm : 2 <= m <= data_bits mode - 9) (c : CommonFields V) (b : Z).
Abbreviation W := (Z.of_nat (gWidth G)).
Abbreviation cap := (2 ^ m - 1).

Context (Hb : 0 <= b <= cap) (Ecap : capacity mode c = cap) (Hd : data_ok mode (inline_data_ c))
  (Hr : reset_ctrl G m b (control c)) (Hs : Z.of_nat (length (slot_array c)) = cap - b)
  (Hbl : blocked_element_count c = b).

Lemma empty_m55 : 2 <= m <= 55.
Proof. pose proof (data_bits_55 mode). lia. Qed.

Lemma reset_not_full q : 0 <= q < cap -> IsFull (cbyte (control c) q) = false.
Proof. intros Hq. rewrite (r_byte _ _ _ _ Hr q Hq). case_if; reflexivity. Qed.

Lemma reset_elements : elements c = [].
Proof.
  destruct (elements c) as [|v l] eqn:E; [reflexivity|exfalso].
  assert (I : In v (elements c)) by (rewrite E; now left). apply in_elements in I as (q & Hq & _ & F & R).
  rewrite reset_not_full in F; [discriminate|]. split; [exact Hq|].
  unfold read_slot, read in R. rewrite (proj2 (Z.leb_le _ _)) in R by lia.
  destruct (nth_error (slot_array c) (Z.to_nat q)) eqn:En; [|discriminate].
  assert (Z.to_nat q < length (slot_array c))%nat by (apply nth_error_Some; congruence). lia.
Qed.

Lemma reset_empties : empties m (control c) = cap - b.
Proof.
  pose proof (ctrl_len _ _ _ (r_ok _ _ _ _ Hr)) as HL. unfold empties.
  assert (E : firstn (Z.to_nat cap) (control c) = repeat kEmpty (Z.to_nat (cap - b)) ++ repeat kSentinel (Z.to_nat b)).
  { apply (nth_ext _ _ 0 0); [rewrite length_firstn, length_app, !repeat_length; lia|].
    intros k Hk. rewrite length_firstn in Hk. rewrite nth_firstn, (proj2 (Nat.ltb_lt _ _)) by lia.
    pose proof (r_byte _ _ _ _ Hr (Z.of_nat k) ltac:(lia)) as B. unfold cbyte in B. rewrite Nat2Z.id in B. rewrite B.
    destruct (Z.of_nat k <? cap - b) eqn:E; zbool.
    - rewrite app_nth1 by (rewrite repeat_length; lia). now rewrite nth_repeat_lt by lia.
    - rewrite app_nth2, repeat_length by (rewrite repeat_length; lia). now rewrite nth_repeat_lt by lia. }
  rewrite E, flat_map_app, length_app, (flat_map_repeat _ _ _ 1), (flat_map_repeat _ _ _ 0) by reflexivity. lia.
Qed.

Lemma reset_table_ok : table_ok G mode P m c.
Proof.
  pose proof empty_m55. pose proof (cap_range m empty_m55). constructor; auto.
  - apply Hr.
  - lia.
  - intros q Hq. rewrite (r_byte _ _ _ _ Hr q Hq), Hs. destruct (q <? cap - b) eqn:E; zbool; split; intros X; try lia; try reflexivity.
    discriminate.
  - intros q Hq F. rewrite reset_not_full in F by exact Hq. discriminate.
  - rewrite reset_elements. constructor.
Qed.

Lemma reset_table_inv mem0 :
  mem_ok mem0 -> growth_mem c = ResetGrowthLeft G host mem0 cap b -> b <= CapacityToGrowth W cap -> size mode c = 0 ->
  (W < cap -> b <= kMaxBlockedElementsForLargeTables) ->
  table_inv G host mode P m c.
Proof.
  intros Hmem Eg Hbg Hz Hbm. pose proof (growth_bounds W w m HW Hw empty_m55) as (B1 & _ & _ & B4).
  pose proof (cap_range m empty_m55) as Hc. change (2 ^ 55) with 36028797018963968 in Hc.
  assert (Ei : CapacityToGrowth W cap -[64] b = CapacityToGrowth W cap - b)
    by (apply wrapu_small; change (2 ^ 64) with 18446744073709551616; lia).
  destruct (Init_abs host mem0 (CapacityToGrowth W cap - b) cap Hmem) as [I1 I2];
    [change (2 ^ 56) with 72057594037927936; lia|lia|].
  unfold ResetGrowthLeft in Eg. rewrite Ei in Eg.
  constructor.
  - exact reset_table_ok.
  - rewrite reset_elements. exact Hz.
  - now rewrite Eg.
  - rewrite Eg, I2, reset_empties. cbn [fst]. lia.
  - intros _ q Hq. rewrite (r_byte _ _ _ _ Hr q Hq). unfold kEmpty, kSentinel, kDeleted. case_if; lia.
  - rewrite Eg, I2. discriminate.
  - now rewrite Hbl.
Qed.

End Empty.

(** ** Iteration *)
Fixpoint range (a : Z) (n : nat) : list Z :=
  match n with O => [] | S n' => a :: range (a + 1) n' end.

Lemma in_range a n x : In x (range a n) <-> a <= x < a + Z.of_nat n.
Proof. revert a. induction n as [|n IH]; intros a; cbn [range In]; [lia|]. rewrite IH. lia. Qed.

Lemma range_app a n k : range a (n + k) = range a n ++ range (a + Z.of_nat n) k.
Proof.
  revert a. induction n as [|n IH]; intros a; [cbn [Nat.add range app Z.of_nat]; now rewrite Z.add_0_r|].
  cbn [Nat.add range app]. rewrite IH. do 3 f_equal. lia.
Qed.

Lemma range_map a n d : map (fun i => d + i) (range a n) = range (d + a) n.
Proof. revert a. induction n as [|n IH]; intros a; cbn; [reflexivity|]. rewrite IH. do 2 f_equal. lia. Qed.

Lemma range_NoDup a n : NoDup (range a n).
Proof.
  revert a. induction n as [|n IH]; intros a; cbn; constructor; auto. rewrite in_range. lia.
Qed.

Lemma trues_filter bs k : trues k bs = filter (fun i => nth (Z.to_nat (i - k)) bs false) (range k (length bs)).
Proof.
  revert k. induction bs as [|b bs IH]; intros k; [reflexivity|]. cbn [trues length range filter].
  rewrite Z.sub_diag. change (Z.to_nat 0) with 0%nat. cbn [nth].
  assert (E : filter (fun i => nth (Z.to_nat (i - (k + 1))) bs false) (range (k + 1) (length bs)) =
              filter (fun i => nth (Z.to_nat (i - k)) (b :: bs) false) (range (k + 1) (length bs))).
  { apply filter_ext_in. intros i Hi%in_range. replace (Z.to_nat (i - k)) with (S (Z.to_nat (i - (k + 1)))) by lia. reflexivity. }
  rewrite IH, E. now destruct b.
Qed.

Lemma filter_none {A} (p : A -> bool) l : (forall x, In x l -> p x = false) -> filter p l = [].
Proof. induction l as [|a l IH]; intros H; cbn; [reflexivity|]. rewrite H by now left. apply IH. intros; apply H; now right. Qed.

Lemma filter_map_swap {A B} (f : A -> B) p l : filter p (map f l) = map f (filter (fun x => p (f x)) l).
Proof. induction l as [|a l IH]; cbn; [reflexivity|]. rewrite IH. now destruct (p (f a)). Qed.

Section Iterate.
Context {V K : Type} (G : GroupOps) {L : GroupLaws G} (host : endian) (mode : StorageMode) (P : Policy V K)
  (w m : Z) (HW : Z.of_nat (gWidth G) = 2 ^ w) (Hw : w = 3 \/ w = 4)
  (c : CommonFields V) (T : table_ok G mode P m c).
Abbreviation W := (Z.of_nat (gWidth G)).
Abbreviation cap := (2 ^ m - 1).
Abbreviation full q := (IsFull (cbyte (control c) q)).

Lemma it_m55 : 2 <= m <= 55.
Proof. exact (t_m55 _ _ _ _ _ T). Qed.

Definition full_slots : list Z := filter (fun q => full q) (range 0 (Z.to_nat cap)).

(** The masks of a window of control bytes, as indices. *)
Lemma full_positions (G' : GroupOps) {L' : GroupLaws G'} pos :
  0 <= pos -> pos + Z.of_nat (gWidth G') <= Z.of_nat (length (control c)) ->
  exists g, load_group (gWidth G') (control c) pos = Some g /\
    mask_positions G' (gMaskFull G' g) = filter (fun i => full (pos + i)) (range 0 (gWidth G')).
Proof.
  intros Hp Hl. exists (firstn (gWidth G') (skipn (Z.to_nat pos) (control c))). split.
  { unfold load_group. rewrite (proj2 (Z.leb_le _ _)), (proj2 (Z.leb_le _ _)) by lia. reflexivity. }
  set (g := firstn _ _). assert (Lg : length g = gWidth G') by (unfold g; rewrite length_firstn, length_skipn; lia).
  assert (Nth : forall k, (k < gWidth G')%nat -> nth k g 0 = cbyte (control c) (pos + Z.of_nat k)).
  { intros k Hk. unfold g, cbyte. rewrite nth_firstn, (proj2 (Nat.ltb_lt _ _)), nth_skipn by exact Hk. f_equal. lia. }
  assert (Hwin : window (gWidth G') g).
  { split; [exact Lg|]. apply Forall_forall. intros x Hx. apply (In_nth _ _ 0) in Hx as (k & Hk & <-).
    pose proof (ctrl_valid _ _ _ (t_ctrl _ _ _ _ _ T)) as F. rewrite Forall_forall in F. apply F.
    rewrite Nth by lia. apply nth_In. lia. }
  rewrite law_full, mask_positions_enc by (auto; rewrite length_map; exact Lg).
  rewrite trues_filter, length_map, Lg. apply filter_ext_in. intros i Hi%in_range. rewrite Z.sub_0_r.
  rewrite (nth_indep _ false (IsFull 0)) by (rewrite length_map; lia). rewrite map_nth, Nth by lia.
  rewrite Z2Nat.id by lia. reflexivity.
Qed.

(** The stored elements, slot by slot. *)
Lemma elements_slots bs : forall ss a,
  (length ss <= length bs)%nat ->
  (forall k b s, nth_error bs k = Some b -> nth_error ss k = Some s -> IsFull b = true -> exists v, s = Some v) ->
  Forall2 (fun q v => a <= q /\ IsFull (nth (Z.to_nat (q - a)) bs 0) = true /\ nth_error ss (Z.to_nat (q - a)) = Some (Some v))
    (filter (fun q => IsFull (nth (Z.to_nat (q - a)) bs 0)) (range a (length ss)))
    (flat_map slot_element (combine bs ss : list (Z * option V))).
Proof.
  induction bs as [|b bs IH]; intros [|s ss] a Hl Hf; cbn [length] in *; try lia; [constructor|constructor|].
  cbn [combine flat_map range filter]. rewrite Z.sub_diag. change (Z.to_nat 0) with 0%nat. cbn [nth].
  assert (X : Forall2 (fun q v => a <= q /\ IsFull (nth (Z.to_nat (q - a)) (b :: bs) 0) = true /\
                                  nth_error (s :: ss) (Z.to_nat (q - a)) = Some (Some v))
     (filter (fun q => IsFull (nth (Z.to_nat (q - a)) (b :: bs) 0)) (range (a + 1) (length ss)))
     (flat_map slot_element (combine bs ss))).
  { specialize (IH ss (a + 1) ltac:(lia) (fun k b' s' E1 E2 => Hf (S k) b' s' E1 E2)).
    replace (filter (fun q => IsFull (nth (Z.to_nat (q - a)) (b :: bs) 0)) (range (a + 1) (length ss)))
      with (filter (fun q => IsFull (nth (Z.to_nat (q - (a + 1))) bs 0)) (range (a + 1) (length ss))).
    - eapply Forall2_impl; [|exact IH]. intros q v [Hq E]. split; [lia|].
      replace (Z.to_nat (q - a)) with (S (Z.to_nat (q - (a + 1)))) by lia. exact E.
    - apply filter_ext_in. intros i Hi%in_range. replace (Z.to_nat (i - a)) with (S (Z.to_nat (i - (a + 1)))) by lia. reflexivity. }
  destruct (IsFull b) eqn:E.
  - destruct (Hf 0%nat b s eq_refl eq_refl E) as (v & ->). cbn [slot_element]. rewrite E. constructor; [|exact X].
    split; [lia|]. rewrite Z.sub_diag. auto.
  - assert (N : slot_element (b, s) = []) by (destruct s; cbn; rewrite ?E; reflexivity). rewrite N. exact X.
Qed.

Lemma full_slots_elements : Forall2 (stored m c) full_slots (elements c).
Proof.
  pose proof it_m55 as Hm. pose proof (cap_range m Hm). pose proof (ctrl_len _ _ _ (t_ctrl _ _ _ _ _ T)) as HL.
  pose proof (slots_in_cap G mode P m c T) as Hs.
  pose proof (elements_slots (control c) (slot_array c) 0) as X.
  assert (E : full_slots = filter (fun q => IsFull (nth (Z.to_nat (q - 0)) (control c) 0)) (range 0 (length (slot_array c)))).
  { unfold full_slots. replace (Z.to_nat cap) with (length (slot_array c) + (Z.to_nat cap - length (slot_array c)))%nat by lia.
    rewrite range_app, filter_app, (filter_none _ (range (0 + _) _)), app_nil_r.
    - apply filter_ext. intros q. now rewrite Z.sub_0_r.
    - intros q Hq%in_range. rewrite (proj2 (t_blocked _ _ _ _ _ T q ltac:(lia))) by lia. reflexivity. }
  eapply Forall2_impl; [|rewrite E; apply X; [lia|]].
  - intros q v (Hq & F & R). rewrite Z.sub_0_r in F, R.
    assert (Z.to_nat q < length (slot_array c))%nat by (apply nth_error_Some; congruence).
    split; [lia|]. split; [exact F|]. unfold read_slot, read. rewrite (proj2 (Z.leb_le _ _)), R by lia. reflexivity.
  - intros k b s Eb Es F.
    assert (k < length (slot_array c))%nat by (apply nth_error_Some; congruence).
    destruct (t_full _ _ _ _ _ T (Z.of_nat k)) as (v & R & _); [lia| |].
    + unfold cbyte. rewrite Nat2Z.id, (nth_error_nth _ _ _ Eb). exact F.
    + unfold read_slot, read in R. rewrite (proj2 (Z.leb_le _ _)), Nat2Z.id, Es in R by lia. cbn in R. eauto.
Qed.

(** A group-wise walk visits the full slots from a position on. *)
Lemma full_groups_loop_spec n : forall fuel pos, (n <= fuel)%nat ->
  w <= m -> 0 <= pos -> pos + Z.of_nat n * W = 2 ^ m ->
  let rest := filter (fun q => full q) (range pos (n * gWidth G)) in
  full_groups_loop G fuel (control c) pos (Z.of_nat (length rest)) = Some rest.
Proof.
  pose proof it_m55 as Hm. pose proof (cap_range m Hm) as Hcap. pose proof (ctrl_len _ _ _ (t_ctrl _ _ _ _ _ T)) as HL.
  change (2 ^ 55) with 36028797018963968 in Hcap. pose proof (width_cases W w HW Hw).
  induction n as [|n IH]; intros fuel pos Hf Hwm Hp E rest.
  - destruct fuel; reflexivity.
  - destruct fuel as [|fuel]; [lia|].
    assert (Split : rest = filter (fun q => full q) (range pos (gWidth G)) ++
                           filter (fun q => full q) (range (pos + W) (n * gWidth G))).
    { unfold rest. cbn [Nat.mul]. now rewrite range_app, filter_app. }
    assert (Len : (length (filter (fun q => full q) (range (pos + W) (n * gWidth G))) <= n * gWidth G)%nat).
    { etransitivity; [apply filter_length_le|]. clear. generalize (pos + W). induction (n * gWidth G)%nat; intros; cbn; auto using le_n_S. }
    cbn [full_groups_loop]. destruct (Z.of_nat (length rest) =? 0) eqn:E0; zbool.
    { assert (rest = []) as -> by (destruct rest; [reflexivity|cbn in E0; lia]). reflexivity. }
    destruct (full_positions G pos Hp ltac:(lia)) as (g & -> & Mg). cbn [obind]. rewrite Mg.
    assert (Map : map (fun i => pos + i) (filter (fun i => full (pos + i)) (range 0 (gWidth G))) =
                  filter (fun q => full q) (range pos (gWidth G))).
    { rewrite <- (filter_map_swap (fun i => pos + i) (fun q => full q)), range_map, Z.add_0_r. reflexivity. }
    rewrite Map. replace (length (filter (fun i => full (pos + i)) (range 0 (gWidth G)))) with
      (length (filter (fun q => full q) (range pos (gWidth G)))) by (rewrite <- Map; apply length_map).
    replace (Z.of_nat (length rest) -[64] _) with
      (Z.of_nat (length (filter (fun q => full q) (range (pos + W) (n * gWidth G))))).
    2:{ rewrite Split, length_app. symmetry. rewrite <- (wrapu_small 64 (Z.of_nat (length (filter _ (range (pos + W) _)))));
        [f_equal; lia|]. change (2 ^ 64) with 18446744073709551616. nia. }
    rewrite IH by lia. cbn [obind]. now rewrite <- Split.
Qed.

Lemma IterateOverFullSlotsImpl_spec : size mode c = Z.of_nat (length (elements c)) ->
  IterateOverFullSlotsImpl G host mode c = Some full_slots.
Proof.
  intros Hsz. pose proof it_m55 as Hm. pose proof (cap_range m Hm) as Hcap.
  pose proof (t_ctrl _ _ _ _ _ T) as Hc. pose proof (ctrl_len _ _ _ Hc) as HL.
  pose proof (width_cases W w HW Hw) as HWc. unfold IterateOverFullSlotsImpl, is_half_group. rewrite (t_cap _ _ _ _ _ T).
  destruct (cap <? W - 1) eqn:Eh; zbool.
  - destruct (cap_width W w m HW Hw Hm) as [[C1 C2]|[]]; [|lia].
    destruct (full_positions (portable_group host) cap ltac:(lia)) as (g & Eg & Mg); [change (gWidth (portable_group host)) with 8%nat; lia|].
    change (gWidth (portable_group host)) with GroupPortableImpl.kWidth in Eg. rewrite Eg. cbn [obind]. rewrite Mg.
    f_equal. change (gWidth (portable_group host)) with 8%nat. unfold full_slots.
    replace 8%nat with (1 + (Z.to_nat cap + (7 - Z.to_nat cap)))%nat by lia.
    rewrite !range_app, !filter_app, !map_app. cbn [range filter]. rewrite Z.add_0_r.
    replace (full cap) with false by now rewrite (ctrl_sentinel _ _ _ Hc). cbn [map app].
    change (0 + Z.of_nat 1) with 1.
    assert (Mirror : forall i, 1 <= i < W -> cbyte (control c) (cap + i) = if i <=? cap then cbyte (control c) (i - 1) else kEmpty).
    { intros i Hi. rewrite (ctrl_mirror _ _ _ Hc) by lia. replace (cap + i <=? 2 * cap) with (i <=? cap)
        by (apply eq_true_iff_eq; rewrite !Z.leb_le; lia). case_if; [f_equal; lia|reflexivity]. }
    rewrite (filter_none _ (range (1 + _) _)), app_nil_r.
    2:{ intros i Hi%in_range. rewrite Mirror by lia. decide_cmp. reflexivity. }
    replace (range 0 (Z.to_nat cap)) with (map (fun i => -1 + i) (range 1 (Z.to_nat cap))) by now rewrite range_map.
    rewrite filter_map_swap. rewrite (map_ext _ (fun i => -1 + i)) by (intros; lia). f_equal.
    apply filter_ext_in. intros i Hi%in_range. rewrite Mirror by lia. decide_cmp. do 2 f_equal. lia.
  - destruct (cap_width W w m HW Hw Hm) as [[]|[C1 C2]]; [lia|].
    assert (EM : 2 ^ m = 2 ^ (m - w) * W) by (rewrite HW, <- Z.pow_add_r by lia; f_equal; lia).
    pose proof (pow2_pos (m - w) ltac:(lia)).
    assert (Fs : full_slots = filter (fun q => full q) (range 0 (Z.to_nat (2 ^ (m - w)) * gWidth G))).
    { unfold full_slots. replace (Z.to_nat (2 ^ (m - w)) * gWidth G)%nat with (Z.to_nat cap + 1)%nat by nia.
      rewrite range_app, filter_app. cbn [range filter]. replace (0 + Z.of_nat (Z.to_nat cap)) with cap by lia.
      replace (full cap) with false by now rewrite (ctrl_sentinel _ _ _ Hc). now rewrite app_nil_r. }
    replace (size mode c) with (Z.of_nat (length full_slots))
      by (rewrite Hsz; f_equal; exact (Forall2_length full_slots_elements)).
    rewrite Fs. apply full_groups_loop_spec; [|lia|lia|nia].
    unfold rounds. replace (cap / W) with (2 ^ (m - w) - 1); [lia|]. apply Z.div_unique with (W - 1); nia.
Qed.

End Iterate.

(** ** Clearing *)
Lemma destroy_each_spec {V} is_ : forall (c : CommonFields V),
  NoDup is_ -> (forall q, In q is_ -> exists v, read_slot (slot_array c) q = Some v) ->
  exists s, destroy_each c is_ = Some (with_slots c s) /\ length s = length (slot_array c).
Proof.
  induction is_ as [|q is_ IH]; intros c ND HR; cbn [destroy_each].
  - exists (slot_array c). now destruct c.
  - inversion ND as [|? ? Hq ND']; subst. destruct (HR q (or_introl eq_refl)) as (v & Ev).
    assert (Hl : 0 <= q < Z.of_nat (length (slot_array c))).
    { unfold read_slot, read in Ev. destruct (0 <=? q) eqn:E; zbool; [|discriminate].
      destruct (nth_error (slot_array c) (Z.to_nat q)) eqn:En; [|discriminate].
      assert (Z.to_nat q < length (slot_array c))%nat by (apply nth_error_Some; congruence). lia. }
    unfold destroy at 1. rewrite Ev. cbn [obind]. rewrite write_some by exact Hl. cbn [obind].
    destruct (IH (with_slots c (replace_nth (Z.to_nat q) None (slot_array c))) ND') as (s & E & Hs).
    { intros x Hx. destruct (HR x (or_intror Hx)) as (u & Eu). exists u.
      unfold read_slot, read in *. destruct (0 <=? x) eqn:E0; [|discriminate]. cbn [with_slots slot_array]. zbool.
      rewrite nth_error_replace_nth. replace (Z.to_nat x =? Z.to_nat q)%nat with false; [exact Eu|].
      symmetry. apply Nat.eqb_neq. intros Ec. assert (x = q) by lia. congruence. }
    exists s. split; [exact E|]. rewrite Hs. apply replace_nth_length.
Qed.

Section Clear.
Context {V K : Type} (G : GroupOps) {L : GroupLaws G} (host : endian) (mode : StorageMode) (P : Policy V K)
  {PL : PolicyLaws P} (w m : Z) (HW : Z.of_nat (gWidth G) = 2 ^ w) (Hw : w = 3 \/ w = 4)
  (c : CommonFields V) (I : table_inv G host mode P m c).
Abbreviation W := (Z.of_nat (gWidth G)).
Abbreviation cap := (2 ^ m - 1).

Lemma blocked_fits : 0 <= blocked_element_count c <= CapacityToGrowth W cap.
Proof.
  pose proof (i_ok _ _ _ _ _ _ I) as T. pose proof (t_m55 _ _ _ _ _ T) as Hm. pose proof (t_slots _ _ _ _ _ T) as Hs.
  pose proof (ctrl_len _ _ _ (t_ctrl _ _ _ _ _ T)) as HL. pose proof (i_growth _ _ _ _ _ _ I) as Gr.
  pose proof (lower_bound_cases host (growth_mem c) cap (i_mem _ _ _ _ _ _ I)) as (R & _ & _ & F).
  pose proof (Z.mod_pos_bound (GrowthInfo.GetGrowthInfoLowerBound (growth_mem c)) 128 ltac:(lia)).
  pose proof (slots_in_cap G mode P m c T) as Hl. split; [lia|].
  assert (E : empties m (control c) <= Z.of_nat (length (slot_array c))).
  { unfold empties. replace (Z.to_nat cap) with (length (slot_array c) + (Z.to_nat cap - length (slot_array c)))%nat by lia.
    assert (X : forall l n k, (forall j, (n <= j < n + k)%nat -> IsEmpty (nth j l 0) = false) ->
              (length (flat_map empty_mark (firstn (n + k) l)) <= n)%nat).
    { clear. induction l as [|b l IH]; intros n k Hj; [rewrite firstn_nil; cbn; lia|]. destruct n as [|n].
      - assert (Y : forall j, (0 <= j < k)%nat -> IsEmpty (nth j (b :: l) 0) = false) by (intros; apply Hj; lia).
        destruct k as [|k]; [cbn; lia|]. cbn [Nat.add firstn flat_map]. rewrite length_app. unfold empty_mark at 1.
        pose proof (Y 0%nat ltac:(lia)) as Y0. cbn [nth] in Y0. rewrite Y0.
        apply (IH 0%nat k). intros j Hk. apply (Y (S j)). lia.
      - cbn [Nat.add firstn flat_map]. rewrite length_app.
        assert (length (empty_mark b) <= 1)%nat by (unfold empty_mark; destruct (IsEmpty b); cbn; lia).
        pose proof (IH n k ltac:(intros j Hk; apply (Hj (S j)); lia)). lia. }
    apply inj_le, X. intros j Hj.
    pose proof (proj2 (t_blocked _ _ _ _ _ T (Z.of_nat j) ltac:(lia)) ltac:(lia)) as B.
    unfold cbyte in B. rewrite Nat2Z.id in B. now rewrite B. }
  lia.
Qed.

(** [clear()] destroys every element; an array of less than 128 slots is kept, a larger one is
    given back. *)
Lemma Clear_spec soo : exists c', Clear G host mode soo c = Some c' /\
  if cap <? 128 then table_inv G host mode P m c' /\ elements c' = [] else c' = CreateDefault mode soo.
Proof.
  pose proof (i_ok _ _ _ _ _ _ I) as T. pose proof (t_m55 _ _ _ _ _ T) as Hm. pose proof blocked_fits as Hb.
  pose proof (growth_bounds W w m HW Hw Hm) as (B1 & _).
  unfold Clear, DestroySlots. rewrite (IterateOverFullSlotsImpl_spec G host mode P w m HW Hw c T (i_size _ _ _ _ _ _ I)). cbn [obind].
  destruct (destroy_each_spec (full_slots m c) c) as (s & -> & Ls).
  { apply NoDup_filter, range_NoDup. }
  { intros q Hq. pose proof (full_slots_elements G mode P w m HW Hw c T) as F2.
    assert (X : forall l l', Forall2 (stored m c) l l' -> In q l -> exists v, read_slot (slot_array c) q = Some v).
    { induction 1 as [|x v l l' (_ & _ & Hx) _ IH]; [intros []|]. intros [<-|Hi]; eauto. }
    eauto. }
  cbn [obind]. change (capacity mode (with_slots c s)) with (capacity mode c). rewrite (t_cap _ _ _ _ _ T).
  unfold ClearBackingArray. cbv zeta. destruct (cap <? 128) eqn:E; [|now eexists].
  change (inline_data_ (with_slots c s)) with (inline_data_ c).
  set (c1 := with_inline (with_slots c s) (HashtableInlineData.set_size mode (inline_data_ c) 0)).
  destruct (set_size_same mode c (t_data _ _ _ _ _ T) c1 0 eq_refl) as [Same Sz].
  { split; [lia|]. apply pow2_pos. pose proof (t_m _ _ _ _ _ T). lia. }
  change (blocked_element_count (with_slots c s)) with (blocked_element_count c).
  pose proof (t_slots _ _ _ _ _ T) as Hs. pose proof (ctrl_len _ _ _ (t_ctrl _ _ _ _ _ T)) as HL.
  assert (Ecap1 : capacity mode c1 = cap) by (rewrite (same_cap _ _ _ Same); apply T).
  destruct (ResetCtrl_spec G mode w m HW Hw Hm c1 (blocked_element_count c) Ecap1 HL ltac:(lia)) as (ctrl' & -> & Rc).
  cbn [obind]. eexists. split; [reflexivity|]. change (capacity mode (with_control c1 ctrl')) with (capacity mode c1).
  rewrite Ecap1. set (c2 := with_growth _ _).
  split.
  - apply (reset_table_inv G host mode P w m HW Hw (t_m _ _ _ _ _ T) c2 (blocked_element_count c)) with (mem0 := growth_mem c);
      auto; try lia.
    + exact (same_ok _ _ _ Same).
    + change (slot_array c2) with s. lia.
    + exact (same_blocked _ _ _ Same).
    + apply I.
    + exact (i_blocked _ _ _ _ _ _ I).
  - apply (reset_elements G mode w m Hw (t_m _ _ _ _ _ T) c2 (blocked_element_count c)); auto; [lia|].
    change (slot_array c2) with s. lia.
Qed.

End Clear.

(** ** Inline data of a fresh array *)
Lemma set_capacity_value mode s m : 1 <= m <= 53 ->
  HashtableCapacity.capacity mode (HashtableInlineData.capacity mode
    (HashtableInlineData.set_capacity mode s (HashtableCapacity.make mode (2 ^ m - 1)))) = 2 ^ m - 1.
Proof.
  intros Hm. apply Z.eqb_eq.
  assert (B : forall mode, forallb_below 54 (fun m => (m =? 0) ||
     (HashtableCapacity.capacity mode (HashtableInlineData.capacity mode
        (HashtableInlineData.mk (wrapu (HashtableInlineData.kCapacityBitCount mode)
           (HashtableCapacity.ToRawData (HashtableCapacity.make mode (2 ^ m - 1)))) 0)) =? 2 ^ m - 1)) = true)
    by (intros []; vm_compute; reflexivity).
  pose proof (forallb_below_spec 54 _ (B mode) m ltac:(lia)) as X. cbv beta in X.
  rewrite (proj2 (Z.eqb_neq m 0)) in X by lia. exact X.
Qed.

Lemma seed_view mode s infoz next_seed : data_ok mode s -> 0 <= next_seed < 256 ->
  let s' := generate_new_seed mode s infoz next_seed in
  data_ok mode s' /\ f_size (view mode s') = f_size (view mode s) /\ f_blocked (view mode s') = f_blocked (view mode s) /\
  HashtableInlineData.capacity_internal_ s' = HashtableInlineData.capacity_internal_ s.
Proof.
  intros Hok Hn s'.
  assert (X : forall c, 0 <= c < 256 ->
            let s1 := HashtableInlineData.set_seed mode s c in
            data_ok mode s1 /\ f_size (view mode s1) = f_size (view mode s) /\ f_blocked (view mode s1) = f_blocked (view mode s)).
  { intros c Hc s1. assert (E : s1 = HashtableInlineData.set_seed mode s (c mod 32)).
    { unfold s1, HashtableInlineData.set_seed. do 2 f_equal. change HashtableInlineData.kSeedMask with (Z.ones 5).
      rewrite !Z.land_ones by lia. change (2 ^ 5) with 32. now rewrite Z.mod_mod by lia. }
    pose proof (Z.mod_pos_bound c 32 ltac:(lia)) as R.
    pose proof (meta_ops mode s Hok (c mod 32)) as M. cbv zeta in M. destruct M as (M & _). destruct (M R) as [Ev Ok].
    rewrite E, Ev. auto. }
  unfold s', generate_new_seed. destruct infoz.
  - destruct (X 31 ltac:(lia)) as (A & B & C). unfold HashtableInlineData.set_sampled_seed.
    change HashtableInlineData.kSampledSeed with 31. auto.
  - destruct (X next_seed Hn) as (A & B & C). auto.
Qed.

Section Allocate.
Context {V K : Type} (G : GroupOps) {L : GroupLaws G} (host : endian) (mode : StorageMode) (P : Policy V K)
  {PL : PolicyLaws P} (w m : Z) (HW : Z.of_nat (gWidth G) = 2 ^ w) (Hw : w = 3 \/ w = 4)
  (Hm : 2 <= m <= data_bits mode - 9) (Hm53 : m <= 53).
Abbreviation W := (Z.of_nat (gWidth G)).
Abbreviation cap := (2 ^ m - 1).

Lemma control_bytes : NumControlBytes W cap = cap + W.
Proof.
  pose proof (data_bits_55 mode). pose proof (cap_range m ltac:(lia)) as Hcap. pose proof (width_cases W w HW Hw).
  unfold NumControlBytes, NumClonedBytes, IsSmallCapacity, kMaxSmallCapacity. rewrite (proj2 (Z.leb_gt cap 1)) by lia.
  rewrite wrapu_add_l, wrapu_small; [lia|]. change (2 ^ 55) with 36028797018963968 in Hcap.
  change (2 ^ 64) with 18446744073709551616. lia.
Qed.

Lemma growth_info_present : (GrowthInfoSizeForCapacity cap >? 0) = true.
Proof.
  pose proof (data_bits_55 mode). pose proof (cap_range m ltac:(lia)). unfold GrowthInfoSizeForCapacity, IsSmallCapacity, kMaxSmallCapacity.
  rewrite (proj2 (Z.leb_gt cap 1)) by lia. case_if; reflexivity.
Qed.

(** A freshly allocated table is empty and leaves the load factor less the blocked slots. *)
Lemma allocate_spec (c : CommonFields V) b infoz next_seed fresh fresh_growth :
  data_ok mode (inline_data_ c) -> size mode c = 0 -> blocked_element_count c = 0 ->
  0 <= b < 8 -> b <= CapacityToGrowth W cap -> (W < cap -> b <= kMaxBlockedElementsForLargeTables) -> 0 <= next_seed < 256 ->
  Z.of_nat (length fresh) = NumControlBytes W cap -> mem_ok fresh_growth ->
  exists c', ResizeEmptyNonAllocatedTableImpl G host mode c cap b infoz next_seed fresh fresh_growth = Some c' /\
    table_inv G host mode P m c' /\ elements c' = [] /\ empties m (control c') = cap - b.
Proof.
  intros Hok Hz Hbz Hb Hbg Hbm Hsd HL Hmem. pose proof (data_bits_55 mode) as D55.
  assert (Hm55 : 2 <= m <= 55) by lia. pose proof (cap_range m Hm55) as Hcap.
  pose proof (growth_bounds W w m HW Hw Hm55) as (GB & _).
  rewrite control_bytes in HL.
  unfold ResizeEmptyNonAllocatedTableImpl. rewrite growth_info_present. cbv zeta.
  set (d0 := HashtableInlineData.set_capacity mode (inline_data_ c) (HashtableCapacity.make mode cap)).
  assert (Ok0 : data_ok mode d0) by exact Hok.
  set (d1 := HashtableInlineData.init_blocked_element_count mode d0 b).
  pose proof (meta_ops mode d0 Ok0 b) as M. cbv zeta in M. destruct M as (_ & _ & _ & M & _).
  destruct (M Hb Hbz) as [V1 Ok1]. fold d1 in V1, Ok1.
  set (d2 := generate_new_seed mode d1 infoz next_seed).
  destruct (seed_view mode d1 infoz next_seed Ok1 Hsd) as (Ok2 & S2 & B2 & C2). fold d2 in Ok2, S2, B2, C2.
  set (c1 := mk_Common d2 fresh _ fresh_growth : CommonFields V).
  assert (Ec1 : capacity mode c1 = cap).
  { unfold capacity, HashtableInlineData.capacity. cbn [c1 inline_data_]. rewrite C2.
    exact (set_capacity_value mode (inline_data_ c) m ltac:(lia)). }
  destruct (ResetCtrl_spec G mode w m HW Hw Hm55 c1 b Ec1 HL ltac:(lia))
    as (ctrl' & -> & Rc). cbn [obind].
  set (c2 := with_growth (with_control c1 ctrl') _).
  set (d3 := if infoz then HashtableInlineData.set_has_infoz mode d2 else d2).
  assert (F3 : data_ok mode d3 /\ f_size (view mode d3) = 0 /\ f_blocked (view mode d3) = b /\
               HashtableInlineData.capacity_internal_ d3 = HashtableInlineData.capacity_internal_ d2).
  { assert (S20 : f_size (view mode d2) = 0) by (rewrite S2, V1; exact Hz).
    assert (B20 : f_blocked (view mode d2) = b) by now rewrite B2, V1.
    unfold d3. destruct infoz; [|auto]. pose proof (meta_ops mode d2 Ok2 0) as M3. cbv zeta in M3.
    destruct M3 as (_ & _ & (V3 & Ok3) & _). rewrite V3. auto. }
  destruct F3 as (Ok3 & S3 & B3 & C3). exists (mk_Common d3 ctrl' (slot_array c1) (growth_mem c2)).
  split; [unfold d3; destruct infoz; reflexivity|]. set (c3 := mk_Common d3 _ _ _).
  assert (Ls : Z.of_nat (length (slot_array c3)) = cap - b)
    by (cbn [c3 c1 slot_array]; rewrite repeat_length; lia).
  split; [|split; [apply (reset_elements G mode w m Hw Hm c3 b); auto; lia|apply (reset_empties G mode w m HW Hw Hm c3 b); auto; lia]].
  apply (reset_table_inv G host mode P w m HW Hw Hm c3 b) with (mem0 := fresh_growth); auto; try lia.
  unfold capacity, HashtableInlineData.capacity. cbn [c3 inline_data_]. rewrite C3. exact Ec1.
Qed.

End Allocate.

(** ** Re-insertion into a fresh array *)
Section Transfer.
Context {V K : Type} (G : GroupOps) {L : GroupLaws G} (mode : StorageMode) (P : Policy V K)
  {PL : PolicyLaws P} (w m : Z) (HW : Z.of_nat (gWidth G) = 2 ^ w) (Hw : w = 3 \/ w = 4).
Abbreviation W := (Z.of_nat (gWidth G)).
Abbreviation cap := (2 ^ m - 1).

(** A table during the transfer: no slot is deleted or blocked. *)
Record filling (c : CommonFields V) : Prop := {
  f_ok : table_ok G mode P m c;
  f_no_deleted q : 0 <= q < cap -> cbyte (control c) q <> kDeleted;
  f_empties : empties m (control c) = cap - Z.of_nat (length (elements c))
}.

Lemma insert_slot_spec (c : CommonFields V) v :
  filling c -> distinct P (v :: elements c) -> Z.of_nat (length (elements c)) < cap ->
  exists c' len, insert_slot G mode P c v = Some (c', len) /\ filling c' /\
    Permutation (elements c') (v :: elements c) /\ inline_data_ c' = inline_data_ c /\ growth_mem c' = growth_mem c.
Proof.
  intros [T ND Em] D Hlt. pose proof (t_m55 _ _ _ _ _ T) as Hm. pose proof (t_ctrl _ _ _ _ _ T) as Hc.
  pose proof (cap_range m Hm). unfold insert_slot. rewrite (t_cap _ _ _ _ _ T).
  unfold IsSmallCapacity, kMaxSmallCapacity. rewrite (proj2 (Z.leb_gt cap 1)) by lia.
  change (hash_of P (seed mode c) (key_of P v)) with (key_hash mode P c v). set (h := key_hash mode P c v).
  destruct (proj1 (empties_pos G m (control c) Hm Hc) ltac:(lia)) as (q & Hq & Eq).
  destruct (find_first_non_full_spec G w m HW Hw Hm (control c) Hc h) as (t & Ft & Rt & Et & Reach).
  { exists q. split; [exact Hq|now apply empty_is_free]. }
  unfold find_first_non_full, H1. rewrite (t_cap _ _ _ _ _ T), Ft. cbn [obind].
  rewrite (SetCtrl_some G mode w m HW Hw Hm c (t_cap _ _ _ _ _ T) Hc _ _ Rt). cbn [obind].
  pose proof (free_slot_exists G mode P m c T _ Rt Et) as Hts. cbn [with_control slot_array].
  rewrite write_some by exact Hts. cbn [obind]. eexists _, _. split; [reflexivity|]. set (c' := with_slots _ _).
  assert (Ee : IsEmpty (cbyte (control c) (fi_offset t)) = true).
  { destruct (free_cases _ Et) as (_ & _ & C). destruct C as [-> |C]; [|reflexivity|].
    - pose proof (ctrl_valid _ _ _ Hc) as Fv. rewrite Forall_forall in Fv. apply Fv, nth_In.
      pose proof (ctrl_len _ _ _ Hc). lia.
    - now apply ND in C. }
  destruct (fill_elements G mode P w m HW Hw c c' T (fi_offset t) v Rt Et eq_refl eq_refl) as [EP EE].
  split; [|auto]. constructor.
  - apply (fill_ok G mode P w m HW Hw c c' T (fi_offset t) v Rt Et eq_refl eq_refl); auto.
    constructor; try reflexivity. apply (t_data _ _ _ _ _ T).
  - intros x Hx. rewrite (fill_byte G mode P w m HW Hw c c' T (fi_offset t) v Rt eq_refl) by lia.
    case_if; [now apply full_marks, hash_range|now apply ND].
  - rewrite EE, Ee, Em, (Permutation_length EP). cbn [b2z length]. lia.
Qed.

Lemma transfer_loop_spec old : forall c total,
  filling c -> (forall b s, In (b, s) old -> IsFull b = true -> exists v, s = Some v) ->
  distinct P (flat_map slot_element old ++ elements c) ->
  Z.of_nat (length (flat_map slot_element old ++ elements c)) <= cap ->
  exists c' total', transfer_loop G mode P c old total = Some (c', total') /\ filling c' /\
    Permutation (elements c') (flat_map slot_element old ++ elements c) /\
    inline_data_ c' = inline_data_ c /\ growth_mem c' = growth_mem c.
Proof.
  induction old as [|[b s] old IH]; intros c total F Hs D Hlen; cbn [transfer_loop].
  - exists c, total. cbn [flat_map app]. auto.
  - destruct (IsFull b) eqn:Fb.
    + destruct (Hs b s (or_introl eq_refl) Fb) as (v & ->). cbn [obind].
      cbn [flat_map slot_element] in D, Hlen. rewrite Fb in D, Hlen. cbn [app] in D, Hlen.
      assert (Mid : Permutation (v :: flat_map slot_element old ++ elements c) (flat_map slot_element old ++ v :: elements c))
        by apply Permutation_middle.
      assert (Dv : distinct P (v :: elements c)).
      { apply distinct_cons in D as [D1 D2]. apply Forall_app in D1 as [_ D1]. apply distinct_cons. split; [exact D1|].
        clear - D2. induction (flat_map slot_element old) as [|u l IH]; cbn in D2; [exact D2|].
        apply distinct_cons in D2 as [_ D2]. auto. }
      destruct (insert_slot_spec c v F Dv) as (c1 & len & -> & F1 & P1 & I1 & G1);
        [cbn [length] in Hlen; rewrite length_app in Hlen; lia|].
      cbn [obind].
      assert (P2 : Permutation (flat_map slot_element old ++ elements c1) (v :: flat_map slot_element old ++ elements c)).
      { rewrite P1. now symmetry. }
      destruct (IH c1 (total +[64] len) F1) as (c' & total' & E & F' & P' & I' & G').
      * intros b' s' Hi. apply Hs. now right.
      * exact (distinct_perm P _ _ (Permutation_sym P2) D).
      * rewrite (Permutation_length P2). exact Hlen.
      * exists c', total'. split; [exact E|]. split; [exact F'|]. split; [|split; congruence].
        cbn [flat_map slot_element]. rewrite Fb. cbn [app]. now rewrite P'.
    + assert (N : slot_element (b, s) = []) by (destruct s; cbn; rewrite ?Fb; reflexivity).
      cbn [flat_map] in *. rewrite N in *. cbn [app] in *. apply IH; auto. intros b' s' Hi. apply Hs. now right.
Qed.

End Transfer.

Section Resize.
Context {V K : Type} (G : GroupOps) {L : GroupLaws G} (host : endian) (mode : StorageMode) (P : Policy V K)
  {PL : PolicyLaws P} (w m m' : Z) (HW : Z.of_nat (gWidth G) = 2 ^ w) (Hw : w = 3 \/ w = 4)
  (Hm : 2 <= m' <= data_bits mode - 9) (Hm53 : m' <= 53) (c : CommonFields V) (I : table_inv G host mode P m c)
  (Fits : size mode c <= CapacityToGrowth (Z.of_nat (gWidth G)) (2 ^ m' - 1)).
Abbreviation W := (Z.of_nat (gWidth G)).
Abbreviation cap' := (2 ^ m' - 1).

(** A table with no blocked slot whose growth information was reset for its size. *)
Lemma filled_inv (c1 : CommonFields V) :
  filling G mode P m' c1 -> mem_ok (growth_mem c1) -> size mode c1 = Z.of_nat (length (elements c1)) ->
  size mode c1 <= CapacityToGrowth W cap' -> blocked_element_count c1 = 0 ->
  table_inv G host mode P m' (with_growth c1 (ResetGrowthLeft G host (growth_mem c1) cap' (size mode c1))).
Proof.
  clear Fits I c. intros [T ND Em] Hmem Hs Hfit Hbl. pose proof (data_bits_55 mode). assert (Hm55 : 2 <= m' <= 55) by lia.
  pose proof (growth_bounds W w m' HW Hw Hm55) as (B1 & _ & _ & B4). pose proof (cap_range m' Hm55) as Hc.
  change (2 ^ 55) with 36028797018963968 in Hc.
  assert (Ei : CapacityToGrowth W cap' -[64] size mode c1 = CapacityToGrowth W cap' - size mode c1)
    by (apply wrapu_small; change (2 ^ 64) with 18446744073709551616; lia).
  destruct (Init_abs host (growth_mem c1) (CapacityToGrowth W cap' - size mode c1) cap' Hmem) as [I1 I2];
    [change (2 ^ 56) with 72057594037927936; lia|lia|].
  unfold ResetGrowthLeft. rewrite Ei. set (g := GrowthInfo.InitGrowthLeftNoDeleted _ _ _ _) in *.
  assert (T' : table_ok G mode P m' (with_growth c1 g)) by (destruct T; now constructor).
  constructor; auto; change (growth_mem (with_growth c1 g)) with g.
  - rewrite I2. cbn [fst]. change (control (with_growth c1 g)) with (control c1). rewrite Em. lia.
  - rewrite I2. discriminate.
  - intros _. change (blocked_element_count (with_growth c1 g)) with (blocked_element_count c1). now rewrite Hbl.
Qed.

(** Resizing keeps the elements and leaves the load factor less the size. *)
Lemma resize_spec next_seed fresh fresh_growth :
  0 <= next_seed < 256 -> Z.of_nat (length fresh) = NumControlBytes W cap' -> mem_ok fresh_growth ->
  exists c', ResizeAllocatedTableWithSeedChange G host mode P c cap' next_seed fresh fresh_growth = Some c' /\
    table_inv G host mode P m' c' /\ Permutation (elements c') (elements c) /\ blocked_element_count c' = 0.
Proof.
  intros Hsd HL Hmem. pose proof (i_ok _ _ _ _ _ _ I) as T. pose proof (data_bits_55 mode) as D55.
  assert (Hm55 : 2 <= m' <= 55) by lia. pose proof (cap_range m' Hm55) as Hcap.
  pose proof (cap_range m (t_m55 _ _ _ _ _ T)) as Hcap0.
  rewrite (control_bytes G mode w m' HW Hw Hm Hm53) in HL.
  unfold ResizeAllocatedTableWithSeedChange. rewrite (growth_info_present G mode w m' Hm Hm53). cbv zeta.
  set (infoz := HashtableInlineData.has_infoz (inline_data_ c)).
  set (d0 := HashtableInlineData.set_capacity mode (inline_data_ c) (HashtableCapacity.make mode cap')).
  assert (Ok0 : data_ok mode d0) by exact (t_data _ _ _ _ _ T).
  set (d1 := HashtableInlineData.set_blocked_element_count_to_zero mode d0).
  pose proof (meta_ops mode d0 Ok0 0) as M. cbv zeta in M. destruct M as (_ & _ & _ & _ & (V1 & Ok1) & _). fold d1 in V1, Ok1.
  set (d2 := generate_new_seed mode d1 infoz next_seed).
  destruct (seed_view mode d1 infoz next_seed Ok1 Hsd) as (Ok2 & S2 & B2 & C2). fold d2 in Ok2, S2, B2, C2.
  set (c1 := mk_Common d2 fresh _ fresh_growth : CommonFields V).
  assert (Ec1 : capacity mode c1 = cap').
  { unfold capacity, HashtableInlineData.capacity. cbn [c1 inline_data_]. rewrite C2.
    exact (set_capacity_value mode (inline_data_ c) m' ltac:(lia)). }
  assert (Sz1 : size mode c1 = size mode c).
  { change (size mode c1) with (f_size (view mode d2)). rewrite S2, V1. reflexivity. }
  assert (Bl1 : blocked_element_count c1 = 0).
  { change (blocked_element_count c1) with (f_blocked (view mode d2)). rewrite B2, V1. reflexivity. }
  destruct (ResetCtrl_spec G mode w m' HW Hw Hm55 c1 0 Ec1 HL ltac:(lia)) as (ctrl' & -> & Rc). cbn [obind].
  set (c2 := with_control c1 ctrl').
  assert (Ls : Z.of_nat (length (slot_array c2)) = cap' - 0)
    by (cbn [c2 c1 with_control slot_array]; rewrite repeat_length; lia).
  assert (E2 : elements c2 = []) by (apply (reset_elements G mode w m' Hw Hm c2 0); auto; lia).
  assert (F2 : filling G mode P m' c2).
  { constructor.
    - apply (reset_table_ok G mode P w m' Hw Hm c2 0); auto; lia.
    - intros q Hq. change (control c2) with ctrl'. rewrite (r_byte _ _ _ _ Rc q Hq). unfold kEmpty, kSentinel, kDeleted. case_if; lia.
    - rewrite E2. cbn [length]. rewrite (reset_empties G mode w m' HW Hw Hm c2 0) by (auto; lia). lia. }
  unfold FindNewPositionsAndTransferSlots. rewrite (t_cap _ _ _ _ _ T).
  unfold IsSmallCapacity, kMaxSmallCapacity. rewrite (proj2 (Z.leb_gt (2 ^ m - 1) 1)) by lia.
  destruct (transfer_loop_spec G mode P w m' HW Hw (combine (control c) (slot_array c)) c2 0 F2) as (c3 & tot & -> & F3 & P3 & I3 & G3).
  - intros b s Hi F. apply In_nth_error in Hi as (k & Ek). rewrite nth_error_combine in Ek.
    destruct (nth_error (control c) k) as [b'|] eqn:Eb; [|discriminate].
    destruct (nth_error (slot_array c) k) as [s'|] eqn:Es; [|discriminate]. injection Ek as -> ->.
    pose proof (slots_in_cap G mode P m c T). assert (k < length (slot_array c))%nat by (apply nth_error_Some; congruence).
    destruct (t_full _ _ _ _ _ T (Z.of_nat k)) as (v & R & _); [lia| |].
    + unfold cbyte. rewrite Nat2Z.id, (nth_error_nth _ _ _ Eb). exact F.
    + unfold read_slot, read in R. rewrite (proj2 (Z.leb_le _ _)), Nat2Z.id, Es in R by lia. cbn in R. eauto.
  - fold (elements c). rewrite E2, app_nil_r. apply T.
  - fold (elements c). rewrite E2, app_nil_r, <- (i_size _ _ _ _ _ _ I).
    pose proof (growth_bounds W w m' HW Hw Hm55). lia.
  - fold (elements c) in P3. rewrite E2, app_nil_r in P3. cbn [obind].
    assert (Sz3 : size mode c3 = size mode c) by (unfold size; rewrite I3; exact Sz1).
    assert (Bl3 : blocked_element_count c3 = 0) by (unfold blocked_element_count; rewrite I3; exact Bl1).
    eexists. split; [reflexivity|]. split; [|split; [exact P3|]].
    + apply filled_inv; auto.
      * rewrite G3. exact Hmem.
      * rewrite Sz3, (Permutation_length P3). apply I.
      * now rewrite Sz3.
    + exact Bl3.
Qed.

End Resize.

(** ** Reserving room in an unallocated table *)
Ltac growth_literals :=
  repeat match goal with
  | H : context [CapacityToGrowth ?a ?b] |- _ => let v := eval vm_compute in (CapacityToGrowth a b) in change (CapacityToGrowth a b) with v in H
  | |- context [CapacityToGrowth ?a ?b] => let v := eval vm_compute in (CapacityToGrowth a b) in change (CapacityToGrowth a b) with v
  end.

Section Reserve.
Context {V K : Type} (G : GroupOps) {L : GroupLaws G} (host : endian) (mode : StorageMode) (P : Policy V K)
  {PL : PolicyLaws P} (w : Z) (HW : Z.of_nat (gWidth G) = 2 ^ w) (Hw : w = 3 \/ w = 4).
Abbreviation W := (Z.of_nat (gWidth G)).

(** The blocked slots of a reserved table fit their three bits. *)
Lemma blocked_for_reserved m n : 2 <= m <= 55 ->
  (forall m', 1 <= m' <= 64 -> (n <= CapacityToGrowth W (2 ^ m' - 1) <-> m <= m')) -> 0 < n ->
  let b := BlockedElementCountForReservedTable G (2 ^ m - 1) n in
  0 <= b < 8 /\ n <= CapacityToGrowth W (2 ^ m - 1) - b /\
  (W < 2 ^ m - 1 -> b <= kMaxBlockedElementsForLargeTables).
Proof.
  intros Hm Least Hn b. pose proof (cap_range m Hm) as Hcap. change (2 ^ 55) with 36028797018963968 in Hcap.
  pose proof (growth_bounds W w m HW Hw Hm) as (GB & _).
  pose proof (proj2 (Least m ltac:(lia)) ltac:(lia)) as Hfit.
  assert (Prev : CapacityToGrowth W (2 ^ (m - 1) - 1) < n).
  { destruct (Z.lt_ge_cases (CapacityToGrowth W (2 ^ (m - 1) - 1)) n) as [|C]; [assumption|].
    apply (Least (m - 1) ltac:(lia)) in C. lia. }
  unfold b, BlockedElementCountForReservedTable, IsCapacityValidForBlockedElements, IsSmallCapacity, kMaxSmallCapacity,
    is_single_group, kMaxBlockedElementsForLargeTables.
  rewrite (proj2 (Z.leb_gt (2 ^ m - 1) 1)) by lia. cbn [negb].
  rewrite wrapu_small by (change (2 ^ 64) with 18446744073709551616; lia).
  destruct (2 ^ m - 1 <=? W) eqn:E; zbool; [|lia]. split; [|lia]. split; [lia|].
  assert (Hmw : m <= w).
  { destruct (Z.le_gt_cases m w) as [|C]; [assumption|].
    assert (2 ^ (w + 1) <= 2 ^ m) by (apply Z.pow_le_mono_r; lia). rewrite Z.pow_add_r in * by lia.
    pose proof (width_cases W w HW Hw). change (2 ^ 1) with 2 in *. lia. }
  rewrite HW in *. clear - Hw Hm Hmw Prev. destruct Hw as [-> | ->].
  - assert (C : m = 2 \/ m = 3) by lia. destruct C as [-> | ->]; growth_literals; lia.
  - assert (C : m = 2 \/ m = 3 \/ m = 4) by lia. destruct C as [-> |[-> | ->]]; growth_literals; lia.
Qed.

(** [reserve(n)] on an unallocated table gives an empty one with room for [n] elements. *)
Lemma reserve_spec (c : CommonFields V) n M infoz next_seed :
  data_ok mode (inline_data_ c) -> size mode c = 0 -> blocked_element_count c = 0 -> 0 <= next_seed < 256 ->
  1 < n <= CapacityToGrowth W (2 ^ M - 1) -> 2 <= M <= data_bits mode - 9 -> M <= 53 ->
  exists m, 2 <= m <= M /\ SizeToCapacity W n = Some (2 ^ m - 1) /\
  forall fresh fresh_growth, Z.of_nat (length fresh) = NumControlBytes W (2 ^ m - 1) -> mem_ok fresh_growth ->
  exists c', ReserveEmptyNonAllocatedTableToFitNewSize G host mode c n infoz next_seed fresh fresh_growth = Some c' /\
    table_inv G host mode P m c' /\ elements c' = [] /\ n <= fst (growth_abs host (growth_mem c') (2 ^ m - 1)).
Proof.
  intros Hok Hz Hb Hs Hn HM HM53. pose proof (data_bits_55 mode) as D55.
  assert (Hn2 : 0 < n <= 7 * 2 ^ 61).
  { pose proof (growth_bounds W w M HW Hw ltac:(lia)) as (B & _). pose proof (cap_range M ltac:(lia)) as C.
    change (2 ^ 55) with 36028797018963968 in C. change (2 ^ 61) with 2305843009213693952. lia. }
  destruct (SizeToCapacity_galois W w HW Hw n Hn2) as (m & Hm & E & Least).
  assert (Hm2 : 2 <= m).
  { destruct (Z.lt_ge_cases m 2) as [C|]; [|assumption]. assert (m = 1) by lia. subst m.
    pose proof (proj2 (Least 1 ltac:(lia)) ltac:(lia)) as C1. rewrite HW in C1.
    assert (N1 : 1 < n) by lia. clear - Hw C1 N1.
    destruct Hw as [-> | ->]; growth_literals; lia. }
  assert (HmM : m <= M) by (apply Least; lia).
  exists m. split; [lia|]. split; [exact E|]. intros fresh fresh_growth HL Hmem.
  destruct (blocked_for_reserved m n ltac:(lia) Least ltac:(lia)) as (B1 & B2 & B3).
  set (b := BlockedElementCountForReservedTable G (2 ^ m - 1) n) in *.
  destruct (allocate_spec G host mode P w m HW Hw ltac:(lia) ltac:(lia) c b infoz next_seed fresh fresh_growth)
    as (c' & E' & I & El & Bl); auto; [lia|].
  exists c'. split; [unfold ReserveEmptyNonAllocatedTableToFitNewSize; rewrite E; exact E'|].
  split; [exact I|]. split; [exact El|].
  rewrite (i_growth _ _ _ _ _ _ I), Bl. lia.
Qed.

End Reserve.
