(* ===== verification/TableRehash.v ===== *)
(** Rehashing in place: the slots of a table without growth left are re-marked and their elements
    moved along their probe paths, so that the deleted slots become empty again
    ([DropDeletesWithoutResizeAndPrepareInsert]).  The loop ends, keeps the elements, and gives a
    table with room for the new one. *)
From Stdlib Require Import ZArith Lia List Bool Permutation.
From S2P Require Import Prelude.
From S2P Require Import Bits.
From S2P Require Import Endian.
From S2P Require Import ControlBytes.
From S2P Require Import SwissTable.
From S2P Require Import RawTable.
From S2P Require Import TableSpec.
From S2P Require Import TableOps.
From S2P Require Import TableResize.
Import ListNotations.
#[local] Open Scope Z_scope.
#[local] Open Scope mach_scope.

(** ** Re-marking the control bytes *)
Definition remark (b : Z) : Z := if IsFull b then kDeleted else kEmpty.

Lemma remark_valid b : valid_ctrl (remark b).
Proof. unfold remark, valid_ctrl. case_if; auto. Qed.

Section Convert.
Context (G : GroupOps) {L : GroupLaws G} (w m : Z) (HW : Z.of_nat (gWidth G) = 2 ^ w) (Hw : w = 3 \/ w = 4)
  (Hm : 2 <= m <= 55) (Wm : w <= m).
Abbreviation W := (Z.of_nat (gWidth G)).
Abbreviation cap := (2 ^ m - 1).

(** One group. *)
Lemma convert_group ctrl pos : Forall valid_ctrl ctrl -> 0 <= pos -> pos + W <= Z.of_nat (length ctrl) ->
  exists ctrl', (do g <- load_group (gWidth G) ctrl pos;
                 Some (firstn (Z.to_nat pos) ctrl ++ gConvert G g (skipn (Z.to_nat pos) ctrl))) = Some ctrl' /\
    length ctrl' = length ctrl /\ Forall valid_ctrl ctrl' /\
    forall q, 0 <= q < Z.of_nat (length ctrl) ->
      cbyte ctrl' q = if (pos <=? q) && (q <? pos + W) then remark (cbyte ctrl q) else cbyte ctrl q.
Proof.
  intros F Hp Hl. unfold load_group. rewrite (proj2 (Z.leb_le 0 pos)), (proj2 (Z.leb_le _ _)) by lia.
  cbn [andb obind]. eexists. split; [reflexivity|].
  assert (FS : Forall valid_ctrl (skipn (Z.to_nat pos) ctrl)).
  { rewrite <- (firstn_skipn (Z.to_nat pos) ctrl) in F. now apply Forall_app in F. }
  assert (LS : length (skipn (Z.to_nat pos) ctrl) = (length ctrl - Z.to_nat pos)%nat) by apply length_skipn.
  rewrite law_convert; [| |exact FS].
  2:{ split; [rewrite length_firstn; lia|].
      rewrite <- (firstn_skipn (gWidth G) (skipn (Z.to_nat pos) ctrl)) in FS. now apply Forall_app in FS. }
  split; [|split].
  - rewrite !length_app, length_map, !length_firstn, !length_skipn. lia.
  - apply Forall_app. split; [rewrite <- (firstn_skipn (Z.to_nat pos) ctrl) in F; now apply Forall_app in F|].
    apply Forall_app. split.
    + apply Forall_forall. intros x Hx%in_map_iff. destruct Hx as (b & <- & _). apply remark_valid.
    + rewrite <- (firstn_skipn (gWidth G) (skipn (Z.to_nat pos) ctrl)) in FS. now apply Forall_app in FS.
  - intros q Hq. unfold cbyte. destruct (Z.lt_ge_cases q pos) as [C|C].
    { rewrite app_nth1 by (rewrite length_firstn; lia). rewrite nth_firstn, (proj2 (Nat.ltb_lt _ _)) by lia.
      decide_cmp. reflexivity. }
    rewrite app_nth2; rewrite length_firstn; [|lia].
    replace (Nat.min (Z.to_nat pos) (length ctrl)) with (Z.to_nat pos) by lia.
    destruct (Z.lt_ge_cases q (pos + W)) as [C2|C2].
    + rewrite app_nth1 by (rewrite length_map, length_firstn; lia).
      rewrite (nth_indep _ 0 (remark 0)) by (rewrite length_map, length_firstn; lia).
      change (fun c : Z => if IsFull c then kDeleted else kEmpty) with remark.
      rewrite map_nth, nth_firstn, (proj2 (Nat.ltb_lt _ _)), nth_skipn by lia. decide_cmp.
      cbn [andb]. do 2 f_equal. lia.
    + rewrite app_nth2; rewrite length_map, length_firstn; [|lia]. rewrite !nth_skipn. decide_cmp. cbn [andb]. f_equal. lia.
Qed.

Lemma convert_loop_spec n : forall fuel ctrl pos, (n <= fuel)%nat -> Forall valid_ctrl ctrl -> 0 <= pos ->
  2 ^ m - pos = W * Z.of_nat n -> Z.of_nat (length ctrl) = cap + W ->
  exists ctrl', convert_loop G fuel ctrl pos cap = Some ctrl' /\ length ctrl' = length ctrl /\ Forall valid_ctrl ctrl' /\
    forall q, 0 <= q < cap + W -> cbyte ctrl' q = if (pos <=? q) && (q <? 2 ^ m) then remark (cbyte ctrl q) else cbyte ctrl q.
Proof.
  pose proof (width_cases W w HW Hw) as HWc.
  induction n as [|n IH]; intros fuel ctrl pos Hf F Hp Hn Hl.
  - assert (pos = 2 ^ m) by lia. exists ctrl. split.
    { destruct fuel; cbn [convert_loop]; rewrite (proj2 (Z.ltb_ge _ _)) by lia; reflexivity. }
    do 2 (split; [auto|]). intros q Hq. case_if; [zbool; lia|reflexivity].
  - destruct fuel as [|fuel]; [lia|]. cbn [convert_loop]. rewrite (proj2 (Z.ltb_lt _ _)) by lia.
    destruct (convert_group ctrl pos F Hp ltac:(lia)) as (c1 & E & L1 & F1 & B1).
    destruct (load_group (gWidth G) ctrl pos) as [g|]; [|discriminate]. cbn [obind] in *. injection E as E. rewrite E.
    destruct (IH fuel c1 (pos + W)) as (c2 & -> & L2 & F2 & B2); try lia; [exact F1|].
    exists c2. split; [reflexivity|]. split; [lia|]. split; [exact F2|].
    intros q Hq. rewrite B2, B1 by lia. repeat case_if; zbool; try reflexivity; try lia.
    all: exfalso; rewrite ?andb_false_iff in *; zbool; lia.
Qed.

Lemma memcpy_front_spec ctrl pos n : 0 <= n <= pos -> pos + n <= Z.of_nat (length ctrl) ->
  exists ctrl', memcpy_front ctrl pos n = Some ctrl' /\ length ctrl' = length ctrl /\
    (Forall valid_ctrl ctrl -> Forall valid_ctrl ctrl') /\
    forall q, 0 <= q < pos + n -> cbyte ctrl' q = if q <? pos then cbyte ctrl q else cbyte ctrl (q - pos).
Proof.
  clear. intros Hn Hl. unfold memcpy_front. decide_cmp. cbn [andb]. eexists. split; [reflexivity|]. split; [|split].
  - rewrite !length_app, !length_firstn, length_skipn. lia.
  - intros F. apply Forall_app. split; [|apply Forall_app; split].
    + rewrite <- (firstn_skipn (Z.to_nat pos) ctrl) in F. now apply Forall_app in F.
    + rewrite <- (firstn_skipn (Z.to_nat n) ctrl) in F. now apply Forall_app in F.
    + rewrite <- (firstn_skipn (Z.to_nat (pos + n)) ctrl) in F. now apply Forall_app in F.
  - intros q Hq. unfold cbyte. destruct (q <? pos) eqn:E; zbool.
    + rewrite app_nth1 by (rewrite length_firstn; lia). rewrite nth_firstn, (proj2 (Nat.ltb_lt _ _)) by lia. reflexivity.
    + rewrite app_nth2 by (rewrite length_firstn; lia). rewrite length_firstn.
      rewrite app_nth1 by (rewrite length_firstn; lia). rewrite nth_firstn, (proj2 (Nat.ltb_lt _ _)) by lia.
      f_equal. lia.
Qed.

Lemma Convert_spec ctrl : ctrl_ok G m ctrl ->
  exists ctrl', ConvertDeletedToEmptyAndFullToDeleted G ctrl cap = Some ctrl' /\ ctrl_ok G m ctrl' /\
    forall q, 0 <= q < cap -> cbyte ctrl' q = remark (cbyte ctrl q).
Proof.
  intros Hc. pose proof (ctrl_len _ _ _ Hc) as HL. pose proof (width_cases W w HW Hw) as HWc.
  pose proof (cap_range m Hm) as Hcap. pose proof (cap_width W w m HW Hw Hm) as CW.
  assert (EM : 2 ^ m = W * 2 ^ (m - w)) by (rewrite HW, <- Z.pow_add_r by lia; f_equal; lia).
  pose proof (pow2_pos (m - w) ltac:(lia)) as Np.
  assert (ER : rounds G cap = Z.to_nat (2 ^ (m - w))).
  { unfold rounds. replace (cap / W) with (2 ^ (m - w) - 1) by (apply Z.div_unique with (W - 1); lia). lia. }
  unfold ConvertDeletedToEmptyAndFullToDeleted. rewrite ER.
  destruct (convert_loop_spec (Z.to_nat (2 ^ (m - w))) (Z.to_nat (2 ^ (m - w))) ctrl 0 ltac:(lia) (ctrl_valid _ _ _ Hc)
              ltac:(lia) ltac:(lia) HL) as (c1 & -> & L1 & F1 & B1). cbn [obind].
  unfold NumCloned, NumClonedBytes.
  destruct (memcpy_front_spec c1 (cap + 1) (W - 1)) as (c2 & -> & L2 & F2 & B2); [lia|lia|]. cbn [obind].
  rewrite write_some by lia. eexists. split; [reflexivity|].
  assert (B : forall q, 0 <= q < cap + W -> cbyte (replace_nth (Z.to_nat cap) kSentinel c2) q =
            if q =? cap then kSentinel else if q <? cap then remark (cbyte ctrl q) else remark (cbyte ctrl (q - cap - 1))).
  { intros q Hq. unfold cbyte at 1. rewrite nth_replace_nth, (proj2 (Nat.ltb_lt (Z.to_nat cap) _)), andb_true_r by lia.
    destruct (q =? cap) eqn:E; zbool; [subst q; now rewrite Nat.eqb_refl|].
    rewrite (proj2 (Nat.eqb_neq _ _)) by lia. fold (cbyte c2 q). rewrite B2 by lia.
    destruct (q <? cap) eqn:E2; zbool.
    - rewrite (proj2 (Z.ltb_lt _ _)), B1 by lia. decide_cmp. reflexivity.
    - rewrite (proj2 (Z.ltb_ge _ _)), B1 by lia. decide_cmp. cbn [andb]. do 2 f_equal. lia. }
  split; [constructor|].
  - rewrite replace_nth_length. lia.
  - apply Forall_replace_nth; [unfold valid_ctrl; auto|auto].
  - rewrite B, Z.eqb_refl by lia. reflexivity.
  - intros p Hp. rewrite !B, (proj2 (Z.eqb_neq p cap)), (proj2 (Z.eqb_neq (p - cap - 1) cap)) by lia.
    decide_cmp. reflexivity.
  - intros q Hq. rewrite B, (proj2 (Z.eqb_neq q cap)) by lia. decide_cmp. reflexivity.
Qed.
End Convert.

(** ** Probe paths while slots are filled *)
Lemma path_shrinks G m (p : Z -> bool) ctrl ctrl' h q : 2 <= m <= 55 ->
  (forall x, 0 <= x <= 2 ^ m - 1 -> p (cbyte ctrl' x) = true -> p (cbyte ctrl x) = true) ->
  path G m p ctrl h q -> path G m p ctrl' h q.
Proof.
  intros Hm S (i & j & Hj & Hr & E & N). exists i, j. do 3 (split; [assumption|]).
  intros i' Hi' (j' & Hj' & Pj). apply (N i' Hi'). exists j'. split; [exact Hj'|].
  unfold seen in *. destruct (_ <=? _); [|exact Pj]. apply S; [|exact Pj]. apply mod_range, Hm.
Qed.

(** Slots with the same [probe_index] are in the same window. *)
Lemma same_window_path G w m (p : Z -> bool) ctrl h q i :
  Z.of_nat (gWidth G) = 2 ^ w -> w = 3 \/ w = 4 -> 2 <= m <= 55 -> w <= m ->
  let o := offset_ (probe (2 ^ m - 1) h) in
  let probe_index pos := ((pos -[64] o) .& (2 ^ m - 1)) / Z.of_nat (gWidth G) in
  0 <= i < 2 ^ m - 1 -> path G m p ctrl h q -> probe_index q = probe_index i -> path G m p ctrl h i.
Proof.
  intros HW Hw Hm Wm o probe_index Hi (k & j & Hj & Hr & Eq & N) E.
  pose proof (width_cases _ w HW Hw) as HWc. set (W := Z.of_nat (gWidth G)) in *.
  assert (EM : 2 ^ m = W * 2 ^ (m - w)) by (rewrite HW, <- Z.pow_add_r by lia; f_equal; lia).
  pose proof (pow2_pos (m - w) ltac:(lia)) as Np. set (n := 2 ^ (m - w)) in *.
  assert (Eo : o = h mod 2 ^ m).
  { unfold o, probe, probe_h1, H1. cbn [offset_]. apply land_cap. lia. }
  assert (Idx : forall pos, probe_index pos = ((pos - h) mod 2 ^ m) / W).
  { intros pos. unfold probe_index. rewrite land_cap, mod_wrap by lia. now rewrite Eo, Zminus_mod_idemp_r. }
  rewrite !Idx in E.
  destruct (probe_at_spec W w m h ltac:(lia) k) as (_ & _ & Ek). set (t := tri (Z.of_nat k)) in *.
  assert (Eqm : (q - h) mod 2 ^ m = W * (t mod n) + j).
  { rewrite <- Eq, Ek, Zplus_mod_idemp_l, Zminus_mod_idemp_l.
    replace (h + W * t + j - h) with (W * t + j) by lia. symmetry. apply Z.mod_unique with (t / n).
    - left. pose proof (Z.mod_pos_bound t n Np). nia.
    - rewrite EM. rewrite (Z.div_mod t n) at 1 by lia. ring. }
  assert (Et : (W * (t mod n) + j) / W = t mod n).
  { symmetry. apply Z.div_unique with j; lia. }
  rewrite Eqm, Et in E. remember ((i - h) mod 2 ^ m) as x eqn:Ex.
  pose proof (Z.div_mod x W ltac:(lia)) as Dx. pose proof (Z.mod_pos_bound x W ltac:(lia)) as Rx.
  pose proof (at_offset G w m Hm h k) as Ho. fold W in Ho.
  assert (WM : W <= 2 ^ m) by nia.
  exists k, (x mod W). fold W. split; [exact Rx|]. split; [lia|]. split; [|exact N].
  rewrite Ek, Zplus_mod_idemp_l.
  replace (h + W * t + x mod W) with (h + x + (t / n) * 2 ^ m).
  - rewrite Z.mod_add by lia. rewrite Ex, Zplus_mod_idemp_r. replace (h + (i - h)) with i by lia. apply Z.mod_small. lia.
  - rewrite Dx at 1. rewrite <- E, EM. pose proof (Z.div_mod t n ltac:(lia)). nia.
Qed.

(** ** Slots under updates *)
Lemma replace_nth_self {A} n (d : A) l : replace_nth n (nth n l d) l = l.
Proof. revert n. induction l as [|a l IH]; intros [|n]; cbn; [reflexivity..|]. now rewrite IH. Qed.

Section Slots.
Context {V : Type}.

Lemma read_slot_nth (s : list (option V)) q : 0 <= q < Z.of_nat (length s) -> read_slot s q = nth (Z.to_nat q) s None.
Proof. intros Hq. unfold read_slot. rewrite (read_some _ _ None) by exact Hq. reflexivity. Qed.

Lemma read_slot_range (s : list (option V)) q v : read_slot s q = Some v -> 0 <= q < Z.of_nat (length s).
Proof.
  unfold read_slot, read. destruct (0 <=? q) eqn:E; [|discriminate]. zbool.
  destruct (nth_error s (Z.to_nat q)) eqn:En; [|discriminate]. intros _.
  assert (Z.to_nat q < length s)%nat by (apply nth_error_Some; congruence). lia.
Qed.

Lemma read_slot_replace (s : list (option V)) i x q : 0 <= i < Z.of_nat (length s) -> 0 <= q < Z.of_nat (length s) ->
  read_slot (replace_nth (Z.to_nat i) x s) q = if q =? i then x else read_slot s q.
Proof.
  intros Hi Hq. rewrite !read_slot_nth by (rewrite ?replace_nth_length; lia).
  rewrite nth_replace_nth, (proj2 (Nat.ltb_lt (Z.to_nat i) _)), andb_true_r by lia.
  destruct (q =? i) eqn:E; zbool; [subst; now rewrite Nat.eqb_refl|]. now rewrite (proj2 (Nat.eqb_neq _ _)) by lia.
Qed.

Lemma slots_ext (s s' : list (option V)) : length s = length s' ->
  (forall q, 0 <= q < Z.of_nat (length s) -> read_slot s q = read_slot s' q) -> s = s'.
Proof.
  intros HL H. apply (nth_ext _ _ None None HL). intros n Hn. specialize (H (Z.of_nat n) ltac:(lia)).
  rewrite !read_slot_nth, Nat2Z.id in H by lia. exact H.
Qed.

Lemma transfer_some (c : CommonFields V) dst src v : read_slot (slot_array c) src = Some v ->
  0 <= dst < Z.of_nat (length (slot_array c)) ->
  transfer c dst src = Some (with_slots c (replace_nth (Z.to_nat src) None (replace_nth (Z.to_nat dst) (Some v) (slot_array c)))).
Proof.
  intros R Hd. pose proof (read_slot_range _ _ _ R). unfold transfer. rewrite R. cbn [obind].
  rewrite write_some by lia. cbn [obind]. rewrite write_some by (rewrite replace_nth_length; lia). reflexivity.
Qed.

(** Occupied slots: full ones, and deleted ones, whose element waits for its place. *)
Definition live_slot (bs : Z * option V) : list V :=
  match bs with (b, Some v) => if IsFull b || IsDeleted b then [v] else [] | _ => [] end.

Definition live (c : CommonFields V) : list V := flat_map live_slot (combine (control c) (slot_array c)).

Context (G : GroupOps) (w m : Z) (HW : Z.of_nat (gWidth G) = 2 ^ w) (Hw : w = 3 \/ w = 4) (Hm : 2 <= m <= 55)
  (c c' : CommonFields V) (Hc : ctrl_ok G m (control c)) (i h : Z) (s : option V)
  (Hi : 0 <= i < Z.of_nat (length (slot_array c))) (Hl : Z.of_nat (length (slot_array c)) <= 2 ^ m - 1)
  (E2 : slot_array c' = replace_nth (Z.to_nat i) s (slot_array c)).

Lemma live_replace : combine (control c') (slot_array c') = replace_nth (Z.to_nat i) (h, s) (combine (control c) (slot_array c)) ->
  Permutation (live_slot (cbyte (control c) i, read_slot (slot_array c) i) ++ live c') (live_slot (h, s) ++ live c).
Proof.
  intros E. unfold live. rewrite E. apply flat_map_replace_nth. rewrite nth_error_combine.
  pose proof (ctrl_len _ _ _ Hc). rewrite (nth_error_nth' _ 0), (nth_error_nth' _ None) by lia.
  now rewrite read_slot_nth by lia.
Qed.

Lemma live_update : control c' = set_ctrl G m (control c) i h ->
  Permutation (live_slot (cbyte (control c) i, read_slot (slot_array c) i) ++ live c') (live_slot (h, s) ++ live c).
Proof. intros E1. apply live_replace. eapply combine_update; eassumption. Qed.

Lemma live_slot_update : control c' = control c -> h = cbyte (control c) i ->
  Permutation (live_slot (cbyte (control c) i, read_slot (slot_array c) i) ++ live c') (live_slot (h, s) ++ live c).
Proof.
  intros E1 Eh. apply live_replace. rewrite Eh, E1, E2, <- combine_replace_nth. f_equal. symmetry. apply replace_nth_self.
Qed.
End Slots.

(** ** The loop *)
Section Loop.
Context {V K : Type} (G : GroupOps) {L : GroupLaws G} (mode : StorageMode) (P : Policy V K) {PL : PolicyLaws P}
  (w m : Z) (HW : Z.of_nat (gWidth G) = 2 ^ w) (Hw : w = 3 \/ w = 4) (Hm : 2 <= m <= 55) (Wm : w <= m)
  (c0 : CommonFields V) (Ecap : capacity mode c0 = 2 ^ m - 1)
  (Hl : Z.of_nat (length (slot_array c0)) <= 2 ^ m - 1).
Abbreviation W := (Z.of_nat (gWidth G)).
Abbreviation cap := (2 ^ m - 1).
Abbreviation hash := (key_hash mode P c0).
Abbreviation settled := (path G m IsEmptyOrDeleted).

(** The table before slot [i] is looked at: full slots hold elements that are in place, deleted
    slots, all of them still to come, elements that wait; together they are the elements of the
    table.  [tmp] is an empty slot, or unknown while none was met. *)
Record rehashing (c : CommonFields V) (i tmp : Z) : Prop := {
  g_inline : inline_data_ c = inline_data_ c0;
  g_growth : growth_mem c = growth_mem c0;
  g_ctrl : ctrl_ok G m (control c);
  g_len : length (slot_array c) = length (slot_array c0);
  g_blocked q : 0 <= q < cap -> (cbyte (control c) q = kSentinel <-> Z.of_nat (length (slot_array c0)) <= q);
  g_full q : 0 <= q < cap -> IsFull (cbyte (control c) q) = true ->
    exists v, read_slot (slot_array c) q = Some v /\ cbyte (control c) q = H2 (hash v) /\ settled (control c) (hash v) q;
  g_pending q : 0 <= q < cap -> cbyte (control c) q = kDeleted ->
    i <= q /\ exists v, read_slot (slot_array c) q = Some v;
  g_live : Permutation (live c) (elements c0);
  g_empty : exists q, 0 <= q < cap /\ IsEmpty (cbyte (control c) q) = true;
  g_tmp : (tmp = kUnknownId /\ forall q, 0 <= q < i -> IsEmpty (cbyte (control c) q) = false) \/
          (0 <= tmp < cap /\ IsEmpty (cbyte (control c) tmp) = true)
}.

(** What a round of the loop may change. *)
Record advances (c c' : CommonFields V) (i' : Z) : Prop := {
  a_inline : inline_data_ c' = inline_data_ c;
  a_growth_mem : growth_mem c' = growth_mem c;
  a_ok : ctrl_ok G m (control c');
  a_len : length (slot_array c') = length (slot_array c);
  a_blocked q : 0 <= q < cap -> (cbyte (control c') q = kSentinel <-> cbyte (control c) q = kSentinel);
  a_free q : 0 <= q < cap -> IsEmptyOrDeleted (cbyte (control c') q) = true -> IsEmptyOrDeleted (cbyte (control c) q) = true;
  a_full q : 0 <= q < cap -> IsFull (cbyte (control c') q) = true ->
    (cbyte (control c') q = cbyte (control c) q /\ read_slot (slot_array c') q = read_slot (slot_array c) q) \/
    exists v, read_slot (slot_array c') q = Some v /\ cbyte (control c') q = H2 (hash v) /\ settled (control c) (hash v) q;
  a_pending q : 0 <= q < cap -> cbyte (control c') q = kDeleted ->
    i' <= q /\ exists v, read_slot (slot_array c') q = Some v;
  a_live : Permutation (live c') (live c);
  a_empty : exists q, 0 <= q < cap /\ IsEmpty (cbyte (control c') q) = true
}.

Lemma advance c c' i i' tmp tmp' : rehashing c i tmp -> advances c c' i' ->
  (tmp' = kUnknownId /\ (forall q, 0 <= q < i' -> IsEmpty (cbyte (control c') q) = false)) \/
  (0 <= tmp' < cap /\ IsEmpty (cbyte (control c') tmp') = true) ->
  rehashing c' i' tmp'.
Proof.
  intros R A T. pose proof (cap_range m Hm). destruct A. constructor; auto.
  - now rewrite a_inline0, (g_inline _ _ _ R).
  - now rewrite a_growth_mem0, (g_growth _ _ _ R).
  - now rewrite a_len0, (g_len _ _ _ R).
  - intros q Hq. rewrite a_blocked0 by exact Hq. now apply R.
  - assert (S : forall h q, settled (control c) h q -> settled (control c') h q).
    { intros h q. apply path_shrinks; [exact Hm|]. intros x Hx. destruct (Z.eq_dec x cap) as [->|]; [|apply a_free0; lia].
      rewrite (ctrl_sentinel _ _ _ a_ok0). discriminate. }
    intros q Hq F. destruct (a_full0 q Hq F) as [[Eb Er]|(v & E1 & E2 & E3)].
    + rewrite Eb in F. destruct (g_full _ _ _ R q Hq F) as (v & E1 & E2 & E3). exists v.
      rewrite Er, Eb. auto.
    + exists v. auto.
  - rewrite a_live0. apply R.
Qed.

Section Round.
Context (c : CommonFields V) (i tmp : Z) (R : rehashing c i tmp) (Hi : 0 <= i < cap)
  (Di : cbyte (control c) i = kDeleted) (v : V) (Rv : read_slot (slot_array c) i = Some v).
Abbreviation h := (hash v).
Abbreviation ctrl := (control c).
Abbreviation slots := (slot_array c).

Lemma slots_le : Z.of_nat (length slots) <= cap.
Proof. rewrite (g_len _ _ _ R). exact Hl. Qed.

Lemma unblocked_slot q : 0 <= q < cap -> cbyte ctrl q <> kSentinel -> 0 <= q < Z.of_nat (length slots).
Proof.
  intros Hq N. rewrite (g_len _ _ _ R). split; [lia|]. destruct (Z.lt_ge_cases q (Z.of_nat (length (slot_array c0)))); [assumption|].
  exfalso. apply N, (g_blocked _ _ _ R q Hq). lia.
Qed.

Lemma slot_byte ct a x q : ctrl_ok G m ct -> 0 <= a < cap -> 0 <= q < cap ->
  cbyte (set_ctrl G m ct a x) q = if q =? a then x else cbyte ct q.
Proof. intros Hct Ha Hq. apply (set_ctrl_main G w); auto; lia. Qed.

Lemma h2_marks : valid_ctrl (H2 h) /\ IsFull (H2 h) = true /\ H2 h <> kSentinel /\ H2 h <> kDeleted /\ IsEmpty (H2 h) = false /\
  IsEmptyOrDeleted (H2 h) = false.
Proof.
  destruct (H2_full h (hash_range _ _)) as [A B]. destruct (full_marks h (hash_range _ _)) as (C & D & E).
  repeat (split; [assumption|]). unfold IsFull, IsEmptyOrDeleted, kSentinel in *. zbool. apply Z.ltb_ge. lia.
Qed.

(** The element stays in its window. *)
Lemma stay_advances : settled ctrl h i -> advances c (with_control c (set_ctrl G m ctrl i (H2 h))) (i + 1).
Proof.
  intros S. pose proof (g_ctrl _ _ _ R) as Hc. destruct h2_marks as (M1 & M2 & M3 & M4 & M5 & M6).
  assert (Hs : 0 <= i < Z.of_nat (length slots)) by (apply unblocked_slot; [lia|rewrite Di; discriminate]).
  assert (B : forall q, 0 <= q < cap -> cbyte (set_ctrl G m ctrl i (H2 h)) q = if q =? i then H2 h else cbyte ctrl q)
    by (intros; apply slot_byte; auto).
  constructor; cbn [with_control inline_data_ control slot_array growth_mem]; auto.
  - now apply (set_ctrl_ok G w).
  - intros q Hq. rewrite B by exact Hq. case_if; [|reflexivity]. zbool. subst q. rewrite Di.
    split; [intros X; destruct (M3 X)|discriminate].
  - intros q Hq. rewrite B by exact Hq. case_if; [rewrite M6; discriminate|auto].
  - intros q Hq. rewrite B by exact Hq. case_if; zbool; [subst q; right; exists v; auto|auto].
  - intros q Hq. rewrite B by exact Hq. case_if; zbool; [intros X; destruct (M4 X)|]. intros X.
    destruct (g_pending _ _ _ R q Hq X) as [Y Z]. split; [lia|exact Z].
  - assert (E2 : slots = replace_nth (Z.to_nat i) (Some v) slots)
      by (rewrite <- Rv, read_slot_nth by exact Hs; symmetry; apply replace_nth_self).
    pose proof (live_update G w m HW Hw Hm c (with_control c (set_ctrl G m ctrl i (H2 h))) Hc i (H2 h) (Some v) Hs slots_le
      E2 eq_refl) as X.
    rewrite Di, Rv in X. cbn [live_slot] in X. rewrite M2 in X. cbn [orb app] in X. exact (Permutation_cons_inv X).
  - destruct (g_empty _ _ _ R) as (q & Hq & E). exists q. split; [exact Hq|]. rewrite B by exact Hq.
    case_if; [|exact E]. zbool. subst q. rewrite Di in E. discriminate.
Qed.

(** The element moves to an empty slot. *)
Lemma move_advances q : 0 <= q < cap -> IsEmpty (cbyte ctrl q) = true -> settled ctrl h q ->
  advances c (mk_Common (inline_data_ c) (set_ctrl G m (set_ctrl G m ctrl q (H2 h)) i kEmpty)
    (replace_nth (Z.to_nat i) None (replace_nth (Z.to_nat q) (Some v) slots)) (growth_mem c)) (i + 1).
Proof.
  intros Hq Eq S. pose proof (g_ctrl _ _ _ R) as Hc. destruct h2_marks as (M1 & M2 & M3 & M4 & M5 & M6).
  assert (Vq : cbyte ctrl q = kEmpty) by now apply Z.eqb_eq.
  assert (Hs : 0 <= i < Z.of_nat (length slots)) by (apply unblocked_slot; [lia|rewrite Di; discriminate]).
  assert (Hqs : 0 <= q < Z.of_nat (length slots)) by (apply unblocked_slot; [lia|rewrite Vq; discriminate]).
  assert (Nq : q <> i) by (intros ->; rewrite Di in Vq; discriminate).
  set (ctrl1 := set_ctrl G m ctrl q (H2 h)). set (c1 := mk_Common (inline_data_ c) ctrl1 (replace_nth (Z.to_nat q) (Some v) slots) (growth_mem c)).
  assert (Hc1 : ctrl_ok G m ctrl1) by now apply (set_ctrl_ok G w).
  assert (B : forall x, 0 <= x < cap -> cbyte (set_ctrl G m ctrl1 i kEmpty) x =
            if x =? i then kEmpty else if x =? q then H2 h else cbyte ctrl x)
    by (intros; unfold ctrl1; now rewrite !slot_byte by auto).
  set (c' := mk_Common _ _ _ _).
  assert (Rd : forall x, 0 <= x < Z.of_nat (length slots) -> read_slot (slot_array c') x =
            if x =? i then None else if x =? q then Some v else read_slot slots x).
  { intros x Hx. cbn [c' slot_array]. now rewrite !read_slot_replace by (rewrite ?replace_nth_length; lia). }
  constructor; cbn [c' inline_data_ control growth_mem]; auto.
  - apply (set_ctrl_ok G w); auto. unfold valid_ctrl. auto.
  - cbn [c' slot_array]. now rewrite !replace_nth_length.
  - intros x Hx. rewrite B by exact Hx. case_if; zbool; [subst x; rewrite Di; split; discriminate|].
    case_if; [|reflexivity]. zbool. subst x. rewrite Vq. split; [intros X; destruct (M3 X)|discriminate].
  - intros x Hx. rewrite B by exact Hx. case_if; zbool; [subst x; now rewrite Di|].
    case_if; [rewrite M6; discriminate|auto].
  - intros x Hx. rewrite B by exact Hx. case_if; zbool; [discriminate|].
    case_if; zbool; [subst x; right; exists v|intros F; left].
    + rewrite Rd by exact Hqs. rewrite (proj2 (Z.eqb_neq q i)), Z.eqb_refl by exact Nq. auto.
    + split; [reflexivity|]. rewrite Rd, (proj2 (Z.eqb_neq x i)), (proj2 (Z.eqb_neq x q)); auto.
      apply unblocked_slot; [exact Hx|]. intros X. rewrite X in F. discriminate.
  - intros x Hx. rewrite B by exact Hx. case_if; zbool; [discriminate|].
    case_if; zbool; [intros X; destruct (M4 X)|]. intros X. destruct (g_pending _ _ _ R x Hx X) as [Y Z]. split; [lia|].
    rewrite Rd, (proj2 (Z.eqb_neq x i)), (proj2 (Z.eqb_neq x q)); auto. apply unblocked_slot; [exact Hx|]. rewrite X. discriminate.
  - pose proof (live_update G w m HW Hw Hm c c1 Hc q (H2 h) (Some v) Hqs slots_le eq_refl eq_refl) as X.
    assert (Len1 : length (slot_array c1) = length slots) by apply replace_nth_length. pose proof slots_le as Le.
    pose proof (live_update G w m HW Hw Hm c1 c' Hc1 i kEmpty None ltac:(lia) ltac:(lia) eq_refl eq_refl) as Y.
    assert (B1 : cbyte (control c1) i = kDeleted).
    { cbn [c1 control]. unfold ctrl1. rewrite slot_byte, (proj2 (Z.eqb_neq i q)) by auto. exact Di. }
    assert (R1 : read_slot (slot_array c1) i = Some v).
    { cbn [c1 slot_array]. rewrite read_slot_replace, (proj2 (Z.eqb_neq i q)) by auto. exact Rv. }
    rewrite B1, R1 in Y. rewrite Vq in X. cbn [live_slot] in X, Y. rewrite M2 in X. cbn [orb app] in X.
    change (IsFull kDeleted || IsDeleted kDeleted) with true in Y. cbn [app] in Y.
    replace (match read_slot slots q with Some v0 => if IsFull kEmpty || IsDeleted kEmpty then [v0] else [] | None => [] end)
      with (@nil V) in X by now destruct (read_slot slots q).
    cbn [app] in X. apply (Permutation_cons_inv (a := v)). now rewrite Y.
  - exists i. split; [exact Hi|]. rewrite B, Z.eqb_refl by exact Hi. reflexivity.
Qed.

(** The element changes places with one that waits, through the empty slot [t]. *)
Lemma swap_advances q t u : 0 <= q < cap -> q <> i -> cbyte ctrl q = kDeleted -> read_slot slots q = Some u ->
  0 <= t < cap -> IsEmpty (cbyte ctrl t) = true -> settled ctrl h q ->
  advances c (mk_Common (inline_data_ c) (set_ctrl G m ctrl q (H2 h))
    (replace_nth (Z.to_nat t) None (replace_nth (Z.to_nat i) (Some u) (replace_nth (Z.to_nat q) (Some v) slots)))
    (growth_mem c)) i.
Proof.
  intros Hq Nq Dq Ru Ht Et S. pose proof (g_ctrl _ _ _ R) as Hc. destruct h2_marks as (M1 & M2 & M3 & M4 & M5 & M6).
  assert (Vt : cbyte ctrl t = kEmpty) by now apply Z.eqb_eq.
  pose proof (read_slot_range _ _ _ Rv) as Hs. pose proof (read_slot_range _ _ _ Ru) as Hqs.
  assert (Hts : 0 <= t < Z.of_nat (length slots)) by (apply unblocked_slot; [lia|rewrite Vt; discriminate]).
  assert (Nt : t <> i /\ t <> q) by (split; intros ->; congruence || (rewrite ?Di, ?Dq in Vt; discriminate)).
  assert (B : forall x, 0 <= x < cap -> cbyte (set_ctrl G m ctrl q (H2 h)) x = if x =? q then H2 h else cbyte ctrl x)
    by (intros; now apply slot_byte).
  set (s1 := replace_nth (Z.to_nat q) (Some v) slots). set (s2 := replace_nth (Z.to_nat i) (Some u) s1).
  assert (Len : length s1 = length slots /\ length s2 = length slots)
    by (split; unfold s2, s1; rewrite !replace_nth_length; reflexivity).
  assert (Hc1 : ctrl_ok G m (set_ctrl G m ctrl q (H2 h))) by now apply (set_ctrl_ok G w).
  set (c' := mk_Common _ _ _ _).
  assert (Rd : forall x, 0 <= x < Z.of_nat (length slots) -> read_slot (slot_array c') x =
            if x =? t then None else if x =? i then Some u else if x =? q then Some v else read_slot slots x).
  { intros x Hx. cbn [c' slot_array]. unfold s2, s1. now rewrite !read_slot_replace by (rewrite ?replace_nth_length; lia). }
  constructor; cbn [c' inline_data_ control growth_mem]; auto.
  - cbn [c' slot_array]. rewrite replace_nth_length. apply Len.
  - intros x Hx. rewrite B by exact Hx. case_if; [|reflexivity]. zbool. subst x. rewrite Dq.
    split; [intros X; destruct (M3 X)|discriminate].
  - intros x Hx. rewrite B by exact Hx. case_if; [rewrite M6; discriminate|auto].
  - intros x Hx. rewrite B by exact Hx. case_if; zbool; [subst x; right; exists v|intros F; left].
    + rewrite Rd, (proj2 (Z.eqb_neq q t)), (proj2 (Z.eqb_neq q i)), Z.eqb_refl by (auto; lia). auto.
    + split; [reflexivity|]. assert (x <> i /\ x <> t) by (split; intros ->; rewrite ?Di, ?Vt in F; discriminate).
      rewrite Rd by (apply unblocked_slot; [exact Hx|]; intros X; rewrite X in F; discriminate).
      rewrite (proj2 (Z.eqb_neq x t)), (proj2 (Z.eqb_neq x i)), (proj2 (Z.eqb_neq x q)) by tauto. reflexivity.
  - intros x Hx. rewrite B by exact Hx. case_if; zbool; [intros X; destruct (M4 X)|]. intros X.
    destruct (g_pending _ _ _ R x Hx X) as [Y Z]. split; [lia|].
    assert (x <> t) by (intros ->; rewrite Vt in X; discriminate).
    rewrite Rd by (apply unblocked_slot; [exact Hx|rewrite X; discriminate]).
    rewrite (proj2 (Z.eqb_neq x t)), (proj2 (Z.eqb_neq x q)) by assumption. case_if; [eauto|exact Z].
  - set (cA := mk_Common (inline_data_ c) (set_ctrl G m ctrl q (H2 h)) s1 (growth_mem c)).
    set (cB := mk_Common (inline_data_ c) (set_ctrl G m ctrl q (H2 h)) s2 (growth_mem c)). pose proof slots_le as Le.
    pose proof (live_update G w m HW Hw Hm c cA Hc q (H2 h) (Some v) Hqs Le eq_refl eq_refl) as X.
    pose proof (live_slot_update G w m HW Hw Hm cA cB Hc1 i _ (Some u) ltac:(cbn [cA slot_array]; lia)
                  ltac:(cbn [cA slot_array]; lia) eq_refl eq_refl eq_refl) as Y.
    pose proof (live_slot_update G w m HW Hw Hm cB c' Hc1 t _ None ltac:(cbn [cB slot_array]; lia)
                  ltac:(cbn [cB slot_array]; lia) eq_refl eq_refl eq_refl) as Z.
    cbn [cA cB control slot_array] in X, Y, Z. rewrite Dq, Ru in X. rewrite !B, (proj2 (Z.eqb_neq i q)), Di in Y by auto.
    rewrite !B, (proj2 (Z.eqb_neq t q)), Vt in Z by tauto.
    replace (read_slot s1 i) with (Some v) in Y
      by (unfold s1; rewrite read_slot_replace, (proj2 (Z.eqb_neq i q)) by auto; now symmetry).
    cbn [live_slot] in X, Y, Z. rewrite M2 in X. change (IsFull kDeleted || IsDeleted kDeleted) with true in *.
    cbn [orb app] in X, Y, Z. replace (match read_slot s2 t with Some v0 => if IsFull kEmpty || IsDeleted kEmpty then [v0] else [] | None => [] end)
      with (@nil V) in Z by now destruct (read_slot s2 t).
    cbn [app] in Z. fold cA in X, Y. fold cB in Y, Z. apply (Permutation_cons_inv (a := v)). now rewrite Z, Y, X.
  - exists t. split; [exact Ht|]. rewrite B, (proj2 (Z.eqb_neq t q)) by tauto. exact Et.
Qed.
End Round.

(** ** Its rounds *)
Definition deleted_mark (b : Z) : list unit := if IsDeleted b then [tt] else [].
Definition pending (ct : list Z) : Z := Z.of_nat (length (flat_map deleted_mark (firstn (Z.to_nat cap) ct))).

Lemma pending_update ct a x : ctrl_ok G m ct -> 0 <= a < cap ->
  pending (set_ctrl G m ct a x) + Z.of_nat (length (deleted_mark (cbyte ct a))) = pending ct + Z.of_nat (length (deleted_mark x)).
Proof.
  intros Hc Ha. set (s := repeat (@None V) (Z.to_nat cap)).
  exact (marks_update G w m HW Hw Hm (mk_Common (inline_data_ c0) ct s (growth_mem c0))
    (mk_Common (inline_data_ c0) (set_ctrl G m ct a x) s (growth_mem c0)) Hc a x
    ltac:(cbn [slot_array]; unfold s; rewrite repeat_length; lia) ltac:(cbn [slot_array]; unfold s; rewrite repeat_length; lia)
    eq_refl deleted_mark).
Qed.

Lemma FindEmptySlot_spec ct n : forall start, 0 <= start -> start + Z.of_nat n <= Z.of_nat (length ct) ->
  (exists q, start <= q < start + Z.of_nat n /\ IsEmpty (cbyte ct q) = true) ->
  exists t, FindEmptySlot n start ct = Some t /\ start <= t < start + Z.of_nat n /\ IsEmpty (cbyte ct t) = true.
Proof.
  clear. induction n as [|n IH]; intros start Hs Hl (q & Hq & Eq); [lia|]. cbn [FindEmptySlot].
  rewrite (read_some _ _ 0) by lia. cbn [obind]. fold (cbyte ct start).
  destruct (IsEmpty (cbyte ct start)) eqn:E; [exists start; split; [reflexivity|]; split; [lia|exact E]|].
  destruct (IH (start + 1)) as (t & E' & Ht & Et); [lia|lia| |exists t; split; [exact E'|]; split; [lia|exact Et]].
  exists q. split; [|exact Eq]. assert (q <> start) by congruence. lia.
Qed.

(** A slot that does not wait is passed over. *)
Lemma skip_slot c i tmp tmp' : rehashing c i tmp -> 0 <= i < cap -> cbyte (control c) i <> kDeleted ->
  (IsEmpty (cbyte (control c) i) = true /\ tmp' = i) \/ (IsEmpty (cbyte (control c) i) = false /\ tmp' = tmp) ->
  rehashing c (i + 1) tmp'.
Proof.
  intros R Hi Nd Ht. destruct R. constructor; auto.
  - intros q Hq D. destruct (g_pending0 q Hq D) as [A B]. split; [|exact B]. assert (q <> i) by congruence. lia.
  - destruct Ht as [[E ->]|[E ->]]; [right; auto|]. destruct g_tmp0 as [[U N]|T]; [left|right; exact T].
    split; [exact U|]. intros q Hq. destruct (Z.eq_dec q i) as [->|]; [exact E|apply N; lia].
Qed.

Lemma same_capacity c i tmp : rehashing c i tmp -> capacity mode c = cap.
Proof. intros R. unfold capacity. rewrite (g_inline _ _ _ R). exact Ecap. Qed.

Lemma read_ctrl (c : CommonFields V) q : ctrl_ok G m (control c) -> 0 <= q < cap -> read (control c) q = Some (cbyte (control c) q).
Proof. intros Hc Hq. apply read_some. pose proof (ctrl_len _ _ _ Hc). lia. Qed.

(** The three transfers of a swap. *)
Lemma swap_transfers {A} (c1 : CommonFields V) i q t u v (k : CommonFields V -> option A) :
  read_slot (slot_array c1) i = Some v -> read_slot (slot_array c1) q = Some u -> 0 <= t < Z.of_nat (length (slot_array c1)) ->
  t <> i -> t <> q -> q <> i ->
  (do c2 <- transfer c1 t q; do c3 <- transfer c2 q i; do c4 <- transfer c3 i t; k c4) =
  k (with_slots c1 (replace_nth (Z.to_nat t) None (replace_nth (Z.to_nat i) (Some u) (replace_nth (Z.to_nat q) (Some v) (slot_array c1))))).
Proof.
  intros Rv Ru Ht Nti Ntq Nqi. set (s := slot_array c1) in *.
  pose proof (read_slot_range _ _ _ Rv) as Hi. pose proof (read_slot_range _ _ _ Ru) as Hq.
  rewrite (transfer_some c1 t q u Ru Ht). cbn [obind]. fold s. set (c2 := with_slots c1 _).
  assert (L2 : length (slot_array c2) = length s) by (cbn [c2 with_slots slot_array]; now rewrite !replace_nth_length).
  assert (R2 : read_slot (slot_array c2) i = Some v).
  { cbn [c2 with_slots slot_array]. rewrite !read_slot_replace by (rewrite ?replace_nth_length; lia).
    rewrite (proj2 (Z.eqb_neq i q)), (proj2 (Z.eqb_neq i t)) by auto. exact Rv. }
  rewrite (transfer_some c2 q i v R2) by lia. cbn [obind]. set (c3 := with_slots c2 _).
  assert (L3 : length (slot_array c3) = length s) by (cbn [c3 with_slots slot_array]; now rewrite !replace_nth_length).
  assert (R3 : read_slot (slot_array c3) t = Some u).
  { cbn [c3 c2 with_slots slot_array]. rewrite !read_slot_replace by (rewrite ?replace_nth_length; lia).
    now rewrite (proj2 (Z.eqb_neq t i)), (proj2 (Z.eqb_neq t q)), Z.eqb_refl by auto. }
  rewrite (transfer_some c3 i t u R3) by lia. cbn [obind]. f_equal.
  unfold c3, c2, with_slots. cbn [inline_data_ control slot_array growth_mem]. f_equal.
  apply slots_ext; [now rewrite !replace_nth_length|]. rewrite !replace_nth_length. intros x Hx.
  rewrite !read_slot_replace by (rewrite ?replace_nth_length; lia). repeat case_if; zbool; congruence.
Qed.

(** The empty slot a swap goes through. *)
Lemma temp_slot c i tmp : rehashing c i tmp -> 0 <= i < cap -> cbyte (control c) i = kDeleted ->
  forall q h, 0 <= q < cap -> cbyte (control c) q = kDeleted -> valid_ctrl h -> IsEmpty h = false ->
  exists t, (if tmp =? kUnknownId then FindEmptySlot (Z.to_nat (cap - (i + 1))) (i + 1) (set_ctrl G m (control c) q h)
             else Some tmp) = Some t /\ 0 <= t < cap /\ IsEmpty (cbyte (control c) t) = true.
Proof.
  intros R Hi Di q h Hq Dq Vh Eh. pose proof (g_ctrl _ _ _ R) as Hc. pose proof (cap_range m Hm) as Hcap.
  change (2 ^ 55) with 36028797018963968 in Hcap.
  destruct (g_tmp _ _ _ R) as [[-> N]|[T1 T2]].
  - rewrite Z.eqb_refl. destruct (g_empty _ _ _ R) as (x & Hx & Ex).
    assert (B : forall y, 0 <= y < cap -> IsEmpty (cbyte (set_ctrl G m (control c) q h) y) = IsEmpty (cbyte (control c) y)).
    { intros y Hy. rewrite slot_byte by auto. case_if; [|reflexivity]. zbool. subst y. rewrite Dq, Eh. reflexivity. }
    destruct (FindEmptySlot_spec (set_ctrl G m (control c) q h) (Z.to_nat (cap - (i + 1))) (i + 1)) as (t & E & Ht & Et).
    + lia.
    + unfold set_ctrl. rewrite !replace_nth_length. pose proof (ctrl_len _ _ _ Hc). lia.
    + exists x. rewrite B by exact Hx. split; [|exact Ex]. assert (x <> i) by (intros ->; rewrite Di in Ex; discriminate).
      destruct (Z.lt_ge_cases x i) as [C|C]; [rewrite N in Ex by lia; discriminate|lia].
    + exists t. rewrite B in Et by lia. split; [exact E|]. split; [lia|exact Et].
  - exists tmp. rewrite (proj2 (Z.eqb_neq _ _)); [auto|]. unfold kUnknownId, size_max.
    change (2 ^ 64) with 18446744073709551616. lia.
Qed.

(** The three ways a waiting element finds its place. *)
Section Moves.
Context (c : CommonFields V) (i tmp : Z) (R : rehashing c i tmp) (Hi : 0 <= i < cap)
  (Di : cbyte (control c) i = kDeleted) (v : V) (Rv : read_slot (slot_array c) i = Some v).
Abbreviation h := (hash v).

Lemma waiting_marks : ctrl_ok G m (control c) /\ capacity mode c = cap /\
  forall q, 0 <= q < cap -> pending (set_ctrl G m (control c) q (H2 h)) + Z.of_nat (length (deleted_mark (cbyte (control c) q))) =
    pending (control c).
Proof.
  pose proof (g_ctrl _ _ _ R) as Hc. split; [exact Hc|]. split; [exact (same_capacity _ _ _ R)|]. intros q Hq.
  rewrite (pending_update (control c) q (H2 h) Hc Hq). destruct (h2_marks v) as (_ & _ & _ & M4 & _).
  unfold deleted_mark at 1, IsDeleted. rewrite (proj2 (Z.eqb_neq _ _)) by exact M4. cbn [length]. lia.
Qed.

Lemma stay_step : settled (control c) h i ->
  exists c', SetCtrlInLargeTable G mode c i (H2 h) = Some c' /\ rehashing c' (i + 1) tmp /\
    pending (control c') <= pending (control c).
Proof.
  intros S. destruct waiting_marks as (Hc & Ec & Pn). destruct (h2_marks v) as (_ & _ & _ & _ & M5 & _).
  pose proof (stay_advances c i tmp R Hi Di v Rv S) as A. specialize (Pn i Hi).
  eexists. split; [exact (SetCtrlInLargeTable_some G mode w m HW Hw Hm c Ec Hc i _ Hi Wm)|].
  split; [|cbn [with_control control]; lia].
  apply (advance c _ i (i + 1) tmp tmp R A). destruct (g_tmp _ _ _ R) as [[U N]|[T1 T2]]; [left|right]; (split; [assumption|]).
  - intros x Hx. cbn [with_control control]. rewrite slot_byte by (auto; lia). case_if; [exact M5|]. zbool. apply N. lia.
  - cbn [with_control control]. rewrite slot_byte by auto. case_if; [|exact T2]. zbool. subst. rewrite Di in T2. discriminate.
Qed.

Lemma move_step q : 0 <= q < cap -> IsEmpty (cbyte (control c) q) = true -> settled (control c) h q ->
  exists c1 c2 c3, SetCtrlInLargeTable G mode c q (H2 h) = Some c1 /\ transfer c1 q i = Some c2 /\
    SetCtrlInLargeTable G mode c2 i kEmpty = Some c3 /\ rehashing c3 (i + 1) i /\ pending (control c3) <= pending (control c).
Proof.
  intros Hq Eq S. destruct waiting_marks as (Hc & Ec & Pn). destruct (h2_marks v) as (M1 & _).
  assert (Vq : cbyte (control c) q = kEmpty) by now apply Z.eqb_eq.
  set (c1 := with_control c (set_ctrl G m (control c) q (H2 h))).
  assert (Hc1 : ctrl_ok G m (control c1)) by now apply (set_ctrl_ok G w).
  assert (Hqs : 0 <= q < Z.of_nat (length (slot_array c1)))
    by (apply (unblocked_slot c i tmp R q Hq); rewrite Vq; discriminate).
  pose proof (transfer_some c1 q i v Rv Hqs) as Tr. set (c2 := with_slots c1 _) in Tr.
  eexists c1, c2, _. split; [exact (SetCtrlInLargeTable_some G mode w m HW Hw Hm c Ec Hc q _ Hq Wm)|]. split; [exact Tr|].
  split; [exact (SetCtrlInLargeTable_some G mode w m HW Hw Hm c2 Ec Hc1 i kEmpty Hi Wm)|].
  pose proof (move_advances c i tmp R Hi Di v Rv q Hq Eq S) as A. split.
  - apply (advance c _ i (i + 1) tmp i R A). right. split; [exact Hi|].
    cbn [control]. rewrite slot_byte by auto. rewrite Z.eqb_refl. reflexivity.
  - pose proof (pending_update (control c1) i kEmpty Hc1 Hi) as PI. specialize (Pn q Hq). rewrite Vq in Pn.
    change (deleted_mark kEmpty) with (@nil unit) in PI, Pn. cbn [length] in PI, Pn.
    change (control c1) with (set_ctrl G m (control c) q (H2 h)) in PI.
    change (control (with_control c2 _)) with (set_ctrl G m (set_ctrl G m (control c) q (H2 h)) i kEmpty). lia.
Qed.

Lemma swap_step {A} q (k : CommonFields V -> Z -> option A) :
  0 <= q < cap -> q <> i -> cbyte (control c) q = kDeleted -> settled (control c) h q ->
  exists c1 c' tm, SetCtrlInLargeTable G mode c q (H2 h) = Some c1 /\
    (do tmp <- (if tmp =? kUnknownId then FindEmptySlot (Z.to_nat (cap - (i + 1))) (i + 1) (control c1) else Some tmp);
     do c2 <- transfer c1 tmp q; do c3 <- transfer c2 q i; do c4 <- transfer c3 i tmp; k c4 tmp) = k c' tm /\
    rehashing c' i tm /\ pending (control c') < pending (control c).
Proof.
  intros Hq Nq Dq S. destruct waiting_marks as (Hc & Ec & Pn). destruct (h2_marks v) as (M1 & _ & _ & _ & M5 & _).
  destruct (g_pending _ _ _ R q Hq Dq) as (_ & u & Ru).
  destruct (temp_slot c i tmp R Hi Di q (H2 h) Hq Dq M1 M5) as (tm & Etmp & Htm & Em).
  eexists _, _, tm. split; [exact (SetCtrlInLargeTable_some G mode w m HW Hw Hm c Ec Hc q _ Hq Wm)|].
  set (c1 := with_control c _). change (control c1) with (set_ctrl G m (control c) q (H2 h)). rewrite Etmp. cbn [obind].
  split; [apply (swap_transfers c1 i q tm u v (fun x => k x tm)); auto|].
  { apply (unblocked_slot c i tmp R tm Htm). intros X. rewrite X in Em. discriminate. }
  1,2: intros X; rewrite X, ?Di, ?Dq in Em; discriminate.
  pose proof (swap_advances c i tmp R Hi Di v Rv q tm u Hq Nq Dq Ru Htm Em S) as Adv. split.
  - apply (advance c _ i i tmp tm R Adv). right. split; [exact Htm|]. cbn [control]. rewrite slot_byte by auto.
    case_if; [|exact Em]. zbool. subst tm. rewrite Dq in Em. discriminate.
  - specialize (Pn q Hq). rewrite Dq in Pn. change (deleted_mark kDeleted) with [tt] in Pn. cbn [length] in Pn.
    cbn [with_slots with_control control]. lia.
Qed.
End Moves.

(** A slot whose element waits. *)
Lemma waiting_round fuel c i tmp total :
  rehashing c i tmp -> 0 <= i < cap -> cbyte (control c) i = kDeleted ->
  exists c' i' tmp' total', rehash_loop G mode P (S fuel) c i tmp total = rehash_loop G mode P fuel c' i' tmp' total' /\
    rehashing c' i' tmp' /\ i <= i' <= i + 1 /\ pending (control c') - i' < pending (control c) - i.
Proof.
  intros R Hi Di. pose proof (g_ctrl _ _ _ R) as Hc. destruct (g_pending _ _ _ R i Hi Di) as (_ & v & Rv).
  destruct (find_first_non_full_path G w m HW Hw Hm (control c) Hc (hash v)) as (t & Ft & Rt & Et & Pt).
  { exists i. split; [exact Hi|]. rewrite Di. reflexivity. }
  set (q := fi_offset t) in *. cbn [rehash_loop]. rewrite (same_capacity _ _ _ R), (proj2 (Z.eqb_neq i cap)) by lia.
  rewrite read_ctrl, Di by auto. cbn [obind]. change (IsEmpty kDeleted) with false. change (negb (IsDeleted kDeleted)) with false.
  cbv iota. rewrite Rv. cbn [obind].
  assert (Eh : hash_of P (seed mode c) (key_of P v) = hash v) by (unfold key_hash, seed; now rewrite (g_inline _ _ _ R)).
  rewrite !Eh. unfold find_first_non_full. rewrite (same_capacity _ _ _ R). unfold H1 at 1. rewrite Ft. cbn [obind]. cbv zeta.
  fold q. destruct (_ =? _) eqn:Same.
  - apply Z.eqb_eq in Same.
    pose proof (same_window_path G w m IsEmptyOrDeleted (control c) (hash v) q i HW Hw Hm Wm Hi Pt Same) as Pi.
    destruct (stay_step c i tmp R Hi Di v Rv Pi) as (c' & -> & R' & Pn). cbn [obind].
    eexists _, _, _, _. split; [reflexivity|]. split; [exact R'|lia].
  - rewrite read_ctrl by auto. cbn [obind]. destruct (IsEmpty (cbyte (control c) q)) eqn:Eq.
    + destruct (move_step c i tmp R Hi Di v Rv q Rt Eq Pt) as (c1 & c2 & c3 & -> & T2 & T3 & R' & Pn). cbn [obind].
      rewrite T2. cbn [obind]. rewrite T3. cbn [obind]. eexists _, _, _, _. split; [reflexivity|]. split; [exact R'|lia].
    + assert (Nq : q <> i) by (intros X; rewrite X in Same; now rewrite Z.eqb_refl in Same).
      assert (Dq : cbyte (control c) q = kDeleted).
      { destruct (free_cases _ Et) as (_ & _ & C). destruct C as [C|C]; [|rewrite C in Eq; discriminate|exact C].
        eapply cbyte_valid; eauto. lia. }
      destruct (swap_step c i tmp R Hi Di v Rv q (fun c' tm => rehash_loop G mode P fuel c' i tm (total +[64] fi_probe_length t))
                  Rt Nq Dq Pt) as (c1 & c' & tm & -> & Sw & R' & Pn). cbn [obind].
      exists c', i, tm, (total +[64] fi_probe_length t). split; [exact Sw|]. split; [exact R'|lia].
Qed.

Lemma round_spec fuel c i tmp total : rehashing c i tmp -> 0 <= i < cap ->
  exists c' i' tmp' total', rehash_loop G mode P (S fuel) c i tmp total = rehash_loop G mode P fuel c' i' tmp' total' /\
    rehashing c' i' tmp' /\ i <= i' <= i + 1 /\ pending (control c') - i' < pending (control c) - i.
Proof.
  intros R Hi. destruct (Z.eq_dec (cbyte (control c) i) kDeleted) as [D|D]; [now apply waiting_round|].
  cbn [rehash_loop]. rewrite (same_capacity _ _ _ R), (proj2 (Z.eqb_neq i cap)) by lia.
  rewrite read_ctrl by (auto; apply R). cbn [obind].
  destruct (IsEmpty (cbyte (control c) i)) eqn:E.
  - exists c, (i + 1), i, total. split; [reflexivity|]. split; [apply (skip_slot c i tmp i R Hi D); auto|lia].
  - unfold IsDeleted. rewrite (proj2 (Z.eqb_neq _ _)) by exact D.
    exists c, (i + 1), tmp, total. split; [reflexivity|]. split; [apply (skip_slot c i tmp tmp R Hi D); auto|lia].
Qed.

(** The loop ends with every element in place. *)
Lemma rehash_loop_spec fuel : forall c i tmp total, rehashing c i tmp -> 0 <= i <= cap ->
  cap - i + pending (control c) <= Z.of_nat fuel ->
  exists c' total' tmp', rehash_loop G mode P fuel c i tmp total = Some (c', total') /\ rehashing c' cap tmp'.
Proof.
  induction fuel as [|fuel IH]; intros c i tmp total R Hi Hf; (destruct (Z.eq_dec i cap) as [->|Ni];
    [exists c, total, tmp; split; [|exact R]; cbn [rehash_loop]; rewrite (same_capacity _ _ _ R), Z.eqb_refl; reflexivity|]).
  - unfold pending in Hf. lia.
  - destruct (round_spec fuel c i tmp total R ltac:(lia)) as (c' & i' & tmp' & total' & -> & R' & Hi' & Hp).
    apply IH; [exact R'|lia|lia].
Qed.

Lemma pending_le ct : pending ct <= cap.
Proof.
  pose proof (cap_range m Hm). unfold pending.
  assert (X : forall l, (length (flat_map deleted_mark l) <= length l)%nat).
  { induction l as [|b l IH]; cbn; [lia|]. rewrite length_app. unfold deleted_mark at 1. destruct (IsDeleted b); cbn; lia. }
  specialize (X (firstn (Z.to_nat cap) ct)). rewrite length_firstn in X. lia.
Qed.
End Loop.

(** ** The beginning and the end of the loop *)
Lemma flat_map_combine {A B C} (f g : A * B -> list C) (d : A) : forall s l l',
  length l = length l' -> (length s <= length l)%nat ->
  (forall n x, nth_error s n = Some x -> f (nth n l d, x) = g (nth n l' d, x)) ->
  flat_map f (combine l s) = flat_map g (combine l' s).
Proof.
  induction s as [|x s IH]; intros [|a l] [|a' l'] HL Hs H; cbn in *; try lia; try reflexivity.
  f_equal; [exact (H 0%nat x eq_refl)|]. apply IH; [lia|lia|]. intros n y E. exact (H (S n) y E).
Qed.

(** Empty slots and elements fill the array when no slot is deleted. *)
Lemma count_slots {V} : forall (s : list (option V)) l, (length s <= length l)%nat ->
  (forall n x, nth_error s n = Some x ->
     (length (empty_mark (nth n l 0%Z)) + length (slot_element (nth n l 0%Z, x)) = 1)%nat) ->
  (length (flat_map empty_mark (firstn (length s) l)) + length (flat_map slot_element (combine l s)) = length s)%nat.
Proof.
  induction s as [|x s IH]; intros [|b l] Hl H; cbn [length firstn combine flat_map] in *; try lia.
  rewrite !length_app. pose proof (H 0%nat x eq_refl) as H0. cbn [nth] in H0.
  specialize (IH l ltac:(lia) (fun n y E => H (S n) y E)). lia.
Qed.

Lemma empties_front l n k : (n <= k <= length l)%nat -> (forall q, (n <= q < k)%nat -> IsEmpty (nth q l 0) = false) ->
  flat_map empty_mark (firstn k l) = flat_map empty_mark (firstn n l).
Proof.
  revert n k. induction l as [|b l IH]; intros n k Hk H; [cbn in Hk; now replace k with n by lia|].
  destruct k as [|k]; [now replace n with 0%nat by lia|]. destruct n as [|n].
  - cbn [firstn flat_map]. pose proof (H 0%nat ltac:(lia)) as H0. cbn [nth] in H0. unfold empty_mark at 1. rewrite H0. cbn [app].
    apply (IH 0%nat k); [cbn in Hk; lia|]. intros q Hq. exact (H (S q) ltac:(lia)).
  - cbn [firstn flat_map]. f_equal. apply IH; [cbn in Hk; lia|]. intros q Hq. exact (H (S q) ltac:(lia)).
Qed.

Section Ends.
Context {V K : Type} (G : GroupOps) {L : GroupLaws G} (host : endian) (mode : StorageMode) (P : Policy V K)
  {PL : PolicyLaws P} (w m : Z) (HW : Z.of_nat (gWidth G) = 2 ^ w) (Hw : w = 3 \/ w = 4) (Wm : w <= m)
  (c : CommonFields V) (I : table_inv G host mode P m c).
Abbreviation W := (Z.of_nat (gWidth G)).
Abbreviation cap := (2 ^ m - 1).

(** Re-marking and blocking the control bytes starts the loop. *)
Lemma rehash_begins : exists c1,
  (do ctrl <- ConvertDeletedToEmptyAndFullToDeleted G (control c) (capacity mode c);
   BlockControlBytes G mode (with_control c ctrl) (Z.to_nat (blocked_element_count c))) = Some c1 /\
  rehashing G mode P m c c1 0 kUnknownId.
Proof.
  pose proof (i_ok _ _ _ _ _ _ I) as T. pose proof (t_m55 _ _ _ _ _ T) as Hm. pose proof (t_ctrl _ _ _ _ _ T) as Hc.
  pose proof (cap_range m Hm) as Hcap. pose proof (slots_in_cap G mode P m c T) as Hl. pose proof (t_slots _ _ _ _ _ T) as Hs.
  rewrite (t_cap _ _ _ _ _ T). destruct (Convert_spec G w m HW Hw Hm Wm (control c) Hc) as (c1 & -> & Ok1 & B1). cbn [obind].
  destruct (BlockControlBytes_spec G mode w m HW Hw Hm (Z.to_nat (blocked_element_count c)) (with_control c c1) (t_cap _ _ _ _ _ T) Ok1)
    as (c2 & -> & Ok2 & B2); [lia|]. eexists. split; [reflexivity|]. cbn [with_control control] in B2.
  assert (B : forall q, 0 <= q < cap -> cbyte c2 q =
            if q <? Z.of_nat (length (slot_array c)) then remark (cbyte (control c) q) else kSentinel).
  { intros q Hq. rewrite B2, B1 by exact Hq. replace (cap - Z.of_nat (Z.to_nat (blocked_element_count c)))
      with (Z.of_nat (length (slot_array c))) by lia. reflexivity. }
  constructor; cbn [with_control inline_data_ control slot_array growth_mem]; auto.
  - intros q Hq. rewrite B by exact Hq. destruct (q <? _) eqn:E; zbool; [|split; auto].
    split; [unfold remark; case_if; discriminate|lia].
  - intros q Hq. rewrite B by exact Hq. unfold remark. repeat case_if; discriminate.
  - intros q Hq D. split; [lia|]. rewrite B in D by exact Hq. destruct (q <? _) eqn:E; [|discriminate].
    unfold remark in D. destruct (IsFull (cbyte (control c) q)) eqn:F; [|discriminate].
    destruct (t_full _ _ _ _ _ T q Hq F) as (v & Rv & _). eauto.
  - unfold live, elements. cbn [with_control control slot_array].
    rewrite (flat_map_combine live_slot slot_element 0 (slot_array c) c2 (control c)); [reflexivity| | |].
    + pose proof (ctrl_len _ _ _ Ok2). pose proof (ctrl_len _ _ _ Hc). lia.
    + pose proof (ctrl_len _ _ _ Ok2). lia.
    + intros n x En. assert (n < length (slot_array c))%nat by (apply nth_error_Some; congruence).
      pose proof (B (Z.of_nat n) ltac:(lia)) as Bn. unfold cbyte in Bn. rewrite Nat2Z.id in Bn. rewrite Bn. decide_cmp.
      destruct x as [v|]; [|reflexivity]. cbn [live_slot slot_element]. unfold remark. destruct (IsFull (nth n (control c) 0)); reflexivity.
  - destruct (inv_stops G host mode P w m HW Hw c I) as [|Ep]; [lia|].
    apply (empties_pos G m (control c) Hm Hc) in Ep as (q & Hq & Eq). exists q. split; [exact Hq|]. rewrite B by exact Hq.
    destruct (q <? _) eqn:E; zbool.
    + unfold remark. replace (IsFull (cbyte (control c) q)) with false; [reflexivity|].
      unfold IsEmpty, kEmpty in Eq. zbool. rewrite Eq. reflexivity.
    + apply (t_blocked _ _ _ _ _ T q Hq) in E. rewrite E in Eq. discriminate.
  - left. split; [reflexivity|]. intros q Hq. lia.
Qed.

Lemma rehash_ends c1 tmp : rehashing G mode P m c c1 cap tmp ->
  table_ok G mode P m c1 /\ (forall q, 0 <= q < cap -> cbyte (control c1) q <> kDeleted) /\
  Permutation (elements c1) (elements c) /\
  empties m (control c1) = Z.of_nat (length (slot_array c)) - Z.of_nat (length (elements c)).
Proof.
  intros R. pose proof (i_ok _ _ _ _ _ _ I) as T. pose proof (t_m55 _ _ _ _ _ T) as Hm. pose proof (g_ctrl _ _ _ _ _ _ _ _ R) as Hc.
  pose proof (slots_in_cap G mode P m c T) as Hl. pose proof (g_len _ _ _ _ _ _ _ _ R) as Len.
  pose proof (ctrl_len _ _ _ Hc) as HL. pose proof (width_cases W w HW Hw) as HWc.
  assert (ND : forall q, 0 <= q < cap -> cbyte (control c1) q <> kDeleted).
  { intros q Hq D. destruct (g_pending _ _ _ _ _ _ _ _ R q Hq D). lia. }
  assert (Byte : forall n, (n < length (slot_array c1))%nat -> nth n (control c1) 0 = cbyte (control c1) (Z.of_nat n))
    by (intros n Hn; unfold cbyte; now rewrite Nat2Z.id).
  assert (EL : live c1 = elements c1).
  { apply (flat_map_combine live_slot slot_element 0); [reflexivity|lia|]. intros n x En.
    assert (Hn : (n < length (slot_array c1))%nat) by (apply nth_error_Some; congruence).
    rewrite Byte by exact Hn. destruct x as [v|]; [|reflexivity]. cbn [live_slot slot_element]. unfold IsDeleted.
    rewrite (proj2 (Z.eqb_neq _ _)), orb_false_r by (apply ND; lia). reflexivity. }
  assert (Perm : Permutation (elements c1) (elements c)) by (rewrite <- EL; apply R).
  assert (Sd : forall v, key_hash mode P c1 v = key_hash mode P c v)
    by (intros v; unfold key_hash, seed; now rewrite (g_inline _ _ _ _ _ _ _ _ R)).
  split; [|split; [exact ND|split; [exact Perm|]]].
  - constructor.
    + apply T.
    + unfold capacity. rewrite (g_inline _ _ _ _ _ _ _ _ R). apply T.
    + rewrite (g_inline _ _ _ _ _ _ _ _ R). apply T.
    + exact Hc.
    + unfold blocked_element_count. rewrite Len, (g_inline _ _ _ _ _ _ _ _ R). apply T.
    + rewrite Len. apply R.
    + intros q Hq F. destruct (g_full _ _ _ _ _ _ _ _ R q Hq F) as (v & E1 & E2 & E3). exists v. rewrite Sd.
      split; [exact E1|]. split; [exact E2|]. exact (path_reach G m IsEmptyOrDeleted _ _ _ empty_is_free E3).
    + exact (distinct_perm P _ _ (Permutation_sym Perm) (t_distinct _ _ _ _ _ T)).
  - rewrite <- (Permutation_length Perm), <- Len. unfold empties, elements.
    pose proof (count_slots (slot_array c1) (control c1) ltac:(lia)) as Cnt.
    assert (Rest : flat_map empty_mark (firstn (Z.to_nat cap) (control c1)) =
                   flat_map empty_mark (firstn (length (slot_array c1)) (control c1))).
    { apply empties_front; [lia|]. intros q Hq. replace (nth q (control c1) 0) with (cbyte (control c1) (Z.of_nat q))
        by (unfold cbyte; now rewrite Nat2Z.id).
      rewrite (proj2 (g_blocked _ _ _ _ _ _ _ _ R (Z.of_nat q) ltac:(lia)) ltac:(lia)). reflexivity. }
    rewrite Rest. rewrite <- Cnt at 2; [lia|]. intros n x En.
    assert (Hn : (n < length (slot_array c1))%nat) by (apply nth_error_Some; congruence).
    rewrite Byte by exact Hn. set (q := Z.of_nat n) in *. assert (Hq : 0 <= q < cap) by lia.
    assert (Val : valid_ctrl (cbyte (control c1) q)) by (eapply cbyte_valid; eauto; lia).
    destruct Val as [F|[E|[E|E]]].
    + assert (Fq : IsFull (cbyte (control c1) q) = true) by (unfold IsFull; rewrite Z.geb_leb; apply Z.leb_le; lia).
      destruct (g_full _ _ _ _ _ _ _ _ R q Hq Fq) as (v & Rv & _).
      rewrite read_slot_nth in Rv by lia. unfold q in Rv. rewrite Nat2Z.id, (nth_error_nth _ _ _ En) in Rv. subst x.
      cbn [slot_element]. rewrite Fq. unfold empty_mark, IsEmpty, kEmpty. rewrite (proj2 (Z.eqb_neq _ _)) by lia. reflexivity.
    + rewrite E. now destruct x.
    + now apply ND in E.
    + apply (g_blocked _ _ _ _ _ _ _ _ R q Hq) in E. lia.
Qed.

(** A table that is rehashed has room for one more element. *)
Lemma rehash_room : W < cap ->
  (size mode c *[64] 32 <=? (cap -[64] kMaxBlockedElementsForLargeTables) *[64] 25) = true ->
  size mode c + 1 + blocked_element_count c <= CapacityToGrowth W cap.
Proof.
  intros Wc E. pose proof (i_ok _ _ _ _ _ _ I) as T. pose proof (t_m55 _ _ _ _ _ T) as Hm. pose proof (cap_range m Hm) as Hcap.
  pose proof (i_blocked _ _ _ _ _ _ I Wc) as Hb. pose proof (slots_in_cap G mode P m c T) as Hl.
  pose proof (elements_le_slots c) as He. pose proof (i_size _ _ _ _ _ _ I) as Hs. pose proof (width_cases W w HW Hw) as HWc.
  unfold kMaxBlockedElementsForLargeTables in *. change (2 ^ 55) with 36028797018963968 in Hcap.
  assert (Hm' : w + 1 <= m).
  { destruct (Z.lt_ge_cases w m) as [|C]; [lia|exfalso]. assert (2 ^ m <= 2 ^ w) by (apply Z.pow_le_mono_r; lia). lia. }
  assert (M16 : 2 * W <= 2 ^ m).
  { pose proof (Z.pow_le_mono_r 2 (w + 1) m ltac:(lia) ltac:(lia)) as X. rewrite Z.pow_add_r in X by lia. change (2 ^ 1) with 2 in X. lia. }
  rewrite (wrapu_small 64 (cap - 5)), !wrapu_small in E by (change (2 ^ 64) with 18446744073709551616; lia). zbool.
  rewrite (CapacityToGrowth_val W w HW Hw m) by lia. rewrite (proj2 (Z.ltb_ge m w)) by lia.
  destruct (m <=? w + 2) eqn:E2; zbool; [lia|].
  assert (M3 : 2 ^ m = 8 * 2 ^ (m - 3)) by (change 8 with (2 ^ 3); rewrite <- Z.pow_add_r by lia; f_equal; lia).
  assert (2 ^ 3 <= 2 ^ (m - 3)) by (apply Z.pow_le_mono_r; lia). change (2 ^ 3) with 8 in *. lia.
Qed.

(** The growth left after the loop: the load factor less the elements and the blocked slots. *)
Lemma rehash_growth mem sz : mem_ok mem -> 0 <= sz -> 0 <= blocked_element_count c ->
  sz + blocked_element_count c <= CapacityToGrowth W cap ->
  let mem' := ResetGrowthLeft G host mem cap (sz +[64] blocked_element_count c) in
  mem_ok mem' /\ growth_abs host mem' cap = (CapacityToGrowth W cap - (sz + blocked_element_count c), false).
Proof.
  intros Hmem H0 Hb Fits. pose proof (t_m55 _ _ _ _ _ (i_ok _ _ _ _ _ _ I)) as Hm. pose proof (cap_range m Hm) as Hcap.
  pose proof (growth_bounds W w m HW Hw Hm) as (GB & _ & _ & GB4). change (2 ^ 55) with 36028797018963968 in Hcap.
  unfold ResetGrowthLeft. rewrite !wrapu_small by (rewrite ?wrapu_small; change (2 ^ 64) with 18446744073709551616; lia).
  apply Init_abs; [exact Hmem|change (2 ^ 56) with 72057594037927936; lia|lia].
Qed.

(** The new element goes into the rehashed table. *)
Lemma insert_rehashed c2 tmp v : rehashing G mode P m c c2 cap tmp ->
  size mode c + 1 + blocked_element_count c <= CapacityToGrowth W cap -> W < cap ->
  Forall (fun v' => equal_to P (key_of P v) (key_of P v') = false) (elements c) ->
  let h := key_hash mode P c v in
  let c3 := PrepareInsertCommon mode c2 in
  let c4 := with_growth c3 (ResetGrowthLeft G host (growth_mem c3) cap (size mode c3 +[64] blocked_element_count c)) in
  exists t c5 c', find_first_non_full G mode c4 h = Some t /\ SetCtrlInLargeTable G mode c4 (fi_offset t) (H2 h) = Some c5 /\
    construct c5 (fi_offset t) v = Some c' /\
    table_inv G host mode P m c' /\ Permutation (elements c') (v :: elements c) /\ stored m c' (fi_offset t) v.
Proof.
  intros R Fits Wc Absent h c3 c4. pose proof (i_ok _ _ _ _ _ _ I) as T. pose proof (t_m55 _ _ _ _ _ T) as Hm.
  pose proof (t_slots _ _ _ _ _ T) as Hs. pose proof (i_size _ _ _ _ _ _ I) as Sz.
  pose proof (growth_bounds W w m HW Hw Hm) as (GB & _). pose proof (g_inline _ _ _ _ _ _ _ _ R) as In2.
  destruct (rehash_ends c2 tmp R) as (T2 & ND & Perm & Em). pose proof (t_ctrl _ _ _ _ _ T2) as Hc2.
  assert (Eh : key_hash mode P c2 v = h) by (unfold h, key_hash, seed; now rewrite In2).
  assert (Sz2 : size mode c2 = size mode c) by (unfold size; now rewrite In2).
  assert (Bl : 0 <= blocked_element_count c) by (apply Z.shiftr_nonneg, Z.land_nonneg; right; discriminate).
  destruct (find_first_non_full_spec G w m HW Hw Hm (control c2) Hc2 h) as (t & Ft & Rt & Et & Reach).
  { destruct (g_empty _ _ _ _ _ _ _ _ R) as (q & Hq & Eq). exists q. split; [exact Hq|now apply empty_is_free]. }
  assert (Pw : 2 ^ m <= 2 ^ (data_bits mode - 9)) by (apply Z.pow_le_mono_r; pose proof (t_m _ _ _ _ _ T); lia).
  destruct (increment_same mode c2 (t_data _ _ _ _ _ T2) c3 eq_refl ltac:(lia)) as [_ Sz3].
  destruct (rehash_growth (growth_mem c3) (size mode c3)) as [Mem Gr]; [|lia|exact Bl|lia|].
  { change (growth_mem c3) with (growth_mem c2). rewrite (g_growth _ _ _ _ _ _ _ _ R). apply I. }
  pose proof (free_slot_exists G mode P m c2 T2 _ Rt Et) as Hts.
  eexists t, _, _. split; [|split; [|split]].
  - unfold find_first_non_full. change (control c4) with (control c2).
    change (capacity mode c4) with (capacity mode c2). rewrite (t_cap _ _ _ _ _ T2). exact Ft.
  - exact (SetCtrlInLargeTable_some G mode w m HW Hw Hm c4 (t_cap _ _ _ _ _ T2) Hc2 _ _ Rt Wm).
  - unfold construct. cbn [with_control slot_array]. change (slot_array c4) with (slot_array c2).
    rewrite write_some by exact Hts. reflexivity.
  - set (c' := with_slots _ _).
    assert (E1 : control c' = set_ctrl G m (control c2) (fi_offset t) (H2 (key_hash mode P c2 v))) by now rewrite Eh.
    destruct (fill_elements G mode P w m HW Hw c2 c' T2 (fi_offset t) v Rt Et E1 eq_refl) as [EP EE].
    assert (Perm' : Permutation (elements c') (v :: elements c)) by (rewrite EP; now constructor).
    destruct (increment_same mode c2 (t_data _ _ _ _ _ T2) c' eq_refl ltac:(lia)) as [Same Sz'].
    assert (Emp : IsEmpty (cbyte (control c2) (fi_offset t)) = true).
    { destruct (free_cases _ Et) as (_ & _ & C). destruct C as [C|C]; [|rewrite C; reflexivity|now apply ND in C].
      eapply cbyte_valid; eauto. lia. }
    split; [|split; [exact Perm'|exact (fill_stored G mode P w m HW Hw c2 c' T2 (fi_offset t) v Rt Et E1 eq_refl)]].
    change (growth_mem c') with (ResetGrowthLeft G host (growth_mem c3) cap (size mode c3 +[64] blocked_element_count c)).
    constructor; try change (growth_mem c') with (ResetGrowthLeft G host (growth_mem c3) cap (size mode c3 +[64] blocked_element_count c)).
    + apply (fill_ok G mode P w m HW Hw c2 c' T2 (fi_offset t) v Rt Et E1 eq_refl Same); [now rewrite Eh|].
      apply (distinct_perm P (v :: elements c)); [constructor; now symmetry|]. apply distinct_cons. split; [exact Absent|apply T].
    + rewrite Sz', Sz2, (Permutation_length Perm'). cbn [length]. lia.
    + exact Mem.
    + rewrite Gr, EE, Emp, Em. cbn [fst b2z]. lia.
    + intros _ x Hx. rewrite (fill_byte G mode P w m HW Hw c2 c' T2 (fi_offset t) v Rt E1) by lia.
      case_if; [apply full_marks, hash_range|now apply ND].
    + rewrite Gr. discriminate.
    + intros _. rewrite (same_blocked _ _ _ Same). unfold blocked_element_count at 1. rewrite In2. apply I. exact Wc.
Qed.

(** Rehashing in place returns, keeps the elements, and leaves a slot for the new one. *)
Lemma DropDeletes_spec v : W < cap ->
  (size mode c *[64] 32 <=? (cap -[64] kMaxBlockedElementsForLargeTables) *[64] 25) = true ->
  Forall (fun v' => equal_to P (key_of P v) (key_of P v') = false) (elements c) ->
  exists c2 q c', DropDeletesWithoutResizeAndPrepareInsert G host mode P c (key_hash mode P c v) = Some (c2, q) /\
    construct c2 q v = Some c' /\ table_inv G host mode P m c' /\ Permutation (elements c') (v :: elements c) /\ stored m c' q v.
Proof.
  intros Wc Room Absent. pose proof (rehash_room Wc Room) as Fits.
  pose proof (i_ok _ _ _ _ _ _ I) as T. pose proof (t_m55 _ _ _ _ _ T) as Hm. pose proof (cap_range m Hm) as Hcap.
  unfold DropDeletesWithoutResizeAndPrepareInsert. destruct rehash_begins as (c1 & Begin & R1).
  destruct (ConvertDeletedToEmptyAndFullToDeleted G (control c) (capacity mode c)) as [ct|]; [|discriminate]. cbn [obind] in *.
  rewrite Begin. cbn [obind]. rewrite (t_cap _ _ _ _ _ T).
  destruct (rehash_loop_spec G mode P w m HW Hw Hm Wm c (t_cap _ _ _ _ _ T) (slots_in_cap G mode P m c T)
              (Z.to_nat (2 * cap)) c1 0 kUnknownId 0 R1) as (c2 & total & tmp & -> & R2).
  { lia. }
  { assert (pending m (control c1) <= cap) by (eapply pending_le; eauto). lia. }
  cbn [obind]. destruct (insert_rehashed c2 tmp v R2 Fits Wc Absent) as (t & c5 & c' & -> & E5 & Ec & Post). cbn [obind].
  rewrite E5. cbn [obind]. exists c5, (fi_offset t), c'. auto.
Qed.
End Ends.
