(* ===== verification/TableInsert.v ===== *)
(** Insertion: the slot is taken in place, after rehashing in place when deleted slots use up the
    growth, or the table asks for the next larger array. *)
From Stdlib Require Import ZArith Lia List Bool Permutation.
From S2P Require Import Prelude.
From S2P Require Import Bits.
From S2P Require Import Endian.
From S2P Require Import ControlBytes.
From S2P Require Import SwissTable.
From S2P Require Import RawTable.
From S2P Require Import TableSpec.
From S2P Require Import TableOps.
From S2P Require Import TableRehash.
Import ListNotations.
#[local] Open Scope Z_scope.
#[local] Open Scope mach_scope.

Section Emplace.
Context {V K : Type} (G : GroupOps) {L : GroupLaws G} (host : endian) (mode : StorageMode) (P : Policy V K)
  {PL : PolicyLaws P} (w m : Z) (HW : Z.of_nat (gWidth G) = 2 ^ w) (Hw : w = 3 \/ w = 4)
  (c : CommonFields V) (I : table_inv G host mode P m c).
Abbreviation W := (Z.of_nat (gWidth G)).
Abbreviation cap := (2 ^ m - 1).
Abbreviation growth mem := (growth_abs host mem cap).

(** What [emplace] may answer for a value. *)
Definition emplace_post (v : V) (r : Emplaced V) : Prop :=
  let absent := Forall (fun v' => equal_to P (key_of P v) (key_of P v') = false) (elements c) in
  match r with
  | Found off => exists v', stored m c off v' /\ equal_to P (key_of P v) (key_of P v') = true
  | Inserted c' off =>
      absent /\ table_inv G host mode P m c' /\ Permutation (elements c') (v :: elements c) /\ stored m c' off v /\
      fst (growth (growth_mem c)) - 1 <= fst (growth (growth_mem c'))
  | Reallocates (InsertAt _ _) => False
  | Reallocates (GrowToNextCapacityAndPrepareInsert c' hash) =>
      absent /\ fst (growth (growth_mem c)) = 0 /\
      (snd (growth (growth_mem c)) = false \/ 25 * (cap - kMaxBlockedElementsForLargeTables) < 32 * size mode c) /\
      table_inv G host mode P m c' /\ elements c' = elements c /\ hash = key_hash mode P c v
  end.

Definition finish (v : V) (p : Prepared V) : option (Emplaced V) :=
  match p with
  | InsertAt c slot => do c <- construct c slot v; Some (Inserted c slot)
  | p => Some (Reallocates p)
  end.

Section Key.
Context (v : V) (Absent : Forall (fun v' => equal_to P (key_of P v) (key_of P v') = false) (elements c)).
Abbreviation h := (key_hash mode P c v).

(** Construction in a slot that was marked for the value. *)
Lemma finish_spec t mem' :
  0 <= t < cap -> IsEmptyOrDeleted (cbyte (control c) t) = true -> reach G m (control c) h t ->
  mem_ok mem' ->
  growth mem' = (fst (growth (growth_mem c)) - b2z (IsEmpty (cbyte (control c) t)), snd (growth (growth_mem c))) ->
  exists r, finish v (InsertAt (mk_Common (HashtableInlineData.increment_size mode (inline_data_ c))
                       (set_ctrl G m (control c) t (H2 h)) (slot_array c) mem') t) = Some r /\ emplace_post v r.
Proof.
  intros Ht Ft Rt Hmem Eg. pose proof (i_ok _ _ _ _ _ _ I) as T.
  pose proof (free_slot_exists G mode P m c T t Ht Ft) as Hts.
  cbn [finish]. unfold construct. cbn [slot_array]. rewrite write_some by exact Hts. cbn [obind].
  eexists. split; [reflexivity|]. cbn [emplace_post]. split; [exact Absent|].
  destruct (fill_inv G host mode P w m HW Hw c I _ v t mem' Ht Ft Rt ltac:(apply distinct_cons; split; [exact Absent|apply T]) eq_refl Hmem Eg)
    as (F1 & F2 & F3). split; [exact F1|]. split; [exact F2|]. split; [exact F3|].
  change (growth_mem (with_slots _ _)) with mem'. rewrite Eg. cbn [fst]. destruct (IsEmpty _); cbn [b2z]; lia.
Qed.

(** The slow path finds room only in tables of at least a group: a smaller one has no deleted
    slots and all of its growth left in the low byte. *)
Lemma slow_room_large :
  GrowthInfoLowerBound.HasNoDeletedAndGrowthLeft (GrowthInfo.GetGrowthInfoLowerBound (growth_mem c)) = false ->
  GrowthInfoLowerBound.HasNoGrowthLeftAndNoDeleted
    (fst (GrowthInfo.RebalanceGrowthLeftLowerBound host (growth_mem c) cap)) = false -> w <= m.
Proof.
  intros Slow E1. pose proof (t_m55 _ _ _ _ _ (i_ok _ _ _ _ _ _ I)) as Hm.
  destruct (cap_width W w m HW Hw Hm) as [[C1 C2]|[]]; [exfalso|assumption].
  pose proof (width_cases W w HW Hw).
  pose proof (lower_bound_cases host (growth_mem c) cap (i_mem _ _ _ _ _ _ I)) as (R1 & _ & R3 & _).
  assert (Ed : snd (growth (growth_mem c)) = false).
  { destruct (snd (growth (growth_mem c))) eqn:Ed; [|reflexivity]. pose proof (i_single _ _ _ _ _ _ I Ed). lia. }
  unfold GrowthInfo.RebalanceGrowthLeftLowerBound, kMaxGrowthLeftLowerBound in E1.
  rewrite (proj2 (Z.leb_le _ _)) in E1 by lia. cbn [orb fst] in E1.
  pose proof (forallb_below_spec 256 (fun b => (128 <=? b) || (b =? 0) || GrowthInfoLowerBound.HasNoDeletedAndGrowthLeft b)
    ltac:(vm_compute; reflexivity) _ R1) as B. cbv beta in B.
  rewrite Slow, orb_false_r, <- R3, Ed in B. cbn [orb] in B.
  unfold GrowthInfoLowerBound.HasNoGrowthLeftAndNoDeleted in E1. congruence.
Qed.

(** With room left the slow path fills the first free slot. *)
Lemma slow_fill mem' : w <= m -> mem_ok mem' -> growth mem' = growth (growth_mem c) ->
  0 < GrowthInfo.GetGrowthLeftLowerBound mem' ->
  exists p, (do target <- find_first_non_full G mode (with_growth c mem') h;
             let c := PrepareInsertCommon mode (with_growth c mem') in
             do b <- read (control c) (fi_offset target);
             let c := with_growth c (GrowthInfo.OverwriteControlAsFull (growth_mem c) b) in
             do c <- SetCtrlInLargeTable G mode c (fi_offset target) (H2 h);
             Some (InsertAt c (fi_offset target))) = Some p /\
    exists r, finish v p = Some r /\ emplace_post v r.
Proof.
  intros Wm Hmem Eg Gp. pose proof (i_ok _ _ _ _ _ _ I) as T. pose proof (t_m55 _ _ _ _ _ T) as Hm.
  pose proof (t_ctrl _ _ _ _ _ T) as Hc. pose proof (lower_bound_cases host mem' cap Hmem) as (_ & R2 & _ & R4).
  rewrite Eg in R4. destruct (growth_left_empties G host mode P w m HW Hw c I ltac:(lia)) as (q & Hq & Eq).
  destruct (find_first_non_full_spec G w m HW Hw Hm (control c) Hc h) as (t & Ft & Rt & Et & Reach).
  { exists q. split; [exact Hq|now apply empty_is_free]. }
  unfold find_first_non_full. change (control (with_growth c mem')) with (control c).
  change (capacity mode (with_growth c mem')) with (capacity mode c). rewrite (t_cap _ _ _ _ _ T).
  unfold H1. rewrite Ft. cbn [obind]. cbv zeta. set (c1 := PrepareInsertCommon mode (with_growth c mem')).
  change (control c1) with (control c).
  rewrite (read_some _ _ 0) by (pose proof (ctrl_len _ _ _ Hc); lia). cbn [obind].
  change (nth _ (control c) 0) with (cbyte (control c) (fi_offset t)).
  rewrite (SetCtrlInLargeTable_some G mode w m HW Hw Hm) by (auto; apply (t_cap _ _ _ _ _ T)). cbn [obind].
  eexists. split; [reflexivity|].
  pose proof (byte_ops_abs host mem' cap Hmem) as B. rewrite Eg in B.
  destruct (growth (growth_mem c)) as [g d] eqn:Egd. destruct B as (_ & _ & B3 & _ & _ & B6).
  apply finish_spec; auto; [apply B6|]. rewrite Egd. cbn [fst snd]. apply B3.
  destruct (IsEmpty (cbyte (control c) (fi_offset t))); cbn [b2z]; lia.
Qed.

(** Without growth left and with deleted slots the table is rehashed in place, or grows. *)
Lemma rehash_or_grow mem' : mem_ok mem' -> growth mem' = growth (growth_mem c) -> fst (growth (growth_mem c)) = 0 ->
  snd (growth (growth_mem c)) = true ->
  exists p, RehashOrGrowToNextCapacityAndPrepareInsert G host mode P (with_growth c mem') h = Some p /\
    exists r, finish v p = Some r /\ emplace_post v r.
Proof.
  intros Hmem Eg Z0 Del. pose proof (rebalanced_inv G host mode P m c I mem' Hmem Eg) as I'.
  pose proof (i_ok _ _ _ _ _ _ I) as T. pose proof (t_m55 _ _ _ _ _ T) as Hm.
  assert (Wm : w < m).
  { pose proof (i_single _ _ _ _ _ _ I Del). destruct (Z.lt_ge_cases w m) as [|C]; [assumption|exfalso].
    assert (2 ^ m <= 2 ^ w) by (apply Z.pow_le_mono_r; lia). lia. }
  assert (Wc : W < cap).
  { assert (2 ^ (w + 1) <= 2 ^ m) by (apply Z.pow_le_mono_r; lia). rewrite Z.pow_add_r in * by lia. change (2 ^ 1) with 2 in *.
    pose proof (width_cases W w HW Hw). lia. }
  unfold RehashOrGrowToNextCapacityAndPrepareInsert.
  change (capacity mode (with_growth c mem')) with (capacity mode c). rewrite (t_cap _ _ _ _ _ T).
  destruct (_ <=? _) eqn:Room.
  - destruct (DropDeletes_spec G host mode P w m HW Hw ltac:(lia) (with_growth c mem') I' v Wc Room Absent)
      as (c2 & q & c' & E & Ec & I2 & Perm & St).
    change (key_hash mode P (with_growth c mem') v) with h in E. rewrite E. cbn [obind].
    eexists. split; [reflexivity|]. cbn [finish]. rewrite Ec. cbn [obind]. eexists. split; [reflexivity|]. cbn [emplace_post].
    split; [exact Absent|]. split; [exact I2|]. split; [exact Perm|]. split; [exact St|].
    pose proof (lower_bound_cases host (growth_mem c') cap (i_mem _ _ _ _ _ _ I2)) as (R & _ & _ & F).
    pose proof (Z.mod_pos_bound (GrowthInfo.GetGrowthInfoLowerBound (growth_mem c')) 128 ltac:(lia)). lia.
  - eexists. split; [reflexivity|]. eexists. split; [reflexivity|]. cbn [emplace_post].
    split; [exact Absent|]. split; [exact Z0|]. split; [right|auto].
    change (size mode (with_growth c mem')) with (size mode c) in Room. pose proof (cap_range m Hm) as Hcap.
    pose proof (i_size _ _ _ _ _ _ I). pose proof (elements_le_slots c). pose proof (slots_in_cap G mode P m c T).
    pose proof (width_cases W w HW Hw). unfold kMaxBlockedElementsForLargeTables in *. change (2 ^ 55) with 36028797018963968 in Hcap.
    rewrite (wrapu_small 64 (cap - 5)), !wrapu_small in Room by (change (2 ^ 64) with 18446744073709551616; lia). zbool. lia.
Qed.

Lemma slow_spec : GrowthInfoLowerBound.HasNoDeletedAndGrowthLeft (GrowthInfo.GetGrowthInfoLowerBound (growth_mem c)) = false ->
  exists p, PrepareInsertLargeSlow G host mode P c h = Some p /\ exists r, finish v p = Some r /\ emplace_post v r.
Proof.
  intros Slow. pose proof (slow_room_large Slow) as Wm.
  unfold PrepareInsertLargeSlow. rewrite (t_cap _ _ _ _ _ (i_ok _ _ _ _ _ _ I)).
  pose proof (Rebalance_abs host (growth_mem c) cap (i_mem _ _ _ _ _ _ I)) as R.
  destruct (GrowthInfo.RebalanceGrowthLeftLowerBound host (growth_mem c) cap) as [lb mem'].
  destruct R as (Hmem & Eg & Elb & Hpos). cbn [fst] in Wm. cbv zeta.
  pose proof (rebalanced_inv G host mode P m c I mem' Hmem Eg) as I'.
  pose proof (lower_bound_cases host mem' cap Hmem) as (R1 & R2 & _ & R4).
  pose proof (Z.mod_pos_bound (GrowthInfo.GetGrowthInfoLowerBound mem') 128 ltac:(lia)) as Rm. rewrite Eg in R4.
  assert (Zero : GrowthInfo.GetGrowthInfoLowerBound mem' mod 128 = 0 -> fst (growth (growth_mem c)) = 0).
  { intros Ez. unfold GrowthInfo.GetGrowthLeftLowerBound in R2. rewrite <- Elb in R2, Ez. lia. }
  rewrite Elb in *.
  destruct (GrowthInfoLowerBound.HasNoGrowthLeftAndNoDeleted _) eqn:E1.
  - eexists. split; [reflexivity|]. eexists. split; [reflexivity|]. cbn [emplace_post].
    unfold GrowthInfoLowerBound.HasNoGrowthLeftAndNoDeleted in E1. zbool.
    split; [exact Absent|]. split; [apply Zero; now rewrite E1|]. split; [left|auto].
    rewrite <- Eg. destruct (lower_bound_cases host mem' cap Hmem) as (_ & _ & -> & _). rewrite E1. reflexivity.
  - destruct (GrowthInfoLowerBound.HasNoGrowthLeftAndHaveDeleted _) eqn:E2.
    + apply rehash_or_grow; auto.
      * apply Zero. unfold GrowthInfoLowerBound.HasNoGrowthLeftAndHaveDeleted in E2. zbool. now rewrite E2.
      * unfold GrowthInfoLowerBound.HasNoGrowthLeftAndHaveDeleted in E2. zbool. rewrite <- Eg.
        destruct (lower_bound_cases host mem' cap Hmem) as (_ & _ & -> & _). rewrite E2. reflexivity.
    + apply slow_fill; auto. now apply (slow_path_growth host mem' cap).
Qed.

(** The slot is taken at the first empty byte of the window where the search ended, or the slow
    path decides. *)
Lemma prepare_spec i mask :
  mask = enc (2 ^ gShift G) (map IsEmpty (win G (control c) (offset_ (probe_at W m h i)))) ->
  win_has G m IsEmpty (control c) (offset_ (probe_at W m h i)) ->
  (forall i', (i' < i)%nat -> ~ win_has G m IsEmpty (control c) (offset_ (probe_at W m h i'))) ->
  forall len, exists p, PrepareInsertLarge G host mode P c h mask (mk_FindInfo (offset_ (probe_at W m h i)) len) = Some p /\
    exists r, finish v p = Some r /\ emplace_post v r.
Proof.
  intros Emask He Hn len. pose proof (i_ok _ _ _ _ _ _ I) as T. pose proof (t_m55 _ _ _ _ _ T) as Hm.
  pose proof (t_ctrl _ _ _ _ _ T) as Hc. unfold PrepareInsertLarge.
  destruct (GrowthInfoLowerBound.HasNoDeletedAndGrowthLeft _) eqn:Fast; cbn [negb]; [|now apply slow_spec].
  destruct (fast_path_growth host _ cap (i_mem _ _ _ _ _ _ I) Fast) as [Nd Gp].
  pose proof (byte_ops_abs host _ cap (i_mem _ _ _ _ _ _ I)) as B.
  pose proof (lower_bound_cases host (growth_mem c) cap (i_mem _ _ _ _ _ _ I)) as (_ & LB & _ & F).
  destruct (growth_left_empties G host mode P w m HW Hw c I ltac:(lia)) as (q & Hq & Eq).
  cbv zeta. cbn [fi_offset]. set (c1 := with_growth _ _).
  change (capacity mode c1) with (capacity mode c). rewrite (t_cap _ _ _ _ _ T).
  replace ((offset_ (probe_at W m h i) +[64] NonIterableBitMask.LowestBitSet (gBits G) (gShift G) mask) .& cap)
    with (offset (probe_at W m h i) (NonIterableBitMask.LowestBitSet (gBits G) (gShift G) mask))
    by (unfold offset; now rewrite (proj1 (probe_at_spec W w m h ltac:(lia) i))).
  destruct (first_free_path G w m Hw Hm (control c) Hc h IsEmpty i
              (NonIterableBitMask.LowestBitSet (gBits G) (gShift G) mask)) as (Rt & Et & Reach); auto.
  { exists q. auto. }
  { now apply (window_mask G w m HW Hw Hm (control c) Hc). }
  set (t := offset (probe_at W m h i) _) in *.
  rewrite (SetCtrl_some G mode w m HW Hw Hm c1 (t_cap _ _ _ _ _ T) Hc t _ Rt). cbn [obind].
  eexists. split; [reflexivity|]. destruct (growth (growth_mem c)) as [g d] eqn:Egd.
  destruct B as (_ & B2 & _ & _ & B5 & _).
  apply finish_spec; auto using empty_is_free. rewrite Egd, Et. cbn [fst snd b2z]. now apply B2.
Qed.

End Key.

(** [emplace] always answers, and answers as inserting into a set does. *)
Lemma emplace_spec v : exists r, emplace G host mode P c v = Some r /\ emplace_post v r.
Proof.
  pose proof (i_ok _ _ _ _ _ _ I) as T. pose proof (t_m55 _ _ _ _ _ T) as Hm. pose proof (t_ctrl _ _ _ _ _ T) as Hc.
  destruct (probe_ends G mode P w m HW Hw c T (inv_stops G host mode P w m HW Hw c I) (key_of P v)) as (i & hit & Hi & E & Hn & Hr).
  change (hash_of P (seed mode c) (key_of P v)) with (key_hash mode P c v) in *. set (h := key_hash mode P c v) in *.
  assert (Off : forall k, 0 <= offset_ (probe_at W m h k) <= cap) by (intros; apply (at_offset G w m Hm)).
  set (mask k := gMaskEmpty G (win G (control c) (offset_ (probe_at W m h k)))).
  assert (Mask : forall k, mask k = enc (2 ^ gShift G) (map IsEmpty (win G (control c) (offset_ (probe_at W m h k))))).
  { intros k. apply law_empty, (win_window G w m HW Hw Hm (control c) Hc), Off. }
  assert (MT : forall k, NonIterableBitMask.to_bool (mask k) = true <-> win_has G m IsEmpty (control c) (offset_ (probe_at W m h k))).
  { intros k. apply (window_mask G w m HW Hw Hm (control c) Hc _ _ _ k (Mask k)). }
  set (res := match hit with Some off => inl off
              | None => inr (mask i, mk_FindInfo (offset_ (probe_at W m h i)) (index_ (probe_at W m h i))) end).
  unfold emplace, find_or_prepare_insert_large. rewrite (t_cap _ _ _ _ _ T).
  change (hash_of P (seed mode c) (key_of P v)) with h.
  rewrite (probe_loop_spec G _ i res _ _ Hi).
  2:{ intros i' Hi'. destruct (Hn i' Hi') as [N1 N2]. change (Nat.iter i' _ _) with (probe_at W m h i').
      rewrite (load_win G w m Hw Hm (control c) Hc) by apply Off. cbn [obind]. rewrite N1. cbn [obind]. cbv zeta.
      fold (mask i'). rewrite <- MT in N2. apply not_true_is_false in N2. now rewrite N2. }
  2:{ change (Nat.iter i _ _) with (probe_at W m h i). rewrite (load_win G w m Hw Hm (control c) Hc) by apply Off.
      cbn [obind]. rewrite E. cbn [obind]. cbv zeta. fold (mask i). unfold res.
      destruct Hr as [(off & v' & -> & _)|(-> & He & _)]; [reflexivity|]. rewrite <- MT in He. now rewrite He. }
  cbn [obind]. unfold res. destruct Hr as [(off & v' & -> & Sv & Q)|(-> & He & Absent)].
  { eexists. split; [reflexivity|]. cbn [emplace_post]. eauto. }
  destruct (prepare_spec v Absent i (mask i) (Mask i) He (fun i' Hi' => proj2 (Hn i' Hi')) (index_ (probe_at W m h i)))
    as (p & Ep & r & Fp & Post). fold h in Ep. rewrite Ep. exists r. split; [|exact Post].
  cbn [obind]. destruct p; exact Fp.
Qed.

End Emplace.
