(* ===== verification/HashSet.v ===== *)
(** The Swiss table as a transition system: from an empty table with reserved room, by insertions
    that do not need a larger array (rehashing in place included), erasures, clearing and resizing.
    Its reachable states satisfy the invariant, every operation ends, and the table refines a
    finite set of keys. *)
From Stdlib Require Import ZArith Lia List Bool Permutation.
From S2P Require Import Prelude.
From S2P Require Import Bits.
From S2P Require Import Endian.
From S2P Require Import ControlBytes.
From S2P Require Import SwissTable.
From S2P Require Import RawTable.
From S2P Require Import TableSpec.
From S2P Require Import TableOps.
From S2P Require Import TableResize.
From S2P Require Import TableInsert.
Import ListNotations.
#[local] Open Scope Z_scope.
#[local] Open Scope mach_scope.

Lemma filter_perm {A} (p : A -> bool) l l' : Permutation l l' -> Permutation (filter p l) (filter p l').
Proof.
  induction 1 as [|x l l' _ IH|x y l|]; cbn; auto.
  - destruct (p x); auto.
  - destruct (p x), (p y); auto. apply perm_swap.
  - etransitivity; eauto.
Qed.

(** ** The abstract set *)
Section Spec.
Context {V K : Type} (P : Policy V K).

Inductive op :=
  | Emplace (v : V)
  | Erase (k : K)
  | ClearAll
  | Rehash (m' : Z).

Definition has_key (k : K) (l : list V) : bool := existsb (fun v => equal_to P k (key_of P v)) l.

Definition spec (o : op) (l : list V) : list V :=
  match o with
  | Emplace v => if has_key (key_of P v) l then l else v :: l
  | Erase k => filter (fun v => negb (equal_to P k (key_of P v))) l
  | ClearAll => []
  | Rehash _ => l
  end.

Lemma has_key_false k l : Forall (fun v => equal_to P k (key_of P v) = false) l <-> has_key k l = false.
Proof.
  unfold has_key. induction l as [|v l IH]; cbn; [split; auto|]. rewrite Forall_cons_iff, orb_false_iff, IH. reflexivity.
Qed.

Lemma erase_absent k l : has_key k l = false -> spec (Erase k) l = l.
Proof.
  rewrite <- has_key_false. cbn [spec]. induction 1 as [|v l E _ IH]; cbn; [reflexivity|]. now rewrite E, IH.
Qed.
End Spec.
Arguments op : clear implicits.

(** ** The table *)
Section System.
Context {V K : Type} (G : GroupOps) (host : endian) (mode : StorageMode) (P : Policy V K).
Abbreviation W := (Z.of_nat (gWidth G)).
Abbreviation state := (Z * CommonFields V)%type.   (** a table of [2^m - 1] slots *)

(** Memory handed out by the allocator, and a seed. *)
Record alloc := mk_alloc { a_ctrl : list Z; a_growth : list Z; a_seed : Z }.

Definition alloc_ok (m : Z) (a : alloc) : Prop :=
  Z.of_nat (length (a_ctrl a)) = NumControlBytes W (2 ^ m - 1) /\ mem_ok (a_growth a) /\ 0 <= a_seed a < 256.

Inductive step : state -> op V K -> state -> Prop :=
  | step_inserted m c v c' off : emplace G host mode P c v = Some (Inserted c' off) -> step (m, c) (Emplace v) (m, c')
  | step_found m c v off : emplace G host mode P c v = Some (Found off) -> step (m, c) (Emplace v) (m, c)
  | step_erase m c k c' n : erase_key G host mode P c k = Some (c', n) -> step (m, c) (Erase k) (m, c')
  | step_clear m c c' soo : 2 ^ m - 1 < 128 -> Clear G host mode soo c = Some c' -> step (m, c) ClearAll (m, c')
  | step_rehash m c m' a c' :
      2 <= m' <= data_bits mode - 9 -> m' <= 53 -> size mode c <= CapacityToGrowth W (2 ^ m' - 1) -> alloc_ok m' a ->
      ResizeAllocatedTableWithSeedChange G host mode P c (2 ^ m' - 1) (a_seed a) (a_ctrl a) (a_growth a) = Some c' ->
      step (m, c) (Rehash m') (m', c').

Inductive reachable : state -> Prop :=
  | reach_reserve soo n M infoz a m c :
      2 <= M <= data_bits mode - 9 -> M <= 53 -> 1 < n <= CapacityToGrowth W (2 ^ M - 1) ->
      SizeToCapacity W n = Some (2 ^ m - 1) -> 2 <= m -> alloc_ok m a ->
      ReserveEmptyNonAllocatedTableToFitNewSize G host mode (CreateDefault mode soo) n infoz
        (a_seed a) (a_ctrl a) (a_growth a) = Some c ->
      reachable (m, c)
  | reach_step s o s' : reachable s -> step s o s' -> reachable s'.

Context {L : GroupLaws G} {PL : PolicyLaws P} (w : Z) (HW : Z.of_nat (gWidth G) = 2 ^ w) (Hw : w = 3 \/ w = 4).

Lemma default_ok soo : data_ok mode (inline_data_ (CreateDefault mode soo : CommonFields V)) /\
  size mode (CreateDefault mode soo : CommonFields V) = 0 /\ blocked_element_count (CreateDefault mode soo : CommonFields V) = 0.
Proof.
  split; [split; [discriminate|apply pow2_pos; pose proof (data_bits_range mode); lia]|].
  destruct mode; split; reflexivity.
Qed.

Lemma pow_cap_inj m m' : 0 <= m -> 0 <= m' -> 2 ^ m - 1 = 2 ^ m' - 1 -> m = m'.
Proof. intros H1 H2 E. apply (Z.pow_inj_r 2); lia. Qed.

Lemma reserve_reach soo n M infoz a m c :
  2 <= M <= data_bits mode - 9 -> M <= 53 -> 1 < n <= CapacityToGrowth W (2 ^ M - 1) ->
  SizeToCapacity W n = Some (2 ^ m - 1) -> 2 <= m -> alloc_ok m a ->
  ReserveEmptyNonAllocatedTableToFitNewSize G host mode (CreateDefault mode soo) n infoz
    (a_seed a) (a_ctrl a) (a_growth a) = Some c ->
  table_inv G host mode P m c /\ elements c = [] /\ n <= fst (growth_abs host (growth_mem c) (2 ^ m - 1)).
Proof.
  intros HM HM53 Hn Es Hm (A1 & A2 & A3) E. destruct (default_ok soo) as (D1 & D2 & D3).
  destruct (reserve_spec G host mode P w HW Hw _ n M infoz (a_seed a) D1 D2 D3 A3 Hn HM HM53) as (m0 & Hm0 & E0 & R).
  rewrite E0 in Es. injection Es as Es. apply pow_cap_inj in Es; [|lia|lia]. subst m0.
  destruct (R (a_ctrl a) (a_growth a) A1 A2) as (c' & E' & I). rewrite E in E'. injection E' as <-. exact I.
Qed.

(** Every step keeps the invariant and refines its abstract operation. *)
Lemma step_simulates m c o m' c' : table_inv G host mode P m c -> step (m, c) o (m', c') ->
  table_inv G host mode P m' c' /\ Permutation (elements c') (spec P o (elements c)).
Proof.
  intros I S. inversion S; subst.
  - destruct (emplace_spec G host mode P w m' HW Hw c I v) as (r & E & Post).
    match goal with H : emplace _ _ _ _ _ _ = Some (Inserted _ _) |- _ => rewrite H in E; injection E as <- end.
    cbn [emplace_post] in Post. destruct Post as (Ab & I' & Perm & _). split; [exact I'|].
    cbn [spec]. apply has_key_false in Ab. now rewrite Ab.
  - destruct (emplace_spec G host mode P w m' HW Hw c' I v) as (r & E & Post).
    match goal with H : emplace _ _ _ _ _ _ = Some (Found _) |- _ => rewrite H in E; injection E as <- end.
    cbn [emplace_post] in Post. destruct Post as (v' & Sv & Eq). split; [exact I|].
    cbn [spec]. replace (has_key P (key_of P v) (elements c')) with true; [reflexivity|]. symmetry.
    apply existsb_exists. exists v'. split; [|exact Eq].
    exact (stored_in G mode P w m' HW Hw c' (i_ok _ _ _ _ _ _ I) off v' Sv).
  - destruct (erase_key_spec G host mode P w m' HW Hw c I k) as (c1 & n1 & E & I' & Cases & Ab).
    match goal with H : erase_key _ _ _ _ _ _ = Some _ |- _ => rewrite H in E; injection E as <- <- end.
    split; [exact I'|]. apply has_key_false in Ab. destruct Cases as [(_ & v & Ev & Perm)|(_ & ->)].
    + cbn [spec]. rewrite (filter_perm _ _ _ Perm). cbn [filter]. rewrite Ev. cbn [negb].
      pose proof (erase_absent P k _ Ab) as X. cbn [spec] in X. now rewrite X.
    + now rewrite erase_absent.
  - destruct (Clear_spec G host mode P w m' HW Hw c I soo) as (c1 & E & Post).
    match goal with H : Clear _ _ _ _ _ = Some _ |- _ => rewrite H in E; injection E as <- end.
    rewrite (proj2 (Z.ltb_lt _ _)) in Post by assumption. destruct Post as [I' El]. split; [exact I'|]. now rewrite El.
  - match goal with H : alloc_ok _ _ |- _ => destruct H as (A1 & A2 & A3) end.
    destruct (resize_spec G host mode P w m m' HW Hw ltac:(assumption) ltac:(assumption) c I ltac:(assumption)
      (a_seed a) (a_ctrl a) (a_growth a) A3 A1 A2) as (c1 & E & I' & Perm & _).
    match goal with H : ResizeAllocatedTableWithSeedChange _ _ _ _ _ _ _ _ _ = Some _ |- _ => rewrite H in E; injection E as <- end.
    split; [exact I'|exact Perm].
Qed.

Lemma reachable_inv s : reachable s -> table_inv G host mode P (fst s) (snd s).
Proof.
  induction 1 as [soo n M infoz a m c|[m c] o [m' c'] _ IH S].
  - cbn [fst snd]. now apply (reserve_reach soo n M infoz a).
  - exact (proj1 (step_simulates m c o m' c' IH S)).
Qed.

(** Erasure by key, counted. *)
Lemma erase_refines m c k : reachable (m, c) -> table_inv G host mode P m c ->
  exists c' n, erase_key G host mode P c k = Some (c', n) /\ reachable (m, c') /\
    n = (if has_key P k (elements c) then 1 else 0) /\ Permutation (elements c') (spec P (Erase k) (elements c)).
Proof.
  intros R I. destruct (erase_key_spec G host mode P w m HW Hw c I k) as (c' & n & E & _ & Cases & Ab).
  assert (S : step (m, c) (Erase k) (m, c')) by (eapply step_erase; exact E).
  exists c', n. split; [exact E|]. split; [eapply reach_step; eauto|]. split; [|exact (proj2 (step_simulates m c (Erase k) m c' I S))].
  destruct Cases as [(-> & v & Ev & Perm)|(-> & ->)].
  - replace (has_key P k (elements c)) with true; [reflexivity|]. symmetry. apply existsb_exists. exists v. split; [|exact Ev].
    apply (Permutation_in v (Permutation_sym Perm)). now left.
  - apply has_key_false in Ab. now rewrite Ab.
Qed.

End System.

(** ** Insertion of a list of values *)
Section Fill.
Context {V K : Type} (G : GroupOps) (host : endian) (mode : StorageMode) (P : Policy V K).

Fixpoint emplace_all (c : CommonFields V) (vs : list V) : option (CommonFields V) :=
  match vs with
  | [] => Some c
  | v :: rest =>
      match emplace G host mode P c v with
      | Some (Inserted c' _) => emplace_all c' rest
      | _ => None
      end
  end.

Lemma emplace_all_reachable m vs : forall c c', emplace_all c vs = Some c' ->
  reachable G host mode P (m, c) -> reachable G host mode P (m, c').
Proof.
  induction vs as [|v vs IH]; intros c c' E R; [now injection E as <-|]. cbn [emplace_all] in E.
  destruct (emplace G host mode P c v) as [[off|c1 off|p]|] eqn:X; try discriminate.
  apply (IH c1 c' E). eapply reach_step; [exact R|]. eapply step_inserted. exact X.
Qed.

(** Erasure of a list of keys. *)
Fixpoint erase_all (c : CommonFields V) (ks : list K) : option (CommonFields V) :=
  match ks with
  | [] => Some c
  | k :: rest => do (c, _) <- erase_key G host mode P c k; erase_all c rest
  end.

Lemma erase_all_reachable m ks : forall c c', erase_all c ks = Some c' ->
  reachable G host mode P (m, c) -> reachable G host mode P (m, c').
Proof.
  induction ks as [|k ks IH]; intros c c' E R; [now injection E as <-|]. cbn [erase_all] in E.
  destruct (erase_key G host mode P c k) as [[c1 n]|] eqn:X; [|discriminate]. cbn [obind] in E.
  apply (IH c1 c' E). eapply reach_step; [exact R|]. eapply step_erase. exact X.
Qed.

Context {L : GroupLaws G} {PL : PolicyLaws P} (w m : Z) (HW : Z.of_nat (gWidth G) = 2 ^ w) (Hw : w = 3 \/ w = 4).

Lemma emplace_all_spec vs : forall c,
  table_inv G host mode P m c -> distinct P (vs ++ elements c) ->
  Z.of_nat (length vs) <= fst (growth_abs host (growth_mem c) (2 ^ m - 1)) ->
  exists c', emplace_all c vs = Some c' /\ table_inv G host mode P m c' /\ Permutation (elements c') (vs ++ elements c).
Proof.
  induction vs as [|v vs IH]; intros c I D Hl; [now exists c|]. cbn [emplace_all length app] in *.
  destruct (emplace_spec G host mode P w m HW Hw c I v) as (r & -> & Post).
  apply distinct_cons in D as [D1 D2]. apply Forall_app in D1 as [D0 D1].
  destruct r as [off|c1 off|p]; cbn [emplace_post] in Post.
  - exfalso. destruct Post as (v' & Sv & Eq). apply (stored_in G mode P w m HW Hw c (i_ok _ _ _ _ _ _ I)) in Sv.
    rewrite Forall_forall in D1. rewrite (D1 v' Sv) in Eq. discriminate.
  - destruct Post as (_ & I1 & Perm & _ & Gr).
    assert (Pm : Permutation (vs ++ elements c1) (v :: vs ++ elements c)) by (rewrite Perm; now rewrite <- Permutation_middle).
    destruct (IH c1 I1) as (c' & E & I' & P'); [|lia|].
    + apply (distinct_perm P _ _ (Permutation_sym Pm)). apply distinct_cons. split; [|exact D2]. apply Forall_app. auto.
    + exists c'. split; [exact E|]. split; [exact I'|]. now rewrite P'.
  - exfalso. destruct p; cbn [emplace_post] in Post; [contradiction|]; lia.
Qed.
End Fill.

(** ** Properties *)

(** C2: the invariant of the table.  Every state that is reached from a reserved empty table by
    insertions (rehashing in place included), erasures, clearing and resizing satisfies it: the sentinel and the mirrored control
    bytes are in place, every full slot holds an initialized value under its seven hash bits and is
    on the probe path of its hash before any window with an empty byte, keys are distinct, the size
    counts the elements, the growth left is the number of empty slots less the ones the load factor
    reserves, and without the "deleted" flag no slot is deleted. *)
Theorem table_invariant {V K} (G : GroupOps) (P : Policy V K) host mode w m c :
  GroupLaws G -> PolicyLaws P -> Z.of_nat (gWidth G) = 2 ^ w -> w = 3 \/ w = 4 ->
  reachable G host mode P (m, c) -> table_inv G host mode P m c.
Proof. intros L PL HW Hw R. exact (reachable_inv G host mode P w HW Hw (m, c) R). Qed.

(** C1: a table of more than one slot refines a finite set of keys.  In every reachable state insertion, search,
    erasure, clearing and resizing return, and act as on the set of stored elements: an insertion finds the
    stored element with an equal key exactly when there is one, and otherwise adds the value, rehashing in place when
    deleted slots have used up the growth of a table at most 25/32 full, or asks for a larger array with the elements
    unchanged, only when no growth is left and rehashing in place does not apply; a search finds a slot with an equal key
    exactly when the set has one; erasure removes the element with the key and counts it; clearing removes all, keeping
    the array below 128 slots and giving it back otherwise; resizing keeps the elements; the size is the number of
    elements, and iteration visits each element once, in the order of the slots. *)
Theorem table_refines_set {V K} (G : GroupOps) (P : Policy V K) host mode w m c :
  GroupLaws G -> PolicyLaws P -> Z.of_nat (gWidth G) = 2 ^ w -> w = 3 \/ w = 4 ->
  reachable G host mode P (m, c) ->
  (forall v, exists r, emplace G host mode P c v = Some r /\
     match r with
     | Found q => exists v', stored m c q v' /\ equal_to P (key_of P v) (key_of P v') = true
     | Inserted c' q => has_key P (key_of P v) (elements c) = false /\ reachable G host mode P (m, c') /\
                        stored m c' q v /\ Permutation (elements c') (v :: elements c)
     | Reallocates (InsertAt _ _) => False
     | Reallocates (GrowToNextCapacityAndPrepareInsert c' hash) =>
         has_key P (key_of P v) (elements c) = false /\ fst (growth_abs host (growth_mem c) (2 ^ m - 1)) = 0 /\
         (snd (growth_abs host (growth_mem c) (2 ^ m - 1)) = false \/
          25 * (2 ^ m - 1 - kMaxBlockedElementsForLargeTables) < 32 * size mode c) /\
         elements c' = elements c /\ hash = key_hash mode P c v
     end) /\
  (forall k, exists r, find_large G mode P c k = Some r /\
     match r with
     | Some q => exists v, stored m c q v /\ equal_to P k (key_of P v) = true
     | None => has_key P k (elements c) = false
     end) /\
  (forall k, exists c' n, erase_key G host mode P c k = Some (c', n) /\ reachable G host mode P (m, c') /\
     n = (if has_key P k (elements c) then 1 else 0) /\ Permutation (elements c') (spec P (Erase k) (elements c))) /\
  (forall soo, exists c', Clear G host mode soo c = Some c' /\
     if 2 ^ m - 1 <? 128 then reachable G host mode P (m, c') /\ elements c' = [] else c' = CreateDefault mode soo) /\
  (forall m' a, 2 <= m' <= data_bits mode - 9 -> m' <= 53 ->
     size mode c <= CapacityToGrowth (Z.of_nat (gWidth G)) (2 ^ m' - 1) -> alloc_ok G m' a ->
     exists c', ResizeAllocatedTableWithSeedChange G host mode P c (2 ^ m' - 1) (a_seed a) (a_ctrl a) (a_growth a) = Some c' /\
       reachable G host mode P (m', c') /\ Permutation (elements c') (elements c)) /\
  distinct P (elements c) /\ size mode c = Z.of_nat (length (elements c)) /\
  (exists qs, IterateOverFullSlotsImpl G host mode c = Some qs /\ NoDup qs /\ Forall2 (stored m c) qs (elements c)).
Proof.
  intros L PL HW Hw R. pose proof (reachable_inv G host mode P w HW Hw (m, c) R) as I. cbn [fst snd] in I.
  pose proof (i_ok _ _ _ _ _ _ I) as T. repeat apply conj; [| | | | |apply T|apply I|].
  - intros v. destruct (emplace_spec G host mode P w m HW Hw c I v) as (r & E & Post). exists r. split; [exact E|].
    destruct r as [q|c' q|[c' q|c' h]]; cbn [emplace_post] in Post; [exact Post| |exact Post|];
      destruct Post as (Ab & Post); (split; [now apply has_key_false|]); [|tauto].
    destruct Post as (_ & Perm & St & _). split; [eapply reach_step; [exact R|eapply step_inserted; exact E]|auto].
  - intros k. destruct (find_large_spec G mode P w m HW Hw c T (inv_stops G host mode P w m HW Hw c I) k) as (r & E & Post).
    exists r. split; [exact E|]. destruct r; [exact Post|now apply has_key_false].
  - intros k. exact (erase_refines G host mode P w HW Hw m c k R I).
  - intros soo. destruct (Clear_spec G host mode P w m HW Hw c I soo) as (c' & E & Post). exists c'. split; [exact E|].
    destruct (2 ^ m - 1 <? 128) eqn:B; [|exact Post]. zbool. split; [|apply Post].
    eapply reach_step; [exact R|]. eapply step_clear; eauto.
  - intros m' a M1 M2 Sz A. pose proof A as (A1 & A2 & A3).
    destruct (resize_spec G host mode P w m m' HW Hw M1 M2 c I Sz (a_seed a) (a_ctrl a) (a_growth a) A3 A1 A2)
      as (c' & E & _ & Perm & _). exists c'. split; [exact E|]. split; [|exact Perm].
    eapply reach_step; [exact R|]. eapply step_rehash; eauto.
  - exists (full_slots m c). split; [exact (IterateOverFullSlotsImpl_spec G host mode P w m HW Hw c T (i_size _ _ _ _ _ _ I))|].
    split; [apply NoDup_filter, range_NoDup|]. exact (full_slots_elements G mode P w m HW Hw c T).
Qed.


(** [reserve(n)] delivers: in the table it allocates, any [n] values with distinct keys are
    inserted one after the other without a reallocation, and the table then holds exactly them. *)
Lemma reserve_admits {V K} (G : GroupOps) (P : Policy V K) host mode w soo n M infoz a m c vs :
  GroupLaws G -> PolicyLaws P -> Z.of_nat (gWidth G) = 2 ^ w -> w = 3 \/ w = 4 ->
  2 <= M <= data_bits mode - 9 -> M <= 53 -> 1 < n <= CapacityToGrowth (Z.of_nat (gWidth G)) (2 ^ M - 1) ->
  SizeToCapacity (Z.of_nat (gWidth G)) n = Some (2 ^ m - 1) -> 2 <= m -> alloc_ok G m a ->
  ReserveEmptyNonAllocatedTableToFitNewSize G host mode (CreateDefault mode soo) n infoz
    (a_seed a) (a_ctrl a) (a_growth a) = Some c ->
  distinct P vs -> Z.of_nat (length vs) <= n ->
  exists c', emplace_all G host mode P c vs = Some c' /\ Permutation (elements c') vs /\ capacity mode c' = 2 ^ m - 1.
Proof.
  intros L PL HW Hw HM HM53 Hn Es Hm A E D Hl.
  destruct (reserve_reach G host mode P w HW Hw soo n M infoz a m c HM HM53 Hn Es Hm A E) as (I & El & Room).
  destruct (emplace_all_spec G host mode P w m HW Hw vs c I) as (c' & E' & I' & P'); [now rewrite El, app_nil_r|lia|].
  exists c'. split; [exact E'|]. split; [now rewrite El, app_nil_r in P'|]. apply (i_ok _ _ _ _ _ _ I').
Qed.

(** ** A table of integers, for the examples *)
Definition demo_policy : Policy Z Z :=
  mk_Policy Z Z (fun v => v) (fun seed k => wrapu 64 (k * 0x9E3779B97F4A7C15 + seed)) Z.eqb.

#[export] Instance demo_laws : PolicyLaws demo_policy.
Proof.
  constructor; cbn.
  - intros. apply wrapu_range. lia.
  - apply Z.eqb_refl.
  - apply Z.eqb_sym.
  - intros k1 k2 k3 H1 H2. zbool. subst. apply Z.eqb_refl.
  - intros seed k k' H. zbool. now subst.
Qed.

Definition demo_group : GroupOps := portable_group little.
Definition demo_alloc : alloc := mk_alloc (repeat 0 23) (repeat 0 8) 7.
Definition demo_table : CommonFields Z :=
  match ReserveEmptyNonAllocatedTableToFitNewSize demo_group little kCapacityByLog
          (CreateDefault kCapacityByLog false) 12 false 7 (a_ctrl demo_alloc) (a_growth demo_alloc) with
  | Some c => c
  | None => CreateDefault kCapacityByLog false
  end.

Lemma demo_reachable : reachable demo_group little kCapacityByLog demo_policy (4, demo_table).
Proof.
  apply (reach_reserve _ _ _ _ false 12 5 false demo_alloc); try reflexivity; try (vm_compute; intuition congruence).
  split; [reflexivity|]. split; [|vm_compute; intuition congruence].
  split; [reflexivity|]. repeat constructor; vm_compute; congruence.
Qed.

Lemma table_invariant_witness : empties 4 (control demo_table) = 13.
Proof.
  pose proof (i_growth _ _ _ _ _ _ (table_invariant demo_group demo_policy little kCapacityByLog 3 4 demo_table
    (portable_laws little) demo_laws eq_refl (or_introl eq_refl) demo_reachable)) as H.
  change (fst (growth_abs little (growth_mem demo_table) (2 ^ 4 - 1))) with 12 in H.
  change (2 ^ 4 - 1 - CapacityToGrowth (Z.of_nat (gWidth demo_group)) (2 ^ 4 - 1)) with 1 in H. lia.
Defined.

(** The table after three insertions. *)
Definition demo_filled : CommonFields Z :=
  match emplace_all demo_group little kCapacityByLog demo_policy demo_table [3; 1; 4] with Some c => c | None => demo_table end.

Lemma demo_filled_reachable : reachable demo_group little kCapacityByLog demo_policy (4, demo_filled).
Proof.
  unfold demo_filled. destruct (emplace_all demo_group little kCapacityByLog demo_policy demo_table [3; 1; 4]) as [c|] eqn:E;
    [|exact demo_reachable]. exact (emplace_all_reachable _ _ _ _ 4 _ _ _ E demo_reachable).
Qed.

(** The table after twelve insertions and eight erasures: no growth is left, and the erased slots are marked deleted. *)
Definition demo_tombs : CommonFields Z :=
  match emplace_all demo_group little kCapacityByLog demo_policy demo_table [1; 2; 3; 4; 5; 6; 7; 8; 9; 10; 11; 12] with
  | Some c => match erase_all demo_group little kCapacityByLog demo_policy c [1; 2; 3; 4; 5; 6; 7; 8] with
              | Some c' => c' | None => demo_table end
  | None => demo_table
  end.

Lemma demo_tombs_reachable : reachable demo_group little kCapacityByLog demo_policy (4, demo_tombs).
Proof.
  unfold demo_tombs. destruct (emplace_all _ _ _ _ demo_table _) as [c|] eqn:E; [|exact demo_reachable].
  destruct (erase_all _ _ _ _ c _) as [c'|] eqn:E'; [|exact demo_reachable].
  exact (erase_all_reachable _ _ _ _ 4 _ _ _ E' (emplace_all_reachable _ _ _ _ 4 _ _ _ E demo_reachable)).
Qed.

(** A search that finds, and an erasure that removes, one of three elements; an insertion that rehashes in place. *)
Lemma table_refines_set_witness :
  (exists q v, find_large demo_group kCapacityByLog demo_policy demo_filled 1 = Some (Some q) /\ stored 4 demo_filled q v) /\
  (exists c', erase_key demo_group little kCapacityByLog demo_policy demo_filled 1 = Some (c', 1) /\
     Permutation (elements c') (filter (fun v => negb (1 =? v)) (elements demo_filled))) /\
  size kCapacityByLog demo_filled = 3 /\
  (nth 0 (control demo_tombs) 0 = kDeleted /\ exists c' q,
     emplace demo_group little kCapacityByLog demo_policy demo_tombs 20 = Some (Inserted c' q) /\
     Permutation (elements c') [20; 9; 10; 11; 12] /\ nth 0 (control c') 0 = kEmpty).
Proof.
  destruct (table_refines_set demo_group demo_policy little kCapacityByLog 3 4 demo_filled (portable_laws little) demo_laws
    eq_refl (or_introl eq_refl) demo_filled_reachable) as (_ & F & Er & _ & _ & _ & Sz & _).
  destruct (table_refines_set demo_group demo_policy little kCapacityByLog 3 4 demo_tombs (portable_laws little) demo_laws
    eq_refl (or_introl eq_refl) demo_tombs_reachable) as (Em & _).
  split; [|split; [|split; [|split]]].
  - destruct (F 1) as (r & E & Post). destruct r as [q|]; [|vm_compute in Post; discriminate].
    destruct Post as (v & St & _). exists q, v. auto.
  - destruct (Er 1) as (c' & n & E & _ & N & Perm). exists c'. split; [|exact Perm]. rewrite E, N. vm_compute. reflexivity.
  - rewrite Sz. vm_compute. reflexivity.
  - vm_compute. reflexivity.
  - destruct (Em 20) as (r & E & Post). pose proof E as E'. vm_compute in E'. injection E' as <-.
    destruct Post as (_ & _ & _ & Perm). eexists _, _. split; [exact E|]. split; [exact Perm|reflexivity].
Defined.


Lemma reserve_admits_witness : exists c',
  emplace_all demo_group little kCapacityByLog demo_policy demo_table [3; 1; 4] = Some c' /\
  Permutation (elements c') [3; 1; 4] /\ capacity kCapacityByLog c' = 15.
Proof.
  apply (reserve_admits demo_group demo_policy little kCapacityByLog 3 false 12 5 false demo_alloc 4 demo_table [3; 1; 4]
    (portable_laws little) demo_laws eq_refl (or_introl eq_refl)); try reflexivity; try (vm_compute; intuition congruence).
  - split; [reflexivity|]. split; [|vm_compute; intuition congruence].
    split; [reflexivity|]. repeat constructor; vm_compute; congruence.
  - repeat constructor.
Defined.
