(* ===== verification/SpinLock.v ===== *)
(** The spin lock of [base/internal/spinlock.h] and [spinlock.cc]: threads interleave their
    atomic operations on one lock word.  A thread believes it holds the lock when the value that
    its attempt returned has the held bit clear; mutual exclusion is the theorem that this belief
    is right. *)
From Stdlib Require Import ZArith Lia List Bool.
From S2P Require Import Prelude.
Import ListNotations.
#[local] Open Scope Z_scope.
#[local] Open Scope mach_scope.

(** ** The lock word *)
Definition kSpinLockHeld : Z := 1.
Definition kSpinLockCooperative : Z := 2.
Definition kSpinLockDisabledScheduling : Z := 4.
Definition kSpinLockSleeper : Z := 8.
Definition kWaitTimeMask : Z :=
  ~[32] (kSpinLockHeld .| kSpinLockCooperative .| kSpinLockDisabledScheduling).

Definition any_bit (v mask : Z) : bool := negb ((v .& mask) =? 0).

Definition held (v : Z) : bool := any_bit v kSpinLockHeld.

Definition initial_word (cooperative : bool) : Z := if cooperative then kSpinLockCooperative else 0.

Definition kProfileTimestampShift : Z := 7.
Definition kLockwordReservedShift : Z := 3.

(** The time difference is signed: its overflow is undefined. *)
Definition EncodeWaitCycles (wait_start_time wait_end_time : Z) : option Z :=
  let kMaxWaitTime := 0xffffffff >> kLockwordReservedShift in
  do diff <- checked 64 (wait_end_time - wait_start_time);
  let scaled_wait_time := diff >> kProfileTimestampShift in
  let clamped := wrapu 32 (Z.shiftl (Z.min scaled_wait_time kMaxWaitTime) kLockwordReservedShift) in
  if clamped =? 0 then Some kSpinLockSleeper
  else
    let kMinWaitTime := kSpinLockSleeper + Z.shiftl 1 kLockwordReservedShift in
    if clamped =? kSpinLockSleeper then Some kMinWaitTime else Some clamped.

Definition DecodeWaitCycles (lock_value : Z) : Z :=
  let scaled_wait_time := lock_value .& kWaitTimeMask in
  Z.shiftl scaled_wait_time (kProfileTimestampShift - kLockwordReservedShift).

(** What [SlowUnlock] submits to the contention profiler, if anything. *)
Definition SlowUnlock_profile (lock_value : Z) : option Z :=
  if (lock_value .& kWaitTimeMask) =? kSpinLockSleeper then None else Some (DecodeWaitCycles lock_value).

(** ** Threads *)

(** Where the result of [TryLockInternal] goes. *)
Inductive caller :=
  | InTryLockImpl (blocking : bool)   (** [lock()] or [try_lock()] *)
  | InSlowLock.

Inductive pc :=
  | Idle
  | LoadWord (blocking : bool)                                   (** [TryLockImpl]: the load *)
  | TryLockInternal (from : caller) (lock_value wait_cycles : Z)
  | SpinLoopStart (first : bool)                                 (** [SpinLoop]: reads the adaptive spin count; [first]: before the loop of [SlowLock] *)
  | SpinLoop (c : Z) (first : bool)                              (** its loop, [c] tries left *)
  | SpinLoopReturn (lock_value : Z) (first : bool)               (** back in [SlowLock] with the last value read *)
  | SlowLockLoop (lock_value wait_cycles : Z)                    (** the test of the [while] *)
  | MarkSleeper (lock_value wait_cycles : Z)                     (** the exchange that marks a sleeper *)
  | SpinLockDelay (lock_value : Z)
  | Locked
  | UnlockExchange (lock_value : Z)                              (** [unlock]: after the load *)
  | SlowUnlock (lock_value : Z).

(** The threads that believe they own the lock: those that returned from [lock()] or from a
    successful [try_lock()] and have not yet released, and those about to leave [SlowLock]. *)
Definition holding (p : pc) : bool :=
  match p with
  | Locked | UnlockExchange _ => true
  | SlowLockLoop v _ => negb (held v)
  | _ => false
  end.

(** What the caller does with the returned value. *)
Definition return_to (from : caller) (lock_value wait_cycles : Z) : pc :=
  match from with
  | InTryLockImpl blocking =>
      if held lock_value then (if blocking then SpinLoopStart true else Idle) else Locked
  | InSlowLock => SlowLockLoop lock_value wait_cycles
  end.

(** One atomic operation of a thread on the word, function by function. *)
Inductive TryLockImpl_step : Z -> pc -> Z -> pc -> Prop :=
  | t_lock w b : TryLockImpl_step w Idle w (LoadWord b)
  | t_load w b : TryLockImpl_step w (LoadWord b) w (TryLockInternal (InTryLockImpl b) w 0).

(** [sched] is set when the scheduler answered that this thread disabled it. *)
Inductive TryLockInternal_step : Z -> pc -> Z -> pc -> Prop :=
  | t_try_held w from v wc : held v = true ->
      TryLockInternal_step w (TryLockInternal from v wc) w (return_to from v wc)
  | t_try_won w from wc sched : held w = false ->
      sched = 0 \/ (any_bit w kSpinLockCooperative = false /\ sched = kSpinLockDisabledScheduling) ->
      TryLockInternal_step w (TryLockInternal from w wc) (kSpinLockHeld .| w .| wc .| sched) (return_to from w wc)
  | t_try_lost w from v wc : held v = false -> w <> v ->
      TryLockInternal_step w (TryLockInternal from v wc) w (return_to from w wc).

(** [do { v = load } while (held(v) && --c > 0)].  The adaptive spin count is shared by all locks
    and any thread may set it, so a loop starts with any count. *)
Inductive SpinLoop_step : Z -> pc -> Z -> pc -> Prop :=
  | t_spin_start w c first : SpinLoop_step w (SpinLoopStart first) w (SpinLoop c first)
  | t_spin_again w c first : held w = true -> c - 1 > 0 ->
      SpinLoop_step w (SpinLoop c first) w (SpinLoop (c - 1) first)
  | t_spin_return w c first : held w = false \/ c - 1 <= 0 ->
      SpinLoop_step w (SpinLoop c first) w (SpinLoopReturn w first).

(** [SlowLock], from the return of its calls; the clock readings are arbitrary. *)
Inductive SlowLock_step : Z -> pc -> Z -> pc -> Prop :=
  | t_spin_first w v : SlowLock_step w (SpinLoopReturn v true) w (TryLockInternal InSlowLock v 0)
  | t_spin_wait w v wc wait_start_time now : EncodeWaitCycles wait_start_time now = Some wc ->
      SlowLock_step w (SpinLoopReturn v false) w (TryLockInternal InSlowLock v wc)
  | t_loop_exit w v wc : held v = false -> SlowLock_step w (SlowLockLoop v wc) w Locked
  | t_loop_mark w v wc : held v = true -> any_bit v kWaitTimeMask = false ->
      SlowLock_step w (SlowLockLoop v wc) w (MarkSleeper v wc)
  | t_loop_delay w v wc : held v = true -> any_bit v kWaitTimeMask = true ->
      SlowLock_step w (SlowLockLoop v wc) w (SpinLockDelay v)
  | t_marked w wc :
      SlowLock_step w (MarkSleeper w wc) (w .| kSpinLockSleeper) (SpinLockDelay (w .| kSpinLockSleeper))
  | t_mark_lost_free w v wc : w <> v -> held w = false ->
      SlowLock_step w (MarkSleeper v wc) w (TryLockInternal InSlowLock w wc)
  | t_mark_lost_again w v wc : w <> v -> held w = true -> any_bit w kWaitTimeMask = false ->
      SlowLock_step w (MarkSleeper v wc) w (SlowLockLoop w wc)
  | t_mark_lost_delay w v wc : w <> v -> held w = true -> any_bit w kWaitTimeMask = true ->
      SlowLock_step w (MarkSleeper v wc) w (SpinLockDelay w)
  | t_delay w v : SlowLock_step w (SpinLockDelay v) w (SpinLoopStart false).

Inductive unlock_step : Z -> pc -> Z -> pc -> Prop :=
  | t_unlock w : unlock_step w Locked w (UnlockExchange w)
  | t_exchange w v : unlock_step w (UnlockExchange v) (v .& kSpinLockCooperative)
      (if any_bit w kWaitTimeMask then SlowUnlock w else Idle)
  | t_wake w v : unlock_step w (SlowUnlock v) w Idle.

Inductive tstep (w : Z) (p : pc) (w' : Z) (p' : pc) : Prop :=
  | in_TryLockImpl : TryLockImpl_step w p w' p' -> tstep w p w' p'
  | in_TryLockInternal : TryLockInternal_step w p w' p' -> tstep w p w' p'
  | in_SpinLoop : SpinLoop_step w p w' p' -> tstep w p w' p'
  | in_SlowLock : SlowLock_step w p w' p' -> tstep w p w' p'
  | in_unlock : unlock_step w p w' p' -> tstep w p w' p'.

(** The steps of a thread at a known place. *)
Ltac step_inv T :=
  destruct T as [T|T|T|T|T]; inversion T; subst; try congruence.

(** ** The system: some thread takes one step *)
Definition system : Type := Z * list pc.

Inductive step : system -> system -> Prop :=
  | step_thread w l1 p l2 w' p' : tstep w p w' p' -> step (w, l1 ++ p :: l2) (w', l1 ++ p' :: l2).

Inductive reachable (coop : bool) : system -> Prop :=
  | reach_init n : reachable coop (initial_word coop, repeat Idle n)
  | reach_step s s' : reachable coop s -> step s s' -> reachable coop s'.

(** ** Bits of the word *)
Lemma held_testbit v : held v = Z.testbit v 0.
Proof.
  unfold held, any_bit, kSpinLockHeld. change 1 with (Z.ones 1).
  rewrite Z.land_ones by lia. change (2 ^ 1) with 2. rewrite Zmod_odd, Z.bit0_odd.
  now destruct (Z.odd v).
Qed.

(** The wait-time field of a word, as a number: the word without its three low bits. *)
Lemma land_kWaitTimeMask v : in_u 32 v -> v .& kWaitTimeMask = 8 * (v / 8).
Proof. intros R. change kWaitTimeMask with (wrapu 32 (Z.lnot (Z.ones 3))). now rewrite land_clear_low by (auto; lia). Qed.

(** The free value of a lock never changes. *)
Definition word_ok (coop : bool) (w : Z) : Prop :=
  in_u 32 w /\ w .& kSpinLockCooperative = initial_word coop /\ (held w = false -> w = initial_word coop).

Definition wait_ok (wc : Z) : Prop := in_u 32 wc /\ wc mod 8 = 0.

(** What a thread knows: a value it read that is not held is the free value. *)
Definition pc_ok (coop : bool) (p : pc) : Prop :=
  match p with
  | TryLockInternal _ v wc | SlowLockLoop v wc => word_ok coop v /\ wait_ok wc
  | MarkSleeper v wc => word_ok coop v /\ wait_ok wc /\ held v = true
  | UnlockExchange v | SpinLoopReturn v _ => word_ok coop v
  | _ => True
  end.

Lemma initial_word_ok coop : word_ok coop (initial_word coop) /\ held (initial_word coop) = false.
Proof. destruct coop; repeat split; try discriminate. Qed.

Lemma EncodeWaitCycles_ok s e wc :
  EncodeWaitCycles s e = Some wc -> wait_ok wc /\ any_bit wc kWaitTimeMask = true.
Proof.
  unfold EncodeWaitCycles. destruct (checked 64 (e - s)) as [d|]; [|discriminate]. cbn [obind].
  set (x := Z.min _ _). change kLockwordReservedShift with 3.
  rewrite Z.shiftl_mul_pow2 by lia. set (cl := wrapu 32 (x * 2 ^ 3)).
  assert (W : wait_ok cl).
  { split; [apply wrapu_range; lia|]. unfold cl, wrapu. change (2 ^ 3) with 8. change (2 ^ 32) with 4294967296. zlia. }
  destruct (cl =? 0) eqn:E0; zbool; [|destruct (cl =? kSpinLockSleeper) eqn:E1; zbool]; intros [= <-];
    [repeat split; reflexivity || discriminate..|].
  split; [exact W|]. unfold any_bit. rewrite land_kWaitTimeMask by apply W.
  apply negb_true_iff, Z.eqb_neq. destruct W as [_ W]. zlia.
Qed.

(** The number of units that a wait leaves in the field. *)
Lemma EncodeWaitCycles_units s e wc :
  EncodeWaitCycles s e = Some wc -> 0 <= s <= e ->
  wc = 8 * (if (e - s) / 128 =? 0 then 1 else Z.max 2 (Z.min ((e - s) / 128) (2 ^ 29 - 1))).
Proof.
  unfold EncodeWaitCycles, checked. destruct (in_sb 64 _); [|discriminate]. cbn [obind]. intros H O. revert H.
  change kLockwordReservedShift with 3. change kProfileTimestampShift with 7.
  rewrite Z.shiftr_div_pow2, !Z.shiftl_mul_pow2 by lia. change (2 ^ 7) with 128.
  change (0xffffffff >> 3) with (2 ^ 29 - 1). unfold wrapu, kSpinLockSleeper.
  set (q := (e - s) / 128). assert (0 <= q) by (unfold q; zlia).
  change (2 ^ 3) with 8. change (2 ^ 32) with 4294967296. change (2 ^ 29) with 536870912.
  rewrite (Z.mod_small (Z.min q (536870912 - 1) * 8)) by lia.
  destruct (q =? 0) eqn:E; zbool.
  - rewrite E. cbn. intros [= <-]. reflexivity.
  - destruct (Z.min q (536870912 - 1) * 8 =? 0) eqn:E0; zbool; [lia|].
    destruct (Z.min q (536870912 - 1) * 8 =? 8) eqn:E1; zbool; intros [= <-]; lia.
Qed.

(** The wait field of a word does not see the three flag bits. *)
Lemma wait_field_flags wc b : in_u 32 wc -> 0 <= b < 8 -> (wc .| b) .& kWaitTimeMask = 8 * (wc / 8).
Proof.
  intros R B. rewrite land_kWaitTimeMask by (apply in_u_lor; [lia|exact R|split; lia]). f_equal.
  change 8 with (2 ^ 3). rewrite <- !Z.shiftr_div_pow2, Z.shiftr_lor by lia.
  rewrite (Z.shiftr_div_pow2 b) by lia. rewrite (Z.div_small b) by (cbn; lia). apply Z.lor_0_r.
Qed.

(** ** One step of one thread *)
Definition b2n (b : bool) : nat := if b then 1 else 0.

(** What the winner of an attempt leaves in the word. *)
Lemma won_word_ok coop w wc sched :
  word_ok coop w -> held w = false -> wait_ok wc ->
  sched = 0 \/ (any_bit w kSpinLockCooperative = false /\ sched = kSpinLockDisabledScheduling) ->
  word_ok coop (kSpinLockHeld .| w .| wc .| sched) /\ held (kSpinLockHeld .| w .| wc .| sched) = true.
Proof.
  intros (R & _ & F) Hf (Rw & W) S. rewrite (F Hf) in *. clear F.
  assert (B : forall i, 0 <= i < 3 -> Z.testbit wc i = false).
  { intros i Hi. rewrite <- (Z.mod_pow2_bits_low _ 3) by lia. change (2 ^ 3) with 8. rewrite W. apply Z.bits_0. }
  assert (H : held (kSpinLockHeld .| initial_word coop .| wc .| sched) = true)
    by (rewrite held_testbit, !Z.lor_spec; reflexivity).
  assert (Rs : in_u 32 sched) by (destruct S as [-> |[_ ->]]; split; reflexivity || discriminate).
  split; [|exact H]. split; [|split; [|rewrite H; discriminate]].
  - repeat apply in_u_lor; try assumption; try lia; split; reflexivity || discriminate.
  - apply Z.bits_inj'. intros i Hi. rewrite Z.land_spec, !Z.lor_spec.
    assert (C : i = 1 \/ i <> 1) by lia. destruct C as [-> |C].
    + rewrite B by lia. destruct S as [-> |[_ ->]], coop; reflexivity.
    + assert (Z.testbit kSpinLockCooperative i = false) as -> by (apply (Z.pow2_bits_false 1); lia).
      rewrite andb_false_r. destruct coop; [symmetry; apply (Z.pow2_bits_false 1); lia|now rewrite Z.bits_0].
Qed.

Lemma marked_word_ok coop w : word_ok coop w -> held w = true ->
  word_ok coop (w .| kSpinLockSleeper) /\ held (w .| kSpinLockSleeper) = true.
Proof.
  intros (R & C & _) H.
  assert (H' : held (w .| kSpinLockSleeper) = true)
    by (rewrite held_testbit, Z.lor_spec, <- held_testbit, H; reflexivity).
  split; [|exact H']. split; [|split; [|rewrite H'; discriminate]].
  - apply in_u_lor; [lia|exact R|split; reflexivity || discriminate].
  - rewrite Z.land_lor_distr_l, C. destruct coop; reflexivity.
Qed.

(** An attempt that failed returns a held value, so its caller does not believe it won. *)
Lemma lost_held coop w v : word_ok coop w -> word_ok coop v -> held v = false -> w <> v -> held w = true.
Proof.
  intros (_ & _ & Fw) (_ & _ & Fv) Hv N. destruct (held w) eqn:H; [reflexivity|].
  now rewrite Fw, Fv in N by auto.
Qed.

Lemma return_to_ok coop from v wc :
  word_ok coop v -> wait_ok wc -> pc_ok coop (return_to from v wc) /\ holding (return_to from v wc) = negb (held v).
Proof. intros V W. destruct from as [[]|]; cbn; destruct (held v) eqn:H; cbn; rewrite ?H; auto. Qed.

(** A step keeps what the thread knows true, and changes the held bit exactly when the thread's
    own belief changes. *)
Lemma tstep_ok coop w p w' p' :
  tstep w p w' p' -> word_ok coop w -> pc_ok coop p -> (holding p = true -> held w = true) ->
  word_ok coop w' /\ pc_ok coop p' /\
  (b2n (held w') + b2n (holding p) = b2n (held w) + b2n (holding p'))%nat.
Proof.
  assert (W0 : wait_ok 0) by (repeat split; discriminate || reflexivity).
  intros H W P B; destruct H as [H|H|H|H|H]; destruct H; cbn [pc_ok holding] in *;
    repeat match goal with H : _ /\ _ |- _ => destruct H end;
    rewrite ?(proj1 (negb_true_iff _)) by auto; try (split; [exact W|split; [easy|cbn; lia]]).
  - destruct (return_to_ok coop from v wc) as (Q & ->); auto. rewrite H. auto.
  - destruct (return_to_ok coop from w wc) as (Q & ->); auto.
    destruct (won_word_ok coop w wc sched) as (Q' & ->); auto. rewrite H. auto.
  - destruct (return_to_ok coop from w wc) as (Q & ->); auto.
    rewrite (lost_held coop w v) by auto. auto.
  - split; [exact W|]. split; [|cbn; lia]. cbn. split; [auto|]. now apply EncodeWaitCycles_ok in H.
  - rewrite H in *. cbn in *. rewrite B by reflexivity. auto.
  - rewrite H. auto.
  - rewrite H. auto.
  - destruct (marked_word_ok coop w) as (Q & ->); auto.
    match goal with H : held w = true |- _ => rewrite H end. auto.
  - cbn. match goal with H : held w = true |- _ => rewrite H end. auto.
  - destruct (initial_word_ok coop) as (Q & H0). rewrite B by reflexivity.
    destruct P as (_ & -> & _). rewrite H0. destruct (any_bit w kWaitTimeMask); (split; [exact Q|now split]).
Qed.

(** ** The whole system *)
Definition holders (l : list pc) : nat := length (filter holding l).

Lemma holders_mid l1 p l2 : holders (l1 ++ p :: l2) = (holders (l1 ++ l2) + b2n (holding p))%nat.
Proof.
  unfold holders. rewrite !filter_app, !length_app. cbn. destruct (holding p); cbn; lia.
Qed.

Definition lock_inv (coop : bool) (s : system) : Prop :=
  word_ok coop (fst s) /\ Forall (pc_ok coop) (snd s) /\ holders (snd s) = b2n (held (fst s)).

Lemma step_inv coop s s' : step s s' -> lock_inv coop s -> lock_inv coop s'.
Proof.
  intros [w l1 p l2 w' p' T] (W & F & N). cbn [fst snd] in *.
  rewrite holders_mid in N. apply Forall_app in F as (F1 & F2). inversion F2 as [|? ? Pp F2']; subst.
  destruct (tstep_ok coop w p w' p' T W Pp) as (W' & P' & E).
  - intros H. rewrite H in N. destruct (held w); [reflexivity|cbn in N; lia].
  - split; [exact W'|]. split; [apply Forall_app; auto|]. cbn [fst snd]. rewrite holders_mid. lia.
Qed.

Lemma lock_reachable_inv coop s : reachable coop s -> lock_inv coop s.
Proof.
  induction 1 as [n|s s' _ IH S]; [|exact (step_inv coop s s' S IH)].
  destruct (initial_word_ok coop) as (W & H). split; [exact W|]. cbn [fst snd].
  rewrite H. split; [apply Forall_forall; intros p I; apply repeat_spec in I; now subst|].
  unfold holders. induction n; auto.
Qed.

(** ** A lock that is free is obtained *)

(** Inside [lock()]. *)
Definition waiting (p : pc) : bool :=
  match p with
  | LoadWord b | TryLockInternal (InTryLockImpl b) _ _ => b
  | TryLockInternal InSlowLock _ _ | SpinLoopStart _ | SpinLoop _ _ | SpinLoopReturn _ _
  | SlowLockLoop _ _ | MarkSleeper _ _
  | SpinLockDelay _ => true
  | _ => false
  end.

(** Whatever the scheduler and the clock answer, a thread that runs alone obtains the lock in at
    most [n] steps, and it can run. *)
Inductive acquires : nat -> Z -> pc -> Prop :=
  | acq_now n w p : holding p = true -> held w = true -> acquires n w p
  | acq_step n w p : (exists w' p', tstep w p w' p') ->
      (forall w' p', tstep w p w' p' -> acquires n w' p') -> acquires (S n) w p.

Lemma acquires_try coop w from wc : word_ok coop w -> wait_ok wc -> held w = false ->
  acquires 1 w (TryLockInternal from w wc).
Proof.
  intros W C H. apply acq_step; [do 2 eexists; apply in_TryLockInternal, t_try_won; auto|].
  intros w' p' T. step_inv T.
  apply acq_now; [|now apply (won_word_ok coop)].
  destruct from as [b|]; cbn; rewrite H; reflexivity.
Qed.

Lemma acquires_mono n m w p : acquires n w p -> (n <= m)%nat -> acquires m w p.
Proof.
  intros A. revert m. induction A as [|n w p E _ IH]; intros m L; [now apply acq_now|].
  destruct m; [lia|]. apply acq_step; [exact E|]. intros w' p' T. apply IH; [exact T|lia].
Qed.

Lemma wait_ok_0 : wait_ok 0.
Proof. repeat split; discriminate || reflexivity. Qed.

Definition free (coop : bool) (w : Z) : Prop := word_ok coop w /\ held w = false.

(** Steps that leave the free word alone. *)
Lemma acquires_next w n p q :
  tstep w p w q -> (forall w' p', tstep w p w' p' -> w' = w /\ acquires n w p') -> acquires (S n) w p.
Proof.
  intros E A. apply acq_step; [now exists w, q|]. intros w' p' T. now destruct (A w' p' T) as (-> & Q).
Qed.

(** [SlowLock] goes on to an attempt with the value that the spinning read. *)
Lemma acquires_spin_return n w v first :
  (forall wc, wait_ok wc -> acquires n w (TryLockInternal InSlowLock v wc)) ->
  acquires (S n) w (SpinLoopReturn v first).
Proof.
  intros A. destruct first.
  - eapply acquires_next; [apply in_SlowLock, t_spin_first|]. intros w' p' T. step_inv T. auto using wait_ok_0.
  - eapply acquires_next; [apply in_SlowLock, (t_spin_wait w v kSpinLockSleeper 0 0); reflexivity|].
    intros w' p' T. step_inv T. split; [reflexivity|]. apply A.
    match goal with E : EncodeWaitCycles _ _ = _ |- _ => now apply EncodeWaitCycles_ok in E end.
Qed.

Lemma acquires_spin coop w c first : free coop w -> acquires 3 w (SpinLoop c first).
Proof.
  intros (Hok & Hfree). eapply acquires_next; [apply in_SpinLoop, t_spin_return; auto|].
  intros w' p' T. step_inv T. split; [reflexivity|].
  apply acquires_spin_return. intros wc C. now apply (acquires_try coop).
Qed.

Lemma acquires_spin_start coop w first : free coop w -> acquires 4 w (SpinLoopStart first).
Proof.
  intros F. eapply acquires_next; [apply in_SpinLoop, (t_spin_start w 0 first)|].
  intros w' p' T. step_inv T. split; [reflexivity|now apply (acquires_spin coop)].
Qed.

Lemma acquires_delay coop w v : free coop w -> acquires 5 w (SpinLockDelay v).
Proof.
  intros F. eapply acquires_next; [apply in_SlowLock, t_delay|].
  intros w' p' T. step_inv T. split; [reflexivity|now apply (acquires_spin_start coop)].
Qed.

Lemma acquires_mark coop w v wc : free coop w -> wait_ok wc -> held v = true -> acquires 2 w (MarkSleeper v wc).
Proof.
  intros (Hok & Hfree) C Hv. assert (w <> v) by congruence.
  eapply acquires_next; [now apply in_SlowLock, t_mark_lost_free|].
  intros w' p' T. step_inv T. split; [reflexivity|]. now apply (acquires_try coop).
Qed.

Lemma acquires_loop coop w v wc : free coop w -> wait_ok wc -> held v = true -> acquires 6 w (SlowLockLoop v wc).
Proof.
  intros F C Hv. destruct (any_bit v kWaitTimeMask) eqn:M.
  - eapply acquires_next; [now apply in_SlowLock, t_loop_delay|].
    intros w' p' T. step_inv T. split; [reflexivity|now apply (acquires_delay coop)].
  - eapply acquires_next; [now apply in_SlowLock, t_loop_mark|].
    intros w' p' T. step_inv T. split; [reflexivity|].
    apply (acquires_mono 2); [now apply (acquires_mark coop)|lia].
Qed.

Lemma acquires_attempt coop w from v wc :
  free coop w -> waiting (TryLockInternal from v wc) = true -> word_ok coop v -> wait_ok wc ->
  acquires 7 w (TryLockInternal from v wc).
Proof.
  intros F N V C. pose proof F as (Hok & Hfree). destruct (held v) eqn:Hv.
  - eapply acquires_next; [now apply in_TryLockInternal, t_try_held|]. intros w' p' T. step_inv T.
    split; [reflexivity|]. destruct from as [b|]; cbn in *; rewrite ?Hv, ?N; [|now apply (acquires_loop coop)].
    apply (acquires_mono 4); [now apply (acquires_spin_start coop)|lia].
  - assert (v = w) as -> by (destruct V as (_ & _ & V), Hok as (_ & _ & Ow); rewrite V, Ow; auto).
    apply (acquires_mono 1); [now apply (acquires_try coop)|lia].
Qed.

Lemma acquires_waiting coop w p :
  free coop w -> pc_ok coop p -> waiting p = true -> holding p = false -> acquires 8 w p.
Proof.
  intros F P N B. pose proof F as (Hok & Hfree). destruct p; try discriminate; cbn in P.
  - cbn in N. subst. apply (acquires_mono 2); [|lia]. eapply acquires_next; [apply in_TryLockImpl, t_load|].
    intros w' p' T. step_inv T. split; [reflexivity|]. apply (acquires_try coop); auto using wait_ok_0.
  - eapply acquires_mono; [apply (acquires_attempt coop); tauto|lia].
  - eapply acquires_mono; [now apply (acquires_spin_start coop)|lia].
  - eapply acquires_mono; [now apply (acquires_spin coop)|lia].
  - apply acquires_spin_return. intros wc C. now apply (acquires_attempt coop).
  - apply negb_false_iff in B. eapply acquires_mono; [apply (acquires_loop coop); tauto|lia].
  - eapply acquires_mono; [apply (acquires_mark coop); tauto|lia].
  - eapply acquires_mono; [now apply (acquires_delay coop)|lia].
Qed.

(** ** The theorems *)

(** C3: the spin lock excludes.  However the atomic operations of any number of threads in
    [lock()], [try_lock()] and [unlock()] interleave, the number of threads that own the lock (whose
    last attempt returned a value without the held bit) is one when the held bit of the word is set
    and zero when it is not; and the word of a free lock is the documented one, [0] or
    [kSpinLockCooperative]. *)
Theorem spinlock_mutual_exclusion coop w l :
  reachable coop (w, l) ->
  holders l = (if held w then 1 else 0)%nat /\ in_u 32 w /\
  any_bit w kSpinLockCooperative = coop /\ (held w = false -> w = initial_word coop).
Proof.
  intros R. destruct (lock_reachable_inv coop _ R) as ((U & C & F) & _ & N). cbn [fst snd] in *.
  split; [now rewrite N; destruct (held w)|]. split; [exact U|]. split; [|exact F].
  unfold any_bit. rewrite C. now destruct coop.
Qed.

(** A free spin lock is obtained.  In every reachable state whose word is free, a thread inside
    [lock()], wherever it is (about to read the word, spinning, marking itself as a sleeper, back
    from a delay), has a step to take and, if the others pause, owns the lock after at most eight of
    its own steps, whatever the scheduler, the clock and the spin count answer. *)
Lemma spinlock_progress coop w l1 p l2 :
  reachable coop (w, l1 ++ p :: l2) -> held w = false -> waiting p = true -> acquires 8 w p.
Proof.
  intros R H N. destruct (lock_reachable_inv coop _ R) as (W & F & C). cbn [fst snd] in *.
  rewrite H, holders_mid in C. apply Forall_app in F as (_ & F). inversion F as [|? ? P _]; subst.
  apply (acquires_waiting coop); [now split|exact P|exact N|].
  destruct (holding p); [cbn in C; lia|reflexivity].
Qed.

(** The wait time survives the lock word.  The cycles that [SlowUnlock] reports to the
    contention profiler are the waiting time that [EncodeWaitCycles] stored, to the granularity of
    128 cycles and capped at the 29 bits of the field: a wait too short to count is the mark of a
    sleeper and is not reported, and a reported wait is never mistaken for that mark. *)
Lemma wait_cycles_roundtrip s e wc flags :
  EncodeWaitCycles s e = Some wc -> 0 <= s <= e -> 0 <= flags < 8 ->
  SlowUnlock_profile (wc .| flags) =
    (if e - s <? 128 then None else Some (128 * Z.max 2 (Z.min ((e - s) / 128) (2 ^ 29 - 1)))).
Proof.
  intros E O B. destruct (EncodeWaitCycles_ok _ _ _ E) as ((R & _) & _).
  unfold SlowUnlock_profile, DecodeWaitCycles. rewrite wait_field_flags by assumption. clear R.
  apply EncodeWaitCycles_units in E; [|exact O]. rewrite E. clear E.
  match goal with |- context [8 * ?u / 8] => rewrite (Z.mul_comm 8 u), Z.div_mul by lia end. rewrite Z.shiftl_mul_pow2 by discriminate.
  change (2 ^ (kProfileTimestampShift - kLockwordReservedShift)) with 16. unfold kSpinLockSleeper.
  destruct ((e - s) / 128 =? 0) eqn:Q; zbool.
  - rewrite (proj2 (Z.ltb_lt (e - s) 128)) by zlia. reflexivity.
  - rewrite (proj2 (Z.ltb_ge (e - s) 128)) by zlia.
    match goal with |- context [?a =? 8] => rewrite (proj2 (Z.eqb_neq a 8)) by lia end. f_equal. lia.
Qed.

(** ** Witnesses *)

(** Two threads: the first takes a cooperative lock, the second finds it held and has spun. *)
Definition contended : system := (3, [Locked; SpinLoop 1 true]).

Lemma contended_reachable : reachable true contended.
Proof.
  unfold contended.
  eapply reach_step; [|apply (step_thread 3 [Locked] (SpinLoopStart true) []); apply in_SpinLoop, t_spin_start].
  eapply reach_step; [|apply (step_thread 3 [Locked] (TryLockInternal (InTryLockImpl true) 3 0) []); now apply in_TryLockInternal, (t_try_held 3 (InTryLockImpl true) 3 0)].
  eapply reach_step; [|apply (step_thread 3 [Locked] (LoadWord true) []); apply in_TryLockImpl, t_load].
  eapply reach_step; [|apply (step_thread 3 [Locked] Idle []); apply in_TryLockImpl, t_lock].
  eapply reach_step; [|apply (step_thread 2 [] (TryLockInternal (InTryLockImpl true) 2 0) [Idle] 3 Locked);
    apply in_TryLockInternal, (t_try_won 2 (InTryLockImpl true) 0 0); auto].
  eapply reach_step; [|apply (step_thread 2 [] (LoadWord true) [Idle]); apply in_TryLockImpl, t_load].
  eapply reach_step; [|apply (step_thread 2 [] Idle [Idle]); apply in_TryLockImpl, t_lock].
  exact (reach_init true 2).
Qed.

Lemma released_reachable : reachable true (2, [Idle; SpinLoop 1 true]).
Proof.
  eapply reach_step; [|apply (step_thread 3 [] (UnlockExchange 3) [SpinLoop 1 true] 2 Idle); exact (in_unlock _ _ _ _ (t_exchange 3 3))].
  eapply reach_step; [|apply (step_thread 3 [] Locked [SpinLoop 1 true]); apply in_unlock, t_unlock].
  exact contended_reachable.
Qed.

Lemma spinlock_mutual_exclusion_witness :
  reachable true contended /\ holders (snd contended) = 1%nat.
Proof.
  split; [exact contended_reachable|].
  exact (proj1 (spinlock_mutual_exclusion true 3 [Locked; SpinLoop 1 true] contended_reachable)).
Defined.

Lemma spinlock_progress_witness : acquires 8 2 (SpinLoop 1 true).
Proof. exact (spinlock_progress true 2 [Idle] (SpinLoop 1 true) [] released_reachable eq_refl eq_refl). Defined.
