(* ===== verification/AsciiChars.v ===== *)
(** ASCII character classes and conversions of [strings/ascii.h] and [strings/ascii.cc], on bytes as
    numbers below 256: the property table with its accessors, the case tables and the table-free
    case folding, and the whitespace operations, the last of which rewrites its string in place. *)
From Stdlib Require Import Ascii String.
From Stdlib Require Import ZArith Lia List Bool.
From S2P Require Import Prelude.
Import ListNotations.
#[local] Open Scope Z_scope.
#[local] Open Scope mach_scope.

(** ** Tables *)

(** The table of the source names the first 128 entries; the rest are zero-initialized. *)
Definition kPropertyBits : list Z :=
  [ 0x40; 0x40; 0x40; 0x40; 0x40; 0x40; 0x40; 0x40; 0x40; 0x68; 0x48; 0x48; 0x48; 0x48; 0x40; 0x40;
    0x40; 0x40; 0x40; 0x40; 0x40; 0x40; 0x40; 0x40; 0x40; 0x40; 0x40; 0x40; 0x40; 0x40; 0x40; 0x40;
    0x28; 0x10; 0x10; 0x10; 0x10; 0x10; 0x10; 0x10; 0x10; 0x10; 0x10; 0x10; 0x10; 0x10; 0x10; 0x10;
    0x84; 0x84; 0x84; 0x84; 0x84; 0x84; 0x84; 0x84; 0x84; 0x84; 0x10; 0x10; 0x10; 0x10; 0x10; 0x10;
    0x10; 0x85; 0x85; 0x85; 0x85; 0x85; 0x85; 0x05; 0x05; 0x05; 0x05; 0x05; 0x05; 0x05; 0x05; 0x05;
    0x05; 0x05; 0x05; 0x05; 0x05; 0x05; 0x05; 0x05; 0x05; 0x05; 0x05; 0x10; 0x10; 0x10; 0x10; 0x10;
    0x10; 0x85; 0x85; 0x85; 0x85; 0x85; 0x85; 0x05; 0x05; 0x05; 0x05; 0x05; 0x05; 0x05; 0x05; 0x05;
    0x05; 0x05; 0x05; 0x05; 0x05; 0x05; 0x05; 0x05; 0x05; 0x05; 0x05; 0x10; 0x10; 0x10; 0x10; 0x40 ]
  ++ repeat 0 128.

Definition kToLower : list Z :=
  [ 0x00; 0x01; 0x02; 0x03; 0x04; 0x05; 0x06; 0x07; 0x08; 0x09; 0x0a; 0x0b; 0x0c; 0x0d; 0x0e; 0x0f;
    0x10; 0x11; 0x12; 0x13; 0x14; 0x15; 0x16; 0x17; 0x18; 0x19; 0x1a; 0x1b; 0x1c; 0x1d; 0x1e; 0x1f;
    0x20; 0x21; 0x22; 0x23; 0x24; 0x25; 0x26; 0x27; 0x28; 0x29; 0x2a; 0x2b; 0x2c; 0x2d; 0x2e; 0x2f;
    0x30; 0x31; 0x32; 0x33; 0x34; 0x35; 0x36; 0x37; 0x38; 0x39; 0x3a; 0x3b; 0x3c; 0x3d; 0x3e; 0x3f;
    0x40; 0x61; 0x62; 0x63; 0x64; 0x65; 0x66; 0x67; 0x68; 0x69; 0x6a; 0x6b; 0x6c; 0x6d; 0x6e; 0x6f;
    0x70; 0x71; 0x72; 0x73; 0x74; 0x75; 0x76; 0x77; 0x78; 0x79; 0x7a; 0x5b; 0x5c; 0x5d; 0x5e; 0x5f;
    0x60; 0x61; 0x62; 0x63; 0x64; 0x65; 0x66; 0x67; 0x68; 0x69; 0x6a; 0x6b; 0x6c; 0x6d; 0x6e; 0x6f;
    0x70; 0x71; 0x72; 0x73; 0x74; 0x75; 0x76; 0x77; 0x78; 0x79; 0x7a; 0x7b; 0x7c; 0x7d; 0x7e; 0x7f;
    0x80; 0x81; 0x82; 0x83; 0x84; 0x85; 0x86; 0x87; 0x88; 0x89; 0x8a; 0x8b; 0x8c; 0x8d; 0x8e; 0x8f;
    0x90; 0x91; 0x92; 0x93; 0x94; 0x95; 0x96; 0x97; 0x98; 0x99; 0x9a; 0x9b; 0x9c; 0x9d; 0x9e; 0x9f;
    0xa0; 0xa1; 0xa2; 0xa3; 0xa4; 0xa5; 0xa6; 0xa7; 0xa8; 0xa9; 0xaa; 0xab; 0xac; 0xad; 0xae; 0xaf;
    0xb0; 0xb1; 0xb2; 0xb3; 0xb4; 0xb5; 0xb6; 0xb7; 0xb8; 0xb9; 0xba; 0xbb; 0xbc; 0xbd; 0xbe; 0xbf;
    0xc0; 0xc1; 0xc2; 0xc3; 0xc4; 0xc5; 0xc6; 0xc7; 0xc8; 0xc9; 0xca; 0xcb; 0xcc; 0xcd; 0xce; 0xcf;
    0xd0; 0xd1; 0xd2; 0xd3; 0xd4; 0xd5; 0xd6; 0xd7; 0xd8; 0xd9; 0xda; 0xdb; 0xdc; 0xdd; 0xde; 0xdf;
    0xe0; 0xe1; 0xe2; 0xe3; 0xe4; 0xe5; 0xe6; 0xe7; 0xe8; 0xe9; 0xea; 0xeb; 0xec; 0xed; 0xee; 0xef;
    0xf0; 0xf1; 0xf2; 0xf3; 0xf4; 0xf5; 0xf6; 0xf7; 0xf8; 0xf9; 0xfa; 0xfb; 0xfc; 0xfd; 0xfe; 0xff ].

Definition kToUpper : list Z :=
  [ 0x00; 0x01; 0x02; 0x03; 0x04; 0x05; 0x06; 0x07; 0x08; 0x09; 0x0a; 0x0b; 0x0c; 0x0d; 0x0e; 0x0f;
    0x10; 0x11; 0x12; 0x13; 0x14; 0x15; 0x16; 0x17; 0x18; 0x19; 0x1a; 0x1b; 0x1c; 0x1d; 0x1e; 0x1f;
    0x20; 0x21; 0x22; 0x23; 0x24; 0x25; 0x26; 0x27; 0x28; 0x29; 0x2a; 0x2b; 0x2c; 0x2d; 0x2e; 0x2f;
    0x30; 0x31; 0x32; 0x33; 0x34; 0x35; 0x36; 0x37; 0x38; 0x39; 0x3a; 0x3b; 0x3c; 0x3d; 0x3e; 0x3f;
    0x40; 0x41; 0x42; 0x43; 0x44; 0x45; 0x46; 0x47; 0x48; 0x49; 0x4a; 0x4b; 0x4c; 0x4d; 0x4e; 0x4f;
    0x50; 0x51; 0x52; 0x53; 0x54; 0x55; 0x56; 0x57; 0x58; 0x59; 0x5a; 0x5b; 0x5c; 0x5d; 0x5e; 0x5f;
    0x60; 0x41; 0x42; 0x43; 0x44; 0x45; 0x46; 0x47; 0x48; 0x49; 0x4a; 0x4b; 0x4c; 0x4d; 0x4e; 0x4f;
    0x50; 0x51; 0x52; 0x53; 0x54; 0x55; 0x56; 0x57; 0x58; 0x59; 0x5a; 0x7b; 0x7c; 0x7d; 0x7e; 0x7f;
    0x80; 0x81; 0x82; 0x83; 0x84; 0x85; 0x86; 0x87; 0x88; 0x89; 0x8a; 0x8b; 0x8c; 0x8d; 0x8e; 0x8f;
    0x90; 0x91; 0x92; 0x93; 0x94; 0x95; 0x96; 0x97; 0x98; 0x99; 0x9a; 0x9b; 0x9c; 0x9d; 0x9e; 0x9f;
    0xa0; 0xa1; 0xa2; 0xa3; 0xa4; 0xa5; 0xa6; 0xa7; 0xa8; 0xa9; 0xaa; 0xab; 0xac; 0xad; 0xae; 0xaf;
    0xb0; 0xb1; 0xb2; 0xb3; 0xb4; 0xb5; 0xb6; 0xb7; 0xb8; 0xb9; 0xba; 0xbb; 0xbc; 0xbd; 0xbe; 0xbf;
    0xc0; 0xc1; 0xc2; 0xc3; 0xc4; 0xc5; 0xc6; 0xc7; 0xc8; 0xc9; 0xca; 0xcb; 0xcc; 0xcd; 0xce; 0xcf;
    0xd0; 0xd1; 0xd2; 0xd3; 0xd4; 0xd5; 0xd6; 0xd7; 0xd8; 0xd9; 0xda; 0xdb; 0xdc; 0xdd; 0xde; 0xdf;
    0xe0; 0xe1; 0xe2; 0xe3; 0xe4; 0xe5; 0xe6; 0xe7; 0xe8; 0xe9; 0xea; 0xeb; 0xec; 0xed; 0xee; 0xef;
    0xf0; 0xf1; 0xf2; 0xf3; 0xf4; 0xf5; 0xf6; 0xf7; 0xf8; 0xf9; 0xfa; 0xfb; 0xfc; 0xfd; 0xfe; 0xff ].

(** An entry of a 256-entry table at an [unsigned char]. *)
Definition entry (t : list Z) (c : Z) : Z := nth (Z.to_nat c) t 0.

Definition has_property (mask c : Z) : bool := negb ((entry kPropertyBits c .& mask) =? 0).

Definition ascii_isalpha (c : Z) : bool := has_property 0x01 c.
Definition ascii_isalnum (c : Z) : bool := has_property 0x04 c.
Definition ascii_isspace (c : Z) : bool := has_property 0x08 c.
Definition ascii_ispunct (c : Z) : bool := has_property 0x10 c.
Definition ascii_isblank (c : Z) : bool := has_property 0x20 c.
Definition ascii_iscntrl (c : Z) : bool := has_property 0x40 c.
Definition ascii_isxdigit (c : Z) : bool := has_property 0x80 c.
Definition ascii_isdigit (c : Z) : bool := (c >=? chr "0") && (c <=? chr "9").
Definition ascii_isprint (c : Z) : bool := (c >=? 32) && (c <? 127).
Definition ascii_isgraph (c : Z) : bool := (c >? 32) && (c <? 127).
Definition ascii_isupper (c : Z) : bool := (c >=? chr "A") && (c <=? chr "Z").
Definition ascii_islower (c : Z) : bool := (c >=? chr "a") && (c <=? chr "z").
Definition ascii_isascii (c : Z) : bool := c <? 128.
Definition ascii_tolower (c : Z) : Z := entry kToLower c.
Definition ascii_toupper (c : Z) : Z := entry kToUpper c.

(** ** Case folding *)
Definition AsciiInAZRange (ToUpper : bool) (c : Z) : bool :=
  let sub := wrapu 8 ((if ToUpper then chr "a" else chr "A") - -128) in
  let threshold := -128 + 26 in
  let u := c -[8] sub in
  wraps 8 u <? threshold.

Definition AsciiInAZRangeNaive (ToUpper : bool) (c : Z) : bool :=
  let a := if ToUpper then chr "a" else chr "A" in
  let z := if ToUpper then chr "z" else chr "Z" in
  (a <=? c) && (c <=? z).

Definition AsciiStrCaseFoldImpl (ToUpper Naive : bool) (src : list Z) : list Z :=
  let kAsciiCaseBitFlip := chr "a" .^ chr "A" in
  map (fun v => v .^ (if (if Naive then AsciiInAZRangeNaive ToUpper v else AsciiInAZRange ToUpper v)
                      then kAsciiCaseBitFlip else 0)) src.

Definition AsciiStrCaseFold (ToUpper : bool) (src : list Z) : list Z :=
  if Z.of_nat (length src) <? 16 then AsciiStrCaseFoldImpl ToUpper true src
  else AsciiStrCaseFoldImpl ToUpper false src.

Definition AsciiStrToLower (s : list Z) : list Z := AsciiStrCaseFold false s.
Definition AsciiStrToUpper (s : list Z) : list Z := AsciiStrCaseFold true s.

(** ** Whitespace *)

(** [std::find_if_not] and the suffix that starts there. *)
Fixpoint drop_while (p : Z -> bool) (s : list Z) : list Z :=
  match s with
  | [] => []
  | c :: s' => if p c then drop_while p s' else s
  end.

Definition StripLeadingAsciiWhitespace (s : list Z) : list Z := drop_while ascii_isspace s.

Definition StripTrailingAsciiWhitespace (s : list Z) : list Z := rev (drop_while ascii_isspace (rev s)).

Definition StripAsciiWhitespace (s : list Z) : list Z :=
  StripTrailingAsciiWhitespace (StripLeadingAsciiWhitespace s).

(** The loop of [RemoveExtraAsciiWhitespace]: [n] characters left, the input and the output
    iterators as indices of the one buffer. *)
Fixpoint remove_loop (n : nat) (buf : list Z) (input_it output_it : Z) (is_ws : bool) : option (list Z * Z) :=
  match n with
  | O => Some (buf, output_it)
  | S n' =>
      do c <- read buf input_it;
      let '(is_ws, output_it) :=
        if is_ws then (if ascii_isspace c then (true, output_it - 1) else (false, output_it))
        else (ascii_isspace c, output_it) in
      do buf <- write buf output_it c;
      remove_loop n' buf (input_it + 1) (output_it + 1) is_ws
  end.

Definition RemoveExtraAsciiWhitespace (s : list Z) : option (list Z) :=
  let stripped := StripAsciiWhitespace s in
  match stripped with
  | [] => Some []
  | _ =>
      let input_it := Z.of_nat (length s - length (StripLeadingAsciiWhitespace s)) in
      do (buf, output_it) <- remove_loop (length stripped) s input_it 0 false;
      Some (firstn (Z.to_nat output_it) buf)
  end.

(** ** Bytes, checked one by one *)
Lemma byte_check (p : Z -> bool) : forallb_below 256 p = true -> forall c, in_u 8 c -> p c = true.
Proof. intros H c R. apply (forallb_below_spec 256 p H). exact R. Qed.

(** The classes as ranges. *)
Definition in_range (a z : ascii) (c : Z) : bool := (chr a <=? c) && (c <=? chr z).
Definition alpha (c : Z) : bool := in_range "A" "Z" c || in_range "a" "z" c.
Definition digit (c : Z) : bool := in_range "0" "9" c.
Definition xdigit (c : Z) : bool := digit c || in_range "A" "F" c || in_range "a" "f" c.
Definition space (c : Z) : bool := (c =? 32) || ((9 <=? c) && (c <=? 13)).
Definition lower (c : Z) : Z := if in_range "A" "Z" c then c + 32 else c.
Definition upper (c : Z) : Z := if in_range "a" "z" c then c - 32 else c.

Definition class_check (c : Z) : bool :=
  eqb (ascii_isalpha c) (alpha c) && eqb (ascii_isalnum c) (alpha c || digit c)
  && eqb (ascii_isspace c) (space c) && eqb (ascii_ispunct c) (ascii_isgraph c && negb (alpha c || digit c))
  && eqb (ascii_isblank c) ((c =? 32) || (c =? 9)) && eqb (ascii_iscntrl c) ((c <? 32) || (c =? 127))
  && eqb (ascii_isxdigit c) (xdigit c) && (ascii_tolower c =? lower c) && (ascii_toupper c =? upper c).

Lemma classes c : in_u 8 c ->
  ascii_isalpha c = alpha c /\ ascii_isalnum c = (alpha c || digit c) /\
  ascii_isspace c = space c /\ ascii_ispunct c = (ascii_isgraph c && negb (alpha c || digit c)) /\
  ascii_isblank c = ((c =? 32) || (c =? 9)) /\ ascii_iscntrl c = ((c <? 32) || (c =? 127)) /\
  ascii_isxdigit c = xdigit c /\ ascii_tolower c = lower c /\ ascii_toupper c = upper c.
Proof.
  intros R. assert (C : class_check c = true) by (revert c R; apply byte_check; vm_compute; reflexivity).
  unfold class_check in C. rewrite !andb_true_iff, !eqb_true_iff, !Z.eqb_eq in C. tauto.
Qed.

(** Both folding loops map each byte to its table entry. *)
Lemma fold_byte up naive c : in_u 8 c ->
  (c .^ (if (if (naive : bool) then AsciiInAZRangeNaive up c else AsciiInAZRange up c)
         then chr "a" .^ chr "A" else 0)) = (if up then upper c else lower c).
Proof.
  intros R. apply Z.eqb_eq. revert c R. destruct up, naive; apply byte_check; vm_compute; reflexivity.
Qed.

Lemma AsciiStrCaseFold_map up s :
  Forall (in_u 8) s -> AsciiStrCaseFold up s = map (if up then upper else lower) s.
Proof.
  intros F. unfold AsciiStrCaseFold, AsciiStrCaseFoldImpl.
  rewrite Forall_forall in F.
  destruct (_ <? 16); apply map_ext_in; intros c I;
    [etransitivity; [apply (fold_byte up true); auto|]|etransitivity; [apply (fold_byte up false); auto|]];
    now destruct up.
Qed.

(** ** Squeezing whitespace *)

(** Of every run of whitespace the last character stays. *)
Fixpoint squeeze (s : list Z) : list Z :=
  match s with
  | [] => []
  | c :: s' =>
      match s' with
      | d :: _ => if ascii_isspace c && ascii_isspace d then squeeze s' else c :: squeeze s'
      | [] => [c]
      end
  end.

Lemma squeeze_cons c d s :
  squeeze (c :: d :: s) = if ascii_isspace c && ascii_isspace d then squeeze (d :: s) else c :: squeeze (d :: s).
Proof. reflexivity. Qed.

Lemma drop_while_app p s : exists pre, s = pre ++ drop_while p s /\ forallb p pre = true.
Proof.
  induction s as [|c s (pre & E & F)]; [now exists []|]. cbn. destruct (p c) eqn:P.
  - exists (c :: pre). cbn. rewrite P, <- E. auto.
  - now exists [].
Qed.

Lemma strip_split s :
  exists post, StripLeadingAsciiWhitespace s = StripAsciiWhitespace s ++ post /\ forallb ascii_isspace post = true.
Proof.
  unfold StripAsciiWhitespace, StripTrailingAsciiWhitespace. set (t := StripLeadingAsciiWhitespace s).
  destruct (drop_while_app ascii_isspace (rev t)) as (pre & E & F). exists (rev pre).
  rewrite <- rev_app_distr, <- E, rev_involutive. split; [reflexivity|].
  rewrite forallb_forall in *. intros x I. apply F. now apply in_rev.
Qed.

(** Moving the next input character down to the output position. *)
Lemma move_down (acc gap : list Z) c t :
  exists gap', length gap' = length gap /\
  read (acc ++ gap ++ c :: t) (Z.of_nat (length acc + length gap)) = Some c /\
  write (acc ++ gap ++ c :: t) (Z.of_nat (length acc)) c = Some ((acc ++ [c]) ++ gap' ++ t).
Proof.
  assert (W : forall x rest, write (acc ++ x :: rest) (Z.of_nat (length acc)) c = Some (acc ++ c :: rest)).
  { intros x rest. rewrite write_some by (rewrite length_app; cbn; lia). rewrite Nat2Z.id. f_equal.
    induction acc; cbn; congruence. }
  assert (R : read (acc ++ gap ++ c :: t) (Z.of_nat (length acc + length gap)) = Some c).
  { rewrite app_assoc, <- length_app, (read_some _ _ 0) by (rewrite !length_app; cbn; lia).
    rewrite Nat2Z.id, app_nth2, Nat.sub_diag by lia. reflexivity. }
  destruct gap as [|g gap]; [exists []|exists (gap ++ [c])]; (split; [rewrite ?length_app; cbn; lia|]);
    (split; [exact R|]); rewrite <- !app_assoc; apply W.
Qed.

Lemma remove_loop_spec rem : forall acc gap tail,
  (exists buf o, remove_loop (length rem) (acc ++ gap ++ rem ++ tail)
       (Z.of_nat (length acc + length gap)) (Z.of_nat (length acc)) false = Some (buf, o) /\
     firstn (Z.to_nat o) buf = acc ++ squeeze rem) /\
  (forall w, ascii_isspace w = true ->
   exists buf o, remove_loop (length rem) ((acc ++ [w]) ++ gap ++ rem ++ tail)
       (Z.of_nat (length (acc ++ [w]) + length gap)) (Z.of_nat (length (acc ++ [w]))) true = Some (buf, o) /\
     firstn (Z.to_nat o) buf = acc ++ squeeze (w :: rem)).
Proof.
  assert (L : forall (a : list Z) c, Z.of_nat (length a) + 1 = Z.of_nat (length (a ++ [c])))
    by (intros; rewrite length_app; cbn; lia).
  induction rem as [|c r IH]; intros acc gap tail; split.
  - exists (acc ++ gap ++ tail), (Z.of_nat (length acc)). split; [reflexivity|].
    now rewrite Nat2Z.id, firstn_app, Nat.sub_diag, firstn_all.
  - intros w Hw. exists ((acc ++ [w]) ++ gap ++ tail), (Z.of_nat (length (acc ++ [w]))). split; [reflexivity|].
    rewrite Nat2Z.id, firstn_app, Nat.sub_diag, firstn_all. cbn. now rewrite app_nil_r.
  - destruct (move_down acc gap c (r ++ tail)) as (gap' & Lg & R & W).
    cbn [length remove_loop app]. rewrite R. cbn [obind]. rewrite W. cbn [obind].
    replace (Z.of_nat (length acc + length gap) + 1) with (Z.of_nat (length (acc ++ [c]) + length gap'))
      by (rewrite length_app; cbn; lia). rewrite (L acc c).
    destruct (ascii_isspace c) eqn:Hc; [exact (proj2 (IH acc gap' tail) c Hc)|].
    destruct (proj1 (IH (acc ++ [c]) gap' tail)) as (buf & o & E & F). exists buf, o. split; [exact E|].
    rewrite F, <- app_assoc. destruct r; [reflexivity|]. rewrite squeeze_cons, Hc. reflexivity.
  - intros w Hw. destruct (ascii_isspace c) eqn:Hc.
    + destruct (move_down acc (w :: gap) c (r ++ tail)) as (gap' & Lg & R & W). cbn [length] in Lg, R.
      replace ((acc ++ [w]) ++ gap ++ (c :: r) ++ tail) with (acc ++ (w :: gap) ++ c :: r ++ tail)
        by (now rewrite <- !app_assoc).
      replace (length (acc ++ [w]) + length gap)%nat with (length acc + length (w :: gap))%nat
        by (rewrite length_app; cbn; lia).
      cbn [length remove_loop]. rewrite R. cbn [obind]. rewrite Hc, <- (L acc w), Z.add_simpl_r, W. cbn [obind].
      replace (Z.of_nat (length acc + S (length gap)) + 1) with (Z.of_nat (length (acc ++ [c]) + length gap'))
        by (rewrite length_app; cbn; lia). rewrite (L acc c).
      rewrite squeeze_cons, Hw, Hc. exact (proj2 (IH acc gap' tail) c Hc).
    + destruct (move_down (acc ++ [w]) gap c (r ++ tail)) as (gap' & Lg & R & W).
      cbn [length remove_loop app]. rewrite R. cbn [obind]. rewrite Hc, W. cbn [obind].
      replace (Z.of_nat (length (acc ++ [w]) + length gap) + 1)
        with (Z.of_nat (length ((acc ++ [w]) ++ [c]) + length gap')) by (rewrite !length_app; cbn; lia).
      rewrite (L (acc ++ [w]) c).
      destruct (proj1 (IH ((acc ++ [w]) ++ [c]) gap' tail)) as (buf & o & E & F). exists buf, o. split; [exact E|].
      rewrite F, squeeze_cons, Hw, Hc, <- !app_assoc. destruct r; [reflexivity|]. now rewrite (squeeze_cons c), Hc.
Qed.

Lemma RemoveExtra_spec s : RemoveExtraAsciiWhitespace s = Some (squeeze (StripAsciiWhitespace s)).
Proof.
  unfold RemoveExtraAsciiWhitespace.
  destruct (drop_while_app ascii_isspace s) as (pre & E & _). fold (StripLeadingAsciiWhitespace s) in E.
  destruct (strip_split s) as (post & E2 & _).
  destruct (StripAsciiWhitespace s) as [|c r] eqn:S; [reflexivity|].
  set (lead := StripLeadingAsciiWhitespace s) in *. clearbody lead.
  replace (length s - length lead)%nat with (length pre) by (rewrite E, length_app; lia).
  destruct (proj1 (remove_loop_spec (c :: r) [] pre post)) as (buf & o & L & F).
  cbn [app length Nat.add] in L. rewrite E, E2. change ((c :: r) ++ post) with (c :: r ++ post).
  change (Z.of_nat 0) with 0 in L. cbn [length]. rewrite L. cbn [obind]. now rewrite F.
Qed.

Lemma drop_while_hd p s : match drop_while p s with [] => True | c :: _ => p c = false end.
Proof. induction s as [|c s IH]; cbn; [exact I|]. destruct (p c) eqn:P; [exact IH|exact P]. Qed.

(** Neither end of a stripped string is whitespace, and only whitespace was cut. *)
Lemma strip_spec s :
  exists pre post, s = pre ++ StripAsciiWhitespace s ++ post /\
  forallb ascii_isspace (pre ++ post) = true /\
  hd_error (filter ascii_isspace (firstn 1 (StripAsciiWhitespace s))) = None /\
  hd_error (filter ascii_isspace (firstn 1 (rev (StripAsciiWhitespace s)))) = None.
Proof.
  destruct (drop_while_app ascii_isspace s) as (pre & E & F). fold (StripLeadingAsciiWhitespace s) in E.
  destruct (strip_split s) as (post & E2 & F2). exists pre, post.
  split; [now rewrite <- E2|]. split; [now rewrite forallb_app, F, F2|].
  pose proof (drop_while_hd ascii_isspace s) as H. fold (StripLeadingAsciiWhitespace s) in H. rewrite E2 in H.
  pose proof (drop_while_hd ascii_isspace (rev (StripLeadingAsciiWhitespace s))) as H2.
  split.
  - destruct (StripAsciiWhitespace s); [reflexivity|]. cbn in *. now rewrite H.
  - unfold StripAsciiWhitespace, StripTrailingAsciiWhitespace. rewrite rev_involutive.
    destruct (drop_while _ _); [reflexivity|]. cbn. now rewrite H2.
Qed.

(** ** The theorem *)

(** ASCII text.  On every byte the property table answers the character classes of its
    documentation and the case tables convert exactly the letters; the vectorizable and the naive
    case folding both agree with the tables on whole strings, at every length; stripping cuts
    whitespace only and leaves none at either end; and [RemoveExtraAsciiWhitespace], although it
    overwrites the string that it reads, stays inside it and returns the stripped string with every
    run of whitespace reduced to its last character. *)
Lemma ascii_text_correct s :
  Forall (in_u 8) s ->
  (forall c, In c s ->
     ascii_isalpha c = alpha c /\ ascii_isalnum c = (alpha c || digit c) /\
     ascii_isspace c = space c /\ ascii_ispunct c = (ascii_isgraph c && negb (alpha c || digit c)) /\
     ascii_isblank c = ((c =? 32) || (c =? 9)) /\ ascii_iscntrl c = ((c <? 32) || (c =? 127)) /\
     ascii_isxdigit c = xdigit c /\ ascii_tolower c = lower c /\ ascii_toupper c = upper c) /\
  AsciiStrToLower s = map ascii_tolower s /\ AsciiStrToUpper s = map ascii_toupper s /\
  RemoveExtraAsciiWhitespace s = Some (squeeze (StripAsciiWhitespace s)) /\
  (exists pre post, s = pre ++ StripAsciiWhitespace s ++ post /\
     forallb ascii_isspace (pre ++ post) = true /\
     hd_error (filter ascii_isspace (firstn 1 (StripAsciiWhitespace s))) = None /\
     hd_error (filter ascii_isspace (firstn 1 (rev (StripAsciiWhitespace s)))) = None).
Proof.
  intros F. pose proof F as F'. rewrite Forall_forall in F'.
  split; [intros c I; apply classes; auto|].
  split; [|split; [|split; [apply RemoveExtra_spec|apply strip_spec]]];
    [unfold AsciiStrToLower|unfold AsciiStrToUpper]; rewrite AsciiStrCaseFold_map by exact F;
    apply map_ext_in; intros c I; symmetry; apply classes; auto.
Qed.

Lemma ascii_text_correct_witness :
  AsciiStrToUpper (str "a Swiss  table ") = map ascii_toupper (str "a Swiss  table ") /\
  RemoveExtraAsciiWhitespace (str "  a Swiss  table ") = Some (str "a Swiss table").
Proof.
  assert (F : forall t, forallb (fun c => (0 <=? c) && (c <? 256)) t = true -> Forall (in_u 8) t).
  { intros t H. apply Forall_forall. intros c I. rewrite forallb_forall in H. apply H in I.
    apply andb_true_iff in I. unfold in_u. change (2 ^ 8) with 256. lia. }
  split; [apply ascii_text_correct, F; reflexivity|].
  etransitivity; [apply (ascii_text_correct (str "  a Swiss  table ")), F; reflexivity|]. vm_compute. reflexivity.
Defined.
