(* ===== verification/Utf8.v ===== *)
(** UTF-8 encoding of [strings/internal/utf8.cc]: one code point at a time, and from wide characters
    with the state that carries a surrogate pair from one call to the next. *)
From Stdlib Require Import ZArith Lia List Bool.
From S2P Require Import Prelude.
Import ListNotations.
#[local] Open Scope Z_scope.
#[local] Open Scope mach_scope.

(** The bytes written to [buffer]; their number is the result. *)
Definition EncodeUTF8Char (utf8_char : Z) : list Z :=
  let byte x := wrapu 8 x in
  if utf8_char <=? 0x7F then [byte utf8_char]
  else if utf8_char <=? 0x7FF then
    let b1 := byte (0x80 .| (utf8_char .& 0x3F)) in
    let utf8_char := utf8_char >> 6 in
    let b0 := byte (0xC0 .| utf8_char) in
    [b0; b1]
  else if utf8_char <=? 0xFFFF then
    let b2 := byte (0x80 .| (utf8_char .& 0x3F)) in
    let utf8_char := utf8_char >> 6 in
    let b1 := byte (0x80 .| (utf8_char .& 0x3F)) in
    let utf8_char := utf8_char >> 6 in
    let b0 := byte (0xE0 .| utf8_char) in
    [b0; b1; b2]
  else
    let b3 := byte (0x80 .| (utf8_char .& 0x3F)) in
    let utf8_char := utf8_char >> 6 in
    let b2 := byte (0x80 .| (utf8_char .& 0x3F)) in
    let utf8_char := utf8_char >> 6 in
    let b1 := byte (0x80 .| (utf8_char .& 0x3F)) in
    let utf8_char := utf8_char >> 6 in
    let b0 := byte (0xF0 .| utf8_char) in
    [b0; b1; b2; b3].

Record ShiftState := mk_shift { saw_high_surrogate : bool; bits : Z }.

Definition reset : ShiftState := mk_shift false 0.

(** The bytes written, or [None] for [kError], with the new state; [wide32] tells whether
    [wchar_t] represents values above [0xFFFF]. *)
Definition WideToUtf8 (wide32 : bool) (wc : Z) (s : ShiftState) : option (list Z) * ShiftState :=
  let v := wrapu 32 wc in
  let byte x := wrapu 8 x in
  if v <=? 0x007F then (Some [byte (0x7F .& v)], reset)
  else if (0x0080 <=? v) && (v <=? 0x07FF) then
    (Some [byte (0xC0 .| (0x1F .& (v >> 6))); byte (0x80 .| (0x3F .& v))], reset)
  else if ((0x0800 <=? v) && (v <=? 0xD7FF)) || ((0xE000 <=? v) && (v <=? 0xFFFF)) then
    (Some [byte (0xE0 .| (0x0F .& (v >> 12))); byte (0x80 .| (0x3F .& (v >> 6))); byte (0x80 .| (0x3F .& v))], reset)
  else if (0xD800 <=? v) && (v <=? 0xDBFF) then
    let high_bits_val := byte ((0x0F .& (v >> 6)) + 1) in
    (Some [byte (0xF0 .| (0x07 .& (high_bits_val >> 2)));
           byte (0x80 .| (0x30 .& Z.shiftl high_bits_val 4) .| (0x0F .& (v >> 2)))],
     mk_shift true (byte (0x03 .& v)))
  else if (0xDC00 <=? v) && (v <=? 0xDFFF) then
    if negb (saw_high_surrogate s) then (None, s)
    else
      (Some [byte (0x80 .| (0x30 .& Z.shiftl (bits s) 4) .| (0x0F .& (v >> 6)));
             byte (0x80 .| (0x3F .& v))], reset)
  else if wide32 && ((0x10000 <=? v) && (v <=? 0x10FFFF)) then
    (Some [byte (0xF0 .| (0x07 .& (v >> 18))); byte (0x80 .| (0x3F .& (v >> 12)));
           byte (0x80 .| (0x3F .& (v >> 6))); byte (0x80 .| (0x3F .& v))], reset)
  else (None, reset).

(** ** Reference: the well-formed sequences of the Unicode standard *)
Definition tail_byte (b : Z) : bool := (0x80 <=? b) && (b <=? 0xBF).

(** Unicode scalar values: every code point but the surrogates. *)
Definition scalar (c : Z) : bool := ((0 <=? c) && (c <=? 0xD7FF)) || ((0xE000 <=? c) && (c <=? 0x10FFFF)).

(** Reads one character: shortest form only. *)
Definition decode (s : list Z) : option (Z * list Z) :=
  let accept lo c rest := if (lo <=? c) && scalar c then Some (c, rest) else None in
  match s with
  | b0 :: rest =>
      if (0 <=? b0) && (b0 <=? 0x7F) then Some (b0, rest)
      else if (0xC0 <=? b0) && (b0 <=? 0xDF) then
        match rest with
        | b1 :: rest => if tail_byte b1 then accept 0x80 ((b0 - 0xC0) * 64 + (b1 - 0x80)) rest else None
        | _ => None
        end
      else if (0xE0 <=? b0) && (b0 <=? 0xEF) then
        match rest with
        | b1 :: b2 :: rest =>
            if tail_byte b1 && tail_byte b2
            then accept 0x800 ((b0 - 0xE0) * 4096 + (b1 - 0x80) * 64 + (b2 - 0x80)) rest else None
        | _ => None
        end
      else if (0xF0 <=? b0) && (b0 <=? 0xF7) then
        match rest with
        | b1 :: b2 :: b3 :: rest =>
            if tail_byte b1 && tail_byte b2 && tail_byte b3
            then accept 0x10000 ((b0 - 0xF0) * 262144 + (b1 - 0x80) * 4096 + (b2 - 0x80) * 64 + (b3 - 0x80)) rest
            else None
        | _ => None
        end
      else None
  | [] => None
  end.

(** ** The bit operations as arithmetic *)
Lemma low_bits k m x : 0 <= k -> m = Z.ones k -> m .& x = x mod 2 ^ k /\ x .& m = x mod 2 ^ k.
Proof. intros Hk ->. now rewrite (Z.land_comm (Z.ones k)), Z.land_ones. Qed.

Lemma lead_bits k m h x : 0 <= k -> m = h * 2 ^ k -> 0 <= x < 2 ^ k -> m .| x = m + x.
Proof.
  intros Hk -> Hx. rewrite Z.lor_comm, <- Z.shiftl_mul_pow2, (lor_lohi k x h) by (auto; split; lia).
  rewrite Z.shiftl_mul_pow2; lia.
Qed.

(** The bytes as quotients and remainders. *)
Definition utf8_bytes (c : Z) : list Z :=
  if c <=? 0x7F then [c]
  else if c <=? 0x7FF then [0xC0 + c / 64; 0x80 + c mod 64]
  else if c <=? 0xFFFF then [0xE0 + c / 4096; 0x80 + c / 64 mod 64; 0x80 + c mod 64]
  else [0xF0 + c / 262144; 0x80 + c / 4096 mod 64; 0x80 + c / 64 mod 64; 0x80 + c mod 64].

Lemma byte_tail x : wrapu 8 (0x80 .| (x .& 0x3F)) = 0x80 + x mod 64.
Proof.
  rewrite (proj2 (low_bits 6 0x3F x ltac:(lia) eq_refl)). change (2 ^ 6) with 64.
  rewrite (lead_bits 6 0x80 2) by (try reflexivity; change (2 ^ 6) with 64; zlia).
  apply wrapu_small. change (2 ^ 8) with 256. zlia.
Qed.

Lemma byte_lead m k h x : 0 <= k -> m = h * 2 ^ k -> 0 <= x < 2 ^ k -> 0 <= m -> m + x < 256 ->
  wrapu 8 (m .| x) = m + x.
Proof.
  intros Hk Hm Hx P B. rewrite (lead_bits k m h) by assumption. apply wrapu_small. change (2 ^ 8) with 256. lia.
Qed.

Ltac shifts := rewrite ?Z.shiftr_shiftr, ?Z.shiftr_div_pow2 by lia; change (6 + 6 + 6) with 18; change (6 + 6) with 12;
  change (2 ^ 6) with 64 in *; change (2 ^ 12) with 4096 in *; change (2 ^ 18) with 262144 in *.

Lemma EncodeUTF8Char_bytes c : 0 <= c <= 0x10FFFF -> EncodeUTF8Char c = utf8_bytes c.
Proof.
  intros H. unfold EncodeUTF8Char, utf8_bytes.
  destruct (c <=? 0x7F) eqn:E1; zbool; [now rewrite wrapu_small by (change (2 ^ 8) with 256; lia)|].
  destruct (c <=? 0x7FF) eqn:E2; zbool; [|destruct (c <=? 0xFFFF) eqn:E3; zbool]; rewrite !byte_tail; shifts;
    (f_equal; []); [apply (byte_lead 0xC0 6 3)|apply (byte_lead 0xE0 5 7)|apply (byte_lead 0xF0 4 15)];
    try reflexivity; try lia; change (2 ^ 6) with 64; change (2 ^ 5) with 32; change (2 ^ 4) with 16; zlia.
Qed.

Lemma decode_bytes c rest : scalar c = true -> decode (utf8_bytes c ++ rest) = Some (c, rest).
Proof.
  intros S. pose proof S as S'. unfold scalar in S'. apply orb_true_iff in S'.
  assert (H : 0 <= c <= 0x10FFFF) by (destruct S' as [S'|S']; apply andb_true_iff in S' as [A B]; zbool; lia).
  clear S'. unfold utf8_bytes, decode, tail_byte.
  destruct (c <=? 0x7F) eqn:E1; zbool; [cbn [app]; decide_cmp; reflexivity|].
  destruct (c <=? 0x7FF) eqn:E2; zbool; [|destruct (c <=? 0xFFFF) eqn:E3; zbool]; cbn [app].
  - set (q := c / 64). set (r := c mod 64). assert (c = q * 64 + r /\ 0 <= r < 64 /\ 2 <= q < 32) by (unfold q, r; zlia).
    decide_cmp. cbn [andb]. replace ((192 + q - 192) * 64 + (128 + r - 128)) with c by lia.
    decide_cmp. now rewrite S.
  - set (q := c / 4096). set (m := c / 64 mod 64). set (r := c mod 64).
    assert (c = q * 4096 + m * 64 + r /\ 0 <= r < 64 /\ 0 <= m < 64 /\ 0 <= q < 16) by (unfold q, m, r; zlia).
    decide_cmp. cbn [andb]. replace ((224 + q - 224) * 4096 + (128 + m - 128) * 64 + (128 + r - 128)) with c by lia.
    decide_cmp. now rewrite S.
  - set (q := c / 262144). set (n := c / 4096 mod 64). set (m := c / 64 mod 64). set (r := c mod 64).
    assert (c = q * 262144 + n * 4096 + m * 64 + r /\ 0 <= r < 64 /\ 0 <= m < 64 /\ 0 <= n < 64 /\ 0 <= q < 5)
      by (unfold q, n, m, r; zlia).
    decide_cmp. cbn [andb].
    replace ((240 + q - 240) * 262144 + (128 + n - 128) * 4096 + (128 + m - 128) * 64 + (128 + r - 128)) with c by lia.
    decide_cmp. now rewrite S.
Qed.

Lemma byte_tail_l x : wrapu 8 (0x80 .| (0x3F .& x)) = 0x80 + x mod 64.
Proof. rewrite Z.land_comm. apply byte_tail. Qed.

(** A continuation byte put together from two bits and four bits. *)
Lemma surrogate_byte x y : wrapu 8 (0x80 .| (0x30 .& Z.shiftl x 4) .| (0x0F .& y)) = 0x80 + 16 * (x mod 4) + y mod 16.
Proof.
  change 0x30 with (Z.shiftl 3 4). rewrite <- Z.shiftl_land, (proj1 (low_bits 2 3 x ltac:(lia) eq_refl)).
  rewrite (proj1 (low_bits 4 0x0F y ltac:(lia) eq_refl)), Z.shiftl_mul_pow2 by lia.
  change (2 ^ 2) with 4. change (2 ^ 4) with 16.
  rewrite (lead_bits 6 0x80 2) by (try reflexivity; change (2 ^ 6) with 64; zlia).
  rewrite (lead_bits 4 (128 + x mod 4 * 16) (8 + x mod 4)) by (change (2 ^ 4) with 16; zlia).
  rewrite wrapu_small by (change (2 ^ 8) with 256; zlia). lia.
Qed.

Ltac small_byte := apply wrapu_small; change (2 ^ 8) with 256; zlia.

(** Outside the surrogates a wide character is its code point. *)
Lemma WideToUtf8_scalar wide32 c s :
  scalar c = true -> c <= 0xFFFF \/ wide32 = true -> WideToUtf8 wide32 c s = (Some (utf8_bytes c), reset).
Proof.
  intros S Wd. unfold scalar in S. apply orb_true_iff in S. unfold WideToUtf8, utf8_bytes.
  rewrite (wrapu_small 32) by (change (2 ^ 32) with 4294967296; destruct S as [S|S]; apply andb_true_iff in S; zlia).
  assert (R : (0 <= c <= 0xD7FF) \/ (0xE000 <= c <= 0x10FFFF)) by (destruct S as [S|S]; apply andb_true_iff in S; zbool; lia).
  clear S. destruct (c <=? 0x7F) eqn:E1; zbool.
  - rewrite (proj1 (low_bits 7 0x7F c ltac:(lia) eq_refl)), Z.mod_small by (change (2 ^ 7) with 128; lia).
    rewrite wrapu_small by (change (2 ^ 8) with 256; lia). reflexivity.
  - rewrite !byte_tail_l. shifts. destruct (c <=? 0x7FF) eqn:E2; zbool.
    { rewrite (proj2 (Z.leb_le 128 c)) by lia. cbn [andb].
      rewrite (proj1 (low_bits 5 0x1F (c / 64) ltac:(lia) eq_refl)), Z.mod_small by (change (2 ^ 5) with 32; zlia).
      rewrite (byte_lead 0xC0 6 3) by (try reflexivity; change (2 ^ 6) with 64; zlia). reflexivity. }
    rewrite andb_false_r. destruct (c <=? 0xFFFF) eqn:E3; zbool.
    + replace ((0x800 <=? c) && (c <=? 0xD7FF) || (0xE000 <=? c) && true) with true by (symmetry; zlia).
      rewrite (proj1 (low_bits 4 0x0F (c / 4096) ltac:(lia) eq_refl)), Z.mod_small by (change (2 ^ 4) with 16; zlia).
      rewrite (byte_lead 0xE0 5 7) by (try reflexivity; change (2 ^ 5) with 32; zlia). reflexivity.
    + destruct Wd as [Wd | ->]; [lia|]. rewrite !andb_false_r. decide_cmp. cbn [andb orb].
      rewrite (proj1 (low_bits 3 0x07 (c / 262144) ltac:(lia) eq_refl)), Z.mod_small by (change (2 ^ 3) with 8; zlia).
      rewrite (byte_lead 0xF0 4 15) by (try reflexivity; change (2 ^ 4) with 16; zlia). reflexivity.
Qed.

(** The two halves of a supplementary code point. *)
Definition high_half (c : Z) : Z := 0xD800 + (c - 0x10000) / 1024.
Definition low_half (c : Z) : Z := 0xDC00 + (c - 0x10000) mod 1024.

Lemma WideToUtf8_high wide32 c s : 0x10000 <= c <= 0x10FFFF ->
  WideToUtf8 wide32 (high_half c) s =
  (Some [0xF0 + c / 262144; 0x80 + c / 4096 mod 64], mk_shift true (c / 1024 mod 4)).
Proof.
  intros H. unfold WideToUtf8, high_half. set (v := 0xD800 + (c - 0x10000) / 1024).
  assert (V : v = 0xD7C0 + c / 1024 /\ 0xD800 <= v <= 0xDBFF) by (unfold v; zlia). clearbody v. destruct V as [-> V].
  rewrite (wrapu_small 32) by (change (2 ^ 32) with 4294967296; lia). decide_cmp. cbn [andb orb].
  rewrite surrogate_byte. rewrite !Z.shiftr_div_pow2 by lia.
  rewrite (proj1 (low_bits 4 0x0F _ ltac:(lia) eq_refl)), (proj1 (low_bits 2 0x03 _ ltac:(lia) eq_refl)).
  change (2 ^ 6) with 64. change (2 ^ 4) with 16. change (2 ^ 2) with 4.
  assert (Q : ((0xD7C0 + c / 1024) / 64) mod 16 + 1 = c / 65536) by zlia. rewrite Q.
  rewrite !(wrapu_small 8 (c / 65536)), (wrapu_small 8 (_ mod 4)) by (change (2 ^ 8) with 256; zlia).
  rewrite (proj1 (low_bits 3 0x07 _ ltac:(lia) eq_refl)). change (2 ^ 3) with 8.
  rewrite (byte_lead 0xF0 4 15) by (try reflexivity; change (2 ^ 4) with 16; zlia).
  replace (c / 65536 / 4 mod 8) with (c / 262144) by zlia.
  replace (0x80 + 16 * (c / 65536 mod 4) + (0xD7C0 + c / 1024) / 4 mod 16) with (0x80 + c / 4096 mod 64) by zlia.
  replace ((0xD7C0 + c / 1024) mod 4) with (c / 1024 mod 4) by zlia. reflexivity.
Qed.

Lemma WideToUtf8_low wide32 c : 0x10000 <= c <= 0x10FFFF ->
  WideToUtf8 wide32 (low_half c) (mk_shift true (c / 1024 mod 4)) =
  (Some [0x80 + c / 64 mod 64; 0x80 + c mod 64], reset).
Proof.
  intros H. unfold WideToUtf8, low_half. set (v := 0xDC00 + (c - 0x10000) mod 1024).
  assert (V : v = 0xDC00 + c mod 1024 /\ 0xDC00 <= v <= 0xDFFF) by (unfold v; zlia). clearbody v. destruct V as [-> V].
  rewrite (wrapu_small 32) by (change (2 ^ 32) with 4294967296; lia). decide_cmp. cbn [andb orb negb saw_high_surrogate bits].
  rewrite surrogate_byte, byte_tail_l, Z.shiftr_div_pow2 by lia. change (2 ^ 6) with 64.
  replace (0x80 + 16 * ((c / 1024 mod 4) mod 4) + (0xDC00 + c mod 1024) / 64 mod 16) with (0x80 + c / 64 mod 64) by zlia.
  replace ((0xDC00 + c mod 1024) mod 64) with (c mod 64) by zlia. reflexivity.
Qed.

Lemma utf8_four c : 0x10000 <= c ->
  utf8_bytes c = [0xF0 + c / 262144; 0x80 + c / 4096 mod 64] ++ [0x80 + c / 64 mod 64; 0x80 + c mod 64].
Proof. intros H. unfold utf8_bytes. decide_cmp. reflexivity. Qed.

Lemma utf8_length c : (length (utf8_bytes c) <= 4)%nat.
Proof. unfold utf8_bytes. repeat (destruct (_ <=? _)); cbn; lia. Qed.

(** ** The theorem *)

(** UTF-8.  The encoding of every Unicode scalar value is the shortest well-formed sequence of
    at most four bytes, from which the standard's decoder reads the value back, whatever follows.
    [WideToUtf8] writes the same bytes: in one call where the wide character holds the code point,
    and over two calls, with the state between them, for a surrogate pair; a low surrogate that
    does not follow a high one is an error that writes nothing. *)
Lemma utf8_correct c rest wide32 s :
  scalar c = true ->
  decode (EncodeUTF8Char c ++ rest) = Some (c, rest) /\ (length (EncodeUTF8Char c) <= 4)%nat /\
  (c <= 0xFFFF \/ wide32 = true -> WideToUtf8 wide32 c s = (Some (EncodeUTF8Char c), reset)) /\
  (0x10000 <= c ->
     exists hi s1 lo, WideToUtf8 wide32 (high_half c) s = (Some hi, s1) /\
       WideToUtf8 wide32 (low_half c) s1 = (Some lo, reset) /\ hi ++ lo = EncodeUTF8Char c /\
       WideToUtf8 wide32 (low_half c) reset = (None, reset)).
Proof.
  intros S. pose proof S as R. unfold scalar in R. apply orb_true_iff in R.
  assert (H : 0 <= c <= 0x10FFFF) by (destruct R as [R|R]; apply andb_true_iff in R; zlia). clear R.
  rewrite EncodeUTF8Char_bytes by exact H.
  split; [now apply decode_bytes|]. split; [apply utf8_length|]. split; [now apply WideToUtf8_scalar|].
  intros B. rewrite utf8_four by exact B.
  do 3 eexists. split; [apply WideToUtf8_high; lia|]. split; [apply WideToUtf8_low; lia|]. split; [reflexivity|].
  unfold WideToUtf8, low_half.
  rewrite (wrapu_small 32) by (change (2 ^ 32) with 4294967296; zlia).
  assert (0 <= (c - 0x10000) mod 1024 < 1024) by zlia. decide_cmp. reflexivity.
Qed.

Lemma utf8_correct_witness :
  scalar 0x1F600 = true /\ decode (EncodeUTF8Char 0x1F600 ++ [65]) = Some (0x1F600, [65]).
Proof. split; [reflexivity|]. apply (utf8_correct 0x1F600 [65] true reset). reflexivity. Defined.
