(* ===== verification/Escaping.v ===== *)
(** C escape sequences of [strings/escaping.cc]: unescaping into a buffer that may be the source
    itself, escaping by the character-by-character loop and by the lookup tables. *)
From Stdlib Require Import Ascii String.
From Stdlib Require Import ZArith Lia List Bool.
From S2P Require Import Prelude AsciiChars Utf8.
Import ListNotations.
#[local] Open Scope Z_scope.
#[local] Open Scope mach_scope.

(** Characters that Rocq strings do not spell. *)
Definition backslash : Z := 92.
Definition double_quote : Z := 34.

Definition is_octal_digit (c : Z) : bool := (chr "0" <=? c) && (c <=? chr "7").

Definition hex_digit_to_int (c : Z) : Z :=
  let x := if c >? chr "9" then c +[32] 9 else c in
  x .& 0xf.

Definition int_to_hex_digit (i : Z) : Z := if i <? 10 then i + chr "0" else (i - 10) + chr "A".

Definition kHexChar : list Z := str "0123456789abcdef".

(** The message when the code point is a surrogate. *)
Definition IsSurrogate (c : Z) (src : list Z) : option (list Z) :=
  if (c >=? 0xD800) && (c <=? 0xDFFF)
  then Some (str "invalid surrogate character (0xD800-DFFF): \" ++ src)
  else None.

(** ** Unescaping *)

(** The escape after a backslash: an error message, or the bytes to store and the text after the
    escape. *)
Definition escape_result : Type := list Z + (list Z * list Z).

Definition simple_escape (c : Z) : option Z :=
  if c =? chr "a" then Some 7
  else if c =? chr "b" then Some 8
  else if c =? chr "f" then Some 12
  else if c =? chr "n" then Some 10
  else if c =? chr "r" then Some 13
  else if c =? chr "t" then Some 9
  else if c =? chr "v" then Some 11
  else if c =? backslash then Some backslash
  else if c =? chr "?" then Some (chr "?")
  else if c =? chr "'" then Some (chr "'")
  else if c =? double_quote then Some double_quote
  else None.

(** What is stored for the value of a numeric escape whose text, from its first character, is
    [text]. *)
Definition store_char (leave_nulls_escaped : bool) (ch : Z) (text rest : list Z) : escape_result :=
  if (ch =? 0) && leave_nulls_escaped then inr (backslash :: text, rest)
  else inr ([wrapu 8 ch], rest).

(** The optional second and third octal digits. *)
Fixpoint more_octal (n : nat) (ch : Z) (text rest : list Z) : Z * list Z * list Z :=
  match n, rest with
  | S n', c :: rest' =>
      if is_octal_digit c then more_octal n' (ch *[32] 8 +[32] (c - chr "0")) (text ++ [c]) rest'
      else more_octal n' ch text rest
  | _, _ => (ch, text, rest)
  end.

Definition octal_escape (leave_nulls_escaped : bool) (c : Z) (rest : list Z) : escape_result :=
  let '(ch, text, rest) := more_octal 2 (c - chr "0") [c] rest in
  if ch >? 0xff then inl (str "Value of \" ++ text ++ str " exceeds 0xff")
  else store_char leave_nulls_escaped ch text rest.

(** The loop over arbitrarily many hexadecimal digits. *)
Fixpoint hex_loop (leave_nulls_escaped : bool) (ch : Z) (text rest : list Z) : escape_result :=
  match rest with
  | c :: rest' =>
      if ascii_isxdigit c then
        let ch := (ch <<[32] 4) +[32] hex_digit_to_int c in
        if ch >? 0xFF then inl (str "Value of \" ++ (text ++ [c]) ++ str " exceeds 0xff")
        else hex_loop leave_nulls_escaped ch (text ++ [c]) rest'
      else store_char leave_nulls_escaped ch text rest
  | [] => store_char leave_nulls_escaped ch text rest
  end.

Definition hex_escape (leave_nulls_escaped : bool) (x : Z) (rest : list Z) : escape_result :=
  match rest with
  | [] => inl (str "String cannot end with \x")
  | c :: _ =>
      if negb (ascii_isxdigit c) then inl (str "\x cannot be followed by a non-hex digit")
      else hex_loop leave_nulls_escaped 0 [x] rest
  end.

(** [n] hexadecimal digits of [\u] and [\U]; [limited] is the check of the latter against the
    Unicode limit. *)
Fixpoint rune_loop (n : nat) (limited : bool) (message : list Z) (rune : Z) (text rest : list Z)
    : list Z + (Z * list Z * list Z) :=
  match n with
  | O => inr (rune, text, rest)
  | S n' =>
      match rest with
      | c :: rest' =>
          if ascii_isxdigit c then
            let newrune := (rune <<[32] 4) +[32] hex_digit_to_int c in
            if limited && (newrune >? 0x10FFFF)
            then inl (str "Value of \" ++ (text ++ [c]) ++ str " exceeds Unicode limit (0x10FFFF)")
            else rune_loop n' limited message newrune (text ++ [c]) rest'
          else inl (message ++ str ": \" ++ text)
      | [] => inl (message ++ str ": \" ++ text)
      end
  end.

Definition unicode_escape (n : nat) (limited leave_nulls_escaped : bool) (message : list Z) (u : Z) (rest : list Z)
    : escape_result :=
  if (length rest <? n)%nat then inl message
  else
    match rune_loop n limited message 0 [u] rest with
    | inl m => inl m
    | inr (rune, text, rest) =>
        if (rune =? 0) && leave_nulls_escaped then inr (backslash :: text, rest)
        else
          match IsSurrogate rune text with
          | Some m => inl m
          | None => inr (EncodeUTF8Char rune, rest)
          end
    end.

Definition escape (leave_nulls_escaped : bool) (rest : list Z) : escape_result :=
  match rest with
  | [] => inl (str "String cannot end with \")
  | c :: rest =>
      match simple_escape c with
      | Some b => inr ([b], rest)
      | None =>
          if is_octal_digit c then octal_escape leave_nulls_escaped c rest
          else if (c =? chr "x") || (c =? chr "X") then hex_escape leave_nulls_escaped c rest
          else if c =? chr "u" then
            unicode_escape 4 false leave_nulls_escaped (str "\u must be followed by 4 hex digits") c rest
          else if c =? chr "U" then
            unicode_escape 8 true leave_nulls_escaped (str "\U must be followed by 8 hex digits") c rest
          else inl (str "Unknown escape sequence: \" ++ [c])
      end
  end.

Inductive unescaped :=
  | Failed (error : list Z)
  | Unescaped (dst : list Z) (dst_size : Z).

(** The source from position [p]: [in_place] when [src] and [dst] are one buffer.  The bytes of an
    escape are stored after it was read: the code copies an escape that it leaves alone towards
    lower positions while it reads on. *)
Definition remaining (in_place : bool) (src dst : list Z) (p : nat) : list Z :=
  skipn p (if in_place then firstn (length src) dst else src).

Fixpoint unescape_loop (fuel : nat) (in_place leave_nulls_escaped : bool) (src dst : list Z) (p : nat) (d : Z)
    : option unescaped :=
  match remaining in_place src dst p with
  | [] => Some (Unescaped dst d)
  | c :: rest =>
      match fuel with
      | O => None
      | S fuel' =>
          if negb (c =? backslash) then
            do dst <- write dst d c;
            unescape_loop fuel' in_place leave_nulls_escaped src dst (S p) (d + 1)
          else
            match escape leave_nulls_escaped rest with
            | inl error => Some (Failed error)
            | inr (bytes, rest) =>
                do dst <- store dst d bytes;
                unescape_loop fuel' in_place leave_nulls_escaped src dst (length src - length rest)
                  (d + Z.of_nat (length bytes))
            end
      end
  end.

(** The prefix without escapes, skipped when unescaping in place. *)
Fixpoint plain_prefix (s : list Z) : nat :=
  match s with
  | c :: s' => if negb (c =? backslash) then S (plain_prefix s') else O
  | [] => O
  end.

Definition CUnescapeInternal (in_place : bool) (src : list Z) (leave_nulls_escaped : bool) (dst : list Z)
    : option unescaped :=
  let p := if in_place then plain_prefix (firstn (length src) dst) else 0%nat in
  unescape_loop (length src) in_place leave_nulls_escaped src dst p (Z.of_nat p).

Definition kUnescapeNulls : bool := false.

(** The result and [*dest] afterwards; [in_place] when [source] is a prefix of [*dest]. *)
Definition CUnescape (in_place : bool) (source dest : list Z) : option (bool * list Z) :=
  let dest := if (length source <=? length dest)%nat then dest else repeat 0 (length source) in
  do r <- CUnescapeInternal in_place source kUnescapeNulls dest;
  match r with
  | Failed _ => Some (false, [])
  | Unescaped dst dst_size => Some (true, firstn (Z.to_nat dst_size) dst)
  end.

(** ** Escaping *)

(** The text of one character, and whether it is a hexadecimal escape. *)
Definition escape_char (use_hex utf8_safe last_hex_escape : bool) (c : Z) : list Z * bool :=
  if c =? 10 then ([backslash; chr "n"], false)
  else if c =? 13 then ([backslash; chr "r"], false)
  else if c =? 9 then ([backslash; chr "t"], false)
  else if c =? double_quote then ([backslash; double_quote], false)
  else if c =? chr "'" then ([backslash; chr "'"], false)
  else if c =? backslash then ([backslash; backslash], false)
  else if (negb utf8_safe || (c <? 0x80)) && (negb (ascii_isprint c) || (last_hex_escape && ascii_isxdigit c)) then
    if use_hex then ([backslash; chr "x"; entry kHexChar (c / 16); entry kHexChar (c mod 16)], true)
    else ([backslash; entry kHexChar (c / 64); entry kHexChar (c mod 64 / 8); entry kHexChar (c mod 8)], false)
  else ([c], false).

Fixpoint escape_loop (use_hex utf8_safe last_hex_escape : bool) (src : list Z) : list Z :=
  match src with
  | [] => []
  | c :: src' =>
      let '(text, is_hex_escape) := escape_char use_hex utf8_safe last_hex_escape c in
      text ++ escape_loop use_hex utf8_safe is_hex_escape src'
  end.

Definition CEscapeInternal (src : list Z) (use_hex utf8_safe : bool) : list Z :=
  escape_loop use_hex utf8_safe false src.

Definition kCEscapedLen : list Z :=
  [ 4; 4; 4; 4; 4; 4; 4; 4; 4; 2; 2; 4; 4; 2; 4; 4;
    4; 4; 4; 4; 4; 4; 4; 4; 4; 4; 4; 4; 4; 4; 4; 4;
    1; 1; 2; 1; 1; 1; 1; 2; 1; 1; 1; 1; 1; 1; 1; 1;
    1; 1; 1; 1; 1; 1; 1; 1; 1; 1; 1; 1; 1; 1; 1; 1;
    1; 1; 1; 1; 1; 1; 1; 1; 1; 1; 1; 1; 1; 1; 1; 1;
    1; 1; 1; 1; 1; 1; 1; 1; 1; 1; 1; 1; 2; 1; 1; 1;
    1; 1; 1; 1; 1; 1; 1; 1; 1; 1; 1; 1; 1; 1; 1; 1;
    1; 1; 1; 1; 1; 1; 1; 1; 1; 1; 1; 1; 1; 1; 1; 4;
    4; 4; 4; 4; 4; 4; 4; 4; 4; 4; 4; 4; 4; 4; 4; 4;
    4; 4; 4; 4; 4; 4; 4; 4; 4; 4; 4; 4; 4; 4; 4; 4;
    4; 4; 4; 4; 4; 4; 4; 4; 4; 4; 4; 4; 4; 4; 4; 4;
    4; 4; 4; 4; 4; 4; 4; 4; 4; 4; 4; 4; 4; 4; 4; 4;
    4; 4; 4; 4; 4; 4; 4; 4; 4; 4; 4; 4; 4; 4; 4; 4;
    4; 4; 4; 4; 4; 4; 4; 4; 4; 4; 4; 4; 4; 4; 4; 4;
    4; 4; 4; 4; 4; 4; 4; 4; 4; 4; 4; 4; 4; 4; 4; 4;
    4; 4; 4; 4; 4; 4; 4; 4; 4; 4; 4; 4; 4; 4; 4; 4 ].

(** The four bytes of the sequence of a character; those after its length are zero. *)
Definition escaped_sequence (c : Z) : list Z :=
  let char_len := entry kCEscapedLen c in
  if char_len =? 1 then [c; 0; 0; 0]
  else if char_len =? 2 then
    [backslash;
     if c =? 10 then chr "n" else if c =? 13 then chr "r" else if c =? 9 then chr "t"
     else if c =? double_quote then double_quote else if c =? chr "'" then chr "'"
     else if c =? backslash then backslash else 0; 0; 0]
  else [backslash; chr "0" + c / 64; chr "0" + c mod 64 / 8; chr "0" + c mod 8].

Definition kCEscapedSequence : list (list Z) := map (fun c => escaped_sequence (Z.of_nat c)) (seq 0 256).

Definition size_max : Z := 2 ^ 64 - 1.

(** Without a check up to [unchecked_limit] characters, then with the check that aborts. *)
Fixpoint length_loop (unchecked : Z) (src : list Z) (escaped_len : Z) : option Z :=
  match src with
  | [] => Some escaped_len
  | c :: src' =>
      let char_len := entry kCEscapedLen c in
      if 0 <? unchecked then length_loop (unchecked - 1) src' (escaped_len +[64] char_len)
      else if escaped_len <=? size_max - char_len then length_loop 0 src' (escaped_len +[64] char_len)
      else None
  end.

Definition CEscapedLength (src : list Z) : option Z :=
  length_loop (Z.min (Z.of_nat (length src)) (size_max / 4)) src 0.

(** The loop of four-byte copies into the appended buffer. *)
Fixpoint copy_loop (src : list Z) (buf : list Z) (append_ptr : Z) : option (list Z) :=
  match src with
  | [] => Some buf
  | c :: src' =>
      do buf <- store buf append_ptr (nth (Z.to_nat c) kCEscapedSequence []);
      copy_loop src' buf (append_ptr + entry kCEscapedLen c)
  end.

(** What is appended to [dest]; the appended buffer starts with unspecified contents [fill]. *)
Definition CEscapeAndAppendInternal (fill : Z) (src dest : list Z) : option (list Z) :=
  do escaped_len <- CEscapedLength src;
  if escaped_len =? Z.of_nat (length src) then Some (dest ++ src)
  else
    let kSlopBytes := 3 in
    if escaped_len <=? size_max - kSlopBytes then
      let append_buf_len := escaped_len +[64] kSlopBytes in
      do buf <- copy_loop src (repeat fill (Z.to_nat append_buf_len)) 0;
      Some (dest ++ firstn (Z.to_nat escaped_len) buf)
    else None.

Definition CEscape (fill : Z) (src : list Z) : option (list Z) := CEscapeAndAppendInternal fill src [].
Definition CHexEscape (src : list Z) : list Z := CEscapeInternal src true false.
Definition Utf8SafeCEscape (src : list Z) : list Z := CEscapeInternal src false true.
Definition Utf8SafeCHexEscape (src : list Z) : list Z := CEscapeInternal src true true.

(** ** The text of an escape *)

Lemma simple_or_digit c : is_octal_digit c = true -> simple_escape c = None.
Proof.
  unfold is_octal_digit. rewrite andb_true_iff, !Z.leb_le. change (chr "0") with 48. change (chr "7") with 55. intros H.
  assert (D : c = 48 \/ c = 49 \/ c = 50 \/ c = 51 \/ c = 52 \/ c = 53 \/ c = 54 \/ c = 55) by lia.
  repeat (destruct D as [-> |D]; [reflexivity|]). now subst.
Qed.

Lemma more_octal_text n ch text rest ch' text' rest' :
  more_octal n ch text rest = (ch', text', rest') -> text' ++ rest' = text ++ rest /\ (length text <= length text')%nat.
Proof.
  revert ch text rest. induction n as [|n IH]; intros ch text rest; cbn; [intros [= <- <- <-]; auto|].
  destruct rest as [|c rest]; [intros [= <- <- <-]; auto|].
  destruct (is_octal_digit c); intros H; apply IH in H; [|exact H].
  rewrite <- app_assoc, length_app in H. cbn in H. split; [apply H|lia].
Qed.

(** The bytes of a result fit in the text that it consumed, with its backslash. *)
Definition fits (text rest : list Z) (r : escape_result) : Prop :=
  match r with
  | inl _ => True
  | inr (bytes, rest') =>
      exists used, text ++ rest = used ++ rest' /\ (length bytes <= S (length used))%nat /\ used <> []
  end.

Lemma store_char_fits l ch text rest : text <> [] -> fits text rest (store_char l ch text rest).
Proof.
  intros N. unfold store_char. destruct (_ && _); exists text; cbn; repeat split; auto; lia.
Qed.

Lemma octal_escape_fits l c rest : fits [c] rest (octal_escape l c rest).
Proof.
  unfold octal_escape. destruct (more_octal 2 _ [c] rest) as [[ch text] rest'] eqn:E.
  apply more_octal_text in E as (E & L). destruct (ch >? 0xff); [exact I|].
  assert (N : text <> []) by (destruct text; cbn in L; [lia|discriminate]).
  pose proof (store_char_fits l ch text rest' N) as F. unfold fits in *.
  destruct (store_char _ _ _ _) as [|[bytes r]]; [exact I|].
  destruct F as (used & E2 & F). exists used. now rewrite <- E.
Qed.

Lemma hex_loop_fits l rest : forall ch text, text <> [] -> fits text rest (hex_loop l ch text rest).
Proof.
  induction rest as [|c rest IH]; intros ch text N; cbn [hex_loop]; [now apply store_char_fits|].
  destruct (ascii_isxdigit c); [|now apply store_char_fits].
  destruct (_ >? _); [exact I|].
  pose proof (IH ((ch <<[32] 4) +[32] hex_digit_to_int c) (text ++ [c])) as F. unfold fits in *.
  destruct (hex_loop _ _ _ _) as [|[bytes r]]; [exact I|].
  rewrite <- app_assoc in F. apply F. destruct text; discriminate.
Qed.

Lemma rune_loop_text n limited m : forall rune text rest rune' text' rest',
  rune_loop n limited m rune text rest = inr (rune', text', rest') ->
  text' ++ rest' = text ++ rest /\ length text' = (length text + n)%nat.
Proof.
  induction n as [|n IH]; intros rune text rest rune' text' rest'; cbn; [intros [= <- <- <-]; auto|].
  destruct rest as [|c rest]; [discriminate|]. destruct (ascii_isxdigit c); [|discriminate].
  destruct (limited && _); [discriminate|]. intros H. apply IH in H as (E & L).
  rewrite E, L, <- app_assoc, length_app. cbn. split; [reflexivity|lia].
Qed.

Lemma EncodeUTF8Char_length c : (1 <= length (EncodeUTF8Char c) <= 4)%nat.
Proof. unfold EncodeUTF8Char. repeat (destruct (_ <=? _)); cbn; lia. Qed.

Lemma unicode_escape_fits n limited l m u rest :
  (4 <= n)%nat -> fits [u] rest (unicode_escape n limited l m u rest).
Proof.
  intros Hn. unfold unicode_escape. destruct (length rest <? n)%nat; [exact I|].
  destruct (rune_loop _ _ _ _ _ _) as [|[[rune text] rest']] eqn:E; [exact I|].
  apply rune_loop_text in E as (E & L). cbn [length] in L.
  assert (N : text <> []) by (destruct text; [cbn in L; lia|discriminate]).
  destruct (_ && l); [exists text; repeat split; auto; cbn; lia|].
  destruct (IsSurrogate rune text); [exact I|].
  exists text. pose proof (EncodeUTF8Char_length rune). repeat split; auto; lia.
Qed.

Lemma escape_fits l rest bytes rest' :
  escape l rest = inr (bytes, rest') ->
  exists used, rest = used ++ rest' /\ (length bytes <= S (length used))%nat /\ used <> [].
Proof.
  destruct rest as [|c rest]; [discriminate|]. cbn [escape].
  assert (F : forall r, fits [c] rest r -> r = inr (bytes, rest') ->
    exists used, c :: rest = used ++ rest' /\ (length bytes <= S (length used))%nat /\ used <> [])
    by (intros r F ->; exact F).
  destruct (simple_escape c); [intros [= <- <-]; exists [c]; cbn; repeat split; auto; discriminate|].
  destruct (is_octal_digit c); [apply F, octal_escape_fits|].
  destruct (_ || _).
  { apply F. unfold hex_escape. destruct rest as [|d rest2] eqn:Er; [exact I|].
    destruct (negb _); [exact I|]. rewrite <- Er. now apply hex_loop_fits. }
  destruct (c =? chr "u"); [apply F, unicode_escape_fits; lia|].
  destruct (c =? chr "U"); [apply F, unicode_escape_fits; lia|discriminate].
Qed.

(** ** The unescaped text, without buffers *)
Fixpoint unescape_text (fuel : nat) (l : bool) (s : list Z) : option (list Z + list Z) :=
  match s with
  | [] => Some (inr [])
  | c :: rest =>
      match fuel with
      | O => None
      | S fuel' =>
          let put bytes rest :=
            do r <- unescape_text fuel' l rest;
            match r with inl e => Some (inl e) | inr out => Some (inr (bytes ++ out)) end in
          if negb (c =? backslash) then put [c] rest
          else match escape l rest with inl e => Some (inl e) | inr (bytes, rest) => put bytes rest end
      end
  end.

Definition unescape (l : bool) (s : list Z) : option (list Z + list Z) := unescape_text (length s) l s.

Lemma unescape_total l fuel : forall s, (length s <= fuel)%nat -> unescape_text fuel l s <> None.
Proof.
  induction fuel as [|fuel IH]; intros [|c s] H; cbn in *; try discriminate; [lia|].
  assert (P : forall bytes rest, (length rest <= fuel)%nat ->
    (do r <- unescape_text fuel l rest; match r with inl e => Some (inl e) | inr out => Some (inr (bytes ++ out)) end)
    <> None).
  { intros bytes rest L. specialize (IH rest L). destruct (unescape_text fuel l rest) as [[]|]; cbn; congruence. }
  destruct (negb (c =? backslash)); [apply (P [c]); lia|].
  destruct (escape l s) as [|[bytes rest]] eqn:E; [discriminate|]. apply escape_fits in E as (used & -> & _ & _).
  rewrite length_app in H. apply P. lia.
Qed.

Lemma unescape_fuel l fuel : forall s fuel', (length s <= fuel)%nat -> (length s <= fuel')%nat ->
  unescape_text fuel l s = unescape_text fuel' l s.
Proof.
  induction fuel as [|fuel IH]; intros [|c s] [|fuel'] H H'; cbn in *; try lia; try reflexivity.
  destruct (negb (c =? backslash)); [now rewrite (IH s fuel') by lia|].
  destruct (escape l s) as [|[bytes rest]] eqn:E; [reflexivity|]. apply escape_fits in E as (used & -> & _ & _).
  rewrite length_app in H, H'. now rewrite (IH rest fuel') by lia.
Qed.

(** ** Buffers *)

(** Bytes stored below the reading position do not change what is read. *)
Lemma skipn_stored (dst bytes : list Z) d p : (d + length bytes <= p)%nat -> (p <= length dst)%nat ->
  skipn p (firstn d dst ++ bytes ++ skipn (d + length bytes) dst) = skipn p dst.
Proof.
  intros H H'. rewrite app_assoc, skipn_app.
  assert (L : length (firstn d dst ++ bytes) = (d + length bytes)%nat)
    by (rewrite length_app, length_firstn; lia).
  rewrite L, skipn_all2 by lia. cbn [app]. rewrite skipn_skipn. f_equal. lia.
Qed.

Lemma remaining_step in_place src dst bytes d p p' used rest :
  (length src <= length dst)%nat -> (d <= p)%nat -> (length bytes <= length used)%nat ->
  remaining in_place src dst p = used ++ rest -> (p <= length src)%nat ->
  p' = (length src - length rest)%nat ->
  let dst' := firstn d dst ++ bytes ++ skipn (d + length bytes) dst in
  remaining in_place src dst' p' = rest /\ (d + length bytes <= p')%nat /\ (p' <= length src)%nat /\
  (d + length bytes <= length dst)%nat.
Proof.
  intros Hs Hd Hb R Hp -> dst'.
  set (text := if in_place then firstn (length src) dst else src).
  assert (Lt : length text = length src) by (unfold text; destruct in_place; [rewrite length_firstn; lia|reflexivity]).
  assert (Lr : (p + length used + length rest = length src)%nat).
  { pose proof (f_equal (@length Z) R) as L. unfold remaining in L. fold text in L.
    rewrite length_skipn, length_app in L. lia. }
  assert (E : skipn (p + length used) text = rest).
  { rewrite Nat.add_comm, <- skipn_skipn. unfold text. unfold remaining in R. rewrite R.
    rewrite skipn_app, skipn_all, Nat.sub_diag. reflexivity. }
  replace (length src - length rest)%nat with (p + length used)%nat by lia.
  split; [|lia]. unfold remaining. destruct in_place; [|exact E].
  rewrite <- E. unfold text, dst'. rewrite !skipn_firstn_comm, skipn_stored by lia. reflexivity.
Qed.

Definition loop_yields (r : option unescaped) (dst : list Z) (d : nat) (text : option (list Z + list Z)) : Prop :=
  match text with
  | None => False
  | Some (inl e) => r = Some (Failed e)
  | Some (inr out) =>
      exists dst', r = Some (Unescaped dst' (Z.of_nat (d + length out))) /\
      firstn (d + length out) dst' = firstn d dst ++ out /\ length dst' = length dst
  end.

Lemma loop_yields_put r dst d bytes text :
  (d + length bytes <= length dst)%nat ->
  loop_yields r (firstn d dst ++ bytes ++ skipn (d + length bytes) dst) (d + length bytes) text ->
  loop_yields r dst d (do t <- text; match t with inl e => Some (inl e) | inr out => Some (inr (bytes ++ out)) end).
Proof.
  intros H. destruct text as [[e|out]|]; cbn; [auto| |auto].
  intros (dst' & -> & F & L). exists dst'. rewrite length_app, Nat.add_assoc. split; [reflexivity|].
  rewrite F, L, stored_length by exact H. split; [|reflexivity].
  rewrite app_assoc, firstn_app, (firstn_all2 (firstn d dst ++ bytes)) by (rewrite length_app, length_firstn; lia).
  rewrite length_app, length_firstn. replace (d + length bytes - _)%nat with 0%nat by lia.
  cbn [firstn]. now rewrite app_nil_r, <- app_assoc.
Qed.

Lemma unescape_loop_spec in_place l src fuel : forall dst p d s,
  (length src <= length dst)%nat -> (d <= p)%nat -> (p <= length src)%nat ->
  remaining in_place src dst p = s -> (length s <= fuel)%nat ->
  loop_yields (unescape_loop fuel in_place l src dst p (Z.of_nat d)) dst d (unescape_text fuel l s).
Proof.
  induction fuel as [|fuel IH]; intros dst p d s Hs Hd Hp R Hf; (destruct s as [|c s]; [|cbn in Hf; try lia]).
  1, 2: cbn; rewrite R; exists dst; rewrite app_nil_r, Nat.add_0_r; auto.
  cbn [unescape_loop]. rewrite R. cbn [unescape_text].
  assert (P : forall bytes used rest, c :: s = used ++ rest -> (length bytes <= length used)%nat ->
    loop_yields
      (do dst <- store dst (Z.of_nat d) bytes;
       unescape_loop fuel in_place l src dst (length src - length rest) (Z.of_nat d + Z.of_nat (length bytes))) dst d
      (do r <- unescape_text fuel l rest; match r with inl e => Some (inl e) | inr out => Some (inr (bytes ++ out)) end)
    \/ used = []).
  { intros bytes used rest E Hb. destruct used as [|u used]; [now right|left].
    rewrite E in R.
    destruct (remaining_step in_place src dst bytes d p _ _ _ Hs Hd Hb R Hp eq_refl) as (R' & D' & P' & S').
    rewrite store_spec by exact S'. cbn [obind]. apply loop_yields_put; [exact S'|].
    rewrite <- Nat2Z.inj_add. apply IH; auto.
    - rewrite stored_length by exact S'. exact Hs.
    - pose proof (f_equal (@length Z) E) as L. rewrite length_app in L. cbn in L. lia. }
  destruct (negb (c =? backslash)) eqn:B.
  - destruct (P [c] [c] s eq_refl ltac:(cbn; lia)) as [Q|Q]; [|discriminate].
    rewrite write_store. replace (S p) with (length src - length s)%nat; [exact Q|].
    pose proof (f_equal (@length Z) R) as L. unfold remaining in L. rewrite length_skipn in L. cbn [length] in L.
    destruct in_place; [rewrite length_firstn in L|]; lia.
  - destruct (escape l s) as [e|[bytes rest]] eqn:E; [reflexivity|].
    apply escape_fits in E as (used & -> & Hb & _).
    destruct (P bytes (c :: used) rest eq_refl ltac:(cbn; lia)) as [Q|Q]; [exact Q|discriminate].
Qed.

Lemma plain_prefix_text l s : forall fuel, (length s <= fuel)%nat ->
  unescape_text fuel l s =
  (do r <- unescape_text fuel l (skipn (plain_prefix s) s);
   match r with inl e => Some (inl e) | inr out => Some (inr (firstn (plain_prefix s) s ++ out)) end).
Proof.
  induction s as [|c s IH]; intros fuel H.
  - now destruct fuel.
  - cbn [plain_prefix]. destruct (negb (c =? backslash)) eqn:B; cbn [skipn firstn].
    + destruct fuel as [|fuel]; [cbn in H; lia|]. cbn [length] in H.
      assert (L : (length (skipn (plain_prefix s) s) <= fuel)%nat) by (rewrite length_skipn; lia).
      rewrite (unescape_fuel l (S fuel) (skipn (plain_prefix s) s) fuel) by lia.
      cbn [unescape_text]. rewrite B, (IH fuel) by lia.
      destruct (unescape_text fuel l (skipn (plain_prefix s) s)) as [[]|]; reflexivity.
    + destruct (unescape_text fuel l (c :: s)) as [[]|]; reflexivity.
Qed.

Lemma plain_prefix_le s : (plain_prefix s <= length s)%nat.
Proof. induction s; cbn; [lia|]. destruct (negb _); lia. Qed.

Lemma CUnescapeInternal_spec in_place src l dst :
  (length src <= length dst)%nat -> (in_place = true -> firstn (length src) dst = src) ->
  loop_yields (CUnescapeInternal in_place src l dst) dst 0 (unescape l src).
Proof.
  intros H I. unfold CUnescapeInternal. destruct in_place.
  - rewrite (I eq_refl). set (p := plain_prefix src). unfold unescape.
    rewrite (plain_prefix_text l src (length src)) by lia. fold p.
    pose proof (plain_prefix_le src) as Hp. fold p in Hp.
    assert (Lb : length (firstn p src) = p) by (rewrite length_firstn; lia).
    apply loop_yields_put; [rewrite Lb; lia|]. rewrite Lb. cbn [firstn app Nat.add].
    assert (E : firstn p src ++ skipn p dst = dst).
    { rewrite <- (I eq_refl), firstn_firstn, Nat.min_l by lia. apply firstn_skipn. }
    rewrite E. apply unescape_loop_spec; auto; [unfold remaining; now rewrite (I eq_refl)|].
    rewrite length_skipn. lia.
  - apply unescape_loop_spec; auto; lia.
Qed.

(** The number of bytes never exceeds the length of the text. *)
Lemma unescape_length l fuel : forall s out,
  unescape_text fuel l s = Some (inr out) -> (length out <= length s)%nat.
Proof.
  induction fuel as [|fuel IH]; intros [|c s] out; cbn; try discriminate; try (intros [= <-]; cbn; lia).
  assert (P : forall bytes rest, (length bytes + length rest <= S (length s))%nat ->
    (do r <- unescape_text fuel l rest; match r with inl e => Some (inl e) | inr out => Some (inr (bytes ++ out)) end)
    = Some (inr out) -> (length out <= S (length s))%nat).
  { intros bytes rest L. destruct (unescape_text fuel l rest) as [[e|o]|] eqn:E; cbn; try discriminate.
    intros [= <-]. apply IH in E. rewrite length_app. lia. }
  destruct (negb (c =? backslash)); [apply (P [c]); cbn; lia|].
  destruct (escape l s) as [|[bytes rest]] eqn:E; [discriminate|]. apply escape_fits in E as (used & -> & Hb & _).
  rewrite length_app in *. apply P. lia.
Qed.

Definition outcome (text : option (list Z + list Z)) : bool * list Z :=
  match text with Some (inr out) => (true, out) | _ => (false, []) end.

Lemma CUnescape_spec in_place source dest :
  (in_place = true -> exists extra, dest = source ++ extra) ->
  CUnescape in_place source dest = Some (outcome (unescape kUnescapeNulls source)).
Proof.
  intros I. unfold CUnescape.
  set (dest' := if (length source <=? length dest)%nat then dest else repeat 0 (length source)).
  assert (L : (length source <= length dest')%nat).
  { unfold dest'. destruct (_ <=? _)%nat eqn:E; [now apply Nat.leb_le|now rewrite repeat_length]. }
  assert (I' : in_place = true -> firstn (length source) dest' = source).
  { intros E. destruct (I E) as (extra & ->). unfold dest'. rewrite length_app.
    rewrite (proj2 (Nat.leb_le _ _)) by lia. rewrite firstn_app, firstn_all, Nat.sub_diag. apply app_nil_r. }
  pose proof (CUnescapeInternal_spec in_place source kUnescapeNulls dest' L I') as S. unfold loop_yields in S.
  destruct (unescape kUnescapeNulls source) as [[e|out]|]; [| |easy].
  - now rewrite S.
  - destruct S as (dst' & -> & F & _). cbn [obind outcome]. rewrite Nat2Z.id. cbn [Nat.add firstn app] in *. now rewrite F.
Qed.

(** ** Escapes written are escapes read *)
Lemma below_check n (p : Z -> bool) : forallb_below n p = true -> forall d, 0 <= d < Z.of_nat n -> p d = true.
Proof. exact (forallb_below_spec n p). Qed.

Lemma hex_char d : 0 <= d < 16 ->
  ascii_isxdigit (entry kHexChar d) = true /\ hex_digit_to_int (entry kHexChar d) = d.
Proof.
  intros H. rewrite <- (Z.eqb_eq _ d), <- andb_true_iff.
  apply (below_check 16 (fun d => ascii_isxdigit (entry kHexChar d) && (hex_digit_to_int (entry kHexChar d) =? d)));
    [reflexivity|exact H].
Qed.

Lemma octal_char d : 0 <= d < 8 ->
  is_octal_digit (entry kHexChar d) = true /\ entry kHexChar d - chr "0" = d.
Proof.
  intros H. rewrite <- (Z.eqb_eq _ d), <- andb_true_iff.
  apply (below_check 8 (fun d => is_octal_digit (entry kHexChar d) && (entry kHexChar d - chr "0" =? d)));
    [reflexivity|exact H].
Qed.

Lemma store_byte c text rest : in_u 8 c -> store_char false c text rest = inr ([c], rest).
Proof. intros R. unfold store_char. rewrite andb_false_r, wrapu_small by exact R. reflexivity. Qed.

Ltac word32 := unfold wrapu; change (2 ^ 32) with 4294967296; zlia.

Lemma escape_octal c rest : in_u 8 c ->
  escape false (entry kHexChar (c / 64) :: entry kHexChar (c mod 64 / 8) :: entry kHexChar (c mod 8) :: rest)
  = inr ([c], rest).
Proof.
  intros R. unfold in_u in R. change (2 ^ 8) with 256 in R.
  destruct (octal_char (c / 64) ltac:(zlia)) as (O1 & D1). destruct (octal_char (c mod 64 / 8) ltac:(zlia)) as (O2 & D2).
  destruct (octal_char (c mod 8) ltac:(zlia)) as (O3 & D3).
  cbn [escape]. rewrite simple_or_digit, O1 by exact O1. unfold octal_escape. cbn [more_octal]. rewrite O2, O3, D1, D2, D3.
  assert (V : (c / 64 *[32] 8 +[32] c mod 64 / 8) *[32] 8 +[32] c mod 8 = c) by word32. rewrite V.
  destruct (c >? 0xff) eqn:E; zbool; [lia|]. apply store_byte. unfold in_u. change (2 ^ 8) with 256. lia.
Qed.

Definition no_hex_start (s : list Z) : Prop := match s with c :: _ => ascii_isxdigit c = false | [] => True end.

Lemma escape_hex c rest : in_u 8 c -> no_hex_start rest ->
  escape false (chr "x" :: entry kHexChar (c / 16) :: entry kHexChar (c mod 16) :: rest) = inr ([c], rest).
Proof.
  intros R N. unfold in_u in R. change (2 ^ 8) with 256 in R.
  destruct (hex_char (c / 16) ltac:(zlia)) as (O1 & D1). destruct (hex_char (c mod 16) ltac:(zlia)) as (O2 & D2).
  change (escape false (chr "x" :: entry kHexChar (c / 16) :: entry kHexChar (c mod 16) :: rest))
    with (hex_escape false (chr "x") (entry kHexChar (c / 16) :: entry kHexChar (c mod 16) :: rest)).
  unfold hex_escape. rewrite O1. cbn [negb hex_loop]. rewrite O1, O2, D1, D2.
  rewrite !Z.shiftl_mul_pow2 by lia. change (2 ^ 4) with 16.
  assert (V1 : wrapu 32 (0 * 16) +[32] c / 16 = c / 16) by word32. rewrite V1.
  assert (V2 : c / 16 *[32] 16 +[32] c mod 16 = c) by word32. rewrite V2.
  destruct (c / 16 >? 0xFF) eqn:E1; zbool; [zlia|]. destruct (c >? 0xFF) eqn:E2; zbool; [lia|].
  assert (R' : in_u 8 c) by (unfold in_u; change (2 ^ 8) with 256; lia).
  destruct rest as [|d rest]; cbn [hex_loop]; [|cbn in N; rewrite N]; apply store_byte; exact R'.
Qed.

(** One character: its text reads back as itself. *)
Lemma escape_char_reads h u last c text is_hex rest fuel :
  in_u 8 c -> escape_char h u last c = (text, is_hex) -> (is_hex = true -> no_hex_start rest) ->
  unescape_text (S fuel) false (text ++ rest) =
  (do r <- unescape_text fuel false rest;
   match r with inl e => Some (inl e) | inr out => Some (inr ([c] ++ out)) end).
Proof.
  intros R. unfold escape_char.
  repeat match goal with |- context [c =? ?k] =>
    let E := fresh "E" in
    destruct (c =? k) eqn:E; [apply Z.eqb_eq in E; subst c; intros [= <- <-] _; reflexivity|] end.
  apply Z.eqb_neq in E4.
  assert (NB : negb (c =? backslash) = true) by (apply negb_true_iff, Z.eqb_neq; exact E4).
  destruct (_ && _); [destruct h|]; intros [= <- <-] N; cbn [app unescape_text].
  - rewrite escape_hex by auto. reflexivity.
  - rewrite escape_octal by exact R. reflexivity.
  - rewrite NB. reflexivity.
Qed.

Lemma escape_char_start u h c text is_hex :
  in_u 8 c -> escape_char h u true c = (text, is_hex) -> exists d t, text = d :: t /\ ascii_isxdigit d = false.
Proof.
  intros R. unfold escape_char.
  repeat (match goal with |- context [c =? ?k] => destruct (c =? k);
    [intros [= <- <-]; do 2 eexists; split; reflexivity|] end).
  destruct (_ && _) eqn:E; [destruct h; intros [= <- <-]; do 2 eexists; split; reflexivity|].
  intros [= <- <-]. exists c, []. split; [reflexivity|].
  apply andb_false_iff in E as [E|E].
  - apply orb_false_iff in E as (_ & E). apply Z.ltb_ge in E.
    destruct (classes c R) as (_ & _ & _ & _ & _ & _ & -> & _). unfold xdigit, digit, in_range. cbn. zlia.
  - apply orb_false_iff in E as (_ & E). exact E.
Qed.

Lemma escape_loop_start u h s : Forall (in_u 8) s -> no_hex_start (escape_loop h u true s).
Proof.
  intros F. destruct F as [|c s R _]; [exact I|]. cbn [escape_loop].
  destruct (escape_char h u true c) as [text is_hex] eqn:E.
  destruct (escape_char_start u h c text is_hex R E) as (d & t & -> & N). exact N.
Qed.

Lemma escape_loop_reads h u s : forall last fuel, Forall (in_u 8) s -> (length s <= fuel)%nat ->
  unescape_text fuel false (escape_loop h u last s) = Some (inr s).
Proof.
  induction s as [|c s IH]; intros last fuel F L; [now destruct fuel|].
  inversion F; subst. destruct fuel as [|fuel]; [cbn in L; lia|]. cbn [escape_loop].
  destruct (escape_char h u last c) as [text is_hex] eqn:E.
  rewrite (escape_char_reads h u last c text is_hex) by (auto; intros ->; now apply escape_loop_start).
  cbn [length] in L. rewrite IH by (auto; lia). reflexivity.
Qed.

Lemma escape_char_nonempty h u last c : fst (escape_char h u last c) <> [].
Proof. unfold escape_char. repeat (destruct (c =? _); [discriminate|]). destruct (_ && _); [destruct h|]; discriminate. Qed.

Lemma escape_loop_length h u s : forall last, (length s <= length (escape_loop h u last s))%nat.
Proof.
  induction s as [|c s IH]; intros last; [cbn; lia|]. cbn [escape_loop].
  pose proof (escape_char_nonempty h u last c) as N. destruct (escape_char h u last c) as [text is_hex].
  specialize (IH is_hex). rewrite length_app. destruct text; [easy|]. cbn. lia.
Qed.

Lemma CEscapeInternal_reads s h u : Forall (in_u 8) s -> unescape false (CEscapeInternal s h u) = Some (inr s).
Proof. intros F. apply escape_loop_reads; [exact F|]. apply escape_loop_length. Qed.

(** ** The tables *)
Definition escaped (c : Z) : list Z := fst (escape_char false false false c).

Lemma table_entry c : in_u 8 c ->
  exists slop, nth (Z.to_nat c) kCEscapedSequence [] = escaped c ++ slop /\
  entry kCEscapedLen c = Z.of_nat (length (escaped c)) /\ (length (escaped c) + length slop = 4)%nat /\
  snd (escape_char false false false c) = false.
Proof.
  intros R. set (q := nth (Z.to_nat c) kCEscapedSequence []). exists (skipn (length (escaped c)) q).
  assert (C : list_eqb (firstn (length (escaped c)) q) (escaped c) && (entry kCEscapedLen c =? Z.of_nat (length (escaped c)))
              && (length q =? 4)%nat && (length (escaped c) <=? 4)%nat && negb (snd (escape_char false false false c)) = true).
  { unfold q. clear q. revert c R. apply byte_check. vm_compute. reflexivity. }
  rewrite !andb_true_iff in C. destruct C as ((((A & B) & D) & E) & G). apply list_eqb_eq in A.
  split; [rewrite <- A at 1; symmetry; apply firstn_skipn|]. split; [now apply Z.eqb_eq|].
  split; [|now apply negb_true_iff]. apply Nat.eqb_eq in D. apply Nat.leb_le in E. rewrite length_skipn. lia.
Qed.

Lemma escape_loop_cons c s : in_u 8 c ->
  escape_loop false false false (c :: s) = escaped c ++ escape_loop false false false s.
Proof.
  intros R. destruct (table_entry c R) as (_ & _ & _ & _ & E). cbn [escape_loop]. unfold escaped.
  destruct (escape_char false false false c) as [text h]. cbn in *. now subst.
Qed.

Lemma length_loop_spec s : forall n acc, Forall (in_u 8) s -> Z.of_nat (length s) <= n -> 0 <= acc ->
  acc + 4 * Z.of_nat (length s) <= size_max ->
  length_loop n s acc = Some (acc + Z.of_nat (length (escape_loop false false false s))).
Proof.
  induction s as [|c s IH]; intros n acc F N A B; [cbn; f_equal; lia|].
  inversion F; subst. destruct (table_entry c) as (slop & _ & L & L4 & _); [assumption|].
  cbn [length_loop]. cbn [length] in N, B. rewrite (proj2 (Z.ltb_lt 0 n)) by lia.
  rewrite wrapu_small by (rewrite L; unfold size_max in B; lia).
  rewrite IH by (auto; rewrite ?L; lia). rewrite escape_loop_cons, length_app by assumption. f_equal. lia.
Qed.

Lemma copy_loop_spec s : forall buf pos, Forall (in_u 8) s ->
  (pos + length (escape_loop false false false s) + 3 <= length buf)%nat ->
  exists buf', copy_loop s buf (Z.of_nat pos) = Some buf' /\
  firstn (pos + length (escape_loop false false false s)) buf' = firstn pos buf ++ escape_loop false false false s.
Proof.
  induction s as [|c s IH]; intros buf pos F L.
  - exists buf. cbn. now rewrite Nat.add_0_r, app_nil_r.
  - inversion F as [|? ? R F']; subst. rewrite escape_loop_cons in * by assumption.
    destruct (table_entry c R) as (slop & E & N & L4 & _). cbn [copy_loop]. rewrite E, N.
    rewrite length_app in L.
    assert (L1 : (1 <= length (escaped c))%nat).
    { pose proof (escape_char_nonempty false false false c). unfold escaped. destruct (fst _); [easy|cbn; lia]. }
    rewrite store_spec by (rewrite length_app; lia). cbn [obind]. set (buf2 := _ ++ _ ++ _).
    assert (L2 : length buf2 = length buf) by (unfold buf2; apply stored_length; rewrite length_app; lia).
    rewrite <- Nat2Z.inj_add. destruct (IH buf2 (pos + length (escaped c))%nat F') as (buf' & C & Q); [lia|].
    exists buf'. split; [exact C|]. rewrite length_app, Nat.add_assoc, Q, app_assoc. f_equal.
    unfold buf2. rewrite <- !app_assoc, app_assoc, firstn_app.
    rewrite (firstn_all2 (firstn pos buf ++ _)) by (rewrite length_app, length_firstn; lia).
    rewrite length_app, length_firstn. replace (_ - _)%nat with 0%nat by lia. apply app_nil_r.
Qed.

Lemma escape_same_length s : Forall (in_u 8) s ->
  length (escape_loop false false false s) = length s -> escape_loop false false false s = s.
Proof.
  induction 1 as [|c s R F IH]; [reflexivity|]. rewrite escape_loop_cons, length_app by exact R. cbn [length].
  pose proof (escape_loop_length false false s false) as L. intros E.
  assert (D : escaped c = [c]).
  { assert (1 <= length (escaped c))%nat
      by (pose proof (escape_char_nonempty false false false c); unfold escaped; destruct (fst _); [easy|cbn; lia]).
    assert (length (escaped c) = 1%nat) by lia. unfold escaped, escape_char in *.
    repeat (destruct (c =? _); [discriminate|]). destruct (_ && _); [discriminate|reflexivity]. }
  rewrite D in *. cbn in *. rewrite IH by lia. reflexivity.
Qed.

Lemma CEscape_spec fill s : Forall (in_u 8) s -> 4 * Z.of_nat (length s) + 3 <= size_max ->
  CEscape fill s = Some (CEscapeInternal s false false).
Proof.
  intros F B. unfold CEscape, CEscapeAndAppendInternal, CEscapedLength, CEscapeInternal.
  set (text := escape_loop false false false s).
  assert (T : (length text <= 4 * length s)%nat).
  { unfold text. clear - F. induction F as [|c s R F IH]; [cbn; lia|].
    rewrite escape_loop_cons, length_app by exact R. destruct (table_entry c R) as (? & _ & _ & ? & _). cbn [length]. lia. }
  rewrite length_loop_spec by (auto; unfold size_max in *; zlia). cbn [obind]. fold text.
  destruct (0 + Z.of_nat (length text) =? Z.of_nat (length s)) eqn:E; zbool.
  - f_equal. symmetry. apply escape_same_length; [exact F|]. change (length text = length s). lia.
  - rewrite (proj2 (Z.leb_le (0 + Z.of_nat (length text)) (size_max - 3))) by lia.
    rewrite wrapu_small by (unfold size_max in B; lia).
    destruct (copy_loop_spec s (repeat fill (Z.to_nat (0 + Z.of_nat (length text) + 3))) 0 F) as (buf & C & Q).
    { rewrite repeat_length. fold text. lia. }
    change (Z.of_nat 0) with 0 in C. rewrite C. cbn [obind app firstn Nat.add] in *. fold text in Q.
    replace (Z.to_nat (0 + Z.of_nat (length text))) with (length text) by lia. now rewrite Q.
Qed.

(** ** The theorems *)

(** C escapes round-trip.  Unescaping what any of the four escaping functions wrote gives the
    original bytes, hexadecimal escapes followed by hexadecimal digits and bytes that are not UTF-8
    included; and the table-driven [CEscape], with its computed length and its four-byte copies past
    the end of each sequence, never leaves its buffer and writes exactly what the
    character-by-character loop writes. *)
Lemma c_escape_roundtrip fill s dest :
  Forall (in_u 8) s -> 4 * Z.of_nat (length s) + 3 <= size_max ->
  CEscape fill s = Some (CEscapeInternal s false false) /\
  CUnescape false (CEscapeInternal s false false) dest = Some (true, s) /\
  CUnescape false (CHexEscape s) dest = Some (true, s) /\
  CUnescape false (Utf8SafeCEscape s) dest = Some (true, s) /\
  CUnescape false (Utf8SafeCHexEscape s) dest = Some (true, s).
Proof.
  intros F B. split; [now apply CEscape_spec|].
  unfold CHexEscape, Utf8SafeCEscape, Utf8SafeCHexEscape.
  repeat split; (rewrite CUnescape_spec by discriminate); unfold kUnescapeNulls;
    rewrite CEscapeInternal_reads by exact F; reflexivity.
Qed.

(** Unescaping in place is safe.  For every source text, valid or not, unescaping it over itself
    in its own buffer (whatever follows it there) never writes outside the buffer nor over text not
    yet read: it ends, and gives the result of unescaping into a separate buffer of any previous
    size, a string no longer than the source, or the failure that clears the destination. *)
Lemma cunescape_in_place source extra dest :
  exists r, CUnescape true source (source ++ extra) = Some r /\ CUnescape false source dest = Some r /\
  (length (snd r) <= length source)%nat.
Proof.
  exists (outcome (unescape kUnescapeNulls source)).
  split; [apply CUnescape_spec; eauto|]. split; [now apply CUnescape_spec|].
  destruct (unescape kUnescapeNulls source) as [[e|out]|] eqn:E; cbn; try lia.
  now apply unescape_length in E.
Qed.

Lemma c_escape_roundtrip_witness :
  CUnescape false (CHexEscape [200; chr "f"; 10; 0; chr "9"]) [] = Some (true, [200; chr "f"; 10; 0; chr "9"]).
Proof.
  apply (c_escape_roundtrip 0 [200; chr "f"; 10; 0; chr "9"] []); [|vm_compute; discriminate].
  repeat constructor; vm_compute; congruence.
Defined.
