(* ===== verification/Base64.v ===== *)
(** Base64 of [strings/escaping.cc] and [strings/internal/escaping.cc]: the encoder with its
    big-endian loads and its buffer, and the decoder, which reads four characters at a time and
    falls back to the character-by-character path where it meets anything else. *)
From Stdlib Require Import Ascii String.
From Stdlib Require Import ZArith Lia List Bool.
From S2P Require Import Prelude Endian AsciiChars.
Import ListNotations.
#[local] Open Scope Z_scope.
#[local] Open Scope mach_scope.

Definition size_max : Z := 2 ^ 64 - 1.
Definition kMaxSize : Z := (size_max - 1) / 4 * 3.

(** ** Encoding *)
Definition kBase64Chars : list Z := str "ABCDEFGHIJKLMNOPQRSTUVWXYZabcdefghijklmnopqrstuvwxyz0123456789+/".
Definition kWebSafeBase64Chars : list Z := str "ABCDEFGHIJKLMNOPQRSTUVWXYZabcdefghijklmnopqrstuvwxyz0123456789-_".

(** The check aborts on overflow. *)
Definition CalculateBase64EscapedLenInternal (input_len : Z) (do_padding : bool) : option Z :=
  if negb (input_len <=? kMaxSize) then None
  else
    let len := (input_len / 3) *[64] 4 in
    if input_len mod 3 =? 0 then Some len
    else if input_len mod 3 =? 1 then
      let len := len +[64] 2 in
      Some (if do_padding then len +[64] 2 else len)
    else
      let len := len +[64] 3 in
      Some (if do_padding then len +[64] 1 else len).

(** The four characters of a 24-bit group. *)
Definition quad (base64 : list Z) (in_ : Z) : list Z :=
  let c0 := entry base64 (in_ >> 18) in
  let in_ := in_ .& 0x3FFFF in
  let c1 := entry base64 (in_ >> 12) in
  let in_ := in_ .& 0xFFF in
  let c2 := entry base64 (in_ >> 6) in
  let in_ := in_ .& 0x3F in
  let c3 := entry base64 in_ in
  [c0; c1; c2; c3].

(** [while (cur_src < limit_src - 3)]: what is left of the source, the buffer and [cur_dest]. *)
Fixpoint escape_groups (host : endian) (fuel : nat) (base64 cur_src dest : list Z) (cur_dest : Z)
    : option (list Z * list Z * Z) :=
  if (length cur_src <=? 3)%nat then Some (cur_src, dest, cur_dest)
  else
    match fuel with
    | O => None
    | S fuel' =>
        let in_ := big_endian.Load host 4 cur_src >> 8 in
        do dest <- store dest cur_dest (quad base64 in_);
        escape_groups host fuel' base64 (skipn 3 cur_src) dest (cur_dest + 4)
    end.

Definition kPad64 : Z := chr "=".

(** The number of characters written, 0 for failure, with the buffer [dest] of [szdest] bytes. *)
Definition Base64EscapeInternal (host : endian) (src dest base64 : list Z) (do_padding : bool)
    : option (Z * list Z) :=
  let szsrc := Z.of_nat (length src) in
  let szdest := Z.of_nat (length dest) in
  if (szsrc >? kMaxSize) || (szsrc *[64] 4 >? szdest *[64] 3) then Some (0, dest)
  else
    do (cur_src, dest, cur_dest) <- escape_groups host (length src) base64 src dest 0;
    let szdest := szdest - cur_dest in
    match cur_src with
    | [] => Some (cur_dest, dest)
    | [b0] =>
        if szdest <? 2 then Some (0, dest)
        else
          let in_ := b0 in
          do dest <- store dest cur_dest [entry base64 (in_ >> 2); entry base64 (Z.shiftl (in_ .& 0x3) 4)];
          let cur_dest := cur_dest + 2 in
          let szdest := szdest - 2 in
          if do_padding then
            if szdest <? 2 then Some (0, dest)
            else
              do dest <- store dest cur_dest [kPad64; kPad64];
              Some (cur_dest + 2, dest)
          else Some (cur_dest, dest)
    | [_; _] =>
        if szdest <? 3 then Some (0, dest)
        else
          let in_ := big_endian.Load host 2 cur_src in
          let c0 := entry base64 (in_ >> 10) in
          let in_ := in_ .& 0x3FF in
          let c1 := entry base64 (in_ >> 4) in
          let in_ := in_ .& 0x00F in
          let c2 := entry base64 (Z.shiftl in_ 2) in
          do dest <- store dest cur_dest [c0; c1; c2];
          let cur_dest := cur_dest + 3 in
          let szdest := szdest - 3 in
          if do_padding then
            if szdest <? 1 then Some (0, dest)
            else
              do dest <- store dest cur_dest [kPad64];
              Some (cur_dest + 1, dest)
          else Some (cur_dest, dest)
    | [b0; _; _] =>
        if szdest <? 4 then Some (0, dest)
        else
          let in_ := Z.shiftl b0 16 + big_endian.Load host 2 (skipn 1 cur_src) in
          do dest <- store dest cur_dest (quad base64 in_);
          Some (cur_dest + 4, dest)
    | _ => None
    end.

(** The string buffer starts with unspecified contents [fill]. *)
Definition Base64EscapeToStringInternal (host : endian) (fill : Z) (src : list Z) (do_padding : bool)
    (base64_chars : list Z) : option (list Z) :=
  do calc_escaped_size <- CalculateBase64EscapedLenInternal (Z.of_nat (length src)) do_padding;
  do (escaped_len, buf) <- Base64EscapeInternal host src (repeat fill (Z.to_nat calc_escaped_size)) base64_chars do_padding;
  Some (firstn (Z.to_nat escaped_len) buf).

Definition Base64Escape (host : endian) (fill : Z) (src : list Z) : option (list Z) :=
  Base64EscapeToStringInternal host fill src true kBase64Chars.

Definition WebSafeBase64Escape (host : endian) (fill : Z) (src : list Z) : option (list Z) :=
  Base64EscapeToStringInternal host fill src false kWebSafeBase64Chars.

(** ** Decoding *)
Definition kUnBase64 : list Z :=
  [ (-1); (-1); (-1); (-1); (-1); (-1); (-1); (-1); (-1); (-1); (-1); (-1); (-1); (-1); (-1); (-1);
    (-1); (-1); (-1); (-1); (-1); (-1); (-1); (-1); (-1); (-1); (-1); (-1); (-1); (-1); (-1); (-1);
    (-1); (-1); (-1); (-1); (-1); (-1); (-1); (-1); (-1); (-1); (-1); 62; (-1); (-1); (-1); 63;
    52; 53; 54; 55; 56; 57; 58; 59; 60; 61; (-1); (-1); (-1); (-1); (-1); (-1);
    (-1); 0; 1; 2; 3; 4; 5; 6; 7; 8; 9; 10; 11; 12; 13; 14;
    15; 16; 17; 18; 19; 20; 21; 22; 23; 24; 25; (-1); (-1); (-1); (-1); (-1);
    (-1); 26; 27; 28; 29; 30; 31; 32; 33; 34; 35; 36; 37; 38; 39; 40;
    41; 42; 43; 44; 45; 46; 47; 48; 49; 50; 51; (-1); (-1); (-1); (-1); (-1);
    (-1); (-1); (-1); (-1); (-1); (-1); (-1); (-1); (-1); (-1); (-1); (-1); (-1); (-1); (-1); (-1);
    (-1); (-1); (-1); (-1); (-1); (-1); (-1); (-1); (-1); (-1); (-1); (-1); (-1); (-1); (-1); (-1);
    (-1); (-1); (-1); (-1); (-1); (-1); (-1); (-1); (-1); (-1); (-1); (-1); (-1); (-1); (-1); (-1);
    (-1); (-1); (-1); (-1); (-1); (-1); (-1); (-1); (-1); (-1); (-1); (-1); (-1); (-1); (-1); (-1);
    (-1); (-1); (-1); (-1); (-1); (-1); (-1); (-1); (-1); (-1); (-1); (-1); (-1); (-1); (-1); (-1);
    (-1); (-1); (-1); (-1); (-1); (-1); (-1); (-1); (-1); (-1); (-1); (-1); (-1); (-1); (-1); (-1);
    (-1); (-1); (-1); (-1); (-1); (-1); (-1); (-1); (-1); (-1); (-1); (-1); (-1); (-1); (-1); (-1);
    (-1); (-1); (-1); (-1); (-1); (-1); (-1); (-1); (-1); (-1); (-1); (-1); (-1); (-1); (-1); (-1) ].

Definition kUnWebSafeBase64 : list Z :=
  [ (-1); (-1); (-1); (-1); (-1); (-1); (-1); (-1); (-1); (-1); (-1); (-1); (-1); (-1); (-1); (-1);
    (-1); (-1); (-1); (-1); (-1); (-1); (-1); (-1); (-1); (-1); (-1); (-1); (-1); (-1); (-1); (-1);
    (-1); (-1); (-1); (-1); (-1); (-1); (-1); (-1); (-1); (-1); (-1); (-1); (-1); 62; (-1); (-1);
    52; 53; 54; 55; 56; 57; 58; 59; 60; 61; (-1); (-1); (-1); (-1); (-1); (-1);
    (-1); 0; 1; 2; 3; 4; 5; 6; 7; 8; 9; 10; 11; 12; 13; 14;
    15; 16; 17; 18; 19; 20; 21; 22; 23; 24; 25; (-1); (-1); (-1); (-1); 63;
    (-1); 26; 27; 28; 29; 30; 31; 32; 33; 34; 35; 36; 37; 38; 39; 40;
    41; 42; 43; 44; 45; 46; 47; 48; 49; 50; 51; (-1); (-1); (-1); (-1); (-1);
    (-1); (-1); (-1); (-1); (-1); (-1); (-1); (-1); (-1); (-1); (-1); (-1); (-1); (-1); (-1); (-1);
    (-1); (-1); (-1); (-1); (-1); (-1); (-1); (-1); (-1); (-1); (-1); (-1); (-1); (-1); (-1); (-1);
    (-1); (-1); (-1); (-1); (-1); (-1); (-1); (-1); (-1); (-1); (-1); (-1); (-1); (-1); (-1); (-1);
    (-1); (-1); (-1); (-1); (-1); (-1); (-1); (-1); (-1); (-1); (-1); (-1); (-1); (-1); (-1); (-1);
    (-1); (-1); (-1); (-1); (-1); (-1); (-1); (-1); (-1); (-1); (-1); (-1); (-1); (-1); (-1); (-1);
    (-1); (-1); (-1); (-1); (-1); (-1); (-1); (-1); (-1); (-1); (-1); (-1); (-1); (-1); (-1); (-1);
    (-1); (-1); (-1); (-1); (-1); (-1); (-1); (-1); (-1); (-1); (-1); (-1); (-1); (-1); (-1); (-1);
    (-1); (-1); (-1); (-1); (-1); (-1); (-1); (-1); (-1); (-1); (-1); (-1); (-1); (-1); (-1); (-1) ].

Definition kPad64Equals : Z := chr "=".
Definition kPad64Dot : Z := chr ".".
Definition is_pad (ch : Z) : bool := (ch =? kPad64Equals) || (ch =? kPad64Dot).

(** A signed table entry as [unsigned int] and as [unsigned char]. *)
Definition as_unsigned (x : Z) : Z := wrapu 32 x.
Definition as_uchar (x : Z) : Z := wrapu 8 x.

(** [GET_INPUT]: the next character that is not skipped, whether it is data, and the rest. *)
Fixpoint GET_INPUT (unbase64 : list Z) (remain : nat) (src : list Z) : option (bool * Z * Z * list Z) :=
  match src with
  | [] => None
  | ch :: src =>
      let decode := entry unbase64 ch in
      if decode <? 0 then
        if ascii_isspace ch && (remain <=? length src)%nat then GET_INPUT unbase64 remain src
        else Some (false, ch, decode, src)
      else Some (true, ch, decode, src)
  end.

(** The three bytes of [temp]. *)
Definition three_bytes (temp : Z) : list Z :=
  let b2 := wrapu 8 temp in
  let temp := temp >> 8 in
  let b1 := wrapu 8 temp in
  let temp := temp >> 8 in
  let b0 := wrapu 8 temp in
  [b0; b1; b2].

Definition push (temp decode : Z) : Z := (temp <<[32] 6) .| as_uchar decode.

(** The variables when the first loop is left. *)
Record decoder := mk_decoder {
  d_src : list Z; d_dest : list Z; d_destidx : Z;
  d_decode : Z; d_state : Z; d_ch : Z; d_temp : Z }.

Inductive group :=
  | Group (decode ch temp : Z) (src : list Z)             (** four data characters were read *)
  | BreakAt (state decode ch temp : Z) (src : list Z).    (** [break] out of the loop *)

(** The slow reading of one group. *)
Definition slow_group (unbase64 : list Z) (temp : Z) (src : list Z) : option group :=
  do (ok, ch, decode, src) <- GET_INPUT unbase64 4 src;
  if negb ok then Some (BreakAt 0 decode ch temp src)
  else
    let temp := as_uchar decode in
    do (ok, ch, decode, src) <- GET_INPUT unbase64 3 src;
    if negb ok then Some (BreakAt 1 decode ch temp src)
    else
      let temp := push temp decode in
      do (ok, ch, decode, src) <- GET_INPUT unbase64 2 src;
      if negb ok then Some (BreakAt 2 decode ch temp src)
      else
        let temp := push temp decode in
        do (ok, ch, decode, src) <- GET_INPUT unbase64 1 src;
        if negb ok then Some (BreakAt 3 decode ch temp src)
        else Some (Group decode ch (push temp decode) src).

(** The optimistic reading of four characters; [temp] is assigned only when the first three are
    not null. *)
Definition read_group (unbase64 : list Z) (decode ch temp : Z) (src : list Z) : option group :=
  match src with
  | s0 :: s1 :: s2 :: s3 :: rest =>
      if (s0 =? 0) || (s1 =? 0) || (s2 =? 0) then slow_group unbase64 temp src
      else
        let temp :=
          (as_unsigned (entry unbase64 s0) <<[32] 18) .| (as_unsigned (entry unbase64 s1) <<[32] 12)
          .| (as_unsigned (entry unbase64 s2) <<[32] 6) .| as_unsigned (entry unbase64 s3) in
        if negb ((temp .& 0x80000000) =? 0) then slow_group unbase64 temp src
        else Some (Group decode ch temp rest)
  | _ => None
  end.

(** [while (szsrc >= 4)] with a destination; [None] inside is [return false]. *)
Fixpoint unescape_groups (fuel : nat) (unbase64 : list Z) (v : decoder) : option (option decoder) :=
  if (length (d_src v) <? 4)%nat then Some (Some v)
  else
    match fuel with
    | O => None
    | S fuel' =>
        do g <- read_group unbase64 (d_decode v) (d_ch v) (d_temp v) (d_src v);
        match g with
        | BreakAt state decode ch temp src =>
            Some (Some (mk_decoder src (d_dest v) (d_destidx v) decode state ch temp))
        | Group decode ch temp src =>
            if d_destidx v + 3 >? Z.of_nat (length (d_dest v)) then Some None
            else
              do dest <- store (d_dest v) (d_destidx v) (three_bytes temp);
              unescape_groups fuel' unbase64
                (mk_decoder src dest (d_destidx v + 3) decode (d_state v) ch (temp >> 16))
        end
    end.

(** The loop over the characters that are left. *)
Fixpoint unescape_tail (unbase64 : list Z) (src dest : list Z) (destidx state temp : Z)
    : option (option (list Z * list Z * Z * Z * Z)) :=
  match src with
  | [] => Some (Some (src, dest, destidx, state, temp))
  | ch :: src' =>
      let decode := entry unbase64 ch in
      if decode <? 0 then
        if ascii_isspace ch then unescape_tail unbase64 src' dest destidx state temp
        else if is_pad ch then Some (Some (src, dest, destidx, state, temp))
        else Some None
      else
        let temp := push temp decode in
        let state := state + 1 in
        if state =? 4 then
          if destidx + 3 >? Z.of_nat (length dest) then Some None
          else
            do dest <- store dest destidx (three_bytes temp);
            unescape_tail unbase64 src' dest (destidx + 3) 0 0
        else unescape_tail unbase64 src' dest destidx state temp
  end.

(** The count of pad characters in the remainder, or [None] for [return false]. *)
Fixpoint count_equals (src : list Z) (equals : Z) : option Z :=
  match src with
  | [] => Some equals
  | ch :: src' =>
      if is_pad ch then count_equals src' (equals + 1)
      else if negb (ascii_isspace ch) then None
      else count_equals src' equals
  end.

(** The leftover data and the pad characters: the destination and [*len]. *)
Definition unescape_finish (src dest : list Z) (destidx state temp : Z) : option (option (list Z * Z)) :=
  let close dest destidx expected_equals :=
    match count_equals src 0 with
    | None => Some None
    | Some equals =>
        if (equals =? 0) || (equals =? expected_equals) then Some (Some (dest, destidx)) else Some None
    end in
  if state =? 0 then close dest destidx 0
  else if state =? 1 then Some None
  else if state =? 2 then
    if destidx + 1 >? Z.of_nat (length dest) then Some None
    else
      do dest <- store dest destidx [wrapu 8 (temp >> 4)];
      close dest (destidx + 1) 2
  else if state =? 3 then
    if destidx + 2 >? Z.of_nat (length dest) then Some None
    else
      let temp := temp >> 2 in
      let b1 := wrapu 8 temp in
      let temp := temp >> 8 in
      let b0 := wrapu 8 temp in
      do dest <- store dest destidx [b0; b1];
      close dest (destidx + 2) 1
  else None.

(** [None]: out of bounds; [Some None]: false; otherwise the destination and its length. *)
Definition Base64UnescapeInternal (src dest unbase64 : list Z) : option (option (list Z * Z)) :=
  do v <- unescape_groups (length src) unbase64 (mk_decoder src dest 0 0 0 0 0);
  match v with
  | None => Some None
  | Some v =>
      if (d_decode v <? 0) && negb (is_pad (d_ch v)) && negb (ascii_isspace (d_ch v)) then Some None
      else if is_pad (d_ch v) then
        unescape_finish (d_ch v :: d_src v) (d_dest v) (d_destidx v) (d_state v) (d_temp v)
      else
        do t <- unescape_tail unbase64 (d_src v) (d_dest v) (d_destidx v) (d_state v) (d_temp v);
        match t with
        | None => Some None
        | Some (src, dest, destidx, state, temp) => unescape_finish src dest destidx state temp
        end
  end.

(** The result and the string afterwards, with the buffer of the computed size. *)
Definition unescape_to_string (fill : Z) (src unbase64 : list Z) : option (bool * list Z) :=
  let slen := length src in
  let dest_len := (3 * (slen / 4) + slen mod 4)%nat in
  do r <- Base64UnescapeInternal src (repeat fill dest_len) unbase64;
  match r with
  | None => Some (false, [])
  | Some (buf, len) => Some (true, firstn (Z.to_nat len) buf)
  end.

Definition Base64Unescape (fill : Z) (src : list Z) : option (bool * list Z) := unescape_to_string fill src kUnBase64.
Definition WebSafeBase64Unescape (fill : Z) (src : list Z) : option (bool * list Z) :=
  unescape_to_string fill src kUnWebSafeBase64.

(** ** Reference decoder

    White space counts for nothing, data characters give six bits each, and after the last of them
    only pad characters may follow: none, or as many as the number of data characters asks for. *)
Definition sextets_val (acc : list Z) : Z := fold_left (fun v d => v * 64 + d) acc 0.

Definition quad_bytes (n : Z) : list Z := [n / 65536 mod 256; n / 256 mod 256; n mod 256].

Definition tail_bytes (acc : list Z) : list Z :=
  let n := sextets_val acc in
  match length acc with
  | 2%nat => [n / 16 mod 256]
  | 3%nat => [n / 1024 mod 256; n / 4 mod 256]
  | _ => []
  end.

Definition expected_pads (state : nat) : Z := match state with 2%nat => 2 | 3%nat => 1 | _ => 0 end.

Definition finish_spec (acc src : list Z) : option (list Z) :=
  if (length acc =? 1)%nat then None
  else
    match count_equals src 0 with
    | None => None
    | Some equals =>
        if (equals =? 0) || (equals =? expected_pads (length acc)) then Some (tail_bytes acc) else None
    end.

Section Decode.
Context (unbase64 : list Z).

Fixpoint run (acc src : list Z) : option (list Z) :=
  match src with
  | [] => finish_spec acc []
  | ch :: src' =>
      let decode := entry unbase64 ch in
      if decode <? 0 then
        if ascii_isspace ch then run acc src'
        else if is_pad ch then finish_spec acc src
        else None
      else if (length acc =? 3)%nat then option_map (app (quad_bytes (sextets_val (acc ++ [decode])))) (run [] src')
      else run (acc ++ [decode]) src'
  end.

(** The tables map a byte to a sextet or to -1, and the pad characters and white space to -1. *)
Definition table_ok : Prop :=
  forall ch, in_u 8 ch -> -1 <= entry unbase64 ch < 64 /\ (is_pad ch || ascii_isspace ch = true -> entry unbase64 ch = -1).
Hypothesis Htab : table_ok.

(** ** The bits in [temp] *)

(** [temp] holds the sextets of [acc] in its low bits; what is above does not matter. *)
Definition holds (temp : Z) (acc : list Z) : Prop :=
  0 <= temp < 2 ^ 32 /\ temp mod 64 ^ Z.of_nat (length acc) = sextets_val acc.

Lemma sextets_snoc acc d : sextets_val (acc ++ [d]) = sextets_val acc * 64 + d.
Proof. unfold sextets_val. now rewrite fold_left_app. Qed.

Lemma holds_nil temp : 0 <= temp < 2 ^ 32 -> holds temp [].
Proof. intros H. split; [exact H|]. cbn. apply Z.mod_1_r. Qed.

Lemma holds_push temp acc d : holds temp acc -> 0 <= d < 64 -> (length acc <= 3)%nat ->
  holds (push temp d) (acc ++ [d]).
Proof.
  intros (R & V) D L. unfold push, as_uchar. rewrite (wrapu_small 8) by (change (2 ^ 8) with 256; lia).
  rewrite Z.shiftl_mul_pow2 by lia. change (2 ^ 6) with 64. unfold wrapu.
  assert (E : (temp * 64) mod 2 ^ 32 = 64 * (temp mod 2 ^ 26)) by (change (2 ^ 32) with (64 * 2 ^ 26); rewrite (Z.mul_comm temp), Z.mul_mod_distr_l by lia; reflexivity).
  rewrite E, Z.lor_comm, (Z.mul_comm 64). change 64 with (2 ^ 6) at 1. rewrite <- Z.shiftl_mul_pow2 by lia.
  rewrite lor_lohi by (try lia; split; lia). change (2 ^ 6) with 64.
  assert (B : 0 <= temp mod 2 ^ 26 < 2 ^ 26) by (apply Z.mod_pos_bound; lia).
  split; [lia|]. rewrite length_app, Nat2Z.inj_add. change (Z.of_nat (length [d])) with 1.
  rewrite Z.add_1_r, Z.pow_succ_r by lia. rewrite sextets_snoc, <- V.
  assert (C : Z.of_nat (length acc) = 0 \/ Z.of_nat (length acc) = 1 \/ Z.of_nat (length acc) = 2 \/ Z.of_nat (length acc) = 3) by lia.
  destruct C as [-> |[-> |[-> | ->]]]; change (64 ^ 0) with 1; change (64 ^ 1) with 64; change (64 ^ 2) with 4096;
    change (64 ^ 3) with 262144; change (2 ^ 26) with 67108864; zlia.
Qed.

Lemma three_bytes_val temp acc : holds temp acc -> length acc = 4%nat -> three_bytes temp = quad_bytes (sextets_val acc).
Proof.
  intros (R & V) L. rewrite L in V. change (64 ^ Z.of_nat 4) with 16777216 in V. unfold three_bytes, quad_bytes.
  rewrite <- V, Z.shiftr_shiftr, !Z.shiftr_div_pow2 by lia. unfold wrapu. change (8 + 8) with 16.
  change (2 ^ 8) with 256. change (2 ^ 16) with 65536.
  replace (temp mod 16777216 / 65536 mod 256) with (temp / 65536 mod 256) by zlia.
  replace (temp mod 16777216 / 256 mod 256) with (temp / 256 mod 256) by zlia.
  replace ((temp mod 16777216) mod 256) with (temp mod 256) by zlia. reflexivity.
Qed.

(** ** Results *)
Definition yields (r : option (option (list Z * Z))) (dest : list Z) (idx : nat) (o : option (list Z)) : Prop :=
  match o with
  | None => r = Some None
  | Some out =>
      exists dest', r = Some (Some (dest', Z.of_nat (idx + length out))) /\
      firstn (idx + length out) dest' = firstn idx dest ++ out
  end.

Lemma firstn_stored (dst bytes : list Z) d : (d + length bytes <= length dst)%nat ->
  firstn (d + length bytes) (firstn d dst ++ bytes ++ skipn (d + length bytes) dst) = firstn d dst ++ bytes.
Proof.
  intros H. rewrite app_assoc, firstn_app, (firstn_all2 (firstn d dst ++ bytes)) by (rewrite length_app, length_firstn; lia).
  rewrite length_app, length_firstn. replace (d + length bytes - _)%nat with 0%nat by lia. apply app_nil_r.
Qed.

Lemma yields_put r dest idx bytes o : (idx + length bytes <= length dest)%nat ->
  yields r (firstn idx dest ++ bytes ++ skipn (idx + length bytes) dest) (idx + length bytes) o ->
  yields r dest idx (option_map (app bytes) o).
Proof.
  intros H. destruct o as [out|]; cbn; [|auto]. intros (dest' & -> & F). exists dest'.
  rewrite length_app, Nat.add_assoc. split; [reflexivity|]. now rewrite F, firstn_stored, app_assoc.
Qed.

(** Room for what the remaining characters can give. *)
Definition room (n : nat) : nat := (3 * (n / 4) + n mod 4)%nat.

Lemma room_mono n m : (n <= m)%nat -> (room n <= room m)%nat.
Proof.
  unfold room. intros H.
  pose proof (Nat.div_mod n 4 ltac:(lia)). pose proof (Nat.mod_upper_bound n 4 ltac:(lia)).
  pose proof (Nat.div_mod m 4 ltac:(lia)). pose proof (Nat.mod_upper_bound m 4 ltac:(lia)). nia.
Qed.

Lemma room_four n : room (4 + n) = (3 + room n)%nat.
Proof.
  unfold room. replace (4 + n)%nat with (n + 1 * 4)%nat by lia. rewrite Nat.div_add, Nat.Div0.mod_add by lia. lia.
Qed.

Lemma unescape_finish_spec src dest idx temp acc :
  holds temp acc -> (length acc <= 3)%nat -> (idx + room (length acc) <= length dest)%nat ->
  yields (unescape_finish src dest (Z.of_nat idx) (Z.of_nat (length acc)) temp) dest idx (finish_spec acc src).
Proof.
  intros (R & V) L C. unfold unescape_finish, finish_spec, tail_bytes, expected_pads.
  set (n := length acc) in *. assert (D : n = 0%nat \/ n = 1%nat \/ n = 2%nat \/ n = 3%nat) by lia.
  assert (P : forall bytes exp, (idx + length bytes <= length dest)%nat ->
    yields (do dest <- store dest (Z.of_nat idx) bytes;
            match count_equals src 0 with
            | None => Some None
            | Some equals =>
                if (equals =? 0) || (equals =? exp) then Some (Some (dest, Z.of_nat idx + Z.of_nat (length bytes))) else Some None
            end) dest idx
      (match count_equals src 0 with
       | None => None
       | Some equals => if (equals =? 0) || (equals =? exp) then Some bytes else None
       end)).
  { intros bytes exp Hb. rewrite store_spec by exact Hb. cbn [obind].
    destruct (count_equals src 0) as [e|]; [|reflexivity]. destruct (_ || _); [|reflexivity].
    eexists. rewrite <- Nat2Z.inj_add. split; [reflexivity|now apply firstn_stored]. }
  destruct D as [D|[D|[D|D]]]; rewrite D in *; cbn [Nat.eqb].
  - specialize (P [] 0 ltac:(cbn; lia)). cbn [store obind length] in P. change (Z.of_nat 0) with 0 in *.
    rewrite Z.add_0_r in P. cbn [Z.eqb]. exact P.
  - reflexivity.
  - change (room 2) with 2%nat in C. change (64 ^ Z.of_nat 2) with 4096 in V. cbn [Z.eqb Z.of_nat Pos.of_succ_nat Pos.succ Pos.eqb].
    rewrite Z.gtb_ltb, (proj2 (Z.ltb_ge _ _)) by lia.
    replace (sextets_val acc / 16 mod 256) with (wrapu 8 (temp >> 4)); [apply (P [_] 2); cbn; lia|].
    rewrite <- V, Z.shiftr_div_pow2 by lia. unfold wrapu. change (2 ^ 8) with 256. change (2 ^ 4) with 16. zlia.
  - change (room 3) with 3%nat in C. change (64 ^ Z.of_nat 3) with 262144 in V. cbn [Z.eqb Z.of_nat Pos.of_succ_nat Pos.succ Pos.eqb].
    rewrite Z.gtb_ltb, (proj2 (Z.ltb_ge _ _)) by lia.
    replace (sextets_val acc / 1024 mod 256) with (wrapu 8 ((temp >> 2) >> 8));
      [replace (sextets_val acc / 4 mod 256) with (wrapu 8 (temp >> 2)); [apply (P [_; _] 1); cbn; lia|]|];
      rewrite <- V, ?Z.shiftr_shiftr, Z.shiftr_div_pow2 by lia; unfold wrapu; change (2 + 8) with 10; change (2 ^ 8) with 256;
      change (2 ^ 10) with 1024; change (2 ^ 2) with 4; zlia.
Qed.

(** ** The loop over single characters *)
Definition tail_from (src dest : list Z) (destidx state temp : Z) : option (option (list Z * Z)) :=
  do t <- unescape_tail unbase64 src dest destidx state temp;
  match t with
  | None => Some None
  | Some (src, dest, destidx, state, temp) => unescape_finish src dest destidx state temp
  end.

Lemma tail_from_spec src : forall dest idx temp acc, Forall (in_u 8) src ->
  holds temp acc -> (length acc <= 3)%nat -> (idx + room (length acc + length src) <= length dest)%nat ->
  yields (tail_from src dest (Z.of_nat idx) (Z.of_nat (length acc)) temp) dest idx (run acc src).
Proof.
  induction src as [|ch src IH]; intros dest idx temp acc F H L C; unfold tail_from; cbn [unescape_tail run].
  - cbn [obind]. rewrite Nat.add_0_r in C. now apply unescape_finish_spec.
  - inversion F as [|? ? Rc F']; subst. destruct (Htab ch Rc) as (Rd & _). cbn [length] in C.
    destruct (entry unbase64 ch <? 0) eqn:E; zbool.
    + destruct (ascii_isspace ch).
      * apply IH; auto. pose proof (room_mono (length acc + length src) (length acc + S (length src)) ltac:(lia)). lia.
      * destruct (is_pad ch); [|reflexivity]. cbn [obind]. apply unescape_finish_spec; auto.
        pose proof (room_mono (length acc) (length acc + S (length src)) ltac:(lia)). lia.
    + assert (H' : holds (push temp (entry unbase64 ch)) (acc ++ [entry unbase64 ch])) by (apply holds_push; auto; lia).
      destruct (length acc =? 3)%nat eqn:E3.
      * apply Nat.eqb_eq in E3. rewrite E3 in *. cbn [Z.of_nat Pos.of_succ_nat Pos.succ Z.add Pos.add Z.eqb Pos.eqb].
        change (3 + S (length src))%nat with (4 + length src)%nat in C. rewrite room_four in C.
        rewrite Z.gtb_ltb, (proj2 (Z.ltb_ge _ _)) by lia.
        assert (T : three_bytes (push temp (entry unbase64 ch)) = quad_bytes (sextets_val (acc ++ [entry unbase64 ch])))
          by (apply three_bytes_val; [exact H'|rewrite length_app, E3; reflexivity]).
        rewrite T. set (q := quad_bytes _). change 3 with (Z.of_nat (length q)).
        rewrite store_spec by (cbn; lia). cbn [obind]. apply yields_put; [cbn; lia|].
        rewrite <- Nat2Z.inj_add. change 0 with (Z.of_nat (length (@nil Z))) at 1. apply IH; auto.
        -- apply holds_nil. lia.
        -- rewrite stored_length by (cbn; lia). cbn [length Nat.add]. change (length q) with 3%nat. lia.
      * apply Nat.eqb_neq in E3. rewrite (proj2 (Z.eqb_neq _ 4)) by lia.
        replace (Z.of_nat (length acc) + 1) with (Z.of_nat (length (acc ++ [entry unbase64 ch])))
          by (rewrite length_app; cbn; lia).
        apply IH; auto; rewrite length_app; cbn [length]; [lia|].
        now replace (length acc + 1 + length src)%nat with (length acc + S (length src))%nat by lia.
Qed.

(** ** Reading a group *)

(** What reading the data character [d] after [acc] amounts to. *)
Definition run_data (acc : list Z) (d : Z) (src : list Z) : option (list Z) :=
  if (length acc =? 3)%nat then option_map (app (quad_bytes (sextets_val (acc ++ [d])))) (run [] src)
  else run (acc ++ [d]) src.

(** What a character that stopped the reading amounts to. *)
Definition run_stop (acc : list Z) (ch : Z) (src : list Z) : option (list Z) :=
  if ascii_isspace ch then run acc src else if is_pad ch then finish_spec acc (ch :: src) else None.

Lemma run_cons acc ch src :
  run acc (ch :: src) =
  if entry unbase64 ch <? 0 then run_stop acc ch src else run_data acc (entry unbase64 ch) src.
Proof. reflexivity. Qed.

Lemma GET_INPUT_spec remain src : Forall (in_u 8) src -> (1 <= remain <= length src)%nat ->
  exists ok ch decode rest, GET_INPUT unbase64 remain src = Some (ok, ch, decode, rest) /\
  Forall (in_u 8) rest /\ (length rest < length src)%nat /\ decode = entry unbase64 ch /\ in_u 8 ch /\
  if ok then 0 <= decode < 64 /\ (remain - 1 <= length rest)%nat /\ forall acc, run acc src = run_data acc decode rest
  else decode < 0 /\ forall acc, run acc src = run_stop acc ch rest.
Proof.
  induction src as [|ch src IH]; intros F H; [cbn in H; lia|]. inversion F as [|? ? Rc F']; subst. cbn [GET_INPUT length] in *.
  destruct (Htab ch Rc) as (Rd & _).
  destruct (entry unbase64 ch <? 0) eqn:E; zbool.
  - destruct (ascii_isspace ch && (remain <=? length src)%nat) eqn:S.
    + apply andb_true_iff in S as (Sp & S). apply Nat.leb_le in S.
      destruct (IH F' ltac:(lia)) as (ok & c & d & rest & G & Fr & Lr & Q). exists ok, c, d, rest.
      split; [exact G|]. split; [exact Fr|]. split; [lia|]. destruct Q as (Ed & Rch & Q). split; [exact Ed|]. split; [exact Rch|].
      assert (SK : forall acc, run acc (ch :: src) = run acc src)
        by (intros acc; rewrite run_cons, (proj2 (Z.ltb_lt _ 0)) by lia; unfold run_stop; now rewrite Sp).
      destruct ok; [destruct Q as (A & B & Q); repeat split; auto; try lia|destruct Q as (A & Q); split; auto];
        intros acc; rewrite SK; apply Q.
    + exists false, ch, (entry unbase64 ch), src. repeat split; auto; try apply Rc. intros acc.
      rewrite run_cons, (proj2 (Z.ltb_lt _ 0)) by lia. reflexivity.
  - exists true, ch, (entry unbase64 ch), src. repeat split; auto; try lia; try apply Rc.
    intros acc. rewrite run_cons, (proj2 (Z.ltb_ge _ 0)) by lia. reflexivity.
Qed.

Definition group_spec (src : list Z) (g : group) : Prop :=
  match g with
  | Group decode ch temp rest =>
      exists acc, length acc = 4%nat /\ holds temp acc /\ 0 <= decode /\ is_pad ch = false /\
      Forall (in_u 8) rest /\ (4 + length rest <= length src)%nat /\
      run [] src = option_map (app (quad_bytes (sextets_val acc))) (run [] rest)
  | BreakAt state decode ch temp rest =>
      exists acc, state = Z.of_nat (length acc) /\ (length acc <= 3)%nat /\ holds temp acc /\ decode < 0 /\
      Forall (in_u 8) rest /\ (length acc + length rest < length src)%nat /\ run [] src = run_stop acc ch rest
  end.

Lemma data_not_pad ch : in_u 8 ch -> 0 <= entry unbase64 ch -> is_pad ch = false.
Proof.
  intros R H. destruct (Htab ch R) as (_ & N). destruct (is_pad ch); [|reflexivity].
  rewrite N in H by reflexivity. lia.
Qed.

(** One character of the slow reading: either the group ends, or one more sextet is held. *)
Lemma slow_step (k : Z -> Z -> Z -> list Z -> option group) src0 src temp acc remain state :
  Forall (in_u 8) src -> (length acc + remain = 4)%nat -> (1 <= remain <= length src)%nat ->
  state = Z.of_nat (length acc) -> holds temp acc -> (length acc + length src <= length src0)%nat ->
  run [] src0 = run acc src ->
  (forall ch decode rest, 0 <= decode < 64 -> is_pad ch = false -> Forall (in_u 8) rest ->
     (remain - 1 <= length rest)%nat -> (length acc + 1 + length rest <= length src0)%nat ->
     run [] src0 = run_data acc decode rest ->
     exists g, k ch decode (push temp decode) rest = Some g /\ group_spec src0 g) ->
  exists g, (do (ok, ch, decode, rest) <- GET_INPUT unbase64 remain src;
             if negb ok then Some (BreakAt state decode ch temp rest) else k ch decode (push temp decode) rest)
            = Some g /\ group_spec src0 g.
Proof.
  intros F La Lr -> H Ls R K. destruct (GET_INPUT_spec remain src F Lr) as (ok & ch & d & rest & -> & Fr & Lt & Ed & Rc & Q).
  cbn [obind]. destruct ok; cbn [negb].
  - destruct Q as (Rd & Lm & Q). apply K; auto; [|lia|now rewrite R].
    apply data_not_pad; [exact Rc|]. rewrite <- Ed. apply Rd.
  - destruct Q as (Nd & Q). eexists. split; [reflexivity|]. exists acc. repeat split; auto; try apply H; try lia.
    now rewrite R.
Qed.

Lemma slow_group_spec temp src : Forall (in_u 8) src -> (4 <= length src)%nat -> 0 <= temp < 2 ^ 32 ->
  exists g, slow_group unbase64 temp src = Some g /\ group_spec src g.
Proof.
  intros F L R. unfold slow_group.
  destruct (GET_INPUT_spec 4 src F ltac:(lia)) as (ok & c1 & d1 & s1 & -> & F1 & L1 & E1 & R1 & Q1).
  cbn [obind]. destruct ok; cbn [negb]; [|destruct Q1 as (N1 & Q1); eexists; split; [reflexivity|];
    exists []; cbn [length]; repeat split; auto; try lia; apply holds_nil; exact R].
  destruct Q1 as (D1 & M1 & Q1). specialize (Q1 []). unfold run_data in Q1. cbn [length Nat.eqb app] in Q1.
  assert (H1 : holds (as_uchar d1) [d1]).
  { split; unfold as_uchar, wrapu; change (2 ^ 8) with 256; change (2 ^ 32) with 4294967296; [zlia|].
    cbn. change (64 ^ 1) with 64. change (Z.pow_pos 64 1) with 64. zlia. }
  apply (slow_step (fun _ d t s2 => _) src s1 (as_uchar d1) [d1] 3 1); auto; try (cbn; lia).
  intros c2 d2 s2 D2 P2 F2 M2 L2 Q2. unfold run_data in Q2. cbn [length Nat.eqb app] in Q2.
  assert (H2 : holds (push (as_uchar d1) d2) [d1; d2]) by (apply (holds_push _ [d1]); auto; cbn; lia).
  apply (slow_step (fun _ d t s3 => _) src s2 _ [d1; d2] 2 2); auto; try (cbn; lia).
  intros c3 d3 s3 D3 P3 F3 M3 L3 Q3. unfold run_data in Q3. cbn [length Nat.eqb app] in Q3.
  assert (H3 : holds (push (push (as_uchar d1) d2) d3) [d1; d2; d3]) by (apply (holds_push _ [d1; d2]); auto; cbn; lia).
  apply (slow_step (fun c d t s4 => Some (Group d c t s4)) src s3 _ [d1; d2; d3] 1 3); auto; try (cbn; lia).
  intros c4 d4 s4 D4 P4 F4 M4 L4 Q4. unfold run_data in Q4. cbn [length Nat.eqb app] in Q4.
  eexists. split; [reflexivity|]. exists [d1; d2; d3; d4].
  repeat split; auto; try lia; try apply (holds_push _ [d1; d2; d3]); auto; cbn; lia.
Qed.

Lemma top_bit t : ((t .& 0x80000000) =? 0) = negb (Z.testbit t 31).
Proof.
  apply eq_true_iff_eq. rewrite Z.eqb_eq, negb_true_iff. split; intros H.
  - assert (B : Z.testbit (t .& 0x80000000) 31 = false) by now rewrite H.
    rewrite Z.land_spec in B. change (Z.testbit 0x80000000 31) with true in B. now rewrite andb_true_r in B.
  - apply Z.bits_inj'. intros i Hi. rewrite Z.land_spec, Z.bits_0. change 0x80000000 with (2 ^ 31).
    rewrite Z.pow2_bits_eqb by lia. destruct (Z.eqb_spec 31 i) as [<-|]; [now rewrite H|apply andb_false_r].
Qed.

(** An entry shifted into its place sets the top bit exactly when it is -1. *)
Lemma shifted_top e k : -1 <= e < 64 -> k = 0 \/ k = 6 \/ k = 12 \/ k = 18 ->
  Z.testbit (as_unsigned e <<[32] k) 31 = (e <? 0).
Proof.
  intros R K. unfold as_unsigned. destruct (e <? 0) eqn:E; zbool.
  - assert (e = -1) as -> by lia. destruct K as [-> |[-> |[-> | ->]]]; reflexivity.
  - rewrite (wrapu_small 32 e) by (change (2 ^ 32) with 4294967296; lia).
    rewrite Z.shiftl_mul_pow2 by lia. apply (testbit_above 24); [|lia]. unfold in_u.
    destruct K as [-> |[-> |[-> | ->]]]; rewrite wrapu_small; change (2 ^ 24) with 16777216; change (2 ^ 32) with 4294967296;
      change (2 ^ 0) with 1; change (2 ^ 6) with 64; change (2 ^ 12) with 4096; change (2 ^ 18) with 262144; lia.
Qed.

Lemma shifted_val e k : 0 <= e < 64 -> 0 <= k <= 18 -> as_unsigned e <<[32] k = Z.shiftl e k.
Proof.
  intros R K. unfold as_unsigned. rewrite (wrapu_small 32 e) by (change (2 ^ 32) with 4294967296; lia).
  apply wrapu_small. rewrite Z.shiftl_mul_pow2 by lia.
  assert (1 <= 2 ^ k <= 2 ^ 18) by (split; [change 1 with (2 ^ 0)|]; apply Z.pow_le_mono_r; lia).
  change (2 ^ 18) with 262144 in *. change (2 ^ 32) with 4294967296. nia.
Qed.

Lemma four_sextets d0 d1 d2 d3 : 0 <= d0 < 64 -> 0 <= d1 < 64 -> 0 <= d2 < 64 -> 0 <= d3 < 64 ->
  Z.shiftl d0 18 .| Z.shiftl d1 12 .| Z.shiftl d2 6 .| d3 = sextets_val [d0; d1; d2; d3].
Proof.
  intros R0 R1 R2 R3.
  assert (J : forall k a b, 0 <= k -> 0 <= b < 2 ^ k -> Z.shiftl a k .| b = a * 2 ^ k + b).
  { intros k a b Hk Hb. rewrite Z.lor_comm, lor_lohi by (auto; split; lia). lia. }
  assert (E : Z.shiftl d0 18 .| Z.shiftl d1 12 = Z.shiftl (d0 * 64 + d1) 12).
  { rewrite (Z.shiftl_mul_pow2 (d0 * 64 + d1)), J by (rewrite ?Z.shiftl_mul_pow2 by lia; change (2 ^ 12) with 4096; change (2 ^ 18) with 262144; lia).
    rewrite Z.shiftl_mul_pow2 by lia. change (2 ^ 18) with 262144. change (2 ^ 12) with 4096. lia. }
  assert (E2 : Z.shiftl (d0 * 64 + d1) 12 .| Z.shiftl d2 6 = Z.shiftl ((d0 * 64 + d1) * 64 + d2) 6).
  { rewrite (Z.shiftl_mul_pow2 _ 6), J by (rewrite ?Z.shiftl_mul_pow2 by lia; change (2 ^ 6) with 64; change (2 ^ 12) with 4096; lia).
    rewrite ?Z.shiftl_mul_pow2 by lia. change (2 ^ 12) with 4096. change (2 ^ 6) with 64. lia. }
  rewrite E, E2, J by (change (2 ^ 6) with 64; lia). cbn [sextets_val fold_left]. change (2 ^ 6) with 64. unfold sextets_val. cbn [fold_left]. lia.
Qed.

Lemma shiftl0_32 e : as_unsigned e <<[32] 0 = as_unsigned e.
Proof. rewrite Z.shiftl_0_r. apply wrapu_idem. lia. Qed.

Lemma read_group_spec decode ch temp src : Forall (in_u 8) src -> (4 <= length src)%nat -> 0 <= temp < 2 ^ 32 ->
  0 <= decode -> is_pad ch = false ->
  exists g, read_group unbase64 decode ch temp src = Some g /\ group_spec src g.
Proof.
  intros F L R D P. destruct src as [|s0 [|s1 [|s2 [|s3 rest]]]]; try (cbn in L; lia). cbn [read_group].
  destruct (_ || _); [now apply slow_group_spec|].
  inversion F as [|? ? B0 F0]; subst. inversion F0 as [|? ? B1 F1]; subst. inversion F1 as [|? ? B2 F2]; subst.
  inversion F2 as [|? ? B3 F3]; subst.
  destruct (Htab s0 B0) as (R0 & _), (Htab s1 B1) as (R1 & _), (Htab s2 B2) as (R2 & _), (Htab s3 B3) as (R3 & _).
  rewrite top_bit, !Z.lor_spec, <- (shiftl0_32 (entry unbase64 s3)), !shifted_top by (auto; lia). rewrite negb_involutive.
  destruct (_ || (entry unbase64 s3 <? 0)) eqn:E.
  - apply slow_group_spec; [exact F|exact L|].
    repeat apply in_u_lor; try lia; apply wrapu_range; lia.
  - rewrite !orb_false_iff, !Z.ltb_ge in E. destruct E as (((E0 & E1) & E2) & E3).
    rewrite !shifted_val, Z.shiftl_0_r, four_sextets by lia. eexists. split; [reflexivity|].
    exists [entry unbase64 s0; entry unbase64 s1; entry unbase64 s2; entry unbase64 s3].
    split; [reflexivity|]. split.
    { split; [|apply Z.mod_small]; unfold sextets_val; cbn [fold_left length Z.of_nat Pos.of_succ_nat Pos.succ];
        change (64 ^ 4) with 16777216; change (2 ^ 32) with 4294967296; lia. }
    split; [exact D|]. split; [exact P|]. split; [exact F3|]. split; [cbn; lia|].
    rewrite run_cons, (proj2 (Z.ltb_ge (entry unbase64 s0) 0)) by lia. unfold run_data at 1. cbn [length Nat.eqb app].
    rewrite run_cons, (proj2 (Z.ltb_ge (entry unbase64 s1) 0)) by lia. unfold run_data at 1. cbn [length Nat.eqb app].
    rewrite run_cons, (proj2 (Z.ltb_ge (entry unbase64 s2) 0)) by lia. unfold run_data at 1. cbn [length Nat.eqb app].
    rewrite run_cons, (proj2 (Z.ltb_ge (entry unbase64 s3) 0)) by lia. reflexivity.
Qed.

(** ** The whole decoder *)
Definition after_groups (v : option decoder) : option (option (list Z * Z)) :=
  match v with
  | None => Some None
  | Some v =>
      if (d_decode v <? 0) && negb (is_pad (d_ch v)) && negb (ascii_isspace (d_ch v)) then Some None
      else if is_pad (d_ch v) then
        unescape_finish (d_ch v :: d_src v) (d_dest v) (d_destidx v) (d_state v) (d_temp v)
      else tail_from (d_src v) (d_dest v) (d_destidx v) (d_state v) (d_temp v)
  end.

Lemma pad_not_space ch : is_pad ch = true -> ascii_isspace ch = false.
Proof. unfold is_pad. rewrite orb_true_iff, !Z.eqb_eq. intros [-> | ->]; reflexivity. Qed.

Lemma unescape_groups_spec fuel : forall v idx, Forall (in_u 8) (d_src v) -> d_destidx v = Z.of_nat idx ->
  0 <= d_temp v < 2 ^ 32 -> d_state v = 0 -> 0 <= d_decode v -> is_pad (d_ch v) = false ->
  (length (d_src v) <= fuel)%nat -> (idx + room (length (d_src v)) <= length (d_dest v))%nat ->
  yields (do v <- unescape_groups fuel unbase64 v; after_groups v) (d_dest v) idx (run [] (d_src v)).
Proof.
  assert (Done : forall v idx, Forall (in_u 8) (d_src v) -> d_destidx v = Z.of_nat idx ->
    0 <= d_temp v < 2 ^ 32 -> d_state v = 0 -> 0 <= d_decode v -> is_pad (d_ch v) = false ->
    (idx + room (length (d_src v)) <= length (d_dest v))%nat ->
    yields (after_groups (Some v)) (d_dest v) idx (run [] (d_src v))).
  { intros v idx F I R S D P C. cbn [after_groups]. rewrite (proj2 (Z.ltb_ge _ 0)), P by lia. cbn [andb].
    rewrite I, S. change 0 with (Z.of_nat (length (@nil Z))). apply tail_from_spec; auto; now apply holds_nil. }
  induction fuel as [|fuel IH]; intros v idx F I R S D P L C; cbn [unescape_groups];
    (destruct (length (d_src v) <? 4)%nat eqn:E; [cbn [obind]; now apply Done|]); apply Nat.ltb_ge in E.
  { lia. }
  destruct (read_group_spec (d_decode v) (d_ch v) (d_temp v) (d_src v) F E R D P) as (g & -> & G). cbn [obind].
  destruct g as [decode ch temp src|state decode ch temp src]; cbn [group_spec] in G.
  - destruct G as (acc & La & H & D' & P' & F' & L' & ->).
    pose proof (room_mono (4 + length src) (length (d_src v)) L') as M. rewrite room_four in M.
    rewrite I, Z.gtb_ltb, (proj2 (Z.ltb_ge _ _)) by lia.
    rewrite (three_bytes_val temp acc H La). set (q := quad_bytes _). change 3 with (Z.of_nat (length q)).
    rewrite store_spec by (cbn; lia). cbn [obind]. apply yields_put; [cbn; lia|]. rewrite <- Nat2Z.inj_add.
    set (dest' := _ ++ _ ++ _).
    apply (IH (mk_decoder src dest' (Z.of_nat (idx + length q)) decode (d_state v) ch (temp >> 16)) (idx + length q)%nat);
      cbn [d_src d_dest d_destidx d_decode d_state d_ch d_temp]; auto; try lia.
    + destruct H as (H & _). rewrite Z.shiftr_div_pow2 by lia. change (2 ^ 16) with 65536. change (2 ^ 32) with 4294967296 in *. zlia.
    + unfold dest'. rewrite stored_length by (cbn; lia). change (length q) with 3%nat. lia.
  - destruct G as (acc & -> & La & H & D' & F' & L' & ->). cbn [obind after_groups d_src d_dest d_destidx d_decode d_state d_ch d_temp].
    rewrite (proj2 (Z.ltb_lt decode 0)), I by lia. cbn [andb]. unfold run_stop.
    destruct (is_pad ch) eqn:Ep; cbn [negb andb].
    + rewrite (pad_not_space ch Ep). apply unescape_finish_spec; auto.
      pose proof (room_mono (length acc) (length (d_src v)) ltac:(lia)). lia.
    + destruct (ascii_isspace ch); cbn [negb]; [|reflexivity]. apply tail_from_spec; auto.
      pose proof (room_mono (length acc + length src) (length (d_src v)) ltac:(lia)). lia.
Qed.

Lemma unescape_to_string_spec fill src : Forall (in_u 8) src ->
  unescape_to_string fill src unbase64 =
  Some (match run [] src with Some out => (true, out) | None => (false, []) end).
Proof.
  intros F. unfold unescape_to_string. set (dest := repeat fill _).
  assert (Y : yields (Base64UnescapeInternal src dest unbase64) dest 0 (run [] src)).
  { apply (unescape_groups_spec (length src) (mk_decoder src dest 0 0 0 0 0) 0);
      cbn [d_src d_dest d_destidx d_decode d_state d_ch d_temp]; auto; try lia.
    unfold dest. rewrite repeat_length. cbn [Nat.add]. apply Nat.le_refl. }
  destruct (run [] src) as [out|]; cbn [yields] in Y; [|now rewrite Y].
  destruct Y as (dest' & -> & E). cbn [obind Nat.add]. rewrite Nat2Z.id. cbn in E. now rewrite E.
Qed.
End Decode.

(** ** The encoded text *)
Definition pads (do_padding : bool) (n : nat) : list Z := if do_padding then repeat kPad64 n else [].

Fixpoint encoding (base64 : list Z) (do_padding : bool) (src : list Z) : list Z :=
  match src with
  | [] => []
  | [a] => map (entry base64) [a / 4; a mod 4 * 16] ++ pads do_padding 2
  | [a; b] => map (entry base64) [a / 4; a mod 4 * 16 + b / 16; b mod 16 * 4] ++ pads do_padding 1
  | a :: b :: c :: src' =>
      map (entry base64) [a / 4; a mod 4 * 16 + b / 16; b mod 16 * 4 + c / 64; c mod 64] ++ encoding base64 do_padding src'
  end.

Lemma encoding_cons base64 do_padding a b c src :
  encoding base64 do_padding (a :: b :: c :: src) =
  map (entry base64) [a / 4; a mod 4 * 16 + b / 16; b mod 16 * 4 + c / 64; c mod 64] ++ encoding base64 do_padding src.
Proof. reflexivity. Qed.

Lemma mask_mod k m x : 0 <= k -> m = Z.ones k -> x .& m = x mod 2 ^ k.
Proof. intros Hk ->. now apply Z.land_ones. Qed.

Ltac byte_range H := unfold in_u in H; change (2 ^ 8) with 256 in H.

Lemma quad_encoding base64 a b c : in_u 8 a -> in_u 8 b -> in_u 8 c ->
  quad base64 (a * 65536 + b * 256 + c) =
  map (entry base64) [a / 4; a mod 4 * 16 + b / 16; b mod 16 * 4 + c / 64; c mod 64].
Proof.
  intros A B C. byte_range A. byte_range B. byte_range C. unfold quad.
  rewrite !(mask_mod 18 0x3FFFF), !(mask_mod 12 0xFFF), !(mask_mod 6 0x3F), !Z.shiftr_div_pow2 by (reflexivity || lia).
  change (2 ^ 18) with 262144. change (2 ^ 12) with 4096. change (2 ^ 6) with 64. cbn [map].
  replace ((a * 65536 + b * 256 + c) / 262144) with (a / 4) by zlia.
  replace ((a * 65536 + b * 256 + c) mod 262144 / 4096) with (a mod 4 * 16 + b / 16) by zlia.
  replace (((a * 65536 + b * 256 + c) mod 262144) mod 4096 / 64) with (b mod 16 * 4 + c / 64) by zlia.
  replace ((((a * 65536 + b * 256 + c) mod 262144) mod 4096) mod 64) with (c mod 64) by zlia. reflexivity.
Qed.

Lemma load_group4 host a b c d rest : Forall (in_u 8) (a :: b :: c :: d :: rest) ->
  big_endian.Load host 4 (a :: b :: c :: d :: rest) >> 8 = a * 65536 + b * 256 + c.
Proof.
  intros F. rewrite big_Load_val by (exact F || (unfold std_bytes; lia) || (cbn; lia)). cbn [firstn rev app le_val].
  rewrite Z.shiftr_div_pow2 by lia. change (2 ^ 8) with 256.
  repeat match goal with H : Forall _ (_ :: _) |- _ => inversion H; clear H; subst end.
  byte_range H1. byte_range H2. byte_range H3. byte_range H4. zlia.
Qed.

Lemma load_pair host a b rest : Forall (in_u 8) (a :: b :: rest) ->
  big_endian.Load host 2 (a :: b :: rest) = a * 256 + b.
Proof.
  intros F. rewrite big_Load_val by (exact F || (unfold std_bytes; lia) || (cbn; lia)). cbn [firstn rev app le_val]. lia.
Qed.

Lemma encoding_length base64 do_padding : forall n src, (length src <= n)%nat ->
  length (encoding base64 do_padding src) =
  (4 * (length src / 3) + match (length src mod 3)%nat with 0%nat => 0 | 1%nat => if do_padding then 4 else 2 | _ => if do_padding then 4 else 3 end)%nat.
Proof.
  induction n as [|n IH]; intros src L; [destruct src; [reflexivity|cbn in L; lia]|].
  destruct src as [|a [|b [|c src]]]; try reflexivity; try (now destruct do_padding). cbn [length] in L.
  rewrite encoding_cons, length_app, IH by lia. cbn [map length].
  replace (S (S (S (length src)))) with (length src + 1 * 3)%nat by lia.
  rewrite Nat.div_add, Nat.Div0.mod_add by lia. lia.
Qed.

(** The loop writes the groups before the last three bytes. *)
Lemma escape_groups_spec host base64 do_padding fuel : forall src dest cur, Forall (in_u 8) src -> (length src <= fuel)%nat ->
  (cur + length (encoding base64 do_padding src) <= length dest)%nat ->
  exists rest pre dest', escape_groups host fuel base64 src dest (Z.of_nat cur) = Some (rest, dest', Z.of_nat (cur + length pre)) /\
  Forall (in_u 8) rest /\ (length rest <= 3)%nat /\ encoding base64 do_padding src = pre ++ encoding base64 do_padding rest /\
  firstn (cur + length pre) dest' = firstn cur dest ++ pre /\ length dest' = length dest.
Proof.
  assert (Stop : forall fuel src dest cur, Forall (in_u 8) src -> (length src <= 3)%nat ->
    exists rest pre dest', escape_groups host fuel base64 src dest (Z.of_nat cur) = Some (rest, dest', Z.of_nat (cur + length pre)) /\
    Forall (in_u 8) rest /\ (length rest <= 3)%nat /\ encoding base64 do_padding src = pre ++ encoding base64 do_padding rest /\
    firstn (cur + length pre) dest' = firstn cur dest ++ pre /\ length dest' = length dest).
  { intros f src dest cur F L. exists src, [], dest. rewrite Nat.add_0_r, app_nil_r.
    destruct f; cbn [escape_groups]; rewrite (proj2 (Nat.leb_le _ _)) by exact L; auto 10. }
  induction fuel as [|fuel IH]; intros src dest cur F L C.
  { apply Stop; [exact F|lia]. }
  destruct (Nat.le_gt_cases (length src) 3) as [S|S]; [now apply Stop|].
  destruct src as [|a [|b [|c src]]]; try (cbn in S; lia). destruct src as [|d src]; [cbn in S; lia|].
  cbn [escape_groups]. rewrite (proj2 (Nat.leb_gt _ _)) by exact S. rewrite load_group4 by exact F.
  inversion F as [|? ? A F1]; subst. inversion F1 as [|? ? B F2]; subst. inversion F2 as [|? ? C' F3]; subst.
  rewrite encoding_cons in *. rewrite quad_encoding by assumption. set (q := map _ _) in *.
  rewrite length_app in C. change (length q) with 4%nat in C.
  rewrite store_spec by (change (length q) with 4%nat; lia). cbn [obind skipn].
  replace (Z.of_nat cur + 4) with (Z.of_nat (cur + length q)) by (change (length q) with 4%nat; lia).
  set (dest2 := _ ++ _ ++ _).
  assert (L2 : length dest2 = length dest) by (unfold dest2; apply stored_length; change (length q) with 4%nat; lia).
  destruct (IH (d :: src) dest2 (cur + length q)%nat F3) as (rest & pre & dest' & E & Fr & Lr & En & Fi & Ld).
  { cbn [length] in *. lia. }
  { rewrite L2. change (length q) with 4%nat. lia. }
  exists rest, (q ++ pre), dest'. rewrite length_app, Nat.add_assoc, E, Fi, Ld, L2. unfold dest2.
  rewrite firstn_stored by (change (length q) with 4%nat; lia). rewrite En, !app_assoc. auto 10.
Qed.

(** Stores at the end of a prefix that was already written. *)
Lemma store_after dest cur (pre bytes : list Z) : firstn cur dest = pre -> (cur + length bytes <= length dest)%nat ->
  exists dest', store dest (Z.of_nat cur) bytes = Some dest' /\ firstn (cur + length bytes) dest' = pre ++ bytes /\
  length dest' = length dest.
Proof.
  intros <- H. rewrite store_spec by exact H. eexists. split; [reflexivity|].
  split; [now apply firstn_stored|now apply stored_length].
Qed.

Lemma tail_one base64 a : in_u 8 a ->
  [entry base64 (a >> 2); entry base64 (Z.shiftl (a .& 0x3) 4)] = map (entry base64) [a / 4; a mod 4 * 16].
Proof.
  intros A. rewrite (mask_mod 2 0x3), Z.shiftr_div_pow2, Z.shiftl_mul_pow2 by (reflexivity || lia). reflexivity.
Qed.

Lemma tail_two base64 a b : in_u 8 a -> in_u 8 b ->
  [entry base64 ((a * 256 + b) >> 10); entry base64 (((a * 256 + b) .& 0x3FF) >> 4);
   entry base64 (Z.shiftl (((a * 256 + b) .& 0x3FF) .& 0x00F) 2)] =
  map (entry base64) [a / 4; a mod 4 * 16 + b / 16; b mod 16 * 4].
Proof.
  intros A B. byte_range A. byte_range B.
  rewrite (mask_mod 10 0x3FF), (mask_mod 4 0x00F), !Z.shiftr_div_pow2, Z.shiftl_mul_pow2 by (reflexivity || lia).
  change (2 ^ 10) with 1024. change (2 ^ 4) with 16. change (2 ^ 2) with 4. cbn [map].
  replace ((a * 256 + b) / 1024) with (a / 4) by zlia.
  replace ((a * 256 + b) mod 1024 / 16) with (a mod 4 * 16 + b / 16) by zlia.
  replace (((a * 256 + b) mod 1024) mod 16 * 4) with (b mod 16 * 4) by zlia. reflexivity.
Qed.

(** The last characters and their padding. *)
Lemma put_tail (do_padding : bool) dest (pre m : list Z) k size n : Z.of_nat (length m) = n ->
  firstn (length pre) dest = pre -> length dest = (length pre + (length m + length (pads do_padding k)))%nat ->
  size = Z.of_nat (length pre + (length m + length (pads do_padding k))) - Z.of_nat (length pre) ->
  exists dest', (if size <? n then Some (0, dest)
     else
       do dest <- store dest (Z.of_nat (length pre)) m;
       if do_padding then
         if size - n <? Z.of_nat k then Some (0, dest)
         else
           do dest <- store dest (Z.of_nat (length pre) + n) (repeat kPad64 k);
           Some (Z.of_nat (length pre) + n + Z.of_nat k, dest)
       else Some (Z.of_nat (length pre) + n, dest))
    = Some (Z.of_nat (length pre + (length m + length (pads do_padding k))), dest') /\
  firstn (length pre + (length m + length (pads do_padding k))) dest' = pre ++ m ++ pads do_padding k.
Proof.
  intros <- Fi L ->. rewrite (proj2 (Z.ltb_ge _ (Z.of_nat (length m)))) by lia.
  destruct (store_after dest (length pre) pre m Fi) as (d2 & -> & F2 & L2); [lia|]. cbn [obind].
  rewrite <- Nat2Z.inj_add. destruct do_padding; cbn [pads] in *.
  - rewrite repeat_length in *. rewrite (proj2 (Z.ltb_ge _ (Z.of_nat k))) by lia.
    destruct (store_after d2 (length pre + length m) (pre ++ m) (repeat kPad64 k) F2) as (d3 & -> & F3 & L3);
      [rewrite repeat_length; lia|].
    cbn [obind]. exists d3. split; [do 2 f_equal; lia|]. rewrite repeat_length in F3. now rewrite Nat.add_assoc, F3, app_assoc.
  - exists d2. cbn [length]. rewrite Nat.add_0_r, app_nil_r. auto.
Qed.

Lemma Base64EscapeInternal_spec host src dest base64 do_padding :
  Forall (in_u 8) src -> Z.of_nat (length src) < 2 ^ 60 -> length dest = length (encoding base64 do_padding src) ->
  exists dest', Base64EscapeInternal host src dest base64 do_padding = Some (Z.of_nat (length dest), dest') /\
  firstn (length dest) dest' = encoding base64 do_padding src.
Proof.
  intros F B Ld. unfold Base64EscapeInternal.
  assert (Q : (4 * length src <= 3 * length dest <= 4 * length src + 12)%nat).
  { rewrite Ld, (encoding_length base64 do_padding (length src)) by lia.
    pose proof (Nat.div_mod (length src) 3 ltac:(lia)). pose proof (Nat.mod_upper_bound (length src) 3 ltac:(lia)).
    destruct (length src mod 3)%nat as [|[|[|]]]; destruct do_padding; lia. }
  replace ((Z.of_nat (length src) >? kMaxSize) || _) with false.
  2: { symmetry. change (2 ^ 60) with 1152921504606846976 in B.
       rewrite !wrapu_small by (change (2 ^ 64) with 18446744073709551616; lia).
       apply orb_false_iff. change kMaxSize with 13835058055282163709. rewrite !Z.gtb_ltb, !Z.ltb_ge. lia. }
  destruct (escape_groups_spec host base64 do_padding (length src) src dest 0 F ltac:(lia) ltac:(rewrite Ld; lia))
    as (rest & pre & dest' & E & Fr & Lr & En & Fi & Le).
  change (Z.of_nat 0) with 0 in E. rewrite E. cbn [obind]. cbn [Nat.add firstn app] in Fi. cbn [Nat.add].
  rewrite Ld, En, length_app in Le. rewrite Ld, En, length_app.
  destruct rest as [|a [|b [|c [|]]]]; try (cbn in Lr; lia).
  - cbn [encoding length]. rewrite Nat.add_0_r, app_nil_r. eauto.
  - inversion Fr; subst. rewrite tail_one by assumption. cbn [encoding] in *. rewrite length_app in *.
    apply (put_tail do_padding dest' pre _ 2 _ 2); auto.
  - inversion Fr as [|? ? A Fb]; subst. inversion Fb as [|? ? Bb _]; subst. rewrite load_pair by exact Fr.
    rewrite tail_two by assumption. cbn [encoding] in *. rewrite length_app in *.
    apply (put_tail do_padding dest' pre _ 1 _ 3); auto.
  - inversion Fr as [|? ? A Fb]; subst. inversion Fb as [|? ? Bb Fc]; subst. inversion Fc as [|? ? Cc _]; subst.
    cbn [skipn]. rewrite load_pair by exact Fb. rewrite encoding_cons in *. cbn [encoding] in *. rewrite app_nil_r in *.
    rewrite Z.shiftl_mul_pow2 by lia. change (2 ^ 16) with 65536. rewrite Z.add_assoc, quad_encoding by assumption.
    set (m := map _ _) in *. assert (Lm : length m = 4%nat) by reflexivity. rewrite Lm in *.
    rewrite (proj2 (Z.ltb_ge _ 4)) by lia.
    destruct (store_after dest' (length pre) pre m Fi) as (d2 & -> & F2 & L2); [lia|]. cbn [obind]. rewrite Lm in F2.
    exists d2. split; [do 2 f_equal; lia|exact F2].
Qed.

Lemma escaped_len base64 do_padding src : Z.of_nat (length src) < 2 ^ 60 ->
  CalculateBase64EscapedLenInternal (Z.of_nat (length src)) do_padding =
  Some (Z.of_nat (length (encoding base64 do_padding src))).
Proof.
  intros B. rewrite (encoding_length base64 do_padding (length src)) by lia. unfold CalculateBase64EscapedLenInternal.
  change (2 ^ 60) with 1152921504606846976 in B.
  change kMaxSize with 13835058055282163709. rewrite (proj2 (Z.leb_le (Z.of_nat (length src)) _)) by lia. cbn [negb].
  change 3 with (Z.of_nat 3) at 1 2 3. rewrite <- Nat2Z.inj_div, <- Nat2Z.inj_mod.
  pose proof (Nat.div_mod (length src) 3 ltac:(lia)). pose proof (Nat.mod_upper_bound (length src) 3 ltac:(lia)).
  destruct (length src mod 3)%nat as [|[|[|]]]; [..|lia]; cbn [Z.of_nat Pos.of_succ_nat Pos.succ Z.eqb Pos.eqb];
    destruct do_padding; f_equal; unfold wrapu; change (2 ^ 64) with 18446744073709551616; zlia.
Qed.

Lemma escape_to_string host fill src do_padding base64 : Forall (in_u 8) src -> Z.of_nat (length src) < 2 ^ 60 ->
  Base64EscapeToStringInternal host fill src do_padding base64 = Some (encoding base64 do_padding src).
Proof.
  intros F B. unfold Base64EscapeToStringInternal. rewrite (escaped_len base64) by exact B. cbn [obind].
  rewrite Nat2Z.id. set (buf := repeat fill _).
  destruct (Base64EscapeInternal_spec host src buf base64 do_padding F B) as (buf' & -> & E);
    [unfold buf; apply repeat_length|]. cbn [obind]. now rewrite Nat2Z.id, E.
Qed.

(** ** Decoding the encoding *)

(** The alphabet and the inverse table. *)
Definition inverse (base64 unbase64 : list Z) : Prop :=
  forall d, 0 <= d < 64 -> in_u 8 (entry base64 d) /\ entry unbase64 (entry base64 d) = d.

Lemma run_sextet base64 unbase64 acc d src : inverse base64 unbase64 -> 0 <= d < 64 ->
  run unbase64 acc (entry base64 d :: src) = run_data unbase64 acc d src.
Proof.
  intros I D. destruct (I d D) as (_ & E). rewrite run_cons, E, (proj2 (Z.ltb_ge d 0)) by lia. reflexivity.
Qed.

Ltac read_sextet I :=
  rewrite (run_sextet _ _ _ _ _ I) by zlia; unfold run_data at 1; cbn [length Nat.eqb app].

Lemma run_pads unbase64 acc do_padding : table_ok unbase64 -> length acc = 2%nat \/ length acc = 3%nat ->
  run unbase64 acc (pads do_padding (4 - length acc)) = Some (tail_bytes acc).
Proof.
  intros T L. assert (P : entry unbase64 kPad64 = -1) by (apply (T kPad64); [split; reflexivity || discriminate|reflexivity]).
  assert (F : forall src e, count_equals src 0 = Some e -> e = 0 \/ e = expected_pads (length acc) ->
    finish_spec acc src = Some (tail_bytes acc)).
  { intros src e C E. unfold finish_spec. replace (length acc =? 1)%nat with false by (destruct L as [-> | ->]; reflexivity).
    rewrite C. replace ((e =? 0) || (e =? expected_pads (length acc))) with true; [reflexivity|].
    destruct E as [-> | ->]; [reflexivity|now rewrite Z.eqb_refl, orb_true_r]. }
  destruct do_padding; [|apply (F [] 0); auto].
  destruct L as [L|L]; rewrite L in *; cbn [pads repeat Nat.sub]; rewrite run_cons, P; cbn [Z.ltb Z.compare];
    unfold run_stop; change (ascii_isspace kPad64) with false; change (is_pad kPad64) with true;
    eapply F; [reflexivity|auto|reflexivity|auto].
Qed.

Lemma run_encoding base64 unbase64 do_padding : table_ok unbase64 -> inverse base64 unbase64 ->
  forall n src, (length src <= n)%nat -> Forall (in_u 8) src -> run unbase64 [] (encoding base64 do_padding src) = Some src.
Proof.
  intros T I. induction n as [|n IH]; intros src L F; [destruct src; [reflexivity|cbn in L; lia]|].
  destruct src as [|a [|b [|c src]]]; [reflexivity|..];
    repeat match goal with H : Forall _ (_ :: _) |- _ => inversion H; clear H; subst end;
    repeat match goal with H : in_u 8 _ |- _ => byte_range H end.
  - cbn [encoding map app]. read_sextet I. read_sextet I.
    etransitivity; [apply (run_pads unbase64 [a / 4; a mod 4 * 16]); auto|]. unfold tail_bytes, sextets_val. cbn [length fold_left].
    do 2 f_equal. zlia.
  - cbn [encoding map app]. read_sextet I. read_sextet I. read_sextet I.
    etransitivity; [apply (run_pads unbase64 [a / 4; a mod 4 * 16 + b / 16; b mod 16 * 4]); auto|].
    unfold tail_bytes, sextets_val. cbn [length fold_left].
    replace ((((0 * 64 + a / 4) * 64 + (a mod 4 * 16 + b / 16)) * 64 + b mod 16 * 4) / 1024 mod 256) with a by zlia.
    replace ((((0 * 64 + a / 4) * 64 + (a mod 4 * 16 + b / 16)) * 64 + b mod 16 * 4) / 4 mod 256) with b by zlia. reflexivity.
  - cbn [length] in L. rewrite encoding_cons. cbn [map app]. read_sextet I. read_sextet I. read_sextet I. read_sextet I.
    rewrite IH by (auto; lia). cbn [option_map]. f_equal. unfold quad_bytes, sextets_val. cbn [fold_left app].
    set (v := _ + c mod 64). assert (V : v = a * 65536 + b * 256 + c) by (unfold v; zlia). clearbody v. subst v.
    replace ((a * 65536 + b * 256 + c) / 65536 mod 256) with a by zlia.
    replace ((a * 65536 + b * 256 + c) / 256 mod 256) with b by zlia.
    replace ((a * 65536 + b * 256 + c) mod 256) with c by zlia. reflexivity.
Qed.

Lemma encoding_bytes base64 unbase64 do_padding : inverse base64 unbase64 ->
  forall n src, (length src <= n)%nat -> Forall (in_u 8) src -> Forall (in_u 8) (encoding base64 do_padding src).
Proof.
  intros I. assert (E : forall d, 0 <= d < 64 -> in_u 8 (entry base64 d)) by (intros d D; apply (I d D)).
  assert (P : forall n, Forall (in_u 8) (pads do_padding n)).
  { intros n. destruct do_padding; [|constructor]. apply Forall_forall. intros x H. apply repeat_spec in H. subst.
    split; reflexivity || discriminate. }
  induction n as [|n IH]; intros src L F; [destruct src; [constructor|cbn in L; lia]|].
  destruct src as [|a [|b [|c src]]]; [constructor|..];
    repeat match goal with H : Forall _ (_ :: _) |- _ => inversion H; clear H; subst end;
    repeat match goal with H : in_u 8 _ |- _ => byte_range H end; try rewrite encoding_cons; cbn [encoding map length] in *;
    apply Forall_app; (split; [repeat constructor; apply E; zlia|]); auto. apply IH; [lia|assumption].
Qed.

(** ** The two alphabets *)
Lemma tables_ok : table_ok kUnBase64 /\ table_ok kUnWebSafeBase64.
Proof.
  assert (C : forall t, forallb_below 256 (fun ch => (-1 <=? entry t ch) && (entry t ch <? 64)
      && (negb (is_pad ch || ascii_isspace ch) || (entry t ch =? -1))) = true -> table_ok t).
  { intros t H ch R. pose proof (byte_check _ H ch R) as B. cbn beta in B.
    rewrite !andb_true_iff, orb_true_iff, negb_true_iff, Z.leb_le, Z.ltb_lt, Z.eqb_eq in B.
    destruct B as ((B1 & B2) & B3). split; [lia|]. intros E. destruct B3 as [B3|B3]; [congruence|exact B3]. }
  split; apply C; vm_compute; reflexivity.
Qed.

Lemma tables_inverse : inverse kBase64Chars kUnBase64 /\ inverse kWebSafeBase64Chars kUnWebSafeBase64.
Proof.
  assert (C : forall b t, forallb_below 64 (fun d => (0 <=? entry b d) && (entry b d <? 256) && (entry t (entry b d) =? d)) = true
      -> inverse b t).
  { intros b t H d D. pose proof (forallb_below_spec 64 _ H d D) as B. cbn beta in B.
    rewrite !andb_true_iff, Z.leb_le, Z.ltb_lt, Z.eqb_eq in B. unfold in_u. change (2 ^ 8) with 256. tauto. }
  split; apply C; vm_compute; reflexivity.
Qed.

(** ** The theorems *)

(** The Base64 decoder is its reference.  On every input of bytes, valid or not, the decoder
    stays inside its input and its buffer, ends, and answers what the character-by-character
    reference answers: the optimistic four-character groups, the fall-back inside a group, the
    unread bits left in [temp] and the counts at the end of the input make no difference. *)
Lemma base64_decoder_refines fill src :
  Forall (in_u 8) src ->
  Base64Unescape fill src = Some (match run kUnBase64 [] src with Some out => (true, out) | None => (false, []) end) /\
  WebSafeBase64Unescape fill src =
    Some (match run kUnWebSafeBase64 [] src with Some out => (true, out) | None => (false, []) end).
Proof.
  intros F. split; apply unescape_to_string_spec; try exact F; apply tables_ok.
Qed.

(** Base64 round-trips.  For every byte string of fewer than [2 ^ 60] bytes, on hosts of either
    byte order, the encoder fills a buffer of exactly the computed size with the RFC 4648 text, and
    decoding that text gives the bytes back; the same holds of the web-safe alphabet without
    padding. *)
Lemma base64_roundtrip host fill fill' src :
  Forall (in_u 8) src -> Z.of_nat (length src) < 2 ^ 60 ->
  exists text web, Base64Escape host fill src = Some text /\ Base64Unescape fill' text = Some (true, src) /\
  WebSafeBase64Escape host fill src = Some web /\ WebSafeBase64Unescape fill' web = Some (true, src) /\
  CalculateBase64EscapedLenInternal (Z.of_nat (length src)) true = Some (Z.of_nat (length text)) /\
  text = encoding kBase64Chars true src.
Proof.
  intros F B. destruct tables_ok as (T1 & T2), tables_inverse as (I1 & I2).
  exists (encoding kBase64Chars true src), (encoding kWebSafeBase64Chars false src).
  assert (D : forall b t p, table_ok t -> inverse b t -> Forall (in_u 8) (encoding b p src) ->
    unescape_to_string fill' (encoding b p src) t = Some (true, src)).
  { intros b t p T I Fe. rewrite (unescape_to_string_spec t T) by exact Fe.
    rewrite (run_encoding b t p T I (length src)) by auto. reflexivity. }
  repeat split; [now apply escape_to_string|apply D; auto|now apply escape_to_string|apply D; auto|now apply escaped_len];
    [now apply (encoding_bytes _ kUnBase64 true I1 (length src))|now apply (encoding_bytes _ kUnWebSafeBase64 false I2 (length src))].
Qed.

(** C27: Base64. On every input of bytes, valid or not, the decoder stays inside its input and its buffer, ends,
    and answers what the character-by-character reference answers: the optimistic four-character groups, the
    fall-back inside a group, the unread bits left in [temp] and the counts at the end of the input make no
    difference. For every byte string of fewer than [2 ^ 60] bytes, on hosts of either byte order, the encoder
    fills a buffer of exactly the computed size with the RFC 4648 text, and decoding that text gives the bytes
    back; the same holds of the web-safe alphabet without padding. *)
Theorem base64_correct host fill fill' src :
  Forall (in_u 8) src ->
  (Base64Unescape fill src = Some (match run kUnBase64 [] src with Some out => (true, out) | None => (false, []) end) /\
  WebSafeBase64Unescape fill src =
    Some (match run kUnWebSafeBase64 [] src with Some out => (true, out) | None => (false, []) end)) /\
  (Z.of_nat (length src) < 2 ^ 60 ->
  exists text web, Base64Escape host fill src = Some text /\ Base64Unescape fill' text = Some (true, src) /\
  WebSafeBase64Escape host fill src = Some web /\ WebSafeBase64Unescape fill' web = Some (true, src) /\
  CalculateBase64EscapedLenInternal (Z.of_nat (length src)) true = Some (Z.of_nat (length text)) /\
  text = encoding kBase64Chars true src).
Proof. intros F. split; [now apply base64_decoder_refines|]. intros. now apply base64_roundtrip. Qed.

Lemma base64_correct_witness :
  Base64Unescape 0 (str "aGVs bG8=") = Some (true, str "hello") /\
  exists text web, Base64Escape little 0 (str "hello") = Some text /\ Base64Unescape 0 text = Some (true, str "hello") /\
  WebSafeBase64Escape little 0 (str "hello") = Some web /\ WebSafeBase64Unescape 0 web = Some (true, str "hello") /\
  CalculateBase64EscapedLenInternal (Z.of_nat (length (str "hello"))) true = Some (Z.of_nat (length text)) /\
  text = encoding kBase64Chars true (str "hello").
Proof.
  split.
  - etransitivity; [apply (base64_correct little 0 0 (str "aGVs bG8="))|vm_compute; reflexivity].
    repeat constructor; vm_compute; congruence.
  - apply (base64_correct little 0 0 (str "hello")); [|reflexivity]. repeat constructor; vm_compute; congruence.
Defined.
