(* ===== verification/CharSet.v ===== *)
(** Sets of characters, [strings/charset.h]: a bit for every byte in four 64-bit words. *)
From Stdlib Require Import Ascii String.
From Stdlib Require Import ZArith Lia List Bool.
From S2P Require Import Prelude.
Import ListNotations.
#[local] Open Scope Z_scope.
#[local] Open Scope mach_scope.

(** [uint64_t m_[4]] *)
Record CharSet := mk_set { m_ : list Z }.

Definition empty_set : CharSet := mk_set [0; 0; 0; 0].

Definition word (s : CharSet) (i : Z) : Z := nth (Z.to_nat i) (m_ s) 0.

Definition contains (s : CharSet) (c : Z) : bool := ((word s (c / 64) >> (c mod 64)) .& 0x1) =? 0x1.

Definition empty (s : CharSet) : bool := forallb (fun c => c =? 0) (m_ s).

Definition SetChar (s : CharSet) (c : Z) : CharSet :=
  mk_set (replace_nth (Z.to_nat (c / 64)) (word s (c / 64) .| (1 <<[64] (c mod 64))) (m_ s)).

Definition of_string (str : list Z) : CharSet := fold_left SetChar str empty_set.

Definition OpenRangeFromZeroForWord (upper word : Z) : Z :=
  if upper <=? 64 *[64] word then 0
  else if upper >=? 64 *[64] (word +[64] 1) then ~[64] 0
  else (~[64] 0) >> (64 - upper mod 64).

Definition RangeForWord (lo hi word : Z) : Z :=
  OpenRangeFromZeroForWord (hi + 1) word .& (~[64] (OpenRangeFromZeroForWord lo word)).

Definition CharMaskForWord (x word : Z) : Z := if x / 64 =? word then 1 <<[64] (x mod 64) else 0.

Definition Char (x : Z) : CharSet :=
  mk_set [CharMaskForWord x 0; CharMaskForWord x 1; CharMaskForWord x 2; CharMaskForWord x 3].

Definition Range (lo hi : Z) : CharSet :=
  mk_set [RangeForWord lo hi 0; RangeForWord lo hi 1; RangeForWord lo hi 2; RangeForWord lo hi 3].

Definition words2 (f : Z -> Z -> Z) (a b : CharSet) : CharSet :=
  mk_set [f (word a 0) (word b 0); f (word a 1) (word b 1); f (word a 2) (word b 2); f (word a 3) (word b 3)].

Definition inter (a b : CharSet) : CharSet := words2 Z.land a b.
Definition union (a b : CharSet) : CharSet := words2 Z.lor a b.
Definition compl (a : CharSet) : CharSet :=
  mk_set [~[64] (word a 0); ~[64] (word a 1); ~[64] (word a 2); ~[64] (word a 3)].

Definition AsciiUppercase : CharSet := Range (chr "A") (chr "Z").
Definition AsciiLowercase : CharSet := Range (chr "a") (chr "z").
Definition AsciiDigits : CharSet := Range (chr "0") (chr "9").
Definition AsciiAlphabet : CharSet := union AsciiLowercase AsciiUppercase.
Definition AsciiAlphanumerics : CharSet := union AsciiDigits AsciiAlphabet.
Definition AsciiHexDigits : CharSet :=
  union (union AsciiDigits (Range (chr "A") (chr "F"))) (Range (chr "a") (chr "f")).
Definition AsciiPrintable : CharSet := Range 0x20 0x7e.
Definition AsciiWhitespace : CharSet := of_string [9; 10; 11; 12; 13; 32].
Definition AsciiPunctuation : CharSet :=
  inter (inter AsciiPrintable (compl AsciiWhitespace)) (compl AsciiAlphanumerics).

(** ** Well-formed sets *)
Definition set_ok (s : CharSet) : Prop := length (m_ s) = 4%nat /\ Forall (in_u 64) (m_ s).

Lemma contains_testbit s c : 0 <= c -> contains s c = Z.testbit (word s (c / 64)) (c mod 64).
Proof.
  intros H. unfold contains. change 0x1 with (Z.ones 1). rewrite Z.land_ones by lia. change (2 ^ 1) with 2.
  change (Z.ones 1) with 1. rewrite Zmod_odd, <- Z.bit0_odd, Z.shiftr_spec by lia. rewrite Z.add_0_l.
  now destruct (Z.testbit _ _).
Qed.

Lemma byte_split c : in_u 8 c -> 0 <= c / 64 < 4 /\ 0 <= c mod 64 < 64 /\ c = 64 * (c / 64) + c mod 64.
Proof. unfold in_u. change (2 ^ 8) with 256. intros H. zlia. Qed.

Lemma word_range s i : set_ok s -> in_u 64 (word s i).
Proof.
  intros (L & F). unfold word. destruct (Nat.lt_ge_cases (Z.to_nat i) 4) as [H|H].
  - rewrite Forall_forall in F. apply F, nth_In. now rewrite L.
  - rewrite nth_overflow by now rewrite L. split; [lia|reflexivity].
Qed.

(** A set given by its four words. *)
Lemma word_of_four a0 a1 a2 a3 (f : Z -> Z) i : 0 <= i < 4 ->
  [a0; a1; a2; a3] = [f 0; f 1; f 2; f 3] -> word (mk_set [a0; a1; a2; a3]) i = f i.
Proof.
  intros H [= -> -> -> ->]. assert (C : i = 0 \/ i = 1 \/ i = 2 \/ i = 3) by lia.
  destruct C as [-> |[-> |[-> | ->]]]; reflexivity.
Qed.

Lemma four_ok (f : Z -> Z) : (forall i, 0 <= i < 4 -> in_u 64 (f i)) -> set_ok (mk_set [f 0; f 1; f 2; f 3]).
Proof. intros H. split; [reflexivity|]. repeat constructor; apply H; lia. Qed.

Lemma bit_one k i : 0 <= k < 64 -> 0 <= i -> Z.testbit (1 <<[64] k) i = (i =? k).
Proof.
  intros H Hi. rewrite wrapu_testbit, Z.shiftl_1_l, Z.pow2_bits_eqb by lia.
  destruct (Z.eqb_spec k i) as [->|N]; [rewrite Z.eqb_refl|].
  - now rewrite (proj2 (Z.ltb_lt i 64)) by lia.
  - now rewrite (proj2 (Z.eqb_neq i k)) by congruence; rewrite andb_false_r.
Qed.

Lemma SetChar_ok s c : set_ok s -> in_u 8 c -> set_ok (SetChar s c).
Proof.
  intros S R. pose proof (word_range s (c / 64) S) as W. destruct S as (L & F).
  split; [cbn; now rewrite replace_nth_length|]. cbn. apply Forall_replace_nth; [|exact F].
  apply in_u_lor; [lia|exact W|apply wrapu_range; lia].
Qed.

Lemma contains_SetChar s c x : set_ok s -> in_u 8 c -> in_u 8 x ->
  contains (SetChar s c) x = (x =? c) || contains s x.
Proof.
  intros (L & F) Rc Rx. destruct (byte_split c Rc) as (C1 & C2 & C3), (byte_split x Rx) as (X1 & X2 & X3).
  rewrite !contains_testbit by (apply Rx). unfold SetChar, word at 1. cbn [m_]. rewrite nth_replace_nth, L.
  destruct (Z.eq_dec (x / 64) (c / 64)) as [E|N].
  - rewrite E, Nat.eqb_refl, (proj2 (Nat.ltb_lt _ _)) by lia. cbn [andb]. rewrite Z.lor_spec, bit_one, orb_comm by lia.
    f_equal. apply eq_true_iff_eq. rewrite !Z.eqb_eq. lia.
  - rewrite (proj2 (Nat.eqb_neq _ _)) by lia. cbn [andb]. fold (word s (x / 64)).
    now rewrite (proj2 (Z.eqb_neq x c)) by congruence.
Qed.

Lemma of_string_spec str : Forall (in_u 8) str ->
  set_ok (of_string str) /\ forall x, in_u 8 x -> contains (of_string str) x = existsb (Z.eqb x) str.
Proof.
  intros F. assert (G : forall s, set_ok s ->
    set_ok (fold_left SetChar str s) /\ forall x, in_u 8 x ->
    contains (fold_left SetChar str s) x = existsb (Z.eqb x) str || contains s x).
  { induction F as [|c str R _ IH]; intros s S; cbn [fold_left existsb]; [auto|].
    destruct (IH (SetChar s c) (SetChar_ok s c S R)) as (O & C). split; [exact O|].
    intros x X. rewrite C, contains_SetChar by auto. now rewrite orb_assoc, (orb_comm (existsb _ _)). }
  assert (E : set_ok empty_set) by (split; [reflexivity|repeat constructor; lia]).
  destruct (G empty_set E) as (O & C). split; [exact O|]. intros x X. unfold of_string. rewrite C by exact X.
  rewrite contains_testbit by apply X. destruct (byte_split x X) as (X1 & X2 & _).
  replace (word empty_set (x / 64)) with 0; [now rewrite Z.bits_0, orb_false_r|].
  symmetry. apply (word_of_four 0 0 0 0 (fun _ => 0)); auto.
Qed.

(** ** Ranges *)
Lemma open_range_bit upper w i : 0 <= upper <= 256 -> 0 <= w < 4 -> 0 <= i < 64 ->
  Z.testbit (OpenRangeFromZeroForWord upper w) i = (64 * w + i <? upper) /\ in_u 64 (OpenRangeFromZeroForWord upper w).
Proof.
  intros U W I. unfold OpenRangeFromZeroForWord.
  rewrite !(wrapu_small 64 (_ + _)), !(wrapu_small 64 (_ * _)) by (change (2 ^ 64) with 18446744073709551616; lia).
  destruct (upper <=? 64 * w) eqn:E1; zbool.
  - rewrite Z.bits_0, (proj2 (Z.ltb_ge _ _)) by lia. split; [reflexivity|split; [lia|reflexivity]].
  - change (~[64] 0) with (Z.ones 64). destruct (upper >=? 64 * (w + 1)) eqn:E2; zbool.
    + rewrite Z.testbit_ones_nonneg, (proj2 (Z.ltb_lt (64 * w + i) upper)) by lia. split; [lia|]. split; [discriminate|reflexivity].
    + assert (M : upper mod 64 = upper - 64 * w) by zlia. rewrite M, Z.shiftr_div_pow2, Z.ones_div_pow2 by lia.
      rewrite Z.testbit_ones_nonneg by lia. split; [apply eq_true_iff_eq; rewrite !Z.ltb_lt; lia|].
      rewrite Z.ones_equiv. pose proof (Z.pow_le_mono_r 2 (64 - (64 - (upper - 64 * w))) 64 ltac:(lia) ltac:(lia)).
      pose proof (Z.pow_pos_nonneg 2 (64 - (64 - (upper - 64 * w))) ltac:(lia) ltac:(lia)). unfold in_u. lia.
Qed.

Lemma Range_spec lo hi : in_u 8 lo -> in_u 8 hi ->
  set_ok (Range lo hi) /\ forall x, in_u 8 x -> contains (Range lo hi) x = (lo <=? x) && (x <=? hi).
Proof.
  unfold in_u. change (2 ^ 8) with 256. intros L H.
  assert (B : forall w i, 0 <= w < 4 -> 0 <= i < 64 ->
    Z.testbit (RangeForWord lo hi w) i = (lo <=? 64 * w + i) && (64 * w + i <=? hi) /\ in_u 64 (RangeForWord lo hi w)).
  { intros w i W I. destruct (open_range_bit (hi + 1) w i ltac:(lia) W I) as (B1 & R1).
    destruct (open_range_bit lo w i ltac:(lia) W I) as (B2 & _). unfold RangeForWord.
    split; [|apply in_u_land_l; [lia|exact R1]].
    rewrite Z.land_spec, wrapu_testbit, Z.lnot_spec, B1, B2 by lia. rewrite (proj2 (Z.ltb_lt i 64)) by lia. cbn [andb].
    rewrite <- Z.leb_antisym, andb_comm. f_equal. apply eq_true_iff_eq. rewrite Z.ltb_lt, Z.leb_le. lia. }
  split; [apply (four_ok (RangeForWord lo hi)); intros i I; apply (B i 0); lia|].
  intros x X. rewrite contains_testbit by lia. destruct (byte_split x X) as (X1 & X2 & X3).
  unfold Range. rewrite (word_of_four _ _ _ _ (RangeForWord lo hi)) by auto.
  rewrite (proj1 (B _ _ X1 X2)), <- X3. reflexivity.
Qed.

Lemma Char_spec c : in_u 8 c -> set_ok (Char c) /\ forall x, in_u 8 x -> contains (Char c) x = (x =? c).
Proof.
  intros R. destruct (byte_split c R) as (C1 & C2 & C3). split.
  - apply (four_ok (CharMaskForWord c)). intros i _. unfold CharMaskForWord.
    destruct (_ =? i); [apply wrapu_range; lia|split; [lia|reflexivity]].
  - intros x X. rewrite contains_testbit by apply X. destruct (byte_split x X) as (X1 & X2 & X3).
    unfold Char. rewrite (word_of_four _ _ _ _ (CharMaskForWord c)) by auto. unfold CharMaskForWord.
    destruct (Z.eqb_spec (c / 64) (x / 64)) as [E|N].
    + rewrite bit_one by lia. apply eq_true_iff_eq. rewrite !Z.eqb_eq. lia.
    + rewrite Z.bits_0. symmetry. apply Z.eqb_neq. congruence.
Qed.

(** ** Operators *)
Lemma words2_word f a b i : 0 <= i < 4 -> word (words2 f a b) i = f (word a i) (word b i).
Proof. intros H. apply (word_of_four _ _ _ _ (fun i => f (word a i) (word b i))); auto. Qed.

Lemma operators_spec a b : set_ok a -> set_ok b ->
  (set_ok (union a b) /\ set_ok (inter a b) /\ set_ok (compl a)) /\
  forall x, in_u 8 x ->
    contains (union a b) x = contains a x || contains b x /\
    contains (inter a b) x = contains a x && contains b x /\
    contains (compl a) x = negb (contains a x).
Proof.
  intros A B. split.
  - split; [|split].
    + apply (four_ok (fun i => word a i .| word b i)). intros i _. apply in_u_lor; [lia|..]; now apply word_range.
    + apply (four_ok (fun i => word a i .& word b i)). intros i _. apply in_u_land_l; [lia|]. now apply word_range.
    + apply (four_ok (fun i => ~[64] (word a i))). intros i _. apply wrapu_range; lia.
  - intros x X. rewrite !contains_testbit by apply X. destruct (byte_split x X) as (X1 & X2 & X3).
    unfold union, inter. rewrite !words2_word, Z.lor_spec, Z.land_spec by exact X1. split; [reflexivity|]. split; [reflexivity|].
    unfold compl. rewrite (word_of_four _ _ _ _ (fun i => ~[64] (word a i))) by auto.
    rewrite wrapu_testbit, Z.lnot_spec, (proj2 (Z.ltb_lt _ 64)) by lia. reflexivity.
Qed.

Lemma empty_spec s : set_ok s -> (empty s = true <-> forall x, in_u 8 x -> contains s x = false).
Proof.
  intros S. pose proof S as (L & F). unfold empty. rewrite forallb_forall. split; intros H.
  - intros x X. rewrite contains_testbit by apply X. destruct (byte_split x X) as (X1 & _).
    assert (E : word s (x / 64) = 0) by (apply Z.eqb_eq, H, nth_In; rewrite L; lia). now rewrite E, Z.bits_0.
  - intros w I. apply Z.eqb_eq. apply (In_nth _ _ 0) in I as (n & Ln & <-). rewrite L in Ln.
    apply Z.bits_inj'. intros i Hi. rewrite Z.bits_0. destruct (Z.lt_ge_cases i 64) as [C|C].
    + assert (X : in_u 8 (64 * Z.of_nat n + i)) by (unfold in_u; change (2 ^ 8) with 256; lia).
      specialize (H _ X). rewrite contains_testbit in H by apply X.
      replace ((64 * Z.of_nat n + i) / 64) with (Z.of_nat n) in H by zlia.
      replace ((64 * Z.of_nat n + i) mod 64) with i in H by zlia. unfold word in H. now rewrite Nat2Z.id in H.
    + apply (testbit_above 64); [|lia]. rewrite Forall_forall in F. apply F, nth_In. now rewrite L.
Qed.

(** ** The theorem *)

(** Character sets.  A set built from a string, from a single character, from a range of any two
    bytes (a range that ends before it begins is empty) or by union, intersection and complement is
    four 64-bit words whose members are exactly those of the operation, and [empty] holds exactly
    when there is no member. *)
Lemma charset_correct str lo hi a b x :
  Forall (in_u 8) str -> in_u 8 lo -> in_u 8 hi -> set_ok a -> set_ok b -> in_u 8 x ->
  (set_ok (of_string str) /\ set_ok (Range lo hi) /\ set_ok (Char lo) /\
   set_ok (union a b) /\ set_ok (inter a b) /\ set_ok (compl a)) /\
  contains (of_string str) x = existsb (Z.eqb x) str /\
  contains (Range lo hi) x = (lo <=? x) && (x <=? hi) /\ contains (Char lo) x = (x =? lo) /\
  contains (union a b) x = contains a x || contains b x /\ contains (inter a b) x = contains a x && contains b x /\
  contains (compl a) x = negb (contains a x) /\
  (empty a = true <-> forall y, in_u 8 y -> contains a y = false).
Proof.
  intros F L H A B X. destruct (of_string_spec str F) as (S1 & C1), (Range_spec lo hi L H) as (S2 & C2).
  destruct (Char_spec lo L) as (S3 & C3), (operators_spec a b A B) as ((S4 & S5 & S6) & C4).
  destruct (C4 x X) as (E1 & E2 & E3). split; [exact (conj S1 (conj S2 (conj S3 (conj S4 (conj S5 S6)))))|].
  rewrite C1, C2, C3, E1, E2, E3 by exact X. repeat (split; [reflexivity|]). apply (empty_spec a A).
Qed.

Lemma charset_correct_witness :
  contains (union AsciiDigits AsciiAlphabet) (chr "q") = contains AsciiDigits (chr "q") || contains AsciiAlphabet (chr "q").
Proof.
  assert (O : forall s, m_ s = m_ AsciiDigits \/ m_ s = m_ AsciiAlphabet -> set_ok s).
  { intros [m] E. split; cbn in *; destruct E as [-> | ->]; [reflexivity..| |]; repeat constructor; vm_compute; congruence. }
  apply (charset_correct [] 0 0 AsciiDigits AsciiAlphabet (chr "q")); auto; vm_compute; repeat split; congruence.
Defined.
