(* ===== verification/HexUrl.v ===== *)
(** Hexadecimal and URL text of [strings/escaping.cc]. *)
From Stdlib Require Import Ascii String.
From Stdlib Require Import ZArith Lia List Bool.
From S2P Require Import Prelude AsciiChars CharSet Escaping.
Import ListNotations.
#[local] Open Scope Z_scope.
#[local] Open Scope mach_scope.

(** ** Hexadecimal *)
Definition kHexTable : list Z :=
  (str "000102030405060708090a0b0c0d0e0f"
   ++ str "101112131415161718191a1b1c1d1e1f"
   ++ str "202122232425262728292a2b2c2d2e2f"
   ++ str "303132333435363738393a3b3c3d3e3f"
   ++ str "404142434445464748494a4b4c4d4e4f"
   ++ str "505152535455565758595a5b5c5d5e5f"
   ++ str "606162636465666768696a6b6c6d6e6f"
   ++ str "707172737475767778797a7b7c7d7e7f"
   ++ str "808182838485868788898a8b8c8d8e8f"
   ++ str "909192939495969798999a9b9c9d9e9f"
   ++ str "a0a1a2a3a4a5a6a7a8a9aaabacadaeaf"
   ++ str "b0b1b2b3b4b5b6b7b8b9babbbcbdbebf"
   ++ str "c0c1c2c3c4c5c6c7c8c9cacbcccdcecf"
   ++ str "d0d1d2d3d4d5d6d7d8d9dadbdcdddedf"
   ++ str "e0e1e2e3e4e5e6e7e8e9eaebecedeeef"
   ++ str "f0f1f2f3f4f5f6f7f8f9fafbfcfdfeff")%list.

Definition kHexValueLenient : list Z :=
  [ 0; 0; 0; 0; 0; 0; 0; 0; 0; 0; 0; 0; 0; 0; 0; 0;
    0; 0; 0; 0; 0; 0; 0; 0; 0; 0; 0; 0; 0; 0; 0; 0;
    0; 0; 0; 0; 0; 0; 0; 0; 0; 0; 0; 0; 0; 0; 0; 0;
    0; 1; 2; 3; 4; 5; 6; 7; 8; 9; 0; 0; 0; 0; 0; 0;
    0; 10; 11; 12; 13; 14; 15; 0; 0; 0; 0; 0; 0; 0; 0; 0;
    0; 0; 0; 0; 0; 0; 0; 0; 0; 0; 0; 0; 0; 0; 0; 0;
    0; 10; 11; 12; 13; 14; 15; 0; 0; 0; 0; 0; 0; 0; 0; 0;
    0; 0; 0; 0; 0; 0; 0; 0; 0; 0; 0; 0; 0; 0; 0; 0;
    0; 0; 0; 0; 0; 0; 0; 0; 0; 0; 0; 0; 0; 0; 0; 0;
    0; 0; 0; 0; 0; 0; 0; 0; 0; 0; 0; 0; 0; 0; 0; 0;
    0; 0; 0; 0; 0; 0; 0; 0; 0; 0; 0; 0; 0; 0; 0; 0;
    0; 0; 0; 0; 0; 0; 0; 0; 0; 0; 0; 0; 0; 0; 0; 0;
    0; 0; 0; 0; 0; 0; 0; 0; 0; 0; 0; 0; 0; 0; 0; 0;
    0; 0; 0; 0; 0; 0; 0; 0; 0; 0; 0; 0; 0; 0; 0; 0;
    0; 0; 0; 0; 0; 0; 0; 0; 0; 0; 0; 0; 0; 0; 0; 0;
    0; 0; 0; 0; 0; 0; 0; 0; 0; 0; 0; 0; 0; 0; 0; 0 ].

Definition kHexValueStrict : list Z :=
  [ (-1); (-1); (-1); (-1); (-1); (-1); (-1); (-1); (-1); (-1); (-1); (-1); (-1); (-1); (-1); (-1);
    (-1); (-1); (-1); (-1); (-1); (-1); (-1); (-1); (-1); (-1); (-1); (-1); (-1); (-1); (-1); (-1);
    (-1); (-1); (-1); (-1); (-1); (-1); (-1); (-1); (-1); (-1); (-1); (-1); (-1); (-1); (-1); (-1);
    0; 1; 2; 3; 4; 5; 6; 7; 8; 9; (-1); (-1); (-1); (-1); (-1); (-1);
    (-1); 10; 11; 12; 13; 14; 15; (-1); (-1); (-1); (-1); (-1); (-1); (-1); (-1); (-1);
    (-1); (-1); (-1); (-1); (-1); (-1); (-1); (-1); (-1); (-1); (-1); (-1); (-1); (-1); (-1); (-1);
    (-1); 10; 11; 12; 13; 14; 15; (-1); (-1); (-1); (-1); (-1); (-1); (-1); (-1); (-1);
    (-1); (-1); (-1); (-1); (-1); (-1); (-1); (-1); (-1); (-1); (-1); (-1); (-1); (-1); (-1); (-1);
    (-1); (-1); (-1); (-1); (-1); (-1); (-1); (-1); (-1); (-1); (-1); (-1); (-1); (-1); (-1); (-1);
    (-1); (-1); (-1); (-1); (-1); (-1); (-1); (-1); (-1); (-1); (-1); (-1); (-1); (-1); (-1); (-1);
    (-1); (-1); (-1); (-1); (-1); (-1); (-1); (-1); (-1); (-1); (-1); (-1); (-1); (-1); (-1); (-1);
    (-1); (-1); (-1); (-1); (-1); (-1); (-1); (-1); (-1); (-1); (-1); (-1); (-1); (-1); (-1); (-1);
    (-1); (-1); (-1); (-1); (-1); (-1); (-1); (-1); (-1); (-1); (-1); (-1); (-1); (-1); (-1); (-1);
    (-1); (-1); (-1); (-1); (-1); (-1); (-1); (-1); (-1); (-1); (-1); (-1); (-1); (-1); (-1); (-1);
    (-1); (-1); (-1); (-1); (-1); (-1); (-1); (-1); (-1); (-1); (-1); (-1); (-1); (-1); (-1); (-1);
    (-1); (-1); (-1); (-1); (-1); (-1); (-1); (-1); (-1); (-1); (-1); (-1); (-1); (-1); (-1); (-1) ].

(** [num] pairs of characters of [from]. *)
Fixpoint HexStringToBytesInternal (from : list Z) (num : nat) : list Z :=
  match num, from with
  | S num', a :: b :: from' =>
      wrapu 8 (wrapu 8 (Z.shiftl (entry kHexValueLenient (a .& 0xFF)) 4) + entry kHexValueLenient (b .& 0xFF))
      :: HexStringToBytesInternal from' num'
  | _, _ => []
  end.

Fixpoint BytesToHexStringInternal (src : list Z) : list Z :=
  match src with
  | [] => []
  | c :: src' => entry kHexTable (c * 2) :: entry kHexTable (c * 2 + 1) :: BytesToHexStringInternal src'
  end.

(** The strict loop over the buffer; [None] is the return of size 0. *)
Fixpoint strict_loop (hex : list Z) (buf_size : nat) : option (list Z) :=
  match buf_size, hex with
  | O, _ => Some []
  | S n, a :: b :: hex' =>
      let h1 := entry kHexValueStrict a in
      let h2 := entry kHexValueStrict b in
      if (h1 =? -1) || (h2 =? -1) then None
      else do out <- strict_loop hex' n; Some (wrapu 8 (Z.shiftl h1 4 + h2) :: out)
  | _, _ => None
  end.

(** The result and [*bytes] afterwards. *)
Definition HexStringToBytes (hex bytes : list Z) : bool * list Z :=
  let num_bytes := (length hex / 2)%nat in
  if negb (length hex =? num_bytes * 2)%nat then (false, bytes)
  else
    let output := match strict_loop hex num_bytes with Some out => out | None => [] end in
    if negb (length output =? num_bytes)%nat then (false, bytes) else (true, output).

(** The deprecated overload, which reads any other character as 0. *)
Definition HexStringToBytesLenient (from : list Z) : list Z :=
  HexStringToBytesInternal from (length from / 2).

(** The check aborts on overflow. *)
Definition BytesToHexString (from : list Z) : option (list Z) :=
  if Z.of_nat (length from) <=? size_max / 2 then Some (BytesToHexStringInternal from) else None.

(** ** URLs *)
Definition kRfc3986Unreserved : CharSet := union AsciiAlphanumerics (of_string (str "-._~")).

(** The first loop: the portion that needs no escaping, and the rest. *)
Fixpoint unreserved_prefix (input : list Z) : list Z * list Z :=
  match input with
  | c :: rest =>
      if contains kRfc3986Unreserved c
      then let '(p, r) := unreserved_prefix rest in (c :: p, r) else ([], input)
  | [] => ([], [])
  end.

Fixpoint url_escape_loop (escape_space_to_plus : bool) (input : list Z) : list Z :=
  match input with
  | [] => []
  | c :: rest =>
      (if contains kRfc3986Unreserved c then [c]
       else if escape_space_to_plus && (c =? chr " ") then [chr "+"]
       else [chr "%"; int_to_hex_digit ((c >> 4) .& 0xf); int_to_hex_digit (c .& 0xf)])
      ++ url_escape_loop escape_space_to_plus rest
  end.

Definition UrlEscapeInternal (input : list Z) (escape_space_to_plus : bool) : option (list Z) :=
  let '(initial, rest) := unreserved_prefix input in
  let initial_portion := Z.of_nat (length initial) in
  if initial_portion =? Z.of_nat (length input) then Some input
  else if negb (Z.of_nat (length input) - initial_portion <=? (size_max - initial_portion) / 3) then None
  else Some (initial ++ url_escape_loop escape_space_to_plus rest).

(** The portion before the first character to unescape, and the rest. *)
Fixpoint plain_portion (unescape_plus_to_space : bool) (input : list Z) : list Z * list Z :=
  match input with
  | c :: rest =>
      if (c =? chr "%") || (unescape_plus_to_space && (c =? chr "+")) then ([], input)
      else let '(p, r) := plain_portion unescape_plus_to_space rest in (c :: p, r)
  | [] => ([], [])
  end.

(** [None] is the error, the return of size 0. *)
Fixpoint url_unescape_loop (fuel : nat) (unescape_plus_to_space : bool) (input : list Z) : option (list Z) :=
  match input with
  | [] => Some []
  | c :: rest =>
      match fuel with
      | O => None
      | S fuel' =>
          if unescape_plus_to_space && (c =? chr "+") then
            do out <- url_unescape_loop fuel' unescape_plus_to_space rest; Some (chr " " :: out)
          else if c =? chr "%" then
            match rest with
            | a :: b :: rest' =>
                if negb (ascii_isxdigit a) || negb (ascii_isxdigit b) then None
                else
                  let x := Z.shiftl (hex_digit_to_int a) 4 + hex_digit_to_int b in
                  do out <- url_unescape_loop fuel' unescape_plus_to_space rest'; Some (wrapu 8 x :: out)
            | _ => None
            end
          else do out <- url_unescape_loop fuel' unescape_plus_to_space rest; Some (c :: out)
      end
  end.

Definition UrlUnescapeInternal (input : list Z) (unescape_plus_to_space : bool) : option (list Z) :=
  let '(initial, rest) := plain_portion unescape_plus_to_space input in
  match rest with
  | [] => Some input
  | _ =>
      let output := match url_unescape_loop (length rest) unescape_plus_to_space rest with
                    | Some out => initial ++ out
                    | None => []
                    end in
      match output with [] => None | _ => Some output end
  end.

Definition UrlEscape (input : list Z) : option (list Z) := UrlEscapeInternal input false.
Definition UrlUnescape (input : list Z) : option (list Z) := UrlUnescapeInternal input false.
Definition UrlEscapePlus (input : list Z) : option (list Z) := UrlEscapeInternal input true.
Definition UrlUnescapePlus (input : list Z) : option (list Z) := UrlUnescapeInternal input true.

(** ** The hexadecimal tables *)
Lemma hex_pair c : in_u 8 c ->
  let a := entry kHexTable (c * 2) in
  let b := entry kHexTable (c * 2 + 1) in
  in_u 8 a /\ in_u 8 b /\ entry kHexValueStrict a = c / 16 /\ entry kHexValueStrict b = c mod 16 /\
  entry kHexValueLenient a = c / 16 /\ entry kHexValueLenient b = c mod 16.
Proof.
  intros R a b.
  assert (C : (0 <=? a) && (a <? 256) && (0 <=? b) && (b <? 256) && (entry kHexValueStrict a =? c / 16)
    && (entry kHexValueStrict b =? c mod 16) && (entry kHexValueLenient a =? c / 16)
    && (entry kHexValueLenient b =? c mod 16) = true).
  { unfold a, b. clear a b. revert c R. apply byte_check. vm_compute. reflexivity. }
  rewrite !andb_true_iff, !Z.leb_le, !Z.ltb_lt, !Z.eqb_eq in C. unfold in_u. change (2 ^ 8) with 256. tauto.
Qed.

Lemma strict_entry c : in_u 8 c -> (entry kHexValueStrict c =? -1) = negb (ascii_isxdigit c).
Proof.
  intros R. apply eqb_prop. revert c R. apply byte_check. vm_compute. reflexivity.
Qed.

Lemma nibbles c : in_u 8 c -> wrapu 8 (Z.shiftl (c / 16) 4 + c mod 16) = c.
Proof.
  unfold in_u. change (2 ^ 8) with 256. intros H. rewrite Z.shiftl_mul_pow2 by lia. unfold wrapu.
  change (2 ^ 4) with 16. change (2 ^ 8) with 256. zlia.
Qed.

Lemma low_byte c : in_u 8 c -> c .& 0xFF = c.
Proof. intros R. change 0xFF with (Z.ones 8). rewrite Z.land_ones by lia. apply Z.mod_small. exact R. Qed.

Lemma hex_length s : length (BytesToHexStringInternal s) = (2 * length s)%nat.
Proof. induction s; cbn; lia. Qed.

Lemma hex_decode s : Forall (in_u 8) s ->
  strict_loop (BytesToHexStringInternal s) (length s) = Some s /\
  HexStringToBytesInternal (BytesToHexStringInternal s) (length s) = s.
Proof.
  induction 1 as [|c s R _ (IH1 & IH2)]; [split; reflexivity|].
  destruct (hex_pair c R) as (Ra & Rb & A & B & A' & B'). cbn [BytesToHexStringInternal length strict_loop HexStringToBytesInternal].
  unfold in_u in R. change (2 ^ 8) with 256 in R.
  rewrite A, B, IH1, !low_byte, A', B', IH2 by assumption. cbn [obind].
  rewrite (proj2 (Z.eqb_neq (c / 16) (-1))), (proj2 (Z.eqb_neq (c mod 16) (-1))) by zlia. cbn [orb].
  rewrite nibbles by exact R. split; [reflexivity|]. f_equal.
  rewrite (wrapu_small 8 (Z.shiftl _ _)) by (rewrite Z.shiftl_mul_pow2 by lia; change (2 ^ 8) with 256; change (2 ^ 4) with 16; zlia).
  now apply nibbles.
Qed.

(** The strict loop succeeds exactly on hexadecimal digits. *)
Lemma strict_loop_spec n : forall hex, Forall (in_u 8) hex -> length hex = (2 * n)%nat ->
  match strict_loop hex n with
  | Some out => forallb ascii_isxdigit hex = true /\ length out = n
  | None => forallb ascii_isxdigit hex = false
  end.
Proof.
  induction n as [|n IH]; intros hex F L; [destruct hex; [split; reflexivity|discriminate]|].
  destruct hex as [|a [|b hex]]; try (cbn in L; lia). inversion F as [|? ? A F1]; subst. inversion F1 as [|? ? B F2]; subst.
  cbn [strict_loop forallb]. rewrite !strict_entry by assumption.
  destruct (ascii_isxdigit a), (ascii_isxdigit b); cbn [negb orb andb]; try reflexivity.
  specialize (IH hex F2 ltac:(cbn in L; lia)). destruct (strict_loop hex n) as [out|]; cbn [obind]; [|exact IH].
  destruct IH as (X & Y). split; [exact X|cbn; lia].
Qed.

Lemma HexStringToBytes_accepts hex bytes : Forall (in_u 8) hex ->
  fst (HexStringToBytes hex bytes) = Nat.even (length hex) && forallb ascii_isxdigit hex.
Proof.
  intros F. unfold HexStringToBytes. set (n := (length hex / 2)%nat).
  assert (D : length hex = (2 * n + length hex mod 2)%nat) by apply Nat.div_mod_eq.
  pose proof (Nat.mod_upper_bound (length hex) 2 ltac:(lia)) as U.
  destruct (length hex =? n * 2)%nat eqn:E; cbn [negb].
  - apply Nat.eqb_eq in E. replace (Nat.even (length hex)) with true.
    2: { symmetry. apply Nat.even_spec. exists n. lia. }
    pose proof (strict_loop_spec n hex F ltac:(lia)) as S. destruct (strict_loop hex n) as [out|].
    + destruct S as (-> & ->). now rewrite Nat.eqb_refl.
    + rewrite S. destruct n as [|n']; [|reflexivity]. destruct hex; [discriminate|cbn in E; lia].
  - apply Nat.eqb_neq in E. replace (Nat.even (length hex)) with false; [reflexivity|].
    symmetry. rewrite <- Nat.negb_odd. apply negb_false_iff, Nat.odd_spec. exists n. lia.
Qed.

(** ** URL text *)
Lemma url_digits c : in_u 8 c ->
  let a := int_to_hex_digit ((c >> 4) .& 0xf) in
  let b := int_to_hex_digit (c .& 0xf) in
  ascii_isxdigit a = true /\ ascii_isxdigit b = true /\ in_u 8 a /\ in_u 8 b /\
  wrapu 8 (Z.shiftl (hex_digit_to_int a) 4 + hex_digit_to_int b) = c.
Proof.
  intros R a b.
  assert (C : ascii_isxdigit a && ascii_isxdigit b && ((0 <=? a) && (a <? 256)) && ((0 <=? b) && (b <? 256))
    && (wrapu 8 (Z.shiftl (hex_digit_to_int a) 4 + hex_digit_to_int b) =? c) = true).
  { unfold a, b. clear a b. revert c R. apply byte_check. vm_compute. reflexivity. }
  rewrite !andb_true_iff, !Z.leb_le, !Z.ltb_lt, Z.eqb_eq in C. unfold in_u. change (2 ^ 8) with 256. tauto.
Qed.

Lemma unreserved_plain c : contains kRfc3986Unreserved c = true -> (c =? chr "%") = false /\ (c =? chr "+") = false.
Proof.
  intros H. split; apply Z.eqb_neq; intros ->; vm_compute in H; discriminate.
Qed.

Lemma unreserved_prefix_spec plus s :
  let '(p, r) := unreserved_prefix s in
  s = p ++ r /\ url_escape_loop plus s = p ++ url_escape_loop plus r /\
  (length p = length s -> url_escape_loop plus s = s).
Proof.
  induction s as [|c s IH]; cbn [unreserved_prefix]; [auto|].
  destruct (contains kRfc3986Unreserved c) eqn:E; [|cbn [length app]; repeat split; auto; discriminate].
  destruct (unreserved_prefix s) as [p r]. destruct IH as (A & B & C). cbn [url_escape_loop app length]. rewrite E. cbn [app].
  repeat split; [now rewrite A at 1|now rewrite B|]. intros L. rewrite C by lia. reflexivity.
Qed.

Lemma UrlEscapeInternal_spec s plus : 3 * Z.of_nat (length s) <= size_max ->
  UrlEscapeInternal s plus = Some (url_escape_loop plus s).
Proof.
  intros B. unfold UrlEscapeInternal. pose proof (unreserved_prefix_spec plus s) as H.
  destruct (unreserved_prefix s) as [p r]. destruct H as (A & E & C). rewrite E.
  destruct (_ =? _) eqn:L; zbool; [rewrite <- E, C by lia; reflexivity|].
  assert (Lp : (length p <= length s)%nat) by (rewrite A, length_app; lia).
  unfold size_max in *. change (2 ^ 64) with 18446744073709551616 in *.
  rewrite (proj2 (Z.leb_le _ _)) by zlia. reflexivity.
Qed.

Lemma url_loop_reads plus s : forall fuel, Forall (in_u 8) s -> (length s <= fuel)%nat ->
  url_unescape_loop fuel plus (url_escape_loop plus s) = Some s.
Proof.
  induction s as [|c s IH]; intros fuel F L; [now destruct fuel|]. inversion F as [|? ? R F']; subst.
  destruct fuel as [|fuel]; [cbn in L; lia|]. cbn [length] in L. cbn [url_escape_loop].
  destruct (contains kRfc3986Unreserved c) eqn:E.
  - destruct (unreserved_plain c E) as (P & Q). cbn [app url_unescape_loop]. rewrite P, Q, andb_false_r, IH by (auto; lia). reflexivity.
  - destruct (plus && (c =? chr " ")) eqn:S.
    + apply andb_true_iff in S as (-> & S). apply Z.eqb_eq in S. subst c. cbn [app url_unescape_loop].
      change (true && (chr "+" =? chr "+")) with true. cbv iota. rewrite IH by (auto; lia). reflexivity.
    + destruct (url_digits c R) as (A & B & _ & _ & V). cbn [app url_unescape_loop].
      replace (plus && (chr "%" =? chr "+")) with false by (now destruct plus).
      change (chr "%" =? chr "%") with true. cbv iota. rewrite A, B, IH by (auto; lia). cbn [negb orb obind]. now rewrite V.
Qed.

Lemma url_fuel plus s fuel' : forall fuel, (length s <= fuel)%nat -> (length s <= fuel')%nat ->
  url_unescape_loop fuel plus s = url_unescape_loop fuel' plus s.
Proof.
  revert s. induction fuel' as [|fuel' IH]; intros s [|fuel] L L'; (destruct s as [|c s]; [reflexivity|]); cbn [length] in *; try lia.
  cbn [url_unescape_loop]. rewrite (IH s fuel) by lia.
  destruct (_ && _); [reflexivity|]. destruct (_ =? _); [|reflexivity].
  destruct s as [|a [|b s]]; try reflexivity. cbn [length] in *. now rewrite (IH s fuel) by lia.
Qed.

Lemma url_loop_nonempty plus fuel c s : url_unescape_loop fuel plus (c :: s) <> Some [].
Proof.
  destruct fuel as [|fuel]; [discriminate|]. cbn [url_unescape_loop].
  assert (N : forall x r, (do out <- url_unescape_loop fuel plus r; Some (x :: out)) <> Some [])
    by (intros x r; destruct (url_unescape_loop fuel plus r); discriminate).
  destruct (_ && _); [apply N|]. destruct (_ =? _); [|apply N].
  destruct s as [|a [|b s]]; try discriminate. destruct (_ || _); [discriminate|apply N].
Qed.

Lemma plain_portion_spec plus s :
  let '(p, r) := plain_portion plus s in
  s = p ++ r /\ forall fuel, (length s <= fuel)%nat ->
  url_unescape_loop fuel plus s = (do out <- url_unescape_loop fuel plus r; Some (p ++ out)).
Proof.
  induction s as [|c s IH]; cbn [plain_portion]; [split; [reflexivity|now intros []]|].
  destruct ((c =? chr "%") || (plus && (c =? chr "+"))) eqn:E.
  - split; [reflexivity|]. intros fuel _. now destruct (url_unescape_loop fuel plus (c :: s)).
  - apply orb_false_iff in E as (E1 & E2). destruct (plain_portion plus s) as [p r]. destruct IH as (A & B).
    split; [cbn; now rewrite A at 1|]. intros [|fuel] L; cbn [length] in L; [lia|].
    assert (Lr : (length r <= fuel)%nat) by (rewrite A, length_app in L; lia).
    rewrite (url_fuel plus r fuel (S fuel)) by lia. cbn [url_unescape_loop]. rewrite E1, E2, B by lia.
    destruct (url_unescape_loop fuel plus r); reflexivity.
Qed.

Lemma UrlUnescapeInternal_spec s plus : UrlUnescapeInternal s plus = url_unescape_loop (length s) plus s.
Proof.
  unfold UrlUnescapeInternal. pose proof (plain_portion_spec plus s) as H. destruct (plain_portion plus s) as [p r].
  destruct H as (A & B). rewrite B by lia. destruct r as [|c r].
  - rewrite app_nil_r in A. subst p. destruct (length s); cbn; now rewrite app_nil_r.
  - assert (Lr : (length (c :: r) <= length s)%nat) by (rewrite A, length_app; lia).
    rewrite (url_fuel plus (c :: r) (length s) (length (c :: r))) by lia.
    pose proof (url_loop_nonempty plus (length s) c r) as N.
    destruct (url_unescape_loop (length s) plus (c :: r)) as [[|x out]|]; cbn [obind]; [easy| |reflexivity].
    destruct (p ++ x :: out) eqn:E; [|reflexivity]. destruct p; discriminate.
Qed.

Lemma url_escape_length plus s : (length (url_escape_loop plus s) <= 3 * length s)%nat /\ (length s <= length (url_escape_loop plus s))%nat.
Proof.
  induction s as [|c s IH]; cbn [url_escape_loop]; [cbn; lia|]. rewrite length_app.
  destruct (contains _ c); [|destruct (_ && _)]; cbn [length]; lia.
Qed.

(** ** The theorems *)

(** Hexadecimal and URL text round-trip.  The strict and the lenient decoder both read back what
    [BytesToHexString] wrote, and the strict one accepts exactly the texts of an even number of
    hexadecimal digits, and leaves its result alone otherwise; for both treatments of spaces,
    unescaping an escaped URL component gives the bytes back, and the escaped text is at most three
    times as long (the size of its buffer). *)
Lemma hex_url_roundtrip s hex bytes :
  Forall (in_u 8) s -> 3 * Z.of_nat (length s) <= size_max -> Forall (in_u 8) hex ->
  (exists text, BytesToHexString s = Some text /\ HexStringToBytes text bytes = (true, s) /\ HexStringToBytesLenient text = s) /\
  fst (HexStringToBytes hex bytes) = Nat.even (length hex) && forallb ascii_isxdigit hex /\
  (fst (HexStringToBytes hex bytes) = false -> snd (HexStringToBytes hex bytes) = bytes) /\
  (forall plus, exists text, UrlEscapeInternal s plus = Some text /\ UrlUnescapeInternal text plus = Some s /\
     (length text <= 3 * length s)%nat).
Proof.
  intros F B Fh. destruct (hex_decode s F) as (D1 & D2). split; [|split; [|split]].
  - exists (BytesToHexStringInternal s). unfold BytesToHexString, HexStringToBytes, HexStringToBytesLenient.
    rewrite hex_length, (Nat.mul_comm 2), Nat.div_mul, Nat.eqb_refl, D1, D2 by lia. cbn [negb]. rewrite Nat.eqb_refl.
    rewrite (proj2 (Z.leb_le _ _)); [auto|]. unfold size_max in *. change (2 ^ 64) with 18446744073709551616 in *. zlia.
  - now apply HexStringToBytes_accepts.
  - unfold HexStringToBytes. destruct (negb _); [reflexivity|]. destruct (negb _); [reflexivity|discriminate].
  - intros plus. exists (url_escape_loop plus s). rewrite UrlEscapeInternal_spec, UrlUnescapeInternal_spec by exact B.
    destruct (url_escape_length plus s) as (U & L). split; [reflexivity|]. split; [now apply url_loop_reads|exact U].
Qed.

Lemma hex_url_roundtrip_witness :
  exists text, UrlEscapeInternal (str "a b/c+d") true = Some text /\ UrlUnescapeInternal text true = Some (str "a b/c+d") /\
  (length text <= 3 * length (str "a b/c+d"))%nat.
Proof.
  apply (hex_url_roundtrip (str "a b/c+d") [] []); [|vm_compute; discriminate|constructor].
  repeat constructor; vm_compute; congruence.
Defined.
