(* ===== verification/FastInt.v ===== *)
(** Printing integers, [FastIntToBuffer] of [strings/numbers.cc]: groups of two, four and eight digits
    are computed in parallel inside one machine word, leading zeros are shifted out of it, and the
    word is stored whole, past the end of the digits that count. *)
From Stdlib Require Import Ascii String.
From Stdlib Require Import ZArith Lia List Bool.
From S2P Require Import Prelude Bits Endian Digits Int128.
Import ListNotations.
#[local] Open Scope Z_scope.
#[local] Open Scope mach_scope.

Definition kTwoZeroBytes : Z := 0x0101 * chr "0".
Definition kFourZeroBytes : Z := 0x01010101 * chr "0".
Definition kEightZeroBytes : Z := 0x0101010101010101 * chr "0".

Definition kDivisionBy10Mul : Z := 103.
Definition kDivisionBy10Div : Z := Z.shiftl 1 10.
Definition kDivisionBy100Mul : Z := 10486.
Definition kDivisionBy100Div : Z := Z.shiftl 1 20.

Definition kFastToBufferSize : Z := 32.
Definition kFastToBuffer128Size : Z := 41.

(** A little-endian store of [n] bytes at a position of the buffer. *)
Definition put (host : endian) (buf : list Z) (pos : Z) (n : nat) (v : Z) : option (list Z) :=
  store buf pos (UNALIGNED_STORE host n (little_endian.FromHost host n v)).

(** The buffer and the position after the text. *)
Definition written : Type := option (list Z * Z).

Definition EncodeHundred (host : endian) (n : Z) (buf : list Z) (out_str : Z) : written :=
  let num_digits := wraps 32 (n -[32] 10) >> 8 in
  let div10 := wrapu 32 ((n *[64] kDivisionBy10Mul) / kDivisionBy10Div) in
  let mod10 := n -[32] (10 *[32] div10) in
  let base := kTwoZeroBytes +[32] div10 +[32] (mod10 <<[32] 8) in
  let base := base >> (num_digits .& 8) in
  do buf <- put host buf out_str 2 (wrapu 16 base);
  Some (buf, out_str + 2 + num_digits).

Definition EncodeTenThousand (host : endian) (n : Z) (buf : list Z) (out_str : Z) : written :=
  let div100 := wrapu 32 ((n *[64] kDivisionBy100Mul) / kDivisionBy100Div) in
  let mod100 := wrapu 32 (n -[64] (100 *[64] div100)) in
  let hundreds := (mod100 <<[32] 16) +[32] div100 in
  let tens := wrapu 32 ((hundreds *[64] kDivisionBy10Mul) / kDivisionBy10Div) in
  let tens := tens .& (Z.shiftl 0xF 16 .| 0xF) in
  let tens := wrapu 32 (tens +[64] ((hundreds -[64] (10 *[64] tens)) <<[64] 8)) in
  let zeroes := countr_zero 32 tens .& (0 -[32] 8) in
  let tens := wrapu 32 (tens +[64] kFourZeroBytes) in
  let tens := tens >> zeroes in
  do buf <- put host buf out_str 4 tens;
  Some (buf, out_str + 4 - zeroes / 8).

Definition PrepareEightDigits (i : Z) : Z :=
  let hi := i / 10000 in
  let lo := i mod 10000 in
  let merged := hi .| (lo <<[64] 32) in
  let div100 := ((merged *[64] kDivisionBy100Mul) / kDivisionBy100Div) .& (Z.shiftl 0x7F 32 .| 0x7F) in
  let mod100 := merged -[64] (100 *[64] div100) in
  let hundreds := (mod100 <<[64] 16) +[64] div100 in
  let tens := (hundreds *[64] kDivisionBy10Mul) / kDivisionBy10Div in
  let tens := tens .& (Z.shiftl 0xF 48 .| Z.shiftl 0xF 32 .| Z.shiftl 0xF 16 .| 0xF) in
  tens +[64] ((hundreds -[64] (10 *[64] tens)) <<[64] 8).

Definition EncodePadded16 (host : endian) (v : Z) (buf : list Z) (buffer : Z) : written :=
  let k1e8 := 100000000 in
  let hi := wrapu 32 (v / k1e8) in
  let lo := wrapu 32 (v mod k1e8) in
  do buf <- put host buf buffer 8 (PrepareEightDigits hi +[64] kEightZeroBytes);
  do buf <- put host buf (buffer + 8) 8 (PrepareEightDigits lo +[64] kEightZeroBytes);
  Some (buf, buffer + 16).

Definition EncodeFullU32 (host : endian) (n : Z) (buf : list Z) (out_str : Z) : written :=
  if n <? 10 then
    do buf <- write buf out_str (chr "0" + n);
    Some (buf, out_str + 1)
  else if n <? 100000000 then
    let bottom := PrepareEightDigits n in
    let zeroes := countr_zero 64 bottom .& (0 -[32] 8) in
    do buf <- put host buf out_str 8 ((bottom +[64] kEightZeroBytes) >> zeroes);
    Some (buf, out_str + 8 - zeroes / 8)
  else
    let div08 := n / 100000000 in
    let mod08 := n mod 100000000 in
    let bottom := PrepareEightDigits mod08 +[64] kEightZeroBytes in
    do (buf, out_str) <- EncodeHundred host div08 buf out_str;
    do buf <- put host buf out_str 8 bottom;
    Some (buf, out_str + 8).

Definition EncodeFullU64 (host : endian) (i : Z) (buf : list Z) (buffer : Z) : written :=
  if i <=? 0xffffffff then EncodeFullU32 host i buf buffer
  else
    do (buf, buffer, mod08) <-
      (if i <? 10000000000000000 then
         let div08 := wrapu 32 (i / 100000000) in
         let mod08 := wrapu 32 (i mod 100000000) in
         do (buf, buffer) <- EncodeFullU32 host div08 buf buffer;
         Some (buf, buffer, mod08)
       else
         let div08 := i / 100000000 in
         let mod08 := wrapu 32 (i mod 100000000) in
         let div016 := wrapu 32 (div08 / 100000000) in
         let div08mod08 := wrapu 32 (div08 mod 100000000) in
         let mid_result := PrepareEightDigits div08mod08 +[64] kEightZeroBytes in
         do (buf, buffer) <- EncodeTenThousand host div016 buf buffer;
         do buf <- put host buf buffer 8 mid_result;
         Some (buf, buffer + 8, mod08));
    let mod_result := PrepareEightDigits mod08 +[64] kEightZeroBytes in
    do buf <- put host buf buffer 8 mod_result;
    Some (buf, buffer + 8).

Definition EncodeFullU128 (host : endian) (i : uint128) (buf : list Z) (buffer : Z) : written :=
  if Uint128High64 i =? 0 then EncodeFullU64 host (Uint128Low64 i) buf buffer
  else
    let k1e16 := U.of_unsigned 10000000000000000 in
    let high := U_div i k1e16 in
    let low := Uint128Low64 (U_mod i k1e16) in
    let mid := Uint128Low64 (U_mod high k1e16) in
    let high := U_div high k1e16 in
    if U.eqb high (U.of_unsigned 0) then
      do (buf, buffer) <- EncodeFullU64 host mid buf buffer;
      EncodePadded16 host low buf buffer
    else
      do (buf, buffer) <- EncodeFullU64 host (Uint128Low64 high) buf buffer;
      do (buf, buffer) <- EncodePadded16 host mid buf buffer;
      EncodePadded16 host low buf buffer.

(** [*out_str = 0] after the text. *)
Definition terminate (w : written) : written :=
  do (buf, out_str) <- w;
  do buf <- write buf out_str 0;
  Some (buf, out_str).

Definition FastIntToBuffer_u32 (host : endian) (n : Z) (buf : list Z) : written :=
  terminate (EncodeFullU32 host n buf 0).

(** The sign and the magnitude, negated without overflow. *)
Definition FastIntToBuffer_i32 (host : endian) (i : Z) (buf : list Z) : written :=
  let u := wrapu 32 i in
  if i <? 0 then
    do buf <- write buf 0 (chr "-");
    terminate (EncodeFullU32 host (0 -[32] u) buf 1)
  else terminate (EncodeFullU32 host u buf 0).

Definition FastIntToBuffer_u64 (host : endian) (i : Z) (buf : list Z) : written :=
  terminate (EncodeFullU64 host i buf 0).

Definition FastIntToBuffer_i64 (host : endian) (i : Z) (buf : list Z) : written :=
  let u := wrapu 64 i in
  if i <? 0 then
    do buf <- write buf 0 (chr "-");
    terminate (EncodeFullU64 host (0 -[64] u) buf 1)
  else terminate (EncodeFullU64 host u buf 0).

Definition FastIntToBuffer_u128 (host : endian) (i : uint128) (buf : list Z) : written :=
  terminate (EncodeFullU128 host i buf 0).

Definition FastIntToBuffer_i128 (host : endian) (i : int128) (buf : list Z) : written :=
  let u := U.of_int128 i in
  if I.ltb i (I.of_signed 0) then
    do buf <- write buf 0 (chr "-");
    terminate (EncodeFullU128 host (U.opp u) buf 1)
  else terminate (EncodeFullU128 host u buf 0).

(** [PutTwoDigits]: both digits, always. *)
Definition PutTwoDigits (host : endian) (i : Z) (buf : list Z) (pos : Z) : option (list Z) :=
  let base := kTwoZeroBytes in
  let div10 := wrapu 32 ((i *[64] kDivisionBy10Mul) / kDivisionBy10Div) in
  let mod10 := i -[32] (10 *[32] div10) in
  let base := base +[32] (div10 +[32] (mod10 <<[32] 8)) in
  put host buf pos 2 (wrapu 16 base).

(** ** Digits in parallel *)
Lemma div100_small n : 0 <= n < 10000 -> Z.land (Z.shiftr (n * 10486) 20) 0x7F = n / 100.
Proof.
  intros H. change 0x7F with (Z.ones 7). rewrite Z.land_ones, Z.shiftr_div_pow2 by lia.
  change (2 ^ 20) with 1048576. change (2 ^ 7) with 128. zlia.
Qed.

Lemma div10_small n : 0 <= n < 100 -> Z.land (Z.shiftr (n * 103) 10) 0xF = n / 10.
Proof.
  intros H. change 0xF with (Z.ones 4). rewrite Z.land_ones, Z.shiftr_div_pow2 by lia.
  change (2 ^ 10) with 1024. change (2 ^ 4) with 16. zlia.
Qed.

(** The word of 16-bit lanes, lowest first. *)
Fixpoint lanes (ls : list Z) : Z := match ls with [] => 0 | a :: ls' => a + 2 ^ 16 * lanes ls' end.

Lemma lanes_div10 ls : Forall (fun a => 0 <= a < 100) ls ->
  Z.land (Z.shiftr (lanes ls * 103) 10) (lanes (map (fun _ => 0xF) ls)) = lanes (map (fun a => a / 10) ls).
Proof.
  induction 1 as [|a ls Ha _ IH]; [reflexivity|]. cbn [lanes map]. change (2 ^ 16) with 65536 in *.
  replace ((a + 65536 * lanes ls) * 103) with (a * 103 + 2 ^ 16 * (lanes ls * 103)) by lia.
  rewrite (land_shiftr_lohi 16 10 (a * 103) (lanes ls * 103) 0xF) by (try lia; unfold in_u; change (2 ^ 16) with 65536; change (2 ^ (16 - 10)) with 64; lia).
  rewrite div10_small, IH by exact Ha. reflexivity.
Qed.

Lemma lanes_range ls : Forall (fun a => 0 <= a < 100) ls -> 0 <= lanes ls < 2 ^ (16 * Z.of_nat (length ls)).
Proof.
  induction 1 as [|a ls Ha _ IH]; [cbn; lia|]. cbn [lanes length]. rewrite Nat2Z.inj_succ, Z.mul_succ_r, Z.pow_add_r by lia.
  change (2 ^ 16) with 65536. lia.
Qed.

(** The two digits of every lane as bytes. *)
Lemma lanes_bytes ls :
  lanes (map (fun a => a / 10) ls) + (lanes ls - 10 * lanes (map (fun a => a / 10) ls)) * 2 ^ 8
  = le_val (flat_map (fun a => [a / 10; a mod 10]) ls).
Proof.
  induction ls as [|a ls IH]; [reflexivity|]. cbn [lanes map flat_map app le_val]. change (2 ^ 16) with 65536 in *.
  change (2 ^ 8) with 256 in *. rewrite <- IH. pose proof (Z.div_mod a 10 ltac:(lia)). lia.
Qed.

(** The last steps of both routines, on a word of lanes. *)
Definition lane_digits (w hundreds mask : Z) : Z :=
  let tens := wrapu w ((hundreds *[64] kDivisionBy10Mul) / kDivisionBy10Div) .& mask in
  wrapu w (tens +[64] ((hundreds -[64] (10 *[64] tens)) <<[64] 8)).

Lemma lane_digits_spec w ls : Forall (fun a => 0 <= a < 100) ls -> (length ls <= 4)%nat ->
  16 * Z.of_nat (length ls) <= w <= 64 ->
  lane_digits w (lanes ls) (lanes (map (fun _ => 0xF) ls)) = le_val (flat_map (fun a => [a / 10; a mod 10]) ls).
Proof.
  intros F L W. unfold lane_digits. change kDivisionBy10Mul with 103. change kDivisionBy10Div with (2 ^ 10).
  set (k := 16 * Z.of_nat (length ls)) in *.
  assert (K : 0 <= k <= 64) by (unfold k; lia).
  assert (Pw : 2 ^ k <= 2 ^ w <= 2 ^ 64) by (split; apply Z.pow_le_mono_r; lia). change (2 ^ 64) with 18446744073709551616 in Pw.
  (* the lanes are below 100, so the products stay below a hundredth of the lane's room *)
  assert (B : 0 <= lanes ls /\ lanes ls * 128 < 2 ^ k).
  { unfold k. clear - F. induction F as [|a ls Ha _ IH]; [cbn; lia|]. cbn [lanes length].
    rewrite Nat2Z.inj_succ, Z.mul_succ_r, Z.pow_add_r by lia. change (2 ^ 16) with 65536.
    pose proof (Z.pow_pos_nonneg 2 (16 * Z.of_nat (length ls)) ltac:(lia) ltac:(lia)). lia. }
  rewrite (wrapu_small 64 (lanes ls * 103)) by (change (2 ^ 64) with 18446744073709551616; lia).
  assert (Q : 0 <= lanes ls * 103 / 2 ^ 10 < 2 ^ k).
  { change (2 ^ 10) with 1024. split; [apply Z.div_pos; lia|]. apply Z.div_lt_upper_bound; lia. }
  rewrite (wrapu_small w (lanes ls * 103 / 2 ^ 10)) by lia. rewrite <- Z.shiftr_div_pow2, lanes_div10 by (lia || exact F).
  set (t := lanes (map (fun a => a / 10) ls)).
  assert (T : 0 <= t /\ 10 * t <= lanes ls).
  { unfold t. clear - F. induction F as [|a ls Ha _ IH]; [cbn; lia|]. cbn [lanes map]. change (2 ^ 16) with 65536. zlia. }
  rewrite (wrapu_small 64 (10 * t)) by (change (2 ^ 64) with 18446744073709551616; lia).
  rewrite (wrapu_small 64 (lanes ls - 10 * t)) by (change (2 ^ 64) with 18446744073709551616; lia).
  pose proof (lanes_bytes ls) as E. fold t in E.
  assert (R : 0 <= le_val (flat_map (fun a => [a / 10; a mod 10]) ls) < 2 ^ k).
  { assert (Fb : Forall (in_u 8) (flat_map (fun a => [a / 10; a mod 10]) ls))
      by (clear - F; induction F as [|a ls Ha _ IH]; cbn; [constructor|]; repeat constructor; auto; unfold in_u; change (2 ^ 8) with 256; zlia).
    pose proof (le_val_range _ Fb) as R. unfold in_u in R.
    replace (8 * Z.of_nat (length (flat_map (fun a => [a / 10; a mod 10]) ls))) with k in R; [exact R|].
    unfold k. clear. induction ls; cbn [flat_map app length]; lia. }
  rewrite Z.shiftl_mul_pow2 by lia. rewrite <- E in R. change (2 ^ 8) with 256 in *.
  rewrite (wrapu_small 64 ((lanes ls - 10 * t) * 256)) by (change (2 ^ 64) with 18446744073709551616; lia).
  rewrite (wrapu_small 64) by (change (2 ^ 64) with 18446744073709551616; lia). rewrite wrapu_small by lia. exact E.
Qed.

Definition eight_lanes (i : Z) : list Z :=
  [i / 10000 / 100; (i / 10000) mod 100; i mod 10000 / 100; (i mod 10000) mod 100].

Lemma PrepareEightDigits_bytes i : 0 <= i < 100000000 ->
  PrepareEightDigits i = le_val (flat_map (fun a => [a / 10; a mod 10]) (eight_lanes i)).
Proof.
  intros H. unfold PrepareEightDigits. set (hi := i / 10000). set (lo := i mod 10000).
  assert (Hh : 0 <= hi < 10000) by (unfold hi; zlia). assert (Hl : 0 <= lo < 10000) by (unfold lo; zlia).
  assert (W : forall x, 0 <= x < 18446744073709551616 -> wrapu 64 x = x) by (intros; apply wrapu_small; assumption).
  assert (M : hi .| (lo <<[64] 32) = hi + 2 ^ 32 * lo).
  { rewrite W by (rewrite Z.shiftl_mul_pow2 by lia; change (2 ^ 32) with 4294967296; lia).
    apply lor_lohi; [lia|]. unfold in_u. change (2 ^ 32) with 4294967296. lia. }
  rewrite M. change kDivisionBy100Mul with 10486. change kDivisionBy100Div with (2 ^ 20).
  rewrite (W ((hi + 2 ^ 32 * lo) * 10486)) by (change (2 ^ 32) with 4294967296; lia).
  replace ((hi + 2 ^ 32 * lo) * 10486) with (hi * 10486 + 2 ^ 32 * (lo * 10486)) by lia.
  rewrite <- Z.shiftr_div_pow2 by lia. change (Z.shiftl 0x7F 32 .| 0x7F) with (0x7F + 2 ^ 32 * 0x7F).
  rewrite land_shiftr_lohi by (try lia; unfold in_u; change (2 ^ 32) with 4294967296; change (2 ^ (32 - 20)) with 4096; lia).
  rewrite !div100_small by lia.
  rewrite (W (100 * _)) by (change (2 ^ 32) with 4294967296; zlia).
  rewrite (W (hi + 2 ^ 32 * lo - _)) by (change (2 ^ 32) with 4294967296; zlia).
  replace (hi + 2 ^ 32 * lo - 100 * (hi / 100 + 2 ^ 32 * (lo / 100))) with (hi mod 100 + 2 ^ 32 * (lo mod 100)) by (change (2 ^ 32) with 4294967296; zlia).
  rewrite (W (Z.shiftl _ 16)) by (rewrite Z.shiftl_mul_pow2 by lia; change (2 ^ 32) with 4294967296; change (2 ^ 16) with 65536; zlia).
  set (ls := eight_lanes i).
  assert (F : Forall (fun a => 0 <= a < 100) ls) by (unfold ls, eight_lanes; fold hi lo; repeat constructor; zlia).
  assert (E : Z.shiftl (hi mod 100 + 2 ^ 32 * (lo mod 100)) 16 + (hi / 100 + 2 ^ 32 * (lo / 100)) = lanes ls).
  { unfold ls, eight_lanes, lanes. fold hi lo. rewrite Z.shiftl_mul_pow2 by lia.
    change (2 ^ 32) with 4294967296. change (2 ^ 16) with 65536. lia. }
  pose proof (lanes_range ls F) as R. change (16 * Z.of_nat (length ls)) with 64 in R. change (2 ^ 64) with 18446744073709551616 in R.
  rewrite E, (W (lanes ls)) by exact R.
  pose proof (lane_digits_spec 64 ls F ltac:(cbn; lia) ltac:(cbn; lia)) as S. rewrite <- S. unfold lane_digits.
  change (lanes (map (fun _ => 0xF) ls)) with (Z.shiftl 0xF 48 .| Z.shiftl 0xF 32 .| Z.shiftl 0xF 16 .| 0xF).
  rewrite (W ((lanes ls *[64] kDivisionBy10Mul) / kDivisionBy10Div)), wrapu_idem; [reflexivity|lia|].
  pose proof (wrapu_range 64 (lanes ls * kDivisionBy10Mul) ltac:(lia)) as V. change (2 ^ 64) with 18446744073709551616 in V.
  change kDivisionBy10Div with 1024. zlia.
Qed.

(** ** Words of digits as text *)
Lemma two_digits a : 0 <= a < 100 -> padded 10 2 a = [a / 10; a mod 10].
Proof. intros H. cbn. f_equal. zlia. Qed.

Lemma eight_padded i : 0 <= i < 100000000 ->
  flat_map (fun a => [a / 10; a mod 10]) (eight_lanes i) = padded 10 8 i.
Proof.
  intros H. change 8%nat with (2 + (2 + (2 + 2)))%nat. rewrite !(padded_app 10) by lia.
  change (10 ^ Z.of_nat (2 + (2 + 2))) with 1000000. change (10 ^ Z.of_nat (2 + 2)) with 10000. change (10 ^ Z.of_nat 2) with 100.
  assert (M : forall x, padded 10 2 x = padded 10 2 (x mod 100)) by (intros x; cbn [padded app]; f_equal; [zlia|f_equal; zlia]).
  rewrite (M (i / 10000)), (M (i / 100)), (M i), !two_digits by zlia. unfold eight_lanes. cbn [flat_map app].
  replace (i / 10000 / 100) with (i / 1000000) by zlia. replace (i mod 10000 / 100) with (i / 100 mod 100) by zlia.
  replace ((i mod 10000) mod 100) with (i mod 100) by zlia. reflexivity.
Qed.

Definition decimal (d : Z) : Prop := 0 <= d < 10.

Lemma dec_text_bytes ds : Forall decimal ds -> Forall (in_u 8) (dec_text ds).
Proof.
  unfold decimal. intros F. unfold dec_text. apply Forall_map. apply (Forall_impl _ (P := fun d => 0 <= d < 10)); [|exact F].
  intros d H. unfold in_u. change (2 ^ 8) with 256. change (chr "0") with 48. lia.
Qed.

(** Adding the word of zeros makes the digits characters. *)
Lemma dec_text_val ds : le_val (dec_text ds) = le_val ds + rep_byte (length ds) (chr "0").
Proof.
  unfold dec_text, rep_byte. induction ds as [|d ds IH]; [reflexivity|]. cbn [map le_val length repeat]. rewrite IH. lia.
Qed.

Lemma ascii_word n w zeros ds : Forall decimal ds -> length ds = n -> w = 8 * Z.of_nat n -> zeros = rep_byte n (chr "0") ->
  wrapu w (le_val ds + zeros) = le_val (dec_text ds).
Proof.
  intros F L -> ->. rewrite <- L, <- dec_text_val. apply wrapu_small.
  pose proof (le_val_range _ (dec_text_bytes ds F)) as R. unfold dec_text in R. rewrite length_map in R. exact R.
Qed.

Lemma padded_decimal n x : Forall decimal (padded 10 n x).
Proof. apply (padded_digit 10). lia. Qed.

Lemma eight_text i : 0 <= i < 100000000 -> PrepareEightDigits i +[64] kEightZeroBytes = le_val (dec_text (padded 10 8 i)).
Proof.
  intros H. rewrite PrepareEightDigits_bytes, eight_padded by exact H.
  apply (ascii_word 8); [apply padded_decimal|now rewrite padded_length|reflexivity|reflexivity].
Qed.

(** ** Leading zeros *)
(** [countr_zero(bottom) & -8] counts the leading zero digits, in bits. *)
Lemma leading_zeros w n z d r : w = 8 * Z.of_nat n -> n = 4%nat \/ n = 8%nat -> (z + S (length r) = n)%nat ->
  0 < d < 10 -> Forall decimal r ->
  countr_zero w (le_val (repeat 0 z ++ d :: r)) .& (0 -[32] 8) = 8 * Z.of_nat z.
Proof.
  intros Hw Hn L D F. unfold decimal in F.
  assert (Fr : Forall (in_u 8) r).
  { apply (Forall_impl _ (P := fun d => 0 <= d < 10)); [|exact F]. intros y Hy. unfold in_u. change (2 ^ 8) with 256. lia. }
  pose proof (word_trailing n z d r ltac:(unfold std_bytes; lia) L ltac:(lia) Fr) as T. rewrite <- Hw in T.
  change (0 -[32] 8) with (wrapu 32 (Z.lnot (Z.ones 3))).
  rewrite land_clear_low by (try lia; unfold in_u; change (2 ^ 32) with 4294967296; destruct Hn as [-> | ->]; lia).
  change (2 ^ 3) with 8. zlia.
Qed.

(** ** Writing to the buffer *)

(** [f] writes [text] at the position it is given and touches at most [ext] bytes from there. *)
Definition writes (f : list Z -> Z -> written) (text : list Z) (ext : nat) : Prop :=
  forall buf pos, (pos + ext <= length buf)%nat ->
  exists buf', f buf (Z.of_nat pos) = Some (buf', Z.of_nat (pos + length text)) /\
  firstn (pos + length text) buf' = firstn pos buf ++ text /\ length buf' = length buf.

Lemma writes_more f text ext ext' : writes f text ext -> (ext <= ext')%nat -> writes f text ext'.
Proof. intros W H buf pos L. apply W. lia. Qed.

Lemma writes_seq f g t u ext ext' : writes f t ext -> writes g u ext' ->
  writes (fun buf pos => do (buf, pos) <- f buf pos; g buf pos) (t ++ u) (Nat.max ext (length t + ext')).
Proof.
  intros F G buf pos L. destruct (F buf pos ltac:(lia)) as (b1 & -> & E1 & L1). cbn [obind].
  destruct (G b1 (pos + length t)%nat ltac:(lia)) as (b2 & -> & E2 & L2). exists b2.
  rewrite length_app, Nat.add_assoc, E2, E1, <- app_assoc. repeat split. lia.
Qed.

(** A store whose first bytes are the text. *)
Lemma writes_put host n v text junk k : std_bytes n -> le_bytes n v = text ++ junk -> k = Z.of_nat (length text) ->
  writes (fun buf pos => do buf <- put host buf pos n v; Some (buf, pos + k)) text n.
Proof.
  intros Hn E -> buf pos L. unfold put. rewrite Store_bytes_little by exact Hn.
  assert (Lb : length (le_bytes n v) = n) by apply le_bytes_length.
  rewrite store_spec by (rewrite Lb; lia). cbn [obind]. eexists. rewrite <- Nat2Z.inj_add. split; [reflexivity|].
  split; [|apply stored_length; rewrite Lb; lia]. rewrite E, <- app_assoc, app_assoc, firstn_app.
  rewrite (firstn_all2 (firstn pos buf ++ text)) by (rewrite length_app, length_firstn; lia).
  rewrite length_app, length_firstn. replace (pos + length text - _)%nat with 0%nat by lia. apply app_nil_r.
Qed.

(** Full words of digits. *)
Lemma writes_eight host i : 0 <= i < 100000000 ->
  writes (fun buf pos => do buf <- put host buf pos 8 (PrepareEightDigits i +[64] kEightZeroBytes); Some (buf, pos + 8))
    (dec_text (padded 10 8 i)) 8.
Proof.
  intros H. assert (L : length (dec_text (padded 10 8 i)) = 8%nat) by (unfold dec_text; now rewrite length_map, padded_length).
  apply (writes_put host 8 _ _ []); [unfold std_bytes; auto| |now rewrite L].
  rewrite eight_text, app_nil_r, <- L by exact H. apply le_bytes_val, dec_text_bytes, padded_decimal.
Qed.

(** Words of digits whose leading zeros are shifted out. *)
Lemma writes_stripped host n i v zeroes : n = 4%nat \/ n = 8%nat -> 0 < i < 10 ^ Z.of_nat n ->
  v = le_val (dec_text (padded 10 n i)) ->
  zeroes = countr_zero (8 * Z.of_nat n) (le_val (padded 10 n i)) .& (0 -[32] 8) ->
  writes (fun buf pos => do buf <- put host buf pos n (v >> zeroes); Some (buf, pos + Z.of_nat n - zeroes / 8))
    (dec_text (digits 10 i)) n.
Proof.
  intros Hn H -> ->.
  destruct (padded_digits 10 ltac:(lia) n i ltac:(lia) ltac:(lia)) as (P & L). set (z := (n - length (digits 10 i))%nat) in *.
  destruct (digits_hd 10 ltac:(lia) i ltac:(lia)) as (d & r & E & Nz).
  assert (F : Forall decimal (digits 10 i)) by (apply (digits_digit 10); lia).
  assert (D : 0 < d < 10 /\ Forall decimal r) by (rewrite E in F; inversion F; unfold decimal in *; split; [lia|assumption]).
  assert (Lr : (z + S (length r) = n)%nat) by (unfold z; rewrite E in L |- *; cbn [length] in *; lia).
  rewrite P, E, (leading_zeros _ n) by (auto; tauto).
  rewrite <- E, dec_text_app.
  assert (Fz : Forall (in_u 8) (dec_text (repeat 0 z))).
  { apply dec_text_bytes. apply Forall_forall. intros x I. apply repeat_spec in I. rewrite I. unfold decimal. lia. }
  assert (Lz : length (dec_text (repeat 0 z)) = z) by (unfold dec_text; now rewrite length_map, repeat_length).
  assert (Ld : length (dec_text (digits 10 i)) = length (digits 10 i)) by (unfold dec_text; apply length_map).
  replace (8 * Z.of_nat z / 8) with (Z.of_nat z) by zlia.
  replace (8 * Z.of_nat z) with (8 * Z.of_nat (length (dec_text (repeat 0 z)))) by now rewrite Lz. rewrite le_val_shiftr by exact Fz.
  intros buf pos B.
  destruct (writes_put host n (le_val (dec_text (digits 10 i))) (dec_text (digits 10 i)) (repeat 0 z)
    (Z.of_nat (length (dec_text (digits 10 i))))) with (buf := buf) (pos := pos) as (b & W & Q); auto.
  - unfold std_bytes. lia.
  - replace n with (length (dec_text (digits 10 i)) + z)%nat at 1 by (rewrite Ld; unfold z; lia).
    apply le_bytes_pad, dec_text_bytes, F.
  - exists b. split; [|exact Q]. rewrite <- W.
    replace (Z.of_nat pos + Z.of_nat n - Z.of_nat z) with (Z.of_nat pos + Z.of_nat (length (dec_text (digits 10 i))))
      by (rewrite Ld; unfold z; lia). reflexivity.
Qed.

Lemma writes_ext f g t ext : (forall buf pos, f buf pos = g buf pos) -> writes f t ext -> writes g t ext.
Proof. intros E W buf pos L. rewrite <- E. now apply W. Qed.

(** ** The routines *)
Lemma digits_two n : 10 <= n < 100 -> digits 10 n = [n / 10; n mod 10].
Proof. intros H. rewrite (digits_step 10), (digits_small 10) by zlia. reflexivity. Qed.

Lemma EncodeHundred_writes host n : 1 <= n < 100 -> writes (EncodeHundred host n) (dec_text (digits 10 n)) 2.
Proof.
  intros H. unfold EncodeHundred. change kDivisionBy10Mul with 103. change kDivisionBy10Div with 1024.
  change kTwoZeroBytes with (48 + 256 * 48).
  assert (W32 : forall x, 0 <= x < 4294967296 -> wrapu 32 x = x) by (intros; apply wrapu_small; assumption).
  rewrite (wrapu_small 64 (n * 103)) by (change (2 ^ 64) with 18446744073709551616; lia).
  replace (wrapu 32 (n * 103 / 1024)) with (n / 10) by (rewrite W32; zlia).
  replace (n -[32] (10 *[32] (n / 10))) with (n mod 10) by (rewrite (W32 (10 * _)), W32; zlia).
  replace (48 + 256 * 48 +[32] n / 10 +[32] (n mod 10 <<[32] 8)) with ((48 + n / 10) + 256 * (48 + n mod 10)).
  2: { rewrite Z.shiftl_mul_pow2 by lia. change (2 ^ 8) with 256. rewrite (W32 (n mod 10 * 256)), (W32 (_ + n / 10)), W32 by zlia. lia. }
  destruct (Z.lt_ge_cases n 10) as [C|C].
  - assert (S : wraps 32 (n -[32] 10) = n - 10).
    { unfold wraps, wrapu. change (2 ^ 32) with 4294967296. change (2 ^ (32 - 1)) with 2147483648. zlia. }
    rewrite S. replace ((n - 10) >> 8) with (-1) by (rewrite Z.shiftr_div_pow2 by lia; change (2 ^ 8) with 256; zlia).
    change (-1 .& 8) with 8. rewrite (digits_small 10) by lia.
    apply (writes_ext (fun buf pos => do buf <- put host buf pos 2 (le_val [48 + n; 0]); Some (buf, pos + 1))).
    { intros buf pos. replace (wrapu 16 _) with (le_val [48 + n; 0]).
      2: { rewrite Z.shiftr_div_pow2 by lia. unfold wrapu. cbn [le_val]. change (2 ^ 8) with 256. change (2 ^ 16) with 65536. zlia. }
      destruct (put _ _ _ _ _); [|reflexivity]. cbn [obind]. do 2 f_equal. lia. }
    apply (writes_put host 2 _ _ [0]); [unfold std_bytes; auto| |reflexivity].
    apply (le_bytes_val [48 + n; 0]). repeat constructor; unfold in_u; change (2 ^ 8) with 256; lia.
  - assert (S : wraps 32 (n -[32] 10) = n - 10).
    { unfold wraps, wrapu. change (2 ^ 32) with 4294967296. change (2 ^ (32 - 1)) with 2147483648. zlia. }
    rewrite S. replace ((n - 10) >> 8) with 0 by (rewrite Z.shiftr_div_pow2 by lia; change (2 ^ 8) with 256; zlia).
    change (0 .& 8) with 0. rewrite Z.shiftr_0_r, digits_two by lia.
    apply (writes_ext (fun buf pos => do buf <- put host buf pos 2 (le_val [48 + n / 10; 48 + n mod 10]); Some (buf, pos + 2))).
    { intros buf pos. replace (wrapu 16 _) with (le_val [48 + n / 10; 48 + n mod 10])
        by (unfold wrapu; cbn [le_val]; change (2 ^ 16) with 65536; zlia).
      destruct (put _ _ _ _ _); [|reflexivity]. cbn [obind]. do 2 f_equal. lia. }
    apply (writes_put host 2 _ _ []); [unfold std_bytes; auto| |reflexivity].
    apply (le_bytes_val [48 + n / 10; 48 + n mod 10]). repeat constructor; unfold in_u; change (2 ^ 8) with 256; zlia.
Qed.

Lemma four_padded n : 0 <= n < 10000 -> flat_map (fun a => [a / 10; a mod 10]) [n / 100; n mod 100] = padded 10 4 n.
Proof.
  intros H. change 4%nat with (2 + 2)%nat. rewrite (padded_app 10) by lia. change (10 ^ Z.of_nat 2) with 100.
  replace (padded 10 2 n) with (padded 10 2 (n mod 100)) by (cbn [padded app]; f_equal; [zlia|f_equal; zlia]).
  rewrite !two_digits by zlia. reflexivity.
Qed.

Lemma EncodeTenThousand_writes host n : 1 <= n < 10000 -> writes (EncodeTenThousand host n) (dec_text (digits 10 n)) 4.
Proof.
  intros H. set (ls := [n / 100; n mod 100]).
  assert (F : Forall (fun a => 0 <= a < 100) ls) by (unfold ls; repeat constructor; zlia).
  pose proof (lane_digits_spec 32 ls F ltac:(cbn; lia) ltac:(cbn; lia)) as S. unfold ls in S at 3. rewrite four_padded in S by lia.
  assert (W32 : forall x, 0 <= x < 4294967296 -> wrapu 32 x = x) by (intros; apply wrapu_small; assumption).
  assert (W64 : forall x, 0 <= x < 18446744073709551616 -> wrapu 64 x = x) by (intros; apply wrapu_small; assumption).
  assert (T : wrapu 32 (le_val (padded 10 4 n) +[64] kFourZeroBytes) = le_val (dec_text (padded 10 4 n))).
  { rewrite <- (ascii_word 4 32 kFourZeroBytes (padded 10 4 n)); [|apply padded_decimal|now rewrite padded_length|reflexivity|reflexivity].
    assert (R : 0 <= le_val (padded 10 4 n) < 4294967296).
    { rewrite <- four_padded by lia. cbn [flat_map app le_val]. zlia. }
    rewrite W64; [reflexivity|]. change kFourZeroBytes with 808464432. lia. }
  apply (writes_ext (fun buf pos => do buf <- put host buf pos 4 (le_val (dec_text (padded 10 4 n)) >>
    (countr_zero (8 * Z.of_nat 4) (le_val (padded 10 4 n)) .& (0 -[32] 8)));
    Some (buf, pos + Z.of_nat 4 - (countr_zero (8 * Z.of_nat 4) (le_val (padded 10 4 n)) .& (0 -[32] 8)) / 8))).
  2: { apply writes_stripped with (i := n); auto. change (10 ^ Z.of_nat 4) with 10000. lia. }
  intros buf pos. rewrite <- T, <- S. unfold EncodeTenThousand, lane_digits.
  change kDivisionBy100Mul with 10486. change kDivisionBy100Div with 1048576.
  rewrite (W64 (n * 10486)) by lia.
  replace (wrapu 32 (n * 10486 / 1048576)) with (n / 100) by (rewrite W32; zlia).
  rewrite (W64 (100 * (n / 100))), (W64 (n - 100 * (n / 100))) by zlia.
  replace (wrapu 32 (n - 100 * (n / 100))) with (n mod 100) by (rewrite W32; zlia).
  replace ((n mod 100 <<[32] 16) +[32] n / 100) with (lanes ls); [reflexivity|].
  unfold ls. cbn [lanes]. rewrite Z.shiftl_mul_pow2 by lia. change (2 ^ 16) with 65536. rewrite (W32 (n mod 100 * 65536)), W32 by zlia. lia.
Qed.

(** A full word of digits after a text. *)
Lemma writes_then_eight host f t ext i : writes f t ext -> 0 <= i < 100000000 -> (ext <= length t + 8)%nat ->
  writes (fun buf pos => do (buf, pos) <- f buf pos;
    do buf <- put host buf pos 8 (PrepareEightDigits i +[64] kEightZeroBytes); Some (buf, pos + 8))
    (t ++ dec_text (padded 10 8 i)) (length t + 8).
Proof.
  intros W H L. apply (writes_more _ _ (Nat.max ext (length t + 8))); [|lia].
  exact (writes_seq f _ t _ ext 8 W (writes_eight host i H)).
Qed.

Lemma EncodePadded16_writes host v : 0 <= v < 10000000000000000 -> writes (EncodePadded16 host v) (dec_text (padded 10 16 v)) 16.
Proof.
  intros H. assert (W32 : forall x, 0 <= x < 4294967296 -> wrapu 32 x = x) by (intros; apply wrapu_small; assumption).
  change (padded 10 16 v) with (padded 10 (8 + 8) v). rewrite (padded_app 10), dec_text_app by lia.
  rewrite <- (padded_mod 10 ltac:(lia) 8 v). change (10 ^ Z.of_nat 8) with 100000000.
  eapply writes_ext; [|apply (writes_then_eight host _ _ 8 (v mod 100000000) (writes_eight host (v / 100000000) ltac:(zlia)))];
    [|zlia|rewrite dec_text_length, padded_length; lia].
  intros buf pos. unfold EncodePadded16. rewrite !W32 by zlia.
  destruct (put host buf pos 8 _) as [b|]; [|reflexivity]. cbn [obind].
  destruct (put host b (pos + 8) 8 _) as [b'|]; [|reflexivity]. cbn [obind]. do 2 f_equal. lia.
Qed.

Lemma digits_length_le n x : 0 <= x < 10 ^ Z.of_nat n -> (0 < n)%nat -> (length (digits 10 x) <= n)%nat.
Proof. intros H N. exact (proj2 (padded_digits 10 ltac:(lia) n x H N)). Qed.

Lemma digits_length_pos x : 0 <= x -> (1 <= length (digits 10 x))%nat.
Proof. intros H. destruct (digits_canonical 10 ltac:(lia) x H) as (_ & C). destruct (digits 10 x); [destruct C|cbn; lia]. Qed.

(** The number as its high part and a word of eight digits. *)
Lemma digits_eight x : 100000000 <= x ->
  digits 10 x = digits 10 (x / 100000000) ++ padded 10 8 (x mod 100000000).
Proof.
  intros H. rewrite (Z.div_mod x 100000000) at 1 by lia. rewrite Z.mul_comm. change 100000000 with (10 ^ Z.of_nat 8).
  apply (digits_chunk 10); [lia| |apply Z.mod_pos_bound; reflexivity]. change (10 ^ Z.of_nat 8) with 100000000. zlia.
Qed.

(** At most eight digits are followed by what the word store leaves there. *)
Lemma EncodeFullU32_writes host n : in_u 32 n ->
  writes (EncodeFullU32 host n) (dec_text (digits 10 n)) (Nat.max 8 (length (digits 10 n))).
Proof.
  unfold in_u. change (2 ^ 32) with 4294967296. intros H. unfold EncodeFullU32. case_if; zbool; [|case_if; zbool].
  - rewrite (digits_small 10) by lia. intros buf pos L.
    pose proof (write_store buf (Z.of_nat pos) (chr "0" + n)) as W.
    rewrite W. rewrite store_spec by (cbn [length] in *; lia). cbn [obind]. eexists. split; [rewrite Nat2Z.inj_add; reflexivity|].
    split; [|apply stored_length; cbn [length] in *; lia].
    cbn [dec_text map length]. rewrite app_assoc, firstn_app, firstn_all2 by (rewrite length_app, length_firstn; cbn [length]; lia).
    rewrite length_app, length_firstn. cbn [length].
    replace (pos + 1 - _)%nat with 0%nat by (cbn [length] in *; lia). apply app_nil_r.
  - apply (writes_more _ _ 8); [|lia].
    apply (writes_stripped host 8 n); [auto|change (10 ^ Z.of_nat 8) with 100000000; lia|apply eight_text; lia|].
    now rewrite PrepareEightDigits_bytes, eight_padded by lia.
  - rewrite digits_eight, dec_text_app, length_app, padded_length by lia.
    apply (writes_more _ _ (length (dec_text (digits 10 (n / 100000000))) + 8)); [|rewrite dec_text_length; lia].
    apply writes_then_eight with (ext := 2%nat); [apply EncodeHundred_writes|..]; zlia.
Qed.

(** [f] prints [i]: its digits, touching at most the word the first group is stored with. *)
Definition prints (f : list Z -> Z -> written) (i : Z) : Prop :=
  writes f (dec_text (digits 10 i)) (Nat.max 8 (length (digits 10 i))).

Lemma EncodeFullU64_writes host i : in_u 64 i -> prints (EncodeFullU64 host i) i.
Proof.
  unfold in_u, prints. change (2 ^ 64) with 18446744073709551616. intros H.
  assert (W32 : forall x, 0 <= x < 4294967296 -> wrapu 32 x = x) by (intros; apply wrapu_small; assumption).
  unfold EncodeFullU64. case_if; zbool; [apply EncodeFullU32_writes; unfold in_u; change (2 ^ 32) with 4294967296; lia|].
  rewrite (digits_eight i), dec_text_app, length_app, padded_length by lia.
  pose proof (digits_length_pos (i / 100000000) ltac:(zlia)).
  eapply writes_more; [|rewrite <- (dec_text_length (digits 10 (i / 100000000))); apply Nat.le_max_r].
  case_if; zbool.
  - eapply writes_ext; [|apply (writes_then_eight host (EncodeFullU32 host (i / 100000000)) _ (Nat.max 8 (length (digits 10 (i / 100000000)))))].
    + intros buf pos. rewrite !W32 by zlia. now destruct (EncodeFullU32 _ _ _ _) as [[b q]|].
    + apply EncodeFullU32_writes. unfold in_u. change (2 ^ 32) with 4294967296. zlia.
    + zlia.
    + rewrite dec_text_length. lia.
  - rewrite (digits_eight (i / 100000000)), dec_text_app by zlia.
    assert (T : writes (EncodeTenThousand host (i / 100000000 / 100000000)) (dec_text (digits 10 (i / 100000000 / 100000000))) 4)
      by (apply EncodeTenThousand_writes; zlia).
    pose proof (writes_then_eight host _ _ 4 (i / 100000000 mod 100000000) T ltac:(zlia) ltac:(lia)) as M.
    eapply writes_ext; [|apply (writes_then_eight host _ _ _ (i mod 100000000) M ltac:(zlia))].
    + intros buf pos. rewrite !W32 by zlia. destruct (EncodeTenThousand _ _ _ _) as [[b q]|]; [|reflexivity]. cbn [obind].
      now destruct (put host b q 8 _).
    + rewrite length_app, !dec_text_length, padded_length. lia.
Qed.

Lemma digits_sixteen x : 10000000000000000 <= x ->
  digits 10 x = digits 10 (x / 10000000000000000) ++ padded 10 16 (x mod 10000000000000000).
Proof.
  intros H. rewrite (Z.div_mod x 10000000000000000) at 1 by lia. rewrite Z.mul_comm. change 10000000000000000 with (10 ^ Z.of_nat 16).
  apply (digits_chunk 10); [lia| |apply Z.mod_pos_bound; reflexivity]. change (10 ^ Z.of_nat 16) with 10000000000000000. zlia.
Qed.

Lemma prints_then_16 host f i v x : prints f i -> 0 <= v < 10000000000000000 -> 1 <= i -> x = i * 10000000000000000 + v ->
  prints (fun buf pos => do (buf, pos) <- f buf pos; EncodePadded16 host v buf pos) x.
Proof.
  unfold prints. intros W H I ->. rewrite digits_sixteen by zlia.
  rewrite Z.div_add_l, (Z.div_small v), Z.add_0_r by lia. rewrite Z.add_comm, Z.mod_add, Z.mod_small by lia.
  rewrite dec_text_app, length_app, padded_length.
  eapply writes_more; [exact (writes_seq _ _ _ _ _ _ W (EncodePadded16_writes host v H))|]. rewrite dec_text_length. lia.
Qed.

Lemma Low64_small a : uint128_ok a -> uval a < 2 ^ 64 -> in_u 64 (Uint128Low64 a) /\ Uint128Low64 a = uval a.
Proof. destruct a. unfold uint128_ok, uval, in_u. cbn. intros. lia. Qed.

Lemma EncodeFullU128_writes host i : uint128_ok i -> prints (EncodeFullU128 host i) (uval i).
Proof.
  intros Hi. unfold EncodeFullU128. case_if; zbool.
  { destruct (Low64_small i Hi) as (L & <-); [destruct i; unfold uint128_ok, uval, in_u in *; cbn in *; lia|].
    now apply EncodeFullU64_writes. }
  set (k := U.of_unsigned 10000000000000000).
  destruct (U_of_unsigned_val 10000000000000000) as (Kok & Kv); [unfold in_u; change (2 ^ 64) with 18446744073709551616; lia|]. fold k in Kok, Kv.
  assert (Big : 18446744073709551616 <= uval i < 2 ^ 128)
    by (destruct i; unfold uint128_ok, uval, in_u in *; cbn in *; lia).
  change (2 ^ 128) with 340282366920938463463374607431768211456 in Big.
  destruct (U_divmod_val i k Hi Kok ltac:(lia)) as (Qok & Rok & Q & R). fold (U_div i k) (U_mod i k) in *.
  destruct (U_divmod_val (U_div i k) k Qok Kok ltac:(lia)) as (Qok' & Rok' & Q' & R').
  fold (U_div (U_div i k) k) (U_mod (U_div i k) k) in *. rewrite Kv in *.
  assert (P64 : 2 ^ 64 = 18446744073709551616) by reflexivity.
  destruct (Low64_small _ Rok ltac:(rewrite R; zlia)) as (_ & EL).
  destruct (Low64_small _ Rok' ltac:(rewrite R', Q; zlia)) as (IM & EM).
  rewrite EL, R. rewrite EM in IM |- *. rewrite R', Q in *.
  destruct (U_of_unsigned_val 0) as (Zok & Zv); [unfold in_u; rewrite P64; lia|].
  rewrite (U_eqb_val _ _ Qok' Zok), Zv, Q'. case_if; zbool.
  - apply (prints_then_16 host _ (uval i / 10000000000000000 mod 10000000000000000));
      [now apply EncodeFullU64_writes|zlia|zlia|zlia].
  - destruct (Low64_small _ Qok' ltac:(rewrite Q'; zlia)) as (IH & EH). rewrite EH in IH |- *. rewrite Q' in *.
    pose proof (prints_then_16 host _ _ (uval i / 10000000000000000 mod 10000000000000000) (uval i / 10000000000000000)
      (EncodeFullU64_writes host _ IH) ltac:(zlia) ltac:(zlia) ltac:(zlia)) as M.
    eapply writes_ext; [|apply (prints_then_16 host _ _ (uval i mod 10000000000000000) (uval i) M); zlia].
    intros buf pos. cbv beta. now destruct (EncodeFullU64 _ _ _ _) as [[b q]|].
Qed.

(** ** The interface *)

(** The text of an integer: its sign and its digits, without leading zeros. *)
Definition int_text (i : Z) : list Z := (if i <? 0 then [chr "-"] else []) ++ dec_text (digits 10 (Z.abs i)).

(** [w] is a buffer that starts with [text] and a NUL, and the position of the NUL. *)
Definition holds_text (size : nat) (w : written) (text : list Z) : Prop :=
  exists buf, w = Some (buf, Z.of_nat (length text)) /\ firstn (S (length text)) buf = text ++ [0] /\ length buf = size.

Lemma terminate_spec f i buf pos : prints f i -> (pos + Nat.max 8 (S (length (digits 10 i))) <= length buf)%nat ->
  exists buf', terminate (f buf (Z.of_nat pos)) = Some (buf', Z.of_nat (pos + length (digits 10 i))) /\
  firstn (S (pos + length (digits 10 i))) buf' = firstn pos buf ++ dec_text (digits 10 i) ++ [0] /\ length buf' = length buf.
Proof.
  intros W L. destruct (W buf pos ltac:(lia)) as (b & E & F & Lb). rewrite dec_text_length in E, F. unfold terminate. rewrite E. cbn [obind].
  rewrite write_store, store_spec by (cbn [length]; lia). cbn [obind]. eexists. split; [reflexivity|].
  split; [|rewrite stored_length by (cbn [length]; lia); exact Lb].
  rewrite F, app_assoc, firstn_app.
  rewrite firstn_all2 by (rewrite !length_app, dec_text_length, length_firstn; cbn [length]; lia).
  rewrite !length_app, dec_text_length, length_firstn. cbn [length].
  replace (S (pos + length (digits 10 i)) - _)%nat with 0%nat by lia. now rewrite firstn_O, app_nil_r, <- app_assoc.
Qed.

Lemma unsigned_text f i buf : prints f i -> 0 <= i -> (Nat.max 8 (S (length (digits 10 i))) <= length buf)%nat ->
  holds_text (length buf) (terminate (f buf 0)) (int_text i).
Proof.
  intros W H L. destruct (terminate_spec f i buf 0 W L) as (b & E & F & Lb). exists b.
  unfold int_text. rewrite (proj2 (Z.ltb_ge i 0)), Z.abs_eq, app_nil_l, dec_text_length by lia. auto.
Qed.

Lemma signed_text f i buf : prints f (- i) -> i < 0 -> (S (Nat.max 8 (S (length (digits 10 (- i))))) <= length buf)%nat ->
  holds_text (length buf) (do buf <- write buf 0 (chr "-"); terminate (f buf 1)) (int_text i).
Proof.
  intros W H L. destruct buf as [|c buf]; [cbn [length] in L; lia|]. cbn [length] in *.
  change (write (c :: buf) 0 (chr "-")) with (Some (chr "-" :: buf)). cbn [obind].
  destruct (terminate_spec f (- i) (chr "-" :: buf) 1 W ltac:(cbn [length]; lia)) as (b & E & F & Lb). exists b.
  unfold int_text. rewrite (proj2 (Z.ltb_lt i 0)), Z.abs_neq, length_app, dec_text_length by lia. cbn [length]. auto.
Qed.

Lemma magnitude w i : 0 < w -> in_s w i -> i < 0 -> wrapu w (0 - wrapu w i) = - i.
Proof.
  intros Hw H N. unfold in_s in H. rewrite (wrapu_eq w (0 - wrapu w i) (- i) (-1)); [|lia|].
  - apply wrapu_small. assert (2 ^ (w - 1) < 2 ^ w) by (apply Z.pow_lt_mono_r; lia). lia.
  - unfold wrapu. assert (P : 2 ^ w = 2 * 2 ^ (w - 1)) by (rewrite <- Z.pow_succ_r by lia; f_equal; lia).
    rewrite <- (Z.mod_unique i (2 ^ w) (-1) (i + 2 ^ w)); lia.
Qed.

Lemma digits_fit n i : 0 <= i < 10 ^ Z.of_nat (S n) -> (Nat.max 8 (S (length (digits 10 i))) <= S (Nat.max 7 (S n)))%nat.
Proof. intros H. pose proof (digits_length_le (S n) i H ltac:(lia)). lia. Qed.

Lemma I_negative i : int128_ok i -> I.ltb i (I.of_signed 0) = (ival i <? 0).
Proof.
  destruct i as [h l]. unfold int128_ok, ival, in_s, in_u, I.ltb, I.of_signed. cbn. intros H.
  case_if; zbool; apply eq_true_iff_eq; rewrite !Z.ltb_lt; lia.
Qed.

Lemma int_fits n i : Z.abs i < 10 ^ Z.of_nat (S n) -> (Nat.max 8 (S (length (digits 10 (Z.abs i)))) <= S (Nat.max 7 (S n)))%nat.
Proof. intros H. apply digits_fit. lia. Qed.

(** An unsigned variant and a signed one, over the routine that prints a magnitude below [10 ^ S n]. *)
Lemma buffer_u f i n buf : prints f i -> 0 <= i < 10 ^ Z.of_nat (S n) -> (S (Nat.max 7 (S n)) <= length buf)%nat ->
  holds_text (length buf) (terminate (f buf 0)) (int_text i).
Proof. intros W H L. apply unsigned_text; [exact W|lia|]. pose proof (digits_fit n i H). lia. Qed.

Lemma buffer_s f g i n buf (b : bool) : (i < 0 -> prints f (- i)) -> (0 <= i -> prints g i) ->
  Z.abs i < 10 ^ Z.of_nat (S n) -> (S (S (Nat.max 7 (S n))) <= length buf)%nat -> b = (i <? 0) ->
  holds_text (length buf) (if b then do buf <- write buf 0 (chr "-"); terminate (f buf 1) else terminate (g buf 0)) (int_text i).
Proof.
  intros F G H L ->. pose proof (int_fits n i H). case_if; zbool.
  - rewrite Z.abs_neq in * by lia. apply signed_text; [apply F|..]; lia.
  - rewrite Z.abs_eq in * by lia. apply unsigned_text; [apply G|..]; lia.
Qed.

Lemma PutTwoDigits_spec host i buf pos : 0 <= i < 100 -> (pos + 2 <= length buf)%nat ->
  PutTwoDigits host i buf (Z.of_nat pos) = Some (firstn pos buf ++ dec_text (padded 10 2 i) ++ skipn (pos + 2) buf).
Proof.
  intros H L. unfold PutTwoDigits, put. change kDivisionBy10Mul with 103. change kDivisionBy10Div with 1024.
  change kTwoZeroBytes with (48 + 256 * 48).
  assert (W32 : forall x, 0 <= x < 4294967296 -> wrapu 32 x = x) by (intros; apply wrapu_small; assumption).
  rewrite (wrapu_small 64 (i * 103)) by (change (2 ^ 64) with 18446744073709551616; lia).
  replace (wrapu 32 (i * 103 / 1024)) with (i / 10) by (rewrite W32; zlia).
  replace (i -[32] (10 *[32] (i / 10))) with (i mod 10) by (rewrite (W32 (10 * _)), W32; zlia).
  rewrite Z.shiftl_mul_pow2 by lia. change (2 ^ 8) with 256.
  rewrite (W32 (i mod 10 * 256)), (W32 (i / 10 + _)), W32 by zlia.
  replace (wrapu 16 _) with (le_val (dec_text (padded 10 2 i))).
  2: { rewrite two_digits by lia. unfold wrapu. change (2 ^ 16) with 65536. cbn [dec_text map le_val]. change (chr "0") with 48. zlia. }
  assert (E : le_bytes 2 (le_val (dec_text (padded 10 2 i))) = dec_text (padded 10 2 i))
    by (apply (le_bytes_val (dec_text (padded 10 2 i))), dec_text_bytes, padded_decimal).
  rewrite Store_bytes_little, E by (unfold std_bytes; auto).
  rewrite store_spec by (rewrite dec_text_length, padded_length; lia).
  now rewrite dec_text_length, padded_length.
Qed.

(** Every [FastIntToBuffer] stays inside the buffer its callers provide ([kFastToBufferSize] bytes, and
    [kFastToBuffer128Size] for the 128-bit types) although it stores whole words past the digits, and leaves
    there the number's sign and digits without leading zeros, a NUL, and returns the NUL's position; the most
    negative values are printed like the others. [PutTwoDigits] writes exactly the two digits. On hosts of
    both byte orders. *)
Lemma fast_int_correct host buf :
  (length buf = Z.to_nat kFastToBufferSize ->
   (forall n, in_u 32 n -> holds_text (length buf) (FastIntToBuffer_u32 host n buf) (int_text n)) /\
   (forall i, in_s 32 i -> holds_text (length buf) (FastIntToBuffer_i32 host i buf) (int_text i)) /\
   (forall i, in_u 64 i -> holds_text (length buf) (FastIntToBuffer_u64 host i buf) (int_text i)) /\
   (forall i, in_s 64 i -> holds_text (length buf) (FastIntToBuffer_i64 host i buf) (int_text i))) /\
  (length buf = Z.to_nat kFastToBuffer128Size ->
   (forall i, uint128_ok i -> holds_text (length buf) (FastIntToBuffer_u128 host i buf) (int_text (uval i))) /\
   (forall i, int128_ok i -> holds_text (length buf) (FastIntToBuffer_i128 host i buf) (int_text (ival i)))) /\
  (forall i pos, 0 <= i < 100 -> (pos + 2 <= length buf)%nat ->
   PutTwoDigits host i buf (Z.of_nat pos) = Some (firstn pos buf ++ dec_text (padded 10 2 i) ++ skipn (pos + 2) buf)).
Proof.
  split; [intros L; change (Z.to_nat kFastToBufferSize) with 32%nat in L|split; [intros L; change (Z.to_nat kFastToBuffer128Size) with 41%nat in L|intros; now apply PutTwoDigits_spec]].
  - assert (P10 : 2 ^ 32 < 10 ^ Z.of_nat 10 /\ 2 ^ 32 = 2 * 2 ^ (32 - 1)) by (split; reflexivity).
    assert (P20 : 2 ^ 64 < 10 ^ Z.of_nat 20 /\ 2 ^ 64 = 2 * 2 ^ (64 - 1) /\ 2 ^ (64 - 1) < 10 ^ Z.of_nat 19)
      by (repeat split; reflexivity).
    split; [intros n H|split; [intros i H|split; intros i H]]; pose proof H as R; unfold in_u, in_s in R.
    + apply (buffer_u (EncodeFullU32 host n) n 9); [now apply EncodeFullU32_writes|lia|lia].
    + apply (buffer_s (EncodeFullU32 host (0 -[32] wrapu 32 i)) (EncodeFullU32 host (wrapu 32 i)) i 9);
        [intros N|intros N|lia|lia|reflexivity];
        [rewrite magnitude by (lia || exact H)|rewrite wrapu_small by lia]; apply EncodeFullU32_writes; unfold in_u; lia.
    + apply (buffer_u (EncodeFullU64 host i) i 19); [now apply EncodeFullU64_writes|lia|lia].
    + apply (buffer_s (EncodeFullU64 host (0 -[64] wrapu 64 i)) (EncodeFullU64 host (wrapu 64 i)) i 18);
        [intros N|intros N|lia|lia|reflexivity];
        [rewrite magnitude by (lia || exact H)|rewrite wrapu_small by lia]; apply EncodeFullU64_writes; unfold in_u; lia.
  - assert (P39 : 2 ^ 128 < 10 ^ Z.of_nat 39) by reflexivity. assert (P128 : 2 ^ 128 = 2 * 2 ^ (128 - 1)) by reflexivity.
    split; intros i H.
    + pose proof (uval_range i H) as R. unfold in_u in R.
      apply (buffer_u (EncodeFullU128 host i) (uval i) 38); [now apply EncodeFullU128_writes|lia|lia].
    + pose proof (ival_range i H) as S. pose proof S as R. unfold in_s in R. destruct (U_of_int128_val i H) as (Uok & Uv).
      apply (buffer_s (EncodeFullU128 host (U.opp (U.of_int128 i))) (EncodeFullU128 host (U.of_int128 i)) (ival i) 38);
        [intros N|intros N|lia|lia|now apply I_negative].
      * destruct (U_opp_val _ Uok) as (Ook & Ov). rewrite <- (magnitude 128 (ival i)), <- Uv by (lia || exact S).
        rewrite Z.sub_0_l, <- Ov. now apply EncodeFullU128_writes.
      * rewrite <- (wrapu_small 128 (ival i)), <- Uv by lia. now apply EncodeFullU128_writes.
Qed.

Lemma fast_int_correct_witness :
  holds_text (length (repeat 7 32)) (FastIntToBuffer_i32 little (-2147483648) (repeat 7 32)) (int_text (-2147483648)) /\
  holds_text (length (repeat 7 41)) (FastIntToBuffer_i128 big (MakeInt128 (-9223372036854775808) 0) (repeat 7 41))
    (int_text (ival (MakeInt128 (-9223372036854775808) 0))).
Proof.
  split.
  - refine (proj1 (proj2 (proj1 (fast_int_correct little (repeat 7 32)) eq_refl)) (-2147483648) _).
    split; [discriminate|reflexivity].
  - refine (proj2 (proj1 (proj2 (fast_int_correct big (repeat 7 41))) eq_refl) (MakeInt128 (-9223372036854775808) 0) _).
    split; split; (discriminate || reflexivity).
Defined.
