(* ===== verification/NumberParse.v ===== *)
(** Parsing integers, [safe_strto*_base] of [strings/numbers.cc]: whitespace, a sign, the prefix
    of the base, and digits accumulated with overflow checks against precomputed quotients, towards
    the minimum for negative numbers. *)
From Stdlib Require Import Ascii String.
From Stdlib Require Import ZArith Lia List Bool.
From S2P Require Import Prelude Endian Digits Int128 AsciiChars FastInt.
Import ListNotations.
#[local] Open Scope Z_scope.
#[local] Open Scope mach_scope.

Definition kAsciiToInt : list Z :=
  [
    36; 36; 36; 36; 36; 36; 36; 36; 36; 36; 36; 36; 36; 36; 36; 36; 36; 36; 36; 36; 36; 36; 36; 36; 36;
    36; 36; 36; 36; 36; 36; 36; 36; 36; 36; 36; 36; 36; 36; 36; 36; 36; 36; 36; 36; 36; 36; 36; 0; 1;
    2; 3; 4; 5; 6; 7; 8; 9; 36; 36; 36; 36; 36; 36; 36; 10; 11; 12; 13; 14; 15; 16; 17; 18; 19; 20; 21;
    22; 23; 24; 25; 26; 27; 28; 29; 30; 31; 32; 33; 34; 35; 36; 36; 36; 36; 36; 36; 10; 11; 12; 13; 14;
    15; 16; 17; 18; 19; 20; 21; 22; 23; 24; 25; 26; 27; 28; 29; 30; 31; 32; 33; 34; 35; 36; 36; 36; 36;
    36; 36; 36; 36; 36; 36; 36; 36; 36; 36; 36; 36; 36; 36; 36; 36; 36; 36; 36; 36; 36; 36; 36; 36; 36;
    36; 36; 36; 36; 36; 36; 36; 36; 36; 36; 36; 36; 36; 36; 36; 36; 36; 36; 36; 36; 36; 36; 36; 36; 36;
    36; 36; 36; 36; 36; 36; 36; 36; 36; 36; 36; 36; 36; 36; 36; 36; 36; 36; 36; 36; 36; 36; 36; 36; 36;
    36; 36; 36; 36; 36; 36; 36; 36; 36; 36; 36; 36; 36; 36; 36; 36; 36; 36; 36; 36; 36; 36; 36; 36; 36;
    36; 36; 36; 36; 36; 36; 36; 36; 36; 36; 36; 36; 36; 36; 36; 36; 36; 36; 36; 36; 36; 36; 36; 36; 36;
    36; 36; 36; 36 ].

(** [std::numeric_limits] of the integer types the templates are used with. *)
Record IntType : Type := { is_signed : bool; width : Z }.

Definition int_min (t : IntType) : Z := if is_signed t then - 2 ^ (width t - 1) else 0.
Definition int_max (t : IntType) : Z := if is_signed t then 2 ^ (width t - 1) - 1 else 2 ^ width t - 1.

(** An arithmetic result at the type: wrapped when unsigned, and no behaviour when a signed one does not fit. *)
Definition arith (t : IntType) (x : Z) : option Z :=
  if is_signed t then checked (width t) x else Some (wrapu (width t) x).

(** [X_OVER_BASE_INITIALIZER], with C++'s division. *)
Definition X_OVER_BASE_INITIALIZER (X : Z) : list Z :=
  0 :: 0 :: map (fun base => Z.quot X (Z.of_nat base)) (seq 2 35).

(** The tables of the 128-bit types, written out in the source as high and low halves. *)
Definition kVmaxOverBase_u128 : list uint128 := map (fun p => MakeUint128 (fst p) (snd p))
  [
    (0, 0); (0, 0); (9223372036854775807, 18446744073709551615);
    (6148914691236517205, 6148914691236517205); (4611686018427387903, 18446744073709551615);
    (3689348814741910323, 3689348814741910323); (3074457345618258602, 12297829382473034410);
    (2635249153387078802, 5270498306774157604); (2305843009213693951, 18446744073709551615);
    (2049638230412172401, 14347467612885206812); (1844674407370955161, 11068046444225730969);
    (1676976733973595601, 8384883669867978007); (1537228672809129301, 6148914691236517205);
    (1418980313362273201, 4256940940086819603); (1317624576693539401, 2635249153387078802);
    (1229782938247303441, 1229782938247303441); (1152921504606846975, 18446744073709551615);
    (1085102592571150095, 1085102592571150095); (1024819115206086200, 16397105843297379214);
    (970881267037344821, 16504981539634861972); (922337203685477580, 14757395258967641292);
    (878416384462359600, 14054662151397753612); (838488366986797800, 13415813871788764811);
    (802032351030850070, 4812194106185100421); (768614336404564650, 12297829382473034410);
    (737869762948382064, 11805916207174113034); (709490156681136600, 11351842506898185609);
    (683212743470724133, 17080318586768103348); (658812288346769700, 10540996613548315209);
    (636094623231363848, 15266270957552732371); (614891469123651720, 9838263505978427528);
    (595056260442243600, 9520900167075897608); (576460752303423487, 18446744073709551615);
    (558992244657865200, 8943875914525843207); (542551296285575047, 9765923333140350855);
    (527049830677415760, 8432797290838652167); (512409557603043100, 8198552921648689607) ].

Definition kVmaxOverBase_i128 : list int128 := map (fun p => MakeInt128 (fst p) (snd p))
  [
    (0, 0); (0, 0); (4611686018427387903, 18446744073709551615);
    (3074457345618258602, 12297829382473034410); (2305843009213693951, 18446744073709551615);
    (1844674407370955161, 11068046444225730969); (1537228672809129301, 6148914691236517205);
    (1317624576693539401, 2635249153387078802); (1152921504606846975, 18446744073709551615);
    (1024819115206086200, 16397105843297379214); (922337203685477580, 14757395258967641292);
    (838488366986797800, 13415813871788764811); (768614336404564650, 12297829382473034410);
    (709490156681136600, 11351842506898185609); (658812288346769700, 10540996613548315209);
    (614891469123651720, 9838263505978427528); (576460752303423487, 18446744073709551615);
    (542551296285575047, 9765923333140350855); (512409557603043100, 8198552921648689607);
    (485440633518672410, 17475862806672206794); (461168601842738790, 7378697629483820646);
    (439208192231179800, 7027331075698876806); (419244183493398900, 6707906935894382405);
    (401016175515425035, 2406097053092550210); (384307168202282325, 6148914691236517205);
    (368934881474191032, 5902958103587056517); (354745078340568300, 5675921253449092804);
    (341606371735362066, 17763531330238827482); (329406144173384850, 5270498306774157604);
    (318047311615681924, 7633135478776366185); (307445734561825860, 4919131752989213764);
    (297528130221121800, 4760450083537948804); (288230376151711743, 18446744073709551615);
    (279496122328932600, 4471937957262921603); (271275648142787523, 14106333703424951235);
    (263524915338707880, 4216398645419326083); (256204778801521550, 4099276460824344803) ].

Definition kVminOverBase_i128 : list int128 := map (fun p => MakeInt128 (fst p) (snd p))
  [
    (0, 0); (0, 0); ((-4611686018427387904), 0); ((-3074457345618258603), 6148914691236517206);
    ((-2305843009213693952), 0); ((-1844674407370955162), 7378697629483820647);
    ((-1537228672809129302), 12297829382473034411); ((-1317624576693539402), 15811494920322472814);
    ((-1152921504606846976), 0); ((-1024819115206086201), 2049638230412172402);
    ((-922337203685477581), 3689348814741910324); ((-838488366986797801), 5030930201920786805);
    ((-768614336404564651), 6148914691236517206); ((-709490156681136601), 7094901566811366007);
    ((-658812288346769701), 7905747460161236407); ((-614891469123651721), 8608480567731124088);
    ((-576460752303423488), 0); ((-542551296285575048), 8680820740569200761);
    ((-512409557603043101), 10248191152060862009); ((-485440633518672411), 970881267037344822);
    ((-461168601842738791), 11068046444225730970); ((-439208192231179801), 11419412998010674810);
    ((-419244183493398901), 11738837137815169211); ((-401016175515425036), 16040647020617001406);
    ((-384307168202282326), 12297829382473034411); ((-368934881474191033), 12543785970122495099);
    ((-354745078340568301), 12770822820260458812); ((-341606371735362067), 683212743470724134);
    ((-329406144173384851), 13176245766935394012); ((-318047311615681925), 10813608594933185431);
    ((-307445734561825861), 13527612320720337852); ((-297528130221121801), 13686293990171602812);
    ((-288230376151711744), 0); ((-279496122328932601), 13974806116446630013);
    ((-271275648142787524), 4340410370284600381); ((-263524915338707881), 14230345428290225533);
    ((-256204778801521551), 14347467612885206813) ].

Definition kVmaxOverBase (t : IntType) : list Z :=
  if width t =? 128 then (if is_signed t then map ival kVmaxOverBase_i128 else map uval kVmaxOverBase_u128)
  else X_OVER_BASE_INITIALIZER (int_max t).

Definition kVminOverBase (t : IntType) : list Z :=
  if width t =? 128 then map ival kVminOverBase_i128 else X_OVER_BASE_INITIALIZER (int_min t).

(** The "0x" of base 16. *)
Definition hex_prefix (text : list Z) : bool :=
  match text with
  | c :: d :: _ => (c =? chr "0") && ((d =? chr "x") || (d =? chr "X"))
  | _ => false
  end.

Definition empty (text : list Z) : bool := match text with [] => true | _ => false end.

(** The digits, the base and whether the sign is '-'; [None] is failure. A null view has no data. *)
Definition safe_parse_sign_and_base (data : option (list Z)) (base : Z) : option (list Z * Z * bool) :=
  do text <- data;
  let text := drop_while ascii_isspace text in
  let text := rev (drop_while ascii_isspace (rev text)) in
  do c <- hd_error text;
  let negative := c =? chr "-" in
  let text := if negative || (c =? chr "+") then tl text else text in
  if empty text then None
  else if base =? 0 then
    if hex_prefix text then
      let text := skipn 2 text in
      if empty text then None else Some (text, 16, negative)
    else if (hd 0 text =? chr "0") then Some (tl text, 8, negative)
    else Some (text, 10, negative)
  else if base =? 16 then
    if hex_prefix text then
      let text := skipn 2 text in
      if empty text then None else Some (text, 16, negative)
    else Some (text, base, negative)
  else if (2 <=? base) && (base <=? 36) then Some (text, base, negative)
  else None.

(** The result of a parse: the value stored and whether it succeeded; [None] when an operation of the loop
    has no defined result. *)
Fixpoint positive_loop (t : IntType) (base vmax_over_base : Z) (text : list Z) (value : Z) : option (Z * bool) :=
  match text with
  | [] => Some (value, true)
  | c :: text' =>
    do digit <- read kAsciiToInt c;
    if digit >=? base then Some (value, false)
    else if value >? vmax_over_base then Some (int_max t, false)
    else
      do value <- arith t (value * base);
      do room <- arith t (int_max t - digit);
      if value >? room then Some (int_max t, false)
      else
        do value <- arith t (value + digit);
        positive_loop t base vmax_over_base text' value
  end.

Definition safe_parse_positive_int (t : IntType) (text : list Z) (base : Z) : option (Z * bool) :=
  do vmax_over_base <- read (kVmaxOverBase t) base;
  positive_loop t base vmax_over_base text 0.

Fixpoint negative_loop (t : IntType) (base vmin_over_base : Z) (text : list Z) (value : Z) : option (Z * bool) :=
  match text with
  | [] => Some (value, true)
  | c :: text' =>
    do digit <- read kAsciiToInt c;
    if digit >=? base then Some (value, false)
    else if value <? vmin_over_base then Some (int_min t, false)
    else
      do value <- arith t (value * base);
      do room <- arith t (int_min t + digit);
      if value <? room then Some (int_min t, false)
      else
        do value <- arith t (value - digit);
        negative_loop t base vmin_over_base text' value
  end.

Definition safe_parse_negative_int (t : IntType) (text : list Z) (base : Z) : option (Z * bool) :=
  do vmin_over_base <- read (kVminOverBase t) base;
  let vmin_over_base := if Z.rem (int_min t) base >? 0 then vmin_over_base + 1 else vmin_over_base in
  negative_loop t base vmin_over_base text 0.

Definition safe_int_internal (t : IntType) (text : option (list Z)) (base : Z) : option (Z * bool) :=
  match safe_parse_sign_and_base text base with
  | None => Some (0, false)
  | Some (text, base, negative) =>
    if negb negative then safe_parse_positive_int t text base else safe_parse_negative_int t text base
  end.

Definition safe_uint_internal (t : IntType) (text : option (list Z)) (base : Z) : option (Z * bool) :=
  match safe_parse_sign_and_base text base with
  | None => Some (0, false)
  | Some (text, base, negative) =>
    if negative then Some (0, false) else safe_parse_positive_int t text base
  end.

Definition int_t (w : Z) : IntType := {| is_signed := true; width := w |}.
Definition uint_t (w : Z) : IntType := {| is_signed := false; width := w |}.

Definition safe_strto8_base := safe_int_internal (int_t 8).
Definition safe_strto16_base := safe_int_internal (int_t 16).
Definition safe_strto32_base := safe_int_internal (int_t 32).
Definition safe_strto64_base := safe_int_internal (int_t 64).
Definition safe_strto128_base := safe_int_internal (int_t 128).
Definition safe_strtou8_base := safe_uint_internal (uint_t 8).
Definition safe_strtou16_base := safe_uint_internal (uint_t 16).
Definition safe_strtou32_base := safe_uint_internal (uint_t 32).
Definition safe_strtou64_base := safe_uint_internal (uint_t 64).
Definition safe_strtou128_base := safe_uint_internal (uint_t 128).

(** [safe_strtoi_base]: the routine of the type's size and signedness. *)
Definition safe_strtoi_base (t : IntType) (s : option (list Z)) (base : Z) : option (Z * bool) :=
  if is_signed t then
    if width t =? 64 then safe_strto64_base s base
    else if width t =? 32 then safe_strto32_base s base
    else if width t =? 16 then safe_strto16_base s base
    else if width t =? 8 then safe_strto8_base s base
    else None
  else
    if width t =? 64 then safe_strtou64_base s base
    else if width t =? 32 then safe_strtou32_base s base
    else if width t =? 16 then safe_strtou16_base s base
    else if width t =? 8 then safe_strtou8_base s base
    else None.

Definition SimpleAtoi (t : IntType) (s : option (list Z)) : option (Z * bool) :=
  if width t =? 128 then (if is_signed t then safe_strto128_base s 10 else safe_strtou128_base s 10)
  else safe_strtoi_base t s 10.

Definition SimpleHexAtoi (t : IntType) (s : option (list Z)) : option (Z * bool) :=
  if width t =? 128 then (if is_signed t then safe_strto128_base s 16 else safe_strtou128_base s 16)
  else safe_strtoi_base t s 16.

(** ** The tables *)

(** The digit a character stands for, 36 when it is none. *)
Definition char_digit (c : Z) : Z :=
  if digit c then c - chr "0"
  else if alpha c then upper c - chr "A" + 10
  else 36.

Lemma kAsciiToInt_spec c : in_u 8 c -> read kAsciiToInt c = Some (char_digit c) /\ 0 <= char_digit c <= 36.
Proof.
  intros R. assert (C : (match read kAsciiToInt c with Some d => d =? char_digit c | None => false end)
    && (0 <=? char_digit c) && (char_digit c <=? 36) = true) by (revert c R; apply byte_check; vm_compute; reflexivity).
  destruct (read kAsciiToInt c) as [d|]; [|discriminate]. rewrite !andb_true_iff, Z.eqb_eq, !Z.leb_le in C.
  destruct C as ((-> & C1) & C2). auto.
Qed.

Definition std_type (t : IntType) : Prop :=
  width t = 8 \/ width t = 16 \/ width t = 32 \/ width t = 64 \/ width t = 128.

(** Every width and signedness, and every base, one by one. *)
Definition table_check (t : IntType) : bool :=
  forallb (fun b => let b := Z.of_nat b in
    match read (kVmaxOverBase t) b with Some q => q =? int_max t / b | None => false end
    && implb (is_signed t) (match read (kVminOverBase t) b with Some q => q =? - ((- int_min t) / b) | None => false end))
    (seq 2 35).

Lemma tables_correct t b : std_type t -> 2 <= b <= 36 ->
  read (kVmaxOverBase t) b = Some (int_max t / b) /\
  (is_signed t = true -> read (kVminOverBase t) b = Some (- ((- int_min t) / b))).
Proof.
  intros T B. assert (C : table_check t = true).
  { destruct t as [[] w]; unfold std_type in T; cbn [width] in T;
      destruct T as [-> |[-> |[-> |[-> | ->]]]]; vm_compute; reflexivity. }
  unfold table_check in C. rewrite forallb_forall in C. specialize (C (Z.to_nat b)).
  rewrite Z2Nat.id in C by lia. specialize (C ltac:(apply in_seq; lia)).
  destruct (read (kVmaxOverBase t) b) as [q|]; [|discriminate]. apply andb_true_iff in C as [C1 C2]. apply Z.eqb_eq in C1.
  split; [now rewrite C1|]. intros S. rewrite S in C2. cbn [implb] in C2.
  destruct (read (kVminOverBase t) b) as [p|]; [|discriminate]. apply Z.eqb_eq in C2. now rewrite C2.
Qed.

Lemma arith_fits t x : std_type t -> int_min t <= x <= int_max t -> arith t x = Some x.
Proof.
  intros T H. unfold arith, int_min, int_max in *. destruct (is_signed t).
  - apply checked_in. unfold in_s. lia.
  - f_equal. apply wrapu_small. lia.
Qed.

Lemma type_bounds t : std_type t -> 127 <= int_max t /\ int_min t <= 0 /\ (is_signed t = true -> int_min t <= -128).
Proof.
  unfold std_type, int_max, int_min. intros T. destruct t as [s w]; cbn [width is_signed] in *.
  destruct s, T as [-> |[-> |[-> |[-> | ->]]]]; cbn; lia.
Qed.

(** ** The digits *)

(** The longest run of digits of the base, and the rest. *)
Fixpoint number (base : Z) (text : list Z) : list Z * list Z :=
  match text with
  | [] => ([], [])
  | c :: text' =>
    if char_digit c <? base then (char_digit c :: fst (number base text'), snd (number base text'))
    else ([], text)
  end.

(** What is stored and returned for a magnitude: the value, or the limit when it does not fit. *)
Definition saturate_max (t : IntType) (v : Z) (done : bool) : Z * bool :=
  if v <=? int_max t then (v, done) else (int_max t, false).
Definition saturate_min (t : IntType) (v : Z) (done : bool) : Z * bool :=
  if int_min t <=? - v then (- v, done) else (int_min t, false).

Lemma number_digits base text : Forall (in_u 8) text -> Forall (fun d => 0 <= d < base) (fst (number base text)).
Proof.
  induction 1 as [|c text R _ IH]; cbn; [constructor|]. destruct (_ <? base) eqn:E; cbn; [|constructor]. zbool.
  pose proof (kAsciiToInt_spec c R). constructor; [lia|exact IH].
Qed.

Lemma positive_loop_spec t base text value : std_type t -> 2 <= base <= 36 -> Forall (in_u 8) text ->
  0 <= value <= int_max t ->
  positive_loop t base (int_max t / base) text value =
  Some (saturate_max t (fold_left (fun v d => v * base + d) (fst (number base text)) value) (empty (snd (number base text)))).
Proof.
  intros T B F. revert value. pose proof (type_bounds t T) as (Hmax & Hmin & _).
  induction F as [|c text R F IH]; intros value V; cbn [positive_loop number fst snd fold_left].
  - unfold saturate_max. now rewrite (proj2 (Z.leb_le _ _)) by lia.
  - destruct (kAsciiToInt_spec c R) as (-> & D). cbn [obind]. rewrite Z.geb_leb.
    destruct (Z.ltb_spec (char_digit c) base) as [C|C]; [rewrite (proj2 (Z.leb_gt _ _)) by lia|rewrite (proj2 (Z.leb_le _ _)) by lia].
    2: { cbn [fst snd fold_left]. unfold saturate_max. now rewrite (proj2 (Z.leb_le _ _)) by lia. }
    cbn [fst snd fold_left]. rewrite !Z.gtb_ltb.
    assert (Big : int_max t < value * base + char_digit c ->
      saturate_max t (fold_left (fun v d => v * base + d) (fst (number base text)) (value * base + char_digit c)) (empty (snd (number base text)))
      = (int_max t, false)).
    { intros G. unfold saturate_max. pose proof (number_digits base text F) as N.
      rewrite digits_val_acc. pose proof (digits_val_range base ltac:(lia) _ N).
      rewrite (proj2 (Z.leb_gt _ _)); [reflexivity|].
      pose proof (Z.pow_pos_nonneg base (Z.of_nat (length (fst (number base text)))) ltac:(lia) ltac:(lia)).
      nia. }
    pose proof (Z.div_mod (int_max t) base ltac:(lia)) as DM. pose proof (Z.mod_pos_bound (int_max t) base ltac:(lia)) as MB.
    destruct (Z.ltb_spec (int_max t / base) value) as [Q|Q].
    { rewrite Big by nia. reflexivity. }
    rewrite arith_fits by (auto; nia). cbn [obind]. rewrite arith_fits by (auto; lia). cbn [obind]. rewrite Z.gtb_ltb.
    destruct (Z.ltb_spec (int_max t - char_digit c) (value * base)) as [Q'|Q']; [rewrite Big by lia; reflexivity|].
    rewrite arith_fits by (auto; nia). cbn [obind]. apply IH. nia.
Qed.

Lemma negative_loop_spec t base text m : std_type t -> is_signed t = true -> 2 <= base <= 36 -> Forall (in_u 8) text ->
  0 <= m <= - int_min t ->
  negative_loop t base (- ((- int_min t) / base)) text (- m) =
  Some (saturate_min t (fold_left (fun v d => v * base + d) (fst (number base text)) m) (empty (snd (number base text)))).
Proof.
  intros T S B F. revert m. pose proof (type_bounds t T) as (Hmax & Hmin & Hs). specialize (Hs S).
  induction F as [|c text R F IH]; intros m V; cbn [negative_loop number fst snd fold_left].
  - unfold saturate_min. now rewrite (proj2 (Z.leb_le _ _)) by lia.
  - destruct (kAsciiToInt_spec c R) as (-> & D). cbn [obind]. rewrite Z.geb_leb.
    destruct (Z.ltb_spec (char_digit c) base) as [C|C]; [rewrite (proj2 (Z.leb_gt _ _)) by lia|rewrite (proj2 (Z.leb_le _ _)) by lia].
    2: { cbn [fst snd fold_left]. unfold saturate_min. now rewrite (proj2 (Z.leb_le _ _)) by lia. }
    cbn [fst snd fold_left].
    assert (Big : - int_min t < m * base + char_digit c ->
      saturate_min t (fold_left (fun v d => v * base + d) (fst (number base text)) (m * base + char_digit c)) (empty (snd (number base text)))
      = (int_min t, false)).
    { intros G. unfold saturate_min. pose proof (number_digits base text F) as N.
      rewrite digits_val_acc. pose proof (digits_val_range base ltac:(lia) _ N).
      rewrite (proj2 (Z.leb_gt _ _)); [reflexivity|].
      pose proof (Z.pow_pos_nonneg base (Z.of_nat (length (fst (number base text)))) ltac:(lia) ltac:(lia)).
      nia. }
    pose proof (Z.div_mod (- int_min t) base ltac:(lia)) as DM. pose proof (Z.mod_pos_bound (- int_min t) base ltac:(lia)) as MB.
    destruct (Z.ltb_spec (- m) (- ((- int_min t) / base))) as [Q|Q].
    { rewrite Big by nia. reflexivity. }
    rewrite arith_fits by (auto; nia). cbn [obind]. rewrite arith_fits by (auto; lia). cbn [obind].
    destruct (Z.ltb_spec (- m * base) (int_min t + char_digit c)) as [Q'|Q']; [rewrite Big by lia; reflexivity|].
    rewrite arith_fits by (auto; nia). cbn [obind].
    replace (- m * base - char_digit c) with (- (m * base + char_digit c)) by lia. apply IH. nia.
Qed.

Definition bytes (text : list Z) : Prop := Forall (in_u 8) text.

Lemma positive_spec t base text : std_type t -> 2 <= base <= 36 -> bytes text ->
  safe_parse_positive_int t text base =
  Some (saturate_max t (digits_val base (fst (number base text))) (empty (snd (number base text)))).
Proof.
  intros T B F. unfold safe_parse_positive_int. rewrite (proj1 (tables_correct t base T B)). cbn [obind].
  apply positive_loop_spec; auto. pose proof (type_bounds t T). lia.
Qed.

Lemma negative_spec t base text : std_type t -> is_signed t = true -> 2 <= base <= 36 -> bytes text ->
  safe_parse_negative_int t text base =
  Some (saturate_min t (digits_val base (fst (number base text))) (empty (snd (number base text)))).
Proof.
  intros T S B F. pose proof (type_bounds t T) as (_ & Hmin & _).
  unfold safe_parse_negative_int. rewrite (proj2 (tables_correct t base T B) S). cbn [obind].
  (* the remainder of C++ has the sign of the dividend *)
  replace (Z.rem (int_min t) base >? 0) with false
    by (symmetry; rewrite Z.gtb_ltb; apply Z.ltb_ge; pose proof (Z.rem_nonpos (int_min t) base ltac:(lia) Hmin); lia).
  apply (negative_loop_spec t base text 0); auto. lia.
Qed.

(** ** Signs and prefixes *)

(** A sign: its text and whether it is negative. *)
Definition sign_text (sign : list Z) (negative : bool) : Prop :=
  (sign = [chr "-"] /\ negative = true) \/ ((sign = [chr "+"] \/ sign = []) /\ negative = false).

(** A prefix: its text and the base of the digits after it. *)
Definition prefix_text (base : Z) (prefix body : list Z) (b : Z) : Prop :=
  (prefix = [chr "0"; chr "x"] \/ prefix = [chr "0"; chr "X"]) /\ (base = 0 \/ base = 16) /\ b = 16 /\ body <> [] \/
  prefix = [chr "0"] /\ base = 0 /\ b = 8 \/
  prefix = [] /\ body <> [] /\ (base = 0 /\ b = 10 /\ hd 0 body <> chr "0" \/ 2 <= base <= 36 /\ b = base).

(** Texts that are refused before any digit is read. *)
Definition no_number (base : Z) (s : list Z) : Prop :=
  exists sign neg rest, s = sign ++ rest /\ sign_text sign neg /\
  (rest = [] \/ ~ (base = 0 \/ 2 <= base <= 36) \/
   ((rest = [chr "0"; chr "x"] \/ rest = [chr "0"; chr "X"]) /\ (base = 0 \/ base = 16))).

Definition signed_rest (s : list Z) : option (list Z * bool) :=
  do c <- hd_error s;
  Some (if (c =? chr "-") || (c =? chr "+") then tl s else s, c =? chr "-").

Lemma signed_rest_spec s rest neg : signed_rest s = Some (rest, neg) ->
  exists sign, s = sign ++ rest /\ sign_text sign neg.
Proof.
  destruct s as [|c s]; [discriminate|]. cbn [signed_rest hd_error obind tl]. unfold sign_text.
  destruct (Z.eqb_spec c (chr "-")) as [-> |N]; cbn [orb].
  - intros E. injection E as <- <-. exists [chr "-"]. auto.
  - destruct (Z.eqb_spec c (chr "+")) as [-> |P]; intros E; injection E as <- <-.
    + exists [chr "+"]. auto.
    + exists []. auto.
Qed.

Lemma hex_prefix_spec text : hex_prefix text = true ->
  exists prefix, text = prefix ++ skipn 2 text /\ (prefix = [chr "0"; chr "x"] \/ prefix = [chr "0"; chr "X"]).
Proof.
  destruct text as [|c [|d text]]; try discriminate. cbn [hex_prefix skipn].
  rewrite andb_true_iff, orb_true_iff, !Z.eqb_eq. intros (-> & [-> | ->]); [exists [chr "0"; chr "x"]|exists [chr "0"; chr "X"]]; auto.
Qed.

Lemma empty_text text : empty text = true <-> text = [].
Proof. destruct text; cbn; split; congruence. Qed.

Lemma sign_and_base_eq text base : safe_parse_sign_and_base (Some text) base =
  do (rest, negative) <- signed_rest (StripAsciiWhitespace text);
  if empty rest then None
  else if base =? 0 then
    if hex_prefix rest then if empty (skipn 2 rest) then None else Some (skipn 2 rest, 16, negative)
    else if hd 0 rest =? chr "0" then Some (tl rest, 8, negative)
    else Some (rest, 10, negative)
  else if base =? 16 then
    if hex_prefix rest then if empty (skipn 2 rest) then None else Some (skipn 2 rest, 16, negative)
    else Some (rest, base, negative)
  else if (2 <=? base) && (base <=? 36) then Some (rest, base, negative)
  else None.
Proof.
  unfold safe_parse_sign_and_base, signed_rest. cbn [obind].
  change (rev (drop_while ascii_isspace (rev (drop_while ascii_isspace text)))) with (StripAsciiWhitespace text).
  now destruct (hd_error (StripAsciiWhitespace text)).
Qed.

(** The "0x" cases of both bases. *)
Lemma hex_case base rest negative sign s : base = 0 \/ base = 16 -> s = sign ++ rest -> sign_text sign negative ->
  hex_prefix rest = true ->
  match (if empty (skipn 2 rest) then None else Some (skipn 2 rest, 16, negative)) with
  | None => no_number base s
  | Some (body, b, neg) => exists sign prefix, s = sign ++ prefix ++ body /\ sign_text sign neg /\ prefix_text base prefix body b
  end.
Proof.
  intros B E S H. destruct (hex_prefix_spec rest H) as (prefix & P & X). destruct (empty (skipn 2 rest)) eqn:N.
  - apply empty_text in N. rewrite N, app_nil_r in P. exists sign, negative, rest. subst rest. auto 10.
  - exists sign, prefix. rewrite E, P at 1. repeat split; auto. left. repeat split; auto.
    intros C. apply empty_text in C. congruence.
Qed.

Lemma sign_and_base_spec text base :
  match safe_parse_sign_and_base (Some text) base with
  | None => no_number base (StripAsciiWhitespace text)
  | Some (body, b, neg) => exists sign prefix,
      StripAsciiWhitespace text = sign ++ prefix ++ body /\ sign_text sign neg /\ prefix_text base prefix body b
  end.
Proof.
  rewrite sign_and_base_eq. set (s := StripAsciiWhitespace text).
  destruct (signed_rest s) as [[rest neg]|] eqn:SR; cbn [obind].
  2: { destruct s; [|discriminate]. exists [], false, []. unfold sign_text. auto 10. }
  destruct (signed_rest_spec s rest neg SR) as (sign & E & S).
  destruct (empty rest) eqn:N; [apply empty_text in N; exists sign, neg, rest; auto 10|].
  assert (Ne : rest <> []) by (intros C; apply empty_text in C; congruence).
  destruct (Z.eqb_spec base 0) as [B|B]; [|destruct (Z.eqb_spec base 16) as [B'|B']].
  - destruct (hex_prefix rest) eqn:H; [now apply (hex_case base rest neg sign); auto|].
    destruct rest as [|c rest]; [congruence|]. cbn [hd tl]. destruct (Z.eqb_spec c (chr "0")) as [-> |C].
    + exists sign, [chr "0"]. unfold prefix_text. auto 10.
    + exists sign, []. unfold prefix_text. cbn [hd]. auto 10.
  - destruct (hex_prefix rest) eqn:H; [now apply (hex_case base rest neg sign); auto|].
    exists sign, []. split; [exact E|]. split; [exact S|]. right. right. split; [reflexivity|]. split; [exact Ne|]. lia.
  - case_if; zbool.
    + exists sign, []. split; [exact E|]. split; [exact S|]. right. right. split; [reflexivity|]. split; [exact Ne|]. lia.
    + exists sign, neg, rest. repeat split; auto. right. left. lia.
Qed.

Lemma prefix_base base prefix body b : prefix_text base prefix body b -> 2 <= b <= 36.
Proof. unfold prefix_text. intuition lia. Qed.

Lemma Forall_tail (P : Z -> Prop) a b c : Forall P (a ++ b ++ c) -> Forall P c.
Proof. rewrite !Forall_app. tauto. Qed.

Lemma strip_bytes text : bytes text -> bytes (StripAsciiWhitespace text).
Proof.
  intros F. destruct (strip_spec text) as (pre & post & E & _). unfold bytes in *. rewrite E, !Forall_app in F. tauto.
Qed.

(** The result for a number with its sign, at a type. *)
Definition saturate (t : IntType) (negative : bool) (v : Z) (done : bool) : Z * bool :=
  if negative then saturate_min t v done else saturate_max t v done.

(** C29: [safe_strto*_base] on every text and base, at every integer type from 8 to 128 bits: the digit table
    and the precomputed quotients are right, no operation of the loops overflows, and the text without its
    surrounding whitespace is either refused because it holds no number (only a sign, only "0x", or the base
    is invalid), or is a sign, a prefix that fixes the base, and a body, and then the longest run of digits of
    the body is read: the value that is stored is the number, or the limit of the type it passes, and the
    call succeeds exactly when the number fits and all of the body was digits. Unsigned types refuse '-'. *)
Theorem safe_parse_correct t text base : std_type t -> bytes text ->
  let s := StripAsciiWhitespace text in
  (safe_parse_sign_and_base (Some text) base = None /\ no_number base s /\
   safe_int_internal t (Some text) base = Some (0, false) /\ safe_uint_internal t (Some text) base = Some (0, false)) \/
  (exists sign prefix body b negative, s = sign ++ prefix ++ body /\
   sign_text sign negative /\ prefix_text base prefix body b /\
   let v := digits_val b (fst (number b body)) in
   let done := empty (snd (number b body)) in
   (is_signed t = true -> safe_int_internal t (Some text) base = Some (saturate t negative v done)) /\
   safe_uint_internal t (Some text) base = Some (if negative then (0, false) else saturate t false v done)).
Proof.
  intros T F s. pose proof (sign_and_base_spec text base) as P. fold s in P.
  unfold safe_int_internal, safe_uint_internal. destruct (safe_parse_sign_and_base _ _) as [[[body b] neg]|]; [right|left; auto].
  destruct P as (sign & prefix & E & S & X). exists sign, prefix, body, b, neg. split; [exact E|]. split; [exact S|].
  split; [exact X|]. pose proof (prefix_base _ _ _ _ X) as B.
  assert (Fb : bytes body) by (pose proof (strip_bytes text F) as Fs; fold s in Fs; rewrite E in Fs; exact (Forall_tail _ _ _ _ Fs)).
  cbv zeta. unfold saturate. destruct neg; cbn [negb]; split; intros; auto using positive_spec, negative_spec.
Qed.

Lemma safe_parse_correct_witness :
  exists sign prefix body b negative,
    StripAsciiWhitespace (str " -0x8000000g ") = sign ++ prefix ++ body /\
    sign_text sign negative /\ prefix_text 0 prefix body b /\
    safe_strto32_base (Some (str " -0x8000000g ")) 0 =
    Some (saturate (int_t 32) negative (digits_val b (fst (number b body))) (empty (snd (number b body)))).
Proof.
  destruct (safe_parse_correct (int_t 32) (str " -0x8000000g ") 0) as [(E & _)|(sign & prefix & body & b & neg & E & S & P & Q & _)].
  - unfold std_type. cbn. auto.
  - repeat (constructor; [split; [discriminate|reflexivity]|]). constructor.
  - vm_compute in E. discriminate.
  - exists sign, prefix, body, b, neg. auto.
Defined.

(** ** Round trip *)
Lemma drop_while_all p a b : forallb p a = true -> drop_while p (a ++ b) = drop_while p b.
Proof. induction a as [|c a IH]; cbn; [auto|]. destruct (p c); [exact IH|discriminate]. Qed.

Lemma drop_while_none p a : forallb (fun c => negb (p c)) a = true -> drop_while p a = a.
Proof. destruct a as [|c a]; cbn; [auto|]. now destruct (p c). Qed.

Lemma strip_around ws s ws' : forallb ascii_isspace ws = true -> forallb ascii_isspace ws' = true ->
  s <> [] -> forallb (fun c => negb (ascii_isspace c)) s = true -> StripAsciiWhitespace (ws ++ s ++ ws') = s.
Proof.
  intros W W' N F. unfold StripAsciiWhitespace, StripTrailingAsciiWhitespace, StripLeadingAsciiWhitespace.
  rewrite drop_while_all by exact W.
  assert (E : drop_while ascii_isspace (s ++ ws') = s ++ ws').
  { destruct s as [|c s]; [congruence|]. cbn in *. now destruct (ascii_isspace c). }
  assert (R : forall p (l : list Z), forallb p (rev l) = forallb p l).
  { intros p l. induction l as [|c l IH]; [reflexivity|]. cbn. rewrite forallb_app, IH. cbn. rewrite andb_true_r. apply andb_comm. }
  rewrite E, rev_app_distr, drop_while_all by (rewrite R; exact W').
  rewrite drop_while_none by (rewrite R; exact F). apply rev_involutive.
Qed.

Lemma number_dec ds : Forall decimal ds -> number 10 (dec_text ds) = (ds, []).
Proof.
  unfold decimal. induction 1 as [|d ds D _ IH]; [reflexivity|]. unfold dec_text in *. cbn [map number].
  assert (E : char_digit (chr "0" + d) = d).
  { unfold char_digit, digit, in_range. change (chr "0") with 48. change (chr "9") with 57.
    rewrite (proj2 (Z.leb_le _ _)), (proj2 (Z.leb_le _ _)) by lia. cbn [andb]. lia. }
  rewrite E, (proj2 (Z.ltb_lt _ _)), IH by lia. reflexivity.
Qed.

Lemma dec_not_space ds : Forall decimal ds -> forallb (fun c => negb (ascii_isspace c)) (dec_text ds) = true.
Proof.
  intros F. apply forallb_forall. intros c I. unfold dec_text in I. apply in_map_iff in I as (d & <- & I).
  rewrite Forall_forall in F. specialize (F d I). unfold decimal in F.
  assert (C : d = 0 \/ d = 1 \/ d = 2 \/ d = 3 \/ d = 4 \/ d = 5 \/ d = 6 \/ d = 7 \/ d = 8 \/ d = 9) by lia.
  repeat destruct C as [-> |C]; try reflexivity. now rewrite C.
Qed.

Lemma digits_decimal n : 0 <= n -> Forall decimal (digits 10 n).
Proof. intros H. apply (digits_digit 10); lia. Qed.

Lemma parse_int_text i ws ws' : forallb ascii_isspace ws = true -> forallb ascii_isspace ws' = true ->
  safe_parse_sign_and_base (Some (ws ++ int_text i ++ ws')) 10 = Some (dec_text (digits 10 (Z.abs i)), 10, i <? 0).
Proof.
  intros W W'. rewrite sign_and_base_eq. pose proof (digits_decimal (Z.abs i) ltac:(lia)) as F.
  pose proof (dec_not_space _ F) as NS. pose proof (digits_length_pos (Z.abs i) ltac:(lia)) as L.
  rewrite strip_around; auto.
  - unfold int_text. destruct (digits 10 (Z.abs i)) as [|d ds]; [cbn in L; lia|].
    assert (D : 0 <= d < 10) by now inversion F. destruct (i <? 0); cbn [app dec_text map signed_rest hd_error obind tl]; [reflexivity|].
    change (chr "0") with 48. change (chr "-") with 45. change (chr "+") with 43.
    rewrite (proj2 (Z.eqb_neq _ _)), (proj2 (Z.eqb_neq _ _)) by lia. reflexivity.
  - unfold int_text. destruct (digits 10 (Z.abs i)); [cbn in L; lia|]. now destruct (i <? 0).
  - unfold int_text. rewrite forallb_app, NS. now destruct (i <? 0).
Qed.

Lemma int_roundtrip t i text : std_type t -> int_min t <= i <= int_max t ->
  safe_parse_sign_and_base text 10 = Some (dec_text (digits 10 (Z.abs i)), 10, i <? 0) ->
  (if is_signed t then safe_int_internal t text 10 else safe_uint_internal t text 10) = Some (i, true).
Proof.
  intros T R E. unfold safe_int_internal, safe_uint_internal. rewrite E.
  pose proof (digits_decimal (Z.abs i) ltac:(lia)) as F. pose proof (dec_text_bytes _ F) as Fb.
  pose proof (number_dec _ F) as N.
  destruct (Z.ltb_spec i 0) as [C|C]; cbn [negb].
  - destruct (is_signed t) eqn:S; [|unfold int_min in R; rewrite S in R; lia].
    rewrite negative_spec by (auto; lia). rewrite N. cbn [fst snd empty]. rewrite digits_val_digits by lia. unfold saturate_min.
    rewrite Z.abs_neq by lia. rewrite (proj2 (Z.leb_le _ _)) by lia. do 2 f_equal. lia.
  - rewrite positive_spec by (auto; lia). rewrite N. cbn [fst snd empty]. rewrite digits_val_digits by lia. unfold saturate_max.
    rewrite Z.abs_eq by lia. rewrite (proj2 (Z.leb_le _ _)) by lia. now destruct (is_signed t).
Qed.

(** Printing and parsing are inverse at every integer type: whatever buffer holds the text that the
    printing routines are proved to leave there, [SimpleAtoi] reads the same number back from it, also with
    whitespace around it, and for the limits of the type. *)
Lemma print_parse_roundtrip t i size w ws ws' :
  std_type t -> int_min t <= i <= int_max t -> holds_text size w (int_text i) ->
  forallb ascii_isspace ws = true -> forallb ascii_isspace ws' = true ->
  exists buf n, w = Some (buf, Z.of_nat n) /\ SimpleAtoi t (Some (ws ++ firstn n buf ++ ws')) = Some (i, true).
Proof.
  intros T R (buf & E & F & _) W W'. exists buf, (length (int_text i)). split; [exact E|].
  assert (X : firstn (length (int_text i)) buf = int_text i).
  { pose proof (firstn_firstn buf (length (int_text i)) (S (length (int_text i)))) as M. rewrite Nat.min_l in M by lia.
    rewrite <- M, F, firstn_app, firstn_all, Nat.sub_diag. apply app_nil_r. }
  rewrite X. pose proof (int_roundtrip t i _ T R (parse_int_text i ws ws' W W')) as P.
  unfold SimpleAtoi, safe_strtoi_base. destruct t as [s wd]. unfold std_type in T. cbn [width is_signed] in *.
  destruct s, T as [-> |[-> |[-> |[-> | ->]]]]; exact P.
Qed.

Lemma print_parse_roundtrip_witness :
  exists buf n, FastIntToBuffer_i64 little (-9223372036854775808) (repeat 7 32) = Some (buf, Z.of_nat n) /\
  SimpleAtoi (int_t 64) (Some (str " " ++ firstn n buf ++ [])) = Some (-9223372036854775808, true).
Proof.
  apply (print_parse_roundtrip (int_t 64) (-9223372036854775808) 32).
  - unfold std_type. cbn. auto.
  - split; discriminate.
  - eexists. split; [vm_compute; reflexivity|]. split; vm_compute; reflexivity.
  - reflexivity.
  - reflexivity.
Defined.
