(* ===== verification/StrMatch.v ===== *)
(** Searching without regard to case, [strings/match.cc] and [strings/internal/memutil.cc]: comparison,
    the Boyer-Moore-Horspool search with its shift table and the short searches it replaces, and the common
    prefix found a word at a time. Strings are lists of bytes, positions are of type [size_t], and a read
    outside the string has no result. *)
From Stdlib Require Import Ascii String.
From Stdlib Require Import ZArith Lia List Bool.
From S2P Require Import Prelude Bits Endian AsciiChars.
Import ListNotations.
#[local] Open Scope Z_scope.
#[local] Open Scope mach_scope.

Definition size (s : list Z) : Z := Z.of_nat (length s).

(** [string_view::substr]: it throws when [pos] is past the end. *)
Definition substr (s : list Z) (pos n : Z) : option (list Z) :=
  if pos <=? size s then Some (firstn (Z.to_nat n) (skipn (Z.to_nat pos) s)) else None.

(** Without a count, to the end. *)
Definition substr_from (s : list Z) (pos : Z) : option (list Z) :=
  if pos <=? size s then Some (skipn (Z.to_nat pos) s) else None.

Fixpoint memcasecmp (s1 s2 : list Z) (len : nat) : option Z :=
  match len with
  | O => Some 0
  | S len' =>
    match s1, s2 with
    | c1 :: s1', c2 :: s2' =>
      if negb (c1 =? c2) then
        let c1 := if (c1 >=? chr "A") && (c1 <=? chr "Z") then c1 - chr "A" + chr "a" else c1 in
        let c2 := if (c2 >=? chr "A") && (c2 <=? chr "Z") then c2 - chr "A" + chr "a" else c2 in
        let diff := c1 - c2 in
        if negb (diff =? 0) then Some diff else memcasecmp s1' s2' len'
      else memcasecmp s1' s2' len'
    | _, _ => None
    end
  end.

Definition EqualsIgnoreCase (piece1 piece2 : list Z) : option bool :=
  if size piece1 =? size piece2 then
    do d <- memcasecmp piece1 piece2 (length piece1);
    Some (0 =? d)
  else Some false.

(** The loop that fills the table from the needle, from index [i]. *)
Fixpoint shift_loop (m : Z) (needle : list Z) (i : Z) (shift : list Z) : option (list Z) :=
  match needle with
  | [] => Some shift
  | c :: needle' =>
    if i <? m -[64] 1 then
      do shift <- write shift (ascii_tolower c) (m -[64] 1 -[64] i);
      do shift <- write shift (ascii_toupper c) (m -[64] 1 -[64] i);
      shift_loop m needle' (i +[64] 1) shift
    else Some shift
  end.

Definition same_letter (a b : Z) : bool := (a =? b) || (ascii_tolower a =? ascii_tolower b).

(** Is the window at [pos] a match, last character first. *)
Definition window_matches (haystack needle : list Z) (m pos : Z) : option bool :=
  do last_hay <- read haystack (pos +[64] m -[64] 1);
  do last_needle <- read needle (m -[64] 1);
  if same_letter last_hay last_needle then
    do first_hay <- read haystack pos;
    do first_needle <- read needle 0;
    if same_letter first_hay first_needle then
      do hay <- substr haystack (pos +[64] 1) (m -[64] 2);
      do inner <- substr needle 1 (m -[64] 2);
      EqualsIgnoreCase hay inner
    else Some false
  else Some false.

(** [while (pos <= n - m)]; every round advances, so [n + 1] rounds are enough. *)
Fixpoint bmh_loop (fuel : nat) (haystack needle : list Z) (n m : Z) (shift : list Z) (pos : Z) : option bool :=
  match fuel with
  | O => None
  | S fuel' =>
    if pos <=? n -[64] m then
      do found <- window_matches haystack needle m pos;
      if found then Some true
      else
        do last_hay <- read haystack (pos +[64] m -[64] 1);
        do s <- read shift last_hay;
        bmh_loop fuel' haystack needle n m shift (pos +[64] s)
    else Some false
  end.

Definition StrContainsIgnoreCaseBMH (haystack needle : list Z) : option bool :=
  let n := size haystack in
  let m := size needle in
  do shift <- shift_loop m needle 0 (repeat m 256);
  bmh_loop (S (length haystack)) haystack needle n m shift 0.

(** [string_view::find] of a character and [find_first_of] of a set of them. *)
Definition find_char (s : list Z) (c : Z) : bool := existsb (Z.eqb c) s.
Definition find_first_of (s cs : list Z) : bool := existsb (fun c => existsb (Z.eqb c) cs) s.

Definition StrContainsIgnoreCase_char (haystack : list Z) (needle : Z) : bool :=
  let upper_needle := ascii_toupper needle in
  let lower_needle := ascii_tolower needle in
  if upper_needle =? lower_needle then find_char haystack needle
  else if size haystack <? 64 then existsb (fun c => (c =? lower_needle) || (c =? upper_needle)) haystack
  else find_first_of haystack [lower_needle; upper_needle].

(** The scan with the prefilter on both ends. *)
Fixpoint scan_loop (fuel : nat) (haystack needle : list Z) (n m first_needle last_needle pos : Z) : option bool :=
  match fuel with
  | O => None
  | S fuel' =>
    if pos <=? n -[64] m then
      let continue_ := scan_loop fuel' haystack needle n m first_needle last_needle (pos +[64] 1) in
      do first_hay <- read haystack pos;
      if negb (ascii_tolower first_hay =? first_needle) then continue_
      else
        do last_hay <- read haystack (pos +[64] m -[64] 1);
        if negb (ascii_tolower last_hay =? last_needle) then continue_
        else
          do found <-
            (if m =? 2 then Some true
             else
               do hay <- substr haystack (pos +[64] 1) (m -[64] 2);
               do inner <- substr needle 1 (m -[64] 2);
               EqualsIgnoreCase hay inner);
          if found then Some true else continue_
    else Some false
  end.

Definition StrContainsIgnoreCase (haystack needle : list Z) : option bool :=
  let n := size haystack in
  let m := size needle in
  if m =? 0 then Some true
  else if n <? m then Some false
  else if m =? 1 then do c <- read needle 0; Some (StrContainsIgnoreCase_char haystack c)
  else if (n <? 256) || (m =? 2) then
    do first <- read needle 0;
    do last <- read needle (m -[64] 1);
    scan_loop (S (length haystack)) haystack needle n m (ascii_tolower first) (ascii_tolower last) 0
  else StrContainsIgnoreCaseBMH haystack needle.

Definition StartsWithIgnoreCase (text prefix : list Z) : option bool :=
  if size text >=? size prefix then
    do p <- substr text 0 (size prefix);
    EqualsIgnoreCase p prefix
  else Some false.

Definition EndsWithIgnoreCase (text suffix : list Z) : option bool :=
  if size text >=? size suffix then
    do p <- substr_from text (size text -[64] size suffix);
    EqualsIgnoreCase p suffix
  else Some false.

(** ** Common prefixes and suffixes *)

(** [little_endian::Load16] and [Load64] at an offset. *)
Definition load (host : endian) (n : nat) (p : list Z) (off : Z) : option Z :=
  if (0 <=? off) && (off + Z.of_nat n <=? size p) then Some (little_endian.Load host n (skipn (Z.to_nat off) p)) else None.

(** The loop for short strings; the result is the length of the prefix. *)
Fixpoint prefix_short (fuel : nat) (host : endian) (pa pb : list Z) (limit count : Z) : option Z :=
  match fuel with
  | O => None
  | S fuel' =>
    if count +[64] 2 <=? limit then
      do x <- load host 2 pa count;
      do y <- load host 2 pb count;
      let xor_bytes := x .^ y in
      if negb (xor_bytes =? 0) then
        Some (if (xor_bytes .& 0xff) =? 0 then count +[64] 1 else count)
      else prefix_short fuel' host pa pb limit (count +[64] 2)
    else if negb (count =? limit) then
      do x <- read pa count;
      do y <- read pb count;
      Some (if x =? y then count +[64] 1 else count)
    else Some count
  end.

(** The length when the words at [count] differ. *)
Definition word_step (host : endian) (pa pb : list Z) (count : Z) : option (option Z) :=
  do x <- load host 8 pa count;
  do y <- load host 8 pb count;
  let xor_bytes := x .^ y in
  Some (if negb (xor_bytes =? 0) then Some (count +[64] (countr_zero 64 xor_bytes >> 3)) else None).

(** [do ... while (count + 8 < limit)]: the length, or [None] inside when the loop ends. *)
Fixpoint prefix_words (fuel : nat) (host : endian) (pa pb : list Z) (limit count : Z) : option (option Z) :=
  match fuel with
  | O => None
  | S fuel' =>
    do r <- word_step host pa pb count;
    match r with
    | Some count => Some (Some count)
    | None =>
      let count := count +[64] 8 in
      if count +[64] 8 <? limit then prefix_words fuel' host pa pb limit count else Some None
    end
  end.

Definition FindLongestCommonPrefix (host : endian) (a b : list Z) : option (list Z) :=
  let limit := Z.min (size a) (size b) in
  do count <-
    (if limit <? 8 then prefix_short 5 host a b limit 0
     else
       do r <- prefix_words (length a) host a b limit 0;
       match r with
       | Some count => Some count
       | None =>
         do r <- word_step host a b (limit -[64] 8);
         Some (match r with Some count => count | None => limit end)
       end);
  Some (firstn (Z.to_nat count) a).

(** The suffix, as a view into [a] from where [pa] stopped. *)
Fixpoint suffix_loop (fuel : nat) (a b : list Z) (limit count pa pb : Z) : option (Z * Z) :=
  if count <? limit then
    match fuel with
    | O => None
    | S fuel' =>
      do x <- read a pa;
      do y <- read b pb;
      if x =? y then suffix_loop fuel' a b limit (count +[64] 1) (pa - 1) (pb - 1) else Some (pa, count)
    end
  else Some (pa, count).

Definition FindLongestCommonSuffix (a b : list Z) : option (list Z) :=
  let limit := Z.min (size a) (size b) in
  if limit =? 0 then Some []
  else
    do (pa, count) <- suffix_loop (length a) a b limit 0 (size a - 1) (size b - 1);
    substr a (pa + 1) count.

(** ** Comparison *)
Definition caseless (a b : list Z) : Prop := map lower a = map lower b.

Lemma memcasecmp_spec a : forall b, length a = length b ->
  exists d, memcasecmp a b (length a) = Some d /\ (d = 0 <-> caseless a b).
Proof.
  unfold caseless. induction a as [|c a IH]; intros [|e b] L; try discriminate; [exists 0; tauto|].
  cbn [length memcasecmp map]. injection L as L. destruct (IH b L) as (d & E & H).
  assert (Lo : forall x, (if (x >=? chr "A") && (x <=? chr "Z") then x - chr "A" + chr "a" else x) = lower x).
  { intros x. unfold lower, in_range. rewrite Z.geb_leb. change (chr "A") with 65. change (chr "a") with 97. case_if; lia. }
  rewrite !Lo. destruct (Z.eqb_spec c e) as [-> |N]; cbn [negb].
  - exists d. split; [exact E|]. rewrite H. split; congruence.
  - destruct (Z.eqb_spec (lower c - lower e) 0) as [D|D]; cbn [negb].
    + exists d. split; [exact E|]. rewrite H. split; [intros ->; f_equal; lia|congruence].
    + exists (lower c - lower e). split; [reflexivity|]. split; [lia|]. intros X. injection X. lia.
Qed.

Lemma EqualsIgnoreCase_spec a b : exists r, EqualsIgnoreCase a b = Some r /\ (r = true <-> caseless a b).
Proof.
  unfold EqualsIgnoreCase, size. destruct (Z.eqb_spec (Z.of_nat (length a)) (Z.of_nat (length b))) as [E|E].
  - destruct (memcasecmp_spec a b ltac:(lia)) as (d & -> & H). exists (0 =? d). split; [reflexivity|].
    rewrite Z.eqb_eq, <- H. split; congruence.
  - exists false. split; [reflexivity|]. split; [discriminate|]. intros C. apply (f_equal (@length Z)) in C.
    rewrite !length_map in C. lia.
Qed.

(** ** Windows *)

(** The needle occurs at [p]. *)
Definition match_at (hay needle : list Z) (p : nat) : Prop :=
  (p + length needle <= length hay)%nat /\ caseless (firstn (length needle) (skipn p hay)) needle.

Lemma two_ends {A} (w : list A) : (2 <= length w)%nat -> exists a mid b, w = a :: mid ++ [b].
Proof.
  destruct w as [|a w]; cbn [length]; intros H; [lia|]. destruct (exists_last (l := w)) as (mid & b & ->).
  - intros ->. cbn in H. lia.
  - now exists a, mid, b.
Qed.

Lemma split_window (hay : list Z) p m : (p + m <= length hay)%nat ->
  exists pre w post, hay = pre ++ w ++ post /\ length pre = p /\ length w = m /\ w = firstn m (skipn p hay).
Proof.
  intros H. exists (firstn p hay), (firstn m (skipn p hay)), (skipn m (skipn p hay)).
  rewrite !firstn_skipn, !length_firstn, length_skipn. repeat split; lia.
Qed.

Lemma read_app (pre : list Z) c post i : i = size pre -> read (pre ++ c :: post) i = Some c.
Proof.
  intros ->. unfold read, size. rewrite (proj2 (Z.leb_le _ _)), Nat2Z.id by lia.
  rewrite nth_error_app2, Nat.sub_diag by lia. reflexivity.
Qed.

Lemma read_nth (l : list Z) i c : read l i = Some c -> 0 <= i /\ nth_error l (Z.to_nat i) = Some c.
Proof. unfold read. destruct (Z.leb_spec 0 i); [auto|discriminate]. Qed.

Lemma substr_app pre s post pos n : pos = size pre -> n = size s -> substr (pre ++ s ++ post) pos n = Some s.
Proof.
  intros -> ->. unfold substr, size. rewrite (proj2 (Z.leb_le _ _)) by (rewrite length_app; lia). rewrite !Nat2Z.id.
  rewrite skipn_app, skipn_all, Nat.sub_diag, app_nil_l, skipn_O. now rewrite firstn_app, firstn_all, Nat.sub_diag, app_nil_r.
Qed.

Lemma tolower_lower c : in_u 8 c -> ascii_tolower c = lower c.
Proof. intros H. apply (classes c H). Qed.

Lemma toupper_upper c : in_u 8 c -> ascii_toupper c = upper c.
Proof. intros H. apply (classes c H). Qed.

Lemma same_letter_spec a b : in_u 8 a -> in_u 8 b -> same_letter a b = (lower a =? lower b).
Proof.
  intros A B. unfold same_letter. rewrite !tolower_lower by assumption.
  destruct (Z.eqb_spec a b) as [-> |N]; [now rewrite Z.eqb_refl|reflexivity].
Qed.

(** Both ends and what lies between them. *)
Lemma caseless_ends a mid b a' mid' b' : length mid = length mid' ->
  (caseless (a :: mid ++ [b]) (a' :: mid' ++ [b']) <-> lower b = lower b' /\ lower a = lower a' /\ caseless mid mid').
Proof.
  intros L. unfold caseless. cbn [map]. rewrite !map_app. cbn [map]. split.
  - intros E. injection E as E1 E2. apply app_inj_tail in E2 as (E2 & E3). auto.
  - intros (-> & -> & ->). reflexivity.
Qed.

(** [string_view::max_size]: the largest difference of pointers. *)
Definition fits (s : list Z) : Prop := size s < 2 ^ 63.

Ltac w64 := rewrite ?(wrapu_small 64) by (unfold size, fits in *; lia).

(** What the loops read of the window at [pos] and of the needle, and when they match. *)
Lemma window_parts hay needle pos : Forall (in_u 8) hay -> Forall (in_u 8) needle -> fits hay ->
  (2 <= length needle)%nat -> (pos + length needle <= length hay)%nat ->
  let m := size needle in
  exists a mid b a' mid' b',
    (read hay (Z.of_nat pos) = Some a /\ read hay (Z.of_nat pos +[64] m -[64] 1) = Some b /\
     substr hay (Z.of_nat pos +[64] 1) (m -[64] 2) = Some mid) /\
    (read needle 0 = Some a' /\ read needle (m -[64] 1) = Some b' /\ substr needle 1 (m -[64] 2) = Some mid') /\
    (in_u 8 a /\ in_u 8 b /\ in_u 8 a' /\ in_u 8 b') /\ length mid = length mid' /\ m = size mid' + 2 /\
    (match_at hay needle pos <-> lower b = lower b' /\ lower a = lower a' /\ caseless mid mid').
Proof.
  intros Fh Fn Ft L2 L. destruct (split_window hay pos (length needle) L) as (pre & w & post & E & Lp & Lw & W).
  unfold match_at. rewrite <- W. clear W.
  destruct (two_ends needle L2) as (a' & mid' & b' & ->). destruct (two_ends w ltac:(lia)) as (a & mid & b & ->).
  assert (Lm : length mid = length mid') by (cbn [length] in Lw; rewrite !length_app in Lw; cbn [length] in Lw; lia).
  pose proof (caseless_ends a mid b a' mid' b' Lm) as CE.
  assert (Sz : size (a' :: mid' ++ [b']) = size mid' + 2) by (unfold size; cbn [length]; rewrite length_app; cbn [length]; lia).
  rewrite Sz. cbv zeta.
  assert (Bd : Z.of_nat pos + size mid' + 2 < 2 ^ 64).
  { unfold fits, size in *. cbn [length] in L. rewrite length_app in L. cbn [length] in L. lia. }
  assert (Nn : 0 <= size mid') by (unfold size; lia).
  assert (W : forall x, 0 <= x < 2 ^ 64 -> wrapu 64 x = x) by (intros; now apply wrapu_small).
  assert (Sa : size (pre ++ a :: mid) = Z.of_nat pos + size mid' + 1) by (unfold size; rewrite length_app; cbn [length]; lia).
  assert (Sb : size (a' :: mid') = size mid' + 1) by (unfold size; cbn [length]; lia).
  assert (Sc : size (pre ++ [a]) = Z.of_nat pos + 1) by (unfold size; rewrite length_app; cbn [length]; lia).
  rewrite (W (Z.of_nat pos + (size mid' + 2))), (W (_ - 1)), (W (_ - 2)), (W (Z.of_nat pos + 1)), (W (size mid' + 2 - 1)) by lia.
  exists a, mid, b, a', mid', b'. split; [|split; [|split; [|split; [exact Lm|split; [reflexivity|tauto]]]]].
  - rewrite E. split; [|split]; [rewrite <- app_comm_cons; apply read_app; unfold size; lia|..].
    + replace (pre ++ (a :: mid ++ [b]) ++ post) with ((pre ++ a :: mid) ++ b :: post) by (rewrite <- app_assoc; cbn [app]; now rewrite <- app_assoc).
      apply read_app. lia.
    + replace (pre ++ (a :: mid ++ [b]) ++ post) with ((pre ++ [a]) ++ mid ++ b :: post) by (rewrite <- app_assoc; cbn [app]; now rewrite <- app_assoc).
      apply substr_app; unfold size in *; lia.
  - split; [reflexivity|]. split; [apply (read_app (a' :: mid')); lia|apply (substr_app [a'] mid' [b']); [reflexivity|lia]].
  - rewrite E, Forall_app, Forall_app, Forall_cons_iff, Forall_app, Forall_cons_iff in Fh.
    rewrite Forall_cons_iff, Forall_app, Forall_cons_iff in Fn. tauto.
Qed.

Lemma window_spec hay needle pos : Forall (in_u 8) hay -> Forall (in_u 8) needle -> fits hay ->
  (2 <= length needle)%nat -> (pos + length needle <= length hay)%nat ->
  exists r, window_matches hay needle (size needle) (Z.of_nat pos) = Some r /\ (r = true <-> match_at hay needle pos).
Proof.
  intros Fh Fn Ft L2 L.
  destruct (window_parts hay needle pos Fh Fn Ft L2 L) as (a & mid & b & a' & mid' & b' & (R1 & R2 & R3) & (N1 & N2 & N3) & (Ia & Ib & Ia' & Ib') & _ & _ & M).
  unfold window_matches. rewrite R2. cbn [obind]. rewrite N2. cbn [obind].
  rewrite same_letter_spec by assumption. destruct (Z.eqb_spec (lower b) (lower b')) as [B|B].
  2: { exists false. split; [reflexivity|]. split; [discriminate|tauto]. }
  rewrite R1. cbn [obind]. rewrite N1. cbn [obind].
  rewrite same_letter_spec by assumption. destruct (Z.eqb_spec (lower a) (lower a')) as [A|A].
  2: { exists false. split; [reflexivity|]. split; [discriminate|tauto]. }
  rewrite R3. cbn [obind]. rewrite N3. cbn [obind].
  destruct (EqualsIgnoreCase_spec mid mid') as (r & -> & R). exists r. split; [reflexivity|]. rewrite R. tauto.
Qed.

(** [r] is the answer to whether the needle occurs at [pos] or later. *)
Definition answers (hay needle : list Z) (pos : nat) (r : option bool) : Prop :=
  exists b, r = Some b /\ (b = true <-> exists p, (pos <= p)%nat /\ match_at hay needle p).

Lemma answers_skip hay needle pos pos' r : (pos <= pos')%nat ->
  (forall p, (pos <= p < pos')%nat -> ~ match_at hay needle p) -> answers hay needle pos' r -> answers hay needle pos r.
Proof.
  intros L N (b & E & A). exists b. split; [exact E|]. rewrite A. split; intros (p & P & M); exists p; (split; [|exact M]); [lia|].
  destruct (Nat.le_gt_cases pos' p) as [C|C]; [exact C|]. destruct (N p ltac:(lia) M).
Qed.

Lemma answers_found hay needle pos : match_at hay needle pos -> answers hay needle pos (Some true).
Proof. intros M. exists true. split; [reflexivity|]. split; [intros _; exists pos; auto|reflexivity]. Qed.

Lemma answers_end hay needle pos : (length hay < pos + length needle)%nat -> answers hay needle pos (Some false).
Proof. intros L. exists false. split; [reflexivity|]. split; [discriminate|]. intros (p & P & M & _). lia. Qed.

Lemma upper_lower c b : in_u 8 c -> in_u 8 b -> lower c = lower b -> b = lower c \/ b = upper c.
Proof.
  unfold in_u. intros _ _. unfold lower, upper, in_range. change (chr "A") with 65. change (chr "Z") with 90.
  change (chr "a") with 97. change (chr "z") with 122. repeat case_if; zbool; lia.
Qed.

Lemma letter_range c : in_u 8 c -> 0 <= lower c < 256 /\ 0 <= upper c < 256.
Proof.
  unfold in_u. change (2 ^ 8) with 256. unfold lower, upper, in_range. change (chr "A") with 65. change (chr "Z") with 90.
  change (chr "a") with 97. change (chr "z") with 122. intros H. repeat case_if; zbool; lia.
Qed.

(** ** The scan *)
Section Search.
Context (hay needle : list Z).
Context (Fh : Forall (in_u 8) hay) (Fn : Forall (in_u 8) needle) (Ft : fits hay).
Context (L2 : (2 <= length needle)%nat) (Lnm : (length needle <= length hay)%nat).

Lemma last_window : size hay -[64] size needle = Z.of_nat (length hay - length needle).
Proof. unfold size, fits in *. rewrite wrapu_small by (unfold size in *; lia). lia. Qed.

Lemma next_pos pos k : (pos + k <= length hay)%nat -> Z.of_nat pos +[64] Z.of_nat k = Z.of_nat (pos + k).
Proof. intros H. unfold fits, size in Ft. rewrite wrapu_small by lia. lia. Qed.

Lemma scan_loop_spec fuel pos : (length hay < fuel + pos)%nat -> (pos <= S (length hay - length needle))%nat ->
  forall a' b', read needle 0 = Some a' -> read needle (size needle -[64] 1) = Some b' ->
  answers hay needle pos (scan_loop fuel hay needle (size hay) (size needle) (ascii_tolower a') (ascii_tolower b') (Z.of_nat pos)).
Proof.
  revert pos. induction fuel as [|fuel IH]; intros pos F P a0 b0 A0 B0; [lia|]. cbn [scan_loop]. rewrite last_window.
  case_if; zbool; [|apply answers_end; lia].
  assert (L : (pos + length needle <= length hay)%nat) by lia.
  destruct (window_parts hay needle pos Fh Fn Ft L2 L) as (a & mid & b & a' & mid' & b' & (R1 & R2 & R3) & (N1 & N2 & N3) & (Ia & Ib & Ia' & Ib') & Lm & Sm & M).
  rewrite N1 in A0. injection A0 as <-. rewrite N2 in B0. injection B0 as <-.
  pose proof (next_pos pos 1 ltac:(lia)) as NP. change (Z.of_nat 1) with 1 in NP.
  assert (Next : ~ match_at hay needle pos -> answers hay needle pos
    (scan_loop fuel hay needle (size hay) (size needle) (ascii_tolower a') (ascii_tolower b') (Z.of_nat pos +[64] 1))).
  { intros N. apply (answers_skip hay needle pos (pos + 1)); [lia| |].
    - intros p Hp. now replace p with pos by lia.
    - rewrite NP. apply IH; auto; lia. }
  cbv zeta. rewrite R1. cbn [obind]. rewrite !tolower_lower in * by assumption.
  destruct (Z.eqb_spec (lower a) (lower a')) as [A|A]; cbn [negb]; [|apply Next; tauto].
  rewrite R2. cbn [obind]. rewrite tolower_lower by assumption.
  destruct (Z.eqb_spec (lower b) (lower b')) as [B|B]; cbn [negb]; [|apply Next; tauto].
  destruct (Z.eqb_spec (size needle) 2) as [E|E]; cbn [obind].
  - apply answers_found, M. repeat split; auto.
    destruct mid' as [|? mid']; [|unfold size in Sm, E; cbn [length] in Sm; lia]. now destruct mid.
  - rewrite R3. cbn [obind]. rewrite N3. cbn [obind].
    destruct (EqualsIgnoreCase_spec mid mid') as (r & -> & R). cbn [obind]. destruct r; [apply answers_found; tauto|].
    apply Next. intros C. enough (false = true) by discriminate. tauto.
Qed.

(** ** The shift table *)

(** Entries move forward by at most the needle, and never past an occurrence of the letter
    in the first [i] characters. *)
Definition table_ok (i : nat) (shift : list Z) : Prop :=
  length shift = 256%nat /\
  forall b s, nth_error shift b = Some s -> 1 <= s <= size needle /\
    forall j c, (j < i)%nat -> (S j < length needle)%nat -> nth_error needle j = Some c ->
      in_u 8 (Z.of_nat b) -> lower c = lower (Z.of_nat b) -> s <= size needle - 1 - Z.of_nat j.

Lemma table_step i c shift : table_ok i shift -> nth_error needle i = Some c -> (S i < length needle)%nat ->
  let v := size needle - 1 - Z.of_nat i in
  table_ok (S i) (replace_nth (Z.to_nat (upper c)) v (replace_nth (Z.to_nat (lower c)) v shift)).
Proof.
  intros (L & T) C I v. assert (Ic : in_u 8 c) by (rewrite Forall_forall in Fn; apply Fn; now apply nth_error_In in C).
  pose proof (letter_range c Ic) as (Rl & Ru).
  split; [now rewrite !replace_nth_length|]. intros b s. rewrite !nth_error_replace_nth, !replace_nth_length, L.
  assert (V : 1 <= v <= size needle) by (unfold v, size; lia).
  assert (New : s = v -> 1 <= s <= size needle /\ forall j d, (j < S i)%nat -> (S j < length needle)%nat ->
    nth_error needle j = Some d -> in_u 8 (Z.of_nat b) -> lower d = lower (Z.of_nat b) -> s <= size needle - 1 - Z.of_nat j).
  { intros ->. split; [exact V|]. intros j d J _ _ _ _. unfold v. lia. }
  destruct ((b =? Z.to_nat (upper c))%nat && (Z.to_nat (upper c) <? 256)%nat) eqn:E1; [intros E; injection E as <-; auto|].
  destruct ((b =? Z.to_nat (lower c))%nat && (Z.to_nat (lower c) <? 256)%nat) eqn:E2; [intros E; injection E as <-; auto|].
  intros S. destruct (T b s S) as (T1 & T2). split; [exact T1|]. intros j d J J' D B E.
  destruct (Nat.eq_dec j i) as [-> |N]; [|apply (T2 j d); auto; lia].
  rewrite C in D. injection D as ->. exfalso.
  apply andb_false_iff in E1, E2. rewrite !Nat.eqb_neq, !Nat.ltb_ge in E1, E2.
  destruct (upper_lower d (Z.of_nat b) Ic B E); lia.
Qed.

Lemma shift_loop_spec rest : forall pre shift, needle = pre ++ rest -> table_ok (length pre) shift ->
  exists shift', shift_loop (size needle) rest (size pre) shift = Some shift' /\ table_ok (length needle) shift'.
Proof.
  assert (Fm : 0 <= size needle < 2 ^ 64) by (unfold fits, size in *; lia).
  induction rest as [|c rest IH]; intros pre shift E T; cbn [shift_loop].
  - exists shift. rewrite app_nil_r in E. rewrite <- E in T. auto.
  - assert (Sn : size needle = size pre + 1 + size rest) by (unfold size; rewrite E, length_app; cbn [length]; lia).
    assert (Sp : 0 <= size pre /\ 0 <= size rest) by (unfold size; lia).
    assert (C : nth_error needle (length pre) = Some c) by (rewrite E, nth_error_app2, Nat.sub_diag by lia; reflexivity).
    rewrite (wrapu_small 64 (size needle - 1)) by lia. case_if; zbool.
    + rewrite (wrapu_small 64 (_ - size pre)), (wrapu_small 64 (size pre + 1)) by lia.
      assert (Ic : in_u 8 c) by (rewrite Forall_forall in Fn; apply Fn; now apply nth_error_In in C).
      rewrite tolower_lower, toupper_upper by exact Ic. pose proof (letter_range c Ic) as (Rl & Ru). destruct T as (Lt & T).
      rewrite write_some by (rewrite Lt; lia). cbn [obind]. rewrite write_some by (rewrite replace_nth_length, Lt; lia). cbn [obind].
      replace (size pre + 1) with (size (pre ++ [c])) by (unfold size; rewrite length_app; cbn [length]; lia).
      apply IH; [now rewrite <- app_assoc|]. rewrite length_app. cbn [length]. rewrite Nat.add_1_r.
      apply table_step; [now split|exact C|unfold size in *; lia].
    + exists shift. split; [reflexivity|]. destruct T as (Lt & T). split; [exact Lt|]. intros b s S. destruct (T b s S) as (T1 & T2).
      split; [exact T1|]. intros j d J J' D. apply (T2 j d); auto. unfold size in *. lia.
Qed.

(** ** The search *)
Lemma match_char p i c d : match_at hay needle p -> nth_error hay (p + i) = Some c -> nth_error needle i = Some d -> lower c = lower d.
Proof.
  intros (_ & M) C D. apply (f_equal (fun l => nth_error l i)) in M.
  assert (I : (i < length needle)%nat) by (apply nth_error_Some; congruence).
  rewrite !nth_error_map, D, nth_error_firstn, (proj2 (Nat.ltb_lt _ _)), nth_error_skipn, C in M by exact I.
  cbn in M. congruence.
Qed.

(** Between the window and where the table moves it there is no match. *)
Lemma shift_safe shift pos L s p : table_ok (length needle) shift -> (pos + length needle <= length hay)%nat ->
  read hay (Z.of_nat pos + size needle - 1) = Some L -> read shift L = Some s ->
  (pos < p)%nat -> Z.of_nat p < Z.of_nat pos + s -> ~ match_at hay needle p.
Proof.
  intros (Lt & T) B RL RS P1 P2 M.
  destruct (read_nth _ _ _ RL) as (_ & NL). destruct (read_nth _ _ _ RS) as (L0 & NS).
  assert (IL : in_u 8 L) by (apply nth_error_In in NL; rewrite Forall_forall in Fh; auto).
  destruct (T _ _ NS) as (T1 & T2).
  unfold size in *. set (i := (pos + length needle - 1 - p)%nat).
  destruct (nth_error needle i) as [d|] eqn:D; [|apply nth_error_None in D; unfold i in D; lia].
  assert (E : nth_error hay (p + i) = Some L) by (rewrite <- NL; f_equal; unfold i; lia).
  pose proof (match_char p i L d M E D) as Lo.
  specialize (T2 i d ltac:(unfold i; lia) ltac:(unfold i; lia) D). rewrite Z2Nat.id in T2 by lia.
  specialize (T2 IL (eq_sym Lo)). unfold i in T2. lia.
Qed.

Lemma bmh_loop_spec shift fuel pos : table_ok (length needle) shift -> (length hay < fuel + pos)%nat -> (pos <= length hay)%nat ->
  answers hay needle pos (bmh_loop fuel hay needle (size hay) (size needle) shift (Z.of_nat pos)).
Proof.
  intros T. revert pos. induction fuel as [|fuel IH]; intros pos F P; [lia|]. cbn [bmh_loop]. rewrite last_window.
  case_if; zbool; [|apply answers_end; lia].
  assert (L : (pos + length needle <= length hay)%nat) by lia.
  destruct (window_spec hay needle pos Fh Fn Ft L2 L) as (r & -> & R). cbn [obind]. destruct r; [apply answers_found; tauto|].
  destruct (window_parts hay needle pos Fh Fn Ft L2 L) as (a & mid & b & a' & mid' & b' & (R1 & R2 & R3) & _ & (Ia & Ib & _) & _).
  rewrite R2. cbn [obind].
  destruct (read shift b) as [s|] eqn:S.
  2: { destruct T as (Lt & _). unfold in_u in Ib. change (2 ^ 8) with 256 in Ib. rewrite (read_some shift b 0) in S by lia. discriminate. }
  cbn [obind]. assert (Sb : 1 <= s <= size needle).
  { destruct T as (_ & T). destruct (read_nth _ _ _ S) as (_ & NS). now apply (T _ _ NS). }
  rewrite (wrapu_small 64 (Z.of_nat pos + size needle)), wrapu_small in R2 by (unfold fits, size in *; lia).
  pose proof (next_pos pos (Z.to_nat s) ltac:(unfold size in *; lia)) as NP. rewrite Z2Nat.id in NP by lia. rewrite NP.
  apply (answers_skip hay needle pos (pos + Z.to_nat s)); [lia| |apply IH; unfold size in *; lia].
  intros p Hp. destruct (Nat.eq_dec p pos) as [-> |N]; [intros M; enough (false = true) by discriminate; tauto|].
  apply (shift_safe shift pos b s p T L R2 S); lia.
Qed.

Lemma BMH_spec : answers hay needle 0 (StrContainsIgnoreCaseBMH hay needle).
Proof.
  unfold StrContainsIgnoreCaseBMH.
  destruct (shift_loop_spec needle [] (repeat (size needle) 256)) as (shift & E & T); [reflexivity| |].
  - split; [apply repeat_length|]. intros b s H. apply nth_error_In, repeat_spec in H. subst s. split; [unfold size; lia|].
    intros j c J. cbn in J. lia.
  - change (size []) with 0 in E. rewrite E. cbn [obind]. apply (bmh_loop_spec shift _ 0 T); lia.
Qed.

End Search.

(** ** One character, prefixes and suffixes *)
Lemma contains_char_spec hay c : Forall (in_u 8) hay -> in_u 8 c ->
  (StrContainsIgnoreCase_char hay c = true <-> exists x, In x hay /\ lower x = lower c).
Proof.
  intros F C. unfold StrContainsIgnoreCase_char. rewrite toupper_upper, tolower_lower by exact C. rewrite Forall_forall in F.
  assert (Cases : forall x, in_u 8 x -> (lower x = lower c <-> x = lower c \/ x = upper c)).
  { intros x Hx. split; [intros E; apply upper_lower; auto|]. clear. unfold lower, upper, in_range.
    change (chr "A") with 65. change (chr "Z") with 90. change (chr "a") with 97. change (chr "z") with 122.
    intros [-> | ->]; repeat case_if; zbool; lia. }
  destruct (Z.eqb_spec (upper c) (lower c)) as [E|E].
  - unfold find_char. rewrite existsb_exists. split.
    + intros (x & I & X). apply Z.eqb_eq in X. subst x. eauto.
    + intros (x & I & X). exists x. split; [exact I|]. apply Z.eqb_eq. apply Cases in X; [|auto].
      destruct (proj1 (Cases c C) eq_refl); intuition congruence.
  - unfold find_first_of. case_if; rewrite existsb_exists; split; intros (x & I & X); exists x; (split; [exact I|]).
    + apply Cases; auto. rewrite orb_true_iff, !Z.eqb_eq in X. tauto.
    + apply Cases in X; auto. rewrite orb_true_iff, !Z.eqb_eq. tauto.
    + apply Cases; auto. cbn [existsb] in X. rewrite !orb_true_iff, !Z.eqb_eq in X. intuition discriminate.
    + apply Cases in X; auto. cbn [existsb]. rewrite !orb_true_iff, !Z.eqb_eq. tauto.
Qed.

(** The needle occurs somewhere, up to case. *)
Definition occurs (hay needle : list Z) : Prop := exists pre mid post, hay = pre ++ mid ++ post /\ caseless mid needle.

Lemma caseless_length a b : caseless a b -> length a = length b.
Proof. intros E. apply (f_equal (@length Z)) in E. now rewrite !length_map in E. Qed.

Lemma occurs_match hay needle : occurs hay needle <-> exists p, (0 <= p)%nat /\ match_at hay needle p.
Proof.
  split.
  - intros (pre & mid & post & -> & C). exists (length pre). split; [lia|]. pose proof (caseless_length _ _ C) as L.
    split; [rewrite !length_app; lia|]. rewrite skipn_app, skipn_all, Nat.sub_diag, skipn_O, app_nil_l, <- L.
    now rewrite firstn_app, firstn_all, Nat.sub_diag, app_nil_r.
  - intros (p & _ & L & C). destruct (split_window hay p (length needle) L) as (pre & w & post & E & _ & _ & W).
    exists pre, w, post. split; [exact E|]. now rewrite W.
Qed.

Lemma contains_spec hay needle : Forall (in_u 8) hay -> Forall (in_u 8) needle -> fits hay ->
  exists b, StrContainsIgnoreCase hay needle = Some b /\ (b = true <-> occurs hay needle).
Proof.
  intros Fh Fn Ft. unfold StrContainsIgnoreCase.
  destruct (Z.eqb_spec (size needle) 0) as [E0|E0]; [|destruct (Z.ltb_spec (size hay) (size needle)) as [E1|E1]];
    [| |destruct (Z.eqb_spec (size needle) 1) as [E2|E2]]; unfold size in *.
  - exists true. split; [reflexivity|]. split; [intros _|reflexivity]. exists [], [], hay. destruct needle; [now split|cbn in E0; lia].
  - exists false. split; [reflexivity|]. split; [discriminate|]. intros (pre & mid & post & -> & C).
    apply caseless_length in C. rewrite !length_app in E1. lia.
  - destruct needle as [|c [|d t]]; try (cbn in E2; lia). change (read [c] 0) with (Some c). cbn [obind].
    eexists. split; [reflexivity|]. assert (Ic : in_u 8 c) by now inversion Fn. rewrite (contains_char_spec hay c Fh Ic). split.
    + intros (x & I & X). apply in_split in I as (pre & post & ->). exists pre, [x], post. split; [reflexivity|].
      unfold caseless. cbn. congruence.
    + intros (pre & mid & post & -> & C). pose proof (caseless_length _ _ C) as L. destruct mid as [|x [|? ?]]; try discriminate.
      unfold caseless in C. cbn in C. exists x. split; [apply in_or_app; right; left; reflexivity|congruence].
  - assert (A : answers hay needle 0 (if (Z.of_nat (length hay) <? 256) || (Z.of_nat (length needle) =? 2)
      then do first <- read needle 0; do last <- read needle (Z.of_nat (length needle) -[64] 1);
        scan_loop (S (length hay)) hay needle (Z.of_nat (length hay)) (Z.of_nat (length needle)) (ascii_tolower first) (ascii_tolower last) 0
      else StrContainsIgnoreCaseBMH hay needle)).
    + case_if; [|apply BMH_spec; auto; lia].
      destruct (window_parts hay needle 0 Fh Fn Ft ltac:(lia) ltac:(lia)) as (a & mid & b & a' & mid' & b' & _ & (N1 & N2 & _) & _).
      unfold size in N2. rewrite N1. cbn [obind]. rewrite N2. cbn [obind].
      apply (scan_loop_spec hay needle Fh Fn Ft ltac:(lia) ltac:(lia) (S (length hay)) 0); auto; lia.
    + destruct A as (r & -> & A). exists r. split; [reflexivity|]. rewrite A. symmetry. apply occurs_match.
Qed.

Lemma starts_ends_spec text part : fits text ->
  (exists b, StartsWithIgnoreCase text part = Some b /\ (b = true <-> exists p post, text = p ++ post /\ caseless p part)) /\
  (exists b, EndsWithIgnoreCase text part = Some b /\ (b = true <-> exists pre s, text = pre ++ s /\ caseless s part)).
Proof.
  intros Ft. unfold StartsWithIgnoreCase, EndsWithIgnoreCase, substr, substr_from, size, fits in *. rewrite Z.geb_leb.
  destruct (Z.leb_spec (Z.of_nat (length part)) (Z.of_nat (length text))) as [L|L].
  - rewrite (wrapu_small 64) by (unfold size in Ft; lia). rewrite !(proj2 (Z.leb_le _ _)) by lia. cbn [obind]. rewrite Nat2Z.id. cbn [Z.to_nat skipn].
    replace (Z.to_nat (Z.of_nat (length text) - Z.of_nat (length part))) with (length text - length part)%nat by lia.
    split; [destruct (EqualsIgnoreCase_spec (firstn (length part) text) part) as (r & -> & R)
           |destruct (EqualsIgnoreCase_spec (skipn (length text - length part) text) part) as (r & -> & R)];
      exists r; (split; [reflexivity|]); rewrite R; split.
    + intros C. exists (firstn (length part) text), (skipn (length part) text). now rewrite firstn_skipn.
    + intros (p & post & -> & C). rewrite <- (caseless_length _ _ C), firstn_app, firstn_all, Nat.sub_diag. now rewrite app_nil_r.
    + intros C. exists (firstn (length text - length part) text), (skipn (length text - length part) text). now rewrite firstn_skipn.
    + intros (pre & s & -> & C). rewrite <- (caseless_length _ _ C), length_app.
      replace (length pre + length s - length s)%nat with (length pre) by lia. now rewrite skipn_app, skipn_all, Nat.sub_diag.
  - split; exists false; (split; [reflexivity|]); (split; [discriminate|]); intros (x & y & -> & C);
      apply caseless_length in C; rewrite length_app in L; lia.
Qed.

(** ** Common prefixes *)
Definition xor_bytes (xs ys : list Z) : list Z := map (fun p => fst p .^ snd p) (combine xs ys).

Lemma lxor_lohi k a b c d : 0 <= k -> in_u k a -> in_u k c -> Z.lxor (a + 2 ^ k * b) (c + 2 ^ k * d) = Z.lxor a c + 2 ^ k * Z.lxor b d.
Proof.
  intros K A C. apply Z.bits_inj'. intros i I. rewrite Z.lxor_spec, !testbit_lohi by (auto using in_u_lxor).
  case_if; now rewrite Z.lxor_spec.
Qed.

Lemma le_val_xor xs : forall ys, length xs = length ys -> Forall (in_u 8) xs -> Forall (in_u 8) ys ->
  le_val xs .^ le_val ys = le_val (xor_bytes xs ys).
Proof.
  induction xs as [|x xs IH]; intros [|y ys] L F G; try discriminate; [reflexivity|]. inversion F. inversion G. subst.
  cbn [le_val xor_bytes combine map fst snd]. change 256 with (2 ^ 8). rewrite lxor_lohi by (auto; lia). rewrite IH by auto. reflexivity.
Qed.

Lemma first_difference (xs : list Z) : forall ys, length xs = length ys ->
  xs = ys \/ exists c x y xs' ys', xs = c ++ x :: xs' /\ ys = c ++ y :: ys' /\ x <> y.
Proof.
  induction xs as [|x xs IH]; intros [|y ys] L; try discriminate; [auto|]. injection L as L.
  destruct (Z.eq_dec x y) as [-> |N]; [|right; now exists [], x, y, xs, ys].
  destruct (IH ys L) as [-> |(c & x' & y' & xs' & ys' & -> & -> & N)]; [auto|]. right. now exists (y :: c), x', y', xs', ys'.
Qed.

Lemma xor_common c xs ys : xor_bytes (c ++ xs) (c ++ ys) = repeat 0 (length c) ++ xor_bytes xs ys.
Proof. unfold xor_bytes. induction c as [|x c IH]; [reflexivity|]. cbn. now rewrite Z.lxor_nilpotent, IH. Qed.

(** The exclusive or of two words of bytes: zero when they are equal, and otherwise its trailing zeros
    give the length of what they share. *)
Lemma word_difference n xs ys : std_bytes n -> length xs = n -> length ys = n -> Forall (in_u 8) xs -> Forall (in_u 8) ys ->
  (xs = ys /\ le_val xs .^ le_val ys = 0) \/
  (exists c x y xs' ys', xs = c ++ x :: xs' /\ ys = c ++ y :: ys' /\ x <> y /\ le_val xs .^ le_val ys <> 0 /\
   countr_zero (8 * Z.of_nat n) (le_val xs .^ le_val ys) >> 3 = Z.of_nat (length c)).
Proof.
  intros Hn Lx Ly F G. destruct (first_difference xs ys ltac:(lia)) as [-> |(c & x & y & xs' & ys' & -> & -> & N)].
  - left. split; [reflexivity|apply Z.lxor_nilpotent].
  - right. exists c, x, y, xs', ys'. split; [reflexivity|]. split; [reflexivity|]. split; [exact N|].
    rewrite le_val_xor by (auto; lia). rewrite xor_common. cbn [xor_bytes combine map fst snd].
    rewrite length_app in Lx, Ly. cbn [length] in Lx, Ly. apply Forall_app in F as (_ & F), G as (_ & G). inversion F. inversion G. subst.
    assert (D : 0 < x .^ y < 256).
    { pose proof (in_u_lxor 8 x y ltac:(lia) H1 H5) as R. unfold in_u in R. change (2 ^ 8) with 256 in R.
      assert (x .^ y <> 0) by (rewrite Z.lxor_eq_0_iff; exact N). lia. }
    fold (xor_bytes xs' ys').
    assert (Lr : length (xor_bytes xs' ys') = length xs') by (unfold xor_bytes; rewrite length_map, length_combine; lia).
    assert (Fr : Forall (in_u 8) (xor_bytes xs' ys')).
    { clear - H2 H6. unfold xor_bytes. revert ys' H6. induction H2; intros ys' Hy; [constructor|].
      destruct Hy; [constructor|]. cbn. constructor; [|auto]. apply in_u_lxor; auto. lia. }
    pose proof (word_trailing (length c + S (length xs')) (length c) (x .^ y) (xor_bytes xs' ys') Hn ltac:(lia) D Fr) as T.
    split.
    + intros Z0. rewrite Z0 in *. destruct (shifted_trailing (length c) (x .^ y) (xor_bytes xs' ys') D Fr) as (t & (_ & B & _) & _).
      rewrite Z0, Z.bits_0 in B. discriminate.
    + rewrite Z.shiftr_div_pow2 by lia. change (2 ^ 3) with 8. zlia.
Qed.

(** [k] is the length of the longest common prefix. *)
Definition longest (a b : list Z) (k : nat) : Prop :=
  exists c ra rb, a = c ++ ra /\ b = c ++ rb /\ length c = k /\
  match ra, rb with x :: _, y :: _ => x <> y | _, _ => True end.

Lemma load_word host n p c w r : std_bytes n -> Forall (in_u 8) p -> p = c ++ w ++ r -> length w = n ->
  load host n p (size c) = Some (le_val w).
Proof.
  intros Hn F -> L. unfold load, size. rewrite !(proj2 (Z.leb_le _ _)) by (rewrite ?length_app; lia). cbn [andb]. rewrite Nat2Z.id.
  rewrite skipn_app, skipn_all, Nat.sub_diag, skipn_O, app_nil_l.
  rewrite little_Load_val; [|exact Hn|now apply Forall_app in F as [_ F]|rewrite length_app; lia].
  now rewrite <- L, firstn_app, firstn_all, Nat.sub_diag, app_nil_r.
Qed.

(** Two bytes at a time. *)
Lemma pair_difference x0 x1 y0 y1 : Forall (in_u 8) [x0; x1] -> Forall (in_u 8) [y0; y1] ->
  let w := Z.lxor (le_val [x0; x1]) (le_val [y0; y1]) in
  (w = 0 <-> x0 = y0 /\ x1 = y1) /\ Z.land w 0xff = Z.lxor x0 y0.
Proof.
  intros F G w. split.
  - unfold w. rewrite Z.lxor_eq_0_iff. cbn [le_val]. inversion F. inversion G. subst. unfold in_u in *. change (2 ^ 8) with 256 in *. lia.
  - inversion F as [|? ? X0 _]. inversion G as [|? ? Y0 _]. subst.
    assert (Ew : w = Z.lxor x0 y0 + 2 ^ 8 * Z.lxor x1 y1) by (unfold w; cbn [le_val]; rewrite !Z.mul_0_r, !Z.add_0_r; apply (lxor_lohi 8); auto; lia).
    pose proof (in_u_lxor 8 x0 y0 ltac:(lia) X0 Y0) as R. unfold in_u in R.
    change 0xff with (Z.ones 8). rewrite Z.land_ones, Ew, Z.mul_comm, Z.mod_add, Z.mod_small by lia. reflexivity.
Qed.

Section Prefix.
Context (host : endian) (a b : list Z).
Context (Fa : Forall (in_u 8) a) (Fb : Forall (in_u 8) b) (Ta : fits a).

Lemma take_word n c ra rb : std_bytes n -> a = c ++ ra -> b = c ++ rb -> (n <= length ra)%nat -> (n <= length rb)%nat ->
  exists wa ra' wb rb', ra = wa ++ ra' /\ rb = wb ++ rb' /\ length wa = n /\ length wb = n /\
  Forall (in_u 8) wa /\ Forall (in_u 8) wb /\ load host n a (size c) = Some (le_val wa) /\ load host n b (size c) = Some (le_val wb).
Proof.
  intros Hn Ea Eb La Lb. exists (firstn n ra), (skipn n ra), (firstn n rb), (skipn n rb). rewrite !firstn_skipn, !length_firstn.
  assert (F : forall p r, Forall (in_u 8) p -> p = c ++ r -> Forall (in_u 8) (firstn n r)).
  { intros p r H ->. apply Forall_app in H as [_ H]. rewrite <- (firstn_skipn n r) in H. now apply Forall_app in H as [H _]. }
  repeat split; try lia; try (eapply F; [|eassumption]; assumption).
  - apply (load_word host n a c (firstn n ra) (skipn n ra)); rewrite ?firstn_skipn, ?length_firstn; auto; lia.
  - apply (load_word host n b c (firstn n rb) (skipn n rb)); rewrite ?firstn_skipn, ?length_firstn; auto; lia.
Qed.

Lemma longest_at c d x y ra rb : a = c ++ d ++ x :: ra -> b = c ++ d ++ y :: rb -> x <> y -> longest a b (length c + length d).
Proof.
  intros -> -> N. exists (c ++ d), (x :: ra), (y :: rb). rewrite length_app, <- !app_assoc. auto.
Qed.

Lemma longest_limit c ra rb : a = c ++ ra -> b = c ++ rb -> ra = [] \/ rb = [] -> longest a b (length c).
Proof. intros Ea Eb H. exists c, ra, rb. repeat split; auto. destruct H as [-> | ->]; [exact I|now destruct ra]. Qed.

Lemma word_step_spec c ra rb : a = c ++ ra -> b = c ++ rb -> (8 <= length ra)%nat -> (8 <= length rb)%nat ->
  (word_step host a b (size c) = Some None /\ exists w ra' rb', length w = 8%nat /\ ra = w ++ ra' /\ rb = w ++ rb') \/
  (exists n, word_step host a b (size c) = Some (Some (Z.of_nat n)) /\ longest a b n).
Proof.
  intros Ea Eb La Lb. destruct (take_word 8 c ra rb ltac:(unfold std_bytes; auto) Ea Eb La Lb) as
    (wa & ra' & wb & rb' & -> & -> & Lwa & Lwb & Fwa & Fwb & Wa & Wb).
  unfold word_step. rewrite Wa. cbn [obind]. rewrite Wb. cbn [obind].
  destruct (word_difference 8 wa wb ltac:(unfold std_bytes; auto) Lwa Lwb Fwa Fwb) as [(-> & ->)|(d & x & y & xs & ys & E1 & E2 & N & NZ & CZ)].
  - left. split; [reflexivity|]. now exists wb, ra', rb'.
  - right. exists (length c + length d)%nat. rewrite (proj2 (Z.eqb_neq _ _) NZ). cbn [negb].
    change (8 * Z.of_nat 8) with 64 in CZ. rewrite CZ. split.
    + do 2 f_equal. unfold fits, size in *. rewrite Ea, E1, !length_app in Ta. rewrite wrapu_small by lia. lia.
    + apply (longest_at c d x y (xs ++ ra') (ys ++ rb')); auto; [rewrite Ea, E1|rewrite Eb, E2]; now rewrite <- app_assoc.
Qed.

Lemma prefix_words_spec limit fuel : forall c ra rb, limit = Nat.min (length a) (length b) -> a = c ++ ra -> b = c ++ rb ->
  (length c + 8 <= limit)%nat -> (limit <= fuel * 8 + length c)%nat ->
  (exists c' ra' rb', prefix_words fuel host a b (Z.of_nat limit) (size c) = Some None /\ a = c' ++ ra' /\ b = c' ++ rb' /\
     (limit <= length c' + 8)%nat) \/
  (exists n, prefix_words fuel host a b (Z.of_nat limit) (size c) = Some (Some (Z.of_nat n)) /\ longest a b n).
Proof.
  induction fuel as [|fuel IH]; intros c ra rb Hl Ea Eb L F; [lia|]. cbn [prefix_words].
  assert (La : length a = (length c + length ra)%nat) by (rewrite Ea, length_app; reflexivity).
  assert (Lb : length b = (length c + length rb)%nat) by (rewrite Eb, length_app; reflexivity).
  destruct (word_step_spec c ra rb Ea Eb ltac:(lia) ltac:(lia)) as [(-> & w & ra' & rb' & Lw & E1 & E2)|(n & -> & H)];
    cbn [obind]; [|right; exists n; auto].
  assert (Sc : size c +[64] 8 = size (c ++ w)) by (unfold fits, size in *; rewrite length_app, wrapu_small by lia; lia).
  rewrite Sc. assert (Ea' : a = (c ++ w) ++ ra') by (rewrite Ea, E1; apply app_assoc).
  assert (Eb' : b = (c ++ w) ++ rb') by (rewrite Eb, E2; apply app_assoc).
  assert (Lc : length (c ++ w) = (length c + 8)%nat) by (rewrite length_app; lia).
  destruct (Z.ltb_spec (size (c ++ w) +[64] 8) (Z.of_nat limit)) as [C|C].
  - apply (IH (c ++ w) ra' rb'); auto; [|lia].
    unfold fits, size in *. rewrite Lc in *. rewrite wrapu_small in C by lia. lia.
  - left. exists (c ++ w), ra', rb'. split; [reflexivity|]. split; [exact Ea'|]. split; [exact Eb'|].
    unfold fits, size in *. rewrite Lc in *. rewrite wrapu_small in C by lia. lia.
Qed.

Lemma prefix_short_spec limit fuel : forall c ra rb, limit = Nat.min (length a) (length b) -> a = c ++ ra -> b = c ++ rb ->
  (length c <= limit)%nat -> (limit < fuel * 2 + length c)%nat ->
  exists n, prefix_short fuel host a b (Z.of_nat limit) (size c) = Some (Z.of_nat n) /\ longest a b n.
Proof.
  induction fuel as [|fuel IH]; intros c ra rb Hl Ea Eb L F; [lia|]. cbn [prefix_short].
  assert (La : length a = (length c + length ra)%nat) by (rewrite Ea, length_app; reflexivity).
  assert (Lb : length b = (length c + length rb)%nat) by (rewrite Eb, length_app; reflexivity).
  assert (S : forall k, (k <= 2)%nat -> size c +[64] Z.of_nat k = Z.of_nat (length c + k)) by (intros; unfold fits, size in *; rewrite wrapu_small by lia; lia).
  pose proof (S 2%nat ltac:(lia)) as S2. pose proof (S 1%nat ltac:(lia)) as S1. change (Z.of_nat 2) with 2 in S2. change (Z.of_nat 1) with 1 in S1.
  rewrite S2. case_if; zbool.
  - destruct (take_word 2 c ra rb ltac:(unfold std_bytes; auto) Ea Eb ltac:(lia) ltac:(lia)) as
      (wa & ra' & wb & rb' & -> & -> & Lwa & Lwb & Fwa & Fwb & Wa & Wb).
    rewrite Wa. cbn [obind]. rewrite Wb. cbn [obind].
    destruct wa as [|x0 [|x1 [|? ?]]]; try discriminate. destruct wb as [|y0 [|y1 [|? ?]]]; try discriminate.
    destruct (pair_difference x0 x1 y0 y1 Fwa Fwb) as (W0 & W1). rewrite W1.
    destruct (Z.eqb_spec (Z.lxor (le_val [x0; x1]) (le_val [y0; y1])) 0) as [E0|E0]; cbn [negb].
    + apply W0 in E0 as (-> & ->).
      replace (Z.of_nat (length c + 2)) with (size (c ++ [y0; y1])) by (unfold size; rewrite length_app; cbn [length]; lia).
      apply (IH (c ++ [y0; y1]) ra' rb'); rewrite ?length_app; cbn [length]; try lia; [rewrite Ea|rewrite Eb]; now rewrite <- app_assoc.
    + rewrite S1. destruct (Z.eqb_spec (Z.lxor x0 y0) 0) as [E|E].
      * apply Z.lxor_eq in E. subst y0. exists (length c + 1)%nat. split; [reflexivity|].
        apply (longest_at c [x0] x1 y1 ra' rb'); auto. intros ->. apply E0, W0. auto.
      * exists (length c). split; [reflexivity|]. pose proof (longest_at c [] x0 y0 (x1 :: ra') (y1 :: rb')) as LG.
        cbn [length app] in LG. rewrite Nat.add_0_r in LG. apply LG; auto. intros ->. apply E, Z.lxor_nilpotent.
  - change (size c) with (Z.of_nat (length c)) at 1. destruct (Z.eqb_spec (Z.of_nat (length c)) (Z.of_nat limit)) as [E|E]; cbn [negb].
    + exists (length c). split; [reflexivity|]. apply (longest_limit c ra rb); auto.
      destruct ra, rb; auto. cbn [length] in *. lia.
    + destruct ra as [|x ra]; [cbn [length] in *; lia|]. destruct rb as [|y rb]; [cbn [length] in *; lia|]. cbn [length] in *.
      assert (Rx : read a (size c) = Some x) by (rewrite Ea; now apply read_app).
      assert (Ry : read b (size c) = Some y) by (rewrite Eb; now apply read_app).
      rewrite Rx. cbn [obind]. rewrite Ry. cbn [obind]. destruct (Z.eqb_spec x y) as [-> |N].
      * rewrite S1. exists (length c + 1)%nat. split; [reflexivity|]. replace (length c + 1)%nat with (length (c ++ [y])) by (rewrite length_app; reflexivity).
        apply (longest_limit (c ++ [y]) ra rb); [rewrite Ea|rewrite Eb|]; rewrite <- ?app_assoc; auto.
        destruct ra, rb; auto. cbn [length] in *. lia.
      * exists (length c). split; [reflexivity|]. pose proof (longest_at c [] x y ra rb) as LG.
        cbn [length app] in LG. rewrite Nat.add_0_r in LG. now apply LG.
Qed.

Lemma prefix_spec : exists n, FindLongestCommonPrefix host a b = Some (firstn n a) /\ longest a b n.
Proof.
  unfold FindLongestCommonPrefix. set (limit := Nat.min (length a) (length b)).
  replace (Z.min (size a) (size b)) with (Z.of_nat limit) by (unfold size, limit; lia).
  case_if; zbool.
  - destruct (prefix_short_spec limit 5 [] a b eq_refl eq_refl eq_refl) as (n & E & H); [cbn; lia|cbn [length]; lia|].
    change (size []) with 0 in E. rewrite E. cbn [obind]. rewrite Nat2Z.id. eauto.
  - destruct (prefix_words_spec limit (length a) [] a b eq_refl eq_refl eq_refl) as [(c & ra & rb & E & Ea & Eb & Lc)|(n & E & H)];
      [cbn [length]; lia|unfold limit; lia| |]; change (size []) with 0 in E; rewrite E; cbn [obind]; [|rewrite Nat2Z.id; eauto].
    assert (La : length a = (length c + length ra)%nat) by (rewrite Ea, length_app; reflexivity).
    assert (Lb : length b = (length c + length rb)%nat) by (rewrite Eb, length_app; reflexivity).
    set (k := (limit - 8)%nat). replace (Z.of_nat limit -[64] 8) with (size (firstn k c)).
    2: { unfold fits, size in *. rewrite length_firstn, wrapu_small by lia. unfold k, limit in *. lia. }
    assert (Ea' : a = firstn k c ++ skipn k c ++ ra) by (rewrite app_assoc, firstn_skipn; exact Ea).
    assert (Eb' : b = firstn k c ++ skipn k c ++ rb) by (rewrite app_assoc, firstn_skipn; exact Eb).
    destruct (word_step_spec (firstn k c) (skipn k c ++ ra) (skipn k c ++ rb) Ea' Eb') as [(-> & w & xa & xb & Lw & E1 & E2)|(n & -> & H)];
      [rewrite length_app, length_skipn; unfold k, limit in *; lia|rewrite length_app, length_skipn; unfold k, limit in *; lia| |];
      cbn [obind]; rewrite Nat2Z.id; [|eauto].
    exists limit. split; [reflexivity|].
    assert (Lk : length (firstn k c ++ w) = limit) by (rewrite length_app, length_firstn; unfold k, limit in *; lia).
    rewrite <- Lk. rewrite E1, app_assoc in Ea'. rewrite E2, app_assoc in Eb'. apply (longest_limit _ xa xb Ea' Eb').
    apply (f_equal (@length Z)) in Ea', Eb'. rewrite length_app, Lk in Ea', Eb'. destruct xa, xb; auto. cbn [length] in *. unfold limit in *. lia.
Qed.

End Prefix.

Lemma suffix_loop_spec a b fuel : forall ra rb s, fits a -> a = ra ++ s -> b = rb ++ s -> (length ra <= fuel)%nat ->
  exists ra' rb' s', suffix_loop fuel a b (Z.min (size a) (size b)) (size s) (size ra - 1) (size rb - 1) = Some (size ra' - 1, size s') /\
  a = ra' ++ s' /\ b = rb' ++ s' /\ match rev ra', rev rb' with x :: _, y :: _ => x <> y | _, _ => True end.
Proof.
  induction fuel as [|fuel IH]; intros ra rb s Ft Ea Eb F; cbn [suffix_loop];
    (assert (La : size a = size ra + size s) by (unfold size; rewrite Ea, length_app; lia));
    (assert (Lb : size b = size rb + size s) by (unfold size; rewrite Eb, length_app; lia)).
  - destruct ra; [|cbn [length] in F; lia]. rewrite (proj2 (Z.ltb_ge _ _)) by (unfold size in *; cbn [length] in *; lia).
    exists [], rb, s. repeat split; auto.
  - case_if; zbool.
    2: { exists ra, rb, s. split; [reflexivity|]. split; [exact Ea|]. split; [exact Eb|].
         destruct (rev ra) eqn:Ra; [exact I|]. destruct (rev rb) eqn:Rb; [exact I|]. exfalso.
         apply (f_equal (@length Z)) in Ra, Rb. rewrite length_rev in Ra, Rb. cbn [length] in *. unfold size in *. lia. }
    destruct (exists_last (l := ra)) as (ra0 & x & ->); [intros ->; unfold size in *; cbn [length] in *; lia|].
    destruct (exists_last (l := rb)) as (rb0 & y & ->); [intros ->; unfold size in *; cbn [length] in *; lia|].
    assert (Sa : size (ra0 ++ [x]) - 1 = size ra0) by (unfold size; rewrite length_app; cbn [length]; lia).
    assert (Sb : size (rb0 ++ [y]) - 1 = size rb0) by (unfold size; rewrite length_app; cbn [length]; lia).
    rewrite Sa, Sb. rewrite <- app_assoc in Ea, Eb.
    assert (Rx : read a (size ra0) = Some x) by (rewrite Ea; now apply read_app).
    assert (Ry : read b (size rb0) = Some y) by (rewrite Eb; now apply read_app).
    rewrite Rx. cbn [obind]. rewrite Ry. cbn [obind]. destruct (Z.eqb_spec x y) as [-> |N].
    + replace (size s +[64] 1) with (size (y :: s)) by (unfold fits, size in *; cbn [length]; rewrite wrapu_small by lia; lia).
      apply (IH ra0 rb0 (y :: s)); auto. rewrite length_app in F. cbn [length] in F. lia.
    + exists (ra0 ++ [x]), (rb0 ++ [y]), s. rewrite Sa, <- !app_assoc, !rev_app_distr. auto.
Qed.

Lemma suffix_spec a b : fits a ->
  exists s ra rb, FindLongestCommonSuffix a b = Some s /\ a = ra ++ s /\ b = rb ++ s /\
  match rev ra, rev rb with x :: _, y :: _ => x <> y | _, _ => True end.
Proof.
  intros Ft. unfold FindLongestCommonSuffix. destruct (Z.eqb_spec (Z.min (size a) (size b)) 0) as [E|E].
  - exists [], a, b. rewrite !app_nil_r. repeat split. unfold size in E.
    destruct a; [exact I|]. destruct b; [now destruct (rev _)|]. cbn [length] in E. lia.
  - destruct (suffix_loop_spec a b (length a) a b [] Ft) as (ra & rb & s & L & Ea & Eb & D); try (now rewrite app_nil_r); [lia|].
    change (size []) with 0 in L. rewrite L. cbn [obind]. exists s, ra, rb. split; [|auto].
    rewrite Ea. replace (ra ++ s) with (ra ++ s ++ []) by now rewrite app_nil_r. apply substr_app; lia.
Qed.

(** ** Theorems *)

(** C21: [StrContainsIgnoreCase] returns for every haystack and needle, reads nothing outside them, and
    answers whether the needle occurs anywhere in the haystack when case is ignored: the single-character
    search, the scan with its prefilter, and the Boyer-Moore-Horspool search, whose table never moves the
    window past an occurrence. [StartsWithIgnoreCase], [EndsWithIgnoreCase] and [EqualsIgnoreCase] answer
    the like questions at the ends and of the whole string. *)
Theorem search_ignoring_case_correct hay needle :
  Forall (in_u 8) hay -> Forall (in_u 8) needle -> fits hay ->
  (exists b, StrContainsIgnoreCase hay needle = Some b /\ (b = true <-> occurs hay needle)) /\
  ((2 <= length needle <= length hay)%nat ->
   exists b, StrContainsIgnoreCaseBMH hay needle = Some b /\ (b = true <-> occurs hay needle)) /\
  (exists b, StartsWithIgnoreCase hay needle = Some b /\ (b = true <-> exists p post, hay = p ++ post /\ caseless p needle)) /\
  (exists b, EndsWithIgnoreCase hay needle = Some b /\ (b = true <-> exists pre s, hay = pre ++ s /\ caseless s needle)) /\
  (exists b, EqualsIgnoreCase hay needle = Some b /\ (b = true <-> caseless hay needle)).
Proof.
  intros Fh Fn Ft. split; [now apply contains_spec|]. split; [|split; [|split]]; try now apply starts_ends_spec.
  - intros L. destruct (BMH_spec hay needle Fh Fn Ft ltac:(lia) ltac:(lia)) as (b & E & A). exists b. split; [exact E|].
    rewrite A. symmetry. apply occurs_match.
  - apply EqualsIgnoreCase_spec.
Qed.

Lemma search_ignoring_case_correct_witness :
  exists b, StrContainsIgnoreCaseBMH (str "a Swiss table") (str "SS T") = Some b /\ (b = true <-> occurs (str "a Swiss table") (str "SS T")).
Proof.
  apply (search_ignoring_case_correct (str "a Swiss table") (str "SS T")).
  - repeat (constructor; [split; [discriminate|reflexivity]|]). constructor.
  - repeat (constructor; [split; [discriminate|reflexivity]|]). constructor.
  - reflexivity.
  - cbn. lia.
Defined.

(** [FindLongestCommonPrefix], which compares two or eight bytes at a time and finishes with a word that
    overlaps the ones before it, reads nothing outside either string on hosts of both byte orders, and returns
    the longest prefix that both share; [FindLongestCommonSuffix] the longest suffix. *)
Lemma common_affixes_correct host a b :
  Forall (in_u 8) a -> Forall (in_u 8) b -> fits a ->
  (exists p ra rb, FindLongestCommonPrefix host a b = Some p /\ a = p ++ ra /\ b = p ++ rb /\
   match ra, rb with x :: _, y :: _ => x <> y | _, _ => True end) /\
  (exists s ra rb, FindLongestCommonSuffix a b = Some s /\ a = ra ++ s /\ b = rb ++ s /\
   match rev ra, rev rb with x :: _, y :: _ => x <> y | _, _ => True end).
Proof.
  intros Fa Fb Ta. split; [|now apply suffix_spec].
  destruct (prefix_spec host a b Fa Fb Ta) as (n & E & c & ra & rb & Ea & Eb & L & D). exists c, ra, rb. split; [|auto].
  rewrite E, Ea, <- L, firstn_app, firstn_all, Nat.sub_diag. now rewrite app_nil_r.
Qed.

Lemma common_affixes_correct_witness :
  exists p ra rb, FindLongestCommonPrefix big (str "raw_hash_set.cc") (str "raw_hash_set.h") = Some p /\
  str "raw_hash_set.cc" = p ++ ra /\ str "raw_hash_set.h" = p ++ rb /\ match ra, rb with x :: _, y :: _ => x <> y | _, _ => True end.
Proof.
  apply (common_affixes_correct big (str "raw_hash_set.cc") (str "raw_hash_set.h")).
  - repeat (constructor; [split; [discriminate|reflexivity]|]). constructor.
  - repeat (constructor; [split; [discriminate|reflexivity]|]). constructor.
  - reflexivity.
Defined.
