(* ===== verification/NodeSet.v ===== *)
(** [NodeSet] of [synchronization/internal/graphcycles.cc]: a hash set of non-negative 32-bit integers with
    linear probing and deleted cells, the adjacency sets of the lock-order graph.  The set is its table and the
    count of the cells that are not empty; the theorems give its operations on the set of its elements. *)
From Stdlib Require Import ZArith Lia List Bool Permutation.
From S2P Require Import Prelude.
Import ListNotations.
#[local] Open Scope Z_scope.
#[local] Open Scope mach_scope.

Definition kInline : Z := 8.
Definition kEmpty : Z := -1.
Definition kDel : Z := -2.

Record NodeSet := mk_nodeset { table_ : list Z; occupied_ : Z }.

Definition table_size (t : list Z) : Z := Z.of_nat (length t).

Definition Init : NodeSet := mk_nodeset (repeat kEmpty (Z.to_nat kInline)) 0.

Definition Hash (a : Z) : Z := wrapu 32 a *[32] 41.

(** The probing loop, a round for every cell; it has no result when it meets no end. *)
Fixpoint find_loop (fuel : nat) (table : list Z) (mask v i : Z) (deleted_index : option Z) : option Z :=
  match fuel with
  | O => None
  | S fuel' =>
    do e <- read table i;
    if v =? e then Some i
    else if e =? kEmpty then Some (match deleted_index with Some d => d | None => i end)
    else
      let deleted_index :=
        match deleted_index with
        | None => if e =? kDel then Some i else None
        | Some d => Some d
        end in
      find_loop fuel' table mask v ((i +[32] 1) .& mask) deleted_index
  end.

Definition FindIndex (s : NodeSet) (v : Z) : option Z :=
  let mask := table_size (table_ s) -[32] 1 in
  find_loop (length (table_ s)) (table_ s) mask v (Hash v .& mask) None.

Definition contains (s : NodeSet) (v : Z) : option bool :=
  do i <- FindIndex s v;
  do e <- read (table_ s) i;
  Some (e =? v).

(** [Grow], which moves the elements of the table to one of twice its size with [insert]. *)
Definition reinsert (insert : NodeSet -> Z -> option (NodeSet * bool)) (acc : option NodeSet) (e : Z) : option NodeSet :=
  do s <- acc;
  if e >=? 0 then do (s, _) <- insert s e; Some s else Some s.

Definition Grow (insert : NodeSet -> Z -> option (NodeSet * bool)) (copy : list Z) : option NodeSet :=
  let empty := mk_nodeset (repeat kEmpty (Z.to_nat (table_size copy *[32] 2))) 0 in
  fold_left (reinsert insert) copy (Some empty).

(** [insert], which calls [Grow], which calls [insert] on the larger table: [depth] bounds the nesting. *)
Fixpoint insert_nested (depth : nat) (s : NodeSet) (v : Z) : option (NodeSet * bool) :=
  do i <- FindIndex s v;
  do e <- read (table_ s) i;
  if e =? v then Some (s, false)
  else
    let occupied := if e =? kEmpty then occupied_ s +[32] 1 else occupied_ s in
    do table <- write (table_ s) i v;
    let size := table_size table in
    if occupied >=? size - size / 4 then
      match depth with
      | O => None
      | S depth' =>
        do s <- Grow (insert_nested depth') table;
        Some (s, true)
      end
    else Some (mk_nodeset table occupied, true).

(** The calls that [Grow] makes do not grow again. *)
Definition insert (s : NodeSet) (v : Z) : option (NodeSet * bool) := insert_nested 1 s v.

Definition erase (s : NodeSet) (v : Z) : option NodeSet :=
  do i <- FindIndex s v;
  do e <- read (table_ s) i;
  if e =? v then
    do table <- write (table_ s) i kDel;
    Some (mk_nodeset table (occupied_ s))
  else Some s.

(** [Next]: the next element and the cursor after it. *)
Fixpoint Next (fuel : nat) (s : NodeSet) (cursor : Z) : option (option (Z * Z)) :=
  if wrapu 32 cursor <? table_size (table_ s) then
    match fuel with
    | O => None
    | S fuel' =>
      do v <- read (table_ s) (wrapu 32 cursor);
      if v >=? 0 then Some (Some (v, cursor + 1)) else Next fuel' s (cursor + 1)
    end
  else Some None.

(** The elements in the order of [HASH_FOR_EACH]. *)
Definition elems (s : NodeSet) : list Z := filter (fun v => v >=? 0) (table_ s).

(** ** The invariant *)
Definition cell (t : list Z) (i : Z) : Z := nth (Z.to_nat i) t kEmpty.

(** The [n]th cell that is probed for [v]. *)
Definition probe (t : list Z) (v n : Z) : Z := (Hash v + n) mod table_size t.

Definition entry_ok (e : Z) : Prop := e = kEmpty \/ e = kDel \/ 0 <= e < 2 ^ 31.

(** Nothing that is probed for [v] before its [n]th cell is empty. *)
Definition reached (t : list Z) (v n : Z) : Prop :=
  0 <= n < table_size t /\ forall u, 0 <= u < n -> cell t (probe t v u) <> kEmpty.

Definition used (t : list Z) : Z := Z.of_nat (length (filter (fun e => negb (e =? kEmpty)) t)).

Record table_ok (t : list Z) : Prop := {
  t_size : exists k, 3 <= k <= 31 /\ table_size t = 2 ^ k;
  t_entries : Forall entry_ok t;
  t_distinct : NoDup (filter (fun v => v >=? 0) t);
  t_reached : forall i, 0 <= i < table_size t -> 0 <= cell t i -> exists n, probe t (cell t i) n = i /\ reached t (cell t i) n
}.

Record set_ok (s : NodeSet) : Prop := {
  s_table : table_ok (table_ s);
  s_count : occupied_ s = used (table_ s);
  s_room : occupied_ s < table_size (table_ s) - table_size (table_ s) / 4
}.

(** ** Probing *)
Lemma cell_nth t i : 0 <= i < table_size t -> read t i = Some (cell t i).
Proof. intros H. unfold cell. apply read_some. exact H. Qed.

Lemma cell_in t i : 0 <= i < table_size t -> In (cell t i) t.
Proof. intros H. apply nth_In. unfold table_size in H. lia. Qed.

Lemma in_cell t e : In e t -> exists i, 0 <= i < table_size t /\ cell t i = e.
Proof.
  intros H. apply (In_nth _ _ kEmpty) in H as (n & L & E). exists (Z.of_nat n). unfold table_size, cell.
  rewrite Nat2Z.id. split; [lia|exact E].
Qed.

(** Storing a value. *)
Lemma cell_write t i e j : 0 <= i < table_size t -> 0 <= j ->
  cell (replace_nth (Z.to_nat i) e t) j = if j =? i then e else cell t j.
Proof.
  intros H J. unfold cell. rewrite nth_replace_nth. unfold table_size in H.
  rewrite (proj2 (Nat.ltb_lt _ _)), andb_true_r by lia.
  destruct (Z.eqb_spec j i) as [-> |N]; [now rewrite Nat.eqb_refl|]. now rewrite (proj2 (Nat.eqb_neq _ _)) by lia.
Qed.

Lemma size_write (t : list Z) i e : table_size (replace_nth i e t) = table_size t.
Proof. unfold table_size. now rewrite replace_nth_length. Qed.

Lemma probe_write t i e v n : probe (replace_nth i e t) v n = probe t v n.
Proof. unfold probe. now rewrite size_write. Qed.

Section Probing.
Context (t : list Z) (k : Z) (Hk : 3 <= k <= 31) (Ht : table_size t = 2 ^ k).

Lemma size_pos : 8 <= table_size t <= 2 ^ 31.
Proof. rewrite Ht. change 8 with (2 ^ 3). split; apply Z.pow_le_mono_r; lia. Qed.

Lemma probe_range v n : 0 <= probe t v n < table_size t.
Proof. apply Z.mod_pos_bound. pose proof size_pos. lia. Qed.

Lemma set_mask_mod x : 0 <= x -> x .& (table_size t -[32] 1) = x mod table_size t.
Proof.
  intros H. pose proof size_pos. rewrite wrapu_small by lia. rewrite Ht. rewrite <- (Z.land_ones x k) by lia.
  f_equal. unfold Z.ones. rewrite Z.shiftl_1_l. lia.
Qed.

Lemma hash_range v : 0 <= Hash v.
Proof. unfold Hash. pose proof (wrapu_range 32 (wrapu 32 v * 41)). lia. Qed.

Lemma probe_first v : Hash v .& (table_size t -[32] 1) = probe t v 0.
Proof. rewrite set_mask_mod by apply hash_range. unfold probe. now rewrite Z.add_0_r. Qed.

Lemma probe_next v n : (probe t v n +[32] 1) .& (table_size t -[32] 1) = probe t v (n + 1).
Proof.
  pose proof (probe_range v n). pose proof size_pos. rewrite (wrapu_small 32) by lia.
  rewrite set_mask_mod by lia. unfold probe in *. rewrite Zplus_mod_idemp_l. f_equal. lia.
Qed.

Lemma probe_onto v i : 0 <= i < table_size t -> exists n, 0 <= n < table_size t /\ probe t v n = i.
Proof.
  intros H. exists ((i - Hash v) mod table_size t). split; [apply Z.mod_pos_bound; lia|].
  unfold probe. rewrite Zplus_mod_idemp_r. replace (Hash v + (i - Hash v)) with i by lia. apply Z.mod_small. lia.
Qed.

Lemma has_empty : used t < table_size t -> exists i, 0 <= i < table_size t /\ cell t i = kEmpty.
Proof.
  intros U. apply in_cell. unfold used, table_size in U. clear - U. induction t as [|e t' IH]; cbn [filter length] in U; [lia|].
  destruct (Z.eqb_spec e kEmpty) as [-> |N]; [now left|]. right. apply IH. cbn [negb length] in U. lia.
Qed.

(** What the loop has seen in the first [n] rounds. *)
Definition seen (v n : Z) (del : option Z) : Prop :=
  (forall u, 0 <= u < n -> cell t (probe t v u) <> kEmpty /\ cell t (probe t v u) <> v) /\
  match del with
  | None => True
  | Some d => exists u, 0 <= u < n /\ d = probe t v u /\ cell t d = kDel
  end.

(** The cell that is found: that of [v], or the one where it would be put. *)
Definition found (v i : Z) : Prop :=
  0 <= i < table_size t /\
  (cell t i = v \/
   ((cell t i = kEmpty \/ cell t i = kDel) /\ ~ In v t /\ exists n, probe t v n = i /\ reached t v n)).

Lemma find_loop_spec v : table_ok t -> 0 <= v < 2 ^ 31 -> used t < table_size t ->
  forall fuel n del, Z.of_nat fuel = table_size t - n -> 0 <= n -> seen v n del ->
  exists i, find_loop fuel t (table_size t -[32] 1) v (probe t v n) del = Some i /\ found v i.
Proof.
  intros Ok V U. destruct (has_empty U) as (e0 & E0 & C0). destruct (probe_onto v e0 E0) as (n0 & N0 & P0).
  induction fuel as [|fuel IH]; intros n del F N (S1 & S2); cbn [find_loop].
  { destruct (S1 n0 ltac:(lia)) as (S1' & _). rewrite P0 in S1'. contradiction. }
  pose proof (probe_range v n) as R. rewrite cell_nth by exact R. cbn [obind].
  destruct (Z.eqb_spec v (cell t (probe t v n))) as [E|E]; [exists (probe t v n); split; [reflexivity|split; auto]|].
  destruct (Z.eqb_spec (cell t (probe t v n)) kEmpty) as [C|C].
  - assert (NI : ~ In v t).
    { intros I. destruct (in_cell t v I) as (j & J & CJ). destruct (t_reached t Ok j J) as (m & M1 & M2 & M3); [lia|]. rewrite CJ in *.
      destruct (Z.lt_trichotomy m n) as [L|[L|L]].
      - destruct (S1 m ltac:(lia)) as (_ & S1'). rewrite M1 in S1'. contradiction.
      - subst m. rewrite M1 in E. congruence.
      - now apply (M3 n ltac:(lia)). }
    assert (Rn : forall u, 0 <= u <= n -> reached t v u) by (intros u Hu; split; [lia|]; intros w Hw; now apply (S1 w ltac:(lia))).
    destruct del as [d|].
    + destruct S2 as (u & Hu & D & CD). exists d. split; [reflexivity|]. split; [rewrite D; apply probe_range|].
      right. split; [auto|]. split; [exact NI|]. exists u. split; [auto|apply Rn; lia].
    + exists (probe t v n). split; [reflexivity|]. split; [exact R|]. right. split; [auto|]. split; [exact NI|]. exists n. split; [auto|apply Rn; lia].
  - rewrite probe_next. apply IH; [lia|lia|]. split.
    + intros u Hu. destruct (Z.eq_dec u n) as [-> |Nu]; [auto|]. apply S1. lia.
    + destruct del as [d|]; [destruct S2 as (u & Hu & Q); exists u; split; [lia|exact Q]|].
      destruct (Z.eqb_spec (cell t (probe t v n)) kDel) as [CD|CD]; [exists n; split; [lia|auto]|exact I].
Qed.

Lemma FindIndex_spec occ v : table_ok t -> 0 <= v < 2 ^ 31 -> used t < table_size t ->
  exists i, FindIndex (mk_nodeset t occ) v = Some i /\ found v i.
Proof.
  intros Ok V U. unfold FindIndex. cbn [table_]. rewrite probe_first. apply find_loop_spec; auto; [unfold table_size; lia|lia|].
  split; [intros; lia|exact I].
Qed.

(** Overwriting a cell with something that is not empty keeps the others reachable. *)
Lemma reached_write i e v n : 0 <= i < table_size t -> e <> kEmpty -> reached t v n -> reached (replace_nth (Z.to_nat i) e t) v n.
Proof.
  intros H E (N & R). split; [now rewrite size_write|]. intros u U. rewrite probe_write, cell_write; [|exact H|apply probe_range].
  case_if; [exact E|auto].
Qed.

End Probing.

(** ** Storing and erasing *)
Lemma filter_flat_map {A} (p : A -> bool) l : filter p l = flat_map (fun x => if p x then [x] else []) l.
Proof. induction l as [|x l IH]; [reflexivity|]. cbn. rewrite IH. now destruct (p x). Qed.

Lemma filter_replace {A} (p : A -> bool) n x (l : list A) y : nth_error l n = Some y ->
  Permutation ((if p y then [y] else []) ++ filter p (replace_nth n x l)) ((if p x then [x] else []) ++ filter p l).
Proof. intros E. rewrite !filter_flat_map. now apply (flat_map_replace_nth (fun x => if p x then [x] else [])). Qed.

Lemma nth_cell t i : 0 <= i < table_size t -> nth_error t (Z.to_nat i) = Some (cell t i).
Proof. intros H. unfold cell. apply nth_error_nth'. unfold table_size in H. lia. Qed.

Lemma used_write t i e : 0 <= i < table_size t -> e <> kEmpty ->
  used (replace_nth (Z.to_nat i) e t) = used t + (if cell t i =? kEmpty then 1 else 0).
Proof.
  intros H E. pose proof (filter_replace (fun e => negb (e =? kEmpty)) _ e t _ (nth_cell t i H)) as P.
  apply Permutation_length in P. rewrite !length_app in P. unfold used. rewrite (proj2 (Z.eqb_neq e kEmpty) E) in P. cbn [negb length] in P.
  destruct (cell t i =? kEmpty); cbn [negb length] in P; lia.
Qed.

(** The elements of a table. *)
Definition members (t : list Z) : list Z := filter (fun v => v >=? 0) t.

Lemma members_in t v : In v (members t) <-> In v t /\ 0 <= v.
Proof. unfold members. rewrite filter_In, Z.geb_leb, Z.leb_le. reflexivity. Qed.

Lemma members_write t i e : 0 <= i < table_size t ->
  Permutation ((if cell t i >=? 0 then [cell t i] else []) ++ members (replace_nth (Z.to_nat i) e t))
    ((if e >=? 0 then [e] else []) ++ members t).
Proof. intros H. apply (filter_replace (fun v => v >=? 0)). now apply nth_cell. Qed.

Lemma reached_after t i e : table_ok t -> 0 <= i < table_size t -> e <> kEmpty ->
  (0 <= e -> exists n, probe t e n = i /\ reached t e n) ->
  forall j, 0 <= j < table_size t -> let t' := replace_nth (Z.to_nat i) e t in
  0 <= cell t' j -> exists n, probe t' (cell t' j) n = j /\ reached t' (cell t' j) n.
Proof.
  intros Ok I E R j J t'. destruct (t_size t Ok) as (k & Hk & Ht). unfold t'. rewrite (cell_write t i e j) by (auto; lia).
  destruct (Z.eqb_spec j i) as [-> |N]; intros C; [destruct (R C) as (n & P & Q)|destruct (t_reached t Ok j J C) as (n & P & Q)];
    exists n; (split; [rewrite probe_write; exact P|now apply (reached_write t k Hk Ht)]).
Qed.

Lemma store_ok t v i : table_ok t -> 0 <= v < 2 ^ 31 -> found t v i -> cell t i <> v ->
  let t' := replace_nth (Z.to_nat i) v t in
  table_ok t' /\ Permutation (members t') (v :: members t) /\ ~ In v (members t) /\
  used t' = used t + (if cell t i =? kEmpty then 1 else 0).
Proof.
  intros Ok V (I & [C|(C & NI & n & P & R)]) N t'; [contradiction|].
  assert (Mt : Permutation (members t') (v :: members t)).
  { pose proof (members_write t i v I) as M. fold t' in M. replace (cell t i >=? 0) with false in M by (destruct C as [-> | ->]; reflexivity).
    rewrite Z.geb_leb, (proj2 (Z.leb_le _ _)) in M by lia. exact M. }
  assert (Nm : ~ In v (members t)) by (rewrite members_in; tauto).
  split; [|split; [exact Mt|split; [exact Nm|apply used_write; [exact I|unfold kEmpty; lia]]]].
  split.
  - unfold t'. rewrite size_write. apply Ok.
  - apply Forall_replace_nth; [right; right; exact V|apply Ok].
  - apply (Permutation_NoDup (Permutation_sym Mt)). constructor; [exact Nm|apply Ok].
  - unfold t'. rewrite size_write. intros j J. apply (reached_after t i v Ok I); [unfold kEmpty; lia|eauto|exact J].
Qed.

Lemma erase_ok t v i : table_ok t -> 0 <= v -> 0 <= i < table_size t -> cell t i = v ->
  let t' := replace_nth (Z.to_nat i) kDel t in
  table_ok t' /\ Permutation (members t) (v :: members t') /\ used t' = used t.
Proof.
  intros Ok V I C t'.
  assert (Mt : Permutation (members t) (v :: members t')).
  { pose proof (members_write t i kDel I) as M. fold t' in M. rewrite C, Z.geb_leb, (proj2 (Z.leb_le _ _)) in M by lia.
    apply Permutation_sym. exact M. }
  split; [|split; [exact Mt|]].
  - split.
    + unfold t'. rewrite size_write. apply Ok.
    + apply Forall_replace_nth; [right; left; reflexivity|apply Ok].
    + pose proof (Permutation_NoDup Mt (t_distinct t Ok)) as D. now inversion D.
    + unfold t'. rewrite size_write. intros j J. apply (reached_after t i kDel Ok I); [discriminate|unfold kDel; lia|exact J].
  - unfold t'. rewrite used_write by (auto; discriminate). rewrite C, (proj2 (Z.eqb_neq v kEmpty)) by (unfold kEmpty; lia). lia.
Qed.

(** ** Insertion that does not grow *)
Lemma found_member t v i : 0 <= v -> found t v i -> (cell t i = v <-> In v (members t)).
Proof.
  intros V (I & F). rewrite members_in. split.
  - intros E. split; [|exact V]. rewrite <- E. now apply cell_in.
  - intros (M & _). destruct F as [E|(_ & N & _)]; [exact E|contradiction].
Qed.

Lemma set_small s : set_ok s -> occupied_ s < table_size (table_ s) /\ 0 <= occupied_ s < 2 ^ 31.
Proof.
  intros Ok. destruct (t_size _ (s_table s Ok)) as (k & Hk & Ht). pose proof (size_pos _ k Hk Ht). pose proof (s_room s Ok).
  pose proof (s_count s Ok) as C. unfold used in C. split; [zlia|]. split; [lia|]. zlia.
Qed.

Lemma insert_found s v : set_ok s -> 0 <= v < 2 ^ 31 ->
  exists i, FindIndex s v = Some i /\ found (table_ s) v i /\ read (table_ s) i = Some (cell (table_ s) i).
Proof.
  intros Ok V. destruct (t_size _ (s_table s Ok)) as (k & Hk & Ht). destruct (set_small s Ok) as (U & _).
  rewrite (s_count s Ok) in U. destruct s as [t occ]. cbn [table_ occupied_] in *.
  destruct (FindIndex_spec t k Hk Ht occ v (s_table _ Ok) V U) as (i & E & F). exists i. split; [exact E|]. split; [exact F|].
  apply cell_nth. apply F.
Qed.

Lemma insert_small d s v : set_ok s -> 0 <= v < 2 ^ 31 ->
  occupied_ s + 1 < table_size (table_ s) - table_size (table_ s) / 4 -> ~ In v (elems s) ->
  exists s', insert_nested d s v = Some (s', true) /\ set_ok s' /\ table_size (table_ s') = table_size (table_ s) /\
  occupied_ s' <= occupied_ s + 1 /\ Permutation (elems s') (v :: elems s).
Proof.
  intros Ok V Room NI. destruct (insert_found s v Ok V) as (i & E & F & Rd). destruct (set_small s Ok) as (_ & O).
  assert (N : cell (table_ s) i <> v) by (intros C; apply (found_member _ v i) in C; auto; lia).
  destruct (store_ok _ v i (s_table s Ok) V F N) as (Ok' & P & _ & U).
  assert (W : write (table_ s) i v = Some (replace_nth (Z.to_nat i) v (table_ s))) by (apply write_some; apply F).
  set (occ := if cell (table_ s) i =? kEmpty then occupied_ s +[32] 1 else occupied_ s).
  assert (Eocc : occ = used (replace_nth (Z.to_nat i) v (table_ s))).
  { unfold occ. rewrite U, <- (s_count s Ok). case_if; [rewrite wrapu_small by lia|]; lia. }
  assert (Socc : occ <= occupied_ s + 1) by (rewrite Eocc, U, <- (s_count s Ok); case_if; lia).
  exists (mk_nodeset (replace_nth (Z.to_nat i) v (table_ s)) occ).
  split.
  - destruct d; cbn [insert_nested]; rewrite E; cbn [obind]; rewrite Rd; cbn [obind]; rewrite (proj2 (Z.eqb_neq _ _) N), W;
      cbn [obind]; fold occ; rewrite size_write, Z.geb_leb, (proj2 (Z.leb_gt _ _)) by lia; reflexivity.
  - cbn [table_ occupied_]. split; [|split; [apply size_write|split; [exact Socc|exact P]]].
    split; cbn [table_ occupied_]; [exact Ok'|exact Eocc|rewrite size_write; lia].
Qed.

(** ** Growth *)
Lemma reinsert_all d : forall l s, set_ok s -> Forall entry_ok l -> NoDup (members l ++ elems s) ->
  occupied_ s + Z.of_nat (length (members l)) < table_size (table_ s) - table_size (table_ s) / 4 ->
  exists s', fold_left (reinsert (insert_nested d)) l (Some s) = Some s' /\ set_ok s' /\
  table_size (table_ s') = table_size (table_ s) /\ occupied_ s' <= occupied_ s + Z.of_nat (length (members l)) /\
  Permutation (elems s') (members l ++ elems s).
Proof.
  induction l as [|e l IH]; intros s Ok En D Room.
  { exists s. cbn. repeat split; try apply Ok; try reflexivity; lia. }
  inversion En as [|? ? E En']. subst. cbn [fold_left reinsert obind]. cbn [members filter] in D, Room |- *. rewrite Z.geb_leb in *.
  destruct (Z.leb_spec 0 e) as [P|P]; [|now apply IH].
  assert (V : 0 <= e < 2 ^ 31) by (destruct E as [E|[E|E]]; [unfold kEmpty in E; lia|unfold kDel in E; lia|exact E]).
  cbn [app length] in D, Room. fold (members l) in *. inversion D as [|? ? NI D']. subst.
  destruct (insert_small d s e Ok V) as (s1 & I1 & Ok1 & Sz & Oc & Pm); [lia|intros I; apply NI; apply in_or_app; now right|].
  rewrite I1. cbn [obind].
  assert (Q : Permutation (members l ++ elems s1) (e :: members l ++ elems s)).
  { rewrite Pm. apply Permutation_sym, Permutation_middle. }
  destruct (IH s1 Ok1 En') as (s2 & F & Ok2 & Sz2 & O2 & P2).
  - apply (Permutation_NoDup (Permutation_sym Q)). exact D.
  - rewrite Sz. lia.
  - exists s2. split; [exact F|]. split; [exact Ok2|]. split; [congruence|]. split; [cbn [length]; lia|]. now rewrite P2.
Qed.

Lemma nth_repeat_any {A} (x : A) n i : nth i (repeat x n) x = x.
Proof. revert i. induction n as [|n IH]; intros [|i]; cbn; auto. Qed.

Lemma filter_repeat_none {A} (p : A -> bool) x n : p x = false -> filter p (repeat x n) = [].
Proof. intros H. induction n as [|n IH]; cbn; [reflexivity|now rewrite H]. Qed.

Lemma fresh_ok k : 3 <= k <= 31 -> let t := repeat kEmpty (Z.to_nat (2 ^ k)) in
  set_ok (mk_nodeset t 0) /\ table_size t = 2 ^ k /\ members t = [].
Proof.
  intros K t. assert (P : 2 ^ 3 <= 2 ^ k) by (apply Z.pow_le_mono_r; lia).
  assert (Sz : table_size t = 2 ^ k) by (unfold t, table_size; rewrite repeat_length; lia).
  assert (M : members t = []) by now apply filter_repeat_none.
  split; [|auto]. split; cbn [table_ occupied_].
  - split; [eauto| |fold (members t); rewrite M; constructor|].
    + apply Forall_forall. intros e I. left. now apply repeat_spec in I.
    + intros i I C. unfold cell, t in C. rewrite nth_repeat_any in C. unfold kEmpty in C. lia.
  - unfold used, t. now rewrite filter_repeat_none.
  - rewrite Sz. change (2 ^ 3) with 8 in P. zlia.
Qed.

Lemma Init_ok : set_ok Init /\ elems Init = [].
Proof. destruct (fresh_ok 3 ltac:(lia)) as (O & _ & M). split; [exact O|exact M]. Qed.

Lemma members_used t : Forall entry_ok t -> Z.of_nat (length (members t)) <= used t.
Proof.
  intros F. unfold used, members. induction F as [|e t E _ IH]; [cbn; lia|]. cbn [filter].
  destruct E as [-> |[-> |E]]; [exact IH|cbn [Z.geb Z.compare kDel Z.eqb Pos.eqb negb length]; cbn; lia|].
  rewrite Z.geb_leb, (proj2 (Z.leb_le _ _)) by lia. rewrite (proj2 (Z.eqb_neq _ _)) by (unfold kEmpty; lia). cbn [negb length]. lia.
Qed.

(** The table after a value was stored that fills it up to three quarters. *)
Lemma grow_spec d t : table_ok t -> used t = table_size t - table_size t / 4 -> table_size t < 2 ^ 31 ->
  exists s', Grow (insert_nested d) t = Some s' /\
  set_ok s' /\ table_size (table_ s') = 2 * table_size t /\ occupied_ s' <= used t /\
  Permutation (elems s') (members t).
Proof.
  intros Ok U Sz. destruct (t_size t Ok) as (k & K & Tk). rewrite Tk in Sz. assert (K31 : k < 31) by (apply (Z.pow_lt_mono_r_iff 2); lia).
  assert (E : table_size t *[32] 2 = 2 ^ (k + 1)).
  { rewrite Tk, Z.pow_add_r by lia. change (2 ^ 1) with 2. apply wrapu_small. lia. }
  unfold Grow. rewrite E. destruct (fresh_ok (k + 1) ltac:(lia)) as (O & S & M).
  set (t0 := repeat kEmpty (Z.to_nat (2 ^ (k + 1)))) in *.
  assert (S' : table_size t0 = 2 * table_size t) by (rewrite S, Tk, Z.pow_add_r by lia; lia).
  pose proof (size_pos t k K Tk) as B. pose proof (members_used t (t_entries t Ok)) as L.
  destruct (reinsert_all d t (mk_nodeset t0 0) O (t_entries t Ok)) as (s' & F & Ok' & Sz' & O' & P).
  - unfold elems. cbn [table_]. fold (members t0). rewrite M, app_nil_r. apply Ok.
  - cbn [occupied_ table_]. rewrite S'. rewrite U in L. zlia.
  - exists s'. split; [exact F|]. split; [exact Ok'|]. split; [rewrite Sz'; exact S'|].
    split; [cbn [occupied_] in O'; lia|]. rewrite P. unfold elems. cbn [table_]. fold (members t0). now rewrite M, app_nil_r.
Qed.

(** Insertion of a value that is a member, and of one that is not. *)
Lemma insert_member s v : set_ok s -> 0 <= v < 2 ^ 31 -> In v (elems s) -> insert s v = Some (s, false).
Proof.
  intros Ok V I. destruct (insert_found s v Ok V) as (i & E & F & Rd). unfold insert. cbn [insert_nested]. rewrite E. cbn [obind].
  rewrite Rd. cbn [obind]. apply (found_member _ v i) in I; [|lia|exact F]. now rewrite I, Z.eqb_refl.
Qed.

Lemma insert_new s v : set_ok s -> 0 <= v < 2 ^ 31 -> ~ In v (elems s) -> table_size (table_ s) < 2 ^ 31 ->
  exists s', insert s v = Some (s', true) /\ set_ok s' /\ Permutation (elems s') (v :: elems s) /\
  occupied_ s' <= occupied_ s + 1 /\
  (table_size (table_ s') = table_size (table_ s) \/
   table_size (table_ s') = 2 * table_size (table_ s) /\ occupied_ s + 1 = table_size (table_ s) - table_size (table_ s) / 4).
Proof.
  intros Ok V NI Sz.
  destruct (Z_lt_dec (occupied_ s + 1) (table_size (table_ s) - table_size (table_ s) / 4)) as [Room|Room].
  { destruct (insert_small 1 s v Ok V Room NI) as (s' & I & Ok' & S' & O' & P). exists s'. auto 6. }
  destruct (insert_found s v Ok V) as (i & E & F & Rd). destruct (set_small s Ok) as (_ & O). pose proof (s_room s Ok) as Rm.
  assert (N : cell (table_ s) i <> v) by (intros C; apply (found_member _ v i) in C; auto; lia).
  destruct (store_ok _ v i (s_table s Ok) V F N) as (Ok' & P & _ & U). set (t' := replace_nth (Z.to_nat i) v (table_ s)) in *.
  assert (W : write (table_ s) i v = Some t') by (apply write_some; apply F).
  assert (Sz' : table_size t' = table_size (table_ s)) by apply size_write.
  unfold insert. cbn [insert_nested]. rewrite E. cbn [obind]. rewrite Rd. cbn [obind]. rewrite (proj2 (Z.eqb_neq _ _) N), W. cbn [obind].
  rewrite <- (s_count s Ok) in U. rewrite Sz', Z.geb_leb. revert U.
  destruct (Z.eqb_spec (cell (table_ s) i) kEmpty) as [C|C]; intros U.
  - rewrite (wrapu_small 32) by lia. rewrite (proj2 (Z.leb_le _ _)) by lia.
    destruct (grow_spec 0 t' Ok') as (s' & G & Ok2 & S2 & O2 & P2); [rewrite Sz'; lia|lia|]. rewrite Sz' in S2.
    match goal with |- context [Grow ?f t'] => change f with (insert_nested 0) end. rewrite G. cbn [obind]. exists s'. split; [reflexivity|]. split; [exact Ok2|]. split; [now rewrite P2|]. split; [lia|]. right. lia.
  - rewrite (proj2 (Z.leb_gt _ _)) by lia. exists (mk_nodeset t' (occupied_ s)). split; [reflexivity|].
    split; [|split; [exact P|split; [cbn [occupied_]; lia|left; exact Sz']]]. split; cbn [table_ occupied_]; [exact Ok'|lia|rewrite Sz'; lia].
Qed.

Lemma erase_spec s v : set_ok s -> 0 <= v < 2 ^ 31 ->
  exists s', erase s v = Some s' /\ set_ok s' /\ table_size (table_ s') = table_size (table_ s) /\
  occupied_ s' = occupied_ s /\
  (In v (elems s) -> Permutation (elems s) (v :: elems s')) /\ (~ In v (elems s) -> s' = s).
Proof.
  intros Ok V. destruct (insert_found s v Ok V) as (i & E & F & Rd). unfold erase. rewrite E. cbn [obind]. rewrite Rd. cbn [obind].
  pose proof (found_member _ v i (proj1 V) F) as Fm. destruct (Z.eqb_spec (cell (table_ s) i) v) as [C|C].
  - destruct (erase_ok _ v i (s_table s Ok) (proj1 V) (proj1 F) C) as (Ok' & P & U).
    rewrite (write_some (table_ s) i kDel) by apply F. cbn [obind]. eexists. split; [reflexivity|]. cbn [table_ occupied_].
    split; [|split; [apply size_write|split; [reflexivity|split; [intros _; exact P|intros N; elim N; now apply Fm]]]].
    split; cbn [table_ occupied_]; [exact Ok'|rewrite U; apply Ok|rewrite size_write; apply Ok].
  - exists s. split; [reflexivity|]. split; [exact Ok|]. split; [reflexivity|]. split; [reflexivity|]. split; [|reflexivity].
    intros I. elim C. now apply Fm.
Qed.

Lemma set_contains_spec s v : set_ok s -> 0 <= v < 2 ^ 31 -> exists b, contains s v = Some b /\ (b = true <-> In v (elems s)).
Proof.
  intros Ok V. destruct (insert_found s v Ok V) as (i & E & F & Rd). unfold contains. rewrite E. cbn [obind]. rewrite Rd. cbn [obind].
  exists (cell (table_ s) i =? v). split; [reflexivity|]. rewrite Z.eqb_eq. apply found_member; [lia|exact F].
Qed.

Lemma elems_range s v : set_ok s -> In v (elems s) -> 0 <= v < 2 ^ 31.
Proof.
  intros Ok I. apply filter_In in I as (I & P). rewrite Z.geb_leb in P. apply Z.leb_le in P.
  pose proof (proj1 (Forall_forall _ _) (t_entries _ (s_table s Ok)) v I) as [E|[E|E]]; [unfold kEmpty in E|unfold kDel in E|]; lia.
Qed.

Lemma elems_distinct s : set_ok s -> NoDup (elems s).
Proof. intros Ok. apply (t_distinct _ (s_table s Ok)). Qed.

(** ** Iteration *)

(** The values that [HASH_FOR_EACH] gives its body, from a cursor on. *)
Fixpoint for_each (fuel : nat) (s : NodeSet) (cursor : Z) : option (list Z) :=
  match fuel with
  | O => None
  | S fuel' =>
    do r <- Next (length (table_ s)) s cursor;
    match r with
    | None => Some []
    | Some (elem, cursor') => do l <- for_each fuel' s cursor'; Some (elem :: l)
    end
  end.

Definition HASH_FOR_EACH (s : NodeSet) : option (list Z) := for_each (S (length (table_ s))) s 0.

Lemma skipn_cell t n : (n < length t)%nat -> skipn n t = cell t (Z.of_nat n) :: skipn (S n) t.
Proof.
  unfold cell. rewrite Nat2Z.id. revert n. induction t as [|e t IH]; intros [|n] L; cbn [length] in L; try lia; [reflexivity|].
  cbn [skipn nth]. rewrite <- IH by lia. reflexivity.
Qed.

Lemma members_cons e t : members (e :: t) = if e >=? 0 then e :: members t else members t.
Proof. reflexivity. Qed.

Lemma Next_spec s : table_size (table_ s) < 2 ^ 31 -> forall fuel n, (n <= length (table_ s) <= n + fuel)%nat ->
  (Next fuel s (Z.of_nat n) = Some None /\ members (skipn n (table_ s)) = []) \/
  exists v m, Next fuel s (Z.of_nat n) = Some (Some (v, Z.of_nat m)) /\ (n < m <= length (table_ s))%nat /\
  members (skipn n (table_ s)) = v :: members (skipn m (table_ s)).
Proof.
  intros Sz. unfold table_size in Sz. induction fuel as [|fuel IH]; intros n L; cbn [Next];
    rewrite wrapu_small by lia; fold (table_size (table_ s)); case_if; try (unfold table_size in *; lia).
  1,3: left; split; [reflexivity|]; rewrite skipn_all2 by (unfold table_size in *; lia); reflexivity.
  rewrite cell_nth by lia. cbn [obind]. unfold table_size in *. rewrite skipn_cell by lia. rewrite !members_cons.
  destruct (cell (table_ s) (Z.of_nat n) >=? 0).
  - right. exists (cell (table_ s) (Z.of_nat n)), (S n). split; [repeat f_equal; lia|]. split; [lia|reflexivity].
  - replace (Z.of_nat n + 1) with (Z.of_nat (S n)) by lia. destruct (IH (S n) ltac:(lia)) as [I|(v & m & A & B & C)]; [now left|].
    right. exists v, m. split; [exact A|]. split; [lia|exact C].
Qed.

Lemma for_each_spec s : table_size (table_ s) < 2 ^ 31 -> HASH_FOR_EACH s = Some (elems s).
Proof.
  intros Sz. unfold HASH_FOR_EACH.
  enough (G : forall fuel n, (n <= length (table_ s) < n + fuel)%nat -> for_each fuel s (Z.of_nat n) = Some (members (skipn n (table_ s))))
    by (apply (G (S (length (table_ s))) 0%nat); lia).
  induction fuel as [|fuel IH]; intros n L; [lia|]. cbn [for_each].
  destruct (Next_spec s Sz (length (table_ s)) n ltac:(lia)) as [(N & M)|(v & m & N & B & M)]; rewrite N; cbn [obind].
  - now rewrite M.
  - rewrite IH by lia. cbn [obind]. now rewrite M.
Qed.

(** ** Refinement of a mathematical set *)
Inductive set_op := OpInsert (v : Z) | OpErase (v : Z) | OpContains (v : Z) | OpClear.

Definition op_ok (o : set_op) : Prop :=
  match o with OpInsert v | OpErase v | OpContains v => 0 <= v < 2 ^ 31 | OpClear => True end.

(** An operation and what it returns ([false] for those that return nothing). *)
Definition do_op (s : NodeSet) (o : set_op) : option (NodeSet * bool) :=
  match o with
  | OpInsert v => insert s v
  | OpErase v => do s <- erase s v; Some (s, false)
  | OpContains v => do b <- contains s v; Some (s, b)
  | OpClear => Some (Init, false)
  end.

Fixpoint do_ops (s : NodeSet) (os : list set_op) : option (NodeSet * list bool) :=
  match os with
  | [] => Some (s, [])
  | o :: os => do (s, b) <- do_op s o; do (s, bs) <- do_ops s os; Some (s, b :: bs)
  end.

(** The same on a list without repetitions. *)
Definition mem (v : Z) (l : list Z) : bool := existsb (Z.eqb v) l.

Definition spec_op (l : list Z) (o : set_op) : list Z * bool :=
  match o with
  | OpInsert v => if mem v l then (l, false) else (v :: l, true)
  | OpErase v => (filter (fun w => negb (w =? v)) l, false)
  | OpContains v => (l, mem v l)
  | OpClear => ([], false)
  end.

Fixpoint spec_ops (l : list Z) (os : list set_op) : list Z * list bool :=
  match os with
  | [] => (l, [])
  | o :: os => let '(l, b) := spec_op l o in let '(l, bs) := spec_ops l os in (l, b :: bs)
  end.

Lemma mem_in v l : mem v l = true <-> In v l.
Proof. unfold mem. rewrite existsb_exists. split; [intros (w & I & E); apply Z.eqb_eq in E; now subst|intros I; exists v; split; [exact I|apply Z.eqb_refl]]. Qed.

Lemma mem_perm v l l' : Permutation l l' -> mem v l = mem v l'.
Proof. intros P. apply eq_true_iff_eq. rewrite !mem_in. split; apply Permutation_in; [exact P|now apply Permutation_sym]. Qed.

Lemma filter_not_in v l : ~ In v l -> filter (fun w => negb (w =? v)) l = l.
Proof.
  induction l as [|w l IH]; intros N; [reflexivity|]. cbn [filter]. destruct (Z.eqb_spec w v) as [-> |D]; [elim N; now left|].
  cbn [negb]. f_equal. apply IH. intros I. apply N. now right.
Qed.

Lemma set_filter_perm {A} (p : A -> bool) l l' : Permutation l l' -> Permutation (filter p l) (filter p l').
Proof.
  induction 1 as [|x l l' P IH|x y l|l l' l'' P1 IH1 P2 IH2]; cbn [filter]; [reflexivity| | |etransitivity; eauto].
  - destruct (p x); [now apply perm_skip|exact IH].
  - destruct (p x), (p y); reflexivity || apply perm_swap.
Qed.

(** The state after [m] insertions: well formed, with the elements of [l], and a table that is not larger than
    the insertions have made it. *)
Definition stands_for (m : Z) (s : NodeSet) (l : list Z) : Prop :=
  set_ok s /\ Permutation (elems s) l /\ occupied_ s <= m /\ (table_size (table_ s) <= 8 \/ 3 * table_size (table_ s) <= 8 * m).

Definition max_insertions : Z := 2 ^ 29.

Lemma stands_small m s l : stands_for m s l -> m <= max_insertions -> table_size (table_ s) < 2 ^ 31.
Proof. intros (_ & _ & _ & S) M. unfold max_insertions in M. lia. Qed.

Lemma op_refines m s l o : stands_for m s l -> m < max_insertions -> op_ok o ->
  exists s', do_op s o = Some (s', snd (spec_op l o)) /\ stands_for (m + 1) s' (fst (spec_op l o)).
Proof.
  intros St M O. pose proof (stands_small m s l St ltac:(lia)) as Sm. destruct St as (Ok & P & Oc & Sz).
  pose proof (fun v => mem_perm v _ _ P) as Mp. destruct o as [v|v|v|]; cbn [do_op spec_op op_ok] in *.
  - rewrite <- Mp. destruct (mem v (elems s)) eqn:E; cbn [fst snd].
    + rewrite insert_member by (auto; now apply mem_in). exists s. repeat split; auto; try apply Ok; lia.
    + destruct (insert_new s v Ok O) as (s' & I & Ok' & P' & O' & S'); [intros I; apply mem_in in I; congruence|exact Sm|].
      exists s'. rewrite I. split; [reflexivity|]. split; [exact Ok'|]. split; [now rewrite P', P|]. split; [lia|].
      destruct S' as [S'|(S' & R)]; [lia|]. right. destruct (t_size _ (s_table s Ok)) as (k & K & Tk).
      assert (D4 : 4 * (table_size (table_ s) / 4) = table_size (table_ s)).
      { rewrite Tk. replace k with (k - 2 + 2) at 1 2 by lia. rewrite Z.pow_add_r by lia. change (2 ^ 2) with 4. rewrite Z.div_mul; lia. }
      lia.
  - destruct (erase_spec s v Ok O) as (s' & E & Ok' & S' & O' & I & N). rewrite E. cbn [obind fst snd]. exists s'.
    split; [reflexivity|]. split; [exact Ok'|]. split; [|lia]. rewrite <- (set_filter_perm _ _ _ P).
    destruct (In_dec Z.eq_dec v (elems s)) as [A|A].
    + pose proof (Permutation_NoDup (I A) (elems_distinct s Ok)) as D. inversion D as [|? ? D1 D2]. subst.
      rewrite (set_filter_perm _ _ _ (I A)). cbn [filter]. rewrite Z.eqb_refl. cbn [negb]. now rewrite filter_not_in.
    + rewrite (N A). now rewrite filter_not_in.
  - destruct (set_contains_spec s v Ok O) as (b & E & B). rewrite E. cbn [obind fst snd]. exists s. split; [|repeat split; auto; try apply Ok; lia].
    do 2 f_equal. apply eq_true_iff_eq. rewrite <- Mp, mem_in. exact B.
  - destruct Init_ok as (I & E). exists Init. split; [reflexivity|]. split; [exact I|]. rewrite E. split; [reflexivity|].
    split; [|left; vm_compute; discriminate]. destruct (set_small s Ok) as (_ & B). cbn [occupied_ Init]. lia.
Qed.

Lemma ops_refine : forall os m s l, stands_for m s l -> m + Z.of_nat (length os) <= max_insertions -> Forall op_ok os ->
  exists s' m', do_ops s os = Some (s', snd (spec_ops l os)) /\ m' <= max_insertions /\ stands_for m' s' (fst (spec_ops l os)).
Proof.
  induction os as [|o os IH]; intros m s l St M F; [exists s, m; split; [reflexivity|]; cbn [length] in M; split; [lia|exact St]|].
  inversion F as [|? ? F1 F2]. subst. cbn [length] in M. destruct (op_refines m s l o St ltac:(lia) F1) as (s1 & E & St1).
  cbn [do_ops spec_ops]. rewrite E. cbn [obind]. destruct (spec_op l o) as [l1 b]. cbn [fst snd] in *.
  destruct (IH (m + 1) s1 l1 St1 ltac:(lia) F2) as (s2 & m2 & E2 & M2 & St2). exists s2, m2. rewrite E2. cbn [obind].
  destruct (spec_ops l1 os) as [l2 bs]. auto.
Qed.

(** The adjacency sets of the lock-order graph refine mathematical sets: any sequence of at most 2^29
    insertions, erasures, membership tests and clearings of values from [0, 2^31) runs to its end (the probing
    ends, growth never grows again), returns what the same operations return on a mathematical set, and leaves a
    table whose iteration visits each element of that set exactly once. *)
Lemma nodeset_correct os : Forall op_ok os -> Z.of_nat (length os) <= max_insertions ->
  exists s, do_ops Init os = Some (s, snd (spec_ops [] os)) /\ set_ok s /\
  HASH_FOR_EACH s = Some (elems s) /\ NoDup (elems s) /\ Permutation (elems s) (fst (spec_ops [] os)).
Proof.
  intros F L. destruct Init_ok as (I & E).
  assert (St : stands_for 0 Init []) by (split; [exact I|]; rewrite E; split; [reflexivity|split]; [cbn; lia|left; vm_compute; discriminate]).
  destruct (ops_refine os 0 Init [] St ltac:(lia) F) as (s & m & R & M & S). exists s. split; [exact R|].
  pose proof (stands_small m s _ S M) as Sm. destruct S as (Ok & P & _).
  split; [exact Ok|]. split; [now apply for_each_spec|]. split; [now apply elems_distinct|exact P].
Qed.

Lemma nodeset_correct_witness :
  let os := map OpInsert [3; 11; 19; 3; 27; 35; 43] ++ [OpErase 11; OpContains 11; OpContains 43; OpInsert 51] in
  exists s, do_ops Init os = Some (s, snd (spec_ops [] os)) /\ set_ok s /\
  HASH_FOR_EACH s = Some (elems s) /\ NoDup (elems s) /\ Permutation (elems s) (fst (spec_ops [] os)).
Proof.
  intros os. apply (nodeset_correct os).
  - unfold os. cbn [map app]. repeat constructor; cbn; lia.
  - vm_compute. discriminate.
Defined.

