(* ===== verification/GraphNode.v ===== *)
(** The nodes of the lock-order graph, their identifiers and the map from pointers to nodes
    ([synchronization/internal/graphcycles.cc], [base/internal/hide_ptr.h]).  The vector of nodes is a list, the
    buckets of the pointer map are a function (an index is a remainder, so it is always inside the array), and
    the chains of the map go through the nodes as in the code. *)
From Stdlib Require Import ZArith Lia List Bool Permutation FunctionalExtensionality.
From S2P Require Import Prelude NodeSet.
Import ListNotations.
#[local] Open Scope Z_scope.
#[local] Open Scope mach_scope.

(** ** hide_ptr.h *)
Definition HideMask : Z := (0xF03A5F7B <<[64] ((8 - 4) * 8)) .| 0xF03A5F7B.

Definition HidePtr (ptr : Z) : Z := ptr .^ HideMask.

Definition UnhidePtr (hidden : Z) : Z := hidden .^ HideMask.

(** ** Identifiers *)
Definition InvalidGraphId : Z := 0.

Definition MakeId (index version : Z) : Z := (version <<[64] 32) .| wrapu 32 index.

Definition NodeIndex (id : Z) : Z := wraps 32 id.

Definition NodeVersion (id : Z) : Z := wrapu 32 (id >> 32).

(** ** Nodes *)
Record Node := mk_node {
  rank : Z;
  version : Z;
  next_hash : Z;
  visited : bool;
  masked_ptr : Z;
  in_ : NodeSet;
  out : NodeSet;
  priority : Z;
  nstack : Z;
  stack : list Z
}.

Definition set_rank (r : Z) (n : Node) : Node :=
  mk_node r (version n) (next_hash n) (visited n) (masked_ptr n) (in_ n) (out n) (priority n) (nstack n) (stack n).

Definition set_next (i : Z) (n : Node) : Node :=
  mk_node (rank n) (version n) i (visited n) (masked_ptr n) (in_ n) (out n) (priority n) (nstack n) (stack n).

Definition set_visited (b : bool) (n : Node) : Node :=
  mk_node (rank n) (version n) (next_hash n) b (masked_ptr n) (in_ n) (out n) (priority n) (nstack n) (stack n).

Definition set_in (s : NodeSet) (n : Node) : Node :=
  mk_node (rank n) (version n) (next_hash n) (visited n) (masked_ptr n) s (out n) (priority n) (nstack n) (stack n).

Definition set_out (s : NodeSet) (n : Node) : Node :=
  mk_node (rank n) (version n) (next_hash n) (visited n) (masked_ptr n) (in_ n) s (priority n) (nstack n) (stack n).

(** A pointer is recorded in a node, with no stack trace yet. *)
Definition set_ptr (p : Z) (n : Node) : Node :=
  mk_node (rank n) (version n) (next_hash n) (visited n) (HidePtr p) (in_ n) (out n) 0 0 (stack n).

(** The node of an index of the vector, and its update in place. *)
Definition node_at (nodes : list Node) (i : Z) : option Node := read nodes (wrapu 32 i).

Definition update (nodes : list Node) (i : Z) (f : Node -> Node) : option (list Node) :=
  do n <- node_at nodes i;
  write nodes (wrapu 32 i) (f n).

(** ** The pointer map *)
Module PointerMap.

Definition kHashTableSize : Z := 262139.

Definition Hash (ptr : Z) : Z := wrapu 32 (ptr mod kHashTableSize).

Definition Heads := Z -> Z.

Definition set_head (heads : Heads) (h i : Z) : Heads := fun k => if k =? h then i else heads k.

Fixpoint find_in_chain (fuel : nat) (nodes : list Node) (masked i : Z) : option Z :=
  if i =? -1 then Some (-1)
  else
    match fuel with
    | O => None
    | S fuel' =>
      do n <- node_at nodes i;
      if masked_ptr n =? masked then Some i else find_in_chain fuel' nodes masked (next_hash n)
    end.

Definition Find (heads : Heads) (nodes : list Node) (ptr : Z) : option Z :=
  find_in_chain (length nodes) nodes (HidePtr ptr) (heads (Hash ptr)).

Definition Add (heads : Heads) (nodes : list Node) (ptr i : Z) : option (Heads * list Node) :=
  do nodes <- update nodes i (set_next (heads (Hash ptr)));
  Some (set_head heads (Hash ptr) i, nodes).

(** The slot that [Remove] advances: a bucket, or the [next_hash] of a node. *)
Inductive Slot := Bucket (h : Z) | NextOf (i : Z).

Definition read_slot (heads : Heads) (nodes : list Node) (s : Slot) : option Z :=
  match s with
  | Bucket h => Some (heads h)
  | NextOf i => do n <- node_at nodes i; Some (next_hash n)
  end.

Definition write_slot (heads : Heads) (nodes : list Node) (s : Slot) (v : Z) : option (Heads * list Node) :=
  match s with
  | Bucket h => Some (set_head heads h v, nodes)
  | NextOf i => do nodes <- update nodes i (set_next v); Some (heads, nodes)
  end.

Fixpoint remove_from_chain (fuel : nat) (heads : Heads) (nodes : list Node) (masked : Z) (slot : Slot) :
  option (Heads * list Node * Z) :=
  do index <- read_slot heads nodes slot;
  if index =? -1 then Some (heads, nodes, -1)
  else
    match fuel with
    | O => None
    | S fuel' =>
      do n <- node_at nodes index;
      if masked_ptr n =? masked then
        do (heads, nodes) <- write_slot heads nodes slot (next_hash n);
        do nodes <- update nodes index (set_next (-1));
        Some (heads, nodes, index)
      else remove_from_chain fuel' heads nodes masked (NextOf index)
    end.

Definition Remove (heads : Heads) (nodes : list Node) (ptr : Z) : option (Heads * list Node * Z) :=
  remove_from_chain (length nodes) heads nodes (HidePtr ptr) (Bucket (Hash ptr)).

End PointerMap.

(** ** Words *)
Lemma UnhidePtr_HidePtr p : UnhidePtr (HidePtr p) = p.
Proof. unfold UnhidePtr, HidePtr. now rewrite Z.lxor_assoc, Z.lxor_nilpotent, Z.lxor_0_r. Qed.

Lemma HidePtr_inj p q : HidePtr p = HidePtr q -> p = q.
Proof. intros E. rewrite <- (UnhidePtr_HidePtr p), <- (UnhidePtr_HidePtr q). now f_equal. Qed.

Lemma MakeId_val i v : 0 <= i < 2 ^ 31 -> 0 <= v < 2 ^ 32 -> MakeId i v = i + 2 ^ 32 * v.
Proof.
  intros I V. unfold MakeId. rewrite (wrapu_small 32 i) by lia. rewrite wrapu_small by (rewrite Z.shiftl_mul_pow2 by lia; lia).
  rewrite Z.lor_comm. apply lor_lohi; unfold in_u; lia.
Qed.

Lemma NodeIndex_MakeId i v : 0 <= i < 2 ^ 31 -> 0 <= v < 2 ^ 32 -> NodeIndex (MakeId i v) = i.
Proof.
  intros I V. rewrite MakeId_val by assumption. unfold NodeIndex. rewrite (wraps_unique 32 _ (- v)); [lia|lia|].
  unfold in_s. change (32 - 1) with 31. lia.
Qed.

Lemma NodeVersion_MakeId i v : 0 <= i < 2 ^ 31 -> 0 <= v < 2 ^ 32 -> NodeVersion (MakeId i v) = v.
Proof.
  intros I V. rewrite MakeId_val by assumption. unfold NodeVersion. rewrite Z.shiftr_div_pow2 by lia.
  rewrite Z.mul_comm, Z.div_add, Z.div_small by lia. apply wrapu_small. lia.
Qed.

(** ** Access to the vector *)
Definition blank : Node := mk_node 0 0 0 false 0 Init Init 0 0 [].

Definition nd (ns : list Node) (i : Z) : Node := nth (Z.to_nat i) ns blank.

Definition valid (ns : list Node) (i : Z) : Prop := 0 <= i < Z.of_nat (length ns).

Definition small (ns : list Node) : Prop := Z.of_nat (length ns) < 2 ^ 31.

(** The vector with one node changed. *)
Definition upd (ns : list Node) (i : Z) (f : Node -> Node) : list Node := replace_nth (Z.to_nat i) (f (nd ns i)) ns.

Lemma valid_dec ns i : {valid ns i} + {~ valid ns i}.
Proof. unfold valid. destruct (Z_le_dec 0 i), (Z_lt_dec i (Z.of_nat (length ns))); [left; lia|right; lia..]. Qed.

Lemma node_at_valid ns i : small ns -> valid ns i -> node_at ns i = Some (nd ns i).
Proof. intros S V. unfold small, valid in *. unfold node_at. rewrite wrapu_small by lia. now apply read_some. Qed.

Lemma update_valid ns i f : small ns -> valid ns i -> update ns i f = Some (upd ns i f).
Proof.
  intros S V. unfold update. rewrite node_at_valid by assumption. cbn [obind]. unfold small, valid in *.
  rewrite wrapu_small by lia. now apply write_some.
Qed.

Lemma upd_nodes_length ns i f : length (upd ns i f) = length ns.
Proof. apply replace_nth_length. Qed.

Lemma valid_upd ns i f j : valid (upd ns i f) j <-> valid ns j.
Proof. unfold valid. now rewrite upd_nodes_length. Qed.

Lemma small_upd ns i f : small ns -> small (upd ns i f).
Proof. unfold small. now rewrite upd_nodes_length. Qed.

Lemma nd_upd ns i f j : valid ns i -> 0 <= j -> nd (upd ns i f) j = if j =? i then f (nd ns i) else nd ns j.
Proof.
  intros V J. unfold valid in V. unfold nd, upd. rewrite nth_replace_nth, (proj2 (Nat.ltb_lt _ _)), andb_true_r by lia.
  destruct (Z.eqb_spec j i) as [-> |N]; [now rewrite Nat.eqb_refl|]. now rewrite (proj2 (Nat.eqb_neq _ _)) by lia.
Qed.

Lemma nd_upd_same ns i f : valid ns i -> nd (upd ns i f) i = f (nd ns i).
Proof. intros V. rewrite nd_upd, Z.eqb_refl; [reflexivity|exact V|apply V]. Qed.

Lemma nd_upd_other ns i f j : valid ns i -> 0 <= j -> j <> i -> nd (upd ns i f) j = nd ns j.
Proof. intros V J N. now rewrite nd_upd, (proj2 (Z.eqb_neq _ _) N). Qed.

(** A field that a change leaves alone. *)
Lemma upd_field {B} (p : Node -> B) ns i f j : valid ns i -> 0 <= j -> p (f (nd ns i)) = p (nd ns i) ->
  p (nd (upd ns i f) j) = p (nd ns j).
Proof. intros V J E. rewrite nd_upd by assumption. destruct (Z.eqb_spec j i) as [-> |N]; [exact E|reflexivity]. Qed.

Lemma upd_map {B} (p : Node -> B) ns i f : valid ns i -> p (f (nd ns i)) = p (nd ns i) -> map p (upd ns i f) = map p ns.
Proof.
  intros V E. unfold upd, nd, valid in *. assert (L : (Z.to_nat i < length ns)%nat) by lia. clear V. revert E L.
  generalize (Z.to_nat i) as k. induction ns as [|n ns IH]; intros [|k] E L; cbn [replace_nth nth map length] in *; try lia.
  - now rewrite E.
  - f_equal. apply IH; [exact E|lia].
Qed.

(** A list of distinct indices is not longer than the vector. *)
Lemma distinct_length ns l : NoDup l -> (forall i, In i l -> valid ns i) -> (length l <= length ns)%nat.
Proof.
  intros D V. rewrite <- (length_map Z.to_nat l), <- (length_seq (length ns) 0). apply NoDup_incl_length.
  - assert (NN : forall i, In i l -> 0 <= i) by (intros i I; apply (V i I)). clear V. induction D as [|i l NI D IH]; cbn; constructor.
    + intros I. apply in_map_iff in I as (j & E & J). assert (i = j) by (apply Z2Nat.inj; auto using in_eq, in_cons). subst. contradiction.
    + apply IH. intros j J. apply NN. now right.
  - intros k I. apply in_map_iff in I as (i & <- & I). apply in_seq. specialize (V i I). unfold valid in V. lia.
Qed.

(** ** The chains of the pointer map *)
Module PointerMapFacts.
Import PointerMap.

Definition node_ptr (ns : list Node) (i : Z) : Z := UnhidePtr (masked_ptr (nd ns i)).

Fixpoint linked (ns : list Node) (i : Z) (chain : list Z) : Prop :=
  match chain with
  | [] => i = -1
  | a :: l => i = a /\ valid ns a /\ linked ns (next_hash (nd ns a)) l
  end.

(** The map holds the nodes of [L]: each bucket starts a chain of the nodes of [L] whose pointers hash to it,
    and no two of them have the same pointer. *)
Record map_ok (L : Z -> Prop) (heads : Heads) (ns : list Node) : Prop := {
  m_valid : forall i, L i -> valid ns i;
  m_chain : forall h, exists l, linked ns (heads h) l /\ NoDup l /\ forall i, In i l <-> L i /\ Hash (node_ptr ns i) = h;
  m_ptrs : forall i j, L i -> L j -> masked_ptr (nd ns i) = masked_ptr (nd ns j) -> i = j
}.

Lemma linked_valid ns l : forall i, linked ns i l -> forall a, In a l -> valid ns a.
Proof. induction l as [|b l IH]; intros i K a I; [destruct I|]. destruct K as (_ & V & K). destruct I as [-> |I]; eauto. Qed.

Lemma linked_frame ns ns' l : length ns' = length ns \/ (length ns <= length ns')%nat -> forall i,
  (forall a, In a l -> next_hash (nd ns' a) = next_hash (nd ns a)) -> linked ns i l -> linked ns' i l.
Proof.
  intros E. induction l as [|a l IH]; intros i F K; [exact K|]. destruct K as (-> & V & K). split; [reflexivity|].
  split; [unfold valid in *; lia|]. rewrite F by now left. apply IH; [|exact K]. intros b B. apply F. now right.
Qed.

(** The map looks at nothing but the pointers and the links. *)
Lemma map_ok_frame (L L' : Z -> Prop) heads ns ns' : map_ok L heads ns -> (forall i, L' i <-> L i) -> length ns' = length ns ->
  (forall i, valid ns i -> masked_ptr (nd ns' i) = masked_ptr (nd ns i) \/ ~ L i) ->
  (forall i, valid ns i -> next_hash (nd ns' i) = next_hash (nd ns i)) -> map_ok L' heads ns'.
Proof.
  intros Ok E Len P N.
  assert (P' : forall i, L i -> masked_ptr (nd ns' i) = masked_ptr (nd ns i)).
  { intros i I. destruct (P i (m_valid _ _ _ Ok i I)) as [Q|Q]; [exact Q|contradiction]. }
  split.
  - intros i I. apply E in I. pose proof (m_valid _ _ _ Ok i I) as V. unfold valid in *. now rewrite Len.
  - intros h. destruct (m_chain _ _ _ Ok h) as (l & K & D & M). exists l. split; [|split; [exact D|]].
    + apply (linked_frame ns); [now left| |exact K]. intros a A. apply N. now apply (linked_valid ns l (heads h)).
    + intros i. rewrite M, E. unfold node_ptr. split; intros (I & H); (split; [exact I|]); [rewrite P'|rewrite <- P']; auto.
  - intros i j I J Q. apply E in I, J. rewrite !P' in Q by assumption. now apply (m_ptrs _ _ _ Ok).
Qed.

Lemma find_in_chain_spec ns m : small ns -> forall l fuel i, linked ns i l -> (length l <= fuel)%nat ->
  exists r, find_in_chain fuel ns m i = Some r /\
  (r = -1 /\ (forall a, In a l -> masked_ptr (nd ns a) <> m) \/ In r l /\ masked_ptr (nd ns r) = m).
Proof.
  intros S. induction l as [|a l IH]; intros fuel i K F.
  - cbn in K. subst i. exists (-1). split; [destruct fuel; reflexivity|]. left. split; [reflexivity|intros a []].
  - destruct K as (-> & V & K). cbn [length] in F. destruct fuel as [|fuel]; [lia|]. cbn [find_in_chain].
    rewrite (proj2 (Z.eqb_neq _ _)) by (destruct V; lia). rewrite node_at_valid by assumption. cbn [obind].
    destruct (Z.eqb_spec (masked_ptr (nd ns a)) m) as [E|E]; [exists a; split; [reflexivity|right; split; [now left|exact E]]|].
    destruct (IH fuel _ K ltac:(lia)) as (r & R & [(-> & Q)|(I & Q)]); exists r || exists (-1); (split; [exact R|]).
    + left. split; [reflexivity|]. intros b [<- |B]; auto.
    + right. split; [now right|exact Q].
Qed.

Lemma chain_length L heads ns h l : map_ok L heads ns -> linked ns (heads h) l -> NoDup l -> (length l <= length ns)%nat.
Proof. intros Ok K D. apply distinct_length; [exact D|]. now apply (linked_valid ns l (heads h)). Qed.

Lemma hash_of_masked ns i p : masked_ptr (nd ns i) = HidePtr p -> Hash (node_ptr ns i) = Hash p.
Proof. intros E. unfold node_ptr. now rewrite E, UnhidePtr_HidePtr. Qed.

Lemma Find_spec L heads ns p : small ns -> map_ok L heads ns ->
  exists r, Find heads ns p = Some r /\
  (r = -1 /\ (forall i, L i -> masked_ptr (nd ns i) <> HidePtr p) \/ L r /\ masked_ptr (nd ns r) = HidePtr p).
Proof.
  intros S Ok. destruct (m_chain _ _ _ Ok (Hash p)) as (l & K & D & M).
  destruct (find_in_chain_spec ns (HidePtr p) S l (length ns) _ K (chain_length _ _ _ _ _ Ok K D)) as (r & R & Q).
  exists r. split; [exact R|]. destruct Q as [(-> & Q)|(I & Q)]; [left|right].
  - split; [reflexivity|]. intros i I E. apply (Q i); [|exact E]. apply M. split; [exact I|now apply hash_of_masked].
  - apply M in I as (I & _). auto.
Qed.

(** Adding a node that is not in the map: [ns'] is the vector in which the node has its pointer. *)
Lemma Add_spec L heads ns ns' p i : small ns' -> map_ok L heads ns -> (length ns <= length ns')%nat -> valid ns' i -> ~ L i ->
  (forall j, L j -> masked_ptr (nd ns' j) = masked_ptr (nd ns j) /\ next_hash (nd ns' j) = next_hash (nd ns j)) ->
  masked_ptr (nd ns' i) = HidePtr p -> (forall j, L j -> masked_ptr (nd ns j) <> HidePtr p) ->
  exists heads' next, Add heads ns' p i = Some (heads', upd ns' i (set_next next)) /\
  map_ok (fun j => L j \/ j = i) heads' (upd ns' i (set_next next)).
Proof.
  intros S Ok Len V NI Fr P Un. unfold Add. rewrite update_valid by assumption. cbn [obind].
  exists (set_head heads (Hash p) i), (heads (Hash p)). split; [reflexivity|]. set (ns1 := upd ns' i _).
  assert (Mp : forall j, 0 <= j -> masked_ptr (nd ns1 j) = masked_ptr (nd ns' j)) by (intros j J; now apply (upd_field masked_ptr)).
  assert (Vn : forall j, L j -> valid ns' j) by (intros j J; pose proof (m_valid _ _ _ Ok j J); unfold valid in *; lia).
  assert (ML : forall j, L j -> masked_ptr (nd ns1 j) = masked_ptr (nd ns j)) by (intros j J; rewrite Mp by (apply (Vn j J)); now apply Fr).
  assert (Mi : masked_ptr (nd ns1 i) = HidePtr p) by (rewrite Mp; [exact P|apply V]).
  assert (Nx : forall j, L j -> next_hash (nd ns1 j) = next_hash (nd ns j)).
  { intros j J. unfold ns1. rewrite nd_upd_other; [now apply Fr|exact V|apply (Vn j J)|congruence]. }
  assert (Len1 : (length ns <= length ns1)%nat) by (unfold ns1; rewrite upd_nodes_length; exact Len).
  split.
  - intros j [J| ->]; apply valid_upd; auto.
  - intros h. destruct (m_chain _ _ _ Ok h) as (l & K & D & M).
    assert (K1 : linked ns1 (heads h) l) by (apply (linked_frame ns); [now right| |exact K]; intros a A; apply Nx; now apply M).
    assert (Nl : ~ In i l) by (intros I; apply NI; now apply M).
    unfold set_head. destruct (Z.eqb_spec h (Hash p)) as [-> |N]; [exists (i :: l)|exists l].
    + split; [split; [reflexivity|split; [now apply valid_upd|]]; unfold ns1; rewrite nd_upd_same by exact V; exact K1|].
      split; [now constructor|]. intros j. cbn [In]. rewrite M. unfold node_ptr. split.
      * intros [<- |(J & H)]; [split; [now right|now apply hash_of_masked]|]. split; [now left|]. now rewrite ML.
      * intros ([J| ->] & H); [right|now left]. split; [exact J|]. now rewrite ML in H.
    + split; [exact K1|]. split; [exact D|]. intros j. rewrite M. unfold node_ptr. split.
      * intros (J & H). split; [now left|]. now rewrite ML.
      * intros ([J| ->] & H); [split; [exact J|]; now rewrite ML in H|]. elim N. rewrite <- H. now apply hash_of_masked.
  - intros j k [J| ->] [K| ->] E; rewrite ?Mi, ?ML in E by assumption; [now apply (m_ptrs _ _ _ Ok)| | |reflexivity].
    + now elim (Un j J).
    + now elim (Un k K).
Qed.

(** Nodes that differ in their links only. *)
Definition same_but_next (ns ns' : list Node) : Prop :=
  length ns' = length ns /\ forall j, 0 <= j -> nd ns' j = set_next (next_hash (nd ns' j)) (nd ns j).

Lemma same_refl ns : same_but_next ns ns.
Proof. split; [reflexivity|]. intros j _. now destruct (nd ns j). Qed.

Lemma same_upd ns ns' i v : same_but_next ns ns' -> valid ns i -> same_but_next ns (upd ns' i (set_next v)).
Proof.
  intros (Len & F) V. assert (V' : valid ns' i) by (unfold valid in *; now rewrite Len). split; [now rewrite upd_nodes_length|].
  intros j J. rewrite nd_upd by assumption. destruct (Z.eqb_spec j i) as [-> |N]; [|now apply F].
  rewrite (F i J). now destruct (nd ns i).
Qed.

(** The place where the chain [l] hangs. *)
Definition slot_ok (ns : list Node) (l : list Z) (s : Slot) : Prop :=
  match s with Bucket _ => True | NextOf p => valid ns p /\ ~ In p l end.

(** What the removal of [r] from the chain [l] that hangs at [slot] leaves. *)
Record removed (heads : Heads) (ns : list Node) (slot : Slot) (l : list Z) (r : Z) (heads' : Heads) (ns' : list Node) : Prop := {
  r_in : In r l;
  r_same : same_but_next ns ns';
  r_links : forall j, valid ns j -> ~ In j l -> slot <> NextOf j -> next_hash (nd ns' j) = next_hash (nd ns j);
  r_heads : forall h, slot <> Bucket h -> heads' h = heads h;
  r_chain : exists v, read_slot heads' ns' slot = Some v /\ linked ns' v (remove Z.eq_dec r l)
}.

Lemma remove_here heads ns a l slot : small ns -> slot_ok ns (a :: l) slot -> valid ns a -> ~ In a l -> linked ns (next_hash (nd ns a)) l ->
  exists heads' ns', write_slot heads ns slot (next_hash (nd ns a)) = Some (heads', ns') /\
  update ns' a (set_next (-1)) = Some (upd ns' a (set_next (-1))) /\ removed heads ns slot (a :: l) a heads' (upd ns' a (set_next (-1))).
Proof.
  intros S So V NI K. destruct slot as [h|p]; cbn [write_slot slot_ok] in *.
  - exists (set_head heads h (next_hash (nd ns a))), ns. split; [reflexivity|]. split; [now apply update_valid|]. split.
    + now left.
    + apply same_upd; [apply same_refl|exact V].
    + intros j J N _. rewrite nd_upd_other; [reflexivity|exact V|apply J|intros ->; apply N; now left].
    + intros k N. unfold set_head. rewrite (proj2 (Z.eqb_neq _ _)); [reflexivity|congruence].
    + exists (next_hash (nd ns a)). cbn [read_slot]. unfold set_head. rewrite Z.eqb_refl. split; [reflexivity|].
      rewrite remove_cons, notin_remove by exact NI. apply (linked_frame ns); [left; apply upd_nodes_length| |exact K].
      intros b B. pose proof (linked_valid ns l _ K b B) as Vb. rewrite nd_upd_other; [reflexivity|exact V|apply Vb|congruence].
  - destruct So as (Vp & Np). rewrite update_valid by assumption. cbn [obind]. set (ns1 := upd ns p _).
    assert (V1 : forall j, valid ns1 j <-> valid ns j) by (intros j; apply valid_upd).
    exists heads, ns1. split; [reflexivity|]. split; [apply update_valid; [now apply small_upd|now apply V1]|].
    assert (Pa : p <> a) by (intros ->; apply Np; now left).
    assert (Nx : forall j, valid ns j -> j <> a -> j <> p -> nd (upd ns1 a (set_next (-1))) j = nd ns j).
    { intros j J N1 N2. rewrite nd_upd_other; [|now apply V1|apply J|exact N1]. apply nd_upd_other; [exact Vp|apply J|exact N2]. }
    split.
    + now left.
    + apply same_upd; [|exact V]. apply same_upd; [apply same_refl|exact Vp].
    + intros j J N N'. rewrite Nx; [reflexivity|exact J|intros ->; apply N; now left|congruence].
    + reflexivity.
    + exists (next_hash (nd ns a)). assert (Vp2 : valid (upd ns1 a (set_next (-1))) p) by now rewrite valid_upd, V1.
      cbn [read_slot]. rewrite node_at_valid by (auto; now repeat apply small_upd). cbn [obind].
      rewrite nd_upd_other; [|now apply V1|apply Vp|exact Pa]. unfold ns1 at 1. rewrite nd_upd_same by exact Vp. split; [reflexivity|].
      rewrite remove_cons, notin_remove by exact NI. apply (linked_frame ns); [left; unfold ns1; now rewrite !upd_nodes_length| |exact K].
      intros b B. rewrite Nx; [reflexivity|now apply (linked_valid ns l _ K)|congruence|intros ->; apply Np; now right].
Qed.

Lemma remove_from_chain_spec m : forall l fuel heads ns slot v, small ns -> slot_ok ns l slot ->
  read_slot heads ns slot = Some v -> linked ns v l -> NoDup l -> (length l <= fuel)%nat ->
  (remove_from_chain fuel heads ns m slot = Some (heads, ns, -1) /\ forall a, In a l -> masked_ptr (nd ns a) <> m) \/
  exists heads' ns' r, remove_from_chain fuel heads ns m slot = Some (heads', ns', r) /\
  masked_ptr (nd ns r) = m /\ removed heads ns slot l r heads' ns'.
Proof.
  induction l as [|a l IH]; intros fuel heads ns slot v S So R K D F.
  { cbn in K. subst v. left. split; [destruct fuel; cbn [remove_from_chain]; rewrite R; reflexivity|intros a []]. }
  destruct K as (-> & V & K). inversion D as [|? ? NI D']. subst. cbn [length] in F. destruct fuel as [|fuel]; [lia|].
  cbn [remove_from_chain]. rewrite R. cbn [obind]. rewrite (proj2 (Z.eqb_neq _ _)) by (destruct V; lia).
  rewrite node_at_valid by assumption. cbn [obind].
  destruct (Z.eqb_spec (masked_ptr (nd ns a)) m) as [E|E].
  - destruct (remove_here heads ns a l slot S So V NI K) as (heads' & ns' & W & U & Rm). rewrite W. cbn [obind]. rewrite U. cbn [obind].
    right. eauto 8.
  - assert (Rn : read_slot heads ns (NextOf a) = Some (next_hash (nd ns a))) by (cbn; rewrite node_at_valid by assumption; reflexivity).
    destruct (IH fuel heads ns (NextOf a) _ S (conj V NI) Rn K D' ltac:(lia)) as [(Q & N)|(heads' & ns' & r & Q & M & Rm)].
    + left. split; [exact Q|]. intros b [<- |B]; auto.
    + right. exists heads', ns', r. split; [exact Q|]. split; [exact M|]. destruct Rm as [I Sm Lk Hd (w & Rw & Kw)].
      assert (Vl : forall j, valid ns' j <-> valid ns j) by (intros j; unfold valid; now rewrite (proj1 Sm)).
      assert (S' : small ns') by (unfold small; now rewrite (proj1 Sm)).
      split; [now right|exact Sm| | |].
      * intros j J N N'. apply Lk; [exact J|intros C; apply N; now right|]. intros C. apply N. left. congruence.
      * intros h N. apply Hd. discriminate.
      * exists a. split; [|].
        -- destruct slot as [h|p]; cbn [read_slot slot_ok] in *; [rewrite Hd by discriminate; exact R|].
           destruct So as (Vp & Np). rewrite node_at_valid in R |- * by (auto; now apply Vl). cbn [obind] in *.
           rewrite Lk; [exact R|exact Vp|intros C; apply Np; now right|intros C; apply Np; left; congruence].
        -- cbn [remove]. destruct (Z.eq_dec r a) as [-> |_]; [contradiction|]. cbn [read_slot] in Rw. rewrite node_at_valid in Rw by (auto; now apply Vl).
           injection Rw as <-. split; [reflexivity|]. split; [now apply Vl|exact Kw].
Qed.

Lemma same_masked ns ns' i : same_but_next ns ns' -> 0 <= i -> masked_ptr (nd ns' i) = masked_ptr (nd ns i).
Proof. intros (_ & F) I. now rewrite (F i I). Qed.

Lemma Remove_spec L heads ns p : small ns -> map_ok L heads ns ->
  (Remove heads ns p = Some (heads, ns, -1) /\ forall i, L i -> masked_ptr (nd ns i) <> HidePtr p) \/
  exists heads' ns' r, Remove heads ns p = Some (heads', ns', r) /\ L r /\ masked_ptr (nd ns r) = HidePtr p /\
  same_but_next ns ns' /\ map_ok (fun j => L j /\ j <> r) heads' ns'.
Proof.
  intros S Ok. destruct (m_chain _ _ _ Ok (Hash p)) as (l & K & D & M).
  destruct (remove_from_chain_spec (HidePtr p) l (length ns) heads ns (Bucket (Hash p)) _ S I eq_refl K D
    (chain_length _ _ _ _ _ Ok K D)) as [(Q & N)|(heads' & ns' & r & Q & P & [Ri Sm Lk Hd (v & Rv & Kv)])].
  - left. split; [exact Q|]. intros i I E. apply (N i); [|exact E]. apply M. split; [exact I|now apply hash_of_masked].
  - right. exists heads', ns', r. split; [exact Q|]. destruct (proj1 (M r) Ri) as (Lr & _). split; [exact Lr|]. split; [exact P|].
    split; [exact Sm|]. pose proof (m_valid _ _ _ Ok) as Vd.
    assert (Mk : forall j, L j -> masked_ptr (nd ns' j) = masked_ptr (nd ns j)) by (intros j J; apply same_masked; [exact Sm|apply (Vd j J)]).
    split.
    + intros j (J & _). specialize (Vd j J). unfold valid in *. now rewrite (proj1 Sm).
    + intros h. destruct (Z.eq_dec h (Hash p)) as [-> |N].
      * injection Rv as <-. exists (remove Z.eq_dec r l). split; [exact Kv|].
        split. { clear - D. induction D as [|a l A D IH]; cbn [remove]; [constructor|].
          destruct (Z.eq_dec r a); [exact IH|]. constructor; [|exact IH]. intros C. apply in_remove in C. tauto. }
        intros i. unfold node_ptr. split.
        -- intros C. apply in_remove in C as (C & E). apply M in C as (C & H). rewrite Mk by exact C. auto.
        -- intros ((J & E) & H). rewrite Mk in H by exact J. apply in_in_remove; [exact E|]. now apply M.
      * destruct (m_chain _ _ _ Ok h) as (l' & K' & D' & M'). exists l'. rewrite Hd by congruence. split; [|split; [exact D'|]].
        -- apply (linked_frame ns); [left; apply Sm| |exact K']. intros a A. pose proof (proj1 (M' a) A) as (La & Ha).
           apply Lk; [now apply Vd| |discriminate]. intros C. apply M in C as (_ & C). congruence.
        -- intros i. rewrite M'. unfold node_ptr. split.
           ++ intros (J & H). rewrite Mk by exact J. split; [split; [exact J|]|exact H]. intros ->. apply N.
              rewrite <- H. now apply hash_of_masked.
           ++ intros ((J & E) & H). rewrite Mk in H by exact J. auto.
    + intros i j (I1 & _) (J1 & _) E. rewrite !Mk in E by assumption. now apply (m_ptrs _ _ _ Ok).
Qed.

End PointerMapFacts.
