(* ===== verification/GraphCycles.v ===== *)
(** [GraphCycles] ([synchronization/internal/graphcycles.cc]): the lock-order graph of the deadlock detector, a
    directed graph that stays acyclic while edges are inserted.  Every node has a rank, edges go from lower to
    higher ranks, and an insertion against the order searches the ranks between its ends and permutes them
    (Pearce and Kelly).  The temporary vectors of [Rep], which every operation clears before it uses them, are
    arguments and results of the functions that fill them; the top of the search stack is the head of a list. *)
From Stdlib Require Import ZArith Lia List Bool Permutation.
From S2P Require Import Prelude NodeSet GraphNode.
Import ListNotations.
#[local] Open Scope Z_scope.
#[local] Open Scope mach_scope.

Record Rep := mk_rep { nodes_ : list Node; free_nodes_ : list Z; ptrmap_ : PointerMap.Heads }.

Definition New : Rep := mk_rep [] [] (fun _ => -1).

(** The node of an identifier; none when the identifier has expired. *)
Definition FindNode (r : Rep) (id : Z) : option (option Node) :=
  do n <- node_at (nodes_ r) (NodeIndex id);
  Some (if version n =? NodeVersion id then Some n else None).

(** ** Nodes *)

(** A new node; the members that the code leaves uninitialised (the link, the trace) are zero here. *)
Definition new_node (r : Rep) (ptr : Z) : Node :=
  mk_node (wraps 32 (Z.of_nat (length (nodes_ r)))) 1 0 false (HidePtr ptr) Init Init 0 0 (repeat 0 40).

Definition GetId (r : Rep) (ptr : Z) : option (Rep * Z) :=
  do i <- PointerMap.Find (ptrmap_ r) (nodes_ r) ptr;
  if negb (i =? -1) then
    do n <- node_at (nodes_ r) i;
    Some (r, MakeId i (version n))
  else
    match rev (free_nodes_ r) with
    | [] =>
      let n := new_node r ptr in
      do (heads, nodes) <- PointerMap.Add (ptrmap_ r) (nodes_ r ++ [n]) ptr (rank n);
      Some (mk_rep nodes (free_nodes_ r) heads, MakeId (rank n) (version n))
    | i :: _ =>
      do nodes <- update (nodes_ r) i (set_ptr ptr);
      do (heads, nodes) <- PointerMap.Add (ptrmap_ r) nodes ptr i;
      do n <- node_at nodes i;
      Some (mk_rep nodes (removelast (free_nodes_ r)) heads, MakeId i (version n))
    end.

(** One round of the loops over [x->out] and [x->in]. *)
Definition erase_in (i : Z) (acc : option (list Node)) (y : Z) : option (list Node) :=
  do nodes <- acc;
  do n <- node_at nodes y;
  do s <- erase (in_ n) i;
  update nodes y (set_in s).

Definition erase_out (i : Z) (acc : option (list Node)) (y : Z) : option (list Node) :=
  do nodes <- acc;
  do n <- node_at nodes y;
  do s <- erase (out n) i;
  update nodes y (set_out s).

(** The sets are cleared and the pointer dropped. *)
Definition clear_node (n : Node) : Node :=
  mk_node (rank n) (version n) (next_hash n) (visited n) (HidePtr 0) Init Init (priority n) (nstack n) (stack n).

Definition expire (n : Node) : Node :=
  mk_node (rank n) (version n +[32] 1) (next_hash n) (visited n) (masked_ptr n) (in_ n) (out n) (priority n) (nstack n) (stack n).

Definition RemoveNode (r : Rep) (ptr : Z) : option Rep :=
  do (heads, nodes, i) <- PointerMap.Remove (ptrmap_ r) (nodes_ r) ptr;
  if i =? -1 then Some (mk_rep nodes (free_nodes_ r) heads)
  else
    do x <- node_at nodes i;
    do ys <- HASH_FOR_EACH (out x);
    do nodes <- fold_left (erase_in i) ys (Some nodes);
    do x <- node_at nodes i;
    do ys <- HASH_FOR_EACH (in_ x);
    do nodes <- fold_left (erase_out i) ys (Some nodes);
    do nodes <- update nodes i clear_node;
    do x <- node_at nodes i;
    if version x =? 2 ^ 32 - 1 then Some (mk_rep nodes (free_nodes_ r) heads)
    else
      do nodes <- update nodes i expire;
      Some (mk_rep nodes (free_nodes_ r ++ [i]) heads).

Definition Ptr (r : Rep) (id : Z) : option Z :=
  do n <- FindNode r id;
  Some (match n with None => 0 | Some n => UnhidePtr (masked_ptr n) end).

Definition HasNode (r : Rep) (id : Z) : option bool :=
  do n <- FindNode r id;
  Some (match n with None => false | Some _ => true end).

(** ** Edges *)
Definition HasEdge (r : Rep) (x y : Z) : option bool :=
  do xn <- FindNode r x;
  match xn with
  | None => Some false
  | Some xn =>
    do yn <- FindNode r y;
    match yn with
    | None => Some false
    | Some _ => contains (out xn) (NodeIndex y)
    end
  end.

Definition RemoveEdge (r : Rep) (x y : Z) : option Rep :=
  do xn <- FindNode r x;
  do yn <- FindNode r y;
  match xn, yn with
  | Some _, Some _ =>
    do nodes <- erase_out (NodeIndex y) (Some (nodes_ r)) (NodeIndex x);
    do nodes <- erase_in (NodeIndex x) (Some nodes) (NodeIndex y);
    Some (mk_rep nodes (free_nodes_ r) (ptrmap_ r))
  | _, _ => Some r
  end.

(** The loop over the successors of a node of the forward search: none when it meets the upper bound. *)
Fixpoint forward_scan (nodes : list Node) (upper_bound : Z) (ws : list Z) (stack : list Z) : option (option (list Z)) :=
  match ws with
  | [] => Some (Some stack)
  | w :: ws =>
    do nw <- node_at nodes w;
    if rank nw =? upper_bound then Some None
    else
      let stack := if negb (visited nw) && (rank nw <? upper_bound) then w :: stack else stack in
      forward_scan nodes upper_bound ws stack
  end.

(** The search: the nodes with their markers, the nodes it visited, and whether it met no cycle. *)
Fixpoint forward_loop (fuel : nat) (nodes : list Node) (upper_bound : Z) (stack deltaf : list Z) :
  option (list Node * list Z * bool) :=
  match stack with
  | [] => Some (nodes, deltaf, true)
  | n :: stack =>
    match fuel with
    | O => None
    | S fuel' =>
      do nn <- node_at nodes n;
      if visited nn then forward_loop fuel' nodes upper_bound stack deltaf
      else
        do nodes <- update nodes n (set_visited true);
        let deltaf := deltaf ++ [n] in
        do ws <- HASH_FOR_EACH (out nn);
        do stack' <- forward_scan nodes upper_bound ws stack;
        match stack' with
        | None => Some (nodes, deltaf, false)
        | Some stack => forward_loop fuel' nodes upper_bound stack deltaf
        end
    end
  end.

Definition search_fuel (nodes : list Node) : nat := S (length nodes * length nodes).

Definition ForwardDFS (nodes : list Node) (n upper_bound : Z) : option (list Node * list Z * bool) :=
  forward_loop (search_fuel nodes) nodes upper_bound [n] [].

Fixpoint backward_scan (nodes : list Node) (lower_bound : Z) (ws : list Z) (stack : list Z) : option (list Z) :=
  match ws with
  | [] => Some stack
  | w :: ws =>
    do nw <- node_at nodes w;
    let stack := if negb (visited nw) && (lower_bound <? rank nw) then w :: stack else stack in
    backward_scan nodes lower_bound ws stack
  end.

Fixpoint backward_loop (fuel : nat) (nodes : list Node) (lower_bound : Z) (stack deltab : list Z) : option (list Node * list Z) :=
  match stack with
  | [] => Some (nodes, deltab)
  | n :: stack =>
    match fuel with
    | O => None
    | S fuel' =>
      do nn <- node_at nodes n;
      if visited nn then backward_loop fuel' nodes lower_bound stack deltab
      else
        do nodes <- update nodes n (set_visited true);
        let deltab := deltab ++ [n] in
        do ws <- HASH_FOR_EACH (in_ nn);
        do stack <- backward_scan nodes lower_bound ws stack;
        backward_loop fuel' nodes lower_bound stack deltab
    end
  end.

Definition BackwardDFS (nodes : list Node) (n lower_bound : Z) : option (list Node * list Z) :=
  backward_loop (search_fuel nodes) nodes lower_bound [n] [].

(** ** Reordering *)

(** [Sort], by ranks that are all different; the indices are those the searches have read. *)
Fixpoint insert_by (key : Z -> Z) (a : Z) (l : list Z) : list Z :=
  match l with
  | [] => [a]
  | b :: l' => if key b <? key a then b :: insert_by key a l' else a :: l
  end.

Definition Sort (nodes : list Node) (delta : list Z) : list Z :=
  fold_right (insert_by (fun a => rank (nd nodes a))) [] delta.

(** [MoveToList]: the ranks of [src] in its place, the nodes with their markers cleared, and [dst]. *)
Fixpoint MoveToList (nodes : list Node) (src dst : list Z) : option (list Node * list Z * list Z) :=
  match src with
  | [] => Some (nodes, [], dst)
  | w :: src =>
    do n <- node_at nodes w;
    do nodes <- update nodes w (set_visited false);
    do (nodes, ranks, dst) <- MoveToList nodes src (dst ++ [w]);
    Some (nodes, rank n :: ranks, dst)
  end.

(** [std::merge]. *)
Fixpoint merge (a : list Z) : list Z -> list Z :=
  fix merge_a (b : list Z) : list Z :=
    match a, b with
    | [], _ => b
    | _, [] => a
    | x :: a', y :: b' => if y <? x then y :: merge_a b' else x :: merge a' b
    end.

Fixpoint assign_ranks (nodes : list Node) (list_ merged : list Z) : option (list Node) :=
  match list_, merged with
  | [], _ => Some nodes
  | w :: list_, m :: merged => do nodes <- update nodes w (set_rank m); assign_ranks nodes list_ merged
  | _ :: _, [] => None
  end.

Definition Reorder (nodes : list Node) (deltab deltaf : list Z) : option (list Node) :=
  do (nodes', deltab, list_) <- MoveToList nodes (Sort nodes deltab) [];
  do (nodes', deltaf, list_) <- MoveToList nodes' (Sort nodes deltaf) list_;
  assign_ranks nodes' list_ (merge deltab deltaf).

Definition clear_visited (acc : option (list Node)) (d : Z) : option (list Node) :=
  do nodes <- acc; update nodes d (set_visited false).

Definition InsertEdge (r : Rep) (idx idy : Z) : option (Rep * bool) :=
  let x := NodeIndex idx in
  let y := NodeIndex idy in
  do nx <- FindNode r idx;
  do ny <- FindNode r idy;
  match nx, ny with
  | Some nx, Some ny =>
    if x =? y then Some (r, false)
    else
      let with_nodes nodes := mk_rep nodes (free_nodes_ r) (ptrmap_ r) in
      do (s, inserted) <- insert (out nx) y;
      if negb inserted then Some (r, true)
      else
        do nodes <- update (nodes_ r) x (set_out s);
        do (s, _) <- insert (in_ ny) x;
        do nodes <- update nodes y (set_in s);
        if rank nx <=? rank ny then Some (with_nodes nodes, true)
        else
          do (nodes, deltaf, acyclic) <- ForwardDFS nodes y (rank nx);
          if negb acyclic then
            do nodes <- erase_out y (Some nodes) x;
            do nodes <- erase_in x (Some nodes) y;
            do nodes <- fold_left clear_visited deltaf (Some nodes);
            Some (with_nodes nodes, false)
          else
            do (nodes, deltab) <- BackwardDFS nodes x (rank ny);
            do nodes <- Reorder nodes deltab deltaf;
            Some (with_nodes nodes, true)
  | _, _ => Some (r, true)
  end.

(** ** Paths *)
Fixpoint push_unseen (ws : list Z) (seen : NodeSet) (stack : list Z) : option (NodeSet * list Z) :=
  match ws with
  | [] => Some (seen, stack)
  | w :: ws =>
    do (seen, inserted) <- insert seen w;
    push_unseen ws seen (if inserted then w :: stack else stack)
  end.

(** [path] is the caller's array; the result is the length of the path and the array. *)
Fixpoint path_loop (fuel : nat) (nodes : list Node) (y max_path_len : Z) (stack : list Z) (seen : NodeSet)
  (path_len : Z) (path : list Z) : option (Z * list Z) :=
  match stack with
  | [] => Some (0, path)
  | n :: stack =>
    match fuel with
    | O => None
    | S fuel' =>
      if n <? 0 then path_loop fuel' nodes y max_path_len stack seen (path_len - 1) path
      else
        do nn <- node_at nodes n;
        do path <- if path_len <? max_path_len then write path path_len (MakeId n (version nn)) else Some path;
        let path_len := path_len + 1 in
        let stack := -1 :: stack in
        if n =? y then Some (path_len, path)
        else
          do ws <- HASH_FOR_EACH (out nn);
          do (seen, stack) <- push_unseen ws seen stack;
          path_loop fuel' nodes y max_path_len stack seen path_len path
    end
  end.

Definition path_fuel (nodes : list Node) : nat := (2 * S (length nodes))%nat.

Definition FindPath (r : Rep) (idx idy max_path_len : Z) (path : list Z) : option (Z * list Z) :=
  do nx <- FindNode r idx;
  do ny <- match nx with None => Some None | Some _ => FindNode r idy end;
  match ny with
  | None => Some (0, path)
  | Some _ => path_loop (path_fuel (nodes_ r)) (nodes_ r) (NodeIndex idy) max_path_len [NodeIndex idx] Init 0 path
  end.

Definition IsReachable (r : Rep) (x y : Z) : option bool :=
  do (len, _) <- FindPath r x y 0 [];
  Some (len >? 0).

(** ** Stack traces; [get_stack_trace] is given the array and its size and returns the array and a depth. *)
Definition set_trace (st : list Z * Z) (priority : Z) (n : Node) : Node :=
  mk_node (rank n) (version n) (next_hash n) (visited n) (masked_ptr n) (in_ n) (out n) priority (snd st) (fst st).

Definition UpdateStackTrace (r : Rep) (id prio : Z) (get_stack_trace : list Z -> Z -> list Z * Z) : option Rep :=
  do n <- FindNode r id;
  match n with
  | None => Some r
  | Some n =>
    if priority n >=? prio then Some r
    else
      do nodes <- update (nodes_ r) (NodeIndex id) (set_trace (get_stack_trace (stack n) 40) prio);
      Some (mk_rep nodes (free_nodes_ r) (ptrmap_ r))
  end.

Definition GetStackTrace (r : Rep) (id : Z) : option (option (list Z) * Z) :=
  do n <- FindNode r id;
  Some (match n with None => (None, 0) | Some n => (Some (stack n), nstack n) end).

(** ** [CheckInvariants]: false where the code reports a fatal error *)
Fixpoint ranks_above (nodes : list Node) (r : Z) (ys : list Z) : option bool :=
  match ys with
  | [] => Some true
  | y :: ys => do ny <- node_at nodes y; if r >=? rank ny then Some false else ranks_above nodes r ys
  end.

Fixpoint check_from (r : Rep) (x : Z) (rest : list Node) (ranks : NodeSet) : option bool :=
  match rest with
  | [] => Some true
  | nx :: rest =>
    let ptr := UnhidePtr (masked_ptr nx) in
    do found <- if negb (ptr =? 0) then PointerMap.Find (ptrmap_ r) (nodes_ r) ptr else Some x;
    if negb (wrapu 32 found =? x) then Some false
    else if visited nx then Some false
    else
      do (ranks, inserted) <- insert ranks (rank nx);
      if negb inserted then Some false
      else
        do ys <- HASH_FOR_EACH (out nx);
        do above <- ranks_above (nodes_ r) (rank nx) ys;
        if negb above then Some false else check_from r (x + 1) rest ranks
  end.

Definition CheckInvariants (r : Rep) : option bool := check_from r 0 (nodes_ r) Init.
