(* ===== verification/GraphSearch.v ===== *)
(** The argument behind the lock-order graph, on plain functions: a depth-first search with an explicit stack
    that stays inside a range and stops at a forbidden node, and the reassignment of ranks that makes room for
    an edge that goes against them. *)
From Stdlib Require Import ZArith Lia List Bool Permutation Sorting.Sorted Relations.
From S2P Require Import Prelude NodeSet GraphNode GraphCycles.
Import ListNotations.
#[local] Open Scope Z_scope.

Section Dfs.
Context (succ : Z -> list Z) (vis0 cut keep : Z -> bool).

Definition seen (delta : list Z) (i : Z) : bool := vis0 i || mem i delta.

(** The search: the nodes it visited in order, and whether it met no node of [cut]. *)
Fixpoint dfs (fuel : nat) (stack delta : list Z) : option (list Z * bool) :=
  match stack with
  | [] => Some (delta, true)
  | n :: stack =>
    match fuel with
    | O => None
    | S fuel' =>
      if seen delta n then dfs fuel' stack delta
      else
        let delta := delta ++ [n] in
        if existsb cut (succ n) then Some (delta, false)
        else dfs fuel' (rev (filter (fun w => negb (seen delta w) && keep w) (succ n)) ++ stack) delta
    end
  end.

Definition step (i w : Z) : Prop := In w (succ i) /\ keep w = true.

Definition reach : Z -> Z -> Prop := clos_refl_trans_n1 Z step.

Context (N : nat) (inside : Z -> Prop).
Context (inside_bound : forall l, NoDup l -> (forall i, In i l -> inside i) -> (length l <= N)%nat).
Context (succ_inside : forall i w, inside i -> In w (succ i) -> inside w).
Context (succ_distinct : forall i, inside i -> NoDup (succ i)).

Record search_inv (root : Z) (stack delta : list Z) : Prop := {
  i_inside : forall i, In i stack \/ In i delta -> inside i;
  i_new : forall i, In i delta -> vis0 i = false;
  i_nodup : NoDup delta;
  i_reach : forall i, In i stack \/ In i delta -> reach root i;
  i_root : In root delta \/ In root stack;
  i_closed : forall i w, In i delta -> In w (succ i) ->
    cut w = false /\ (keep w = true -> In w delta \/ vis0 w = true \/ In w stack)
}.

Record search_result (root : Z) (delta : list Z) (b : bool) : Prop := {
  o_inside : forall i, In i delta -> inside i;
  o_new : forall i, In i delta -> vis0 i = false;
  o_nodup : NoDup delta;
  o_reach : forall i, In i delta -> reach root i;
  o_closed : b = true -> In root delta /\
    forall i w, In i delta -> In w (succ i) -> cut w = false /\ (keep w = true -> In w delta \/ vis0 w = true);
  o_cut : b = false -> exists i w, In i delta /\ In w (succ i) /\ cut w = true
}.

Lemma seen_in delta i : seen delta i = true <-> vis0 i = true \/ In i delta.
Proof. unfold seen. now rewrite orb_true_iff, mem_in. Qed.

(** A node is popped that was visited before. *)
Lemma inv_skip root n stack delta : vis0 root = false -> search_inv root (n :: stack) delta -> seen delta n = true -> search_inv root stack delta.
Proof.
  intros Vr [A B C D E F] S. apply seen_in in S. split; auto.
  - intros i [I|I]; apply A; [left; now right|now right].
  - intros i [I|I]; apply D; [left; now right|now right].
  - destruct E as [E|[<- |E]]; [now left|destruct S as [S|S]; [congruence|now left]|now right].
  - intros i w I W. destruct (F i w I W) as (F1 & F2). split; [exact F1|]. intros K.
    destruct (F2 K) as [G|[G|[<- |G]]]; [now left|right; now left|destruct S; auto|right; now right].
Qed.

(** A new node is popped. *)
Lemma inv_visit root n stack delta : search_inv root (n :: stack) delta -> seen delta n = false -> existsb cut (succ n) = false ->
  search_inv root (rev (filter (fun w => negb (seen (delta ++ [n]) w) && keep w) (succ n)) ++ stack) (delta ++ [n]).
Proof.
  intros [A B C D E F] S Ct. unfold seen in S. apply orb_false_iff in S as (S1 & S2).
  assert (NI : ~ In n delta) by (rewrite <- mem_in; congruence).
  assert (Pushed : forall w, In w (rev (filter (fun w => negb (seen (delta ++ [n]) w) && keep w) (succ n)) ++ stack) <->
    (In w (succ n) /\ seen (delta ++ [n]) w = false /\ keep w = true) \/ In w stack).
  { intros w. rewrite in_app_iff, <- in_rev, filter_In, andb_true_iff, negb_true_iff. tauto. }
  assert (Dn : forall i, In i (delta ++ [n]) <-> In i delta \/ i = n) by (intros i; rewrite in_app_iff; cbn; intuition congruence).
  split.
  - intros i. rewrite Pushed, Dn. intros [[(I & _)|I]|[I| ->]]; [|apply A; left; now right|apply A; now right|apply A; left; now left].
    apply (succ_inside n); [apply A; left; now left|exact I].
  - intros i. rewrite Dn. intros [I| ->]; auto.
  - rewrite <- (rev_involutive (delta ++ [n])), rev_app_distr. apply NoDup_rev. cbn. constructor; [now rewrite <- in_rev|now apply NoDup_rev].
  - intros i. rewrite Pushed, Dn. intros [[(I & _ & K)|I]|[I| ->]]; [|apply D; left; now right|apply D; now right|apply D; left; now left].
    apply (Relation_Operators.rtn1_trans _ _ _ n); [split; [exact I|exact K]|apply D; left; now left].
  - rewrite Pushed, Dn. destruct E as [E|[E|E]]; auto.
  - intros i w. rewrite (Dn i), (Dn w), Pushed. intros [I| ->] W.
    + destruct (F i w I W) as (F1 & F2). split; [exact F1|]. intros K. destruct (F2 K) as [G|[G|[G|G]]]; auto.
    + split.
      * destruct (cut w) eqn:Cw; [|reflexivity]. assert (X : existsb cut (succ n) = true) by (apply existsb_exists; eauto). congruence.
      * intros K. destruct (seen (delta ++ [n]) w) eqn:Sw; [|auto 6]. apply seen_in in Sw as [Sw|Sw]; [auto|]. left. now apply Dn in Sw.
Qed.

Lemma visit_cut root n stack delta : search_inv root (n :: stack) delta -> seen delta n = false -> existsb cut (succ n) = true ->
  search_result root (delta ++ [n]) false.
Proof.
  intros [A B C D E F] S Ct. unfold seen in S. apply orb_false_iff in S as (S1 & S2).
  assert (NI : ~ In n delta) by (rewrite <- mem_in; congruence).
  assert (Dn : forall i, In i (delta ++ [n]) <-> In i delta \/ i = n) by (intros i; rewrite in_app_iff; cbn; intuition congruence).
  split.
  - intros i. rewrite Dn. intros [I| ->]; apply A; [now right|left; now left].
  - intros i. rewrite Dn. intros [I| ->]; auto.
  - rewrite <- (rev_involutive (delta ++ [n])), rev_app_distr. apply NoDup_rev. cbn. constructor; [now rewrite <- in_rev|now apply NoDup_rev].
  - intros i. rewrite Dn. intros [I| ->]; apply D; [now right|left; now left].
  - discriminate.
  - intros _. apply existsb_exists in Ct as (w & W & K). exists n, w. rewrite Dn. auto.
Qed.

Lemma dfs_spec root : vis0 root = false -> forall fuel stack delta, search_inv root stack delta ->
  (length stack + (N - length delta) * N <= fuel)%nat ->
  exists delta' b, dfs fuel stack delta = Some (delta', b) /\ search_result root delta' b.
Proof.
  intros Vr. induction fuel as [|fuel IH]; intros [|n stack] delta I F; cbn [dfs].
  1,3: exists delta, true; split; [reflexivity|]; destruct I as [A B C D E G]; split; auto;
    [intros _; split; [destruct E as [E|[]]; exact E|]; intros i w X W; destruct (G i w X W) as (G1 & G2); split; [exact G1|]; intros K; destruct (G2 K) as [H|[H|[]]]; auto
    |discriminate].
  - now inversion F.
  - cbn [length] in F. destruct (seen delta n) eqn:S.
    + apply IH; [now apply (inv_skip _ n)|now apply le_S_n].
    + destruct (existsb cut (succ n)) eqn:Ct; [exists (delta ++ [n]), false; split; [reflexivity|now apply (visit_cut _ n stack)]|].
      pose proof (inv_visit root n stack delta I S Ct) as I'. apply IH; [exact I'|]. rewrite !length_app, length_rev. cbn [length].
      assert (Ln : inside n) by (apply (i_inside _ _ _ I); left; now left).
      assert (Ls : (length (succ n) <= N)%nat) by (apply inside_bound; [now apply succ_distinct|intros w; now apply succ_inside]).
      pose proof (filter_length_le (fun w => negb (seen (delta ++ [n]) w) && keep w) (succ n)) as Lf.
      assert (Ld : (length (delta ++ [n]) <= N)%nat) by (apply inside_bound; [apply I'|intros i X; apply (i_inside _ _ _ I'); now right]).
      rewrite length_app in Ld. cbn [length] in Ld. nia.
Qed.
End Dfs.

(** ** Merging *)
Lemma merge_cons x a y b : merge (x :: a) (y :: b) = if y <? x then y :: merge (x :: a) b else x :: merge a (y :: b).
Proof. reflexivity. Qed.

Lemma merge_nil_l b : merge [] b = b.
Proof. now destruct b. Qed.

Lemma merge_nil_r a : merge a [] = a.
Proof. now destruct a. Qed.

Lemma merge_perm a : forall b, Permutation (merge a b) (a ++ b).
Proof.
  induction a as [|x a IHa]; intros b; [now rewrite merge_nil_l|]. induction b as [|y b IHb]; [now rewrite merge_nil_r, app_nil_r|].
  rewrite merge_cons. destruct (y <? x).
  - rewrite IHb. apply Permutation_middle.
  - cbn [app]. apply perm_skip. apply IHa.
Qed.

Lemma sorted_inv {A} (R : A -> A -> Prop) x l : StronglySorted R (x :: l) -> StronglySorted R l /\ forall y, In y l -> R x y.
Proof. intros H. inversion H. subst. split; [assumption|]. now apply Forall_forall. Qed.

Lemma merge_sorted a : forall b, StronglySorted Z.le a -> StronglySorted Z.le b -> StronglySorted Z.le (merge a b).
Proof.
  induction a as [|x a IHa]; intros b Ha Hb; [now rewrite merge_nil_l|]. induction b as [|y b IHb]; [now rewrite merge_nil_r|].
  pose proof (sorted_inv _ _ _ Ha) as (Ha' & Fa). pose proof (sorted_inv _ _ _ Hb) as (Hb' & Fb). rewrite merge_cons.
  destruct (Z.ltb_spec y x) as [L|L]; (constructor; [auto|]); apply Forall_forall; intros z Hz;
    apply (Permutation_in _ (merge_perm _ _)) in Hz; apply in_app_iff in Hz as [Hz|Hz].
  - destruct Hz as [<- |Hz]; [lia|]. specialize (Fa z Hz). lia.
  - auto.
  - auto.
  - destruct Hz as [<- |Hz]; [lia|]. specialize (Fb z Hz). lia.
Qed.

Lemma sorted_nth {A} (R : A -> A -> Prop) d l : StronglySorted R l -> forall i j, (i < j < length l)%nat -> R (nth i l d) (nth j l d).
Proof.
  induction 1 as [|x l S IH F]; intros i j L; cbn [length] in L; [lia|]. destruct j as [|j]; [lia|]. destruct i as [|i]; cbn [nth].
  - apply (proj1 (Forall_forall _ _) F). apply nth_In. lia.
  - apply IH. lia.
Qed.

(** The ranks of the first list do not grow by the merge, those of the second do not shrink. *)
Lemma merge_low d a : forall b, StronglySorted Z.le a -> forall i, (i < length a)%nat -> nth i (merge a b) d <= nth i a d.
Proof.
  induction a as [|x a IHa]; intros b Ha i L; [cbn in L; lia|]. pose proof (sorted_inv _ _ _ Ha) as (Ha' & Fa). revert i L.
  induction b as [|y b IHb]; intros i L; [rewrite merge_nil_r; lia|]. rewrite merge_cons. destruct (Z.ltb_spec y x) as [Q|Q].
  - destruct i as [|i]; cbn [nth]; [lia|]. etransitivity; [apply IHb; cbn [length] in *; lia|].
    destruct i as [|i]; cbn [nth length] in *; [apply Fa; apply nth_In; lia|]. apply (sorted_nth Z.le d a Ha'). lia.
  - destruct i as [|i]; cbn [nth length] in *; [lia|]. apply IHa; [exact Ha'|lia].
Qed.

Lemma merge_high d a : forall b, StronglySorted Z.le a -> StronglySorted Z.le b -> forall j, (j < length b)%nat ->
  nth j b d <= nth (length a + j) (merge a b) d.
Proof.
  induction a as [|x a IHa]; intros b Ha Hb j L; [rewrite merge_nil_l; cbn; lia|]. pose proof (sorted_inv _ _ _ Ha) as (Ha' & Fa). revert Hb j L.
  induction b as [|y b IHb]; intros Hb j L; [cbn in L; lia|]. pose proof (sorted_inv _ _ _ Hb) as (Hb' & Fb). rewrite merge_cons.
  destruct (Z.ltb_spec y x) as [Q|Q].
  - destruct j as [|j]; cbn [length Nat.add nth] in *.
    + rewrite Nat.add_0_r. assert (I : In (nth (length a) (merge (x :: a) b) d) (merge (x :: a) b)).
      { apply nth_In. rewrite (Permutation_length (merge_perm _ _)), length_app. cbn [length]. lia. }
      apply (Permutation_in _ (merge_perm _ _)) in I. apply in_app_iff in I as [[<- |I]|I]; [lia|specialize (Fa _ I); lia|now apply Fb].
    + rewrite Nat.add_succ_r. apply IHb; [exact Hb'|lia].
  - exact (IHa (y :: b) Ha' Hb j L).
Qed.

(** ** New ranks *)
Section Ranks.
Context (rk : Z -> Z) (B F : list Z).
Context (HB : StronglySorted (fun a b => rk a < rk b) B) (HF : StronglySorted (fun a b => rk a < rk b) F).
Context (HD : NoDup (B ++ F)) (HR : NoDup (map rk (B ++ F))).

Definition merged : list Z := merge (map rk B) (map rk F).

(** The rank that a list of nodes and a list of ranks give. *)
Fixpoint given_rank (l m : list Z) (w : Z) : Z :=
  match l, m with
  | a :: l, r :: m => if w =? a then r else given_rank l m w
  | _, _ => rk w
  end.

Definition new_rank : Z -> Z := given_rank (B ++ F) merged.

Lemma given_out l : forall m w, ~ In w l -> given_rank l m w = rk w.
Proof.
  induction l as [|a l IH]; intros [|r m] w N; cbn [given_rank]; try reflexivity.
  rewrite (proj2 (Z.eqb_neq _ _)) by (intros ->; apply N; now left). apply IH. intros I. apply N. now right.
Qed.

Lemma given_map l : NoDup l -> forall m, length m = length l -> map (given_rank l m) l = m.
Proof.
  induction 1 as [|a l NI D IH]; intros [|r m] L; cbn [length map given_rank] in *; try lia; [reflexivity|].
  rewrite Z.eqb_refl. f_equal. transitivity (map (given_rank l m) l); [|apply IH; lia]. apply map_ext_in. intros w W.
  rewrite (proj2 (Z.eqb_neq _ _)); [reflexivity|congruence].
Qed.

Lemma merged_perm : Permutation merged (map rk (B ++ F)).
Proof. unfold merged. rewrite map_app. apply merge_perm. Qed.

Lemma merged_length : length merged = length (B ++ F).
Proof. rewrite (Permutation_length merged_perm). apply length_map. Qed.

Lemma new_rank_map : map new_rank (B ++ F) = merged.
Proof. apply given_map; [exact HD|apply merged_length]. Qed.

Lemma new_rank_out w : ~ In w (B ++ F) -> new_rank w = rk w.
Proof. apply given_out. Qed.

(** The new rank of a member is the old rank of a member. *)
Lemma new_rank_from w : In w (B ++ F) -> exists u, In u (B ++ F) /\ new_rank w = rk u.
Proof.
  intros I. apply (in_map new_rank) in I. rewrite new_rank_map in I. apply (Permutation_in _ merged_perm) in I.
  apply in_map_iff in I as (u & E & U). eauto.
Qed.

Lemma new_rank_perm U : NoDup U -> incl (B ++ F) U -> Permutation (map new_rank U) (map rk U).
Proof.
  intros D I. set (rest := filter (fun w => negb (mem w (B ++ F))) U).
  assert (P : Permutation U ((B ++ F) ++ rest)).
  { apply NoDup_Permutation; [exact D| |].
    - apply NoDup_app; [exact HD|now apply NoDup_filter|]. intros w W C. apply filter_In in C as (_ & C).
      apply mem_in in W. rewrite W in C. discriminate.
    - intros w. rewrite in_app_iff. unfold rest. rewrite filter_In, negb_true_iff. split; [|intros [H|H]; [now apply I|tauto]].
      intros W. destruct (mem w (B ++ F)) eqn:E; [left; now apply mem_in|auto]. }
  rewrite (Permutation_map new_rank P), (Permutation_map rk P), !(map_app _ (B ++ F)), new_rank_map. apply Permutation_app; [apply merged_perm|].
  erewrite map_ext_in; [reflexivity|]. intros w W. apply new_rank_out. apply filter_In in W as (_ & W). rewrite <- mem_in.
  apply negb_true_iff in W. congruence.
Qed.

Lemma sorted_map l : StronglySorted (fun a b => rk a < rk b) l -> StronglySorted Z.le (map rk l).
Proof.
  induction 1 as [|a l S IH Q]; cbn; constructor; [exact IH|]. apply Forall_map. eapply Forall_impl; [|exact Q]. cbn. lia.
Qed.

Lemma merged_strict : StronglySorted Z.lt merged.
Proof.
  assert (S : StronglySorted Z.le merged) by (apply merge_sorted; now apply sorted_map).
  pose proof (Permutation_NoDup (Permutation_sym merged_perm) HR) as D. induction S as [|a l S IH Q]; [constructor|].
  inversion D as [|? ? D1 D2]. subst. constructor; [now apply IH|]. rewrite Forall_forall in *. intros b I. specialize (Q b I).
  assert (a <> b) by congruence. lia.
Qed.

(** The place of a node in the list of those that are moved. *)
Lemma new_rank_nth i : (i < length (B ++ F))%nat -> new_rank (nth i (B ++ F) 0) = nth i merged 0.
Proof.
  intros L. transitivity (nth i (map new_rank (B ++ F)) 0); [|now rewrite new_rank_map].
  rewrite (nth_indep (map new_rank (B ++ F)) 0 (new_rank 0)) by now rewrite length_map. symmetry. apply map_nth.
Qed.

Lemma place_B w : In w B -> exists i, (i < length B)%nat /\ nth i B 0 = w /\ new_rank w = nth i merged 0.
Proof.
  intros I. apply (In_nth _ _ 0) in I as (i & L & E). exists i. split; [exact L|]. split; [exact E|].
  rewrite <- new_rank_nth by (rewrite length_app; lia). now rewrite app_nth1, E.
Qed.

Lemma place_F w : In w F -> exists j, (j < length F)%nat /\ nth j F 0 = w /\ new_rank w = nth (length B + j) merged 0.
Proof.
  intros I. apply (In_nth _ _ 0) in I as (i & L & E). exists i. split; [exact L|]. split; [exact E|].
  rewrite <- new_rank_nth by (rewrite length_app; lia). rewrite app_nth2 by lia.
  replace (length B + i - length B)%nat with i by lia. now rewrite E.
Qed.

Lemma merged_lt i j : (i < j < length (B ++ F))%nat -> nth i merged 0 < nth j merged 0.
Proof. intros L. apply (sorted_nth Z.lt 0 merged merged_strict). now rewrite merged_length. Qed.

Lemma new_rank_B w : In w B -> new_rank w <= rk w.
Proof.
  intros I. destruct (place_B w I) as (i & L & E & ->). etransitivity; [apply merge_low; [now apply sorted_map|now rewrite length_map]|].
  rewrite (nth_indep _ 0 (rk 0)) by now rewrite length_map. now rewrite map_nth, E.
Qed.

Lemma new_rank_F w : In w F -> rk w <= new_rank w.
Proof.
  intros I. destruct (place_F w I) as (j & L & E & ->). rewrite <- E at 1. rewrite <- (map_nth rk).
  rewrite (nth_indep _ _ 0) by now rewrite length_map. rewrite <- (length_map rk B). apply merge_high; [now apply sorted_map..|now rewrite length_map].
Qed.

(** The order inside each list is kept, and the first list comes before the second. *)
Lemma place_order l i j : StronglySorted (fun a b => rk a < rk b) l -> (i < length l)%nat -> (j < length l)%nat ->
  rk (nth i l 0) < rk (nth j l 0) -> (i < j)%nat.
Proof.
  intros S Li Lj R. destruct (Nat.lt_trichotomy i j) as [H|[-> |H]]; [exact H|lia|].
  pose proof (sorted_nth _ 0 l S j i ltac:(lia)). cbn in *. lia.
Qed.

Lemma new_rank_BB u v : In u B -> In v B -> rk u < rk v -> new_rank u < new_rank v.
Proof.
  intros U V R. destruct (place_B u U) as (i & Li & <- & ->), (place_B v V) as (j & Lj & <- & ->).
  apply merged_lt. pose proof (place_order B i j HB Li Lj R). rewrite length_app. lia.
Qed.

Lemma new_rank_FF u v : In u F -> In v F -> rk u < rk v -> new_rank u < new_rank v.
Proof.
  intros U V R. destruct (place_F u U) as (i & Li & <- & ->), (place_F v V) as (j & Lj & <- & ->).
  apply merged_lt. pose proof (place_order F i j HF Li Lj R). rewrite length_app. lia.
Qed.

Lemma new_rank_BF u v : In u B -> In v F -> new_rank u < new_rank v.
Proof.
  intros U V. destruct (place_B u U) as (i & Li & <- & ->), (place_F v V) as (j & Lj & <- & ->).
  apply merged_lt. rewrite length_app. lia.
Qed.
End Ranks.

(** ** Sorting by rank *)
Lemma insert_by_perm key a l : Permutation (insert_by key a l) (a :: l).
Proof.
  induction l as [|b l IH]; [reflexivity|]. cbn [insert_by]. destruct (key b <? key a); [|reflexivity].
  rewrite IH. apply perm_swap.
Qed.

Lemma sort_perm key l : Permutation (fold_right (insert_by key) [] l) l.
Proof. induction l as [|a l IH]; [reflexivity|]. cbn [fold_right]. rewrite insert_by_perm. now apply perm_skip. Qed.

Lemma insert_by_sorted key a l : StronglySorted (fun a b => key a < key b) l -> (forall b, In b l -> key b <> key a) ->
  StronglySorted (fun a b => key a < key b) (insert_by key a l).
Proof.
  induction 1 as [|b l S IH F]; intros N; cbn [insert_by]; [repeat constructor|]. destruct (Z.ltb_spec (key b) (key a)) as [L|L].
  - constructor; [apply IH; intros c C; apply N; now right|]. apply Forall_forall. intros c C.
    apply (Permutation_in _ (insert_by_perm key a l)) in C as [<- |C]; [exact L|]. rewrite Forall_forall in F. now apply F.
  - assert (key a < key b) by (specialize (N b (or_introl eq_refl)); lia). constructor; [now constructor|].
    constructor; [assumption|]. eapply Forall_impl; [|exact F]. cbn. intros c. lia.
Qed.

Lemma sort_sorted key l : NoDup (map key l) -> StronglySorted (fun a b => key a < key b) (fold_right (insert_by key) [] l).
Proof.
  induction l as [|a l IH]; intros D; cbn [fold_right]; [constructor|]. inversion D as [|? ? N D']. subst.
  apply insert_by_sorted; [now apply IH|]. intros b I E. apply N. rewrite <- E. apply in_map. now apply (Permutation_in _ (sort_perm key l)).
Qed.

(** ** An edge against the order

    [F] is what the forward search from [y] below the rank of [x] found, [B] what the backward search from [x]
    above the rank of [y] found. *)
Section Reordering.
Context (edge : Z -> Z -> Prop) (rk : Z -> Z) (x y : Z) (B F : list Z).

Definition path : Z -> Z -> Prop := clos_refl_trans Z edge.

Context (rk_edge : forall u v, edge u v -> rk u < rk v).
Context (F_root : In y F).
Context (F_sound : forall i, In i F -> path y i /\ rk i < rk x).
Context (F_closed : forall i w, In i F -> edge i w -> rk w <> rk x /\ (rk w < rk x -> In w F)).

Lemma path_rank u v : path u v -> rk u <= rk v.
Proof. induction 1 as [u v E| |u v w _ I1 _ I2]; [specialize (rk_edge u v E); lia|lia|lia]. Qed.

(** What can be reached from [y] with a rank up to that of [x] was found, and it is not [x]. *)
Lemma F_complete z : path y z -> rk z <= rk x -> In z F /\ rk z < rk x.
Proof.
  intros P. apply clos_rt_rtn1 in P. induction P as [|u v E P IH]; intros R; [split; [exact F_root|now apply F_sound]|].
  pose proof (rk_edge u v E). destruct IH as (I & _); [lia|]. destruct (F_closed u v I E) as (N & C). split; [apply C|]; lia.
Qed.

Lemma no_cycle : ~ path y x.
Proof. intros P. destruct (F_complete x P ltac:(lia)) as (_ & L). lia. Qed.

Context (B_root : In x B).
Context (B_sound : forall i, In i B -> path i x /\ rk y < rk i /\ ~ In i F).
Context (B_closed : forall i w, In i B -> edge w i -> rk y < rk w -> In w B \/ In w F).
Context (HB : StronglySorted (fun a b => rk a < rk b) B) (HF : StronglySorted (fun a b => rk a < rk b) F).
Context (HD : NoDup (B ++ F)) (HR : NoDup (map rk (B ++ F))).

Lemma moved_range w : In w (B ++ F) -> rk y <= rk w <= rk x.
Proof.
  intros I. apply in_app_iff in I as [I|I].
  - destruct (B_sound w I) as (P & R & _). apply path_rank in P. lia.
  - destruct (F_sound w I) as (P & R). apply path_rank in P. lia.
Qed.

Lemma new_rank_range w : In w (B ++ F) -> rk y <= new_rank rk B F w <= rk x.
Proof. intros I. destruct (new_rank_from rk B F HD w I) as (u & U & ->). now apply moved_range. Qed.

(** Every edge, the new one too, goes from a lower to a higher new rank. *)
Lemma new_rank_edge u v : (~ In u (B ++ F) -> rk u <> rk y) ->
  edge u v \/ (u = x /\ v = y) -> new_rank rk B F u < new_rank rk B F v.
Proof.
  intros Out [E|(-> & ->)]; [|now apply new_rank_BF]. pose proof (rk_edge u v E) as R.
  pose proof (in_app_iff B F u) as Iu. pose proof (in_app_iff B F v) as Iv.
  destruct (In_dec Z.eq_dec u B) as [Bu|Nu]; [|destruct (In_dec Z.eq_dec u F) as [Fu|Nu']];
    (destruct (In_dec Z.eq_dec v B) as [Bv|Nv]; [|destruct (In_dec Z.eq_dec v F) as [Fv|Nv']]).
  - now apply new_rank_BB.
  - now apply new_rank_BF.
  - rewrite (new_rank_out rk B F v) by tauto. pose proof (new_rank_B rk B F HB HD u Bu). lia.
  - exfalso. apply no_cycle. apply rt_trans with u; [now apply F_sound|]. apply rt_trans with v; [now apply rt_step|now apply B_sound].
  - now apply new_rank_FF.
  - rewrite (new_rank_out rk B F v) by tauto. pose proof (new_rank_range u ltac:(tauto)). destruct (F_closed u v Fu E) as (N & C).
    destruct (Z_lt_dec (rk v) (rk x)) as [L|L]; [elim Nv'; auto|lia].
  - rewrite (new_rank_out rk B F u) by tauto. pose proof (new_rank_range v ltac:(tauto)). pose proof (Out ltac:(tauto)) as O.
    destruct (Z_lt_dec (rk y) (rk u)) as [L|L]; [destruct (B_closed v u Bv E L); contradiction|lia].
  - rewrite (new_rank_out rk B F u) by tauto. pose proof (new_rank_F rk B F HB HF HD v Fv). lia.
  - rewrite !(new_rank_out rk B F) by tauto. exact R.
Qed.
End Reordering.
