(* ===== verification/GraphInsert.v ===== *)
(** The lock-order graph represents an acyclic relation: the invariant of the nodes, and [InsertEdge], which adds an
    edge exactly when it closes no cycle ([synchronization/internal/graphcycles.cc]). *)
From Stdlib Require Import ZArith Lia List Bool Permutation Sorting.Sorted Relations.
From S2P Require Import Prelude NodeSet GraphNode GraphCycles GraphSearch.
Import ListNotations.
#[local] Open Scope Z_scope.
#[local] Open Scope mach_scope.

(** ** The adjacency sets *)

(** The sets [out] represent the relation [Eo] and the sets [in_] the relation [Ei]. *)
Record adj (Eo Ei : Z -> Z -> Prop) (ns : list Node) : Prop := {
  a_sets : forall i, valid ns i -> set_ok (in_ (nd ns i)) /\ set_ok (out (nd ns i));
  a_out : forall u v, valid ns u -> (In v (elems (out (nd ns u))) <-> Eo u v);
  a_in : forall u v, valid ns v -> (In u (elems (in_ (nd ns v))) <-> Ei u v);
  a_vo : forall u v, Eo u v -> valid ns u /\ valid ns v;
  a_vi : forall u v, Ei u v -> valid ns u /\ valid ns v
}.

Definition set_room (s : NodeSet) : Prop := table_size (table_ s) < 2 ^ 31.

(** The tables can be indexed by a 32-bit integer, and doubled. *)
Definition room (ns : list Node) : Prop := forall i, valid ns i -> set_room (in_ (nd ns i)) /\ set_room (out (nd ns i)).

Definition plus (E : Z -> Z -> Prop) (x y u v : Z) : Prop := E u v \/ (u = x /\ v = y).

Definition minus (E : Z -> Z -> Prop) (x y u v : Z) : Prop := E u v /\ ~ (u = x /\ v = y).

(** What a node is besides its sets, and besides its marker. *)
Definition core (n : Node) := (rank n, version n, next_hash n, visited n, masked_ptr n, priority n, nstack n, stack n).

Definition unmarked (n : Node) := set_visited false n.

Lemma nd_map {B} (p : Node -> B) ns ns' i : map p ns' = map p ns -> p (nd ns' i) = p (nd ns i).
Proof. intros E. unfold nd. rewrite <- !(map_nth p). now rewrite E. Qed.

Lemma map_length_eq {A B} (p : A -> B) ns ns' : map p ns' = map p ns -> length ns' = length ns.
Proof. intros E. rewrite <- (length_map p ns'), E. apply length_map. Qed.

Lemma valid_map {B} (p : Node -> B) ns ns' i : map p ns' = map p ns -> (valid ns' i <-> valid ns i).
Proof. intros E. unfold valid. now rewrite (map_length_eq p _ _ E). Qed.

Lemma small_map {B} (p : Node -> B) ns ns' : map p ns' = map p ns -> small ns -> small ns'.
Proof. intros E. unfold small. now rewrite (map_length_eq p _ _ E). Qed.

Lemma map_through {A B C} (p : A -> B) (q : B -> C) (pq : A -> C) ns ns' : (forall n, pq n = q (p n)) -> map p ns' = map p ns -> map pq ns' = map pq ns.
Proof.
  intros E M. assert (K : forall l, map pq l = map q (map p l)) by (intros l; rewrite map_map; now apply map_ext).
  now rewrite !K, M.
Qed.

Lemma core_rank ns ns' : map core ns' = map core ns -> map rank ns' = map rank ns.
Proof. apply (map_through core (fun '(r, _, _, _, _, _, _, _) => r)). reflexivity. Qed.

Lemma unmarked_rank ns ns' : map unmarked ns' = map unmarked ns -> map rank ns' = map rank ns.
Proof. apply (map_through unmarked rank). reflexivity. Qed.

Lemma core_visited ns ns' : map core ns' = map core ns -> map visited ns' = map visited ns.
Proof. apply (map_through core (fun '(_, _, _, v, _, _, _, _) => v)). reflexivity. Qed.

Lemma adj_ext Eo Ei Eo' Ei' ns : adj Eo Ei ns -> (forall u v, Eo' u v <-> Eo u v) -> (forall u v, Ei' u v <-> Ei u v) -> adj Eo' Ei' ns.
Proof.
  intros [A B C D E] X Y. split; [exact A|intros u v V; rewrite X; now apply B|intros u v V; rewrite Y; now apply C| |];
    intros u v H; [apply X in H|apply Y in H]; eauto.
Qed.

(** Nothing but the sets matters. *)
Lemma adj_frame Eo Ei ns ns' : adj Eo Ei ns -> map in_ ns' = map in_ ns -> map out ns' = map out ns -> adj Eo Ei ns'.
Proof.
  intros [A B C D E] I O. pose proof (fun i => nd_map in_ ns ns' i I) as Ni. pose proof (fun i => nd_map out ns ns' i O) as No.
  pose proof (fun i => valid_map in_ ns ns' i I) as V.
  split; [intros i H|intros u v H|intros u v H|intros u v H; rewrite !V; auto|intros u v H; rewrite !V; auto]; rewrite V in H;
    rewrite ?Ni, ?No; auto.
Qed.

(** Sets change at one node. *)
Lemma adj_set_out Eo Ei Eo' ns x s : adj Eo Ei ns -> valid ns x -> set_ok s ->
  (forall v, In v (elems s) <-> Eo' x v) -> (forall u v, u <> x -> (Eo' u v <-> Eo u v)) ->
  (forall v, Eo' x v -> valid ns v) -> adj Eo' Ei (upd ns x (set_out s)).
Proof.
  intros [A B C D E] V S Q Q' W. split.
  - intros i. rewrite valid_upd. intros H. rewrite nd_upd by (auto; apply H). destruct (Z.eqb_spec i x) as [-> |N]; [|now apply A].
    split; [now apply A|exact S].
  - intros u v. rewrite valid_upd. intros H. rewrite nd_upd by (auto; apply H). destruct (Z.eqb_spec u x) as [-> |N]; [apply Q|].
    rewrite Q' by exact N. now apply B.
  - intros u v. rewrite valid_upd. intros H. rewrite (upd_field in_) by (auto; apply H). now apply C.
  - intros u v H. rewrite !valid_upd. destruct (Z.eq_dec u x) as [-> |N]; [auto|]. apply D. now apply Q'.
  - intros u v H. rewrite !valid_upd. auto.
Qed.

Lemma adj_set_in Eo Ei Ei' ns y s : adj Eo Ei ns -> valid ns y -> set_ok s ->
  (forall u, In u (elems s) <-> Ei' u y) -> (forall u v, v <> y -> (Ei' u v <-> Ei u v)) ->
  (forall u, Ei' u y -> valid ns u) -> adj Eo Ei' (upd ns y (set_in s)).
Proof.
  intros [A B C D E] V S Q Q' W. split.
  - intros i. rewrite valid_upd. intros H. rewrite nd_upd by (auto; apply H). destruct (Z.eqb_spec i y) as [-> |N]; [|now apply A].
    split; [exact S|now apply A].
  - intros u v. rewrite valid_upd. intros H. rewrite (upd_field out) by (auto; apply H). now apply B.
  - intros u v. rewrite valid_upd. intros H. rewrite nd_upd by (auto; apply H). destruct (Z.eqb_spec v y) as [-> |N]; [apply Q|].
    rewrite Q' by exact N. now apply C.
  - intros u v H. rewrite !valid_upd. auto.
  - intros u v H. rewrite !valid_upd. destruct (Z.eq_dec v y) as [-> |N]; [auto|]. apply E. now apply Q'.
Qed.

Lemma valid_range ns i : small ns -> valid ns i -> 0 <= i < 2 ^ 31.
Proof. unfold small, valid. lia. Qed.

(** The members of a set after an erasure. *)
Lemma erase_members s v s' : set_ok s -> (In v (elems s) -> Permutation (elems s) (v :: elems s')) -> (~ In v (elems s) -> s' = s) ->
  forall w, In w (elems s') <-> In w (elems s) /\ w <> v.
Proof.
  intros Ok P N w. destruct (In_dec Z.eq_dec v (elems s)) as [I|I].
  - pose proof (Permutation_NoDup (P I) (elems_distinct s Ok)) as D. inversion D as [|? ? D1 _]. subst.
    rewrite (P I). cbn [In]. split; [intros W; split; [now right|congruence]|intros ([W|W] & Q); [congruence|exact W]].
  - rewrite (N I). split; [intros W; split; [exact W|congruence]|tauto].
Qed.

Lemma erase_out_spec Eo Ei ns x y : small ns -> adj Eo Ei ns -> valid ns x -> valid ns y ->
  exists ns', erase_out y (Some ns) x = Some ns' /\ adj (minus Eo x y) Ei ns' /\ map core ns' = map core ns /\ (room ns -> room ns').
Proof.
  intros S A Vx Vy. unfold erase_out. cbn [obind]. rewrite node_at_valid by assumption. cbn [obind].
  destruct (erase_spec (out (nd ns x)) y (proj2 (a_sets _ _ _ A x Vx)) (valid_range ns y S Vy)) as (s & E & Ok & Sz & _ & P & N).
  rewrite E. cbn [obind]. rewrite update_valid by assumption. exists (upd ns x (set_out s)). split; [reflexivity|].
  pose proof (erase_members _ _ _ (proj2 (a_sets _ _ _ A x Vx)) P N) as M.
  split; [|split; [apply (upd_map core); [exact Vx|reflexivity]|]].
  - apply (adj_set_out Eo Ei); auto.
    + intros v. rewrite M, (a_out _ _ _ A) by exact Vx. unfold minus. intuition.
    + intros u v Q. unfold minus. tauto.
    + intros v (H & _). now apply (a_vo _ _ _ A x).
  - intros R i. rewrite valid_upd. intros H. rewrite nd_upd by (auto; apply H).
    destruct (Z.eqb_spec i x) as [-> |Q]; [|now apply R]. split; [now apply R|]. cbn [out set_out]. unfold set_room. rewrite Sz. now apply R.
Qed.

Lemma erase_in_spec Eo Ei ns x y : small ns -> adj Eo Ei ns -> valid ns x -> valid ns y ->
  exists ns', erase_in x (Some ns) y = Some ns' /\ adj Eo (minus Ei x y) ns' /\ map core ns' = map core ns /\ (room ns -> room ns').
Proof.
  intros S A Vx Vy. unfold erase_in. cbn [obind]. rewrite node_at_valid by assumption. cbn [obind].
  destruct (erase_spec (in_ (nd ns y)) x (proj1 (a_sets _ _ _ A y Vy)) (valid_range ns x S Vx)) as (s & E & Ok & Sz & _ & P & N).
  rewrite E. cbn [obind]. rewrite update_valid by assumption. exists (upd ns y (set_in s)). split; [reflexivity|].
  pose proof (erase_members _ _ _ (proj1 (a_sets _ _ _ A y Vy)) P N) as M.
  split; [|split; [apply (upd_map core); [exact Vy|reflexivity]|]].
  - apply (adj_set_in Eo Ei); auto.
    + intros u. rewrite M, (a_in _ _ _ A) by exact Vy. unfold minus. intuition.
    + intros u v Q. unfold minus. tauto.
    + intros u (H & _). now apply (a_vi _ _ _ A u y).
  - intros R i. rewrite valid_upd. intros H. rewrite nd_upd by (auto; apply H).
    destruct (Z.eqb_spec i y) as [-> |Q]; [|now apply R]. split; [|now apply R]. cbn [in_ set_in]. unfold set_room. rewrite Sz. now apply R.
Qed.

(** Tables that can still double without losing that room. *)
Definition spare (ns : list Node) : Prop :=
  forall i, valid ns i -> table_size (table_ (in_ (nd ns i))) < 2 ^ 30 /\ table_size (table_ (out (nd ns i))) < 2 ^ 30.

(** The two insertions of a new edge. *)
Lemma add_edge_spec E ns x y : small ns -> adj E E ns -> spare ns -> valid ns x -> valid ns y -> x <> y -> ~ E x y ->
  exists so si, insert (out (nd ns x)) y = Some (so, true) /\ insert (in_ (nd ns y)) x = Some (si, true) /\
  let ns' := upd (upd ns x (set_out so)) y (set_in si) in
  adj (plus E x y) (plus E x y) ns' /\ map core ns' = map core ns /\ room ns'.
Proof.
  intros S A R Vx Vy Nxy NE. destruct (a_sets _ _ _ A x Vx) as (_ & Ox). destruct (a_sets _ _ _ A y Vy) as (Iy & _).
  pose proof (proj2 (R x Vx)) as Rx. pose proof (proj1 (R y Vy)) as Ry.
  destruct (insert_new (out (nd ns x)) y Ox (valid_range ns y S Vy)) as (so & Io & Oko & Po & _ & Zo); [now rewrite (a_out _ _ _ A)|lia|].
  destruct (insert_new (in_ (nd ns y)) x Iy (valid_range ns x S Vx)) as (si & Ii & Oki & Pi & _ & Zi); [now rewrite (a_in _ _ _ A)|lia|].
  exists so, si. split; [exact Io|]. split; [exact Ii|]. intros ns'. split; [|split].
  - apply (adj_set_in _ E); [|now apply valid_upd|exact Oki| | |].
    + apply (adj_set_out E E); [exact A|exact Vx|exact Oko| | |].
      * intros v. rewrite Po. cbn [In]. rewrite (a_out _ _ _ A) by exact Vx. unfold plus. intuition congruence.
      * intros u v Q. unfold plus. tauto.
      * intros v [H|(_ & ->)]; [now apply (a_vo _ _ _ A x)|exact Vy].
    + intros u. rewrite Pi. cbn [In]. rewrite (a_in _ _ _ A) by exact Vy. unfold plus. intuition congruence.
    + intros u v Q. unfold plus. tauto.
    + intros u [H|(-> & _)]; apply valid_upd; [now apply (a_vi _ _ _ A u y)|exact Vx].
  - unfold ns'. rewrite (upd_map core); [|now apply valid_upd|reflexivity]. apply (upd_map core); [exact Vx|reflexivity].
  - intros i. unfold ns'. rewrite !valid_upd. intros V. destruct (R i V) as (Ri & Ro).
    assert (V1 : valid (upd ns x (set_out so)) y) by now apply valid_upd. rewrite (nd_upd _ y), !(nd_upd ns x) by (assumption || apply V || apply Vy).
    unfold set_room. destruct (Z.eqb_spec i y) as [-> |Ny]; [rewrite (proj2 (Z.eqb_neq y x)) by congruence|destruct (Z.eqb_spec i x) as [-> |Nx]];
      cbn [in_ out set_in set_out]; lia.
Qed.

(** ** The invariant of the graph *)
Definition indices (n : nat) : list Z := map Z.of_nat (seq 0 n).

(** The nodes represent the relation [E]: the ranks are a permutation of the indices, edges go up, and no
    marker is set. *)
Record graph_ok (E : Z -> Z -> Prop) (ns : list Node) : Prop := {
  g_small : small ns;
  g_adj : adj E E ns;
  g_ranks : Permutation (map rank ns) (indices (length ns));
  g_order : forall u v, E u v -> rank (nd ns u) < rank (nd ns v);
  g_unvisited : forall i, valid ns i -> visited (nd ns i) = false
}.

Lemma in_indices n i : In i (indices n) <-> 0 <= i < Z.of_nat n.
Proof.
  unfold indices. rewrite in_map_iff. split.
  - intros (k & <- & K). apply in_seq in K. lia.
  - intros H. exists (Z.to_nat i). split; [lia|]. apply in_seq. lia.
Qed.

Lemma indices_distinct n : NoDup (indices n).
Proof. unfold indices. apply Finite.Injective_map_NoDup; [intros a b; lia|apply seq_NoDup]. Qed.

Lemma map_indices {B} (p : Node -> B) ns : map (fun i => p (nd ns i)) (indices (length ns)) = map p ns.
Proof.
  unfold indices. rewrite map_map. induction ns as [|n ns IH]; [reflexivity|]. cbn [length seq map]. f_equal.
  rewrite <- IH. rewrite <- seq_shift, map_map. apply map_ext. intros k. f_equal. unfold nd. rewrite !Nat2Z.id. reflexivity.
Qed.

Lemma ranks_distinct ns : Permutation (map rank ns) (indices (length ns)) ->
  forall l, NoDup l -> (forall i, In i l -> valid ns i) -> NoDup (map (fun i => rank (nd ns i)) l).
Proof.
  intros P. assert (D : NoDup (map (fun i => rank (nd ns i)) (indices (length ns)))).
  { rewrite (map_indices rank). apply (Permutation_NoDup (Permutation_sym P)), indices_distinct. }
  assert (J : forall i j, valid ns i -> valid ns j -> rank (nd ns i) = rank (nd ns j) -> i = j).
  { intros i j I K Q. apply (in_indices (length ns)) in I, K. revert D I K. generalize (indices (length ns)). intros L D I K.
    induction L as [|a L IH]; [destruct I|]. cbn [map] in D. inversion D as [|? ? D1 D2]. subst. destruct I as [<- |I], K as [<- |K]; auto.
    - elim D1. rewrite Q. now apply (in_map (fun i => rank (nd ns i))).
    - elim D1. rewrite <- Q. now apply (in_map (fun i => rank (nd ns i))). }
  induction 1 as [|a l NI Dl IH]; intros V; cbn [map]; constructor.
  - intros I. apply in_map_iff in I as (b & Q & I). apply J in Q; [congruence|apply V; now right|apply V; now left].
  - apply IH. intros i I. apply V. now right.
Qed.

Lemma rank_inj E ns i j : graph_ok E ns -> valid ns i -> valid ns j -> rank (nd ns i) = rank (nd ns j) -> i = j.
Proof.
  intros G I J Q. destruct (Z.eq_dec i j) as [H|H]; [exact H|]. exfalso.
  assert (D : NoDup (map (fun i => rank (nd ns i)) [i; j])).
  { apply ranks_distinct; [apply G|repeat constructor; cbn; intuition|]. intros k [<- |[<- |[]]]; assumption. }
  cbn in D. rewrite Q in D. inversion D as [|? ? D1 _]. apply D1. now left.
Qed.

(** ** Markers *)
Definition mark_with (b : bool) (ns : list Node) (delta : list Z) : list Node :=
  fold_left (fun ns i => upd ns i (set_visited b)) delta ns.

Abbreviation mark := (mark_with true).
Abbreviation unmark := (mark_with false).

Lemma mark_snoc b ns delta i : mark_with b ns (delta ++ [i]) = upd (mark_with b ns delta) i (set_visited b).
Proof. unfold mark_with. now rewrite fold_left_app. Qed.

Lemma mark_spec b ns delta : (forall i, In i delta -> valid ns i) ->
  map unmarked (mark_with b ns delta) = map unmarked ns /\
  forall j, 0 <= j -> nd (mark_with b ns delta) j = if mem j delta then set_visited b (nd ns j) else nd ns j.
Proof.
  induction delta as [|i delta IH] using rev_ind; intros V; [split; reflexivity|]. rewrite mark_snoc.
  destruct IH as (M & Q); [intros j J; apply V; apply in_or_app; now left|].
  assert (Vi : valid (mark_with b ns delta) i) by (rewrite (valid_map unmarked ns) by exact M; apply V; apply in_or_app; right; now left).
  split; [rewrite (upd_map unmarked); [exact M|exact Vi|reflexivity]|]. intros j J. rewrite nd_upd by assumption.
  unfold mem. rewrite existsb_app. cbn [existsb]. rewrite orb_false_r. fold (mem j delta). destruct (Z.eqb_spec j i) as [-> |N].
  - rewrite orb_true_r, (Q i J). now destruct (mem i delta).
  - rewrite orb_false_r. now apply Q.
Qed.

Lemma mark_visited ns delta j : (forall i, In i delta -> valid ns i) -> 0 <= j ->
  visited (nd (mark ns delta) j) = visited (nd ns j) || mem j delta.
Proof. intros V J. rewrite (proj2 (mark_spec true ns delta V) j J). destruct (mem j delta); [now rewrite orb_true_r|now rewrite orb_false_r]. Qed.

Lemma mark_update b ns delta n : small ns -> (forall i, In i delta -> valid ns i) -> valid ns n ->
  update (mark_with b ns delta) n (set_visited b) = Some (mark_with b ns (delta ++ [n])).
Proof.
  intros S D V. destruct (mark_spec b ns delta D) as (M & _). rewrite mark_snoc. apply update_valid.
  - now apply (small_map unmarked ns).
  - now apply (valid_map unmarked ns).
Qed.

Lemma clear_all ns delta : small ns -> (forall i, In i delta -> valid ns i) -> fold_left clear_visited delta (Some ns) = Some (unmark ns delta).
Proof.
  intros S. induction delta as [|i delta IH] using rev_ind; intros V; [reflexivity|]. rewrite fold_left_app.
  assert (V' : forall j, In j delta -> valid ns j) by (intros j J; apply V; apply in_or_app; now left). rewrite IH by exact V'.
  cbn [fold_left clear_visited obind]. apply mark_update; [exact S|exact V'|]. apply V. apply in_or_app. right. now left.
Qed.

(** ** The searches *)
Section Search.
Context (ns : list Node) (Eo Ei : Z -> Z -> Prop) (Sm : small ns) (Ad : adj Eo Ei ns) (Rm : room ns).

Definition outs (i : Z) : list Z := elems (out (nd ns i)).
Definition ins (i : Z) : list Z := elems (in_ (nd ns i)).
Definition marked (i : Z) : bool := visited (nd ns i).
Definition rk (i : Z) : Z := rank (nd ns i).

Lemma node_at_mark delta i : (forall i, In i delta -> valid ns i) -> valid ns i ->
  exists n, node_at (mark ns delta) i = Some n /\ rank n = rk i /\ visited n = seen marked delta i /\ in_ n = in_ (nd ns i) /\ out n = out (nd ns i).
Proof.
  intros D V. destruct (mark_spec true ns delta D) as (M & Q). exists (nd (mark ns delta) i).
  split; [apply node_at_valid; [now apply (small_map unmarked ns)|now apply (valid_map unmarked ns)]|].
  rewrite mark_visited by (auto; apply V). rewrite Q by apply V. unfold seen, marked, rk; now destruct (mem i delta).
Qed.

Lemma forward_scan_spec delta ub : (forall i, In i delta -> valid ns i) -> forall ws st, (forall w, In w ws -> valid ns w) ->
  forward_scan (mark ns delta) ub ws st =
  Some (if existsb (fun w => rk w =? ub) ws then None
        else Some (rev (filter (fun w => negb (seen marked delta w) && (rk w <? ub)) ws) ++ st)).
Proof.
  intros D. induction ws as [|w ws IH]; intros st V; [reflexivity|]. cbn [forward_scan existsb filter].
  destruct (node_at_mark delta w D (V w (or_introl eq_refl))) as (n & E0 & E1 & E2 & _). rewrite E0. cbn [obind]. rewrite E1, E2.
  destruct (rk w =? ub); [reflexivity|]. cbn [orb]. rewrite IH by (intros v I; apply V; now right).
  destruct (existsb (fun w0 => rk w0 =? ub) ws); [reflexivity|].
  destruct (negb (seen marked delta w) && (rk w <? ub)); [|reflexivity]. cbn [rev]. now rewrite <- app_assoc.
Qed.

Lemma backward_scan_spec delta lb : (forall i, In i delta -> valid ns i) -> forall ws st, (forall w, In w ws -> valid ns w) ->
  backward_scan (mark ns delta) lb ws st = Some (rev (filter (fun w => negb (seen marked delta w) && (lb <? rk w)) ws) ++ st).
Proof.
  intros D. induction ws as [|w ws IH]; intros st V; [reflexivity|]. cbn [backward_scan filter].
  destruct (node_at_mark delta w D (V w (or_introl eq_refl))) as (n & E0 & E1 & E2 & _). rewrite E0. cbn [obind]. rewrite E1, E2.
  rewrite IH by (intros v I; apply V; now right).
  destruct (negb (seen marked delta w) && (lb <? rk w)); [|reflexivity]. cbn [rev]. now rewrite <- app_assoc.
Qed.

Lemma outs_valid i w : valid ns i -> In w (outs i) -> valid ns w.
Proof. intros V I. apply (a_out _ _ _ Ad) in I; [|exact V]. now apply (a_vo _ _ _ Ad i w). Qed.

Lemma ins_valid i w : valid ns i -> In w (ins i) -> valid ns w.
Proof. intros V I. apply (a_in _ _ _ Ad) in I; [|exact V]. now apply (a_vi _ _ _ Ad w i). Qed.

Lemma pushed_valid (p : Z -> bool) l st : (forall w, In w l -> valid ns w) -> (forall w, In w st -> valid ns w) ->
  forall w, In w (rev (filter p l) ++ st) -> valid ns w.
Proof. intros V1 V2 w I. apply in_app_iff in I as [I|I]; [|auto]. apply in_rev, filter_In in I as (I & _). auto. Qed.

Lemma snoc_valid delta n : (forall i, In i delta -> valid ns i) -> valid ns n -> forall i, In i (delta ++ [n]) -> valid ns i.
Proof. intros D V i I. apply in_app_iff in I as [I|[<- |[]]]; auto. Qed.

Lemma forward_loop_spec ub : forall fuel st delta, (forall i, In i st -> valid ns i) -> (forall i, In i delta -> valid ns i) ->
  forward_loop fuel (mark ns delta) ub st delta =
  option_map (fun '(d, b) => (mark ns d, d, b)) (dfs outs marked (fun w => rk w =? ub) (fun w => rk w <? ub) fuel st delta).
Proof.
  induction fuel as [|fuel IH]; intros [|n st] delta V D; try reflexivity. cbn [forward_loop dfs].
  assert (Vn : valid ns n) by (apply V; now left). assert (Vs : forall i, In i st -> valid ns i) by (intros i I; apply V; now right).
  destruct (node_at_mark delta n D Vn) as (nn & E0 & _ & E2 & _ & E3). rewrite E0. cbn [obind]. rewrite E2, E3.
  destruct (seen marked delta n); [now apply IH|]. rewrite mark_update by assumption. cbn [obind].
  rewrite for_each_spec by (now apply Rm). cbn [obind]. fold (outs n). pose proof (snoc_valid delta n D Vn) as D'.
  rewrite forward_scan_spec by (auto; intros w; now apply outs_valid). cbn [obind].
  destruct (existsb (fun w => rk w =? ub) (outs n)); [reflexivity|]. apply IH; [|exact D'].
  apply pushed_valid; [intros w; now apply outs_valid|exact Vs].
Qed.

Lemma backward_loop_spec lb : forall fuel st delta, (forall i, In i st -> valid ns i) -> (forall i, In i delta -> valid ns i) ->
  backward_loop fuel (mark ns delta) lb st delta =
  option_map (fun '(d, _) => (mark ns d, d)) (dfs ins marked (fun _ => false) (fun w => lb <? rk w) fuel st delta).
Proof.
  induction fuel as [|fuel IH]; intros [|n st] delta V D; try reflexivity. cbn [backward_loop dfs].
  assert (Vn : valid ns n) by (apply V; now left). assert (Vs : forall i, In i st -> valid ns i) by (intros i I; apply V; now right).
  destruct (node_at_mark delta n D Vn) as (nn & E0 & _ & E2 & E3 & _). rewrite E0. cbn [obind]. rewrite E2, E3.
  destruct (seen marked delta n); [now apply IH|]. rewrite mark_update by assumption. cbn [obind].
  rewrite for_each_spec by (now apply Rm). cbn [obind]. fold (ins n). pose proof (snoc_valid delta n D Vn) as D'.
  rewrite backward_scan_spec by (auto; intros w; now apply ins_valid). cbn [obind].
  replace (existsb (fun _ => false) (ins n)) with false by (induction (ins n); auto). apply IH; [|exact D'].
  apply pushed_valid; [intros w; now apply ins_valid|exact Vs].
Qed.

Lemma first_inv succ cut keep n : valid ns n -> search_inv succ marked cut keep (valid ns) n [n] [].
Proof.
  intros V. split; try (cbn; tauto).
  - intros i [[<- |[]]|[]]. exact V.
  - constructor.
  - intros i [[<- |[]]|[]]. apply rtn1_refl.
Qed.

Lemma first_fuel n : (length [n : Z] + (length ns - length (@nil Z)) * length ns <= search_fuel ns)%nat.
Proof. unfold search_fuel. cbn [length]. rewrite Nat.sub_0_r. apply Nat.le_refl. Qed.

Lemma ForwardDFS_spec n ub : valid ns n -> marked n = false ->
  exists delta b, ForwardDFS ns n ub = Some (mark ns delta, delta, b) /\
  search_result outs marked (fun w => rk w =? ub) (fun w => rk w <? ub) (valid ns) n delta b.
Proof.
  intros V M.
  destruct (dfs_spec outs marked (fun w => rk w =? ub) (fun w => rk w <? ub) (length ns) (valid ns) (distinct_length ns)
    outs_valid (fun i Vi => elems_distinct _ (proj2 (a_sets _ _ _ Ad i Vi))) n M (search_fuel ns) [n] [] (first_inv _ _ _ n V) (first_fuel n))
    as (delta & b & D & R).
  exists delta, b. split; [|exact R]. unfold ForwardDFS. change ns with (mark ns []) at 2.
  rewrite forward_loop_spec; [now rewrite D|intros i [<- |[]]; exact V|intros i []].
Qed.

Lemma BackwardDFS_spec n lb : valid ns n -> marked n = false ->
  exists delta, BackwardDFS ns n lb = Some (mark ns delta, delta) /\
  search_result ins marked (fun _ => false) (fun w => lb <? rk w) (valid ns) n delta true.
Proof.
  intros V M.
  destruct (dfs_spec ins marked (fun _ => false) (fun w => lb <? rk w) (length ns) (valid ns) (distinct_length ns)
    ins_valid (fun i Vi => elems_distinct _ (proj1 (a_sets _ _ _ Ad i Vi))) n M (search_fuel ns) [n] [] (first_inv _ _ _ n V) (first_fuel n))
    as (delta & b & D & R).
  exists delta. destruct b; [|destruct (o_cut _ _ _ _ _ _ _ _ R eq_refl) as (i & w & _ & _ & C); discriminate].
  split; [|exact R]. unfold BackwardDFS. change ns with (mark ns []) at 2.
  rewrite backward_loop_spec; [now rewrite D|intros i [<- |[]]; exact V|intros i []].
Qed.
End Search.

(** ** Reordering *)
Lemma nodes_ext {B} (p : Node -> B) ns ns' : length ns' = length ns -> (forall j, valid ns j -> p (nd ns' j) = p (nd ns j)) -> map p ns' = map p ns.
Proof.
  intros L E. rewrite <- (map_indices p ns), <- (map_indices p ns'), L. apply map_ext_in. intros j J. apply E. now apply in_indices.
Qed.

Lemma MoveToList_spec : forall src ns dst, small ns -> (forall i, In i src -> valid ns i) -> NoDup src ->
  MoveToList ns src dst = Some (unmark ns src, map (fun i => rank (nd ns i)) src, dst ++ src).
Proof.
  induction src as [|w src IH]; intros ns dst S V D; [cbn; now rewrite app_nil_r|]. cbn [MoveToList].
  inversion D as [|? ? N D']. subst. assert (Vw : valid ns w) by (apply V; now left).
  rewrite node_at_valid, update_valid by assumption. cbn [obind].
  rewrite IH; [|now apply small_upd|intros i I; apply valid_upd, V; now right|exact D']. cbn [obind map]. rewrite <- app_assoc.
  do 4 f_equal. apply map_ext_in. intros i I. apply (upd_field rank); [exact Vw| |reflexivity]. destruct (V i (or_intror I)). lia.
Qed.

Lemma given_rank_ext f g l : forall m w, f w = g w -> given_rank f l m w = given_rank g l m w.
Proof. induction l as [|a l IH]; intros [|r m] w E; cbn [given_rank]; auto. destruct (w =? a); auto. Qed.

Lemma assign_ranks_spec : forall l m ns, small ns -> (forall i, In i l -> valid ns i) -> NoDup l -> length m = length l ->
  exists ns', assign_ranks ns l m = Some ns' /\ length ns' = length ns /\
  forall j, 0 <= j -> nd ns' j = set_rank (given_rank (fun i => rank (nd ns i)) l m j) (nd ns j).
Proof.
  induction l as [|w l IH]; intros [|r m] ns S V D L; cbn [length] in L; try lia.
  { exists ns. split; [reflexivity|]. split; [reflexivity|]. intros j _. cbn [given_rank]. now destruct (nd ns j). }
  inversion D as [|? ? N D']. subst. assert (Vw : valid ns w) by (apply V; now left). cbn [assign_ranks given_rank].
  rewrite update_valid by assumption. cbn [obind].
  destruct (IH m (upd ns w (set_rank r))) as (ns' & E & Len & Q); [now apply small_upd|intros i I; apply valid_upd, V; now right|exact D'|lia|].
  exists ns'. split; [exact E|]. split; [now rewrite Len, upd_nodes_length|]. intros j J. rewrite (Q j J), nd_upd by assumption.
  destruct (Z.eqb_spec j w) as [-> |Nj].
  - rewrite given_out by exact N. rewrite nd_upd_same by exact Vw. reflexivity.
  - f_equal. apply given_rank_ext. now rewrite nd_upd_other.
Qed.

Lemma mem_app j a b : mem j (a ++ b) = mem j a || mem j b.
Proof. apply existsb_app. Qed.

Lemma Sort_perm ns delta : Permutation (Sort ns delta) delta.
Proof. apply sort_perm. Qed.

(** [Reorder] on the marked nodes: the markers are cleared and the merged ranks assigned. *)
Lemma Reorder_spec ns B F : small ns -> (forall i, In i (B ++ F) -> valid ns i) -> NoDup (B ++ F) ->
  exists ns', Reorder ns B F = Some ns' /\ length ns' = length ns /\
  forall j, 0 <= j -> nd ns' j = set_rank (new_rank (fun i => rank (nd ns i)) (Sort ns B) (Sort ns F) j)
    (set_visited (visited (nd ns j) && negb (mem j (B ++ F))) (nd ns j)).
Proof.
  intros S V D. set (Bs := Sort ns B). set (Fs := Sort ns F).
  assert (PB : Permutation Bs B) by apply Sort_perm. assert (PF : Permutation Fs F) by apply Sort_perm.
  assert (PBF : Permutation (Bs ++ Fs) (B ++ F)) by now apply Permutation_app.
  assert (D' : NoDup (Bs ++ Fs)) by (apply (Permutation_NoDup (Permutation_sym PBF) D)).
  assert (V' : forall i, In i (Bs ++ Fs) -> valid ns i) by (intros i I; apply V; now apply (Permutation_in _ PBF)).
  assert (VB : forall i, In i Bs -> valid ns i) by (intros i I; apply V', in_or_app; now left).
  assert (VF : forall i, In i Fs -> valid ns i) by (intros i I; apply V', in_or_app; now right).
  destruct (mark_spec false ns Bs VB) as (M1 & Q1).
  assert (VF1 : forall i, In i Fs -> valid (unmark ns Bs) i) by (intros i I; apply (valid_map unmarked ns); auto).
  destruct (mark_spec false (unmark ns Bs) Fs VF1) as (M2 & Q2). set (ns2 := unmark (unmark ns Bs) Fs) in *.
  assert (M : map unmarked ns2 = map unmarked ns) by congruence.
  assert (R1 : forall i, rank (nd (unmark ns Bs) i) = rank (nd ns i)) by (intros i; apply (nd_map rank), unmarked_rank, M1).
  assert (R2 : forall i, rank (nd ns2 i) = rank (nd ns i)) by (intros i; apply (nd_map rank), unmarked_rank, M).
  unfold Reorder. fold Bs Fs. rewrite MoveToList_spec; [|exact S|exact VB|now apply NoDup_app_remove_r in D']. cbn [obind].
  rewrite MoveToList_spec; [|now apply (small_map unmarked ns)|exact VF1|now apply NoDup_app_remove_l in D']. cbn [obind app].
  fold ns2. rewrite (map_ext _ _ R1). fold (merged (fun i => rank (nd ns i)) Bs Fs).
  destruct (assign_ranks_spec (Bs ++ Fs) (merged (fun i => rank (nd ns i)) Bs Fs) ns2) as (ns' & E & Len & Q).
  - now apply (small_map unmarked ns).
  - intros i I. apply (valid_map unmarked ns); auto.
  - exact D'.
  - apply merged_length.
  - exists ns'. split; [exact E|]. split; [rewrite Len; apply (map_length_eq unmarked _ _ M)|]. intros j J. rewrite (Q j J).
    rewrite (given_rank_ext _ (fun i => rank (nd ns i))) by apply R2. fold (new_rank (fun i => rank (nd ns i)) Bs Fs).
    rewrite (Q2 j J), (Q1 j J), (mem_perm j _ _ (Permutation_sym PBF)). rewrite mem_app.
    destruct (mem j Fs), (mem j Bs); cbn [orb negb]; rewrite ?andb_true_r, ?andb_false_r; destruct (nd ns j); reflexivity.
Qed.

(** ** An insertion against the ranks *)

(** What the graph operations leave alone. *)
Definition ident (n : Node) := (version n, next_hash n, masked_ptr n, priority n, nstack n, stack n).

Lemma core_ident ns ns' : map core ns' = map core ns -> map ident ns' = map ident ns.
Proof. apply (map_through core (fun '(_, v, h, _, p, pr, k, s) => (v, h, p, pr, k, s))). reflexivity. Qed.

Lemma unmarked_ident ns ns' : map unmarked ns' = map unmarked ns -> map ident ns' = map ident ns.
Proof. apply (map_through unmarked ident). reflexivity. Qed.

Lemma unmarked_in ns ns' : map unmarked ns' = map unmarked ns -> map in_ ns' = map in_ ns.
Proof. apply (map_through unmarked in_). reflexivity. Qed.

Lemma unmarked_out ns ns' : map unmarked ns' = map unmarked ns -> map out ns' = map out ns.
Proof. apply (map_through unmarked out). reflexivity. Qed.

Section Against.
Context (E : Z -> Z -> Prop) (ns ns1 : list Node) (x y : Z).
Context (G : graph_ok E ns) (Vx : valid ns x) (Vy : valid ns y) (NE : ~ E x y).
Context (Rxy : rank (nd ns y) < rank (nd ns x)).
Context (A1 : adj (plus E x y) (plus E x y) ns1) (C1 : map core ns1 = map core ns) (R1 : room ns1).

#[local] Abbreviation rk0 := (fun i => rank (nd ns i)).

Lemma against_small : small ns1.
Proof. apply (small_map core ns); [exact C1|apply G]. Qed.

Lemma against_valid i : valid ns1 i <-> valid ns i.
Proof. apply (valid_map core ns ns1 i C1). Qed.

Lemma against_rank i : rank (nd ns1 i) = rank (nd ns i).
Proof. apply (nd_map rank), core_rank, C1. Qed.

Lemma against_unvisited i : valid ns i -> visited (nd ns1 i) = false.
Proof. intros V. rewrite (nd_map visited ns ns1 i (core_visited _ _ C1)). now apply G. Qed.

Section Found.
Context (F : list Z) (b : bool).
Context (SF : search_result (outs ns1) (marked ns1) (fun w => rk ns1 w =? rank (nd ns x)) (fun w => rk ns1 w <? rank (nd ns x)) (valid ns1) y F b).

Lemma F_edge i w : valid ns i -> In w (outs ns1 i) -> rk0 i < rk0 x -> E i w.
Proof.
  intros V I R. apply (a_out _ _ _ A1) in I as [I|(-> & _)]; [exact I|lia|now apply against_valid].
Qed.

Lemma F_sound i : In i F -> path E y i /\ rk0 i < rk0 x.
Proof.
  intros I. pose proof (o_reach _ _ _ _ _ _ _ _ SF i I) as P. clear I. induction P as [|i w (I & K) P IH]; [split; [apply rt_refl|exact Rxy]|].
  destruct IH as (Q & R). apply Z.ltb_lt in K. unfold rk in K. rewrite against_rank in K. split; [|exact K].
  apply rt_trans with i; [exact Q|]. apply rt_step. apply F_edge; [|exact I|exact R].
  apply clos_rt_rtn1 in Q. destruct Q as [|u v H _]; [exact Vy|]. now apply (a_vo _ _ _ (g_adj _ _ G) u).
Qed.

Lemma F_valid i : In i F -> valid ns i.
Proof. intros I. apply against_valid. now apply (o_inside _ _ _ _ _ _ _ _ SF). Qed.

(** The search that was cut short met [x]. *)
Lemma F_cycle : b = false -> path E y x.
Proof.
  intros B. destruct (o_cut _ _ _ _ _ _ _ _ SF B) as (i & w & I & W & C). apply Z.eqb_eq in C. unfold rk in C. rewrite against_rank in C.
  destruct (F_sound i I) as (P & R). pose proof (F_edge i w (F_valid i I) W R) as H.
  apply (rank_inj E ns) in C; [|exact G|now apply (a_vo _ _ _ (g_adj _ _ G) i)|exact Vx]. subst w.
  apply rt_trans with i; [exact P|now apply rt_step].
Qed.

Lemma F_closed i w : b = true -> In i F -> E i w -> rk0 w <> rk0 x /\ (rk0 w < rk0 x -> In w F).
Proof.
  intros B I H. destruct (o_closed _ _ _ _ _ _ _ _ SF B) as (_ & C).
  assert (W : In w (outs ns1 i)) by (apply (a_out _ _ _ A1); [apply against_valid; now apply F_valid|now left]).
  destruct (C i w I W) as (C1' & C2). unfold rk in C1', C2. rewrite against_rank in *. apply Z.eqb_neq in C1'. split; [exact C1'|].
  intros L. destruct (C2 (proj2 (Z.ltb_lt _ _) L)) as [Q|Q]; [exact Q|].
  unfold marked in Q. rewrite against_unvisited in Q by (now apply (a_vo _ _ _ (g_adj _ _ G) i)). discriminate.
Qed.

Lemma F_root : b = true -> In y F.
Proof. intros B. apply (o_closed _ _ _ _ _ _ _ _ SF B). Qed.

Lemma F_no_path : b = true -> ~ path E y x.
Proof.
  intros B. apply (no_cycle E rk0 x y F); [apply G|now apply F_root|exact F_sound|]. intros i w I H. exact (F_closed i w B I H).
Qed.

(** The backward search runs on the nodes that the forward search has marked. *)
#[local] Abbreviation ns2 := (mark ns1 F).

Lemma F_valid1 i : In i F -> valid ns1 i.
Proof. intros I. apply against_valid. now apply F_valid. Qed.

Lemma mark2 : map unmarked ns2 = map unmarked ns1.
Proof. apply mark_spec, F_valid1. Qed.

Lemma marked2 i : valid ns i -> marked ns2 i = mem i F.
Proof.
  intros V. unfold marked. rewrite mark_visited; [|exact F_valid1|apply V]. now rewrite against_unvisited.
Qed.

Lemma x_unmarked : marked ns2 x = false.
Proof.
  rewrite marked2 by exact Vx. destruct (mem x F) eqn:M; [|reflexivity]. apply mem_in in M. destruct (F_sound x M). lia.
Qed.

Lemma rank2 i : rank (nd ns2 i) = rk0 i.
Proof. rewrite (nd_map rank ns1 ns2 i (unmarked_rank _ _ mark2)). apply against_rank. Qed.

Lemma valid2 i : valid ns2 i <-> valid ns i.
Proof. rewrite (valid_map unmarked ns1 ns2 i mark2). apply against_valid. Qed.

Lemma adj2 : adj (plus E x y) (plus E x y) ns2.
Proof. apply (adj_frame _ _ ns1); [exact A1|apply unmarked_in, mark2|apply unmarked_out, mark2]. Qed.

Lemma room2 : room ns2.
Proof.
  intros i V. rewrite (nd_map in_ ns1 ns2 i (unmarked_in _ _ mark2)), (nd_map out ns1 ns2 i (unmarked_out _ _ mark2)).
  apply R1. now rewrite (valid_map unmarked ns1 ns2 i mark2) in V.
Qed.

Section Moved.
Context (B : list Z) (HT : b = true).
Context (SB : search_result (ins ns2) (marked ns2) (fun _ => false) (fun w => rank (nd ns y) <? rk ns2 w) (valid ns2) x B true).

Lemma B_valid i : In i B -> valid ns i.
Proof. intros I. apply valid2. now apply (o_inside _ _ _ _ _ _ _ _ SB). Qed.

Lemma B_edge i w : valid ns i -> rk0 y < rk0 i -> (In w (ins ns2 i) <-> E w i).
Proof.
  intros V R. unfold ins. rewrite (a_in _ _ _ adj2) by now apply valid2. unfold plus. split; [|tauto]. intros [H|(_ & ->)]; [exact H|lia].
Qed.

Lemma B_sound i : In i B -> path E i x /\ rk0 y < rk0 i /\ ~ In i F.
Proof.
  intros I. split; [|split].
  - assert (Q : path E i x /\ rk0 y < rk0 i /\ valid ns i).
    { pose proof (o_reach _ _ _ _ _ _ _ _ SB i I) as P. clear I. induction P as [|i w (I & K) P IH]; [split; [apply rt_refl|auto]|].
      destruct IH as (Q & R & V). apply B_edge in I; [|exact V|exact R]. apply Z.ltb_lt in K. unfold rk in K. rewrite rank2 in K.
      split; [apply rt_trans with i; [now apply rt_step|exact Q]|]. split; [exact K|now apply (a_vo _ _ _ (g_adj _ _ G) w i)]. }
    apply Q.
  - pose proof (o_reach _ _ _ _ _ _ _ _ SB i I) as P. destruct P as [|i w (_ & K) _]; [exact Rxy|].
    apply Z.ltb_lt in K. unfold rk in K. now rewrite rank2 in K.
  - intros Q. pose proof (o_new _ _ _ _ _ _ _ _ SB i I) as N. rewrite marked2 in N by now apply B_valid. apply mem_in in Q. congruence.
Qed.

Lemma B_closed i w : In i B -> E w i -> rk0 y < rk0 w -> In w B \/ In w F.
Proof.
  intros I H R. destruct (o_closed _ _ _ _ _ _ _ _ SB eq_refl) as (_ & C).
  destruct (B_sound i I) as (_ & Ri & _). destruct (C i w I) as (_ & C2); [apply B_edge; [now apply B_valid|exact Ri|exact H]|].
  unfold rk in C2. rewrite rank2 in C2. destruct (C2 (proj2 (Z.ltb_lt _ _) R)) as [Q|Q]; [now left|right].
  rewrite marked2 in Q by now apply (a_vo _ _ _ (g_adj _ _ G) w i). now apply mem_in.
Qed.

#[local] Abbreviation ns3 := (mark ns2 B).
#[local] Abbreviation rk3 := (fun i => rank (nd ns3 i)).

Lemma mark3 : map unmarked ns3 = map unmarked ns2.
Proof. apply mark_spec. intros i I. apply valid2. now apply B_valid. Qed.

Lemma rank3 i : rk3 i = rk0 i.
Proof. cbn. rewrite (nd_map rank ns2 ns3 i (unmarked_rank _ _ mark3)). apply rank2. Qed.

Lemma moved_valid i : In i (B ++ F) -> valid ns i.
Proof. intros I. apply in_app_iff in I as [I|I]; [now apply B_valid|now apply F_valid]. Qed.

Lemma moved_distinct : NoDup (B ++ F).
Proof. apply NoDup_app; [apply (o_nodup _ _ _ _ _ _ _ _ SB)|apply (o_nodup _ _ _ _ _ _ _ _ SF)|]. intros i I. now apply B_sound. Qed.

Lemma sorted_part l : NoDup l -> (forall i, In i l -> valid ns i) -> StronglySorted (fun a c => rk3 a < rk3 c) (Sort ns3 l).
Proof.
  intros D V. apply sort_sorted. rewrite (map_ext _ _ rank3). apply ranks_distinct; [apply G|exact D|exact V].
Qed.

Lemma moved_perm : Permutation (Sort ns3 B ++ Sort ns3 F) (B ++ F).
Proof. apply Permutation_app; apply Sort_perm. Qed.

Lemma moved_sorted_distinct : NoDup (Sort ns3 B ++ Sort ns3 F) /\ NoDup (map rk3 (Sort ns3 B ++ Sort ns3 F)).
Proof.
  pose proof (Permutation_NoDup (Permutation_sym moved_perm) moved_distinct) as D. split; [exact D|].
  rewrite (map_ext _ _ rank3). apply ranks_distinct; [apply G|exact D|]. intros i I. apply moved_valid. now apply (Permutation_in _ moved_perm).
Qed.

(** The new ranks respect every edge. *)
Lemma moved_order u v : plus E x y u v -> new_rank rk3 (Sort ns3 B) (Sort ns3 F) u < new_rank rk3 (Sort ns3 B) (Sort ns3 F) v.
Proof.
  intros H. pose proof (fun i => Permutation_in i (Sort_perm ns3 B)) as InB. pose proof (fun i => Permutation_in i (Sort_perm ns3 F)) as InF.
  pose proof (fun i => Permutation_in i (Permutation_sym (Sort_perm ns3 B))) as InB'.
  pose proof (fun i => Permutation_in i (Permutation_sym (Sort_perm ns3 F))) as InF'. destruct moved_sorted_distinct as (D1 & D2).
  apply (new_rank_edge E rk3 x y (Sort ns3 B) (Sort ns3 F)); [| | | | | | | | | | | |exact H]; cbn beta.
  - intros u' v' Q. rewrite !rank3. now apply G.
  - now apply InF', F_root.
  - intros i I. rewrite !rank3. now apply F_sound, InF.
  - intros i w I Q. rewrite !rank3. destruct (F_closed i w HT (InF i I) Q) as (C & C'). split; [exact C|]. intros L. now apply InF', C'.
  - apply InB'. now apply (o_closed _ _ _ _ _ _ _ _ SB).
  - intros i I. rewrite !rank3. destruct (B_sound i (InB i I)) as (P1 & P2 & P3). split; [exact P1|]. split; [exact P2|]. intros Q. now apply P3, InF.
  - intros i w I Q. rewrite !rank3. intros L. destruct (B_closed i w (InB i I) Q L); [left|right]; auto.
  - apply sorted_part; [apply (o_nodup _ _ _ _ _ _ _ _ SB)|apply B_valid].
  - apply sorted_part; [apply (o_nodup _ _ _ _ _ _ _ _ SF)|apply F_valid].
  - exact D1.
  - exact D2.
  - intros N. rewrite !rank3. intros Q. apply N, in_or_app. right. apply InF'.
    destruct H as [H|(-> & ->)]; [|lia]. apply (rank_inj E ns) in Q; [|exact G|now apply (a_vo _ _ _ (g_adj _ _ G) u v)|exact Vy]. subst u. now apply F_root.
Qed.

Lemma moved_ok : exists ns', Reorder ns3 B F = Some ns' /\ graph_ok (plus E x y) ns' /\ map ident ns' = map ident ns.
Proof.
  assert (S3 : small ns3) by (apply (small_map unmarked ns2); [apply mark3|]; apply (small_map unmarked ns1); [apply mark2|apply against_small]).
  assert (V3 : forall i, valid ns3 i <-> valid ns i) by (intros i; rewrite (valid_map unmarked ns2 ns3 i mark3); apply valid2).
  destruct (Reorder_spec ns3 B F S3) as (ns' & R & Len & Q); [intros i I; now apply V3, moved_valid|apply moved_distinct|].
  exists ns'. split; [exact R|]. assert (V' : forall i, valid ns' i <-> valid ns i) by (intros i; rewrite <- V3; unfold valid; now rewrite Len).
  assert (L' : length ns' = length ns) by (rewrite Len, (map_length_eq unmarked _ _ mark3), (map_length_eq unmarked _ _ mark2); apply (map_length_eq core _ _ C1)).
  assert (M : forall {T} (p : Node -> T), (forall r vs n, p (set_rank r (set_visited vs n)) = p n) -> map p ns' = map p ns3).
  { intros T p Hp. apply nodes_ext; [exact Len|]. intros j J. rewrite Q by apply J. apply Hp. }
  destruct moved_sorted_distinct as (D1 & D2).
  assert (Rk : forall i, valid ns i -> rank (nd ns' i) = new_rank rk3 (Sort ns3 B) (Sort ns3 F) i) by (intros i V; rewrite Q by apply V; reflexivity).
  split; [split|].
  - unfold small. rewrite Len. exact S3.
  - apply (adj_frame _ _ ns2); [exact adj2| |]; (rewrite M by reflexivity); [apply unmarked_in, mark3|apply unmarked_out, mark3].
  - rewrite L'. etransitivity; [|apply (g_ranks _ _ G)]. rewrite <- (map_indices rank ns'), <- (map_indices rank ns), L'.
    erewrite map_ext_in; [|intros i I; apply Rk; unfold valid; now apply in_indices].
    rewrite (new_rank_perm rk3 _ _ D1 (indices (length ns))); [now rewrite (map_ext _ _ rank3)|apply indices_distinct|].
    intros i I. apply in_indices. apply moved_valid. now apply (Permutation_in _ moved_perm).
  - intros u v H. assert (Vuv : valid ns u /\ valid ns v).
    { rewrite <- !against_valid. now apply (a_vo _ _ _ A1). }
    rewrite !Rk by tauto. now apply moved_order.
  - intros i V. apply V' in V. rewrite Q by apply V. cbn [visited set_rank set_visited]. rewrite mark_visited; [|intros j J; now apply valid2, B_valid|apply V].
    fold (marked ns2 i). rewrite marked2 by exact V. rewrite mem_app. now destruct (mem i B), (mem i F).
  - rewrite M by reflexivity. rewrite (unmarked_ident _ _ mark3), (unmarked_ident _ _ mark2). now apply core_ident.
Qed.
End Moved.

(** When the search met a cycle the edge and the markers are taken back. *)
Lemma undo_ok : exists ns4 ns5 ns6, erase_out y (Some ns2) x = Some ns4 /\ erase_in x (Some ns4) y = Some ns5 /\
  fold_left clear_visited F (Some ns5) = Some ns6 /\ graph_ok E ns6 /\ map ident ns6 = map ident ns.
Proof.
  assert (S2 : small ns2) by (apply (small_map unmarked ns1); [apply mark2|apply against_small]).
  destruct (erase_out_spec _ _ ns2 x y S2 adj2) as (ns4 & E4 & A4 & C4 & _); [now apply valid2..|].
  assert (V4 : forall i, valid ns4 i <-> valid ns i) by (intros i; rewrite (valid_map core ns2 ns4 i C4); apply valid2).
  destruct (erase_in_spec _ _ ns4 x y (small_map core ns2 ns4 C4 S2) A4) as (ns5 & E5 & A5 & C5 & _); [now apply V4..|].
  assert (C52 : map core ns5 = map core ns2) by congruence.
  assert (V5 : forall i, valid ns5 i <-> valid ns i) by (intros i; rewrite (valid_map core ns2 ns5 i C52); apply valid2).
  assert (S5 : small ns5) by apply (small_map core ns2 ns5 C52 S2).
  assert (VF : forall i, In i F -> valid ns5 i) by (intros i I; now apply V5, F_valid).
  exists ns4, ns5, (unmark ns5 F). split; [exact E4|]. split; [exact E5|]. split; [now apply clear_all|].
  destruct (mark_spec false ns5 F VF) as (M6 & Q6).
  assert (Rk : map rank (unmark ns5 F) = map rank ns).
  { rewrite (unmarked_rank _ _ M6), (core_rank _ _ C52), (unmarked_rank _ _ mark2). now apply core_rank. }
  assert (Len : length (unmark ns5 F) = length ns) by apply (map_length_eq rank _ _ Rk).
  split; [split|].
  - unfold small. rewrite Len. apply G.
  - apply (adj_frame _ _ ns5); [|now apply unmarked_in|now apply unmarked_out].
    apply (adj_ext _ _ _ _ _ A5); intros u v; unfold minus, plus; (split; [|tauto]); intros H; (split; [now left|]); intros (-> & ->); contradiction.
  - rewrite Rk, Len. apply G.
  - intros u v H. rewrite !(nd_map rank ns _ _ Rk). now apply G.
  - intros i V. assert (Vi : valid ns i) by (unfold valid in *; now rewrite Len in V). rewrite Q6 by apply V.
    destruct (mem i F) eqn:M; [reflexivity|]. rewrite (nd_map visited ns2 ns5 i (core_visited _ _ C52)). fold (marked ns2 i).
    now rewrite marked2.
  - rewrite (unmarked_ident _ _ M6), (core_ident _ _ C52), (unmarked_ident _ _ mark2). now apply core_ident.
Qed.
End Found.

(** The searches and what follows them. *)
Lemma against_cases :
  (exists F ns4 ns5 ns6, ForwardDFS ns1 y (rk0 x) = Some (mark ns1 F, F, false) /\ erase_out y (Some (mark ns1 F)) x = Some ns4 /\
    erase_in x (Some ns4) y = Some ns5 /\ fold_left clear_visited F (Some ns5) = Some ns6 /\
    graph_ok E ns6 /\ map ident ns6 = map ident ns /\ path E y x) \/
  (exists F B ns3 ns', ForwardDFS ns1 y (rk0 x) = Some (mark ns1 F, F, true) /\ BackwardDFS (mark ns1 F) x (rk0 y) = Some (ns3, B) /\
    Reorder ns3 B F = Some ns' /\ graph_ok (plus E x y) ns' /\ map ident ns' = map ident ns /\ ~ path E y x).
Proof.
  destruct (ForwardDFS_spec ns1 _ _ against_small A1 R1 y (rk0 x)) as (F & b & FD & SF); [now apply against_valid|now apply against_unvisited|].
  destruct b; [right|left].
  - assert (S2 : small (mark ns1 F)) by (apply (small_map unmarked ns1); [apply (mark2 F true SF)|apply against_small]).
    destruct (BackwardDFS_spec (mark ns1 F) _ _ S2 (adj2 F true SF) (room2 F true SF) x (rk0 y)) as (B & BD & SB);
      [now apply (valid2 F true SF)|apply (x_unmarked F true SF)|].
    destruct (moved_ok F true SF B eq_refl SB) as (ns' & Ro & G' & Id). exists F, B, (mark (mark ns1 F) B), ns'.
    repeat (split; [assumption|]). exact (F_no_path F true SF eq_refl).
  - destruct (undo_ok F false SF) as (ns4 & ns5 & ns6 & E4 & E5 & E6 & G6 & Id). exists F, ns4, ns5, ns6.
    repeat (split; [assumption|]). exact (F_cycle F false SF eq_refl).
Qed.
End Against.

(** ** Insertion of an edge *)

(** The identifier has not expired. *)
Definition current (r : Rep) (id : Z) : bool := version (nd (nodes_ r) (NodeIndex id)) =? NodeVersion id.

Lemma FindNode_spec r id : small (nodes_ r) -> valid (nodes_ r) (NodeIndex id) ->
  FindNode r id = Some (if current r id then Some (nd (nodes_ r) (NodeIndex id)) else None).
Proof. intros S V. unfold FindNode. rewrite node_at_valid by assumption. reflexivity. Qed.

Lemma path_ranks E ns u v : graph_ok E ns -> path E u v -> rank (nd ns u) <= rank (nd ns v).
Proof. intros G. apply (path_rank E (fun i => rank (nd ns i))). apply G. Qed.

Lemma graph_ext E E' ns : graph_ok E ns -> (forall u v, E' u v <-> E u v) -> graph_ok E' ns.
Proof.
  intros [A B C D F] X. split; auto; [now apply (adj_ext E E)|]. intros u v H. apply D. now apply X.
Qed.

(** What [InsertEdge] leaves besides the sets and the ranks. *)
Definition same_rest (r r' : Rep) : Prop :=
  map ident (nodes_ r') = map ident (nodes_ r) /\ free_nodes_ r' = free_nodes_ r /\ ptrmap_ r' = ptrmap_ r.

Lemma InsertEdge_current E r idx idy : graph_ok E (nodes_ r) -> spare (nodes_ r) ->
  let x := NodeIndex idx in let y := NodeIndex idy in
  valid (nodes_ r) x -> valid (nodes_ r) y -> current r idx = true -> current r idy = true ->
  exists r' b, InsertEdge r idx idy = Some (r', b) /\ same_rest r r' /\ (b = false <-> path E y x) /\
  graph_ok (if b then plus E x y else E) (nodes_ r').
Proof.
  intros G Sp x y Vx Vy Cx Cy. unfold InsertEdge. fold x y. pose proof (g_small _ _ G) as S.
  rewrite !FindNode_spec by assumption. rewrite Cx, Cy. cbn [obind]. fold x y.
  destruct (Z.eqb_spec x y) as [Q|Nxy].
  { exists r, false. split; [reflexivity|]. split; [now repeat split|]. split; [rewrite Q; split; [intros _; apply rt_refl|reflexivity]|exact G]. }
  assert (Dec : E x y \/ ~ E x y).
  { rewrite <- (a_out _ _ _ (g_adj _ _ G) x y Vx). destruct (In_dec Z.eq_dec y (elems (out (nd (nodes_ r) x)))); auto. }
  destruct Dec as [Ex|NE].
  - rewrite insert_member; [|now apply (a_sets _ _ _ (g_adj _ _ G))|now apply (valid_range (nodes_ r))|now apply (a_out _ _ _ (g_adj _ _ G))].
    cbn [obind negb]. exists r, true. split; [reflexivity|]. split; [now repeat split|]. split.
    + split; [discriminate|]. intros P. apply (path_ranks E (nodes_ r)) in P; [|exact G]. pose proof (g_order _ _ G x y Ex). lia.
    + apply (graph_ext E); [exact G|]. intros u v. unfold plus. split; [intros [H|(-> & ->)]; assumption|tauto].
  - destruct (add_edge_spec E (nodes_ r) x y S (g_adj _ _ G) Sp Vx Vy Nxy NE) as (so & si & Io & Ii & A1 & C1 & R1). rewrite Io. cbn [obind negb].
    rewrite update_valid by assumption. cbn [obind]. rewrite Ii. cbn [obind]. rewrite update_valid by (now apply small_upd || now apply valid_upd). cbn [obind].
    set (ns1 := upd (upd (nodes_ r) x (set_out so)) y (set_in si)) in *.
    destruct (Z.leb_spec (rank (nd (nodes_ r) x)) (rank (nd (nodes_ r) y))) as [L|L].
    + eexists _, true. split; [reflexivity|]. cbn [nodes_ free_nodes_ ptrmap_]. split; [split; [now apply core_ident|now split]|].
      assert (L' : rank (nd (nodes_ r) x) < rank (nd (nodes_ r) y)) by (pose proof (rank_inj E _ x y G Vx Vy); lia). split.
      * split; [discriminate|]. intros P. apply (path_ranks E (nodes_ r)) in P; [lia|exact G].
      * pose proof (map_length_eq core _ _ C1) as Len. split.
        -- now apply (small_map core (nodes_ r)).
        -- exact A1.
        -- rewrite (core_rank _ _ C1), Len. apply G.
        -- intros u v H. rewrite !(nd_map rank _ _ _ (core_rank _ _ C1)). destruct H as [H|(-> & ->)]; [now apply G|exact L'].
        -- intros i V. rewrite (nd_map visited _ _ _ (core_visited _ _ C1)). apply G. unfold valid in *. now rewrite Len in V.
    + destruct (against_cases E _ ns1 x y G Vx Vy NE L A1 C1 R1) as
        [(F & ns4 & ns5 & ns6 & FD & E4 & E5 & E6 & G6 & Id & P)|(F & B & ns3 & ns' & FD & BD & Ro & G' & Id & P)]; rewrite FD; cbn [obind negb].
      * rewrite E4. cbn [obind]. rewrite E5. cbn [obind]. rewrite E6. cbn [obind]. eexists _, false. split; [reflexivity|].
        split; [split; [exact Id|now split]|]. split; [tauto|exact G6].
      * rewrite BD. cbn [obind]. rewrite Ro. cbn [obind]. eexists _, true. split; [reflexivity|].
        split; [split; [exact Id|now split]|]. split; [split; [discriminate|contradiction]|exact G'].
Qed.
