(* ===== verification/GraphPaths.v ===== *)
(** [FindPath] and [IsReachable] of the lock-order graph ([synchronization/internal/graphcycles.cc]): the search
    ends, finds a path exactly when there is one, and reports a real one. *)
From Stdlib Require Import ZArith Lia List Bool Permutation Relations.
From S2P Require Import Prelude NodeSet GraphNode GraphCycles GraphSearch GraphInsert.
Import ListNotations.
#[local] Open Scope Z_scope.
#[local] Open Scope mach_scope.

(** The nodes of a path from [u] to [v], in order. *)
Inductive walk (E : Z -> Z -> Prop) (u : Z) : list Z -> Z -> Prop :=
| walk_here : walk E u [u] u
| walk_on q m v : walk E u q m -> E m v -> walk E u (q ++ [v]) v.

Lemma walk_path E u q v : walk E u q v -> path E u v.
Proof. induction 1 as [|q m v W IH H]; [apply rt_refl|]. apply rt_trans with m; [exact IH|now apply rt_step]. Qed.

Lemma walk_nonempty E u q v : walk E u q v -> q <> [].
Proof. destruct 1; [discriminate|]. now destruct q. Qed.

(** A path never meets a node twice, since ranks go up. *)
Lemma walk_ranks E ns u q v : (forall a b, E a b -> rank (nd ns a) < rank (nd ns b)) -> walk E u q v ->
  NoDup q /\ forall w, In w q -> rank (nd ns w) <= rank (nd ns v).
Proof.
  intros Up. induction 1 as [|q m v W (D & IH) H]; [split; [repeat constructor; tauto|intros w [<- |[]]; lia]|].
  specialize (Up m v H). split.
  - apply NoDup_app; [exact D|repeat constructor; tauto|]. intros w I [<- |[]]. specialize (IH _ I). lia.
  - intros w I. apply in_app_iff in I as [I|[<- |[]]]; [specialize (IH w I)|]; lia.
Qed.

Section Paths.
Context (E : Z -> Z -> Prop) (ns : list Node) (x y mx : Z).
Context (G : graph_ok E ns) (Rm : room ns) (Nn : Z.of_nat (length ns) <= max_insertions) (Vx : valid ns x).

(** The stack of the search: below the pending successors of each node of the tentative path (deepest first)
    lies the marker that ends it. *)
Definition child_of (p : list Z) (w : Z) : Prop :=
  match p with [] => w = x | n :: _ => E n w end.

Inductive frames : list Z -> list Z -> Prop :=
| fr_nil : frames [] []
| fr_mark n st p : child_of p n -> frames st p -> frames (-1 :: st) (n :: p)
| fr_child w st p : valid ns w -> child_of p w -> frames st p -> frames (w :: st) p.

Lemma frames_walk st p : frames st p -> match p with [] => True | n :: _ => walk E x (rev p) n end.
Proof.
  induction 1 as [|n st p C F IH|w st p V C F IH]; [exact I| |exact IH]. destruct p as [|m p]; cbn [child_of rev app] in *.
  - subst n. apply walk_here.
  - now apply walk_on with m.
Qed.

(** How many rounds a stack still takes. *)
Fixpoint cost (st : list Z) : nat :=
  match st with [] => 0 | w :: st => (if w <? 0 then 1 else 2) + cost st end.

Definition node_in (st : list Z) (w : Z) : Prop := 0 <= w /\ In w st.

(** What the set of nodes that were pushed holds. *)
Record seen_ok (seen : NodeSet) (st done : list Z) : Prop := {
  n_set : stands_for (Z.of_nat (length (elems seen))) seen (elems seen);
  n_valid : forall w, In w (elems seen) -> valid ns w;
  n_where : forall w, In w (elems seen) -> In w done \/ node_in st w
}.

Lemma seen_count seen st done : seen_ok seen st done -> (length (elems seen) <= length ns)%nat.
Proof. intros [S V _]. apply distinct_length; [|exact V]. apply elems_distinct, S. Qed.

Lemma seen_insert seen st done w : seen_ok seen st done -> valid ns w ->
  exists seen' b, insert seen w = Some (seen', b) /\
  (b = false /\ seen' = seen /\ In w (elems seen) \/
   b = true /\ seen_ok seen' (w :: st) done /\ Permutation (elems seen') (w :: elems seen)).
Proof.
  intros Sn V. pose proof (seen_count _ _ _ Sn) as L. destruct Sn as [St Vd Wh]. pose proof (valid_range ns w (g_small _ _ G) V) as Rw.
  pose proof (stands_small _ _ _ St ltac:(lia)) as Sm. destruct (In_dec Z.eq_dec w (elems seen)) as [I|I].
  - exists seen, false. split; [apply insert_member; [apply St|exact Rw|exact I]|]. auto.
  - destruct (op_refines _ _ _ (OpInsert w) St) as (s' & D & St'); [|exact Rw|].
    { assert (Ln : (length (w :: elems seen) <= length ns)%nat).
      { apply distinct_length; [constructor; [exact I|apply elems_distinct, St]|]. intros v [<- |Q]; auto. }
      cbn [length] in Ln. lia. }
    cbn [do_op spec_op] in D, St'. destruct (mem w (elems seen)) eqn:M; [elim I; now apply mem_in|]. cbn [fst snd] in *.
    exists s', true. split; [exact D|]. right. split; [reflexivity|]. pose proof (proj1 (proj2 St')) as P. split; [|exact P].
    pose proof (Permutation_length P) as Lp. cbn [length] in Lp. destruct St' as (Ok & _ & Oc & Sz). split.
    + split; [exact Ok|]. split; [reflexivity|]. rewrite Lp. split; [lia|]. destruct Sz; [left; lia|right; lia].
    + intros v Q. rewrite P in Q. destruct Q as [<- |Q]; auto.
    + intros v Q. rewrite P in Q. destruct Q as [<- |Q]; [right; split; [apply V|now left]|].
      destruct (Wh v Q) as [H|(H1 & H2)]; [now left|right; split; [exact H1|now right]].
Qed.

(** The loop over the successors [ws] of the node [n]. *)
Lemma push_unseen_spec n p done : forall ws seen st, (forall w, In w ws -> E n w) -> seen_ok seen st done -> frames st (n :: p) ->
  exists seen' st', push_unseen ws seen st = Some (seen', st') /\ seen_ok seen' st' done /\ frames st' (n :: p) /\
  (forall w, In w ws -> In w (elems seen')) /\ (forall w, In w (elems seen) -> In w (elems seen')) /\
  (forall w, node_in st w -> node_in st' w) /\
  (cost st' + 2 * (length ns - length (elems seen')) = cost st + 2 * (length ns - length (elems seen)))%nat.
Proof.
  induction ws as [|w ws IH]; intros seen st Ew Sn Fr; cbn [push_unseen].
  { exists seen, st. split; [reflexivity|]. split; [exact Sn|]. split; [exact Fr|]. split; [intros w []|]. auto. }
  assert (Ewn : E n w) by (apply Ew; now left). assert (Vw : valid ns w) by apply (a_vo _ _ _ (g_adj _ _ G) n w Ewn).
  destruct (seen_insert seen st done w Sn Vw) as (s1 & b & D & [(-> & -> & I)|(-> & Sn1 & P)]); rewrite D; cbn [obind].
  - destruct (IH seen st) as (s2 & st2 & Q & A1 & A2 & A3 & A4 & A5 & A6); [intros v I'; apply Ew; now right|exact Sn|exact Fr|].
    exists s2, st2. repeat (split; [assumption|]). split; [intros v [<- |I']; auto|]. auto.
  - destruct (IH s1 (w :: st)) as (s2 & st2 & Q & A1 & A2 & A3 & A4 & A5 & A6); [intros v I'; apply Ew; now right|exact Sn1|now apply fr_child|].
    exists s2, st2. repeat (split; [assumption|]).
    assert (Is1 : In w (elems s1)) by (rewrite P; now left).
    split; [intros v [<- |I']; auto|]. split; [intros v I'; apply A4; rewrite P; now right|].
    split; [intros v (H1 & H2); apply A5; split; [exact H1|now right]|]. rewrite A6. cbn [cost].
    rewrite (proj2 (Z.ltb_ge _ _)) by apply Vw. pose proof (seen_count _ _ _ Sn1) as Lc.
    pose proof (Permutation_length P) as Lp. cbn [length] in Lp. lia.
Qed.

(** The search. *)
Record search_ok (st : list Z) (seen : NodeSet) (p done out : list Z) : Prop := {
  f_frames : frames st p;
  f_seen : seen_ok seen st done;
  f_root : In x done \/ node_in st x;
  f_done : forall n, In n done -> n <> y /\ forall w, E n w -> In w (elems seen);
  f_room : mx <= Z.of_nat (length out);
  f_out : forall i, (i < length p)%nat -> Z.of_nat i < mx -> nth_error out i = Some (MakeId (nth i (rev p) 0) (version (nd ns (nth i (rev p) 0))))
}.

(** The result: none and [y] cannot be reached, or the length of a path whose start is in the array. *)
Definition found_path (res : Z * list Z) : Prop :=
  let '(len, out) := res in
  (len = 0 /\ ~ path E x y) \/
  exists q, walk E x q y /\ len = Z.of_nat (length q) /\
  forall i, (i < length q)%nat -> Z.of_nat i < mx -> nth_error out i = Some (MakeId (nth i q 0) (version (nd ns (nth i q 0)))).

Lemma search_end seen p done out : search_ok [] seen p done out -> ~ path E x y.
Proof.
  intros [_ [_ _ Wh] Rt Dn _ _] P. destruct Rt as [Rt|(_ & [])]. apply clos_rt_rtn1 in P.
  assert (Q : forall z, clos_refl_trans_n1 Z E x z -> In z done).
  { intros z. induction 1 as [|u v H _ IH]; [exact Rt|]. destruct (Dn u IH) as (_ & C). destruct (Wh v (C v H)) as [I|(_ & [])]. exact I. }
  destruct (Dn y (Q y P)) as (N & _). now apply N.
Qed.

(** A marker is popped. *)
Lemma search_leave st seen p done out : search_ok (-1 :: st) seen p done out ->
  exists n p', p = n :: p' /\ search_ok st seen p' done out.
Proof.
  intros [Fr [S V Wh] Rt Dn Rm' Ot]. inversion Fr as [|n st' p' C F Q1 Q2|w st' p' V' C F Q1 Q2]; subst; [|destruct V'; lia].
  exists n, p'. split; [reflexivity|].
  assert (Ni : forall w, node_in (-1 :: st) w -> node_in st w) by (intros w (H & [<- |I]); [lia|now split]).
  split; auto.
  - split; auto. intros w I. destruct (Wh w I); auto.
  - destruct Rt; auto.
  - intros i L M. specialize (Ot i). cbn [length rev] in Ot. rewrite app_nth1 in Ot by (rewrite length_rev; lia). apply Ot; [lia|exact M].
Qed.

(** A node is entered: its identifier goes to the array. *)
Lemma enter_out n p out : mx <= Z.of_nat (length out) ->
  (forall i, (i < length p)%nat -> Z.of_nat i < mx -> nth_error out i = Some (MakeId (nth i (rev p) 0) (version (nd ns (nth i (rev p) 0))))) ->
  exists out', (if Z.of_nat (length p) <? mx then write out (Z.of_nat (length p)) (MakeId n (version (nd ns n))) else Some out) = Some out' /\
  mx <= Z.of_nat (length out') /\
  forall i, (i < length (n :: p))%nat -> Z.of_nat i < mx ->
    nth_error out' i = Some (MakeId (nth i (rev (n :: p)) 0) (version (nd ns (nth i (rev (n :: p)) 0)))).
Proof.
  intros R Ot. cbn [rev length]. destruct (Z.ltb_spec (Z.of_nat (length p)) mx) as [L|L].
  - rewrite write_some by lia. eexists. split; [reflexivity|]. rewrite replace_nth_length. split; [exact R|]. rewrite Nat2Z.id.
    intros i Li Lm. rewrite nth_error_replace_nth. destruct (Nat.eqb_spec i (length p)) as [-> |N].
    + rewrite (proj2 (Nat.ltb_lt _ _)) by lia. cbn [andb]. now rewrite app_nth2, length_rev, Nat.sub_diag by (rewrite length_rev; lia).
    + cbn [andb]. rewrite app_nth1 by (rewrite length_rev; lia). apply Ot; [lia|exact Lm].
  - exists out. split; [reflexivity|]. split; [exact R|]. intros i Li Lm. rewrite app_nth1 by (rewrite length_rev; lia). apply Ot; [lia|exact Lm].
Qed.

(** The state in which the successors of the node are pushed. *)
Lemma search_enter n st seen p done out out' : 0 <= n -> n <> y -> search_ok (n :: st) seen p done out ->
  mx <= Z.of_nat (length out') ->
  (forall i, (i < length (n :: p))%nat -> Z.of_nat i < mx ->
    nth_error out' i = Some (MakeId (nth i (rev (n :: p)) 0) (version (nd ns (nth i (rev (n :: p)) 0))))) ->
  exists seen' st', push_unseen (outs ns n) seen (-1 :: st) = Some (seen', st') /\ search_ok st' seen' (n :: p) (n :: done) out' /\
  (cost st' + 2 * (length ns - length (elems seen')) = 1 + cost st + 2 * (length ns - length (elems seen)))%nat.
Proof.
  intros Nn0 Ny [Fr [S V Wh] Rt Dn _ _] R Ot.
  inversion Fr as [|m st' p' C F Q1 Q2|w st' p' Vn C F Q1 Q2]; subst; [lia|].
  assert (Ni : forall w, node_in (n :: st) w -> In w (n :: done) \/ node_in (-1 :: st) w).
  { intros w (H & [<- |I]); [left; now left|right; split; [exact H|now right]]. }
  destruct (push_unseen_spec n p (n :: done) (outs ns n) seen (-1 :: st)) as (seen' & st' & Pu & Sn' & Fr' & A1 & A2 & A3 & A4).
  - intros w I. now apply (a_out _ _ _ (g_adj _ _ G)) in I.
  - split; auto. intros w I. destruct (Wh w I) as [H|H]; [left; now right|auto].
  - now apply fr_mark.
  - exists seen', st'. split; [exact Pu|]. split; [|exact A4]. split; auto.
    + destruct Rt as [Rt|Rt]; [left; now right|]. destruct (Ni x Rt); auto.
    + intros m [<- |I].
      * split; [exact Ny|]. intros w H. apply A1. now apply (a_out _ _ _ (g_adj _ _ G)).
      * destruct (Dn m I) as (D1 & D2). auto.
Qed.

Lemma path_loop_spec : forall fuel st seen p done out, search_ok st seen p done out ->
  (cost st + 2 * (length ns - length (elems seen)) <= fuel)%nat ->
  exists res, path_loop fuel ns y mx st seen (Z.of_nat (length p)) out = Some res /\ found_path res.
Proof.
  induction fuel as [|fuel IH]; intros [|n st] seen p done out Ok F; cbn [path_loop].
  1,3: exists (0, out); split; [reflexivity|]; left; split; [reflexivity|exact (search_end _ _ _ _ Ok)].
  { cbn [cost] in F. destruct (n <? 0); lia. }
  cbn [cost] in F. destruct (Z.ltb_spec n 0) as [L|L].
  - assert (n = -1) by (pose proof (f_frames _ _ _ _ _ Ok) as Fr; inversion Fr as [| |? ? ? Vn]; [reflexivity|destruct Vn; lia]). subst n.
    destruct (search_leave _ _ _ _ _ Ok) as (m & p' & -> & Ok'). replace (Z.of_nat (length (m :: p')) - 1) with (Z.of_nat (length p')) by (cbn [length]; lia).
    apply (IH st seen p' done out Ok'). lia.
  - assert (Vn : valid ns n /\ child_of p n /\ frames st p).
    { pose proof (f_frames _ _ _ _ _ Ok) as Fr. inversion Fr; subst; [lia|auto]. }
    destruct Vn as (Vn & Cn & Fs). rewrite node_at_valid by (assumption || apply G). cbn [obind].
    destruct (enter_out n p out (f_room _ _ _ _ _ Ok) (f_out _ _ _ _ _ Ok)) as (out' & W & R & Ot). rewrite W. cbn [obind].
    replace (Z.of_nat (length p) + 1) with (Z.of_nat (length (n :: p))) by (cbn [length]; lia).
    destruct (Z.eqb_spec n y) as [Q|Ny].
    + subst n. eexists. split; [reflexivity|]. right. exists (rev (y :: p)). split; [|rewrite length_rev; auto].
      exact (frames_walk _ _ (fr_mark y st p Cn Fs)).
    + rewrite for_each_spec by now apply Rm. cbn [obind]. fold (outs ns n).
      destruct (search_enter n st seen p done out out' L Ny Ok R Ot) as (seen' & st' & Pu & Ok' & Co). rewrite Pu. cbn [obind].
      apply (IH st' seen' (n :: p) (n :: done) out' Ok'). lia.
Qed.

Lemma search_start out : mx <= Z.of_nat (length out) -> search_ok [x] Init [] [] out.
Proof.
  intros R. destruct Init_ok as (Ok & Em). split; cbn [length].
  - apply fr_child; [exact Vx|reflexivity|apply fr_nil].
  - split; rewrite ?Em; try (intros w []). split; [exact Ok|]. rewrite Em. split; [reflexivity|]. split; [cbn; lia|left; vm_compute; discriminate].
  - right. split; [apply Vx|now left].
  - intros n [].
  - exact R.
  - intros i L. lia.
Qed.
End Paths.
