(* ===== verification/GraphState.v ===== *)
(** The lock-order graph as a whole ([synchronization/internal/graphcycles.cc]): the nodes, the map from pointers
    to them and the list of free ones, the invariant that every operation keeps, and what the operations do to
    the graph that is represented. *)
From Stdlib Require Import ZArith Lia List Bool Permutation Relations.
From S2P Require Import Prelude NodeSet GraphNode GraphCycles GraphSearch GraphInsert GraphPaths.
Import ListNotations PointerMapFacts.
#[local] Open Scope Z_scope.
#[local] Open Scope mach_scope.

(** A node that has a pointer. *)
Definition live (ns : list Node) (i : Z) : Prop := valid ns i /\ masked_ptr (nd ns i) <> HidePtr 0.

Record rep_ok (E : Z -> Z -> Prop) (r : Rep) : Prop := {
  r_graph : graph_ok E (nodes_ r);
  r_map : map_ok (live (nodes_ r)) (ptrmap_ r) (nodes_ r);
  r_free : NoDup (free_nodes_ r) /\ forall i, In i (free_nodes_ r) -> valid (nodes_ r) i /\ ~ live (nodes_ r) i;
  r_dead : forall u v, E u v -> live (nodes_ r) u /\ live (nodes_ r) v;
  r_version : forall i, valid (nodes_ r) i -> 1 <= version (nd (nodes_ r) i) < 2 ^ 32
}.

(** The node that a pointer has. *)
Definition node_of (r : Rep) (p i : Z) : Prop := live (nodes_ r) i /\ masked_ptr (nd (nodes_ r) i) = HidePtr p.

Definition no_edge : Z -> Z -> Prop := fun _ _ => False.

Lemma New_ok : rep_ok no_edge New.
Proof.
  assert (NV : forall i, ~ valid [] i) by (intros i (A & B); cbn in B; lia). split; cbn [nodes_ ptrmap_ free_nodes_ New].
  - split; [unfold small; cbn; lia| |reflexivity|intros u v []|intros i V; elim (NV i V)].
    split; [intros i V|intros u v V|intros u v V|intros u v []|intros u v []]; elim (NV _ V).
  - split; [intros i (V & _); exact V| |intros i j (V & _); elim (NV i V)]. intros h. exists []. split; [reflexivity|]. split; [constructor|].
    intros i. split; [intros []|intros ((V & _) & _); elim (NV i V)].
  - split; [constructor|intros i []].
  - intros u v [].
  - intros i V. elim (NV i V).
Qed.

(** ** Identifiers *)
Lemma make_current r i : small (nodes_ r) -> valid (nodes_ r) i -> 1 <= version (nd (nodes_ r) i) < 2 ^ 32 ->
  let id := MakeId i (version (nd (nodes_ r) i)) in NodeIndex id = i /\ current r id = true.
Proof.
  intros S V H id. pose proof (valid_range _ _ S V) as Ri. assert (Ix : NodeIndex id = i) by (apply NodeIndex_MakeId; lia).
  split; [exact Ix|]. unfold current. rewrite Ix. apply Z.eqb_eq. symmetry. apply NodeVersion_MakeId; lia.
Qed.

Lemma Ptr_spec r id : small (nodes_ r) -> valid (nodes_ r) (NodeIndex id) ->
  Ptr r id = Some (if current r id then UnhidePtr (masked_ptr (nd (nodes_ r) (NodeIndex id))) else 0) /\
  HasNode r id = Some (current r id).
Proof.
  intros S V. unfold Ptr, HasNode. rewrite FindNode_spec by assumption. cbn [obind]. destruct (current r id); auto.
Qed.

(** ** A pointer gets a node *)

(** The identifier that [GetId] returns. *)
Definition got (r : Rep) (p id : Z) : Prop :=
  node_of r p (NodeIndex id) /\ current r id = true /\ Ptr r id = Some p /\
  id = MakeId (NodeIndex id) (version (nd (nodes_ r) (NodeIndex id))).

Lemma got_make r p i : small (nodes_ r) -> 1 <= version (nd (nodes_ r) i) < 2 ^ 32 -> node_of r p i ->
  got r p (MakeId i (version (nd (nodes_ r) i))).
Proof.
  intros S H N. destruct (make_current r i S (proj1 (proj1 N)) H) as (Ix & C). split; [now rewrite Ix|]. split; [exact C|]. split; [|now rewrite Ix].
  destruct (Ptr_spec r (MakeId i (version (nd (nodes_ r) i))) S) as (-> & _); [rewrite Ix; apply N|]. rewrite C, Ix, (proj2 N), UnhidePtr_HidePtr. reflexivity.
Qed.

(** Nodes that keep their identifiers and pointers. *)
Definition kept (r r' : Rep) (i : Z) : Prop :=
  valid (nodes_ r') i /\ version (nd (nodes_ r') i) = version (nd (nodes_ r) i) /\
  masked_ptr (nd (nodes_ r') i) = masked_ptr (nd (nodes_ r) i).

Lemma GetId_known E r p : rep_ok E r -> (exists i, node_of r p i) ->
  exists i, node_of r p i /\ GetId r p = Some (r, MakeId i (version (nd (nodes_ r) i))).
Proof.
  intros Ok (i & Li & Mi). pose proof (g_small _ _ (r_graph _ _ Ok)) as S. unfold GetId.
  destruct (Find_spec _ _ _ p S (r_map _ _ Ok)) as (k & Fd & [(-> & N)|(Lk & Mk)]); [now elim (N i Li)|].
  exists k. split; [split; assumption|]. rewrite Fd. cbn [obind]. rewrite (proj2 (Z.eqb_neq k (-1))) by (destruct Lk as ((? & _) & _); lia). cbn [negb].
  rewrite node_at_valid by (assumption || apply Lk). reflexivity.
Qed.

Lemma set_ptr_fields p n : rank (set_ptr p n) = rank n /\ visited (set_ptr p n) = visited n /\ version (set_ptr p n) = version n /\
  in_ (set_ptr p n) = in_ n /\ out (set_ptr p n) = out n.
Proof. now destruct n. Qed.

(** The graph does not see pointers and links. *)
Definition shape (n : Node) := (rank n, visited n, in_ n, out n).

Lemma shape_graph E ns ns' : graph_ok E ns -> map shape ns' = map shape ns -> graph_ok E ns'.
Proof.
  intros G M.
  assert (Mr : map rank ns' = map rank ns) by (apply (map_through shape (fun '(r, _, _, _) => r)); [reflexivity|exact M]).
  assert (Mv : map visited ns' = map visited ns) by (apply (map_through shape (fun '(_, v, _, _) => v)); [reflexivity|exact M]).
  assert (Mi : map in_ ns' = map in_ ns) by (apply (map_through shape (fun '(_, _, s, _) => s)); [reflexivity|exact M]).
  assert (Mo : map out ns' = map out ns) by (apply (map_through shape (fun '(_, _, _, s) => s)); [reflexivity|exact M]).
  destruct G as [A B C D F]. split.
  - now apply (small_map shape ns).
  - now apply (adj_frame _ _ ns).
  - rewrite Mr, (map_length_eq shape _ _ M). exact C.
  - intros u v H. rewrite !(nd_map rank _ _ _ Mr). auto.
  - intros i V. rewrite (nd_map visited _ _ _ Mv). apply F. now apply (valid_map shape ns ns').
Qed.

Lemma live_dec ns i : live ns i \/ ~ live ns i.
Proof.
  unfold live. destruct (valid_dec ns i); [|tauto]. destruct (Z.eq_dec (masked_ptr (nd ns i)) (HidePtr 0)); tauto.
Qed.

(** What is left after the pointer is added to the map. *)
Lemma add_live ns ns' i p : p <> 0 -> valid ns' i -> masked_ptr (nd ns' i) = HidePtr p ->
  (forall j, valid ns' j -> j <> i -> valid ns j /\ masked_ptr (nd ns' j) = masked_ptr (nd ns j)) ->
  (forall j, valid ns j -> valid ns' j) -> ~ live ns i -> forall j, live ns' j <-> live ns j \/ j = i.
Proof.
  intros P V M F F' D j. split.
  - intros (Vj & Mj). destruct (Z.eq_dec j i) as [-> |N]; [now right|left]. destruct (F j Vj N) as (Vj' & Q). rewrite Q in Mj. now split.
  - intros [(Vj & Mj)| ->].
    + assert (N : j <> i) by (intros ->; apply D; now split). destruct (F j (F' j Vj) N) as (_ & Q). split; [now apply F'|now rewrite Q].
    + split; [exact V|]. rewrite M. intros Q. apply P. now apply HidePtr_inj.
Qed.

Lemma last_free (l : list Z) i rest : rev l = i :: rest -> l = removelast l ++ [i] /\ In i l.
Proof.
  intros H. assert (L : l = rev rest ++ [i]) by (rewrite <- (rev_involutive l), H; reflexivity). subst l.
  rewrite removelast_last. split; [reflexivity|]. apply in_or_app. right. now left.
Qed.

(** A free node is given to the pointer. *)
Lemma GetId_reuse E r p i rest : rep_ok E r -> p <> 0 -> (forall i, ~ node_of r p i) -> rev (free_nodes_ r) = i :: rest ->
  exists r' id, GetId r p = Some (r', id) /\ rep_ok E r' /\ got r' p id /\ (forall j, live (nodes_ r) j -> kept r r' j) /\
  map shape (nodes_ r') = map shape (nodes_ r).
Proof.
  intros Ok P N Fr. pose proof (g_small _ _ (r_graph _ _ Ok)) as S. destruct (last_free _ _ _ Fr) as (Lf & If).
  destruct (r_free _ _ Ok) as (Df & Vf). destruct (Vf i If) as (Vi & Di). set (ns := nodes_ r) in *.
  unfold GetId. fold ns. destruct (Find_spec _ _ _ p S (r_map _ _ Ok)) as (k & Fd & [(-> & Un)|(Lk & Mk)]); [|elim (N k); now split].
  rewrite Fd. cbn [obind]. rewrite Z.eqb_refl. cbn [negb]. rewrite Fr, update_valid by assumption. cbn [obind]. fold ns. set (ns1 := upd ns i (set_ptr p)).
  assert (V1 : forall j, valid ns1 j <-> valid ns j) by (intros j; apply valid_upd).
  assert (Nl : forall j, live ns j -> j <> i) by congruence.
  destruct (Add_spec (live ns) (ptrmap_ r) ns ns1 p i) as (heads' & next & Ad & Mo).
  - now apply small_upd.
  - apply (r_map _ _ Ok).
  - unfold ns1. now rewrite upd_nodes_length.
  - now apply V1.
  - exact Di.
  - intros j Lj. unfold ns1. rewrite nd_upd_other; [auto|exact Vi|apply Lj|now apply Nl].
  - unfold ns1. now rewrite nd_upd_same.
  - exact Un.
  - rewrite Ad. cbn [obind]. set (ns2 := upd ns1 i (set_next next)) in *.
    assert (V2 : forall j, valid ns2 j <-> valid ns j) by (intros j; unfold ns2; rewrite valid_upd; apply V1).
    assert (S2 : small ns2) by now repeat apply small_upd.
    assert (Oth : forall j, valid ns j -> j <> i -> nd ns2 j = nd ns j).
    { intros j Vj Nj. unfold ns2, ns1. rewrite !nd_upd_other; auto; [apply Vj|now apply V1|apply Vj]. }
    assert (Self : nd ns2 i = set_next next (set_ptr p (nd ns i))) by (unfold ns2; rewrite nd_upd_same by (now apply V1); unfold ns1; now rewrite nd_upd_same).
    assert (Vs : forall j, valid ns j -> version (nd ns2 j) = version (nd ns j)).
    { intros j Vj. destruct (Z.eq_dec j i) as [-> |Nj]; [now rewrite Self|now rewrite Oth]. }
    rewrite node_at_valid by (assumption || now apply V2). cbn [obind].
    assert (Ms : map shape ns2 = map shape ns).
    { unfold ns2. rewrite (upd_map shape) by (now apply V1 || reflexivity). apply (upd_map shape); [exact Vi|reflexivity]. }
    assert (Lv : forall j, live ns2 j <-> live ns j \/ j = i).
    { apply (add_live ns ns2 i p); auto; [now apply V2|now rewrite Self| |now intros j; apply V2].
      intros j Vj Nj. rewrite Oth by (auto; now apply V2). split; [now apply V2|reflexivity]. }
    set (r' := mk_rep ns2 (removelast (free_nodes_ r)) heads').
    assert (Ok' : rep_ok E r').
    { rewrite Lf in Df, Vf. split; cbn [nodes_ ptrmap_ free_nodes_ r'].
      - apply (shape_graph E ns); [apply Ok|exact Ms].
      - apply (map_ok_frame (fun j => live ns j \/ j = i) _ _ ns2); auto.
      - split; [now apply NoDup_app_remove_r in Df|]. intros j Ij. destruct (Vf j (in_or_app _ _ _ (or_introl Ij))) as (Vj & Dj).
        split; [now apply V2|]. rewrite Lv. intros [H| ->]; [contradiction|]. apply NoDup_remove_2 in Df. apply Df. now rewrite app_nil_r.
      - intros u v H. rewrite !Lv. destruct (r_dead _ _ Ok u v H). auto.
      - intros j Vj. apply V2 in Vj. rewrite Vs by exact Vj. now apply Ok. }
    exists r', (MakeId i (version (nd ns2 i))). split; [reflexivity|]. split; [exact Ok'|].
    split; [apply (got_make r' p i); [exact S2|apply (r_version _ _ Ok'); now apply V2|split; [now apply Lv; right|change (masked_ptr (nd ns2 i) = HidePtr p); now rewrite Self]]|].
    split; [|exact Ms]. intros j Lj. cbn [nodes_ r']. split; [apply V2, Lj|]. fold ns. rewrite Oth; [auto|apply Lj|now apply Nl].
Qed.

(** A new node at the end of the vector. *)
Lemma nd_old ns n j : valid ns j -> nd (ns ++ [n]) j = nd ns j.
Proof. intros V. unfold nd, valid in *. apply app_nth1. lia. Qed.

Lemma nd_last ns n : nd (ns ++ [n]) (Z.of_nat (length ns)) = n.
Proof. unfold nd. rewrite Nat2Z.id, app_nth2, Nat.sub_diag by lia. reflexivity. Qed.

Lemma valid_snoc ns n j : valid (ns ++ [n]) j <-> valid ns j \/ j = Z.of_nat (length ns).
Proof. unfold valid. rewrite length_app. cbn [length]. lia. Qed.

Lemma indices_snoc n : indices (S n) = indices n ++ [Z.of_nat n].
Proof. unfold indices. now rewrite seq_S, map_app. Qed.

Lemma graph_snoc E ns n : graph_ok E ns -> Z.of_nat (length ns) + 1 < 2 ^ 31 ->
  rank n = Z.of_nat (length ns) -> visited n = false -> in_ n = Init -> out n = Init -> graph_ok E (ns ++ [n]).
Proof.
  intros G L Rk Vs In0 Out0. destruct Init_ok as (Oi & Ei). destruct (g_adj _ _ G) as [A B C D F].
  assert (NE : forall u v, E u v -> u <> Z.of_nat (length ns) /\ v <> Z.of_nat (length ns)) by (intros u v H; destruct (D u v H) as ((? & ?) & (? & ?)); lia).
  split.
  - unfold small. rewrite length_app. cbn [length]. lia.
  - split.
    + intros i V. apply valid_snoc in V as [V| ->]; [rewrite nd_old by exact V; now apply A|]. rewrite nd_last, In0, Out0. auto.
    + intros u v V. apply valid_snoc in V as [V| ->]; [rewrite nd_old by exact V; now apply B|]. rewrite nd_last, Out0, Ei.
      split; [intros []|]. intros H. destruct (NE _ _ H) as (Q & _). now elim Q.
    + intros u v V. apply valid_snoc in V as [V| ->]; [rewrite nd_old by exact V; now apply C|]. rewrite nd_last, In0, Ei.
      split; [intros []|]. intros H. destruct (NE _ _ H) as (_ & Q). now elim Q.
    + intros u v H. rewrite !valid_snoc. destruct (D u v H). auto.
    + intros u v H. rewrite !valid_snoc. destruct (F u v H). auto.
  - rewrite map_app, length_app, Nat.add_1_r, indices_snoc. cbn [map]. rewrite Rk. apply Permutation_app; [apply G|reflexivity].
  - intros u v H. destruct (D u v H) as (Vu & Vv). rewrite !nd_old by assumption. now apply G.
  - intros i V. apply valid_snoc in V as [V| ->]; [rewrite nd_old by exact V; now apply G|now rewrite nd_last].
Qed.

Lemma GetId_fresh E r p : rep_ok E r -> p <> 0 -> (forall i, ~ node_of r p i) -> free_nodes_ r = [] ->
  Z.of_nat (length (nodes_ r)) + 1 < 2 ^ 31 ->
  exists r' id, GetId r p = Some (r', id) /\ rep_ok E r' /\ got r' p id /\ (forall j, live (nodes_ r) j -> kept r r' j) /\
  (spare (nodes_ r) -> spare (nodes_ r')) /\ length (nodes_ r') = S (length (nodes_ r)).
Proof.
  intros Ok P N Fr Len. pose proof (r_graph _ _ Ok) as G. pose proof (g_small _ _ G) as S. set (ns := nodes_ r) in *.
  unfold GetId. fold ns. destruct (Find_spec _ _ _ p S (r_map _ _ Ok)) as (k & Fd & [(-> & Un)|(Lk & Mk)]); [|elim (N k); now split].
  rewrite Fd. cbn [obind]. rewrite Z.eqb_refl. cbn [negb]. rewrite Fr. cbn [rev].
  set (n := new_node r p). set (i := Z.of_nat (length ns)).
  assert (Rn : rank n = i) by (unfold n, new_node; cbn [rank]; fold ns i; apply wraps_small; [lia|unfold in_s; change (32 - 1) with 31; lia]).
  rewrite Rn. set (ns1 := ns ++ [n]).
  assert (V1 : forall j, valid ns1 j <-> valid ns j \/ j = i) by (intros j; apply valid_snoc).
  assert (S1 : small ns1) by (unfold small, ns1; rewrite length_app; cbn [length]; lia).
  assert (NVi : ~ valid ns i) by (unfold valid; lia).
  destruct (Add_spec (live ns) (ptrmap_ r) ns ns1 p i) as (heads' & next & Ad & Mo).
  - exact S1.
  - apply (r_map _ _ Ok).
  - unfold ns1. rewrite length_app. lia.
  - apply V1. now right.
  - intros (V & _). contradiction.
  - intros j Lj. unfold ns1. rewrite nd_old by apply Lj. auto.
  - unfold ns1, i. now rewrite nd_last.
  - exact Un.
  - rewrite Ad. cbn [obind]. set (ns2 := upd ns1 i (set_next next)) in *.
    assert (V2 : forall j, valid ns2 j <-> valid ns j \/ j = i) by (intros j; unfold ns2; rewrite valid_upd; apply V1).
    assert (Vi : valid ns1 i) by (apply V1; now right).
    assert (Oth : forall j, valid ns j -> nd ns2 j = nd ns j).
    { intros j Vj. unfold ns2. rewrite nd_upd_other; [apply nd_old, Vj|exact Vi|apply Vj|congruence]. }
    assert (Self : nd ns2 i = set_next next n) by (unfold ns2; rewrite nd_upd_same by exact Vi; unfold ns1, i; now rewrite nd_last).
    assert (Lv : forall j, live ns2 j <-> live ns j \/ j = i).
    { apply (add_live ns ns2 i p); auto; [apply V2; now right|now rewrite Self| |intros j Vj; apply V2; now left|intros (V & _); contradiction].
      intros j Vj Nj. apply V2 in Vj as [Vj|Vj]; [|contradiction]. now rewrite Oth. }
    set (r' := mk_rep ns2 [] heads').
    assert (Ok' : rep_ok E r').
    { split; cbn [nodes_ ptrmap_ free_nodes_ r'].
      - apply (shape_graph E ns1); [now apply graph_snoc|]. apply (upd_map shape); [exact Vi|reflexivity].
      - apply (map_ok_frame (fun j => live ns j \/ j = i) _ _ ns2); auto.
      - split; [constructor|intros j []].
      - intros u v H. rewrite !Lv. destruct (r_dead _ _ Ok u v H). auto.
      - intros j Vj. apply V2 in Vj as [Vj| ->]; [rewrite Oth by exact Vj; now apply Ok|]. rewrite Self. cbn. lia. }
    exists r', (MakeId i 1). split; [reflexivity|]. split; [exact Ok'|].
    split; [|split; [|split]].
    + replace 1 with (version (nd (nodes_ r') i)) by (cbn [nodes_ r']; now rewrite Self).
      apply (got_make r' p i); [now apply small_upd|apply (r_version _ _ Ok'); apply V2; now right|].
      split; [apply Lv; now right|]. change (masked_ptr (nd ns2 i) = HidePtr p). now rewrite Self.
    + intros j Lj. cbn [nodes_ r']. split; [apply V2; left; apply Lj|]. fold ns. rewrite Oth by apply Lj. auto.
    + intros Sp j Vj. cbn [nodes_ r'] in *. apply V2 in Vj as [Vj| ->]; [rewrite Oth by exact Vj; now apply Sp|]. rewrite Self. split; vm_compute; reflexivity.
    + cbn [nodes_ r']. unfold ns2, ns1. rewrite upd_nodes_length, length_app. cbn [length]. lia.
Qed.

(** ** A pointer loses its node *)

(** The loops that take a node out of the sets of its neighbours. *)
Lemma erase_in_all i : forall ys Eo Ei ns, small ns -> adj Eo Ei ns -> valid ns i -> (forall y, In y ys -> valid ns y) ->
  exists ns', fold_left (erase_in i) ys (Some ns) = Some ns' /\ adj Eo (fun u v => Ei u v /\ ~ (u = i /\ In v ys)) ns' /\
  map core ns' = map core ns /\ (room ns -> room ns').
Proof.
  induction ys as [|y ys IH]; intros Eo Ei ns S A Vi V.
  { exists ns. split; [reflexivity|]. split; [|auto]. apply (adj_ext _ _ _ _ _ A); intros u v; cbn; tauto. }
  destruct (erase_in_spec Eo Ei ns i y S A Vi (V y (or_introl eq_refl))) as (ns1 & E1 & A1 & C1 & R1). cbn [fold_left].
  rewrite E1. destruct (IH Eo _ ns1 (small_map core _ _ C1 S) A1) as (ns2 & E2 & A2 & C2 & R2).
  - now apply (valid_map core _ _ _ C1).
  - intros z I. apply (valid_map core _ _ _ C1). apply V. now right.
  - exists ns2. split; [exact E2|]. split; [|split; [congruence|auto]]. apply (adj_ext _ _ _ _ _ A2); intros u v; [tauto|].
    unfold minus. cbn [In]. assert (y = v <-> v = y) by (split; congruence). tauto.
Qed.

Lemma erase_out_all i : forall ys Eo Ei ns, small ns -> adj Eo Ei ns -> valid ns i -> (forall y, In y ys -> valid ns y) ->
  exists ns', fold_left (erase_out i) ys (Some ns) = Some ns' /\ adj (fun u v => Eo u v /\ ~ (In u ys /\ v = i)) Ei ns' /\
  map core ns' = map core ns /\ (room ns -> room ns').
Proof.
  induction ys as [|y ys IH]; intros Eo Ei ns S A Vi V.
  { exists ns. split; [reflexivity|]. split; [|auto]. apply (adj_ext _ _ _ _ _ A); intros u v; cbn; tauto. }
  destruct (erase_out_spec Eo Ei ns y i S A (V y (or_introl eq_refl)) Vi) as (ns1 & E1 & A1 & C1 & R1). cbn [fold_left].
  rewrite E1. destruct (IH _ Ei ns1 (small_map core _ _ C1 S) A1) as (ns2 & E2 & A2 & C2 & R2).
  - now apply (valid_map core _ _ _ C1).
  - intros z I. apply (valid_map core _ _ _ C1). apply V. now right.
  - exists ns2. split; [exact E2|]. split; [|split; [congruence|auto]]. apply (adj_ext _ _ _ _ _ A2); intros u v; [|tauto].
    unfold minus. cbn [In]. assert (y = u <-> u = y) by (split; congruence). tauto.
Qed.

(** The graph without a node. *)
Definition without (E : Z -> Z -> Prop) (i u v : Z) : Prop := E u v /\ u <> i /\ v <> i.

Lemma clear_adj Eo Ei ns i : adj Eo Ei ns -> valid ns i ->
  adj (fun u v => Eo u v /\ u <> i) (fun u v => Ei u v /\ v <> i) (upd ns i clear_node).
Proof.
  intros A V. destruct Init_ok as (Oi & Em). apply (adj_frame _ _ (upd (upd ns i (set_out Init)) i (set_in Init))).
  - apply (adj_set_in _ Ei); [|now apply valid_upd|exact Oi| |tauto|intros u (_ & N); congruence].
    + apply (adj_set_out Eo Ei); [exact A|exact V|exact Oi| |tauto|intros v (_ & N); congruence].
      intros v. rewrite Em. split; [intros []|intros (_ & N); congruence].
    + intros u. rewrite Em. split; [intros []|intros (_ & N); congruence].
  - apply nodes_ext; [now rewrite !upd_nodes_length|]. intros j Vj. rewrite !valid_upd in Vj.
    rewrite (nd_upd (upd ns i (set_out Init)) i), !(nd_upd ns i) by (apply Vj || exact V || apply V || now apply valid_upd). destruct (Z.eqb_spec j i); reflexivity.
  - apply nodes_ext; [now rewrite !upd_nodes_length|]. intros j Vj. rewrite !valid_upd in Vj.
    rewrite (nd_upd (upd ns i (set_out Init)) i), !(nd_upd ns i) by (apply Vj || exact V || apply V || now apply valid_upd). destruct (Z.eqb_spec j i) as [-> |]; [|reflexivity]. rewrite ?Z.eqb_refl. reflexivity.
Qed.

(** The edges of node [i] go, in three steps. *)
Lemma detach E ns i : graph_ok E ns -> room ns -> valid ns i ->
  exists ns1 ns2, fold_left (erase_in i) (elems (out (nd ns i))) (Some ns) = Some ns1 /\
  fold_left (erase_out i) (elems (in_ (nd ns1 i))) (Some ns1) = Some ns2 /\ room ns1 /\ room ns2 /\ map core ns1 = map core ns /\
  map core ns2 = map core ns /\ graph_ok (without E i) (upd ns2 i clear_node).
Proof.
  intros G R V. pose proof (g_small _ _ G) as S. pose proof (g_adj _ _ G) as A.
  assert (Ir : forall u, E u u -> False) by (intros u H; pose proof (g_order _ _ G u u H); lia).
  destruct (erase_in_all i (elems (out (nd ns i))) E E ns S A V) as (ns1 & E1 & A1 & C1 & R1).
  { intros y I. apply (a_out _ _ _ A) in I; [|exact V]. now apply (a_vo _ _ _ A i). }
  assert (V1 : forall j, valid ns1 j <-> valid ns j) by (intros j; apply (valid_map core _ _ _ C1)).
  assert (S1 : small ns1) by now apply (small_map core ns).
  destruct (erase_out_all i (elems (in_ (nd ns1 i))) _ _ ns1 S1 A1) as (ns2 & E2 & A2 & C2 & R2); [now apply V1| |].
  { intros y I. apply (a_in _ _ _ A1) in I as (I & _); [|now apply V1]. apply V1. now apply (a_vo _ _ _ A y i). }
  assert (C20 : map core ns2 = map core ns) by congruence. exists ns1, ns2. repeat (split; [solve [auto]|]).
  assert (V2 : forall j, valid ns2 j <-> valid ns j) by (intros j; apply (valid_map core _ _ _ C20)).
  assert (Vi2 : valid ns2 i) by now apply V2.
  assert (M : map rank (upd ns2 i clear_node) = map rank ns) by (rewrite (upd_map rank) by (exact Vi2 || reflexivity); now apply core_rank).
  assert (Mv : map visited (upd ns2 i clear_node) = map visited ns) by (rewrite (upd_map visited) by (exact Vi2 || reflexivity); now apply core_visited).
  split.
  - now apply (small_map rank ns).
  - apply (adj_ext _ _ _ _ _ (clear_adj _ _ ns2 i A2 Vi2)); intros u v; unfold without; split.
    + intros (H & Nu & Nv). split; [split; [exact H|tauto]|exact Nu].
    + intros ((H & Q) & Nu). split; [exact H|]. split; [exact Nu|]. intros ->. apply Q. split; [|reflexivity].
      apply (a_in _ _ _ A1); [now apply V1|]. split; [exact H|]. intros (-> & _). now apply (Ir i).
    + intros (H & Nu & Nv). split; [split; [exact H|tauto]|exact Nv].
    + intros ((H & Q) & Nv). split; [exact H|]. split; [|exact Nv]. intros ->. apply Q. split; [reflexivity|]. now apply (a_out _ _ _ A).
  - rewrite M, (map_length_eq rank _ _ M). apply G.
  - intros u v (H & _). rewrite !(nd_map rank _ _ _ M). now apply G.
  - intros j Vj. rewrite (nd_map visited _ _ _ Mv). apply G. now apply (valid_map rank _ _ _ M).
Qed.

Lemma same_but_next_map {B} (p : Node -> B) ns ns' : same_but_next ns ns' -> (forall h n, p (set_next h n) = p n) -> map p ns' = map p ns.
Proof. intros (L & F) H. apply nodes_ext; [exact L|]. intros j V. rewrite (F j (proj1 V)). apply H. Qed.

Lemma room_map ns ns' : room ns -> map in_ ns' = map in_ ns -> map out ns' = map out ns -> room ns'.
Proof.
  intros R I O i V. rewrite (nd_map in_ _ _ _ I), (nd_map out _ _ _ O). apply R. now apply (valid_map in_ _ _ _ I).
Qed.

(** The nodes after a removal, before the version of the node is changed. *)
Record cleared (E : Z -> Z -> Prop) (ns : list Node) (i : Z) (heads' : PointerMap.Heads) (ns3 : list Node) : Prop := {
  c_graph : graph_ok (without E i) ns3;
  c_map : map_ok (live ns3) heads' ns3;
  c_live : forall j, live ns3 j <-> live ns j /\ j <> i;
  c_length : length ns3 = length ns;
  c_version : forall j, valid ns j -> version (nd ns3 j) = version (nd ns j);
  c_ptr : forall j, valid ns j -> j <> i -> masked_ptr (nd ns3 j) = masked_ptr (nd ns j)
}.

Lemma RemoveNode_cleared E r p i : rep_ok E r -> room (nodes_ r) -> node_of r p i ->
  exists heads' ns3, cleared E (nodes_ r) i heads' ns3 /\
  RemoveNode r p =
    if version (nd ns3 i) =? 2 ^ 32 - 1 then Some (mk_rep ns3 (free_nodes_ r) heads')
    else do nodes <- update ns3 i expire; Some (mk_rep nodes (free_nodes_ r ++ [i]) heads').
Proof.
  intros Ok Rm (Li & Mi). pose proof (r_graph _ _ Ok) as G. pose proof (g_small _ _ G) as S. set (ns := nodes_ r) in *.
  unfold RemoveNode. fold ns.
  destruct (Remove_spec _ _ _ p S (r_map _ _ Ok)) as [(_ & N)|(heads' & ns0 & k & Re & Lk & Mk & Sb & Mo)]; [now elim (N i Li)|].
  assert (k = i) by (apply (m_ptrs _ _ _ (r_map _ _ Ok)); auto; etransitivity; [exact Mk|symmetry; exact Mi]). subst k. rewrite Re. cbn [obind].
  assert (Vi : valid ns i) by apply Li. rewrite (proj2 (Z.eqb_neq i (-1))) by (destruct Vi; lia).
  assert (Sh0 : map shape ns0 = map shape ns) by now apply same_but_next_map.
  assert (V0 : forall j, valid ns0 j <-> valid ns j) by (intros j; apply (valid_map shape _ _ _ Sh0)).
  assert (G0 : graph_ok E ns0) by now apply (shape_graph E ns).
  assert (R0 : room ns0) by (apply (room_map ns); [exact Rm|now apply same_but_next_map..]).
  destruct (detach E ns0 i G0 R0) as (ns1 & ns2 & E1 & E2 & R1 & R2 & C1 & C2 & G2); [now apply V0|].
  assert (V1 : forall j, valid ns1 j <-> valid ns j) by (intros j; rewrite (valid_map core _ _ j C1); apply V0).
  assert (V2 : forall j, valid ns2 j <-> valid ns j) by (intros j; rewrite (valid_map core _ _ j C2); apply V0).
  rewrite node_at_valid by (apply (g_small _ _ G0) || now apply V0). cbn [obind]. rewrite for_each_spec by (apply R0; now apply V0). cbn [obind].
  rewrite E1. cbn [obind]. rewrite node_at_valid by (now apply (small_map core ns0), G0 || now apply V1). cbn [obind].
  rewrite for_each_spec by (apply R1; now apply V1). cbn [obind]. rewrite E2. cbn [obind].
  rewrite update_valid by (now apply (small_map core ns0), G0 || now apply V2). cbn [obind]. set (ns3 := upd ns2 i clear_node) in *.
  assert (Vi2 : valid ns2 i) by now apply V2. assert (V3 : forall j, valid ns3 j <-> valid ns j) by (intros j; unfold ns3; rewrite valid_upd; apply V2).
  assert (Self : nd ns3 i = clear_node (nd ns2 i)) by now apply nd_upd_same.
  rewrite node_at_valid by (apply G2 || now apply V3). cbn [obind]. rewrite Self. cbn [version clear_node].
  assert (Vr : forall j, version (nd ns2 j) = version (nd ns j)).
  { intros j. assert (Q : map version ns2 = map version ns).
    { transitivity (map version ns0); [apply (map_through core (fun '(_, v, _, _, _, _, _, _) => v)); [reflexivity|exact C2]|now apply same_but_next_map]. }
    now apply (nd_map version). }
  assert (Mp : forall j, valid ns j -> j <> i -> masked_ptr (nd ns3 j) = masked_ptr (nd ns0 j)).
  { intros j Vj Nj. unfold ns3. rewrite nd_upd_other by (auto; apply Vj). apply (nd_map masked_ptr).
    apply (map_through core (fun '(_, _, _, _, m, _, _, _) => m)); [reflexivity|exact C2]. }
  assert (Nx : forall j, 0 <= j -> next_hash (nd ns3 j) = next_hash (nd ns0 j)).
  { intros j J. unfold ns3. rewrite (upd_field next_hash) by (auto; reflexivity). apply (nd_map next_hash).
    apply (map_through core (fun '(_, _, h, _, _, _, _, _) => h)); [reflexivity|exact C2]. }
  assert (M0 : forall j, 0 <= j -> masked_ptr (nd ns0 j) = masked_ptr (nd ns j)) by (intros j J; now apply same_masked).
  assert (Lv : forall j, live ns3 j <-> live ns j /\ j <> i).
  { intros j. unfold live. rewrite V3. destruct (Z.eq_dec j i) as [-> |Nj]; [rewrite Self; cbn [masked_ptr clear_node]; tauto|]. split.
    - intros (Vj & H). rewrite Mp, M0 in H by (auto; apply Vj). auto.
    - intros ((Vj & H) & _). rewrite Mp, M0 by (auto; apply Vj). auto. }
  exists heads', ns3. rewrite Self. split; [|reflexivity]. split; auto.
  - apply (map_ok_frame (fun j => live ns j /\ j <> i) _ _ ns0); [exact Mo|exact Lv| | |].
    + unfold ns3. rewrite upd_nodes_length. apply (map_length_eq core _ _ C2).
    + intros j Vj. destruct (Z.eq_dec j i) as [-> |Nj]; [right; tauto|left; apply Mp; [now apply V0|exact Nj]].
    + intros j Vj. apply Nx, Vj.
  - unfold ns3. rewrite upd_nodes_length, (map_length_eq core _ _ C2). apply (map_length_eq shape _ _ Sh0).
  - intros j Vj. unfold ns3. rewrite (upd_field version); [apply Vr|exact Vi2|apply Vj|reflexivity].
  - intros j Vj Nj. rewrite Mp by assumption. apply M0, Vj.
Qed.

(** The version of the node goes up, unless it is the last one. *)
Definition next_version (v : Z) : Z := if v =? 2 ^ 32 - 1 then v else v + 1.

Lemma RemoveNode_known E r p i : rep_ok E r -> room (nodes_ r) -> node_of r p i ->
  exists r', RemoveNode r p = Some r' /\ rep_ok (without E i) r' /\ ~ live (nodes_ r') i /\
  version (nd (nodes_ r') i) = next_version (version (nd (nodes_ r) i)) /\
  (forall j, valid (nodes_ r) j -> j <> i -> kept r r' j) /\ length (nodes_ r') = length (nodes_ r).
Proof.
  intros Ok Rm (Li & Mi). destruct (RemoveNode_cleared E r p i Ok Rm (conj Li Mi)) as (heads' & ns3 & [G M Lv Len Ve Pt] & ->).
  assert (Vi : valid (nodes_ r) i) by apply Li. assert (V3 : forall j, valid ns3 j <-> valid (nodes_ r) j) by (intros j; unfold valid; now rewrite Len).
  pose proof (r_version _ _ Ok) as Rv. rewrite Ve by exact Vi. unfold next_version.
  assert (Fr : forall j, In j (free_nodes_ r) -> valid ns3 j /\ ~ live ns3 j).
  { intros j I. destruct (proj2 (r_free _ _ Ok) j I) as (Vj & Dj). rewrite V3, Lv. tauto. }
  assert (Dd : forall u v, without E i u v -> live ns3 u /\ live ns3 v).
  { intros u v (H & Nu & Nv). rewrite !Lv. destruct (r_dead _ _ Ok u v H). auto. }
  destruct (Z.eqb_spec (version (nd (nodes_ r) i)) (2 ^ 32 - 1)) as [Q|Q].
  - eexists. split; [reflexivity|]. cbn [nodes_]. split; [|split; [rewrite Lv; tauto|split; [now apply Ve|split; [|exact Len]]]].
    + split; cbn [nodes_ free_nodes_ ptrmap_]; auto; [split; [apply Ok|exact Fr]|]. intros j Vj. apply V3 in Vj. rewrite Ve by exact Vj. auto.
    + intros j Vj Nj. split; [now apply V3|]. split; [now apply Ve|now apply Pt].
  - rewrite update_valid by (apply G || now apply V3). cbn [obind]. eexists. split; [reflexivity|]. cbn [nodes_]. set (ns4 := upd ns3 i expire).
    assert (Vi3 : valid ns3 i) by now apply V3. assert (V4 : forall j, valid ns4 j <-> valid (nodes_ r) j) by (intros j; unfold ns4; now rewrite valid_upd).
    assert (Mk : forall j, 0 <= j -> masked_ptr (nd ns4 j) = masked_ptr (nd ns3 j)) by (intros j J; now apply (upd_field masked_ptr)).
    assert (Lv4 : forall j, live ns4 j <-> live ns3 j).
    { intros j. unfold live. rewrite V4, V3. split; intros (Vj & H); (split; [exact Vj|]); [rewrite Mk in H|rewrite Mk]; auto; apply Vj. }
    assert (Ot : forall j, valid (nodes_ r) j -> j <> i -> nd ns4 j = nd ns3 j) by (intros j Vj Nj; apply nd_upd_other; [exact Vi3|apply Vj|exact Nj]).
    assert (Vn : version (nd ns4 i) = version (nd (nodes_ r) i) + 1).
    { unfold ns4. rewrite nd_upd_same by exact Vi3. cbn [version expire]. rewrite Ve by exact Vi. apply wrapu_small. specialize (Rv i Vi). lia. }
    split; [|split; [rewrite Lv4, Lv; tauto|split; [exact Vn|split]]].
    + split; cbn [nodes_ free_nodes_ ptrmap_].
      * apply (shape_graph _ ns3); [exact G|]. apply (upd_map shape); [exact Vi3|reflexivity].
      * apply (map_ok_frame (live ns3) _ _ ns3); auto; [apply upd_nodes_length|intros j Vj; left; apply Mk, Vj|].
        intros j Vj. apply (upd_field next_hash); [exact Vi3|apply Vj|reflexivity].
      * split; [apply NoDup_app; [apply Ok|repeat constructor; tauto|]|].
        -- intros j I [<- |[]]. now apply (proj2 (r_free _ _ Ok) i I).
        -- intros j I. rewrite V4, Lv4. apply in_app_iff in I as [I|[<- |[]]]; [destruct (Fr j I); rewrite V3 in *; auto|]. rewrite Lv. tauto.
      * intros u v H. rewrite !Lv4. auto.
      * intros j Vj. apply V4 in Vj. destruct (Z.eq_dec j i) as [-> |Nj]; [rewrite Vn; specialize (Rv i Vi); lia|]. rewrite Ot, Ve by assumption. auto.
    + intros j Vj Nj. cbn [nodes_]. split; [now apply V4|]. cbn [nodes_]. rewrite Ot by assumption. split; [now apply Ve|now apply Pt].
    + unfold ns4. now rewrite upd_nodes_length.
Qed.

Lemma RemoveNode_unknown E r p : rep_ok E r -> (forall i, ~ node_of r p i) -> RemoveNode r p = Some r.
Proof.
  intros Ok N. unfold RemoveNode. pose proof (g_small _ _ (r_graph _ _ Ok)) as S.
  destruct (Remove_spec _ _ _ p S (r_map _ _ Ok)) as [(-> & _)|(heads' & ns0 & k & _ & Lk & Mk & _)]; [|elim (N k); now split].
  cbn [obind]. rewrite Z.eqb_refl. now destruct r.
Qed.

(** ** Operations that leave the pointers alone *)
Definition link (n : Node) := (version n, next_hash n, masked_ptr n).

Lemma ident_link ns ns' : map ident ns' = map ident ns -> map link ns' = map link ns.
Proof. apply (map_through ident (fun '(v, h, m, _, _, _) => (v, h, m))). reflexivity. Qed.

Lemma rep_frame E E' r ns' : rep_ok E r -> graph_ok E' ns' -> map link ns' = map link (nodes_ r) ->
  (forall u v, E' u v -> live (nodes_ r) u /\ live (nodes_ r) v) -> rep_ok E' (mk_rep ns' (free_nodes_ r) (ptrmap_ r)).
Proof.
  intros Ok G M D. assert (Q : forall i, link (nd ns' i) = link (nd (nodes_ r) i)) by (intros i; now apply (nd_map link)).
  assert (V : forall i, valid ns' i <-> valid (nodes_ r) i) by (intros i; apply (valid_map link _ _ _ M)).
  assert (L : forall i, live ns' i <-> live (nodes_ r) i) by (intros i; unfold live; rewrite V; specialize (Q i); unfold link in Q; injection Q as _ _ ->; tauto).
  split; cbn [nodes_ free_nodes_ ptrmap_]; [exact G| | | |].
  - apply (map_ok_frame (live (nodes_ r)) _ _ (nodes_ r)); [apply Ok|exact L|apply (map_length_eq link _ _ M)| |];
      intros i _; specialize (Q i); unfold link in Q; injection Q; auto.
  - split; [apply Ok|]. intros i I. rewrite V, L. now apply Ok.
  - intros u v H. rewrite !L. auto.
  - intros i Vi. specialize (Q i). unfold link in Q. injection Q as -> _ _. apply Ok. now apply V.
Qed.

(** An identifier that can be used: one that is current belongs to a node that has a pointer. *)
Definition id_ok (r : Rep) (id : Z) : Prop :=
  valid (nodes_ r) (NodeIndex id) /\ (current r id = true -> live (nodes_ r) (NodeIndex id)).

Definition both_current (r : Rep) (x y : Z) : bool := current r x && current r y.

Lemma InsertEdge_rep E r idx idy : rep_ok E r -> spare (nodes_ r) -> id_ok r idx -> id_ok r idy ->
  let x := NodeIndex idx in let y := NodeIndex idy in
  exists r' b, InsertEdge r idx idy = Some (r', b) /\ map ident (nodes_ r') = map ident (nodes_ r) /\
  (both_current r idx idy = false -> r' = r /\ b = true) /\
  (both_current r idx idy = true -> (b = false <-> path E y x)) /\
  rep_ok (if both_current r idx idy && b then plus E x y else E) r'.
Proof.
  intros Ok Sp (Vx & Lx) (Vy & Ly) x y. pose proof (r_graph _ _ Ok) as G. pose proof (g_small _ _ G) as S. unfold both_current.
  destruct (current r idx) eqn:Cx; [destruct (current r idy) eqn:Cy|]; cbn [andb].
  2,3: exists r, true; split; [unfold InsertEdge; rewrite !FindNode_spec by assumption; rewrite Cx, ?Cy; cbn [obind]; reflexivity || (destruct (current r idy); reflexivity)|];
    (split; [reflexivity|]); (split; [auto|]); (split; [discriminate|exact Ok]).
  destruct (InsertEdge_current E r idx idy G Sp Vx Vy Cx Cy) as (r' & b & I & (Id & Fr & Pm) & P & G'). fold x y in P, G'.
  exists r', b. split; [exact I|]. split; [exact Id|]. split; [discriminate|]. split; [auto|].
  destruct r' as [ns' fr' pm']. cbn [nodes_ free_nodes_ ptrmap_] in *. subst fr' pm'. apply (rep_frame E); [exact Ok|exact G'|now apply ident_link|].
  intros u v H. destruct b; [|now apply (r_dead _ _ Ok)]. destruct H as [H|(-> & ->)]; [now apply (r_dead _ _ Ok)|auto].
Qed.

Lemma RemoveEdge_rep E r idx idy : rep_ok E r -> id_ok r idx -> id_ok r idy ->
  exists r', RemoveEdge r idx idy = Some r' /\ map link (nodes_ r') = map link (nodes_ r) /\
  rep_ok (if both_current r idx idy then minus E (NodeIndex idx) (NodeIndex idy) else E) r'.
Proof.
  intros Ok (Vx & _) (Vy & _). pose proof (r_graph _ _ Ok) as G. pose proof (g_small _ _ G) as S. unfold RemoveEdge, both_current.
  rewrite !FindNode_spec by assumption. cbn [obind].
  destruct (current r idx); [destruct (current r idy)|]; cbn [andb]; [|exists r; auto|exists r; auto].
  set (x := NodeIndex idx) in *. set (y := NodeIndex idy) in *.
  destruct (erase_out_spec E E (nodes_ r) x y S (g_adj _ _ G) Vx Vy) as (ns1 & E1 & A1 & C1 & _). rewrite E1. cbn [obind].
  assert (V1 : forall i, valid ns1 i <-> valid (nodes_ r) i) by (intros i; apply (valid_map core _ _ _ C1)).
  destruct (erase_in_spec _ E ns1 x y (small_map core _ _ C1 S) A1) as (ns2 & E2 & A2 & C2 & _); [now apply V1..|]. rewrite E2. cbn [obind].
  assert (C : map core ns2 = map core (nodes_ r)) by congruence.
  eexists. split; [reflexivity|]. cbn [nodes_]. split; [now apply ident_link, core_ident|].
  apply (rep_frame E); [exact Ok| |now apply ident_link, core_ident|intros u v (H & _); now apply (r_dead _ _ Ok)]. split.
  - now apply (small_map core (nodes_ r)).
  - exact A2.
  - rewrite (core_rank _ _ C), (map_length_eq core _ _ C). apply G.
  - intros u v (H & _). rewrite !(nd_map rank _ _ _ (core_rank _ _ C)). now apply G.
  - intros i V. rewrite (nd_map visited _ _ _ (core_visited _ _ C)). apply G. now apply (valid_map core _ _ _ C).
Qed.

Lemma UpdateStackTrace_rep E r id prio trace : rep_ok E r -> id_ok r id ->
  exists r', UpdateStackTrace r id prio trace = Some r' /\ rep_ok E r' /\
  GetStackTrace r' id = Some (if current r id then
    if priority (nd (nodes_ r) (NodeIndex id)) <? prio
    then (Some (fst (trace (stack (nd (nodes_ r) (NodeIndex id))) 40)), snd (trace (stack (nd (nodes_ r) (NodeIndex id))) 40))
    else (Some (stack (nd (nodes_ r) (NodeIndex id))), nstack (nd (nodes_ r) (NodeIndex id)))
    else (None, 0)).
Proof.
  intros Ok (V & _). pose proof (r_graph _ _ Ok) as G. pose proof (g_small _ _ G) as S. unfold UpdateStackTrace, GetStackTrace.
  rewrite FindNode_spec by assumption. cbn [obind]. set (i := NodeIndex id) in *. set (n := nd (nodes_ r) i).
  destruct (current r id) eqn:C; [|exists r; split; [reflexivity|]; split; [exact Ok|]; rewrite FindNode_spec, C by assumption; reflexivity].
  rewrite Z.geb_leb, Z.ltb_antisym. destruct (prio <=? priority n); cbn [negb].
  - exists r. split; [reflexivity|]. split; [exact Ok|]. rewrite FindNode_spec, C by assumption. reflexivity.
  - rewrite update_valid by assumption. cbn [obind]. eexists. split; [reflexivity|]. split.
    + apply (rep_frame E); [exact Ok| |apply (upd_map link); [exact V|reflexivity]|apply Ok].
      apply (shape_graph E (nodes_ r)); [exact G|]. apply (upd_map shape); [exact V|reflexivity].
    + rewrite FindNode_spec; cbn [nodes_]; [|now apply small_upd|now apply valid_upd].
      replace (current _ id) with true; [cbn [obind nodes_]; fold i; now rewrite nd_upd_same by exact V|].
      unfold current in *. cbn [nodes_]. fold i in C |- *. rewrite (upd_field version); auto. apply V.
Qed.

Lemma HasEdge_rep E r idx idy : rep_ok E r -> id_ok r idx -> id_ok r idy ->
  exists b, HasEdge r idx idy = Some b /\ (b = true <-> both_current r idx idy = true /\ E (NodeIndex idx) (NodeIndex idy)).
Proof.
  intros Ok (Vx & _) (Vy & _). pose proof (r_graph _ _ Ok) as G. pose proof (g_small _ _ G) as S. unfold HasEdge, both_current.
  rewrite !FindNode_spec by assumption. cbn [obind].
  destruct (current r idx); [destruct (current r idy)|]; cbn [andb obind]; try (exists false; split; [reflexivity|]; split; [discriminate|intros (H & _); discriminate]).
  destruct (set_contains_spec (out (nd (nodes_ r) (NodeIndex idx))) (NodeIndex idy)) as (b & C & H); [now apply (a_sets _ _ _ (g_adj _ _ G))|now apply (valid_range (nodes_ r))|].
  exists b. split; [exact C|]. rewrite H, (a_out _ _ _ (g_adj _ _ G)) by exact Vx. tauto.
Qed.
