(* ===== verification/GraphLaws.v ===== *)
(** What the lock-order graph promises ([synchronization/internal/graphcycles.cc]): every state that a sequence of
    operations leads to satisfies the invariant that [CheckInvariants] tests, insertions are refused exactly when
    they would close a cycle, paths are found when there are any, and identifiers name their pointers until
    they expire. *)
From Stdlib Require Import ZArith Lia List Bool Permutation Relations.
From S2P Require Import Prelude NodeSet GraphNode GraphCycles GraphSearch GraphInsert GraphPaths GraphState.
Import ListNotations PointerMapFacts.
#[local] Open Scope Z_scope.
#[local] Open Scope mach_scope.

(** ** [CheckInvariants] *)
Lemma ranks_above_spec ns r : small ns -> forall ys, (forall y, In y ys -> valid ns y /\ r < rank (nd ns y)) -> ranks_above ns r ys = Some true.
Proof.
  intros S. induction ys as [|y ys IH]; intros H; [reflexivity|]. cbn [ranks_above]. destruct (H y (or_introl eq_refl)) as (V & L).
  rewrite node_at_valid by assumption. cbn [obind]. rewrite Z.geb_leb, (proj2 (Z.leb_gt _ _)) by exact L. apply IH. intros z I. apply H. now right.
Qed.

(** A node is found under its own pointer. *)
Lemma find_self E r i : rep_ok E r -> valid (nodes_ r) i ->
  let ptr := UnhidePtr (masked_ptr (nd (nodes_ r) i)) in
  (if negb (ptr =? 0) then PointerMap.Find (ptrmap_ r) (nodes_ r) ptr else Some i) = Some i.
Proof.
  intros Ok V ptr. destruct (Z.eqb_spec ptr 0) as [Q|Q]; [reflexivity|]. cbn [negb].
  assert (M : masked_ptr (nd (nodes_ r) i) = HidePtr ptr).
  { unfold ptr, UnhidePtr, HidePtr. now rewrite Z.lxor_assoc, Z.lxor_nilpotent, Z.lxor_0_r. }
  assert (L : live (nodes_ r) i) by (split; [exact V|]; rewrite M; intros H; apply Q; now apply HidePtr_inj).
  destruct (Find_spec _ _ _ ptr (g_small _ _ (r_graph _ _ Ok)) (r_map _ _ Ok)) as (k & -> & [(-> & N)|(Lk & Mk)]); [now elim (N i L)|].
  f_equal. apply (m_ptrs _ _ _ (r_map _ _ Ok)); auto. congruence.
Qed.

Lemma skipn_node ns n : (n < length ns)%nat -> skipn n ns = nd ns (Z.of_nat n) :: skipn (S n) ns.
Proof.
  unfold nd. rewrite Nat2Z.id. revert n. induction ns as [|m ns IH]; intros [|n] L; cbn [length] in L; try lia; [reflexivity|].
  cbn [skipn nth]. rewrite <- IH by lia. reflexivity.
Qed.

Lemma firstn_node ns n : (n < length ns)%nat -> firstn (S n) ns = firstn n ns ++ [nd ns (Z.of_nat n)].
Proof.
  unfold nd. rewrite Nat2Z.id. revert n. induction ns as [|m ns IH]; intros [|n] L; cbn [length] in L; try lia; [reflexivity|].
  cbn [nth]. rewrite firstn_cons, IH by lia. reflexivity.
Qed.

Lemma check_from_spec E r : rep_ok E r -> room (nodes_ r) -> Z.of_nat (length (nodes_ r)) <= max_insertions ->
  forall k n ranks, (n + k = length (nodes_ r))%nat -> stands_for (Z.of_nat n) ranks (rev (map rank (firstn n (nodes_ r)))) ->
  check_from r (Z.of_nat n) (skipn n (nodes_ r)) ranks = Some true.
Proof.
  intros Ok Rm Mx. pose proof (r_graph _ _ Ok) as G. pose proof (g_small _ _ G) as S.
  induction k as [|k IH]; intros n ranks L St; [rewrite skipn_all2 by lia; reflexivity|].
  rewrite skipn_node by lia. set (i := Z.of_nat n). set (nx := nd (nodes_ r) i). assert (V : valid (nodes_ r) i) by (unfold valid; lia). cbn [check_from].
  pose proof (find_self E r i Ok V) as Fs. cbv zeta in Fs. fold nx in Fs. rewrite Fs. cbn [obind]. rewrite wrapu_small by (unfold valid, small in *; lia).
  rewrite Z.eqb_refl. cbn [negb]. unfold nx at 1. rewrite (g_unvisited _ _ G i V).
  assert (Rk : 0 <= rank nx < 2 ^ 31).
  { assert (I : In (rank nx) (map rank (nodes_ r))) by (apply in_map, nth_In; unfold i; lia).
    apply (Permutation_in _ (g_ranks _ _ G)), in_indices in I. unfold small in S. lia. }
  assert (Nm : mem (rank nx) (rev (map rank (firstn n (nodes_ r)))) = false).
  { apply not_true_is_false. rewrite mem_in, <- in_rev. intros I. pose proof (g_ranks _ _ G) as P.
    assert (D : NoDup (map rank (nodes_ r))) by (apply (Permutation_NoDup (Permutation_sym P)), indices_distinct).
    rewrite <- (firstn_skipn n (nodes_ r)), skipn_node, map_app in D by lia. cbn [map] in D. apply NoDup_remove_2 in D. apply D. apply in_or_app. now left. }
  destruct (op_refines _ _ _ (OpInsert (rank nx)) St ltac:(lia) Rk) as (ranks' & D & St'). cbn [do_op spec_op] in D, St'. rewrite Nm in D, St'. cbn [fst snd] in *.
  rewrite D. cbn [obind negb]. rewrite for_each_spec by now apply Rm. cbn [obind].
  rewrite ranks_above_spec; [|exact S|]; cbn [obind negb].
  - replace (i + 1) with (Z.of_nat (Datatypes.S n)) by lia. apply IH; [lia|]. rewrite firstn_node, map_app, rev_app_distr by lia. cbn [map rev app].
    replace (Z.of_nat (Datatypes.S n)) with (Z.of_nat n + 1) by lia. exact St'.
  - intros y I. apply (a_out _ _ _ (g_adj _ _ G)) in I; [|exact V]. split; [now apply (a_vo _ _ _ (g_adj _ _ G) i)|now apply (g_order _ _ G)].
Qed.

Lemma CheckInvariants_true E r : rep_ok E r -> room (nodes_ r) -> Z.of_nat (length (nodes_ r)) <= max_insertions -> CheckInvariants r = Some true.
Proof.
  intros Ok Rm Mx. unfold CheckInvariants. apply (check_from_spec E r Ok Rm Mx (length (nodes_ r)) 0 Init); [lia|].
  destruct Init_ok as (Oi & Em). split; [exact Oi|]. rewrite Em. split; [reflexivity|]. split; [cbn; lia|left; vm_compute; discriminate].
Qed.

(** ** States *)

(** There is a free node, or room for one more. *)
Definition capacity (r : Rep) : Prop := free_nodes_ r <> [] \/ Z.of_nat (length (nodes_ r)) + 1 < 2 ^ 31.

Lemma GetId_spec E r p : rep_ok E r -> p <> 0 -> capacity r ->
  exists r' id, GetId r p = Some (r', id) /\ rep_ok E r' /\ got r' p id /\ (forall j, live (nodes_ r) j -> kept r r' j).
Proof.
  intros Ok P C. assert (Dec : (exists i, node_of r p i) \/ forall i, ~ node_of r p i).
  { destruct (Find_spec _ _ _ p (g_small _ _ (r_graph _ _ Ok)) (r_map _ _ Ok)) as (k & _ & [(_ & N)|K]); [right|left; now exists k].
    intros i (Li & Mi). now elim (N i Li). }
  destruct Dec as [K|N].
  - destruct (GetId_known E r p Ok K) as (i & No & Ge). exists r, (MakeId i (version (nd (nodes_ r) i))). split; [exact Ge|]. split; [exact Ok|]. split.
    + apply got_make; [apply (r_graph _ _ Ok)|apply (r_version _ _ Ok), No|exact No].
    + intros j (Vj & _). now split.
  - destruct (rev (free_nodes_ r)) as [|i rest] eqn:Fr.
    + assert (Em : free_nodes_ r = []) by (rewrite <- (rev_involutive (free_nodes_ r)), Fr; reflexivity). destruct C as [C|C]; [contradiction|].
      destruct (GetId_fresh E r p Ok P N Em C) as (r' & id & A & B & D & F & _). eauto 8.
    + destruct (GetId_reuse E r p i rest Ok P N Fr) as (r' & id & A & B & D & F & _). eauto 8.
Qed.

(** The states of the graph with the relation that each represents. *)
Inductive reachable : (Z -> Z -> Prop) -> Rep -> Prop :=
| at_new : reachable no_edge New
| at_get E r p r' id : reachable E r -> p <> 0 -> capacity r -> GetId r p = Some (r', id) -> reachable E r'
| at_remove E r p i r' : reachable E r -> room (nodes_ r) -> node_of r p i -> RemoveNode r p = Some r' -> reachable (without E i) r'
| at_remove_none E r p r' : reachable E r -> (forall i, ~ node_of r p i) -> RemoveNode r p = Some r' -> reachable E r'
| at_insert E r x y r' b : reachable E r -> spare (nodes_ r) -> id_ok r x -> id_ok r y -> InsertEdge r x y = Some (r', b) ->
    reachable (if both_current r x y && b then plus E (NodeIndex x) (NodeIndex y) else E) r'
| at_erase E r x y r' : reachable E r -> id_ok r x -> id_ok r y -> RemoveEdge r x y = Some r' ->
    reachable (if both_current r x y then minus E (NodeIndex x) (NodeIndex y) else E) r'
| at_trace E r id prio trace r' : reachable E r -> id_ok r id -> UpdateStackTrace r id prio trace = Some r' -> reachable E r'.

Lemma reachable_ok E r : reachable E r -> rep_ok E r.
Proof.
  induction 1 as [|E r p r' id _ Ok P C X|E r p i r' _ Ok R N X|E r p r' _ Ok N X|E r x y r' b _ Ok Sp Ix Iy X|E r x y r' _ Ok Ix Iy X|E r id prio trace r' _ Ok I X].
  - apply New_ok.
  - destruct (GetId_spec E r p Ok P C) as (r1 & id1 & Q & Ok' & _). rewrite Q in X. injection X as <- _. exact Ok'.
  - destruct (RemoveNode_known E r p i Ok R N) as (r1 & Q & Ok' & _). rewrite Q in X. injection X as <-. exact Ok'.
  - rewrite (RemoveNode_unknown E r p Ok N) in X. injection X as <-. exact Ok.
  - destruct (InsertEdge_rep E r x y Ok Sp Ix Iy) as (r1 & b1 & Q & _ & _ & _ & Ok'). rewrite Q in X. injection X as <- <-. exact Ok'.
  - destruct (RemoveEdge_rep E r x y Ok Ix Iy) as (r1 & Q & _ & Ok'). rewrite Q in X. injection X as <-. exact Ok'.
  - destruct (UpdateStackTrace_rep E r id prio trace Ok I) as (r1 & Q & Ok' & _). rewrite Q in X. injection X as <-. exact Ok'.
Qed.

Lemma ok_acyclic E r u : rep_ok E r -> ~ clos_trans Z E u u.
Proof.
  intros Ok P. assert (L : forall a b, clos_trans Z E a b -> rank (nd (nodes_ r) a) < rank (nd (nodes_ r) b)).
  { induction 1 as [a b H|a b c _ I1 _ I2]; [now apply (g_order _ _ (r_graph _ _ Ok))|lia]. }
  specialize (L u u P). lia.
Qed.

(** ** Theorems *)

(** The edge between the nodes of two identifiers closes a cycle: its end reaches its start. *)
Definition closes_cycle (E : Z -> Z -> Prop) (idx idy : Z) : Prop := path E (NodeIndex idy) (NodeIndex idx).

(** The first [mx] nodes of the path [q] are in the array, as their current identifiers. *)
Definition holds_path (r : Rep) (arr q : list Z) (mx : Z) : Prop :=
  forall i, (i < length q)%nat -> Z.of_nat i < mx -> nth_error arr i = Some (MakeId (nth i q 0) (version (nd (nodes_ r) (nth i q 0)))).

(** Checks of a concrete state. *)
Definition spare_b (ns : list Node) : bool :=
  forallb (fun n => (table_size (table_ (in_ n)) <? 2 ^ 30) && (table_size (table_ (out n)) <? 2 ^ 30)) ns.

Definition id_ok_b (r : Rep) (id : Z) : bool :=
  (0 <=? NodeIndex id) && (NodeIndex id <? Z.of_nat (length (nodes_ r))) &&
  (negb (current r id) || negb (masked_ptr (nd (nodes_ r) (NodeIndex id)) =? HidePtr 0)).

Lemma spare_check ns : spare_b ns = true -> spare ns.
Proof.
  intros H i (V1 & V2). unfold spare_b in H. rewrite forallb_forall in H. specialize (H (nd ns i)). rewrite andb_true_iff, !Z.ltb_lt in H.
  apply H. apply nth_In. lia.
Qed.

Lemma spare_room ns : spare ns -> room ns.
Proof. intros S i V. destruct (S i V). unfold set_room. lia. Qed.

Lemma id_check r id : id_ok_b r id = true -> id_ok r id.
Proof.
  unfold id_ok_b, id_ok, live, valid. intros H. apply andb_true_iff in H as (H & M). apply andb_true_iff in H as (H1 & H2).
  apply Z.leb_le in H1. apply Z.ltb_lt in H2. split; [lia|]. intros C. rewrite C in M. cbn [negb orb] in M. apply negb_true_iff, Z.eqb_neq in M.
  split; [lia|exact M].
Qed.

(** Three locks, of which the third was taken before the second and the second before the first. *)
Definition sample_ids : option (Rep * (Z * Z * Z)) :=
  do (r, a) <- GetId New 100; do (r, b) <- GetId r 200; do (r, c) <- GetId r 300; Some (r, (a, b, c)).

Definition sample0 : Rep := match sample_ids with Some (r, _) => r | None => New end.
Definition id_a : Z := 4294967296.
Definition id_b : Z := 4294967297.
Definition id_c : Z := 4294967298.

Definition after (m : option (Rep * bool)) : Rep := match m with Some (r, _) => r | None => New end.
Definition sample1 : Rep := after (InsertEdge sample0 id_c id_b).
Definition sample2 : Rep := after (InsertEdge sample1 id_b id_a).

Definition sample_edges : Z -> Z -> Prop := plus (plus no_edge 2 1) 1 0.

Lemma sample0_reach : reachable no_edge sample0.
Proof.
  assert (C : forall r, free_nodes_ r = [] -> Z.of_nat (length (nodes_ r)) + 1 < 2 ^ 31 -> capacity r) by (right; assumption).
  destruct (GetId New 100) as [[r1 a]|] eqn:E1; [|vm_compute in E1; discriminate].
  destruct (GetId r1 200) as [[r2 b]|] eqn:E2; [|clear C; revert E2; vm_compute in E1; injection E1 as <- <-; vm_compute; discriminate].
  destruct (GetId r2 300) as [[r3 c]|] eqn:E3.
  2: { clear C. revert E3. vm_compute in E1. injection E1 as <- <-. vm_compute in E2. injection E2 as <- <-. vm_compute. discriminate. }
  assert (Q : sample0 = r3) by (unfold sample0, sample_ids; rewrite E1; cbn [obind]; rewrite E2; cbn [obind]; rewrite E3; reflexivity).
  rewrite Q. apply (at_get no_edge r2 300 r3 c); [|discriminate| |exact E3].
  - apply (at_get no_edge r1 200 r2 b); [|discriminate| |exact E2].
    + apply (at_get no_edge New 100 r1 a); [apply at_new|discriminate| |exact E1]. apply C; vm_compute; reflexivity.
    + vm_compute in E1. injection E1 as <- <-. apply C; vm_compute; reflexivity.
  - vm_compute in E1. injection E1 as <- <-. vm_compute in E2. injection E2 as <- <-. apply C; vm_compute; reflexivity.
Qed.

Lemma sample1_reach : reachable (plus no_edge 2 1) sample1.
Proof.
  apply (at_insert no_edge sample0 id_c id_b sample1 true sample0_reach).
  - apply spare_check. vm_compute. reflexivity.
  - apply id_check. vm_compute. reflexivity.
  - apply id_check. vm_compute. reflexivity.
  - vm_compute. reflexivity.
Qed.

Lemma sample2_reach : reachable sample_edges sample2.
Proof.
  apply (at_insert (plus no_edge 2 1) sample1 id_b id_a sample2 true sample1_reach).
  - apply spare_check. vm_compute. reflexivity.
  - apply id_check. vm_compute. reflexivity.
  - apply id_check. vm_compute. reflexivity.
  - vm_compute. reflexivity.
Qed.

Lemma sample2_ok : rep_ok sample_edges sample2.
Proof. apply reachable_ok, sample2_reach. Qed.

(** C4: The lock-order graph refuses an edge exactly when it would close a cycle.  For live nodes x and y, InsertEdge
    returns false if and only if y reaches x (in particular when they are the same node), and then the graph that
    is represented is unchanged; otherwise the edge is added and HasEdge sees it.  Either way the searches end, the
    ranks stay a permutation that every edge respects, no marker is left and identifiers and pointers are kept.
    With an expired identifier nothing happens and the result is true. *)
Theorem InsertEdge_correct E r idx idy : rep_ok E r -> spare (nodes_ r) -> id_ok r idx -> id_ok r idy ->
  let x := NodeIndex idx in let y := NodeIndex idy in
  exists r' b, InsertEdge r idx idy = Some (r', b) /\ map ident (nodes_ r') = map ident (nodes_ r) /\
  (both_current r idx idy = false -> r' = r /\ b = true) /\
  (both_current r idx idy = true ->
     (b = false <-> closes_cycle E idx idy) /\ rep_ok (if b then plus E x y else E) r' /\ (b = true -> HasEdge r' idx idy = Some true)).
Proof.
  intros Ok Sp Ix Iy x y. destruct (InsertEdge_rep E r idx idy Ok Sp Ix Iy) as (r' & b & I & Id & N & P & Ok'). fold x y in P, Ok'.
  exists r', b. split; [exact I|]. split; [exact Id|]. split; [exact N|]. intros B. rewrite B in Ok'. cbn [andb] in Ok'.
  split; [now apply P|]. split; [exact Ok'|]. intros ->. pose proof (ident_link _ _ Id) as M.
  assert (Q : forall i, link (nd (nodes_ r') i) = link (nd (nodes_ r) i)) by (intros i; now apply (nd_map link)).
  assert (V : forall i, valid (nodes_ r') i <-> valid (nodes_ r) i) by (intros i; apply (valid_map link _ _ _ M)).
  assert (Cu : forall id, current r' id = current r id) by (intros id; unfold current; specialize (Q (NodeIndex id)); unfold link in Q; injection Q as -> _ _; reflexivity).
  assert (Io : forall id, id_ok r id -> id_ok r' id).
  { intros id (V1 & L). split; [now apply V|]. rewrite Cu. intros C. destruct (L C) as (_ & L'). split; [now apply V|].
    specialize (Q (NodeIndex id)). unfold link in Q. injection Q as _ _ ->. exact L'. }
  destruct (HasEdge_rep _ r' idx idy Ok' (Io _ Ix) (Io _ Iy)) as (h & H & E1). rewrite H. f_equal. apply E1.
  unfold both_current in *. rewrite !Cu. split; [exact B|]. right. split; reflexivity.
Qed.

Lemma InsertEdge_correct_witness :
  exists r' b, InsertEdge sample2 id_a id_c = Some (r', b) /\ map ident (nodes_ r') = map ident (nodes_ sample2) /\
  (both_current sample2 id_a id_c = false -> r' = sample2 /\ b = true) /\
  (both_current sample2 id_a id_c = true ->
     (b = false <-> closes_cycle sample_edges id_a id_c) /\
     rep_ok (if b then plus sample_edges (NodeIndex id_a) (NodeIndex id_c) else sample_edges) r' /\
     (b = true -> HasEdge r' id_a id_c = Some true)).
Proof.
  apply (InsertEdge_correct sample_edges sample2 id_a id_c sample2_ok).
  - apply spare_check. vm_compute. reflexivity.
  - apply id_check. vm_compute. reflexivity.
  - apply id_check. vm_compute. reflexivity.
Defined.

(** The edge that would close the cycle is refused, and the ranks have been turned around by the other two. *)
Lemma sample_run : option_map snd (InsertEdge sample2 id_a id_c) = Some false /\ map rank (nodes_ sample2) = [2; 1; 0] /\
  FindPath sample2 id_c id_a 4 [0; 0; 0; 0] = Some (3, [id_c; id_b; id_a; 0]).
Proof. vm_compute. repeat split. Qed.

(** C32: FindPath and IsReachable answer reachability.  For live nodes x and y the search ends; it returns 0 exactly
    when y cannot be reached from x, and otherwise the number of nodes of a path from x to y that meets no node
    twice, of which the first max_path_len nodes are in the caller's array as current identifiers.  IsReachable is true
    exactly when there is a path.  Expired identifiers have no path. *)
Theorem FindPath_correct E r idx idy mx arr : rep_ok E r -> room (nodes_ r) -> Z.of_nat (length (nodes_ r)) <= max_insertions ->
  id_ok r idx -> id_ok r idy -> mx <= Z.of_nat (length arr) ->
  let x := NodeIndex idx in let y := NodeIndex idy in
  exists len arr', FindPath r idx idy mx arr = Some (len, arr') /\
  (both_current r idx idy = false -> len = 0 /\ arr' = arr) /\
  (both_current r idx idy = true ->
    (len = 0 /\ ~ path E x y) \/
    exists q, walk E x q y /\ NoDup q /\ len = Z.of_nat (length q) /\ 0 < len /\ holds_path r arr' q mx) /\
  exists b, IsReachable r idx idy = Some b /\ (b = true <-> both_current r idx idy = true /\ path E x y).
Proof.
  intros Ok Rm Mx (Vx & _) (Vy & _) La x y. pose proof (r_graph _ _ Ok) as G. pose proof (g_small _ _ G) as S.
  unfold IsReachable, FindPath, both_current. rewrite !FindNode_spec by assumption. cbn [obind]. fold x y.
  destruct (current r idx); cbn [andb obind].
  2: { exists 0, arr. split; [reflexivity|]. split; [auto|]. split; [discriminate|]. exists false. split; [reflexivity|]. split; [discriminate|intros (H & _); discriminate]. }
  destruct (current r idy); cbn [obind].
  2: { exists 0, arr. split; [reflexivity|]. split; [auto|]. split; [discriminate|]. exists false. split; [reflexivity|]. split; [discriminate|intros (H & _); discriminate]. }
  assert (Fuel : (cost [x] + 2 * (length (nodes_ r) - length (elems Init)) <= path_fuel (nodes_ r))%nat).
  { unfold path_fuel. cbn [cost]. destruct (x <? 0); cbn [elems filter Init table_ repeat Z.to_nat length]; lia. }
  assert (Pos : forall q, walk E x q y -> 0 < Z.of_nat (length q)) by (intros q W; apply walk_nonempty in W; destruct q; [now elim W|cbn [length]; lia]).
  destruct (path_loop_spec E (nodes_ r) x y mx G Rm Mx _ _ _ _ _ _ (search_start E (nodes_ r) x y mx Vx arr La) Fuel) as ((len & arr') & Q & Fp).
  destruct (path_loop_spec E (nodes_ r) x y 0 G Rm Mx _ _ _ _ _ _ (search_start E (nodes_ r) x y 0 Vx [] ltac:(cbn; lia)) Fuel) as ((len0 & arr0) & Q0 & Fp0).
  cbn [length Z.of_nat] in Q, Q0. rewrite Q, Q0. cbn [obind]. exists len, arr'. split; [reflexivity|]. split; [discriminate|]. split.
  - intros _. destruct Fp as [Fp|(q & W & L & N)]; [now left|right]. exists q. split; [exact W|].
    split; [apply (walk_ranks E (nodes_ r) x q y (g_order _ _ G) W)|]. split; [exact L|]. split; [rewrite L; now apply Pos|exact N].
  - exists (len0 >? 0). split; [reflexivity|]. rewrite Z.gtb_lt. destruct Fp0 as [(-> & N)|(q & W & -> & _)].
    + split; [lia|intros (_ & P); contradiction].
    + split; [intros _; split; [reflexivity|now apply (walk_path E x q)]|intros _; now apply Pos].
Qed.

Lemma FindPath_correct_witness :
  exists len arr', FindPath sample2 id_c id_a 2 [0; 0] = Some (len, arr') /\
  (both_current sample2 id_c id_a = false -> len = 0 /\ arr' = [0; 0]) /\
  (both_current sample2 id_c id_a = true ->
    (len = 0 /\ ~ path sample_edges (NodeIndex id_c) (NodeIndex id_a)) \/
    exists q, walk sample_edges (NodeIndex id_c) q (NodeIndex id_a) /\ NoDup q /\ len = Z.of_nat (length q) /\ 0 < len /\
    holds_path sample2 arr' q 2) /\
  exists b, IsReachable sample2 id_c id_a = Some b /\
    (b = true <-> both_current sample2 id_c id_a = true /\ path sample_edges (NodeIndex id_c) (NodeIndex id_a)).
Proof.
  apply (FindPath_correct sample_edges sample2 id_c id_a 2 [0; 0] sample2_ok).
  - apply spare_room, spare_check. vm_compute. reflexivity.
  - vm_compute. discriminate.
  - apply id_check. vm_compute. reflexivity.
  - apply id_check. vm_compute. reflexivity.
  - vm_compute. discriminate.
Defined.

(** Identifiers of nodes that are kept. *)
Lemma kept_ptr E E' r r' id : rep_ok E r -> rep_ok E' r' -> valid (nodes_ r) (NodeIndex id) -> kept r r' (NodeIndex id) ->
  Ptr r' id = Ptr r id /\ HasNode r' id = HasNode r id.
Proof.
  intros Ok Ok' V (V' & Ve & Mp).
  destruct (Ptr_spec r id (g_small _ _ (r_graph _ _ Ok)) V) as (-> & ->), (Ptr_spec r' id (g_small _ _ (r_graph _ _ Ok')) V') as (-> & ->).
  unfold current. now rewrite Ve, Mp.
Qed.

(** C36: Identifiers name pointers.  GetId gives a pointer an identifier under which Ptr finds it again and HasNode
    holds, a second GetId returns the same identifier and changes nothing, and the identifiers of the other live
    nodes keep their pointers.  RemoveNode takes the node with its edges out of the graph: Ptr of the identifier is
    then the null pointer, other nodes are as before, and the identifier has expired unless its version was the
    largest there is. *)
Theorem graph_ids_correct E r p : rep_ok E r -> p <> 0 -> capacity r ->
  exists r' id, GetId r p = Some (r', id) /\ rep_ok E r' /\ Ptr r' id = Some p /\ HasNode r' id = Some true /\
  GetId r' p = Some (r', id) /\
  (forall other, live (nodes_ r) (NodeIndex other) -> Ptr r' other = Ptr r other /\ HasNode r' other = HasNode r other) /\
  (room (nodes_ r') -> exists r'', RemoveNode r' p = Some r'' /\ rep_ok (without E (NodeIndex id)) r'' /\
    Ptr r'' id = Some 0 /\ HasNode r'' id = Some (NodeVersion id =? 2 ^ 32 - 1) /\
    forall other, valid (nodes_ r') (NodeIndex other) -> NodeIndex other <> NodeIndex id ->
      Ptr r'' other = Ptr r' other /\ HasNode r'' other = HasNode r' other).
Proof.
  intros Ok P C. destruct (GetId_spec E r p Ok P C) as (r' & id & Ge & Ok' & (No & Cu & Pt & Mk) & Ke). pose proof (g_small _ _ (r_graph _ _ Ok')) as S'.
  assert (V' : valid (nodes_ r') (NodeIndex id)) by apply No. exists r', id. split; [exact Ge|]. split; [exact Ok'|]. split; [exact Pt|].
  split; [destruct (Ptr_spec r' id S' V') as (_ & ->); now rewrite Cu|]. split; [|split].
  - destruct (GetId_known E r' p Ok' (ex_intro _ _ No)) as (i & Ni & ->).
    assert (i = NodeIndex id) by (apply (m_ptrs _ _ _ (r_map _ _ Ok')); [apply Ni|apply No|]; now rewrite (proj2 Ni), (proj2 No)). subst i. now rewrite <- Mk.
  - intros other L. apply (kept_ptr E E); auto. apply L.
  - intros Rm. destruct (RemoveNode_known E r' p (NodeIndex id) Ok' Rm No) as (r'' & Re & Ok'' & Nl & Ve & Ke' & Len).
    exists r''. split; [exact Re|]. split; [exact Ok''|]. assert (V'' : valid (nodes_ r'') (NodeIndex id)) by (unfold valid in *; now rewrite Len).
    assert (Vi : version (nd (nodes_ r') (NodeIndex id)) = NodeVersion id) by (unfold current in Cu; now apply Z.eqb_eq).
    destruct (Ptr_spec r'' id (g_small _ _ (r_graph _ _ Ok'')) V'') as (-> & ->).
    assert (Cu'' : current r'' id = (NodeVersion id =? 2 ^ 32 - 1)).
    { unfold current. rewrite Ve, Vi. unfold next_version. destruct (NodeVersion id =? 2 ^ 32 - 1); [apply Z.eqb_refl|apply Z.eqb_neq; lia]. }
    split; [|split; [now rewrite Cu''|]].
    + destruct (current r'' id); [|reflexivity]. assert (Mz : masked_ptr (nd (nodes_ r'') (NodeIndex id)) = HidePtr 0).
      { destruct (Z.eq_dec (masked_ptr (nd (nodes_ r'') (NodeIndex id))) (HidePtr 0)) as [Q|Q]; [exact Q|]. elim Nl. now split. }
      rewrite Mz. now rewrite UnhidePtr_HidePtr.
    + intros other Vo Nother. apply (kept_ptr E (without E (NodeIndex id))); auto.
Qed.

Lemma graph_ids_correct_witness :
  exists r' id, GetId sample2 400 = Some (r', id) /\ rep_ok sample_edges r' /\ Ptr r' id = Some 400 /\ HasNode r' id = Some true /\
  GetId r' 400 = Some (r', id) /\
  (forall other, live (nodes_ sample2) (NodeIndex other) -> Ptr r' other = Ptr sample2 other /\ HasNode r' other = HasNode sample2 other) /\
  (room (nodes_ r') -> exists r'', RemoveNode r' 400 = Some r'' /\ rep_ok (without sample_edges (NodeIndex id)) r'' /\
    Ptr r'' id = Some 0 /\ HasNode r'' id = Some (NodeVersion id =? 2 ^ 32 - 1) /\
    forall other, valid (nodes_ r') (NodeIndex other) -> NodeIndex other <> NodeIndex id ->
      Ptr r'' other = Ptr r' other /\ HasNode r'' other = HasNode r' other).
Proof.
  apply (graph_ids_correct sample_edges sample2 400 sample2_ok); [discriminate|]. right. vm_compute. reflexivity.
Defined.

(** C25: Every state that the operations of the lock-order graph lead to (in any order, from the empty graph, with
    identifiers of live nodes or expired ones) represents an acyclic relation and passes the code's own test:
    CheckInvariants returns true, which says that every live node is found under its pointer, no marker is set, no
    rank occurs twice and every edge goes up in rank. *)
Theorem lock_graph_invariant E r : reachable E r -> room (nodes_ r) -> Z.of_nat (length (nodes_ r)) <= max_insertions ->
  CheckInvariants r = Some true /\ (forall u, ~ clos_trans Z E u u) /\
  (forall i, valid (nodes_ r) i -> 0 <= rank (nd (nodes_ r) i) < Z.of_nat (length (nodes_ r))) /\
  forall idx idy, id_ok r idx -> id_ok r idy ->
    exists b, HasEdge r idx idy = Some b /\ (b = true <-> both_current r idx idy = true /\ E (NodeIndex idx) (NodeIndex idy)).
Proof.
  intros Re Rm Mx. pose proof (reachable_ok E r Re) as Ok. split; [now apply (CheckInvariants_true E)|].
  split; [intros u; now apply (ok_acyclic E r)|]. split; [|intros idx idy Ix Iy; now apply HasEdge_rep].
  intros i (V1 & V2). apply in_indices. apply (Permutation_in _ (g_ranks _ _ (r_graph _ _ Ok))). apply in_map, nth_In. lia.
Qed.

Lemma lock_graph_invariant_witness :
  CheckInvariants sample2 = Some true /\ (forall u, ~ clos_trans Z sample_edges u u) /\
  (forall i, valid (nodes_ sample2) i -> 0 <= rank (nd (nodes_ sample2) i) < Z.of_nat (length (nodes_ sample2))) /\
  forall idx idy, id_ok sample2 idx -> id_ok sample2 idy ->
    exists b, HasEdge sample2 idx idy = Some b /\ (b = true <-> both_current sample2 idx idy = true /\ sample_edges (NodeIndex idx) (NodeIndex idy)).
Proof.
  apply (lock_graph_invariant sample_edges sample2 sample2_reach).
  - apply spare_room, spare_check. vm_compute. reflexivity.
  - vm_compute. discriminate.
Defined.
