(* ===== verification/Crc.v ===== *)
(** The portable CRC32C engine ([crc/internal/crc.cc], [crc_internal.h]): the lookup tables that it computes, the
    interleaved word-at-a-time extension, the extension by zeros with polynomial multiplication, its inverse on
    bit-reversed checksums, and scrambling.  The specification is the shift register: one bit of the message
    shifts the register by one place and subtracts the polynomial when a bit falls out. *)
From Stdlib Require Import ZArith Lia List Bool Btauto.
From S2P Require Import Prelude Bits Endian.
Import ListNotations.
#[local] Open Scope Z_scope.
#[local] Open Scope mach_scope.

(** ** Polynomials *)
Definition ZEROES_BASE_LG : Z := 4.
Definition ZEROES_BASE : Z := Z.shiftl 1 ZEROES_BASE_LG.
Definition kCrc32cPoly : Z := 0x82f63b78.

Definition ReverseBits (bits : Z) : Z :=
  let bits := ((bits .& 0xaaaaaaaa) >> 1) .| ((bits .& 0x55555555) <<[32] 1) in
  let bits := ((bits .& 0xcccccccc) >> 2) .| ((bits .& 0x33333333) <<[32] 2) in
  let bits := ((bits .& 0xf0f0f0f0) >> 4) .| ((bits .& 0x0f0f0f0f) <<[32] 4) in
  gbswap_32 bits.

(** The loop of [PolyMultiply], a round for every bit of a word. *)
Fixpoint poly_loop (fuel : nat) (l one m result poly : Z) : Z :=
  match fuel with
  | O => result
  | S fuel' =>
    if one =? 0 then result
    else
      let result := if negb ((l .& one) =? 0) then Z.lxor result m else result in
      let m := if negb ((m .& 1) =? 0) then Z.lxor (m >> 1) poly else m >> 1 in
      poly_loop fuel' l (one >> 1) m result poly
  end.

Definition PolyMultiply (val m poly : Z) : Z := poly_loop 33 val 0x80000000 m 0 poly.

(** ** Tables *)
Definition Uint32By256 := list Z.

Definition get2 (t : list Uint32By256) (j i : Z) : option Z := do row <- read t j; read row i.

Definition set2 (t : list Uint32By256) (j i v : Z) : option (list Uint32By256) :=
  do row <- read t j; do row <- write row i v; write t j row.

(** One bit of zero extension. *)
Definition advance (poly pred : Z) : Z := if negb ((pred .& 1) =? 0) then Z.lxor (pred >> 1) poly else pred >> 1.

(** The entries for powers of two, from 128 down. *)
Fixpoint fill_powers (fuel : nat) (poly last j i : Z) (t : list Uint32By256) : option (list Uint32By256) :=
  if i =? 0 then Some t
  else
    match fuel with
    | O => None
    | S fuel' =>
      do v <- if (j =? 0) && (i =? 128) then Some last
              else
                do pred <- if i =? 128 then get2 t (j - 1) 1 else get2 t j (Z.shiftl i 1);
                Some (advance poly pred);
      do t <- set2 t j i v;
      fill_powers fuel' poly last j (Z.shiftr i 1) t
    end.

(** The entries between a power of two and the next. *)
Fixpoint fill_between (fuel : nat) (j i k : Z) (t : list Uint32By256) : option (list Uint32By256) :=
  if k =? Z.shiftl i 1 then Some t
  else
    match fuel with
    | O => None
    | S fuel' =>
      do a <- get2 t j i;
      do b <- get2 t j (k - i);
      do t <- set2 t j k (Z.lxor a b);
      fill_between fuel' j i (k + 1) t
    end.

Fixpoint fill_rest (fuel : nat) (j i : Z) (t : list Uint32By256) : option (list Uint32By256) :=
  if i =? 256 then Some t
  else
    match fuel with
    | O => None
    | S fuel' =>
      do t <- fill_between 256 j i (i + 1) t;
      fill_rest fuel' j (Z.shiftl i 1) t
    end.

Fixpoint fill_words (fuel : nat) (poly last j word_size : Z) (t : list Uint32By256) : option (list Uint32By256) :=
  if j =? word_size then Some t
  else
    match fuel with
    | O => None
    | S fuel' =>
      do t <- set2 t j 0 0;
      do t <- fill_powers 8 poly last j 128 t;
      do t <- fill_rest 8 j 2 t;
      fill_words fuel' poly last (j + 1) word_size t
    end.

Definition FillWordTable (poly last word_size : Z) (t : list Uint32By256) : option (list Uint32By256) :=
  fill_words (Z.to_nat word_size) poly last 0 word_size t.

(** The entries for [a] times the current number of zeros. *)
Fixpoint fill_multiples (fuel : nat) (poly inc a v j : Z) (t : list Uint32By256) : option (list Uint32By256 * Z * Z) :=
  if a =? ZEROES_BASE then Some (t, v, j)
  else
    match fuel with
    | O => None
    | S fuel' =>
      do t <- set2 t 0 j v;
      fill_multiples fuel' poly inc (a + 1) (PolyMultiply v inc poly) (j + 1) t
    end.

Fixpoint fill_lengths (fuel : nat) (poly inc inc_len j : Z) (t : list Uint32By256) : option (list Uint32By256 * Z) :=
  if inc_len =? 0 then Some (t, j)
  else
    match fuel with
    | O => None
    | S fuel' =>
      do (t, v, j) <- fill_multiples 15 poly inc 1 inc j t;
      fill_lengths fuel' poly v (inc_len <<[64] ZEROES_BASE_LG) j t
    end.

Definition FillZeroesTable (poly : Z) (t : list Uint32By256) : option (list Uint32By256 * Z) :=
  let inc := (1 <<[32] 31) >> 1 in
  let inc := PolyMultiply inc inc poly in
  let inc := PolyMultiply inc inc poly in
  let inc := PolyMultiply inc inc poly in
  do (t, j) <- fill_lengths 16 poly inc 1 0 t;
  if j <=? 256 then Some (t, j) else None.

Record CRC32 := mk_crc32 {
  table0_ : list Z;
  zeroes_ : list Z;
  table_ : list (list Z);
  reverse_table0_ : list Z;
  reverse_zeroes_ : list Z
}.

Fixpoint zero_bytes (n : nat) (table0 : list Z) (last : Z) : option Z :=
  match n with
  | O => Some last
  | S n' => do e <- read table0 (last .& 0xff); zero_bytes n' table0 (Z.lxor (last >> 8) e)
  end.

Definition fresh_table : Uint32By256 := repeat 0 256.

(** [InitTables]; the first [j] entries of a table of zero extensions are copied over. *)
Definition InitTables : option CRC32 :=
  do t <- FillWordTable kCrc32cPoly kCrc32cPoly 1 (repeat fresh_table 4);
  do table0 <- read t 0;
  do last <- zero_bytes 12 table0 kCrc32cPoly;
  do t <- FillWordTable kCrc32cPoly last 4 t;
  let table := t in
  do (t, j) <- FillZeroesTable kCrc32cPoly t;
  do row <- read t 0;
  let zeroes := firstn (Z.to_nat j) row ++ skipn (Z.to_nat j) fresh_table in
  let kCrc32cUnextendPoly := ReverseBits (wrapu 32 (Z.lxor (kCrc32cPoly <<[32] 1) 1)) in
  do t <- FillWordTable kCrc32cUnextendPoly kCrc32cUnextendPoly 1 [fresh_table];
  do reverse_table0 <- read t 0;
  do (t, j) <- FillZeroesTable kCrc32cUnextendPoly [fresh_table];
  do reverse_zeroes <- read t 0;
  Some (mk_crc32 table0 zeroes table reverse_table0 reverse_zeroes).

(** ** Extension by bytes *)

(** [kNeedAlignedLoads], the prefetch distance and the byte order of the host. *)
Record Platform := mk_platform { kNeedAlignedLoads : bool; kPrefetchHorizon : Z; host : endian }.

Definition RoundUp (alignment addr : Z) : Z := (addr +[64] (alignment - 1)) .& (~[64] (alignment - 1)).

Definition step_one_byte (e : CRC32) (l b : Z) : option Z :=
  let c := Z.lxor (l .& 0xff) b in
  do t <- read (table0_ e) c;
  Some (Z.lxor t (l >> 8)).

(** [step_one_byte] until [n] bytes are used up: the register and the bytes that are left. *)
Fixpoint step_bytes (n : nat) (e : CRC32) (l : Z) (p : list Z) : option (Z * list Z) :=
  match n, p with
  | O, _ => Some (l, p)
  | S n', b :: p => do l <- step_one_byte e l b; step_bytes n' e l p
  | S _, [] => None
  end.

Definition kSwathSize : Z := 16.

Definition Load32 (pl : Platform) (p : list Z) : option Z :=
  if (4 <=? length p)%nat then Some (little_endian.Load (host pl) 4 p) else None.

Definition step_swath (pl : Platform) (e : CRC32) (crc_in : Z) (ptr : list Z) : option Z :=
  do w <- Load32 pl ptr;
  do t3 <- get2 (table_ e) 3 (crc_in .& 0xff);
  do t2 <- get2 (table_ e) 2 ((crc_in >> 8) .& 0xff);
  do t1 <- get2 (table_ e) 1 ((crc_in >> 16) .& 0xff);
  do t0 <- get2 (table_ e) 0 (crc_in >> 24);
  Some (Z.lxor (Z.lxor (Z.lxor (Z.lxor w t3) t2) t1) t0).

Definition Bufs := (Z * Z * Z * Z)%type.

Definition step_stride (pl : Platform) (e : CRC32) (b : Bufs) (p : list Z) : option (Bufs * list Z) :=
  let '(b0, b1, b2, b3) := b in
  do b0 <- step_swath pl e b0 p;
  do b1 <- step_swath pl e b1 (skipn 4 p);
  do b2 <- step_swath pl e b2 (skipn 8 p);
  do b3 <- step_swath pl e b3 (skipn 12 p);
  Some ((b0, b1, b2, b3), skipn 16 p).

Definition zlen (p : list Z) : Z := Z.of_nat (length p).

Fixpoint prefetch_loop (fuel : nat) (pl : Platform) (e : CRC32) (b : Bufs) (p : list Z) : option (Bufs * list Z) :=
  if zlen p >? kPrefetchHorizon pl then
    match fuel with
    | O => None
    | S fuel' =>
      do (b, p) <- step_stride pl e b p;
      do (b, p) <- step_stride pl e b p;
      do (b, p) <- step_stride pl e b p;
      do (b, p) <- step_stride pl e b p;
      prefetch_loop fuel' pl e b p
    end
  else Some (b, p).

Fixpoint stride_loop (fuel : nat) (pl : Platform) (e : CRC32) (b : Bufs) (p : list Z) : option (Bufs * list Z) :=
  if zlen p >=? kSwathSize then
    match fuel with
    | O => None
    | S fuel' => do (b, p) <- step_stride pl e b p; stride_loop fuel' pl e b p
    end
  else Some (b, p).

Fixpoint word_loop (fuel : nat) (pl : Platform) (e : CRC32) (b : Bufs) (p : list Z) : option (Bufs * list Z) :=
  if zlen p >=? 4 then
    match fuel with
    | O => None
    | S fuel' =>
      let '(b0, b1, b2, b3) := b in
      do tmp <- step_swath pl e b0 p;
      word_loop fuel' pl e (b1, b2, b3, tmp) (skipn 4 p)
    end
  else Some (b, p).

Definition combine_one_word (e : CRC32) (crc_in w : Z) : option Z := zero_bytes 4 (table0_ e) (Z.lxor w crc_in).

(** [Extend]; [addr] is the address of the bytes. *)
Definition Extend (pl : Platform) (e : CRC32) (crc : Z) (addr : Z) (bytes : list Z) : option Z :=
  let x := RoundUp 4 addr in
  do (l, p) <-
    if kNeedAlignedLoads pl && (x <=? addr + zlen bytes) then step_bytes (Z.to_nat (x - addr)) e crc bytes
    else Some (crc, bytes);
  do (l, p) <-
    if zlen p >=? kSwathSize then
      do buf0 <- Load32 pl p;
      let buf0 := Z.lxor buf0 l in
      do buf1 <- Load32 pl (skipn 4 p);
      do buf2 <- Load32 pl (skipn 8 p);
      do buf3 <- Load32 pl (skipn 12 p);
      let p := skipn 16 p in
      do (b, p) <- prefetch_loop (length p) pl e (buf0, buf1, buf2, buf3) p;
      do (b, p) <- stride_loop (length p) pl e b p;
      do (b, p) <- word_loop (length p) pl e b p;
      let '(buf0, buf1, buf2, buf3) := b in
      do l <- combine_one_word e 0 buf0;
      do l <- combine_one_word e l buf1;
      do l <- combine_one_word e l buf2;
      do l <- combine_one_word e l buf3;
      Some (l, p)
    else Some (l, p);
  do (l, _) <- step_bytes (length p) e l p;
  Some l.

(** ** Extension by zeros *)

(** The carry-less product of a byte with the multiplier whose multiples are in [mtab]. *)
Definition byte_product (mtab : list Z) (l : Z) : option Z :=
  do a <- read mtab (l .& 3);
  do b <- read mtab ((l >> 2) .& 3);
  do c <- read mtab ((l >> 4) .& 3);
  do d <- read mtab ((l >> 6) .& 3);
  Some (Z.lxor (Z.lxor (Z.lxor a (b <<[64] 2)) (c <<[64] 4)) (d <<[64] 6)).

Fixpoint multiply_bytes (n : nat) (poly_table mtab : list Z) (l result : Z) : option Z :=
  match n with
  | O => Some result
  | S n' =>
    do prod <- byte_product mtab l;
    let result := Z.lxor result prod in
    do t <- read poly_table (result .& 0xff);
    multiply_bytes n' poly_table mtab (l >> 8) (Z.lxor (result >> 8) t)
  end.

Fixpoint zeroes_loop (fuel : nat) (zeroes_table poly_table : list Z) (i length_ l : Z) : option Z :=
  if length_ =? 0 then Some l
  else
    match fuel with
    | O => None
    | S fuel' =>
      let c := length_ .& (ZEROES_BASE - 1) in
      do l <-
        if negb (c =? 0) then
          do z <- read zeroes_table (c + i - 1);
          let m := z <<[64] 1 in
          let m2 := m <<[64] 1 in
          do result <- multiply_bytes 4 poly_table [0; m; m2; Z.lxor m2 m] l 0;
          Some (wrapu 32 result)
        else Some l;
      zeroes_loop fuel' zeroes_table poly_table (i + (ZEROES_BASE - 1)) (length_ >> ZEROES_BASE_LG) l
    end.

Definition ExtendByZeroesImpl (zeroes_table poly_table : list Z) (crc length_ : Z) : option Z :=
  if negb (length_ =? 0) then zeroes_loop 16 zeroes_table poly_table 0 length_ crc else Some crc.

Definition ExtendByZeroes (e : CRC32) (crc length_ : Z) : option Z := ExtendByZeroesImpl (zeroes_ e) (table0_ e) crc length_.

Definition UnextendByZeroes (e : CRC32) (crc length_ : Z) : option Z :=
  do crc <- ExtendByZeroesImpl (reverse_zeroes_ e) (reverse_table0_ e) (ReverseBits crc) length_;
  Some (ReverseBits crc).

(** ** Scrambling *)
Definition kScrambleLo : Z := (0xf9ce6030 <<[64] 32) .| 0x2e76e41b.

Definition Scramble (crc : Z) : Z := rotr 32 (wrapu 32 (crc +[64] kScrambleLo)) (32 / 2 + 1).

Definition Unscramble (crc : Z) : Z := wrapu 32 (rotl 32 crc (32 / 2 + 1) -[64] kScrambleLo).

(** ** The shift register *)
Section Register.
Context (poly : Z).

(** One zero bit of message: the register is multiplied by X modulo the polynomial. *)
Definition shift1 (z : Z) : Z := Z.lxor (Z.shiftr z 1) (if Z.odd z then poly else 0).

Definition shifts (n : Z) (z : Z) : Z := Nat.iter (Z.to_nat n) shift1 z.

Lemma shifts_0 z : shifts 0 z = z.
Proof. reflexivity. Qed.

Lemma shifts_add m n z : 0 <= m -> 0 <= n -> shifts (m + n) z = shifts m (shifts n z).
Proof. intros M N. unfold shifts. rewrite Z2Nat.inj_add by assumption. apply Nat.iter_add. Qed.

Lemma shifts_1 z : shifts 1 z = shift1 z.
Proof. reflexivity. Qed.

Lemma shifts_succ n z : 0 <= n -> shifts (n + 1) z = shifts n (shift1 z).
Proof. intros N. rewrite shifts_add by lia. now rewrite shifts_1. Qed.

Lemma shift1_lxor a b : shift1 (Z.lxor a b) = Z.lxor (shift1 a) (shift1 b).
Proof.
  unfold shift1. rewrite Z.shiftr_lxor. assert (O : Z.odd (Z.lxor a b) = xorb (Z.odd a) (Z.odd b)) by (rewrite <- !Z.bit0_odd; apply Z.lxor_spec).
  rewrite O. rewrite !Z.lxor_assoc. f_equal. rewrite <- Z.lxor_assoc, (Z.lxor_comm _ (Z.shiftr b 1)), Z.lxor_assoc. f_equal.
  destruct (Z.odd a), (Z.odd b); cbn [xorb]; rewrite ?Z.lxor_0_r, ?Z.lxor_0_l, ?Z.lxor_nilpotent; reflexivity.
Qed.

Lemma shift1_0 : shift1 0 = 0.
Proof. reflexivity. Qed.

Lemma shifts_ind (P : Z -> Z -> Prop) z : (forall n, 0 <= n -> P n (shifts n z) -> P (n + 1) (shift1 (shifts n z))) -> P 0 z ->
  forall n, 0 <= n -> P n (shifts n z).
Proof.
  intros S B n N. pattern n. apply natlike_ind; [exact B| |exact N]. intros m M H. replace (Z.succ m) with (1 + m) by lia.
  rewrite shifts_add by lia. rewrite shifts_1. replace (1 + m) with (m + 1) by lia. now apply S.
Qed.

Lemma shifts_lxor n a b : 0 <= n -> shifts n (Z.lxor a b) = Z.lxor (shifts n a) (shifts n b).
Proof.
  intros N. pattern n. apply natlike_ind; [reflexivity| |exact N]. intros m M H. replace (Z.succ m) with (1 + m) by lia.
  rewrite !shifts_add, !shifts_1, H by lia. apply shift1_lxor.
Qed.

Lemma shifts_zero n : 0 <= n -> shifts n 0 = 0.
Proof. intros N. apply (shifts_ind (fun _ v => v = 0)); [intros m _ ->; reflexivity|reflexivity|exact N]. Qed.

Lemma shift1_shiftl z : shift1 (Z.shiftl z 1) = z.
Proof.
  unfold shift1. rewrite Z.shiftl_mul_pow2 by lia. change (2 ^ 1) with 2. rewrite Z.odd_mul. cbn [Z.odd]. rewrite andb_false_r, Z.lxor_0_r.
  rewrite Z.shiftr_div_pow2 by lia. change (2 ^ 1) with 2. apply Z.div_mul. lia.
Qed.

(** Zeros at the low end are shifted out without effect. *)
Lemma shifts_shiftl n k z : 0 <= k <= n -> shifts n (Z.shiftl z k) = shifts (n - k) z.
Proof.
  intros K. replace n with (n - k + k) at 1 by lia. rewrite shifts_add by lia. f_equal.
  assert (G : forall k z, 0 <= k -> shifts k (Z.shiftl z k) = z).
  { intros k' z' K'. revert z'. pattern k'. apply natlike_ind; [intros z'; now rewrite Z.shiftl_0_r| |exact K'].
    intros m M H z'. unfold Z.succ. rewrite shifts_succ by exact M. rewrite <- Z.shiftl_shiftl by lia. rewrite shift1_shiftl. apply H. }
  apply G. lia.
Qed.

(** The byte that falls out determines what is subtracted. *)
Lemma shifts_byte z : shifts 8 z = Z.lxor (Z.shiftr z 8) (shifts 8 (Z.land z 255)).
Proof.
  assert (S : z = Z.lxor (Z.shiftl (Z.shiftr z 8) 8) (Z.land z 255)).
  { apply Z.bits_inj'. intros i I. rewrite Z.lxor_spec, Z.land_spec, Z.shiftl_spec by exact I. change 255 with (Z.ones 8).
    destruct (Z_lt_dec i 8) as [L|L].
    - rewrite (Z.testbit_neg_r _ (i - 8)) by lia. rewrite Z.ones_spec_low by lia. now rewrite andb_true_r.
    - rewrite Z.shiftr_spec by lia. rewrite Z.ones_spec_high by lia. rewrite andb_false_r, xorb_false_r. f_equal. lia. }
  rewrite S at 1. rewrite shifts_lxor, shifts_shiftl by lia. reflexivity.
Qed.

Context (Hp : in_u 32 poly).

Lemma shift1_range z : in_u 32 z -> in_u 32 (shift1 z).
Proof. intros H. unfold shift1. apply in_u_lxor; [lia|apply in_u_shiftr; [lia|lia|exact H]|]. destruct (Z.odd z); [exact Hp|unfold in_u; lia]. Qed.

Lemma shifts_range n z : 0 <= n -> in_u 32 z -> in_u 32 (shifts n z).
Proof. intros N H. apply (shifts_ind (fun _ v => in_u 32 v)); [intros m _; apply shift1_range|exact H|exact N]. Qed.

(** ** Multiplication of polynomials

    Bit 31 of a word is the coefficient of 1.  [ev k l m] applies the polynomial of the low [k] bits of [l]
    to the operator [shift1] at [m]. *)
Fixpoint ev (k : nat) (l m : Z) : Z :=
  match k with
  | O => 0
  | S k' => Z.lxor (if Z.testbit l (Z.of_nat k') then m else 0) (ev k' l (shift1 m))
  end.

Definition ONE : Z := 2 ^ 31.

Lemma ev_lxor k l : forall a b, ev k l (Z.lxor a b) = Z.lxor (ev k l a) (ev k l b).
Proof.
  induction k as [|k IH]; intros a b; [reflexivity|]. cbn [ev]. rewrite shift1_lxor, IH.
  destruct (Z.testbit l (Z.of_nat k)); [|now rewrite !Z.lxor_0_l].
  rewrite !Z.lxor_assoc. f_equal. rewrite <- !Z.lxor_assoc. f_equal. apply Z.lxor_comm.
Qed.

Lemma ev_0 k l : ev k l 0 = 0.
Proof. induction k as [|k IH]; [reflexivity|]. cbn [ev]. rewrite shift1_0, IH. now destruct (Z.testbit l (Z.of_nat k)). Qed.

Lemma ev_shift1 k l : forall m, ev k l (shift1 m) = shift1 (ev k l m).
Proof.
  induction k as [|k IH]; intros m; [reflexivity|]. cbn [ev]. rewrite shift1_lxor, IH. f_equal. now destruct (Z.testbit l (Z.of_nat k)).
Qed.

Lemma ev_shifts k l n m : 0 <= n -> ev k l (shifts n m) = shifts n (ev k l m).
Proof.
  intros N. pattern n. apply natlike_ind; [reflexivity| |exact N]. intros j J H. replace (Z.succ j) with (1 + j) by lia.
  rewrite !shifts_add, !shifts_1 by lia. now rewrite ev_shift1, H.
Qed.

Lemma ev_comm k l k' l' : forall m, ev k l (ev k' l' m) = ev k' l' (ev k l m).
Proof.
  induction k' as [|k' IH]; intros m; cbn [ev]; [apply ev_0|]. rewrite ev_lxor, IH, ev_shift1. f_equal.
  destruct (Z.testbit l' (Z.of_nat k')); [reflexivity|apply ev_0].
Qed.

Lemma one_bit (b : bool) k i : 0 <= k -> 0 <= i -> Z.testbit (if b then 2 ^ k else 0) i = b && (i =? k).
Proof.
  intros K I. destruct b; cbn [andb]; [|apply Z.bits_0]. rewrite Z.pow2_bits_eqb by exact K. apply Z.eqb_sym.
Qed.

Lemma low_bits_split k l : l mod 2 ^ (Z.of_nat (S k)) = Z.lxor (if Z.testbit l (Z.of_nat k) then 2 ^ Z.of_nat k else 0) (l mod 2 ^ Z.of_nat k).
Proof.
  apply Z.bits_inj'. intros i I. rewrite Z.lxor_spec, one_bit, !Z.testbit_mod_pow2 by lia.
  destruct (Z.eqb_spec i (Z.of_nat k)) as [-> |N].
  - rewrite Z.ltb_irrefl, (proj2 (Z.ltb_lt _ _)) by lia. cbn [andb]. now rewrite andb_true_r, xorb_false_r.
  - rewrite andb_false_r, xorb_false_l. f_equal. apply eq_true_iff_eq. rewrite !Z.ltb_lt. lia.
Qed.

Lemma ev_top k : forall l, ev (S k) l (2 ^ Z.of_nat k) = l mod 2 ^ Z.of_nat (S k).
Proof.
  induction k as [|k IH]; intros l.
  - cbn [ev]. rewrite Z.lxor_0_r. rewrite low_bits_split. cbn. now rewrite Z.mod_1_r, Z.lxor_0_r.
  - rewrite low_bits_split, <- IH. remember (S k) as j. cbn [ev]. f_equal. subst j. f_equal.
    rewrite Nat2Z.inj_succ, <- Z.add_1_r, Z.pow_add_r, <- Z.shiftl_mul_pow2 by lia. apply shift1_shiftl.
Qed.

Lemma ev_ONE l : in_u 32 l -> ev 32 l ONE = l.
Proof. intros H. unfold ONE. change (2 ^ 31) with (2 ^ Z.of_nat 31). rewrite ev_top. apply Z.mod_small. exact H. Qed.

(** Multiplication is commutative, and multiplication by a power of X is shifting. *)
Lemma ev_sym l m : in_u 32 l -> in_u 32 m -> ev 32 l m = ev 32 m l.
Proof. intros L M. rewrite <- (ev_ONE m M) at 1. rewrite ev_comm. now rewrite (ev_ONE l L). Qed.

Lemma ONE_range : in_u 32 ONE.
Proof. unfold in_u, ONE. lia. Qed.

Lemma ev_power n m : 0 <= n -> in_u 32 m -> ev 32 (shifts n ONE) m = shifts n m.
Proof.
  intros N M. rewrite ev_sym; [|apply shifts_range; [exact N|apply ONE_range]|exact M]. rewrite ev_shifts by exact N. now rewrite ev_ONE.
Qed.

Lemma ev_range k l : forall m, in_u 32 m -> in_u 32 (ev k l m).
Proof.
  induction k as [|k IH]; intros m M; cbn [ev]; [unfold in_u; lia|]. apply in_u_lxor; [lia| |apply IH; now apply shift1_range].
  destruct (Z.testbit l (Z.of_nat k)); [exact M|unfold in_u; lia].
Qed.
End Register.

(** ** The code's multiplication *)
Lemma land_1 z : negb ((z .& 1) =? 0) = Z.odd z.
Proof. change 1 with (Z.ones 1). rewrite Z.land_ones by lia. change (2 ^ 1) with 2. rewrite Zmod_odd. now destruct (Z.odd z). Qed.

Lemma advance_shift1 poly z : advance poly z = shift1 poly z.
Proof. unfold advance, shift1. rewrite land_1. destruct (Z.odd z); [reflexivity|now rewrite Z.lxor_0_r]. Qed.

Lemma land_pow2 l k : 0 <= k -> negb ((l .& 2 ^ k) =? 0) = Z.testbit l k.
Proof.
  intros K. destruct (Z.testbit l k) eqn:E.
  - apply negb_true_iff, Z.eqb_neq. intros Q. assert (B : Z.testbit (l .& 2 ^ k) k = true) by (rewrite Z.land_spec, E, Z.pow2_bits_true by exact K; reflexivity).
    rewrite Q, Z.bits_0 in B. discriminate.
  - apply negb_false_iff, Z.eqb_eq. apply Z.bits_inj'. intros i I. rewrite Z.land_spec, Z.pow2_bits_eqb, Z.bits_0 by exact K.
    destruct (Z.eqb_spec k i) as [<- |N]; [now rewrite E|apply andb_false_r].
Qed.

Lemma poly_loop_spec poly l : forall k fuel m result, (k < fuel)%nat ->
  poly_loop fuel l (2 ^ Z.of_nat k / 2) m result poly = Z.lxor result (ev poly k l m).
Proof.
  induction k as [|k IH]; intros [|fuel] m result F; try lia; cbn [poly_loop ev].
  - cbn [Z.of_nat Z.pow Z.div]. now rewrite Z.lxor_0_r.
  - assert (E : 2 ^ Z.of_nat (S k) / 2 = 2 ^ Z.of_nat k) by (rewrite Nat2Z.inj_succ, <- Z.add_1_r, Z.pow_add_r, Z.div_mul by lia; reflexivity).
    rewrite E, (proj2 (Z.eqb_neq _ _)) by (pose proof (Z.pow_pos_nonneg 2 (Z.of_nat k)); lia). rewrite land_pow2 by lia.
    fold (advance poly m). rewrite advance_shift1, Z.shiftr_div_pow2 by lia. change (2 ^ 1) with 2. rewrite IH by lia.
    destruct (Z.testbit l (Z.of_nat k)); [apply Z.lxor_assoc|now rewrite Z.lxor_0_l].
Qed.

Lemma PolyMultiply_spec poly l m : PolyMultiply l m poly = ev poly 32 l m.
Proof. unfold PolyMultiply. change 0x80000000 with (2 ^ Z.of_nat 32 / 2). rewrite poly_loop_spec by lia. apply Z.lxor_0_l. Qed.

(** The polynomial of a sum of positions. *)
Lemma ev_split poly b l : forall a m, ev poly (a + b) l m = Z.lxor (ev poly a (Z.shiftr l (Z.of_nat b)) m) (ev poly b l (shifts poly (Z.of_nat a) m)).
Proof.
  induction a as [|a IH]; intros m; [cbn [Nat.add ev]; now rewrite Z.lxor_0_l|]. cbn [Nat.add ev]. rewrite IH, Z.shiftr_spec by lia.
  rewrite Z.lxor_assoc. f_equal; [now rewrite Nat2Z.inj_add|]. do 2 f_equal. rewrite Nat2Z.inj_succ. unfold Z.succ. now rewrite shifts_succ by lia.
Qed.

Section Multiply.
Context (poly z : Z) (Hp : in_u 32 poly) (Hz : in_u 32 z).
Context (table : list Z) (Ht : forall c, 0 <= c < 256 -> read table c = Some (shifts poly 8 c)).

Definition multiples : list Z := [0; z <<[64] 1; (z <<[64] 1) <<[64] 1; Z.lxor ((z <<[64] 1) <<[64] 1) (z <<[64] 1)].

Lemma shiftl_small k : 0 <= k <= 8 -> wrapu 64 (Z.shiftl z k) = Z.shiftl z k.
Proof.
  intros K. apply wrapu_small. rewrite Z.shiftl_mul_pow2 by lia. unfold in_u in Hz.
  assert (2 ^ k <= 2 ^ 8) by (apply Z.pow_le_mono_r; lia). assert (0 < 2 ^ k) by (apply Z.pow_pos_nonneg; lia). change (2 ^ 8) with 256 in *. nia.
Qed.

(** The multiple for a pair of bits. *)
Definition pair_multiple (x : Z) : Z := Z.lxor (if Z.testbit x 1 then Z.shiftl z 2 else 0) (if Z.testbit x 0 then Z.shiftl z 1 else 0).

Lemma multiples_read x : 0 <= x < 4 -> read multiples x = Some (pair_multiple x).
Proof.
  intros H. unfold multiples. rewrite !(shiftl_small 1) by lia. replace (Z.shiftl (Z.shiftl z 1) 1) with (Z.shiftl z 2) by (rewrite Z.shiftl_shiftl by lia; reflexivity).
  rewrite (shiftl_small 2) by lia. assert (x = 0 \/ x = 1 \/ x = 2 \/ x = 3) as [-> |[-> |[-> | ->]]] by lia;
    cbn [read Z.leb Z.compare Z.to_nat Pos.to_nat Pos.iter_op nth_error Nat.add]; unfold pair_multiple; cbn [Z.testbit Pos.testbit Pos.pred_N]; rewrite ?Z.lxor_0_l, ?Z.lxor_0_r; reflexivity.
Qed.

Lemma pair_range l k : 0 <= k -> 0 <= (l >> k) .& 3 < 4.
Proof. intros K. change 3 with (Z.ones 2). rewrite Z.land_ones by lia. apply Z.mod_pos_bound. lia. Qed.

Lemma pair_bits l k j : 0 <= k -> 0 <= j < 2 -> Z.testbit ((l >> k) .& 3) j = Z.testbit l (k + j).
Proof.
  intros K J. change 3 with (Z.ones 2). rewrite Z.land_spec, Z.ones_spec_low, andb_true_r, Z.shiftr_spec by lia. f_equal. lia.
Qed.

Lemma pair_shift l k s : 0 <= k -> 0 <= s -> s + 2 <= 8 -> wrapu 64 (Z.shiftl (pair_multiple ((l >> k) .& 3)) s) = Z.shiftl (pair_multiple ((l >> k) .& 3)) s /\
  shifts poly 8 (Z.shiftl (pair_multiple ((l >> k) .& 3)) s) =
  Z.lxor (if Z.testbit l (k + 1) then shifts poly (6 - s) z else 0) (if Z.testbit l k then shifts poly (7 - s) z else 0).
Proof.
  intros K S1 S2. unfold pair_multiple. rewrite !pair_bits by lia. rewrite Z.add_0_r. rewrite !Z.shiftl_lxor.
  assert (D : forall b c, 1 <= c <= 2 -> Z.shiftl (if b : bool then Z.shiftl z c else 0) s = if b then Z.shiftl z (c + s) else 0).
  { intros b c C. destruct b; [now rewrite Z.shiftl_shiftl by lia|apply Z.shiftl_0_l]. }
  rewrite !D by lia. split.
  - assert (B : forall b c, 1 <= c <= 2 -> in_u 64 (if b : bool then Z.shiftl z (c + s) else 0)).
    { intros b c C. destruct b; [|unfold in_u; lia]. rewrite <- (shiftl_small (c + s)) by lia. apply wrapu_range. lia. }
    apply wrapu_small. apply in_u_lxor; [lia|apply B; lia|apply B; lia].
  - rewrite shifts_lxor by lia.
    assert (Q : forall b c, 1 <= c <= 2 -> shifts poly 8 (if b : bool then Z.shiftl z (c + s) else 0) = if b then shifts poly (8 - c - s) z else 0).
    { intros b c C. destruct b; [|now apply shifts_zero]. rewrite shifts_shiftl by lia. f_equal. lia. }
    rewrite !Q by lia. f_equal; repeat f_equal; lia.
Qed.

Lemma ev_byte l : ev poly 8 l z =
  Z.lxor (if Z.testbit l 7 then shifts poly 0 z else 0) (Z.lxor (if Z.testbit l 6 then shifts poly 1 z else 0)
  (Z.lxor (if Z.testbit l 5 then shifts poly 2 z else 0) (Z.lxor (if Z.testbit l 4 then shifts poly 3 z else 0)
  (Z.lxor (if Z.testbit l 3 then shifts poly 4 z else 0) (Z.lxor (if Z.testbit l 2 then shifts poly 5 z else 0)
  (Z.lxor (if Z.testbit l 1 then shifts poly 6 z else 0) (Z.lxor (if Z.testbit l 0 then shifts poly 7 z else 0) 0))))))).
Proof. reflexivity. Qed.

Lemma byte_product_spec l : exists prod, byte_product multiples l = Some prod /\ shifts poly 8 prod = ev poly 8 l z.
Proof.
  unfold byte_product. change (l .& 3) with ((l >> 0) .& 3). rewrite !multiples_read by (apply pair_range; lia). cbn [obind]. eexists. split; [reflexivity|].
  destruct (pair_shift l 0 0) as (_ & P0); [lia..|]. rewrite Z.shiftl_0_r in P0.
  destruct (pair_shift l 2 2) as (W2 & P2); [lia..|]. destruct (pair_shift l 4 4) as (W4 & P4); [lia..|]. destruct (pair_shift l 6 6) as (W6 & P6); [lia..|].
  rewrite W2, W4, W6, !shifts_lxor, P0, P2, P4, P6, ev_byte by lia.
  change (6 - 0) with 6. change (7 - 0) with 7. change (6 - 2) with 4. change (7 - 2) with 5. change (6 - 4) with 2. change (7 - 4) with 3.
  change (6 - 6) with 0. change (7 - 6) with 1. change (0 + 1) with 1. change (2 + 1) with 3. change (4 + 1) with 5. change (6 + 1) with 7.
  apply Z.bits_inj'. intros i I. rewrite !Z.lxor_spec, Z.bits_0. btauto.
Qed.

Lemma low_byte_range r : 0 <= r .& 0xff < 256.
Proof. change 0xff with (Z.ones 8). rewrite Z.land_ones by lia. apply Z.mod_pos_bound. lia. Qed.

Lemma multiply_bytes_spec : forall n l result,
  multiply_bytes n table multiples l result = Some (Z.lxor (shifts poly (8 * Z.of_nat n) result) (ev poly (8 * n) l z)).
Proof.
  induction n as [|n IH]; intros l result; [cbn [multiply_bytes Nat.mul ev]; now rewrite Z.lxor_0_r|]. cbn [multiply_bytes].
  destruct (byte_product_spec l) as (prod & P & E). rewrite P. cbn [obind]. rewrite Ht by apply low_byte_range. cbn [obind]. rewrite <- shifts_byte, shifts_lxor, E by lia.
  rewrite IH. f_equal. replace (8 * S n)%nat with (8 * n + 8)%nat by lia. rewrite ev_split, ev_shifts by lia.
  rewrite shifts_lxor by lia. replace (8 * Z.of_nat (S n)) with (8 * Z.of_nat n + 8) by lia. rewrite shifts_add by lia.
  replace (Z.of_nat (8 * n)) with (8 * Z.of_nat n) by lia. change (Z.of_nat 8) with 8. rewrite !Z.lxor_assoc. f_equal. apply Z.lxor_comm.
Qed.

Lemma multiply_word l : multiply_bytes 4 table multiples l 0 = Some (ev poly 32 l z).
Proof. rewrite multiply_bytes_spec. rewrite shifts_zero by lia. now rewrite Z.lxor_0_l. Qed.
End Multiply.

(** ** Extension by zeros *)
Section Zeroes.
Context (poly : Z) (Hp : in_u 32 poly) (table zeroes : list Z).
Context (Ht : forall c, 0 <= c < 256 -> read table c = Some (shifts poly 8 c)).
Context (Hz : forall a b, 1 <= a < 16 -> 0 <= b < 16 -> read zeroes (a - 1 + 15 * b) = Some (shifts poly (8 * (a * 16 ^ b)) ONE)).

Lemma power_range n : 0 <= n -> in_u 32 (shifts poly n ONE).
Proof. intros N. apply shifts_range; [exact Hp|exact N|apply ONE_range]. Qed.

Lemma length_digit n : 0 <= n .& (ZEROES_BASE - 1) < 16 /\ n .& (ZEROES_BASE - 1) = n mod 16.
Proof. change (ZEROES_BASE - 1) with (Z.ones 4). rewrite Z.land_ones by lia. change (2 ^ 4) with 16. split; [apply Z.mod_pos_bound; lia|reflexivity]. Qed.

Lemma zeroes_loop_spec : forall fuel b len l, in_u 32 l -> 0 <= b -> b + Z.of_nat fuel = 16 -> 0 <= len < 16 ^ Z.of_nat fuel ->
  zeroes_loop fuel zeroes table (15 * b) len l = Some (shifts poly (8 * (len * 16 ^ b)) l).
Proof.
  induction fuel as [|fuel IH]; intros b len l L B F Len; cbn [zeroes_loop].
  - change (16 ^ Z.of_nat 0) with 1 in Len. replace len with 0 by lia. reflexivity.
  - destruct (Z.eqb_spec len 0) as [-> |N]; [reflexivity|]. destruct (length_digit len) as (C & E). set (c := len .& (ZEROES_BASE - 1)) in *.
    assert (P : 0 < 16 ^ b) by (apply Z.pow_pos_nonneg; lia). pose proof (Z.div_mod len 16 ltac:(lia)) as D.
    change (15 * b + (ZEROES_BASE - 1)) with (15 * b + 15). replace (15 * b + 15) with (15 * (b + 1)) by lia.
    unfold ZEROES_BASE_LG. rewrite Z.shiftr_div_pow2 by lia. change (2 ^ 4) with 16.
    assert (Lq : 0 <= len / 16 < 16 ^ Z.of_nat fuel).
    { split; [apply Z.div_pos; lia|]. apply Z.div_lt_upper_bound; [lia|]. rewrite Nat2Z.inj_succ in Len. unfold Z.succ in Len. rewrite Z.pow_add_r in Len by lia. lia. }
    assert (G : shifts poly (8 * (len / 16 * 16 ^ (b + 1))) (shifts poly (8 * (c * 16 ^ b)) l) = shifts poly (8 * (len * 16 ^ b)) l).
    { rewrite <- shifts_add by (try apply Z.mul_nonneg_nonneg; try apply Z.mul_nonneg_nonneg; try apply Z.pow_nonneg; lia).
      f_equal. rewrite Z.pow_add_r by lia. rewrite E. nia. }
    destruct (Z.eqb_spec c 0) as [C0|C0]; cbn [negb obind].
    + rewrite IH; [|exact L|lia|lia|exact Lq]. f_equal. rewrite <- G, C0. reflexivity.
    + replace (c + 15 * b - 1) with (c - 1 + 15 * b) by lia. rewrite Hz by lia. cbn [obind].
      assert (Nn : 0 <= 8 * (c * 16 ^ b)) by nia. fold (multiples (shifts poly (8 * (c * 16 ^ b)) ONE)).
      rewrite (multiply_word poly _ (power_range _ Nn) table Ht). cbn [obind].
      rewrite ev_sym, ev_power; auto using power_range.
      rewrite wrapu_small by (now apply shifts_range). rewrite IH; [|now apply shifts_range|lia|lia|exact Lq]. f_equal. exact G.
Qed.

Lemma ExtendByZeroesImpl_spec crc len : in_u 32 crc -> 0 <= len < 2 ^ 64 -> ExtendByZeroesImpl zeroes table crc len = Some (shifts poly (8 * len) crc).
Proof.
  intros C L. unfold ExtendByZeroesImpl. destruct (Z.eqb_spec len 0) as [-> |N]; [reflexivity|]. cbn [negb].
  change 0 with (15 * 0) at 1. rewrite zeroes_loop_spec; [|exact C|lia|lia|change (16 ^ Z.of_nat 16) with (2 ^ 64); lia].
  do 2 f_equal. change (16 ^ 0) with 1. lia.
Qed.
End Zeroes.

(** ** The tables that are computed *)
Definition table_check (poly n : Z) (t : list Z) : bool :=
  (length t =? 256)%nat && forallb_below 256 (fun c => nth (Z.to_nat c) t 0 =? shifts poly n c).

Lemma table_checked poly n t : table_check poly n t = true -> forall c, 0 <= c < 256 -> read t c = Some (shifts poly n c).
Proof.
  intros H c C. apply andb_true_iff in H as (L & F). apply Nat.eqb_eq in L. pose proof (forallb_below_spec _ _ F c ltac:(lia)) as F'. clear F. rename F' into F.
  apply Z.eqb_eq in F. rewrite (read_some t c 0) by (rewrite L; lia). now rewrite F.
Qed.

(** The entry for [a] times [16 ^ b] zero bytes. *)
Definition zentry (z : list Z) (a b : Z) : Z := nth (Z.to_nat (a - 1 + 15 * b)) z 0.

(** Each entry is the product of the one before it with the first of its row. *)
Definition zeroes_check (poly : Z) (z : list Z) : bool :=
  (240 <=? length z)%nat && (zentry z 1 0 =? shifts poly 8 ONE) &&
  forallb_below 16 (fun b =>
    forallb_below 14 (fun a => zentry z (a + 2) b =? ev poly 32 (zentry z (a + 1) b) (zentry z 1 b)) &&
    ((b =? 15) || (zentry z 1 (b + 1) =? ev poly 32 (zentry z 15 b) (zentry z 1 b)))).

Section ZeroesChecked.
Context (poly : Z) (Hp : in_u 32 poly) (z : list Z) (Hc : zeroes_check poly z = true).

Lemma zeroes_rows : (240 <= length z)%nat /\ zentry z 1 0 = shifts poly 8 ONE /\
  (forall a b, 1 <= a < 15 -> 0 <= b < 16 -> zentry z (a + 1) b = ev poly 32 (zentry z a b) (zentry z 1 b)) /\
  (forall b, 0 <= b < 15 -> zentry z 1 (b + 1) = ev poly 32 (zentry z 15 b) (zentry z 1 b)).
Proof.
  unfold zeroes_check in Hc. apply andb_true_iff in Hc as (H & R). apply andb_true_iff in H as (L & F). apply Nat.leb_le in L. apply Z.eqb_eq in F.
  pose proof (forallb_below_spec _ _ R) as R'. split; [exact L|]. split; [exact F|].
  assert (Rb : forall b, 0 <= b < 16 -> (forall a, 0 <= a < 14 -> zentry z (a + 2) b = ev poly 32 (zentry z (a + 1) b) (zentry z 1 b)) /\
    (b = 15 \/ zentry z 1 (b + 1) = ev poly 32 (zentry z 15 b) (zentry z 1 b))).
  { intros b B. specialize (R' b ltac:(lia)). apply andb_true_iff in R' as (R1 & R2). pose proof (forallb_below_spec _ _ R1) as R3. split.
    - intros a A. specialize (R3 a ltac:(lia)). now apply Z.eqb_eq in R3.
    - apply orb_true_iff in R2 as [R2|R2]; apply Z.eqb_eq in R2; auto. }
  split; [|intros b B; destruct (Rb b ltac:(lia)) as (_ & [Q|Q]); [lia|exact Q]].
  intros a b A B. destruct (Rb b B) as (Q & _). specialize (Q (a - 1) ltac:(lia)). replace (a - 1 + 2) with (a + 1) in Q by lia. now replace (a - 1 + 1) with a in Q by lia.
Qed.

Lemma power_product m n : 0 <= m -> 0 <= n -> ev poly 32 (shifts poly m ONE) (shifts poly n ONE) = shifts poly (m + n) ONE.
Proof. intros M N. rewrite ev_power; [now rewrite shifts_add|exact Hp|exact M|]. apply shifts_range; [exact Hp|exact N|apply ONE_range]. Qed.

Lemma zentry_row b : 0 <= b < 16 -> zentry z 1 b = shifts poly (8 * 16 ^ b) ONE ->
  forall a, 1 <= a <= 15 -> zentry z a b = shifts poly (8 * (a * 16 ^ b)) ONE.
Proof.
  intros B F a A. destruct zeroes_rows as (_ & _ & Row & _). assert (P : 0 < 16 ^ b) by (apply Z.pow_pos_nonneg; lia).
  revert A. replace a with (a - 1 + 1) by lia. destruct (Z_le_dec 0 (a - 1)) as [N|N]; [|lia]. revert N. generalize (a - 1). clear a.
  intros n N. pattern n. apply natlike_ind; [| |exact N].
  - intros _. change (0 + 1) with 1. rewrite F. f_equal. lia.
  - intros k K IH A. unfold Z.succ in *. rewrite Row by lia. rewrite IH, F by lia. rewrite power_product by nia. f_equal. lia.
Qed.

Lemma zeroes_checked a b : 1 <= a < 16 -> 0 <= b < 16 -> read z (a - 1 + 15 * b) = Some (shifts poly (8 * (a * 16 ^ b)) ONE).
Proof.
  intros A B. destruct zeroes_rows as (L & F & Row & Next). rewrite (read_some z _ 0) by lia. f_equal. fold (zentry z a b).
  apply zentry_row; [exact B| |lia]. destruct B as (B & B'). revert B'. pattern b. apply natlike_ind; [| |exact B].
  - intros _. rewrite F. reflexivity.
  - intros k K IH K'. unfold Z.succ in *. rewrite Next by lia. rewrite (zentry_row k) by (lia || apply IH; lia). rewrite IH by lia.
    assert (P : 0 < 16 ^ k) by (apply Z.pow_pos_nonneg; lia). rewrite power_product by nia. f_equal. rewrite Z.pow_add_r by lia. lia.
Qed.
End ZeroesChecked.

Definition kCrc32cUnextendPoly : Z := ReverseBits (wrapu 32 (Z.lxor (kCrc32cPoly <<[32] 1) 1)).

Record engine_ok (e : CRC32) : Prop := {
  k_table0 : forall c, 0 <= c < 256 -> read (table0_ e) c = Some (shifts kCrc32cPoly 8 c);
  k_table : forall j c, 0 <= j < 4 -> 0 <= c < 256 -> get2 (table_ e) j c = Some (shifts kCrc32cPoly (8 * (j + 1) + 96) c);
  k_zeroes : forall a b, 1 <= a < 16 -> 0 <= b < 16 -> read (zeroes_ e) (a - 1 + 15 * b) = Some (shifts kCrc32cPoly (8 * (a * 16 ^ b)) ONE);
  k_reverse_table0 : forall c, 0 <= c < 256 -> read (reverse_table0_ e) c = Some (shifts kCrc32cUnextendPoly 8 c);
  k_reverse_zeroes : forall a b, 1 <= a < 16 -> 0 <= b < 16 ->
    read (reverse_zeroes_ e) (a - 1 + 15 * b) = Some (shifts kCrc32cUnextendPoly (8 * (a * 16 ^ b)) ONE)
}.

Definition engine_check (e : CRC32) : bool :=
  table_check kCrc32cPoly 8 (table0_ e) && zeroes_check kCrc32cPoly (zeroes_ e) &&
  table_check kCrc32cUnextendPoly 8 (reverse_table0_ e) && zeroes_check kCrc32cUnextendPoly (reverse_zeroes_ e) &&
  match table_ e with
  | [t0; t1; t2; t3] => table_check kCrc32cPoly 104 t0 && table_check kCrc32cPoly 112 t1 && table_check kCrc32cPoly 120 t2 && table_check kCrc32cPoly 128 t3
  | _ => false
  end.

Lemma InitTables_ok : exists e, InitTables = Some e /\ engine_ok e.
Proof.
  assert (C : match InitTables with Some e => engine_check e | None => false end = true) by (vm_compute; reflexivity).
  destruct InitTables as [e|]; [|discriminate]. exists e. split; [reflexivity|]. unfold engine_check in C. rewrite !andb_true_iff in C.
  destruct C as ((((A & B) & D) & F) & T). assert (P1 : in_u 32 kCrc32cPoly) by (unfold in_u; vm_compute; auto; split; discriminate || reflexivity).
  assert (P2 : in_u 32 kCrc32cUnextendPoly) by (unfold in_u; vm_compute; split; discriminate || reflexivity).
  split; [now apply table_checked| |now apply zeroes_checked|now apply table_checked|now apply zeroes_checked].
  destruct (table_ e) as [|t0 [|t1 [|t2 [|t3 [|]]]]]; try discriminate. rewrite !andb_true_iff in T. destruct T as (((T0 & T1) & T2) & T3).
  intros j c J Hc. unfold get2. assert (j = 0 \/ j = 1 \/ j = 2 \/ j = 3) as [-> |[-> |[-> | ->]]] by lia;
    cbn [read Z.leb Z.compare Z.to_nat Pos.to_nat Pos.iter_op nth_error Nat.add obind]; eapply table_checked; eassumption.
Qed.

(** ** Reversal *)

(** A round of [ReverseBits] exchanges bits that are [s] apart. *)
Definition swap_check (s hi lo : Z) : bool :=
  forallb_below 32 (fun i =>
    if Z.testbit hi (i + s) then (Z.lxor i s =? i + s) && negb (Z.testbit lo (i - s))
    else Z.testbit lo (i - s) && (Z.lxor i s =? i - s)).

Lemma swap_bit s hi lo b i : 0 <= s -> swap_check s hi lo = true -> 0 <= i < 32 ->
  Z.testbit (((b .& hi) >> s) .| ((b .& lo) <<[32] s)) i = Z.testbit b (Z.lxor i s).
Proof.
  intros S C I. pose proof (forallb_below_spec _ _ C i ltac:(lia)) as H. cbn beta in H.
  rewrite Z.lor_spec, Z.shiftr_spec, Z.land_spec, wrapu_testbit, Z.shiftl_spec, Z.land_spec by lia. rewrite (proj2 (Z.ltb_lt i 32)) by lia. cbn [andb].
  destruct (Z.testbit hi (i + s)).
  - apply andb_true_iff in H as (E & L). apply Z.eqb_eq in E. apply negb_true_iff in L. now rewrite L, E, andb_true_r, andb_false_r, orb_false_r.
  - apply andb_true_iff in H as (L & E). apply Z.eqb_eq in E. now rewrite L, E, andb_true_r, andb_false_r, orb_false_l.
Qed.

Lemma swap_range s hi lo b : 0 <= s -> in_u 32 b -> in_u 32 (((b .& hi) >> s) .| ((b .& lo) <<[32] s)).
Proof.
  intros S B. apply in_u_lor; [lia|apply in_u_shiftr; [lia|exact S|]; apply in_u_land_l; [lia|exact B]|]. apply wrapu_range. lia.
Qed.

Lemma lxor_below_32 i s : 0 <= i < 32 -> 0 <= s < 32 -> 0 <= Z.lxor i s < 32.
Proof. intros I S. apply (in_u_lxor 5); unfold in_u; lia. Qed.

Lemma ReverseBits_spec z : in_u 32 z -> in_u 32 (ReverseBits z) /\ forall i, 0 <= i < 32 -> Z.testbit (ReverseBits z) i = Z.testbit z (31 - i).
Proof.
  intros H. unfold ReverseBits. set (y1 := ((z .& 0xaaaaaaaa) >> 1) .| ((z .& 0x55555555) <<[32] 1)).
  set (y2 := ((y1 .& 0xcccccccc) >> 2) .| ((y1 .& 0x33333333) <<[32] 2)). set (y3 := ((y2 .& 0xf0f0f0f0) >> 4) .| ((y2 .& 0x0f0f0f0f) <<[32] 4)).
  assert (R1 : in_u 32 y1) by (apply swap_range; [lia|exact H]). assert (R2 : in_u 32 y2) by (apply swap_range; [lia|exact R1]).
  assert (R3 : in_u 32 y3) by (apply swap_range; [lia|exact R2]).
  split; [apply (gbswap_range 4); [right; right; now left|exact R3]|].
  assert (Ix : forall i, 0 <= i < 32 -> 8 * (3 - i / 8) + i mod 8 = Z.lxor i 24 /\ Z.lxor (Z.lxor (Z.lxor (Z.lxor i 24) 4) 2) 1 = 31 - i).
  { intros i I. assert (C : forallb_below 32 (fun i => (8 * (3 - i / 8) + i mod 8 =? Z.lxor i 24) && (Z.lxor (Z.lxor (Z.lxor (Z.lxor i 24) 4) 2) 1 =? 31 - i)) = true) by (vm_compute; reflexivity).
    pose proof (forallb_below_spec _ _ C i ltac:(lia)) as Q. apply andb_true_iff in Q as (Q1 & Q2). split; now apply Z.eqb_eq. }
  intros i I. destruct (Ix i I) as (I1 & I2). change (gbswap_32 y3) with (gbswap 4 y3).
  replace i with (8 * (i / 8) + i mod 8) at 1 by (symmetry; apply Z.div_mod; lia).
  rewrite gbswap_testbit; [|right; right; now left|split; [apply Z.div_pos; lia|apply Z.div_lt_upper_bound; lia]|apply Z.mod_pos_bound; lia].
  change (Z.of_nat 4 - 1) with 3. rewrite I1. assert (B1 : 0 <= Z.lxor i 24 < 32) by (apply lxor_below_32; lia).
  unfold y3. rewrite swap_bit; [|lia|vm_compute; reflexivity|exact B1]. assert (B2 : 0 <= Z.lxor (Z.lxor i 24) 4 < 32) by (apply lxor_below_32; lia).
  unfold y2. rewrite swap_bit; [|lia|vm_compute; reflexivity|exact B2]. assert (B3 : 0 <= Z.lxor (Z.lxor (Z.lxor i 24) 4) 2 < 32) by (apply lxor_below_32; lia).
  unfold y1. rewrite swap_bit; [|lia|vm_compute; reflexivity|exact B3]. now rewrite I2.
Qed.

(** Words are equal when their 32 bits are. *)
Lemma word_ext a b : in_u 32 a -> in_u 32 b -> (forall i, 0 <= i < 32 -> Z.testbit a i = Z.testbit b i) -> a = b.
Proof.
  intros A B H. apply Z.bits_inj'. intros i I. destruct (Z_lt_dec i 32) as [L|L]; [apply H; lia|].
  rewrite !(testbit_above 32) by (auto; lia). reflexivity.
Qed.

Lemma ReverseBits_involutive z : in_u 32 z -> ReverseBits (ReverseBits z) = z.
Proof.
  intros H. destruct (ReverseBits_spec z H) as (R & B). destruct (ReverseBits_spec _ R) as (R' & B').
  apply word_ext; [exact R'|exact H|]. intros i I. rewrite B', B by lia. f_equal. lia.
Qed.

Lemma shift1_bit poly z i : 0 <= i -> Z.testbit (shift1 poly z) i = xorb (Z.testbit z (i + 1)) (Z.odd z && Z.testbit poly i).
Proof.
  intros I. unfold shift1. rewrite Z.lxor_spec, Z.shiftr_spec by exact I. f_equal. destruct (Z.odd z); [reflexivity|apply Z.bits_0].
Qed.

(** ** Taking zeros back *)
Section Unextend.
Context (poly rpoly : Z) (Hp : in_u 32 poly) (Hr : in_u 32 rpoly) (Htop : Z.testbit poly 31 = true).
Context (Hrev : rpoly = ReverseBits (wrapu 32 (Z.lxor (poly <<[32] 1) 1))).

Lemma rpoly_bit j : 0 <= j < 32 -> Z.testbit rpoly (31 - j) = if j =? 0 then true else Z.testbit poly (j - 1).
Proof.
  intros J. rewrite Hrev. destruct (ReverseBits_spec (wrapu 32 (Z.lxor (poly <<[32] 1) 1))) as (_ & B); [apply wrapu_range; lia|].
  rewrite B by lia. replace (31 - (31 - j)) with j by lia. rewrite wrapu_testbit, (proj2 (Z.ltb_lt j 32)) by lia. cbn [andb].
  rewrite Z.lxor_spec, wrapu_testbit, (proj2 (Z.ltb_lt j 32)), Z.shiftl_spec by lia. cbn [andb].
  destruct (Z.eqb_spec j 0) as [-> |N]; [now rewrite Z.testbit_neg_r by lia|].
  change 1 with (2 ^ 0) at 2. rewrite Z.pow2_bits_false by lia. apply xorb_false_r.
Qed.

(** One zero bit is taken back by a step of the reversed register. *)
Lemma unshift1 z : in_u 32 z -> shift1 rpoly (ReverseBits (shift1 poly z)) = ReverseBits z.
Proof.
  intros H. pose proof (shift1_range poly Hp z H) as R1. destruct (ReverseBits_spec _ R1) as (R2 & B2). destruct (ReverseBits_spec _ H) as (R0 & B0).
  apply word_ext; [apply shift1_range; assumption|exact R0|]. intros i I. rewrite shift1_bit, B0 by lia.
  assert (Od : Z.odd (ReverseBits (shift1 poly z)) = Z.odd z).
  { rewrite <- Z.bit0_odd, B2 by lia. change (31 - 0) with 31. rewrite shift1_bit by lia. rewrite (testbit_above 32 z) by (auto; lia). now rewrite Htop, andb_true_r, xorb_false_l. }
  rewrite Od. replace i with (31 - (31 - i)) at 2 by lia. rewrite rpoly_bit by lia.
  destruct (Z.eq_dec i 31) as [-> |N].
  - rewrite (testbit_above 32 (ReverseBits _)) by (auto; lia). cbn [Z.sub Z.add Z.opp Z.pos_sub Pos.pred_double Z.eqb]. rewrite andb_true_r, xorb_false_l. now rewrite <- Z.bit0_odd.
  - rewrite (proj2 (Z.eqb_neq (31 - i) 0)) by lia. rewrite B2 by lia. rewrite shift1_bit by lia. replace (31 - (i + 1) + 1) with (31 - i) by lia.
    replace (31 - i - 1) with (31 - (i + 1)) by lia. rewrite xorb_assoc, xorb_nilpotent. apply xorb_false_r.
Qed.

Lemma unshifts n z : 0 <= n -> in_u 32 z -> ReverseBits (shifts rpoly n (ReverseBits (shifts poly n z))) = z.
Proof.
  intros N H. pattern n. apply natlike_ind; [apply ReverseBits_involutive; exact H| |exact N]. intros k K IH.
  replace (shifts poly (Z.succ k) z) with (shift1 poly (shifts poly k z)) by (rewrite <- shifts_1, <- shifts_add by lia; f_equal; lia).
  unfold Z.succ. rewrite shifts_succ by exact K. rewrite unshift1 by (apply shifts_range; assumption). exact IH.
Qed.
End Unextend.

(** ** Extension by bytes *)
Section Bytes.
Context (e : CRC32) (Ok : engine_ok e) (pl : Platform).

#[local] Abbreviation sh := (shifts kCrc32cPoly).
#[local] Opaque shifts.

(** The register after a message, one byte at a time: the specification. *)
Definition feed (l b : Z) : Z := sh 8 (Z.lxor l b).

Definition crc_bytes (l : Z) (bs : list Z) : Z := fold_left feed bs l.

Lemma poly_range : in_u 32 kCrc32cPoly.
Proof. unfold in_u, kCrc32cPoly. lia. Qed.

Lemma lxor_low_high k a b : 0 <= k -> in_u k a -> Z.lxor a (Z.shiftl b k) = a + 2 ^ k * b.
Proof.
  intros K A. rewrite <- lor_lohi by assumption. apply Z.lxor_lor. apply Z.bits_inj'. intros i I. rewrite Z.land_spec, Z.bits_0.
  destruct (Z_lt_dec i k) as [L|L]; [now rewrite Z.shiftl_spec_low, andb_false_r by lia|now rewrite (testbit_above k a) by (auto; lia)].
Qed.

(** A message is a polynomial. *)
Lemma crc_bytes_val : forall bs l, Forall (in_u 8) bs -> crc_bytes l bs = sh (8 * Z.of_nat (length bs)) (Z.lxor l (le_val bs)).
Proof.
  induction bs as [|b bs IH]; intros l F; [cbn [crc_bytes fold_left length le_val]; now rewrite Z.lxor_0_r|]. inversion F as [|? ? B F']. subst.
  cbn [crc_bytes fold_left length]. fold (crc_bytes (feed l b) bs). rewrite IH by exact F'. replace (8 * Z.of_nat (S (length bs))) with (8 * Z.of_nat (length bs) + 8) by lia.
  rewrite shifts_add by lia. f_equal. cbn [le_val]. change 256 with (2 ^ 8). rewrite <- lxor_low_high by (lia || exact B). unfold feed.
  rewrite <- Z.lxor_assoc, (shifts_lxor _ 8 (Z.lxor l b)) by lia. f_equal. now rewrite shifts_shiftl by lia.
Qed.

Lemma crc_bytes_app l a b : crc_bytes l (a ++ b) = crc_bytes (crc_bytes l a) b.
Proof. apply fold_left_app. Qed.

Lemma feed_range l b : in_u 32 l -> in_u 8 b -> in_u 32 (feed l b).
Proof. intros L B. apply shifts_range; [apply poly_range|lia|]. apply in_u_lxor; [lia|exact L|]. unfold in_u in *. lia. Qed.

Lemma crc_range : forall bs l, in_u 32 l -> Forall (in_u 8) bs -> in_u 32 (crc_bytes l bs).
Proof. induction bs as [|b bs IH]; intros l L F; [exact L|]. inversion F. subst. apply IH; [now apply feed_range|assumption]. Qed.

Lemma step_one_byte_spec l b : in_u 32 l -> in_u 8 b -> step_one_byte e l b = Some (feed l b).
Proof.
  intros L B. unfold step_one_byte. assert (C : 0 <= Z.lxor (l .& 0xff) b < 256) by (apply (in_u_lxor 8); [lia|apply low_byte_range|exact B]).
  rewrite (k_table0 e Ok) by exact C. cbn [obind]. f_equal. unfold feed. rewrite (shifts_byte _ (Z.lxor l b)), Z.shiftr_lxor.
  replace (Z.shiftr b 8) with 0 by (symmetry; apply Z.shiftr_eq_0; [apply B|]; destruct (Z.eq_dec b 0) as [-> |N]; [cbn; lia|apply Z.log2_lt_pow2; unfold in_u in B; lia]).
  rewrite Z.lxor_0_r, Z.lxor_comm. f_equal. f_equal. apply Z.bits_inj'. intros i I. change 0xff with (Z.ones 8). rewrite Z.lxor_spec, !Z.land_spec, Z.lxor_spec.
  destruct (Z_lt_dec i 8) as [Q|Q]; [now rewrite Z.ones_spec_low, !andb_true_r by lia|]. now rewrite Z.ones_spec_high, !andb_false_r, (testbit_above 8 b) by (auto; lia).
Qed.

Lemma step_bytes_spec : forall n p l, in_u 32 l -> Forall (in_u 8) p -> (n <= length p)%nat ->
  step_bytes n e l p = Some (crc_bytes l (firstn n p), skipn n p).
Proof.
  induction n as [|n IH]; intros [|b p] l L F N; cbn [length] in N; try lia; try reflexivity. inversion F. subst.
  cbn [step_bytes firstn skipn]. rewrite step_one_byte_spec by assumption. cbn [obind]. rewrite IH by (assumption || lia || now apply feed_range). reflexivity.
Qed.

Lemma zero_bytes_spec : forall n w, zero_bytes n (table0_ e) w = Some (sh (8 * Z.of_nat n) w).
Proof.
  induction n as [|n IH]; intros w; [reflexivity|]. cbn [zero_bytes]. rewrite (k_table0 e Ok) by apply low_byte_range. cbn [obind].
  rewrite <- shifts_byte, IH. replace (8 * Z.of_nat (S n)) with (8 * Z.of_nat n + 8) by lia. now rewrite shifts_add by lia.
Qed.

(** A word of the message. *)
Definition word (p : list Z) : Z := le_val (firstn 4 p).

Lemma Load32_spec p : Forall (in_u 8) p -> (4 <= length p)%nat -> Load32 pl p = Some (word p) /\ in_u 32 (word p).
Proof.
  intros F L. unfold Load32. rewrite (proj2 (Nat.leb_le _ _)) by exact L. split.
  - rewrite little_Load_val; [reflexivity|right; right; now left|exact F|exact L].
  - assert (F4 : Forall (in_u 8) (firstn 4 p)) by (rewrite <- (firstn_skipn 4 p) in F; now apply Forall_app in F as (? & _)).
    pose proof (le_val_range _ F4) as R. rewrite length_firstn in R. replace (Init.Nat.min 4 (length p)) with 4%nat in R by lia. exact R.
Qed.

(** The four tables advance a word past itself and twelve zero bytes. *)
Lemma word_bytes c : in_u 32 c -> c = Z.lxor (c .& 0xff) (Z.lxor (Z.shiftl ((c >> 8) .& 0xff) 8) (Z.lxor (Z.shiftl ((c >> 16) .& 0xff) 16) (Z.shiftl (c >> 24) 24))).
Proof.
  intros C. apply Z.bits_inj'. intros i I. change 0xff with (Z.ones 8). rewrite !Z.lxor_spec, !Z.shiftl_spec, !Z.land_spec by exact I.
  assert (T : forall j k, 0 <= k -> Z.testbit (c >> k) (j - k) = if j - k <? 0 then false else Z.testbit c j).
  { intros j k K. destruct (Z.ltb_spec (j - k) 0) as [L|L]; [apply Z.testbit_neg_r; lia|]. rewrite Z.shiftr_spec by lia. f_equal. lia. }
  assert (O : forall j, Z.testbit (Z.ones 8) j = (0 <=? j) && (j <? 8)).
  { intros j. destruct (Z.leb_spec 0 j) as [A|A]; [|now rewrite Z.testbit_neg_r by lia]. destruct (Z.ltb_spec j 8) as [B|B]; [now apply Z.ones_spec_low|now apply Z.ones_spec_high]. }
  rewrite !T, !O by lia. destruct (Z.testbit c i); zbool; destruct (Z.ltb_spec (i - 8) 0), (Z.ltb_spec (i - 16) 0), (Z.ltb_spec (i - 24) 0), (Z.leb_spec 0 i), (Z.ltb_spec i 8),
    (Z.leb_spec 0 (i - 8)), (Z.ltb_spec (i - 8) 8), (Z.leb_spec 0 (i - 16)), (Z.ltb_spec (i - 16) 8); try lia; reflexivity.
Qed.

Lemma step_swath_spec c p : in_u 32 c -> Forall (in_u 8) p -> (4 <= length p)%nat -> step_swath pl e c p = Some (Z.lxor (word p) (sh 128 c)).
Proof.
  intros C F L. unfold step_swath. destruct (Load32_spec p F L) as (-> & _). cbn [obind].
  rewrite !(k_table e Ok) by (lia || apply low_byte_range || (unfold in_u in C; rewrite Z.shiftr_div_pow2 by lia; split; [apply Z.div_pos; lia|apply Z.div_lt_upper_bound; lia])).
  cbn [obind]. f_equal. rewrite (word_bytes c C) at 5. rewrite !shifts_lxor, !shifts_shiftl by lia. rewrite !Z.lxor_assoc. reflexivity.
Qed.

Lemma step_swath_range c p : in_u 32 c -> Forall (in_u 8) p -> (4 <= length p)%nat -> in_u 32 (Z.lxor (word p) (sh 128 c)).
Proof. intros C F L. apply in_u_lxor; [lia|now apply Load32_spec|]. apply shifts_range; [apply poly_range|lia|exact C]. Qed.

(** What the four buffers stand for: the register that combining them gives. *)
Definition combined (b : Bufs) : Z :=
  let '(b0, b1, b2, b3) := b in Z.lxor (sh 128 b0) (Z.lxor (sh 96 b1) (Z.lxor (sh 64 b2) (sh 32 b3))).

Definition bufs_ok (b : Bufs) : Prop :=
  let '(b0, b1, b2, b3) := b in in_u 32 b0 /\ in_u 32 b1 /\ in_u 32 b2 /\ in_u 32 b3.

Lemma Forall_skipn {A} (P : A -> Prop) n l : Forall P l -> Forall P (skipn n l).
Proof. intros F. rewrite <- (firstn_skipn n l) in F. now apply Forall_app in F as (_ & ?). Qed.

Lemma Forall_firstn {A} (P : A -> Prop) n l : Forall P l -> Forall P (firstn n l).
Proof. intros F. rewrite <- (firstn_skipn n l) in F. now apply Forall_app in F as (? & _). Qed.

(** A word in front of a message. *)
Lemma le_val_word n p : Forall (in_u 8) p -> (4 <= length p)%nat -> le_val (firstn (4 + n) p) = Z.lxor (word p) (Z.shiftl (le_val (firstn n (skipn 4 p))) 32).
Proof.
  intros F L. rewrite <- (firstn_skipn 4 p) at 1. assert (L4 : length (firstn 4 p) = 4%nat) by (rewrite length_firstn; lia).
  replace (4 + n)%nat with (length (firstn 4 p) + n)%nat by lia. rewrite firstn_app_2, le_val_app, L4. rewrite lxor_low_high; [reflexivity|lia|now apply Load32_spec].
Qed.

Lemma stride_val p : Forall (in_u 8) p -> (16 <= length p)%nat -> le_val (firstn 16 p) =
  Z.lxor (word p) (Z.shiftl (Z.lxor (word (skipn 4 p)) (Z.shiftl (Z.lxor (word (skipn 8 p)) (Z.shiftl (word (skipn 12 p)) 32)) 32)) 32).
Proof.
  intros F L. assert (E : forall k, (k <= 12)%nat -> le_val (firstn (4 + (12 - k)) (skipn k p)) =
    Z.lxor (word (skipn k p)) (Z.shiftl (le_val (firstn (12 - k) (skipn (4 + k) p))) 32)).
  { intros k K. rewrite le_val_word; [|apply Forall_skipn; exact F|rewrite length_skipn; lia]. now rewrite skipn_skipn. }
  pose proof (E 0%nat ltac:(lia)) as E0. pose proof (E 4%nat ltac:(lia)) as E4. pose proof (E 8%nat ltac:(lia)) as E8.
  cbn [Nat.add Nat.sub] in E0, E4, E8. change (skipn 0 p) with p in E0. rewrite E0, E4, E8. reflexivity.
Qed.

Lemma step_stride_spec b p : bufs_ok b -> Forall (in_u 8) p -> (16 <= length p)%nat ->
  exists b', step_stride pl e b p = Some (b', skipn 16 p) /\ bufs_ok b' /\ combined b' = crc_bytes (combined b) (firstn 16 p).
Proof.
  destruct b as [[[b0 b1] b2] b3]. intros (B0 & B1 & B2 & B3) F L. unfold step_stride.
  assert (S : forall k, (k <= 12)%nat -> Forall (in_u 8) (skipn k p) /\ (4 <= length (skipn k p))%nat) by (intros k K; split; [now apply Forall_skipn|rewrite length_skipn; lia]).
  destruct (S 4%nat) as (F4 & L4); [lia|]. destruct (S 8%nat) as (F8 & L8); [lia|]. destruct (S 12%nat) as (F12 & L12); [lia|].
  rewrite !step_swath_spec by (assumption || lia). cbn [obind]. eexists. split; [reflexivity|].
  split; [repeat split; apply step_swath_range; assumption || lia|]. cbn [combined].
  rewrite crc_bytes_val by now apply Forall_firstn. rewrite length_firstn. replace (8 * Z.of_nat (Nat.min 16 (length p))) with 128 by lia.
  rewrite stride_val by assumption. rewrite !Z.shiftl_lxor, !Z.shiftl_shiftl by lia. rewrite !shifts_lxor, !shifts_shiftl by lia.
  rewrite <- !(shifts_add _ 128), <- !(shifts_add _ 96), <- !(shifts_add _ 64), <- !(shifts_add _ 32) by lia. change (128 - (32 + 32)) with 64. change (128 - (32 + (32 + 32))) with 32. change (128 - 32) with 96.
  change (128 + 96) with (96 + 128). change (128 + 64) with (64 + 128). change (128 + 32) with (32 + 128).
  apply Z.bits_inj'. intros i I. rewrite !Z.lxor_spec. btauto.
Qed.

Lemma word_step b0 b1 b2 b3 p : bufs_ok (b0, b1, b2, b3) -> Forall (in_u 8) p -> (4 <= length p)%nat ->
  combined (b1, b2, b3, Z.lxor (word p) (sh 128 b0)) = crc_bytes (combined (b0, b1, b2, b3)) (firstn 4 p).
Proof.
  intros (B0 & B1 & B2 & B3) F L. rewrite crc_bytes_val by now apply Forall_firstn. rewrite length_firstn. replace (8 * Z.of_nat (Nat.min 4 (length p))) with 32 by lia.
  fold (word p). cbn [combined]. rewrite !shifts_lxor, <- !shifts_add by lia. change (32 + 128) with (32 + 128). change (32 + 96) with 128. change (32 + 64) with 96. change (32 + 32) with 64.
  apply Z.bits_inj'. intros i I. rewrite !Z.lxor_spec. btauto.
Qed.

(** A loop that has used up a part of the message. *)
Definition consumed (b : Bufs) (p : list Z) (b' : Bufs) (p' : list Z) : Prop :=
  bufs_ok b' /\ Forall (in_u 8) p' /\ (length p' <= length p)%nat /\ crc_bytes (combined b') p' = crc_bytes (combined b) p.

Lemma consumed_refl b p : bufs_ok b -> Forall (in_u 8) p -> consumed b p b p.
Proof. intros B F. split; [exact B|]. split; [exact F|]. split; [lia|reflexivity]. Qed.

Lemma consumed_trans b p b1 p1 b2 p2 : consumed b p b1 p1 -> consumed b1 p1 b2 p2 -> consumed b p b2 p2.
Proof. intros (_ & _ & L1 & C1) (B & F & L2 & C2). split; [exact B|]. split; [exact F|]. split; [lia|congruence]. Qed.

Lemma stride_consumed b p : bufs_ok b -> Forall (in_u 8) p -> (16 <= length p)%nat ->
  exists b', step_stride pl e b p = Some (b', skipn 16 p) /\ consumed b p b' (skipn 16 p) /\ (length (skipn 16 p) = length p - 16)%nat.
Proof.
  intros B F L. destruct (step_stride_spec b p B F L) as (b' & S & B' & C). exists b'. split; [exact S|]. split; [|apply length_skipn].
  split; [exact B'|]. split; [now apply Forall_skipn|]. split; [rewrite length_skipn; lia|].
  rewrite C, <- crc_bytes_app, firstn_skipn. reflexivity.
Qed.

Lemma prefetch_loop_spec : 64 <= kPrefetchHorizon pl -> forall fuel b p, bufs_ok b -> Forall (in_u 8) p -> (length p <= fuel)%nat ->
  exists b' p', prefetch_loop fuel pl e b p = Some (b', p') /\ consumed b p b' p'.
Proof.
  intros H. induction fuel as [|fuel IH]; intros b p B F L; cbn [prefetch_loop]; unfold zlen; rewrite Z.gtb_ltb;
    destruct (Z.ltb_spec (kPrefetchHorizon pl) (Z.of_nat (length p))) as [Q|Q]; try (exists b, p; split; [reflexivity|now apply consumed_refl]); [lia|].
  destruct (stride_consumed b p B F ltac:(lia)) as (b1 & S1 & C1 & L1). rewrite S1. cbn [obind].
  destruct (stride_consumed b1 _ (proj1 C1) (proj1 (proj2 C1)) ltac:(lia)) as (b2 & S2 & C2 & L2). rewrite S2. cbn [obind].
  destruct (stride_consumed b2 _ (proj1 C2) (proj1 (proj2 C2)) ltac:(lia)) as (b3 & S3 & C3 & L3). rewrite S3. cbn [obind].
  destruct (stride_consumed b3 _ (proj1 C3) (proj1 (proj2 C3)) ltac:(lia)) as (b4 & S4 & C4 & L4). rewrite S4. cbn [obind].
  destruct (IH b4 _ (proj1 C4) (proj1 (proj2 C4)) ltac:(lia)) as (b' & p' & R & C). exists b', p'. split; [exact R|].
  eapply consumed_trans; [exact C1|]. eapply consumed_trans; [exact C2|]. eapply consumed_trans; [exact C3|]. eapply consumed_trans; [exact C4|exact C].
Qed.

Lemma stride_loop_spec : forall fuel b p, bufs_ok b -> Forall (in_u 8) p -> (length p <= fuel)%nat ->
  exists b' p', stride_loop fuel pl e b p = Some (b', p') /\ consumed b p b' p'.
Proof.
  induction fuel as [|fuel IH]; intros b p B F L; cbn [stride_loop]; unfold zlen, kSwathSize; rewrite Z.geb_leb;
    destruct (Z.leb_spec 16 (Z.of_nat (length p))) as [Q|Q]; try (exists b, p; split; [reflexivity|now apply consumed_refl]); [lia|].
  destruct (stride_consumed b p B F ltac:(lia)) as (b1 & S1 & C1 & L1). rewrite S1. cbn [obind].
  destruct (IH b1 _ (proj1 C1) (proj1 (proj2 C1)) ltac:(lia)) as (b' & p' & R & C). exists b', p'. split; [exact R|]. now apply (consumed_trans _ _ _ _ _ _ C1).
Qed.

Lemma word_loop_spec : forall fuel b p, bufs_ok b -> Forall (in_u 8) p -> (length p <= fuel)%nat ->
  exists b' p', word_loop fuel pl e b p = Some (b', p') /\ consumed b p b' p'.
Proof.
  induction fuel as [|fuel IH]; intros b p B F L; cbn [word_loop]; unfold zlen; rewrite Z.geb_leb;
    destruct (Z.leb_spec 4 (Z.of_nat (length p))) as [Q|Q]; try (exists b, p; split; [reflexivity|now apply consumed_refl]); [lia|].
  destruct b as [[[b0 b1] b2] b3]. assert (L4 : (4 <= length p)%nat) by lia. pose proof (word_step b0 b1 b2 b3 p B F L4) as W. destruct B as (B0 & B1 & B2 & B3).
  rewrite step_swath_spec by assumption. cbn [obind].
  assert (B' : bufs_ok (b1, b2, b3, Z.lxor (word p) (sh 128 b0))) by (split; [exact B1|split; [exact B2|split; [exact B3|now apply step_swath_range]]]).
  destruct (IH _ (skipn 4 p) B' (Forall_skipn _ 4 p F)) as (b' & p' & R & C); [rewrite length_skipn; lia|]. exists b', p'. split; [exact R|].
  eapply consumed_trans; [|exact C]. split; [exact B'|]. split; [now apply Forall_skipn|]. split; [rewrite length_skipn; lia|].
  rewrite W, <- crc_bytes_app, firstn_skipn. reflexivity.
Qed.

Lemma combine_spec b : bufs_ok b -> let '(b0, b1, b2, b3) := b in
  (do l <- combine_one_word e 0 b0; do l <- combine_one_word e l b1; do l <- combine_one_word e l b2; combine_one_word e l b3) = Some (combined b).
Proof.
  destruct b as [[[b0 b1] b2] b3]. intros _. unfold combine_one_word. rewrite !zero_bytes_spec. cbn [obind]. rewrite zero_bytes_spec. cbn [obind]. rewrite zero_bytes_spec.
  cbn [obind]. rewrite zero_bytes_spec. f_equal. change (8 * Z.of_nat 4) with 32. cbn [combined]. rewrite Z.lxor_0_r, !shifts_lxor, <- !shifts_add by lia.
  change (32 + 32) with 64. change (64 + 32 + 32) with 128. change (64 + 32) with 96. apply Z.bits_inj'. intros i I. rewrite !Z.lxor_spec. btauto.
Qed.

Lemma RoundUp_spec addr : 0 <= addr < 2 ^ 64 - 4 -> addr <= RoundUp 4 addr < addr + 4.
Proof.
  intros A. assert (E : RoundUp 4 addr = 4 * ((addr + 3) / 4)); [|rewrite E; zlia].
  unfold RoundUp. change (4 - 1) with 3. rewrite (wrapu_small 64 (addr + 3)) by lia. exact (land_clear_low 64 2 (addr + 3) ltac:(lia) ltac:(lia) ltac:(unfold in_u; lia)).
Qed.

(** The part of [Extend] that reads words. *)
Lemma words_spec l p : in_u 32 l -> Forall (in_u 8) p -> 64 <= kPrefetchHorizon pl -> (16 <= length p)%nat ->
  exists b0 b1 b2 b3 b' p' b'' p'' c0 c1 c2 c3 p3, Load32 pl p = Some b0 /\ Load32 pl (skipn 4 p) = Some b1 /\ Load32 pl (skipn 8 p) = Some b2 /\
  Load32 pl (skipn 12 p) = Some b3 /\ prefetch_loop (length (skipn 16 p)) pl e (Z.lxor b0 l, b1, b2, b3) (skipn 16 p) = Some (b', p') /\
  stride_loop (length p') pl e b' p' = Some (b'', p'') /\ word_loop (length p'') pl e b'' p'' = Some ((c0, c1, c2, c3), p3) /\
  bufs_ok (c0, c1, c2, c3) /\ Forall (in_u 8) p3 /\ crc_bytes (combined (c0, c1, c2, c3)) p3 = crc_bytes l p.
Proof.
  intros Hl F H L. assert (S : forall k, (k <= 12)%nat -> Load32 pl (skipn k p) = Some (word (skipn k p)) /\ in_u 32 (word (skipn k p))).
  { intros k K. apply Load32_spec; [now apply Forall_skipn|rewrite length_skipn; lia]. }
  destruct (S 0%nat) as (L0 & R0); [lia|]. destruct (S 4%nat) as (L4 & R4); [lia|]. destruct (S 8%nat) as (L8 & R8); [lia|]. destruct (S 12%nat) as (L12 & R12); [lia|].
  change (skipn 0 p) with p in L0, R0. set (b := (Z.lxor (word p) l, word (skipn 4 p), word (skipn 8 p), word (skipn 12 p))).
  assert (B : bufs_ok b) by (split; [apply in_u_lxor; [lia|exact R0|exact Hl]|split; [exact R4|split; [exact R8|exact R12]]]).
  assert (C : combined b = crc_bytes l (firstn 16 p)).
  { rewrite crc_bytes_val by now apply Forall_firstn. rewrite length_firstn. replace (8 * Z.of_nat (Nat.min 16 (length p))) with 128 by lia. unfold b. cbn [combined].
    rewrite stride_val by assumption. rewrite !Z.shiftl_lxor, !Z.shiftl_shiftl by lia. rewrite !shifts_lxor, !shifts_shiftl by lia.
    change (128 - (32 + 32)) with 64. change (128 - (32 + (32 + 32))) with 32. change (128 - 32) with 96. apply Z.bits_inj'. intros i I. rewrite !Z.lxor_spec. btauto. }
  destruct (prefetch_loop_spec H (length (skipn 16 p)) b (skipn 16 p) B (Forall_skipn _ 16 p F) ltac:(lia)) as (b' & p' & P1 & C1).
  destruct (stride_loop_spec (length p') b' p' (proj1 C1) (proj1 (proj2 C1)) ltac:(lia)) as (b'' & p'' & P2 & C2).
  destruct (word_loop_spec (length p'') b'' p'' (proj1 C2) (proj1 (proj2 C2)) ltac:(lia)) as ([[[c0 c1] c2] c3] & p3 & P3 & C3).
  exists (word p), (word (skipn 4 p)), (word (skipn 8 p)), (word (skipn 12 p)), b', p', b'', p'', c0, c1, c2, c3, p3.
  destruct (consumed_trans _ _ _ _ _ _ C1 (consumed_trans _ _ _ _ _ _ C2 C3)) as (Bo & Fo & _ & Co).
  repeat (split; [assumption|]). rewrite Co, C, <- crc_bytes_app, firstn_skipn. reflexivity.
Qed.

Lemma Extend_spec crc addr bytes : in_u 32 crc -> Forall (in_u 8) bytes -> 64 <= kPrefetchHorizon pl -> 0 <= addr < 2 ^ 64 - 4 ->
  Extend pl e crc addr bytes = Some (crc_bytes crc bytes).
Proof.
  intros C F H A. unfold Extend. pose proof (RoundUp_spec addr A) as R. set (x := RoundUp 4 addr) in *.
  assert (Al : exists l p, (if kNeedAlignedLoads pl && (x <=? addr + zlen bytes) then step_bytes (Z.to_nat (x - addr)) e crc bytes else Some (crc, bytes)) = Some (l, p) /\
    in_u 32 l /\ Forall (in_u 8) p /\ crc_bytes l p = crc_bytes crc bytes).
  { destruct (kNeedAlignedLoads pl && (x <=? addr + zlen bytes)) eqn:E; [|eauto 6]. apply andb_true_iff in E as (_ & E). apply Z.leb_le in E. unfold zlen in E.
    rewrite step_bytes_spec by (assumption || lia). eexists _, _. split; [reflexivity|]. split; [apply crc_range; [exact C|now apply Forall_firstn]|].
    split; [now apply Forall_skipn|]. now rewrite <- crc_bytes_app, firstn_skipn. }
  destruct Al as (l & p & -> & Hl & Fp & Eq). cbn [obind]. unfold zlen, kSwathSize. rewrite Z.geb_leb, <- Eq.
  destruct (Z.leb_spec 16 (Z.of_nat (length p))) as [Q|Q]; [|cbn [obind]; rewrite step_bytes_spec by (assumption || lia); cbn [obind]; now rewrite firstn_all].
  destruct (words_spec l p Hl Fp H ltac:(lia)) as (b0 & b1 & b2 & b3 & b' & p' & b'' & p'' & c0 & c1 & c2 & c3 & p3 & L0 & L1 & L2 & L3 & P1 & P2 & P3 & Bo & F3 & Co).
  rewrite L0. cbn [obind]. rewrite L1. cbn [obind]. rewrite L2. cbn [obind]. rewrite L3. cbn [obind]. rewrite P1. cbn [obind]. rewrite P2. cbn [obind]. rewrite P3. cbn [obind].
  pose proof (combine_spec (c0, c1, c2, c3) Bo) as Cs. cbv beta iota zeta in Cs.
  destruct (combine_one_word e 0 c0) as [l0|]; [|discriminate]. cbn [obind] in *. destruct (combine_one_word e l0 c1) as [l1|]; [|discriminate]. cbn [obind] in *.
  destruct (combine_one_word e l1 c2) as [l2|]; [|discriminate]. cbn [obind] in *. rewrite Cs. cbn [obind].
  destruct Bo as (O0 & O1 & O2 & O3). assert (Rc : in_u 32 (combined (c0, c1, c2, c3))).
  { assert (Sr : forall n c, 0 <= n -> in_u 32 c -> in_u 32 (sh n c)) by (intros n c; apply shifts_range, poly_range). cbn [combined].
    repeat (apply in_u_lxor; [lia|apply Sr; [lia|assumption]|]). apply Sr; [lia|assumption]. }
  rewrite step_bytes_spec by (assumption || lia). cbn [obind]. now rewrite firstn_all, Co.
Qed.
End Bytes.

(** ** The operations of the engine *)
#[local] Opaque shifts.

Lemma unextend_poly_ok : in_u 32 kCrc32cUnextendPoly /\ Z.testbit kCrc32cPoly 31 = true.
Proof. split; [unfold in_u; vm_compute; split; discriminate || reflexivity|reflexivity]. Qed.

Lemma ExtendByZeroes_spec e crc n : engine_ok e -> in_u 32 crc -> 0 <= n < 2 ^ 64 -> ExtendByZeroes e crc n = Some (shifts kCrc32cPoly (8 * n) crc).
Proof. intros Ok C N. apply ExtendByZeroesImpl_spec; [apply poly_range|apply Ok|apply Ok|exact C|exact N]. Qed.

Lemma UnextendByZeroes_spec e crc n : engine_ok e -> in_u 32 crc -> 0 <= n < 2 ^ 64 ->
  UnextendByZeroes e (shifts kCrc32cPoly (8 * n) crc) n = Some crc.
Proof.
  intros Ok C N. destruct unextend_poly_ok as (Hr & Top). unfold UnextendByZeroes.
  pose proof (shifts_range kCrc32cPoly poly_range (8 * n) crc ltac:(lia) C) as R.
  rewrite (ExtendByZeroesImpl_spec kCrc32cUnextendPoly Hr (reverse_table0_ e) (reverse_zeroes_ e) (k_reverse_table0 e Ok) (k_reverse_zeroes e Ok)); [|now apply ReverseBits_spec|exact N].
  cbn [obind]. f_equal. apply unshifts; auto using poly_range; lia.
Qed.

(** A message of zeros is a shift, and a register that differs changes the result by a shift. *)
Lemma crc_bytes_zeroes l n : crc_bytes l (repeat 0 n) = shifts kCrc32cPoly (8 * Z.of_nat n) l.
Proof.
  rewrite crc_bytes_val by (apply Forall_forall; intros x I; apply repeat_spec in I; subst; unfold in_u; lia). rewrite repeat_length. f_equal.
  replace (le_val (repeat 0 n)) with 0; [apply Z.lxor_0_r|]. induction n as [|n IH]; [reflexivity|]. cbn [repeat le_val]. lia.
Qed.

Lemma crc_bytes_lxor l k bs : Forall (in_u 8) bs -> crc_bytes (Z.lxor l k) bs = Z.lxor (crc_bytes l bs) (shifts kCrc32cPoly (8 * Z.of_nat (length bs)) k).
Proof.
  intros F. rewrite !crc_bytes_val, <- shifts_lxor by (assumption || lia). f_equal. rewrite !Z.lxor_assoc. f_equal. apply Z.lxor_comm.
Qed.

Lemma Unscramble_Scramble crc : in_u 32 crc -> Unscramble (Scramble crc) = crc.
Proof.
  intros C. unfold Unscramble, Scramble. set (x := wrapu 32 (crc +[64] kScrambleLo)). assert (X : in_u 32 x) by (apply wrapu_range; lia).
  assert (W : std_width 32) by (unfold std_width; auto). change (32 / 2 + 1) with 17.
  assert (E : rotl 32 (rotr 32 x 17) 17 = x).
  { unfold rotr. rewrite RotateRight_as_left by assumption. destruct (rotl_rotr_spec 32 x (-17) W X) as (R & _ & Q).
    unfold rotr in Q. rewrite RotateRight_as_left in Q by assumption. exact Q. }
  rewrite E. unfold x, wrapu. change (2 ^ 32) with 4294967296. change (2 ^ 64) with (4294967296 * 4294967296).
  unfold in_u in C. change (2 ^ 32) with 4294967296 in C. set (k := kScrambleLo).
  assert (M : forall a, (a mod (4294967296 * 4294967296)) mod 4294967296 = a mod 4294967296).
  { intros a. rewrite Z.rem_mul_r by lia. rewrite Z.mul_comm, Z.mod_add by lia. apply Z.mod_mod. lia. }
  rewrite M, M, Zminus_mod_idemp_l. replace (crc + k - k) with crc by lia. now apply Z.mod_small.
Qed.

(** C23: [InitTables] succeeds, and with the tables it builds the engine computes the bit-by-bit remainder on every
    platform: [Extend] by any bytes at any address, [ExtendByZeroes] by any 64-bit number of zero bytes, and
    [UnextendByZeroes] undoes it; [Unscramble] inverts [Scramble]. *)
Theorem crc_engine_correct pl crc addr bytes n : in_u 32 crc -> Forall (in_u 8) bytes -> 64 <= kPrefetchHorizon pl ->
  0 <= addr < 2 ^ 64 - 4 -> 0 <= n < 2 ^ 64 ->
  exists e, InitTables = Some e /\ Extend pl e crc addr bytes = Some (crc_bytes crc bytes) /\
    ExtendByZeroes e crc n = Some (crc_bytes crc (repeat 0 (Z.to_nat n))) /\
    UnextendByZeroes e (crc_bytes crc (repeat 0 (Z.to_nat n))) n = Some crc /\ Unscramble (Scramble crc) = crc.
Proof.
  intros C B H A N. destruct InitTables_ok as (e & Ie & Oe). exists e. rewrite crc_bytes_zeroes, Z2Nat.id by lia.
  repeat apply conj; [exact Ie|now apply Extend_spec|now apply ExtendByZeroes_spec|now apply UnextendByZeroes_spec|now apply Unscramble_Scramble].
Qed.

Lemma crc_engine_correct_witness :
  exists e, InitTables = Some e /\ Extend (mk_platform true 256 little) e 0xffffffff 3 (repeat 7 100) = Some (crc_bytes 0xffffffff (repeat 7 100)) /\
    ExtendByZeroes e 0xffffffff 1000 = Some (crc_bytes 0xffffffff (repeat 0 (Z.to_nat 1000))) /\
    UnextendByZeroes e (crc_bytes 0xffffffff (repeat 0 (Z.to_nat 1000))) 1000 = Some 0xffffffff /\ Unscramble (Scramble 0xffffffff) = 0xffffffff.
Proof.
  apply (crc_engine_correct (mk_platform true 256 little) 0xffffffff 3 (repeat 7 100) 1000); cbn [kPrefetchHorizon]; unfold in_u; try lia.
  apply Forall_forall. intros x Hx. apply repeat_spec in Hx. subst x. lia.
Defined.
