(* ===== verification/Crc32c.v ===== *)
(** [absl/crc/crc32c.h], [absl/crc/crc32c.cc]: CRC32C values and the operations on them, against the interface
    of a checksum engine ([absl/crc/internal/crc.h]); [absl/crc/internal/crc32c_inline.h]: the path for short
    inputs; [absl/crc/internal/crc_memcpy_fallback.cc]: copying while computing.  The CRC instructions of the
    processor are a parameter. *)
From Stdlib Require Import ZArith Lia List Bool.
From S2P Require Import Prelude Bits Endian Crc.
Import ListNotations.
#[local] Open Scope Z_scope.
#[local] Open Scope mach_scope.

(** ** The interface of an engine *)

(** The virtual functions of [CRC]: the register, then the address and the bytes, or the number of zero bytes. *)
Record CRC := mk_crc {
  extend : Z -> Z -> list Z -> option Z;
  extend_by_zeroes : Z -> Z -> option Z;
  unextend_by_zeroes : Z -> Z -> option Z
}.

(** Where bytes may lie so that rounding an address up does not wrap. *)
Definition address_ok (addr : Z) (bytes : list Z) : Prop := 0 <= addr /\ addr + zlen bytes < 2 ^ 64 - 4.

(** What an engine promises: the bit-by-bit remainder, and the inverse of zero extension. *)
Class Engine (E : CRC) : Prop := {
  extend_law : forall crc addr bytes, in_u 32 crc -> Forall (in_u 8) bytes -> address_ok addr bytes ->
    extend E crc addr bytes = Some (crc_bytes crc bytes);
  extend_by_zeroes_law : forall crc n, in_u 32 crc -> 0 <= n < 2 ^ 64 ->
    extend_by_zeroes E crc n = Some (shifts kCrc32cPoly (8 * n) crc);
  unextend_by_zeroes_law : forall crc n, in_u 32 crc -> 0 <= n < 2 ^ 64 ->
    unextend_by_zeroes E (shifts kCrc32cPoly (8 * n) crc) n = Some crc
}.

(** The engine of [crc.cc]. *)
Definition table_engine (pl : Platform) (e : CRC32) : CRC := mk_crc (Extend pl e) (ExtendByZeroes e) (UnextendByZeroes e).

(** [CRC::Crc32c] where no accelerated engine exists; the engine is initialized once. *)
Definition CrcEngine (pl : Platform) : option CRC := do e <- InitTables; Some (table_engine pl e).

(** ** The instructions of the processor *)
Record Hardware := mk_hardware {
  CRC32_u8 : Z -> Z -> Z;
  CRC32_u16 : Z -> Z -> Z;
  CRC32_u32 : Z -> Z -> Z;
  CRC32_u64 : Z -> Z -> Z
}.

(** Each instruction adds its operand, least significant bit first, and steps the register over its bits. *)
Record hardware_ok (hw : Hardware) : Prop := {
  u8_ok : forall c v, in_u 32 c -> in_u 8 v -> CRC32_u8 hw c v = shifts kCrc32cPoly 8 (Z.lxor c v);
  u16_ok : forall c v, in_u 32 c -> in_u 16 v -> CRC32_u16 hw c v = shifts kCrc32cPoly 16 (Z.lxor c v);
  u32_ok : forall c v, in_u 32 c -> in_u 32 v -> CRC32_u32 hw c v = shifts kCrc32cPoly 32 (Z.lxor c v);
  u64_ok : forall c v, in_u 32 c -> in_u 64 v -> CRC32_u64 hw c v = shifts kCrc32cPoly 64 (Z.lxor c v)
}.

Definition kCRC32Xor : Z := 0xffffffff.

(** A load of [n] bytes; reading past the end is undefined. *)
Definition load (h : endian) (n : nat) (p : list Z) : option Z :=
  if (n <=? length p)%nat then Some (little_endian.Load h n p) else None.

(** [n & 2], [n & 4] with the loads they guard. *)
Definition inline_step (bit : nat) (op : Z -> Z -> Z) (h : endian) (crc n : Z) (p : list Z) : option (Z * Z * list Z) :=
  if negb ((n .& Z.of_nat bit) =? 0) then
    do v <- load h bit p;
    Some (op crc v, n - Z.of_nat bit, skipn bit p)
  else Some (crc, n, p).

Fixpoint inline_words (fuel : nat) (op : Z -> Z -> Z) (h : endian) (crc n : Z) (p : list Z) : option Z :=
  if n =? 0 then Some crc
  else
    match fuel with
    | O => None
    | S fuel' => do v <- load h 8 p; inline_words fuel' op h (op crc v) (n - 8) (skipn 8 p)
    end.

(** Whether the checksum was computed, and the checksum. *)
Definition ExtendCrc32cInline (hw : option Hardware) (h : endian) (crc : Z) (p : list Z) : option (bool * Z) :=
  match hw with
  | None => Some (false, crc)
  | Some hw =>
    let crc := Z.lxor crc 0xffffffff in
    do (crc, n, p) <- inline_step 1 (CRC32_u8 hw) h crc (zlen p) p;
    do (crc, n, p) <- inline_step 2 (CRC32_u16 hw) h crc n p;
    do (crc, n, p) <- inline_step 4 (CRC32_u32 hw) h crc n p;
    do crc <- inline_words (length p) (CRC32_u64 hw) h crc n p;
    Some (true, Z.lxor crc 0xffffffff)
  end.

Section Operations.
Context (E : CRC) (hw : option Hardware) (h : endian).

Definition UnextendCrc32cByZeroes (initial_crc length_ : Z) : option Z :=
  do crc <- unextend_by_zeroes E (Z.lxor initial_crc kCRC32Xor) length_;
  Some (Z.lxor crc kCRC32Xor).

Definition ExtendCrc32cInternal (initial_crc addr : Z) (buf_to_add : list Z) : option Z :=
  do crc <- extend E (Z.lxor initial_crc kCRC32Xor) addr buf_to_add;
  Some (Z.lxor crc kCRC32Xor).

Definition ExtendCrc32cByZeroes (initial_crc length_ : Z) : option Z :=
  do crc <- extend_by_zeroes E (Z.lxor initial_crc kCRC32Xor) length_;
  Some (Z.lxor crc kCRC32Xor).

Definition ConcatCrc32c (lhs_crc rhs_crc rhs_len : Z) : option Z :=
  do result <- extend_by_zeroes E lhs_crc rhs_len;
  Some (Z.lxor result rhs_crc).

Definition RemoveCrc32cPrefix (crc_a crc_ab length_b : Z) : option Z := ConcatCrc32c crc_a crc_ab length_b.

Definition RemoveCrc32cSuffix (full_string_crc suffix_crc suffix_len : Z) : option Z :=
  unextend_by_zeroes E (Z.lxor full_string_crc suffix_crc) suffix_len.

Definition ExtendCrc32c (initial_crc addr : Z) (buf_to_add : list Z) : option Z :=
  do (done, crc) <-
    if zlen buf_to_add <=? 64 then ExtendCrc32cInline hw h initial_crc buf_to_add else Some (false, initial_crc);
  if done then Some crc else ExtendCrc32cInternal initial_crc addr buf_to_add.

Definition ComputeCrc32c (addr : Z) (buf : list Z) : option Z := ExtendCrc32c 0 addr buf.

(** ** Copying while computing *)

Definition kBlockSize : Z := 8192.

(** [string_view(src + offset, n)]; reading past the end is undefined. *)
Definition view (src : list Z) (offset n : Z) : option (list Z) :=
  if offset + n <=? zlen src then Some (firstn (Z.to_nat n) (skipn (Z.to_nat offset) src)) else None.

(** [memcpy(dst + offset, bytes)]; writing past the end is undefined. *)
Definition memcpy (dst : list Z) (offset : Z) (bytes : list Z) : option (list Z) :=
  if offset + zlen bytes <=? zlen dst then
    Some (firstn (Z.to_nat offset) dst ++ bytes ++ skipn (Z.to_nat (offset + zlen bytes)) dst)
  else None.

(** One round of the loop: checksum [n] bytes at [offset], then copy them. *)
Definition copy_block (src : list Z) (addr offset n crc : Z) (dst : list Z) : option (Z * list Z) :=
  do buf <- view src offset n;
  do crc <- ExtendCrc32c crc (addr + offset) buf;
  do dst <- memcpy dst offset buf;
  Some (crc, dst).

Fixpoint copy_loop (fuel : nat) (src : list Z) (addr length_ offset crc : Z) (dst : list Z) : option (Z * Z * list Z) :=
  if offset +[64] kBlockSize <? length_ then
    match fuel with
    | O => None
    | S fuel' =>
      do (crc, dst) <- copy_block src addr offset kBlockSize crc dst;
      copy_loop fuel' src addr length_ (offset +[64] kBlockSize) crc dst
    end
  else Some (offset, crc, dst).

(** [FallbackCrcMemcpyEngine::Compute]: the checksum and the destination. *)
Definition Compute (dst src : list Z) (addr length_ initial_crc : Z) : option (Z * list Z) :=
  do (offset, crc, dst) <- copy_loop (Z.to_nat length_) src addr length_ 0 initial_crc dst;
  if offset <? length_ then copy_block src addr offset (length_ - offset) crc dst
  else Some (crc, dst).

(** [MemcpyCrc32c] with the fallback engines. *)
Definition MemcpyCrc32c (dest src : list Z) (addr count initial_crc : Z) : option (Z * list Z) := Compute dest src addr count initial_crc.

End Operations.

(** ** What the operations compute *)

(** The reference: the CRC32C of a message that extends one whose CRC32C is [crc]. *)
Definition crc32c (crc : Z) (bs : list Z) : Z := Z.lxor (crc_bytes (Z.lxor crc kCRC32Xor) bs) kCRC32Xor.

#[local] Opaque shifts.

Lemma xor_range c : in_u 32 c -> in_u 32 (Z.lxor c kCRC32Xor).
Proof. intros C. apply in_u_lxor; [lia|exact C|unfold in_u, kCRC32Xor; lia]. Qed.

Lemma xor_xor c : Z.lxor (Z.lxor c kCRC32Xor) kCRC32Xor = c.
Proof. now rewrite Z.lxor_assoc, Z.lxor_nilpotent, Z.lxor_0_r. Qed.

Lemma crc32c_range c bs : in_u 32 c -> Forall (in_u 8) bs -> in_u 32 (crc32c c bs).
Proof. intros C B. apply xor_range, crc_range; [now apply xor_range|exact B]. Qed.

Create HintDb crc.
#[local] Hint Resolve xor_range crc32c_range : crc.

Lemma crc32c_app c a b : crc32c c (a ++ b) = crc32c (crc32c c a) b.
Proof. unfold crc32c. now rewrite xor_xor, crc_bytes_app. Qed.

(** Extending is adding a shifted register: the laws of concatenation and of removal. *)
Lemma crc32c_concat c bs : Forall (in_u 8) bs -> crc32c c bs = Z.lxor (shifts kCrc32cPoly (8 * zlen bs) c) (crc32c 0 bs).
Proof.
  intros B. unfold crc32c, zlen. rewrite Z.lxor_0_l, (Z.lxor_comm c), crc_bytes_lxor by exact B.
  rewrite <- !Z.lxor_assoc. f_equal. apply Z.lxor_comm.
Qed.

Lemma crc32c_zeroes c n : 0 <= n -> crc32c c (repeat 0 (Z.to_nat n)) = Z.lxor (shifts kCrc32cPoly (8 * n) (Z.lxor c kCRC32Xor)) kCRC32Xor.
Proof. intros N. unfold crc32c. now rewrite crc_bytes_zeroes, Z2Nat.id by exact N. Qed.

Lemma shifts_crc_range n c : 0 <= n -> in_u 32 c -> in_u 32 (shifts kCrc32cPoly (8 * n) c).
Proof. intros N C. apply shifts_range; [apply poly_range|lia|exact C]. Qed.
#[local] Hint Resolve shifts_crc_range : crc.

Section Inline.
Context (hw : Hardware) (Hw : hardware_ok hw) (h : endian).

Lemma load_spec n p : std_bytes n -> Forall (in_u 8) p -> (n <= length p)%nat ->
  load h n p = Some (le_val (firstn n p)) /\ in_u (8 * Z.of_nat n) (le_val (firstn n p)).
Proof.
  intros S F L. unfold load. rewrite (proj2 (Nat.leb_le _ _)), little_Load_val by assumption. split; [reflexivity|].
  pose proof (le_val_range _ (Forall_firstn _ n _ F)) as R. now rewrite length_firstn, Nat.min_l in R.
Qed.

(** One instruction is the bytes of its operand. *)
Lemma instruction op n crc p : std_bytes n -> Forall (in_u 8) p -> (n <= length p)%nat -> in_u 32 crc ->
  (forall c v, in_u 32 c -> in_u (8 * Z.of_nat n) v -> op c v = shifts kCrc32cPoly (8 * Z.of_nat n) (Z.lxor c v)) ->
  exists v, load h n p = Some v /\ op crc v = crc_bytes crc (firstn n p).
Proof.
  intros S F L C Op. destruct (load_spec n p S F L) as (Ld & R). exists (le_val (firstn n p)). split; [exact Ld|].
  rewrite Op, crc_bytes_val, length_firstn, Nat.min_l by (try apply Forall_firstn; assumption). reflexivity.
Qed.

Lemma inline_step_spec k n op crc p : 0 <= k <= 2 -> Z.of_nat n = 2 ^ k -> Forall (in_u 8) p -> in_u 32 crc -> zlen p mod 2 ^ k = 0 ->
  (forall c v, in_u 32 c -> in_u (8 * Z.of_nat n) v -> op c v = shifts kCrc32cPoly (8 * Z.of_nat n) (Z.lxor c v)) ->
  exists crc' p', inline_step n op h crc (zlen p) p = Some (crc', zlen p', p') /\
    in_u 32 crc' /\ Forall (in_u 8) p' /\ crc_bytes crc p = crc_bytes crc' p' /\ zlen p' mod 2 ^ (k + 1) = 0.
Proof.
  intros K N F C M Op. assert (P : 0 < 2 ^ k) by (apply Z.pow_pos_nonneg; lia). unfold inline_step.
  rewrite N, land_pow2 by lia. pose proof (Zle_0_nat (length p)) as L0. fold (zlen p) in L0.
  pose proof (Z.div_mod (zlen p) (2 ^ k) ltac:(lia)) as D. rewrite M in D.
  assert (P1 : 2 ^ (k + 1) = 2 ^ k * 2) by (rewrite Z.pow_add_r by lia; lia).
  rewrite Z.testbit_odd, Z.shiftr_div_pow2 by lia. destruct (Z.odd (zlen p / 2 ^ k)) eqn:O.
  - apply Z.odd_spec in O as (q & Q). assert (Lp : 2 ^ k <= zlen p).
    { rewrite Q in D. assert (0 <= q) by (apply Z.nlt_ge; intros ?; nia). nia. }
    unfold zlen in Lp.
    destruct (instruction op n crc p) as (v & Lv & Ov); try assumption; [|lia|].
    { assert (k = 0 \/ k = 1 \/ k = 2) as [->|[->| ->]] by lia; unfold std_bytes; lia. }
    rewrite Lv. cbn [obind]. exists (op crc v), (skipn n p). rewrite Ov.
    assert (Z' : zlen (skipn n p) = zlen p - 2 ^ k) by (unfold zlen; rewrite length_skipn; lia).
    rewrite Z'. refine (conj _ (conj _ (conj _ (conj _ _)))); [reflexivity|apply crc_range; [exact C|now apply Forall_firstn]|now apply Forall_skipn| |].
    + now rewrite <- crc_bytes_app, firstn_skipn.
    + rewrite P1. replace (zlen p - 2 ^ k) with (q * (2 ^ k * 2)) by (rewrite Q in D; lia). apply Z.mod_mul; lia.
  - exists crc, p. refine (conj eq_refl (conj C (conj F (conj eq_refl _)))). rewrite <- Z.negb_even, negb_false_iff in O.
    apply Z.even_spec in O as (q & Q). rewrite P1. replace (zlen p) with (q * (2 ^ k * 2)) by (rewrite Q in D; lia). apply Z.mod_mul; lia.
Qed.

Lemma inline_words_spec : forall fuel crc p, Forall (in_u 8) p -> in_u 32 crc -> zlen p mod 8 = 0 -> (length p <= fuel)%nat ->
  inline_words fuel (CRC32_u64 hw) h crc (zlen p) p = Some (crc_bytes crc p).
Proof.
  induction fuel as [|fuel IH]; intros crc p F C M L; cbn [inline_words].
  - destruct p; [reflexivity|cbn in L; lia].
  - destruct (Z.eqb_spec (zlen p) 0) as [E|E]; [destruct p; [reflexivity|unfold zlen in E; cbn in E; lia]|].
    assert (Lp : (8 <= length p)%nat) by (unfold zlen in *; pose proof (Z.div_mod (Z.of_nat (length p)) 8 ltac:(lia)); lia).
    destruct (instruction (CRC32_u64 hw) 8 crc p) as (v & Lv & Ov); try assumption; [right; right; now right|exact (u64_ok hw Hw)|].
    rewrite Lv. cbn [obind]. rewrite Ov. replace (zlen p - 8) with (zlen (skipn 8 p)) by (unfold zlen; rewrite length_skipn; lia).
    rewrite IH; [now rewrite <- crc_bytes_app, firstn_skipn|now apply Forall_skipn|apply crc_range; [exact C|now apply Forall_firstn]| |rewrite length_skipn; lia].
    unfold zlen in *. rewrite length_skipn. replace (Z.of_nat (length p - 8)) with (Z.of_nat (length p) + (-1) * 8) by lia. now rewrite Z.mod_add.
Qed.

Lemma ExtendCrc32cInline_spec crc p : in_u 32 crc -> Forall (in_u 8) p -> ExtendCrc32cInline (Some hw) h crc p = Some (true, crc32c crc p).
Proof.
  intros C F. unfold ExtendCrc32cInline. fold kCRC32Xor. cbv zeta.
  destruct (inline_step_spec 0 1 (CRC32_u8 hw) (Z.lxor crc kCRC32Xor) p) as (c1 & p1 & -> & C1 & F1 & E1 & M1); auto with crc; [lia|apply Z.mod_1_r|exact (u8_ok hw Hw)|].
  cbn [obind]. destruct (inline_step_spec 1 2 (CRC32_u16 hw) c1 p1) as (c2 & p2 & -> & C2 & F2 & E2 & M2); auto with crc; [lia|exact (u16_ok hw Hw)|].
  cbn [obind]. destruct (inline_step_spec 2 4 (CRC32_u32 hw) c2 p2) as (c3 & p3 & -> & C3 & F3 & E3 & M3); auto with crc; [lia|exact (u32_ok hw Hw)|].
  cbn [obind]. rewrite inline_words_spec by auto. cbn [obind]. unfold crc32c. now rewrite E1, E2, E3.
Qed.
End Inline.

Section Laws.
Context (E : CRC) {EL : Engine E} (hw : option Hardware) (h : endian).
Context (Hw : match hw with Some i => hardware_ok i | None => True end).

Lemma ExtendCrc32c_spec crc addr bs : in_u 32 crc -> Forall (in_u 8) bs -> address_ok addr bs ->
  ExtendCrc32c E hw h crc addr bs = Some (crc32c crc bs).
Proof.
  intros C F A. unfold ExtendCrc32c.
  assert (I : ExtendCrc32cInternal E crc addr bs = Some (crc32c crc bs)).
  { unfold ExtendCrc32cInternal. now rewrite extend_law by auto with crc. }
  destruct (_ <=? _); [|exact I]. destruct hw as [i|]; [|exact I]. now rewrite ExtendCrc32cInline_spec.
Qed.

Lemma ExtendCrc32cByZeroes_spec crc n : in_u 32 crc -> 0 <= n < 2 ^ 64 ->
  ExtendCrc32cByZeroes E crc n = Some (crc32c crc (repeat 0 (Z.to_nat n))).
Proof. intros C N. unfold ExtendCrc32cByZeroes. rewrite extend_by_zeroes_law, crc32c_zeroes by (auto with crc; lia). reflexivity. Qed.

Lemma UnextendCrc32cByZeroes_spec crc n : in_u 32 crc -> 0 <= n < 2 ^ 64 ->
  UnextendCrc32cByZeroes E (crc32c crc (repeat 0 (Z.to_nat n))) n = Some crc.
Proof.
  intros C N. unfold UnextendCrc32cByZeroes. rewrite crc32c_zeroes, xor_xor by lia. rewrite unextend_by_zeroes_law by auto with crc.
  cbn [obind]. now rewrite xor_xor.
Qed.

Lemma ConcatCrc32c_spec crc bs : in_u 32 crc -> Forall (in_u 8) bs -> zlen bs < 2 ^ 64 ->
  ConcatCrc32c E crc (crc32c 0 bs) (zlen bs) = Some (crc32c crc bs).
Proof.
  intros C F L. unfold ConcatCrc32c. rewrite extend_by_zeroes_law by (auto with crc; unfold zlen in *; lia). cbn [obind].
  now rewrite <- crc32c_concat.
Qed.

Lemma RemoveCrc32cPrefix_spec crc bs : in_u 32 crc -> Forall (in_u 8) bs -> zlen bs < 2 ^ 64 ->
  RemoveCrc32cPrefix E crc (crc32c crc bs) (zlen bs) = Some (crc32c 0 bs).
Proof.
  intros C F L. unfold RemoveCrc32cPrefix, ConcatCrc32c. rewrite extend_by_zeroes_law by (auto with crc; unfold zlen in *; lia). cbn [obind].
  now rewrite crc32c_concat, <- Z.lxor_assoc, Z.lxor_nilpotent, Z.lxor_0_l.
Qed.

Lemma RemoveCrc32cSuffix_spec crc bs : in_u 32 crc -> Forall (in_u 8) bs -> zlen bs < 2 ^ 64 ->
  RemoveCrc32cSuffix E (crc32c crc bs) (crc32c 0 bs) (zlen bs) = Some crc.
Proof.
  intros C F L. unfold RemoveCrc32cSuffix. rewrite crc32c_concat, Z.lxor_assoc, Z.lxor_nilpotent, Z.lxor_0_r by exact F.
  apply unextend_by_zeroes_law; [exact C|unfold zlen in *; lia].
Qed.

(** ** Copying *)

(** The bytes below [n] come from the source, the others are still those of the destination. *)
Definition copied (src dst0 : list Z) (n : Z) (dst : list Z) : Prop := dst = firstn (Z.to_nat n) src ++ skipn (Z.to_nat n) dst0.

Lemma copied_step src dst0 off n dst : 0 <= off -> 0 <= n -> off + n <= zlen src -> off + n <= zlen dst0 -> copied src dst0 off dst ->
  exists buf dst', view src off n = Some buf /\ memcpy dst off buf = Some dst' /\ copied src dst0 (off + n) dst' /\
    firstn (Z.to_nat (off + n)) src = firstn (Z.to_nat off) src ++ buf /\ zlen buf = n.
Proof.
  intros O N S D ->. unfold view, memcpy. rewrite (proj2 (Z.leb_le _ _)) by lia.
  set (buf := firstn (Z.to_nat n) (skipn (Z.to_nat off) src)).
  assert (B : zlen buf = n) by (unfold buf, zlen in *; rewrite length_firstn, length_skipn; lia).
  assert (SB : firstn (Z.to_nat (off + n)) src = firstn (Z.to_nat off) src ++ buf).
  { rewrite <- (firstn_skipn (Z.to_nat off) src) at 1. rewrite firstn_app, length_firstn. unfold zlen in *.
    rewrite firstn_firstn. f_equal; [f_equal; lia|]. unfold buf. f_equal. lia. }
  exists buf. eexists. split; [reflexivity|]. rewrite (proj2 (Z.leb_le _ _)).
  2: { rewrite B. unfold zlen in *. rewrite length_app, length_firstn, length_skipn. lia. }
  split; [reflexivity|]. split; [|split; [exact SB|exact B]]. unfold copied. rewrite SB, <- app_assoc. rewrite B. unfold zlen in *.
  assert (Lf : length (firstn (Z.to_nat off) src) = Z.to_nat off) by (rewrite length_firstn; lia).
  f_equal; [|f_equal].
  - rewrite firstn_app, Lf, firstn_firstn, Nat.sub_diag, Nat.min_id. cbn [firstn]. now rewrite app_nil_r.
  - rewrite skipn_app, Lf, skipn_skipn, skipn_all2 by (rewrite Lf; lia). cbn [app]. f_equal. lia.
Qed.

Section Copy.
Context (src dst0 : list Z) (addr len crc0 : Z) (C0 : in_u 32 crc0) (F : Forall (in_u 8) src) (A : address_ok addr src).
Context (L : 0 <= len <= zlen src) (Ld : len <= zlen dst0) (Wrap : len + kBlockSize < 2 ^ 64).

Lemma copy_block_spec off n dst : 0 <= off -> 0 <= n -> off + n <= len -> copied src dst0 off dst ->
  exists dst', copy_block E hw h src addr off n (crc32c crc0 (firstn (Z.to_nat off) src)) dst = Some (crc32c crc0 (firstn (Z.to_nat (off + n)) src), dst') /\
    copied src dst0 (off + n) dst'.
Proof.
  intros O N B Cp. destruct (copied_step src dst0 off n dst O N ltac:(lia) ltac:(lia) Cp) as (buf & dst' & V & M & Cp' & SB & Lb).
  assert (Fb : Forall (in_u 8) buf).
  { pose proof (Forall_firstn _ (Z.to_nat (off + n)) _ F) as Q. rewrite SB in Q. now apply Forall_app in Q. }
  exists dst'. split; [|exact Cp']. unfold copy_block. rewrite V. cbn [obind]. rewrite ExtendCrc32c_spec.
  - cbn [obind]. rewrite M. cbn [obind]. now rewrite SB, crc32c_app.
  - apply crc32c_range; [exact C0|now apply Forall_firstn].
  - exact Fb.
  - unfold address_ok in *. lia.
Qed.

Lemma copy_blocks_spec : forall fuel off dst, 0 <= off <= len -> len - off <= Z.of_nat fuel -> copied src dst0 off dst ->
  exists off' dst', copy_loop E hw h fuel src addr len off (crc32c crc0 (firstn (Z.to_nat off) src)) dst = Some (off', crc32c crc0 (firstn (Z.to_nat off') src), dst') /\
    0 <= off' <= len /\ copied src dst0 off' dst'.
Proof.
  induction fuel as [|fuel IH]; intros off dst O Fu Cp; cbn [copy_loop]; rewrite wrapu_small by (unfold in_u, kBlockSize in *; lia).
  - rewrite (proj2 (Z.ltb_ge _ _)) by (unfold kBlockSize; lia). now exists off, dst.
  - destruct (Z.ltb_spec (off + kBlockSize) len) as [Lt|Ge]; [|now exists off, dst].
    destruct (copy_block_spec off kBlockSize dst) as (dst' & -> & Cp'); try assumption; unfold kBlockSize in *; try lia.
    cbn [obind]. apply IH; [lia|lia|exact Cp'].
Qed.

Lemma Compute_spec : Compute E hw h dst0 src addr len crc0 =
  Some (crc32c crc0 (firstn (Z.to_nat len) src), firstn (Z.to_nat len) src ++ skipn (Z.to_nat len) dst0).
Proof.
  unfold Compute. destruct (copy_blocks_spec (Z.to_nat len) 0 dst0) as (off & dst & Eq & O & Cp); [lia|lia|reflexivity|].
  replace crc0 with (crc32c crc0 (firstn (Z.to_nat 0) src)) at 1 by (cbn; unfold crc32c; cbn; apply xor_xor). rewrite Eq. cbn [obind].
  destruct (Z.ltb_spec off len) as [Lt|Ge].
  - destruct (copy_block_spec off (len - off) dst) as (dst' & -> & ->); try assumption; try lia. now replace (off + (len - off)) with len by lia.
  - replace len with off by lia. now rewrite Cp.
Qed.
End Copy.
End Laws.

(** ** The engine of [crc.cc] keeps the promises of the interface *)
Lemma table_engine_ok pl e : 64 <= kPrefetchHorizon pl -> engine_ok e -> Engine (table_engine pl e).
Proof.
  intros P Ok. split; cbn.
  - intros crc addr bytes C F (A & A'). apply Extend_spec; try assumption. unfold zlen in A'. lia.
  - intros crc n C N. now apply ExtendByZeroes_spec.
  - intros crc n C N. now apply UnextendByZeroes_spec.
Qed.

Lemma CrcEngine_ok pl : 64 <= kPrefetchHorizon pl -> exists E, CrcEngine pl = Some E /\ Engine E.
Proof.
  intros P. destruct InitTables_ok as (e & Ie & Oe). exists (table_engine pl e). unfold CrcEngine. rewrite Ie.
  split; [reflexivity|now apply table_engine_ok].
Qed.

(** The instructions by their definition. *)
Definition bitwise_hardware : Hardware :=
  mk_hardware (fun c v => shifts kCrc32cPoly 8 (Z.lxor c v)) (fun c v => shifts kCrc32cPoly 16 (Z.lxor c v))
    (fun c v => shifts kCrc32cPoly 32 (Z.lxor c v)) (fun c v => shifts kCrc32cPoly 64 (Z.lxor c v)).

Lemma bitwise_hardware_ok : hardware_ok bitwise_hardware.
Proof. split; reflexivity. Qed.

Definition instructions_ok (hw : option Hardware) : Prop := match hw with Some i => hardware_ok i | None => True end.

(** "123456789" and its published CRC32C. *)
Definition check_input : list Z := [0x31; 0x32; 0x33; 0x34; 0x35; 0x36; 0x37; 0x38; 0x39].

Lemma check_input_crc : crc32c 0 check_input = 0xE3069283.
Proof. vm_compute. reflexivity. Qed.

(** C24: with or without CRC instructions, on either byte order, the checksum functions agree with the bit-by-bit
    CRC32C: extending by bytes (the short path, and the engine beyond 64 bytes) gives the CRC32C of the longer
    message, by zeros the one of the message with zeros, and [UnextendCrc32cByZeroes] takes them away; concatenation gives the
    CRC32C of two messages from theirs, and removing a prefix or a suffix gives that of what is left. *)
Theorem crc32c_correct pl hw h a b addr n : 64 <= kPrefetchHorizon pl -> instructions_ok hw ->
  Forall (in_u 8) a -> Forall (in_u 8) b -> address_ok addr a -> address_ok addr b -> 0 <= n < 2 ^ 64 ->
  exists E, CrcEngine pl = Some E /\
    let whole := crc32c 0 (a ++ b) in
    ComputeCrc32c E hw h addr a = Some (crc32c 0 a) /\ ExtendCrc32c E hw h (crc32c 0 a) addr b = Some whole /\
    ExtendCrc32cByZeroes E (crc32c 0 a) n = Some (crc32c 0 (a ++ repeat 0 (Z.to_nat n))) /\
    UnextendCrc32cByZeroes E (crc32c 0 (a ++ repeat 0 (Z.to_nat n))) n = Some (crc32c 0 a) /\
    ConcatCrc32c E (crc32c 0 a) (crc32c 0 b) (zlen b) = Some whole /\
    RemoveCrc32cPrefix E (crc32c 0 a) whole (zlen b) = Some (crc32c 0 b) /\
    RemoveCrc32cSuffix E whole (crc32c 0 b) (zlen b) = Some (crc32c 0 a).
Proof.
  intros P Hw Fa Fb Aa Ab N. destruct (CrcEngine_ok pl P) as (E & -> & EL). exists E. split; [reflexivity|]. cbv zeta.
  assert (Z0 : in_u 32 0) by (unfold in_u; lia). assert (R : in_u 32 (crc32c 0 a)) by (now apply crc32c_range).
  assert (L : zlen b < 2 ^ 64) by (unfold address_ok in Ab; lia). rewrite !crc32c_app. unfold ComputeCrc32c.
  repeat apply conj; [now apply ExtendCrc32c_spec|now apply ExtendCrc32c_spec|now apply ExtendCrc32cByZeroes_spec|now apply UnextendCrc32cByZeroes_spec
    |now apply ConcatCrc32c_spec|now apply RemoveCrc32cPrefix_spec|now apply RemoveCrc32cSuffix_spec].
Qed.

Lemma crc32c_correct_witness :
  exists E, CrcEngine (mk_platform true 256 little) = Some E /\
    let whole := crc32c 0 ([1; 2] ++ check_input) in
    ComputeCrc32c E (Some bitwise_hardware) big 3 [1; 2] = Some (crc32c 0 [1; 2]) /\
    ExtendCrc32c E (Some bitwise_hardware) big (crc32c 0 [1; 2]) 3 check_input = Some whole /\
    ExtendCrc32cByZeroes E (crc32c 0 [1; 2]) 5 = Some (crc32c 0 ([1; 2] ++ repeat 0 (Z.to_nat 5))) /\
    UnextendCrc32cByZeroes E (crc32c 0 ([1; 2] ++ repeat 0 (Z.to_nat 5))) 5 = Some (crc32c 0 [1; 2]) /\
    ConcatCrc32c E (crc32c 0 [1; 2]) (crc32c 0 check_input) (zlen check_input) = Some whole /\
    RemoveCrc32cPrefix E (crc32c 0 [1; 2]) whole (zlen check_input) = Some (crc32c 0 check_input) /\
    RemoveCrc32cSuffix E whole (crc32c 0 check_input) (zlen check_input) = Some (crc32c 0 [1; 2]).
Proof.
  apply (crc32c_correct (mk_platform true 256 little) (Some bitwise_hardware) big [1; 2] check_input 3 5);
    [cbn; lia|exact bitwise_hardware_ok| | | | |lia]; try (unfold address_ok; cbn; lia); repeat constructor; unfold in_u; lia.
Defined.

(** [MemcpyCrc32c] with the fallback engine copies the first [count] bytes of the source, block by block, leaves the
    rest of the destination alone and returns the CRC32C of the message extended by the bytes copied. *)
Lemma memcpy_crc_correct pl hw h dest src addr count crc : 64 <= kPrefetchHorizon pl -> instructions_ok hw -> in_u 32 crc ->
  Forall (in_u 8) src -> address_ok addr src -> 0 <= count <= zlen src -> count <= zlen dest -> count + kBlockSize < 2 ^ 64 ->
  exists E, CrcEngine pl = Some E /\ MemcpyCrc32c E hw h dest src addr count crc =
    Some (crc32c crc (firstn (Z.to_nat count) src), firstn (Z.to_nat count) src ++ skipn (Z.to_nat count) dest).
Proof.
  intros P Hw C F A L Ld W. destruct (CrcEngine_ok pl P) as (E & -> & EL). exists E. split; [reflexivity|]. now apply Compute_spec.
Qed.

Lemma memcpy_crc_correct_witness :
  exists E, CrcEngine (mk_platform false 256 big) = Some E /\ MemcpyCrc32c E None big (repeat 0 12) check_input 3 4 7 =
    Some (crc32c 7 (firstn (Z.to_nat 4) check_input), firstn (Z.to_nat 4) check_input ++ skipn (Z.to_nat 4) (repeat 0 12)).
Proof.
  apply (memcpy_crc_correct (mk_platform false 256 big) None big (repeat 0 12) check_input 3 4 7);
    try (unfold address_ok, in_u; cbn; lia). repeat constructor; unfold in_u; lia.
Defined.
