(* ===== verification/CordState.v ===== *)
(** [absl/crc/internal/crc_cord_state.h] and [crc_cord_state.cc]: the copy-on-write object that keeps the CRC32C
    of the prefixes of a cord.  The representations live in a heap, with reference counts; the objects point to
    them.  What is proved: the counts are exact, so nothing is used after it is freed and nothing leaks; sharing is not
    observable (the objects behave like independent values); and the checksums are those of the cord. *)
From stdpp Require Import base gmap fin_maps list.
From Stdlib Require Import ZArith Znumtheory Lia.
From S2P Require Import Prelude Bits Endian Crc Crc32c.
#[local] Open Scope Z_scope.
#[local] Open Scope mach_scope.

(** ** Data *)
Record PrefixCrc := mk_prefix { length_ : Z; crc_ : Z }.

Definition default_prefix : PrefixCrc := mk_prefix 0 0.

Record Rep := mk_rep { removed_prefix : PrefixCrc; prefix_crc : list PrefixCrc }.

Definition default_rep : Rep := mk_rep default_prefix [].

(** [count] is an [int32_t]. *)
Record RefcountedRep := mk_refcounted { count : Z; rep : Rep }.

Definition new_rep (r : Rep) : RefcountedRep := mk_refcounted 1 r.

(** The heap of representations, the live objects with their [refcounted_rep_], and the function-local static
    of [RefSharedEmptyRep] once it is initialized. *)
Record World := mk_world {
  heap : gmap positive RefcountedRep;
  objs : gmap nat positive;
  empty_rep : option positive
}.

Definition no_objects : World := mk_world ∅ ∅ None.

Definition set_heap (w : World) (m : gmap positive RefcountedRep) : World := mk_world m (objs w) (empty_rep w).
Definition set_obj (x : nat) (l : positive) (w : World) : World := mk_world (heap w) (<[x := l]> (objs w)) (empty_rep w).

(** ** Reference counts; a pointer to a freed representation gives [None] *)
Definition Ref (l : positive) (w : World) : option World :=
  do r <- heap w !! l;
  Some (set_heap w (<[l := mk_refcounted (wraps 32 (count r + 1)) (rep r)]> (heap w))).

Definition Unref (l : positive) (w : World) : option World :=
  do r <- heap w !! l;
  if count r =? 1 then Some (set_heap w (delete l (heap w)))
  else Some (set_heap w (<[l := mk_refcounted (wraps 32 (count r - 1)) (rep r)]> (heap w))).

(** [new RefcountedRep]. *)
Definition alloc (r : Rep) (w : World) : positive * World :=
  let l := fresh (dom (heap w)) in
  (l, set_heap w (<[l := new_rep r]> (heap w))).

Definition is_default (r : RefcountedRep) : bool :=
  (1 <=? count r) && (length_ (removed_prefix (rep r)) =? 0) && match prefix_crc (rep r) with [] => true | _ => false end.

(** The assertions are guards. *)
Definition RefSharedEmptyRep (w : World) : option (positive * World) :=
  let '(l, w) :=
    match empty_rep w with
    | Some l => (l, w)
    | None => let '(l, w) := alloc default_rep w in (l, mk_world (heap w) (objs w) (Some l))
    end in
  do r <- heap w !! l;
  if is_default r then
    do w <- Ref l w;
    Some (l, w)
  else None.

(** ** Construction, assignment and destruction *)
Definition construct (x : nat) (w : World) : option World := let '(l, w) := alloc default_rep w in Some (set_obj x l w).

Definition copy_construct (x other : nat) (w : World) : option World :=
  do l <- objs w !! other;
  Ref l (set_obj x l w).

Definition move_construct (x other : nat) (w : World) : option World :=
  do l <- objs w !! other;
  let w := set_obj x l w in
  do (e, w) <- RefSharedEmptyRep w;
  Some (set_obj other e w).

Definition copy_assign (x other : nat) (w : World) : option World :=
  if Nat.eqb x other then Some w
  else
    do l <- objs w !! x;
    do w <- Unref l w;
    do l <- objs w !! other;
    Ref l (set_obj x l w).

Definition move_assign (x other : nat) (w : World) : option World :=
  if Nat.eqb x other then Some w
  else
    do l <- objs w !! x;
    do w <- Unref l w;
    do l <- objs w !! other;
    let w := set_obj x l w in
    do (e, w) <- RefSharedEmptyRep w;
    Some (set_obj other e w).

Definition destroy (x : nat) (w : World) : option World :=
  do l <- objs w !! x;
  do w <- Unref l w;
  Some (mk_world (heap w) (delete x (objs w)) (empty_rep w)).

(** ** The representation of an object *)

(** [rep()]. *)
Definition rep_of (x : nat) (w : World) : option Rep := do l <- objs w !! x; do r <- heap w !! l; Some (rep r).

(** [mutable_rep()]: where the representation that may be written is. *)
Definition mutable_rep (x : nat) (w : World) : option (positive * World) :=
  do l <- objs w !! x;
  do r <- heap w !! l;
  if negb (count r =? 1) then
    let '(copy, w) := alloc default_rep w in
    do r <- heap w !! l;
    let w := set_heap w (<[copy := mk_refcounted 1 (rep r)]> (heap w)) in
    do w <- Unref l w;
    Some (copy, set_obj x copy w)
  else Some (l, w).

(** A write through the pointer that [mutable_rep] returned. *)
Definition store_rep (l : positive) (v : Rep) (w : World) : option World :=
  do r <- heap w !! l;
  Some (set_heap w (<[l := mk_refcounted (count r) v]> (heap w))).

Definition load_rep (l : positive) (w : World) : option Rep := do r <- heap w !! l; Some (rep r).

(** ** Checksums *)
Definition IsNormalized (r : Rep) : bool := length_ (removed_prefix r) =? 0.

Definition NumChunks (r : Rep) : Z := Z.of_nat (length (prefix_crc r)).

Definition scramble (crc : Z) : Z := rotr 32 (crc +[32] 0x2e76e41b) 17.

Section Checksums.
Context (E : CRC).

(** [RemoveCrc32cPrefix] of the removed prefix from one entry. *)
Definition normalize_entry (removed p : PrefixCrc) : option PrefixCrc :=
  let remaining := length_ p -[64] length_ removed in
  do c <- RemoveCrc32cPrefix E (crc_ removed) (crc_ p) remaining;
  Some (mk_prefix remaining c).

Definition checksum_rep (r : Rep) : option Z :=
  match last (prefix_crc r) with
  | None => Some 0
  | Some back =>
    if IsNormalized r then Some (crc_ back)
    else RemoveCrc32cPrefix E (crc_ (removed_prefix r)) (crc_ back) (length_ back -[64] length_ (removed_prefix r))
  end.

Definition Checksum (x : nat) (w : World) : option Z := do r <- rep_of x w; checksum_rep r.

(** The assertion [n < NumChunks()] is a guard. *)
Definition nth_chunk (r : Rep) (n : nat) : option PrefixCrc :=
  do p <- prefix_crc r !! n;
  if IsNormalized r then Some p else normalize_entry (removed_prefix r) p.

Definition NormalizedPrefixCrcAtNthChunk (x n : nat) (w : World) : option PrefixCrc := do r <- rep_of x w; nth_chunk r n.

(** The loop of [Normalize] over the entries of the deque. *)
Fixpoint normalize_entries (removed : PrefixCrc) (ps : list PrefixCrc) : option (list PrefixCrc) :=
  match ps with
  | [] => Some []
  | p :: ps =>
    do p <- normalize_entry removed p;
    do ps <- normalize_entries removed ps;
    Some (p :: ps)
  end.

Definition Normalize (x : nat) (w : World) : option World :=
  do r <- rep_of x w;
  if IsNormalized r || match prefix_crc r with [] => true | _ => false end then Some w
  else
    do (l, w) <- mutable_rep x w;
    do r <- load_rep l w;
    do ps <- normalize_entries (removed_prefix r) (prefix_crc r);
    store_rep l (mk_rep default_prefix ps) w.

Definition poison_rep (r : Rep) : Rep :=
  mk_rep (removed_prefix r)
    (if 0 <? NumChunks r then List.map (fun p => mk_prefix (length_ p) (scramble (crc_ p))) (prefix_crc r)
     else prefix_crc r ++ [mk_prefix 0 1]).

Definition Poison (x : nat) (w : World) : option World :=
  do (l, w) <- mutable_rep x w;
  do r <- load_rep l w;
  store_rep l (poison_rep r) w.

End Checksums.

(** ** The invariant *)

(** The objects that point to a representation. *)
Definition owners (l : positive) (m : gmap nat positive) : nat := size (filter (fun p => p.2 = l) m).

Definition static_ref (w : World) (l : positive) : nat := if decide (empty_rep w = Some l) then 1 else 0.

Definition occ (l : positive) (d : list positive) : nat := length (filter (fun k => k = l) d).

(** Every count is the number of references: those of the objects, the one of the shared empty representation, and
    those that an operation in progress holds, [d]. *)
Record inv (d : list positive) (w : World) : Prop := {
  i_count : forall l r, heap w !! l = Some r -> count r = Z.of_nat (owners l (objs w) + static_ref w l + occ l d) /\ 1 <= count r;
  i_live : forall x l, objs w !! x = Some l -> is_Some (heap w !! l);
  i_held : forall l, l ∈ d -> is_Some (heap w !! l);
  i_empty : forall l, empty_rep w = Some l -> exists r, heap w !! l = Some r /\ rep r = default_rep
}.

(** The value of each object. *)
Definition rep_at (w : World) (l : positive) : option Rep := rep <$> heap w !! l.

Definition values (w : World) : gmap nat Rep := omap (rep_at w) (objs w).

Definition with_objs (m : gmap nat positive) (w : World) : World := mk_world (heap w) m (empty_rep w).

Lemma owners_insert x l l' m : m !! x = None -> owners l (<[x := l']> m) = (owners l m + if decide (l' = l) then 1 else 0)%nat.
Proof.
  intros N. unfold owners. destruct (decide (l' = l)) as [->|D].
  - rewrite map_filter_insert_True by done. rewrite map_size_insert_None; [lia|]. apply map_lookup_filter_None. left. done.
  - rewrite map_filter_insert_False by done. rewrite delete_id by done. lia.
Qed.

Lemma owners_split x l m : owners l m = (owners l (delete x m) + match m !! x with Some l' => if decide (l' = l) then 1 else 0 | None => 0 end)%nat.
Proof.
  destruct (m !! x) as [l'|] eqn:Ex; [|rewrite delete_id by done; lia].
  rewrite <- (insert_delete_id m x l' Ex) at 1. apply owners_insert, lookup_delete_eq.
Qed.

Lemma owners_update x l l' m : (owners l (<[x := l']> m) + match m !! x with Some o => if decide (o = l) then 1 else 0 | None => 0 end =
  owners l m + if decide (l' = l) then 1 else 0)%nat.
Proof.
  rewrite (owners_split x l m), <- insert_delete_eq, owners_insert by apply lookup_delete_eq. lia.
Qed.

Lemma owners_le l m : (owners l m <= size m)%nat.
Proof. unfold owners. apply map_subseteq_size, map_filter_subseteq. Qed.

#[local] Arguments occ : simpl never.
#[local] Arguments owners : simpl never.

Lemma occ_cons l k d : occ l (k :: d) = (occ l d + if decide (k = l) then 1 else 0)%nat.
Proof. unfold occ. rewrite filter_cons. destruct (decide (k = l)); cbn; lia. Qed.

Lemma occ_pos l d : (1 <= occ l d)%nat -> l ∈ d.
Proof.
  unfold occ. destruct (filter _ d) as [|k t] eqn:Ef; cbn; [lia|]. intros _.
  assert (I : k ∈ filter (fun k => k = l) d) by (rewrite Ef; left). apply list_elem_of_filter in I as (-> & I). done.
Qed.

Lemma occ_elem l d : l ∈ d -> (1 <= occ l d)%nat.
Proof.
  intros I. unfold occ. destruct (filter _ d) as [|k t] eqn:Ef; cbn; [|lia].
  assert (J : l ∈ filter (fun k => k = l) d) by (apply list_elem_of_filter; done). rewrite Ef in J. by apply elem_of_nil in J.
Qed.

Lemma owners_elem x l m : m !! x = Some l -> (1 <= owners l m)%nat.
Proof. intros H. rewrite (owners_split x), H. rewrite decide_True by done. lia. Qed.

Lemma values_lookup w x : values w !! x = (objs w !! x ≫= rep_at w).
Proof. apply lookup_omap. Qed.

Lemma values_ext w w' : objs w' = objs w -> (forall x l, objs w !! x = Some l -> rep_at w' l = rep_at w l) -> values w' = values w.
Proof.
  intros O R. apply map_eq. intros x. rewrite !values_lookup, O. destruct (objs w !! x) as [l|] eqn:Ex; [|done]. by apply (R x).
Qed.

Lemma inv_perm d d' w : d ≡ₚ d' -> inv d w -> inv d' w.
Proof.
  intros P [C L H Em]. split; [|exact L| |exact Em].
  - intros l r Hl. destruct (C l r Hl) as (-> & ?). split; [|done]. unfold occ. by rewrite P.
  - intros l I. apply H. by rewrite P.
Qed.

(** A reference that is held can be given to an object, and that of an object can be taken. *)
Lemma inv_take d w x l : inv d w -> objs w !! x = Some l -> inv (l :: d) (with_objs (delete x (objs w)) w).
Proof.
  intros [C L H Em] Ox. split; cbn; [| | |exact Em].
  - intros k r Hk. destruct (C k r Hk) as (-> & ?). split; [|done]. rewrite (owners_split x k (objs w)), Ox, occ_cons. unfold static_ref. cbn. lia.
  - intros y k Hy. apply lookup_delete_Some in Hy as (_ & Hy). eauto.
  - intros k Hk. apply elem_of_cons in Hk as [->|Hk]; eauto.
Qed.

Lemma inv_give d w x l : inv (l :: d) w -> objs w !! x = None -> inv d (set_obj x l w).
Proof.
  intros [C L H Em] Ox. split; cbn; [| | |exact Em].
  - intros k r Hk. destruct (C k r Hk) as (-> & ?). split; [|done]. rewrite owners_insert, occ_cons by done. unfold static_ref. cbn. lia.
  - intros y k Hy. apply lookup_insert_Some in Hy as [(_ & <-)|(_ & Hy)]; [apply H; left|eauto].
  - intros k Hk. apply H. by right.
Qed.

Lemma values_take w x : values (with_objs (delete x (objs w)) w) = delete x (values w).
Proof. unfold values. cbn. apply omap_delete. Qed.

Lemma values_give w x l v : rep_at w l = Some v -> values (set_obj x l w) = <[x := v]> (values w).
Proof. intros R. unfold values. cbn. by apply omap_insert_Some. Qed.

(** ** Frames: the reference counts do not read the objects *)
Lemma Ref_frame l m w : Ref l (with_objs m w) = (do w <- Ref l w; Some (with_objs m w)).
Proof. unfold Ref. cbn. by destruct (heap w !! l). Qed.

Lemma Unref_frame l m w : Unref l (with_objs m w) = (do w <- Unref l w; Some (with_objs m w)).
Proof. unfold Unref. cbn. destruct (heap w !! l) as [r|]; [cbn|done]. by destruct (count r =? 1). Qed.

Lemma RefSharedEmptyRep_frame m w : RefSharedEmptyRep (with_objs m w) = (do (l, w) <- RefSharedEmptyRep w; Some (l, with_objs m w)).
Proof.
  unfold RefSharedEmptyRep. cbn. destruct (empty_rep w) as [l|]; cbn.
  - destruct (heap w !! l) as [r|] eqn:Hl; cbn; [|done]. destruct (is_default r); [|done]. unfold Ref. cbn. by rewrite Hl.
  - rewrite lookup_insert_eq. cbn. unfold Ref. cbn. by rewrite lookup_insert_eq.
Qed.

Lemma Unref_fields l w w' : Unref l w = Some w' -> objs w' = objs w /\ empty_rep w' = empty_rep w.
Proof. unfold Unref. destruct (heap w !! l) as [r|]; [cbn|done]. destruct (count r =? 1); by intros [= <-]. Qed.

(** ** The operations on counts *)

(** What the count operations keep. *)
Definition kept (d : list positive) (w w' : World) : Prop :=
  objs w' = objs w /\ values w' = values w /\ forall k, k ∈ d -> rep_at w' k = rep_at w k.

Lemma kept_intro d w w' : inv d w -> objs w' = objs w -> (forall k, (exists x, objs w !! x = Some k) \/ k ∈ d -> rep_at w' k = rep_at w k) -> kept d w w'.
Proof. intros I O R. split; [done|]. split; [apply values_ext; [done|]; intros x l Hx; apply R; eauto|intros k Hk; apply R; by right]. Qed.

Lemma static_ref_le w l : (static_ref w l <= 1)%nat.
Proof. unfold static_ref. destruct decide; lia. Qed.

Lemma Ref_ok d w l : inv d w -> is_Some (heap w !! l) -> Z.of_nat (size (objs w) + length d) < 2 ^ 31 - 2 ->
  exists w', Ref l w = Some w' /\ inv (l :: d) w' /\ kept d w w' /\ empty_rep w' = empty_rep w.
Proof.
  intros I (r & Hl) Sz. pose proof I as [C L H Em]. unfold Ref. rewrite Hl. cbn. eexists. split; [done|].
  destruct (C l r Hl) as (Cr & C1). pose proof (owners_le l (objs w)). pose proof (static_ref_le w l).
  assert (O : (occ l d <= length d)%nat) by apply length_filter. rewrite wraps_small by (unfold in_s; lia).
  assert (V : forall k, is_Some (heap w !! k) -> is_Some (<[l := mk_refcounted (count r + 1) (rep r)]> (heap w) !! k)).
  { intros k Hk. destruct (decide (l = k)) as [->|D]; [rewrite lookup_insert_eq|rewrite lookup_insert_ne]; eauto. }
  split; [split; cbn|split; [apply kept_intro; [done|done|]|done]].
  - intros k r' Hk. rewrite occ_cons. unfold static_ref in *. cbn. apply lookup_insert_Some in Hk as [(<- & <-)|(D & Hk)]; cbn.
    + rewrite (decide_True (P := l = l)) by done. rewrite Cr. lia.
    + rewrite (decide_False (P := l = k)) by done. destruct (C k r' Hk). lia.
  - intros x k Hx. eauto.
  - intros k Hk. apply elem_of_cons in Hk as [->|Hk]; [apply V; eauto|eauto].
  - intros k Hk. destruct (Em k Hk) as (e & He & De). destruct (decide (l = k)) as [->|D].
    + rewrite lookup_insert_eq. eexists. split; [done|]. cbn. congruence.
    + rewrite lookup_insert_ne by done. eauto.
  - intros k _. unfold rep_at. cbn. destruct (decide (l = k)) as [->|D]; [rewrite lookup_insert_eq, Hl|rewrite lookup_insert_ne]; done.
Qed.

Lemma Unref_ok d w l : inv (l :: d) w -> Z.of_nat (size (objs w) + length d) < 2 ^ 31 - 2 ->
  exists w', Unref l w = Some w' /\ inv d w' /\ kept d w w'.
Proof.
  intros I Sz. pose proof I as [C L H Em]. destruct (H l ltac:(left)) as (r & Hl). unfold Unref. rewrite Hl. cbn.
  destruct (C l r Hl) as (Cr & C1). rewrite occ_cons, decide_True in Cr by done.
  assert (Id : forall k, k ∈ d -> k ∈ l :: d) by (intros; by right).
  pose proof (owners_le l (objs w)). pose proof (static_ref_le w l). assert (O : (occ l d <= length d)%nat) by apply length_filter.
  destruct (Z.eqb_spec (count r) 1) as [E1|E1]; eexists; (split; [done|]).
  - assert (N : forall k, (exists x, objs w !! x = Some k) \/ k ∈ d \/ empty_rep w = Some k -> l <> k).
    { intros k Hk ->. destruct Hk as [(x & Hx)|[Hk|Hk]].
      - apply owners_elem in Hx. lia.
      - apply occ_elem in Hk. lia.
      - unfold static_ref in Cr. rewrite decide_True in Cr by done. lia. }
    split; [split; cbn|split; [done|split; [apply values_ext; [done|]|]]].
    + intros k r' Hk. apply lookup_delete_Some in Hk as (D & Hk). destruct (C k r' Hk) as (Ck & ?). rewrite occ_cons, decide_False in Ck by done.
      unfold static_ref in *. cbn in *. lia.
    + intros x k Hx. rewrite lookup_delete_ne by eauto. eauto.
    + intros k Hk. rewrite lookup_delete_ne by (apply N; auto). auto.
    + intros k Hk. rewrite lookup_delete_ne by (apply N; auto). auto.
    + intros x k Hx. unfold rep_at. cbn. by rewrite lookup_delete_ne by eauto.
    + intros k Hk. unfold rep_at. cbn. by rewrite lookup_delete_ne by (apply N; auto).
  - rewrite wraps_small by (unfold in_s; lia).
    assert (V : forall k, is_Some (heap w !! k) -> is_Some (<[l := mk_refcounted (count r - 1) (rep r)]> (heap w) !! k)).
    { intros k Hk. destruct (decide (l = k)) as [->|D]; [rewrite lookup_insert_eq|rewrite lookup_insert_ne]; eauto. }
    assert (R : forall k, rep_at (set_heap w (<[l := mk_refcounted (count r - 1) (rep r)]> (heap w))) k = rep_at w k).
    { intros k. unfold rep_at. cbn. destruct (decide (l = k)) as [->|D]; [rewrite lookup_insert_eq, Hl|rewrite lookup_insert_ne]; done. }
    split; [split; cbn|split; [done|split; [apply values_ext; [done|]; intros; apply R|intros; apply R]]].
    + intros k r' Hk. unfold static_ref in *. cbn. apply lookup_insert_Some in Hk as [(<- & <-)|(D & Hk)]; cbn; [lia|].
      destruct (C k r' Hk) as (Ck & ?). rewrite occ_cons, (decide_False (P := l = k)) in Ck by done. lia.
    + intros x k Hx. eauto.
    + intros k Hk. eauto.
    + intros k Hk. destruct (Em k Hk) as (e & He & De). destruct (decide (l = k)) as [->|D].
      * rewrite lookup_insert_eq. eexists. split; [done|]. cbn. congruence.
      * rewrite lookup_insert_ne by done. eauto.
Qed.

Lemma with_objs_id w m m' : with_objs m (with_objs m' w) = with_objs m w.
Proof. done. Qed.

Lemma with_objs_objs w : with_objs (objs w) w = w.
Proof. by destruct w. Qed.

Lemma unused d w l : inv d w -> heap w !! l = None -> owners l (objs w) = 0%nat /\ static_ref w l = 0%nat /\ occ l d = 0%nat.
Proof.
  intros [C L H Em] N. repeat split.
  - destruct (owners l (objs w)) as [|n] eqn:Eo; [done|]. unfold owners in Eo.
    destruct (map_choose (filter (fun p : nat * positive => p.2 = l) (objs w))) as (x & k & Hx).
    { intros Z0. rewrite Z0, map_size_empty in Eo. lia. }
    apply map_lookup_filter_Some in Hx as (Hx & Ek). cbn in Ek. subst k. destruct (L x l Hx). congruence.
  - unfold static_ref. destruct decide as [D|D]; [|done]. destruct (Em l D) as (? & ? & _). congruence.
  - destruct (occ l d) as [|n] eqn:Eo; [done|]. destruct (H l); [apply occ_pos; lia|congruence].
Qed.

Lemma alloc_ok d w r l w' : inv d w -> alloc r w = (l, w') -> inv (l :: d) w' /\ kept d w w' /\ heap w' !! l = Some (new_rep r) /\
  heap w !! l = None /\ empty_rep w' = empty_rep w /\ empty_rep w <> Some l /\ forall k, k <> l -> heap w' !! k = heap w !! k.
Proof.
  intros I Al. unfold alloc in Al. injection Al as <- <-. set (l := fresh (dom (heap w))). cbn.
  assert (N : heap w !! l = None) by (apply not_elem_of_dom, is_fresh).
  destruct (unused d w l I N) as (U1 & U2 & U3). pose proof I as [C L H Em].
  assert (Ne : forall k, is_Some (heap w !! k) -> l <> k) by (intros k (? & ?) <-; congruence).
  assert (NE : empty_rep w <> Some l) by (intros D; destruct (Em l D) as (? & ? & _); congruence).
  assert (Lk : forall k, is_Some (heap w !! k) -> <[l := new_rep r]> (heap w) !! k = heap w !! k) by (intros k Hk; apply lookup_insert_ne; auto).
  split; [split; cbn|split; [apply kept_intro; [done|done|]|split; [apply lookup_insert_eq|split; [done|split; [done|split; [done|]]]]]].
  - intros k r' Hk. rewrite occ_cons. apply lookup_insert_Some in Hk as [(<- & <-)|(D & Hk)]; cbn.
    + rewrite decide_True by done. unfold static_ref in *. cbn. lia.
    + rewrite (decide_False (P := l = k)) by done. destruct (C k r' Hk). unfold static_ref in *. cbn. lia.
  - intros x k Hx. rewrite Lk by eauto. eauto.
  - intros k Hk. apply elem_of_cons in Hk as [->|Hk]; [rewrite lookup_insert_eq; eauto|rewrite Lk; auto].
  - intros k Hk. rewrite Lk by (destruct (Em k Hk) as (? & ? & _); eauto). auto.
  - intros k Hk. unfold rep_at. cbn. rewrite Lk; [done|]. destruct Hk as [(x & Hx)|Hk]; eauto.
  - intros k Hk. by apply lookup_insert_ne.
Qed.

Lemma kept_trans d w1 w2 w3 : kept d w1 w2 -> kept d w2 w3 -> kept d w1 w3.
Proof. intros (O1 & V1 & R1) (O2 & V2 & R2). split; [congruence|]. split; [congruence|]. intros k Hk. rewrite R2, R1 by done. done. Qed.

Lemma shared_empty d w l : inv d w -> empty_rep w = Some l -> Z.of_nat (size (objs w) + length d) < 2 ^ 31 - 2 ->
  exists w', (do r <- heap w !! l; if is_default r then do w <- Ref l w; Some (l, w) else None) = Some (l, w') /\
    inv (l :: d) w' /\ kept d w w' /\ rep_at w' l = Some default_rep.
Proof.
  intros I Em Sz. destruct (i_empty _ _ I l Em) as (r & Hl & Dr). destruct (i_count _ _ I l r Hl) as (_ & C1).
  rewrite Hl. cbn. replace (is_default r) with true.
  2: { unfold is_default. rewrite Dr. cbn. rewrite (proj2 (Z.leb_le _ _)) by exact C1. done. }
  destruct (Ref_ok d w l I ltac:(eauto) Sz) as (w' & Rw & I' & K & Em'). rewrite Rw. cbn. exists w'. split; [done|]. split; [done|]. split; [done|].
  destruct (i_empty _ _ I' l ltac:(congruence)) as (r' & Hl' & Dr'). unfold rep_at. rewrite Hl'. cbn. by rewrite Dr'.
Qed.

Lemma RefSharedEmptyRep_ok d w : inv d w -> Z.of_nat (size (objs w) + length d) < 2 ^ 31 - 2 ->
  exists e w', RefSharedEmptyRep w = Some (e, w') /\ inv (e :: d) w' /\ kept d w w' /\ rep_at w' e = Some default_rep.
Proof.
  intros I Sz. unfold RefSharedEmptyRep. destruct (empty_rep w) as [l|] eqn:Em; [exists l; by apply shared_empty|].
  destruct (alloc default_rep w) as (l & w1) eqn:Al. destruct (alloc_ok d w default_rep l w1 I Al) as (I1 & K1 & Hl & N & E1 & _ & _).
  set (w2 := mk_world (heap w1) (objs w1) (Some l)).
  assert (I2 : inv d w2).
  { destruct I1 as [C L H _]. split; cbn; [|done|intros k Hk; apply H; by right|].
    - intros k r Hk. destruct (C k r Hk) as (Ck & ?). split; [|done]. rewrite occ_cons in Ck. unfold static_ref in *. cbn. rewrite E1, Em in Ck.
      rewrite (decide_False (P := None = Some k)) in Ck by done. destruct (decide (l = k)) as [->|D]; [rewrite decide_True by done|rewrite decide_False by congruence]; lia.
    - intros k Hk. injection Hk as <-. by exists (new_rep default_rep). }
  assert (K2 : kept d w1 w2) by (split; [done|split; done]).
  destruct K1 as (O1 & K1). exists l. destruct (shared_empty d w2 l I2 eq_refl) as (w' & -> & I' & K' & R'); [cbn; by rewrite O1|].
  exists w'. split; [done|]. split; [done|]. split; [|done]. apply (kept_trans d w w1); [done|]. by apply (kept_trans d w1 w2).
Qed.

(** ** The objects behave as values *)
Section Objects.
Context (E : CRC).

(** [Normalize] on a value. *)
Definition normalize_rep (r : Rep) : option Rep :=
  if IsNormalized r || match prefix_crc r with [] => true | _ => false end then Some r
  else do ps <- normalize_entries E (removed_prefix r) (prefix_crc r); Some (mk_rep default_prefix ps).

(** What the program does with its objects; [Write] is a client that stores through [mutable_rep()]. *)
Inductive op :=
| Construct (x : nat)
| CopyConstruct (x other : nat)
| MoveConstruct (x other : nat)
| CopyAssign (x other : nat)
| MoveAssign (x other : nat)
| Destroy (x : nat)
| NormalizeObj (x : nat)
| PoisonObj (x : nat)
| Write_rep (x : nat) (v : Rep).

Definition write (x : nat) (v : Rep) (w : World) : option World := do (l, w) <- mutable_rep x w; store_rep l v w.

Definition run (o : op) : World -> option World :=
  match o with
  | Construct x => construct x
  | CopyConstruct x other => copy_construct x other
  | MoveConstruct x other => move_construct x other
  | CopyAssign x other => copy_assign x other
  | MoveAssign x other => move_assign x other
  | Destroy x => destroy x
  | NormalizeObj x => Normalize E x
  | PoisonObj x => Poison x
  | Write_rep x v => write x v
  end.

(** The same on independent values; [None] for an object that is constructed twice or used outside its lifetime. *)
Definition spec (o : op) (vs : gmap nat Rep) : option (gmap nat Rep) :=
  match o with
  | Construct x => match vs !! x with None => Some (<[x := default_rep]> vs) | Some _ => None end
  | CopyConstruct x other => match vs !! x with None => do v <- vs !! other; Some (<[x := v]> vs) | Some _ => None end
  | MoveConstruct x other => match vs !! x with None => do v <- vs !! other; Some (<[other := default_rep]> (<[x := v]> vs)) | Some _ => None end
  | CopyAssign x other => do _ <- vs !! x; do v <- vs !! other; Some (<[x := v]> vs)
  | MoveAssign x other => do _ <- vs !! x; do v <- vs !! other; Some (if Nat.eqb x other then vs else <[other := default_rep]> (<[x := v]> vs))
  | Destroy x => do _ <- vs !! x; Some (delete x vs)
  | NormalizeObj x => do v <- vs !! x; do v <- normalize_rep v; Some (<[x := v]> vs)
  | PoisonObj x => do v <- vs !! x; Some (<[x := poison_rep v]> vs)
  | Write_rep x v => do _ <- vs !! x; Some (<[x := v]> vs)
  end.

Definition refined (w' : option World) (vs : gmap nat Rep) : Prop := exists w, w' = Some w /\ inv [] w /\ values w = vs.

Section Step.
Context (w : World) (I : inv [] w) (Sz : Z.of_nat (size (objs w)) < 2 ^ 31 - 8).

Lemma value_at x v : values w !! x = Some v -> exists l, objs w !! x = Some l /\ rep_at w l = Some v.
Proof. rewrite values_lookup. destruct (objs w !! x) as [l|]; cbn; [eauto|done]. Qed.

Lemma value_none x : values w !! x = None -> objs w !! x = None.
Proof.
  rewrite values_lookup. destruct (objs w !! x) as [l|] eqn:Ox; [|done]. destruct (i_live _ _ I x l Ox) as (r & Hl). cbn. unfold rep_at. by rewrite Hl.
Qed.

Lemma delete_size x : (size (delete x (objs w)) <= size (objs w))%nat.
Proof. apply map_subseteq_size, delete_subseteq. Qed.

Lemma construct_ok x : values w !! x = None -> refined (construct x w) (<[x := default_rep]> (values w)).
Proof.
  intros N. apply value_none in N. unfold construct. destruct (alloc default_rep w) as (l & w1) eqn:Al.
  destruct (alloc_ok [] w default_rep l w1 I Al) as (I1 & (O1 & V1 & _) & Hl & _). eexists. split; [done|].
  split; [apply inv_give; [done|by rewrite O1]|]. rewrite <- V1. apply values_give. unfold rep_at. by rewrite Hl.
Qed.

Lemma copy_construct_ok x other v : values w !! x = None -> values w !! other = Some v ->
  refined (copy_construct x other w) (<[x := v]> (values w)).
Proof.
  intros N (l & Ol & Rl)%value_at. apply value_none in N. unfold copy_construct. rewrite Ol. cbn [obind].
  destruct (Ref_ok [] w l I (i_live _ _ I _ _ Ol)) as (w1 & R1 & I1 & (O1 & V1 & _) & _); [cbn; lia|].
  assert (Rl' : rep_at w1 l = Some v).
  { assert (Q : values w1 !! other = Some v) by (rewrite V1, values_lookup, Ol; exact Rl). rewrite values_lookup, O1, Ol in Q. exact Q. }
  change (set_obj x l w) with (with_objs (<[x := l]> (objs w)) w). rewrite Ref_frame, R1. cbn [obind]. eexists. split; [done|].
  rewrite <- O1. change (with_objs (<[x := l]> (objs w1)) w1) with (set_obj x l w1).
  split; [apply inv_give; [done|by rewrite O1]|]. rewrite <- V1. by apply values_give.
Qed.

(** The object [x] gives its reference up. *)
Lemma release x l : objs w !! x = Some l -> exists w1, Unref l w = Some w1 /\ objs w1 = objs w /\
  inv [] (with_objs (delete x (objs w)) w1) /\ values (with_objs (delete x (objs w)) w1) = delete x (values w).
Proof.
  intros Ox. pose proof (inv_take [] w x l I Ox) as It. pose proof (delete_size x).
  destruct (Unref_ok [] _ l It) as (w2 & U2 & I2 & (O2 & V2 & _)); [cbn; lia|]. rewrite Unref_frame in U2.
  destruct (Unref l w) as [w1|] eqn:U1; [|done]. cbn in U2. injection U2 as <-. exists w1. split; [done|].
  rewrite values_take in V2. split; [|done].
  by apply Unref_fields in U1 as (? & _).
Qed.

Lemma destroy_ok x v : values w !! x = Some v -> refined (destroy x w) (delete x (values w)).
Proof.
  intros (l & Ol & Rl)%value_at. unfold destroy. rewrite Ol. cbn [obind]. destruct (release x l Ol) as (w1 & -> & O1 & I1 & V1).
  cbn [obind]. eexists. split; [done|]. rewrite O1. done.
Qed.
End Step.
End Objects.

Lemma move_construct_ok w x other v : inv [] w -> Z.of_nat (size (objs w)) < 2 ^ 31 - 8 -> values w !! x = None -> values w !! other = Some v ->
  refined (move_construct x other w) (<[other := default_rep]> (<[x := v]> (values w))).
Proof.
  intros I Sz N (l & Ol & Rl)%value_at. pose proof (value_none w I x N) as Nx. assert (D : x <> other) by congruence.
  unfold move_construct. rewrite Ol. cbn [obind]. pose proof (inv_take [] w other l I Ol) as It. pose proof (values_take w other) as Vt.
  assert (Nx' : delete other (objs w) !! x = None) by (by rewrite lookup_delete_ne).
  pose proof (inv_give [] _ x l It Nx') as Ig. pose proof (values_give (with_objs (delete other (objs w)) w) x l v Rl) as Vg.
  rewrite Vt in Vg. set (g := set_obj x l (with_objs (delete other (objs w)) w)) in *.
  destruct (RefSharedEmptyRep_ok [] g Ig) as (e & w2 & R2 & I2 & (O2 & V2 & _) & Re).
  { cbn. rewrite map_size_insert_None by done. pose proof (delete_size w other). lia. }
  change (set_obj x l w) with (with_objs (<[x := l]> (objs w)) g). rewrite RefSharedEmptyRep_frame, R2. cbn [obind]. eexists. split; [done|].
  assert (Oe : set_obj other e (with_objs (<[x := l]> (objs w)) w2) = set_obj other e w2).
  { unfold set_obj. cbn. f_equal. rewrite O2. cbn. rewrite <- (insert_delete_eq (<[x := l]> (objs w)) other e).
    rewrite (delete_insert_ne (objs w)) by done. by rewrite <- (insert_delete_eq (<[x := l]> (delete other (objs w))) other e), (delete_insert_ne (delete other (objs w))), delete_delete_eq by done. }
  rewrite Oe. split; [apply inv_give; [done|rewrite O2; cbn; by rewrite lookup_insert_ne, lookup_delete_eq by done]|].
  rewrite (values_give w2 other e _ Re), V2, Vg.
  rewrite <- (insert_delete_eq (<[x := v]> (values w)) other), (delete_insert_ne (values w)) by done.
  by rewrite <- (insert_delete_eq (<[x := v]> (delete other (values w))) other), (delete_insert_ne (delete other (values w))), delete_delete_eq by done.
Qed.

(** Assignment releases the old value and then constructs. *)
Lemma assign_ok (assign make : nat -> nat -> World -> option World) w x other v v' :
  (forall l w1, objs w !! x = Some l -> Unref l w = Some w1 -> objs w1 = objs w -> assign x other w = make x other (with_objs (delete x (objs w)) w1)) ->
  inv [] w -> Z.of_nat (size (objs w)) < 2 ^ 31 - 8 -> values w !! x = Some v' -> values w !! other = Some v -> x <> other ->
  exists w1, assign x other w = make x other w1 /\ inv [] w1 /\ Z.of_nat (size (objs w1)) < 2 ^ 31 - 8 /\
    values w1 !! x = None /\ values w1 !! other = Some v /\ values w1 = delete x (values w).
Proof.
  intros As I Sz (l & Ol & _)%value_at Vo D. destruct (release w I Sz x l Ol) as (w1 & U1 & O1 & I1 & V1).
  eexists. split; [by apply As with l|]. split; [done|]. split; [cbn; pose proof (delete_size w x); lia|].
  rewrite V1. split; [apply lookup_delete_eq|]. split; [by rewrite lookup_delete_ne|done].
Qed.

Lemma copy_assign_ok w x other v v' : inv [] w -> Z.of_nat (size (objs w)) < 2 ^ 31 - 8 -> values w !! x = Some v' -> values w !! other = Some v ->
  refined (copy_assign x other w) (<[x := v]> (values w)).
Proof.
  intros I Sz Vx Vo. destruct (decide (x = other)) as [->|D].
  { unfold copy_assign. rewrite Nat.eqb_refl. exists w. split; [done|]. split; [done|]. by rewrite insert_id. }
  destruct (assign_ok copy_assign copy_construct w x other v v') as (w1 & -> & I1 & S1 & N1 & Vo1 & V1); try done.
  - intros l w1 Ol U1 O1. unfold copy_assign. rewrite (proj2 (Nat.eqb_neq _ _)) by done. rewrite Ol. cbn [obind]. rewrite U1. cbn [obind]. rewrite O1.
    unfold copy_construct, set_obj. cbn. rewrite lookup_delete_ne by done. destruct (objs w !! other) as [l2|]; [|done]. cbn.
    by rewrite O1, insert_delete_eq.
  - rewrite <- insert_delete_eq, <- V1. by apply copy_construct_ok.
Qed.

Lemma move_assign_ok w x other v v' : inv [] w -> Z.of_nat (size (objs w)) < 2 ^ 31 - 8 -> values w !! x = Some v' -> values w !! other = Some v ->
  refined (move_assign x other w) (if Nat.eqb x other then values w else <[other := default_rep]> (<[x := v]> (values w))).
Proof.
  intros I Sz Vx Vo. destruct (Nat.eqb_spec x other) as [->|D].
  { unfold move_assign. rewrite Nat.eqb_refl. by exists w. }
  destruct (assign_ok move_assign move_construct w x other v v') as (w1 & -> & I1 & S1 & N1 & Vo1 & V1); try done.
  - intros l w1 Ol U1 O1. unfold move_assign. rewrite (proj2 (Nat.eqb_neq _ _)) by done. rewrite Ol. cbn [obind]. rewrite U1. cbn [obind]. rewrite O1.
    unfold move_construct, set_obj. cbn. rewrite lookup_delete_ne by done. destruct (objs w !! other) as [l2|]; [|done]. cbn.
    by rewrite O1, insert_delete_eq.
  - rewrite <- (insert_delete_eq (values w) x v), <- V1. by apply move_construct_ok.
Qed.

(** ** Copy on write *)

(** After [mutable_rep] the object is the only one that points to its representation, which has its old value. *)
Lemma mutable_rep_ok w x v : inv [] w -> Z.of_nat (size (objs w)) < 2 ^ 31 - 8 -> values w !! x = Some v ->
  exists l w', mutable_rep x w = Some (l, w') /\ inv [] w' /\ values w' = values w /\ objs w' !! x = Some l /\
    heap w' !! l = Some (new_rep v).
Proof.
  intros I Sz (l & Ol & Rl)%value_at. unfold rep_at in Rl. destruct (heap w !! l) as [r|] eqn:Hl; [|done]. cbn in Rl. injection Rl as Rv.
  unfold mutable_rep. rewrite Ol. cbn [obind]. rewrite Hl. cbn [obind]. destruct (Z.eqb_spec (count r) 1) as [E1|E1]; cbn [negb].
  { exists l, w. do 4 (split; [done|]). rewrite Hl. destruct r. cbn in *. by subst. }
  destruct (alloc default_rep w) as (copy & w0) eqn:A0. destruct (alloc v w) as (copy' & w1) eqn:A1.
  destruct (alloc_ok [] w v copy' w1 I A1) as (I1 & (O1 & V1 & _) & H1 & N1 & _ & _ & K1).
  unfold alloc in A0, A1. injection A0 as <- <-. injection A1 as <- Ew1. cbn [heap set_heap]. set (copy := fresh (dom (heap w))) in *.
  assert (D : copy <> l) by congruence. rewrite lookup_insert_ne, Hl by done. cbn [obind]. rewrite insert_insert_eq.
  replace (set_heap _ _) with w1 by (rewrite <- Ew1; unfold set_heap, new_rep; cbn; by rewrite Rv).
  assert (Ol1 : objs w1 !! x = Some l) by (by rewrite O1). pose proof (inv_take [copy] w1 x l I1 Ol1) as It.
  destruct (Unref_ok [copy] _ l It) as (w2 & U2 & I2 & (O2 & V2 & R2)); [cbn; rewrite O1; pose proof (delete_size w x); lia|].
  rewrite Unref_frame in U2. destruct (Unref l w1) as [w3|] eqn:U1; [|done]. cbn in U2. injection U2 as <-. cbn [obind].
  exists copy, (set_obj x copy w3). split; [done|].
  destruct (Unref_fields l w1 w3 U1) as (O3 & Es3). rewrite O1 in O3. rewrite <- Ew1 in Es3. cbn in Es3.
  assert (Es : set_obj x copy w3 = set_obj x copy (with_objs (delete x (objs w1)) w3)).
  { unfold set_obj. cbn. f_equal. rewrite O3, O1. by rewrite insert_delete_eq. }
  assert (Rc : rep_at w3 copy = Some v).
  { specialize (R2 copy ltac:(left)). unfold rep_at in R2. cbn in R2. unfold rep_at. rewrite R2, H1. done. }
  assert (Ig : inv [] (set_obj x copy w3)).
  { rewrite Es. apply inv_give; [done|]. cbn. apply lookup_delete_eq. }
  split; [done|]. split.
  { rewrite Es, (values_give (with_objs (delete x (objs w1)) w3) x copy v Rc), V2, values_take, V1, insert_delete_eq. apply insert_id. rewrite values_lookup, Ol. cbn.
    unfold rep_at. rewrite Hl. cbn. by rewrite Rv. }
  split; [apply lookup_insert_eq|]. cbn. unfold rep_at in Rc. destruct (heap w3 !! copy) as [[c v']|] eqn:H3; [|done]. cbn in Rc. injection Rc as ->.
  destruct (i_count _ _ I2 copy _ H3) as (C2 & _). cbn in C2. unfold new_rep. do 2 f_equal. rewrite C2.
  assert (Own : owners copy (delete x (objs w1)) = 0%nat).
  { destruct (unused [] w copy I N1) as (U0 & _). rewrite (owners_split x) in U0. rewrite O1. lia. }
  rewrite Own, occ_cons, (decide_True (P := copy = copy)) by done. change (occ copy []) with 0%nat. unfold static_ref. cbn.
  rewrite Es3, decide_False; [done|].
  intros Em. destruct (i_empty _ _ I _ Em) as (? & ? & _). congruence.
Qed.

Lemma unique_owner w x l r : inv [] w -> objs w !! x = Some l -> heap w !! l = Some r -> count r = 1 ->
  empty_rep w <> Some l /\ forall y, objs w !! y = Some l -> y = x.
Proof.
  intros I Ox Hl C1. destruct (i_count _ _ I l r Hl) as (C & _). unfold occ in C. cbn in C.
  rewrite (owners_split x l), Ox, decide_True in C by done. split.
  - intros Em. unfold static_ref in C. rewrite decide_True in C by done. lia.
  - intros y Hy. destruct (decide (x = y)) as [->|D]; [done|].
    pose proof (owners_elem y l (delete x (objs w))) as Q. rewrite lookup_delete_ne in Q by done. specialize (Q Hy). lia.
Qed.

Lemma store_rep_ok w x l v v' : inv [] w -> objs w !! x = Some l -> heap w !! l = Some (new_rep v) ->
  refined (store_rep l v' w) (<[x := v']> (values w)).
Proof.
  intros I Ox Hl. unfold store_rep. rewrite Hl. cbn [obind count new_rep]. eexists. split; [done|].
  destruct (unique_owner w x l _ I Ox Hl eq_refl) as (NE & U). pose proof I as [C L H Em].
  assert (V : forall k, is_Some (heap w !! k) -> is_Some (<[l := mk_refcounted 1 v']> (heap w) !! k)).
  { intros k Hk. destruct (decide (l = k)) as [->|D]; [rewrite lookup_insert_eq|rewrite lookup_insert_ne]; eauto. }
  split; [split; cbn|].
  - intros k r Hk. apply lookup_insert_Some in Hk as [(<- & <-)|(D & Hk)]; [exact (C l _ Hl)|exact (C k r Hk)].
  - eauto.
  - intros k Hk. by apply elem_of_nil in Hk.
  - intros k Hk. rewrite lookup_insert_ne by congruence. eauto.
  - apply map_eq. intros y. rewrite values_lookup. cbn. unfold rep_at. cbn. destruct (decide (x = y)) as [->|D].
    + rewrite lookup_insert_eq, Ox. cbn. by rewrite lookup_insert_eq.
    + rewrite (lookup_insert_ne (values w)), values_lookup by done. destruct (objs w !! y) as [k|] eqn:Oy; [|done]. cbn.
      rewrite lookup_insert_ne; [done|]. intros ->. by apply U in Oy.
Qed.

(** A read and a write through [mutable_rep]. *)
Lemma update_ok w x v f v' : inv [] w -> Z.of_nat (size (objs w)) < 2 ^ 31 - 8 -> values w !! x = Some v -> f v = Some v' ->
  refined (do (l, w) <- mutable_rep x w; do r <- load_rep l w; do r <- f r; store_rep l r w) (<[x := v']> (values w)).
Proof.
  intros I Sz Vx F. destruct (mutable_rep_ok w x v I Sz Vx) as (l & w' & -> & I' & V' & O' & H'). cbn [obind].
  unfold load_rep. rewrite H'. cbn [obind rep new_rep]. rewrite F. cbn [obind]. rewrite <- V'. by apply store_rep_ok with v.
Qed.

Section Program.
Context (E : CRC).

(** Each operation, from a state whose counts are exact, does on the objects what it does on values. *)
Lemma run_refines o w vs : inv [] w -> Z.of_nat (size (objs w)) < 2 ^ 31 - 8 -> spec E o (values w) = Some vs -> refined (run E o w) vs.
Proof.
  intros I Sz Sp. destruct o as [x|x y|x y|x y|x y|x|x|x|x v0]; cbn [spec run] in *; destruct (values w !! x) as [v|] eqn:Vx; try done; cbn [obind] in Sp.
  - injection Sp as <-. by apply construct_ok.
  - destruct (values w !! y) as [u|] eqn:Vy; [|done]. injection Sp as <-. by apply copy_construct_ok.
  - destruct (values w !! y) as [u|] eqn:Vy; [|done]. injection Sp as <-. by apply move_construct_ok.
  - destruct (values w !! y) as [u|] eqn:Vy; [|done]. injection Sp as <-. by apply copy_assign_ok with v.
  - destruct (values w !! y) as [u|] eqn:Vy; [|done]. injection Sp as <-. by apply move_assign_ok with v.
  - injection Sp as <-. by apply destroy_ok with v.
  - assert (Rx : rep_of x w = Some v).
    { unfold rep_of. rewrite values_lookup in Vx. destruct (objs w !! x) as [l|]; [|done]. cbn in *. unfold rep_at in Vx. by destruct (heap w !! l). }
    unfold Normalize. rewrite Rx. cbn [obind]. destruct (normalize_rep E v) as [v'|] eqn:Nv; [|done]. injection Sp as <-. unfold normalize_rep in Nv.
    destruct (IsNormalized v || _).
    + injection Nv as ->. exists w. by rewrite insert_id.
    + pose proof (update_ok w x v (fun r => do ps <- normalize_entries E (removed_prefix r) (prefix_crc r); Some (mk_rep default_prefix ps)) v' I Sz Vx Nv) as (w' & Q & R).
      exists w'. split; [|exact R]. rewrite <- Q. destruct (mutable_rep x w) as [(l & w1)|]; [|done]. cbn [obind]. destruct (load_rep l w1) as [r|]; [|done]. cbn [obind].
      by destruct (normalize_entries E (removed_prefix r) (prefix_crc r)).
  - injection Sp as <-. by apply (update_ok w x v (fun r => Some (poison_rep r))).
  - injection Sp as <-. destruct (update_ok w x v (fun _ => Some v0) v0 I Sz Vx eq_refl) as (w' & Q & R). exists w'. split; [|exact R].
    rewrite <- Q. unfold write. destruct (mutable_rep_ok w x v I Sz Vx) as (l & w1 & -> & _ & _ & _ & H1). cbn. unfold load_rep. by rewrite H1.
Qed.

Fixpoint run_all (os : list op) (w : World) : option World :=
  match os with [] => Some w | o :: os => do w <- run E o w; run_all os w end.

Fixpoint spec_all (os : list op) (vs : gmap nat Rep) : option (gmap nat Rep) :=
  match os with [] => Some vs | o :: os => do vs <- spec E o vs; spec_all os vs end.

Lemma values_size d w : inv d w -> size (values w) = size (objs w).
Proof.
  intros I. rewrite <- !size_dom. f_equal. apply set_eq. intros x. rewrite !elem_of_dom, values_lookup. split.
  - intros (v & Hv). destruct (objs w !! x); [eauto|done].
  - intros (l & Hx). rewrite Hx. cbn. destruct (i_live _ _ I x l Hx) as (r & Hl). unfold rep_at. rewrite Hl. cbn. eauto.
Qed.

Lemma insert_size {A} (x : nat) (v : A) (m : gmap nat A) : (size (<[x := v]> m) <= S (size m))%nat.
Proof. rewrite map_size_insert. destruct (m !! x); cbn; lia. Qed.

Lemma spec_size o vs vs' : spec E o vs = Some vs' -> (size vs' <= S (size vs))%nat.
Proof.
  destruct o as [x|x y|x y|x y|x y|x|x|x|x v0]; cbn [spec]; destruct (vs !! x) as [v|] eqn:Vx; try done; cbn [obind].
  - intros [= <-]. apply insert_size.
  - destruct (vs !! y) as [u|] eqn:Vy; [|done]. intros [= <-]. apply insert_size.
  - destruct (vs !! y) as [u|] eqn:Vy; [|done]. intros [= <-]. destruct (decide (x = y)) as [->|D]; [congruence|].
    rewrite map_size_insert, lookup_insert_ne, Vy by done. apply insert_size.
  - destruct (vs !! y) as [u|] eqn:Vy; [|done]. intros [= <-]. apply insert_size.
  - destruct (vs !! y) as [u|] eqn:Vy; [|done]. intros [= <-]. destruct (Nat.eqb_spec x y) as [->|D]; [lia|].
    rewrite map_size_insert, lookup_insert_ne, Vy by done. apply insert_size.
  - intros [= <-]. rewrite map_size_delete, Vx. lia.
  - destruct (normalize_rep E v); [|done]. intros [= <-]. apply insert_size.
  - intros [= <-]. apply insert_size.
  - intros [= <-]. apply insert_size.
Qed.

Lemma run_all_refines : forall os w vs, inv [] w -> Z.of_nat (size (objs w) + length os) < 2 ^ 31 - 8 -> spec_all os (values w) = Some vs -> refined (run_all os w) vs.
Proof.
  induction os as [|o os IH]; intros w vs I Sz Sp; cbn [spec_all run_all] in *.
  - injection Sp as <-. by exists w.
  - destruct (spec E o (values w)) as [vs1|] eqn:S1; [|done]. cbn [obind] in Sp.
    destruct (run_refines o w vs1 I ltac:(lia) S1) as (w1 & -> & I1 & <-). cbn [obind]. apply IH; [done| |done].
    apply spec_size in S1. rewrite !(values_size []) in S1 by done. cbn in Sz. lia.
Qed.

Lemma inv_no_objects : inv [] no_objects.
Proof. split; cbn; intros; try done. by apply elem_of_nil in H. Qed.

(** Every live representation but the shared empty one has an object. *)
Lemma no_leak w l : inv [] w -> is_Some (heap w !! l) -> empty_rep w = Some l \/ exists x, objs w !! x = Some l.
Proof.
  intros I (r & Hl). destruct (i_count _ _ I l r Hl) as (C & C1). unfold static_ref, occ in C. cbn in C.
  destruct (decide (empty_rep w = Some l)) as [D|D]; [by left|right].
  destruct (map_choose (filter (fun p : nat * positive => p.2 = l) (objs w))) as (x & k & Hx).
  { intros Z0. unfold owners in C. rewrite Z0, map_size_empty in C. lia. }
  apply map_lookup_filter_Some in Hx as (Hx & <-). eauto.
Qed.

End Program.

(** ** The checksums of a cord *)
Section Contents.
Context (E : CRC) {EL : Engine E}.

(** The entry of the first [n] bytes of [m], after [p]. *)
Definition entry (p m : list Z) (n : nat) : PrefixCrc := mk_prefix (zlen p + Z.of_nat n) (crc32c 0 (p ++ take n m)).

(** The cord holds [m], after a prefix [p] that was removed; [ns] are the ends of the chunks. *)
Record describes (p m : list Z) (ns : list nat) (r : Rep) : Prop := {
  d_removed : removed_prefix r = mk_prefix (zlen p) (crc32c 0 p);
  d_chunks : prefix_crc r = List.map (entry p m) ns;
  d_bounds : Forall (fun n => (n <= length m)%nat) ns;
  d_last : last ns = if decide (m = []) then last ns else Some (length m)
}.

Context (p m : list Z) (ns : list nat) (r : Rep) (D : describes p m ns r).
Context (Fp : Forall (in_u 8) p) (Fm : Forall (in_u 8) m) (Len : zlen (p ++ m) < 2 ^ 64).

Lemma zero_range : in_u 32 0.
Proof. unfold in_u. lia. Qed.

Lemma empty_crc : crc32c 0 [] = 0.
Proof. reflexivity. Qed.

Lemma prefix_length : zlen p + zlen m < 2 ^ 64.
Proof. unfold zlen in *. rewrite length_app in Len. lia. Qed.

Lemma entry_remaining n : (n <= length m)%nat -> length_ (entry p m n) -[64] length_ (removed_prefix r) = Z.of_nat n.
Proof.
  intros N. rewrite (d_removed _ _ _ _ D). cbn [entry length_]. pose proof prefix_length. unfold zlen in *. rewrite wrapu_small by (unfold in_u; lia). lia.
Qed.

Lemma entry_removed n : (n <= length m)%nat ->
  RemoveCrc32cPrefix E (crc_ (removed_prefix r)) (crc_ (entry p m n)) (Z.of_nat n) = Some (crc32c 0 (take n m)).
Proof.
  intros N. rewrite (d_removed _ _ _ _ D). cbn [crc_ entry]. rewrite crc32c_app. pose proof prefix_length. unfold zlen in *.
  replace (Z.of_nat n) with (zlen (take n m)) by (unfold zlen; rewrite length_take; lia).
  apply RemoveCrc32cPrefix_spec; [done|apply crc32c_range; [apply zero_range|done]|by apply Forall_take|unfold zlen; rewrite length_take; lia].
Qed.

Lemma normalize_entry_spec n : (n <= length m)%nat -> normalize_entry E (removed_prefix r) (entry p m n) = Some (entry [] m n).
Proof.
  intros N. unfold normalize_entry. rewrite entry_remaining by done. cbv zeta. rewrite entry_removed by done. done.
Qed.

Lemma normalized_prefix : IsNormalized r = true -> p = [].
Proof. unfold IsNormalized. rewrite (d_removed _ _ _ _ D). cbn [length_]. rewrite Z.eqb_eq. unfold zlen. destruct p; [done|]. cbn [length]. lia. Qed.

Lemma normalize_entries_spec : forall l, Forall (fun n => (n <= length m)%nat) l ->
  normalize_entries E (removed_prefix r) (List.map (entry p m) l) = Some (List.map (entry [] m) l).
Proof.
  induction l as [|n l IH]; intros F; [done|]. apply Forall_cons in F as (N & F). cbn [List.map normalize_entries].
  rewrite normalize_entry_spec by done. cbn [obind]. by rewrite IH.
Qed.

Lemma nth_chunk_spec i n : ns !! i = Some n -> nth_chunk E r i = Some (entry [] m n).
Proof.
  intros Hi. unfold nth_chunk. rewrite (d_chunks _ _ _ _ D). change (List.map (entry p m) ns) with (entry p m <$> ns). rewrite list_lookup_fmap, Hi. cbn.
  assert (N : (n <= length m)%nat) by (pose proof (d_bounds _ _ _ _ D) as F; rewrite Forall_lookup in F; eauto).
  destruct (IsNormalized r) eqn:No; [by rewrite (normalized_prefix No)|by apply normalize_entry_spec].
Qed.

(** The cord is empty, or its last chunk ends where it does. *)
Lemma last_chunk : (ns = [] /\ m = []) \/ exists l, ns = l ++ [length m].
Proof.
  destruct D as [_ _ F L]. destruct (decide (m = [])) as [Em|Dm].
  - rewrite Em in *. destruct ns as [|n l _] using rev_ind; [by left|right]. apply Forall_app in F as (_ & F). apply Forall_cons in F as (N & _).
    cbn in N. exists l. by replace n with 0%nat by lia.
  - right. destruct ns as [|n l _] using rev_ind; [done|]. rewrite last_snoc in L. injection L as ->. by exists l.
Qed.

Lemma checksum_spec : checksum_rep E r = Some (crc32c 0 m).
Proof.
  unfold checksum_rep. rewrite (d_chunks _ _ _ _ D). destruct last_chunk as [(En & Em)|(l & En)]; rewrite En; [by rewrite Em|].
  rewrite map_app. cbn [List.map]. rewrite last_snoc. destruct (IsNormalized r) eqn:No.
  - cbn. by rewrite (normalized_prefix No), firstn_all.
  - rewrite entry_remaining, entry_removed, firstn_all by done. done.
Qed.

Lemma normalize_spec : exists r', normalize_rep E r = Some r' /\ (ns <> [] -> describes [] m ns r') /\ (ns = [] -> r' = r).
Proof.
  unfold normalize_rep. pose proof (normalize_entries_spec ns (d_bounds _ _ _ _ D)) as N. rewrite (d_chunks _ _ _ _ D).
  destruct (IsNormalized r) eqn:No; cbn [orb].
  - exists r. split; [done|]. split; [|done]. intros _. pose proof D as D'. by rewrite (normalized_prefix No) in D'.
  - pose proof (fun P Q => Build_describes [] m ns (mk_rep default_prefix (List.map (entry [] m) ns)) eq_refl eq_refl P Q) as D'.
    specialize (D' (d_bounds _ _ _ _ D) (d_last _ _ _ _ D)). rewrite N. cbn [obind].
    destruct (List.map (entry p m) ns) eqn:En; [apply map_eq_nil in En; exists r; by rewrite En|].
    eexists. split; [done|]. split; [done|]. intros Z0. by rewrite Z0 in En.
Qed.

Lemma scramble_Scramble c : in_u 32 c -> scramble c = Scramble c.
Proof.
  intros C. unfold scramble, Scramble. f_equal. unfold wrapu. change kScrambleLo with (0xf9ce6030 * 2 ^ 32 + 0x2e76e41b).
  rewrite Z.mod_mod_divide by (exists (2 ^ 32); reflexivity). replace (c + (0xf9ce6030 * 2 ^ 32 + 0x2e76e41b)) with (c + 0x2e76e41b + 0xf9ce6030 * 2 ^ 32) by lia.
  by rewrite Z.mod_add by lia.
Qed.

End Contents.

(** C22: objects that share representations through reference counts behave as independent values: any sequence of constructions,
    copies, moves, assignments, writes and destructions that is legal on values runs, no representation is used after it is
    freed, a write through one object is not seen by another, the results are those of the values, and at the end every
    representation that is still allocated is owned by an object or is the shared empty one. *)
Theorem cord_state_refines E os vs : spec_all E os ∅ = Some vs -> Z.of_nat (length os) < 2 ^ 31 - 8 ->
  exists w, run_all E os no_objects = Some w /\ values w = vs /\
    (forall x, Checksum E x w = (do r <- vs !! x; checksum_rep E r)) /\
    forall l, is_Some (heap w !! l) -> empty_rep w = Some l \/ exists x, objs w !! x = Some l.
Proof.
  intros Sp Sz. assert (V0 : values no_objects = ∅) by reflexivity. rewrite <- V0 in Sp.
  destruct (run_all_refines E os no_objects vs inv_no_objects ltac:(cbn [objs no_objects]; rewrite map_size_empty; lia) Sp) as (w & R & I & V).
  exists w. split; [done|]. split; [done|]. split; [|intros l; by apply no_leak].
  intros x. rewrite <- V, values_lookup. unfold Checksum, rep_of. destruct (objs w !! x) as [l|]; [|done]. cbn. unfold rep_at. by destruct (heap w !! l).
Qed.

Definition sample_rep : Rep := mk_rep default_prefix [mk_prefix 2 5].

Definition sample_ops : list op :=
  [Construct 0; Write_rep 0 sample_rep; CopyConstruct 1 0; PoisonObj 1; MoveConstruct 2 0; CopyAssign 1 2; MoveAssign 2 1; Destroy 1].

Definition no_engine : CRC := mk_crc (fun _ _ _ => None) (fun _ _ => None) (fun _ _ => None).

Lemma cord_state_refines_witness :
  exists w, run_all no_engine sample_ops no_objects = Some w /\ values w = <[0%nat := default_rep]> (<[2%nat := sample_rep]> ∅) /\
    (forall x, Checksum no_engine x w = (do r <- (<[0%nat := default_rep]> (<[2%nat := sample_rep]> ∅) : gmap nat Rep) !! x; checksum_rep no_engine r)) /\
    forall l, is_Some (heap w !! l) -> empty_rep w = Some l \/ exists x, objs w !! x = Some l.
Proof. apply (cord_state_refines no_engine sample_ops); vm_compute; reflexivity. Defined.

(** For a state that describes a cord with bytes [m] behind a removed prefix [p], [Checksum] is the CRC32C of [m], each
    [NormalizedPrefixCrcAtNthChunk] is the length and the CRC32C of a prefix of [m], [Normalize] changes none of this and removes the
    prefix where there are chunks, and [Poison] replaces the checksum of a normalized state by its image under the
    invertible [Scramble], or by one for no chunks. *)
Lemma cord_checksum_correct (E : CRC) (EL : Engine E) p m ns r : describes p m ns r -> Forall (in_u 8) p -> Forall (in_u 8) m -> zlen (p ++ m) < 2 ^ 64 ->
  checksum_rep E r = Some (crc32c 0 m) /\
  (forall i n, ns !! i = Some n -> nth_chunk E r i = Some (mk_prefix (Z.of_nat n) (crc32c 0 (take n m)))) /\
  (exists r', normalize_rep E r = Some r' /\ checksum_rep E r' = Some (crc32c 0 m) /\ (ns <> [] -> IsNormalized r' = true /\ describes [] m ns r')) /\
  (IsNormalized r = true -> checksum_rep E (poison_rep r) = Some (if decide (ns = []) then 1 else Scramble (crc32c 0 m)) /\
    Unscramble (Scramble (crc32c 0 m)) = crc32c 0 m).
Proof.
  intros D Fp Fm Len. assert (R : in_u 32 (crc32c 0 m)) by (apply crc32c_range; [apply zero_range|done]).
  split; [by apply checksum_spec with p ns|]. split; [intros i n Hi; by rewrite (nth_chunk_spec E p m ns r D Fp Fm Len i n Hi)|]. split.
  - destruct (normalize_spec E p m ns r D Fp Fm Len) as (r' & -> & Dn & Nn). exists r'. split; [done|]. destruct (decide (ns = [])) as [En|En].
    + rewrite (Nn En). split; [by apply checksum_spec with p ns|done].
    + specialize (Dn En). split; [apply checksum_spec with [] ns; try done; unfold zlen in *; rewrite length_app in *; cbn in *; lia|].
      intros _. split; [unfold IsNormalized; by rewrite (d_removed _ _ _ _ Dn)|done].
  - intros No. split; [|by apply Unscramble_Scramble]. assert (Ep : p = []) by (eapply normalized_prefix; eassumption). unfold checksum_rep, poison_rep, NumChunks. cbn.
    change (IsNormalized _) with (IsNormalized r). rewrite No. rewrite (d_chunks _ _ _ _ D).
    assert (Last : (ns = [] /\ m = []) \/ exists l, ns = l ++ [length m]) by (eapply last_chunk; eassumption).
    destruct Last as [(En & Em)|(l & En)]; rewrite En; [done|]. rewrite !map_app, decide_False by (by destruct l).
    rewrite (proj2 (Z.ltb_lt _ _)) by (unfold zlen; cbn; rewrite length_app; cbn; lia). cbn. rewrite last_snoc. cbn. rewrite Ep, firstn_all. cbn.
    by rewrite scramble_Scramble.
Qed.

(** "34" of "1234", in two chunks. *)
Definition sample_cord : Rep := mk_rep (mk_prefix 2 (crc32c 0 [0x31; 0x32])) [entry [0x31; 0x32] [0x33; 0x34] 1; entry [0x31; 0x32] [0x33; 0x34] 2].

Lemma sample_cord_describes : describes [0x31; 0x32] [0x33; 0x34] [1%nat; 2%nat] sample_cord.
Proof. split; [done|done|repeat constructor|done]. Qed.

Lemma cord_checksum_correct_witness :
  exists E, CrcEngine (mk_platform false 256 little) = Some E /\ checksum_rep E sample_cord = Some (crc32c 0 [0x33; 0x34]).
Proof.
  destruct (CrcEngine_ok (mk_platform false 256 little)) as (E & -> & EL); [cbn; lia|]. exists E. split; [done|].
  apply (cord_checksum_correct E EL [0x31; 0x32] [0x33; 0x34] [1%nat; 2%nat] sample_cord); [exact sample_cord_describes| | |vm_compute; reflexivity];
    repeat constructor; unfold in_u; lia.
Defined.
