(* ===== verification/LogProto.v ===== *)
(** [absl/log/internal/proto.h] and [proto.cc]: the protocol buffer encoding that a log message builds in its
    fixed-size buffer and reads back.  The buffer is a list of bytes, and a [Span<char>] is an offset into it with a
    size; what is decoded is read-only and is the list of bytes itself. *)
From Stdlib Require Import ZArith Lia List Bool.
From S2P Require Import Prelude Bits.
Import ListNotations.
#[local] Open Scope Z_scope.
#[local] Open Scope mach_scope.

(** ** Wire format *)

(** [WireType]: the enumerators; the decoder may see other values. *)
Definition kVarint : Z := 0.
Definition k64Bit : Z := 1.
Definition kLengthDelimited : Z := 2.
Definition k32Bit : Z := 5.

Fixpoint varint_size (fuel : nat) (value : Z) : option Z :=
  match fuel with
  | O => None
  | S fuel' => if value <? 128 then Some 1 else do n <- varint_size fuel' (value >> 7); Some (1 + n)
  end.

(** Ten steps are enough for 64 bits. *)
Definition VarintSize (value : Z) : option Z := varint_size 10 value.

Definition MinVarintSize : option Z := VarintSize 0.
Definition MaxVarintSize : option Z := VarintSize 0xffffffffffffffff.

Definition MaxVarintForSize (size : Z) : Z :=
  if size >=? 10 then 0xffffffffffffffff else (1 <<[64] (size * 7)) -[64] 1.

Definition MakeTagType (tag type : Z) : Z := (tag <<[64] 3) .| type.

Definition BufferSizeFor (tag type : Z) : option Z :=
  do n <- VarintSize (MakeTagType tag type);
  do m <- MaxVarintSize;
  Some (if type =? kVarint then n +[64] m else if type =? k64Bit then n +[64] 8
        else if type =? kLengthDelimited then n +[64] m else if type =? k32Bit then n +[64] 4 else n).

(** ** Spans *)
Record Span := mk_span { data : option Z; size : Z }.

Definition null_span : Span := mk_span None 0.

(** Storing at an index of the span. *)
Definition put (mem : list Z) (b : Span) (s v : Z) : option (list Z) :=
  if s <? size b then do d <- data b; write mem (d + s) v else None.

Definition remove_prefix (b : Span) (n : Z) : option Span :=
  if n <=? size b then do d <- data b; Some (mk_span (Some (d + n)) (size b - n)) else None.

(** [buf->remove_suffix(buf->size())]. *)
Definition emptied (b : Span) : Span := mk_span (data b) 0.

(** ** Encoding *)
Fixpoint raw_varint_loop (n : nat) (s size value : Z) (b : Span) (mem : list Z) : option (list Z) :=
  match n with
  | O => Some mem
  | S n' =>
    do mem <- put mem b s ((value .& 0x7f) .| (if s + 1 =? size then 0 else 0x80));
    raw_varint_loop n' (s + 1) size (value >> 7) b mem
  end.

Definition EncodeRawVarint (value size : Z) (b : Span) (mem : list Z) : option (list Z * Span) :=
  do mem <- raw_varint_loop (Z.to_nat size) 0 size value b mem;
  do b <- remove_prefix b size;
  Some (mem, b).

(** Whether the field was encoded, the memory and the span that is left. *)
Definition Encoded := option (bool * list Z * Span).

Definition EncodeVarint (tag value : Z) (b : Span) (mem : list Z) : Encoded :=
  let tag_type := MakeTagType tag kVarint in
  do tag_type_size <- VarintSize tag_type;
  do value_size <- VarintSize value;
  if tag_type_size + value_size >? size b then Some (false, mem, emptied b)
  else
    do (mem, b) <- EncodeRawVarint tag_type tag_type_size b mem;
    do (mem, b) <- EncodeRawVarint value value_size b mem;
    Some (true, mem, b).

(** [EncodeVarint] for a signed 64-bit value, an unsigned and a signed 32-bit one. *)
Definition EncodeVarintSigned (tag value : Z) (b : Span) (mem : list Z) : Encoded := EncodeVarint tag (wrapu 64 value) b mem.

Definition EncodeVarintZigZag (tag value : Z) (b : Span) (mem : list Z) : Encoded :=
  if value <? 0 then EncodeVarint tag ((2 *[64] (- (value + 1))) +[64] 1) b mem
  else EncodeVarint tag (2 *[64] value) b mem.

Fixpoint fixed_loop (n : nat) (s value : Z) (b : Span) (mem : list Z) : option (list Z) :=
  match n with
  | O => Some mem
  | S n' => do mem <- put mem b s (value .& 0xff); fixed_loop n' (s + 1) (value >> 8) b mem
  end.

(** [Encode64Bit] and [Encode32Bit] are the same code for values of eight and of four bytes. *)
Definition encode_fixed (type : Z) (bytes : nat) (tag value : Z) (b : Span) (mem : list Z) : Encoded :=
  let tag_type := MakeTagType tag type in
  do tag_type_size <- VarintSize tag_type;
  if tag_type_size + Z.of_nat bytes >? size b then Some (false, mem, emptied b)
  else
    do (mem, b) <- EncodeRawVarint tag_type tag_type_size b mem;
    do mem <- fixed_loop bytes 0 value b mem;
    do b <- remove_prefix b (Z.of_nat bytes);
    Some (true, mem, b).

Definition Encode64Bit (tag value : Z) (b : Span) (mem : list Z) : Encoded := encode_fixed k64Bit 8 tag value b mem.
Definition Encode32Bit (tag value : Z) (b : Span) (mem : list Z) : Encoded := encode_fixed k32Bit 4 tag value b mem.

(** [EncodeDouble], [EncodeFloat]: the value is the representation of the number. *)
Definition EncodeDouble (tag bits : Z) (b : Span) (mem : list Z) : Encoded := Encode64Bit tag bits b mem.
Definition EncodeFloat (tag bits : Z) (b : Span) (mem : list Z) : Encoded := Encode32Bit tag bits b mem.

Definition zsize (l : list Z) : Z := Z.of_nat (length l).

(** [memcpy(buf->data(), ...)] and [remove_prefix]. *)
Definition append_bytes (value : list Z) (b : Span) (mem : list Z) : option (list Z * Span) :=
  do d <- data b;
  do mem <- store mem d value;
  do b <- remove_prefix b (zsize value);
  Some (mem, b).

Definition EncodeBytes (tag : Z) (value : list Z) (b : Span) (mem : list Z) : Encoded :=
  let tag_type := MakeTagType tag kLengthDelimited in
  do tag_type_size <- VarintSize tag_type;
  let length_ := zsize value in
  do length_size <- VarintSize length_;
  if tag_type_size + length_size + zsize value >? size b then Some (false, mem, emptied b)
  else
    do (mem, b) <- EncodeRawVarint tag_type tag_type_size b mem;
    do (mem, b) <- EncodeRawVarint length_ length_size b mem;
    do (mem, b) <- append_bytes value b mem;
    Some (true, mem, b).

Definition EncodeBytesTruncate (tag : Z) (value : list Z) (b : Span) (mem : list Z) : Encoded :=
  let tag_type := MakeTagType tag kLengthDelimited in
  do tag_type_size <- VarintSize tag_type;
  let length_ := zsize value in
  do length_size <- VarintSize (Z.min length_ (size b));
  let '(value, length_) :=
    if (tag_type_size + length_size <=? size b) && (tag_type_size + length_size + zsize value >? size b) then
      let value := firstn (Z.to_nat (zsize value - (tag_type_size + length_size + zsize value - size b))) value in
      (value, zsize value)
    else (value, length_) in
  if tag_type_size + length_size + zsize value >? size b then Some (false, mem, emptied b)
  else
    do (mem, b) <- EncodeRawVarint tag_type tag_type_size b mem;
    do (mem, b) <- EncodeRawVarint length_ length_size b mem;
    do (mem, b) <- append_bytes value b mem;
    Some (true, mem, b).

Definition EncodeString (tag : Z) (value : list Z) (b : Span) (mem : list Z) : Encoded := EncodeBytes tag value b mem.
Definition EncodeStringTruncate (tag : Z) (value : list Z) (b : Span) (mem : list Z) : Encoded := EncodeBytesTruncate tag value b mem.

(** The span where the length will be, the memory and the span that is left. *)
Definition EncodeMessageStart (tag max_size : Z) (b : Span) (mem : list Z) : option (Span * list Z * Span) :=
  let tag_type := MakeTagType tag kLengthDelimited in
  do tag_type_size <- VarintSize tag_type;
  let max_size := Z.min max_size (size b) in
  do length_size <- VarintSize max_size;
  if tag_type_size + length_size >? size b then Some (null_span, mem, emptied b)
  else
    do (mem, b) <- EncodeRawVarint tag_type tag_type_size b mem;
    let ret := mk_span (data b) length_size in
    do (mem, b) <- EncodeRawVarint 0 length_size b mem;
    Some (ret, mem, b).

Definition EncodeMessageLength (msg b : Span) (mem : list Z) : option (list Z) :=
  match data msg with
  | None => Some mem
  | Some m =>
    do d <- data b;
    if d <? m then Some mem
    else
      do (mem, _) <- EncodeRawVarint (wrapu 64 (d - (m + size msg))) (size msg) msg mem;
      Some mem
  end.

(** ** Decoding *)

(** A shift by 64 or more is undefined. *)
Fixpoint decode_varint (s value : Z) (buf : list Z) : option (Z * list Z) :=
  match buf with
  | [] => Some (value, [])
  | c :: buf =>
    if 7 * s <? 64 then
      let value := value .| ((c .& 0x7f) <<[64] (7 * s)) in
      if (c .& 0x80) =? 0 then Some (value, buf) else decode_varint (s + 1) value buf
    else None
  end.

Definition DecodeVarint (buf : list Z) : option (Z * list Z) := decode_varint 0 0 buf.

Fixpoint decode_fixed (w : Z) (n : nat) (s value : Z) (buf : list Z) : Z * list Z :=
  match n, buf with
  | S n', c :: buf => decode_fixed w n' (s + 1) (value .| (c <<[w] (8 * s))) buf
  | _, _ => (value, buf)
  end.

Definition Decode64Bit (buf : list Z) : Z * list Z := decode_fixed 64 8 0 0 buf.
Definition Decode32Bit (buf : list Z) : Z * list Z := decode_fixed 32 4 0 0 buf.

Record ProtoField := mk_field { tag_ : Z; type_ : Z; value_ : Z; data_ : list Z }.

(** [DecodeFrom]: whether there was a field, the field and the data that are left; members that a type does not use keep
    their values. *)
Definition DecodeFrom (f : ProtoField) (data : list Z) : option (bool * ProtoField * list Z) :=
  match data with
  | [] => Some (false, f, data)
  | _ =>
    do (tag_type, data) <- DecodeVarint data;
    let tag := tag_type >> 3 in
    let type := tag_type .& 0x07 in
    if type =? kVarint then
      do (v, data) <- DecodeVarint data;
      Some (true, mk_field tag type v (data_ f), data)
    else if type =? k64Bit then
      let '(v, data) := Decode64Bit data in Some (true, mk_field tag type v (data_ f), data)
    else if type =? kLengthDelimited then
      do (v, data) <- DecodeVarint data;
      let n := Z.to_nat (Z.min v (zsize data)) in
      Some (true, mk_field tag type v (firstn n data), skipn n data)
    else if type =? k32Bit then
      let '(v, data) := Decode32Bit data in Some (true, mk_field tag type v (data_ f), data)
    else Some (true, mk_field tag type (value_ f) (data_ f), data)
  end.

(** ** The values of a field *)
Definition int32_value (f : ProtoField) : Z := wraps 32 (value_ f).
Definition int64_value (f : ProtoField) : Z := wraps 64 (value_ f).
Definition uint32_value (f : ProtoField) : Z := wrapu 32 (value_ f).
Definition uint64_value (f : ProtoField) : Z := value_ f.
Definition bool_value (f : ProtoField) : bool := negb (value_ f =? 0).

Definition sint32_value (f : ProtoField) : Z :=
  if negb (value_ f mod 2 =? 0) then wraps 32 ((0 -[64] ((value_ f -[64] 1) / 2)) -[64] 1) else wraps 32 (value_ f / 2).

Definition sint64_value (f : ProtoField) : Z :=
  if negb (value_ f mod 2 =? 0) then wraps 64 ((0 -[64] ((value_ f -[64] 1) / 2)) -[64] 1) else wraps 64 (value_ f / 2).

(** ** What is written *)

(** [size] bytes of a varint, of seven bits each; all but the last have the continuation bit. *)
Fixpoint varint_bytes (size : nat) (v : Z) : list Z :=
  match size with
  | O => []
  | S O => [v mod 128]
  | S n => (v mod 128 + 128) :: varint_bytes n (v / 128)
  end.

(** A span into the memory. *)
Definition span_ok (mem : list Z) (b : Span) (d : Z) : Prop := data b = Some d /\ 0 <= d /\ 0 <= size b /\ d + size b <= zsize mem.

Definition put_bytes (bs : list Z) (d : Z) (mem : list Z) : list Z :=
  firstn (Z.to_nat d) mem ++ bs ++ skipn (Z.to_nat (d + zsize bs)) mem.

Definition advance (b : Span) (d n : Z) : Span := mk_span (Some (d + n)) (size b - n).

Lemma put_bytes_size bs d mem : 0 <= d -> d + zsize bs <= zsize mem -> zsize (put_bytes bs d mem) = zsize mem.
Proof. unfold put_bytes, zsize. intros D L. rewrite !length_app, length_firstn, length_skipn. lia. Qed.

Lemma store_put bs d mem : 0 <= d -> d + zsize bs <= zsize mem -> store mem d bs = Some (put_bytes bs d mem).
Proof.
  intros D L. unfold zsize in L. rewrite <- (Z2Nat.id d D) at 1. rewrite store_spec by lia. unfold put_bytes, zsize. do 4 f_equal. lia.
Qed.

Lemma put_bytes_app a bs d mem : 0 <= d -> d + zsize a + zsize bs <= zsize mem ->
  put_bytes bs (d + zsize a) (put_bytes a d mem) = put_bytes (a ++ bs) d mem.
Proof.
  intros D L. unfold put_bytes, zsize in *. rewrite length_app.
  assert (Lf : length (firstn (Z.to_nat d) mem) = Z.to_nat d) by (rewrite length_firstn; lia).
  rewrite firstn_app, firstn_all2 by (rewrite Lf; lia). rewrite Lf, <- !app_assoc. f_equal.
  replace (Z.to_nat (d + Z.of_nat (length a)) - Z.to_nat d)%nat with (length a) by lia.
  rewrite firstn_app, firstn_all, Nat.sub_diag. cbn [firstn]. rewrite app_nil_r. f_equal. f_equal.
  rewrite skipn_app, Lf, skipn_all2 by (rewrite Lf; lia). cbn [app]. rewrite skipn_app, skipn_all2 by lia. cbn [app].
  rewrite skipn_skipn. f_equal. lia.
Qed.

(** The bytes between two offsets. *)
Definition slice (mem : list Z) (d n : Z) : list Z := firstn (Z.to_nat n) (skipn (Z.to_nat d) mem).

Lemma slice_put bs d mem : 0 <= d -> d + zsize bs <= zsize mem -> slice (put_bytes bs d mem) d (zsize bs) = bs.
Proof.
  intros D L. unfold slice, put_bytes, zsize in *. assert (Lf : length (firstn (Z.to_nat d) mem) = Z.to_nat d) by (rewrite length_firstn; lia).
  rewrite skipn_app, Lf, skipn_all2, Nat.sub_diag by (rewrite Lf; lia). cbn [app skipn].
  rewrite Nat2Z.id, firstn_app, firstn_all, Nat.sub_diag. cbn [firstn]. apply app_nil_r.
Qed.

Lemma varint_bytes_length n v : length (varint_bytes n v) = n.
Proof. revert v. induction n as [|[|n] IH]; intros v; [reflexivity|reflexivity|]. cbn [varint_bytes length] in *. now rewrite IH. Qed.

Lemma low7 v : v .& 0x7f = v mod 128.
Proof. change 0x7f with (Z.ones 7). now rewrite Z.land_ones. Qed.

Lemma low7_cont v : (v .& 0x7f) .| 0x80 = v mod 128 + 128.
Proof. rewrite low7. change 0x80 with (Z.shiftl 1 7). rewrite lor_lohi; [reflexivity|lia|apply Z.mod_pos_bound; reflexivity]. Qed.

Lemma put_some mem b d s v : span_ok mem b d -> 0 <= s < size b -> put mem b s v = store mem (d + s) [v].
Proof. intros (D & _) S. unfold put. rewrite (proj2 (Z.ltb_lt _ _)) by lia. rewrite D. cbn [obind]. apply write_store. Qed.

Lemma span_ok_size mem mem' b d : zsize mem' = zsize mem -> span_ok mem b d -> span_ok mem' b d.
Proof. unfold span_ok. intros ->. tauto. Qed.

Lemma raw_varint_loop_spec : forall n s size' v b d mem, span_ok mem b d -> 0 <= s -> s + Z.of_nat n = size' -> size' <= size b ->
  raw_varint_loop n s size' v b mem = Some (put_bytes (varint_bytes n v) (d + s) mem).
Proof.
  induction n as [|n IH]; intros s size' v b d mem O S E L; cbn [raw_varint_loop].
  - unfold put_bytes, zsize. cbn. rewrite Z.add_0_r. now rewrite firstn_skipn.
  - pose proof O as (_ & D0 & _ & Lm). rewrite (put_some _ _ d) by (try exact O; lia).
    rewrite store_put by (cbn; lia). cbn [obind].
    rewrite (IH _ _ _ _ d); [|apply (span_ok_size mem); [apply put_bytes_size; cbn; lia|exact O]|lia|lia|exact L].
    f_equal. rewrite Z.shiftr_div_pow2 by lia. change (2 ^ 7) with 128. rewrite Z.add_assoc.
    change 1 with (zsize [(v .& 127) .| (if s + 1 =? size' then 0 else 128)]) at 1.
    rewrite put_bytes_app by (unfold zsize in *; rewrite ?varint_bytes_length; cbn [length] in *; lia). f_equal. destruct n as [|n].
    + rewrite (proj2 (Z.eqb_eq _ _)) by lia. cbn. now rewrite Z.lor_0_r, low7.
    + rewrite (proj2 (Z.eqb_neq _ _)) by lia. cbn [app]. now rewrite low7_cont.
Qed.

Lemma advance_ok mem b d bs : span_ok mem b d -> zsize bs <= size b -> span_ok (put_bytes bs d mem) (advance b d (zsize bs)) (d + zsize bs).
Proof.
  intros (D & D0 & S0 & L) F. unfold span_ok. cbn. rewrite put_bytes_size by lia. unfold zsize in *. repeat split; lia.
Qed.

Lemma remove_prefix_spec mem b d n : span_ok mem b d -> n <= size b -> remove_prefix b n = Some (advance b d n).
Proof. intros (D & _) L. unfold remove_prefix. rewrite (proj2 (Z.leb_le _ _)) by exact L. now rewrite D. Qed.

Lemma EncodeRawVarint_spec v n b d mem : span_ok mem b d -> Z.of_nat n <= size b ->
  EncodeRawVarint v (Z.of_nat n) b mem = Some (put_bytes (varint_bytes n v) d mem, advance b d (zsize (varint_bytes n v))).
Proof.
  intros O L. unfold EncodeRawVarint. rewrite Nat2Z.id, (raw_varint_loop_spec _ _ _ _ _ d) by (try exact O; lia). cbn [obind].
  rewrite (remove_prefix_spec mem b d) by assumption. cbn [obind]. unfold zsize. now rewrite varint_bytes_length, Z.add_0_r.
Qed.

(** The number of bytes, and the bytes, of the shortest varint. *)
Definition vsize (v : Z) : nat := match VarintSize v with Some n => Z.to_nat n | None => 0%nat end.

Definition varint (v : Z) : list Z := varint_bytes (vsize v) v.

Lemma varint_size_spec : forall fuel v, 0 <= v < 128 ^ Z.of_nat fuel -> (0 < fuel)%nat ->
  exists n, varint_size fuel v = Some (Z.of_nat n) /\ (1 <= n <= fuel)%nat /\ v < 128 ^ Z.of_nat n.
Proof.
  induction fuel as [|fuel IH]; intros v V F; [lia|]. cbn [varint_size]. destruct (Z.ltb_spec v 128) as [L|G].
  - exists 1%nat. repeat split; lia.
  - rewrite Nat2Z.inj_succ, Z.pow_succ_r in V by lia. rewrite Z.shiftr_div_pow2 by lia. change (2 ^ 7) with 128.
    assert (fuel <> O) by (intros ->; cbn in V; lia).
    destruct (IH (v / 128)) as (n & E & N & Vn); [split; [apply Z.div_pos; lia|apply Z.div_lt_upper_bound; lia]|lia|].
    rewrite E. cbn [obind]. exists (S n). split; [f_equal; lia|]. split; [lia|]. rewrite Nat2Z.inj_succ, Z.pow_succ_r by lia.
    pose proof (Z.div_mod v 128 ltac:(lia)). pose proof (Z.mod_pos_bound v 128 ltac:(lia)). lia.
Qed.

Lemma VarintSize_spec v : in_u 64 v -> VarintSize v = Some (Z.of_nat (vsize v)) /\ (1 <= vsize v <= 10)%nat /\ v < 128 ^ Z.of_nat (vsize v).
Proof.
  unfold in_u. intros V. destruct (varint_size_spec 10 v) as (n & E & N & L); [change (128 ^ Z.of_nat 10) with (2 ^ 70); lia|lia|].
  unfold vsize, VarintSize. rewrite E, Nat2Z.id. auto.
Qed.

Lemma varint_zsize v : zsize (varint v) = Z.of_nat (vsize v).
Proof. unfold zsize, varint. now rewrite varint_bytes_length. Qed.

Definition wire_type (t : Z) : Prop := 0 <= t < 8.

Lemma MakeTagType_spec tag t : 0 <= tag < 2 ^ 61 -> wire_type t -> MakeTagType tag t = tag * 8 + t /\ in_u 64 (MakeTagType tag t).
Proof.
  intros T W. unfold MakeTagType, wire_type in *. rewrite wrapu_small by (rewrite Z.shiftl_mul_pow2 by lia; change (2 ^ 3) with 8; lia).
  rewrite Z.lor_comm, lor_lohi by (unfold in_u; lia). change (2 ^ 3) with 8. unfold in_u. lia.
Qed.

(** ** The encoders write a field or, when it does not fit, nothing, and leave an empty span *)
Definition field_or_full (bs : list Z) (b : Span) (d : Z) (mem : list Z) : Encoded :=
  if zsize bs <=? size b then Some (true, put_bytes bs d mem, advance b d (zsize bs)) else Some (false, mem, emptied b).

Lemma advance_twice b d m n : advance (advance b d m) (d + m) n = advance b d (m + n).
Proof. unfold advance. cbn. f_equal; [f_equal|]; lia. Qed.

(** Writing [varint v] and going on. *)
Lemma EncodeRawVarint_then v b d mem {A} (k : list Z * Span -> option A) : in_u 64 v -> span_ok mem b d -> zsize (varint v) <= size b ->
  (do p <- EncodeRawVarint v (Z.of_nat (vsize v)) b mem; k p) = k (put_bytes (varint v) d mem, advance b d (zsize (varint v))).
Proof. intros V O L. rewrite (EncodeRawVarint_spec _ _ _ d) by (try assumption; now rewrite <- varint_zsize). reflexivity. Qed.

Definition tagged (tag t : Z) : list Z := varint (MakeTagType tag t).

Lemma tagged_zsize tag t : zsize (tagged tag t) = Z.of_nat (vsize (MakeTagType tag t)).
Proof. apply varint_zsize. Qed.

Lemma zsize_app a b : zsize (a ++ b) = zsize a + zsize b.
Proof. unfold zsize. rewrite length_app. lia. Qed.

(** The tag is written first, and what follows it goes on in the rest of the span. *)
Lemma tagged_first tag t b d mem rest (k : Span -> list Z -> Encoded) : 0 <= tag < 2 ^ 61 -> wire_type t -> span_ok mem b d ->
  (forall b' d' mem', span_ok mem' b' d' -> zsize rest <= size b' -> k b' mem' = Some (true, put_bytes rest d' mem', advance b' d' (zsize rest))) ->
  (if Z.of_nat (vsize (MakeTagType tag t)) + zsize rest >? size b then Some (false, mem, emptied b)
   else do (mem, b) <- EncodeRawVarint (MakeTagType tag t) (Z.of_nat (vsize (MakeTagType tag t))) b mem; k b mem) =
  field_or_full (tagged tag t ++ rest) b d mem.
Proof.
  intros T W O K. destruct (MakeTagType_spec tag t T W) as (_ & Tr). unfold field_or_full. rewrite Z.gtb_ltb, zsize_app, tagged_zsize, Z.leb_antisym.
  destruct (Z.ltb_spec (size b) (Z.of_nat (vsize (MakeTagType tag t)) + zsize rest)) as [F|F]; [reflexivity|]. cbn [negb].
  assert (R0 : 0 <= zsize rest) by (unfold zsize; lia). rewrite (EncodeRawVarint_then _ b d) by (try assumption; rewrite varint_zsize; lia).
  rewrite (K _ (d + zsize (tagged tag t))); [|apply advance_ok; [exact O|rewrite tagged_zsize; lia]|cbn; rewrite varint_zsize; lia].
  fold (tagged tag t). rewrite advance_twice, put_bytes_app by (destruct O as (_ & ? & ? & ?); rewrite ?tagged_zsize; lia).
  now rewrite tagged_zsize.
Qed.

Lemma EncodeVarint_spec tag v b d mem : 0 <= tag < 2 ^ 61 -> in_u 64 v -> span_ok mem b d ->
  EncodeVarint tag v b mem = field_or_full (tagged tag kVarint ++ varint v) b d mem.
Proof.
  intros T V O. assert (W : wire_type kVarint) by (unfold wire_type, kVarint; lia). destruct (MakeTagType_spec tag kVarint T W) as (_ & Tr). unfold EncodeVarint. cbv zeta.
  destruct (VarintSize_spec _ Tr) as (-> & _). destruct (VarintSize_spec v V) as (-> & _). cbn [obind].
  rewrite <- (tagged_first tag kVarint b d mem (varint v) (fun b mem => do (mem, b) <- EncodeRawVarint v (Z.of_nat (vsize v)) b mem; Some (true, mem, b)) T W O); [now rewrite varint_zsize|].
  intros b' d' mem' O' L'. now rewrite (EncodeRawVarint_then v b' d' mem').
Qed.

Lemma fixed_loop_spec : forall n s v b d mem, span_ok mem b d -> 0 <= s -> s + Z.of_nat n <= size b ->
  fixed_loop n s v b mem = Some (put_bytes (le_bytes n v) (d + s) mem).
Proof.
  induction n as [|n IH]; intros s v b d mem O S L; cbn [fixed_loop].
  - unfold put_bytes, zsize. cbn. rewrite Z.add_0_r. now rewrite firstn_skipn.
  - pose proof O as (_ & D0 & _ & Lm). rewrite (put_some _ _ d) by (try exact O; lia).
    rewrite store_put by (cbn; lia). cbn [obind].
    rewrite (IH _ _ _ d); [|apply (span_ok_size mem); [apply put_bytes_size; cbn; lia|exact O]|lia|lia].
    f_equal. rewrite Z.shiftr_div_pow2 by lia. change (2 ^ 8) with 256. rewrite Z.add_assoc.
    change 1 with (zsize [v .& 255]) at 1. rewrite put_bytes_app by (unfold zsize in *; rewrite ?le_bytes_length; cbn [length] in *; lia).
    cbn [app le_bytes]. change 255 with (Z.ones 8). now rewrite Z.land_ones by lia.
Qed.

Lemma encode_fixed_spec t n tag v b d mem : 0 <= tag < 2 ^ 61 -> wire_type t -> span_ok mem b d ->
  encode_fixed t n tag v b mem = field_or_full (tagged tag t ++ le_bytes n v) b d mem.
Proof.
  intros T W O. destruct (MakeTagType_spec tag t T W) as (_ & Tr). unfold encode_fixed. cbv zeta. destruct (VarintSize_spec _ Tr) as (-> & _). cbn [obind].
  assert (L : zsize (le_bytes n v) = Z.of_nat n) by (unfold zsize; now rewrite le_bytes_length).
  rewrite <- (tagged_first tag t b d mem (le_bytes n v) (fun b mem => do mem <- fixed_loop n 0 v b mem; do b <- remove_prefix b (Z.of_nat n); Some (true, mem, b)) T W O);
    [now rewrite L|]. intros b' d' mem' O' L'. rewrite L in *. rewrite (fixed_loop_spec _ _ _ _ d') by (try exact O'; lia). cbn [obind].
  rewrite (remove_prefix_spec mem' b' d') by assumption. cbn [obind]. now rewrite Z.add_0_r.
Qed.

(** A length, which may be written with more bytes than it needs, and that many bytes. *)
Definition delimited (n : nat) (value : list Z) : list Z := varint_bytes n (zsize value) ++ value.

Lemma delimited_zsize n value : zsize (delimited n value) = Z.of_nat n + zsize value.
Proof. unfold delimited. rewrite zsize_app. unfold zsize at 1. now rewrite varint_bytes_length. Qed.

Lemma delimited_spec n value b d mem : span_ok mem b d -> zsize (delimited n value) <= size b ->
  (do (mem, b) <- EncodeRawVarint (zsize value) (Z.of_nat n) b mem; do (mem, b) <- append_bytes value b mem; Some (true, mem, b)) =
  Some (true, put_bytes (delimited n value) d mem, advance b d (zsize (delimited n value))).
Proof.
  intros O L. rewrite delimited_zsize in *. assert (V0 : 0 <= zsize value) by (unfold zsize; lia).
  assert (Ln : zsize (varint_bytes n (zsize value)) = Z.of_nat n) by (unfold zsize at 1; now rewrite varint_bytes_length).
  rewrite (EncodeRawVarint_spec _ n b d) by (try assumption; lia). cbn [obind]. unfold append_bytes. cbn [advance data obind].
  pose proof O as (_ & D0 & _ & Lm). rewrite store_put by (rewrite ?put_bytes_size; lia). cbn [obind].
  rewrite (remove_prefix_spec (put_bytes (varint_bytes n (zsize value)) d mem) _ (d + zsize (varint_bytes n (zsize value)))); [|apply advance_ok; [exact O|lia]|cbn; lia].
  cbn [obind]. rewrite advance_twice, put_bytes_app by lia. unfold delimited. now rewrite Ln.
Qed.

Lemma EncodeBytes_spec tag value b d mem : 0 <= tag < 2 ^ 61 -> zsize value < 2 ^ 64 -> span_ok mem b d ->
  EncodeBytes tag value b mem = field_or_full (tagged tag kLengthDelimited ++ delimited (vsize (zsize value)) value) b d mem.
Proof.
  intros T V O. assert (W : wire_type kLengthDelimited) by (unfold wire_type, kLengthDelimited; lia). destruct (MakeTagType_spec tag _ T W) as (_ & Tr).
  unfold EncodeBytes. cbv zeta. destruct (VarintSize_spec _ Tr) as (-> & _). destruct (VarintSize_spec (zsize value)) as (-> & _); [unfold in_u, zsize in *; lia|]. cbn [obind].
  rewrite <- (tagged_first tag kLengthDelimited b d mem (delimited (vsize (zsize value)) value) _ T W O (fun b' d' mem' => delimited_spec (vsize (zsize value)) value b' d' mem')).
  now rewrite delimited_zsize, Z.add_assoc.
Qed.

(** The size of the length field of a truncated value, and the bytes that are kept. *)
Definition length_size (value : list Z) (b : Span) : nat := vsize (Z.min (zsize value) (size b)).

Definition truncated (tag : Z) (value : list Z) (b : Span) : list Z :=
  firstn (Z.to_nat (size b - zsize (tagged tag kLengthDelimited) - Z.of_nat (length_size value b))) value.

Lemma EncodeBytesTruncate_spec tag value b d mem : 0 <= tag < 2 ^ 61 -> zsize value < 2 ^ 64 -> span_ok mem b d ->
  EncodeBytesTruncate tag value b mem =
    if zsize (tagged tag kLengthDelimited) + Z.of_nat (length_size value b) <=? size b then
      field_or_full (tagged tag kLengthDelimited ++ delimited (length_size value b) (truncated tag value b)) b d mem
    else Some (false, mem, emptied b).
Proof.
  intros T V O. assert (W : wire_type kLengthDelimited) by (unfold wire_type, kLengthDelimited; lia). destruct (MakeTagType_spec tag _ T W) as (_ & Tr).
  assert (V0 : 0 <= zsize value) by (unfold zsize; lia). assert (S0 : 0 <= size b) by apply O.
  unfold EncodeBytesTruncate. cbv zeta. destruct (VarintSize_spec _ Tr) as (-> & _).
  destruct (VarintSize_spec (Z.min (zsize value) (size b))) as (-> & _); [unfold in_u; lia|]. cbn [obind]. rewrite tagged_zsize. fold (length_size value b).
  unfold truncated. rewrite tagged_zsize. set (m := Z.of_nat (vsize (MakeTagType tag kLengthDelimited))). set (n := length_size value b).
  destruct (Z.leb_spec (m + Z.of_nat n) (size b)) as [F|F]; cbn [andb].
  - assert (E : (if m + Z.of_nat n + zsize value >? size b then (firstn (Z.to_nat (zsize value - (m + Z.of_nat n + zsize value - size b))) value,
        zsize (firstn (Z.to_nat (zsize value - (m + Z.of_nat n + zsize value - size b))) value)) else (value, zsize value)) =
        let v := firstn (Z.to_nat (size b - m - Z.of_nat n)) value in (v, zsize v)).
    { cbv zeta. rewrite Z.gtb_ltb. destruct (Z.ltb_spec (size b) (m + Z.of_nat n + zsize value)) as [G|G].
      - replace (zsize value - (m + Z.of_nat n + zsize value - size b)) with (size b - m - Z.of_nat n) by lia. reflexivity.
      - rewrite firstn_all2 by (unfold zsize in G; lia). reflexivity. }
    rewrite E. cbv zeta. set (v := firstn (Z.to_nat (size b - m - Z.of_nat n)) value).
    rewrite <- (tagged_first tag kLengthDelimited b d mem (delimited n v) _ T W O (fun b' d' mem' => delimited_spec n v b' d' mem')).
    now rewrite delimited_zsize, Z.add_assoc.
  - rewrite Z.gtb_ltb, (proj2 (Z.ltb_lt _ _)) by lia. reflexivity.
Qed.

Lemma EncodeMessageStart_spec tag max_size b d mem : 0 <= tag < 2 ^ 61 -> in_u 64 max_size -> span_ok mem b d ->
  let n := vsize (Z.min max_size (size b)) in let t := tagged tag kLengthDelimited in
  EncodeMessageStart tag max_size b mem =
    if zsize t + Z.of_nat n <=? size b then
      Some (mk_span (Some (d + zsize t)) (Z.of_nat n), put_bytes (t ++ varint_bytes n 0) d mem, advance b d (zsize t + Z.of_nat n))
    else Some (null_span, mem, emptied b).
Proof.
  intros T V O n t. assert (W : wire_type kLengthDelimited) by (unfold wire_type, kLengthDelimited; lia). destruct (MakeTagType_spec tag _ T W) as (_ & Tr).
  assert (S0 : 0 <= size b) by apply O. unfold EncodeMessageStart. cbv zeta. destruct (VarintSize_spec _ Tr) as (-> & _).
  destruct (VarintSize_spec (Z.min max_size (size b))) as (-> & _); [unfold in_u in *; lia|]. cbn [obind]. fold n. unfold t. rewrite tagged_zsize.
  rewrite Z.gtb_ltb, Z.leb_antisym. destruct (Z.ltb_spec (size b) (Z.of_nat (vsize (MakeTagType tag kLengthDelimited)) + Z.of_nat n)) as [F|F]; [reflexivity|]. cbn [negb].
  rewrite (EncodeRawVarint_then _ b d) by (try assumption; rewrite varint_zsize; lia). change (varint (MakeTagType tag kLengthDelimited)) with t. rewrite <- tagged_zsize in *. fold t in F |- *.
  cbn [advance data]. rewrite (EncodeRawVarint_spec 0 n _ (d + zsize t)); [|apply advance_ok; [exact O|lia]|cbn; lia]. cbn [obind].
  pose proof O as (_ & ? & _ & ?). assert (Ln : zsize (varint_bytes n 0) = Z.of_nat n) by (unfold zsize; now rewrite varint_bytes_length).
  rewrite advance_twice, put_bytes_app by lia. now rewrite Ln.
Qed.

(** ** Decoding what was written *)
Lemma decode_varint_spec : forall n s acc v rest, (1 <= n)%nat -> 0 <= s -> s + Z.of_nat n <= 10 -> 0 <= v < 128 ^ Z.of_nat n ->
  v * 2 ^ (7 * s) < 2 ^ 64 -> in_u (7 * s) acc -> decode_varint s acc (varint_bytes n v ++ rest) = Some (acc + v * 2 ^ (7 * s), rest).
Proof.
  induction n as [|n IH]; intros s acc v rest N S0 L V B A; [lia|]. pose proof (Z.mod_pos_bound v 128 ltac:(lia)) as M.
  pose proof (Z.div_mod v 128 ltac:(lia)) as D. assert (P : 0 < 2 ^ (7 * s)) by (apply Z.pow_pos_nonneg; lia).
  assert (Q : 0 <= v / 128) by (apply Z.div_pos; lia).
  assert (Low : forall c, c .& 0x7f = v mod 128 -> acc .| ((c .& 0x7f) <<[64] (7 * s)) = acc + (v mod 128) * 2 ^ (7 * s)).
  { intros c ->. rewrite wrapu_small; [rewrite lor_lohi by (try exact A; lia); lia|]. rewrite Z.shiftl_mul_pow2 by lia. nia. }
  destruct n as [|n].
  - cbn [varint_bytes app decode_varint]. rewrite (proj2 (Z.ltb_lt _ _)) by lia. rewrite Low by (now rewrite low7, Z.mod_mod).
    replace ((v mod 128 .& 0x80) =? 0) with true.
    + rewrite Z.mod_small by lia. reflexivity.
    + symmetry. apply Z.eqb_eq. apply Z.bits_inj'. intros i Hi. rewrite Z.land_spec, Z.bits_0. destruct (Z.lt_ge_cases i 7).
      * change 128 with (2 ^ 7) at 2. rewrite (Z.pow2_bits_false 7 i) by lia. apply andb_false_r.
      * change 128 with (2 ^ 7) at 1. now rewrite Z.mod_pow2_bits_high by lia.
  - change (varint_bytes (S (S n)) v) with ((v mod 128 + 128) :: varint_bytes (S n) (v / 128)). cbn [app decode_varint]. rewrite (proj2 (Z.ltb_lt _ _)) by lia.
    rewrite Low by (rewrite low7, <- Z.add_mod_idemp_r, Z.mod_same, Z.add_0_r, Z.mod_mod by lia; reflexivity).
    replace ((v mod 128 + 128 .& 0x80) =? 0) with false.
    + assert (E7 : 2 ^ (7 * (s + 1)) = 128 * 2 ^ (7 * s)) by (rewrite Z.mul_add_distr_l, Z.pow_add_r by lia; change (2 ^ (7 * 1)) with 128; lia).
      rewrite Nat2Z.inj_succ, Z.pow_succ_r in V by lia.
      rewrite IH; [f_equal; f_equal; rewrite E7; nia|lia|lia|lia|split; [exact Q|apply Z.div_lt_upper_bound; lia]|rewrite E7; nia|].
      unfold in_u in *. rewrite E7. nia.
    + symmetry. apply Z.eqb_neq. intros E. apply (f_equal (fun z => Z.testbit z 7)) in E. rewrite Z.land_spec, Z.bits_0 in E.
      change (Z.testbit 128 7) with true in E. rewrite andb_true_r in E.
      rewrite Z.testbit_odd, Z.shiftr_div_pow2 in E by lia. change (2 ^ 7) with 128 in E.
      replace ((v mod 128 + 128) / 128) with 1 in E by (replace (v mod 128 + 128) with (v mod 128 + 1 * 128) by lia; rewrite Z.div_add, Z.div_small by lia; reflexivity).
      discriminate.
Qed.

Lemma DecodeVarint_spec n v rest : (1 <= n <= 10)%nat -> in_u 64 v -> v < 128 ^ Z.of_nat n -> DecodeVarint (varint_bytes n v ++ rest) = Some (v, rest).
Proof.
  intros N V L. unfold DecodeVarint. unfold in_u in V. rewrite decode_varint_spec by (unfold in_u; lia || (change (2 ^ (7 * 0)) with 1; lia)).
  change (2 ^ (7 * 0)) with 1. now rewrite Z.mul_1_r.
Qed.

Lemma DecodeVarint_varint v rest : in_u 64 v -> DecodeVarint (varint v ++ rest) = Some (v, rest).
Proof. intros V. destruct (VarintSize_spec v V) as (_ & N & L). now apply DecodeVarint_spec. Qed.

Lemma decode_fixed_spec w : forall n s acc v rest, 0 <= s -> 8 * (s + Z.of_nat n) <= w -> in_u (8 * Z.of_nat n) v -> in_u (8 * s) acc ->
  decode_fixed w n s acc (le_bytes n v ++ rest) = (acc + v * 2 ^ (8 * s), rest).
Proof.
  induction n as [|n IH]; intros s acc v rest S0 L V A; cbn [le_bytes app decode_fixed].
  - unfold in_u in V. cbn in V. f_equal. lia.
  - pose proof (Z.mod_pos_bound v 256 ltac:(lia)) as M. pose proof (Z.div_mod v 256 ltac:(lia)) as D. assert (P : 0 < 2 ^ (8 * s)) by (apply Z.pow_pos_nonneg; lia).
    assert (E8 : 2 ^ (8 * (s + 1)) = 256 * 2 ^ (8 * s)) by (rewrite Z.mul_add_distr_l, Z.pow_add_r by lia; change (2 ^ (8 * 1)) with 256; lia).
    assert (W : 256 * 2 ^ (8 * s) <= 2 ^ w) by (rewrite <- E8; apply Z.pow_le_mono_r; lia). unfold in_u in *.
    replace (8 * Z.of_nat (S n)) with (8 * Z.of_nat n + 8) in V by lia. rewrite Z.pow_add_r in V by lia. change (2 ^ 8) with 256 in V.
    rewrite wrapu_small, lor_lohi by (try exact A; rewrite ?Z.shiftl_mul_pow2 by lia; nia). rewrite IH.
    + rewrite E8. f_equal. nia.
    + lia.
    + lia.
    + split; [apply Z.div_pos; lia|apply Z.div_lt_upper_bound; lia].
    + unfold in_u. rewrite E8. nia.
Qed.

Lemma tag_of tag t : wire_type t -> (tag * 8 + t) >> 3 = tag /\ (tag * 8 + t) .& 0x07 = t.
Proof.
  unfold wire_type. intros W. split.
  - rewrite Z.shiftr_div_pow2 by lia. change (2 ^ 3) with 8. rewrite Z.div_add_l, (Z.div_small t) by lia. lia.
  - change 7 with (Z.ones 3). rewrite Z.land_ones by lia. change (2 ^ 3) with 8. rewrite Z.add_comm, Z.mod_add, Z.mod_small by lia. reflexivity.
Qed.

Lemma varint_nonempty v rest : in_u 64 v -> exists c l, varint v ++ rest = c :: l.
Proof.
  intros V. destruct (VarintSize_spec v V) as (_ & N & _). pose proof (varint_bytes_length (vsize v) v) as L. unfold varint.
  destruct (varint_bytes (vsize v) v) as [|c l]; [cbn in L; lia|]. eexists _, _. reflexivity.
Qed.

(** The bytes are a field, whatever follows. *)
Definition decodes (bs : list Z) (fld : ProtoField -> ProtoField) : Prop :=
  forall f rest, DecodeFrom f (bs ++ rest) = Some (true, fld f, rest).

Section Fields.
Context (tag : Z) (T : 0 <= tag < 2 ^ 61).

Ltac open_field := intros f rest; rewrite <- app_assoc; unfold DecodeFrom;
  match goal with |- context [tagged tag ?t ++ ?r] =>
    destruct (MakeTagType_spec tag t T ltac:(unfold wire_type, kVarint, k64Bit, k32Bit, kLengthDelimited; lia)) as (Et & Rt);
    destruct (tag_of tag t ltac:(unfold wire_type, kVarint, k64Bit, k32Bit, kLengthDelimited; lia)) as (Sh & Lo);
    let E := fresh "E" in destruct (varint_nonempty (MakeTagType tag t) r Rt) as (? & ? & E);
    unfold tagged; rewrite E, <- E, DecodeVarint_varint by exact Rt; cbn [obind]; rewrite Et, Sh, Lo
  end.

Lemma varint_field v : in_u 64 v -> decodes (tagged tag kVarint ++ varint v) (fun f => mk_field tag kVarint v (data_ f)).
Proof. intros V. open_field. cbn [Z.eqb kVarint]. rewrite DecodeVarint_varint by exact V. reflexivity. Qed.

Lemma fixed64_field v : in_u 64 v -> decodes (tagged tag k64Bit ++ le_bytes 8 v) (fun f => mk_field tag k64Bit v (data_ f)).
Proof.
  intros V. open_field. cbn [Z.eqb kVarint k64Bit Pos.eqb]. unfold Decode64Bit. rewrite decode_fixed_spec by (try exact V; unfold in_u; lia).
  cbv iota. change (2 ^ (8 * 0)) with 1. rewrite Z.mul_1_r. reflexivity.
Qed.

Lemma fixed32_field v : in_u 32 v -> decodes (tagged tag k32Bit ++ le_bytes 4 v) (fun f => mk_field tag k32Bit v (data_ f)).
Proof.
  intros V. open_field. cbn [Z.eqb kVarint k64Bit k32Bit kLengthDelimited Pos.eqb]. unfold Decode32Bit. rewrite decode_fixed_spec by (try exact V; unfold in_u; lia).
  cbv iota. change (2 ^ (8 * 0)) with 1. rewrite Z.mul_1_r. reflexivity.
Qed.

Lemma delimited_field n value : (1 <= n <= 10)%nat -> zsize value < 2 ^ 64 -> zsize value < 128 ^ Z.of_nat n ->
  decodes (tagged tag kLengthDelimited ++ delimited n value) (fun _ => mk_field tag kLengthDelimited (zsize value) value).
Proof.
  intros N V L. open_field. cbn [Z.eqb kVarint k64Bit kLengthDelimited Pos.eqb]. unfold delimited. rewrite <- app_assoc.
  rewrite DecodeVarint_spec by (try assumption; unfold in_u, zsize in *; lia). cbn [obind]. rewrite zsize_app.
  replace (Z.to_nat (Z.min (zsize value) (zsize value + zsize rest))) with (length value) by (unfold zsize; lia).
  rewrite firstn_app, skipn_app, firstn_all, skipn_all, Nat.sub_diag. cbn [firstn skipn app]. now rewrite app_nil_r.
Qed.
End Fields.

(** An encoder either writes a field inside its span that reads back as [P] says, whatever follows, or, only when fewer
    than [room] bytes are left, writes nothing and leaves an empty span. *)
Definition roundtrip (r : Encoded) (room : Z) (b : Span) (d : Z) (mem : list Z) (tag t : Z) (P : ProtoField -> Prop) : Prop :=
  match r with
  | Some (true, mem', b') => exists n, 0 <= n <= size b /\ b' = advance b d n /\
      firstn (Z.to_nat d) mem' = firstn (Z.to_nat d) mem /\ skipn (Z.to_nat (d + n)) mem' = skipn (Z.to_nat (d + n)) mem /\
      forall f rest, exists g, DecodeFrom f (slice mem' d n ++ rest) = Some (true, g, rest) /\ tag_ g = tag /\ type_ g = t /\ P g
  | Some (false, mem', b') => size b < room /\ mem' = mem /\ b' = emptied b
  | None => False
  end.

Lemma put_bytes_around bs d mem : 0 <= d -> d + zsize bs <= zsize mem ->
  firstn (Z.to_nat d) (put_bytes bs d mem) = firstn (Z.to_nat d) mem /\
  skipn (Z.to_nat (d + zsize bs)) (put_bytes bs d mem) = skipn (Z.to_nat (d + zsize bs)) mem.
Proof.
  intros D L. unfold put_bytes, zsize in *. assert (Lf : length (firstn (Z.to_nat d) mem) = Z.to_nat d) by (rewrite length_firstn; lia). split.
  - rewrite firstn_app, Lf, Nat.sub_diag, firstn_firstn, Nat.min_id. cbn [firstn]. apply app_nil_r.
  - rewrite app_assoc, skipn_app, length_app, Lf, skipn_all2 by (rewrite length_app, Lf; lia).
    replace (Z.to_nat (d + Z.of_nat (length bs)) - (Z.to_nat d + length bs))%nat with 0%nat by lia. reflexivity.
Qed.

Lemma field_roundtrip bs b d mem room tag t fld (P : ProtoField -> Prop) : span_ok mem b d -> decodes bs fld ->
  (size b < zsize bs -> size b < room) -> (forall f, tag_ (fld f) = tag /\ type_ (fld f) = t /\ P (fld f)) -> roundtrip (field_or_full bs b d mem) room b d mem tag t P.
Proof.
  intros O D R F. unfold field_or_full. destruct (Z.leb_spec (zsize bs) (size b)) as [L|L]; cbn.
  - pose proof O as (_ & D0 & S0 & Lm). destruct (put_bytes_around bs d mem) as (A & B); [lia|lia|]. exists (zsize bs).
    repeat apply conj; try assumption; try reflexivity; [unfold zsize; lia|].
    intros f rest. exists (fld f). rewrite slice_put, D by lia. split; [reflexivity|apply F].
  - auto.
Qed.

(** [BufferSizeFor] is enough. *)
Lemma BufferSizeFor_spec tag t : 0 <= tag < 2 ^ 61 -> wire_type t -> BufferSizeFor tag t = Some (zsize (tagged tag t) +
  (if t =? kVarint then 10 else if t =? k64Bit then 8 else if t =? kLengthDelimited then 10 else if t =? k32Bit then 4 else 0)).
Proof.
  intros T W. destruct (MakeTagType_spec tag t T W) as (_ & R). unfold BufferSizeFor. destruct (VarintSize_spec _ R) as (-> & N & _).
  change MaxVarintSize with (Some 10). cbn [obind]. rewrite tagged_zsize. f_equal.
  repeat match goal with |- context [if ?c then _ else _] => destruct c end; rewrite ?wrapu_small by lia; lia.
Qed.

Definition zigzag (v : Z) : Z := if v <? 0 then 2 * (- (v + 1)) + 1 else 2 * v.

Lemma zigzag_range v : in_s 64 v -> in_u 64 (zigzag v).
Proof. unfold in_s, in_u, zigzag. intros V. destruct (Z.ltb_spec v 0); lia. Qed.

Lemma EncodeVarintZigZag_zigzag tag v b mem : in_s 64 v -> EncodeVarintZigZag tag v b mem = EncodeVarint tag (zigzag v) b mem.
Proof.
  intros V. pose proof (zigzag_range v V) as R. unfold in_s, in_u in *. unfold EncodeVarintZigZag, zigzag in *.
  destruct (Z.ltb_spec v 0).
  - rewrite (wrapu_small 64 (2 * - (v + 1))), wrapu_small by lia. reflexivity.
  - rewrite wrapu_small by lia. reflexivity.
Qed.

Lemma sint64_zigzag f v : in_s 64 v -> value_ f = zigzag v -> sint64_value f = v.
Proof.
  unfold in_s, sint64_value, zigzag. intros V ->. destruct (Z.ltb_spec v 0) as [N|N].
  - replace ((2 * - (v + 1) + 1) mod 2) with 1 by (rewrite Z.add_comm, Z.mul_comm, Z.mod_add; [reflexivity|lia]). cbn [Z.eqb negb].
    rewrite (wrapu_small 64 (2 * - (v + 1) + 1 - 1)) by lia. replace ((2 * - (v + 1) + 1 - 1) / 2) with (- (v + 1)) by (apply Z.div_unique with 0; lia).
    change (0 -[64] - (v + 1) -[64] 1) with (wrapu 64 (wrapu 64 (0 - - (v + 1)) + -1)).
    rewrite wrapu_add_l, wraps_of_wrapu by lia. rewrite wraps_small by (unfold in_s; lia). lia.
  - replace ((2 * v) mod 2) with 0 by (rewrite Z.mul_comm, Z.mod_mul; lia). cbn [Z.eqb negb]. rewrite Z.mul_comm, Z.div_mul, wraps_small by (unfold in_s; lia). reflexivity.
Qed.

Lemma put_bytes_over t x y body d mem : 0 <= d -> zsize x = zsize y -> d + zsize (t ++ y ++ body) <= zsize mem ->
  put_bytes x (d + zsize t) (put_bytes (t ++ y ++ body) d mem) = put_bytes (t ++ x ++ body) d mem.
Proof.
  intros D E L. unfold put_bytes, zsize in *. assert (Ex : length x = length y) by lia. rewrite !length_app in *. rewrite Ex.
  assert (Lf : length (firstn (Z.to_nat d) mem) = Z.to_nat d) by (rewrite length_firstn; lia).
  assert (A : firstn (Z.to_nat (d + Z.of_nat (length t))) (firstn (Z.to_nat d) mem ++ (t ++ y ++ body) ++ skipn (Z.to_nat (d + Z.of_nat (length t + (length y + length body)))) mem) = firstn (Z.to_nat d) mem ++ t).
  { rewrite <- !app_assoc, app_assoc, firstn_app. rewrite length_app, Lf. replace (Z.to_nat (d + Z.of_nat (length t)) - (Z.to_nat d + length t))%nat with 0%nat by lia.
    rewrite firstn_all2 by (rewrite length_app, Lf; lia). cbn [firstn]. apply app_nil_r. }
  rewrite A, <- !app_assoc. do 3 f_equal. rewrite !app_assoc, <- (app_assoc _ body), skipn_app, !length_app, Lf.
  rewrite skipn_all2 by (rewrite !length_app, Lf; lia). cbn [app].
  replace (Z.to_nat (d + Z.of_nat (length t) + Z.of_nat (length y)) - (Z.to_nat d + length t + length y))%nat with 0%nat by lia. reflexivity.
Qed.

(** C31: the encoders of the log buffer and its decoder agree: a field of each wire type that is encoded is written inside its span,
    reads back, whatever follows it, with its tag, its type and its value (varints, signed and zigzag ones, 64- and 32-bit values, bytes), an
    encoder refuses only when [BufferSizeFor] bytes (and those of the value) are not left and then writes nothing, and the
    truncating encoder keeps a prefix of the value and refuses only for lack of room for the tag and the length. *)
Theorem proto_roundtrip tag v sv value b d mem : 0 <= tag < 2 ^ 61 -> in_u 64 v -> in_s 64 sv -> zsize value < 2 ^ 64 -> span_ok mem b d ->
  (exists n, BufferSizeFor tag kVarint = Some n /\
    roundtrip (EncodeVarint tag v b mem) n b d mem tag kVarint (fun g => uint64_value g = v) /\
    roundtrip (EncodeVarintSigned tag sv b mem) n b d mem tag kVarint (fun g => int64_value g = sv) /\
    roundtrip (EncodeVarintZigZag tag sv b mem) n b d mem tag kVarint (fun g => sint64_value g = sv)) /\
  (exists n, BufferSizeFor tag k64Bit = Some n /\ roundtrip (Encode64Bit tag v b mem) n b d mem tag k64Bit (fun g => uint64_value g = v)) /\
  (exists n, BufferSizeFor tag k32Bit = Some n /\ roundtrip (Encode32Bit tag (wrapu 32 v) b mem) n b d mem tag k32Bit (fun g => uint32_value g = wrapu 32 v)) /\
  (exists n, BufferSizeFor tag kLengthDelimited = Some n /\
    roundtrip (EncodeBytes tag value b mem) (n + zsize value) b d mem tag kLengthDelimited (fun g => data_ g = value) /\
    roundtrip (EncodeBytesTruncate tag value b mem) n b d mem tag kLengthDelimited (fun g => exists k, data_ g = firstn k value)).
Proof.
  intros T V SV Vl O. assert (Vs : forall u, in_u 64 u -> zsize (varint u) <= 10) by (intros u U; rewrite varint_zsize; destruct (VarintSize_spec u U); lia).
  assert (Ws : forall t, t = kVarint \/ t = k64Bit \/ t = k32Bit \/ t = kLengthDelimited -> wire_type t) by (unfold wire_type, kVarint, k64Bit, k32Bit, kLengthDelimited; lia).
  assert (U : in_u 64 (wrapu 64 sv)) by (apply wrapu_range; lia). pose proof (zigzag_range sv SV) as Zr.
  assert (R32 : in_u 32 (wrapu 32 v)) by (apply wrapu_range; lia).
  assert (Lv : in_u 64 (zsize value)) by (unfold in_u, zsize in *; lia).
  repeat apply conj; (eexists; split; [rewrite BufferSizeFor_spec by auto 6; reflexivity|]); cbn [kVarint k64Bit k32Bit kLengthDelimited Z.eqb Pos.eqb].
  - repeat apply conj.
    + rewrite (EncodeVarint_spec _ _ _ d) by assumption. eapply field_roundtrip; [exact O|now apply varint_field|rewrite zsize_app; specialize (Vs v V); lia|now split].
    + unfold EncodeVarintSigned. rewrite (EncodeVarint_spec _ _ _ d) by assumption. eapply field_roundtrip; [exact O|now apply varint_field|rewrite zsize_app; specialize (Vs _ U); lia|].
      intros f. repeat split. unfold int64_value. cbn. now rewrite wraps_of_wrapu, wraps_small by (try exact SV; lia).
    + rewrite EncodeVarintZigZag_zigzag, (EncodeVarint_spec _ _ _ d) by assumption. eapply field_roundtrip; [exact O|now apply varint_field|rewrite zsize_app; specialize (Vs _ Zr); lia|].
      intros f. repeat split. now apply sint64_zigzag.
  - unfold Encode64Bit. rewrite (encode_fixed_spec _ _ _ _ _ d) by auto 6. eapply field_roundtrip; [exact O|now apply fixed64_field|rewrite zsize_app; cbn; lia|now split].
  - unfold Encode32Bit. rewrite (encode_fixed_spec _ _ _ _ _ d) by auto 6. eapply field_roundtrip; [exact O|now apply fixed32_field|rewrite zsize_app; cbn; lia|].
    intros f. repeat split. unfold uint32_value. cbn. now rewrite wrapu_idem by lia.
  - destruct (VarintSize_spec _ Lv) as (_ & Nl & Ll). repeat apply conj.
    + rewrite (EncodeBytes_spec _ _ _ d) by assumption. eapply field_roundtrip; [exact O|now apply delimited_field| |now split].
      rewrite zsize_app, delimited_zsize. lia.
    + rewrite (EncodeBytesTruncate_spec _ _ _ d) by assumption. assert (S0 : 0 <= size b) by apply O.
      destruct (VarintSize_spec (Z.min (zsize value) (size b))) as (_ & Nt & Lt); [unfold in_u in *; lia|]. fold (length_size value b) in Nt, Lt.
      destruct (Z.leb_spec (zsize (tagged tag kLengthDelimited) + Z.of_nat (length_size value b)) (size b)) as [F|F]; [|cbn; repeat split; lia].
      assert (Tz : zsize (truncated tag value b) <= Z.min (zsize value) (size b) /\ zsize (truncated tag value b) <= size b - zsize (tagged tag kLengthDelimited) - Z.of_nat (length_size value b)).
      { pose proof (tagged_zsize tag kLengthDelimited). unfold truncated, zsize in *. rewrite !length_firstn. lia. }
      eapply field_roundtrip; [exact O|apply delimited_field; [exact T|exact Nt|lia|lia]|rewrite zsize_app, delimited_zsize; lia|].
      intros f. repeat split. eexists. reflexivity.
Qed.

(** A buffer of twelve bytes, of which the last ten are left. *)
Definition sample_mem : list Z := repeat 0 12.
Definition sample_span : Span := mk_span (Some 2) 10.

Lemma sample_span_ok : span_ok sample_mem sample_span 2.
Proof. split; [reflexivity|]. cbn. lia. Qed.

Lemma proto_roundtrip_witness :
  (exists n, BufferSizeFor 3 kVarint = Some n /\ roundtrip (EncodeVarint 3 300 sample_span sample_mem) n sample_span 2 sample_mem 3 kVarint (fun g => uint64_value g = 300)) /\
  (exists n, BufferSizeFor 3 kLengthDelimited = Some n /\
    roundtrip (EncodeBytesTruncate 3 (repeat 65 20) sample_span sample_mem) n sample_span 2 sample_mem 3 kLengthDelimited (fun g => exists k, data_ g = firstn k (repeat 65 20))) /\
  EncodeBytes 3 (repeat 65 20) sample_span sample_mem = Some (false, sample_mem, mk_span (Some 2) 0) /\
  EncodeVarint 3 300 sample_span sample_mem = Some (true, [0; 0; 24; 172; 2; 0; 0; 0; 0; 0; 0; 0], mk_span (Some 5) 7).
Proof.
  destruct (proto_roundtrip 3 300 (-5) (repeat 65 20) sample_span 2 sample_mem) as ((n & B & R & _) & _ & _ & (m & Bm & _ & Rm));
    [lia|unfold in_u; lia|unfold in_s; lia|cbn; lia|exact sample_span_ok|].
  split; [now exists n|]. split; [now exists m|]. split; vm_compute; reflexivity.
Defined.

(** A nested message: when [EncodeMessageStart] has room, what is then written up to [max_size] bytes becomes, once
    [EncodeMessageLength] has filled in the length it left out, a length-delimited field that reads back as those bytes; otherwise nothing
    is written and [EncodeMessageLength] does nothing. *)
Lemma proto_message_roundtrip tag max_size body b d mem msg mem1 b1 : 0 <= tag < 2 ^ 61 -> in_u 64 max_size -> span_ok mem b d ->
  EncodeMessageStart tag max_size b mem = Some (msg, mem1, b1) -> zsize body <= Z.min max_size (size b1) ->
  match data msg with
  | None => mem1 = mem /\ size b1 = 0 /\ EncodeMessageLength msg b1 mem1 = Some mem1
  | Some _ => exists d1 mem3, data b1 = Some d1 /\ EncodeMessageLength msg (advance b1 d1 (zsize body)) (put_bytes body d1 mem1) = Some mem3 /\
      firstn (Z.to_nat d) mem3 = firstn (Z.to_nat d) mem /\
      decodes (slice mem3 d (d1 + zsize body - d)) (fun _ => mk_field tag kLengthDelimited (zsize body) body)
  end.
Proof.
  intros T Mx O E Lb. rewrite (EncodeMessageStart_spec tag max_size b d mem T Mx O) in E. pose proof O as (D & D0 & S0 & Lm).
  destruct (VarintSize_spec (Z.min max_size (size b))) as (_ & Nn & Ln); [unfold in_u in *; lia|].
  set (n := vsize (Z.min max_size (size b))) in *. set (t := tagged tag kLengthDelimited) in *. assert (Tz : 0 <= zsize t) by (unfold zsize; lia).
  assert (Bz : 0 <= zsize body) by (unfold zsize; lia).
  destruct (Z.leb_spec (zsize t + Z.of_nat n) (size b)) as [F|F]; injection E as <- <- <-; cbn [data]; [|repeat split]. cbn [advance size] in Lb.
  assert (Zn : forall v, zsize (varint_bytes n v) = Z.of_nat n) by (intros v; unfold zsize; now rewrite varint_bytes_length).
  set (d1 := d + (zsize t + Z.of_nat n)). exists d1.
  assert (P2 : put_bytes body d1 (put_bytes (t ++ varint_bytes n 0) d mem) = put_bytes (t ++ varint_bytes n 0 ++ body) d mem).
  { unfold d1. rewrite <- (Zn 0), <- (zsize_app t), put_bytes_app, <- app_assoc by (rewrite ?zsize_app, ?Zn; lia). reflexivity. }
  assert (L3 : d + zsize (t ++ varint_bytes n 0 ++ body) <= zsize mem) by (rewrite !zsize_app, Zn; lia).
  exists (put_bytes (t ++ delimited n body) d mem). split; [reflexivity|]. split.
  - unfold EncodeMessageLength. cbn [data advance obind size]. rewrite (proj2 (Z.ltb_ge _ _)) by (unfold d1; lia).
    replace (d1 + zsize body - (d + zsize t + Z.of_nat n)) with (zsize body) by (unfold d1; lia). rewrite wrapu_small by (unfold in_u in *; lia).
    rewrite (EncodeRawVarint_spec _ n _ (d + zsize t)); [|split; [reflexivity|]; cbn [size]; rewrite P2, put_bytes_size by lia; rewrite !zsize_app, Zn in L3; lia|cbn; lia]. cbn [obind].
    rewrite P2. unfold delimited. now rewrite put_bytes_over by (rewrite ?Zn; lia).
  - assert (Zt : zsize (t ++ delimited n body) = d1 + zsize body - d) by (rewrite zsize_app, delimited_zsize; unfold d1; lia).
    split; [apply put_bytes_around; rewrite ?Zt; unfold d1; lia|]. rewrite <- Zt, slice_put by (rewrite ?Zt; unfold d1; lia). apply delimited_field; [exact T|exact Nn|unfold in_u in *; lia|lia].
Qed.

Lemma proto_message_roundtrip_witness :
  exists msg mem1 b1 mem3, EncodeMessageStart 7 100 sample_span sample_mem = Some (msg, mem1, b1) /\
    EncodeMessageLength msg (advance b1 4 3) (put_bytes [8; 9; 10] 4 mem1) = Some mem3 /\
    decodes (slice mem3 2 5) (fun _ => mk_field 7 kLengthDelimited 3 [8; 9; 10]).
Proof.
  eexists _, _, _. destruct (proto_message_roundtrip 7 100 [8; 9; 10] sample_span 2 sample_mem _ _ _ ltac:(lia) ltac:(unfold in_u; lia) sample_span_ok eq_refl ltac:(vm_compute; discriminate))
    as (d1 & mem3 & Hd & Hl & _ & Hx). injection Hd as <-. exists mem3. split; [reflexivity|]. split; [exact Hl|exact Hx].
Defined.
