(* ===== verification/FnMatch.v ===== *)
(** Wildcard matching of module names, [log/internal/fnmatch.cc]. *)
From Stdlib Require Import Ascii String ZArith Lia List Bool.
From S2P Require Import Prelude.
Import ListNotations.
#[local] Open Scope Z_scope.

(** ** The searches of [string_view] that the matcher uses; [None] is [npos] *)
Definition star : Z := chr "*".
Definition mark : Z := chr "?".

Fixpoint find_first (f : Z -> bool) (s : list Z) : option nat :=
  match s with
  | [] => None
  | c :: s' => if f c then Some O else option_map S (find_first f s')
  end.

Definition find_first_of (cs s : list Z) : option nat := find_first (fun c => existsb (Z.eqb c) cs) s.

Definition find_first_not_of (c : Z) (s : list Z) : option nat := find_first (fun d => negb (d =? c)) s.

Fixpoint starts_with (needle s : list Z) : bool :=
  match needle, s with
  | [], _ => true
  | c :: needle', d :: s' => (c =? d) && starts_with needle' s'
  | _ :: _, [] => false
  end.

Fixpoint find (needle s : list Z) : option nat :=
  if starts_with needle s then Some O
  else match s with [] => None | _ :: s' => option_map S (find needle s') end.

(** ** [FNMatch]: one turn of the loop per unit of fuel *)
Fixpoint fnmatch_loop (fuel : nat) (in_wildcard_match : bool) (pattern s : list Z) : option bool :=
  match fuel with
  | O => None
  | S fuel =>
      match pattern, s with
      | [], _ => Some (in_wildcard_match || match s with [] => true | _ => false end)
      | _, [] => Some (match find_first_not_of star pattern with None => true | Some _ => false end)
      | p :: pattern', c :: s' =>
          if p =? star then fnmatch_loop fuel true pattern' s
          else if p =? mark then fnmatch_loop fuel in_wildcard_match pattern' s'
          else if in_wildcard_match then
            let fixed_portion :=
              match find_first_of [star; mark] pattern with Some stop => firstn stop pattern | None => pattern end in
            match find fixed_portion s with
            | None => Some false
            | Some m => fnmatch_loop fuel false (skipn (length fixed_portion) pattern) (skipn (m + length fixed_portion) s)
            end
          else if p =? c then fnmatch_loop fuel in_wildcard_match pattern' s' else Some false
      end
  end.

(** A turn that goes on consumes a character of the pattern, so its length plus one is enough fuel. *)
Definition FNMatch (pattern s : list Z) : bool :=
  match fnmatch_loop (S (length pattern)) false pattern s with Some b => b | None => false end.

(** ** The reference: what [*] and [?] mean *)
Inductive glob : list Z -> list Z -> Prop :=
  | glob_nil : glob [] []
  | glob_star p s t : glob p t -> glob (star :: p) (s ++ t)
  | glob_mark p c s : glob p s -> glob (mark :: p) (c :: s)
  | glob_char p c s : c <> star -> c <> mark -> glob p s -> glob (c :: p) (c :: s).

#[local] Hint Constructors glob : core.

(** The patterns on which taking the first occurrence loses nothing: text after a [*] runs up to another [*]. *)
Fixpoint searchable (wild : bool) (p : list Z) : bool :=
  match p with
  | [] => true
  | c :: p' =>
      if c =? star then searchable true p'
      else if c =? mark then searchable wild p'
      else if wild then match p' with [] => false | d :: _ => negb (d =? mark) && searchable true p' end
      else searchable false p'
  end.

Definition literal (c : Z) : bool := negb (c =? star) && negb (c =? mark).

(** ** The searches *)
Lemma find_first_none f s : find_first f s = None <-> forallb (fun c => negb (f c)) s = true.
Proof.
  induction s as [|c s IH]; cbn; [easy|]. destruct (f c); cbn; [easy|].
  rewrite <- IH. now destruct (find_first f s).
Qed.

Lemma find_first_split f s n : find_first f s = Some n ->
  forallb (fun c => negb (f c)) (firstn n s) = true /\ exists c t, skipn n s = c :: t /\ f c = true.
Proof.
  revert n. induction s as [|c s IH]; intros n H; cbn in H; [discriminate|].
  destruct (f c) eqn:F; [injection H as <-; cbn; eauto|].
  destruct (find_first f s) as [m|]; [|discriminate]. injection H as <-. cbn. rewrite F. now apply IH.
Qed.

Lemma starts_with_iff needle s : starts_with needle s = true <-> exists t, s = needle ++ t.
Proof.
  revert s. induction needle as [|c n IH]; intros s; cbn; [eauto with *; split; eauto|].
  destruct s as [|d s]; [split; [discriminate|now intros [t ?]]|].
  rewrite andb_true_iff, Z.eqb_eq, IH. split.
  - intros [-> [t ->]]. now exists t.
  - intros [t H]. injection H as -> ->. eauto.
Qed.

Lemma find_some needle s n : find needle s = Some n ->
  exists u t, s = u ++ needle ++ t /\ length u = n.
Proof.
  revert n. induction s as [|c s IH]; intros n; cbn.
  - destruct (starts_with needle []) eqn:E; [|discriminate]. intros [= <-].
    apply starts_with_iff in E as [t E]. now exists [], t.
  - destruct (starts_with needle (c :: s)) eqn:E.
    + intros [= <-]. apply starts_with_iff in E as [t E]. now exists [], t.
    + destruct (find needle s) as [m|]; [|discriminate]. intros [= <-].
      destruct (IH m eq_refl) as (u & t & -> & <-). now exists (c :: u), t.
Qed.

Lemma find_least needle u t : exists n, find needle (u ++ needle ++ t) = Some n /\ (n <= length u)%nat.
Proof.
  assert (E : starts_with needle (needle ++ t) = true) by (apply starts_with_iff; eauto).
  induction u as [|c u (n & IH & L)]; cbn [app length].
  - exists O. split; [|lia]. destruct (needle ++ t); cbn [find]; now rewrite E.
  - cbn [find]. destruct (starts_with needle (c :: u ++ needle ++ t)); [exists O; split; [easy|lia]|].
    exists (S n). rewrite IH. split; [easy|lia].
Qed.

(** ** Laws of the reference *)
Lemma glob_app_inv p q s : glob (p ++ q) s -> exists u t, s = u ++ t /\ glob p u /\ glob q t.
Proof.
  revert s. induction p as [|c p IH]; intros s H; [now exists [], s|].
  cbn [app] in H. inversion H as [|p' a b G|p' d b G|p' d b N M G]; subst;
    destruct (IH _ G) as (u & t & -> & P & Q).
  - exists (a ++ u), t. rewrite app_assoc. auto.
  - exists (d :: u), t. auto.
  - exists (c :: u), t. auto.
Qed.

Lemma glob_app p q u t : glob p u -> glob q t -> glob (p ++ q) (u ++ t).
Proof. induction 1; cbn; intros; rewrite <- ?app_assoc; auto. Qed.

Lemma glob_literal p s : forallb literal p = true -> glob p s <-> s = p.
Proof.
  revert s. induction p as [|c p IH]; intros s L; [split; [now inversion 1|now intros ->]|].
  cbn in L. unfold literal in L at 1. zbool. split.
  - inversion 1 as [| | |p' d b _ _ G]; subst; try easy. f_equal. now apply IH.
  - intros ->. apply glob_char; auto. now apply IH.
Qed.

Lemma glob_stars p : find_first_not_of star p = None <-> glob p [].
Proof.
  unfold find_first_not_of. rewrite find_first_none. split.
  - induction p as [|c p IH]; cbn; [auto|]. rewrite negb_involutive, andb_true_iff, Z.eqb_eq.
    intros [-> F]. apply (glob_star p [] []). auto.
  - remember [] as e eqn:E. induction 1 as [|p s t G IH| |]; try easy.
    apply app_eq_nil in E as [-> ->]. cbn. auto.
Qed.

(** A pattern whose text another pattern matches is subsumed by it, unless a [?] stands for a [*]. *)
Lemma glob_subsumes e p s : glob e p -> ~ In mark e \/ ~ In star p -> glob p s -> glob e s.
Proof.
  intros G. revert s. induction G as [|e a b G IH|e c p G IH|e c p N M G IH]; intros s Q P.
  - now inversion P.
  - apply glob_app_inv in P as (u & t & -> & _ & P). apply glob_star, IH; auto.
    destruct Q as [Q|Q]; [left|right]; contradict Q; [now right|apply in_or_app; auto].
  - assert (c <> star) by (destruct Q as [Q|Q]; contradict Q; [now left|now left]).
    assert (Q' : ~ In mark e \/ ~ In star p) by (destruct Q as [Q|Q]; [left|right]; contradict Q; now right).
    inversion P; subst; try easy; auto.
  - assert (Q' : ~ In mark e \/ ~ In star p) by (destruct Q as [Q|Q]; [left|right]; contradict Q; now right).
    inversion P; subst; try easy; auto.
Qed.

(** ** The loop: inside a wildcard match any text may precede the rest of the pattern *)
Definition meaning (wild : bool) (p s : list Z) : Prop :=
  if wild then exists u t, s = u ++ t /\ glob p t else glob p s.

Lemma meaning_self wild p s : glob p s -> meaning wild p s.
Proof. destruct wild; [now exists [], s|auto]. Qed.

Lemma meaning_star wild p s : meaning wild (star :: p) s <-> meaning true p s.
Proof.
  split.
  - destruct wild; cbn; [intros (u & t & -> & G)|intros G]; inversion G; subst; try easy; eauto.
    rewrite app_assoc. eauto.
  - intros (u & t & -> & G). apply meaning_self. auto.
Qed.

Lemma meaning_mark wild p c s : meaning wild (mark :: p) (c :: s) <-> meaning wild p s.
Proof.
  destruct wild; cbn.
  - split.
    + intros (u & t & E & G). inversion G; subst; try easy. destruct u as [|d u]; injection E as -> ->.
      * now exists [], s0.
      * exists (u ++ [c0]), s0. now rewrite <- app_assoc.
    + intros (u & t & -> & G). destruct u as [|d u]; [exists [], (c :: t); auto|].
      destruct (exists_last (l := d :: u)) as (w & x & E); [easy|].
      exists (c :: w), (x :: t). split; [|auto].
      rewrite E, <- app_assoc. reflexivity.
  - split; [inversion 1; subst; try easy|auto].
Qed.

Lemma meaning_empty wild p : meaning wild p [] <-> glob p [].
Proof.
  split; [|apply meaning_self]. destruct wild; cbn; [|auto]. intros (u & t & E & G).
  symmetry in E. apply app_eq_nil in E as [-> ->]. exact G.
Qed.

Lemma meaning_nil wild s : meaning wild [] s <-> wild = true \/ s = [].
Proof.
  destruct wild; cbn.
  - split; [auto|]. intros _. exists s, []. rewrite app_nil_r. auto.
  - split; [inversion 1; auto|intros [H|H]; [easy|subst; auto]].
Qed.

(** The fixed portion of a pattern that starts with plain text. *)
Definition fixed_portion (p : list Z) : list Z :=
  match find_first_of [star; mark] p with Some stop => firstn stop p | None => p end.

Lemma fixed_portion_spec p : let f := fixed_portion p in let r := skipn (length f) p in
  p = f ++ r /\ forallb literal f = true /\ match r with [] => True | d :: _ => d = star \/ d = mark end.
Proof.
  assert (L : forall f, forallb (fun c => negb (existsb (Z.eqb c) [star; mark])) f = true -> forallb literal f = true).
  { intros f. rewrite !forallb_forall. intros H c I. specialize (H c I). cbn [existsb] in H. unfold literal.
    now destruct (c =? star), (c =? mark). }
  unfold fixed_portion, find_first_of. destruct (find_first _ p) as [n|] eqn:E; cbn zeta.
  - apply find_first_split in E as (F & c & t & S & C).
    assert (N : length (firstn n p) = n).
    { apply firstn_length_le. destruct (Nat.leb_spec n (length p)); [lia|]. rewrite skipn_all2 in S by lia. easy. }
    rewrite N. split; [now rewrite firstn_skipn|]. split; [auto|]. rewrite S. cbn [existsb] in C.
    rewrite orb_false_r in C. apply orb_true_iff in C as [C|C]; zbool; auto.
  - rewrite skipn_all, app_nil_r. split; [easy|]. split; [|easy]. apply L. now apply find_first_none.
Qed.

Lemma fixed_portion_cons c p : literal c = true -> exists f, fixed_portion (c :: p) = c :: f.
Proof.
  intros L. pose proof (fixed_portion_spec (c :: p)) as (E & _ & R). destruct (fixed_portion (c :: p)) as [|d f].
  - cbn [length skipn] in R. unfold literal in L. destruct R as [-> | ->]; discriminate.
  - exists f. cbn in E. now injection E as <-.
Qed.

(** Text that is searchable after a [*] is followed by another [*]. *)
Lemma searchable_fixed f r : f <> [] -> forallb literal f = true ->
  match r with [] => True | d :: _ => d = star \/ d = mark end ->
  searchable true (f ++ r) = true -> exists r', r = star :: r' /\ searchable false r = true.
Proof.
  intros N L R. induction f as [|c f IH]; [easy|]. cbn in L. apply andb_true_iff in L as [C L].
  unfold literal in C. cbn [app searchable]. apply andb_true_iff in C as [C1 C2].
  apply negb_true_iff in C1, C2. rewrite C1, C2. destruct f as [|d f].
  - cbn [app]. destruct r as [|d r]; [easy|]. intros S. apply andb_true_iff in S as [S1 S2].
    destruct R as [-> | ->]; [|discriminate]. exists r. split; [easy|]. exact S2.
  - cbn [app]. intros S. apply andb_true_iff in S as [_ S]. now apply IH.
Qed.

Lemma fnmatch_loop_total fuel : forall wild p s, (length p < fuel)%nat ->
  exists b, fnmatch_loop fuel wild p s = Some b.
Proof.
  induction fuel as [|fuel IH]; intros wild p s H; [lia|]. cbn [fnmatch_loop].
  destruct p as [|c p]; [eauto|]. destruct s as [|d s]; [eauto|]. cbn [length] in H.
  destruct (c =? star) eqn:C1; [apply IH; lia|]. destruct (c =? mark) eqn:C2; [apply IH; lia|].
  destruct wild; [|destruct (c =? d); [apply IH; lia|eauto]].
  fold (fixed_portion (c :: p)). destruct (fixed_portion_cons c p) as [f F]; [unfold literal; now rewrite C1, C2|].
  rewrite F. destruct (find (c :: f) (d :: s)); [|eauto]. apply IH. rewrite length_skipn. cbn [length]. lia.
Qed.

Lemma fnmatch_loop_sound fuel : forall wild p s, fnmatch_loop fuel wild p s = Some true -> meaning wild p s.
Proof.
  induction fuel as [|fuel IH]; intros wild p s H; [discriminate|]. cbn [fnmatch_loop] in H.
  destruct p as [|c p].
  { apply meaning_nil. destruct wild; [auto|]. destruct s; [auto|discriminate]. }
  destruct s as [|d s].
  { apply meaning_empty, glob_stars. now destruct (find_first_not_of star (c :: p)). }
  destruct (c =? star) eqn:C1; [zbool; subst; now apply meaning_star, IH|].
  destruct (c =? mark) eqn:C2; [zbool; subst; now apply meaning_mark, IH|].
  destruct wild.
  - fold (fixed_portion (c :: p)) in H. pose proof (fixed_portion_spec (c :: p)) as (E & L & _).
    set (f := fixed_portion (c :: p)) in *. destruct (find f (d :: s)) as [n|] eqn:F; [|discriminate].
    apply find_some in F as (u & t & S & <-). apply IH in H. cbn [meaning] in H.
    rewrite S, app_assoc, <- length_app, skipn_app, skipn_all, Nat.sub_diag in H. cbn [app skipn] in H. exists u, (f ++ t). split; [exact S|]. rewrite E. apply glob_app; [|exact H].
    now apply glob_literal.
  - destruct (c =? d) eqn:D; [|discriminate]. zbool. subst. apply IH in H. cbn in *. auto.
Qed.

Lemma fnmatch_loop_complete fuel : forall wild p s, searchable wild p = true -> meaning wild p s ->
  fnmatch_loop fuel wild p s <> Some false.
Proof.
  induction fuel as [|fuel IH]; intros wild p s Q M; [discriminate|]. cbn [fnmatch_loop].
  destruct p as [|c p].
  { apply meaning_nil in M as [-> | ->]; [easy|]. now rewrite orb_true_r. }
  destruct s as [|d s].
  { apply meaning_empty, glob_stars in M. now rewrite M. }
  cbn [searchable] in Q. destruct (c =? star) eqn:C1.
  { zbool. subst. apply IH; [exact Q|]. now apply meaning_star in M. }
  destruct (c =? mark) eqn:C2.
  { zbool. subst. apply IH; [exact Q|]. now apply meaning_mark in M. }
  assert (LC : literal c = true) by (unfold literal; now rewrite C1, C2). destruct wild.
  - fold (fixed_portion (c :: p)). pose proof (fixed_portion_spec (c :: p)) as (E & L & R).
    destruct (fixed_portion_cons c p LC) as [g G]. set (f := fixed_portion (c :: p)) in *. set (r := skipn _ _) in *.
    destruct (searchable_fixed f r) as (r' & R' & SR); [now rewrite G|exact L|exact R| |].
    { rewrite <- E. cbn [searchable]. now rewrite C1, C2. }
    destruct M as (u & t & S & M). rewrite E in M. apply glob_app_inv in M as (f' & t' & -> & F & M).
    apply glob_literal in F; [|exact L]. subst f'.
    destruct (find_least f u t') as (n & FN & N). rewrite S, FN. apply IH; [exact SR|]. cbn [meaning].
    rewrite R' in *. inversion M; subst; try easy.
    rewrite skipn_app. replace (n + length f - length u)%nat with (length f - (length u - n))%nat by lia.
    destruct (Nat.leb_spec (length f) (length u - n)).
    + replace (length f - (length u - n))%nat with O by lia. cbn [skipn]. rewrite !app_assoc. auto.
    + rewrite (skipn_all2 u) by lia. cbn [app]. rewrite skipn_app.
      replace (length f - (length u - n) - length f)%nat with O by lia. cbn [skipn]. rewrite app_assoc. auto.
  - cbn in M. inversion M; subst; try easy. rewrite Z.eqb_refl. apply IH; auto.
Qed.

(** C19: [FNMatch] ends within its fuel; what it accepts its pattern matches, and on the patterns in which
    text after a [*] runs up to another [*] it accepts everything the pattern matches. *)
Theorem FNMatch_correct pattern s :
  fnmatch_loop (S (length pattern)) false pattern s = Some (FNMatch pattern s) /\
  (FNMatch pattern s = true -> glob pattern s) /\
  (searchable false pattern = true -> (FNMatch pattern s = true <-> glob pattern s)).
Proof.
  unfold FNMatch. destruct (fnmatch_loop_total (S (length pattern)) false pattern s) as [b E]; [lia|].
  assert (S : b = true -> glob pattern s) by (intros ->; now apply fnmatch_loop_sound in E).
  rewrite E. repeat split; auto. intros M. apply (fnmatch_loop_complete (Datatypes.S (length pattern)) false) in M; [|easy].
  destruct b; congruence.
Qed.

(** The same facts, for the clients of the matcher. *)
Lemma FNMatch_sound pattern s : FNMatch pattern s = true -> glob pattern s.
Proof.
  unfold FNMatch. destruct (fnmatch_loop _ _ _ _) as [b|] eqn:E; [|easy]. intros ->. now apply fnmatch_loop_sound in E.
Qed.

Lemma FNMatch_complete pattern s : searchable false pattern = true -> glob pattern s -> FNMatch pattern s = true.
Proof.
  intros Q G. unfold FNMatch. destruct (fnmatch_loop_total (S (length pattern)) false pattern s) as [b E]; [lia|].
  pose proof (fnmatch_loop_complete (S (length pattern)) false pattern s Q G). rewrite E in *. now destruct b.
Qed.

(** Text after the last [*] is sought from the left: a name in which it occurs earlier is missed. *)
Lemma FNMatch_misses : FNMatch (str "*_test") (str "a_test_test") = false /\ glob (str "*_test") (str "a_test_test").
Proof.
  split; [reflexivity|]. apply (glob_star (str "_test") (str "a_test") (str "_test")). now apply glob_literal.
Qed.
