(* ===== verification/VModule.v ===== *)
(** The levels of verbose logging, [log/internal/vlog_config.cc]: the [vmodule] list of patterns and the level
    it gives to a file. *)
From Stdlib Require Import Ascii String ZArith Lia List Bool.
From S2P Require Import Prelude Digits FastInt NumberParse FnMatch.
Import ListNotations.
#[local] Open Scope Z_scope.

(** ** Text: [string_view] and [StrSplit] with a character *)
Fixpoint find_last (f : Z -> bool) (s : list Z) : option nat :=
  match s with
  | [] => None
  | c :: s' => match find_last f s' with Some n => Some (S n) | None => if f c then Some O else None end
  end.

Definition is_slash : Z -> bool := Z.eqb (chr "/").

(** [SplitIterator::operator++] with [ByChar::Find]: the piece from [pos] to the next delimiter. *)
Fixpoint split_loop (fuel : nat) (c : Z) (text : list Z) (pos : nat) : list (list Z) :=
  match fuel with
  | O => []
  | S fuel =>
      match find_first (Z.eqb c) (skipn pos text) with
      | None => [skipn pos text]
      | Some d => firstn d (skipn pos text) :: split_loop fuel c text (pos + d + 1)
      end
  end.

Definition StrSplit (text : list Z) (c : Z) : list (list Z) := split_loop (S (length text)) c text 0.

Definition ends_with (s suffix : list Z) : bool := starts_with (rev suffix) (rev s).

(** ** The configuration *)
Record VModuleInfo := mk_info { module_pattern : list Z; module_is_path : bool; vlog_level : Z }.

(** [global_v] and [vmodule_info], which is null until it is first needed. *)
Record Config := mk_config { global_v : Z; vmodule_info : option (list VModuleInfo) }.

Definition initial : Config := mk_config 0 None.

Definition get_vmodule_info (c : Config) : list VModuleInfo :=
  match vmodule_info c with Some infos => infos | None => [] end.

Definition ModuleIsPath (pattern : list Z) : bool := existsb is_slash pattern.

Definition Basename (file : list Z) : list Z :=
  match find_last is_slash file with Some sep => skipn (sep + 1) file | None => file end.

Definition remove_suffix (n : nat) (s : list Z) : list Z := firstn (length s - n) s.

(** [stem] and [stem_basename] of a file. *)
Definition stems (file : list Z) : list Z * list Z :=
  let base := Basename file in
  let '(stem, base) :=
    match find_first (Z.eqb (chr ".")) base with
    | Some sep => (remove_suffix (length base - sep) file, remove_suffix (length base - sep) base)
    | None => (file, base)
    end in
  if ends_with base (str "-inl") then (remove_suffix 4 stem, remove_suffix 4 base) else (stem, base).

Fixpoint level_loop (infos : list VModuleInfo) (stem base : list Z) (current_global_v : Z) : Z :=
  match infos with
  | [] => current_global_v
  | info :: infos' =>
      if module_is_path info then
        if FNMatch (module_pattern info) stem then vlog_level info else level_loop infos' stem base current_global_v
      else if FNMatch (module_pattern info) base then vlog_level info
      else level_loop infos' stem base current_global_v
  end.

Definition VLogLevel (file : list Z) (infos : option (list VModuleInfo)) (current_global_v : Z) : Z :=
  match infos with
  | None => current_global_v
  | Some [] => current_global_v
  | Some infos => let '(stem, base) := stems file in level_loop infos stem base current_global_v
  end.

(** The public [VLogLevel(file)], under the lock. *)
Definition file_level (c : Config) (file : list Z) : Z := VLogLevel file (vmodule_info c) (global_v c).

Definition new_info (pattern : list Z) (level : Z) : VModuleInfo := mk_info pattern (ModuleIsPath pattern) level.

Definition AppendVModuleLocked (c : Config) (pattern : list Z) (level : Z) : Config * Z :=
  let infos := get_vmodule_info c in
  match List.find (fun info => FNMatch (module_pattern info) pattern) infos with
  | Some info => (mk_config (global_v c) (Some infos), vlog_level info)
  | None => (mk_config (global_v c) (Some (infos ++ [new_info pattern level])), global_v c)
  end.

Definition PrependVModuleLocked (c : Config) (pattern : list Z) (level : Z) : Config * Z :=
  let infos := get_vmodule_info c in
  let old := option_map vlog_level (List.find (fun info => FNMatch (module_pattern info) pattern) infos) in
  let kept := filter (fun info => negb (FNMatch pattern (module_pattern info))) infos in
  (mk_config (global_v c) (Some (new_info pattern level :: kept)),
   match old with Some l => l | None => global_v c end).

(** The loop of [UpdateVModule] over the text. *)
Definition parse_entry (glob_level : list Z) : list (list Z * Z) :=
  match find_last (Z.eqb (chr "=")) glob_level with
  | None => []
  | Some eq =>
      match SimpleAtoi (int_t 32) (Some (skipn (eq + 1) glob_level)) with
      | Some (level, true) => [(firstn eq glob_level, level)]
      | _ => []
      end
  end.

Definition glob_levels (vmodule : list Z) : list (list Z * Z) := flat_map parse_entry (StrSplit vmodule (chr ",")).

(** What the setters do to the configuration while they hold the lock. *)
Definition set_vmodule (c : Config) (vmodule : list Z) : Config :=
  fold_left (fun c e => fst (AppendVModuleLocked c (fst e) (snd e))) (glob_levels vmodule)
            (mk_config (global_v c) (Some [])).

Definition set_global (c : Config) (v : Z) : Config := mk_config v (vmodule_info c).

Definition prepend_vmodule (c : Config) (pattern : list Z) (level : Z) : Config :=
  fst (PrependVModuleLocked c pattern level).

(** ** The reference: the first entry that matches gives the level *)
Definition entry := (list Z * Z)%type.

Definition entry_matches (file : list Z) (e : entry) : bool :=
  FNMatch (fst e) (if ModuleIsPath (fst e) then fst (stems file) else snd (stems file)).

Definition first_level (es : list entry) (file : list Z) (default : Z) : Z :=
  match List.find (entry_matches file) es with Some e => snd e | None => default end.

(** Pattern [p] may be dropped in favour of [e]: both look at the same part of a name, [e] is searched
    completely and no [?] of it stands for a [*]. *)
Definition covers (e p : list Z) : Prop :=
  FNMatch e p = true ->
  ModuleIsPath e = ModuleIsPath p /\ searchable false e = true /\ (~ In mark e \/ ~ In star p).

Definition entry_text (e : entry) : list Z := fst e ++ chr "=" :: int_text (snd e).

Fixpoint vmodule_text (e : entry) (es : list entry) : list Z :=
  match es with
  | [] => entry_text e
  | e' :: es' => entry_text e ++ chr "," :: vmodule_text e' es'
  end.

Definition entry_ok (e : entry) : Prop := ~ In (chr ",") (fst e) /\ in_s 32 (snd e).

(** ** The text reads back *)
Lemma find_first_miss f s : (forall c, In c s -> f c = false) -> find_first f s = None.
Proof. intros H. apply find_first_none, forallb_forall. intros c I. now rewrite H. Qed.

Lemma find_first_hit f s c t : (forall d, In d s -> f d = false) -> f c = true ->
  find_first f (s ++ c :: t) = Some (length s).
Proof.
  intros H F. induction s as [|d s IH]; cbn; [now rewrite F|]. rewrite (H d) by now left.
  rewrite IH; [easy|]. intros; apply H; now right.
Qed.

Lemma find_last_miss f s : (forall c, In c s -> f c = false) -> find_last f s = None.
Proof.
  intros H. induction s as [|c s IH]; cbn; [easy|]. rewrite IH by (intros; apply H; now right).
  now rewrite (H c) by now left.
Qed.

Lemma find_last_hit f s c t : (forall d, In d t -> f d = false) -> f c = true ->
  find_last f (s ++ c :: t) = Some (length s).
Proof.
  intros H F. induction s as [|d s IH]; cbn; [now rewrite find_last_miss, F|]. now rewrite IH.
Qed.

Lemma neq_eqb c s : ~ In c s -> forall d, In d s -> (c =? d) = false.
Proof. intros N d I. apply Z.eqb_neq. congruence. Qed.

Lemma int_text_plain i d : In d (int_text i) -> d = chr "-" \/ chr "0" <= d <= chr "9".
Proof.
  unfold int_text. intros H. apply in_app_or in H as [H|H].
  - destruct (i <? 0); [destruct H as [<-|[]]; auto|destruct H].
  - unfold dec_text in H. apply in_map_iff in H as (x & <- & I).
    pose proof (proj1 (Forall_forall _ _) (digits_decimal (Z.abs i) (Z.abs_nonneg i)) x I) as D.
    unfold decimal in D. right. change (chr "9") with (chr "0" + 9). lia.
Qed.

Lemma int_text_not i c : In c [chr ","; chr "="] -> ~ In c (int_text i).
Proof. intros C I. apply int_text_plain in I. cbn in C. cbn in I. lia. Qed.

Lemma parse_entry_text e : entry_ok e -> parse_entry (entry_text e) = [e].
Proof.
  intros [_ R]. unfold parse_entry, entry_text.
  rewrite find_last_hit by first [reflexivity | apply neq_eqb, int_text_not; cbn; auto].
  replace (skipn (length (fst e) + 1) (fst e ++ chr "=" :: int_text (snd e))) with (int_text (snd e))
    by (rewrite skipn_app, skipn_all2, Nat.add_comm, Nat.add_sub by lia; reflexivity).
  pose proof (parse_int_text (snd e) [] [] eq_refl eq_refl) as P. cbn [app] in P. rewrite app_nil_r in P.
  apply (int_roundtrip (int_t 32)) in P; [|unfold std_type; cbn; auto|unfold int_min, int_max, in_s in *; cbn in *; lia].
  unfold SimpleAtoi, safe_strtoi_base. cbn [width int_t is_signed Z.eqb] in *. cbn.
  unfold safe_strto32_base. rewrite P, firstn_app, firstn_all, Nat.sub_diag. cbn. rewrite app_nil_r. now destruct e.
Qed.

Lemma split_vmodule es : forall e pre fuel, Forall entry_ok (e :: es) -> (length es < fuel)%nat ->
  split_loop fuel (chr ",") (pre ++ vmodule_text e es) (length pre) = map entry_text (e :: es).
Proof.
  assert (P : forall e d, entry_ok e -> In d (entry_text e) -> (chr "," =? d) = false).
  { intros e d [N _] I. apply Z.eqb_neq. intros <-. apply in_app_or in I as [I|[I|I]]; [easy|discriminate|].
    revert I. apply int_text_not. cbn; auto. }
  induction es as [|e' es IH]; intros e pre fuel F L; (destruct fuel as [|fuel]; [cbn in L; lia|]);
    inversion F as [|? ? E F']; subst; cbn [split_loop vmodule_text]; rewrite skipn_app, skipn_all, Nat.sub_diag; cbn [app skipn].
  - rewrite find_first_miss; [easy|]. intros d. now apply P.
  - rewrite find_first_hit by first [reflexivity | intros d; now apply P].
    rewrite firstn_app, firstn_all, Nat.sub_diag. cbn [firstn map]. rewrite app_nil_r. f_equal.
    specialize (IH e' (pre ++ entry_text e ++ [chr ","]) fuel F' ltac:(cbn in L; lia)).
    rewrite !length_app, <- !app_assoc in IH. cbn [app length] in IH.
    etransitivity; [|exact IH]. f_equal. lia.
Qed.

Lemma vmodule_text_length e es : (length es <= length (vmodule_text e es))%nat.
Proof. revert e. induction es as [|e' es IH]; intros e; cbn; [lia|]. rewrite length_app. specialize (IH e'). cbn. lia. Qed.

Lemma glob_levels_text e es : Forall entry_ok (e :: es) -> glob_levels (vmodule_text e es) = e :: es.
Proof.
  intros F. unfold glob_levels, StrSplit. pose proof (vmodule_text_length e es).
  rewrite (split_vmodule es e [] _ F) by lia. clear H.
  induction F as [|x l X F IH]; cbn [map flat_map]; [easy|]. rewrite parse_entry_text by exact X. cbn. now f_equal.
Qed.

(** ** Names: the directory, the name and what follows its first dot *)
Lemma remove_suffix_app s t : remove_suffix (length t) (s ++ t) = s.
Proof. unfold remove_suffix. rewrite length_app, Nat.add_sub, firstn_app, Nat.sub_diag, firstn_all. apply app_nil_r. Qed.

Lemma Basename_app dir base : (dir = [] \/ exists d, dir = d ++ [chr "/"]) -> ~ In (chr "/") base ->
  Basename (dir ++ base) = base.
Proof.
  intros D N. unfold Basename. destruct D as [-> |[d ->]].
  - cbn [app]. now rewrite find_last_miss by now apply neq_eqb.
  - rewrite <- app_assoc. cbn [app]. rewrite find_last_hit by first [reflexivity | now apply neq_eqb].
    replace (length d + 1)%nat with (length (d ++ [chr "/"])) by (rewrite length_app; reflexivity).
    change (chr "/" :: base) with ([chr "/"] ++ base). now rewrite app_assoc, skipn_app, skipn_all, Nat.sub_diag.
Qed.

Definition plain_name (name : list Z) : Prop := ~ In (chr "/") name /\ ~ In (chr ".") name.

Definition extension (ext : list Z) : Prop := ~ In (chr "/") ext /\ (ext = [] \/ exists t, ext = chr "." :: t).

Lemma stems_cut dir name ext : (dir = [] \/ exists d, dir = d ++ [chr "/"]) -> plain_name name -> extension ext ->
  stems (dir ++ name ++ ext) =
  if ends_with name (str "-inl") then (remove_suffix 4 (dir ++ name), remove_suffix 4 name) else (dir ++ name, name).
Proof.
  intros D [N1 N2] [X1 X2]. unfold stems.
  rewrite Basename_app by (exact D || (intros I; apply in_app_or in I as [I|I]; auto)).
  destruct X2 as [-> |[t ->]].
  - rewrite !app_nil_r, find_first_miss by now apply neq_eqb. reflexivity.
  - rewrite find_first_hit by first [reflexivity | now apply neq_eqb].
    replace (length (name ++ chr "." :: t) - length name)%nat with (length (chr "." :: t)) by (rewrite length_app; lia).
    rewrite app_assoc, !remove_suffix_app. reflexivity.
Qed.

Lemma stems_plain dir name ext : (dir = [] \/ exists d, dir = d ++ [chr "/"]) -> plain_name name -> extension ext ->
  ends_with name (str "-inl") = false -> stems (dir ++ name ++ ext) = (dir ++ name, name).
Proof. intros D N X E. now rewrite stems_cut, E. Qed.

Lemma stems_inl dir name ext : (dir = [] \/ exists d, dir = d ++ [chr "/"]) -> plain_name name -> extension ext ->
  stems (dir ++ (name ++ str "-inl") ++ ext) = (dir ++ name, name).
Proof.
  intros D [N1 N2] X. rewrite stems_cut; auto.
  - unfold ends_with. rewrite rev_app_distr. rewrite (proj2 (starts_with_iff _ _)) by eauto.
    rewrite app_assoc. change 4%nat with (length (str "-inl")). now rewrite !remove_suffix_app.
  - split; intros I; apply in_app_or in I as [I|I]; auto; cbn in I; intuition discriminate.
Qed.

(** ** The first entry that matches *)
Definition infos_of (es : list entry) : list VModuleInfo := map (fun e => new_info (fst e) (snd e)) es.

Lemma level_loop_first es file g :
  level_loop (infos_of es) (fst (stems file)) (snd (stems file)) g = first_level es file g.
Proof.
  unfold first_level. induction es as [|e es IH]; cbn [infos_of map level_loop List.find]; [easy|].
  unfold entry_matches at 1. cbn [new_info module_is_path module_pattern vlog_level].
  destruct (ModuleIsPath (fst e)), (FNMatch (fst e) _); auto.
Qed.

Lemma file_level_first c es file : vmodule_info c = Some (infos_of es) ->
  file_level c file = first_level es file (global_v c).
Proof.
  intros E. unfold file_level, VLogLevel. rewrite E. rewrite <- level_loop_first.
  destruct es; [easy|]. cbn [infos_of map]. now destruct (stems file).
Qed.

Lemma covers_matches (e p : entry) file : covers (fst e) (fst p) -> FNMatch (fst e) (fst p) = true ->
  entry_matches file p = true -> entry_matches file e = true.
Proof.
  intros C M P. destruct (C M) as (S & Q & W). unfold entry_matches in *. rewrite S.
  apply FNMatch_complete; [exact Q|]. eapply glob_subsumes; eauto using FNMatch_sound.
Qed.

(** Entry lists that give every file the same level. *)
Definition same_levels (es es' : list entry) : Prop := forall file g, first_level es file g = first_level es' file g.

Lemma first_level_app es es' file g : first_level (es ++ es') file g = first_level es file (first_level es' file g).
Proof.
  unfold first_level at 1 2. induction es as [|e es IH]; cbn; [easy|]. now destruct (entry_matches file e).
Qed.

Lemma first_level_hit es file e g g' : In e es -> entry_matches file e = true -> first_level es file g = first_level es file g'.
Proof.
  intros I M. unfold first_level. destruct (List.find (entry_matches file) es) eqn:E; [easy|].
  eapply find_none in E; eauto. congruence.
Qed.

(** An entry whose text an earlier entry covers changes nothing. *)
Lemma drop_covered es e p : In e es -> covers (fst e) (fst p) -> FNMatch (fst e) (fst p) = true ->
  same_levels (es ++ [p]) es.
Proof.
  intros I C M file g. rewrite first_level_app. unfold first_level at 2. cbn.
  destruct (entry_matches file p) eqn:P; [|easy]. eapply first_level_hit; eauto using covers_matches.
Qed.

Lemma same_levels_app es es' p : same_levels es es' -> same_levels (es ++ [p]) (es' ++ [p]).
Proof. intros S file g. now rewrite !first_level_app, S. Qed.

Lemma find_infos (f : list Z -> bool) (es : list entry) : List.find (fun info => f (module_pattern info)) (infos_of es) =
  option_map (fun e => new_info (fst e) (snd e)) (List.find (fun e => f (fst e)) es).
Proof. induction es as [|e es IH]; cbn; [easy|]. now destruct (f (fst e)). Qed.

(** Appending the entries one by one keeps the first match, whatever is dropped. *)
Lemma append_all es : forall done kept c, vmodule_info c = Some (infos_of kept) -> incl kept done -> same_levels kept done ->
  ForallOrdPairs (fun e p => covers (fst e) (fst p)) (done ++ es) ->
  exists kept', same_levels kept' (done ++ es) /\
  fold_left (fun c e => fst (AppendVModuleLocked c (fst e) (snd e))) es c = mk_config (global_v c) (Some (infos_of kept')).
Proof.
  induction es as [|p es IH]; intros dn kept c E I S F.
  - exists kept. rewrite app_nil_r. split; [exact S|]. destruct c. cbn in *. now rewrite E.
  - cbn [fold_left]. replace (dn ++ p :: es) with ((dn ++ [p]) ++ es) in * by now rewrite <- app_assoc.
    assert (CV : forall e, In e dn -> covers (fst e) (fst p)).
    { clear -F. induction dn as [|d dn IH]; intros e I; [destruct I|]. destruct I as [<-|I]; inversion F as [|? ? H F']; subst; [|now apply IH].
      rewrite Forall_forall in H. apply H. rewrite !in_app_iff. cbn. auto. }
    unfold AppendVModuleLocked at 2. unfold get_vmodule_info. rewrite E.
    rewrite (find_infos (fun q => FNMatch q (fst p))).
    destruct (List.find (fun e => FNMatch (fst e) (fst p)) kept) as [e|] eqn:X; cbn [option_map fst].
    + apply List.find_some in X as [X M].
      apply (IH (dn ++ [p]) kept (mk_config (global_v c) (Some (infos_of kept)))); auto.
      * intros x ?. apply in_or_app. auto.
      * intros file g. rewrite S. symmetry. eapply drop_covered; eauto.
    + apply (IH (dn ++ [p]) (kept ++ [p]) (mk_config (global_v c) (Some (infos_of kept ++ [new_info (fst p) (snd p)])))); auto.
      * cbn. unfold infos_of. now rewrite map_app.
      * intros x. rewrite !in_app_iff. intros [?|?]; auto.
      * now apply same_levels_app.
Qed.

Lemma set_vmodule_levels c e es : Forall entry_ok (e :: es) ->
  ForallOrdPairs (fun e p => covers (fst e) (fst p)) (e :: es) ->
  exists kept, same_levels kept (e :: es) /\
  set_vmodule c (vmodule_text e es) = mk_config (global_v c) (Some (infos_of kept)).
Proof.
  intros O F. unfold set_vmodule. rewrite glob_levels_text by exact O.
  apply (append_all (e :: es) [] [] (mk_config (global_v c) (Some []))); easy.
Qed.

(** A pattern put in front overrides the others, and those it removes would not have been reached. *)
Lemma prepend_first p es file g : Forall (fun q => covers (fst p) (fst q)) es ->
  first_level (p :: filter (fun q => negb (FNMatch (fst p) (fst q))) es) file g = first_level (p :: es) file g.
Proof.
  intros F. unfold first_level. cbn. destruct (entry_matches file p) eqn:P; [easy|].
  induction F as [|q es C F IH]; cbn; [easy|]. destruct (FNMatch (fst p) (fst q)) eqn:M; cbn.
  - destruct (entry_matches file q) eqn:Q; [|exact IH]. rewrite (covers_matches p q) in P; easy.
  - now destruct (entry_matches file q).
Qed.

Lemma filter_infos (f : list Z -> bool) es :
  filter (fun info => f (module_pattern info)) (infos_of es) = infos_of (filter (fun e => f (fst e)) es).
Proof.
  unfold infos_of. induction es as [|e es IH]; cbn [map filter]; [easy|]. cbn [new_info module_pattern].
  destruct (f (fst e)); cbn [map]; now rewrite IH.
Qed.

Lemma prepend_level c es p file : vmodule_info c = Some (infos_of es) -> Forall (fun q => covers (fst p) (fst q)) es ->
  file_level (prepend_vmodule c (fst p) (snd p)) file = if entry_matches file p then snd p else file_level c file.
Proof.
  intros E F. rewrite (file_level_first c es) by exact E.
  rewrite (file_level_first _ (p :: filter (fun q => negb (FNMatch (fst p) (fst q))) es)).
  - rewrite prepend_first by exact F. unfold first_level. cbn. now destruct (entry_matches file p).
  - unfold prepend_vmodule, PrependVModuleLocked, get_vmodule_info. rewrite E. cbn.
    now rewrite (filter_infos (fun q => negb (FNMatch (fst p) q))).
Qed.

(** ** What a pattern is matched with

    The path of a file without its extension, or its last component only when the pattern has no slash; an
    ending [-inl] is dropped. *)
Definition file_parts (file dir name : list Z) : Prop :=
  exists inl ext, file = dir ++ (name ++ inl) ++ ext /\ (dir = [] \/ exists d, dir = d ++ [chr "/"]) /\
  plain_name name /\ extension ext /\ (inl = str "-inl" \/ inl = [] /\ ends_with name (str "-inl") = false).

Definition name_matches (dir name : list Z) (e : entry) : bool :=
  FNMatch (fst e) (if existsb (Z.eqb (chr "/")) (fst e) then dir ++ name else name).

Lemma file_parts_matches file dir name e : file_parts file dir name -> entry_matches file e = name_matches dir name e.
Proof.
  intros (inl & ext & -> & D & N & X & I). unfold entry_matches, name_matches.
  destruct I as [-> |[-> I]]; [rewrite stems_inl by auto|rewrite app_nil_r, stems_plain by auto]; reflexivity.
Qed.

Lemma first_level_names file dir name es g : file_parts file dir name ->
  first_level es file g = match List.find (name_matches dir name) es with Some e => snd e | None => g end.
Proof.
  intros P. unfold first_level. induction es as [|e es IH]; cbn; [easy|].
  rewrite (file_parts_matches _ _ _ _ P). now destruct (name_matches dir name e).
Qed.

(** C18: After [UpdateVModule] with the text of a list of patterns and levels a file has the level of the first
    pattern that matches its name, or the global level, although entries whose text an earlier one matches are
    dropped, provided an earlier pattern that matches the text of a later one looks at the same part of names, is
    searched completely and has no [?] where the later one has a [*]; a pattern put in front by [PrependVModule]
    under the same condition then decides for exactly the files it matches. *)
Theorem vmodule_correct c e es file dir name : Forall entry_ok (e :: es) ->
  ForallOrdPairs (fun e p => covers (fst e) (fst p)) (e :: es) -> file_parts file dir name ->
  let c' := set_vmodule c (vmodule_text e es) in
  let first g := match List.find (name_matches dir name) (e :: es) with Some e => snd e | None => g end in
  file_level c' file = first (global_v c) /\
  (forall v, file_level (set_global c' v) file = first v) /\
  (forall p, Forall (fun info => covers (fst p) (module_pattern info)) (get_vmodule_info c') ->
   file_level (prepend_vmodule c' (fst p) (snd p)) file =
   if name_matches dir name p then snd p else file_level c' file).
Proof.
  intros O F P c' first. destruct (set_vmodule_levels c e es O F) as (kept & S & E). fold c' in E.
  assert (L : forall g, first_level kept file g = first g) by (intros g; now rewrite S, (first_level_names _ _ _ _ _ P)).
  rewrite E. split; [|split].
  - rewrite <- L. now rewrite (file_level_first _ kept).
  - intros v. rewrite <- L. now rewrite (file_level_first _ kept).
  - intros p H. rewrite <- (file_parts_matches _ _ _ _ P). apply (prepend_level _ kept); [easy|].
    cbn in H. unfold infos_of in H. rewrite Forall_map in H. exact H.
Qed.


(** Membership of a closed list of characters. *)
Ltac not_in := let I := fresh in intros I; cbn in I; intuition discriminate.

Lemma vmodule_correct_witness : let c := set_vmodule initial (str "base/l*=3,l*=-2,log=4") in
  file_level c (str "net/log-inl.h") = -2 /\ length (get_vmodule_info c) = 2%nat /\
  file_level (prepend_vmodule c (str "lo*") 7) (str "net/log-inl.h") = 7.
Proof.
  destruct (vmodule_correct initial (str "base/l*", 3) [(str "l*", -2); (str "log", 4)] (str "net/log-inl.h")
              (str "net/") (str "log")) as (L & _ & P).
  - repeat (constructor; [split; [not_in|vm_compute; split; congruence]|]). constructor.
  - repeat apply FOP_cons; try apply FOP_nil; repeat apply Forall_cons; try apply Forall_nil;
      intros M; vm_compute in M; try discriminate M. repeat split. left. not_in.
  - exists (str "-inl"), (str ".h"). repeat split; auto; try not_in.
    + right. now exists (str "net").
    + right. now exists (str "h").
  - split; [exact L|]. split; [reflexivity|]. apply (P (str "lo*", 7)). vm_compute get_vmodule_info.
    repeat apply Forall_cons; try apply Forall_nil; intros M; vm_compute in M; discriminate M.
Defined.

(** A pattern without a slash drops a later one with a slash whose text it matches, although it is matched with
    the last component only: the file then keeps the global level. *)
Lemma vmodule_drops_path : let es := [(str "foo*", 1); (str "foo/bar", 2)] in
  glob_levels (str "foo*=1,foo/bar=2") = es /\
  file_level (set_vmodule initial (str "foo*=1,foo/bar=2")) (str "foo/bar.cc") = 0 /\
  first_level es (str "foo/bar.cc") 0 = 2.
Proof. repeat split. Qed.

(** A [?] matches the character [*] of a later pattern, which matches more. *)
Lemma vmodule_drops_star : let es := [(str "?", 1); (str "*", 2)] in
  glob_levels (str "?=1,*=2") = es /\
  file_level (set_vmodule initial (str "?=1,*=2")) (str "abc.cc") = 0 /\ first_level es (str "abc.cc") 0 = 2.
Proof. repeat split. Qed.

(** Putting a pattern in front removes the level of a file that the pattern does not match. *)
Lemma prepend_affects_others : let c := set_vmodule initial (str "foo/bar=2") in
  file_level c (str "foo/bar.cc") = 2 /\ entry_matches (str "foo/bar.cc") (str "foo*", 1) = false /\
  file_level (prepend_vmodule c (str "foo*") 1) (str "foo/bar.cc") = 0.
Proof. repeat split. Qed.
