(* ===== verification/VLogSites.v ===== *)
(** The sites of verbose logging, [log/internal/vlog_config.h] and [vlog_config.cc]: every site caches its level,
    threads register sites in a lock-free list, and the setters write new levels into all of them.  Each step is
    one atomic operation, or one critical section of a lock whose data nothing else touches. *)
From Stdlib Require Import Ascii String ZArith Lia List Bool Arith.
From S2P Require Import Prelude FnMatch VModule.
Import ListNotations.
#[local] Open Scope Z_scope.

(** ** Data *)
Definition kUninitialized : Z := 2 ^ 31 - 1.

(** A site by its number: [file_] is a pointer, [next_] the number of a site or null. *)
Record VLogSite := mk_site { file_ : Z; v_ : Z; next_ : option nat }.

Definition set_v (x : VLogSite) (v : Z) : VLogSite := mk_site (file_ x) v (next_ x).
Definition set_next (x : VLogSite) (n : option nat) : VLogSite := mk_site (file_ x) (v_ x) n.

Inductive setter :=
  | UpdateVModule (vmodule : list Z)
  | UpdateGlobalVLogLevel (v : Z)
  | PrependVModule (pattern : list Z) (level : Z).

Inductive result := RVoid | RBool (b : bool) | RInt (z : Z).

(** Where a thread is: in [IsEnabled] of a site, in a setter, or outside. *)
Inductive pc :=
  | Done (r : result)
  | Load (v : nat) (level : Z)
  | RegHead (v : nat) (level : Z)
  | RegNext (v : nat) (level : Z) (h : option nat)
  | RegPush (v : nat) (level : Z) (h : option nat)
  | RegStore (v : nat) (level : Z) (h : option nat)
  | RegLevel (v : nat) (level : Z)
  | RegSet (v : nat) (level : Z) (new_v : Z)
  | UpdLock (o : setter)
  | UpdWait (c : Config) (r : result)
  | UpdHead (c : Config) (r : result)
  | UpdSite (c : Config) (r : result) (n : option nat) (last_file : option Z) (last_file_level : Z)
  | UpdNext (c : Config) (r : result) (n : nat) (last_file : option Z) (last_file_level : Z)
  | AddCallback (cb : Z).

Record State := mk_state {
  cfg : Config;
  mutex : option nat;
  update_mutex : option nat;
  site_list_head : option nat;
  sites : nat -> VLogSite;
  update_callbacks : list Z;
  called : list Z;
  pcs : nat -> pc }.

Definition upd {A} (f : nat -> A) (i : nat) (x : A) (j : nat) : A := if Nat.eqb j i then x else f j.

Definition go (s : State) (t : nat) (p : pc) : State :=
  mk_state (cfg s) (mutex s) (update_mutex s) (site_list_head s) (sites s) (update_callbacks s) (called s) (upd (pcs s) t p).

Definition with_sites (s : State) (f : nat -> VLogSite) : State :=
  mk_state (cfg s) (mutex s) (update_mutex s) (site_list_head s) f (update_callbacks s) (called s) (pcs s).

Definition with_head (s : State) (h : option nat) : State :=
  mk_state (cfg s) (mutex s) (update_mutex s) h (sites s) (update_callbacks s) (called s) (pcs s).

Definition with_locks (s : State) (c : Config) (m u : option nat) : State :=
  mk_state c m u (site_list_head s) (sites s) (update_callbacks s) (called s) (pcs s).

Definition eq_site (a b : option nat) : bool :=
  match a, b with Some i, Some j => Nat.eqb i j | None, None => true | _, _ => false end.

(** ** What a setter does under the lock: the new configuration and the value it returns, or [inl] of that value
    when there is nothing to update *)
Definition apply_setter (c : Config) (o : setter) : result + Config * result :=
  match o with
  | UpdateVModule vmodule => inr (set_vmodule c vmodule, RVoid)
  | UpdateGlobalVLogLevel v =>
      if v =? global_v c then inl (RInt (global_v c)) else inr (set_global c v, RInt (global_v c))
  | PrependVModule pattern level =>
      let '(c', old) := PrependVModuleLocked c pattern level in inr (c', RInt old)
  end.

(** [get_vmodule_info()] allocates the list of patterns. *)
Definition allocated (c : Config) : Config := mk_config (global_v c) (Some (get_vmodule_info c)).

Section Sites.
(** The text at a pointer. *)
Variable cstr : Z -> list Z.

Definition level_of (c : Config) (file : Z) : Z := file_level c (cstr file).

(** The level of the file of a site: [n->file_ != last_file] compares pointers. *)
Definition last_entry (c : Config) (file : Z) (last_file : option Z) (last_file_level : Z) : option Z * Z :=
  if match last_file with Some f => file =? f | None => false end then (last_file, last_file_level)
  else (Some file, level_of c file).

(** ** One step of thread [t]; [None] while it waits for a lock or is outside.  [spurious] makes the weak
    exchange fail. *)
Definition step (t : nat) (spurious : bool) (s : State) : option State :=
  match pcs s t with
  | Done _ => None
  | Load v level =>
      let stale_v := v_ (sites s v) in
      if level >? stale_v then Some (go s t (Done (RBool false)))
      else if negb (stale_v =? kUninitialized) then Some (go s t (Done (RBool true)))
      else Some (go s t (RegHead v level))
  | RegHead v level => Some (go s t (RegNext v level (site_list_head s)))
  | RegNext v level h =>
      match next_ (sites s v) with
      | None => Some (go (with_sites s (upd (sites s) v (set_next (sites s v) h))) t (RegPush v level h))
      | Some _ => Some (go s t (RegLevel v level))
      end
  | RegPush v level h =>
      if eq_site (site_list_head s) h && negb spurious then Some (go (with_head s (Some v)) t (RegLevel v level))
      else Some (go s t (RegStore v level (site_list_head s)))
  | RegStore v level h => Some (go (with_sites s (upd (sites s) v (set_next (sites s v) h))) t (RegPush v level h))
  | RegLevel v level =>
      match mutex s with
      | Some _ => None
      | None => Some (go s t (RegSet v level (level_of (cfg s) (file_ (sites s v)))))
      end
  | RegSet v level new_v =>
      let old_v := v_ (sites s v) in
      if old_v =? kUninitialized
      then Some (go (with_sites s (upd (sites s) v (set_v (sites s v) new_v))) t (Done (RBool (new_v >=? level))))
      else Some (go s t (Done (RBool (old_v >=? level))))
  | UpdLock o =>
      match mutex s with
      | Some _ => None
      | None =>
          match apply_setter (cfg s) o with
          | inl r => Some (go s t (Done r))
          | inr (c, r) => Some (go (with_locks s (allocated c) (Some t) (update_mutex s)) t (UpdWait (allocated c) r))
          end
      end
  | UpdWait c r =>
      match update_mutex s with
      | Some _ => None
      | None => Some (go (with_locks s (cfg s) None (Some t)) t (UpdHead c r))
      end
  | UpdHead c r => Some (go s t (UpdSite c r (site_list_head s) None 0))
  | UpdSite c r None _ _ =>
      Some (go (mk_state (cfg s) (mutex s) None (site_list_head s) (sites s) (update_callbacks s)
                         (called s ++ update_callbacks s) (pcs s)) t (Done r))
  | UpdSite c r (Some n) last_file last_file_level =>
      let file := file_ (sites s n) in
      let '(last_file, last_file_level) := last_entry c file last_file last_file_level in
      Some (go (with_sites s (upd (sites s) n (set_v (sites s n) last_file_level))) t
               (UpdNext c r n last_file last_file_level))
  | UpdNext c r n last_file last_file_level =>
      Some (go s t (UpdSite c r (next_ (sites s n)) last_file last_file_level))
  | AddCallback cb =>
      match update_mutex s with
      | Some _ => None
      | None => Some (go (mk_state (cfg s) (mutex s) None (site_list_head s) (sites s) (update_callbacks s ++ [cb])
                                   (called s) (pcs s)) t (Done RVoid))
      end
  end.

Inductive call :=
  | IsEnabled (v : nat) (level : Z)
  | Set_ (o : setter)
  | OnVLogVerbosityUpdate (cb : Z).

Definition entry_pc (a : call) : pc :=
  match a with IsEnabled v level => Load v level | Set_ o => UpdLock o | OnVLogVerbosityUpdate cb => AddCallback cb end.

(** A thread outside calls, or a thread inside takes a step. *)
Inductive action := Call (t : nat) (a : call) | Step (t : nat) (spurious : bool).

Definition exec (s : State) (a : action) : option State :=
  match a with
  | Call t a => match pcs s t with Done _ => Some (go s t (entry_pc a)) | _ => None end
  | Step t spurious => step t spurious s
  end.

Fixpoint run (s : State) (l : list action) : option State :=
  match l with
  | [] => Some s
  | a :: l' => match exec s a with Some s' => run s' l' | None => None end
  end.

Definition start (files : nat -> Z) : State :=
  mk_state initial None None None (fun i => mk_site (files i) kUninitialized None) [] [] (fun _ => Done RVoid).

(** The states that allowed actions reach, in any order. *)
Inductive reachable (allowed : action -> Prop) (files : nat -> Z) : State -> Prop :=
  | reach_start : reachable allowed files (start files)
  | reach_act s a s' : reachable allowed files s -> allowed a -> exec s a = Some s' -> reachable allowed files s'.

End Sites.

(** [n] steps of thread [t]. *)
Definition steps (t n : nat) : list action := repeat (Step t false) n.

(** ** The discipline under which the levels settle: each site belongs to one thread, and no level is the
    value that marks an uninitialized site *)
Section Owned.
Variable cstr : Z -> list Z.
Variable owner : nat -> nat.

Definition setter_ok (o : setter) : Prop :=
  match o with
  | UpdateVModule vmodule => Forall (fun e => snd e <> kUninitialized) (glob_levels vmodule)
  | UpdateGlobalVLogLevel v => v <> kUninitialized
  | PrependVModule _ level => level <> kUninitialized
  end.

Definition owned (a : action) : Prop :=
  match a with
  | Call t (IsEnabled v _) => owner v = t
  | Call _ (Set_ o) => setter_ok o
  | _ => True
  end.

(** *** Configurations whose levels mark no site as uninitialized *)
Definition usable (c : Config) : Prop :=
  global_v c <> kUninitialized /\ Forall (fun info => vlog_level info <> kUninitialized) (get_vmodule_info c).

Lemma usable_level c file : usable c -> level_of cstr c file <> kUninitialized.
Proof.
  intros [G F]. unfold level_of, file_level, VLogLevel, get_vmodule_info in *.
  destruct (vmodule_info c) as [infos|]; [|exact G]. destruct infos as [|info infos]; [exact G|].
  destruct (stems (cstr file)) as [stem base]. induction F as [|x l X F IH]; cbn; [exact G|].
  repeat case_if; auto.
Qed.

Lemma usable_allocated c : usable c -> usable (allocated c).
Proof. auto. Qed.

Lemma usable_append c p level : usable c -> level <> kUninitialized -> usable (fst (AppendVModuleLocked c p level)).
Proof.
  intros [G F] L. unfold AppendVModuleLocked. destruct (List.find _ _); split; cbn; auto.
  apply Forall_app. split; [exact F|]. constructor; auto.
Qed.

Lemma usable_setter c o : usable c -> setter_ok o ->
  match apply_setter c o with inl _ => True | inr (c', _) => usable c' end.
Proof.
  intros U O. destruct o as [vmodule|v|p level]; cbn in *.
  - unfold set_vmodule. assert (U' : usable (mk_config (global_v c) (Some []))) by (split; [apply U|constructor]).
    revert U'. generalize (mk_config (global_v c) (Some [])). induction O as [|e l E O IH]; intros c' U'; cbn; auto.
    apply IH. now apply usable_append.
  - destruct (v =? global_v c); [easy|]. split; [exact O|apply U].
  - split; [apply U|]. cbn. constructor; [exact O|]. destruct U as [_ F]. rewrite Forall_forall in *.
    intros x X. apply filter_In in X as [X _]. auto.
Qed.

(** *** The list *)
Fixpoint chain (f : nat -> VLogSite) (h : option nat) (l : list nat) : Prop :=
  match l with
  | [] => h = None
  | i :: l' => h = Some i /\ chain f (next_ (f i)) l'
  end.

Lemma chain_ext f g l : forall h, (forall i, In i l -> next_ (g i) = next_ (f i)) -> chain f h l -> chain g h l.
Proof.
  induction l as [|i l IH]; intros h E C; [exact C|]. destruct C as [-> C]. split; [easy|].
  rewrite E by now left. apply IH; [|exact C]. intros j J. apply E. now right.
Qed.

(** *** Where a thread stands with a site *)
Inductive stage := Away | Alone | Linking (h : option nat) | Stored | Joined (new_v : option Z).

Definition about (p : pc) : option (nat * stage) :=
  match p with
  | Load v _ => Some (v, Away)
  | RegHead v _ | RegNext v _ _ => Some (v, Alone)
  | RegPush v _ h => Some (v, Linking h)
  | RegStore v _ _ => Some (v, Stored)
  | RegLevel v _ => Some (v, Joined None)
  | RegSet v _ n => Some (v, Joined (Some n))
  | _ => None
  end.

Definition stage_of (p : pc) (i : nat) : stage :=
  match about p with Some (v, st) => if Nat.eqb v i then st else Away | None => Away end.

Definition site_ok (st : stage) (member : Prop) (x : VLogSite) : Prop :=
  match st with
  | Away => (~ member /\ next_ x = None /\ v_ x = kUninitialized) \/ (member /\ v_ x <> kUninitialized)
  | Alone => ~ member /\ next_ x = None /\ v_ x = kUninitialized
  | Linking h => ~ member /\ next_ x = h /\ v_ x = kUninitialized
  | Stored => ~ member /\ v_ x = kUninitialized
  | Joined n => member /\ n <> Some kUninitialized
  end.

(** The cached level, or the one about to be cached, is [level]. *)
Definition fresh_ok (st : stage) (x : VLogSite) (level : Z) : Prop :=
  (v_ x <> kUninitialized -> v_ x = level) /\
  (v_ x = kUninitialized -> match st with Joined (Some n) => n = level | _ => True end).

Definition waits (p : pc) : bool := match p with UpdWait _ _ => true | _ => false end.

(** The configuration that a thread writes into the sites. *)
Definition walks (p : pc) : option Config :=
  match p with UpdHead c _ | UpdSite c _ _ _ _ | UpdNext c _ _ _ _ => Some c | _ => None end.

Definition cached (c : Config) (last_file : option Z) (last_file_level : Z) : Prop :=
  forall f, last_file = Some f -> last_file_level = level_of cstr c f.

(** The sites [R] that a walk has still to write. *)
Definition walk_ok (f : nat -> VLogSite) (p : pc) (L R : list nat) : Prop :=
  match p with
  | UpdHead _ _ => R = L
  | UpdSite c _ n lf ll => (exists pre, L = pre ++ R) /\ chain f n R /\ cached c lf ll
  | UpdNext c _ i lf ll => (exists pre, L = pre ++ i :: R) /\ chain f (next_ (f i)) R /\ cached c lf ll
  | _ => False
  end.

Definition walk (s : State) (L R : list nat) : Prop :=
  match update_mutex s with None => R = [] | Some u => walk_ok (sites s) (pcs s u) L R end.

Record inv (s : State) (L R : list nat) : Prop := mk_inv {
  inv_nodup : NoDup L;
  inv_chain : chain (sites s) (site_list_head s) L;
  inv_own : forall t v st, about (pcs s t) = Some (v, st) -> owner v = t;
  inv_lock : forall t o, pcs s t = UpdLock o -> setter_ok o;
  inv_site : forall i, site_ok (stage_of (pcs s (owner i)) i) (In i L) (sites s i);
  inv_mutex : forall t, mutex s = Some t <-> waits (pcs s t) = true;
  inv_update : forall t, update_mutex s = Some t <-> walks (pcs s t) <> None;
  inv_wait : forall t c r, pcs s t = UpdWait c r -> cfg s = c;
  inv_copy : forall t c, walks (pcs s t) = Some c -> usable c /\ (mutex s = None -> cfg s = c);
  inv_cfg : usable (cfg s);
  inv_walk : walk s L R;
  inv_fresh : mutex s = None -> forall i, In i L -> ~ In i R ->
    fresh_ok (stage_of (pcs s (owner i)) i) (sites s i) (level_of cstr (cfg s) (file_ (sites s i))) }.

Lemma upd_same {A} (f : nat -> A) i x : upd f i x i = x.
Proof. unfold upd. now rewrite Nat.eqb_refl. Qed.

Lemma upd_other {A} (f : nat -> A) i j x : j <> i -> upd f i x j = f j.
Proof. intros N. unfold upd. now rewrite (proj2 (Nat.eqb_neq j i)). Qed.

Lemma start_inv files : inv (start files) [] [].
Proof.
  constructor; cbn; try easy; try constructor; try easy.
Qed.

(** *** A thread that registers or looks at sites: only its own sites change *)
Lemma inv_own_step s L R t p' f h L' R' :
  inv s L R ->
  waits (pcs s t) = false -> walks (pcs s t) = None -> waits p' = false -> walks p' = None ->
  (forall v st, about p' = Some (v, st) -> owner v = t) -> (forall o, p' = UpdLock o -> setter_ok o) ->
  NoDup L' -> chain f h L' ->
  (forall i, owner i = t -> site_ok (stage_of p' i) (In i L') (f i)) ->
  (forall i, owner i <> t -> f i = sites s i /\ (In i L' <-> In i L) /\ (In i R' <-> In i R)) ->
  (match update_mutex s with None => R' = [] | Some u => walk_ok f (pcs s u) L' R' end) ->
  (mutex s = None -> forall i, owner i = t -> In i L' -> ~ In i R' ->
     fresh_ok (stage_of p' i) (f i) (level_of cstr (cfg s) (file_ (f i)))) ->
  inv (go (with_head (with_sites s f) h) t p') L' R'.
Proof.
  intros I W K W' K' OWN LCK ND CH ST OTH WK FR.
  assert (P : forall u, u <> t -> upd (pcs s) t p' u = pcs s u) by (intros; now apply upd_other).
  constructor; cbn; auto.
  - intros u v st. destruct (Nat.eq_dec u t) as [-> |N]; [rewrite upd_same; eauto|rewrite P by auto; apply I].
  - intros u o. destruct (Nat.eq_dec u t) as [-> |N]; [rewrite upd_same; eauto|rewrite P by auto; apply I].
  - intros i. destruct (Nat.eq_dec (owner i) t) as [E|N]; [rewrite E, upd_same; auto|].
    rewrite P by auto. destruct (OTH i N) as (-> & M & _). pose proof (inv_site _ _ _ I i) as S.
    destruct (stage_of (pcs s (owner i)) i); cbn in *; tauto.
  - intros u. destruct (Nat.eq_dec u t) as [-> |N]; [rewrite upd_same, W', (inv_mutex _ _ _ I), W; easy|].
    rewrite P by auto. apply I.
  - intros u. destruct (Nat.eq_dec u t) as [-> |N]; [rewrite upd_same, K', (inv_update _ _ _ I), K; easy|].
    rewrite P by auto. apply I.
  - intros u c r. destruct (Nat.eq_dec u t) as [-> |N]; [rewrite upd_same; intros ->; easy|].
    rewrite P by auto. apply I.
  - intros u c. destruct (Nat.eq_dec u t) as [-> |N]; [rewrite upd_same, K'; easy|].
    rewrite P by auto. apply I.
  - apply I.
  - unfold walk. cbn. destruct (update_mutex s) as [u|] eqn:U; [|exact WK].
    rewrite P; [exact WK|]. intros ->. apply (inv_update _ _ _ I) in U. now rewrite K in U.
  - intros M i IL NR. destruct (Nat.eq_dec (owner i) t) as [E|N]; [rewrite E, upd_same; auto|].
    rewrite P by auto. destruct (OTH i N) as (-> & ML & MR). apply (inv_fresh _ _ _ I); tauto.
Qed.

Lemma stage_other p v st i : about p = Some (v, st) -> i <> v -> stage_of p i = Away.
Proof. intros A N. unfold stage_of. rewrite A. now rewrite (proj2 (Nat.eqb_neq v i)) by auto. Qed.

Lemma stage_self p v st : about p = Some (v, st) -> stage_of p v = st.
Proof. intros A. unfold stage_of. now rewrite A, Nat.eqb_refl. Qed.

Lemma stage_none p i : about p = None -> stage_of p i = Away.
Proof. intros A. unfold stage_of. now rewrite A. Qed.

Lemma walk_ok_ext f g p L R : (forall i, In i L -> next_ (g i) = next_ (f i)) -> walk_ok f p L R -> walk_ok g p L R.
Proof.
  intros E. destruct p; cbn; auto; intros ([pre ->] & C & K); (split; [eauto|]); (split; [|exact K]).
  - eapply chain_ext; [|exact C]. intros i J. apply E, in_or_app. auto.
  - rewrite E by (rewrite in_app_iff; cbn; auto). eapply chain_ext; [|exact C].
    intros i J. apply E, in_or_app. cbn. auto.
Qed.

(** A step of the owner of site [v] from inside [IsEnabled], to [st] or out of it. *)
Lemma inv_site_step s L R t v st p' f h L' R' :
  inv s L R -> about (pcs s t) = Some (v, st) -> about p' = None \/ (exists st', about p' = Some (v, st')) ->
  waits p' = false -> walks p' = None -> (forall o, p' <> UpdLock o) ->
  NoDup L' -> chain f h L' ->
  (forall i, i <> v -> f i = sites s i /\ (In i L' <-> In i L) /\ (In i R' <-> In i R)) ->
  site_ok (stage_of p' v) (In v L') (f v) ->
  (match update_mutex s with None => R' = [] | Some u => walk_ok f (pcs s u) L' R' end) ->
  (mutex s = None -> In v L' -> ~ In v R' -> fresh_ok (stage_of p' v) (f v) (level_of cstr (cfg s) (file_ (f v)))) ->
  inv (go (with_head (with_sites s f) h) t p') L' R'.
Proof.
  intros I A A' W' K' NL ND CH OTH ST WK FR.
  pose proof (inv_own _ _ _ I _ _ _ A) as O.
  assert (AW : forall i, i <> v -> stage_of p' i = Away /\ stage_of (pcs s t) i = Away).
  { intros i N. split; [|now apply (stage_other _ v st)].
    destruct A' as [A'|[st' A']]; [now apply stage_none|now apply (stage_other _ v st')]. }
  apply (inv_own_step s L R); auto.
  - destruct (pcs s t); try easy.
  - destruct (pcs s t); try easy.
  - intros w st'. destruct A' as [A'|[st'' A']]; rewrite A'; [easy|]. now intros [= <- _].
  - intros o E. now destruct (NL o).
  - intros i E. destruct (Nat.eq_dec i v) as [-> |N]; [exact ST|].
    destruct (OTH i N) as (-> & M & _), (AW i N) as [-> E']. pose proof (inv_site _ _ _ I i) as S.
    rewrite E, E' in S. cbn in *. tauto.
  - intros i N. apply OTH. congruence.
  - intros M i E IL NR. destruct (Nat.eq_dec i v) as [-> |N]; [auto|].
    destruct (OTH i N) as (-> & ML & MR), (AW i N) as [-> E'].
    pose proof (inv_fresh _ _ _ I M i) as F. rewrite E, E' in F. tauto.
Qed.

(** Such a step that writes nothing. *)
Lemma inv_quiet_step s L R t v st p' :
  inv s L R -> about (pcs s t) = Some (v, st) -> about p' = None \/ (exists st', about p' = Some (v, st')) ->
  waits p' = false -> walks p' = None -> (forall o, p' <> UpdLock o) ->
  site_ok (stage_of p' v) (In v L) (sites s v) ->
  (mutex s = None -> In v L -> ~ In v R ->
   fresh_ok (stage_of p' v) (sites s v) (level_of cstr (cfg s) (file_ (sites s v)))) ->
  inv (go s t p') L R.
Proof.
  intros I A A' W' K' NL ST FR.
  apply (inv_site_step s L R t v st p' (sites s) (site_list_head s) L R); auto; try apply I.
  intros i _. tauto.
Qed.

(** Such a step that writes the site, which is not in the list or keeps its link. *)
Lemma inv_write_step s L R t v st p' x :
  inv s L R -> about (pcs s t) = Some (v, st) -> about p' = None \/ (exists st', about p' = Some (v, st')) ->
  waits p' = false -> walks p' = None -> (forall o, p' <> UpdLock o) ->
  site_ok (stage_of p' v) (In v L) x -> (In v L -> next_ x = next_ (sites s v)) ->
  (mutex s = None -> In v L -> ~ In v R -> fresh_ok (stage_of p' v) x (level_of cstr (cfg s) (file_ x))) ->
  inv (go (with_sites s (upd (sites s) v x)) t p') L R.
Proof.
  intros I A A' W' K' NL ST NX FR.
  assert (E : forall i, In i L -> next_ (upd (sites s) v x i) = next_ (sites s i)).
  { intros i J. destruct (Nat.eq_dec i v) as [-> |N]; [rewrite upd_same; auto|now rewrite upd_other]. }
  apply (inv_site_step s L R t v st p' (upd (sites s) v x) (site_list_head s) L R); auto; try apply I.
  - eapply chain_ext; [exact E|apply I].
  - intros i N. rewrite upd_other by exact N. tauto.
  - now rewrite upd_same.
  - pose proof (inv_walk _ _ _ I) as W. unfold walk in W. destruct (update_mutex s); [|exact W].
    eapply walk_ok_ext; eauto.
  - now rewrite upd_same.
Qed.

(** The exchange that puts [v] in front of the list. *)
Lemma inv_push_step s L R t v level h : inv s L R -> pcs s t = RegPush v level h -> site_list_head s = h ->
  exists R', inv (go (with_head s (Some v)) t (RegLevel v level)) (v :: L) R'.
Proof.
  intros I P H. pose proof (inv_own _ _ _ I t v (Linking h)) as O. rewrite P in O. specialize (O eq_refl).
  pose proof (inv_site _ _ _ I v) as S. rewrite O, P, (stage_self _ v (Linking h)) in S by easy.
  destruct S as (N & X & U). pose proof (inv_walk _ _ _ I) as W. unfold walk in W.
  set (R' := match update_mutex s with
             | Some u => match pcs s u with UpdHead _ _ => v :: L | _ => R end | None => R end).
  exists R'. apply (inv_site_step s L R t v (Linking h) (RegLevel v level) (sites s) (Some v) (v :: L) R');
    try easy; auto.
  - now rewrite P.
  - right. now exists (Joined None).
  - constructor; [exact N|apply I].
  - cbn. split; [easy|]. rewrite X, <- H. apply I.
  - intros i D. split; [easy|]. split; [cbn; intuition congruence|]. unfold R'.
    destruct (update_mutex s) as [u|]; [|tauto]. destruct (pcs s u); try tauto. cbn in W. subst R. cbn. intuition congruence.
  - unfold stage_of. cbn. rewrite Nat.eqb_refl. split; [now left|easy].
  - unfold R'. destruct (update_mutex s) as [u|]; [|exact W]. destruct (pcs s u); cbn in *; try easy;
      destruct W as ([pre ->] & C & K); (split; [|easy]); now exists (v :: pre).
  - unfold stage_of, fresh_ok. cbn. rewrite Nat.eqb_refl. easy.
Qed.

Lemma eq_site_iff a b : eq_site a b = true <-> a = b.
Proof.
  destruct a as [i|], b as [j|]; cbn; try easy. rewrite Nat.eqb_eq. split; [now intros ->|now intros [= ->]].
Qed.

Ltac quiet I P v := eapply (inv_quiet_step _ _ _ _ v); [exact I|now rewrite P|cbn; eauto| | | | |]; try easy.
Ltac writes I P v := eapply (inv_write_step _ _ _ _ v); [exact I|now rewrite P|cbn; eauto| | | | | |]; try easy.

Lemma reg_step_inv s L R t spurious s' v st : inv s L R -> about (pcs s t) = Some (v, st) ->
  step cstr t spurious s = Some s' -> exists L' R', inv s' L' R'.
Proof.
  intros I A E. pose proof (inv_own _ _ _ I _ _ _ A) as O. pose proof (inv_site _ _ _ I v) as S.
  pose proof (fun M => inv_fresh _ _ _ I M v) as F. rewrite O, (stage_self _ _ _ A) in S, F.
  unfold step in E. cbn zeta in E. destruct (pcs s t) as [|w lv|w lv|w lv h|w lv h|w lv h|w lv|w lv n| | | | | |] eqn:P;
    cbn in A; try discriminate A; injection A as -> <-; cbn [site_ok] in S.
  - exists L, R. destruct (lv >? _); [|destruct (v_ (sites s v) =? kUninitialized) eqn:B]; injection E as <-; quiet I P v.
    + unfold stage_of. cbn. rewrite Nat.eqb_refl. zbool. cbn. tauto.
    + zbool. tauto.
  - exists L, R. injection E as <-. quiet I P v.
    + rewrite (stage_self _ v Alone) by easy. exact S.
  - exists L, R. destruct S as (N & X & U). rewrite X in E. injection E as <-.
    writes I P v.
    rewrite (stage_self _ v (Linking h)) by easy. easy.
  - destruct (eq_site (site_list_head s) h && negb spurious) eqn:B; injection E as <-.
    + apply andb_true_iff in B as [B _]. apply eq_site_iff in B. exists (v :: L). eapply inv_push_step; eauto.
    + exists L, R. quiet I P v.
      rewrite (stage_self _ v Stored) by easy. cbn. tauto.
  - exists L, R. injection E as <-. destruct S as (N & U).
    writes I P v.
    rewrite (stage_self _ v (Linking h)) by easy. easy.
  - exists L, R. destruct (mutex s) eqn:M; [discriminate|]. injection E as <-.
    quiet I P v;
      rewrite (stage_self _ v (Joined (Some (level_of cstr (cfg s) (file_ (sites s v)))))) by easy.
    + split; [apply S|]. intros [= X]. revert X. apply usable_level, I.
    + intros _ _ NR. destruct (F eq_refl (proj1 S) NR) as [F1 _]. split; auto.
  - exists L, R. destruct S as [S N]. destruct (v_ (sites s v) =? kUninitialized) eqn:B; injection E as <-.
    + zbool. writes I P v.
      * right. split; [exact S|]. change (n <> kUninitialized). congruence.
      * intros M _ NR. destruct (F M S NR) as [_ F2]. specialize (F2 B). split; cbn; [auto|]. intros _. auto.
    + zbool. quiet I P v.
      * right. easy.
      * intros M _ NR. destruct (F M S NR) as [F1 _]. split; auto. easy.
Qed.

(** *** A thread outside, in a setter or adding a callback *)
Lemma inv_idle_step s L R t p' : inv s L R -> about (pcs s t) = None ->
  waits (pcs s t) = false -> walks (pcs s t) = None -> waits p' = false -> walks p' = None ->
  (forall i, stage_of p' i = Away) -> (forall v st, about p' = Some (v, st) -> owner v = t) ->
  (forall o, p' = UpdLock o -> setter_ok o) -> inv (go s t p') L R.
Proof.
  intros I A W K W' K' ST OWN LCK.
  apply (inv_own_step s L R t p' (sites s) (site_list_head s) L R); auto; try apply I.
  - intros i E. rewrite ST. pose proof (inv_site _ _ _ I i) as S. now rewrite E, stage_none in S.
  - intros i _. tauto.
  - intros M i E IL NR. rewrite ST. pose proof (inv_fresh _ _ _ I M i IL NR) as F. now rewrite E, stage_none in F.
Qed.

Lemma inv_callbacks s L R cbs called' : inv s L R ->
  inv (mk_state (cfg s) (mutex s) (update_mutex s) (site_list_head s) (sites s) cbs called' (pcs s)) L R.
Proof. intros I. destruct I. now constructor. Qed.

(** The stages of sites do not depend on a thread that is about none. *)
Lemma stage_upd s t p' i : about (pcs s t) = None -> about p' = None ->
  stage_of (upd (pcs s) t p' (owner i)) i = stage_of (pcs s (owner i)) i.
Proof.
  intros A A'. destruct (Nat.eq_dec (owner i) t) as [E|N]; [|now rewrite upd_other].
  now rewrite E, upd_same, !stage_none.
Qed.

Lemma own_upd s L R t p' : inv s L R -> about p' = None ->
  forall u v st, about (upd (pcs s) t p' u) = Some (v, st) -> owner v = u.
Proof.
  intros I A u v st. destruct (Nat.eq_dec u t) as [-> |N]; [now rewrite upd_same, A|rewrite upd_other by auto; apply I].
Qed.

Lemma lock_upd s L R t p' : inv s L R -> (forall o, p' <> UpdLock o) ->
  forall u o, upd (pcs s) t p' u = UpdLock o -> setter_ok o.
Proof.
  intros I N u o. destruct (Nat.eq_dec u t) as [-> |D]; [rewrite upd_same; intros E; now destruct (N o)|].
  rewrite upd_other by auto. apply I.
Qed.

(** A setter takes the lock and changes the configuration. *)
Lemma inv_lock_step s L R t o c r : inv s L R -> pcs s t = UpdLock o -> mutex s = None -> usable c ->
  inv (go (with_locks s c (Some t) (update_mutex s)) t (UpdWait c r)) L R.
Proof.
  intros I P M U. assert (A : about (pcs s t) = None) by now rewrite P.
  assert (W : forall u, waits (pcs s u) = false).
  { intros u. destruct (waits (pcs s u)) eqn:E; [|easy]. apply (inv_mutex _ _ _ I) in E. congruence. }
  constructor; cbn; try apply I.
  - now apply (own_upd s L R).
  - now apply (lock_upd s L R).
  - intros i. rewrite (stage_upd s) by easy. apply I.
  - intros u. destruct (Nat.eq_dec u t) as [-> |N]; [now rewrite upd_same|]. rewrite upd_other, W by auto.
    split; [now intros [= ->]|easy].
  - intros u. destruct (Nat.eq_dec u t) as [-> |N]; [rewrite upd_same, (inv_update _ _ _ I), P; easy|].
    rewrite upd_other by auto. apply I.
  - intros u c' r'. destruct (Nat.eq_dec u t) as [-> |N]; [rewrite upd_same; now intros [= -> _]|].
    rewrite upd_other by auto. intros E. specialize (W u). now rewrite E in W.
  - intros u c'. destruct (Nat.eq_dec u t) as [-> |N]; [now rewrite upd_same|]. rewrite upd_other by auto.
    intros E. split; [|easy]. apply (inv_copy _ _ _ I _ _ E).
  - exact U.
  - pose proof (inv_walk _ _ _ I) as K. unfold walk in *. cbn. destruct (update_mutex s) as [u|] eqn:E; [|exact K].
    rewrite upd_other; [exact K|]. intros ->. apply (inv_update _ _ _ I) in E. now rewrite P in E.
  - easy.
Qed.

(** It takes the second lock and lets go of the first. *)
Lemma inv_wait_step s L R t c r : inv s L R -> pcs s t = UpdWait c r -> update_mutex s = None ->
  inv (go (with_locks s (cfg s) None (Some t)) t (UpdHead c r)) L L.
Proof.
  intros I P M. assert (A : about (pcs s t) = None) by now rewrite P.
  assert (W : forall u, walks (pcs s u) = None).
  { intros u. destruct (walks (pcs s u)) eqn:E; [|easy].
    assert (X : walks (pcs s u) <> None) by congruence. apply (inv_update _ _ _ I) in X. congruence. }
  assert (MT : mutex s = Some t) by (apply (inv_mutex _ _ _ I); now rewrite P).
  assert (W' : forall u, u <> t -> waits (pcs s u) = false).
  { intros u N. destruct (waits (pcs s u)) eqn:E; [|easy]. apply (inv_mutex _ _ _ I) in E. congruence. }
  pose proof (inv_wait _ _ _ I _ _ _ P) as C.
  constructor; cbn; try apply I; try easy.
  - now apply (own_upd s L R).
  - now apply (lock_upd s L R).
  - intros i. rewrite (stage_upd s) by easy. apply I.
  - intros u. destruct (Nat.eq_dec u t) as [-> |N]; [now rewrite upd_same|]. now rewrite upd_other, W' by auto.
  - intros u. destruct (Nat.eq_dec u t) as [-> |N]; [now rewrite upd_same|]. rewrite upd_other, W by auto.
    split; [now intros [= ->]|easy].
  - intros u c' r'. destruct (Nat.eq_dec u t) as [-> |N]; [now rewrite upd_same|].
    rewrite upd_other by auto. intros E. specialize (W' u N). now rewrite E in W'.
  - intros u c'. destruct (Nat.eq_dec u t) as [-> |N]; [|now rewrite upd_other, W by auto].
    rewrite upd_same. cbn. intros [= <-]. split; [|easy]. rewrite <- C. apply I.
  - unfold walk. cbn. now rewrite upd_same.
Qed.

(** A step of the walk. *)
Lemma inv_walk_step s L R t c p' f R' : inv s L R -> walks (pcs s t) = Some c -> walks p' = Some c ->
  (forall i, next_ (f i) = next_ (sites s i)) ->
  (forall i, f i = sites s i \/ In i L /\ v_ (f i) <> kUninitialized) ->
  walk_ok f p' L R' ->
  (cfg s = c -> forall i, In i L -> ~ In i R' ->
   f i = sites s i /\ ~ In i R \/ v_ (f i) = level_of cstr c (file_ (f i)) /\ v_ (f i) <> kUninitialized) ->
  inv (go (with_sites s f) t p') L R'.
Proof.
  intros I K K' NX FS WK FR.
  assert (A : about (pcs s t) = None) by now destruct (pcs s t).
  assert (A' : about p' = None) by now destruct p'.
  assert (W : waits (pcs s t) = false) by now destruct (pcs s t).
  assert (UT : update_mutex s = Some t) by (apply (inv_update _ _ _ I); now rewrite K).
  constructor; cbn; try apply I.
  - eapply chain_ext; [|apply I]. auto.
  - now apply (own_upd s L R).
  - apply (lock_upd s L R); [exact I|]. intros o ->. discriminate.
  - intros i. rewrite (stage_upd s) by easy. pose proof (inv_site _ _ _ I i) as S.
    destruct (FS i) as [-> |[M N]]; [exact S|]. destruct (stage_of (pcs s (owner i)) i); cbn in *; tauto.
  - intros u. destruct (Nat.eq_dec u t) as [-> |N]; [|rewrite upd_other by auto; apply I].
    rewrite upd_same, (inv_mutex _ _ _ I), W. now destruct p'.
  - intros u. destruct (Nat.eq_dec u t) as [-> |N]; [|rewrite upd_other by auto; apply I].
    now rewrite upd_same, (inv_update _ _ _ I), K, K'.
  - intros u c' r'. destruct (Nat.eq_dec u t) as [-> |N]; [|rewrite upd_other by auto; apply I].
    rewrite upd_same. intros ->. discriminate.
  - intros u c'. destruct (Nat.eq_dec u t) as [-> |N]; [|rewrite upd_other by auto; apply I].
    rewrite upd_same, K', <- K. apply I.
  - unfold walk. cbn. now rewrite UT, upd_same.
  - intros M i IL NR. rewrite (stage_upd s) by easy. pose proof (inv_copy _ _ _ I t c K) as [_ C]. specialize (C M).
    destruct (FR C i IL NR) as [[-> N]|[V N]]; [now apply I|]. rewrite C. split; [auto|]. now intros.
Qed.

(** The end of the walk. *)
Lemma inv_end_step s L t c r lf ll cbs called' : inv s L [] -> pcs s t = UpdSite c r None lf ll ->
  inv (go (mk_state (cfg s) (mutex s) None (site_list_head s) (sites s) cbs called' (pcs s)) t (Done r)) L [].
Proof.
  intros I P. assert (A : about (pcs s t) = None) by now rewrite P.
  assert (UT : update_mutex s = Some t) by (apply (inv_update _ _ _ I); now rewrite P).
  constructor; cbn; try apply I; try easy.
  - now apply (own_upd s L []).
  - now apply (lock_upd s L []).
  - intros i. rewrite (stage_upd s) by easy. apply I.
  - intros u. destruct (Nat.eq_dec u t) as [-> |N]; [|rewrite upd_other by auto; apply I].
    rewrite upd_same, (inv_mutex _ _ _ I), P. easy.
  - intros u. destruct (Nat.eq_dec u t) as [-> |N]; [now rewrite upd_same|]. rewrite upd_other by auto.
    split; [easy|]. intros X. apply (inv_update _ _ _ I) in X. congruence.
  - intros u c' r'. destruct (Nat.eq_dec u t) as [-> |N]; [now rewrite upd_same|rewrite upd_other by auto; apply I].
  - intros u c'. destruct (Nat.eq_dec u t) as [-> |N]; [now rewrite upd_same|rewrite upd_other by auto; apply I].
  - intros M i IL NR. rewrite (stage_upd s) by easy. now apply I.
Qed.

(** The level written into a site: the last one again when the file is the same. *)
Lemma inv_store_step s L R t c r n lf ll : inv s L R -> pcs s t = UpdSite c r (Some n) lf ll ->
  let file := file_ (sites s n) in
  let '(lf', ll') := last_entry cstr c file lf ll in
  exists R', inv (go (with_sites s (upd (sites s) n (set_v (sites s n) ll'))) t (UpdNext c r n lf' ll')) L R'.
Proof.
  intros I P file. assert (K : walks (pcs s t) = Some c) by now rewrite P.
  pose proof (inv_copy _ _ _ I t c K) as [U _].
  assert (UT : update_mutex s = Some t) by (apply (inv_update _ _ _ I); now rewrite P).
  pose proof (inv_walk _ _ _ I) as W. unfold walk in W. rewrite UT, P in W. destruct W as ([pre EL] & C & CA).
  destruct R as [|n' R]; [discriminate C|]. destruct C as [[= ->] C].
  destruct (last_entry cstr c file lf ll) as [lf' ll'] eqn:E.
  assert (X : ll' = level_of cstr c file /\ cached c lf' ll').
  { unfold last_entry in E. destruct lf as [f|]; [destruct (file =? f) eqn:B|]; injection E as <- <-.
    - zbool. rewrite B. split; [now apply CA|exact CA].
    - split; [easy|]. now intros f' [= <-].
    - split; [easy|]. now intros f' [= <-]. }
  destruct X as [X CA']. assert (V : ll' <> kUninitialized) by (rewrite X; now apply usable_level).
  exists R. eapply inv_walk_step; [exact I|exact K|reflexivity| | | |].
  - intros i. destruct (Nat.eq_dec i n') as [-> |N]; [now rewrite upd_same|now rewrite upd_other].
  - intros i. destruct (Nat.eq_dec i n') as [-> |N]; [right|left; now rewrite upd_other].
    rewrite upd_same, EL. split; [rewrite in_app_iff; cbn; auto|exact V].
  - split; [now exists pre|]. split; [|exact CA']. rewrite upd_same. cbn [next_ set_v]. eapply chain_ext; [|exact C].
    intros i _. destruct (Nat.eq_dec i n') as [-> |N]; [now rewrite upd_same|now rewrite upd_other].
  - intros _ i IL NR. destruct (Nat.eq_dec i n') as [-> |N].
    + right. rewrite upd_same. split; [exact X|exact V].
    + left. rewrite upd_other by auto. split; [easy|]. cbn. intuition congruence.
Qed.

Lemma other_step_inv s L R t spurious s' : inv s L R -> about (pcs s t) = None ->
  step cstr t spurious s = Some s' -> exists L' R', inv s' L' R'.
Proof.
  intros I A E. exists L. unfold step in E.
  destruct (pcs s t) as [| | | | | | | |o|c r|c r|c r n lf ll|c r n lf ll|cb] eqn:P; try discriminate A; try discriminate E.
  - destruct (mutex s) eqn:M; [discriminate|]. pose proof (usable_setter (cfg s) o (inv_cfg _ _ _ I) (inv_lock _ _ _ I _ _ P)) as U.
    destruct (apply_setter (cfg s) o) as [r|[c r]]; injection E as <-; exists R.
    + apply inv_idle_step; auto; try (now rewrite P); easy.
    + eapply inv_lock_step; eauto.
  - destruct (update_mutex s) eqn:M; [discriminate|]. injection E as <-. exists L. eapply inv_wait_step; eauto.
  - injection E as <-. exists R. assert (K : walks (pcs s t) = Some c) by now rewrite P.
    assert (UT : update_mutex s = Some t) by (apply (inv_update _ _ _ I); now rewrite P).
    pose proof (inv_walk _ _ _ I) as W. unfold walk in W. rewrite UT, P in W. cbn in W. subst R.
    apply (inv_walk_step s L L t c _ (sites s) L I K); auto.
    split; [now exists []|]. split; [apply I|easy].
  - destruct n as [n|].
    + pose proof (inv_store_step s L R t c r n lf ll I P) as S. cbn zeta in E, S.
      destruct (last_entry cstr c _ lf ll) as [lf' ll']. injection E as <-. exact S.
    + injection E as <-. assert (UT : update_mutex s = Some t) by (apply (inv_update _ _ _ I); now rewrite P).
      pose proof (inv_walk _ _ _ I) as W. unfold walk in W. rewrite UT, P in W. destruct W as (_ & C & _).
      destruct R as [|x R]; [|now destruct C]. exists []. eapply inv_end_step; eauto.
  - injection E as <-. exists R. assert (K : walks (pcs s t) = Some c) by now rewrite P.
    assert (UT : update_mutex s = Some t) by (apply (inv_update _ _ _ I); now rewrite P).
    pose proof (inv_walk _ _ _ I) as W. unfold walk in W. rewrite UT, P in W. destruct W as ([pre EL] & C & CA).
    apply (inv_walk_step s L R t c _ (sites s) R I K); auto.
    split; [exists (pre ++ [n]); now rewrite <- app_assoc|easy].
  - destruct (update_mutex s) eqn:M; [discriminate|]. injection E as <-. exists R. rewrite <- M.
    apply (inv_idle_step (mk_state _ _ _ _ _ _ _ _)); cbn; auto using inv_callbacks; try (now rewrite P); easy.
Qed.

Lemma exec_inv s L R a s' : inv s L R -> owned a -> exec cstr s a = Some s' -> exists L' R', inv s' L' R'.
Proof.
  intros I O E. destruct a as [t a|t spurious]; cbn in E.
  - destruct (pcs s t) eqn:P; try discriminate. injection E as <-. exists L, R.
    apply inv_idle_step; try (now rewrite P); destruct a; cbn in *; auto; try easy.
    + intros i. unfold stage_of. cbn. now destruct (Nat.eqb v i).
    + now intros w st [= <- _].
    + now intros o' [= <-].
  - destruct (about (pcs s t)) as [[v st]|] eqn:A; [eapply reg_step_inv|eapply other_step_inv]; eauto.
Qed.

Lemma sites_reachable_inv files s : reachable cstr owned files s -> exists L R, inv s L R.
Proof.
  induction 1 as [|s a s' _ (L & R & I) O E]; [exists [], []; apply start_inv|]. eapply exec_inv; eauto.
Qed.

(** *** The walk ends *)
Lemma run_app s l l' : run cstr s (l ++ l') = match run cstr s l with Some s' => run cstr s' l' | None => None end.
Proof. revert s. induction l as [|a l IH]; intros s; cbn; [easy|]. now destruct (exec cstr s a). Qed.

Definition ends (s : State) (t n : nat) : Prop :=
  exists s' r, run cstr s (steps t n) = Some s' /\ pcs s' t = Done r /\ update_mutex s' = None /\ mutex s' = mutex s.

Lemma ends_step s t n s' : step cstr t false s = Some s' -> mutex s' = mutex s -> ends s' t n -> ends s t (S n).
Proof. intros E M (s'' & r & H & P & U & M'). exists s'', r. cbn. rewrite E. repeat split; auto. congruence. Qed.

Lemma walk_ends R : forall s t c r n lf ll, pcs s t = UpdSite c r n lf ll -> chain (sites s) n R ->
  ends s t (2 * length R + 1).
Proof.
  induction R as [|i R IH]; intros s t c r n lf ll P C.
  - cbn in C. subst n. eexists _, r. cbn. unfold step. rewrite P. repeat split. cbn. now rewrite upd_same.
  - destruct C as [-> C]. cbn [length]. replace (2 * S (length R) + 1)%nat with (S (S (2 * length R + 1))) by lia.
    destruct (step cstr t false s) as [s1|] eqn:E; unfold step in E; rewrite P in E; cbn zeta in E;
      destruct (last_entry cstr c _ lf ll) as [lf' ll'] eqn:X; [|discriminate].
    injection E as E. eapply (ends_step _ _ _ s1); [unfold step; rewrite P; cbn zeta; rewrite X; now f_equal|now subst|].
    assert (P1 : pcs s1 t = UpdNext c r i lf' ll') by (subst; cbn; now rewrite upd_same).
    eapply ends_step; [unfold step; now rewrite P1|reflexivity|].
    eapply IH; [cbn; now rewrite upd_same|]. cbn. subst s1. cbn. rewrite upd_same. cbn [next_ set_v].
    eapply chain_ext; [|exact C]. intros j _. destruct (Nat.eq_dec j i) as [-> |N]; [now rewrite upd_same|now rewrite upd_other].
Qed.

Lemma update_ends s L R t : inv s L R -> update_mutex s = Some t -> exists n, (n <= 2 * length L + 2)%nat /\ ends s t n.
Proof.
  intros I U. pose proof (inv_walk _ _ _ I) as W. unfold walk in W. rewrite U in W.
  destruct (pcs s t) as [| | | | | | | | | |c r|c r n lf ll|c r n lf ll|] eqn:P; try easy; cbn in W.
  - exists (S (2 * length L + 1)). split; [lia|]. eapply ends_step; [unfold step; now rewrite P|reflexivity|].
    eapply walk_ends; [cbn; now rewrite upd_same|]. cbn. apply I.
  - destruct W as ([pre ->] & C & _). exists (2 * length R + 1)%nat. rewrite length_app. split; [lia|].
    eapply walk_ends; eauto.
  - destruct W as ([pre ->] & C & _). exists (S (2 * length R + 1)). rewrite length_app. cbn. split; [lia|].
    eapply ends_step; [unfold step; now rewrite P|reflexivity|]. eapply walk_ends; [cbn; now rewrite upd_same|exact C].
Qed.

(** *** [IsEnabled], run by its thread while no setter is inside *)
Definition answers (s : State) (t : nat) (b : bool) : Prop :=
  exists n s', (n <= 6)%nat /\ run cstr s (steps t n) = Some s' /\ pcs s' t = Done (RBool b).

Lemma run_step s t n s1 s' : step cstr t false s = Some s1 -> run cstr s1 (steps t n) = Some s' ->
  run cstr s (steps t (S n)) = Some s'.
Proof. intros E H. cbn. now rewrite E. Qed.

Lemma answers_cached s t v level : pcs s t = Load v level -> v_ (sites s v) <> kUninitialized ->
  answers s t (level <=? v_ (sites s v)).
Proof.
  intros P V. exists 1%nat. cbn [steps repeat run exec]. unfold step. rewrite P. apply Z.eqb_neq in V. rewrite V.
  rewrite Z.gtb_ltb. destruct (Z.ltb_spec (v_ (sites s v)) level), (Z.leb_spec level (v_ (sites s v))); try lia;
    eexists; (split; [lia|split; [reflexivity|cbn; now rewrite upd_same]]).
Qed.

Lemma eq_site_refl h : eq_site h h = true.
Proof. now apply eq_site_iff. Qed.

Lemma answers_first s t v level : pcs s t = Load v level -> mutex s = None -> level <= kUninitialized ->
  next_ (sites s v) = None -> v_ (sites s v) = kUninitialized ->
  answers s t (level <=? level_of cstr (cfg s) (file_ (sites s v))).
Proof.
  intros P M L N V. exists 6%nat. eexists. split; [lia|]. split.
  - eapply (run_step s t); [unfold step; rewrite P, V, Z.eqb_refl, Z.gtb_ltb, (proj2 (Z.ltb_ge _ _)) by lia; reflexivity|].
    eapply (run_step _ t); [unfold step; cbn [pcs go]; rewrite upd_same; reflexivity|].
    eapply (run_step _ t); [unfold step; cbn [pcs go sites]; rewrite upd_same, N; reflexivity|].
    eapply (run_step _ t);
      [unfold step; cbn [pcs go sites with_sites site_list_head]; rewrite upd_same, eq_site_refl; reflexivity|].
    eapply (run_step _ t);
      [unfold step; cbn [pcs go sites with_sites with_head mutex]; rewrite upd_same, M; reflexivity|].
    eapply (run_step _ t);
      [unfold step; cbn [pcs go sites with_sites with_head cfg]; rewrite !upd_same; cbn [v_ set_next file_];
       rewrite V, Z.eqb_refl; reflexivity|reflexivity].
  - cbn [pcs go]. rewrite upd_same. now rewrite Z.geb_leb.
Qed.

(** C17: When every site is used by one thread and no level equals the mark of an uninitialized site, then in
    every interleaving of calls the list of sites is finite and contains every site with a cached level, a setter
    that updates the sites ends, and while no setter is inside every cached level is the one the current patterns
    and global level give to the file of its site, and [IsEnabled] decides by exactly that level. *)
Theorem vlog_sites_settle files s : reachable cstr owned files s ->
  (exists L, NoDup L /\ chain (sites s) (site_list_head s) L /\
   (forall i, v_ (sites s i) <> kUninitialized -> In i L) /\
   (forall t, update_mutex s = Some t -> exists n, (n <= 2 * length L + 2)%nat /\ ends s t n)) /\
  (mutex s = None -> update_mutex s = None ->
   (forall i, v_ (sites s i) = kUninitialized \/ v_ (sites s i) = level_of cstr (cfg s) (file_ (sites s i))) /\
   (forall t v level, pcs s t = Load v level -> level <= kUninitialized ->
    answers s t (level <=? level_of cstr (cfg s) (file_ (sites s v))))).
Proof.
  intros H. destruct (sites_reachable_inv files s H) as (L & R & I).
  assert (IN : forall i, v_ (sites s i) <> kUninitialized -> In i L).
  { intros i V. pose proof (inv_site _ _ _ I i) as S. destruct (stage_of (pcs s (owner i)) i); cbn in S; tauto. }
  split; [exists L; repeat split; try apply I; auto; intros t U; eapply update_ends; eauto|].
  intros M U. pose proof (inv_walk _ _ _ I) as W. unfold walk in W. rewrite U in W. subst R.
  assert (V : forall i, v_ (sites s i) = kUninitialized \/ v_ (sites s i) = level_of cstr (cfg s) (file_ (sites s i))).
  { intros i. destruct (Z.eq_dec (v_ (sites s i)) kUninitialized) as [E|N]; [auto|right].
    now apply (inv_fresh _ _ _ I M i (IN i N)). }
  split; [exact V|]. intros t v level P B.
  destruct (Z.eq_dec (v_ (sites s v)) kUninitialized) as [E|N].
  - assert (O : owner v = t) by (apply (inv_own _ _ _ I t v Away); now rewrite P).
    pose proof (inv_site _ _ _ I v) as S. rewrite O, P, (stage_self _ v Away) in S by easy. cbn in S.
    apply answers_first; auto; tauto.
  - destruct (V v) as [X|<-]; [easy|]. now apply answers_cached.
Qed.

Lemma run_reachable files l : forall s s', reachable cstr owned files s -> Forall owned l -> run cstr s l = Some s' ->
  reachable cstr owned files s'.
Proof.
  induction l as [|a l IH]; intros s s' H F E; [now injection E as <-|]. cbn in E. inversion F; subst.
  destruct (exec cstr s a) as [s1|] eqn:X; [|discriminate]. apply (IH s1); auto. eapply reach_act; eauto.
Qed.

(** A walk over a site that is its own successor does not end. *)
Lemma cycle_forever t i n : forall s s', next_ (sites s i) = Some i ->
  (exists c r lf ll, pcs s t = UpdSite c r (Some i) lf ll \/ pcs s t = UpdNext c r i lf ll) ->
  run cstr s (steps t n) = Some s' -> walks (pcs s' t) <> None.
Proof.
  induction n as [|n IH]; intros s s' N (c & r & lf & ll & P) E.
  - injection E as <-. destruct P as [P|P]; now rewrite P.
  - cbn [steps repeat run exec] in E. unfold step in E. destruct P as [P|P]; rewrite P in E.
    + cbn zeta in E. destruct (last_entry cstr c _ lf ll) as [lf' ll']. eapply (IH _ s' ); [| |exact E].
      * cbn. now rewrite upd_same.
      * exists c, r, lf', ll'. right. cbn. now rewrite upd_same.
    + eapply (IH _ s'); [| |exact E]; [exact N|]. exists c, r, lf, ll. left. cbn. rewrite upd_same. now rewrite N.
Qed.
End Owned.

(** ** An execution with two threads, three sites of two files and a setter *)
Definition two_files (p : Z) : list Z := if p =? 0 then str "net/a.cc" else str "b.cc".

Definition two_owners (i : nat) : nat := (i mod 2)%nat.
Definition site_files (i : nat) : Z := Z.of_nat (i mod 2).

(** Sites 1 and 2 are pushed at the same time, the level of site 2 is read before the setter changes it. *)
Definition sample : list action :=
  Call 0 (IsEnabled 0 1) :: steps 0 6 ++ Call 1 (IsEnabled 1 1) :: steps 1 3 ++ Call 0 (IsEnabled 2 1) :: steps 0 5 ++
  steps 1 3 ++ Call 2 (Set_ (UpdateVModule (str "net/*=2"))) :: steps 2 3 ++ steps 1 1 ++ steps 2 4 ++ steps 0 1 ++
  steps 1 1 ++ steps 2 3 ++ [Call 1 (IsEnabled 1 1)].

Lemma sample_owned : Forall (owned two_owners) sample.
Proof.
  assert (S : forall t n, Forall (owned two_owners) (steps t n))
    by (intros; apply Forall_forall; intros a A; apply repeat_spec in A; now subst).
  unfold sample. repeat (apply Forall_cons || (apply Forall_app; split; [apply S|])); try apply Forall_nil;
    try reflexivity; vm_compute; discriminate.
Qed.

Lemma sample_facts :
  match run two_files (start site_files) sample with
  | Some s => map (fun i => v_ (sites s i)) [0%nat; 1%nat; 2%nat; 3%nat] = [2; 0; 2; kUninitialized] /\
              mutex s = None /\ update_mutex s = None /\ pcs s 1%nat = Load 1 1
  | None => False
  end.
Proof. vm_compute. auto. Qed.

Lemma sample_reachable s : run two_files (start site_files) sample = Some s -> reachable two_files (owned two_owners) site_files s.
Proof.
  exact (run_reachable two_files two_owners site_files sample (start site_files) s (reach_start _ _ _) sample_owned).
Qed.

Lemma vlog_sites_settle_witness :
  match run two_files (start site_files) sample with
  | Some s => map (fun i => v_ (sites s i)) [0%nat; 1%nat; 2%nat; 3%nat] = [2; 0; 2; kUninitialized] /\
              answers two_files s 1 (1 <=? level_of two_files (cfg s) (file_ (sites s 1%nat)))
  | None => False
  end.
Proof.
  generalize sample_facts, sample_reachable. destruct (run two_files (start site_files) sample) as [s|]; [|intros []].
  intros (V & M & U & P) H. split; [exact V|].
  apply (vlog_sites_settle two_files two_owners site_files s (H s eq_refl)); auto. discriminate.
Defined.

(** ** Schedules outside the discipline *)

(** Two threads that use the first site at the same time: both link it, it becomes its own successor, and every
    later setter loops forever. *)
Lemma register_race_cycles : exists s,
  run two_files (start site_files)
    ([Call 0 (IsEnabled 0 1); Call 1 (IsEnabled 0 1)] ++ steps 0 1 ++ steps 1 1 ++ steps 0 5 ++ steps 1 5 ++
     Call 2 (Set_ (UpdateGlobalVLogLevel 3)) :: steps 2 3) = Some s /\
  forall n s', run two_files s (steps 2 n) = Some s' -> walks (pcs s' 2%nat) <> None.
Proof.
  eexists. split; [vm_compute; reflexivity|]. intros n s'. apply cycle_forever with (i := 0%nat); [reflexivity|].
  eexists _, _, _, _. left. reflexivity.
Qed.

(** One thread is enough when the level is the mark of an uninitialized site, which registers again. *)
Lemma largest_level_cycles : exists s,
  run two_files (start site_files)
    (Call 2 (Set_ (UpdateGlobalVLogLevel kUninitialized)) :: steps 2 4 ++ Call 0 (IsEnabled 0 1) :: steps 0 6 ++
     Call 0 (IsEnabled 0 1) :: steps 0 6 ++ Call 2 (Set_ (UpdateGlobalVLogLevel 3)) :: steps 2 3) = Some s /\
  forall n s', run two_files s (steps 2 n) = Some s' -> walks (pcs s' 2%nat) <> None.
Proof.
  eexists. split; [vm_compute; reflexivity|]. intros n s'. apply cycle_forever with (i := 0%nat); [reflexivity|].
  eexists _, _, _, _. left. reflexivity.
Qed.

(** A thread that finds the site linked but not yet in the list caches its level; a setter then misses the site,
    which keeps the old level when every thread is outside. *)
Lemma register_race_stale :
  match run two_files (start site_files)
    (Call 0 (IsEnabled 1 1) :: steps 0 6 ++ [Call 0 (IsEnabled 0 1); Call 1 (IsEnabled 0 1)] ++ steps 0 3 ++ steps 1 5 ++
     Call 2 (Set_ (UpdateGlobalVLogLevel 3)) :: steps 2 6 ++ steps 0 3) with
  | Some s => map (pcs s) [0%nat; 1%nat; 2%nat] = [Done (RBool false); Done (RBool false); Done (RInt 0)] /\
              v_ (sites s 0%nat) = 0 /\ level_of two_files (cfg s) (file_ (sites s 0%nat)) = 3
  | None => False
  end.
Proof. vm_compute. auto. Qed.
