(* ===== verification/LengthSeq.v ===== *)
(** [absl/debugging/internal/bounded_utf8_length_sequence.h]: a sequence of numbers between one and four, two bits
    each, whose insertion returns the sum of the elements before it.  It refines insertion into a list. *)
From Stdlib Require Import ZArith Lia List Bool.
From S2P Require Import Prelude Bits.
Import ListNotations.
#[local] Open Scope Z_scope.
#[local] Open Scope mach_scope.

(** [rep_], [max_elements / 32] words, zero at first. *)
Definition Rep := list Z.

Definition empty_sequence (max_elements : Z) : Rep := repeat 0 (Z.to_nat (max_elements / 32)).

Definition odd_bits_mask : Z := 0xaaaaaaaaaaaaaaaa.

(** The loop over the words below the insertion: [j] counts down from [word_index]. *)
Fixpoint count_words (j : nat) (rep : Rep) (full_popcount odd_popcount : Z) : option (Z * Z) :=
  match j with
  | O => Some (full_popcount, odd_popcount)
  | S j' =>
    do word_below_insertion <- read rep (Z.of_nat j');
    count_words j' rep (full_popcount + popcount 64 word_below_insertion) (odd_popcount + popcount 64 (word_below_insertion .& odd_bits_mask))
  end.

(** The loop that shifts the words above [word_index]: [n] of them are left, the highest is at [word_index + n]. *)
Fixpoint shift_words (n : nat) (word_index : Z) (rep : Rep) : option Rep :=
  match n with
  | O => Some rep
  | S n' =>
    let j := word_index + Z.of_nat n in
    do a <- read rep j;
    do b <- read rep (j - 1);
    do rep <- write rep j ((a <<[64] 2) .| (b >> 62));
    shift_words n' word_index rep
  end.

(** The sum, and the new words. *)
Definition InsertAndReturnSumOfPredecessors (max_elements : Z) (rep : Rep) (index utf8_length : Z) : option (Z * Rep) :=
  let index := if index >=? max_elements then max_elements -[32] 1 else index in
  let utf8_length := if (utf8_length =? 0) || (utf8_length >? 4) then 1 else utf8_length in
  let word_index := index / 32 in
  let bit_index := 2 *[32] (index mod 32) in
  let ones_bit := 1 <<[64] bit_index in
  let lower_seminibbles_mask := ones_bit -[64] 1 in
  let higher_seminibbles_mask := ~[64] lower_seminibbles_mask in
  do word <- read rep word_index;
  let same_word_bits_below_insertion := word .& lower_seminibbles_mask in
  do (full_popcount, odd_popcount) <-
    count_words (Z.to_nat word_index) rep (popcount 64 same_word_bits_below_insertion)
      (popcount 64 (same_word_bits_below_insertion .& odd_bits_mask));
  let sum_of_predecessors := index +[32] wrapu 32 (full_popcount + odd_popcount) in
  do rep <- shift_words (Z.to_nat (max_elements / 32 - 1 - word_index)) word_index rep;
  do word <- read rep word_index;
  do rep <- write rep word_index
    (((word .& lower_seminibbles_mask) .| ((utf8_length -[32] 1) <<[64] bit_index)) .|
     ((word .& higher_seminibbles_mask) <<[64] 2));
  Some (sum_of_predecessors, rep).

(** ** Two bits at a time *)
Definition seminibble (w : Z) (j : Z) : Z := (w / 4 ^ j) mod 4.

(** Element [k]: one more than its two bits. *)
Definition element (rep : Rep) (k : Z) : Z := seminibble (nth (Z.to_nat (k / 32)) rep 0) (k mod 32) + 1.

Fixpoint sum_below (n : nat) (f : Z -> Z) : Z := match n with O => 0 | S n' => sum_below n' f + f (Z.of_nat n') end.

Lemma sum_below_S n f : sum_below (S n) f = sum_below n f + f (Z.of_nat n).
Proof. reflexivity. Qed.

Lemma sum_below_ext n f g : (forall j, 0 <= j < Z.of_nat n -> f j = g j) -> sum_below n f = sum_below n g.
Proof. induction n as [|n IH]; intros H; [reflexivity|]. cbn [sum_below]. rewrite IH, H; [reflexivity|lia|intros; apply H; lia]. Qed.

Lemma sum_below_add n m f : sum_below (n + m) f = sum_below n f + sum_below m (fun j => f (Z.of_nat n + j)).
Proof.
  induction m as [|m IH]; [rewrite Nat.add_0_r; cbn; lia|]. rewrite Nat.add_succ_r. cbn [sum_below]. rewrite IH, Nat2Z.inj_add. lia.
Qed.

(** ** Counting bits two by two *)
Definition bit (x i : Z) : Z := Z.b2z (Z.testbit x i).

Lemma bitcount_sum n : forall x, bitcount n x = sum_below n (bit x).
Proof.
  induction n as [|n IH]; intros x; [reflexivity|]. cbn [bitcount]. rewrite IH. change (S n) with (1 + n)%nat. rewrite sum_below_add.
  assert (E1 : sum_below 1 (bit x) = Z.b2z (Z.odd x)) by (cbn [sum_below]; unfold bit; now rewrite Z.add_0_l, Z.bit0_odd).
  rewrite E1. f_equal. apply sum_below_ext. intros j J. unfold bit.
  rewrite Z.div2_spec, Z.shiftr_spec by lia. f_equal. f_equal. lia.
Qed.

Lemma sum_pairs n f : sum_below (2 * n) f = sum_below n (fun j => f (2 * j) + f (2 * j + 1)).
Proof.
  induction n as [|n IH]; [reflexivity|]. replace (2 * S n)%nat with (S (S (2 * n))) by lia. cbn [sum_below]. rewrite IH.
  replace (Z.of_nat (2 * n)) with (2 * Z.of_nat n) by lia. replace (Z.of_nat (S (2 * n))) with (2 * Z.of_nat n + 1) by lia. lia.
Qed.

Lemma odd_bits_mask_bit i : 0 <= i < 64 -> Z.testbit odd_bits_mask i = Z.odd i.
Proof.
  intros H. assert (C : forallb (fun k => Bool.eqb (Z.testbit odd_bits_mask (Z.of_nat k)) (Z.odd (Z.of_nat k))) (seq 0 64) = true) by (vm_compute; reflexivity).
  rewrite forallb_forall in C. specialize (C (Z.to_nat i)). rewrite Z2Nat.id in C by lia. apply eqb_prop, C, in_seq. lia.
Qed.

Lemma sum_below_plus n f g : sum_below n f + sum_below n g = sum_below n (fun j => f j + g j).
Proof. induction n as [|n IH]; [reflexivity|]. cbn [sum_below]. lia. Qed.

Lemma seminibble_bits x j : 0 <= j -> seminibble x j = bit x (2 * j) + 2 * bit x (2 * j + 1).
Proof.
  intros J. unfold seminibble, bit. replace (4 ^ j) with (2 ^ (2 * j)) by (rewrite Z.pow_mul_r by lia; reflexivity).
  rewrite <- Z.shiftr_div_pow2 by lia. replace (2 * j) with (0 + 2 * j) at 2 by lia. replace (2 * j + 1) with (1 + 2 * j) by lia.
  rewrite <- !Z.shiftr_spec by lia. set (y := Z.shiftr x (2 * j)). rewrite Z.bit0_odd, (Z.testbit_odd y 1), Z.shiftr_div_pow2 by lia. change (2 ^ 1) with 2.
  pose proof (Zmod_odd y). pose proof (Zmod_odd (y / 2)). destruct (Z.odd y), (Z.odd (y / 2)); cbn [Z.b2z]; zlia.
Qed.

Lemma popcount_pairs x : in_u 64 x -> popcount 64 x + popcount 64 (x .& odd_bits_mask) = sum_below 32 (seminibble x).
Proof.
  intros X. assert (S64 : std_width 64) by (unfold std_width; lia). assert (X' : in_u 64 (x .& odd_bits_mask)) by (apply in_u_land_l; [lia|exact X]).
  rewrite !popcount_spec by assumption. change (Z.to_nat 64) with (2 * 32)%nat. rewrite !bitcount_sum, !sum_pairs, sum_below_plus. apply sum_below_ext. intros j J.
  rewrite seminibble_bits by lia. unfold bit. rewrite !Z.land_spec, !odd_bits_mask_bit by lia.
  rewrite Z.odd_mul, Z.odd_add, Z.odd_mul. cbn [Z.odd andb xorb]. rewrite andb_false_r, andb_true_r. cbn [Z.b2z]. lia.
Qed.

(** ** The words that are written *)
Lemma wrapu_bit w x i : 0 <= i < w -> Z.testbit (wrapu w x) i = Z.testbit x i.
Proof. intros I. unfold wrapu. now apply Z.mod_pow2_bits_low. Qed.

Lemma lower_mask_bit bi i : 0 <= bi < 64 -> 0 <= i -> Z.testbit ((1 <<[64] bi) -[64] 1) i = (i <? bi).
Proof.
  intros B I. assert (P : 0 < 2 ^ bi < 2 ^ 64) by (split; [apply Z.pow_pos_nonneg; lia|apply Z.pow_lt_mono_r; lia]).
  rewrite Z.shiftl_mul_pow2, Z.mul_1_l by lia. rewrite (wrapu_small 64 (2 ^ bi)), wrapu_small by lia.
  replace (2 ^ bi - 1) with (Z.ones bi) by (rewrite Z.ones_equiv; lia). now rewrite Z.testbit_ones_nonneg by lia.
Qed.

Definition inserted_word (w bi v : Z) : Z :=
  ((w .& ((1 <<[64] bi) -[64] 1)) .| (v <<[64] bi)) .| ((w .& (~[64] ((1 <<[64] bi) -[64] 1))) <<[64] 2).

Lemma inserted_word_bit w bi v i : 0 <= bi < 64 -> 0 <= v < 4 -> 0 <= i < 64 ->
  Z.testbit (inserted_word w bi v) i = if i <? bi then Z.testbit w i else if i <? bi + 2 then Z.testbit v (i - bi) else Z.testbit w (i - 2).
Proof.
  intros B V I. unfold inserted_word. rewrite !Z.lor_spec, Z.land_spec, lower_mask_bit, !wrapu_bit, !Z.shiftl_spec by lia.
  assert (Hv : forall k, 2 <= k -> Z.testbit v k = false).
  { intros k K. destruct (Z.eq_dec v 0) as [->|N]; [apply Z.bits_0|]. apply Z.bits_above_log2; [lia|]. apply Z.log2_lt_pow2; [lia|].
    assert (2 ^ 2 <= 2 ^ k) by (apply Z.pow_le_mono_r; lia). lia. }
  assert (H2 : Z.testbit (w .& (~[64] ((1 <<[64] bi) -[64] 1))) (i - 2) = Z.testbit w (i - 2) && (bi <=? i - 2)).
  { destruct (Z.lt_ge_cases (i - 2) 0); [rewrite !Z.testbit_neg_r by lia; reflexivity|].
    rewrite Z.land_spec, wrapu_bit, Z.lnot_spec, lower_mask_bit by lia. f_equal. now rewrite Z.leb_antisym. }
  rewrite H2. destruct (Z.ltb_spec i bi); [|destruct (Z.ltb_spec i (bi + 2))].
  - rewrite (Z.testbit_neg_r v), (proj2 (Z.leb_gt _ _)), andb_true_r, andb_false_r, !orb_false_r by lia. reflexivity.
  - rewrite (proj2 (Z.leb_gt _ _)), !andb_false_r, orb_false_r by lia. reflexivity.
  - rewrite Hv, (proj2 (Z.leb_le _ _)), andb_false_r, andb_true_r by lia. reflexivity.
Qed.

Lemma inserted_seminibble w m v j : 0 <= m < 32 -> 0 <= v < 4 -> 0 <= j < 32 ->
  seminibble (inserted_word w (2 * m) v) j = if j <? m then seminibble w j else if j =? m then v else seminibble w (j - 1).
Proof.
  intros M V J. rewrite seminibble_bits by lia. unfold bit. rewrite !inserted_word_bit by lia.
  destruct (Z.ltb_spec j m); [|destruct (Z.eqb_spec j m)].
  - rewrite seminibble_bits by lia. rewrite !(proj2 (Z.ltb_lt _ _)) by lia. reflexivity.
  - subst j. rewrite (proj2 (Z.ltb_ge (2 * m) (2 * m))), (proj2 (Z.ltb_ge (2 * m + 1) (2 * m))), !(proj2 (Z.ltb_lt _ _)) by lia.
    replace (2 * m - 2 * m) with (2 * 0) by lia. replace (2 * m + 1 - 2 * m) with (2 * 0 + 1) by lia.
    pose proof (seminibble_bits v 0 ltac:(lia)) as S. unfold bit in S. rewrite <- S.
    unfold seminibble. rewrite Z.pow_0_r, Z.div_1_r. apply Z.mod_small. lia.
  - rewrite !(proj2 (Z.ltb_ge _ _)) by lia. rewrite seminibble_bits by lia. unfold bit. replace (2 * (j - 1)) with (2 * j - 2) by lia.
    replace (2 * j - 2 + 1) with (2 * j + 1 - 2) by lia. reflexivity.
Qed.

Definition shifted_word (a b : Z) : Z := (a <<[64] 2) .| (b >> 62).

Lemma shifted_seminibble a b j : in_u 64 b -> 0 <= j < 32 -> seminibble (shifted_word a b) j = if j =? 0 then seminibble b 31 else seminibble a (j - 1).
Proof.
  intros B J. assert (Hb : forall i, 0 <= i < 64 -> Z.testbit (shifted_word a b) i = if i <? 2 then Z.testbit b (i + 62) else Z.testbit a (i - 2)).
  { intros i I. unfold shifted_word. rewrite Z.lor_spec, wrapu_bit, Z.shiftl_spec, Z.shiftr_spec by lia. destruct (Z.ltb_spec i 2).
    - now rewrite Z.testbit_neg_r by lia.
    - rewrite (testbit_above 64 b (i + 62)) by (try exact B; lia). apply orb_false_r. }
  rewrite seminibble_bits by lia. unfold bit. rewrite !Hb by lia. destruct (Z.eqb_spec j 0) as [->|N].
  - rewrite seminibble_bits by lia. reflexivity.
  - rewrite !(proj2 (Z.ltb_ge _ _)) by lia. rewrite seminibble_bits by lia. unfold bit. replace (2 * (j - 1)) with (2 * j - 2) by lia.
    replace (2 * j - 2 + 1) with (2 * j + 1 - 2) by lia. reflexivity.
Qed.

Lemma word_range_lor3 a b c : in_u 64 a -> in_u 64 b -> in_u 64 c -> in_u 64 ((a .| b) .| c).
Proof. intros A B C. apply in_u_lor; [lia|apply in_u_lor; [lia|exact A|exact B]|exact C]. Qed.

Lemma inserted_range w bi v : in_u 64 w -> in_u 64 (inserted_word w bi v).
Proof. intros W. apply word_range_lor3; [apply in_u_land_l; [lia|exact W]|apply wrapu_range; lia|apply wrapu_range; lia]. Qed.

Lemma shifted_range a b : in_u 64 b -> in_u 64 (shifted_word a b).
Proof. intros B. apply in_u_lor; [lia|apply wrapu_range; lia|]. apply in_u_shiftr; [lia|lia|exact B]. Qed.

(** ** The loops *)
Record rep_ok (max_elements : Z) (rep : Rep) : Prop := {
  r_words : Z.of_nat (length rep) * 32 = max_elements;
  r_range : Forall (in_u 64) rep
}.

Lemma nth_range n rep : Forall (in_u 64) rep -> in_u 64 (nth n rep 0).
Proof. intros F. destruct (Nat.lt_ge_cases n (length rep)); [apply Forall_nth; assumption|]. rewrite nth_overflow by lia. unfold in_u. lia. Qed.

Lemma sum_words rep : forall n, sum_below (32 * n) (fun k => seminibble (nth (Z.to_nat (k / 32)) rep 0) (k mod 32)) =
  sum_below n (fun q => sum_below 32 (seminibble (nth (Z.to_nat q) rep 0))).
Proof.
  induction n as [|n IH]; [reflexivity|]. replace (32 * S n)%nat with (32 * n + 32)%nat by lia. rewrite sum_below_add, IH, (sum_below_S n).
  cbn beta. rewrite Nat2Z.id. apply f_equal. apply sum_below_ext. intros j J. replace (Z.of_nat (32 * n) + j) with (j + Z.of_nat n * 32) by lia.
  rewrite Z.div_add, Z.mod_add, Z.div_small, Z.mod_small by lia. now rewrite Z.add_0_l, Nat2Z.id.
Qed.

Lemma count_words_spec rep : Forall (in_u 64) rep -> forall j full odd, (j <= length rep)%nat ->
  exists full' odd', count_words j rep full odd = Some (full', odd') /\
    full' + odd' = full + odd + sum_below j (fun q => sum_below 32 (seminibble (nth (Z.to_nat q) rep 0))).
Proof.
  intros F. induction j as [|j IH]; intros full odd L; cbn [count_words]; [eexists _, _; split; [reflexivity|cbn; lia]|].
  rewrite (read_some _ _ 0) by lia. cbn [obind]. rewrite Nat2Z.id.
  edestruct IH as (full' & odd' & -> & E); [lia|]. eexists _, _. split; [reflexivity|]. rewrite E, (sum_below_S j), Nat2Z.id.
  pose proof (popcount_pairs (nth j rep 0) (nth_range _ _ F)). lia.
Qed.

Lemma shift_words_spec wi : (0 <= wi) -> forall n rep, Forall (in_u 64) rep -> wi + Z.of_nat n < Z.of_nat (length rep) ->
  exists rep', shift_words n wi rep = Some rep' /\ length rep' = length rep /\ Forall (in_u 64) rep' /\
    forall k, nth k rep' 0 = if (wi <? Z.of_nat k) && (Z.of_nat k <=? wi + Z.of_nat n) then shifted_word (nth k rep 0) (nth (k - 1) rep 0) else nth k rep 0.
Proof.
  intros W. induction n as [|n IH]; intros rep F L; cbn [shift_words].
  - exists rep. repeat split; try assumption; try reflexivity. intros k. destruct (_ && _) eqn:C; [|reflexivity]. apply andb_prop in C as (C1 & C2). zbool. lia.
  - rewrite !(read_some _ _ 0) by lia. cbn [obind]. rewrite write_some by lia. cbn [obind].
    set (j := Z.to_nat (wi + Z.of_nat (S n))). replace (Z.to_nat (wi + Z.of_nat (S n) - 1)) with (j - 1)%nat by (unfold j; lia).
    fold (shifted_word (nth j rep 0) (nth (j - 1) rep 0)). set (x := shifted_word _ _).
    assert (Fx : Forall (in_u 64) (replace_nth j x rep)) by (apply Forall_replace_nth; [apply shifted_range, nth_range, F|exact F]).
    destruct (IH (replace_nth j x rep) Fx) as (rep' & E & L' & F' & N); [rewrite replace_nth_length; lia|].
    rewrite E. exists rep'. rewrite replace_nth_length in L'. repeat split; try assumption. intros k. rewrite N, !nth_replace_nth.
    assert (Hj : Z.of_nat j = wi + Z.of_nat (S n)) by (unfold j; lia). destruct (Nat.eq_dec k j) as [->|D].
    + rewrite (proj2 (Z.leb_gt (Z.of_nat j) (wi + Z.of_nat n))), andb_false_r by lia. rewrite (proj2 (Z.ltb_lt _ _)), (proj2 (Z.leb_le _ _)) by lia.
      cbn [andb]. rewrite Nat.eqb_refl. rewrite (proj2 (Nat.ltb_lt _ _)) by lia. reflexivity.
    + rewrite (proj2 (Nat.eqb_neq k j)) by exact D. cbn [andb].
      assert (EC : (wi <? Z.of_nat k) && (Z.of_nat k <=? wi + Z.of_nat n) = (wi <? Z.of_nat k) && (Z.of_nat k <=? wi + Z.of_nat (S n))).
      { f_equal. destruct (Z.leb_spec (Z.of_nat k) (wi + Z.of_nat n)), (Z.leb_spec (Z.of_nat k) (wi + Z.of_nat (S n))); lia. }
      rewrite EC. clear EC. destruct ((wi <? Z.of_nat k) && (Z.of_nat k <=? wi + Z.of_nat (S n))) eqn:C; [|reflexivity]. apply andb_prop in C as (C1 & C2). zbool.
      rewrite (proj2 (Nat.eqb_neq (k - 1) j)) by lia. reflexivity.
Qed.

(** ** Insertion *)
Section Insert.
Context (max_elements : Z) (Max : 0 < max_elements < 2 ^ 24) (rep : Rep) (Ok : rep_ok max_elements rep).
Context (index len : Z) (I : 0 <= index < max_elements) (Len : 1 <= len <= 4).

Let wi := index / 32.
Let m := index mod 32.

Lemma index_split : index = 32 * wi + m /\ 0 <= wi /\ 0 <= m < 32 /\ wi < Z.of_nat (length rep).
Proof.
  pose proof (r_words _ _ Ok). pose proof (Z.div_mod index 32 ltac:(lia)). pose proof (Z.mod_pos_bound index 32 ltac:(lia)).
  assert (0 <= index / 32) by (apply Z.div_pos; lia). unfold wi, m. lia.
Qed.

Lemma below_seminibble w j : in_u 64 w -> 0 <= j < 32 ->
  seminibble (w .& ((1 <<[64] (2 * m)) -[64] 1)) j = if j <? m then seminibble w j else 0.
Proof.
  intros W J. destruct index_split as (_ & _ & M & _). rewrite seminibble_bits by lia. unfold bit. rewrite !Z.land_spec, !lower_mask_bit by lia. destruct (Z.ltb_spec j m).
  - rewrite !(proj2 (Z.ltb_lt _ _)), !andb_true_r by lia. now rewrite seminibble_bits by lia.
  - rewrite !(proj2 (Z.ltb_ge _ _)), !andb_false_r by lia. reflexivity.
Qed.

Lemma sum_cut n (f : Z -> Z) : (n <= 32)%nat -> sum_below 32 (fun j => if j <? Z.of_nat n then f j else 0) = sum_below n f.
Proof.
  intros N. replace 32%nat with (n + (32 - n))%nat by lia. rewrite sum_below_add.
  rewrite (sum_below_ext n _ f) by (intros j J; now rewrite (proj2 (Z.ltb_lt _ _)) by lia).
  rewrite (sum_below_ext (32 - n) _ (fun _ => 0)) by (intros j J; now rewrite (proj2 (Z.ltb_ge _ _)) by lia).
  assert (Z0 : forall k, sum_below k (fun _ => 0) = 0) by (induction k as [|k IH]; [reflexivity|rewrite sum_below_S; lia]). rewrite Z0. lia.
Qed.

(** The sum that the counts give. *)
Lemma predecessors : exists full odd,
  count_words (Z.to_nat wi) rep (popcount 64 (nth (Z.to_nat wi) rep 0 .& ((1 <<[64] (2 * m)) -[64] 1)))
    (popcount 64 ((nth (Z.to_nat wi) rep 0 .& ((1 <<[64] (2 * m)) -[64] 1)) .& odd_bits_mask)) = Some (full, odd) /\
  index + (full + odd) = sum_below (Z.to_nat index) (element rep).
Proof.
  destruct index_split as (Ei & W0 & M & Wl). pose proof (r_range _ _ Ok) as F. pose proof (nth_range (Z.to_nat wi) rep F) as Fw.
  edestruct (count_words_spec rep F (Z.to_nat wi)) as (full & odd & -> & E); [lia|]. eexists _, _. split; [reflexivity|]. rewrite E.
  rewrite popcount_pairs by (apply in_u_land_l; [lia|exact Fw]).
  rewrite (sum_below_ext 32 _ (fun j => if j <? Z.of_nat (Z.to_nat m) then seminibble (nth (Z.to_nat wi) rep 0) j else 0)) by (intros j J; rewrite Z2Nat.id by lia; now apply below_seminibble).
  rewrite sum_cut by lia. rewrite <- sum_words. replace (Z.to_nat index) with (32 * Z.to_nat wi + Z.to_nat m)%nat by lia. rewrite sum_below_add.
  assert (P1 : forall n f, sum_below n (fun j => f j + 1) = sum_below n f + Z.of_nat n) by (induction n as [|n IH]; intros f; [reflexivity|rewrite !sum_below_S, IH; lia]).
  unfold element. rewrite !P1. rewrite (sum_below_ext (Z.to_nat m) (fun j => seminibble (nth (Z.to_nat ((Z.of_nat (32 * Z.to_nat wi) + j) / 32)) rep 0) ((Z.of_nat (32 * Z.to_nat wi) + j) mod 32)) (seminibble (nth (Z.to_nat wi) rep 0))).
  - lia.
  - intros j J. replace (Z.of_nat (32 * Z.to_nat wi) + j) with (j + wi * 32) by lia. rewrite Z.div_add, Z.mod_add, Z.div_small, Z.mod_small by lia. reflexivity.
Qed.

Lemma element_bound k : 1 <= element rep k <= 4.
Proof. unfold element, seminibble. pose proof (Z.mod_pos_bound (nth (Z.to_nat (k / 32)) rep 0 / 4 ^ (k mod 32)) 4 ltac:(lia)). lia. Qed.

Lemma sum_bound n : Z.of_nat n <= sum_below n (element rep) <= 4 * Z.of_nat n.
Proof. induction n as [|n IH]; [cbn; lia|]. rewrite sum_below_S. pose proof (element_bound (Z.of_nat n)). lia. Qed.

Lemma insert_elements : exists rep', InsertAndReturnSumOfPredecessors max_elements rep index len = Some (sum_below (Z.to_nat index) (element rep), rep') /\
  rep_ok max_elements rep' /\ forall k, 0 <= k < max_elements -> element rep' k = if k <? index then element rep k else if k =? index then len else element rep (k - 1).
Proof.
  destruct index_split as (Ei & W0 & M & Wl). pose proof (r_range _ _ Ok) as F. pose proof (r_words _ _ Ok) as Ew. destruct predecessors as (full & odd & C & S).
  unfold InsertAndReturnSumOfPredecessors. rewrite Z.geb_leb, (proj2 (Z.leb_gt _ _)) by lia.
  rewrite (proj2 (Z.eqb_neq len 0)), Z.gtb_ltb, (proj2 (Z.ltb_ge 4 len)) by lia. cbn [orb]. cbv zeta. fold wi m.
  rewrite (wrapu_small 32 (2 * m)) by lia. rewrite (read_some _ _ 0) by lia. cbn [obind]. rewrite C. cbn [obind].
  destruct (shift_words_spec wi W0 (Z.to_nat (max_elements / 32 - 1 - wi)) rep F) as (rep1 & -> & L1 & F1 & N1).
  { replace (max_elements / 32) with (Z.of_nat (length rep)) by (rewrite <- Ew, Z.div_mul by lia; reflexivity). lia. }
  cbn [obind]. rewrite (read_some _ _ 0) by lia. cbn [obind]. rewrite (wrapu_small 32 (len - 1)) by lia. fold (inserted_word (nth (Z.to_nat wi) rep1 0) (2 * m) (len - 1)).
  rewrite write_some by lia. cbn [obind]. pose proof (sum_bound (Z.to_nat index)) as Sb.
  rewrite (wrapu_small 32 (full + odd)), wrapu_small, S by lia. eexists. split; [reflexivity|].
  assert (Same : nth (Z.to_nat wi) rep1 0 = nth (Z.to_nat wi) rep 0).
  { rewrite N1, Z2Nat.id, Z.ltb_irrefl by lia. reflexivity. }
  split; [split; [rewrite replace_nth_length; lia|apply Forall_replace_nth; [apply inserted_range, nth_range, F1|exact F1]]|].
  intros k K. pose proof (Z.div_mod k 32 ltac:(lia)) as Dk. pose proof (Z.mod_pos_bound k 32 ltac:(lia)) as Mk. assert (Q0 : 0 <= k / 32) by (apply Z.div_pos; lia).
  assert (Max32 : max_elements / 32 = Z.of_nat (length rep)) by (rewrite <- Ew, Z.div_mul by lia; reflexivity).
  unfold element at 1. rewrite nth_replace_nth, Same. destruct (Nat.eqb_spec (Z.to_nat (k / 32)) (Z.to_nat wi)) as [Eq|Nq].
  - rewrite (proj2 (Nat.ltb_lt _ _)) by lia. cbn [andb]. rewrite inserted_seminibble by lia.
    assert (Ek : k / 32 = wi) by lia. destruct (Z.ltb_spec (k mod 32) m); [|destruct (Z.eqb_spec (k mod 32) m)].
    + rewrite (proj2 (Z.ltb_lt _ _)) by lia. unfold element. now rewrite Ek.
    + rewrite (proj2 (Z.ltb_ge k index)), (proj2 (Z.eqb_eq k index)) by lia. lia.
    + rewrite (proj2 (Z.ltb_ge k index)), (proj2 (Z.eqb_neq k index)) by lia. unfold element.
      replace ((k - 1) / 32) with wi by (apply Z.div_unique with (k mod 32 - 1); lia). replace ((k - 1) mod 32) with (k mod 32 - 1) by (apply Z.mod_unique with wi; lia). reflexivity.
  - cbn [andb]. rewrite N1, Z2Nat.id by lia. destruct (Z.ltb_spec wi (k / 32)) as [G|G]; cbn [andb].
    + rewrite (proj2 (Z.leb_le _ _)) by (assert (k / 32 < Z.of_nat (length rep)) by (apply Z.div_lt_upper_bound; lia); lia).
      rewrite shifted_seminibble by (try lia; apply nth_range, F). rewrite (proj2 (Z.ltb_ge k index)), (proj2 (Z.eqb_neq k index)) by lia. unfold element.
      destruct (Z.eqb_spec (k mod 32) 0) as [E0|E0].
      * replace ((k - 1) / 32) with (k / 32 - 1) by (apply Z.div_unique with 31; lia). replace ((k - 1) mod 32) with 31 by (apply Z.mod_unique with (k / 32 - 1); lia).
        now replace (Z.to_nat (k / 32) - 1)%nat with (Z.to_nat (k / 32 - 1)) by lia.
      * replace ((k - 1) / 32) with (k / 32) by (apply Z.div_unique with (k mod 32 - 1); lia). now replace ((k - 1) mod 32) with (k mod 32 - 1) by (apply Z.mod_unique with (k / 32); lia).
    + rewrite (proj2 (Z.ltb_lt k index)) by lia. reflexivity.
Qed.
End Insert.

(** ** The sequence as a list *)

(** The words hold the first [max_elements] elements of [l]; positions past the end count one. *)
Definition represents (max_elements : Z) (rep : Rep) (l : list Z) : Prop :=
  rep_ok max_elements rep /\ forall k, 0 <= k < max_elements -> element rep k = nth (Z.to_nat k) l 1.

(** The first [i] elements, with ones where there are none. *)
Definition predecessors_of (i : nat) (l : list Z) : list Z := firstn i (l ++ repeat 1 i).

Definition insert_at (i : nat) (x : Z) (l : list Z) : list Z := predecessors_of i l ++ x :: skipn i l.

Lemma predecessors_length i l : length (predecessors_of i l) = i.
Proof. unfold predecessors_of. rewrite length_firstn, length_app, repeat_length. lia. Qed.

Lemma nth_predecessors i l k : (k < i)%nat -> nth k (predecessors_of i l) 1 = nth k l 1.
Proof.
  intros K. unfold predecessors_of. rewrite nth_firstn, (proj2 (Nat.ltb_lt _ _)) by exact K.
  destruct (Nat.lt_ge_cases k (length l)); [now rewrite app_nth1|]. rewrite app_nth2, (nth_overflow l) by lia.
  destruct (nth_in_or_default (k - length l) (repeat 1 i) 1) as [H1|H1]; [now apply repeat_spec in H1|exact H1].
Qed.

Lemma nth_insert_at i x l k : nth k (insert_at i x l) 1 = if (k <? i)%nat then nth k l 1 else if (k =? i)%nat then x else nth (k - 1) l 1.
Proof.
  unfold insert_at. pose proof (predecessors_length i l) as L. destruct (Nat.ltb_spec k i); [|destruct (Nat.eqb_spec k i)].
  - rewrite app_nth1 by lia. now apply nth_predecessors.
  - rewrite app_nth2 by lia. now replace (k - length (predecessors_of i l))%nat with 0%nat by lia.
  - rewrite app_nth2 by lia. replace (k - length (predecessors_of i l))%nat with (S (k - i - 1)) by lia. cbn [nth]. rewrite nth_skipn. f_equal. lia.
Qed.

Lemma sum_predecessors i l : sum_below i (fun k => nth (Z.to_nat k) l 1) = zsum (predecessors_of i l).
Proof.
  rewrite (sum_below_ext i _ (fun k => nth (Z.to_nat k) (predecessors_of i l) 1)) by (intros k K; rewrite nth_predecessors by lia; reflexivity).
  pose proof (predecessors_length i l) as L. set (p := predecessors_of i l) in *. clearbody p. clear l. revert p L.
  induction i as [|i IH]; intros p L; [destruct p; [reflexivity|discriminate]|]. destruct p as [|y p]; [discriminate|]. injection L as L.
  change (S i) with (1 + i)%nat. rewrite sum_below_add. cbn [sum_below]. change (zsum (y :: p)) with (y + zsum p). rewrite <- IH by exact L.
  rewrite Z.add_0_l. f_equal. apply sum_below_ext. intros j J. now replace (Z.to_nat (Z.of_nat 1 + j)) with (S (Z.to_nat j)) by lia.
Qed.

Lemma empty_represents max_elements : 0 < max_elements -> max_elements mod 32 = 0 -> represents max_elements (empty_sequence max_elements) [].
Proof.
  intros P M. unfold empty_sequence. split; [split|].
  - rewrite repeat_length, Z2Nat.id by (apply Z.div_pos; lia). pose proof (Z.div_mod max_elements 32 ltac:(lia)). lia.
  - apply Forall_forall. intros x Hx. apply repeat_spec in Hx. subst x. unfold in_u. lia.
  - intros k K. unfold element. rewrite nth_repeat. unfold seminibble. rewrite Z.div_0_l by (apply Z.pow_nonzero; [lia|apply Z.mod_pos_bound; lia]). now destruct (Z.to_nat k).
Qed.

Lemma insert_represents max_elements rep l index len : 0 < max_elements < 2 ^ 24 -> represents max_elements rep l -> 0 <= index < max_elements -> 1 <= len <= 4 ->
  exists rep', InsertAndReturnSumOfPredecessors max_elements rep index len = Some (zsum (predecessors_of (Z.to_nat index) l), rep') /\
    represents max_elements rep' (insert_at (Z.to_nat index) len l).
Proof.
  intros Mx (Ok & El) I Len. destruct (insert_elements max_elements Mx rep Ok index len I Len) as (rep' & -> & Ok' & El'). exists rep'. split.
  - do 2 f_equal. rewrite <- sum_predecessors. apply sum_below_ext. intros j J. apply El. lia.
  - split; [exact Ok'|]. intros k K. rewrite El', nth_insert_at by exact K. destruct (Z.ltb_spec k index); [|destruct (Z.eqb_spec k index)].
    + rewrite (proj2 (Nat.ltb_lt _ _)) by lia. apply El. lia.
    + rewrite (proj2 (Nat.ltb_ge _ _)), (proj2 (Nat.eqb_eq _ _)) by lia. reflexivity.
    + rewrite (proj2 (Nat.ltb_ge _ _)) by lia. rewrite (proj2 (Nat.eqb_neq _ _)) by lia. rewrite El by lia. f_equal. lia.
Qed.

(** The two-bit sequence refines a list of lengths: from a state that represents [l], inserting a length below the capacity returns the sum of
    the elements before the position, where positions past the end count one, and the new state represents the list with the
    length inserted there (a full sequence loses its last element); the initial state represents the empty list. *)
Lemma length_sequence_correct max_elements rep l index len : 0 < max_elements < 2 ^ 24 -> max_elements mod 32 = 0 ->
  represents max_elements rep l -> 0 <= index < max_elements -> 1 <= len <= 4 ->
  represents max_elements (empty_sequence max_elements) [] /\
  exists rep', InsertAndReturnSumOfPredecessors max_elements rep index len = Some (zsum (predecessors_of (Z.to_nat index) l), rep') /\
    represents max_elements rep' (insert_at (Z.to_nat index) len l).
Proof. intros Mx M R I Len. split; [apply empty_represents; lia|now apply insert_represents]. Qed.

Lemma length_sequence_correct_witness :
  represents 64 (empty_sequence 64) [] /\
  exists rep', InsertAndReturnSumOfPredecessors 64 (empty_sequence 64) 40 3 = Some (40, rep') /\ represents 64 rep' (repeat 1 40 ++ [3]).
Proof.
  apply (length_sequence_correct 64 (empty_sequence 64) [] 40 3); [lia|reflexivity|apply empty_represents; [lia|reflexivity]|lia|lia].
Defined.

(** The example of the source: 2, 1, 4, 3 is the word 0xb1. *)
Lemma documented_word : represents 32 [0xb1] [2; 1; 4; 3].
Proof.
  split; [split; [reflexivity|repeat constructor; unfold in_u; lia]|]. intros k K.
  assert (C : forallb (fun j => element [0xb1] (Z.of_nat j) =? nth j [2; 1; 4; 3] 1) (seq 0 32) = true) by (vm_compute; reflexivity).
  rewrite forallb_forall in C. specialize (C (Z.to_nat k)). rewrite Z2Nat.id in C by lia. apply Z.eqb_eq, C, in_seq. lia.
Qed.
