(* ===== verification/Punycode.v ===== *)
(** [absl/debugging/internal/decode_rust_punycode.cc] and [utf8_for_code_point.cc]: decoding the Punycode of Rust
    symbols into UTF-8, in place in a bounded buffer.  It refines the decoder of RFC 3492 on lists of code points. *)
From Stdlib Require Import ZArith Lia List Bool.
From S2P Require Import Prelude Bits Utf8 LengthSeq.
Import ListNotations.
#[local] Open Scope Z_scope.
#[local] Open Scope mach_scope.

(** ** [Utf8ForCodePoint]: the bytes, none when the code point is not valid *)
Definition kMinSurrogate : Z := 0xd800.
Definition kMaxSurrogate : Z := 0xdfff.
Definition kMax1ByteCodePoint : Z := 0x7f.
Definition kMax2ByteCodePoint : Z := 0x7ff.
Definition kMax3ByteCodePoint : Z := 0xffff.
Definition kMaxCodePoint : Z := 0x10ffff.

Definition Utf8ForCodePoint (code_point : Z) : list Z :=
  if code_point <=? kMax1ByteCodePoint then [wrapu 8 code_point]
  else if code_point <=? kMax2ByteCodePoint then [wrapu 8 (0xc0 .| (code_point >> 6)); wrapu 8 (0x80 .| (code_point .& 0x3f))]
  else if (kMinSurrogate <=? code_point) && (code_point <=? kMaxSurrogate) then []
  else if code_point <=? kMax3ByteCodePoint then
    [wrapu 8 (0xe0 .| (code_point >> 12)); wrapu 8 (0x80 .| ((code_point >> 6) .& 0x3f)); wrapu 8 (0x80 .| (code_point .& 0x3f))]
  else if code_point >? kMaxCodePoint then []
  else
    [wrapu 8 (0xf0 .| (code_point >> 18)); wrapu 8 (0x80 .| ((code_point >> 12) .& 0x3f));
     wrapu 8 (0x80 .| ((code_point >> 6) .& 0x3f)); wrapu 8 (0x80 .| (code_point .& 0x3f))].

(** ** The decoder *)
Definition kMaxChars : Z := 256.
Definition kBase : Z := 36.
Definition kTMin : Z := 1.
Definition kTMax : Z := 26.
Definition kSkew : Z := 38.
Definition kDamp : Z := 700.
Definition kMaxI : Z := 1 <<[32] 30.

Definition in_range (lo hi c : Z) : bool := (lo <=? c) && (c <=? hi).

(** The scan for the last underscore; [None] for a byte that does not belong in an identifier. *)
Fixpoint find_underscore (i last_underscore : Z) (p : list Z) : option Z :=
  match p with
  | [] => Some last_underscore
  | c :: p =>
    if c =? 95 then find_underscore (i + 1) i p
    else if in_range 97 122 c || in_range 65 90 c || in_range 48 57 c then find_underscore (i + 1) last_underscore p
    else None
  end.

(** What a call leaves: the rest of the input, the output and the number of characters; [Failed] for a null result. *)
Inductive result (A : Type) :=
| Done (a : A)
| Failed.
Arguments Done {A}.
Arguments Failed {A}.

(** [memcpy(out_begin + at, bytes)]; stores out of bounds are undefined. *)
Definition ConsumeOptionalAsciiPrefix (punycode out : list Z) : option (result (list Z * list Z * Z)) :=
  match find_underscore 0 (-1) punycode with
  | None => Some Failed
  | Some last_underscore =>
    if last_underscore <? 0 then Some (Done (punycode, out, 0))
    else if last_underscore =? 0 then Some Failed
    else if last_underscore + 1 >? Z.of_nat (length out) then Some Failed
    else
      let num_ascii_chars := last_underscore in
      do out <- store out 0 (firstn (Z.to_nat num_ascii_chars) punycode);
      do out <- write out num_ascii_chars 0;
      Some (Done (skipn (Z.to_nat (num_ascii_chars + 1)) punycode, out, num_ascii_chars))
  end.

Definition DigitValue (c : Z) : Z :=
  if in_range 48 57 c then c - 48 + 26 else if in_range 97 122 c then c - 97 else if in_range 65 90 c then c - 65 else -1.

Definition threshold (k bias : Z) : Z :=
  if k <=? bias +[32] kTMin then kTMin else if k >=? bias +[32] kTMax then kTMax else k -[32] bias.

(** The loop of [ScanNextDelta], one digit at a time: the new [i] and the rest of the input. *)
Fixpoint scan_digits (punycode : list Z) (w k bias i : Z) : option (Z * list Z) :=
  match punycode with
  | [] => None
  | c :: punycode =>
    let digit_value := DigitValue c in
    if digit_value <? 0 then None
    else
      let new_i := i +[64] (digit_value *[64] w) in
      if new_i >? kMaxI then None
      else
        let i := wrapu 32 new_i in
        let t := threshold k bias in
        if digit_value <? t then Some (i, punycode)
        else scan_digits punycode (w *[64] (kBase -[32] t)) (k +[32] kBase) bias i
  end.

Definition ScanNextDelta (punycode : list Z) (bias i : Z) : option (Z * list Z) := scan_digits punycode 1 kBase bias i.

(** The loop that updates the bias; six rounds are enough for 32 bits. *)
Fixpoint bias_loop (fuel : nat) (delta bias : Z) : option (Z * Z) :=
  if delta >? ((kBase -[32] kTMin) *[32] kTMax) / 2 then
    match fuel with
    | O => None
    | S fuel' => bias_loop fuel' (delta / (kBase -[32] kTMin)) (bias +[32] kBase)
    end
  else Some (delta, bias).

Definition new_bias (i old_i num_chars : Z) : option Z :=
  let delta := i -[32] old_i in
  let delta := delta / (if old_i =? 0 then kDamp else 2) in
  let delta := delta +[32] (delta / (num_chars +[32] 1)) in
  do (delta, bias) <- bias_loop 8 delta 0;
  Some (bias +[32] ((((kBase -[32] kTMin) +[32] 1) *[32] delta) / (delta +[32] kSkew))).

(** [memmove(out_begin + dst, out_begin + src, n)]. *)
Definition memmove (out : list Z) (dst src n : Z) : option (list Z) :=
  if src + n <=? Z.of_nat (length out) then store out dst (firstn (Z.to_nat n) (skipn (Z.to_nat src) out)) else None.

(** The variables of [DecodeRustPunycode]. *)
Record State := mk_state {
  punycode : list Z;
  n_ : Z;
  i_ : Z;
  bias_ : Z;
  num_chars : Z;
  total_utf8_bytes : Z;
  utf8_lengths : Rep;
  out_ : list Z
}.

(** One round of the loop; [out_size] is the size of the buffer. *)
Definition decode_step (out_size : Z) (s : State) : option (result State) :=
  if num_chars s >=? kMaxChars then Some Failed
  else
    let old_i := i_ s in
    match ScanNextDelta (punycode s) (bias_ s) old_i with
    | None => Some Failed
    | Some (i, rest) =>
      do bias <- new_bias i old_i (num_chars s);
      let n := n_ s +[32] (i / (num_chars s +[32] 1)) in
      let i := i mod (num_chars s +[32] 1) in
      let bytes := Utf8ForCodePoint n in
      let len := Z.of_nat (length bytes) in
      if len =? 0 then Some Failed
      else if total_utf8_bytes s +[32] len +[32] 1 >? out_size then Some Failed
      else
        do (n_index, lengths) <- InsertAndReturnSumOfPredecessors kMaxChars (utf8_lengths s) i len;
        do out <- memmove (out_ s) (n_index + len) n_index (total_utf8_bytes s + 1 - n_index);
        do out <- store out n_index bytes;
        Some (Done (mk_state rest n (i +[32] 1) bias (num_chars s +[32] 1) (total_utf8_bytes s +[32] len) lengths out))
    end.

(** The loop ends because each round uses input. *)
Fixpoint decode_loop (fuel : nat) (out_size : Z) (s : State) : option (result State) :=
  match punycode s with
  | [] => Some (Done s)
  | _ =>
    match fuel with
    | O => None
    | S fuel' =>
      do r <- decode_step out_size s;
      match r with Done s => decode_loop fuel' out_size s | Failed => Some Failed end
    end
  end.

(** [DecodeRustPunycode]: the offset of the final NUL and the buffer. *)
Definition DecodeRustPunycode (input out : list Z) : option (result (Z * list Z)) :=
  let out_size := Z.of_nat (length out) in
  if out_size =? 0 then Some Failed
  else
    do out <- write out 0 0;
    do r <- ConsumeOptionalAsciiPrefix input out;
    match r with
    | Failed => Some Failed
    | Done (p, out, num_chars) =>
      do r <- decode_loop (length p) out_size (mk_state p 128 0 72 num_chars num_chars (empty_sequence kMaxChars) out);
      match r with
      | Failed => Some Failed
      | Done s => Some (Done (total_utf8_bytes s, out_ s))
      end
    end.

(** ** The decoder of RFC 3492, on unbounded integers and lists of code points *)
Module Rfc3492.

Definition threshold (k bias : Z) : Z := if k <=? bias + 1 then 1 else if k >=? bias + 26 then 26 else k - bias.

(** Section 6.2: a variable-length integer is added to [i]; the limit of the source on [i]. *)
Fixpoint add_delta (p : list Z) (w k bias i : Z) : option (Z * list Z) :=
  match p with
  | [] => None
  | c :: p =>
    let digit := DigitValue c in
    if digit <? 0 then None
    else
      let i := i + digit * w in
      if i >? 2 ^ 30 then None
      else
        let t := threshold k bias in
        if digit <? t then Some (i, p) else add_delta p (w * (36 - t)) (k + 36) bias i
  end.

(** Section 6.1. *)
Fixpoint scale (fuel : nat) (delta k : Z) : Z * Z :=
  match fuel with
  | O => (delta, k)
  | S fuel' => if delta >? 455 then scale fuel' (delta / 35) (k + 36) else (delta, k)
  end.

Definition adapt (delta numpoints : Z) (firsttime : bool) : Z :=
  let delta := delta / (if firsttime then 700 else 2) in
  let delta := delta + delta / numpoints in
  let '(delta, k) := scale 64 delta 0 in
  k + (36 * delta) / (delta + 38).

Definition insert (i : nat) (c : Z) (cps : list Z) : list Z := firstn i cps ++ c :: skipn i cps.

Fixpoint insertions (fuel : nat) (p : list Z) (n i bias : Z) (cps : list Z) : option (list Z) :=
  match p with
  | [] => Some cps
  | _ =>
    match fuel with
    | O => None
    | S fuel' =>
      if Z.of_nat (length cps) >=? 256 then None
      else
        match add_delta p 1 36 bias i with
        | None => None
        | Some (i', rest) =>
          let numpoints := Z.of_nat (length cps) + 1 in
          let n := n + i' / numpoints in
          let j := i' mod numpoints in
          if scalar n then insertions fuel' rest n (j + 1) (adapt (i' - i) numpoints (i =? 0)) (insert (Z.to_nat j) n cps)
          else None
        end
    end
  end.

Definition identifier_byte (c : Z) : bool := (c =? 95) || in_range 97 122 c || in_range 65 90 c || in_range 48 57 c.

Fixpoint last_underscore (p : list Z) : option nat :=
  match p with
  | [] => None
  | c :: p => match last_underscore p with Some i => Some (S i) | None => if c =? 95 then Some 0%nat else None end
  end.

(** The ASCII characters before the last underscore, which is not the first byte, then the insertions. *)
Definition decode (p : list Z) : option (list Z) :=
  if forallb identifier_byte p then
    match last_underscore p with
    | None => insertions (length p) p 128 0 72 []
    | Some 0%nat => None
    | Some u => let rest := skipn (S u) p in insertions (length rest) rest 128 0 72 (firstn u p)
    end
  else None.

End Rfc3492.

Definition utf8 (cps : list Z) : list Z := flat_map utf8_bytes cps.

(** ** The arithmetic does not wrap *)
Lemma base36_range c : DigitValue c = -1 \/ 0 <= DigitValue c < 36.
Proof.
  unfold DigitValue, in_range. repeat match goal with |- context [if (?a <=? c) && (c <=? ?b) then _ else _] =>
    destruct (Z.leb_spec a c), (Z.leb_spec c b); cbn [andb]; try (right; lia) end; left; reflexivity.
Qed.

Lemma threshold_spec k bias : 36 <= k < 2 ^ 31 -> 0 <= bias < 2 ^ 20 -> threshold k bias = Rfc3492.threshold k bias /\ 1 <= Rfc3492.threshold k bias <= 26.
Proof.
  intros K B. unfold threshold, Rfc3492.threshold, kTMin, kTMax. rewrite !(wrapu_small 32 (bias + _)) by lia.
  rewrite Z.geb_leb. destruct (Z.leb_spec k (bias + 1)); [lia|]. destruct (Z.leb_spec (bias + 26) k); [lia|]. rewrite wrapu_small by lia. lia.
Qed.

(** [w] is at least ten to the number of digits read, so few digits are. *)
Lemma scan_digits_spec : forall p s w bias i, 0 <= s -> 10 ^ s <= w <= 35 * 2 ^ 30 -> 0 <= bias < 2 ^ 20 -> 0 <= i <= 2 ^ 30 ->
  scan_digits p w (36 * (s + 1)) bias i = Rfc3492.add_delta p w (36 * (s + 1)) bias i.
Proof.
  induction p as [|c p IH]; intros s w bias i S0 W B I; [reflexivity|]. cbn [scan_digits Rfc3492.add_delta]. cbv zeta.
  assert (P : 0 < 10 ^ s) by (apply Z.pow_pos_nonneg; lia).
  destruct (Z.ltb_spec (DigitValue c) 0) as [N|N]; [reflexivity|]. destruct (base36_range c) as [D|D]; [lia|].
  rewrite (wrapu_small 64 (DigitValue c * w)), (wrapu_small 64) by nia. change kMaxI with (2 ^ 30).
  rewrite !Z.gtb_ltb. destruct (Z.ltb_spec (2 ^ 30) (i + DigitValue c * w)) as [G|G]; [reflexivity|].
  rewrite (wrapu_small 32) by nia. destruct (Z.eq_dec (DigitValue c) 0) as [E0|E0].
  - assert (T1 : forall t, 1 <= t -> (DigitValue c <? t) = true) by (intros; apply Z.ltb_lt; lia).
    assert (Tm : 1 <= threshold (36 * (s + 1)) bias /\ 1 <= Rfc3492.threshold (36 * (s + 1)) bias).
    { unfold threshold, Rfc3492.threshold, kTMin, kTMax. rewrite !(wrapu_small 32 (bias + _)) by lia.
      destruct (Z.leb_spec (36 * (s + 1)) (bias + 1)); [lia|]. rewrite Z.geb_leb. destruct (Z.leb_spec (bias + 26) (36 * (s + 1))); [lia|]. rewrite wrapu_small by lia. lia. }
    now rewrite !T1 by apply Tm.
  - assert (S9 : s < 10).
    { apply Z.nle_gt. intros S10. assert (10 ^ 10 <= 10 ^ s) by (apply Z.pow_le_mono_r; lia). nia. }
    destruct (threshold_spec (36 * (s + 1)) bias) as (-> & T); [lia|exact B|].
    set (t := Rfc3492.threshold (36 * (s + 1)) bias) in *. destruct (Z.ltb_spec (DigitValue c) t) as [L|L]; [reflexivity|].
    rewrite (wrapu_small 32 (kBase - t)) by (unfold kBase; lia). rewrite (wrapu_small 64) by (unfold kBase; nia).
    rewrite (wrapu_small 32) by (unfold kBase; lia). unfold kBase. replace (36 * (s + 1) + 36) with (36 * (s + 1 + 1)) by lia.
    apply IH; [lia| |exact B|nia]. rewrite Z.pow_add_r by lia. change (10 ^ 1) with 10. nia.
Qed.

Lemma add_delta_shrinks : forall p w k bias i i' rest, Rfc3492.add_delta p w k bias i = Some (i', rest) -> (length rest < length p)%nat.
Proof.
  induction p as [|c p IH]; intros w k bias i i' rest E; [discriminate|]. cbn [Rfc3492.add_delta] in E. destruct (_ <? 0); [discriminate|]. destruct (_ >? _); [discriminate|].
  destruct (_ <? _); [injection E as _ <-; cbn; lia|]. apply IH in E. cbn. lia.
Qed.

Lemma add_delta_range : forall p w k bias i i' rest, 0 <= i <= 2 ^ 30 -> 0 < w -> Rfc3492.add_delta p w k bias i = Some (i', rest) -> i <= i' <= 2 ^ 30.
Proof.
  induction p as [|c p IH]; intros w k bias i i' rest I W E; [discriminate|]. cbn [Rfc3492.add_delta] in E. rewrite Z.gtb_ltb in E.
  destruct (Z.ltb_spec (DigitValue c) 0); [discriminate|]. destruct (Z.ltb_spec (2 ^ 30) (i + DigitValue c * w)); [discriminate|].
  destruct (_ <? _); [injection E as <- _; nia|]. assert (T : Rfc3492.threshold k bias <= 26) by
    (unfold Rfc3492.threshold; rewrite Z.geb_leb; destruct (Z.leb_spec k (bias + 1)); [lia|]; destruct (Z.leb_spec (bias + 26) k); lia).
  apply IH in E; nia.
Qed.

Lemma bias_loop_spec : forall f delta b g, 0 <= delta < 455 * 35 ^ Z.of_nat f -> (f <= g)%nat -> 0 <= b -> b + 36 * Z.of_nat f < 2 ^ 20 ->
  bias_loop f delta b = Some (Rfc3492.scale g delta b) /\ 0 <= fst (Rfc3492.scale g delta b) <= 455 /\ b <= snd (Rfc3492.scale g delta b) <= b + 36 * Z.of_nat f.
Proof.
  induction f as [|f IH]; intros delta b g D G B Bf; cbn [bias_loop]; change (((kBase -[32] kTMin) *[32] kTMax) / 2) with 455; change (kBase -[32] kTMin) with 35.
  - cbn in D. assert (E : Rfc3492.scale g delta b = (delta, b)).
    { destruct g; [reflexivity|]. cbn. rewrite Z.gtb_ltb, (proj2 (Z.ltb_ge _ _)) by lia. reflexivity. }
    rewrite E, Z.gtb_ltb, (proj2 (Z.ltb_ge _ _)) by lia. split; [reflexivity|]. cbn. lia.
  - destruct g as [|g]; [lia|]. cbn [Rfc3492.scale]. rewrite Z.gtb_ltb. destruct (Z.ltb_spec 455 delta) as [L|L].
    + rewrite wrapu_small by (unfold kBase; lia). unfold kBase. rewrite Nat2Z.inj_succ, Z.pow_succ_r in D by lia.
      destruct (IH (delta / 35) (b + 36) g) as (E & R1 & R2); [split; [apply Z.div_pos; lia|apply Z.div_lt_upper_bound; lia]|lia|lia|lia|].
      repeat split; [exact E|lia|lia|lia|lia].
    + split; [reflexivity|]. cbn. lia.
Qed.

Lemma new_bias_spec i old num : 0 <= old <= i -> i <= 2 ^ 30 -> 0 <= num < 2 ^ 31 ->
  new_bias i old num = Some (Rfc3492.adapt (i - old) (num + 1) (old =? 0)) /\ 0 <= Rfc3492.adapt (i - old) (num + 1) (old =? 0) < 2 ^ 20.
Proof.
  intros O I N. unfold new_bias, Rfc3492.adapt. cbv zeta. rewrite (wrapu_small 32 (i - old)), (wrapu_small 32 (num + 1)) by lia.
  set (d0 := (i - old) / (if old =? 0 then 700 else 2)). change kDamp with 700. fold d0.
  assert (D0 : 0 <= d0 <= 2 ^ 29) by (unfold d0; destruct (old =? 0); split; try (apply Z.div_pos; lia); apply Z.div_le_upper_bound; lia).
  assert (D1 : 0 <= d0 / (num + 1) <= d0) by (split; [apply Z.div_pos; lia|apply Z.div_le_upper_bound; nia]).
  rewrite (wrapu_small 32 (d0 + d0 / (num + 1))) by lia. set (d := d0 + d0 / (num + 1)).
  destruct (bias_loop_spec 8 d 0 64) as (-> & R1 & R2); [unfold d; assert (2 ^ 30 < 455 * 35 ^ Z.of_nat 8) by reflexivity; lia|lia|lia|lia|].
  destruct (Rfc3492.scale 64 d 0) as (delta, k). cbn [fst snd obind] in *. change (Z.of_nat 8) with 8 in R2. change ((kBase -[32] kTMin) +[32] 1) with 36.
  rewrite (wrapu_small 32 (36 * delta)), (wrapu_small 32 (delta + kSkew)) by (unfold kSkew; lia). change kSkew with 38.
  assert (Q : 0 <= 36 * delta / (delta + 38) <= 36) by (split; [apply Z.div_pos; lia|apply Z.div_le_upper_bound; lia]).
  rewrite wrapu_small by lia. split; [reflexivity|lia].
Qed.

Lemma Utf8ForCodePoint_spec c : 0 <= c -> Utf8ForCodePoint c = if scalar c then utf8_bytes c else [].
Proof.
  intros C. assert (Hv : scalar c = true -> Utf8ForCodePoint c = EncodeUTF8Char c).
  { intros S. unfold Utf8ForCodePoint, EncodeUTF8Char, kMax1ByteCodePoint, kMax2ByteCodePoint, kMax3ByteCodePoint, kMinSurrogate, kMaxSurrogate, kMaxCodePoint.
    assert (Sc : c <= 0xD7FF \/ 0xE000 <= c <= 0x10FFFF) by (unfold scalar in S; zbool; lia).
    destruct (c <=? 0x7f); [reflexivity|]. destruct (c <=? 0x7ff); [reflexivity|].
    replace ((0xd800 <=? c) && (c <=? 0xdfff)) with false by (destruct (Z.leb_spec 0xd800 c), (Z.leb_spec c 0xdfff); cbn; lia).
    destruct (c <=? 0xffff); [reflexivity|]. rewrite Z.gtb_ltb, (proj2 (Z.ltb_ge 0x10ffff c)) by lia. reflexivity. }
  destruct (scalar c) eqn:S.
  - rewrite Hv, EncodeUTF8Char_bytes; [reflexivity| |reflexivity]. unfold scalar in S. zbool. lia.
  - unfold Utf8ForCodePoint, kMax1ByteCodePoint, kMax2ByteCodePoint, kMax3ByteCodePoint, kMinSurrogate, kMaxSurrogate, kMaxCodePoint.
    assert (Sc : 0xD800 <= c <= 0xDFFF \/ 0x10FFFF < c).
    { unfold scalar in S. destruct (Z.leb_spec 0 c), (Z.leb_spec c 0xD7FF), (Z.leb_spec 0xE000 c), (Z.leb_spec c 0x10FFFF); cbn in S; try discriminate; lia. }
    rewrite (proj2 (Z.leb_gt c 0x7f)), (proj2 (Z.leb_gt c 0x7ff)) by lia. destruct (Z.leb_spec 0xd800 c), (Z.leb_spec c 0xdfff); cbn [andb]; try reflexivity; try lia.
    rewrite (proj2 (Z.leb_gt c 0xffff)), Z.gtb_ltb, (proj2 (Z.ltb_lt 0x10ffff c)) by lia. reflexivity.
Qed.

(** ** Inserting the bytes of a code point *)
Definition ulen (c : Z) : Z := Z.of_nat (length (utf8_bytes c)).

Lemma ulen_range c : 1 <= ulen c <= 4.
Proof. unfold ulen, utf8_bytes. repeat destruct (_ <=? _); cbn; lia. Qed.

Lemma utf8_app a b : utf8 (a ++ b) = utf8 a ++ utf8 b.
Proof. apply flat_map_app. Qed.

Lemma utf8_size cps : Z.of_nat (length (utf8 cps)) = zsum (map ulen cps).
Proof. induction cps as [|c cps IH]; [reflexivity|]. cbn [utf8 flat_map map]. rewrite length_app, Nat2Z.inj_add. change (zsum (ulen c :: map ulen cps)) with (ulen c + zsum (map ulen cps)). fold (utf8 cps). rewrite IH. reflexivity. Qed.

(** The buffer holds the text, a NUL and what was there. *)
Definition holds (out0 : list Z) (cps : list Z) (out : list Z) : Prop :=
  out = utf8 cps ++ 0 :: skipn (S (length (utf8 cps))) out0 /\ (S (length (utf8 cps)) <= length out0)%nat.

Lemma holds_length out0 cps out : holds out0 cps out -> length out = length out0.
Proof. intros (-> & L). rewrite length_app. cbn [length]. rewrite length_skipn. lia. Qed.

Lemma holds_insert out0 cps out j c : holds out0 cps out -> (j <= length cps)%nat -> (S (length (utf8 cps)) + length (utf8_bytes c) <= length out0)%nat ->
  let n_index := Z.of_nat (length (utf8 (firstn j cps))) in
  exists out1 out2, memmove out (n_index + ulen c) n_index (Z.of_nat (length (utf8 cps)) + 1 - n_index) = Some out1 /\
    store out1 n_index (utf8_bytes c) = Some out2 /\ holds out0 (Rfc3492.insert j c cps) out2.
Proof.
  intros H J L n_index. pose proof (holds_length _ _ _ H) as Lo. destruct H as (-> & L0). set (A := utf8 (firstn j cps)) in *. set (B := utf8 (skipn j cps)).
  assert (EU : utf8 cps = A ++ B) by (unfold A, B; now rewrite <- utf8_app, firstn_skipn). rewrite EU in *. rewrite length_app in *.
  clear Lo. set (T := skipn (S (length A + length B)) out0).
  assert (LT : length T = (length out0 - S (length A + length B))%nat) by (unfold T; apply length_skipn).
  unfold memmove, n_index, ulen. rewrite (proj2 (Z.leb_le _ _)) by (rewrite !length_app; cbn [length]; lia).
  rewrite <- app_assoc. cbn [app]. replace (Z.to_nat (Z.of_nat (length A + length B) + 1 - Z.of_nat (length A))) with (S (length B)) by lia. rewrite Nat2Z.id.
  rewrite skipn_app, skipn_all, Nat.sub_diag. cbn [skipn app]. replace (firstn (S (length B)) (B ++ 0 :: T)) with (B ++ [0]).
  2: { rewrite firstn_app, firstn_all2 by lia. replace (S (length B) - length B)%nat with 1%nat by lia. reflexivity. }
  rewrite <- Nat2Z.inj_add. rewrite store_spec by (rewrite !length_app; cbn [length]; lia).
  eexists _, _. split; [reflexivity|]. set (b := utf8_bytes c) in *.
  assert (E1 : firstn (length A + length b) (A ++ B ++ 0 :: T) ++ (B ++ [0]) ++ skipn (length A + length b + length (B ++ [0])) (A ++ B ++ 0 :: T) =
    A ++ firstn (length b) (B ++ 0 :: T) ++ (B ++ [0]) ++ skipn (length b) T).
  { rewrite firstn_app_2, <- app_assoc. do 3 f_equal. rewrite length_app. cbn [length].
    replace (length A + length b + (length B + 1))%nat with (length A + (length B + S (length b)))%nat by lia.
    rewrite skipn_app, (skipn_all2 A) by lia. cbn [app]. replace (length A + (length B + S (length b)) - length A)%nat with (length B + S (length b))%nat by lia.
    rewrite skipn_app, (skipn_all2 B) by lia. cbn [app]. replace (length B + S (length b) - length B)%nat with (S (length b)) by lia. reflexivity. }
  rewrite E1. split.
  - rewrite store_spec; [reflexivity|]. rewrite !length_app, length_firstn, !length_app, length_skipn. cbn [length]. rewrite LT. lia.
  - unfold holds, Rfc3492.insert. rewrite !utf8_app. change (utf8 (c :: skipn j cps)) with (b ++ B). fold A. rewrite !length_app. split; [|lia].
    rewrite firstn_app, firstn_all2, Nat.sub_diag by lia. cbn [firstn]. rewrite app_nil_r, <- !app_assoc. do 2 f_equal.
    rewrite skipn_app, (skipn_all2 A) by lia. cbn [app]. replace (length A + length b - length A)%nat with (length b) by lia.
    rewrite skipn_app, skipn_all2 by (rewrite length_firstn; lia). rewrite length_firstn, length_app. cbn [length app].
    fold b. replace (length A + length b - length A - Init.Nat.min (length b) (length B + S (length T)))%nat with 0%nat by lia. cbn [skipn].
    unfold T, b. rewrite skipn_skipn.
    replace (length (utf8_bytes c) + S (length A + length B))%nat with (S (length A + (length (utf8_bytes c) + length B))) by lia. reflexivity.
Qed.

Lemma ScanNextDelta_spec p bias i : 0 <= bias < 2 ^ 20 -> 0 <= i <= 2 ^ 30 -> ScanNextDelta p bias i = Rfc3492.add_delta p 1 36 bias i.
Proof. intros B I. apply (scan_digits_spec p 0 1 bias i); [lia|change (10 ^ 0) with 1; lia|exact B|exact I]. Qed.

(** ** The loop *)
Record sim (out0 : list Z) (s : State) (cps : list Z) : Prop := {
  s_n : 128 <= n_ s <= 0x10ffff;
  s_i : 0 <= i_ s <= Z.of_nat (length cps);
  s_bias : 0 <= bias_ s < 2 ^ 20;
  s_chars : num_chars s = Z.of_nat (length cps);
  s_total : total_utf8_bytes s = Z.of_nat (length (utf8 cps));
  s_lengths : represents kMaxChars (utf8_lengths s) (map ulen cps);
  s_out : holds out0 cps (out_ s)
}.

Lemma predecessors_firstn i (l : list Z) : (i <= length l)%nat -> predecessors_of i l = firstn i l.
Proof. intros L. unfold predecessors_of. rewrite firstn_app. replace (i - length l)%nat with 0%nat by lia. cbn [firstn]. apply app_nil_r. Qed.

Lemma insert_at_map j c cps : (j <= length cps)%nat -> insert_at j (ulen c) (map ulen cps) = map ulen (Rfc3492.insert j c cps).
Proof. intros J. unfold insert_at, Rfc3492.insert. rewrite predecessors_firstn by (now rewrite length_map). rewrite map_app. cbn [map]. now rewrite firstn_map, skipn_map. Qed.

Lemma insert_length j c cps : (j <= length cps)%nat -> length (Rfc3492.insert j c cps) = S (length cps).
Proof. intros J. unfold Rfc3492.insert. rewrite length_app. cbn [length]. rewrite length_firstn, length_skipn. lia. Qed.

Lemma insert_utf8_length j c cps : length (utf8 (Rfc3492.insert j c cps)) = (length (utf8 cps) + length (utf8_bytes c))%nat.
Proof.
  unfold Rfc3492.insert. rewrite utf8_app. change (utf8 (c :: skipn j cps)) with (utf8_bytes c ++ utf8 (skipn j cps)).
  rewrite <- (firstn_skipn j cps) at 3. rewrite utf8_app, !length_app. lia.
Qed.

Lemma insertions_grow : forall fuel p n i bias cps cps', Rfc3492.insertions fuel p n i bias cps = Some cps' -> (length (utf8 cps) <= length (utf8 cps'))%nat.
Proof.
  induction fuel as [|fuel IH]; intros p n i bias cps cps' E; cbn [Rfc3492.insertions] in E; (destruct p as [|c p]; [injection E as <-; lia|]); [discriminate|].
  destruct (_ >=? _); [discriminate|]. destruct (Rfc3492.add_delta _ _ _ _ _) as [(i', rest)|]; [|discriminate]. cbv zeta in E. destruct (scalar _); [|discriminate].
  apply IH in E. rewrite insert_utf8_length in E. lia.
Qed.

Section Loop.
Context (out0 : list Z) (Small : Z.of_nat (length out0) < 2 ^ 31).

(** One round: the scan fails, the code point is not valid or does not fit, or it is inserted. *)
Lemma decode_step_spec s cps : sim out0 s cps ->
  match (if Z.of_nat (length cps) >=? 256 then None else Rfc3492.add_delta (punycode s) 1 36 (bias_ s) (i_ s)) with
  | None => decode_step (Z.of_nat (length out0)) s = Some Failed
  | Some (i', rest) =>
    let numpoints := Z.of_nat (length cps) + 1 in
    let n := n_ s + i' / numpoints in
    let j := i' mod numpoints in
    if scalar n then
      if (S (length (utf8 (Rfc3492.insert (Z.to_nat j) n cps))) <=? length out0)%nat then
        exists s', decode_step (Z.of_nat (length out0)) s = Some (Done s') /\ sim out0 s' (Rfc3492.insert (Z.to_nat j) n cps) /\
          punycode s' = rest /\ n_ s' = n /\ i_ s' = j + 1 /\ bias_ s' = Rfc3492.adapt (i' - i_ s) numpoints (i_ s =? 0)
      else decode_step (Z.of_nat (length out0)) s = Some Failed
    else decode_step (Z.of_nat (length out0)) s = Some Failed
  end.
Proof.
  intros [N I B C T R H]. unfold decode_step. rewrite C. change (Z.of_nat (length cps) >=? kMaxChars) with (Z.of_nat (length cps) >=? 256). destruct (Z.of_nat (length cps) >=? 256) eqn:Full; [reflexivity|].
  rewrite Z.geb_leb in Full. apply Z.leb_gt in Full. rewrite ScanNextDelta_spec by lia.
  destruct (Rfc3492.add_delta (punycode s) 1 36 (bias_ s) (i_ s)) as [(i', rest)|] eqn:Ad; [|reflexivity].
  apply add_delta_range in Ad; [|lia|lia]. cbv zeta. destruct (new_bias_spec i' (i_ s) (Z.of_nat (length cps))) as (-> & Bn); [lia|lia|lia|]. cbn [obind].
  rewrite (wrapu_small 32 (Z.of_nat (length cps) + 1)) by lia. set (np := Z.of_nat (length cps) + 1) in *.
  assert (Q : 0 <= i' / np <= 2 ^ 30) by (split; [apply Z.div_pos; lia|apply Z.div_le_upper_bound; nia]).
  rewrite (wrapu_small 32 (n_ s + i' / np)) by lia. set (n := n_ s + i' / np) in *. pose proof (Z.mod_pos_bound i' np ltac:(lia)) as J. set (j := i' mod np) in *.
  rewrite Utf8ForCodePoint_spec by lia. destruct (scalar n) eqn:Sc; [|reflexivity]. fold (ulen n). pose proof (ulen_range n) as U.
  rewrite (proj2 (Z.eqb_neq _ _)) by lia. destruct H as (Ho & Lo). pose proof (insert_utf8_length (Z.to_nat j) n cps) as Lu. unfold ulen in U.
  rewrite T, (wrapu_small 32 (Z.of_nat (length (utf8 cps)) + ulen n)), (wrapu_small 32) by (unfold ulen; lia). rewrite Lu, Z.gtb_ltb.
  destruct (Nat.leb_spec (S (length (utf8 cps) + length (utf8_bytes n))) (length out0)) as [Fit|Nf].
  - rewrite (proj2 (Z.ltb_ge _ _)) by (unfold ulen; lia).
    destruct (insert_represents kMaxChars (utf8_lengths s) (map ulen cps) j (ulen n)) as (rep' & -> & R'); [unfold kMaxChars; lia|exact R|unfold kMaxChars; lia|unfold ulen; lia|].
    cbn [obind]. rewrite predecessors_firstn, firstn_map, <- utf8_size by (rewrite length_map; lia).
    destruct (holds_insert out0 cps (out_ s) (Z.to_nat j) n) as (o1 & o2 & -> & E2 & Ho2); [split; assumption|lia|lia|]. cbn [obind]. rewrite E2. cbn [obind].
    rewrite (wrapu_small 32 (j + 1)) by lia. eexists. split; [reflexivity|]. cbn [punycode n_ i_ bias_]. repeat apply conj; try reflexivity.
    split; cbn; try assumption; try lia.
    + unfold scalar in Sc. assert (n <= 0x10ffff) by (destruct (Z.leb_spec n 0x10ffff); [assumption|rewrite (proj2 (Z.leb_gt n 0xD7FF)) in Sc by lia; rewrite !andb_false_r in Sc; discriminate]). lia.
    + rewrite insert_length by lia. lia.
    + rewrite insert_length by lia. unfold np. lia.
    + rewrite Lu. unfold ulen. lia.
    + rewrite <- insert_at_map by lia. exact R'.
  - rewrite (proj2 (Z.ltb_lt _ _)) by (unfold ulen; lia). reflexivity.
Qed.

Lemma decode_loop_spec : forall fuel s cps, (length (punycode s) <= fuel)%nat -> sim out0 s cps ->
  match Rfc3492.insertions fuel (punycode s) (n_ s) (i_ s) (bias_ s) cps with
  | Some cps' =>
    if (S (length (utf8 cps')) <=? length out0)%nat then exists s', decode_loop fuel (Z.of_nat (length out0)) s = Some (Done s') /\ sim out0 s' cps'
    else decode_loop fuel (Z.of_nat (length out0)) s = Some Failed
  | None => decode_loop fuel (Z.of_nat (length out0)) s = Some Failed
  end.
Proof.
  induction fuel as [|fuel IH]; intros s cps L S; destruct (punycode s) as [|c p] eqn:P; try (cbn in L; lia).
  1, 2: (cbn [Rfc3492.insertions decode_loop]; rewrite P; destruct S as [? ? ? ? ? ? (? & Fit)]; rewrite (proj2 (Nat.leb_le _ _)) by exact Fit; exists s; split; [reflexivity|now split]).
  pose proof (decode_step_spec s cps S) as Step. cbn [Rfc3492.insertions decode_loop]. rewrite P in *.
  destruct (Z.of_nat (length cps) >=? 256); [now rewrite Step|]. destruct (Rfc3492.add_delta (c :: p) 1 36 (bias_ s) (i_ s)) as [(i', rest)|] eqn:Ad; [|now rewrite Step].
  cbv zeta in *. set (np := Z.of_nat (length cps) + 1) in *. destruct (scalar (n_ s + i' / np)); [|now rewrite Step].
  set (cps1 := Rfc3492.insert (Z.to_nat (i' mod np)) (n_ s + i' / np) cps) in *. destruct (Nat.leb_spec (Datatypes.S (length (utf8 cps1))) (length out0)) as [Fit|Nf].
  - destruct Step as (s' & -> & S' & Pr & En & Ei & Eb). cbn [obind]. apply add_delta_shrinks in Ad. specialize (IH s' cps1). rewrite Pr, En, Ei, Eb in IH.
    apply IH; [cbn in L, Ad; lia|exact S'].
  - rewrite Step. cbn [obind]. destruct (Rfc3492.insertions fuel rest _ _ _ cps1) as [cps'|] eqn:Ins; [|reflexivity]. apply insertions_grow in Ins.
    rewrite (proj2 (Nat.leb_gt _ _)) by lia. reflexivity.
Qed.
End Loop.

(** ** The ASCII prefix *)
Lemma find_underscore_spec : forall p i last, find_underscore i last p =
  if forallb Rfc3492.identifier_byte p then Some (match Rfc3492.last_underscore p with Some u => i + Z.of_nat u | None => last end) else None.
Proof.
  induction p as [|c p IH]; intros i last; [reflexivity|]. cbn [find_underscore forallb Rfc3492.last_underscore]. unfold Rfc3492.identifier_byte at 1.
  destruct (Z.eqb_spec c 95) as [->|N]; cbn [orb andb].
  - rewrite IH. destruct (forallb _ p); [|reflexivity]. f_equal. destruct (Rfc3492.last_underscore p); lia.
  - destruct (in_range 97 122 c || in_range 65 90 c || in_range 48 57 c); cbn [andb]; [|reflexivity]. rewrite IH. destruct (forallb _ p); [|reflexivity]. f_equal.
    destruct (Rfc3492.last_underscore p); lia.
Qed.

Lemma last_underscore_lt : forall p u, Rfc3492.last_underscore p = Some u -> (u < length p)%nat.
Proof.
  induction p as [|c p IH]; intros u E; [discriminate|]. cbn in E. destruct (Rfc3492.last_underscore p) as [v|]; [injection E as <-; specialize (IH v eq_refl); cbn; lia|].
  destruct (c =? 95); [injection E as <-; cbn; lia|discriminate].
Qed.

Lemma identifier_ascii c : Rfc3492.identifier_byte c = true -> 0 <= c <= 0x7f.
Proof.
  unfold Rfc3492.identifier_byte, in_range. destruct (Z.eqb_spec c 95); [lia|]. cbn [orb].
  repeat match goal with |- context [(?a <=? c) && (c <=? ?b)] => destruct (Z.leb_spec a c), (Z.leb_spec c b); cbn [andb orb] end; intros E; try discriminate; lia.
Qed.

Lemma ascii_utf8 p : Forall (fun c => 0 <= c <= 0x7f) p -> utf8 p = p /\ map ulen p = repeat 1 (length p).
Proof.
  induction 1 as [|c p C _ (IH1 & IH2)]; [split; reflexivity|]. cbn [utf8 flat_map map length repeat]. fold (utf8 p). rewrite IH1, IH2.
  unfold ulen, utf8_bytes. rewrite (proj2 (Z.leb_le c 0x7f)) by lia. split; reflexivity.
Qed.

Lemma ones_represented n : represents kMaxChars (empty_sequence kMaxChars) (repeat 1 n).
Proof.
  destruct (empty_represents kMaxChars) as (Ok & El); [unfold kMaxChars; lia|reflexivity|]. split; [exact Ok|]. intros k K. rewrite El by exact K.
  destruct (nth_in_or_default (Z.to_nat k) (repeat 1 n) 1) as [I|E]; [apply repeat_spec in I; rewrite I|rewrite E]; now destruct (Z.to_nat k).
Qed.

Lemma start_sim out0 out p ascii : Forall (fun c => 0 <= c <= 0x7f) ascii -> holds out0 ascii out ->
  sim out0 (mk_state p 128 0 72 (Z.of_nat (length ascii)) (Z.of_nat (length ascii)) (empty_sequence kMaxChars) out) ascii.
Proof.
  intros F H. destruct (ascii_utf8 ascii F) as (U & M). split; cbn; try lia; try assumption; [now rewrite U|]. rewrite M. apply ones_represented.
Qed.

(** The ASCII characters are copied in front of a NUL. *)
Lemma copy_prefix out0 out ascii : holds out0 [] out -> Forall (fun c => 0 <= c <= 0x7f) ascii -> (S (length ascii) <= length out0)%nat ->
  exists out1 out2, store out 0 ascii = Some out1 /\ write out1 (Z.of_nat (length ascii)) 0 = Some out2 /\ holds out0 ascii out2.
Proof.
  intros H F L. pose proof (holds_length _ _ _ H) as Lo. destruct H as (-> & _). destruct (ascii_utf8 ascii F) as (U & _).
  set (o := utf8 [] ++ 0 :: skipn (S (length (utf8 []))) out0) in *.
  replace (store o 0 ascii) with (store o (Z.of_nat 0) ascii) by reflexivity. rewrite store_spec by lia. cbn [firstn app Nat.add]. eexists _, _. split; [reflexivity|]. split.
  - rewrite write_store, store_spec by (rewrite length_app, length_skipn; cbn [length]; lia). reflexivity.
  - unfold holds. rewrite U. split; [|exact L]. rewrite firstn_app, firstn_all, Nat.sub_diag. cbn [firstn length app]. rewrite app_nil_r. f_equal.
    rewrite skipn_app, skipn_all2 by lia. cbn [app]. replace (length ascii + 1 - length ascii)%nat with 1%nat by lia. f_equal. rewrite skipn_skipn.
    replace (1 + length ascii)%nat with (S (length ascii)) by lia. destruct out0; [cbn in L; lia|reflexivity].
Qed.

(** C30: [DecodeRustPunycode] never leaves its buffers and refines the decoder of RFC 3492: it succeeds exactly when the input decodes to code points whose
    UTF-8, with a NUL, fits; the buffer then holds that text and the NUL, with what was there behind them, and the result is the
    offset of the NUL.  The index arithmetic on bytes, the two-bit lengths and the 32-bit and 64-bit integers of the source are
    exact. *)
Theorem punycode_correct input out0 : Z.of_nat (length input) < 2 ^ 31 -> Z.of_nat (length out0) < 2 ^ 31 ->
  DecodeRustPunycode input out0 = Some
    match Rfc3492.decode input with
    | Some cps =>
      if (S (length (utf8 cps)) <=? length out0)%nat
      then Done (Z.of_nat (length (utf8 cps)), utf8 cps ++ 0 :: skipn (S (length (utf8 cps))) out0)
      else Failed
    | None => Failed
    end.
Proof.
  intros Li Lo. unfold DecodeRustPunycode. destruct (Z.eqb_spec (Z.of_nat (length out0)) 0) as [E0|E0].
  { destruct (Rfc3492.decode input); [|reflexivity]. rewrite (proj2 (Nat.leb_gt _ _)) by lia. reflexivity. }
  assert (H0 : exists o, write out0 0 0 = Some o /\ holds out0 [] o).
  { rewrite write_store. change 0 with (Z.of_nat 0) at 1. rewrite store_spec by (cbn; lia). eexists. split; [reflexivity|]. split; [reflexivity|cbn; lia]. }
  destruct H0 as (o & -> & Ho). cbn [obind]. unfold ConsumeOptionalAsciiPrefix, Rfc3492.decode. rewrite find_underscore_spec.
  destruct (forallb Rfc3492.identifier_byte input) eqn:Id; [|reflexivity].
  assert (Fin : forall p ascii o', Forall (fun c => 0 <= c <= 0x7f) ascii -> holds out0 ascii o' ->
    (do r <- decode_loop (length p) (Z.of_nat (length out0)) (mk_state p 128 0 72 (Z.of_nat (length ascii)) (Z.of_nat (length ascii)) (empty_sequence kMaxChars) o');
     match r with Failed => Some Failed | Done s => Some (Done (total_utf8_bytes s, out_ s)) end) =
    Some match Rfc3492.insertions (length p) p 128 0 72 ascii with
         | Some cps => if (S (length (utf8 cps)) <=? length out0)%nat then Done (Z.of_nat (length (utf8 cps)), utf8 cps ++ 0 :: skipn (S (length (utf8 cps))) out0) else Failed
         | None => Failed
         end).
  { intros p ascii o' F H. pose proof (start_sim out0 o' p ascii F H) as S0. pose proof (fun L => decode_loop_spec out0 Lo (length p) _ ascii L S0) as Lp. specialize (Lp (le_n (length p))). cbn [punycode n_ i_ bias_] in Lp.
    destruct (Rfc3492.insertions _ p 128 0 72 ascii) as [cps|]; [|now rewrite Lp]. destruct (_ <=? _)%nat; [|now rewrite Lp]. destruct Lp as (s' & -> & S'). cbn [obind].
    rewrite (s_total _ _ _ S'). destruct (s_out _ _ _ S') as (-> & _). reflexivity. }
  destruct (Rfc3492.last_underscore input) as [u|] eqn:Lu; [|cbn [Z.ltb Z.compare obind]; apply (Fin input [] o); [constructor|exact Ho]].
  pose proof (last_underscore_lt input u Lu) as Ul. rewrite Z.add_0_l, (proj2 (Z.ltb_ge _ _)) by lia. destruct u as [|u]; [reflexivity|].
  rewrite (proj2 (Z.eqb_neq _ _)) by lia. rewrite (holds_length _ _ _ Ho).
  set (ascii := firstn (S u) input). assert (La : length ascii = S u) by (unfold ascii; rewrite length_firstn; lia).
  assert (Fa : Forall (fun c => 0 <= c <= 0x7f) ascii).
  { apply Forall_forall. intros c Hc. apply identifier_ascii. rewrite forallb_forall in Id. apply Id. unfold ascii in Hc. rewrite <- (firstn_skipn (S u) input). apply in_or_app. now left. }
  rewrite Z.gtb_ltb. destruct (Z.ltb_spec (Z.of_nat (length out0)) (Z.of_nat (S u) + 1)) as [Nf|Fit].
  - cbn [obind]. destruct (Rfc3492.insertions _ _ _ _ _ ascii) as [cps|] eqn:Ins; [|reflexivity]. apply insertions_grow in Ins.
    rewrite (proj1 (ascii_utf8 ascii Fa)), La in Ins. rewrite (proj2 (Nat.leb_gt _ _)) by lia. reflexivity.
  - cbv zeta. rewrite Nat2Z.id. fold ascii. destruct (copy_prefix out0 o ascii Ho Fa) as (o1 & o2 & -> & E2 & H2); [lia|]. cbn [obind].
    rewrite <- La, E2. cbn [obind]. rewrite La. replace (Z.to_nat (Z.of_nat (S u) + 1)) with (S (S u)) by lia. rewrite <- La. now apply Fin.
Qed.

(** "bcher_kva" is the Punycode of "bücher". *)
Definition sample_input : list Z := [98; 99; 104; 101; 114; 95; 107; 118; 97].

Lemma punycode_correct_witness :
  Rfc3492.decode sample_input = Some [98; 0xfc; 99; 104; 101; 114] /\
  DecodeRustPunycode sample_input (repeat 1 9) = Some (Done (7, [98; 195; 188; 99; 104; 101; 114; 0; 1])) /\
  DecodeRustPunycode sample_input (repeat 1 7) = Some Failed.
Proof.
  split; [vm_compute; reflexivity|]. split.
  - rewrite (punycode_correct sample_input (repeat 1 9)) by (vm_compute; reflexivity). vm_compute. reflexivity.
  - rewrite (punycode_correct sample_input (repeat 1 7)) by (vm_compute; reflexivity). vm_compute. reflexivity.
Defined.

(** The limit on the number of characters is only checked before an insertion: a text of ASCII characters alone may be longer. *)
Lemma long_ascii_accepted : exists out, DecodeRustPunycode (repeat 97 300 ++ [95]) (repeat 1 301) = Some (Done (300, out)).
Proof. eexists. vm_compute. reflexivity. Qed.
