(* ===== verification/LowLevelAlloc.v ===== *)
(** [absl/base/internal/low_level_alloc.cc]: a first-fit allocator whose free list is a skip list in address order.
    Memory is a map from the addresses of blocks to their headers and skip-list links; the layout is that of a 64-bit
    platform.  A failed check aborts the program and is [None], as is an access outside a block.  What the kernel maps
    is an argument.  Operations on an arena hold its lock, so each is one step; an allocation gives the lock up while
    it maps pages. *)
From stdpp Require Import base gmap list.
From Stdlib Require Import ZArith Lia.
From S2P Require Import Prelude Bits.
#[local] Open Scope Z_scope.
#[local] Open Scope mach_scope.

(** ** Blocks *)
Definition kMaxLevel : nat := 30.

(** [sizeof(AllocList::Header)], [offsetof(AllocList, next)] and the size of a pointer. *)
Definition sizeof_header : Z := 32.
Definition offsetof_next : Z := 40.
Definition sizeof_pointer : Z := 8.

(** [AllocList]: the header, and the skip-list data of an unallocated block. *)
Record AllocList := mk_block {
  size : Z;
  magic : Z;
  arena : Z;
  levels : nat;
  next : nat -> option Z
}.

Abbreviation Mem := (gmap Z AllocList).

Definition set_size (v : Z) (b : AllocList) : AllocList := mk_block v (magic b) (arena b) (levels b) (next b).
Definition set_magic (v : Z) (b : AllocList) : AllocList := mk_block (size b) v (arena b) (levels b) (next b).
Definition set_arena (v : Z) (b : AllocList) : AllocList := mk_block (size b) (magic b) v (levels b) (next b).
Definition set_levels (v : nat) (b : AllocList) : AllocList := mk_block (size b) (magic b) (arena b) v (next b).
Definition set_next (i : nat) (v : option Z) (b : AllocList) : AllocList :=
  mk_block (size b) (magic b) (arena b) (levels b) (fun k => if Nat.eqb k i then v else next b k).

Definition modify (m : Mem) (a : Z) (f : AllocList -> AllocList) : option Mem := do b <- m !! a; Some (<[a := f b]> m).

(** ** Skip-list levels *)
Fixpoint log2_loop (fuel : nat) (i base : Z) (result : nat) : option nat :=
  if i >? base then
    match fuel with O => None | S fuel' => log2_loop fuel' (i >> 1) base (S result) end
  else Some result.

(** 64 halvings are enough. *)
Definition IntLog2 (size base : Z) : option nat := log2_loop 64 size base 0.

(** At most [p] rounds of a loop; [inl] when it has not ended. *)
Fixpoint rounds {A B} (p : positive) (f : A -> A + B) (a : A) : A + B :=
  match p with
  | xH => f a
  | xO p => match rounds p f a with inl a => rounds p f a | inr b => inr b end
  | xI p => match f a with inl a => match rounds p f a with inl a => rounds p f a | inr b => inr b end | inr b => inr b end
  end.

Definition random_step (s : Z * nat) : (Z * nat) + (Z * nat) :=
  let '(r, result) := s in
  let r := (r *[32] 1103515245) +[32] 12345 in
  if ((r >> 30) .& 1) =? 0 then inl (r, S result) else inr (r, result).

(** The result and the new state; the generator gives a one within that many rounds. *)
Definition Random (state : Z) : option (nat * Z) :=
  match rounds (2 ^ 30 + 1) random_step (state, 1%nat) with
  | inr (r, result) => Some (result, r)
  | inl _ => None
  end.

(** [LLA_SkiplistLevels]; [random] is the state of the generator, if there is one. *)
Definition LLA_SkiplistLevels (size base : Z) (random : option Z) : option (nat * option Z) :=
  let max_fit := (size -[64] offsetof_next) / sizeof_pointer in
  do log <- IntLog2 size base;
  do (n, random) <- match random with Some s => do (n, s) <- Random s; Some (n, Some s) | None => Some (1%nat, None) end;
  let level := (log + n)%nat in
  let level := if Z.of_nat level >? max_fit then Z.to_nat max_fit else level in
  let level := if (kMaxLevel - 1 <? level)%nat then (kMaxLevel - 1)%nat else level in
  if (1 <=? level)%nat then Some (level, random) else None.

(** ** The arena *)

(** The address of its free list head, the arena itself and the page size of the system. *)
Record Params := mk_params { freelist : Z; self : Z; pagesize : Z }.

Fixpoint round_up_loop (fuel : nat) (round_up : Z) : Z :=
  match fuel with
  | O => round_up
  | S fuel' => if round_up <? sizeof_header then round_up_loop fuel' (round_up +[64] round_up) else round_up
  end.

Definition RoundedUpBlockSize : Z := round_up_loop 64 16.

Definition round_up : Z := RoundedUpBlockSize.
Definition min_size : Z := 2 *[64] round_up.

Definition kMagicAllocated : Z := 0x4c833e95.
Definition kMagicUnallocated : Z := ~[64] kMagicAllocated.
Definition Magic (magic ptr : Z) : Z := magic .^ ptr.

(** What the operations of an arena change. *)
Record State := mk_state { mem : Mem; allocation_count : Z; random : Z }.

Definition with_mem (s : State) (m : Mem) : State := mk_state m (allocation_count s) (random s).

Section Arena.
Context (P : Params).

(** [Arena::Arena]. *)
Definition new_arena (m : Mem) : State :=
  mk_state (<[freelist P := mk_block 0 (Magic kMagicUnallocated (freelist P)) (self P) 0 (fun _ => None)]> m) 0 0.

(** Whether [next[i]] of the block at [a] is inside the block; the head has all of them. *)
Definition room (a : Z) (b : AllocList) (i : nat) : bool :=
  if a =? freelist P then (i <? kMaxLevel)%nat else offsetof_next + sizeof_pointer * (Z.of_nat i + 1) <=? size b.

Definition get_next (m : Mem) (a : Z) (i : nat) : option (option Z) :=
  do b <- m !! a;
  if room a b i then Some (next b i) else None.

Definition put_next (m : Mem) (a : Z) (i : nat) (v : option Z) : option Mem :=
  do b <- m !! a;
  if room a b i then Some (<[a := set_next i v b]> m) else None.

(** ** The skip list *)

(** The inner loop of the search: from [p], the last element of the level below [e]. *)
Fixpoint walk (fuel : nat) (m : Mem) (level : nat) (p e : Z) : option Z :=
  do n <- get_next m p level;
  match n with
  | Some n => if n <? e then match fuel with O => None | S fuel' => walk fuel' m level n e end else Some p
  | None => Some p
  end.

(** [prev] from the highest level down. *)
Fixpoint search_levels (level : nat) (m : Mem) (p e : Z) (prev : list Z) : option (list Z) :=
  match level with
  | O => Some prev
  | S level =>
    do p <- walk (stdpp.base.size m) m level p e;
    search_levels level m p e (p :: prev)
  end.

(** [prev] for the levels of the list, and the first element that is not below [e]. *)
Definition LLA_SkiplistSearch (m : Mem) (e : Z) : option (list Z * option Z) :=
  do head <- m !! freelist P;
  do prev <- search_levels (levels head) m (freelist P) e [];
  match levels head with
  | O => Some (prev, None)
  | S _ => do p <- prev !! 0%nat; do n <- get_next m p 0; Some (prev, n)
  end.

(** Linking [e] at the levels from [i] on; [n] are left. *)
Fixpoint link (n i : nat) (m : Mem) (e : Z) (prev : list Z) : option Mem :=
  match n with
  | O => Some m
  | S n =>
    do p <- prev !! i;
    do v <- get_next m p i;
    do m <- put_next m e i v;
    do m <- put_next m p i (Some e);
    link n (S i) m e prev
  end.

(** The memory and [prev]. *)
Definition LLA_SkiplistInsert (m : Mem) (e : Z) : option (Mem * list Z) :=
  do (prev, _) <- LLA_SkiplistSearch m e;
  do head <- m !! freelist P;
  do b <- m !! e;
  let prev := prev ++ repeat (freelist P) (levels b - levels head) in
  do m <- modify m (freelist P) (set_levels (Nat.max (levels head) (levels b)));
  do m <- link (levels b) 0 m e prev;
  Some (m, prev).

Fixpoint unlink (n i : nat) (m : Mem) (e : Z) (prev : list Z) : option Mem :=
  match n with
  | O => Some m
  | S n =>
    do p <- prev !! i;
    do v <- get_next m p i;
    if decide (v = Some e) then
      do w <- get_next m e i;
      do m <- put_next m p i w;
      unlink n (S i) m e prev
    else Some m
  end.

(** The levels of the head that are still in use. *)
Fixpoint used_levels (n : nat) (m : Mem) : option nat :=
  match n with
  | O => Some O
  | S n' => do v <- get_next m (freelist P) n'; match v with None => used_levels n' m | Some _ => Some n end
  end.

Definition LLA_SkiplistDelete (m : Mem) (e : Z) : option (Mem * list Z) :=
  do (prev, found) <- LLA_SkiplistSearch m e;
  if decide (found = Some e) then
    do b <- m !! e;
    do m <- unlink (levels b) 0 m e prev;
    do head <- m !! freelist P;
    do n <- used_levels (levels head) m;
    do m <- modify m (freelist P) (set_levels n);
    Some (m, prev)
  else None.

(** ** Allocation and release *)
Definition CheckedAdd (a b : Z) : option Z := let sum := a +[64] b in if sum >=? a then Some sum else None.

Definition RoundUp (addr align : Z) : option Z := do sum <- CheckedAdd addr (align -[64] 1); Some (sum .& (~[64] (align -[64] 1))).

(** [Next] with its checks. *)
Definition Next (i : nat) (prev : Z) (m : Mem) : option (option Z) :=
  do p <- m !! prev;
  if (i <? levels p)%nat then
    do n <- get_next m prev i;
    match n with
    | None => Some None
    | Some a =>
      do b <- m !! a;
      if (magic b =? Magic kMagicUnallocated a) && (arena b =? self P) &&
         ((prev =? freelist P) || ((prev <? a) && (prev + size p <? a)))
      then Some (Some a) else None
    end
  else None.

(** [LLA_SkiplistLevels] with the generator of the arena. *)
Definition random_levels (s : State) (size_ : Z) : option (nat * State) :=
  do (n, r) <- LLA_SkiplistLevels size_ min_size (Some (random s));
  do r <- r;
  Some (n, mk_state (mem s) (allocation_count s) r).

Definition Coalesce (s : State) (a : Z) : option State :=
  let m := mem s in
  do ba <- m !! a;
  do n <- get_next m a 0;
  match n with
  | None => Some s
  | Some n =>
    if a + size ba =? n then
      do bn <- m !! n;
      do m <- modify m a (set_size (size ba +[64] size bn));
      do m <- modify m n (set_magic 0);
      do m <- modify m n (set_arena 0);
      do (m, _) <- LLA_SkiplistDelete m n;
      do (m, _) <- LLA_SkiplistDelete m a;
      do ba <- m !! a;
      do (lv, s) <- random_levels (with_mem s m) (size ba);
      do m <- modify (mem s) a (set_levels lv);
      do (m, _) <- LLA_SkiplistInsert m a;
      Some (with_mem s m)
    else Some s
  end.

Definition AddToFreelist (s : State) (v : Z) : option State :=
  let f := v - sizeof_header in
  do b <- mem s !! f;
  if (magic b =? Magic kMagicAllocated f) && (arena b =? self P) then
    do (lv, s) <- random_levels s (size b);
    do m <- modify (mem s) f (set_levels lv);
    do (m, prev) <- LLA_SkiplistInsert m f;
    do m <- modify m f (set_magic (Magic kMagicUnallocated f));
    do s <- Coalesce (with_mem s m) f;
    do p <- prev !! 0%nat;
    Coalesce s p
  else None.

(** [LowLevelAlloc::Free] of a block of this arena; zero is the null pointer. *)
Definition Free (s : State) (v : Z) : option State :=
  if v =? 0 then Some s
  else
    do s <- AddToFreelist s v;
    if allocation_count s >? 0 then Some (mk_state (mem s) (allocation_count s - 1) (random s)) else None.

(** The search of [DoAllocWithArena] at a level: the first block that is large enough. *)
Fixpoint first_fit (fuel : nat) (i : nat) (before req_rnd : Z) (m : Mem) : option (option Z) :=
  do s <- Next i before m;
  match s with
  | None => Some None
  | Some a =>
    do b <- m !! a;
    if size b <? req_rnd then match fuel with O => None | S fuel' => first_fit fuel' i a req_rnd m end else Some (Some a)
  end.

Definition find_region (s : State) (req_rnd : Z) : option (option Z) :=
  do (lv, _) <- LLA_SkiplistLevels req_rnd min_size None;
  let i := (lv - 1)%nat in
  do head <- mem s !! freelist P;
  if (i <? levels head)%nat then first_fit (stdpp.base.size (mem s)) i (freelist P) req_rnd (mem s) else Some None.

(** A block that was just made: its skip-list data are not initialized. *)
Definition raw_block (size_ a : Z) : AllocList := mk_block size_ (Magic kMagicAllocated a) (self P) 0 (fun _ => None).

(** New pages become a free block. *)
Definition add_region (s : State) (new_pages new_pages_size : Z) : option State :=
  AddToFreelist (with_mem s (<[new_pages := raw_block new_pages_size new_pages]> (mem s))) (new_pages + sizeof_header).

(** The block leaves the free list, and what it has too much goes back to it; the count is a signed 32-bit integer. *)
Definition take_region (s : State) (a req_rnd : Z) : option (Z * State) :=
  do (m, _) <- LLA_SkiplistDelete (mem s) a;
  do b <- m !! a;
  do bound <- CheckedAdd req_rnd min_size;
  do s <-
    if bound <=? size b then
      let n := req_rnd + a in
      let m := <[n := raw_block (size b - req_rnd) n]> m in
      do m <- modify m a (set_size req_rnd);
      AddToFreelist (with_mem s m) (n + sizeof_header)
    else Some (with_mem s m);
  do m <- modify (mem s) a (set_magic (Magic kMagicAllocated a));
  do b <- m !! a;
  do count <- checked 32 (allocation_count s + 1);
  if arena b =? self P then Some (a + sizeof_header, mk_state m count (random s)) else None.

Definition request_size (request : Z) : option Z := do n <- CheckedAdd request sizeof_header; RoundUp n round_up.

(** What an allocation comes to: a block, or it waits for pages of a size. *)
Inductive Outcome :=
| Allocated (v : Z) (s : State)
| NeedsPages (new_pages_size : Z) (s : State).

(** One round of the loop under the lock. *)
Definition attempt (s : State) (req_rnd : Z) : option Outcome :=
  do r <- find_region s req_rnd;
  match r with
  | Some a => do (v, s) <- take_region s a req_rnd; Some (Allocated v s)
  | None => do n <- RoundUp req_rnd (pagesize P *[64] 16); Some (NeedsPages n s)
  end.

(** [DoAllocWithArena]; [maps] are the addresses that successive [mmap] calls return, and what is left of them is part of the result. *)
Fixpoint alloc_loop (maps : list Z) (s : State) (req_rnd : Z) : option Outcome :=
  do r <- attempt s req_rnd;
  match r with
  | Allocated v s => Some (Allocated v s)
  | NeedsPages n s =>
    match maps with
    | [] => Some (NeedsPages n s)
    | a :: maps => do s <- add_region s a n; alloc_loop maps s req_rnd
    end
  end.

Definition DoAllocWithArena (maps : list Z) (s : State) (request : Z) : option Outcome :=
  if request =? 0 then Some (Allocated 0 s)
  else do req_rnd <- request_size request; alloc_loop maps s req_rnd.

(** The loop of [DeleteArena] over the free blocks: what is unmapped. *)
Fixpoint delete_loop (fuel : nat) (m : Mem) (released : list (Z * Z)) : option (list (Z * Z)) :=
  do n <- get_next m (freelist P) 0;
  match n with
  | None => Some released
  | Some region =>
    match fuel with
    | O => None
    | S fuel' =>
      do b <- m !! region;
      do v <- get_next m region 0;
      do m <- put_next m (freelist P) 0 v;
      if (magic b =? Magic kMagicUnallocated region) && (arena b =? self P) &&
         (size b mod pagesize P =? 0) && (region mod pagesize P =? 0)
      then delete_loop fuel' m (released ++ [(region, size b)]) else None
    end
  end.

(** [DeleteArena]: refused while there are allocations; otherwise the blocks that are unmapped. *)
Definition DeleteArena (s : State) : option (option (list (Z * Z))) :=
  if negb (allocation_count s =? 0) then Some None
  else do released <- delete_loop (stdpp.base.size (mem s)) (mem s) []; Some (Some released).

End Arena.
