(* ===== verification/SkipList.v ===== *)
(** The skip list of [absl/base/internal/low_level_alloc.cc]: a memory represents a strictly increasing list of block
    addresses when, at each level, the links from the head run through the blocks that have that level.  Search,
    insertion and deletion are those of the list. *)
From stdpp Require Import base gmap list sorting.
From Stdlib Require Import ZArith Lia.
From S2P Require Import Prelude Bits LowLevelAlloc.
#[local] Open Scope Z_scope.
#[local] Open Scope mach_scope.

(** ** Links *)
Definition link_at (m : Mem) (i : nat) (a : Z) : option Z := m !! a ≫= fun b => next b i.

Definition lv (m : Mem) (a : Z) : nat := match m !! a with Some b => levels b | None => 0%nat end.

(** From [p] the links [f] run through [l] and then on to [q]. *)
Fixpoint segment (f : Z -> option Z) (p : Z) (l : list Z) (q : option Z) : Prop :=
  match l with
  | [] => f p = q
  | a :: l => f p = Some a /\ segment f a l q
  end.

Definition last_or (p : Z) (l : list Z) : Z := List.last l p.

Lemma segment_app f p l1 a l2 q : segment f p (l1 ++ a :: l2) q <-> segment f p l1 (Some a) /\ segment f a l2 q.
Proof. revert p. induction l1 as [|b l1 IH]; intros p; cbn; [done|]. rewrite IH. tauto. Qed.

Lemma last_or_cons p a l : last_or p (a :: l) = last_or a l.
Proof. unfold last_or. destruct l as [|b l]; [done|]. cbn [List.last]. revert b. induction l as [|c l IH]; intros b; [done|apply IH]. Qed.

Lemma last_or_app p l a l' : last_or p (l ++ a :: l') = last_or a l'.
Proof. revert p. induction l as [|b l IH]; intros p; cbn [app]; rewrite last_or_cons; [done|apply IH]. Qed.

Lemma last_or_elem p l : last_or p l ∈ p :: l.
Proof. revert p. induction l as [|a l IH]; intros p; [by left|]. rewrite last_or_cons. right. apply IH. Qed.

Lemma segment_last f p l q : segment f p l q -> f (last_or p l) = q.
Proof. revert p. induction l as [|a l IH]; intros p; [done|]. rewrite last_or_cons. intros (_ & H). by apply IH. Qed.

Lemma segment_ext f g p l q : (forall a, a ∈ p :: l -> g a = f a) -> segment f p l q -> segment g p l q.
Proof.
  revert p. induction l as [|a l IH]; intros p H; cbn; [rewrite H by left; done|]. rewrite H by left. intros (E & S). split; [done|].
  apply IH; [|done]. intros b Hb. apply H. by right.
Qed.

(** The last link is redirected. *)
Lemma segment_relink f g p l q q' : NoDup (p :: l) -> (forall a, a ∈ p :: l -> a <> last_or p l -> g a = f a) -> g (last_or p l) = q' ->
  segment f p l q -> segment g p l q'.
Proof.
  revert p. induction l as [|a l IH]; intros p N H L; cbn; [done|]. rewrite last_or_cons in *. intros (E & S). apply NoDup_cons in N as (Np & N).
  split; [|apply IH; [done| |done|done]; intros b Hb; apply H; by right].
  rewrite H; [done|by left|]. intros ->. apply Np, last_or_elem.
Qed.

(** ** The representation *)

(** The blocks of [l] that have level [i], those below [e] and those above. *)
Definition at_level (m : Mem) (i : nat) (l : list Z) : list Z := filter (fun a => (i < lv m a)%nat) l.
Definition below (e : Z) (l : list Z) : list Z := filter (fun a => a < e) l.
Definition above (e : Z) (l : list Z) : list Z := filter (fun a => e <= a) l.

Section Head.
Context (P : Params).

Record node_ok (m : Mem) (a : Z) : Prop := {
  no_head : a <> freelist P;
  no_block : exists b, m !! a = Some b /\ (1 <= levels b < kMaxLevel)%nat /\ offsetof_next + sizeof_pointer * Z.of_nat (levels b) <= size b
}.

Record skiplist (m : Mem) (l : list Z) : Prop := {
  sl_sorted : StronglySorted Z.lt l;
  sl_nodes : forall a, a ∈ l -> node_ok m a;
  sl_links : forall i, (i < kMaxLevel)%nat -> segment (link_at m i) (freelist P) (at_level m i l) None;
  sl_head : exists h, m !! freelist P = Some h /\ levels h = max_list_with (lv m) l
}.

Lemma filter_empty (Q : Z -> Prop) `{!forall a, Decision (Q a)} (l : list Z) : (forall a, a ∈ l -> ~ Q a) -> filter Q l = [].
Proof.
  induction l as [|a l IH]; intros N; [done|]. rewrite filter_cons_False by (apply N; left). apply IH. intros b Hb. apply N. by right.
Qed.

Lemma filter_every (Q : Z -> Prop) `{!forall a, Decision (Q a)} (l : list Z) : (forall a, a ∈ l -> Q a) -> filter Q l = l.
Proof.
  induction l as [|a l IH]; intros N; [done|]. rewrite filter_cons_True by (apply N; left). f_equal. apply IH. intros b Hb. apply N. by right.
Qed.

Lemma sorted_nodup l : StronglySorted Z.lt l -> NoDup l.
Proof. induction 1 as [|a l _ IH F]; constructor; [|done]. intros Ha. rewrite Forall_forall in F. apply F in Ha. lia. Qed.

Lemma sorted_split l e : StronglySorted Z.lt l -> l = below e l ++ above e l.
Proof.
  induction 1 as [|a l S IH F]; [done|]. rewrite Forall_forall in F. unfold below, above. rewrite !filter_cons. destruct (decide (a < e)) as [L|L].
  - rewrite decide_False by lia. cbn. f_equal. apply IH.
  - rewrite decide_True by lia. rewrite filter_empty by (intros b Hb; apply F in Hb; lia). cbn. f_equal. symmetry. apply filter_every.
    intros b Hb. apply F in Hb. lia.
Qed.

Lemma at_level_app m i l1 l2 : at_level m i (l1 ++ l2) = at_level m i l1 ++ at_level m i l2.
Proof. apply filter_app. Qed.

Lemma elem_at_level m i l a : a ∈ at_level m i l <-> (i < lv m a)%nat /\ a ∈ l.
Proof. unfold at_level, below, above. by rewrite list_elem_of_filter. Qed.

Lemma at_level_nested m i l : at_level m (S i) l = filter (fun a => (S i < lv m a)%nat) (at_level m i l).
Proof. unfold at_level. rewrite list_filter_filter. apply list_filter_iff. intros a. lia. Qed.

Lemma elem_below e l a : a ∈ below e l <-> a < e /\ a ∈ l.
Proof. unfold at_level, below, above. by rewrite list_elem_of_filter. Qed.

Lemma elem_above e l a : a ∈ above e l <-> e <= a /\ a ∈ l.
Proof. unfold at_level, below, above. by rewrite list_elem_of_filter. Qed.

Lemma height_le m l a : a ∈ l -> (lv m a <= max_list_with (lv m) l)%nat.
Proof. induction l as [|b l IH]; intros H; [by apply elem_of_nil in H|]. cbn. apply elem_of_cons in H as [->|H]; [lia|]. apply IH in H. lia. Qed.

Lemma height_reached m l : l <> [] -> exists a, a ∈ l /\ lv m a = max_list_with (lv m) l.
Proof.
  induction l as [|b l IH]; intros H; [done|]. cbn. destruct (decide (l = [])) as [->|D].
  - exists b. split; [left|]. cbn. lia.
  - destruct (IH D) as (a & Ha & E). destruct (le_lt_dec (lv m b) (max_list_with (lv m) l)).
    + exists a. split; [by right|]. lia.
    + exists b. split; [left|]. lia.
Qed.

Lemma above_height m l i : (max_list_with (lv m) l <= i)%nat -> at_level m i l = [].
Proof. intros H. apply filter_empty. intros a Ha. pose proof (height_le m l a Ha). lia. Qed.

(** ** Search *)
Section Search.
Context (m : Mem) (l : list Z) (SL : skiplist m l) (e : Z).

Lemma node_below_max a i : a ∈ l -> (i < lv m a)%nat -> get_next P m a i = Some (link_at m i a) /\ (i < kMaxLevel)%nat.
Proof.
  intros Ha Hi. destruct (sl_nodes _ _ SL a Ha) as [Nh (b & Hb & Lb & Sb)]. unfold lv in Hi. rewrite Hb in Hi. unfold get_next, link_at. rewrite Hb. cbn.
  unfold room. rewrite (proj2 (Z.eqb_neq _ _)) by done. rewrite (proj2 (Z.leb_le _ _)); [split; [done|lia]|]. unfold offsetof_next, sizeof_pointer in *. lia.
Qed.

Lemma head_next i : (i < kMaxLevel)%nat -> get_next P m (freelist P) i = Some (link_at m i (freelist P)).
Proof.
  intros Hi. destruct (sl_head _ _ SL) as (h & Hh & _). unfold get_next, link_at. rewrite Hh. cbn. unfold room. rewrite Z.eqb_refl.
  rewrite (proj2 (Nat.ltb_lt _ _)) by done. done.
Qed.

(** A walk along a level stops at the last block below [e]. *)
Lemma walk_spec i : forall B fuel p q, segment (link_at m i) p B q -> Forall (fun a => a < e) B -> (forall a, q = Some a -> e <= a) ->
  (forall a, a ∈ p :: B -> get_next P m a i = Some (link_at m i a)) -> (length B <= fuel)%nat -> walk P fuel m i p e = Some (last_or p B).
Proof.
  induction B as [|a B IH]; intros fuel p q Sg F Q G L.
  - cbn in Sg. destruct fuel; cbn [walk]; rewrite G by left; cbn [obind]; rewrite Sg; (destruct q as [a|]; [rewrite (proj2 (Z.ltb_ge _ _)) by (by apply Q)|]; done).
  - destruct Sg as (Ep & Sg). destruct fuel as [|fuel]; [cbn in L; lia|]. cbn [walk]. rewrite G by left. cbn [obind]. rewrite Ep. apply Forall_cons in F as (Fa & F).
    rewrite (proj2 (Z.ltb_lt _ _)) by done. rewrite last_or_cons. apply (IH fuel a q); [done|done|done| |cbn in L; lia]. intros b Hb. apply G. by right.
Qed.

Definition before (i : nat) : Z := last_or (freelist P) (at_level m i (below e l)).
Definition after (i : nat) : option Z := head (at_level m i (above e l)).

Lemma level_split i : (i < kMaxLevel)%nat -> segment (link_at m i) (freelist P) (at_level m i (below e l)) (after i).
Proof.
  intros Hi. pose proof (sl_links _ _ SL i Hi) as Sg. rewrite (sorted_split l e (sl_sorted _ _ SL)), at_level_app in Sg. unfold after.
  destruct (at_level m i (above e l)) as [|a r]; [by rewrite app_nil_r in Sg|]. by apply segment_app in Sg as (Sg & _).
Qed.

Lemma after_ge i a : after i = Some a -> e <= a.
Proof. unfold after. destruct (at_level m i (above e l)) as [|b r] eqn:E; [done|]. intros [= ->]. assert (H : a ∈ at_level m i (above e l)) by (rewrite E; left).
  apply elem_at_level in H as (_ & H). by apply elem_above in H as (H & _). Qed.

Lemma below_get i a : (i < kMaxLevel)%nat -> a ∈ freelist P :: at_level m i (below e l) -> get_next P m a i = Some (link_at m i a).
Proof.
  intros Hi Ha. apply elem_of_cons in Ha as [->|Ha]; [by apply head_next|]. apply elem_at_level in Ha as (La & Ha). apply elem_below in Ha as (_ & Ha). by apply node_below_max.
Qed.

(** The walk may start where the walk of the level above ended. *)
Lemma walk_from i : (i < kMaxLevel)%nat -> forall p, (p = freelist P \/ p ∈ at_level m i (below e l)) ->
  walk P (stdpp.base.size m) m i p e = Some (before i).
Proof.
  intros Hi p Hp. set (B := at_level m i (below e l)). assert (Lm : (length B <= stdpp.base.size m)%nat).
  { rewrite <- (size_list_to_set (C := gset Z)).
    - rewrite <- (size_dom (D := gset Z) m). apply subseteq_size. intros a Ha. apply elem_of_list_to_set in Ha. apply elem_at_level in Ha as (_ & Ha). apply elem_below in Ha as (_ & Ha).
      destruct (sl_nodes _ _ SL a Ha) as [_ (b & Hb & _)]. by apply elem_of_dom_2 in Hb.
    - apply NoDup_filter, NoDup_filter. apply sorted_nodup. apply SL. }
  pose proof (level_split i Hi) as Sg. assert (F : Forall (fun a => a < e) B).
  { apply Forall_forall. intros a Ha. apply elem_at_level in Ha as (_ & Ha). by apply elem_below in Ha as (Ha & _). }
  destruct Hp as [->|Hp].
  - apply (walk_spec i B _ _ (after i)); [done|done|apply after_ge|intros a Ha; by apply below_get|done].
  - apply list_elem_of_split in Hp as (B1 & B2 & EB). fold B in EB, Sg. unfold before. fold B. rewrite EB, last_or_app. rewrite EB in Sg. apply segment_app in Sg as (_ & Sg).
    apply (walk_spec i B2 _ _ (after i)); [done| |apply after_ge| |].
    + rewrite EB in F. apply Forall_app in F as (_ & F). by apply Forall_cons in F as (_ & F).
    + intros a Ha. apply below_get; [done|]. fold B. rewrite EB. right. apply elem_of_app. by right.
    + rewrite EB, length_app in Lm. cbn in Lm. lia.
Qed.

Lemma before_cases i : before i = freelist P \/ before i ∈ at_level m i (below e l).
Proof. pose proof (last_or_elem (freelist P) (at_level m i (below e l))) as H. apply elem_of_cons in H as [H|H]; [by left|by right]. Qed.

Lemma search_levels_spec : forall n p prev, (n <= kMaxLevel)%nat ->
  (p = freelist P \/ p ∈ below e l /\ forall i, (i < n)%nat -> (i < lv m p)%nat) -> search_levels P n m p e prev = Some (map before (seq 0 n) ++ prev).
Proof.
  induction n as [|n IH]; intros p prev Hn Hp; [done|]. cbn [search_levels]. rewrite walk_from; [|lia|].
  - cbn [obind]. rewrite IH; [|lia|].
    + rewrite seq_S, map_app, <- app_assoc. done.
    + destruct (before_cases n) as [->|Hb]; [by left|right]. apply elem_at_level in Hb as (Hl & Hb). split; [done|]. intros i Hi. lia.
  - destruct Hp as [->|(Hp & Hl)]; [by left|right]. apply elem_at_level. split; [|done]. apply Hl. lia.
Qed.

Lemma at_level_zero l' : (forall a, a ∈ l' -> a ∈ l) -> at_level m 0 l' = l'.
Proof.
  intros H. apply filter_every. intros a Ha. destruct (sl_nodes _ _ SL a (H a Ha)) as [_ (b & Hb & L & _)]. unfold lv. rewrite Hb. lia.
Qed.

Lemma height_max : (max_list_with (lv m) l < kMaxLevel)%nat.
Proof.
  destruct (decide (l = [])) as [->|D]; [unfold kMaxLevel; cbn; lia|]. destruct (height_reached m l D) as (a & Ha & <-).
  destruct (sl_nodes _ _ SL a Ha) as [_ (b & Hb & L & _)]. unfold lv. rewrite Hb. lia.
Qed.

(** The search gives the last block below [e] at each level, and the first one from [e] on. *)
Lemma search_spec : LLA_SkiplistSearch P m e = Some (map before (seq 0 (max_list_with (lv m) l)), head (above e l)).
Proof.
  unfold LLA_SkiplistSearch. destruct (sl_head _ _ SL) as (h & Hh & Eh). rewrite Hh. cbn [obind]. pose proof height_max as Hm.
  rewrite search_levels_spec by (first [lia|by left]). cbn [obind]. rewrite app_nil_r. rewrite Eh. destruct (max_list_with (lv m) l) as [|n] eqn:En.
  - do 2 f_equal. destruct (above e l) as [|a r] eqn:Ea; [done|]. assert (Ha : a ∈ l) by (eapply elem_above; rewrite Ea; left).
    pose proof (height_le m l a Ha). destruct (sl_nodes _ _ SL a Ha) as [_ (b & Hb & L & _)]. unfold lv in *. rewrite Hb in *. lia.
  - cbn [seq map]. cbn. assert (H0 : (0 < kMaxLevel)%nat) by lia. pose proof (level_split 0 H0) as Sg. pose proof (segment_last _ _ _ _ Sg) as E. fold (before 0) in E.
    rewrite below_get, E; [|done|apply last_or_elem]. cbn. unfold after. rewrite at_level_zero; [done|]. intros a Ha. by apply elem_above in Ha as (_ & Ha).
Qed.
End Search.

(** ** Changing links *)
Definition hdr (b : AllocList) : Z * Z * Z * nat := (size b, magic b, arena b, levels b).
Definition same_headers (m m' : Mem) : Prop := forall a, hdr <$> m' !! a = hdr <$> m !! a.

Lemma same_headers_refl m : same_headers m m.
Proof. done. Qed.

Lemma same_trans m m' m'' : same_headers m m' -> same_headers m' m'' -> same_headers m m''.
Proof. intros A B a. by rewrite B, A. Qed.

Lemma same_lookup m m' a b : same_headers m m' -> m !! a = Some b -> exists b', m' !! a = Some b' /\ hdr b' = hdr b.
Proof. intros Hs E. specialize (Hs a). rewrite E in Hs. destruct (m' !! a) as [b'|]; [|done]. exists b'. split; [done|]. by apply (inj Some) in Hs. Qed.

Lemma same_lv m m' a : same_headers m m' -> lv m' a = lv m a.
Proof. intros Hs. specialize (Hs a). unfold lv. destruct (m' !! a), (m !! a); cbn in Hs; [|done|done|done]. by injection Hs. Qed.

(** [next[i]] of the block at [a] may be used. *)
Definition has_link (m : Mem) (a : Z) (i : nat) : Prop := exists b, m !! a = Some b /\ room P a b i = true.

Lemma has_link_same m m' a i : same_headers m m' -> has_link m a i -> has_link m' a i.
Proof.
  intros Hs (b & E & R). destruct (same_lookup _ _ _ _ Hs E) as (b' & E' & H). exists b'. split; [done|]. unfold room in *. injection H as ->. done.
Qed.

Lemma get_next_link m a i : has_link m a i -> get_next P m a i = Some (link_at m i a).
Proof. intros (b & E & R). unfold get_next, link_at. rewrite E. cbn. by rewrite R. Qed.

Lemma put_next_spec m a i v : has_link m a i -> exists m', put_next P m a i v = Some m' /\ same_headers m m' /\
  forall k x, link_at m' k x = if decide (x = a /\ k = i) then v else link_at m k x.
Proof.
  intros (b & E & R). unfold put_next. rewrite E. cbn. rewrite R. eexists. split; [done|split].
  - intros x. destruct (decide (x = a)) as [->|N]; [by rewrite lookup_insert_eq, E|by rewrite lookup_insert_ne].
  - intros k x. unfold link_at. destruct (decide (x = a)) as [->|N].
    + rewrite lookup_insert_eq, E. cbn. destruct (Nat.eqb_spec k i) as [->|Nk]; [by rewrite decide_True|by rewrite decide_False by tauto].
    + rewrite lookup_insert_ne by done. by rewrite decide_False by tauto.
Qed.

(** [e] is linked after [pv k] at each of the levels. *)
Lemma link_spec e prev (pv : nat -> Z) : forall n i m, (forall k, (i <= k < i + n)%nat -> prev !! k = Some (pv k) /\ pv k <> e /\ has_link m (pv k) k /\ has_link m e k) ->
  exists m', link P n i m e prev = Some m' /\ same_headers m m' /\
  forall k x, link_at m' k x = if decide ((i <= k < i + n)%nat) then
    if decide (x = pv k) then Some e else if decide (x = e) then link_at m k (pv k) else link_at m k x else link_at m k x.
Proof.
  induction n as [|n IH]; intros i m H.
  - exists m. split; [done|split; [apply same_headers_refl|]]. intros k x. by rewrite decide_False by lia.
  - cbn [link]. destruct (H i ltac:(lia)) as (Ep & Ne & Hp & He). rewrite Ep. cbn [obind]. rewrite get_next_link by done. cbn [obind].
    destruct (put_next_spec m e i (link_at m i (pv i)) He) as (m1 & E1 & S1 & L1). rewrite E1. cbn [obind].
    destruct (put_next_spec m1 (pv i) i (Some e) (has_link_same _ _ _ _ S1 Hp)) as (m2 & E2 & S2 & L2). rewrite E2. cbn [obind].
    pose proof (same_trans _ _ _ S1 S2) as S12. destruct (IH (S i) m2) as (m3 & E3 & S3 & L3).
    { intros k Hk. destruct (H k ltac:(lia)) as (? & ? & ? & ?). split; [done|split; [done|split]]; by eapply has_link_same. }
    exists m3. split; [done|split; [by eapply same_trans|]]. intros k x. rewrite L3, !L2, !L1. clear - Ne. destruct (decide (k = i)) as [->|N]; repeat case_decide; try done; try lia; try tauto; try congruence; intuition congruence.
Qed.

(** [e] is taken out after [pv k] at each of the levels. *)
Lemma unlink_spec e prev (pv : nat -> Z) : forall n i m, (forall k, (i <= k < i + n)%nat -> prev !! k = Some (pv k) /\ pv k <> e /\ has_link m (pv k) k /\ has_link m e k /\
    link_at m k (pv k) = Some e) ->
  exists m', unlink P n i m e prev = Some m' /\ same_headers m m' /\
  forall k x, link_at m' k x = if decide ((i <= k < i + n)%nat /\ x = pv k) then link_at m k e else link_at m k x.
Proof.
  induction n as [|n IH]; intros i m H.
  - exists m. split; [done|split; [apply same_headers_refl|]]. intros k x. by rewrite decide_False by lia.
  - cbn [unlink]. destruct (H i ltac:(lia)) as (Ep & Ne & Hp & He & Ev). rewrite Ep. cbn [obind]. rewrite get_next_link by done. cbn [obind].
    rewrite decide_True by done. rewrite get_next_link by done. cbn [obind].
    destruct (put_next_spec m (pv i) i (link_at m i e) Hp) as (m1 & E1 & S1 & L1). rewrite E1. cbn [obind]. destruct (IH (S i) m1) as (m3 & E3 & S3 & L3).
    { intros k Hk. destruct (H k ltac:(lia)) as (? & ? & ? & ? & ?). split; [done|split; [done|split; [|split]]]; [by eapply has_link_same|by eapply has_link_same|].
      rewrite L1, decide_False by lia. done. }
    exists m3. split; [done|split; [by eapply same_trans|]]. intros k x. rewrite L3, !L1. clear - Ne. destruct (decide (k = i)) as [->|N]; repeat case_decide; try done; try lia; try tauto; try congruence; intuition (try congruence; try lia).
Qed.

(** ** Insertion and deletion *)

(** Headers and levels stay, but for the levels of the head. *)
Record frame (m m' : Mem) : Prop := {
  fr_other : forall a, a <> freelist P -> hdr <$> m' !! a = hdr <$> m !! a;
  fr_head : size <$> m' !! freelist P = size <$> m !! freelist P
}.

Lemma frame_trans m m' m'' : frame m m' -> frame m' m'' -> frame m m''.
Proof. intros [A1 A2] [B1 B2]. split; [|by rewrite B2]. intros a N. by rewrite B1, A1. Qed.

Lemma same_frame m m' : same_headers m m' -> frame m m'.
Proof.
  intros Hs. split; [intros a _; apply Hs|]. specialize (Hs (freelist P)). destruct (m' !! freelist P), (m !! freelist P); cbn in *; [|done|done|done].
  injection Hs. congruence.
Qed.

Lemma frame_lookup m m' a b : frame m m' -> a <> freelist P -> m !! a = Some b -> exists b', m' !! a = Some b' /\ hdr b' = hdr b.
Proof.
  intros F N E. pose proof (fr_other _ _ F a N) as H. rewrite E in H. destruct (m' !! a) as [b'|]; [|done]. exists b'. split; [done|]. by apply (inj Some) in H.
Qed.

Lemma frame_lv m m' a : frame m m' -> a <> freelist P -> lv m' a = lv m a.
Proof. intros F N. pose proof (fr_other _ _ F a N) as H. unfold lv. destruct (m' !! a), (m !! a); cbn in H; [|done|done|done]. by injection H. Qed.

Lemma frame_node m m' a : frame m m' -> node_ok m a -> node_ok m' a.
Proof.
  intros F [N (b & E & L & R)]. split; [done|]. destruct (frame_lookup _ _ _ _ F N E) as (b' & E' & H). exists b'. injection H as -> _ _ ->. done.
Qed.

Lemma frame_at_level m m' i l : frame m m' -> freelist P ∉ l -> at_level m' i l = at_level m i l.
Proof.
  intros F. induction l as [|a l IH]; intros N; [done|]. apply not_elem_of_cons in N as (Na & N). unfold at_level in *. rewrite !filter_cons, (IH N), (frame_lv _ _ _ F) by congruence. done.
Qed.

Lemma frame_height m m' l : frame m m' -> freelist P ∉ l -> max_list_with (lv m') l = max_list_with (lv m) l.
Proof.
  intros F. induction l as [|a l IH]; intros N; [done|]. apply not_elem_of_cons in N as (Na & N). cbn. rewrite (IH N), (frame_lv _ _ _ F); [done|]. congruence.
Qed.

Lemma not_head m l : skiplist m l -> freelist P ∉ l.
Proof. intros SL H. by apply (no_head _ _ (sl_nodes _ _ SL _ H)). Qed.

(** The levels of the head change. *)
Lemma set_head_levels m n h : m !! freelist P = Some h -> exists m', modify m (freelist P) (set_levels n) = Some m' /\ frame m m' /\
  (forall k x, link_at m' k x = link_at m k x) /\ (forall k x, has_link m x k -> has_link m' x k) /\ lv m' (freelist P) = n.
Proof.
  intros E. unfold modify. rewrite E. cbn. eexists. split; [done|split; [split|split; [|split]]].
  - intros a N. by rewrite lookup_insert_ne.
  - by rewrite lookup_insert_eq, E.
  - intros k x. unfold link_at. destruct (decide (x = freelist P)) as [->|N]; [by rewrite lookup_insert_eq, E|by rewrite lookup_insert_ne].
  - intros k x (b & Eb & R). destruct (decide (x = freelist P)) as [->|N].
    + eexists. rewrite lookup_insert_eq. split; [done|]. rewrite E in Eb. injection Eb as ->. done.
    + exists b. by rewrite lookup_insert_ne.
  - unfold lv. by rewrite lookup_insert_eq.
Qed.

Lemma sorted_mid l1 e l2 : StronglySorted Z.lt (l1 ++ e :: l2) -> (forall a, a ∈ l1 -> a < e) /\ (forall a, a ∈ l2 -> e < a) /\ StronglySorted Z.lt (l1 ++ l2).
Proof.
  induction l1 as [|a l1 IH]; cbn; intros H; apply StronglySorted_inv in H as (H & F); rewrite Forall_forall in F.
  - split; [by intros a Ha%elem_of_nil|]. split; [done|done].
  - destruct (IH H) as (A & B & C). split; [|split; [done|]].
    + intros b [->|Hb]%elem_of_cons; [|by apply A]. apply F, elem_of_app. right. left.
    + constructor; [done|]. apply Forall_forall. intros b Hb. apply F. apply elem_of_app in Hb as [Hb|Hb]; apply elem_of_app; [by left|right; by right].
Qed.

Lemma mid_below l1 e l2 x : (forall a, a ∈ l1 -> a < e) -> (forall a, a ∈ l2 -> e < a) -> x = l1 ++ l2 \/ x = l1 ++ e :: l2 -> below e x = l1.
Proof.
  intros A B [->| ->]; unfold below; rewrite filter_app, filter_every by done.
  - rewrite filter_empty; [apply app_nil_r|]. intros a Ha. apply B in Ha. lia.
  - rewrite filter_empty; [apply app_nil_r|]. intros a [->|Ha]%elem_of_cons; [lia|]. apply B in Ha. lia.
Qed.

Lemma mid_above l1 e l2 : (forall a, a ∈ l1 -> a < e) -> (forall a, a ∈ l2 -> e < a) -> above e (l1 ++ l2) = l2 /\ above e (l1 ++ e :: l2) = e :: l2.
Proof.
  intros A B. unfold above. rewrite !filter_app, filter_empty by (intros a Ha; apply A in Ha; lia). split.
  - apply filter_every. intros a Ha. apply B in Ha. lia.
  - apply filter_every. intros a [->|Ha]%elem_of_cons; [lia|]. apply B in Ha. lia.
Qed.

(** The levels of a list with a block in the middle. *)
Lemma at_level_mid m i l1 e l2 : at_level m i (l1 ++ e :: l2) = if decide (i < lv m e)%nat then at_level m i l1 ++ e :: at_level m i l2 else at_level m i (l1 ++ l2).
Proof. rewrite !at_level_app. unfold at_level. rewrite filter_cons. by case_decide. Qed.

Lemma segment_cat f p l1 l2 : segment f p l1 (head l2) -> (forall a r, l2 = a :: r -> segment f a r None) -> segment f p (l1 ++ l2) None.
Proof. destruct l2 as [|a r]; cbn; intros A B; [by rewrite app_nil_r|]. apply segment_app. split; [done|by apply B]. Qed.

Lemma segment_first f p l : segment f p l None -> f p = head l.
Proof. destruct l; cbn; tauto. Qed.

Section Around.
Context (m : Mem) (l1 l2 : list Z) (e : Z) (Srt : StronglySorted Z.lt (l1 ++ e :: l2)) (He : node_ok m e) (Hl : forall a, a ∈ l1 ++ l2 -> node_ok m a).

(** The block before [e] at a level. *)
Definition pred (i : nat) : Z := last_or (freelist P) (at_level m i l1).

Lemma pred_cases i : pred i = freelist P \/ pred i ∈ l1 /\ (i < lv m (pred i))%nat.
Proof.
  pose proof (last_or_elem (freelist P) (at_level m i l1)) as H. fold (pred i) in H. apply elem_of_cons in H as [H|H]; [by left|right].
  apply elem_at_level in H. tauto.
Qed.

Lemma pred_ne i : pred i <> e.
Proof.
  intros E. destruct (pred_cases i) as [Hp|(Hp & _)]; rewrite E in Hp; [by apply (no_head _ _ He)|]. apply sorted_mid in Srt as (A & _). apply A in Hp. lia.
Qed.

Lemma pred_notin i : pred i ∉ l2.
Proof.
  intros H. apply sorted_mid in Srt as (A & B & _). destruct (pred_cases i) as [E|(Hp & _)].
  - rewrite E in H. by apply (no_head _ _ (Hl (freelist P) ltac:(apply elem_of_app; by right))).
  - apply A in Hp. apply B in H. lia.
Qed.

Lemma node_link a i : node_ok m a -> (i < lv m a)%nat -> has_link m a i.
Proof.
  intros [N (b & E & L & R)] Hi. unfold lv in Hi. rewrite E in Hi. exists b. split; [done|]. unfold room. rewrite (proj2 (Z.eqb_neq _ _)) by done.
  apply Z.leb_le. unfold sizeof_pointer in *. lia.
Qed.

Lemma pred_link i h : m !! freelist P = Some h -> (i < kMaxLevel)%nat -> has_link m (pred i) i.
Proof.
  intros E Hi. destruct (pred_cases i) as [->|(Hp & L)]; [|apply node_link; [apply Hl, elem_of_app; by left|done]]. exists h. split; [done|].
  unfold room. rewrite Z.eqb_refl. by apply Nat.ltb_lt.
Qed.

Lemma head_level_nodup i : NoDup (freelist P :: at_level m i l1).
Proof.
  apply NoDup_cons. split.
  - intros H. apply elem_at_level in H as (_ & H). by apply (no_head _ _ (Hl (freelist P) ltac:(apply elem_of_app; by left))).
  - apply NoDup_filter. apply sorted_mid in Srt as (_ & _ & C). apply sorted_nodup, NoDup_app in C. tauto.
Qed.

Lemma level_elem a i : a ∈ freelist P :: at_level m i l1 -> a <> e.
Proof.
  intros H ->. apply elem_of_cons in H as [H|H]; [by apply (no_head _ _ He)|]. apply elem_at_level in H as (_ & H). apply sorted_mid in Srt as (A & _). apply A in H. lia.
Qed.

Lemma tail_elem a i : a ∈ at_level m i l2 -> a <> e /\ a <> pred i.
Proof.
  intros H. apply elem_at_level in H as (_ & H). split.
  - intros ->. apply sorted_mid in Srt as (_ & B & _). apply B in H. lia.
  - intros ->. by apply (pred_notin i).
Qed.

(** A level from which [e] is linked in. *)
Lemma segment_insert f g i : segment f (freelist P) (at_level m i (l1 ++ l2)) None ->
  (forall x, g x = if decide (x = pred i) then Some e else if decide (x = e) then f (pred i) else f x) ->
  segment g (freelist P) (at_level m i l1 ++ e :: at_level m i l2) None.
Proof.
  rewrite at_level_app. intros Sg G. assert (S1 : segment f (freelist P) (at_level m i l1) (head (at_level m i l2))).
  { destruct (at_level m i l2); [by rewrite app_nil_r in Sg|by apply segment_app in Sg as (Sg & _)]. }
  apply segment_app. split.
  - apply (segment_relink f g _ _ (head (at_level m i l2))); [apply head_level_nodup| |rewrite G; by rewrite decide_True|done].
    intros a Ha N. rewrite G, decide_False by done. rewrite decide_False by (by eapply level_elem). done.
  - apply (segment_cat g e [] (at_level m i l2)).
    + cbn. rewrite G, decide_False, decide_True by (first [done|apply not_eq_sym, pred_ne]). by apply segment_last in S1.
    + intros a r E. rewrite E in Sg. apply segment_app in Sg as (_ & Sg). apply (segment_ext f); [|done].
      intros b Hb. rewrite <- E in Hb. apply tail_elem in Hb as (N1 & N2). by rewrite G, !decide_False.
Qed.

(** A level from which [e] is taken out. *)
Lemma segment_delete f g i : segment f (freelist P) (at_level m i l1 ++ e :: at_level m i l2) None ->
  (forall x, g x = if decide (x = pred i) then f e else f x) -> segment g (freelist P) (at_level m i (l1 ++ l2)) None.
Proof.
  rewrite at_level_app. intros Sg G. apply segment_app in Sg as (S1 & S2). apply segment_cat.
  - apply (segment_relink f g _ _ (Some e)); [apply head_level_nodup| | |done].
    + intros a Ha N. by rewrite G, decide_False.
    + rewrite G, decide_True by done. by apply segment_first.
  - intros a r E. rewrite E in S2. destruct S2 as (_ & S2). apply (segment_ext f); [|done]. intros b Hb. rewrite <- E in Hb.
    apply tail_elem in Hb as (N1 & N2). by rewrite G, decide_False.
Qed.

(** The memory a changed list is read from. *)
Lemma skiplist_build m' l : frame m m' -> StronglySorted Z.lt l -> (forall a, a ∈ l -> node_ok m a) -> lv m' (freelist P) = max_list_with (lv m) l -> is_Some (m' !! freelist P) ->
  (forall i, (i < kMaxLevel)%nat -> segment (link_at m' i) (freelist P) (at_level m i l) None) -> skiplist m' l.
Proof.
  intros F Sl N Hh (h & Eh) Sg. assert (Nh : freelist P ∉ l) by (intros H; by apply (no_head _ _ (N _ H))). split.
  - done.
  - intros a Ha. by eapply frame_node, N.
  - intros i Hi. rewrite (frame_at_level _ _ _ _ F) by done. by apply Sg.
  - exists h. split; [done|]. rewrite (frame_height _ _ _ F) by done. unfold lv in Hh at 1. by rewrite Eh in Hh.
Qed.
End Around.

Lemma height_mid m l1 e l2 : max_list_with (lv m) (l1 ++ e :: l2) = Nat.max (max_list_with (lv m) (l1 ++ l2)) (lv m e).
Proof. induction l1 as [|a l1 IH]; cbn; [lia|]. rewrite IH. lia. Qed.

Lemma height_app m l1 l2 : max_list_with (lv m) (l1 ++ l2) = Nat.max (max_list_with (lv m) l1) (max_list_with (lv m) l2).
Proof. induction l1 as [|a l1 IH]; cbn; [done|]. rewrite IH. lia. Qed.

Lemma lookup_repeat {A} (x : A) n k : (k < n)%nat -> repeat x n !! k = Some x.
Proof. revert k. induction n as [|n IH]; intros [|k] H; [lia|lia|done|]. apply IH. lia. Qed.

Lemma prev_lookup f h n k : (k < Nat.max h n)%nat -> (forall i, (h <= i)%nat -> f i = freelist P) ->
  (map f (seq 0 h) ++ repeat (freelist P) (n - h)) !! k = Some (f k).
Proof.
  intros Hk Hf. destruct (le_lt_dec h k) as [L|L].
  - rewrite lookup_app_r by (rewrite length_map, length_seq; done). rewrite length_map, length_seq, Hf by done.
    apply lookup_repeat. lia.
  - rewrite lookup_app_l by (rewrite length_map, length_seq; done). change (map f (seq 0 h)) with (f <$> seq 0 h). rewrite list_lookup_fmap.
    rewrite (lookup_seq_lt 0 h k) by done. done.
Qed.

(** Insertion of a block between those below and those above it. *)
Lemma insert_spec m l1 l2 e : skiplist m (l1 ++ l2) -> node_ok m e -> StronglySorted Z.lt (l1 ++ e :: l2) ->
  exists m' prev, LLA_SkiplistInsert P m e = Some (m', prev) /\ prev !! 0%nat = Some (last_or (freelist P) l1) /\ skiplist m' (l1 ++ e :: l2) /\ frame m m'.
Proof.
  intros SL He Srt. destruct (sorted_mid _ _ _ Srt) as (A & B & _). pose proof (mid_below l1 e l2 _ A B (or_introl eq_refl)) as Eb.
  destruct (sl_head _ _ SL) as (h & Eh & Lh). destruct (no_block _ _ He) as (b & Ebe & Lb & _). pose proof (sl_nodes _ _ SL) as Hl.
  assert (Le : lv m e = levels b) by (unfold lv; by rewrite Ebe). pose proof (height_max m _ SL) as Hm.
  unfold LLA_SkiplistInsert. rewrite (search_spec _ _ SL). cbn [obind]. rewrite Eh. cbn [obind]. rewrite Ebe. cbn [obind].
  destruct (set_head_levels m (Nat.max (levels h) (levels b)) h Eh) as (m1 & E1 & F1 & L1 & H1 & V1). rewrite E1. cbn [obind]. rewrite Lh.
  set (prev := map (before m (l1 ++ l2) e) (seq 0 (max_list_with (lv m) (l1 ++ l2))) ++ repeat (freelist P) (levels b - max_list_with (lv m) (l1 ++ l2))).
  assert (Pv : forall k, (k < Nat.max (max_list_with (lv m) (l1 ++ l2)) (levels b))%nat -> prev !! k = Some (pred m l1 k)).
  { intros k Hk. unfold prev. rewrite (prev_lookup (before m (l1 ++ l2) e)); [unfold before; by rewrite Eb|done|]. intros i Hi. unfold before. rewrite Eb.
    rewrite above_height; [done|]. etransitivity; [|exact Hi]. rewrite height_app. lia. }
  destruct (link_spec e prev (pred m l1) (levels b) 0 m1) as (m2 & E2 & S2 & L2).
  { intros k Hk. split; [apply Pv; lia|]. split; [by eapply pred_ne|]. split; apply H1; [eapply pred_link; [exact Hl|done|lia]|]. apply node_link; [done|lia]. }
  rewrite E2. cbn [obind]. exists m2, prev. split; [done|]. split; [|split].
  - rewrite Pv by lia. unfold pred. rewrite (at_level_zero m _ SL); [done|]. intros a Ha. apply elem_of_app. by left.
  - pose proof (frame_trans _ _ _ F1 (same_frame _ _ S2)) as F. apply (skiplist_build m m2); [done|done| | | |].
    + intros a Ha. apply elem_of_app in Ha as [Ha|[->|Ha]%elem_of_cons]; [apply Hl, elem_of_app; by left|done|apply Hl, elem_of_app; by right].
    + rewrite (same_lv _ _ _ S2), V1, height_mid, Le, Lh. done.
    + destruct (m2 !! freelist P) eqn:E; [done|]. specialize (S2 (freelist P)). rewrite E in S2. unfold modify in E1. rewrite Eh in E1. cbn in E1. injection E1 as <-.
      by rewrite lookup_insert_eq in S2.
    + intros i Hi. rewrite at_level_mid, Le. pose proof (sl_links _ _ SL i Hi) as Sg. case_decide as Hd.
      * apply (segment_insert m l1 l2 e Srt He Hl (link_at m i)); [done|]. intros x. rewrite L2, decide_True by lia. by rewrite !L1.
      * eapply segment_ext; [|done]. intros a Ha. rewrite L2, decide_False by lia. apply L1.
  - by eapply frame_trans, same_frame.
Qed.

(** The levels of the head that are given up are those without blocks. *)
Lemma used_levels_spec m m' l : (forall i, (i < kMaxLevel)%nat -> has_link m' (freelist P) i /\ link_at m' i (freelist P) = head (at_level m i l)) ->
  forall n, (max_list_with (lv m) l <= n <= kMaxLevel)%nat -> used_levels P n m' = Some (max_list_with (lv m) l).
Proof.
  intros H. induction n as [|n IH]; intros Hn; [cbn; f_equal; lia|]. cbn [used_levels]. destruct (H n ltac:(lia)) as (Hl & E). rewrite get_next_link by done. cbn [obind].
  rewrite E. destruct (decide (max_list_with (lv m) l = S n)) as [D|D].
  - destruct (at_level m n l) as [|a r] eqn:Ea; [|by rewrite D]. destruct (decide (l = [])) as [->|Nl]; [by cbn in D|].
    destruct (height_reached m l Nl) as (a & Ha & La). assert (Hin : a ∈ at_level m n l) by (apply elem_at_level; split; [lia|done]). rewrite Ea in Hin. by apply elem_of_nil in Hin.
  - rewrite above_height by lia. cbn. apply IH. lia.
Qed.

Lemma delete_spec m l1 l2 e : skiplist m (l1 ++ e :: l2) -> exists m' prev, LLA_SkiplistDelete P m e = Some (m', prev) /\ skiplist m' (l1 ++ l2) /\ frame m m'.
Proof.
  intros SL. pose proof (sl_sorted _ _ SL) as Srt. destruct (sorted_mid _ _ _ Srt) as (A & B & Srt'). pose proof (mid_below l1 e l2 _ A B (or_intror eq_refl)) as Eb.
  pose proof (sl_nodes _ _ SL) as Hn. assert (He : node_ok m e) by (apply Hn, elem_of_app; right; left).
  assert (Hl : forall a, a ∈ l1 ++ l2 -> node_ok m a). { intros a Ha. apply Hn. apply elem_of_app in Ha as [Ha|Ha]; apply elem_of_app; [by left|right; by right]. }
  destruct (sl_head _ _ SL) as (h & Eh & Lh). destruct (no_block _ _ He) as (b & Ebe & Lb & _). assert (Le : lv m e = levels b) by (unfold lv; by rewrite Ebe).
  unfold LLA_SkiplistDelete. rewrite (search_spec _ _ SL). cbn [obind]. rewrite (proj2 (mid_above l1 e l2 A B)). cbn [head]. rewrite decide_True by done. rewrite Ebe. cbn [obind].
  pose proof (height_max m _ SL) as Hm. rewrite height_mid, Le in Hm.
  set (prev := map (before m (l1 ++ e :: l2) e) (seq 0 (max_list_with (lv m) (l1 ++ e :: l2)))).
  destruct (unlink_spec e prev (pred m l1) (levels b) 0 m) as (m2 & E2 & S2 & L2).
  { intros k Hk. split; [|split; [by eapply pred_ne|split; [eapply pred_link; [exact Hl|done|lia]|split; [apply node_link; [done|lia]|]]]].
    - unfold prev. rewrite <- (app_nil_r (map _ _)). replace ([] : list Z) with (repeat (freelist P) (0 - max_list_with (lv m) (l1 ++ e :: l2))) by done. rewrite (prev_lookup _ _ 0).
      + unfold before. by rewrite Eb.
      + rewrite height_mid, Le. lia.
      + intros i Hi. unfold before. rewrite Eb, above_height; [done|]. rewrite height_mid, height_app in Hi. lia.
    - pose proof (sl_links _ _ SL k ltac:(lia)) as Sg. rewrite at_level_mid, decide_True in Sg by lia. apply segment_app in Sg as (Sg & _). by apply segment_last in Sg. }
  rewrite E2. cbn [obind]. destruct (same_lookup _ _ _ _ S2 Eh) as (h2 & Eh2 & Hh2). rewrite Eh2. cbn [obind].
  assert (Sg2 : forall i, (i < kMaxLevel)%nat -> segment (link_at m2 i) (freelist P) (at_level m i (l1 ++ l2)) None).
  { intros i Hi. pose proof (sl_links _ _ SL i Hi) as Sg. rewrite at_level_mid, Le in Sg. case_decide as Hd.
    - apply (segment_delete m l1 l2 e Srt Hl (link_at m i)); [done|]. intros x. rewrite L2. clear - Hd. repeat case_decide; try done; intuition lia.
    - eapply segment_ext; [|done]. intros a Ha. by rewrite L2, decide_False by lia. }
  rewrite (used_levels_spec m m2 (l1 ++ l2)).
  2: { intros i Hi. split; [|by apply segment_first, Sg2]. exists h2. split; [done|]. unfold room. rewrite Z.eqb_refl. by apply Nat.ltb_lt. }
  2: { injection Hh2 as _ _ _ ->. rewrite Lh, height_mid, Le. lia. }
  cbn [obind]. destruct (set_head_levels m2 (max_list_with (lv m) (l1 ++ l2)) h2 Eh2) as (m3 & E3 & F3 & L3 & H3 & V3). rewrite E3. cbn [obind].
  pose proof (frame_trans _ _ _ (same_frame _ _ S2) F3) as F. exists m3, prev. split; [done|split; [|done]]. apply (skiplist_build m m3); [done|done|done|done| |].
  - unfold modify in E3. rewrite Eh2 in E3. injection E3 as <-. rewrite lookup_insert_eq. done.
  - intros i Hi. eapply segment_ext; [|by apply Sg2]. intros a _. apply L3.
Qed.
End Head.
