(* ===== verification/AllocLevels.v ===== *)
(** The skip-list levels of [absl/base/internal/low_level_alloc.cc]: the random number generator of an arena, a linear
    congruence whose bit 30 changes after two to the thirty steps, always ends; a block gets at least the levels that
    the search for its size starts from, and never more than fit into it. *)
From stdpp Require Import base gmap list.
From Stdlib Require Import ZArith Lia.
From S2P Require Import Prelude Bits LowLevelAlloc.
#[local] Open Scope Z_scope.
#[local] Open Scope mach_scope.

(** ** The loop of the generator *)
Fixpoint run {A B} (n : nat) (f : A -> A + B) (a : A) : A + B :=
  match n with
  | O => inl a
  | S n => match f a with inl a => run n f a | inr b => inr b end
  end.

Lemma run_add {A B} (f : A -> A + B) n k a : run (n + k) f a = match run n f a with inl a => run k f a | inr b => inr b end.
Proof. revert a. induction n as [|n IH]; intros a; cbn; [done|]. destruct (f a); [apply IH|done]. Qed.

Lemma rounds_run {A B} (f : A -> A + B) p a : rounds p f a = run (Pos.to_nat p) f a.
Proof.
  revert a. induction p as [p IH|p IH|]; intros a; cbn [rounds].
  - rewrite Pos2Nat.inj_xI. cbn [run]. destruct (f a) as [b|]; [|done]. replace (2 * Pos.to_nat p)%nat with (Pos.to_nat p + Pos.to_nat p)%nat by lia.
    rewrite run_add, IH. destruct (run (Pos.to_nat p) f b); [apply IH|done].
  - rewrite Pos2Nat.inj_xO. replace (2 * Pos.to_nat p)%nat with (Pos.to_nat p + Pos.to_nat p)%nat by lia. rewrite run_add, IH. destruct (run (Pos.to_nat p) f a); [apply IH|done].
  - change (Pos.to_nat 1) with 1%nat. cbn [run]. destruct (f a); reflexivity.
Qed.

Definition lcg (r : Z) : Z := (r *[32] 1103515245) +[32] 12345.
Definition bit30 (r : Z) : Z := (r >> 30) .& 1.

Lemma random_run n : forall x k, match run n random_step (x, k) with
  | inl (y, k') => y = Nat.iter n lcg x /\ k' = (k + n)%nat /\ forall j, (1 <= j <= n)%nat -> bit30 (Nat.iter j lcg x) = 0
  | inr (y, k') => (k <= k')%nat
  end.
Proof.
  induction n as [|n IH]; intros x k; cbn [run]; [split; [done|split; [lia|]]; intros j Hj; lia|]. unfold random_step at 1. fold (lcg x). fold (bit30 (lcg x)).
  destruct (bit30 (lcg x) =? 0) eqn:E; [|lia]. apply Z.eqb_eq in E. specialize (IH (lcg x) (S k)). destruct (run n random_step (lcg x, S k)) as [(y & k')|(y & k')]; [|lia].
  destruct IH as (-> & -> & B). rewrite Nat.iter_succ_r. split; [done|split; [lia|]]. intros j Hj. destruct j as [|[|j]]; [lia|done|]. rewrite Nat.iter_succ_r. apply B. lia.
Qed.

(** ** The period *)

(** The factor and the term of two to the [m] steps. *)
Fixpoint affine (m : nat) : Z * Z :=
  match m with
  | O => (1103515245, 12345)
  | S m => let '(a, c) := affine m in ((a * a) mod 2 ^ 32, (a * c + c) mod 2 ^ 32)
  end.

Lemma lcg_affine m x : Nat.iter (2 ^ m) lcg x mod 2 ^ 32 = (fst (affine m) * x + snd (affine m)) mod 2 ^ 32.
Proof.
  revert x. induction m as [|m IH]; intros x.
  - cbn [Nat.pow Nat.iter affine fst snd]. unfold lcg, wrapu. cbn. rewrite Zmod_mod. rewrite Zplus_mod_idemp_l. f_equal. lia.
  - replace (2 ^ S m)%nat with (2 ^ m + 2 ^ m)%nat by (cbn; lia). rewrite Nat.iter_add, IH. cbn [affine]. destruct (affine m) as (a & c) eqn:E. cbn [fst snd] in *.
    rewrite <- Zplus_mod_idemp_l, <- Zmult_mod_idemp_r, IH, Zmult_mod_idemp_r, Zplus_mod_idemp_l.
    rewrite Zplus_mod_idemp_r, <- (Zplus_mod_idemp_l ((a * a) mod _ * x)), (Zmult_mod_idemp_l (a * a)), Zplus_mod_idemp_l. f_equal. ring.
Qed.

Lemma lcg_range n x : 0 <= Nat.iter (S n) lcg x < 2 ^ 32.
Proof. cbn [Nat.iter]. unfold lcg, wrapu. apply Z.mod_pos_bound. lia. Qed.

Lemma lcg_pow_range m x : 0 <= Nat.iter (2 ^ m) lcg x < 2 ^ 32.
Proof. destruct (2 ^ m)%nat as [|n] eqn:E; [by apply Nat.pow_nonzero in E|apply lcg_range]. Qed.

Lemma bit30_flips x y : 0 <= x < 2 ^ 32 -> 0 <= y < 2 ^ 32 -> y mod 2 ^ 32 = (fst (affine 30) * x + snd (affine 30)) mod 2 ^ 32 -> bit30 y <> bit30 x.
Proof.
  intros Hx Hy H. assert (E : affine 30 = (1, 3 * 2 ^ 30) \/ affine 30 = (1, 2 ^ 30)) by (vm_compute; tauto).
  rewrite (Z.mod_small y) in H by done. unfold bit30. rewrite !Z.shiftr_div_pow2 by lia. rewrite !(Z.land_ones _ 1) by lia. rewrite H. clear H.
  destruct E as [-> | ->]; cbn [fst snd]; change (2 ^ 30) with 1073741824; change (2 ^ 32) with 4294967296 in *; change (2 ^ 1) with 2; Z.to_euclidean_division_equations; lia.
Qed.

Lemma bit_comes m x : (forall j, (1 <= j <= S (2 ^ m))%nat -> bit30 (Nat.iter j lcg x) = 0) -> m = 30%nat -> False.
Proof.
  intros B Hm. apply (bit30_flips (lcg x) (Nat.iter (2 ^ m) lcg (lcg x))); [apply (lcg_range 0 x)|apply lcg_pow_range|rewrite lcg_affine; by subst m|].
  rewrite <- Nat.iter_succ_r. rewrite B by lia. symmetry. apply (B 1%nat). lia.
Qed.

(** The generator always ends. *)
Lemma Random_total state : exists n s, Random state = Some (n, s) /\ (1 <= n)%nat.
Proof.
  assert (E : exists m, m = 30%nat) by eauto. destruct E as (m & Hm). assert (E : Pos.to_nat (2 ^ 30 + 1) = S (2 ^ m)).
  { rewrite Pos.add_1_r, Pos2Nat.inj_succ, Pos2Nat.inj_pow. by subst m. }
  unfold Random. rewrite rounds_run, E. pose proof (random_run (S (2 ^ m)) state 1) as H. clear E. destruct (run _ _ _) as [(y & k)|(y & k)]; [|by exists k, y].
  exfalso. destruct H as (_ & _ & B). exact (bit_comes m state B Hm).
Qed.

(** ** Levels *)
Lemma log2_loop_total base : 1 <= base -> forall fuel i r, 0 <= i < 2 ^ Z.of_nat fuel -> exists k, log2_loop fuel i base r = Some (r + k)%nat.
Proof.
  intros Hb. induction fuel as [|fuel IH]; intros i r Hi; cbn [log2_loop]; rewrite Z.gtb_ltb; destruct (Z.ltb_spec base i) as [L|L].
  - cbn in Hi. lia.
  - exists 0%nat. f_equal. lia.
  - destruct (IH (i >> 1) (S r)) as (k & ->); [|exists (S k); f_equal; lia]. rewrite Z.shiftr_div_pow2 by lia. rewrite Nat2Z.inj_succ, Z.pow_succ_r in Hi by lia.
    change (2 ^ 1) with 2. split; [apply Z.div_pos; lia|apply Z.div_lt_upper_bound; lia].
  - exists 0%nat. f_equal. lia.
Qed.

Lemma log2_loop_ge base : forall f j r b, log2_loop f j base r = Some b -> (r <= b)%nat.
Proof. induction f as [|f IH]; intros j r b; cbn [log2_loop]; destruct (j >? base); [done|by intros [= ->]| |by intros [= ->]]. intros H. apply IH in H. lia. Qed.

Lemma log2_loop_mono base : forall fuel fuel' i j r r' a b, i <= j -> (r <= r')%nat -> log2_loop fuel i base r = Some a -> log2_loop fuel' j base r' = Some b -> (a <= b)%nat.
Proof.
  induction fuel as [|fuel IH]; intros fuel' i j r r' a b Hij Hr; destruct fuel' as [|fuel']; cbn [log2_loop]; rewrite !Z.gtb_ltb;
    destruct (Z.ltb_spec base i) as [L|L]; destruct (Z.ltb_spec base j) as [L'|L']; intros Ha Hb; try (exfalso; lia); try done;
    repeat match goal with H : Some _ = Some _ |- _ => injection H as <- end; try lia; try (apply log2_loop_ge in Hb; lia).
  eapply IH; [| |exact Ha|exact Hb]; [|lia]. rewrite !Z.shiftr_div_pow2 by lia. apply Z.div_le_mono; lia.
Qed.

Lemma IntLog2_total size : 0 <= size < 2 ^ 64 -> exists k, IntLog2 size min_size = Some k.
Proof. intros H. destruct (log2_loop_total min_size ltac:(done) 64 size 0 H) as (k & E). exists k. exact E. Qed.

Lemma IntLog2_mono i j a b : i <= j -> IntLog2 i min_size = Some a -> IntLog2 j min_size = Some b -> (a <= b)%nat.
Proof. intros H. by apply log2_loop_mono. Qed.

(** The clipping of a number of levels. *)
Definition clip (size : Z) (level : nat) : nat := Nat.min (Nat.min level (Z.to_nat ((size - 40) / 8))) 29.

Lemma levels_clip size log n r : min_size <= size < 2 ^ 64 -> IntLog2 size min_size = Some log -> (1 <= n)%nat ->
  match r with Some s => exists s', Random s = Some (n, s') | None => n = 1%nat end ->
  exists r', LLA_SkiplistLevels size min_size r = Some (clip size (log + n), r') /\ (is_Some r -> is_Some r') /\ (1 <= clip size (log + n))%nat.
Proof.
  intros Hs El Hn Hr. change min_size with 64 in Hs. assert (Em : (size -[64] offsetof_next) / sizeof_pointer = (size - 40) / 8).
  { unfold wrapu, offsetof_next, sizeof_pointer. rewrite Z.mod_small by lia. done. }
  assert (Hc : (1 <= clip size (log + n))%nat). { unfold clip. assert (3 <= (size - 40) / 8) by (apply Z.div_le_lower_bound; lia). lia. }
  unfold LLA_SkiplistLevels. rewrite El, Em. cbn [obind]. assert (exists r', match r with Some s => do (n, s) <- Random s; Some (n, Some s) | None => Some (1%nat, None) end = Some (n, r') /\
    (is_Some r -> is_Some r')) as (r' & Er & Hr').
  { destruct r as [s|]; [destruct Hr as (s' & ->); cbn; eauto|subst n; by exists None]. }
  rewrite Er. cbn [obind]. exists r'. split; [|done].
  assert (Ec : (if (kMaxLevel - 1 <? (if Z.of_nat (log + n) >? (size - 40) / 8 then Z.to_nat ((size - 40) / 8) else log + n))%nat then (kMaxLevel - 1)%nat
    else (if Z.of_nat (log + n) >? (size - 40) / 8 then Z.to_nat ((size - 40) / 8) else log + n)%nat) = clip size (log + n)).
  { unfold clip, kMaxLevel. rewrite Z.gtb_ltb. destruct (Z.ltb_spec ((size - 40) / 8) (Z.of_nat (log + n))); match goal with |- context [(?a <? ?b)%nat] => destruct (Nat.ltb_spec a b) end; lia. }
  rewrite Ec. by rewrite (proj2 (Nat.leb_le _ _)).
Qed.

(** The levels that every block of a size has at least. *)
Definition need (size : Z) : nat := match LLA_SkiplistLevels size min_size None with Some (n, _) => n | None => 0%nat end.

Lemma need_spec size : min_size <= size < 2 ^ 64 -> LLA_SkiplistLevels size min_size None = Some (need size, None) /\ (1 <= need size < kMaxLevel)%nat.
Proof.
  intros H. destruct (IntLog2_total size) as (k & Ek); [change min_size with 64 in H; lia|]. destruct (levels_clip size k 1 None H Ek ltac:(lia) eq_refl) as (r & E & _ & L).
  unfold need. rewrite E. assert (r = None) as ->. { unfold LLA_SkiplistLevels in E. rewrite Ek in E. cbn [obind] in E. repeat case_match; congruence. }
  split; [done|]. unfold clip, kMaxLevel in *. lia.
Qed.

Lemma need_clip size k : min_size <= size < 2 ^ 64 -> IntLog2 size min_size = Some k -> need size = clip size (k + 1).
Proof. intros H Ek. destruct (levels_clip size k 1 None H Ek ltac:(lia) eq_refl) as (r & E & _ & L). unfold need. by rewrite E. Qed.

Lemma clip_mono r size a b : r <= size -> (a <= b)%nat -> (clip r a <= clip size b)%nat.
Proof. intros H L. unfold clip. assert ((r - 40) / 8 <= (size - 40) / 8) by (apply Z.div_le_mono; lia). lia. Qed.

Lemma need_mono r size : min_size <= r -> r <= size < 2 ^ 64 -> (need r <= need size)%nat.
Proof.
  intros Hr Hs. destruct (IntLog2_total r) as (a & Ea); [change min_size with 64 in Hr; lia|]. destruct (IntLog2_total size) as (b & Eb); [change min_size with 64 in Hr; lia|].
  rewrite (need_clip r a), (need_clip size b) by (first [done|lia]). apply clip_mono; [lia|]. pose proof (IntLog2_mono r size a b ltac:(lia) Ea Eb). lia.
Qed.

(** A random number of levels is at least the needed one, below the maximum and fits into the block. *)
Lemma random_levels_spec s size : min_size <= size < 2 ^ 64 -> exists n r, random_levels s size = Some (n, mk_state (mem s) (allocation_count s) r) /\
  (1 <= n < kMaxLevel)%nat /\ (need size <= n)%nat /\ offsetof_next + sizeof_pointer * Z.of_nat n <= size.
Proof.
  intros H. destruct (IntLog2_total size) as (k & Ek); [change min_size with 64 in H; lia|]. destruct (Random_total (random s)) as (n & s' & Er & Hn).
  destruct (levels_clip size k n (Some (random s)) H Ek Hn (ex_intro _ s' Er)) as (r' & E & Hr & L). destruct (Hr ltac:(eauto)) as (r & ->).
  exists (clip size (k + n)), r. unfold random_levels. rewrite E. split; [done|]. rewrite (need_clip size k) by done. split; [unfold clip, kMaxLevel in *; lia|].
  split; [apply clip_mono; lia|]. change min_size with 64 in H. unfold offsetof_next, sizeof_pointer, clip. pose proof (Z.mul_div_le (size - 40) 8 ltac:(lia)).
  assert (0 <= (size - 40) / 8) by (apply Z.div_pos; lia). lia.
Qed.
