(* ===== verification/AllocGeometry.v ===== *)
(** The blocks of an arena of [absl/base/internal/low_level_alloc.cc] as ranges of addresses: they are disjoint and
    cover exactly the memory that was mapped.  Merging two neighbours, cutting a block in two and adding a region keep
    this, and a list of free blocks without neighbours consists of whole pages when nothing is allocated. *)
From stdpp Require Import base list sorting.
From Stdlib Require Import ZArith Lia.
From S2P Require Import Prelude LowLevelAlloc.
#[local] Open Scope Z_scope.

Definition mapped (R : list (Z * Z)) (x : Z) : Prop := exists r n, (r, n) ∈ R /\ r <= x < r + n.

(** [z] are the sizes of the blocks [B] that partition the regions [R]. *)
Record geometry (z : Z -> Z) (B : list Z) (R : list (Z * Z)) : Prop := {
  g_nodup : NoDup B;
  g_size : forall a, a ∈ B -> min_size <= z a /\ (round_up | z a) /\ (round_up | a) /\ min_size <= a /\ a + z a < 2 ^ 64;
  g_disjoint : forall a b, a ∈ B -> b ∈ B -> a < b -> a + z a <= b;
  g_mapped : forall x, (exists a, a ∈ B /\ a <= x < a + z a) <-> mapped R x
}.

Definition set_z (z : Z -> Z) (a n : Z) : Z -> Z := fun x => if decide (x = a) then n else z x.

Lemma set_z_eq z a n : set_z z a n a = n.
Proof. unfold set_z. by rewrite decide_True. Qed.

Lemma set_z_ne z a n x : x <> a -> set_z z a n x = z x.
Proof. intros H. unfold set_z. by rewrite decide_False. Qed.

#[global] Instance geometry_perm z : Proper (Permutation ==> eq ==> iff) (geometry z).
Proof.
  assert (G : forall B B' R, Permutation B B' -> geometry z B R -> geometry z B' R).
  { intros B B' R Hp [N S D M]. split.
    - by rewrite <- Hp.
    - intros a Ha. apply S. by rewrite Hp.
    - intros a b Ha Hb. apply D; by rewrite Hp.
    - intros x. rewrite <- M. by setoid_rewrite Hp. }
  intros B B' Hp R R' <-. split; [by apply G|apply G; by symmetry].
Qed.

Lemma geometry_ext z z' B R : (forall a, a ∈ B -> z' a = z a) -> geometry z B R -> geometry z' B R.
Proof.
  intros E [N S D M]. split.
  - done.
  - intros a Ha. rewrite E by done. by apply S.
  - intros a b Ha Hb. rewrite E by done. by apply D.
  - intros x. rewrite <- M. split; intros (a & Ha & H); exists a; [rewrite E in H by done|rewrite E by done]; done.
Qed.

Lemma block_size z B R a : geometry z B R -> a ∈ B -> min_size <= z a < 2 ^ 64 /\ 0 < a.
Proof. intros G Ha. destruct (g_size _ _ _ G a Ha) as (? & _ & _ & ? & ?). change min_size with 64 in *. lia. Qed.

(** Blocks that share an address are the same. *)
Lemma same_block z B R a b x : geometry z B R -> a ∈ B -> b ∈ B -> a <= x < a + z a -> b <= x < b + z b -> a = b.
Proof.
  intros G Ha Hb Hx Hy. destruct (Z.lt_trichotomy a b) as [L|[E|L]]; [|done|].
  - pose proof (g_disjoint _ _ _ G a b Ha Hb L). lia.
  - pose proof (g_disjoint _ _ _ G b a Hb Ha L). lia.
Qed.

(** Two neighbours become one block. *)
Lemma geometry_merge z B R a n : geometry z (a :: n :: B) R -> a + z a = n -> geometry (set_z z a (z a + z n)) (a :: B) R.
Proof.
  intros G E. destruct (g_size _ _ _ G a ltac:(left)) as (Sa & Da & Ra & Pa & Ua). destruct (g_size _ _ _ G n ltac:(right; left)) as (Sn & Dn & _ & _ & Un).
  pose proof (g_nodup _ _ _ G) as N. apply NoDup_cons in N as (Na & N). apply NoDup_cons in N as (Nn & N). apply not_elem_of_cons in Na as (Nan & NaB).
  assert (Ez : forall b, b ∈ B -> set_z z a (z a + z n) b = z b) by (intros b Hb; apply set_z_ne; congruence).
  change min_size with 64 in *. split.
  - by apply NoDup_cons.
  - intros b [->|Hb]%elem_of_cons.
    + rewrite set_z_eq. split; [change min_size with 64; lia|]. split; [by apply Z.divide_add_r|]. split; [done|]. split; [done|lia].
    + rewrite Ez by done. apply (g_size _ _ _ G). right. by right.
  - intros b c [->|Hb]%elem_of_cons [->|Hc]%elem_of_cons L; rewrite ?set_z_eq, ?Ez by done.
    + lia.
    + pose proof (g_disjoint _ _ _ G a c ltac:(left) ltac:(right; by right) L). assert (n <> c) by congruence.
      pose proof (g_disjoint _ _ _ G n c ltac:(right; left) ltac:(right; by right) ltac:(lia)). lia.
    + by apply (g_disjoint _ _ _ G); [right; right|left|].
    + by apply (g_disjoint _ _ _ G); [right; right|right; right|].
  - intros x. rewrite <- (g_mapped _ _ _ G). split.
    + intros (b & [->|Hb]%elem_of_cons & Hx).
      * rewrite set_z_eq in Hx. destruct (Z_lt_le_dec x n); [exists a; split; [left|lia]|exists n; split; [right; left|lia]].
      * rewrite Ez in Hx by done. exists b. split; [right; by right|done].
    + intros (b & [->|[->|Hb]%elem_of_cons]%elem_of_cons & Hx).
      * exists a. split; [left|]. rewrite set_z_eq. lia.
      * exists a. split; [left|]. rewrite set_z_eq. lia.
      * exists b. split; [by right|]. by rewrite Ez.
Qed.

(** A block is cut in two. *)
Lemma geometry_split z B R a k : geometry z (a :: B) R -> (round_up | k) -> min_size <= k -> k + min_size <= z a ->
  geometry (set_z (set_z z (a + k) (z a - k)) a k) (a :: a + k :: B) R.
Proof.
  intros G Dk Hk Hz. destruct (g_size _ _ _ G a ltac:(left)) as (Sa & Da & Ra & Pa & Ua). pose proof (g_nodup _ _ _ G) as N. apply NoDup_cons in N as (Na & N).
  change min_size with 64 in *. assert (Nk : forall b, b ∈ B -> b <> a + k).
  { intros b Hb ->. apply Na. replace a with (a + k); [done|]. symmetry. eapply (same_block _ _ _ a (a + k) (a + k) G); [left|by right|lia|]. destruct (block_size _ _ _ (a + k) G); [by right|]. change min_size with 64 in *. lia. }
  set (z' := set_z _ a k). assert (E1 : z' a = k) by apply set_z_eq. assert (E2 : z' (a + k) = z a - k) by (unfold z'; rewrite set_z_ne by lia; apply set_z_eq).
  assert (Ez : forall b, b ∈ B -> z' b = z b). { intros b Hb. unfold z'. rewrite !set_z_ne; [done|by apply Nk|congruence]. }
  assert (Dr : (round_up | z a - k)) by (by apply Z.divide_sub_r). split.
  - apply NoDup_cons. split; [intros [H|H]%elem_of_cons; [lia|done]|]. apply NoDup_cons. split; [|done]. intros H. by apply (Nk _ H).
  - intros b [->|[->|Hb]%elem_of_cons]%elem_of_cons; [rewrite E1|rewrite E2|rewrite Ez by done; apply (g_size _ _ _ G); by right]; change min_size with 64.
    + split; [lia|split; [done|split; [done|lia]]].
    + split; [lia|split; [done|split; [by apply Z.divide_add_r|lia]]].
  - intros b c [->|[->|Hb]%elem_of_cons]%elem_of_cons [->|[->|Hc]%elem_of_cons]%elem_of_cons L; rewrite ?E1, ?E2, ?Ez by done; try lia.
    + pose proof (g_disjoint _ _ _ G a c ltac:(left) ltac:(by right) L). lia.
    + pose proof (g_disjoint _ _ _ G a c ltac:(left) ltac:(by right) ltac:(lia)). lia.
    + apply (g_disjoint _ _ _ G); [by right|left|done].
    + destruct (Z.lt_trichotomy a b) as [H|[->|H]]; [|done|].
      * pose proof (g_disjoint _ _ _ G a b ltac:(left) ltac:(by right) H). lia.
      * pose proof (g_disjoint _ _ _ G b a ltac:(by right) ltac:(left) H). lia.
    + apply (g_disjoint _ _ _ G); [by right|by right|done].
  - intros x. rewrite <- (g_mapped _ _ _ G). split.
    + intros (b & [->|[->|Hb]%elem_of_cons]%elem_of_cons & Hx); [rewrite E1 in Hx; exists a; split; [left|lia]|rewrite E2 in Hx; exists a; split; [left|lia]|].
      rewrite Ez in Hx by done. exists b. split; [by right|done].
    + intros (b & [->|Hb]%elem_of_cons & Hx).
      * destruct (Z_lt_le_dec x (a + k)); [exists a; split; [left|rewrite E1; lia]|exists (a + k); split; [right; left|rewrite E2; lia]].
      * exists b. split; [right; by right|by rewrite Ez].
Qed.

(** Newly mapped memory is one block. *)
Lemma geometry_region z B R r n : geometry z B R -> (forall x, r <= x < r + n -> ~ mapped R x) ->
  min_size <= n -> (round_up | n) -> (round_up | r) -> min_size <= r -> r + n < 2 ^ 64 -> geometry (set_z z r n) (r :: B) ((r, n) :: R).
Proof.
  intros G Hd Hn Dn Dr Hr Hu. change min_size with 64 in *. assert (Nr : r ∉ B).
  { intros H. apply (Hd r ltac:(lia)). apply (g_mapped _ _ _ G). exists r. split; [done|]. destruct (block_size _ _ _ _ G H). change min_size with 64 in *. lia. }
  assert (Ez : forall b, b ∈ B -> set_z z r n b = z b) by (intros b Hb; apply set_z_ne; congruence).
  assert (Out : forall b x, b ∈ B -> b <= x < b + z b -> ~ r <= x < r + n) by (intros b x Hb Hx H; apply (Hd x H), (g_mapped _ _ _ G); by exists b).
  split.
  - apply NoDup_cons. split; [done|apply G].
  - intros b [->|Hb]%elem_of_cons; [rewrite set_z_eq; change min_size with 64; done|]. rewrite Ez by done. by apply (g_size _ _ _ G).
  - intros b c [->|Hb]%elem_of_cons [->|Hc]%elem_of_cons L; rewrite ?set_z_eq, ?Ez by done; [lia| | |by apply (g_disjoint _ _ _ G)].
    + destruct (block_size _ _ _ _ G Hc). change min_size with 64 in *. pose proof (Out c c Hc ltac:(lia)). lia.
    + destruct (block_size _ _ _ _ G Hb). change min_size with 64 in *. destruct (Z_lt_le_dec r (b + z b)); [|lia]. pose proof (Out b r Hb ltac:(lia)). lia.
  - intros x. split.
    + intros (b & [->|Hb]%elem_of_cons & Hx); [rewrite set_z_eq in Hx; exists r, n; split; [left|done]|]. rewrite Ez in Hx by done.
      assert (M : mapped R x) by (apply (g_mapped _ _ _ G); by exists b). destruct M as (r' & n' & H & Hr'). exists r', n'. split; [by right|done].
    + intros (r' & n' & [[= -> ->]|H]%elem_of_cons & Hx); [exists r; split; [left|by rewrite set_z_eq]|].
      assert (M : mapped R x) by (by exists r', n'). apply (g_mapped _ _ _ G) in M as (b & Hb & Hb'). exists b. split; [by right|by rewrite Ez].
Qed.

(** ** Neighbours *)
Definition apart (z : Z -> Z) (L : list Z) : Prop := forall a b, a ∈ L -> b ∈ L -> a + z a <> b.

(** A neighbour in a sorted list is the next block. *)
Lemma adjacent_next z l1 a l2 O R b : geometry z ((l1 ++ a :: l2) ++ O) R -> StronglySorted Z.lt (l1 ++ a :: l2) -> b ∈ l1 ++ a :: l2 -> a + z a = b -> head l2 = Some b.
Proof.
  intros G S Hb E. assert (Ha : a ∈ (l1 ++ a :: l2) ++ O) by (apply elem_of_app; left; apply elem_of_app; right; left). destruct (block_size _ _ _ _ G Ha) as (Hz & _). change min_size with 64 in *.
  assert (Hb2 : b ∈ l2).
  { apply elem_of_app in Hb as [Hb|[->|Hb]%elem_of_cons]; [|lia|done]. exfalso. clear - S Hb E Hz.
    induction l1 as [|c l1 IH]; [by apply elem_of_nil in Hb|]. cbn in S. apply StronglySorted_inv in S as (S & F). apply elem_of_cons in Hb as [->|Hb]; [|by apply IH].
    rewrite Forall_forall in F. specialize (F a ltac:(apply elem_of_app; right; left)). lia. }
  destruct l2 as [|c l2]; [by apply elem_of_nil in Hb2|]. cbn. f_equal. apply elem_of_cons in Hb2 as [->|Hb2]; [done|]. exfalso.
  assert (Sc : StronglySorted Z.lt (a :: c :: l2)). { clear - S. induction l1 as [|d l1 IH]; [done|]. apply IH. cbn in S. by apply StronglySorted_inv in S as (S & _). }
  apply StronglySorted_inv in Sc as (Sc & Fa). apply StronglySorted_inv in Sc as (_ & Fc). rewrite Forall_forall in Fa, Fc. specialize (Fa c ltac:(left)). specialize (Fc b Hb2).
  pose proof (g_disjoint _ _ _ G a c Ha ltac:(apply elem_of_app; left; apply elem_of_app; right; right; left) Fa). lia.
Qed.

(** With nothing allocated, free blocks without neighbours begin and end where regions do. *)
Lemma block_start z L R a : geometry z L R -> apart z L -> a ∈ L -> exists r n, (r, n) ∈ R /\ a = r.
Proof.
  intros G Ap Ha. destruct (block_size _ _ _ _ G Ha) as (Hz & _). change min_size with 64 in *.
  assert (M : mapped R a) by (apply (g_mapped _ _ _ G); exists a; split; [done|lia]). destruct M as (r & n & Hr & Hx).
  destruct (Z.eq_dec a r) as [->|N]; [by exists r, n|]. exfalso. assert (M : mapped R (a - 1)) by (exists r, n; split; [done|lia]).
  apply (g_mapped _ _ _ G) in M as (b & Hb & Hb'). pose proof (g_disjoint _ _ _ G b a Hb Ha ltac:(lia)). apply (Ap b a Hb Ha). lia.
Qed.

Lemma block_end z L R a : geometry z L R -> apart z L -> a ∈ L -> exists r n, (r, n) ∈ R /\ a + z a = r + n.
Proof.
  intros G Ap Ha. destruct (block_size _ _ _ _ G Ha) as (Hz & _). change min_size with 64 in *.
  assert (M : mapped R (a + z a - 1)) by (apply (g_mapped _ _ _ G); exists a; split; [done|lia]). destruct M as (r & n & Hr & Hx).
  destruct (Z.eq_dec (a + z a) (r + n)) as [E|N]; [by exists r, n|]. exfalso. assert (M : mapped R (a + z a)) by (exists r, n; split; [done|lia]).
  apply (g_mapped _ _ _ G) in M as (b & Hb & Hb'). destruct (Z.lt_trichotomy a b) as [L'|[<-|L']]; [|lia|].
  - pose proof (g_disjoint _ _ _ G a b Ha Hb L'). apply (Ap a b Ha Hb). lia.
  - pose proof (g_disjoint _ _ _ G b a Hb Ha L'). lia.
Qed.

(** A region that no used block meets lies in one free block. *)
Lemma region_free z L Al R r n : geometry z (L ++ Al) R -> apart z L -> (r, n) ∈ R -> 0 < n -> (forall x y, x ∈ Al -> x <= y < x + z x -> ~ r <= y < r + n) -> exists a, a ∈ L /\ n <= z a.
Proof.
  intros G Ap Hr Hn Hu. assert (Free : forall y, r <= y < r + n -> exists a, a ∈ L /\ a <= y < a + z a).
  { intros y Hy. assert (M : mapped R y) by (by exists r, n). apply (g_mapped _ _ _ G) in M as (a & [Ha|Ha]%elem_of_app & Hay); [by exists a|]. by destruct (Hu a y Ha Hay). }
  destruct (Free r ltac:(lia)) as (a & Ha & Hay). exists a. split; [done|]. destruct (Z_lt_le_dec (z a) n) as [Lt|]; [|done]. exfalso.
  destruct (Z_lt_le_dec (a + z a) (r + n)) as [Le|Le]; [|lia]. destruct (Free (a + z a) ltac:(lia)) as (b & Hb & Hby).
  assert (Ha' : a ∈ L ++ Al) by (apply elem_of_app; by left). assert (Hb' : b ∈ L ++ Al) by (apply elem_of_app; by left).
  destruct (Z.lt_trichotomy a b) as [C|[<-|C]]; [|lia|].
  - pose proof (g_disjoint _ _ _ G a b Ha' Hb' C). apply (Ap a b Ha Hb). lia.
  - pose proof (g_disjoint _ _ _ G b a Hb' Ha' C). lia.
Qed.
