(* ===== verification/AllocFree.v ===== *)
(** Free blocks of [absl/base/internal/low_level_alloc.cc] in memory: [AddToFreelist] puts a block into the skip list
    and merges it with its neighbours on both sides. *)
From stdpp Require Import base gmap list sorting.
From Stdlib Require Import ZArith Lia.
From S2P Require Import Prelude Bits LowLevelAlloc SkipList AllocLevels AllocGeometry.
#[local] Open Scope Z_scope.
#[local] Open Scope mach_scope.

Section Arena.
Context (P : Params).

(** A block with its magic number, arena and size. *)
Definition block (m : Mem) (mag a n : Z) : Prop := exists b, m !! a = Some b /\ size b = n /\ magic b = Magic mag a /\ arena b = self P.

Record layout (m : Mem) (z : Z -> Z) (L : list Z) : Prop := {
  lo_list : skiplist P m L;
  lo_head : exists h, m !! freelist P = Some h /\ size h = 0;
  lo_free : forall a, a ∈ L -> block m kMagicUnallocated a (z a) /\ (need (z a) <= lv m a)%nat
}.

(** Everything but the blocks [X] keeps its header. *)
Definition outside (X : list Z) (m m' : Mem) : Prop := forall x, x ∉ X -> x <> freelist P -> hdr <$> m' !! x = hdr <$> m !! x.

Lemma block_hdr m m' mag a n : hdr <$> m' !! a = hdr <$> m !! a -> block m mag a n -> block m' mag a n.
Proof. intros H (b & E & ? & ? & ?). rewrite E in H. destruct (m' !! a) as [b'|] eqn:E'; [|done]. exists b'. cbn in H. injection H as -> -> -> _. done. Qed.

Lemma lv_hdr m m' a : hdr <$> m' !! a = hdr <$> m !! a -> lv m' a = lv m a.
Proof. unfold lv. destruct (m' !! a), (m !! a); cbn; intros H; [by injection H|done|done|done]. Qed.

Lemma skiplist_ext m m' l : skiplist P m l -> (forall a, a ∈ freelist P :: l -> exists b b', m !! a = Some b /\ m' !! a = Some b' /\ levels b' = levels b /\ next b' = next b /\ size b <= size b') ->
  skiplist P m' l.
Proof.
  intros SL H. assert (Lv : forall a, a ∈ l -> lv m' a = lv m a). { intros a Ha. destruct (H a ltac:(by right)) as (b & b' & E & E' & L & _). unfold lv. by rewrite E, E', L. }
  assert (At : forall i l', (forall a, a ∈ l' -> a ∈ l) -> at_level m' i l' = at_level m i l').
  { intros i l' Hl. induction l' as [|a l' IH]; [done|]. unfold at_level in *. rewrite !filter_cons, IH, Lv; [done|apply Hl; left|]. intros c Hc. apply Hl. by right. }
  split.
  - apply SL.
  - intros a Ha. destruct (sl_nodes _ _ _ SL a Ha) as [N (b0 & E0 & L0 & R0)]. split; [done|]. destruct (H a ltac:(by right)) as (b & b' & E & E' & L & _ & Z'). rewrite E0 in E. injection E as <-.
    exists b'. rewrite L. split; [done|split; [done|lia]].
  - intros i Hi. rewrite At by done. eapply segment_ext; [|by apply SL]. intros a Ha. destruct (H a) as (b & b' & E & E' & _ & N & _).
    { apply elem_of_cons in Ha as [->|Ha]; [left|right]. by apply elem_at_level in Ha as (_ & Ha). }
    unfold link_at. rewrite E, E'. cbn. by rewrite N.
  - destruct (sl_head _ _ _ SL) as (h & Eh & Lh). destruct (H (freelist P) ltac:(left)) as (b & b' & E & E' & L & _). rewrite Eh in E. injection E as <-. exists b'. split; [done|].
    rewrite L, Lh. clear - Lv. induction l as [|a l IH]; [done|]. cbn. rewrite Lv by left. rewrite IH; [done|]. intros c Hc. apply Lv. by right.
Qed.

(** A block that is neither in the list nor its head does not matter. *)
Lemma skiplist_insert_other m l a b : skiplist P m l -> a ∉ l -> a <> freelist P -> skiplist P (<[a := b]> m) l.
Proof.
  intros SL Ha Nh. apply (skiplist_ext m); [done|]. intros c Hc. assert (c <> a) by (intros ->; apply elem_of_cons in Hc as [?|?]; congruence).
  apply elem_of_cons in Hc as [->|Hc].
  - destruct (sl_head _ _ _ SL) as (h & Eh & _). exists h, h. by rewrite lookup_insert_ne.
  - destruct (sl_nodes _ _ _ SL c Hc) as [_ (h & Eh & _)]. exists h, h. by rewrite lookup_insert_ne.
Qed.

(** The header of a block of the list changes; it does not shrink. *)
Lemma skiplist_insert_node m l a b b' : skiplist P m l -> m !! a = Some b -> levels b' = levels b -> next b' = next b -> size b <= size b' -> skiplist P (<[a := b']> m) l.
Proof.
  intros SL E L N Z'. apply (skiplist_ext m); [done|]. intros c Hc. destruct (decide (c = a)) as [->|D].
  - exists b, b'. by rewrite lookup_insert_eq.
  - apply elem_of_cons in Hc as [->|Hc].
    + destruct (sl_head _ _ _ SL) as (h & Eh & _). exists h, h. by rewrite lookup_insert_ne.
    + destruct (sl_nodes _ _ _ SL c Hc) as [_ (h & Eh & _)]. exists h, h. by rewrite lookup_insert_ne.
Qed.

(** A block gets its levels and is linked: the common end of [AddToFreelist] and [Coalesce]. *)
Lemma relink_spec s l1 l2 a b : skiplist P (mem s) (l1 ++ l2) -> StronglySorted Z.lt (l1 ++ a :: l2) -> a <> freelist P -> mem s !! a = Some b -> min_size <= size b < 2 ^ 64 ->
  exists n r m1 m2 prev, random_levels s (size b) = Some (n, mk_state (mem s) (allocation_count s) r) /\ modify (mem s) a (set_levels n) = Some m1 /\
  LLA_SkiplistInsert P m1 a = Some (m2, prev) /\ prev !! 0%nat = Some (last_or (freelist P) l1) /\ skiplist P m2 (l1 ++ a :: l2) /\
  outside [a] (mem s) m2 /\ size <$> m2 !! freelist P = size <$> mem s !! freelist P /\ (need (size b) <= lv m2 a)%nat /\
  exists b', m2 !! a = Some b' /\ size b' = size b /\ magic b' = magic b /\ arena b' = arena b.
Proof.
  intros SL Srt Nh E Hz. destruct (random_levels_spec s (size b) Hz) as (n & r & Er & Hn & Hneed & Hfit). exists n, r. unfold modify. rewrite E. cbn [obind].
  set (b1 := set_levels n b). set (m1 := <[a := b1]> (mem s)). assert (SL1 : skiplist P m1 (l1 ++ l2)).
  { apply skiplist_insert_other; [done| |done]. apply sorted_mid in Srt as (A & B & _). intros [H|H]%elem_of_app; [apply A in H|apply B in H]; lia. }
  assert (N1 : node_ok P m1 a) by (split; [done|]; exists b1; unfold m1; rewrite lookup_insert_eq; done).
  destruct (insert_spec P m1 l1 l2 a SL1 N1 Srt) as (m2 & prev & E2 & Pv & SL2 & F2). exists m1, m2, prev.
  destruct (frame_lookup P m1 m2 a b1 F2 Nh) as (b' & Eb' & Hb'); [unfold m1; by rewrite lookup_insert_eq|].
  split; [done|split; [done|split; [done|split; [done|split; [done|split; [|split; [|split]]]]]]].
  - intros x Hx Nx. rewrite (fr_other _ _ _ F2) by done. unfold m1. rewrite lookup_insert_ne; [done|]. intros ->. apply Hx. left.
  - rewrite (fr_head _ _ _ F2). unfold m1. by rewrite lookup_insert_ne.
  - unfold lv. rewrite Eb'. injection Hb' as _ _ _ ->. done.
  - exists b'. injection Hb' as -> -> -> _. done.
Qed.

Lemma outside_mono X Y m m' : (forall x, x ∈ X -> x ∈ Y) -> outside X m m' -> outside Y m m'.
Proof. intros H O x Hx. apply O. intros Hx'. by apply Hx, H. Qed.

Lemma outside_trans X m m' m'' : outside X m m' -> outside X m' m'' -> outside X m m''.
Proof. intros A B x Hx Nx. by rewrite B, A. Qed.

Lemma outside_frame X m m' : frame P m m' -> outside X m m'.
Proof. intros F x _ Nx. by apply (fr_other _ _ _ F). Qed.

Lemma outside_insert m a b : outside [a] m (<[a := b]> m).
Proof. intros x Hx _. rewrite lookup_insert_ne; [done|]. intros ->. apply Hx. left. Qed.

(** A layout after a change of some blocks of the list. *)
Lemma layout_build m m' z z' X L L' : layout m z L -> outside X m m' -> size <$> m' !! freelist P = size <$> m !! freelist P -> skiplist P m' L' ->
  (forall a, a ∈ L' -> a ∉ X -> a ∈ L /\ z' a = z a) -> (forall a, a ∈ L' -> a ∈ X -> block m' kMagicUnallocated a (z' a) /\ (need (z' a) <= lv m' a)%nat) -> layout m' z' L'.
Proof.
  intros [SL (h & Eh & Zh) Fr] O Hh SL' Old New. split.
  - done.
  - rewrite Eh in Hh. destruct (m' !! freelist P) as [h'|]; [|done]. exists h'. cbn in Hh. injection Hh as ->. done.
  - intros a Ha. destruct (decide (a ∈ X)) as [Hx|Hx]; [by apply New|]. destruct (Old a Ha Hx) as (HL & ->). destruct (Fr a HL) as (Hb & Hl).
    assert (E : hdr <$> m' !! a = hdr <$> m !! a) by (apply O; [done|]; apply (no_head _ _ _ (sl_nodes _ _ _ SL' a Ha))). split; [by eapply block_hdr|]. by rewrite (lv_hdr _ _ _ E).
Qed.

(** The two deletions of [Coalesce], after the headers have changed. *)
Lemma unlink_pair m l1 a n l2 : skiplist P m (l1 ++ a :: n :: l2) -> exists m1 m2 p1 p2, LLA_SkiplistDelete P m n = Some (m1, p1) /\ LLA_SkiplistDelete P m1 a = Some (m2, p2) /\
  skiplist P m2 (l1 ++ l2) /\ frame P m m2.
Proof.
  intros SL. destruct (delete_spec P m (l1 ++ [a]) l2 n) as (m1 & p1 & E1 & S1 & F1); [by rewrite <- app_assoc|]. rewrite <- app_assoc in S1.
  destruct (delete_spec P m1 l1 l2 a S1) as (m2 & p2 & E2 & S2 & F2). exists m1, m2, p1, p2. split; [done|split; [done|split; [done|]]]. by eapply frame_trans.
Qed.

(** The link of the lowest level. *)
Lemma next_zero m l1 a l2 : skiplist P m (l1 ++ a :: l2) -> get_next P m a 0 = Some (head l2).
Proof.
  intros SL. assert (Ha : a ∈ l1 ++ a :: l2) by (apply elem_of_app; right; left). pose proof (at_level_zero P _ _ SL _ (fun x H => H)) as E0.
  destruct (node_below_max P _ _ SL a 0 Ha) as (Hg & H0); [apply (elem_at_level _ _ (l1 ++ a :: l2)); by rewrite E0|].
  rewrite Hg. f_equal. pose proof (sl_links _ _ _ SL 0 H0) as Sg. rewrite E0 in Sg. apply segment_app in Sg as (_ & Sg). by apply segment_first.
Qed.

Lemma next_zero_head m L : skiplist P m L -> get_next P m (freelist P) 0 = Some (head L).
Proof.
  intros SL. assert (H0 : (0 < kMaxLevel)%nat) by (unfold kMaxLevel; lia). rewrite (head_next P _ _ SL 0 H0). f_equal.
  pose proof (sl_links _ _ _ SL 0 H0) as Sg. rewrite (at_level_zero P _ _ SL) in Sg by done. by apply segment_first.
Qed.

(** [Coalesce] of a block that is not next to its successor. *)
Lemma coalesce_none s z l1 a l2 : layout (mem s) z (l1 ++ a :: l2) -> head l2 <> Some (a + z a) -> Coalesce P s a = Some s.
Proof.
  intros Lo Hn. destruct (lo_free _ _ _ Lo a ltac:(apply elem_of_app; right; left)) as ((b & E & Zb & _) & _). unfold Coalesce. rewrite E. cbn [obind].
  rewrite (next_zero _ _ _ _ (lo_list _ _ _ Lo)). cbn [obind]. destruct l2 as [|n l2]; [done|]. cbn [head] in *. rewrite (proj2 (Z.eqb_neq _ _)); [done|]. congruence.
Qed.

Lemma coalesce_head s z L : layout (mem s) z L -> Coalesce P s (freelist P) = Some s.
Proof.
  intros Lo. destruct (lo_head _ _ _ Lo) as (h & Eh & Zh). unfold Coalesce. rewrite Eh. cbn [obind]. pose proof (lo_list _ _ _ Lo) as SL. rewrite (next_zero_head _ _ SL). cbn [obind].
  destruct L as [|n L]; [done|]. cbn [head]. rewrite Zh, Z.add_0_r, (proj2 (Z.eqb_neq _ _)); [done|]. intros E. by apply (no_head _ _ _ (sl_nodes _ _ _ SL n ltac:(left))).
Qed.

Lemma sorted_drop l1 a n l2 : StronglySorted Z.lt (l1 ++ a :: n :: l2) -> StronglySorted Z.lt (l1 ++ a :: l2) /\ n ∉ l1 ++ a :: l2.
Proof.
  intros H. replace (l1 ++ a :: n :: l2) with ((l1 ++ [a]) ++ n :: l2) in H by (by rewrite <- app_assoc). apply sorted_mid in H as (A & B & C). rewrite <- app_assoc in C. split; [done|].
  intros Hn. replace (l1 ++ a :: l2) with ((l1 ++ [a]) ++ l2) in Hn by (by rewrite <- app_assoc). apply elem_of_app in Hn as [Hn|Hn]; [apply A in Hn|apply B in Hn]; lia.
Qed.

(** The headers that [Coalesce] changes first. *)
Lemma absorb_spec m z l1 a n l2 b c : layout m z (l1 ++ a :: n :: l2) -> m !! a = Some b -> m !! n = Some c -> n <> a -> z a + z n < 2 ^ 64 -> 0 <= z a -> 0 <= z n ->
  exists b3 m3, (do m <- modify m a (set_size (size b +[64] size c)); do m <- modify m n (set_magic 0); modify m n (set_arena 0)) = Some m3 /\
  skiplist P m3 (l1 ++ a :: n :: l2) /\ outside [a; n] m m3 /\ m3 !! freelist P = m !! freelist P /\
  m3 !! a = Some b3 /\ size b3 = z a + z n /\ magic b3 = magic b /\ arena b3 = arena b.
Proof.
  intros Lo E Ec Nn Hz Ha Hn. pose proof (lo_list _ _ _ Lo) as SL. destruct (lo_free _ _ _ Lo a ltac:(apply elem_of_app; right; left)) as ((b' & E' & Zb & _) & _). rewrite E in E'. injection E' as <-.
  destruct (lo_free _ _ _ Lo n ltac:(apply elem_of_app; right; right; left)) as ((c' & Ec' & Zc & _) & _). rewrite Ec in Ec'. injection Ec' as <-.
  assert (Nh : a <> freelist P) by apply (no_head _ _ _ (sl_nodes _ _ _ SL a ltac:(apply elem_of_app; right; left))).
  assert (Nnh : n <> freelist P) by apply (no_head _ _ _ (sl_nodes _ _ _ SL n ltac:(apply elem_of_app; right; right; left))).
  unfold modify at 1. rewrite E. cbn [obind]. unfold modify at 1. rewrite lookup_insert_ne, Ec by done. cbn [obind]. unfold modify. rewrite lookup_insert_eq. cbn [obind]. rewrite insert_insert_eq.
  set (b1 := set_size _ b). set (c1 := set_arena 0 _). assert (Zb1 : size b1 = z a + z n) by (unfold b1, wrapu; cbn; rewrite Zb, Zc, Z.mod_small; lia).
  exists b1. eexists. split; [done|]. split; [|split; [|split; [|split]]].
  - apply (skiplist_insert_node _ _ _ c); [|by rewrite lookup_insert_ne|done|done|done]. apply (skiplist_insert_node _ _ _ b); [done|done|done|done|]. rewrite Zb1, Zb. lia.
  - intros x Hx Nx. apply not_elem_of_cons in Hx as (Xa & Hx). apply not_elem_of_cons in Hx as (Xn & _). by rewrite !lookup_insert_ne.
  - by rewrite !lookup_insert_ne.
  - by rewrite lookup_insert_ne, lookup_insert_eq.
  - done.
Qed.

Lemma geometry_coalesce z l1 a l2 O R : geometry z ((l1 ++ a :: a + z a :: l2) ++ O) R -> geometry (set_z z a (z a + z (a + z a))) ((l1 ++ a :: l2) ++ O) R.
Proof.
  intros G. rewrite <- Permutation_middle. cbn. apply (geometry_merge _ _ _ a (a + z a)); [|done]. rewrite <- Permutation_middle in G. cbn in G.
  by rewrite <- (Permutation_middle l1 l2 (a + z a)) in G.
Qed.

(** [Coalesce] of neighbours. *)
Lemma coalesce_merge s z l1 a l2 O R : layout (mem s) z (l1 ++ a :: a + z a :: l2) -> geometry z ((l1 ++ a :: a + z a :: l2) ++ O) R ->
  let z' := set_z z a (z a + z (a + z a)) in
  exists s', Coalesce P s a = Some s' /\ layout (mem s') z' (l1 ++ a :: l2) /\ allocation_count s' = allocation_count s /\ outside [a; a + z a] (mem s) (mem s').
Proof.
  intros Lo G z'. pose proof (geometry_coalesce _ _ _ _ _ _ G) as Gm. fold z' in Gm. set (n := a + z a) in *. pose proof (lo_list _ _ _ Lo) as SL.
  assert (Ha : a ∈ l1 ++ a :: n :: l2) by (apply elem_of_app; right; left). assert (Hn : n ∈ l1 ++ a :: n :: l2) by (apply elem_of_app; right; right; left).
  destruct (lo_free _ _ _ Lo a Ha) as ((b & E & Zb & Mb & Ab) & _). destruct (lo_free _ _ _ Lo n Hn) as ((c & Ec & Zc & _) & _).
  pose proof (block_size _ _ _ a Gm ltac:(apply elem_of_app; left; apply elem_of_app; right; left)) as (Hz & _). unfold z' in Hz. rewrite set_z_eq in Hz.
  destruct (block_size _ _ _ a G ltac:(apply elem_of_app; by left)) as (Hs & _). destruct (block_size _ _ _ n G ltac:(apply elem_of_app; by left)) as (Hs' & _).
  assert (H0 : 0 < z a /\ 0 < z n) by (change min_size with 64 in *; lia). destruct (absorb_spec (mem s) z l1 a n l2 b c) as (b3 & m3 & E3 & S3 & O3 & H3 & Eb3 & Zb3 & Mb3 & Ab3); [done|done|done|unfold n; lia|lia|lia|lia|].
  unfold Coalesce. rewrite E. cbn [obind]. rewrite (next_zero _ _ _ _ SL). cbn [obind head]. rewrite Zb. fold n. rewrite Z.eqb_refl, Ec. cbn [obind].
  rewrite Zb in E3. destruct (modify (mem s) a _) as [m1|]; [|done]. cbn [obind] in *. destruct (modify m1 n _) as [m2|]; [|done]. cbn [obind] in *. rewrite E3. cbn [obind].
  destruct (unlink_pair m3 l1 a n l2 S3) as (m4 & m5 & p1 & p2 & E4 & E5 & S5 & F5). rewrite E4. cbn [obind]. rewrite E5. cbn [obind].
  assert (Nh : a <> freelist P) by apply (no_head _ _ _ (sl_nodes _ _ _ SL a Ha)). destruct (sorted_drop _ _ _ _ (sl_sorted _ _ _ SL)) as (Srt & Nn).
  destruct (frame_lookup P m3 m5 a b3 F5 Nh Eb3) as (b5 & Eb5 & Hb5). rewrite Eb5. cbn [obind]. injection Hb5 as Zb5 Mb5 Ab5 Lb5.
  destruct (relink_spec (with_mem s m5) l1 l2 a b5) as (k & r & m6 & m7 & prev & Er & E6 & E7 & _ & S7 & O7 & H7 & N7 & b7 & Eb7 & Zb7 & Mb7 & Ab7); [done|done|done|done|by rewrite Zb5, Zb3|].
  cbn [mem with_mem] in *. rewrite Er. cbn [obind mem]. rewrite E6. cbn [obind]. rewrite E7. cbn [obind]. eexists. split; [done|]. cbn [with_mem mem allocation_count].
  assert (Out : outside [a; n] (mem s) m7).
  { eapply outside_trans; [|eapply outside_mono; [|exact O7]; intros x ->%list_elem_of_singleton; left]. eapply outside_trans; [exact O3|apply outside_frame, F5]. }
  split; [|done]. eapply (layout_build _ _ z z' [a; n]); [exact Lo|done| |done| |].
  - by rewrite H7, (fr_head _ _ _ F5), H3.
  - intros x Hx Hx'. apply not_elem_of_cons in Hx' as (Xa & _). unfold z'. rewrite set_z_ne by done. split; [|done].
    apply elem_of_app in Hx as [Hx|[?|Hx]%elem_of_cons]; [apply elem_of_app; by left|done|apply elem_of_app; right; right; by right].
  - intros x Hx [->|[->|[]%elem_of_nil]%elem_of_cons]%elem_of_cons; [|done]. unfold z'. rewrite set_z_eq.
    split; [exists b7; rewrite Zb7, Mb7, Ab7, Zb5, Mb5, Ab5, Zb3, Mb3, Ab3; done|]. by rewrite Zb5, Zb3 in N7.
Qed.

Lemma exists_last_or_nil {A} (l : list A) : l = [] \/ exists l0 x, l = l0 ++ [x].
Proof. destruct l as [|x l0 _] using rev_ind; [by left|right]. by exists l0, x. Qed.

(** Whichever way [Coalesce] goes, the block has no neighbour after it. *)
Lemma coalesce_next s z l1 a l2 O R : layout (mem s) z (l1 ++ a :: l2) -> geometry z ((l1 ++ a :: l2) ++ O) R ->
  (forall n b, head l2 = Some n -> b ∈ l1 ++ a :: l2 -> n + z n <> b) ->
  exists s' z' l2', Coalesce P s a = Some s' /\ layout (mem s') z' (l1 ++ a :: l2') /\ geometry z' ((l1 ++ a :: l2') ++ O) R /\
  allocation_count s' = allocation_count s /\ outside (l1 ++ a :: l2) (mem s) (mem s') /\ (forall x, x <> a -> z' x = z x) /\ (forall x, x ∈ l2' -> x ∈ l2) /\
  (forall b, b ∈ l1 ++ a :: l2' -> a + z' a <> b).
Proof.
  intros Lo G Hn. pose proof (sl_sorted _ _ _ (lo_list _ _ _ Lo)) as Srt. destruct (decide (head l2 = Some (a + z a))) as [D|D].
  - destruct l2 as [|n l2]; [done|]. cbn in D. injection D as ->. destruct (coalesce_merge s z l1 a l2 O R Lo G) as (s' & E & Lo' & C & Out). exists s', (set_z z a (z a + z (a + z a))), l2.
    split; [done|split; [done|split; [by apply geometry_coalesce|split; [done|split; [|split; [|split]]]]]].
    + eapply outside_mono; [|exact Out]. intros x [->|[->|[]%elem_of_nil]%elem_of_cons]%elem_of_cons; apply elem_of_app; right; [left|right; left].
    + intros x Hx. by apply set_z_ne.
    + intros x Hx. by right.
    + intros b Hb. rewrite set_z_eq, Z.add_assoc. apply Hn; [done|]. apply elem_of_app in Hb as [Hb|[->|Hb]%elem_of_cons]; apply elem_of_app; [by left|right; left|right; right; by right].
  - exists s, z, l2. split; [by eapply coalesce_none|split; [done|split; [done|split; [done|split; [by intros x|split; [done|split; [done|]]]]]]].
    intros b Hb Eb. apply D. rewrite Eb. by eapply adjacent_next.
Qed.

(** Only the block before [f] can end where [f] begins. *)
Lemma only_pred z l1 f l2 O R a : geometry z ((l1 ++ f :: l2) ++ O) R -> StronglySorted Z.lt (l1 ++ f :: l2) -> a ∈ l1 ++ f :: l2 -> a + z a = f -> exists l0, l1 = l0 ++ [a].
Proof.
  intros G Srt Ha E. destruct (block_size _ _ _ a G ltac:(apply elem_of_app; by left)) as (Hz & _). change min_size with 64 in Hz. destruct (sorted_mid _ _ _ Srt) as (A & B & _).
  assert (H1 : a ∈ l1). { apply elem_of_app in Ha as [Ha|[->|Ha]%elem_of_cons]; [done|lia|]. apply B in Ha. lia. }
  apply list_elem_of_split in H1 as (x & y & ->). assert (EL : (x ++ a :: y) ++ f :: l2 = x ++ a :: y ++ f :: l2) by (by rewrite <- app_assoc). rewrite EL in G, Srt. pose proof (adjacent_next z x a (y ++ f :: l2) O R f G Srt) as H.
  specialize (H ltac:(apply elem_of_app; right; right; apply elem_of_app; right; left) E). destruct y as [|c y]; [by exists x|]. cbn in H. injection H as ->. exfalso.
  specialize (A f ltac:(apply elem_of_app; right; right; left)). lia.
Qed.

(** The two calls at the end of [AddToFreelist]. *)
Lemma coalesce_both s z l1 f l2 O R : layout (mem s) z (l1 ++ f :: l2) -> geometry z ((l1 ++ f :: l2) ++ O) R -> apart z (l1 ++ l2) ->
  exists s1 s2 z' L', Coalesce P s f = Some s1 /\ Coalesce P s1 (last_or (freelist P) l1) = Some s2 /\ layout (mem s2) z' L' /\ geometry z' (L' ++ O) R /\ apart z' L' /\
  allocation_count s2 = allocation_count s /\ outside (l1 ++ f :: l2) (mem s) (mem s2) /\ (forall x, x ∉ l1 ++ f :: l2 -> z' x = z x).
Proof.
  intros Lo G Ap. destruct (sorted_mid _ _ _ (sl_sorted _ _ _ (lo_list _ _ _ Lo))) as (A & B & _). assert (Pos : forall a, a ∈ l1 ++ f :: l2 -> 0 < z a).
  { intros a Ha. destruct (block_size _ _ _ a G ltac:(apply elem_of_app; by left)) as (Hz & _). change min_size with 64 in Hz. lia. }
  destruct (coalesce_next s z l1 f l2 O R Lo G) as (s1 & z1 & l2' & E1 & Lo1 & G1 & C1 & O1 & Z1 & Sub & N1).
  { intros n b Hn Hb. assert (Hin : n ∈ l2) by (destruct l2 as [|c l2]; [done|]; cbn in Hn; injection Hn as ->; left). specialize (Pos n ltac:(apply elem_of_app; right; by right)).
    apply elem_of_app in Hb as [Hb|[->|Hb]%elem_of_cons]; [apply Ap; apply elem_of_app; [by right|by left]|apply B in Hin; lia|apply Ap; apply elem_of_app; by right]. }
  assert (Old : forall a b, a ∈ l1 ++ f :: l2' -> b ∈ l1 ++ f :: l2' -> a <> f -> b <> f -> a + z1 a <> b).
  { intros a b Ha Hb Na Nb. rewrite Z1 by done. apply Ap; apply elem_of_app; [apply elem_of_app in Ha as [Ha|[?|Ha]%elem_of_cons]|apply elem_of_app in Hb as [Hb|[?|Hb]%elem_of_cons]]; try done; auto. }
  pose proof (sl_sorted _ _ _ (lo_list _ _ _ Lo1)) as Srt1. pose proof (fun a => only_pred z1 l1 f l2' O R a G1 Srt1) as Pr. destruct (exists_last_or_nil l1) as [->|(l0 & p & ->)].
  - exists s1, s1, z1, (f :: l2'). split; [done|split; [eapply coalesce_head; exact Lo1|split; [done|split; [done|split; [|split; [done|split; [done|]]]]]]].
    + intros a b Ha Hb E. destruct (decide (a = f)) as [->|Na]; [by apply (N1 b)|]. destruct (decide (b = f)) as [->|Nb]; [|by apply (Old a b)].
      destruct (Pr a Ha E) as (l0 & H). by destruct l0.
    + intros x Hx. apply Z1. intros ->. apply Hx. left.
  - unfold last_or at 1. rewrite last_last. assert (EL : forall l, (l0 ++ [p]) ++ f :: l = l0 ++ p :: f :: l) by (intros l; by rewrite <- app_assoc). rewrite !EL in *.
    destruct (coalesce_next s1 z1 l0 p (f :: l2') O R Lo1 G1) as (s2 & z2 & l3 & E2 & Lo2 & G2 & C2 & O2 & Z2 & Sub2 & N2); [intros n b [= <-]; apply N1|].
    assert (Hin : forall x, x ∈ l0 ++ p :: l3 -> x ∈ l0 ++ p :: f :: l2').
    { intros x Hx. apply elem_of_app in Hx as [Hx|[->|Hx]%elem_of_cons]; apply elem_of_app; [by left|right; left|right; right; by apply Sub2]. }
    exists s1, s2, z2, (l0 ++ p :: l3). split; [done|split; [done|split; [done|split; [done|split; [|split; [congruence|split]]]]]].
    + intros a b Ha Hb E. destruct (decide (a = p)) as [->|Np]; [by apply (N2 b)|]. rewrite Z2 in E by done. apply Hin in Ha, Hb. destruct (decide (a = f)) as [->|Na]; [by apply (N1 b)|].
      destruct (decide (b = f)) as [->|Nb]; [|by apply (Old a b)]. destruct (Pr a Ha E) as (l & H). by apply app_inj_tail in H as (_ & ->).
    + eapply outside_trans; [exact O1|]. eapply outside_mono; [|exact O2]. intros x Hx. apply elem_of_app in Hx as [Hx|Hx]; apply elem_of_app; [by left|right].
      apply elem_of_cons in Hx as [->|[->|Hx]%elem_of_cons]; [left|right; left|right; right; by apply Sub].
    + intros x Hx. rewrite Z2, Z1; [done| |]; intros ->; apply Hx, elem_of_app; right; [right|]; left.
Qed.

Lemma sorted_ins l e : StronglySorted Z.lt l -> e ∉ l -> StronglySorted Z.lt (below e l ++ e :: above e l).
Proof.
  induction 1 as [|a l S IH F]; intros He; [repeat constructor|]. apply not_elem_of_cons in He as (Ne & He). specialize (IH He). rewrite Forall_forall in F.
  unfold below, above in *. rewrite !filter_cons. destruct (decide (a < e)) as [L|L].
  - rewrite decide_False by lia. cbn. constructor; [done|]. apply Forall_forall. intros b [Hb|[->|Hb]%elem_of_cons]%elem_of_app; [|done|]; apply F; by apply list_elem_of_filter in Hb as (_ & Hb).
  - rewrite decide_True by lia. rewrite filter_empty by (intros b Hb; apply F in Hb; lia). rewrite filter_every by (intros b Hb; apply F in Hb; lia). cbn.
    constructor; [by constructor; [|apply Forall_forall]|]. apply Forall_forall. intros b [->|Hb]%elem_of_cons; [lia|]. apply F in Hb. lia.
Qed.

(** [AddToFreelist]: the block [f] becomes free; the other blocks [O] keep their headers and sizes. *)
Lemma add_to_freelist s z L f O R : layout (mem s) z L -> geometry z (L ++ f :: O) R -> apart z L -> block (mem s) kMagicAllocated f (z f) -> f <> freelist P ->
  exists s' z' L', AddToFreelist P s (f + sizeof_header) = Some s' /\ layout (mem s') z' L' /\ geometry z' (L' ++ O) R /\ apart z' L' /\
  allocation_count s' = allocation_count s /\ outside (f :: L) (mem s) (mem s') /\ (forall x, x ∈ O -> z' x = z x).
Proof.
  intros Lo G Ap (b & E & Zb & Mb & Ab) Nh. pose proof (g_nodup _ _ _ G) as N. apply NoDup_app in N as (_ & Nd & N). apply NoDup_cons in N as (NfO & _).
  assert (NfL : f ∉ L) by (intros H; apply (Nd f H); left). pose proof (lo_list _ _ _ Lo) as SL. pose proof (sorted_split L f (sl_sorted _ _ _ SL)) as EL.
  pose proof (sorted_ins L f (sl_sorted _ _ _ SL) NfL) as Srt. destruct (block_size _ _ _ f G ltac:(apply elem_of_app; right; left)) as (Hz & _).
  set (l1 := below f L) in *. set (l2 := above f L) in *. unfold AddToFreelist. replace (f + sizeof_header - sizeof_header) with f by lia. rewrite E. cbn [obind].
  rewrite Mb, Ab, !Z.eqb_refl. cbn [andb]. rewrite EL in SL.
  destruct (relink_spec s l1 l2 f b SL Srt Nh E) as (k & r & m1 & m2 & prev & Er & E1 & E2 & Pv & S2 & O2 & H2 & N2 & b2 & Eb2 & Zb2 & Mb2 & Ab2); [by rewrite Zb|].
  rewrite Er. cbn [obind mem]. rewrite E1. cbn [obind]. rewrite E2. cbn [obind]. unfold modify. rewrite Eb2. cbn [obind with_mem mem allocation_count random].
  set (b3 := set_magic _ b2). set (m3 := <[f := b3]> m2). set (s3 := with_mem _ m3). assert (Out : outside [f] (mem s) m3) by (eapply outside_trans; [exact O2|apply outside_insert]).
  assert (Lo3 : layout (mem s3) z (l1 ++ f :: l2)).
  { apply (layout_build (mem s) m3 z z [f] L); [done|done| | | |].
    - unfold m3. rewrite lookup_insert_ne by done. done.
    - by apply (skiplist_insert_node _ _ _ b2).
    - intros x Hx Hx'. split; [|done]. rewrite EL. apply elem_of_app in Hx as [Hx|[->|Hx]%elem_of_cons]; [apply elem_of_app; by left| |apply elem_of_app; by right]. by destruct Hx'; left.
    - intros x _ ->%list_elem_of_singleton. split; [exists b3; unfold m3; rewrite lookup_insert_eq; cbn; rewrite Zb2, Ab2; done|]. unfold lv, m3 in *. rewrite lookup_insert_eq. rewrite Eb2 in N2. by rewrite Zb in N2. }
  assert (G3 : geometry z ((l1 ++ f :: l2) ++ O) R). { rewrite EL in G. rewrite <- Permutation_middle in G. rewrite <- Permutation_middle. done. }
  destruct (coalesce_both s3 z l1 f l2 O R Lo3 G3) as (s4 & s5 & z' & L' & E4 & E5 & Lo5 & G5 & Ap5 & C5 & O5 & Z5); [by rewrite <- EL|].
  rewrite E4. cbn [obind]. rewrite Pv. cbn [obind]. rewrite E5. assert (In : forall x, x ∈ l1 ++ f :: l2 <-> x = f \/ x ∈ L).
  { intros x. rewrite EL at 1. rewrite !elem_of_app, elem_of_cons. tauto. }
  exists s5, z', L'. split; [done|split; [done|split; [done|split; [done|split; [done|split]]]]].
  - eapply outside_trans; [eapply outside_mono; [|exact Out]; intros x ->%list_elem_of_singleton; left|]. eapply outside_mono; [|exact O5]. intros x Hx. apply elem_of_cons. by apply In.
  - intros x Hx. apply Z5. intros [->|H]%In; [done|]. apply (Nd x H). by right.
Qed.
End Arena.
