(* ===== verification/AllocLaws.v ===== *)
(** The arenas of [absl/base/internal/low_level_alloc.cc]: from a new arena on, whatever the order of allocations,
    releases, newly mapped pages and writes of clients to their memory, no check fails, the blocks handed out are
    disjoint parts of the mapped memory and hold what was asked for, one new region is enough for a request, and an
    arena without allocations gives whole pages back. *)
From stdpp Require Import base gmap list sorting.
From Stdlib Require Import ZArith Lia.
From S2P Require Import Prelude Bits LowLevelAlloc SkipList AllocLevels AllocGeometry AllocFree.
#[local] Open Scope Z_scope.
#[local] Open Scope mach_scope.

(** ** Arithmetic *)
Lemma checked_add a b : 0 <= a < 2 ^ 64 -> 0 <= b < 2 ^ 64 -> CheckedAdd a b = if a + b <? 2 ^ 64 then Some (a + b) else None.
Proof.
  intros Ha Hb. unfold CheckedAdd, wrapu. rewrite Z.geb_leb. destruct (Z.ltb_spec (a + b) (2 ^ 64)) as [L|L].
  - rewrite Z.mod_small by lia. by rewrite (proj2 (Z.leb_le _ _)) by lia.
  - rewrite <- (Z.mod_unique_pos (a + b) (2 ^ 64) 1 (a + b - 2 ^ 64)) by lia. by rewrite (proj2 (Z.leb_gt _ _)) by lia.
Qed.

(** The least multiple of [q] from [a] on. *)
Definition ceil (a q : Z) : Z := q * ((a + (q - 1)) / q).

Lemma ceil_spec a q : 0 < q -> a <= ceil a q < a + q /\ (q | ceil a q).
Proof. intros H. unfold ceil. pose proof (Z.mul_div_le (a + (q - 1)) q H). pose proof (Z.mul_succ_div_gt (a + (q - 1)) q H). split; [lia|]. apply Z.divide_factor_l. Qed.

Lemma round_up_spec a k : 0 <= a -> 0 <= k < 64 -> a + (2 ^ k - 1) < 2 ^ 64 -> RoundUp a (2 ^ k) = Some (ceil a (2 ^ k)).
Proof.
  intros Ha Hk Hu. unfold RoundUp. assert (0 < 2 ^ k) by (apply Z.pow_pos_nonneg; lia). assert (E : 2 ^ k -[64] 1 = Z.ones k) by (unfold wrapu; rewrite Z.mod_small, Z.ones_equiv by lia; lia).
  rewrite E. rewrite Z.ones_equiv at 1. unfold Z.pred. rewrite checked_add by lia. rewrite (proj2 (Z.ltb_lt _ _)) by lia. cbn [obind].
  by rewrite land_clear_low by (unfold in_u; lia).
Qed.

(** ** Filters *)
Lemma filter_iff_in (Q Q' : Z -> Prop) `{!forall a, Decision (Q a)} `{!forall a, Decision (Q' a)} (l : list Z) : (forall a, a ∈ l -> Q a <-> Q' a) -> filter Q l = filter Q' l.
Proof.
  induction l as [|a l IH]; intros E; [done|]. rewrite !filter_cons, IH by (intros b Hb; apply E; by right). pose proof (E a ltac:(left)). by repeat case_decide; try tauto.
Qed.

Lemma sorted_filter (Q : Z -> Prop) `{!forall a, Decision (Q a)} (l : list Z) : StronglySorted Z.lt l -> StronglySorted Z.lt (filter Q l).
Proof.
  induction 1 as [|a l S IH F]; [constructor|]. rewrite filter_cons. case_decide; [|done]. constructor; [done|]. rewrite Forall_forall in *. intros b Hb. apply F. by apply list_elem_of_filter in Hb as (_ & Hb).
Qed.

Section Arena.
Context (P : Params).

(** ** The invariant *)
Record inv (s : State) (z : Z -> Z) (L Al : list Z) (R : list (Z * Z)) : Prop := {
  i_layout : layout P (mem s) z L;
  i_used : forall a, a ∈ Al -> block P (mem s) kMagicAllocated a (z a);
  i_geometry : geometry z (L ++ Al) R;
  i_apart : apart z L;
  i_count : allocation_count s = Z.of_nat (length Al);
  i_head : ~ mapped R (freelist P)
}.

Lemma block_not_head z B R a x : geometry z B R -> ~ mapped R (freelist P) -> a ∈ B -> a <= x < a + z a -> x <> freelist P.
Proof. intros G H Ha Hx ->. apply H, (g_mapped _ _ _ G). by exists a. Qed.

Lemma start_not_head z B R a : geometry z B R -> ~ mapped R (freelist P) -> a ∈ B -> a <> freelist P.
Proof. intros G H Ha. destruct (block_size _ _ _ _ G Ha) as (Hz & _). change min_size with 64 in Hz. eapply block_not_head; [done|done|done|]. lia. Qed.

(** ** The search for a block *)
Section Search.
Context (s : State) (z : Z -> Z) (L Al : list Z) (R : list (Z * Z)) (I : inv s z L Al R) (i : nat) (req : Z).

(** A place on level [i] from which the search may go on to blocks above it. *)
Definition at_place (p : Z) (T : list Z) : Prop :=
  p = freelist P /\ (i < lv (mem s) p)%nat \/ p ∈ L /\ (i < lv (mem s) p)%nat /\ forall x, x ∈ T -> p < x.

Lemma next_checked p T : (i < kMaxLevel)%nat -> at_place p T -> segment (link_at (mem s) i) p T None -> (forall x, x ∈ T -> x ∈ L) -> Next P i p (mem s) = Some (head T).
Proof.
  intros Hi Hp Sg HT. pose proof (i_layout _ _ _ _ _ I) as Lo. pose proof (lo_list _ _ _ _ Lo) as SL. pose proof (segment_first _ _ _ Sg) as Ef. assert (Hl : (i < lv (mem s) p)%nat) by (destruct Hp; tauto).
  assert (G : get_next P (mem s) p i = Some (head T)). { rewrite <- Ef. destruct Hp as [(-> & _)|(Hp & _)]; [by eapply head_next|by eapply node_below_max]. }
  unfold Next. unfold lv in Hl. destruct (mem s !! p) as [bp|] eqn:Ep; [|lia]. cbn [obind]. rewrite (proj2 (Nat.ltb_lt _ _)) by done. rewrite G. cbn [obind].
  destruct T as [|a T]; [done|]. cbn [head]. assert (Ha : a ∈ L) by (apply HT; left). destruct (lo_free _ _ _ _ Lo a Ha) as ((b & E & Zb & Mb & Ab) & _). rewrite E. cbn [obind].
  rewrite Mb, Ab, !Z.eqb_refl. cbn [andb]. destruct Hp as [(-> & _)|(Hp & _ & Lt)]; [by rewrite Z.eqb_refl|]. specialize (Lt a ltac:(left)).
  destruct (lo_free _ _ _ _ Lo p Hp) as ((b' & E' & Zp & _) & _). rewrite Ep in E'. injection E' as <-. pose proof (i_geometry _ _ _ _ _ I) as Ge.
  pose proof (g_disjoint _ _ _ Ge p a ltac:(apply elem_of_app; by left) ltac:(apply elem_of_app; by left) Lt). pose proof (i_apart _ _ _ _ _ I p a Hp Ha).
  rewrite (proj2 (Z.ltb_lt p a)), (proj2 (Z.ltb_lt (p + size bp) a)) by lia. by rewrite orb_true_r.
Qed.

Lemma first_fit_spec : (i < kMaxLevel)%nat -> forall T p fuel, at_place p T -> segment (link_at (mem s) i) p T None -> StronglySorted Z.lt T ->
  (forall x, x ∈ T -> x ∈ L /\ (i < lv (mem s) x)%nat) -> (length T <= fuel)%nat -> first_fit P fuel i p req (mem s) = Some (head (filter (fun a => req <= z a) T)).
Proof.
  intros Hi. induction T as [|a T IH]; intros p fuel Hp Sg Srt HT Hf.
  - destruct fuel; cbn [first_fit]; (rewrite (next_checked p []); [done|done|done|done|by intros x Hx%elem_of_nil]).
  - assert (E : first_fit P fuel i p req (mem s) = do s0 <- Next P i p (mem s); match s0 with None => Some None | Some a => do b <- mem s !! a;
      if size b <? req then match fuel with O => None | S fuel' => first_fit P fuel' i a req (mem s) end else Some (Some a) end) by (by destruct fuel).
    rewrite E, (next_checked p (a :: T)); [|done|done|done|intros x Hx; by apply HT]. cbn [obind head]. destruct (HT a ltac:(left)) as (Ha & La).
    destruct (lo_free _ _ _ _ (i_layout _ _ _ _ _ I) a Ha) as ((b & Eb & Zb & _) & _). rewrite Eb. cbn [obind]. rewrite Zb, filter_cons. apply StronglySorted_inv in Srt as (Srt & F). rewrite Forall_forall in F.
    destruct (Z.ltb_spec (z a) req) as [Lt|Ge]; [|by rewrite decide_True]. rewrite decide_False by lia. destruct fuel as [|fuel]; [cbn in Hf; lia|].
    apply IH; [right; split; [done|split; [done|]]; intros x Hx; by apply F|by destruct Sg|done|intros x Hx; apply HT; by right|cbn in Hf; lia].
Qed.
End Search.

Lemma list_in_map m (l : list Z) : NoDup l -> (forall a, a ∈ l -> is_Some ((m : Mem) !! a)) -> (length l <= stdpp.base.size m)%nat.
Proof.
  intros N H. rewrite <- (size_list_to_set (C := gset Z)) by done. rewrite <- (size_dom (D := gset Z) m). apply subseteq_size. intros a Ha. apply elem_of_list_to_set in Ha.
  by apply elem_of_dom, H.
Qed.

(** The search along one level finds what a scan of the whole free list would: the first block that is large enough. *)
Lemma find_region_spec s z L Al R req : inv s z L Al R -> min_size <= req < 2 ^ 64 -> find_region P s req = Some (head (filter (fun a => req <= z a) L)).
Proof.
  intros I Hr. pose proof (i_layout _ _ _ _ _ I) as Lo. pose proof (lo_list _ _ _ _ Lo) as SL. destruct (need_spec req Hr) as (En & Hn). unfold find_region. rewrite En. cbn [obind].
  set (i := (need req - 1)%nat). assert (EF : filter (fun a => req <= z a) L = filter (fun a => req <= z a) (at_level (mem s) i L)).
  { unfold at_level. rewrite list_filter_filter. apply filter_iff_in. intros a Ha. split; [|tauto]. intros Hz. split; [done|]. destruct (lo_free _ _ _ _ Lo a Ha) as (_ & Hl).
    destruct (block_size _ _ _ a (i_geometry _ _ _ _ _ I)) as (Hs & _); [apply elem_of_app; by left|]. pose proof (need_mono req (z a) ltac:(lia) ltac:(lia)). lia. }
  destruct (sl_head _ _ _ SL) as (h & Eh & Lh). rewrite Eh. cbn [obind]. destruct (Nat.ltb_spec i (levels h)) as [Hi|Hi].
  - rewrite EF. apply (first_fit_spec s z L Al R I i req); [lia| | | | |].
    + left. split; [done|]. unfold lv. by rewrite Eh.
    + apply SL. lia.
    + apply sorted_filter, SL.
    + intros x Hx. apply elem_at_level in Hx. tauto.
    + apply list_in_map; [apply NoDup_filter, sorted_nodup, SL|]. intros a Ha. apply elem_at_level in Ha as (_ & Ha). destruct (lo_free _ _ _ _ Lo a Ha) as ((b & E & _) & _). by exists b.
  - rewrite EF, above_height by lia. done.
Qed.

(** ** Operations *)

(** The end of an allocation: the block [a], which is not in the list any more, is marked. *)
Lemma mark_allocated s z L Al R a b : layout P (mem s) z L -> (forall x, x ∈ Al -> block P (mem s) kMagicAllocated x (z x)) -> geometry z (L ++ a :: Al) R -> apart z L ->
  allocation_count s = Z.of_nat (length Al) -> ~ mapped R (freelist P) -> mem s !! a = Some b -> size b = z a -> arena b = self P -> Z.of_nat (length Al) < 2 ^ 31 - 1 ->
  exists s', (do m <- modify (mem s) a (set_magic (Magic kMagicAllocated a)); do b <- m !! a; do count <- checked 32 (allocation_count s + 1);
    if arena b =? self P then Some (a + sizeof_header, mk_state m count (random s)) else None) = Some (a + sizeof_header, s') /\ inv s' z L (a :: Al) R.
Proof.
  intros Lo Us G Ap C Hh E Zb Ab Hc. unfold modify. rewrite E. cbn [obind]. rewrite lookup_insert_eq. cbn [obind]. unfold checked. rewrite C.
  assert (Ec : in_sb 32 (Z.of_nat (length Al) + 1) = true) by (unfold in_sb; apply andb_true_iff; rewrite Z.leb_le, Z.ltb_lt; change (2 ^ (32 - 1)) with (2 ^ 31); lia).
  rewrite Ec. cbn [obind arena set_magic]. rewrite Ab, Z.eqb_refl. eexists. split; [done|]. pose proof (g_nodup _ _ _ G) as N. apply NoDup_app in N as (_ & Nd & N). apply NoDup_cons in N as (Na & _).
  assert (NaL : a ∉ L) by (intros H; apply (Nd a H); left). assert (Nh : a <> freelist P) by (eapply start_not_head; [done|done|apply elem_of_app; right; left]).
  assert (Ot : outside P [a] (mem s) (<[a := set_magic (Magic kMagicAllocated a) b]> (mem s))) by apply outside_insert. split; cbn [mem allocation_count].
  - apply (layout_build P (mem s) _ z z [a] L); [done|done|by rewrite lookup_insert_ne| |done|intros x Hx ->%list_elem_of_singleton; done].
    apply skiplist_insert_other; [apply Lo|done|done].
  - intros x [->|Hx]%elem_of_cons; [eexists; rewrite lookup_insert_eq; split; [done|done]|]. eapply block_hdr; [|by apply Us]. apply Ot; [|eapply start_not_head; [done|done|apply elem_of_app; right; by right]].
    intros ->%list_elem_of_singleton. done.
  - done.
  - done.
  - cbn [length]. lia.
  - done.
Qed.

Lemma apart_sub z L L' : apart z L -> (forall x, x ∈ L' -> x ∈ L) -> apart z L'.
Proof. intros A H a b Ha Hb. apply A; by apply H. Qed.

(** The cut of [take_region]: the rest of the block is free again. *)
Lemma cut_spec s z l a Al R b req : layout P (mem s) z l -> geometry z (l ++ a :: Al) R -> apart z l -> ~ mapped R (freelist P) -> mem s !! a = Some b -> size b = z a -> arena b = self P ->
  (round_up | req) -> min_size <= req -> req + min_size <= z a ->
  exists m s' z' L' b', modify (<[req + a := raw_block P (size b - req) (req + a)]> (mem s)) a (set_size req) = Some m /\
  AddToFreelist P (with_mem s m) (req + a + sizeof_header) = Some s' /\ layout P (mem s') z' L' /\ geometry z' (L' ++ a :: Al) R /\ apart z' L' /\
  allocation_count s' = allocation_count s /\ (forall x, x ∈ Al -> z' x = z x /\ hdr <$> mem s' !! x = hdr <$> mem s !! x) /\
  mem s' !! a = Some b' /\ size b' = req /\ z' a = req /\ arena b' = self P.
Proof.
  intros Lo G Ap Hh E Zb Ab Dr Hr Hz. set (n := req + a). pose proof G as G'. rewrite <- Permutation_middle in G'. pose proof (geometry_split z (l ++ Al) R a req G' Dr Hr Hz) as Gs.
  replace (a + req) with n in Gs by (unfold n; lia). set (z1 := set_z (set_z z n (z a - req)) a req) in Gs. pose proof (g_nodup _ _ _ Gs) as N. apply NoDup_cons in N as (Na & N). apply NoDup_cons in N as (Nn & N).
  apply not_elem_of_cons in Na as (Nan & Na). apply not_elem_of_app in Na as (Nal & NaA). apply not_elem_of_app in Nn as (Nnl & NnA). change min_size with 64 in *.
  assert (Nah : a <> freelist P) by (eapply start_not_head; [exact Gs|done|left]). assert (Nnh : n <> freelist P) by (eapply start_not_head; [exact Gs|done|right; left]).
  assert (Z1 : forall x, x <> a -> x <> n -> z1 x = z x) by (intros x Ha Hn; unfold z1; by rewrite !set_z_ne). assert (Z1a : z1 a = req) by apply set_z_eq.
  assert (Z1n : z1 n = z a - req) by (unfold z1; rewrite set_z_ne, set_z_eq by done; done). set (m1 := <[n := raw_block P (size b - req) n]> (mem s)).
  assert (Ea : m1 !! a = Some b) by (unfold m1; by rewrite lookup_insert_ne). unfold modify. rewrite Ea. cbn [obind]. set (m2 := <[a := set_size req b]> m1). set (s2 := with_mem s m2).
  assert (O2 : outside P [a; n] (mem s) m2). { intros x Hx Nx. apply not_elem_of_cons in Hx as (Xa & Hx). apply not_elem_of_cons in Hx as (Xn & _). unfold m2, m1. by rewrite !lookup_insert_ne. }
  assert (Lo2 : layout P (mem s2) z1 l).
  { apply (layout_build P (mem s) m2 z z1 [a; n] l); [done|done|unfold m2, m1; by rewrite !lookup_insert_ne| | |].
    - apply skiplist_insert_other; [|done|done]. apply skiplist_insert_other; [apply Lo|done|done].
    - intros x Hx Hx'. apply not_elem_of_cons in Hx' as (Xa & Hx'). apply not_elem_of_cons in Hx' as (Xn & _). split; [done|by apply Z1].
    - intros x Hx [->|[->|[]%elem_of_nil]%elem_of_cons]%elem_of_cons; done. }
  assert (G2 : geometry z1 (l ++ n :: a :: Al) R) by (by rewrite <- !Permutation_middle, Permutation_swap).
  assert (Ap2 : apart z1 l) by (intros x y Hx Hy; rewrite Z1; [by apply Ap|congruence|congruence]).
  destruct (add_to_freelist P s2 z1 l n (a :: Al) R Lo2 G2 Ap2) as (s3 & z3 & L3 & E3 & Lo3 & G3 & Ap3 & C3 & O3 & Z3); [|done|].
  { exists (raw_block P (size b - req) n). cbn [mem s2 with_mem]. unfold m2. rewrite lookup_insert_ne by done. unfold m1. rewrite lookup_insert_eq. cbn. rewrite Z1n, Zb. done. }
  assert (Ha3 : hdr <$> mem s3 !! a = hdr <$> m2 !! a) by (apply O3; [|done]; apply not_elem_of_cons; split; [done|done]). unfold m2 in Ha3 at 1. rewrite lookup_insert_eq in Ha3.
  destruct (mem s3 !! a) as [b'|] eqn:E4; [|done]. cbn in Ha3. injection Ha3 as Hb1 _ Hb3 _. exists m2, s3, z3, L3, b'. rewrite (Z3 a) by left. rewrite Z1a, Hb3.
  split; [done|split; [done|split; [done|split; [done|split; [done|split; [done|split; [|done]]]]]]]. intros x Hx. assert (Xa : x <> a) by congruence. assert (Xn : x <> n) by congruence.
  rewrite Z3 by (by right). rewrite Z1 by done. split; [done|]. assert (Xh : x <> freelist P) by (eapply start_not_head; [exact G|done|apply elem_of_app; right; by right]).
  rewrite O3; [|apply not_elem_of_cons; split; [done|]|done]; [apply O2; [|done]; intros [?|[?|[]%elem_of_nil]%elem_of_cons]%elem_of_cons; done|].
  intros Hl. pose proof (g_nodup _ _ _ G) as Nd. apply NoDup_app in Nd as (_ & Nd & _). apply (Nd x Hl). by right.
Qed.

Lemma frame_layout m m' z l1 a l2 : layout P m z (l1 ++ a :: l2) -> frame P m m' -> skiplist P m' (l1 ++ l2) -> layout P m' z (l1 ++ l2).
Proof.
  intros Lo F S. apply (layout_build P m m' z z [] (l1 ++ a :: l2)); [done|by apply outside_frame|by apply fr_head|done| |by intros x _ []%elem_of_nil].
  intros x Hx _. split; [|done]. apply elem_of_app in Hx as [Hx|Hx]; apply elem_of_app; [by left|right; by right].
Qed.

(** A block of the list that is large enough is handed out. *)
Lemma take_region_spec s z L Al R a req : inv s z L Al R -> a ∈ L -> req <= z a -> (round_up | req) -> min_size <= req -> Z.of_nat (length Al) < 2 ^ 31 - 1 ->
  exists s' z' L', take_region P s a req = Some (a + sizeof_header, s') /\ inv s' z' L' (a :: Al) R /\ (forall x, x ∈ Al -> z' x = z x) /\ req <= z' a < req + min_size.
Proof.
  intros [Lo Us G Ap C Hh] Ha Hz Dr Hr Hc. apply list_elem_of_split in Ha as (l1 & l2 & ->). pose proof (lo_list _ _ _ _ Lo) as SL.
  assert (Ha : a ∈ l1 ++ a :: l2) by (apply elem_of_app; right; left). destruct (lo_free _ _ _ _ Lo a Ha) as ((b & E & Zb & _ & Ab) & _).
  destruct (delete_spec P (mem s) l1 l2 a SL) as (m1 & prev & E1 & S1 & F1). pose proof (frame_layout _ _ _ _ _ _ Lo F1 S1) as Lo1.
  destruct (frame_lookup P _ _ a b F1 (no_head _ _ _ (sl_nodes _ _ _ SL a Ha)) E) as (b1 & Eb1 & Hb1). injection Hb1 as Zb1 _ Ab1 _. rewrite Zb in Zb1. rewrite Ab in Ab1.
  assert (Ga : geometry z ((l1 ++ l2) ++ a :: Al) R). { rewrite <- Permutation_middle in G. by rewrite <- Permutation_middle. }
  assert (Ap1 : apart z (l1 ++ l2)). { eapply apart_sub; [exact Ap|]. intros x Hx. apply elem_of_app in Hx as [Hx|Hx]; apply elem_of_app; [by left|right; by right]. }
  assert (Us1 : forall x, x ∈ Al -> block P m1 kMagicAllocated x (z x)).
  { intros x Hx. eapply block_hdr; [|by apply Us]. apply (fr_other _ _ _ F1). eapply start_not_head; [exact G|done|apply elem_of_app; by right]. }
  destruct (g_size _ _ _ Ga a ltac:(apply elem_of_app; right; left)) as (_ & _ & _ & Hlow & Hup). unfold take_region. rewrite E1. cbn [obind]. rewrite Eb1. cbn [obind].
  assert (Hadd : CheckedAdd req min_size = Some (req + min_size)). { change min_size with 64 in *. rewrite checked_add by lia. rewrite (proj2 (Z.ltb_lt _ _)) by lia. done. }
  rewrite Hadd. cbn [obind]. destruct (Z.leb_spec (req + min_size) (size b1)) as [Lt|Ge].
  - destruct (cut_spec (with_mem s m1) z (l1 ++ l2) a Al R b1 req) as (m2 & s3 & z3 & L3 & b3 & E2 & E3 & Lo3 & G3 & Ap3 & C3 & K3 & Eb3 & Zb3 & Za3 & Ab3); [done|done|done|done|done|done|done|done|done|lia|].
    cbn [mem with_mem] in E2. rewrite E2. cbn [obind]. replace (with_mem (with_mem s m1) m2) with (with_mem s m2) in E3 by done. rewrite E3. cbn [obind].
    destruct (mark_allocated s3 z3 L3 Al R a b3) as (s4 & E4 & I4); [done| |done|done|cbn in C3; by rewrite C3|done|done|by rewrite Za3|done|done|].
    { intros x Hx. destruct (K3 x Hx) as (-> & Hh3). eapply block_hdr; [exact Hh3|]. by apply Us1. }
    rewrite E4. exists s4, z3, L3. split; [done|split; [done|split; [intros x Hx; by destruct (K3 x Hx)|]]]. rewrite Za3. change min_size with 64. lia.
  - cbn [obind]. destruct (mark_allocated (with_mem s m1) z (l1 ++ l2) Al R a b1) as (s4 & E4 & I4); [done|done|done|done|done|done|done|done|done|done|].
    cbn [mem with_mem allocation_count random] in *. rewrite E4. exists s4, z, (l1 ++ l2). split; [done|split; [done|split; [done|lia]]].
Qed.

(** What the kernel promises of the address it maps [n] bytes at. *)
Record fresh (R : list (Z * Z)) (r n : Z) : Prop := {
  fr_page : (pagesize P | r);
  fr_low : min_size <= r;
  fr_high : r + n < 2 ^ 64;
  fr_new : forall x, r <= x < r + n -> ~ mapped R x /\ x <> freelist P
}.

(** New pages are added to the free memory. *)
Lemma add_region_spec s z L Al R r n : inv s z L Al R -> fresh R r n -> (round_up | pagesize P) -> (round_up | n) -> min_size <= n ->
  exists s' z' L', add_region P s r n = Some s' /\ inv s' z' L' Al ((r, n) :: R) /\ (forall x, x ∈ Al -> z' x = z x) /\ exists a, a ∈ L' /\ n <= z' a.
Proof.
  intros [Lo Us G Ap C Hh] [Fp Fl Fh Fn] Dp Dn Hn. assert (Dr : (round_up | r)) by (by apply (Z.divide_trans _ (pagesize P))). change min_size with 64 in *.
  pose proof (geometry_region z (L ++ Al) R r n G (fun x Hx => proj1 (Fn x Hx)) Hn Dn Dr Fl Fh) as Gr. set (z1 := set_z z r n) in Gr.
  pose proof (g_nodup _ _ _ Gr) as N. apply NoDup_cons in N as (Nr & N). apply not_elem_of_app in Nr as (NrL & NrA). assert (Nrh : r <> freelist P) by (apply (Fn r); lia).
  assert (Hh' : ~ mapped ((r, n) :: R) (freelist P)).
  { intros (r' & n' & [[= -> ->]|Hin]%elem_of_cons & Hx); [by apply (Fn (freelist P) Hx)|]. apply Hh. by exists r', n'. }
  assert (Z1 : forall x, x ∈ L ++ Al -> z1 x = z x) by (intros x Hx; apply set_z_ne; intros ->; apply elem_of_app in Hx as [?|?]; done).
  unfold add_region. set (m1 := <[r := raw_block P n r]> (mem s)). set (s1 := with_mem s m1). assert (Lo1 : layout P (mem s1) z1 L).
  { apply (layout_build P (mem s) m1 z z1 [r] L); [done|apply outside_insert|unfold m1; by rewrite lookup_insert_ne|by apply skiplist_insert_other; [apply Lo| |]| |intros x Hx ->%list_elem_of_singleton; done].
    intros x Hx _. split; [done|]. apply Z1, elem_of_app. by left. }
  destruct (add_to_freelist P s1 z1 L r Al ((r, n) :: R) Lo1) as (s2 & z2 & L2 & E2 & Lo2 & G2 & Ap2 & C2 & O2 & Z2).
  - by rewrite <- Permutation_middle.
  - intros x y Hx Hy. rewrite Z1 by (apply elem_of_app; by left). by apply Ap.
  - exists (raw_block P n r). cbn. unfold m1. rewrite lookup_insert_eq. unfold z1. by rewrite set_z_eq.
  - done.
  - assert (Zu : forall x, x ∈ Al -> z2 x = z x) by (intros x Hx; rewrite Z2 by done; apply Z1, elem_of_app; by right). exists s2, z2, L2. split; [done|split; [|split; [done|]]].
    + split; [done| |done|done|by rewrite C2|done]. intros x Hx. rewrite Zu by done. eapply block_hdr; [|by apply Us].
      assert (Xr : x <> r) by congruence. assert (Xh : x <> freelist P) by (eapply start_not_head; [exact G|done|apply elem_of_app; by right]).
      rewrite O2; [|apply not_elem_of_cons; split; [done|]|done]; [unfold s1, m1; cbn [mem with_mem]; by rewrite lookup_insert_ne|].
      intros Hl. pose proof (g_nodup _ _ _ G) as Nd. apply NoDup_app in Nd as (_ & Nd & _). by apply (Nd x Hl).
    + apply (region_free z2 L2 Al ((r, n) :: R) r n G2 Ap2); [left|lia|]. intros x y Hx Hy Hxy. rewrite Zu in Hy by done. destruct (Fn y Hxy) as (Hm & _). apply Hm, (g_mapped _ _ _ G).
      exists x. split; [apply elem_of_app; by right|done].
Qed.

(** A block is given back. *)
Lemma free_spec s z L A1 a A2 R : inv s z L (A1 ++ a :: A2) R ->
  exists s' z' L', Free P s (a + sizeof_header) = Some s' /\ inv s' z' L' (A1 ++ A2) R /\ forall x, x ∈ A1 ++ A2 -> z' x = z x.
Proof.
  intros [Lo Us G Ap C Hh]. assert (Ga : geometry z (L ++ a :: A1 ++ A2) R) by (by rewrite (Permutation_middle A1 A2 a)).
  assert (Ha : a ∈ A1 ++ a :: A2) by (apply elem_of_app; right; left). assert (Nh : a <> freelist P) by (eapply start_not_head; [exact G|done|apply elem_of_app; by right]).
  destruct (add_to_freelist P s z L a (A1 ++ A2) R Lo Ga Ap (Us a Ha) Nh) as (s2 & z2 & L2 & E2 & Lo2 & G2 & Ap2 & C2 & O2 & Z2).
  destruct (block_size _ _ _ a G ltac:(apply elem_of_app; by right)) as (_ & Hpos). unfold Free. rewrite (proj2 (Z.eqb_neq _ _)) by (unfold sizeof_header; lia). rewrite E2. cbn [obind].
  rewrite C2, C, length_app. cbn [length]. rewrite Z.gtb_ltb, (proj2 (Z.ltb_lt _ _)) by lia. eexists _, z2, L2. split; [done|split; [|done]]. split; cbn [mem allocation_count].
  - done.
  - intros x Hx. rewrite Z2 by done. assert (Hx' : x ∈ A1 ++ a :: A2) by (apply elem_of_app in Hx as [?|?]; apply elem_of_app; [by left|right; by right]). eapply block_hdr; [|by apply Us].
    apply O2; [|eapply start_not_head; [exact G|done|apply elem_of_app; by right]]. pose proof (g_nodup _ _ _ Ga) as N. apply NoDup_app in N as (_ & Nd & N). apply NoDup_cons in N as (Na & _).
    intros [->|Hl]%elem_of_cons; [done|]. apply (Nd x Hl). by right.
  - done.
  - done.
  - rewrite length_app. lia.
  - done.
Qed.

(** ** Giving pages back *)
Lemma delete_loop_spec z : forall T m fuel released, has_link P m (freelist P) 0 -> segment (link_at m 0) (freelist P) T None -> freelist P ∉ T ->
  (forall a, a ∈ T -> has_link P m a 0 /\ block P m kMagicUnallocated a (z a) /\ (pagesize P | z a) /\ (pagesize P | a)) -> 0 < pagesize P -> NoDup T -> (length T <= fuel)%nat ->
  delete_loop P fuel m released = Some (released ++ map (fun a => (a, z a)) T).
Proof.
  induction T as [|a T IH]; intros m fuel released Hh Sg Nh HT Hp N Hf.
  - destruct fuel; cbn [delete_loop]; rewrite get_next_link by done; cbn [obind]; cbn in Sg; rewrite Sg; by rewrite app_nil_r.
  - destruct fuel as [|fuel]; [cbn in Hf; lia|]. destruct Sg as (Sa & Sg). apply not_elem_of_cons in Nh as (Nha & NhT). apply NoDup_cons in N as (Na & N).
    destruct (HT a ltac:(left)) as (Hl & (b & E & Zb & Mb & Ab) & Dz & Da). cbn [delete_loop]. rewrite get_next_link by done. cbn [obind]. rewrite Sa. rewrite E. cbn [obind].
    rewrite get_next_link by done. cbn [obind]. destruct (put_next_spec P m (freelist P) 0 (link_at m 0 a) Hh) as (m1 & E1 & S1 & L1). rewrite E1. cbn [obind].
    rewrite Mb, Ab, !Z.eqb_refl, Zb. apply Z.mod_divide in Dz, Da; [|lia|lia]. rewrite Dz, Da, Z.eqb_refl. cbn [andb]. rewrite (IH m1); [by rewrite <- app_assoc| | |done| |done|done|cbn in Hf; lia].
    + by eapply has_link_same.
    + assert (Sg' : segment (link_at m 0) a T None) by done. destruct T as [|c T]; cbn in Sg |- *.
      * rewrite L1, decide_True by done. done.
      * destruct Sg as (Sc & Sg). rewrite L1, decide_True by done. split; [done|]. eapply segment_ext; [|exact Sg]. intros x Hx. rewrite L1, decide_False; [done|]. intros (-> & _). done.
    + intros x Hx. destruct (HT x ltac:(by right)) as (Hlx & Hb & Hd). split; [by eapply has_link_same|split; [|done]]. eapply block_hdr; [|done]. apply S1.
Qed.

(** ** Runs of an arena *)

(** A client writes to the blocks [U] it holds, but not to their headers. *)
Definition client_write (U : list (Z * Z)) (m m' : Mem) : Prop := forall x, m' !! x = m !! x \/ (exists a n, (a, n) ∈ U /\ a < x < a + n) \/
  exists n b b', (x, n) ∈ U /\ m !! x = Some b /\ m' !! x = Some b' /\ size b' = size b /\ magic b' = magic b /\ arena b' = arena b.

(** What is mapped for a request. *)
Definition region_size (req n : Z) : Prop := min_size <= req < 2 ^ 62 /\ RoundUp req (pagesize P *[64] 16) = Some n.

(** The states an arena reaches, with the blocks in use and the regions mapped; the threads take turns under its lock. *)
Inductive reach : State -> list (Z * Z) -> list (Z * Z) -> Prop :=
| reach_new m : reach (new_arena P m) [] []
| reach_alloc s U R request req v s' b : reach s U R -> 0 < request -> request_size request = Some req -> attempt P s req = Some (Allocated v s') ->
    mem s' !! (v - sizeof_header) = Some b -> Z.of_nat (length U) < 2 ^ 31 - 1 -> request < 2 ^ 61 -> reach s' ((v - sizeof_header, size b) :: U) R
| reach_map s U R req r n s' : reach s U R -> region_size req n -> fresh R r n -> add_region P s r n = Some s' -> reach s' U ((r, n) :: R)
| reach_free s U1 a n U2 R s' : reach s (U1 ++ (a, n) :: U2) R -> Free P s (a + sizeof_header) = Some s' -> reach s' (U1 ++ U2) R
| reach_write s U R m : reach s U R -> client_write U (mem s) m -> reach (with_mem s m) U R.

Definition arena_ok (s : State) (U R : list (Z * Z)) : Prop := exists z L, inv s z L (map fst U) R /\ forall a n, (a, n) ∈ U -> z a = n.

Definition pages_ok : Prop := exists k, 5 <= k <= 48 /\ pagesize P = 2 ^ k.

Lemma request_size_spec request : 0 < request < 2 ^ 61 -> exists req, request_size request = Some req /\ (round_up | req) /\ min_size <= req /\ request + sizeof_header <= req < request + sizeof_header + round_up.
Proof.
  intros H. unfold request_size, sizeof_header. rewrite checked_add by lia. rewrite (proj2 (Z.ltb_lt _ _)) by lia. cbn [obind]. change round_up with (2 ^ 5). rewrite round_up_spec by lia.
  eexists. split; [done|]. destruct (ceil_spec (request + 32) (2 ^ 5) ltac:(lia)) as (B & D). split; [done|]. change min_size with 64. destruct D as (q & E). lia.
Qed.

Lemma region_size_spec req : pages_ok -> min_size <= req < 2 ^ 62 -> exists n, region_size req n /\ req <= n < 2 ^ 63 /\ (pagesize P | n) /\ (round_up | n) /\ (round_up | pagesize P).
Proof.
  intros (k & Hk & E) Hr. unfold region_size. rewrite E. assert (0 < 2 ^ k <= 2 ^ 48) by (split; [apply Z.pow_pos_nonneg; lia|apply Z.pow_le_mono_r; lia]).
  assert (Ek : 2 ^ k *[64] 16 = 2 ^ (k + 4)) by (unfold wrapu; rewrite Z.mod_small, Z.pow_add_r by lia; done). rewrite Ek. assert (Hp : 2 ^ (k + 4) = 2 ^ k * 16) by (by rewrite Z.pow_add_r by lia).
  change min_size with 64 in *. rewrite round_up_spec by lia. eexists. split; [done|]. destruct (ceil_spec req (2 ^ (k + 4)) ltac:(lia)) as (B & D).
  assert (D1 : (round_up | 2 ^ k)) by (exists (2 ^ (k - 5)); change round_up with (2 ^ 5); rewrite <- Z.pow_add_r by lia; f_equal; lia).
  assert (D2 : (2 ^ k | ceil req (2 ^ (k + 4)))) by (eapply Z.divide_trans; [|exact D]; exists 16; lia). split; [lia|split; [done|split; [|done]]]. by eapply Z.divide_trans.
Qed.

Lemma new_arena_ok m : arena_ok (new_arena P m) [] [].
Proof.
  exists (fun _ => 0), []. split; [|by intros a n H%elem_of_nil]. assert (E : mem (new_arena P m) !! freelist P = Some (mk_block 0 (Magic kMagicUnallocated (freelist P)) (self P) 0 (fun _ => None))) by apply lookup_insert_eq.
  split; cbn [map].
  - split; [split; [constructor|by intros a H%elem_of_nil| |]| |by intros a H%elem_of_nil].
    + intros i _. change (link_at (mem (new_arena P m)) i (freelist P) = None). unfold link_at. by rewrite E.
    + eexists. by rewrite E.
    + eexists. by rewrite E.
  - by intros a H%elem_of_nil.
  - split; [constructor|by intros a H%elem_of_nil|by intros a b H%elem_of_nil|]. intros x. split; [by intros (a & H%elem_of_nil & _)|by intros (r & n & H%elem_of_nil & _)].
  - by intros a b H%elem_of_nil.
  - done.
  - by intros (r & n & H%elem_of_nil & _).
Qed.

Lemma elem_fst (U : list (Z * Z)) a : a ∈ map fst U <-> exists n, (a, n) ∈ U.
Proof.
  induction U as [|(b & k) U IH]; cbn; [split; [by intros H%elem_of_nil|by intros (n & H%elem_of_nil)]|]. rewrite elem_of_cons, IH. split.
  - intros [->|(n & H)]; [exists k; left|exists n; by right].
  - intros (n & [[= -> ->]|H]%elem_of_cons); [by left|right; by exists n].
Qed.

Lemma taken_ok s U R z L a s' z' L' : inv s z L (map fst U) R -> (forall a n, (a, n) ∈ U -> z a = n) -> inv s' z' L' (a :: map fst U) R -> (forall x, x ∈ map fst U -> z' x = z x) ->
  arena_ok s' ((a, z' a) :: U) R.
Proof.
  intros I HU I' Z'. exists z', L'. split; [done|]. intros b n [[= -> ->]|Hb]%elem_of_cons; [done|]. rewrite Z'; [by apply HU|]. apply elem_fst. by exists n.
Qed.

(** An attempt hands out the first free block that is large enough, or there is none. *)
Lemma attempt_spec s U R req : pages_ok -> arena_ok s U R -> (round_up | req) -> min_size <= req < 2 ^ 62 -> Z.of_nat (length U) < 2 ^ 31 - 1 ->
  (exists a s' n, attempt P s req = Some (Allocated (a + sizeof_header) s') /\ arena_ok s' ((a, n) :: U) R /\ req <= n < req + min_size) \/
  (exists n, attempt P s req = Some (NeedsPages n s) /\ region_size req n /\ forall z L, inv s z L (map fst U) R -> forall a, a ∈ L -> z a < req).
Proof.
  intros Pk (z & L & I & HU) Dr Hr Hc. unfold attempt. assert (Hr64 : min_size <= req < 2 ^ 64) by lia. rewrite (find_region_spec s z L (map fst U) R req I Hr64). cbn [obind].
  destruct (filter (fun a => req <= z a) L) as [|a r] eqn:Ef; cbn [head].
  - right. destruct (region_size_spec req Pk Hr) as (n & Hn & _). exists n. pose proof (proj2 Hn) as En. rewrite En. cbn [obind]. split; [done|split; [done|]]. intros z' L' I' a Ha.
    destruct (Z_lt_le_dec (z' a) req) as [|Hz]; [done|exfalso]. pose proof (find_region_spec s z' L' (map fst U) R req I' Hr64) as E. rewrite (find_region_spec s z L (map fst U) R req I Hr64), Ef in E.
    injection E as E. assert (Hin : a ∈ filter (fun a => req <= z' a) L') by (by apply list_elem_of_filter). destruct (filter (fun a => req <= z' a) L'); [by apply elem_of_nil in Hin|done].
  - left. assert (Hin : a ∈ filter (fun a => req <= z a) L) by (rewrite Ef; left). apply list_elem_of_filter in Hin as (Hz & Ha).
    destruct (take_region_spec s z L (map fst U) R a req I Ha Hz Dr ltac:(lia)) as (s' & z' & L' & E & I' & Z' & Hsz); [by rewrite length_map|]. rewrite E. cbn [obind].
    exists a, s', (z' a). split; [done|split; [|done]]. by eapply taken_ok.
Qed.

Lemma add_region_ok s U R req r n : pages_ok -> arena_ok s U R -> region_size req n -> fresh R r n -> exists s', add_region P s r n = Some s' /\ arena_ok s' U ((r, n) :: R) /\
  forall z L, inv s' z L (map fst U) ((r, n) :: R) -> exists a, a ∈ L /\ n <= z a.
Proof.
  intros Pk (z & L & I & HU) Hr F. destruct (region_size_spec req Pk (proj1 Hr)) as (n' & Hn' & Hb & Dp & Dr & D). assert (n' = n) as -> by (destruct Hr as (_ & E1), Hn' as (_ & E2); congruence).
  assert (Hn : min_size <= n) by (destruct Hr; lia). destruct (add_region_spec s z L (map fst U) R r n I F D Dr Hn) as (s' & z' & L' & E & I' & Z' & a & Ha & Hz).
  exists s'. split; [done|split].
  - exists z', L'. split; [done|]. intros b k Hb'. rewrite Z'; [by apply HU|]. apply elem_fst. by exists k.
  - intros z2 L2 I2. apply (region_free z2 L2 (map fst U) ((r, n) :: R) r n (i_geometry _ _ _ _ _ I2) (i_apart _ _ _ _ _ I2)); [left|change min_size with 64 in Hn; lia|].
    intros x y Hx Hy Hxy. pose proof (i_used _ _ _ _ _ I2 x Hx) as (b2 & E2 & Zb2 & _). pose proof (i_used _ _ _ _ _ I' x Hx) as (b3 & E3 & Zb3 & _). rewrite E2 in E3. injection E3 as <-. rewrite Zb2 in Zb3.
    rewrite Z' in Zb3 by done. apply (proj1 (fr_new _ _ _ F y Hxy)), (g_mapped _ _ _ (i_geometry _ _ _ _ _ I)). exists x. split; [apply elem_of_app; by right|]. lia.
Qed.

Lemma free_ok s U1 a n U2 R : arena_ok s (U1 ++ (a, n) :: U2) R -> exists s', Free P s (a + sizeof_header) = Some s' /\ arena_ok s' (U1 ++ U2) R.
Proof.
  intros (z & L & I & HU). rewrite map_app in I. cbn [map fst] in I. destruct (free_spec s z L (map fst U1) a (map fst U2) R I) as (s' & z' & L' & E & I' & Z'). exists s'. split; [done|].
  exists z', L'. rewrite map_app. split; [done|]. intros b k Hb. rewrite Z'; [apply HU; apply elem_of_app in Hb as [?|?]; apply elem_of_app; [by left|right; by right]|].
  rewrite <- map_app. apply elem_fst. by exists k.
Qed.

Lemma write_ok s U R m : arena_ok s U R -> client_write U (mem s) m -> arena_ok (with_mem s m) U R.
Proof.
  intros (z & L & [Lo Us G Ap C Hh] & HU) W. assert (Keep : forall x, x ∈ freelist P :: L -> m !! x = mem s !! x).
  { intros x Hx. assert (Nm : forall a n, (a, n) ∈ U -> ~ a <= x < a + n).
    { intros a n Ha Hax. rewrite <- (HU a n Ha) in Hax. assert (Hf : a ∈ map fst U) by (apply elem_fst; by exists n). apply elem_of_cons in Hx as [->|Hx].
      - apply Hh, (g_mapped _ _ _ G). exists a. split; [apply elem_of_app; by right|done].
      - destruct (block_size _ _ _ x G ltac:(apply elem_of_app; by left)) as (Hs & _). change min_size with 64 in Hs.
        assert (a = x) as -> by (eapply (same_block _ _ _ a x x G); [apply elem_of_app; by right|apply elem_of_app; by left|done|lia]).
        pose proof (g_nodup _ _ _ G) as N. apply NoDup_app in N as (_ & N & _). by apply (N x Hx). }
    destruct (W x) as [E|[(a & n & Ha & Hax)|(n & b & b' & Ha & _)]]; [done|by destruct (Nm a n Ha); lia|]. destruct (Nm x n Ha). rewrite <- (HU x n Ha).
    destruct (block_size _ _ _ x G) as (Hs & _); [apply elem_of_app; right; apply elem_fst; by exists n|]. change min_size with 64 in Hs. lia. }
  exists z, L. split; [|done]. split; cbn [mem with_mem allocation_count]; [|..|done|done]; [| |done|done].
  - destruct (lo_head _ _ _ _ Lo) as (h & Eh & Zh). split; [|exists h; rewrite Keep by left; done|].
    + apply (skiplist_ext P (mem s)); [apply Lo|]. intros a Ha. rewrite (Keep a Ha). apply elem_of_cons in Ha as [->|Ha]; [by exists h, h|]. destruct (lo_free _ _ _ _ Lo a Ha) as ((b & E & _) & _). by exists b, b.
    + intros a Ha. destruct (lo_free _ _ _ _ Lo a Ha) as ((b & E & Hb) & Hl). unfold block, lv in *. rewrite (Keep a) by (by right). split; [by exists b|done].
  - intros a Ha. destruct (Us a Ha) as (b & E & Hb). destruct (W a) as [E'|[(c & n & Hc & Hca)|(n & b0 & b' & _ & E0 & E' & Z' & M' & A')]].
    + exists b. by rewrite E'.
    + exfalso. assert (Hf : c ∈ map fst U) by (apply elem_fst; by exists n). pose proof (HU c n Hc). pose proof (g_disjoint _ _ _ G c a ltac:(apply elem_of_app; by right) ltac:(apply elem_of_app; by right) ltac:(lia)). lia.
    + rewrite E in E0. injection E0 as <-. exists b'. rewrite Z', M', A'. done.
Qed.

Lemma reach_ok s U R : pages_ok -> reach s U R -> arena_ok s U R /\ forall r n, (r, n) ∈ R -> (pagesize P | r) /\ (pagesize P | n).
Proof.
  intros Pk. induction 1 as [m|s U R request req v s' b Hreach (IH & IR) Hq Er Ea Eb Hc Hb|s U R req r n s' Hreach (IH & IR) Hr F E|s U1 a n U2 R s' Hreach (IH & IR) E|s U R m Hreach (IH & IR) W].
  - split; [apply new_arena_ok|by intros r n H%elem_of_nil].
  - split; [|done]. destruct (request_size_spec request ltac:(lia)) as (req' & Er' & Dr & Hm & Hreq). rewrite Er in Er'. injection Er' as <-. unfold sizeof_header in Hreq. change round_up with 32 in Hreq.
    destruct (attempt_spec s U R req Pk IH Dr ltac:(lia) Hc) as [(a & s2 & n & E & Ok & _)|(n & E & _)]; [|congruence]. rewrite E in Ea. injection Ea as <- <-.
    replace (a + sizeof_header - sizeof_header) with a in * by lia. destruct Ok as (z & L & I & HU). destruct (i_used _ _ _ _ _ I a ltac:(left)) as (b' & E' & Zb' & _). rewrite Eb in E'. injection E' as <-.
    exists z, L. rewrite Zb', (HU a n) by left. split; [done|]. by intros c k [[= -> ->]|Hin]%elem_of_cons; apply HU; [left|right].
  - destruct (add_region_ok s U R req r n Pk IH Hr F) as (s2 & E2 & Ok & _). rewrite E in E2. injection E2 as <-. split; [done|]. intros r' n' [[= -> ->]|Hin]%elem_of_cons; [|by apply IR].
    destruct (region_size_spec req Pk (proj1 Hr)) as (n' & Hn' & _ & Dp & _). assert (n' = n) as -> by (destruct Hr as (_ & E1), Hn' as (_ & E2); congruence). split; [apply F|done].
  - destruct (free_ok s U1 a n U2 R IH) as (s2 & E2 & Ok). rewrite E in E2. injection E2 as <-. done.
  - split; [by apply write_ok|done].
Qed.

(** What a client sees of the blocks it holds. *)
Lemma used_facts s U R : arena_ok s U R -> NoDup (map fst U) /\ (forall a n, (a, n) ∈ U -> block P (mem s) kMagicAllocated a n /\ min_size <= n /\ (round_up | a) /\ forall x, a <= x < a + n -> mapped R x) /\
  (forall a n a' n', (a, n) ∈ U -> (a', n') ∈ U -> a < a' -> a + n <= a').
Proof.
  intros (z & L & I & HU). pose proof (i_geometry _ _ _ _ _ I) as G. assert (Hin : forall a n, (a, n) ∈ U -> a ∈ map fst U /\ a ∈ L ++ map fst U).
  { intros a n Ha. assert (a ∈ map fst U) by (apply elem_fst; by exists n). split; [done|]. apply elem_of_app. by right. }
  split; [pose proof (g_nodup _ _ _ G) as N; by apply NoDup_app in N as (_ & _ & N)|split].
  - intros a n Ha. destruct (Hin a n Ha) as (H1 & H2). pose proof (HU a n Ha) as <-. destruct (g_size _ _ _ G a H2) as (Hs & _ & Hd & _). split; [by apply I|split; [done|split; [done|]]].
    intros x Hx. apply (g_mapped _ _ _ G). by exists a.
  - intros a n a' n' Ha Ha' Lt. destruct (Hin a n Ha) as (_ & H1). destruct (Hin a' n' Ha') as (_ & H2). rewrite <- (HU a n Ha). by apply (g_disjoint _ _ _ G).
Qed.

(** A request that one attempt cannot serve is served by the next one, after the pages it asked for have come. *)
Lemma alloc_sequential s U R request r : pages_ok -> arena_ok s U R -> 0 < request < 2 ^ 61 -> Z.of_nat (length U) < 2 ^ 31 - 1 ->
  (forall req n, request_size request = Some req -> region_size req n -> fresh R r n) ->
  exists a n s' R', DoAllocWithArena P [r] s request = Some (Allocated (a + sizeof_header) s') /\ arena_ok s' ((a, n) :: U) R' /\
  (R' = R \/ exists req k, request_size request = Some req /\ region_size req k /\ R' = (r, k) :: R) /\
  request + sizeof_header <= n < request + sizeof_header + round_up + min_size.
Proof.
  intros Pk Ok Hq Hc F. destruct (request_size_spec request Hq) as (req & Er & Dr & Hm & Hreq). assert (Hr : min_size <= req < 2 ^ 62) by (unfold sizeof_header in Hreq; change round_up with 32 in Hreq; lia).
  unfold DoAllocWithArena. rewrite (proj2 (Z.eqb_neq _ _)) by lia. rewrite Er. cbn [obind alloc_loop].
  destruct (attempt_spec s U R req Pk Ok Dr Hr Hc) as [(a & s' & n & E & Ok' & Hn)|(n & E & Hrs & _)]; rewrite E; cbn [obind].
  - exists a, n, s', R. split; [done|split; [done|split; [by left|lia]]].
  - destruct (add_region_ok s U R req r n Pk Ok Hrs (F req n Er Hrs)) as (s1 & E1 & Ok1 & Big). rewrite E1. cbn [obind].
    destruct (attempt_spec s1 U ((r, n) :: R) req Pk Ok1 Dr Hr Hc) as [(a & s' & k & E2 & Ok' & Hk)|(k & E2 & _ & None')].
    + rewrite E2. exists a, k, s', ((r, n) :: R). split; [done|split; [done|split; [right; by exists req, n|lia]]].
    + exfalso. destruct Ok1 as (z & L & I & HU). destruct (Big z L I) as (a & Ha & Hz). pose proof (None' z L I a Ha).
      destruct (region_size_spec req Pk Hr) as (n' & Hn' & Hb & _). assert (n' = n) as -> by (destruct Hrs as (_ & X1), Hn' as (_ & X2); congruence). lia.
Qed.

(** Pages come back whole. *)
Lemma delete_ok s R : pages_ok -> arena_ok s [] R -> (forall r n, (r, n) ∈ R -> (pagesize P | r) /\ (pagesize P | n)) ->
  exists B, DeleteArena P s = Some (Some B) /\ (forall a n, (a, n) ∈ B -> (pagesize P | a) /\ (pagesize P | n) /\ 0 < n) /\
  (forall a n a' n', (a, n) ∈ B -> (a', n') ∈ B -> a < a' -> a + n < a') /\ NoDup (map fst B) /\ forall x, mapped B x <-> mapped R x.
Proof.
  intros (k & Hk & Ep) (z & L & [Lo Us G Ap C Hh] & _) HR. cbn [map] in *. rewrite app_nil_r in G. assert (Hp : 0 < pagesize P) by (rewrite Ep; apply Z.pow_pos_nonneg; lia).
  pose proof (lo_list _ _ _ _ Lo) as SL. assert (Al : forall a, a ∈ L -> (pagesize P | a) /\ (pagesize P | z a)).
  { intros a Ha. destruct (block_start _ _ _ _ G Ap Ha) as (r & n & Hr & ->). destruct (HR r n Hr) as (Dr & _). split; [done|]. destruct (block_end _ _ _ _ G Ap Ha) as (r' & n' & Hr' & E).
    destruct (HR r' n' Hr') as (Dr' & Dn'). replace (z r) with (r' + n' - r) by lia. apply Z.divide_sub_r; [by apply Z.divide_add_r|done]. }
  assert (El : forall a n, (a, n) ∈ map (fun a => (a, z a)) L <-> a ∈ L /\ n = z a).
  { intros a n. clear. induction L as [|c L IH]; cbn; [split; [by intros H%elem_of_nil|by intros (H%elem_of_nil & _)]|]. rewrite !elem_of_cons, IH. split; [intros [[= -> ->]|(? & ?)]; tauto|intros ([->|?] & ->); tauto]. }
  exists (map (fun a => (a, z a)) L). split; [|split; [|split; [|split]]].
  - unfold DeleteArena. rewrite C. cbn [length Z.of_nat Z.eqb negb]. destruct (lo_head _ _ _ _ Lo) as (h & Eh & _).
    rewrite (delete_loop_spec z L); [done| | |by eapply not_head| |done|by apply sorted_nodup, SL|].
    + exists h. split; [done|]. unfold room. by rewrite Z.eqb_refl.
    + pose proof (sl_links _ _ _ SL 0 ltac:(unfold kMaxLevel; lia)) as Sg. by rewrite (at_level_zero P _ _ SL) in Sg.
    + intros a Ha. destruct (lo_free _ _ _ _ Lo a Ha) as (Hb & _). destruct (Al a Ha). split; [|done]. apply node_link; [by apply SL|]. apply (elem_at_level _ _ L). by rewrite (at_level_zero P _ _ SL).
    + apply list_in_map; [by apply sorted_nodup, SL|]. intros a Ha. destruct (lo_free _ _ _ _ Lo a Ha) as ((b & E & _) & _). by exists b.
  - intros a n Ha. apply El in Ha as (Ha & ->). destruct (Al a Ha). destruct (block_size _ _ _ a G Ha) as (Hs & _). change min_size with 64 in Hs. split; [done|split; [done|lia]].
  - intros a n a' n' Ha Ha' Lt. apply El in Ha as (Ha & ->). apply El in Ha' as (Ha' & _). pose proof (g_disjoint _ _ _ G a a' Ha Ha' Lt). pose proof (Ap a a' Ha Ha'). lia.
  - rewrite map_map. cbn. rewrite map_id. apply G.
  - intros x. rewrite <- (g_mapped _ _ _ G). split; [intros (a & n & Ha & Hx); apply El in Ha as (Ha & ->); by exists a|intros (a & Ha & Hx); exists a, (z a); split; [by apply El|done]].
Qed.
End Arena.

(** C7: Whatever the order in which threads allocate, release and map pages, and whatever clients write into their blocks, an arena keeps its
    invariant: the free blocks form the skip list, are never neighbours, and together with the blocks in use partition the mapped memory; every
    block in use keeps its header, lies in mapped memory and meets no other; releasing one succeeds, and so does adding pages. *)
Theorem arena_invariant (P : Params) s U R : pages_ok P -> reach P s U R ->
  (exists z L, inv P s z L (map fst U) R) /\ allocation_count s = Z.of_nat (length U) /\ NoDup (map fst U) /\
  (forall a n, (a, n) ∈ U -> block P (mem s) kMagicAllocated a n /\ min_size <= n /\ (round_up | a) /\ forall x, a <= x < a + n -> mapped R x) /\
  (forall a n a' n', (a, n) ∈ U -> (a', n') ∈ U -> a < a' -> a + n <= a') /\
  (forall a n, (a, n) ∈ U -> is_Some (Free P s (a + sizeof_header))) /\ Free P s 0 = Some s /\
  (forall req r n, region_size P req n -> fresh P R r n -> is_Some (add_region P s r n)).
Proof.
  intros Pk H. destruct (reach_ok P s U R Pk H) as (Ok & _). pose proof (used_facts P s U R Ok) as (F1 & F2 & F3). pose proof Ok as (z & L & I & HU).
  split; [by exists z, L|split; [by rewrite (i_count _ _ _ _ _ _ I), length_map|split; [done|split; [done|split; [done|split; [|split; [done|]]]]]]].
  - intros a n Ha. apply list_elem_of_split in Ha as (U1 & U2 & ->). destruct (free_ok P s U1 a n U2 R Ok) as (s' & E & _). by exists s'.
  - intros req r n Hr F. destruct (add_region_ok P s U R req r n Pk Ok Hr F) as (s' & E & _). by exists s'.
Qed.

(** C8: An allocation succeeds, at once or after mapping one region of the request rounded up to sixteen pages: the block it returns is aligned, has the bytes that were asked for in
    mapped memory and meets no other block in use; a request for nothing gives the null pointer. *)
Theorem alloc_correct (P : Params) s U R request r : pages_ok P -> reach P s U R -> 0 < request < 2 ^ 61 -> Z.of_nat (length U) < 2 ^ 31 - 1 ->
  (forall req n, request_size request = Some req -> region_size P req n -> fresh P R r n) ->
  DoAllocWithArena P [r] s 0 = Some (Allocated 0 s) /\
  exists v s' R', DoAllocWithArena P [r] s request = Some (Allocated v s') /\
  (R' = R \/ exists req k, request_size request = Some req /\ region_size P req k /\ R' = (r, k) :: R) /\ 0 < v /\ (round_up | v) /\
  (forall x, v <= x < v + request -> mapped R' x /\ forall a n, (a, n) ∈ U -> ~ a <= x < a + n) /\ allocation_count s' = Z.of_nat (length U) + 1.
Proof.
  intros Pk H Hq Hc F. destruct (reach_ok P s U R Pk H) as (Ok & _). split; [done|].
  destruct (alloc_sequential P s U R request r Pk Ok Hq Hc F) as (a & n & s' & R' & E & Ok' & HR & Hn). exists (a + sizeof_header), s', R'. split; [done|split; [done|]].
  pose proof (used_facts P s' _ R' Ok') as (F1 & F2 & F3). destruct (F2 a n ltac:(left)) as (_ & _ & Da & Hm). pose proof Ok' as (z & L & I & HU).
  destruct (block_size _ _ _ a (i_geometry _ _ _ _ _ _ I)) as (_ & Hpos); [apply elem_of_app; right; left|]. unfold sizeof_header in *. change round_up with 32 in *.
  split; [lia|split; [apply Z.divide_add_r; [done|by exists 1]|split]].
  - intros x Hx. split; [apply Hm; lia|]. intros b k Hb Hbx. cbn in F1. apply NoDup_cons in F1 as (Na & _). assert (b <> a) by (intros ->; apply Na, elem_fst; by exists k).
    destruct (Z.lt_trichotomy a b) as [Lt|[?|Lt]]; [|done|].
    + pose proof (F3 a n b k ltac:(left) ltac:(by right) Lt). lia.
    + pose proof (F3 b k a n ltac:(by right) ltac:(left) Lt). lia.
  - rewrite (i_count _ _ _ _ _ _ I), length_map. cbn [length]. lia.
Qed.

(** C9: An arena with blocks in use is not deleted; one without gives back page-aligned blocks, no two of them neighbours, that are exactly the
    memory it had mapped. *)
Theorem delete_arena_correct (P : Params) s U R : pages_ok P -> reach P s U R ->
  (U <> [] -> DeleteArena P s = Some None) /\
  (U = [] -> exists B, DeleteArena P s = Some (Some B) /\ (forall a n, (a, n) ∈ B -> (pagesize P | a) /\ (pagesize P | n) /\ 0 < n) /\
    (forall a n a' n', (a, n) ∈ B -> (a', n') ∈ B -> a < a' -> a + n < a') /\ NoDup (map fst B) /\ forall x, mapped B x <-> mapped R x).
Proof.
  intros Pk H. destruct (reach_ok P s U R Pk H) as (Ok & HR). split.
  - intros N. destruct Ok as (z & L & I & _). unfold DeleteArena. rewrite (i_count _ _ _ _ _ _ I), length_map. destruct U as [|u U]; [done|]. cbn [length]. rewrite (proj2 (Z.eqb_neq _ _)) by lia. done.
  - intros ->. by apply delete_ok.
Qed.

(** ** An arena at work *)
Module Witness.
Definition P0 : Params := mk_params 1000 500 4096.
Definition s0 : State := new_arena P0 ∅.
Definition s1 : State := default s0 (add_region P0 s0 65536 65536).
Definition s2 : State := match attempt P0 s1 160 with Some (Allocated _ s) => s | _ => s1 end.

Lemma pages : pages_ok P0.
Proof. exists 12. split; [lia|done]. Qed.

Lemma fresh_region r n : (4096 | r) -> 65536 <= r -> r + n < 2 ^ 64 -> fresh P0 [] r n.
Proof. intros D H U. split; [done|change min_size with 64; lia|done|]. intros x Hx. split; [by intros (a & k & E%elem_of_nil & _)|]. cbn. lia. Qed.

Lemma reach1 : reach P0 s1 [] [(65536, 65536)].
Proof.
  apply (reach_map P0 s0 [] [] 160); [apply reach_new| | |vm_compute; reflexivity].
  - split; [change min_size with 64; lia|vm_compute; reflexivity].
  - apply fresh_region; [by exists 16|lia|lia].
Qed.

Lemma reach2 : reach P0 s2 [(65536, 160)] [(65536, 65536)].
Proof.
  assert (E : exists b, mem s2 !! 65536 = Some b /\ size b = 160) by (eexists; split; vm_compute; reflexivity). destruct E as (b & Eb & <-).
  apply (reach_alloc P0 s1 [] [(65536, 65536)] 100 160 65568 s2 b); [apply reach1|lia|vm_compute; reflexivity|vm_compute; reflexivity|done|done|lia].
Qed.
End Witness.
Import Witness.

Lemma arena_invariant_witness : is_Some (Free P0 s2 65568) /\ allocation_count s2 = 1.
Proof.
  destruct (arena_invariant P0 s2 _ _ pages reach2) as (_ & C & _ & _ & _ & F & _). split; [|exact C]. apply (F 65536 160). left.
Defined.

Lemma alloc_correct_witness : exists v s', DoAllocWithArena P0 [65536] s0 100 = Some (Allocated v s') /\ (round_up | v).
Proof.
  destruct (alloc_correct P0 s0 [] [] 100 65536 pages) as (_ & v & s' & R' & E & _ & _ & D & _); [apply reach_new|lia|cbn; lia| |exists v, s'; split; [exact E|exact D]].
  intros req n Hr Hn. apply fresh_region; [by exists 16|lia|]. destruct (region_size_spec P0 req pages (proj1 Hn)) as (n' & Hn' & Hb & _). destruct Hn as (_ & E1), Hn' as (_ & E2).
  rewrite E1 in E2. injection E2 as <-. lia.
Defined.

Lemma delete_arena_correct_witness : DeleteArena P0 s2 = Some None /\ exists B, DeleteArena P0 s1 = Some (Some B) /\ mapped B 70000.
Proof.
  split; [apply (delete_arena_correct P0 s2 _ _ pages reach2); discriminate|].
  destruct (delete_arena_correct P0 s1 _ _ pages reach1) as (_ & H). destruct (H eq_refl) as (B & E & _ & _ & _ & M). exists B. split; [exact E|]. apply M. exists 65536, 65536. split; [left|lia].
Defined.
