(* ===== verification/CallOnce.v ===== *)
(** [absl/base/call_once.h] and [base/internal/spinlock_wait.cc]: one-time calls.  Threads interleave their atomic
    operations on the control word and sleep in the kernel as on Linux: a futex wait begins only while the word has the
    value that was read, may end at any time, and ends when the word's sleepers are woken.  The function that is called
    may end or throw. *)
From Stdlib Require Import ZArith Lia List Bool.
From S2P Require Import Prelude.
Import ListNotations.
#[local] Open Scope Z_scope.

(** ** The control word *)
Definition kOnceInit : Z := 0.
Definition kOnceRunning : Z := 0x65C2937B.
Definition kOnceWaiter : Z := 0x05A308D2.
Definition kOnceDone : Z := 221.

Record SpinLockWaitTransition := mk_transition { from : Z; to : Z; done : bool }.

(** [CallOnceImpl]'s table. *)
Definition trans : list SpinLockWaitTransition :=
  [mk_transition kOnceInit kOnceRunning true; mk_transition kOnceRunning kOnceWaiter false; mk_transition kOnceDone kOnceDone true].

(** The debug check of [CallOnceImpl]. *)
Definition expected (old_control : Z) : bool :=
  (old_control =? kOnceInit) || (old_control =? kOnceRunning) || (old_control =? kOnceWaiter) || (old_control =? kOnceDone).

(** ** Threads *)
Inductive pc :=
  | Idle
  | LoadControl                                        (** [call_once], [LowLevelCallOnce]: the load *)
  | DebugCheck                                         (** [CallOnceImpl]: the check of debug builds *)
  | TryExchange                                        (** the first compare-exchange *)
  | WaitLoad                                           (** [SpinLockWait]: the load of its loop *)
  | WaitExchange (v : Z) (t : SpinLockWaitTransition)  (** its compare-exchange *)
  | Delay (v : Z)                                      (** [SpinLockDelay] *)
  | Asleep                                             (** in the kernel *)
  | Invoke                                             (** about to call the function *)
  | Running                                            (** in the function *)
  | Store                                              (** the exchange after it *)
  | Wake                                               (** [SpinLockWake] of all sleepers *)
  | Returned
  | Thrown                                             (** the function threw *)
  | Fatal.                                             (** a failed check *)

(** The first transition from a value. *)
Definition find_transition (v : Z) : option SpinLockWaitTransition := find (fun t => v =? from t) trans.

(** What [CallOnceImpl] does with the result of [SpinLockWait]. *)
Definition wait_return (v : Z) : pc := if v =? kOnceInit then Invoke else Returned.

(** One round of [SpinLockWait] after its load. *)
Definition after_load (v : Z) : pc :=
  match find_transition v with
  | None => Delay v
  | Some t => if to t =? v then if done t then wait_return v else WaitLoad else WaitExchange v t
  end.

(** The steps of one thread: the control word before and after. *)
Inductive tstep : Z -> pc -> Z -> pc -> Prop :=
  | t_call w : tstep w Idle w LoadControl
  | t_load w : tstep w LoadControl w (if w =? kOnceDone then Returned else DebugCheck)
  | t_debug w : tstep w DebugCheck w (if expected w then TryExchange else Fatal)
  | t_try_won : tstep kOnceInit TryExchange kOnceRunning Invoke
  | t_try_lost w : w <> kOnceInit -> tstep w TryExchange w WaitLoad
  | t_wait_load w : tstep w WaitLoad w (after_load w)
  | t_wait_won w t : tstep w (WaitExchange w t) (to t) (if done t then wait_return w else WaitLoad)
  | t_wait_lost w v t : w <> v -> tstep w (WaitExchange v t) w WaitLoad
  | t_sleep w : tstep w (Delay w) w Asleep
  | t_no_sleep w v : w <> v -> tstep w (Delay v) w WaitLoad
  | t_spurious w : tstep w Asleep w WaitLoad
  | t_invoke w : tstep w Invoke w Running
  | t_end w : tstep w Running w Store
  | t_throw w : tstep w Running w Thrown
  | t_store w : tstep w Store kOnceDone (if w =? kOnceWaiter then Wake else Returned).

(** ** The system *)

(** The control word, how often the function was entered and how often it has ended, and the threads. *)
Record system := mk_system { control : Z; entered : nat; ended : nat; threads : list pc }.

Definition enters (p p' : pc) : nat := match p, p' with Invoke, Running => 1 | _, _ => 0 end.
Definition ends (p p' : pc) : nat := match p, p' with Running, Store => 1 | _, _ => 0 end.

Definition awake (p : pc) : pc := match p with Asleep => WaitLoad | _ => p end.

Inductive step : system -> system -> Prop :=
  | step_thread w e f l1 p l2 w' p' : tstep w p w' p' ->
      step (mk_system w e f (l1 ++ p :: l2)) (mk_system w' (e + enters p p') (f + ends p p') (l1 ++ p' :: l2))
  | step_wake w e f l1 l2 : step (mk_system w e f (l1 ++ Wake :: l2)) (mk_system w e f (map awake l1 ++ Returned :: map awake l2)).

Inductive reachable : system -> Prop :=
  | reach_init n : reachable (mk_system kOnceInit 0 0 (repeat Idle n))
  | reach_step s s' : reachable s -> step s s' -> reachable s'.

(** ** Counting threads *)
Fixpoint total (f : pc -> nat) (l : list pc) : nat := match l with [] => 0 | p :: l => f p + total f l end.

Lemma total_mid f l1 p l2 : total f (l1 ++ p :: l2) = (f p + total f (l1 ++ l2))%nat.
Proof. induction l1 as [|a l1 IH]; cbn; [reflexivity|]. rewrite IH. lia. Qed.

Lemma total_app f l1 l2 : total f (l1 ++ l2) = (total f l1 + total f l2)%nat.
Proof. induction l1 as [|a l1 IH]; cbn; [reflexivity|]. rewrite IH. lia. Qed.

Lemma total_awake f l : (f WaitLoad = f Asleep) -> total f (map awake l) = total f l.
Proof. intros E. induction l as [|p l IH]; cbn; [reflexivity|]. rewrite IH. destruct p; cbn; lia. Qed.

(** The thread that calls the function, until it has stored the result; one that has entered it; one that has ended it. *)
Definition owns (p : pc) : nat := match p with Invoke | Running | Store | Thrown => 1 | _ => 0 end.
Definition inside (p : pc) : nat := match p with Running | Store | Thrown => 1 | _ => 0 end.
Definition after_end (p : pc) : nat := match p with Store => 1 | _ => 0 end.
Definition waking (p : pc) : nat := match p with Wake => 1 | _ => 0 end.

Definition b2n (b : bool) : nat := if b then 1 else 0.

(** What a thread at its place knows of the control word. *)
Definition pc_ok (w : Z) (wakes : nat) (p : pc) : Prop :=
  match p with
  | WaitExchange v t => t = mk_transition kOnceInit kOnceRunning true /\ v = kOnceInit \/ t = mk_transition kOnceRunning kOnceWaiter false /\ v = kOnceRunning
  | Delay v => v = kOnceWaiter
  | Asleep => w = kOnceWaiter \/ w = kOnceDone /\ (1 <= wakes)%nat
  | Wake | Returned => w = kOnceDone
  | Fatal => False
  | _ => True
  end.

Definition word_ok (w : Z) : Prop := w = kOnceInit \/ w = kOnceRunning \/ w = kOnceWaiter \/ w = kOnceDone.

Record once_inv (s : system) : Prop := {
  oi_word : word_ok (control s);
  oi_owner : total owns (threads s) = b2n ((control s =? kOnceRunning) || (control s =? kOnceWaiter));
  oi_entered : entered s = (total inside (threads s) + b2n (control s =? kOnceDone)%Z)%nat;
  oi_ended : ended s = (total after_end (threads s) + b2n (control s =? kOnceDone)%Z)%nat;
  oi_threads : forall p, In p (threads s) -> pc_ok (control s) (total waking (threads s)) p
}.

Definition busy (w : Z) : nat := b2n ((w =? kOnceRunning) || (w =? kOnceWaiter)).
Definition over (w : Z) : nat := b2n (w =? kOnceDone).

(** What one step of one thread does to the balance of owners and to what the others know. *)
Lemma once_tstep_ok w p w' p' k : tstep w p w' p' -> word_ok w -> pc_ok w k p -> (owns p <= busy w)%nat ->
  word_ok w' /\ (owns p' + busy w = owns p + busy w')%nat /\ (inside p' + over w' = inside p + over w + enters p p')%nat /\
  (after_end p' + over w' = after_end p + over w + ends p p')%nat /\ pc_ok w' (k + waking p') p' /\
  (forall q, pc_ok w k q -> (owns q + owns p <= busy w)%nat -> pc_ok w' (k + waking p') q) /\ waking p = 0%nat.
Proof.
  intros T W K O. destruct T; unfold after_load, find_transition, wait_return, expected, busy, over in *; cbn in K.
  all: try (destruct K as [(-> & ->)|(-> & ->)]); try subst v; destruct W as [W|[W|[W|W]]]; try discriminate W; try subst w; cbn in *; try lia; try congruence.
  all: split; [unfold word_ok; tauto|split; [lia|split; [lia|split; [lia|split; [try tauto|split; [intros q Q Oq|reflexivity]]]]]].
  all: rewrite ?Nat.add_0_r; try exact Q; destruct q; cbn in *; try tauto; try discriminate Q; try lia.
  all: destruct Q as [Q|(Q & Q')]; discriminate Q.
Qed.

Lemma once_step_inv s s' : step s s' -> once_inv s -> once_inv s'.
Proof.
  intros [w e f l1 p l2 w' p' T|w e f l1 l2] [W O E F K]; cbn [control entered ended threads] in *.
  - rewrite total_mid in O, E, F. assert (Op : (owns p <= busy w)%nat) by (unfold busy; lia). pose proof (K p ltac:(apply in_elt)) as Kp.
    destruct (once_tstep_ok w p w' p' _ T W Kp Op) as (W' & O' & E' & F' & Kp' & Kq & Wp). rewrite total_mid, Wp in Kp', Kq. cbn [Nat.add] in Kp', Kq.
    assert (Ew : (total waking (l1 ++ l2) + waking p' = total waking (l1 ++ p' :: l2))%nat) by (rewrite total_mid; lia). rewrite Ew in Kp', Kq. unfold busy, over in *.
    split; cbn [control entered ended threads]; rewrite ?total_mid; try assumption; try lia. rewrite total_mid in Ew. intros q [Hq|[<-|Hq]]%in_app_or; [|rewrite <- total_mid; exact Kp'|].
    + rewrite <- total_mid. apply Kq; [rewrite <- (Nat.add_0_l (total waking (l1 ++ l2))), <- Wp, <- total_mid; apply K, in_or_app; now left|]. apply in_split in Hq as (x & y & ->). rewrite <- app_assoc in O. cbn in O. rewrite total_mid in O. lia.
    + rewrite <- total_mid. apply Kq; [rewrite <- (Nat.add_0_l (total waking (l1 ++ l2))), <- Wp, <- total_mid; apply K, in_or_app; right; now right|]. apply in_split in Hq as (x & y & ->). rewrite app_assoc, total_mid in O. lia.
  - pose proof (K Wake ltac:(apply in_elt)) as Kw. cbn in Kw. subst w. split; cbn [control entered ended threads]; rewrite ?total_mid, ?total_app in *; rewrite ?total_awake by reflexivity; cbn in *; try assumption; try lia.
    assert (Old : forall q, In q l1 \/ In q l2 -> pc_ok kOnceDone (total waking l1 + total waking l2) (awake q)).
    { intros q Hq. assert (Kq : pc_ok kOnceDone (S (total waking l1 + total waking l2)) q) by (apply K, in_or_app; destruct Hq; [left|right; right]; assumption). destruct q; exact Kq || exact I. }
    intros q [Hq|[<-|Hq]]%in_app_or; [|reflexivity|]; apply in_map_iff in Hq as (q' & <- & Hq); apply Old; tauto.
Qed.

Lemma once_reachable s : reachable s -> once_inv s.
Proof.
  induction 1 as [n|s s' _ IH S]; [|exact (once_step_inv s s' S IH)]. split; cbn [control entered ended threads].
  - now left.
  - induction n; auto.
  - induction n; auto.
  - induction n; auto.
  - intros p H. apply repeat_spec in H. now subst.
Qed.

Lemma total_in f l : (1 <= total f l)%nat -> exists p, In p l /\ (1 <= f p)%nat.
Proof. induction l as [|p l IH]; cbn; [lia|]. intros H. destruct (f p) eqn:E; [destruct (IH ltac:(lia)) as (q & Hq & L); exists q; auto|exists p; split; [auto|lia]]. Qed.

Lemma in_total f p l : In p l -> (f p <= total f l)%nat.
Proof. intros H. apply in_split in H as (x & y & ->). rewrite total_mid. lia. Qed.

Lemma total_le f g l : (forall p, f p <= g p)%nat -> (total f l <= total g l)%nat.
Proof. intros H. induction l as [|p l IH]; cbn; [lia|]. specialize (H p). lia. Qed.

(** ** Progress *)

(** Steps other than new calls, wake-ups without a reason and exceptions. *)
Inductive advance : system -> system -> Prop :=
  | adv_thread w e f l1 p l2 w' p' : tstep w p w' p' -> p <> Idle -> p <> Asleep -> p' <> Thrown ->
      advance (mk_system w e f (l1 ++ p :: l2)) (mk_system w' (e + enters p p') (f + ends p p') (l1 ++ p' :: l2))
  | adv_wake w e f l1 l2 : advance (mk_system w e f (l1 ++ Wake :: l2)) (mk_system w e f (map awake l1 ++ Returned :: map awake l2)).

Inductive advances : nat -> system -> system -> Prop :=
  | adv_none s : advances 0 s s
  | adv_more n s s' s'' : advance s s' -> advances n s' s'' -> advances (S n) s s''.

Lemma advance_step s s' : advance s s' -> step s s'.
Proof. intros [w e f l1 p l2 w' p' T _ _ _|w e f l1 l2]; [now apply step_thread|apply step_wake]. Qed.

(** The values of the control word come in this order. *)
Definition phase (w : Z) : nat := if w =? kOnceInit then 0 else if w =? kOnceRunning then 1 else if w =? kOnceWaiter then 2 else 3.

(** How far a thread is from its end while the control word is [w]. *)
Definition rank (w : Z) (p : pc) : nat :=
  match p with
  | LoadControl => 9
  | DebugCheck => 8
  | TryExchange => 7
  | WaitLoad => 5
  | WaitExchange v _ => if v =? w then 4 else 6
  | Delay v => if v =? w then 3 else 6
  | Asleep => if w =? kOnceDone then 6 else 2
  | Invoke => 4
  | Running => 3
  | Store => 2
  | Wake => 1
  | Idle | Returned | Thrown | Fatal => 0
  end.

Definition distance (s : system) : nat := ((3 - phase (control s)) * S (9 * length (threads s)) + total (rank (control s)) (threads s))%nat.

Lemma rank_bound w l : (total (rank w) l <= 9 * length l)%nat.
Proof.
  induction l as [|p l IH]; cbn [total length]; [lia|]. enough (rank w p <= 9)%nat by lia.
  destruct p; cbn; try lia; repeat match goal with |- context [if ?b then _ else _] => destruct b end; lia.
Qed.

(** A step either moves the control word on or brings its thread closer to its end. *)
Lemma tstep_advance w p w' p' k : tstep w p w' p' -> p <> Idle -> p <> Asleep -> p' <> Thrown -> word_ok w -> pc_ok w k p -> (owns p <= busy w)%nat ->
  (phase w < phase w' <= 3)%nat \/ w' = w /\ (rank w p' < rank w p)%nat.
Proof.
  intros T Ni Na Nt W K O. destruct T; try congruence; unfold after_load, find_transition, wait_return, expected, busy in *; cbn in K.
  all: try (destruct K as [(-> & ->)|(-> & ->)]); try subst v; destruct W as [W|[W|[W|W]]]; try discriminate W; try subst w; cbn in *; try discriminate K; try lia; try congruence.
Qed.

Lemma advance_closer s s' : advance s s' -> once_inv s -> (distance s' < distance s)%nat.
Proof.
  intros A [W O E F K]. destruct A as [w e f l1 p l2 w' p' T Ni Na Nt|w e f l1 l2]; cbn [control entered ended threads] in *; unfold distance; cbn [control threads].
  - rewrite total_mid in O. pose proof (K p ltac:(apply in_elt)) as Kp. assert (Op : (owns p <= busy w)%nat) by (unfold busy; lia).
    destruct (tstep_advance w p w' p' _ T Ni Na Nt W Kp Op) as [H|(-> & H)].
    + pose proof (rank_bound w' (l1 ++ p' :: l2)) as B. rewrite !length_app in *. cbn [length] in *. nia.
    + rewrite !total_mid, !length_app. cbn [length]. lia.
  - pose proof (K Wake ltac:(apply in_elt)) as Kw. cbn in Kw. subst w. rewrite !total_mid, !total_app, !length_app. cbn [length]. rewrite !length_map.
    assert (L : forall l, (total (rank kOnceDone) (map awake l) <= total (rank kOnceDone) l)%nat).
    { induction l as [|p l IH]; cbn [map total]; [lia|]. destruct p; cbn in *; lia. }
    pose proof (L l1). pose proof (L l2). cbn [rank]. lia.
Qed.

Lemma advances_reach n s s' : advances n s s' -> reachable s -> ~ In Thrown (threads s) -> reachable s' /\ ~ In Thrown (threads s') /\ (n + distance s' <= distance s)%nat.
Proof.
  induction 1 as [s|n s s' s'' A B IH]; intros R N; [split; [assumption|split; [assumption|lia]]|]. pose proof (advance_closer s s' A (once_reachable s R)).
  assert (R' : reachable s') by (eapply reach_step; [exact R|now apply advance_step]). destruct IH as (R'' & N'' & D); [assumption| |split; [assumption|split; [assumption|lia]]].
  destruct A as [w e f l1 p l2 w' p' T Ni Na Nt|w e f l1 l2]; cbn [threads] in *.
  - intros [H'|[H'|H']]%in_app_or; [apply N, in_or_app; now left|congruence|apply N, in_or_app; right; now right].
  - assert (Aw : forall l, In Thrown (map awake l) -> In Thrown l) by (intros l (q & Eq & Hq)%in_map_iff; destruct q; cbn in Eq; congruence || exact Hq).
    intros [H'|[H'|H']]%in_app_or; [apply N, in_or_app; left; auto|congruence|apply N, in_or_app; right; right; auto].
Qed.

(** While a call is under way, some thread can go on. *)
Lemma no_deadlock s p : once_inv s -> ~ In Thrown (threads s) -> In p (threads s) -> p <> Idle -> p <> Returned -> exists s', advance s s'.
Proof.
  intros [W O E F K] N Hp Ni Nr. destruct s as [w e f l]. cbn [control entered ended threads] in *.
  assert (Go : forall q, In q l -> q <> Idle -> q <> Asleep -> q <> Returned -> q <> Fatal -> exists s', advance (mk_system w e f l) s').
  { intros q Hq Qi Qa Qr Qf. apply in_split in Hq as (l1 & l2 & ->). assert (Nt : q <> Thrown) by (intros ->; apply N, in_elt). destruct q as [| | | | |v t|v| | | | | | | |]; try congruence.
    all: try (eexists; apply adv_wake).
    all: try (eexists; eapply adv_thread; [constructor|discriminate|discriminate|]; unfold after_load, find_transition, wait_return;
      repeat match goal with |- context [match ?x with _ => _ end] => destruct x end; discriminate).
    - destruct (Z.eq_dec w kOnceInit) as [->|D]; [eexists; eapply adv_thread; [apply t_try_won|discriminate..]|eexists; eapply adv_thread; [now apply t_try_lost|discriminate..]].
    - destruct (Z.eq_dec w v) as [->|D]; [eexists; eapply adv_thread; [apply t_wait_won|discriminate|discriminate|]|eexists; eapply adv_thread; [now apply t_wait_lost|discriminate..]].
      unfold wait_return. repeat match goal with |- context [if ?x then _ else _] => destruct x end; discriminate.
    - destruct (Z.eq_dec w v) as [->|D]; [eexists; eapply adv_thread; [apply t_sleep|discriminate..]|eexists; eapply adv_thread; [now apply t_no_sleep|discriminate..]].
  }
  assert (Hf : p <> Fatal) by (intros ->; exact (K Fatal Hp)). destruct p; try congruence; try (eapply Go; [exact Hp|discriminate..]).
  destruct (K Asleep Hp) as [->|(-> & Hw)].
  - destruct (total_in owns l ltac:(cbn in O; lia)) as (q & Hq & Oq). apply (Go q Hq); intros ->; cbn in Oq; lia.
  - destruct (total_in waking l Hw) as (q & Hq & Oq). apply (Go q Hq); intros ->; cbn in Oq; lia.
Qed.

(** ** Properties *)
Inductive steps : system -> system -> Prop :=
  | steps_none s : steps s s
  | steps_more s s' s'' : step s s' -> steps s' s'' -> steps s s''.

Lemma steps_reach s s' : steps s s' -> reachable s -> reachable s'.
Proof. induction 1 as [s|s s' s'' A B IH]; intros R; [exact R|]. apply IH. eapply reach_step; eassumption. Qed.

Lemma thrown_stays s s' : steps s s' -> In Thrown (threads s) -> In Thrown (threads s').
Proof.
  induction 1 as [s|s s' s'' A B IH]; intros H; [exact H|]. apply IH. destruct A as [w e f l1 p l2 w' p' T|w e f l1 l2]; cbn [threads] in *.
  - apply in_app_or in H as [H|[->|H]]; apply in_or_app; [now left|inversion T|right; now right].
  - assert (Aw : forall l, In Thrown l -> In Thrown (map awake l)) by (intros l Hl; apply in_map_iff; now exists Thrown).
    apply in_app_or in H as [H|[H|H]]; apply in_or_app; [left; auto|discriminate|right; right; auto].
Qed.

(** C10: Whatever the interleaving, the function is entered at most once, by one thread at a time; a call returns only after the function has
    ended, the control word then says so for good, and the debug check never fails. *)
Theorem call_once_exactly_once s : reachable s ->
  (ended s <= entered s <= 1)%nat /\ (total inside (threads s) <= 1)%nat /\ ~ In Fatal (threads s) /\
  (In Returned (threads s) -> entered s = 1%nat /\ ended s = 1%nat /\ control s = kOnceDone) /\
  (control s = kOnceDone -> forall s', steps s s' -> control s' = kOnceDone /\ entered s' = 1%nat /\ ended s' = 1%nat).
Proof.
  intros R. assert (One : forall s, reachable s -> (total inside (threads s) <= total owns (threads s))%nat /\ (total after_end (threads s) <= total inside (threads s))%nat).
  { intros t _. split; apply total_le; intros p; destruct p; cbn; lia. }
  assert (Dn : forall s, reachable s -> control s = kOnceDone -> entered s = 1%nat /\ ended s = 1%nat).
  { intros t Rt D. destruct (once_reachable t Rt) as [W O E F K]. destruct (One t Rt). rewrite D in *. cbn in *. lia. }
  pose proof (once_reachable s R) as [W O E F K]. destruct (One s R) as (L1 & L2).
  split; [destruct W as [W|[W|[W|W]]]; rewrite W in *; cbn in *; lia|split; [destruct W as [W|[W|[W|W]]]; rewrite W in *; cbn in *; lia|split; [exact (K Fatal)|split]]].
  - intros H. pose proof (K Returned H) as D. cbn in D. destruct (Dn s R D). auto.
  - intros D s' H. induction H as [s|s s' s'' A B IH]; [destruct (Dn s R D); auto|]. assert (R' : reachable s') by (eapply reach_step; eassumption).
    assert (D' : control s' = kOnceDone).
    { destruct A as [w e f l1 p l2 w' p' T|]; [|exact D]. cbn [control threads] in *. subst w. rewrite total_mid in O. cbn in O. inversion T; subst; try reflexivity; try discriminate.
      destruct (K (WaitExchange kOnceDone t)) as [(_ & H)|(_ & H)]; [apply in_elt|discriminate H|discriminate H]. }
    pose proof (once_reachable s' R') as [W' O' E' F' K']. destruct (One s' R'). now apply IH.
Qed.

(** C11: A call ends: without exceptions, new calls and reasonless wake-ups, any schedule stops after a bounded number of steps, and it stops
    only when every call has returned; in particular no wake-up is lost. *)
Theorem call_once_terminates s : reachable s -> ~ In Thrown (threads s) ->
  (forall n s', advances n s s' -> (n <= distance s)%nat) /\
  (forall n s', advances n s s' -> (forall t, ~ advance s' t) -> forall p, In p (threads s') -> p = Idle \/ p = Returned).
Proof.
  intros R N. split; intros n s' A.
  - destruct (advances_reach n s s' A R N) as (_ & _ & D). lia.
  - intros St p Hp. destruct (advances_reach n s s' A R N) as (R' & N' & _). destruct p; try (now left); try (now right); exfalso;
      (match type of Hp with In ?q _ => destruct (no_deadlock s' q (once_reachable s' R') N' Hp) as (u & Hu); [discriminate|discriminate|exact (St u Hu)] end).
Qed.

(** C12: When the function throws, the control word is left as it was: from then on no call of that flag ever returns, and the function is
    never entered again. *)
Theorem call_once_throw s s' : reachable s -> In Thrown (threads s) -> steps s s' ->
  (control s' = kOnceRunning \/ control s' = kOnceWaiter) /\ entered s' = 1%nat /\ ended s' = 0%nat /\ ~ In Returned (threads s') /\ ~ In Running (threads s').
Proof.
  intros R T S. apply (thrown_stays s s' S) in T. pose proof (steps_reach s s' S R) as R'. destruct (once_reachable s' R') as [W O E F K].
  apply in_split in T as (l1 & l2 & ET). rewrite ET in *. rewrite total_mid in O, E, F. cbn [owns inside after_end] in *.
  assert (Z0 : total owns (l1 ++ l2) = 0%nat /\ (control s' = kOnceRunning \/ control s' = kOnceWaiter)) by (destruct W as [W|[W|[W|W]]]; rewrite W in *; cbn in O; split; auto; lia).
  destruct Z0 as (Z0 & B). assert (Zi : (total inside (l1 ++ l2) <= total owns (l1 ++ l2))%nat) by (apply total_le; intros []; cbn; lia).
  assert (Ze : (total after_end (l1 ++ l2) <= total owns (l1 ++ l2))%nat) by (apply total_le; intros []; cbn; lia).
  split; [exact B|split; [destruct B as [B|B]; rewrite B in E; cbn in E; lia|split; [destruct B as [B|B]; rewrite B in F; cbn in F; lia|split]]].
  - intros H. specialize (K Returned H). cbn in K. destruct B as [B|B]; rewrite B in K; discriminate.
  - intros H. apply in_app_or in H as [H|[H|H]]; [|discriminate|].
    + pose proof (in_total owns Running (l1 ++ l2) ltac:(apply in_or_app; now left)). cbn in *. lia.
    + pose proof (in_total owns Running (l1 ++ l2) ltac:(apply in_or_app; now right)). cbn in *. lia.
Qed.

(** ** Two threads *)
Module Witness.
Lemma forward w e f l1 p l2 w' p' : reachable (mk_system w e f (l1 ++ p :: l2)) -> tstep w p w' p' ->
  reachable (mk_system w' (e + enters p p') (f + ends p p') (l1 ++ p' :: l2)).
Proof. intros R T. eapply reach_step; [exact R|now apply step_thread]. Qed.

Ltac go R l1 p l2 := eapply (forward _ _ _ l1 p l2) in R; [|constructor; discriminate]; cbn in R.

(** The second thread waits while the first one runs the function. *)
Definition waiting : system := mk_system kOnceWaiter 1 0 [Running; Asleep].
Definition returned : system := mk_system kOnceDone 1 1 [Returned; WaitLoad].
Definition thrown : system := mk_system kOnceWaiter 1 0 [Thrown; Asleep].

Lemma reach_waiting : reachable waiting.
Proof.
  pose proof (reach_init 2) as R. cbn in R. go R (@nil pc) Idle [Idle]. go R (@nil pc) LoadControl [Idle]. go R (@nil pc) DebugCheck [Idle]. go R (@nil pc) TryExchange [Idle]. go R (@nil pc) Invoke [Idle].
  go R [Running] Idle (@nil pc). go R [Running] LoadControl (@nil pc). go R [Running] DebugCheck (@nil pc). go R [Running] TryExchange (@nil pc). go R [Running] WaitLoad (@nil pc).
  go R [Running] (WaitExchange kOnceRunning (mk_transition kOnceRunning kOnceWaiter false)) (@nil pc). go R [Running] WaitLoad (@nil pc). go R [Running] (Delay kOnceWaiter) (@nil pc). exact R.
Qed.

Lemma reach_returned : reachable returned.
Proof.
  pose proof reach_waiting as R. unfold waiting in R. eapply (forward _ _ _ [] Running [Asleep]) in R; [|apply t_end]. cbn in R. go R (@nil pc) Store [Asleep].
  exact (reach_step _ _ R (step_wake kOnceDone 1 1 [] [Asleep])).
Qed.

Lemma reach_thrown : reachable thrown.
Proof. pose proof reach_waiting as R. unfold waiting in R. eapply (forward _ _ _ [] Running [Asleep]) in R; [|apply t_throw]. exact R. Qed.
End Witness.
Import Witness.

Lemma call_once_exactly_once_witness : (ended returned <= entered returned <= 1)%nat /\ entered returned = 1%nat.
Proof. destruct (call_once_exactly_once returned reach_returned) as (A & _ & _ & B & _). split; [exact A|]. apply B. left. reflexivity. Defined.

Lemma call_once_terminates_witness : ~ (forall t, ~ advance waiting t).
Proof.
  intros St. destruct (call_once_terminates waiting reach_waiting) as (_ & E); [intros [H|[H|[]]]; discriminate|].
  destruct (E 0%nat waiting (adv_none waiting) St Running ltac:(left; reflexivity)); discriminate.
Defined.

Lemma call_once_throw_witness : ~ In Returned (threads thrown).
Proof. apply (call_once_throw thrown thrown reach_thrown); [left; reflexivity|apply steps_none]. Defined.
