(* ===== verification/ZoneText.v ===== *)
(** The text of time zones in [absl/time/internal/cctz/src]: POSIX rules ([time_zone_posix.h], [time_zone_posix.cc])
    and the names of zones with a fixed offset ([time_zone_fixed.cc]).  A C string is a list of bytes that ends with a
    NUL; reading past the NUL is [None], and a null pointer that a parser returns is [Some None]. *)
From Stdlib Require Import Ascii String.
From Stdlib Require Import ZArith Lia List Bool.
From S2P Require Import Prelude Digits.
Import ListNotations.
#[local] Open Scope Z_scope.

(** ** POSIX rules *)
Module Posix.

(** [strchr]: the index of a character in a string, its terminating NUL included. *)
Fixpoint index_of (c : Z) (l : list Z) (i : Z) : option Z :=
  match l with
  | [] => None
  | a :: l => if a =? c then Some i else index_of c l (i + 1)
  end.

Definition strchr (l : list Z) (c : Z) : option Z := index_of c (l ++ [0]) 0.

Definition kDigits : list Z := str "0123456789".
Definition kMaxInt : Z := 2 ^ 31 - 1.

(** The rest of the text, with what was read. *)
Definition parsed (A : Type) : Type := option (option (A * list Z)).

Definition pbind {A B} (m : parsed A) (f : A -> list Z -> parsed B) : parsed B :=
  match m with
  | Some (Some (a, p)) => f a p
  | Some None => Some None
  | None => None
  end.

Notation "'parse' x , p <- m ; k" := (pbind m (fun x p => k)) (at level 60, x name, p name, m at next level, k at level 200, right associativity).

(** The character a pointer points at. *)
Definition peek {A} (p : list Z) (f : Z -> parsed A) : parsed A := match p with [] => None | c :: _ => f c end.

Fixpoint int_loop (p : list Z) (value : Z) : parsed Z :=
  match p with
  | [] => None
  | c :: p' =>
    match strchr kDigits c with
    | None => Some (Some (value, p))
    | Some d =>
      if d >=? 10 then Some (Some (value, p))
      else if value >? kMaxInt / 10 then Some None
      else if value * 10 >? kMaxInt - d then Some None
      else int_loop p' (value * 10 + d)
    end
  end.

Definition ParseInt (p : list Z) (min max : Z) : parsed Z :=
  parse value, q <- int_loop p 0;
  if (length q =? length p)%nat || (value <? min) || (value >? max) then Some None else Some (Some (value, q)).

(** The characters up to the closing bracket. *)
Fixpoint quoted_loop (p abbr : list Z) : parsed (list Z) :=
  match p with
  | [] => None
  | c :: p' => if c =? chr ">" then Some (Some (abbr, p')) else if c =? 0 then Some None else quoted_loop p' (abbr ++ [c])
  end.

Fixpoint plain_loop (p abbr : list Z) : parsed (list Z) :=
  match p with
  | [] => None
  | c :: p' =>
    if c =? 0 then Some (Some (abbr, p))
    else
      match strchr (str "-+,") c, strchr kDigits c with
      | None, None => plain_loop p' (abbr ++ [c])
      | _, _ => Some (Some (abbr, p))
      end
  end.

Definition ParseAbbr (p : list Z) : parsed (list Z) :=
  peek p (fun c =>
  if c =? chr "<" then
    peek (tl p) (fun c1 =>
    if (c1 =? chr ">") || (c1 =? 0) then Some None else quoted_loop (tl (tl p)) [c1])
  else
    parse abbr, q <- plain_loop p [];
    if (length abbr <? 3)%nat then Some None else Some (Some (abbr, q))).

(** Hours with minutes and seconds, after the sign. *)
Definition parse_hms (p : list Z) (min_hour max_hour sign : Z) : parsed Z :=
  parse hours, p <- ParseInt p min_hour max_hour;
  peek p (fun c =>
  if c =? chr ":" then
    parse minutes, p <- ParseInt (tl p) 0 59;
    peek p (fun c =>
    if c =? chr ":" then
      parse seconds, p <- ParseInt (tl p) 0 59;
      Some (Some (sign * ((hours * 60 + minutes) * 60 + seconds), p))
    else Some (Some (sign * ((hours * 60 + minutes) * 60), p)))
  else Some (Some (sign * (hours * 60 * 60), p))).

Definition ParseOffset (p : list Z) (min_hour max_hour sign : Z) : parsed Z :=
  peek p (fun c =>
  if (c =? chr "+") || (c =? chr "-") then parse_hms (tl p) min_hour max_hour (if c =? chr "-" then - sign else sign)
  else parse_hms p min_hour max_hour sign).

(** [PosixTransition::Date]: the union with its format. *)
Inductive Date :=
| J (day : Z)
| N (day : Z)
| M (month week weekday : Z).

Record PosixTransition := mk_transition { date : Date; time_offset : Z }.

Record PosixTimeZone := mk_zone {
  std_abbr : list Z;
  std_offset : Z;
  dst_abbr : list Z;
  dst_offset : Z;
  dst_start : PosixTransition;
  dst_end : PosixTransition
}.

(** The three formats of a date. *)
Definition ParseDate (p : list Z) : parsed Date :=
  peek p (fun c =>
  if c =? chr "M" then
    parse month, p <- ParseInt (tl p) 1 12;
    peek p (fun c =>
    if negb (c =? chr ".") then Some None
    else
      parse week, p <- ParseInt (tl p) 1 5;
      peek p (fun c =>
      if negb (c =? chr ".") then Some None
      else
        parse weekday, p <- ParseInt (tl p) 0 6;
        Some (Some (M month week weekday, p))))
  else if c =? chr "J" then
    parse day, p <- ParseInt (tl p) 1 365;
    Some (Some (J day, p))
  else
    parse day, p <- ParseInt p 0 365;
    Some (Some (N day, p))).

Definition ParseDateTime (p : list Z) : parsed PosixTransition :=
  peek p (fun c =>
  if negb (c =? chr ",") then Some None
  else
    parse d, p <- ParseDate (tl p);
    peek p (fun c =>
    if c =? chr "/" then
      parse offset, p <- ParseOffset (tl p) (-167) 167 1;
      Some (Some (mk_transition d offset, p))
    else Some (Some (mk_transition d (2 * 60 * 60), p)))).

(** [spec] without its NUL; [res] is what the zone was before, and [Some None] a rejected text. *)
Definition ParsePosixSpec (spec : list Z) (res : PosixTimeZone) : option (option PosixTimeZone) :=
  let p := spec ++ [0] in
  let r :=
    peek p (fun c =>
    if c =? chr ":" then Some None
    else
      parse std_abbr, p <- ParseAbbr p;
      parse std_offset, p <- ParseOffset p 0 24 (-1);
      peek p (fun c =>
      if c =? 0 then Some (Some (mk_zone std_abbr std_offset (dst_abbr res) (dst_offset res) (dst_start res) (dst_end res), p))
      else
        parse dst_abbr, p <- ParseAbbr p;
        parse dst_offset, p <- peek p (fun c => if negb (c =? chr ",") then ParseOffset p 0 24 (-1) else Some (Some (std_offset + 60 * 60, p)));
        parse dst_start, p <- ParseDateTime p;
        parse dst_end, p <- ParseDateTime p;
        peek p (fun c => if c =? 0 then Some (Some (mk_zone std_abbr std_offset dst_abbr dst_offset dst_start dst_end, p)) else Some None))) in
  match r with
  | Some (Some (z, _)) => Some (Some z)
  | Some None => Some None
  | None => None
  end.

(** ** Every text is read safely *)

(** What is left of a C string. *)
Definition terminated (p : list Z) : Prop := exists q, p = q ++ [0].

(** A parser stays inside the string, and [Q] holds of what it reads. *)
Definition safe {A} (m : parsed A) (Q : A -> Prop) : Prop :=
  match m with
  | None => False
  | Some None => True
  | Some (Some (a, q)) => terminated q /\ Q a
  end.

Lemma safe_bind {A B} (m : parsed A) (f : A -> list Z -> parsed B) P Q :
  safe m P -> (forall a q, terminated q -> P a -> safe (f a q) Q) -> safe (pbind m f) Q.
Proof. destruct m as [[(a & q)|]|]; cbn; intros H K; [|exact I|exact H]. destruct H. now apply K. Qed.

Lemma safe_peek {A} p (f : Z -> parsed A) Q : terminated p -> (forall c, hd 0 p = c -> safe (f c) Q) -> safe (peek p f) Q.
Proof. intros (q & ->) H. destruct q as [|c q]; cbn; now apply H. Qed.

Lemma terminated_tl p : terminated p -> hd 0 p <> 0 -> terminated (tl p).
Proof. intros (q & ->) H. destruct q as [|c q]; [now destruct H|]. now exists q. Qed.

Lemma safe_some {A} (a : A) q (Q : A -> Prop) : terminated q -> Q a -> safe (Some (Some (a, q))) Q.
Proof. now split. Qed.

(** [strchr] in the digits also finds the NUL. *)
Lemma strchr_digits c : strchr kDigits c = if (48 <=? c) && (c <=? 57) then Some (c - 48) else if c =? 0 then Some 10 else None.
Proof.
  unfold strchr, kDigits. cbn [str app index_of]. unfold chr. cbn - [Z.eqb Z.sub Z.add].
  repeat match goal with |- context [?a =? c] => destruct (Z.eqb_spec a c) as [<-|]; [reflexivity|] end.
  destruct (Z.leb_spec 48 c), (Z.leb_spec c 57); cbn; destruct (Z.eqb_spec c 0); try lia; reflexivity.
Qed.

Lemma safe_int_loop p : terminated p -> forall v, 0 <= v -> safe (int_loop p v) (fun v => 0 <= v).
Proof.
  intros (q & ->). induction q as [|c q IH]; intros v Hv; cbn [app int_loop]; rewrite strchr_digits; [split; [now exists []|exact Hv]|].
  destruct ((48 <=? c) && (c <=? 57)) eqn:E; zbool.
  - rewrite Z.geb_leb, (proj2 (Z.leb_gt _ _)) by lia. repeat case_if; try exact I. apply IH. lia.
  - destruct (c =? 0); (split; [now exists (c :: q)|exact Hv]).
Qed.

Lemma safe_ParseInt p min max : terminated p -> safe (ParseInt p min max) (fun v => min <= v <= max).
Proof.
  intros T. unfold ParseInt. apply (safe_bind _ _ (fun v => 0 <= v)); [now apply safe_int_loop|]. intros v q Tq Hv.
  destruct ((length q =? length p)%nat || (v <? min) || (v >? max)) eqn:E; [exact I|]. zbool. split; [exact Tq|lia].
Qed.

(** What an abbreviation may be: in brackets, or plain. *)
Definition plain_char (c : Z) : bool := negb ((c =? 0) || (c =? chr "-") || (c =? chr "+") || (c =? chr ",") || ((48 <=? c) && (c <=? 57))).
Definition quoted_char (c : Z) : bool := negb ((c =? 0) || (c =? chr ">")).

Definition quotable (a : list Z) : bool := negb (length a =? 0)%nat && forallb quoted_char a.

Definition abbr_ok (a : list Z) : Prop := quotable a = true \/ ((3 <= length a)%nat /\ forallb plain_char a = true /\ hd 0 a <> chr "<").

(** An abbreviation that was not in brackets begins with the first character. *)
Definition abbr_from (c : Z) (a : list Z) : Prop := abbr_ok a /\ (quotable a = false -> hd 0 a = c).

Lemma plain_test c : c <> 0 -> match strchr (str "-+,") c, strchr kDigits c with None, None => plain_char c = true | _, _ => plain_char c = false end.
Proof.
  intros H. rewrite strchr_digits. unfold strchr, plain_char, str, chr. cbn - [Z.eqb Z.leb]. rewrite (proj2 (Z.eqb_neq c 0)) by exact H.
  destruct (Z.eqb_spec 45 c) as [<-|H1]; [reflexivity|]. destruct (Z.eqb_spec 43 c) as [<-|H2]; [reflexivity|]. destruct (Z.eqb_spec 44 c) as [<-|H3]; [reflexivity|].
  rewrite (proj2 (Z.eqb_neq 0 c)) by lia. rewrite (proj2 (Z.eqb_neq c 45)), (proj2 (Z.eqb_neq c 43)), (proj2 (Z.eqb_neq c 44)) by lia. cbn [orb negb].
  destruct ((48 <=? c) && (c <=? 57)); reflexivity.
Qed.

Lemma safe_quoted p : terminated p -> forall a, forallb quoted_char a = true -> a <> [] -> safe (quoted_loop p a) (fun a => a <> [] /\ forallb quoted_char a = true).
Proof.
  intros (q & ->). induction q as [|c q IH]; intros a Ha Na; cbn [app quoted_loop]; [exact I|].
  destruct (c =? chr ">") eqn:E1; [split; [now exists q|auto]|]. destruct (c =? 0) eqn:E2; [exact I|]. apply IH; [|now destruct a].
  rewrite forallb_app, Ha. cbn [forallb]. unfold quoted_char. now rewrite E1, E2.
Qed.

Lemma safe_plain p : terminated p -> forall a, forallb plain_char a = true -> safe (plain_loop p a) (fun b => forallb plain_char b = true /\ exists t, b = a ++ t /\ (t = [] \/ hd 0 t = hd 0 p)).
Proof.
  intros (q & ->). induction q as [|c q IH]; intros a Ha; cbn [app plain_loop]; [split; [now exists []|]; split; [exact Ha|exists []; rewrite app_nil_r; auto]|].
  assert (Stop : safe (Some (Some (a, c :: q ++ [0]))) (fun b => forallb plain_char b = true /\ exists t, b = a ++ t /\ (t = [] \/ hd 0 t = c))).
  { split; [now exists (c :: q)|]. split; [exact Ha|]. exists []. rewrite app_nil_r. auto. }
  destruct (Z.eqb_spec c 0) as [->|Hc]; [exact Stop|]. pose proof (plain_test c Hc) as T. destruct (strchr (str "-+,") c); [exact Stop|]. destruct (strchr kDigits c); [exact Stop|].
  specialize (IH (a ++ [c])). destruct (plain_loop (q ++ [0]) (a ++ [c])) as [[(b & r)|]|]; cbn in *; [|exact I|apply IH; rewrite forallb_app, Ha; cbn; now rewrite T].
  destruct IH as (Tr & Hb & t & -> & _); [rewrite forallb_app, Ha; cbn; now rewrite T|]. split; [exact Tr|split; [exact Hb|]]. exists (c :: t). rewrite <- app_assoc. cbn. auto.
Qed.

Lemma safe_ParseAbbr p : terminated p -> safe (ParseAbbr p) (abbr_from (hd 0 p)).
Proof.
  intros T. unfold ParseAbbr. apply safe_peek; [exact T|]. intros c Hc. destruct (Z.eqb_spec c (chr "<")) as [->|Nc].
  - assert (T1 : terminated (tl p)) by (apply terminated_tl; [exact T|rewrite Hc; discriminate]). apply safe_peek; [exact T1|]. intros c1 Hc1. destruct ((c1 =? chr ">") || (c1 =? 0)) eqn:E; [exact I|].
    assert (Q1 : quoted_char c1 = true) by (unfold quoted_char; now rewrite orb_comm, E). apply orb_false_iff in E as (_ & E0). apply Z.eqb_neq in E0.
    assert (T2 : terminated (tl (tl p))) by (apply terminated_tl; [exact T1|now rewrite Hc1]).
    pose proof (safe_quoted (tl (tl p)) T2 [c1]) as S. cbn [forallb] in S. rewrite Q1 in S. specialize (S eq_refl ltac:(discriminate)).
    destruct (quoted_loop (tl (tl p)) [c1]) as [[(a & q)|]|]; cbn in *; [|exact I|exact S]. destruct S as (Tq & Na & Qa). split; [exact Tq|].
    assert (Q : quotable a = true) by (unfold quotable; rewrite Qa; now destruct a). split; [now left|congruence].
  - eapply safe_bind; [now apply safe_plain|]. cbv beta. intros a q Tq (Ha & t & -> & Ht). cbn [app] in *. destruct (Nat.ltb_spec (length t) 3) as [L|L]; [exact I|]. split; [exact Tq|].
    destruct Ht as [->|Ht]; [cbn in L; lia|]. split; [right|now rewrite Ht]. split; [exact L|split; [exact Ha|]]. rewrite Ht, Hc. exact Nc.
Qed.

(** Hours, minutes and seconds of at most [h] hours. *)
Definition offset_ok (h v : Z) : Prop := Z.abs v <= h * 3600 + 3599.

Lemma safe_parse_hms p lo h sign : terminated p -> lo <= 0 -> - h <= lo -> Z.abs sign = 1 -> safe (parse_hms p lo h sign) (offset_ok h).
Proof.
  intros T Hlo Hh Hs. apply (safe_bind _ _ (fun v => lo <= v <= h)); [now apply safe_ParseInt|]. intros hours q Tq Hq. apply safe_peek; [exact Tq|]. intros c2 Hc2.
  destruct (Z.eqb_spec c2 (chr ":")) as [E2|_]; [|apply safe_some; [exact Tq|unfold offset_ok; nia]].
  assert (T2 : terminated (tl q)) by (apply terminated_tl; [exact Tq|rewrite Hc2, E2; discriminate]). eapply safe_bind; [now apply safe_ParseInt|]. cbv beta. intros minutes q2 Tq2 Hm. apply safe_peek; [exact Tq2|]. intros c3 Hc3.
  destruct (Z.eqb_spec c3 (chr ":")) as [E3|_]; [|apply safe_some; [exact Tq2|unfold offset_ok; nia]].
  assert (T3 : terminated (tl q2)) by (apply terminated_tl; [exact Tq2|rewrite Hc3, E3; discriminate]). eapply safe_bind; [now apply safe_ParseInt|]. cbv beta. intros seconds q3 Tq3 Hs3. apply safe_some; [exact Tq3|unfold offset_ok; nia].
Qed.

Lemma safe_ParseOffset p lo h sign : terminated p -> lo <= 0 -> - h <= lo -> Z.abs sign = 1 -> safe (ParseOffset p lo h sign) (offset_ok h).
Proof.
  intros T Hlo Hh Hs. unfold ParseOffset. apply safe_peek; [exact T|]. intros c Hc. destruct ((c =? chr "+") || (c =? chr "-")) eqn:E; [|now apply safe_parse_hms].
  apply safe_parse_hms; [|assumption|assumption|destruct (c =? chr "-"); lia]. apply terminated_tl; [exact T|]. rewrite Hc. intros ->. discriminate E.
Qed.

Definition date_ok (d : Date) : Prop :=
  match d with
  | J day => 1 <= day <= 365
  | N day => 0 <= day <= 365
  | M month week weekday => 1 <= month <= 12 /\ 1 <= week <= 5 /\ 0 <= weekday <= 6
  end.

Definition transition_ok (t : PosixTransition) : Prop := date_ok (date t) /\ offset_ok 167 (time_offset t).

Lemma safe_ParseDate p : terminated p -> safe (ParseDate p) date_ok.
Proof.
  intros T. unfold ParseDate. apply safe_peek; [exact T|]. intros c Hc. destruct (Z.eqb_spec c (chr "M")) as [->|_]; [|destruct (Z.eqb_spec c (chr "J")) as [->|_]].
  - assert (T1 : terminated (tl p)) by (apply terminated_tl; [exact T|rewrite Hc; discriminate]). eapply safe_bind; [now apply safe_ParseInt|]. cbv beta. intros month q Tq Hm.
    apply safe_peek; [exact Tq|]. intros c2 Hc2. destruct (Z.eqb_spec c2 (chr ".")) as [E2|_]; [cbn [negb]|exact I]. assert (T2 : terminated (tl q)) by (apply terminated_tl; [exact Tq|rewrite Hc2, E2; discriminate]).
    eapply safe_bind; [now apply safe_ParseInt|]. cbv beta. intros week q2 Tq2 Hw. apply safe_peek; [exact Tq2|]. intros c3 Hc3. destruct (Z.eqb_spec c3 (chr ".")) as [E3|_]; [cbn [negb]|exact I].
    assert (T3 : terminated (tl q2)) by (apply terminated_tl; [exact Tq2|rewrite Hc3, E3; discriminate]). eapply safe_bind; [now apply safe_ParseInt|]. cbv beta. intros weekday q3 Tq3 Hd. split; [exact Tq3|]. cbn. lia.
  - assert (T1 : terminated (tl p)) by (apply terminated_tl; [exact T|rewrite Hc; discriminate]). eapply safe_bind; [now apply safe_ParseInt|]. cbv beta. intros day q Tq Hd. split; [exact Tq|]. cbn. lia.
  - eapply safe_bind; [now apply safe_ParseInt|]. cbv beta. intros day q Tq Hd. split; [exact Tq|]. cbn. lia.
Qed.

Lemma safe_ParseDateTime p : terminated p -> safe (ParseDateTime p) transition_ok.
Proof.
  intros T. unfold ParseDateTime. apply safe_peek; [exact T|]. intros c Hc. destruct (Z.eqb_spec c (chr ",")) as [->|_]; [cbn [negb]|exact I].
  assert (T1 : terminated (tl p)) by (apply terminated_tl; [exact T|rewrite Hc; discriminate]). eapply safe_bind; [now apply safe_ParseDate|]. intros d q Tq Hd. apply safe_peek; [exact Tq|]. intros c2 Hc2.
  destruct (Z.eqb_spec c2 (chr "/")) as [E2|_]; [|split; [exact Tq|]; split; [exact Hd|cbv; discriminate]]. assert (T2 : terminated (tl q)) by (apply terminated_tl; [exact Tq|rewrite Hc2, E2; discriminate]).
  eapply safe_bind; [apply (safe_ParseOffset (tl q) (-167) 167 1); [exact T2|lia..]|]. intros v q2 Tq2 Hv. split; [exact Tq2|]. now split.
Qed.

(** ** What a rule may be *)
Definition std_ok (a : list Z) (v : Z) : Prop := abbr_ok a /\ (quotable a = false -> hd 0 a <> chr ":") /\ offset_ok 24 v.

Definition dst_ok (z : PosixTimeZone) : Prop :=
  abbr_ok (dst_abbr z) /\ (dst_offset z = std_offset z + 60 * 60 \/ offset_ok 24 (dst_offset z)) /\ transition_ok (dst_start z) /\ transition_ok (dst_end z).

(** Standard time only: the other fields stay as they were. *)
Definition std_zone (a : list Z) (v : Z) (res : PosixTimeZone) : PosixTimeZone := mk_zone a v (dst_abbr res) (dst_offset res) (dst_start res) (dst_end res).

Lemma ParsePosixSpec_safe spec res : exists r, ParsePosixSpec spec res = Some r /\ forall z, r = Some z -> std_ok (std_abbr z) (std_offset z) /\ (z = std_zone (std_abbr z) (std_offset z) res \/ dst_ok z).
Proof.
  unfold ParsePosixSpec. set (r := peek _ _). enough (S : safe r (fun z => std_ok (std_abbr z) (std_offset z) /\ (z = std_zone (std_abbr z) (std_offset z) res \/ dst_ok z))).
  { destruct r as [[(z & q)|]|]; [|exists None; split; [reflexivity|discriminate]|destruct S]. exists (Some z). split; [reflexivity|]. intros z' [= <-]. apply S. }
  assert (T : terminated (spec ++ [0])) by now exists spec. unfold r. apply safe_peek; [exact T|]. intros c Hc. destruct (Z.eqb_spec c (chr ":")) as [_|Nc]; [exact I|].
  eapply safe_bind; [now apply safe_ParseAbbr|]. intros a q Tq Ha. eapply safe_bind; [apply (safe_ParseOffset q 0 24 (-1)); [exact Tq|lia..]|]. intros v q2 Tq2 Hv.
  assert (Os : std_ok a v) by (destruct Ha as (A & F); split; [exact A|split; [intros Q; rewrite (F Q); congruence|exact Hv]]).
  apply safe_peek; [exact Tq2|]. intros c2 Hc2. destruct (c2 =? 0); [split; [exact Tq2|]; split; [exact Os|now left]|].
  eapply safe_bind; [now apply safe_ParseAbbr|]. intros da q3 Tq3 (Hda & _). apply (safe_bind _ _ (fun d => d = v + 60 * 60 \/ offset_ok 24 d)).
  { apply safe_peek; [exact Tq3|]. intros c3 Hc3. destruct (c3 =? chr ","); cbn [negb]; [split; [exact Tq3|now left]|].
    pose proof (safe_ParseOffset q3 0 24 (-1) Tq3 ltac:(lia) ltac:(lia) ltac:(lia)) as S. destruct (ParseOffset q3 0 24 (-1)) as [[(d & q')|]|]; cbn in *; [split; [apply S|right; apply S]|exact I|exact S]. }
  intros d q4 Tq4 Hd. eapply safe_bind; [now apply safe_ParseDateTime|]. intros t1 q5 Tq5 H1. eapply safe_bind; [now apply safe_ParseDateTime|]. intros t2 q6 Tq6 H2.
  apply safe_peek; [exact Tq6|]. intros c6 Hc6. destruct (c6 =? 0); [|exact I]. split; [exact Tq6|]. split; [exact Os|]. right. split; [exact Hda|split; [exact Hd|now split]].
Qed.

(** ** Printing *)
Definition int_text (x : Z) : list Z := dec_text (digits 10 x).

(** The text of an offset for a parser that multiplies with [sign]. *)
Definition offset_text (sign v : Z) : list Z :=
  (if sign * v <? 0 then chr "-" else chr "+") ::
  int_text (Z.abs v / 3600) ++ [chr ":"] ++ int_text (Z.abs v / 60 mod 60) ++ [chr ":"] ++ int_text (Z.abs v mod 60).

Definition abbr_text (a : list Z) : list Z := if quotable a then chr "<" :: a ++ [chr ">"] else a.

Definition date_text (d : Date) : list Z :=
  match d with
  | J day => chr "J" :: int_text day
  | N day => int_text day
  | M month week weekday => chr "M" :: int_text month ++ [chr "."] ++ int_text week ++ [chr "."] ++ int_text weekday
  end.

Definition transition_text (t : PosixTransition) : list Z := chr "," :: date_text (date t) ++ [chr "/"] ++ offset_text 1 (time_offset t).

Definition std_text (a : list Z) (v : Z) : list Z := abbr_text a ++ offset_text (-1) v.

Definition dst_text (z : PosixTimeZone) : list Z :=
  abbr_text (dst_abbr z) ++ (if dst_offset z =? std_offset z + 60 * 60 then [] else offset_text (-1) (dst_offset z)) ++ transition_text (dst_start z) ++ transition_text (dst_end z).

Definition zone_text (z : PosixTimeZone) : list Z := std_text (std_abbr z) (std_offset z) ++ dst_text z.

(** *** Reading back *)
Definition no_digit (rest : list Z) : Prop := exists c r, rest = c :: r /\ ~ 48 <= c <= 57.

Lemma int_loop_text ds : Forall (is_digit 10) ds -> forall v rest, 0 <= v -> fold_left (fun v d => v * 10 + d) ds v <= kMaxInt -> no_digit rest ->
  int_loop (dec_text ds ++ rest) v = Some (Some (fold_left (fun v d => v * 10 + d) ds v, rest)).
Proof.
  induction 1 as [|d ds Hd Hds IH]; intros v rest Hv Hm Hr.
  - destruct Hr as (c & r & -> & Hc). cbn [dec_text map app int_loop fold_left]. rewrite strchr_digits. assert (E : (48 <=? c) && (c <=? 57) = false) by (apply andb_false_iff; rewrite !Z.leb_gt; lia).
    rewrite E. destruct (c =? 0); reflexivity.
  - unfold is_digit in Hd. cbn [fold_left] in Hm. assert (Hle : v * 10 + d <= kMaxInt).
    { etransitivity; [|exact Hm]. rewrite (digits_val_acc 10 ds (v * 10 + d)). pose proof (digits_val_range 10 ltac:(lia) ds ltac:(assumption)).
      assert (1 <= 10 ^ Z.of_nat (length ds)) by (apply (Z.pow_le_mono_r 10 0); lia). nia. }
    cbn [dec_text map app int_loop]. rewrite strchr_digits. replace (chr "0" + d) with (48 + d) by reflexivity. rewrite (proj2 (andb_true_iff _ _)) by (rewrite !Z.leb_le; lia). replace (48 + d - 48) with d by lia.
    rewrite Z.geb_leb, (proj2 (Z.leb_gt _ _)) by lia. unfold kMaxInt in *. rewrite !Z.gtb_ltb, !(proj2 (Z.ltb_ge _ _)) by (try lia; apply Z.div_le_lower_bound; lia). now apply IH; [lia| |].
Qed.

Lemma int_text_nonempty x : (1 <= length (int_text x))%nat.
Proof. unfold int_text, digits. rewrite dec_text_length. destruct (Z.to_nat (Z.log2 x)); cbn; [lia|]. destruct (x <? 10); [cbn; lia|]. rewrite length_app. cbn. lia. Qed.

Lemma ParseInt_text x min max rest : 0 <= x -> min <= x <= max -> max <= 1000 -> no_digit rest -> ParseInt (int_text x ++ rest) min max = Some (Some (x, rest)).
Proof.
  intros Hx Hm H1 Hr. unfold ParseInt, int_text. pose proof (digits_val_digits 10 ltac:(lia) x) as E. unfold digits_val in E.
  rewrite int_loop_text; [|now apply digits_digit; lia|lia|rewrite E; unfold kMaxInt; lia|exact Hr]. rewrite E. cbn [pbind].
  rewrite length_app. pose proof (int_text_nonempty x) as L. unfold int_text in L. rewrite (proj2 (Nat.eqb_neq _ _)) by lia. rewrite Z.gtb_ltb, !(proj2 (Z.ltb_ge _ _)) by lia. reflexivity.
Qed.

Lemma quoted_loop_text a : forallb quoted_char a = true -> forall acc rest, quoted_loop (a ++ chr ">" :: rest) acc = Some (Some (acc ++ a, rest)).
Proof.
  induction a as [|c a IH]; intros H acc rest; cbn [app quoted_loop]; [now rewrite Z.eqb_refl, app_nil_r|]. cbn in H. apply andb_true_iff in H as (Hc & H). unfold quoted_char in Hc. apply negb_true_iff, orb_false_iff in Hc as (H0 & H1).
  rewrite H1, H0, (IH H), <- app_assoc. reflexivity.
Qed.

Lemma plain_loop_text a : forallb plain_char a = true -> forall acc c rest, plain_char c = false -> plain_loop (a ++ c :: rest) acc = Some (Some (acc ++ a, c :: rest)).
Proof.
  induction a as [|d a IH]; intros H acc c rest Hc; cbn [app plain_loop].
  - rewrite app_nil_r. destruct (Z.eqb_spec c 0) as [->|N0]; [reflexivity|]. pose proof (plain_test c N0) as T. destruct (strchr (str "-+,") c); [reflexivity|]. destruct (strchr kDigits c); [reflexivity|]. congruence.
  - cbn in H. apply andb_true_iff in H as (Hd & H). assert (N0 : d <> 0) by (intros ->; discriminate). rewrite (proj2 (Z.eqb_neq _ _)) by exact N0. pose proof (plain_test d N0) as T.
    destruct (strchr (str "-+,") d); [congruence|]. destruct (strchr kDigits d); [congruence|]. rewrite (IH H) by exact Hc. now rewrite <- app_assoc.
Qed.

Lemma ParseAbbr_text a c rest : abbr_ok a -> plain_char c = false -> ParseAbbr (abbr_text a ++ c :: rest) = Some (Some (a, c :: rest)).
Proof.
  intros Ha Hc. unfold abbr_text. destruct (quotable a) eqn:Q.
  - unfold quotable in Q. apply andb_true_iff in Q as (Na & Q). destruct a as [|c1 a]; [discriminate|]. cbn in Q. apply andb_true_iff in Q as (Q1 & Q). unfold quoted_char in Q1. apply negb_true_iff in Q1.
    cbn [app]. unfold ParseAbbr. cbn [peek tl]. rewrite Z.eqb_refl, orb_comm, Q1. rewrite <- app_assoc. cbn [app]. now rewrite quoted_loop_text.
  - destruct Ha as [Ha|(L & Ha & H0)]; [congruence|]. unfold ParseAbbr. destruct a as [|d a]; [cbn in L; lia|]. cbn [app peek]. cbn [hd] in H0. rewrite (proj2 (Z.eqb_neq _ _)) by exact H0.
    pose proof (plain_loop_text (d :: a) Ha [] c rest Hc) as E. cbn [app] in E. rewrite E. cbn [pbind]. rewrite (proj2 (Nat.ltb_ge _ _)) by exact L. reflexivity.
Qed.

Lemma no_digit_char c rest : ~ 48 <= c <= 57 -> no_digit (c :: rest).
Proof. intros H. now exists c, rest. Qed.

Lemma int_text_first x : 0 <= x -> exists c t, int_text x = c :: t /\ 48 <= c <= 57.
Proof.
  intros H. pose proof (int_text_nonempty x) as L. destruct (int_text x) as [|c t] eqn:E; [cbn in L; lia|]. exists c, t. split; [reflexivity|]. unfold int_text in E.
  pose proof (digits_digit 10 ltac:(lia) x H) as D. destruct (digits 10 x) as [|d ds]; [discriminate|]. inversion D as [|? ? Hd _]; subst. unfold is_digit in Hd. cbn [dec_text map] in E.
  assert (Ec : c = chr "0" + d) by congruence. change (chr "0") with 48 in Ec. lia.
Qed.

Lemma hms_split a : a = (a / 3600 * 60 + a / 60 mod 60) * 60 + a mod 60.
Proof. change 3600 with (60 * 60). rewrite <- Z.div_div by lia. pose proof (Z.div_mod a 60). pose proof (Z.div_mod (a / 60) 60). lia. Qed.

Lemma parse_hms_text v lo h sign rest : lo <= 0 -> h <= 900 -> offset_ok h v -> v = sign * Z.abs v -> no_digit rest ->
  parse_hms (int_text (Z.abs v / 3600) ++ [chr ":"] ++ int_text (Z.abs v / 60 mod 60) ++ [chr ":"] ++ int_text (Z.abs v mod 60) ++ rest) lo h sign = Some (Some (v, rest)).
Proof.
  intros Hlo Hh Hv Hs Hr. unfold offset_ok in Hv. unfold parse_hms.
  assert (B1 : 0 <= Z.abs v / 3600 <= h) by (split; [apply Z.div_pos; lia|apply Z.lt_succ_r, Z.div_lt_upper_bound; lia]). assert (B2 : 0 <= Z.abs v / 60 mod 60 <= 59) by (pose proof (Z.mod_pos_bound (Z.abs v / 60) 60); lia).
  assert (B3 : 0 <= Z.abs v mod 60 <= 59) by (pose proof (Z.mod_pos_bound (Z.abs v) 60); lia). pose proof (hms_split (Z.abs v)) as Ev.
  assert (Colon : forall t, no_digit (chr ":" :: t)) by (intros t; apply no_digit_char; change (chr ":") with 58; lia).
  cbn [app]. rewrite ParseInt_text by (auto; lia). cbn [pbind peek tl]. rewrite Z.eqb_refl, ParseInt_text by (auto; lia). cbn [pbind peek tl]. rewrite Z.eqb_refl, ParseInt_text by (auto; lia).
  cbn [pbind]. do 3 f_equal. rewrite Hs. f_equal. rewrite <- Hs. symmetry. exact Ev.
Qed.

Lemma ParseOffset_text v lo h sign rest : lo <= 0 -> h <= 900 -> sign = 1 \/ sign = -1 -> offset_ok h v -> no_digit rest -> ParseOffset (offset_text sign v ++ rest) lo h sign = Some (Some (v, rest)).
Proof.
  intros Hlo Hh Hs Hv Hr. unfold ParseOffset, offset_text. cbn [app peek tl].
  set (t := int_text (Z.abs v / 3600) ++ [chr ":"] ++ int_text (Z.abs v / 60 mod 60) ++ [chr ":"] ++ int_text (Z.abs v mod 60) ++ rest).
  assert (Et : (int_text (Z.abs v / 3600) ++ chr ":" :: int_text (Z.abs v / 60 mod 60) ++ chr ":" :: int_text (Z.abs v mod 60)) ++ rest = t) by (unfold t; cbn [app]; rewrite <- app_assoc; cbn [app]; now rewrite <- app_assoc).
  rewrite Et. destruct (Z.ltb_spec (sign * v) 0).
  - change ((chr "-" =? chr "+") || (chr "-" =? chr "-")) with true. cbv iota. change (chr "-" =? chr "-") with true. cbv iota. apply parse_hms_text; auto. destruct Hs as [->| ->]; lia.
  - change ((chr "+" =? chr "+") || (chr "+" =? chr "-")) with true. cbv iota. change (chr "+" =? chr "-") with false. cbv iota. apply parse_hms_text; auto. destruct Hs as [->| ->]; lia.
Qed.

Lemma ParseDate_text d rest : date_ok d -> no_digit rest -> ParseDate (date_text d ++ rest) = Some (Some (d, rest)).
Proof.
  intros Hd Hr. assert (Dot : forall t, no_digit (chr "." :: t)) by (intros t; apply no_digit_char; change (chr ".") with 46; lia). unfold ParseDate. destruct d as [day|day|month week weekday]; cbn [date_text date_ok] in *.
  - cbn [app peek tl]. change (chr "J" =? chr "M") with false. rewrite Z.eqb_refl. cbv iota. now rewrite ParseInt_text by (auto; lia).
  - destruct (int_text_first day ltac:(lia)) as (c & t & E & Hc). rewrite E at 1. cbn [app peek]. change (chr "M") with 77. change (chr "J") with 74. rewrite !(proj2 (Z.eqb_neq _ _)) by lia. now rewrite ParseInt_text by (auto; lia).
  - cbn [app peek tl]. rewrite Z.eqb_refl. rewrite <- !app_assoc. cbn [app]. rewrite ParseInt_text by (auto; lia). cbn [pbind peek tl]. rewrite Z.eqb_refl. cbn [negb]. rewrite <- !app_assoc. cbn [app].
    rewrite ParseInt_text by (auto; lia). cbn [pbind peek tl]. rewrite Z.eqb_refl. cbn [negb]. now rewrite ParseInt_text by (auto; lia).
Qed.

Lemma ParseDateTime_text t rest : transition_ok t -> no_digit rest -> ParseDateTime (transition_text t ++ rest) = Some (Some (t, rest)).
Proof.
  intros (Hd & Ho) Hr. unfold ParseDateTime, transition_text. cbn [app peek tl]. rewrite Z.eqb_refl. cbn [negb]. rewrite <- app_assoc. cbn [app]. rewrite ParseDate_text; [|exact Hd|apply no_digit_char; change (chr "/") with 47; lia].
  cbn [pbind peek tl]. rewrite Z.eqb_refl. change 167 with 167 in Ho. rewrite (ParseOffset_text _ (-167) 167 1) by (auto; lia). cbn [pbind]. now destruct t.
Qed.

(** ** The whole rule *)
Lemma abbr_text_first a : abbr_ok a -> (quotable a = false -> hd 0 a <> chr ":") -> exists c t, abbr_text a = c :: t /\ c <> chr ":" /\ c <> 0 /\ c <> chr ",".
Proof.
  intros Ha Hc. unfold abbr_text. destruct (quotable a) eqn:Q; [eexists _, _; split; [reflexivity|repeat split; discriminate]|].
  destruct Ha as [Ha|(L & Hp & _)]; [congruence|]. destruct a as [|c a]; [cbn in L; lia|]. exists c, a. split; [reflexivity|]. cbn [hd] in Hc. split; [now apply Hc|].
  cbn in Hp. apply andb_true_iff in Hp as (Hp & _). split; intros ->; discriminate.
Qed.

Lemma offset_text_first sign v : exists c t, offset_text sign v = c :: t /\ plain_char c = false /\ c <> 0 /\ c <> chr ",".
Proof. unfold offset_text. destruct (sign * v <? 0); eexists _, _; (split; [reflexivity|repeat split; discriminate]). Qed.

Lemma zero_no_digit : no_digit [0].
Proof. apply no_digit_char. lia. Qed.

Lemma std_roundtrip a v res : std_ok a v -> ParsePosixSpec (std_text a v) res = Some (Some (std_zone a v res)).
Proof.
  intros (Ha & Hc & Hv). unfold ParsePosixSpec, std_text. destruct (abbr_text_first a Ha Hc) as (c & t & Et & Nc & _). destruct (offset_text_first (-1) v) as (c2 & t2 & E2 & P2 & _). rewrite <- app_assoc.
  rewrite Et at 1. cbn [app peek]. rewrite (proj2 (Z.eqb_neq _ _)) by exact Nc. rewrite E2. cbn [app]. rewrite ParseAbbr_text by assumption. cbn [pbind]. change (c2 :: t2 ++ [0]) with ((c2 :: t2) ++ [0]). rewrite <- E2.
  rewrite (ParseOffset_text v 0 24 (-1)) by (auto using zero_no_digit; lia). reflexivity.
Qed.

Lemma abbr_text_no_digit a rest : abbr_ok a -> no_digit (abbr_text a ++ rest).
Proof.
  intros Ha. unfold abbr_text. destruct (quotable a) eqn:Q; [apply no_digit_char; change (chr "<") with 60; lia|]. destruct Ha as [Ha|(L & Hp & _)]; [congruence|]. destruct a as [|c a]; [cbn in L; lia|].
  cbn in Hp. apply andb_true_iff in Hp as (Hp & _). apply no_digit_char. intros H. unfold plain_char in Hp. rewrite (proj2 (andb_true_iff (48 <=? c) (c <=? 57))) in Hp by (rewrite !Z.leb_le; lia). rewrite !orb_true_r in Hp. discriminate.
Qed.

Lemma abbr_text_nonzero a : abbr_ok a -> exists c t, abbr_text a = c :: t /\ c <> 0.
Proof.
  intros Ha. unfold abbr_text. destruct (quotable a) eqn:Q; [eexists _, _; split; [reflexivity|discriminate]|].
  destruct Ha as [Ha|(L & Hp & _)]; [congruence|]. destruct a as [|c a]; [cbn in L; lia|]. exists c, a. split; [reflexivity|]. cbn in Hp. apply andb_true_iff in Hp as (Hp & _). intros ->. discriminate.
Qed.

Lemma zone_roundtrip z res : std_ok (std_abbr z) (std_offset z) -> dst_ok z -> ParsePosixSpec (zone_text z) res = Some (Some z).
Proof.
  intros (Ha & Hc & Hv) (Hda & Hdo & H1 & H2). unfold ParsePosixSpec, zone_text, std_text. destruct (abbr_text_first _ Ha Hc) as (c & t & Et & Nc & _). destruct (offset_text_first (-1) (std_offset z)) as (c2 & t2 & E2 & P2 & _).
  rewrite <- !app_assoc. rewrite Et at 1. cbn [app peek]. rewrite (proj2 (Z.eqb_neq _ _)) by exact Nc. rewrite E2. cbn [app]. rewrite ParseAbbr_text by assumption. cbn [pbind].
  match goal with |- context [c2 :: t2 ++ ?r] => change (c2 :: t2 ++ r) with ((c2 :: t2) ++ r) end. rewrite <- E2. unfold dst_text. rewrite <- !app_assoc.
  rewrite (ParseOffset_text _ 0 24 (-1)) by (auto using abbr_text_no_digit; lia). cbn [pbind]. destruct (abbr_text_nonzero _ Hda) as (c3 & t3 & E3 & N3). rewrite E3 at 1. cbn [app peek]. rewrite (proj2 (Z.eqb_neq _ _)) by exact N3.
  set (rest := transition_text (dst_start z) ++ transition_text (dst_end z) ++ [0]).
  assert (Hrest : exists r, rest = chr "," :: r) by (eexists; reflexivity). destruct Hrest as (r & Er). assert (Nd : no_digit rest) by (rewrite Er; apply no_digit_char; change (chr ",") with 44; lia).
  assert (Off : forall X, X = (if dst_offset z =? std_offset z + 60 * 60 then [] else offset_text (-1) (dst_offset z)) ++ rest ->
    (exists c t, X = c :: t /\ plain_char c = false) /\ peek X (fun c => if negb (c =? chr ",") then ParseOffset X 0 24 (-1) else Some (Some (std_offset z + 60 * 60, X))) = Some (Some (dst_offset z, rest))).
  { intros X ->. destruct (Z.eqb_spec (dst_offset z) (std_offset z + 60 * 60)) as [E|E].
    - cbn [app]. split; [rewrite Er; now exists (chr ","), r|]. rewrite Er at 1. cbn [peek]. rewrite Z.eqb_refl. cbn [negb]. now rewrite E.
    - destruct Hdo as [Hdo|Hdo]; [congruence|]. destruct (offset_text_first (-1) (dst_offset z)) as (c4 & t4 & E4 & P4 & _ & N4). split; [rewrite E4; now exists c4, (t4 ++ rest)|].
      rewrite E4 at 1. cbn [app peek]. rewrite (proj2 (Z.eqb_neq _ _)) by exact N4. cbn [negb]. now apply ParseOffset_text; auto; lia. }
  destruct (Off _ eq_refl) as ((c5 & t5 & E5 & P5) & Eo). match goal with |- context [ParseAbbr (abbr_text (dst_abbr z) ++ ?X)] => rewrite E5 end. rewrite ParseAbbr_text by assumption. cbn [pbind]. rewrite <- E5, Eo. cbn [pbind].
  unfold rest. rewrite ParseDateTime_text; [|exact H1|apply no_digit_char; change (chr ",") with 44; lia]. cbn [pbind]. rewrite ParseDateTime_text; [|exact H2|apply zero_no_digit]. cbn [pbind peek]. now destruct z.
Qed.
End Posix.

(** ** Zones with a fixed offset *)
Module Fixed.
Definition kFixedZonePrefix : list Z := str "Fixed/UTC".

Definition Format02d (v : Z) : list Z := [nth (Z.to_nat (Z.rem (Z.quot v 10) 10)) Posix.kDigits 0; nth (Z.to_nat (Z.rem v 10)) Posix.kDigits 0].

Definition ParseDigit (ch : Z) : Z := match Posix.strchr Posix.kDigits ch with None => -1 | Some d => if d =? 10 then -1 else d end.

(** The two characters at [p]. *)
Definition Parse02d (p : list Z) : option Z :=
  match p with
  | a :: b :: _ =>
    let hi := ParseDigit a in
    Some (if hi >=? 0 then let lo := ParseDigit b in if lo >=? 0 then hi * 10 + lo else -1 else -1)
  | _ => None
  end.

Definition eqb_text (a b : list Z) : bool := if list_eq_dec Z.eq_dec a b then true else false.

(** The offset, if the name is one of a fixed zone; [None] of the outer option is a read outside the name. *)
Definition FixedOffsetFromName (name : list Z) : option (option Z) :=
  if eqb_text name (str "UTC") || eqb_text name (str "UTC0") then Some (Some 0)
  else if negb (length name =? length kFixedZonePrefix + 9)%nat then Some None
  else if negb (eqb_text (firstn (length kFixedZonePrefix) name) kFixedZonePrefix) then Some None
  else
    let np := skipn (length kFixedZonePrefix) name in
    match nth_error np 0, nth_error np 3, nth_error np 6 with
    | Some c0, Some c3, Some c6 =>
      if negb (c0 =? chr "+") && negb (c0 =? chr "-") then Some None
      else if negb (c3 =? chr ":") || negb (c6 =? chr ":") then Some None
      else
        match Parse02d (skipn 1 np), Parse02d (skipn 4 np), Parse02d (skipn 7 np) with
        | Some hours, Some mins, Some secs =>
          if hours =? -1 then Some None
          else if mins =? -1 then Some None
          else if secs =? -1 then Some None
          else
            let secs := secs + (hours * 60 + mins) * 60 in
            if secs >? 24 * 60 * 60 then Some None else Some (Some (secs * (if c0 =? chr "-" then -1 else 1)))
        | _, _, _ => None
        end
    | _, _, _ => None
    end.

Definition FixedOffsetToName (offset : Z) : list Z :=
  if offset =? 0 then str "UTC"
  else if (offset <? -24 * 3600) || (offset >? 24 * 3600) then str "UTC"
  else
    let sign := if offset <? 0 then chr "-" else chr "+" in
    let offset_minutes := Z.quot offset 60 in
    let offset_seconds := Z.rem offset 60 in
    let '(offset_seconds, offset_minutes) :=
      if sign =? chr "-" then
        let '(s, m) := if offset_seconds >? 0 then (offset_seconds - 60, offset_minutes + 1) else (offset_seconds, offset_minutes) in
        (- s, - m)
      else (offset_seconds, offset_minutes) in
    let offset_hours := Z.quot offset_minutes 60 in
    let offset_minutes := Z.rem offset_minutes 60 in
    kFixedZonePrefix ++ [sign] ++ Format02d offset_hours ++ [chr ":"] ++ Format02d offset_minutes ++ [chr ":"] ++ Format02d offset_seconds.

(** [std::string::erase]. *)
Definition erase (s : list Z) (pos len : nat) : list Z := firstn pos s ++ skipn (pos + len) s.

Definition FixedOffsetToAbbr (offset : Z) : list Z :=
  let abbr := FixedOffsetToName offset in
  if (length abbr =? length kFixedZonePrefix + 9)%nat then
    let abbr := erase abbr 0 (length kFixedZonePrefix) in
    let abbr := erase abbr 6 1 in
    let abbr := erase abbr 3 1 in
    if (nth 5 abbr 0 =? chr "0") && (nth 6 abbr 0 =? chr "0") then
      let abbr := erase abbr 5 2 in
      if (nth 3 abbr 0 =? chr "0") && (nth 4 abbr 0 =? chr "0") then erase abbr 3 2 else abbr
    else abbr
  else abbr.

(** *** Reading names back *)

(** Two digits. *)
Definition dd (v : Z) : list Z := [48 + v / 10; 48 + v mod 10].

Definition sign_of (offset : Z) : Z := if offset <? 0 then chr "-" else chr "+".

Definition name_of (offset : Z) : list Z :=
  let a := Z.abs offset in kFixedZonePrefix ++ [sign_of offset] ++ dd (a / 3600) ++ [chr ":"] ++ dd (a / 60 mod 60) ++ [chr ":"] ++ dd (a mod 60).

Lemma Format02d_dd v : 0 <= v < 100 -> Format02d v = dd v.
Proof.
  intros H. unfold Format02d, dd. rewrite Z.quot_div_nonneg, !Z.rem_mod_nonneg by (try apply Z.div_pos; lia). rewrite (Z.mod_small (v / 10)) by (split; [apply Z.div_pos; lia|apply Z.div_lt_upper_bound; lia]).
  assert (D : forall d, 0 <= d < 10 -> nth (Z.to_nat d) Posix.kDigits 0 = 48 + d).
  { intros d Hd. assert (C : d = 0 \/ d = 1 \/ d = 2 \/ d = 3 \/ d = 4 \/ d = 5 \/ d = 6 \/ d = 7 \/ d = 8 \/ d = 9) by lia. repeat (destruct C as [->|C]; [reflexivity|]). now subst d. }
  rewrite !D; [reflexivity|apply Z.mod_pos_bound; lia|split; [apply Z.div_pos; lia|apply Z.div_lt_upper_bound; lia]].
Qed.

Lemma ToName_eq offset : offset <> 0 -> Z.abs offset <= 86400 -> FixedOffsetToName offset = name_of offset.
Proof.
  intros N H. unfold FixedOffsetToName, name_of, sign_of. rewrite (proj2 (Z.eqb_neq _ _)) by exact N. rewrite Z.gtb_ltb, !(proj2 (Z.ltb_ge _ _)) by lia. cbn [orb].
  assert (B : 0 <= Z.abs offset / 3600 < 100 /\ 0 <= Z.abs offset / 60 mod 60 < 100 /\ 0 <= Z.abs offset mod 60 < 100).
  { split; [split; [apply Z.div_pos; lia|apply Z.div_lt_upper_bound; lia]|]. pose proof (Z.mod_pos_bound (Z.abs offset / 60) 60). pose proof (Z.mod_pos_bound (Z.abs offset) 60). lia. }
  assert (Ed : Z.abs offset / 60 / 60 = Z.abs offset / 3600) by (rewrite Z.div_div by lia; reflexivity).
  assert (Np : 0 <= Z.abs offset / 60) by (apply Z.div_pos; lia).
  destruct (Z.ltb_spec offset 0) as [L|L].
  - rewrite Z.eqb_refl. assert (Em : Z.quot offset 60 = - (Z.abs offset / 60)) by (rewrite <- Z.quot_div_nonneg by lia; rewrite Z.abs_neq, Z.quot_opp_l by lia; lia).
    assert (Es : Z.rem offset 60 = - (Z.abs offset mod 60)) by (rewrite <- Z.rem_mod_nonneg by lia; rewrite Z.abs_neq, Z.rem_opp_l by lia; lia).
    rewrite Es. rewrite (Z.gtb_ltb _ 0), (proj2 (Z.ltb_ge _ _)) by lia. rewrite Em, !Z.opp_involutive, Z.quot_div_nonneg, Z.rem_mod_nonneg, Ed by lia. now rewrite !Format02d_dd by apply B.
  - change (chr "+" =? chr "-") with false. cbv iota. rewrite (Z.abs_eq offset) in * by lia. rewrite (Z.quot_div_nonneg offset 60) by lia. rewrite (Z.quot_div_nonneg (offset / 60)), !Z.rem_mod_nonneg, Ed by lia. now rewrite !Format02d_dd by apply B.
Qed.

Lemma Parse02d_dd v rest : 0 <= v < 100 -> Parse02d (dd v ++ rest) = Some v.
Proof.
  intros H. cbn [dd app Parse02d]. assert (D : forall d, 0 <= d < 10 -> ParseDigit (48 + d) = d).
  { intros d Hd. unfold ParseDigit. rewrite Posix.strchr_digits, (proj2 (andb_true_iff _ _)) by (rewrite !Z.leb_le; lia). replace (48 + d - 48) with d by lia. rewrite (proj2 (Z.eqb_neq _ _)) by lia. reflexivity. }
  pose proof (Z.mod_pos_bound v 10). assert (0 <= v / 10 < 10) by (split; [apply Z.div_pos; lia|apply Z.div_lt_upper_bound; lia]). rewrite !D by lia. rewrite !Z.geb_leb, !(proj2 (Z.leb_le _ _)) by lia. f_equal. pose proof (Z.div_mod v 10). lia.
Qed.

Lemma ParseDigit_range c : -1 <= ParseDigit c <= 9.
Proof.
  unfold ParseDigit. rewrite Posix.strchr_digits. destruct ((48 <=? c) && (c <=? 57)) eqn:E; [zbool; destruct (c - 48 =? 10); lia|]. destruct (c =? 0); cbn; lia.
Qed.

Lemma Parse02d_range p v : Parse02d p = Some v -> -1 <= v <= 99.
Proof.
  destruct p as [|a [|b p]]; [discriminate|discriminate|]. cbn [Parse02d]. intros [= <-]. pose proof (ParseDigit_range a). pose proof (ParseDigit_range b). rewrite !Z.geb_leb.
  destruct (Z.leb_spec 0 (ParseDigit a)); [destruct (Z.leb_spec 0 (ParseDigit b))|]; lia.
Qed.

Lemma name_length offset : length (name_of offset) = (length kFixedZonePrefix + 9)%nat.
Proof. reflexivity. Qed.

Lemma FromName_name offset : Z.abs offset <= 86400 -> FixedOffsetFromName (name_of offset) = Some (Some offset).
Proof.
  intros H. unfold FixedOffsetFromName. assert (N : forall t, length t <> 18%nat -> eqb_text (name_of offset) t = false).
  { intros t Ht. unfold eqb_text. destruct (list_eq_dec Z.eq_dec (name_of offset) t) as [E|E]; [|reflexivity]. destruct Ht. rewrite <- E. reflexivity. }
  rewrite !N by discriminate. cbn [orb]. rewrite name_length, Nat.eqb_refl. cbn [negb]. assert (Ep : eqb_text (firstn (length kFixedZonePrefix) (name_of offset)) kFixedZonePrefix = true) by reflexivity. rewrite Ep. cbn [negb].
  assert (B : 0 <= Z.abs offset / 3600 < 100 /\ 0 <= Z.abs offset / 60 mod 60 < 100 /\ 0 <= Z.abs offset mod 60 < 100).
  { split; [split; [apply Z.div_pos; lia|apply Z.div_lt_upper_bound; lia]|]. pose proof (Z.mod_pos_bound (Z.abs offset / 60) 60). pose proof (Z.mod_pos_bound (Z.abs offset) 60). lia. }
  assert (E1 : Parse02d (skipn 1 (skipn (length kFixedZonePrefix) (name_of offset))) = Some (Z.abs offset / 3600)) by (apply (Parse02d_dd (Z.abs offset / 3600)); apply B).
  assert (E4 : Parse02d (skipn 4 (skipn (length kFixedZonePrefix) (name_of offset))) = Some (Z.abs offset / 60 mod 60)) by (apply (Parse02d_dd (Z.abs offset / 60 mod 60)); apply B).
  assert (E7 : Parse02d (skipn 7 (skipn (length kFixedZonePrefix) (name_of offset))) = Some (Z.abs offset mod 60)) by (apply (Parse02d_dd (Z.abs offset mod 60) []); apply B).
  rewrite E1, E4, E7. assert (C0 : nth_error (skipn (length kFixedZonePrefix) (name_of offset)) 0 = Some (sign_of offset)) by reflexivity.
  assert (C3 : nth_error (skipn (length kFixedZonePrefix) (name_of offset)) 3 = Some (chr ":")) by reflexivity. assert (C6 : nth_error (skipn (length kFixedZonePrefix) (name_of offset)) 6 = Some (chr ":")) by reflexivity.
  rewrite C0, C3, C6, !Z.eqb_refl. cbn [negb orb]. assert (Sg : negb (sign_of offset =? chr "+") && negb (sign_of offset =? chr "-") = false) by (unfold sign_of; destruct (offset <? 0); reflexivity). rewrite Sg.
  rewrite !(proj2 (Z.eqb_neq _ (-1))) by lia. pose proof (Posix.hms_split (Z.abs offset)) as Es. rewrite Z.gtb_ltb, (proj2 (Z.ltb_ge _ _)) by lia. do 2 f_equal. rewrite Z.add_comm, <- Es.
  unfold sign_of. destruct (Z.ltb_spec offset 0); [change (chr "-" =? chr "-") with true|change (chr "+" =? chr "-") with false]; cbv iota; lia.
Qed.

Lemma FromName_safe name : exists r, FixedOffsetFromName name = Some r /\ forall offset, r = Some offset -> Z.abs offset <= 86400.
Proof.
  unfold FixedOffsetFromName. destruct (_ || _); [exists (Some 0); split; [reflexivity|]; intros o [= <-]; cbn; lia|]. destruct (negb (length name =? _)%nat) eqn:L; [exists None; split; [reflexivity|discriminate]|].
  destruct (negb (eqb_text _ _)); [exists None; split; [reflexivity|discriminate]|]. apply negb_false_iff, Nat.eqb_eq in L. assert (Ln : length (skipn (length kFixedZonePrefix) name) = 9%nat) by (rewrite length_skipn, L; reflexivity).
  destruct (skipn (length kFixedZonePrefix) name) as [|c0 [|c1 [|c2 [|c3 [|c4 [|c5 [|c6 [|c7 [|c8 [|]]]]]]]]]]; try discriminate Ln. cbn [nth_error skipn].
  destruct (negb (c0 =? chr "+") && _); [exists None; split; [reflexivity|discriminate]|]. destruct (negb (c3 =? chr ":") || _); [exists None; split; [reflexivity|discriminate]|].
  destruct (Parse02d [c1; c2; c3; c4; c5; c6; c7; c8]) as [h|] eqn:E1; [|discriminate]. destruct (Parse02d [c4; c5; c6; c7; c8]) as [m|] eqn:E2; [|discriminate]. destruct (Parse02d [c7; c8]) as [s|] eqn:E3; [|discriminate].
  apply Parse02d_range in E1, E2, E3. destruct (Z.eqb_spec h (-1)); [exists None; split; [reflexivity|discriminate]|]. destruct (Z.eqb_spec m (-1)); [exists None; split; [reflexivity|discriminate]|]. destruct (Z.eqb_spec s (-1)); [exists None; split; [reflexivity|discriminate]|].
  rewrite Z.gtb_ltb. destruct (Z.ltb_spec (24 * 60 * 60) (s + (h * 60 + m) * 60)); [exists None; split; [reflexivity|discriminate]|]. eexists. split; [reflexivity|]. intros o [= <-]. destruct (c0 =? chr "-"); lia.
Qed.

(** The abbreviation: a sign, the hours, and what is not zero of the rest. *)
Definition abbr_of (offset : Z) : list Z :=
  let a := Z.abs offset in
  sign_of offset :: dd (a / 3600) ++ (if (a / 60 mod 60 =? 0) && (a mod 60 =? 0) then [] else dd (a / 60 mod 60) ++ if a mod 60 =? 0 then [] else dd (a mod 60)).

Lemma dd_zero v : 0 <= v < 100 -> (48 + v / 10 =? chr "0") && (48 + v mod 10 =? chr "0") = (v =? 0).
Proof.
  intros H. change (chr "0") with 48. pose proof (Z.div_mod v 10). pose proof (Z.mod_pos_bound v 10). destruct (Z.eqb_spec v 0) as [->|N]; [reflexivity|]. apply andb_false_iff. rewrite !Z.eqb_neq. lia.
Qed.

Lemma ToAbbr_eq offset : offset <> 0 -> Z.abs offset <= 86400 -> FixedOffsetToAbbr offset = abbr_of offset.
Proof.
  intros N H. unfold FixedOffsetToAbbr, abbr_of. rewrite ToName_eq by assumption. rewrite name_length, Nat.eqb_refl. set (a := Z.abs offset).
  assert (E : erase (erase (erase (name_of offset) 0 (length kFixedZonePrefix)) 6 1) 3 1 = sign_of offset :: dd (a / 3600) ++ dd (a / 60 mod 60) ++ dd (a mod 60)) by reflexivity. rewrite E. clear E.
  cbn [dd app nth]. pose proof (Z.mod_pos_bound (a / 60) 60). pose proof (Z.mod_pos_bound a 60). rewrite dd_zero by lia. destruct (a mod 60 =? 0); [|now rewrite andb_false_r]. rewrite andb_true_r.
  match goal with |- context [erase ?l 5 2] => change (erase l 5 2) with (sign_of offset :: dd (a / 3600) ++ dd (a / 60 mod 60)) end. cbn [dd app nth]. rewrite dd_zero by lia. destruct (a / 60 mod 60 =? 0); reflexivity.
Qed.
End Fixed.

(** C20: The rule parser never reads past the end of its text; what it accepts has abbreviations, offsets and dates in the ranges that POSIX
    gives, and the text of any such rule, with or without daylight time, reads back as that rule. *)
Theorem posix_spec_correct :
  (forall spec res, exists r, Posix.ParsePosixSpec spec res = Some r /\
    forall z, r = Some z -> Posix.std_ok (Posix.std_abbr z) (Posix.std_offset z) /\ (z = Posix.std_zone (Posix.std_abbr z) (Posix.std_offset z) res \/ Posix.dst_ok z)) /\
  (forall a v res, Posix.std_ok a v -> Posix.ParsePosixSpec (Posix.std_text a v) res = Some (Some (Posix.std_zone a v res))) /\
  (forall z res, Posix.std_ok (Posix.std_abbr z) (Posix.std_offset z) -> Posix.dst_ok z -> Posix.ParsePosixSpec (Posix.zone_text z) res = Some (Some z)).
Proof. split; [exact Posix.ParsePosixSpec_safe|split; [exact Posix.std_roundtrip|exact Posix.zone_roundtrip]]. Qed.

(** The name of a zone with a fixed offset of at most a day reads back as that offset, every accepted name gives such an offset, other
    offsets are named UTC, and the abbreviation is the sign and hours with what is not zero of minutes and seconds. *)
Lemma fixed_zone_correct :
  (forall offset, Z.abs offset <= 86400 -> Fixed.FixedOffsetFromName (Fixed.FixedOffsetToName offset) = Some (Some offset)) /\
  (forall name, exists r, Fixed.FixedOffsetFromName name = Some r /\ forall offset, r = Some offset -> Z.abs offset <= 86400) /\
  (forall offset, 86400 < Z.abs offset -> Fixed.FixedOffsetToName offset = str "UTC" /\ Fixed.FixedOffsetToAbbr offset = str "UTC") /\
  (forall offset, offset <> 0 -> Z.abs offset <= 86400 -> Fixed.FixedOffsetToAbbr offset = Fixed.abbr_of offset).
Proof.
  split; [|split; [exact Fixed.FromName_safe|split; [|exact Fixed.ToAbbr_eq]]].
  - intros offset H. destruct (Z.eq_dec offset 0) as [->|N]; [reflexivity|]. rewrite Fixed.ToName_eq by assumption. now apply Fixed.FromName_name.
  - intros offset H. assert (E : Fixed.FixedOffsetToName offset = str "UTC").
    { unfold Fixed.FixedOffsetToName. rewrite (proj2 (Z.eqb_neq _ _)) by lia. rewrite (proj2 (orb_true_iff _ _)); [reflexivity|]. rewrite Z.gtb_ltb, !Z.ltb_lt. lia. }
    split; [exact E|]. unfold Fixed.FixedOffsetToAbbr. rewrite E. reflexivity.
Qed.
