(* ===== verification/ZoneInfo.v ===== *)
(** Time zones backed by zoneinfo data: [absl/time/internal/cctz/src/time_zone_info.h] and [time_zone_info.cc].

    A [civil_second] is its [fields]; a [time_point<seconds>] is its count of seconds.  Signed additions, products and
    differences of 64-bit values are checked, and an undefined one, like a read outside a vector, a string or a buffer,
    is [None] ([Undefined] while a zone is loaded).  The two remembered positions are relaxed atomics that other threads
    may have set, so each lookup takes the position it finds as an argument and gives back the one it leaves. *)
From Stdlib Require Import Ascii String.
From Stdlib Require Import ZArith Lia List Bool.
From S2P Require Import Prelude Digits CivilTime ZoneText.
Import ListNotations.
#[local] Open Scope Z_scope.
#[local] Open Scope mach_scope.

Module Zone.
Import Posix.

(** ** Civil seconds *)
Definition epoch : fields := ct_f (civil_default second_tag).
Definition cs_add (c : fields) (n : Z) : fields := ct_f (civil_add (mk_civil second_tag c) n).
Definition cs_sub (c : fields) (n : Z) : fields := ct_f (civil_sub (mk_civil second_tag c) n).
Definition cs_diff (a b : fields) : option Z := difference64 second_tag a b.
Definition s64 (x : Z) : option Z := checked 64 x.

Definition kSecsPerDay : Z := 24 * 60 * 60.
Definition kSecsPer400Years : Z := 146097 * kSecsPerDay.
Definition kDaysPerYear (leap : bool) : Z := if leap then 366 else 365.
Definition kSecsPerYear (leap : bool) : Z := kDaysPerYear leap * kSecsPerDay.

Definition kMonthOffsets (leap : bool) : list Z :=
  if leap then [-1; 0; 31; 60; 91; 121; 152; 182; 213; 244; 274; 305; 335; 366]
  else [-1; 0; 31; 59; 90; 120; 151; 181; 212; 243; 273; 304; 334; 365].

Definition IsLeap (year : Z) : bool := (Z.rem year 4 =? 0) && (negb (Z.rem year 100 =? 0) || (Z.rem year 400 =? 0)).

Definition ToPosixWeekday (wd : weekday) : Z :=
  match wd with
  | sunday => 0
  | monday => 1
  | tuesday => 2
  | wednesday => 3
  | thursday => 4
  | friday => 5
  | saturday => 6
  end.

(** ** The state of a zone *)
Record Transition := mk_tr {
  unix_time : Z;
  type_index : Z;
  civil_sec : fields;
  prev_civil_sec : fields
}.

Definition ByUnixTime (lhs rhs : Transition) : bool := unix_time lhs <? unix_time rhs.
Definition ByCivilTime (lhs rhs : Transition) : bool := civil_ltb (civil_sec lhs) (civil_sec rhs).

Record TransitionType := mk_tt {
  utc_offset : Z;
  tt_civil_max : fields;
  tt_civil_min : fields;
  is_dst : bool;
  abbr_index : Z
}.

Record TimeZoneInfo := mk_tz {
  transitions_ : list Transition;
  transition_types_ : list TransitionType;
  default_transition_type_ : Z;
  abbreviations_ : list Z;
  version_ : list Z;
  future_spec_ : list Z;
  extended_ : bool;
  last_year_ : Z
}.

(** [time_zone::absolute_lookup], [civil_lookup] and [civil_transition]. *)
Record absolute_lookup := mk_al { al_cs : fields; al_offset : Z; al_is_dst : bool; al_abbr : list Z }.

Inductive civil_kind := UNIQUE | SKIPPED | REPEATED.

Record civil_lookup := mk_cl { kind : civil_kind; pre : Z; trans : Z; post : Z }.

Record civil_transition := mk_ct { ct_from : fields; ct_to : fields }.

Definition tp_max : Z := 2 ^ 63 - 1.
Definition tp_min : Z := - 2 ^ 63.

(** ** Searching *)

(** The characters from a pointer up to the first NUL. *)
Fixpoint until_nul (s : list Z) : list Z :=
  match s with
  | [] => []
  | c :: s => if c =? 0 then [] else c :: until_nul s
  end.

(** [&abbreviations_[i]] read as a C string; a [std::string] has a NUL after its last character. *)
Definition abbr_at (s : list Z) (i : Z) : option (list Z) :=
  if (0 <=? i) && (i <=? Z.of_nat (length s)) then Some (until_nul (skipn (Z.to_nat i) s)) else None.

(** The binary search of [std::upper_bound] and [std::lower_bound]: the first position at or after [first], among [len]
    positions, where [before] fails. *)
Fixpoint search (fuel : nat) {A} (before : A -> bool) (l : list A) (first len : nat) : option nat :=
  match fuel with
  | O => None
  | S fuel =>
    if (len =? 0)%nat then Some first
    else
      let half := Nat.div2 len in
      let middle := (first + half)%nat in
      do x <- nth_error l middle;
      if before x then search fuel before l (S middle) (len - half - 1) else search fuel before l first half
  end.

Definition upper_bound {A} (lt : A -> A -> bool) (l : list A) (first : nat) (target : A) : option nat :=
  search (S (length l)) (fun x => negb (lt target x)) l first (length l - first).

Definition lower_bound {A} (lt : A -> A -> bool) (l : list A) (first : nat) (target : A) : option nat :=
  search (S (length l)) (fun x => lt x target) l first (length l - first).

(** ** Lookups by absolute time *)
Definition LocalTime_type (abbrs : list Z) (t : Z) (ty : TransitionType) : option absolute_lookup :=
  do abbr <- abbr_at abbrs (abbr_index ty);
  Some (mk_al (cs_add (cs_add epoch t) (utc_offset ty)) (utc_offset ty) (is_dst ty) abbr).

Definition LocalTime (z : TimeZoneInfo) (t : Z) (tr : Transition) : option absolute_lookup :=
  do ty <- read (transition_types_ z) (type_index tr);
  do diff <- s64 (t - unix_time tr);
  do abbr <- abbr_at (abbreviations_ z) (abbr_index ty);
  Some (mk_al (cs_add (civil_sec tr) diff) (utc_offset ty) (is_dst ty) abbr).

Definition YearShift (cs : fields) (shift : Z) : option fields :=
  do y <- s64 (f_y cs + shift);
  Some (ct_f (make_civil second_tag y (f_m cs) (f_d cs) (f_hh cs) (f_mm cs) (f_ss cs))).

(** A hint that still brackets the target. *)
Definition hinted (in_order : Transition -> Transition -> bool) (l : list Transition) (hint : nat) : option bool :=
  if (0 <? hint)%nat && (hint <? length l)%nat then
    do a <- nth_error l (hint - 1);
    do b <- nth_error l hint;
    Some (in_order a b)
  else Some false.

Fixpoint BreakTime (fuel : nat) (z : TimeZoneInfo) (hint : nat) (t : Z) : option (absolute_lookup * nat) :=
  match fuel with
  | O => None
  | S fuel =>
    let l := transitions_ z in
    let timecnt := length l in
    do first <- nth_error l 0;
    if t <? unix_time first then
      do ty <- read (transition_types_ z) (default_transition_type_ z);
      do al <- LocalTime_type (abbreviations_ z) t ty;
      Some (al, hint)
    else
      do last <- nth_error l (timecnt - 1);
      if t >=? unix_time last then
        if extended_ z then
          do diff <- s64 (t - unix_time last);
          let shift := Z.quot diff kSecsPer400Years + 1 in
          do d <- s64 (shift * kSecsPer400Years);
          do t' <- s64 (t - d);
          do r <- BreakTime fuel z hint t';
          do cs <- YearShift (al_cs (fst r)) (shift * 400);
          Some (mk_al cs (al_offset (fst r)) (al_is_dst (fst r)) (al_abbr (fst r)), snd r)
        else
          do al <- LocalTime z t last;
          Some (al, hint)
      else
        do hit <- hinted (fun a b => (unix_time a <=? t) && (t <? unix_time b)) l hint;
        if hit then
          do tr <- nth_error l (hint - 1);
          do al <- LocalTime z t tr;
          Some (al, hint)
        else
          do i <- upper_bound ByUnixTime l 0 (mk_tr t 0 epoch epoch);
          match i with
          | O => None
          | S j =>
            do tr <- nth_error l j;
            do al <- LocalTime z t tr;
            Some (al, i)
          end
  end.

(** ** Lookups by civil time *)
Definition MakeUnique (t : Z) : civil_lookup := mk_cl UNIQUE t t t.

Definition MakeSkipped (tr : Transition) (cs : fields) : option civil_lookup :=
  do d <- cs_diff cs (prev_civil_sec tr);
  do u <- s64 (unix_time tr - 1);
  do p <- s64 (u + d);
  do e <- cs_diff (civil_sec tr) cs;
  do q <- s64 (unix_time tr - e);
  Some (mk_cl SKIPPED p (unix_time tr) q).

Definition MakeRepeated (tr : Transition) (cs : fields) : option civil_lookup :=
  do d <- cs_diff (prev_civil_sec tr) cs;
  do u <- s64 (unix_time tr - 1);
  do p <- s64 (u - d);
  do e <- cs_diff cs (civil_sec tr);
  do q <- s64 (unix_time tr + e);
  Some (mk_cl REPEATED p (unix_time tr) q).

(** One of the three times, moved by a number of 400-year cycles. *)
Definition shift_time (c4_shift tp : Z) : option Z :=
  if c4_shift >? Z.quot tp_max kSecsPer400Years then Some tp_max
  else
    do offset <- s64 (c4_shift * kSecsPer400Years);
    do limit <- s64 (tp_max - offset);
    if tp >? limit then Some tp_max else s64 (tp + offset).

(** [make_time] is [MakeTime]; a failed assertion is [None]. *)
Definition TimeLocal (make_time : fields -> option (civil_lookup * nat)) (z : TimeZoneInfo) (cs : fields) (c4_shift : Z) : option (civil_lookup * nat) :=
  if (last_year_ z - 400 <? f_y cs) && (f_y cs <=? last_year_ z) then
    do r <- make_time cs;
    do a <- shift_time c4_shift (pre (fst r));
    do b <- shift_time c4_shift (trans (fst r));
    do c <- shift_time c4_shift (post (fst r));
    Some (mk_cl (kind (fst r)) a b c, snd r)
  else None.

(** The first transition after the civil time, and the position to remember. *)
Definition first_after (l : list Transition) (hint : nat) (cs : fields) : option (nat * nat) :=
  let timecnt := length l in
  do first <- nth_error l 0;
  if civil_ltb cs (civil_sec first) then Some (O, hint)
  else
    do last <- nth_error l (timecnt - 1);
    if civil_geb cs (civil_sec last) then Some (timecnt, hint)
    else
      do hit <- hinted (fun a b => civil_leb (civil_sec a) cs && civil_ltb cs (civil_sec b)) l hint;
      if hit then Some (hint, hint)
      else
        do i <- upper_bound ByCivilTime l 0 (mk_tr 0 0 cs epoch);
        Some (i, i).

Definition unique_after (tr : Transition) (cs : fields) : option civil_lookup :=
  do d <- cs_diff cs (civil_sec tr);
  do t <- s64 (unix_time tr + d);
  Some (MakeUnique t).

Fixpoint MakeTime (fuel : nat) (z : TimeZoneInfo) (hint : nat) (cs : fields) : option (civil_lookup * nat) :=
  match fuel with
  | O => None
  | S fuel =>
    let l := transitions_ z in
    do p <- first_after l hint cs;
    let '(i, hint) := p in
    if (i =? 0)%nat then
      do tr <- nth_error l 0;
      if civil_geb (prev_civil_sec tr) cs then
        do ty <- read (transition_types_ z) (default_transition_type_ z);
        if civil_ltb cs (tt_civil_min ty) then Some (MakeUnique tp_min, hint)
        else
          do t <- cs_diff cs (cs_add epoch (utc_offset ty));
          Some (MakeUnique t, hint)
      else
        do cl <- MakeSkipped tr cs;
        Some (cl, hint)
    else if (i =? length l)%nat then
      do tr <- nth_error l (i - 1);
      if civil_gtb cs (prev_civil_sec tr) then
        if extended_ z && (f_y cs >? last_year_ z) then
          do d <- s64 (f_y cs - last_year_ z);
          do d <- s64 (d - 1);
          let shift := Z.quot d 400 + 1 in
          do cs' <- YearShift cs (shift * -400);
          TimeLocal (MakeTime fuel z hint) z cs' shift
        else
          do ty <- read (transition_types_ z) (type_index tr);
          if civil_gtb cs (tt_civil_max ty) then Some (MakeUnique tp_max, hint)
          else
            do cl <- unique_after tr cs;
            Some (cl, hint)
      else
        do cl <- MakeRepeated tr cs;
        Some (cl, hint)
    else
      do tr <- nth_error l i;
      if civil_ltb (prev_civil_sec tr) cs then
        do cl <- MakeSkipped tr cs;
        Some (cl, hint)
      else
        do tr <- nth_error l (i - 1);
        if civil_leb cs (prev_civil_sec tr) then
          do cl <- MakeRepeated tr cs;
          Some (cl, hint)
        else
          do cl <- unique_after tr cs;
          Some (cl, hint)
  end.

(** [convert] of [time_zone.h]: the best estimate. *)
Definition convert_lookup (cl : civil_lookup) : Z := match kind cl with SKIPPED => trans cl | _ => pre cl end.

(** ** Neighbouring transitions *)
Definition EquivTransitions (types : list TransitionType) (tt1_index tt2_index : Z) : option bool :=
  if tt1_index =? tt2_index then Some true
  else
    do tt1 <- read types tt1_index;
    do tt2 <- read types tt2_index;
    Some ((utc_offset tt1 =? utc_offset tt2) && Bool.eqb (is_dst tt1) (is_dst tt2) && (abbr_index tt1 =? abbr_index tt2)).

(** The first transition that is reported: the sentinel in some zoneinfo data is not. *)
Definition first_reported (l : list Transition) : option nat :=
  do first <- nth_error l 0;
  Some (if unix_time first <=? - 2 ^ 59 then 1%nat else 0%nat).

(** The type in effect before position [i]. *)
Definition type_before (z : TimeZoneInfo) (begin i : nat) : option Z :=
  if (i =? begin)%nat then Some (default_transition_type_ z)
  else do tr <- nth_error (transitions_ z) (i - 1); Some (type_index tr).

(** Is the transition at position [i] without effect? *)
Definition no_op (z : TimeZoneInfo) (begin i : nat) : option bool :=
  do prev_type_index <- type_before z begin i;
  do tr <- nth_error (transitions_ z) i;
  EquivTransitions (transition_types_ z) prev_type_index (type_index tr).

Fixpoint skip_forward (fuel : nat) (z : TimeZoneInfo) (begin i : nat) : option nat :=
  match fuel with
  | O => None
  | S fuel =>
    if (i =? length (transitions_ z))%nat then Some i
    else
      do skip <- no_op z begin i;
      if skip then skip_forward fuel z begin (S i) else Some i
  end.

Definition reported (tr : Transition) : civil_transition := mk_ct (cs_add (prev_civil_sec tr) 1) (civil_sec tr).

(** [Some None] is the result false. *)
Definition NextTransition (z : TimeZoneInfo) (t : Z) : option (option civil_transition) :=
  let l := transitions_ z in
  if (length l =? 0)%nat then Some None
  else
    do begin <- first_reported l;
    do i <- upper_bound ByUnixTime l begin (mk_tr t 0 epoch epoch);
    do i <- skip_forward (S (length l)) z begin i;
    if (i =? length l)%nat then Some None
    else
      do tr <- nth_error l i;
      Some (Some (reported tr)).

Fixpoint skip_backward (fuel : nat) (z : TimeZoneInfo) (begin i : nat) : option nat :=
  match fuel with
  | O => None
  | S fuel =>
    if (i =? begin)%nat then Some i
    else
      do skip <- no_op z begin (i - 1);
      if skip then skip_backward fuel z begin (i - 1) else Some i
  end.

(** [time_zone_if.h]: a time point of whole seconds is its distance from the clock's epoch. *)
Definition ToUnixSeconds (tp : Z) : Z := tp.
Definition FromUnixSeconds (t : Z) : Z := t.

Definition last_before (z : TimeZoneInfo) (begin : nat) (t : Z) : option (option civil_transition) :=
  let l := transitions_ z in
  do i <- lower_bound ByUnixTime l begin (mk_tr t 0 epoch epoch);
  do i <- skip_backward (S (length l)) z begin i;
  if (i =? begin)%nat then Some None
  else
    do tr <- nth_error l (i - 1);
    Some (Some (reported tr)).

Definition PrevTransition (z : TimeZoneInfo) (tp : Z) : option (option civil_transition) :=
  let l := transitions_ z in
  if (length l =? 0)%nat then Some None
  else
    do begin <- first_reported l;
    let t := ToUnixSeconds tp in
    if negb (FromUnixSeconds t =? tp) then
      if t =? 2 ^ 63 - 1 then
        if (length l =? begin)%nat then Some None
        else
          do tr <- nth_error l (length l - 1);
          Some (Some (reported tr))
      else last_before z begin (t + 1)
    else last_before z begin t.
End Zone.
