(* ===== verification/ZoneTime.v ===== *)
(** What the lookups of a time zone rest on: civil seconds as points of a line, the binary search, and time lines, the
    changes of offset over time with what a civil time means on them. *)
From Stdlib Require Import ZArith Lia List Bool.
From S2P Require Import Prelude CivilTime ZoneText ZoneInfo.
Import ListNotations.
#[local] Open Scope Z_scope.

(** ** Civil seconds on a line *)
Module Civil.
Import Zone.

(** The civil second that is [n] seconds after the epoch. *)
Definition at_ (n : Z) : fields := cs_add epoch n.

Lemma cs_add_spec f n : valid_fields f -> valid_fields (cs_add f n) /\ sec_ord (cs_add f n) = sec_ord f + n.
Proof. intros V. destruct (civil_add_units (mk_civil second_tag f) n) as (W & _ & U); [now split|]. split; [apply W|exact U]. Qed.

Lemma epoch_valid : valid_fields epoch.
Proof. vm_compute. repeat split; discriminate. Qed.

Lemma at_valid n : valid_fields (at_ n).
Proof. apply cs_add_spec, epoch_valid. Qed.

Lemma at_sec n : sec_ord (at_ n) = n.
Proof. unfold at_. rewrite (proj2 (cs_add_spec epoch n epoch_valid)). reflexivity. Qed.

Lemma at_of f : valid_fields f -> f = at_ (sec_ord f).
Proof. intros V. apply sec_ord_inj; [exact V|apply at_valid|now rewrite at_sec]. Qed.

Lemma at_add a n : cs_add (at_ a) n = at_ (a + n).
Proof. destruct (cs_add_spec (at_ a) n (at_valid a)) as (V & E). rewrite at_sec in E. rewrite <- E. now apply at_of. Qed.

Lemma at_sub1 a : cs_sub (at_ a) 1 = at_ (a - 1).
Proof. unfold cs_sub. rewrite civil_sub_add by (split; [apply at_valid|reflexivity]). apply (at_add a (- (1))). Qed.

Lemma at_ltb a b : civil_ltb (at_ a) (at_ b) = (a <? b).
Proof. rewrite civil_ltb_sec by apply at_valid. now rewrite !at_sec. Qed.

Lemma at_leb a b : civil_leb (at_ a) (at_ b) = (a <=? b).
Proof. unfold civil_leb. rewrite at_ltb. now rewrite Z.leb_antisym. Qed.

Lemma at_geb a b : civil_geb (at_ a) (at_ b) = (b <=? a).
Proof. unfold civil_geb. rewrite at_ltb. now rewrite Z.leb_antisym. Qed.

Lemma at_gtb a b : civil_gtb (at_ a) (at_ b) = (b <? a).
Proof. apply at_ltb. Qed.

(** A year is about as many seconds away from the epoch as it should be. *)
Lemma month_days_range m : 1 <= m <= 12 -> 0 <= month_days m <= 337.
Proof. intros. unfold month_days. destruct (m >? 2) eqn:E; zlia. Qed.

Lemma year_of_sec f : valid_fields f -> 365 * 86400 * (f_y f - 1970) - 86400 * 500000 <= sec_ord f \/ f_y f < 0.
Proof.
  intros ((M & D) & Hh & Hm & Hs). destruct (Z.ltb_spec (f_y f) 0) as [L|L]; [now right|left]. unfold sec_ord, ord. rewrite ymd_ord_closed by exact M.
  pose proof (month_days_range _ M). pose proof (days_per_month_range (f_y f) (f_m f) M).
  assert (Y : 365 * (f_y f - 1) - 1 <= year_days (eyear (f_y f) (f_m f))) by (unfold year_days, eyear; destruct (f_m f <=? 2); zlia). lia.
Qed.

Lemma year_of_sec_neg f : valid_fields f -> f_y f < 0 -> sec_ord f <= 365 * 86400 * (f_y f + 2).
Proof.
  intros ((M & D) & Hh & Hm & Hs) L. unfold sec_ord, ord. rewrite ymd_ord_closed by exact M.
  pose proof (month_days_range _ M). pose proof (days_per_month_range (f_y f) (f_m f) M).
  assert (Y : year_days (eyear (f_y f) (f_m f)) <= 365 * f_y f + 1) by (unfold year_days, eyear; destruct (f_m f <=? 2); zlia). lia.
Qed.

Lemma at_year_range n : - 2 ^ 70 <= n <= 2 ^ 70 -> in_s 64 (f_y (at_ n)).
Proof.
  intros H. change (2 ^ 70) with 1180591620717411303424 in H. rewrite in_s64_iff. pose proof (year_of_sec _ (at_valid n)) as A. pose proof (year_of_sec_neg _ (at_valid n)) as B. rewrite at_sec in *. lia.
Qed.

Lemma at_diff a b : in_s 64 (f_y (at_ a)) -> in_s 64 (f_y (at_ b)) -> in_s 64 (a - b) -> cs_diff (at_ a) (at_ b) = Some (a - b).
Proof.
  intros Ya Yb D. unfold cs_diff. rewrite difference64_exact; [cbn [units]; now rewrite !at_sec|apply at_valid|apply at_valid|exact Ya|exact Yb|cbn [units]; now rewrite !at_sec].
Qed.

(** Four hundred years are a whole number of days. *)
Lemma ymd_ord_period y m d k : 1 <= m <= 12 -> ymd_ord (y + 400 * k) m d = ymd_ord y m d + 146097 * k.
Proof. intros M. rewrite !ymd_ord_closed by exact M. rewrite eyear_shift, year_days_period. lia. Qed.

Lemma at_shift n k : let f := at_ n in at_ (n + k * kSecsPer400Years) = mk_fields (f_y f + 400 * k) (f_m f) (f_d f) (f_hh f) (f_mm f) (f_ss f).
Proof.
  pose proof (at_valid n) as V. pose proof (at_sec n) as S. destruct (at_ n) as [y m d hh mm ss]. cbn [f_y f_m f_d f_hh f_mm f_ss] in *. symmetry.
  set (f := mk_fields (y + 400 * k) m d hh mm ss). assert (Vf : valid_fields f). { destruct V as ((M & D) & R). split; [split; [exact M|]|exact R]. cbn [f f_y f_m f_d] in *. now rewrite days_per_month_shift. }
  rewrite (at_of f Vf). f_equal. rewrite <- S. unfold sec_ord, ord, f. cbn [f_y f_m f_d f_hh f_mm f_ss]. rewrite ymd_ord_period by apply V. unfold kSecsPer400Years, kSecsPerDay. lia.
Qed.

Lemma YearShift_at n k : in_s 64 (f_y (at_ (n + k * kSecsPer400Years))) -> YearShift (at_ n) (k * 400) = Some (at_ (n + k * kSecsPer400Years)).
Proof.
  pose proof (at_valid (n + k * kSecsPer400Years)) as V. rewrite at_shift in *. cbn [f_y] in *. intros I. unfold YearShift, s64. rewrite (Z.mul_comm k), checked_in by exact I. cbn [obind]. f_equal.
  match goal with |- _ = ?f => set (g := f) in * end. unfold make_civil, of_fields. cbn [ct_f align]. symmetry.
  destruct (n_sec_exact (f_y g) (f_m g) (f_d g) (f_hh g) (f_mm g) (f_ss g)) as (_ & _ & U). apply (U g V). unfold raw_sec. rewrite raw_ord_valid by apply V. reflexivity.
Qed.

(** The first second of a year. *)
Definition year_start (y : Z) : Z := ymd_ord y 1 1 * 86400.

Lemma year_start_valid y : valid_fields (mk_fields y 1 1 0 0 0).
Proof. split; [split; cbn [f_m f_d f_y]; [lia|]|cbn; lia]. pose proof (days_per_month_range y 1 ltac:(lia)). lia. Qed.

Lemma year_start_sec y : sec_ord (mk_fields y 1 1 0 0 0) = year_start y.
Proof. unfold sec_ord, ord, year_start. cbn [f_y f_m f_d f_hh f_mm f_ss]. lia. Qed.

Lemma year_start_at y : at_ (year_start y) = mk_fields y 1 1 0 0 0.
Proof. rewrite <- year_start_sec. symmetry. apply at_of, year_start_valid. Qed.

Lemma year_le_iff x y : f_y (at_ x) <= y <-> x < year_start (y + 1).
Proof.
  pose proof (at_ltb x (year_start (y + 1))) as E. rewrite year_start_at in E. pose proof (at_valid x) as ((M & D) & H). rewrite <- Z.ltb_lt, <- E. unfold civil_ltb. cbn [f_y f_m f_d f_hh f_mm f_ss].
  repeat rewrite ?orb_true_iff, ?andb_true_iff, ?Z.ltb_lt, ?Z.eqb_eq. lia.
Qed.

Lemma year_start_period y k : year_start (y + 400 * k) = year_start y + k * kSecsPer400Years.
Proof. unfold year_start. rewrite ymd_ord_period by lia. unfold kSecsPer400Years, kSecsPerDay. lia. Qed.

Lemma year_start_range y : 0 <= y <= 2 ^ 36 + 1 -> - 62167219200 <= year_start y <= 2 ^ 61.
Proof.
  intros Y. unfold year_start. rewrite ymd_ord_closed by lia. change (eyear y 1) with (y - 1). change (month_days 1) with 306. change (2 ^ 36) with 68719476736 in Y. change (2 ^ 61) with 2305843009213693952. unfold year_days. zlia.
Qed.
End Civil.

(** ** Binary search *)
Section Search.
Context {A : Type} (before : A -> bool) (l : list A).

Lemma binary_search_spec fuel : forall first len, (len < fuel)%nat -> (first + len <= length l)%nat ->
  (forall i j x y, (i <= j)%nat -> nth_error l i = Some x -> nth_error l j = Some y -> before y = true -> before x = true) ->
  exists r, Zone.search fuel before l first len = Some r /\ (first <= r <= first + len)%nat /\
    (forall i x, (first <= i < r)%nat -> nth_error l i = Some x -> before x = true) /\
    (forall i x, (r <= i < first + len)%nat -> nth_error l i = Some x -> before x = false).
Proof.
  induction fuel as [|fuel IH]; intros first len F L Mono; [lia|]. cbn [Zone.search]. destruct (Nat.eqb_spec len 0) as [->|N].
  - exists first. split; [reflexivity|split; [lia|split; intros; lia]].
  - set (half := Nat.div2 len). assert (Hh : (half < len)%nat) by (apply Nat.lt_div2; lia).
    destruct (nth_error l (first + half)) as [x|] eqn:E; [|apply nth_error_None in E; lia]. cbn [obind]. destruct (before x) eqn:B.
    + destruct (IH (S (first + half)) (len - half - 1)%nat) as (r & Er & R & Lo & Hi); [lia|lia|exact Mono|]. exists r. split; [exact Er|split; [lia|split]].
      * intros i y Hi' Ey. destruct (Nat.le_gt_cases i (first + half)); [now apply (Mono i (first + half)%nat y x)|apply (Lo i); [lia|exact Ey]].
      * intros i y Hi' Ey. apply (Hi i); [lia|exact Ey].
    + destruct (IH first half) as (r & Er & R & Lo & Hi); [lia|lia|exact Mono|]. exists r. split; [exact Er|split; [lia|split]].
      * intros i y Hi' Ey. now apply (Lo i).
      * intros i y Hi' Ey. destruct (Nat.lt_ge_cases i (first + half)); [apply (Hi i); [lia|exact Ey]|]. destruct (before y) eqn:By; [|reflexivity].
        now rewrite (Mono (first + half)%nat i x y) in B by (assumption || lia).
Qed.
End Search.

(** ** Time lines *)
Module Line.
Import Zone.

(** What a civil time [x] means where the local clock shows [local t] at the instant [t]: once, never or twice on the
    clock, with the instants by the offsets before and after the change; and the best estimate is the first instant at
    which the clock shows [x] or later. *)
Definition means (local : Z -> Z) (x : Z) (cl : civil_lookup) : Prop :=
  match kind cl with
  | UNIQUE => trans cl = pre cl /\ post cl = pre cl /\ forall t, local t = x <-> t = pre cl
  | SKIPPED =>
    post cl < trans cl <= pre cl /\ (forall t, local t <> x) /\ local (trans cl - 1) < x < local (trans cl) /\
    x - pre cl = local (trans cl - 1) - (trans cl - 1) /\ x - post cl = local (trans cl) - trans cl
  | REPEATED =>
    pre cl < trans cl <= post cl /\ (forall t, local t = x <-> t = pre cl \/ t = post cl) /\ local (trans cl) <= x <= local (trans cl - 1) /\
    x - pre cl = local (trans cl - 1) - (trans cl - 1) /\ x - post cl = local (trans cl) - trans cl
  end /\ forall t, t < convert_lookup cl <-> forall t', t' <= t -> local t' < x.

Section Line.
Context (n : nat) (u o : nat -> Z) (local : Z -> Z).

(** Segment [k] is before transition [k], with offset [o k]. *)
Definition segment (t : Z) (k : nat) : Prop := (k <= n)%nat /\ ((0 < k)%nat -> u (k - 1) <= t) /\ ((k < n)%nat -> t < u k).

(** The civil times just after and just before transition [j]. *)
Definition c (j : nat) : Z := u j + o (S j).
Definition p (j : nat) : Z := u j + o j - 1.

Hypothesis local_segment : forall t k, segment t k -> local t = t + o k.
Hypothesis u_inc : forall i, (S i < n)%nat -> u i < u (S i).
Hypothesis c_inc : forall i, (S i < n)%nat -> c i < c (S i).
Hypothesis spaced : forall i, (S i < n)%nat -> p i < c (S i) /\ p i < p (S i).

Lemma adjacent_le (f : nat -> Z) : (forall i, (S i < n)%nat -> f i < f (S i)) -> forall i j, (i <= j)%nat -> (j < n)%nat -> f i <= f j.
Proof. intros H i j L. induction L as [|j L IH]; intros J; [lia|]. specialize (H j J). lia. Qed.

Lemma segment_exists t : exists k, segment t k.
Proof.
  assert (H : forall m, (m <= n)%nat -> exists k, (k <= m)%nat /\ ((0 < k)%nat -> u (k - 1) <= t) /\ ((k < m)%nat -> t < u k)).
  { induction m as [|m IH]; intros Hm; [exists 0%nat; lia|]. destruct (IH ltac:(lia)) as (k & K & L & R). destruct (Nat.eq_dec k m) as [->|N].
    - destruct (Z.lt_ge_cases t (u m)); [exists m; split; [lia|split; [exact L|auto]]|]. exists (S m). split; [lia|]. rewrite Nat.sub_succ, Nat.sub_0_r. split; [auto|lia].
    - exists k. split; [lia|split; [exact L|intros; apply R; lia]]. }
  destruct (H n (le_n n)) as (k & K). now exists k.
Qed.

Lemma segment_local t k : segment t k -> ((0 < k)%nat -> c (k - 1) <= local t) /\ ((k < n)%nat -> local t <= p k).
Proof.
  intros Sg. rewrite (local_segment t k Sg). destruct Sg as (K & L & R). unfold c, p. split; intros H; [|specialize (R H); lia]. specialize (L H). replace (S (k - 1)) with k by lia. lia.
Qed.

(** The clock in the segments away from [i], the first transition after [x]. *)
Lemma later_segment i x t k : (i < n)%nat -> x < c i -> segment t k -> (i < k)%nat -> x < local t.
Proof.
  intros Hi X Sg K. destruct (segment_local t k Sg) as (L & _). specialize (L ltac:(lia)). pose proof (adjacent_le c c_inc i (k - 1) ltac:(lia)) as C. destruct Sg as (Kn & _). specialize (C ltac:(lia)). lia.
Qed.

Lemma earlier_segment i x t k : (0 < i <= n)%nat -> c (i - 1) <= x -> segment t k -> (S k < i)%nat -> local t < x.
Proof.
  intros Hi X Sg K. destruct (segment_local t k Sg) as (_ & R). specialize (R ltac:(lia)). destruct (spaced k ltac:(lia)) as (P & _). pose proof (adjacent_le c c_inc (S k) (i - 1) ltac:(lia) ltac:(lia)). lia.
Qed.

Lemma previous_segment i x t k : (0 < i <= n)%nat -> p (i - 1) < x -> segment t k -> S k = i -> local t < x.
Proof. intros Hi P Sg <-. destruct (segment_local t k Sg) as (_ & R). specialize (R ltac:(lia)). replace (S k - 1)%nat with k in P by lia. lia. Qed.

Definition just_after (i : nat) (x : Z) : Prop := (i <= n)%nat /\ ((0 < i)%nat -> c (i - 1) <= x) /\ ((i < n)%nat -> x < c i).

(** Below the first instant that shows [x] or later. *)
Lemma least_instant a x : (forall t, t < a -> local t < x) -> x <= local a -> forall t, t < a <-> forall t', t' <= t -> local t' < x.
Proof. intros L G t. split; [intros H t' Ht; apply L; lia|]. intros H. destruct (Z.lt_ge_cases t a) as [|Ha]; [assumption|]. specialize (H a Ha). lia. Qed.

Lemma in_segment i t k : segment t i -> segment t k -> i = k.
Proof.
  intros (A1 & A2 & A3) (B1 & B2 & B3). destruct (Nat.lt_trichotomy i k) as [H|[H|H]]; [exfalso| exact H|exfalso].
  - specialize (A3 ltac:(lia)). specialize (B2 ltac:(lia)). pose proof (adjacent_le u u_inc i (k - 1) ltac:(lia) ltac:(lia)). lia.
  - specialize (B3 ltac:(lia)). specialize (A2 ltac:(lia)). pose proof (adjacent_le u u_inc k (i - 1) ltac:(lia) ltac:(lia)). lia.
Qed.

Lemma segment_at j : (j < n)%nat -> segment (u j) (S j) /\ segment (u j - 1) j.
Proof.
  intros J. split; (split; [lia|]).
  - rewrite Nat.sub_succ, Nat.sub_0_r. split; [lia|intros; now apply u_inc].
  - split; [|lia]. intros P. pose proof (u_inc (j - 1) ltac:(lia)) as U. replace (S (j - 1)) with j in U by lia. lia.
Qed.

Lemma local_at j : (j < n)%nat -> local (u j) = c j /\ local (u j - 1) = p j.
Proof. intros J. destruct (segment_at j J) as (A & B). rewrite (local_segment _ _ A), (local_segment _ _ B). unfold c, p. lia. Qed.

Lemma skipped_means i x : just_after i x -> (i < n)%nat -> p i < x -> means local x (mk_cl SKIPPED (u i - 1 + (x - p i)) (u i) (u i - (c i - x))).
Proof.
  intros (_ & J1 & J2) I P. specialize (J2 I). destruct (local_at i I) as (Lc & Lp).
  assert (Side : forall t, (t < u i -> local t < x) /\ (u i <= t -> x < local t)).
  { intros t. destruct (segment_exists t) as (k & K). destruct (Nat.lt_ge_cases i k) as [H|H].
    - split; [|intros _; now apply (later_segment i x t k)]. intros L. destruct K as (K1 & K2 & K3). specialize (K2 ltac:(lia)). pose proof (adjacent_le u u_inc i (k - 1) ltac:(lia) ltac:(lia)). lia.
    - split; [|intros L; destruct K as (K1 & K2 & K3); specialize (K3 ltac:(lia)); pose proof (adjacent_le u u_inc k i H I); lia]. intros _.
      destruct (Nat.eq_dec k i) as [->|N]; [destruct (segment_local t i K) as (_ & R); specialize (R I); lia|]. destruct (Nat.eq_dec (S k) i) as [E|N'].
      + apply (previous_segment i x t k); [lia| |exact K|exact E]. destruct (spaced (i - 1) ltac:(lia)) as (_ & Sp). replace (S (i - 1)) with i in Sp by lia. lia.
      + apply (earlier_segment i x t k); [lia|apply J1; lia|exact K|lia]. }
  split; cbn [kind pre trans post].
  - rewrite Lc, Lp. split; [lia|]. split; [|unfold p in *; lia]. intros t. destruct (Side t). destruct (Z.lt_ge_cases t (u i)); lia.
  - cbn [convert_lookup kind trans]. apply least_instant; [intros t; apply Side|lia].
Qed.

Lemma shown_in i x t k : just_after i x -> segment t k -> (i < k)%nat \/ (S k < i)%nat -> ((i < k)%nat /\ x < local t) \/ ((S k < i)%nat /\ local t < x).
Proof.
  intros (J0 & J1 & J2) K [H|H]; [left|right]; (split; [exact H|]); destruct K as (K1 & K2 & K3).
  - apply (later_segment i x t k); [lia|apply J2; lia|split; auto|exact H].
  - apply (earlier_segment i x t k); [lia|apply J1; lia|split; auto|exact H].
Qed.

Lemma unique_means i x : just_after i x -> ((i < n)%nat -> x <= p i) -> ((0 < i)%nat -> p (i - 1) < x) -> means local x (MakeUnique (x - o i)).
Proof.
  intros J P Q. assert (Si : segment (x - o i) i).
  { destruct J as (J0 & J1 & J2). split; [exact J0|split; intros H].
    - specialize (J1 H). unfold c in J1. replace (S (i - 1)) with i in J1 by lia. lia.
    - specialize (P H). unfold p in P. lia. }
  pose proof (local_segment _ _ Si) as E. replace (x - o i + o i) with x in E by lia.
  assert (Below : forall t, t < x - o i -> local t < x).
  { intros t L. destruct (segment_exists t) as (k & K). destruct (Nat.eq_dec k i) as [->|N]; [rewrite (local_segment t i K); lia|]. destruct (Nat.eq_dec (S k) i) as [Ek|N'].
    - destruct J as (J0 & _). apply (previous_segment i x t k); [lia|apply Q; lia|exact K|exact Ek].
    - destruct (shown_in i x t k J K ltac:(lia)) as [(H & _)|(_ & H)]; [|exact H]. exfalso. destruct K as (K1 & K2 & _). specialize (K2 ltac:(lia)). destruct Si as (_ & _ & S3). specialize (S3 ltac:(lia)). pose proof (adjacent_le u u_inc i (k - 1) ltac:(lia) ltac:(lia)). lia. }
  split; cbn [MakeUnique kind pre trans post convert_lookup].
  - split; [reflexivity|split; [reflexivity|]]. intros t. split; [|now intros ->]. intros Et. destruct (Z.lt_trichotomy t (x - o i)) as [L|[L|L]]; [specialize (Below t L); lia|exact L|exfalso].
    destruct (segment_exists t) as (k & K). destruct (Nat.eq_dec k i) as [->|N]; [rewrite (local_segment t i K) in Et; lia|]. destruct (Nat.lt_ge_cases i k) as [H|H]; [destruct (shown_in i x t k J K ltac:(lia)) as [(_ & ?)|(? & _)]; lia|].
    destruct K as (_ & _ & K3). destruct Si as (S0 & S2 & _). specialize (K3 ltac:(lia)). specialize (S2 ltac:(lia)). pose proof (adjacent_le u u_inc k (i - 1) ltac:(lia) ltac:(lia)). lia.
  - apply least_instant; [exact Below|lia].
Qed.

Lemma repeated_means i x : just_after (S i) x -> x <= p i ->
  means local x (mk_cl REPEATED (u i - 1 - (p i - x)) (u i) (u i + (x - c i))).
Proof.
  intros J P. pose proof J as (J0 & J1 & J2). specialize (J1 ltac:(lia)). rewrite Nat.sub_succ, Nat.sub_0_r in J1. assert (I : (i < n)%nat) by lia. destruct (local_at i I) as (Lc & Lp).
  assert (S1 : segment (u i + (x - c i)) (S i)).
  { split; [exact J0|]. rewrite Nat.sub_succ, Nat.sub_0_r. split; [lia|]. intros H. destruct (spaced i H) as (_ & Sp). unfold p, c in *. lia. }
  assert (S0 : segment (u i - 1 - (p i - x)) i).
  { split; [lia|]. split; [|lia]. intros H. pose proof (c_inc (i - 1)) as C. replace (S (i - 1)) with i in C by lia. specialize (C I). unfold c, p in *. replace (S (i - 1)) with i in C by lia. lia. }
  pose proof (local_segment _ _ S0) as E0. pose proof (local_segment _ _ S1) as E1.
  assert (X0 : local (u i - 1 - (p i - x)) = x) by (rewrite E0; unfold p; lia). assert (X1 : local (u i + (x - c i)) = x) by (rewrite E1; unfold c; lia).
  assert (Cases : forall t, (segment t (S i) /\ local t = t + o (S i)) \/ (segment t i /\ local t = t + o i) \/ (u i <= t /\ x < local t) \/ (t < u i - 1 - (p i - x) /\ local t < x)).
  { intros t. destruct (segment_exists t) as (k & K). destruct (Nat.eq_dec k (S i)) as [->|N]; [left; split; [exact K|now apply local_segment]|]. right. destruct (Nat.eq_dec k i) as [->|N']; [left; split; [exact K|now apply local_segment]|]. right.
    destruct (shown_in (S i) x t k J K ltac:(lia)) as [(H & L)|(H & L)]; [left|right]; (split; [|exact L]); destruct K as (K1 & K2 & K3).
    - specialize (K2 ltac:(lia)). pose proof (adjacent_le u u_inc i (k - 1) ltac:(lia) ltac:(lia)). lia.
    - specialize (K3 ltac:(lia)). destruct S0 as (_ & S2 & _). specialize (S2 ltac:(lia)). pose proof (adjacent_le u u_inc k (i - 1) ltac:(lia) ltac:(lia)). lia. }
  split; cbn [kind pre trans post convert_lookup].
  - rewrite Lc, Lp. split; [lia|]. split; [|unfold p, c in *; lia]. intros t. split; [|now intros [->| ->]]. intros Et. destruct (Cases t) as [(_ & C)|[(_ & C)|[C|C]]]; [right; unfold c in *; lia|left; unfold p in *; lia|lia|lia].
  - apply least_instant; [|lia]. intros t L. destruct (Cases t) as [((_ & K & _) & _)|[(_ & C)|[C|C]]]; [|unfold p in *; lia|unfold p in *; lia|lia].
    specialize (K ltac:(lia)). rewrite Nat.sub_succ, Nat.sub_0_r in K. unfold p in *. lia.
Qed.
End Line.

(** The same meaning on clocks that agree up to [X + 1] and are past [x] after [X]. *)
Lemma means_ext f g X x cl : (forall t, t <= X + 1 -> f t = g t) -> (forall t, X < t -> x < f t /\ x < g t) -> means f x cl -> means g x cl.
Proof.
  intros E L (M & C). assert (Eq : forall t, g t = x <-> f t = x). { intros t. destruct (Z.le_gt_cases t (X + 1)); [now rewrite E|]. destruct (L t); lia. }
  assert (Lt : forall t, g t < x <-> f t < x). { intros t. destruct (Z.le_gt_cases t (X + 1)); [now rewrite E|]. destruct (L t); lia. }
  split.
  - destruct (kind cl).
    + destruct M as (M1 & M2 & M3). split; [exact M1|split; [exact M2|]]. intros t. now rewrite Eq.
    + destruct M as (M1 & M2 & M3 & M4). assert (trans cl - 1 <= X) by (destruct (Z.le_gt_cases (trans cl - 1) X) as [|H]; [assumption|specialize (L _ H); lia]). rewrite <- !E by lia. split; [exact M1|split; [|now split]]. intros t. now rewrite Eq.
    + destruct M as (M1 & M2 & M3 & M4). assert (trans cl <= X) by (destruct (Z.le_gt_cases (trans cl) X) as [|H]; [assumption|specialize (L _ H); lia]). rewrite <- !E by lia. split; [exact M1|split; [|now split]]. intros t. now rewrite Eq.
  - intros t. rewrite C. split; intros H t' Ht; apply Lt, H, Ht.
Qed.

Definition shifted (D : Z) (cl : civil_lookup) : civil_lookup := mk_cl (kind cl) (pre cl + D) (trans cl + D) (post cl + D).

(** A meaning moves with the clock by a period [D]. *)
Lemma means_shift g S D x cl : (forall s, S <= s -> g (s + D) = g s + D) -> (forall t, t <= S -> g t < x) -> (forall t, t <= S + D -> g t < x + D) ->
  means g x cl -> means g (x + D) (shifted D cl).
Proof.
  intros E L1 L2 (M & C). assert (Eq : forall t, g t = x + D <-> g (t - D) = x).
  { intros t. destruct (Z.le_gt_cases S (t - D)) as [H|H]; [specialize (E _ H); replace (t - D + D) with t in E by lia; lia|]. specialize (L1 (t - D)). specialize (L2 t). lia. }
  assert (Lt : forall t, g t < x + D <-> g (t - D) < x).
  { intros t. destruct (Z.le_gt_cases S (t - D)) as [H|H]; [specialize (E _ H); replace (t - D + D) with t in E by lia; lia|]. specialize (L1 (t - D)). specialize (L2 t). lia. }
  split.
  - unfold shifted. cbn [kind pre trans post]. destruct (kind cl).
    + destruct M as (M1 & M2 & M3). split; [lia|split; [lia|]]. intros t. rewrite Eq, M3. lia.
    + destruct M as (M1 & M2 & M3 & M4). assert (S <= trans cl - 1) by (destruct (Z.le_gt_cases (trans cl) S) as [H|H]; [specialize (L1 _ H); lia|lia]).
      replace (trans cl + D - 1) with (trans cl - 1 + D) by lia. rewrite !E by lia. split; [lia|split; [|lia]]. intros t. rewrite Eq. apply M2.
    + destruct M as (M1 & M2 & M3 & M4). assert (S <= trans cl - 1) by (destruct (Z.le_gt_cases (trans cl - 1) S) as [H|H]; [specialize (L1 _ H); lia|lia]).
      replace (trans cl + D - 1) with (trans cl - 1 + D) by lia. rewrite !E by lia. split; [lia|split; [|lia]]. intros t. rewrite Eq, M2. lia.
  - assert (Cv : convert_lookup (shifted D cl) = convert_lookup cl + D) by (unfold convert_lookup, shifted; cbn [kind pre trans post]; now destruct (kind cl)). intros t. rewrite Cv.
    split.
    + intros H t' Ht. apply Lt, (proj1 (C (t - D)) ltac:(lia)). lia.
    + intros H. enough (t - D < convert_lookup cl) by lia. apply C. intros t' Ht. specialize (H (t' + D) ltac:(lia)). apply Lt in H. now replace (t' + D - D) with t' in H by lia.
Qed.

(** A later civil time is not estimated earlier. *)
Lemma convert_mono local x1 x2 cl1 cl2 : means local x1 cl1 -> means local x2 cl2 -> x1 <= x2 -> convert_lookup cl1 <= convert_lookup cl2.
Proof.
  intros (_ & C1) (_ & C2) L. destruct (Z.le_gt_cases (convert_lookup cl1) (convert_lookup cl2)) as [|H]; [assumption|exfalso].
  assert (Q : convert_lookup cl2 < convert_lookup cl2); [|lia]. apply C2. intros t Ht. pose proof (proj1 (C1 (convert_lookup cl2)) H t Ht). lia.
Qed.
End Line.
