(* ===== verification/ZoneLookup.v ===== *)
(** Lookups in a time zone: the invariant of its state, the time line it stands for, and what [BreakTime], [MakeTime],
    [NextTransition] and [PrevTransition] answer on it. *)
From Stdlib Require Import ZArith Lia List Bool.
From S2P Require Import Prelude CivilTime ZoneText ZoneInfo ZoneTime.
Import ListNotations.
#[local] Open Scope Z_scope.
#[local] Open Scope mach_scope.

Module Lookup.
Import Zone Civil.

(** ** The time line of a zone *)

(** The types before the first transition and after each one. *)
Definition kinds (z : TimeZoneInfo) : list Z := default_transition_type_ z :: map type_index (transitions_ z).

Definition offset_of (types : list TransitionType) (k : Z) : Z := match read types k with Some ty => utc_offset ty | None => 0 end.

Definition cnt (z : TimeZoneInfo) : nat := length (transitions_ z).
Definition u (z : TimeZoneInfo) (i : nat) : Z := nth i (map unix_time (transitions_ z)) 0.
Definition o (z : TimeZoneInfo) (i : nat) : Z := offset_of (transition_types_ z) (nth i (kinds z) 0).
Definition last_u (z : TimeZoneInfo) : Z := u z (cnt z - 1).

(** The type in effect in the table: as many transitions as are at or before the instant. *)
Definition passed (z : TimeZoneInfo) (t : Z) : nat := length (filter (fun tr => unix_time tr <=? t) (transitions_ z)).
Definition type_at (z : TimeZoneInfo) (t : Z) : Z := nth (passed z t) (kinds z) 0.

(** Where the table is looked at: after its end an extended zone repeats its last 400 years. *)
Definition table_time (z : TimeZoneInfo) (t : Z) : Z :=
  if extended_ z && (last_u z <=? t) then t - ((t - last_u z) / kSecsPer400Years + 1) * kSecsPer400Years else t.

Definition offset_at (z : TimeZoneInfo) (t : Z) : Z := offset_of (transition_types_ z) (type_at z (table_time z t)).

(** What a local clock shows. *)
Definition local (z : TimeZoneInfo) (t : Z) : Z := t + offset_at z t.

(** ** The invariant *)
Definition type_ok (abbrs : list Z) (ty : TransitionType) : Prop :=
  - 100000 < utc_offset ty < 100000 /\ 0 <= abbr_index ty <= Z.of_nat (length abbrs) /\
  tt_civil_max ty = at_ (tp_max + utc_offset ty) /\ tt_civil_min ty = at_ (tp_min + utc_offset ty).

Record zone_ok (z : TimeZoneInfo) : Prop := mk_ok {
  ok_types : Forall (type_ok (abbreviations_ z)) (transition_types_ z);
  ok_kinds : Forall (fun k => 0 <= k < Z.of_nat (length (transition_types_ z))) (kinds z);
  ok_civil : forall i tr, nth_error (transitions_ z) i = Some tr ->
    - 2 ^ 60 <= unix_time tr <= 2 ^ 60 /\ civil_sec tr = at_ (unix_time tr + o z (S i)) /\ prev_civil_sec tr = at_ (unix_time tr + o z i - 1);
  ok_order : forall i, (S i < cnt z)%nat -> u z i < u z (S i) /\ Line.c (u z) (o z) i < Line.c (u z) (o z) (S i);
  ok_some : (0 < cnt z)%nat;
  ok_first : u z 0 < 0;
  ok_last : 0 <= last_u z;
  ok_year : extended_ z = true -> 0 <= last_year_ z <= 2 ^ 36 /\ kSecsPer400Years - 2592000 <= last_u z
}.

Section Facts.
Context (z : TimeZoneInfo) (OK : zone_ok z).

Lemma u_nth i tr : nth_error (transitions_ z) i = Some tr -> u z i = unix_time tr.
Proof. intros H. unfold u. erewrite nth_error_nth; [reflexivity|]. now rewrite nth_error_map, H. Qed.

Lemma kind_nth i tr : nth_error (transitions_ z) i = Some tr -> nth (S i) (kinds z) 0 = type_index tr.
Proof. intros H. cbn [kinds nth]. erewrite nth_error_nth; [reflexivity|]. now rewrite nth_error_map, H. Qed.

Lemma some_nth i : (i < cnt z)%nat -> exists tr, nth_error (transitions_ z) i = Some tr.
Proof. intros H. destruct (nth_error (transitions_ z) i) eqn:E; [eauto|]. apply nth_error_None in E. unfold cnt in H. lia. Qed.

Lemma nth_cnt i tr : nth_error (transitions_ z) i = Some tr -> (i < cnt z)%nat.
Proof. intros H. apply nth_error_Some. congruence. Qed.

Lemma type_read k : (k <= cnt z)%nat -> exists ty, read (transition_types_ z) (nth k (kinds z) 0) = Some ty /\ type_ok (abbreviations_ z) ty /\ o z k = utc_offset ty.
Proof.
  intros K. assert (R : 0 <= nth k (kinds z) 0 < Z.of_nat (length (transition_types_ z))).
  { apply (proj1 (Forall_nth (fun k => 0 <= k < Z.of_nat (length (transition_types_ z))) (kinds z)) (ok_kinds z OK) k 0). cbn [kinds length]. rewrite length_map. unfold cnt in K. lia. }
  unfold read. rewrite (proj2 (Z.leb_le _ _)) by lia. destruct (nth_error _ _) as [ty|] eqn:E; [|apply nth_error_None in E; lia]. exists ty. split; [reflexivity|split].
  - eapply (proj1 (Forall_forall _ _) (ok_types z OK)), nth_error_In, E.
  - unfold o, offset_of, read. rewrite (proj2 (Z.leb_le _ _)) by lia. now rewrite E.
Qed.

Lemma o_range k : (k <= cnt z)%nat -> - 100000 < o z k < 100000.
Proof. intros K. destruct (type_read k K) as (ty & _ & T & ->). apply T. Qed.

Lemma u_range i : (i < cnt z)%nat -> - 2 ^ 60 <= u z i <= 2 ^ 60.
Proof. intros H. destruct (some_nth i H) as (tr & E). rewrite (u_nth i tr E). now apply (ok_civil z OK i). Qed.

Lemma filter_prefix (q : Transition -> bool) l : forall k, (k <= length l)%nat -> (forall i tr, nth_error l i = Some tr -> q tr = (i <? k)%nat) -> length (filter q l) = k.
Proof.
  induction l as [|tr l IH]; intros k K H; cbn [filter length] in *; [lia|]. rewrite (H 0%nat tr eq_refl). destruct k as [|k].
  - change (0 <? 0)%nat with false. apply (IH 0%nat); [lia|]. intros i tr' E. exact (H (S i) tr' E).
  - change (0 <? S k)%nat with true. cbn [length]. f_equal. apply IH; [lia|]. intros i tr' E. exact (H (S i) tr' E).
Qed.

(** The segment of an instant. *)
Lemma passed_unique t k : Line.segment (cnt z) (u z) t k -> passed z t = k.
Proof.
  intros (K & L & R). apply filter_prefix; [exact K|]. intros i tr E. rewrite <- (u_nth i tr E). pose proof (nth_cnt i tr E) as I.
  assert (Inc := Line.adjacent_le (cnt z) (u z) (fun i H => proj1 (ok_order z OK i H))).
  destruct (Nat.ltb_spec i k) as [H|H]; [apply Z.leb_le|apply Z.leb_gt].
  - specialize (L ltac:(lia)). specialize (Inc i (k - 1)%nat ltac:(lia) ltac:(lia)). lia.
  - specialize (R ltac:(lia)). specialize (Inc k i H I). lia.
Qed.

Lemma passed_segment t : Line.segment (cnt z) (u z) t (passed z t).
Proof. destruct (Line.segment_exists (cnt z) (u z) t) as (k & K). now rewrite (passed_unique t k K). Qed.
End Facts.

(** ** Finding a transition *)
Definition sorted_by (key : Transition -> Z) (l : list Transition) : Prop :=
  forall i j x y, (i <= j)%nat -> nth_error l i = Some x -> nth_error l j = Some y -> key x <= key y.

Lemma hinted_ok f l hint : exists b, hinted f l hint = Some b /\
  (b = true -> exists i a nx, hint = S i /\ nth_error l i = Some a /\ nth_error l (S i) = Some nx /\ f a nx = true).
Proof.
  unfold hinted. destruct ((0 <? hint)%nat && (hint <? length l)%nat) eqn:B; [|exists false; split; [reflexivity|discriminate]]. apply andb_true_iff in B as (B1 & B2). apply Nat.ltb_lt in B1, B2.
  destruct (nth_error l (hint - 1)) as [a|] eqn:Ea; [|apply nth_error_None in Ea; lia]. destruct (nth_error l hint) as [nx|] eqn:En; [|apply nth_error_None in En; lia].
  cbn [obind]. exists (f a nx). split; [reflexivity|]. intros T. exists (hint - 1)%nat, a, nx. replace (S (hint - 1)) with hint by lia. now repeat split.
Qed.

(** The position that [upper_bound] finds, for an order by a key. *)
Lemma upper_bound_ok key lt l first target x : (forall y, In y l -> lt target y = (x <? key y)) -> sorted_by key l -> (first <= length l)%nat ->
  exists r, upper_bound lt l first target = Some r /\ (first <= r <= length l)%nat /\ forall i tr, (first <= i)%nat -> nth_error l i = Some tr -> (key tr <= x <-> (i < r)%nat).
Proof.
  intros Lt Sk F. unfold upper_bound. destruct (binary_search_spec (fun y => negb (lt target y)) l (S (length l)) first (length l - first)) as (r & Er & R & Lo & Hi); [lia|lia| |].
  { intros i j a b Ij Ea Eb B. rewrite Lt in * by (eapply nth_error_In; eassumption). zbool. apply negb_true_iff, Z.ltb_ge. specialize (Sk i j a b Ij Ea Eb). lia. }
  exists r. split; [exact Er|split; [lia|]]. intros i tr Fi Ei. assert (I : (i < length l)%nat) by (apply nth_error_Some; congruence). split; intros H.
  - destruct (Nat.lt_ge_cases i r) as [|G]; [assumption|]. specialize (Hi i tr ltac:(lia) Ei). rewrite Lt in Hi by (eapply nth_error_In; eassumption). zbool. lia.
  - specialize (Lo i tr ltac:(lia) Ei). rewrite Lt in Lo by (eapply nth_error_In; eassumption). zbool. lia.
Qed.

Lemma lower_bound_ok key lt l first target x : (forall y, In y l -> lt y target = (key y <? x)) -> sorted_by key l -> (first <= length l)%nat ->
  exists r, lower_bound lt l first target = Some r /\ (first <= r <= length l)%nat /\ forall i tr, (first <= i)%nat -> nth_error l i = Some tr -> (key tr < x <-> (i < r)%nat).
Proof.
  intros Lt Sk F. unfold lower_bound. destruct (binary_search_spec (fun y => lt y target) l (S (length l)) first (length l - first)) as (r & Er & R & Lo & Hi); [lia|lia| |].
  { intros i j a b Ij Ea Eb B. rewrite Lt in * by (eapply nth_error_In; eassumption). zbool. apply Z.ltb_lt. specialize (Sk i j a b Ij Ea Eb). lia. }
  exists r. split; [exact Er|split; [lia|]]. intros i tr Fi Ei. assert (I : (i < length l)%nat) by (apply nth_error_Some; congruence). split; intros H.
  - destruct (Nat.lt_ge_cases i r) as [|G]; [assumption|]. specialize (Hi i tr ltac:(lia) Ei). rewrite Lt in Hi by (eapply nth_error_In; eassumption). zbool. lia.
  - specialize (Lo i tr ltac:(lia) Ei). rewrite Lt in Lo by (eapply nth_error_In; eassumption). zbool. lia.
Qed.

(** ** Lookups by absolute time *)

(** The lookup for an instant by a type. *)
Definition lookup_at (z : TimeZoneInfo) (k t : Z) : option absolute_lookup :=
  do ty <- read (transition_types_ z) k;
  do abbr <- abbr_at (abbreviations_ z) (abbr_index ty);
  Some (mk_al (at_ (t + utc_offset ty)) (utc_offset ty) (is_dst ty) abbr).

Section Break.
Context (z : TimeZoneInfo) (OK : zone_ok z).

Lemma lookup_defined k t : (k <= cnt z)%nat -> exists al, lookup_at z (nth k (kinds z) 0) t = Some al /\ al_cs al = at_ (t + o z k) /\ al_offset al = o z k.
Proof.
  intros K. destruct (type_read z OK k K) as (ty & E & (_ & A & _) & ->). unfold lookup_at. rewrite E. cbn [obind]. unfold abbr_at. rewrite (proj2 (Z.leb_le 0 _)), (proj2 (Z.leb_le _ _)) by lia. cbn [andb obind]. eauto.
Qed.

Lemma LocalTime_ok t i tr : nth_error (transitions_ z) i = Some tr -> in_s 64 (t - unix_time tr) -> LocalTime z t tr = lookup_at z (nth (S i) (kinds z) 0) t.
Proof.
  intros E I. rewrite (kind_nth z i tr E). unfold LocalTime, lookup_at. destruct (type_read z OK (S i) (nth_cnt z i tr E)) as (ty & R & _ & Eo). rewrite (kind_nth z i tr E) in R. rewrite R. cbn [obind]. unfold s64. rewrite checked_in by exact I. cbn [obind].
  destruct (ok_civil z OK i tr E) as (_ & C & _). rewrite C, at_add, Eo. now replace (unix_time tr + utc_offset ty + (t - unix_time tr)) with (t + utc_offset ty) by lia.
Qed.

Lemma sorted_unix : sorted_by unix_time (transitions_ z).
Proof.
  intros i j x y Ij Ex Ey. rewrite <- (u_nth z i x Ex), <- (u_nth z j y Ey). apply (Line.adjacent_le (cnt z) (u z) (fun i H => proj1 (ok_order z OK i H))); [exact Ij|exact (nth_cnt z j y Ey)].
Qed.

Lemma between t i tr nx : in_s 64 t -> nth_error (transitions_ z) i = Some tr -> unix_time tr <= t -> nth_error (transitions_ z) (S i) = Some nx -> t < unix_time nx ->
  exists al, LocalTime z t tr = Some al /\ lookup_at z (type_at z t) t = Some al.
Proof.
  intros It Ei Hi En Hn. pose proof (nth_cnt z i tr Ei) as I. pose proof (nth_cnt z _ nx En) as In.
  assert (P : passed z t = S i). { apply (passed_unique z OK). split; [lia|]. rewrite Nat.sub_succ, Nat.sub_0_r, (u_nth z i tr Ei), (u_nth z _ nx En). auto. }
  destruct (lookup_defined (S i) t I) as (al & El & _). exists al. unfold type_at. rewrite P. split; [|exact El]. rewrite (LocalTime_ok t i tr Ei); [exact El|].
  destruct (ok_civil z OK i tr Ei) as (R1 & _). destruct (ok_civil z OK (S i) nx En) as (R2 & _). rewrite in_s64_iff in *. change (2 ^ 60) with 1152921504606846976 in *. lia.
Qed.

(** Looking a time up in the table, before its last transition. *)
Lemma break_table fuel hint t : in_s 64 t -> t < last_u z -> exists al h, BreakTime (S fuel) z hint t = Some (al, h) /\ lookup_at z (type_at z t) t = Some al.
Proof.
  intros It L. cbn [BreakTime]. destruct (some_nth z 0 (ok_some z OK)) as (first & E0). rewrite E0. cbn [obind]. pose proof (u_nth z 0 first E0) as U0. pose proof (ok_some z OK) as Some0.
  destruct (Z.ltb_spec t (unix_time first)) as [H|H].
  - assert (P : passed z t = 0%nat) by (apply (passed_unique z OK); split; [lia|split; [lia|intros _; lia]]).
    destruct (lookup_defined 0 t ltac:(lia)) as (al & El & _). unfold type_at. rewrite P. cbn [kinds nth] in *. exists al, hint. split; [|exact El].
    unfold lookup_at in El. unfold LocalTime_type. destruct (read _ _) as [ty|]; [|discriminate]. cbn [obind] in *. destruct (abbr_at _ _); [|discriminate]. cbn [obind] in *. change (cs_add epoch t) with (at_ t). rewrite at_add. injection El as ->. reflexivity.
  - destruct (some_nth z (cnt z - 1) ltac:(lia)) as (last & E1). pose proof (u_nth z _ last E1) as U1. unfold last_u in L. change (length (transitions_ z)) with (cnt z) at 1. rewrite E1. cbn [obind]. rewrite Z.geb_leb, (proj2 (Z.leb_gt _ _)) by lia.
    destruct (hinted_ok (fun a b => (unix_time a <=? t) && (t <? unix_time b)) (transitions_ z) hint) as (b & -> & Hb). cbn [obind]. destruct b.
    + destruct (Hb eq_refl) as (i & tr & nx & -> & Ei & En & B). zbool. rewrite Nat.sub_succ, Nat.sub_0_r, Ei. cbn [obind]. destruct (between t i tr nx It Ei ltac:(lia) En ltac:(lia)) as (al & -> & El). cbn [obind]. eauto.
    + destruct (upper_bound_ok unix_time ByUnixTime (transitions_ z) 0 (mk_tr t 0 epoch epoch) t) as (r & -> & R & Pr); [reflexivity|exact sorted_unix|lia|]. cbn [obind].
      pose proof (proj1 (Pr 0%nat first (le_n 0) E0) ltac:(lia)) as R0. destruct r as [|i]; [lia|].
      assert (Rn : (S i < cnt z)%nat). { destruct (Nat.lt_ge_cases (S i) (cnt z)) as [|Q]; [assumption|]. pose proof (proj2 (Pr (cnt z - 1)%nat last ltac:(lia) E1) ltac:(lia)). lia. }
      destruct (some_nth z i ltac:(lia)) as (tr & Ei). destruct (some_nth z (S i) Rn) as (nx & En). rewrite Ei. cbn [obind].
      pose proof (proj2 (Pr i tr ltac:(lia) Ei) ltac:(lia)) as Hi. destruct (Z.le_gt_cases (unix_time nx) t) as [Q|Hn]; [apply (Pr (S i) nx ltac:(lia) En) in Q; lia|].
      destruct (between t i tr nx It Ei Hi En Hn) as (al & -> & El). cbn [obind]. eauto.
Qed.

(** The table time is before the end of the table, by a whole number of cycles. *)
Lemma table_time_range t : last_u z <= t -> extended_ z = true -> exists k, 1 <= k /\ table_time z t = t - k * kSecsPer400Years /\ last_u z - kSecsPer400Years <= table_time z t < last_u z /\ k = (t - last_u z) / kSecsPer400Years + 1.
Proof.
  intros L E. exists ((t - last_u z) / kSecsPer400Years + 1). unfold table_time. rewrite E, (proj2 (Z.leb_le _ _)) by exact L. cbn [andb]. pose proof (Z.div_pos (t - last_u z) kSecsPer400Years ltac:(lia) ltac:(reflexivity)).
  pose proof (Z.div_mod (t - last_u z) kSecsPer400Years ltac:(discriminate)). pose proof (Z.mod_pos_bound (t - last_u z) kSecsPer400Years ltac:(reflexivity)). repeat split; nia.
Qed.

Lemma break_spec fuel hint t : (0 < fuel)%nat -> in_s 64 t -> exists al h, BreakTime (S fuel) z hint t = Some (al, h) /\ lookup_at z (type_at z (table_time z t)) t = Some al.
Proof.
  intros F It. destruct (Z.lt_ge_cases t (last_u z)) as [L|L].
  - unfold table_time. rewrite (proj2 (Z.leb_gt _ _)), andb_false_r by exact L. now apply break_table.
  - pose proof (ok_some z OK) as Some0. pose proof (ok_last z OK) as U0. destruct (some_nth z 0 Some0) as (first & E0). destruct (some_nth z (cnt z - 1) ltac:(lia)) as (last & E1).
    pose proof (u_nth z _ last E1) as U1. fold (last_u z) in U1. pose proof (sorted_unix 0%nat (cnt z - 1)%nat first last ltac:(lia) E0 E1) as U01. pose proof (u_range z OK (cnt z - 1) ltac:(lia)) as UR. fold (last_u z) in UR.
    rewrite in_s64_iff in It. change (2 ^ 60) with 1152921504606846976 in UR. cbn [BreakTime]. rewrite E0. cbn [obind]. rewrite (proj2 (Z.ltb_ge _ _)) by lia. change (length (transitions_ z)) with (cnt z) at 1. rewrite E1. cbn [obind]. rewrite Z.geb_leb, (proj2 (Z.leb_le _ _)) by lia.
    destruct (extended_ z) eqn:Ex.
    + destruct (ok_year z OK Ex) as (_ & Pl). destruct (table_time_range t L Ex) as (k & K & Et & R & Ek). rewrite <- U1. unfold s64 at 1. rewrite checked_in by (rewrite in_s64_iff; lia). cbn [obind]. rewrite Z.quot_div_nonneg by (lia || reflexivity). rewrite <- Ek.
      unfold kSecsPer400Years in *. change (146097 * kSecsPerDay) with 12622780800 in *. unfold s64 at 1. rewrite checked_in by (rewrite in_s64_iff; lia). cbn [obind]. unfold s64 at 1. rewrite checked_in by (rewrite in_s64_iff; lia). cbn [obind]. rewrite <- Et.
      destruct fuel as [|fuel]; [lia|]. destruct (break_table fuel hint (table_time z t)) as (al & h & Eb & El); [rewrite in_s64_iff; lia|lia|]. rewrite Eb. cbn [obind fst snd].
      assert (Pc : (passed z (table_time z t) <= cnt z)%nat) by apply (passed_segment z OK). destruct (lookup_defined (passed z (table_time z t)) (table_time z t) Pc) as (al' & El' & Ecs & Eof). fold (type_at z (table_time z t)) in El'. assert (al' = al) by congruence. subst al'.
      pose proof (o_range z OK _ Pc) as Or. rewrite Ecs, YearShift_at by (apply at_year_range; change (2 ^ 70) with 1180591620717411303424; unfold kSecsPer400Years; change (146097 * kSecsPerDay) with 12622780800; lia). cbn [obind]. eexists _, _. split; [reflexivity|].
      unfold lookup_at in *. destruct (read _ _) as [ty|] eqn:Ety; [|discriminate]. cbn [obind] in *. destruct (abbr_at _ _) as [abbr|]; [|discriminate]. cbn [obind] in *. injection El as <-. cbn [al_cs al_offset al_is_dst al_abbr] in *.
      do 3 f_equal. rewrite <- Eof, Et. unfold kSecsPer400Years. change (146097 * kSecsPerDay) with 12622780800. lia.
    + unfold table_time. rewrite Ex. cbn [andb]. assert (P : passed z t = cnt z). { apply (passed_unique z OK). split; [lia|split; [intros _; fold (last_u z); lia|lia]]. }
      destruct (lookup_defined (cnt z) t ltac:(lia)) as (al & El & _). unfold type_at. rewrite P. rewrite (LocalTime_ok t (cnt z - 1) last E1) by (rewrite in_s64_iff; lia). replace (S (cnt z - 1)) with (cnt z) by lia. rewrite El. cbn [obind]. eauto.
Qed.
End Break.

(** ** Lookups by civil time *)

(** The repeated and skipped civil times of a transition are over before those of the next. *)
Fixpoint spaced (l : list Transition) : bool :=
  match l with
  | a :: (b :: _) as l' => civil_ltb (prev_civil_sec a) (civil_sec b) && civil_ltb (prev_civil_sec a) (prev_civil_sec b) && spaced l'
  | _ => true
  end.

(** A time outside the range of time points is the nearest one in the range. *)
Definition clamp (t : Z) : Z := Z.max tp_min (Z.min t tp_max).
Definition clamp_lookup (cl : civil_lookup) : civil_lookup := mk_cl (kind cl) (clamp (pre cl)) (clamp (trans cl)) (clamp (post cl)).

(** The clock of the table alone. *)
Definition raw (z : TimeZoneInfo) (t : Z) : Z := t + o z (passed z t).

Lemma spaced_nth l : spaced l = true -> forall i a b, nth_error l i = Some a -> nth_error l (S i) = Some b ->
  civil_ltb (prev_civil_sec a) (civil_sec b) = true /\ civil_ltb (prev_civil_sec a) (prev_civil_sec b) = true.
Proof.
  induction l as [|x [|y l] IH]; intros S i a b Ea Eb; [now destruct i|now destruct i; try destruct i|]. cbn [spaced] in S. zbool. destruct i as [|i]; [injection Ea as <-; injection Eb as <-; now split|]. now apply (IH H0 i).
Qed.

Lemma clamp_id t : in_s 64 t -> clamp t = t.
Proof. rewrite in_s64_iff. unfold clamp, tp_min, tp_max. change (2 ^ 63) with 9223372036854775808. lia. Qed.

Section Make.
Context (z : TimeZoneInfo) (OK : zone_ok z).

#[local] Abbreviation c := (Line.c (u z) (o z)).
#[local] Abbreviation p := (Line.p (u z) (o z)).

Lemma tr_civil i tr : nth_error (transitions_ z) i = Some tr -> unix_time tr = u z i /\ civil_sec tr = at_ (c i) /\ prev_civil_sec tr = at_ (p i).
Proof. intros E. destruct (ok_civil z OK i tr E) as (_ & C & P). unfold Line.c, Line.p. rewrite (u_nth z i tr E). now split. Qed.

(** Everything about a transition is far from the limits. *)
Lemma near i : (i < cnt z)%nat -> - 1152921504606846976 <= u z i <= 1152921504606846976 /\ - 100000 < o z i < 100000 /\ - 100000 < o z (S i) < 100000.
Proof. intros I. pose proof (u_range z OK i I) as U. pose proof (o_range z OK i ltac:(lia)). pose proof (o_range z OK (S i) I). auto. Qed.

Lemma near_diff a b : - 2 ^ 62 < a < 2 ^ 62 -> - 2 ^ 62 < b < 2 ^ 62 -> cs_diff (at_ a) (at_ b) = Some (a - b).
Proof. intros A B. change (2 ^ 62) with 4611686018427387904 in *. apply at_diff; [apply at_year_range|apply at_year_range|rewrite in_s64_iff]; change (2 ^ 70) with 1180591620717411303424; lia. Qed.

Ltac in_range := first [rewrite in_s64_iff | idtac]; unfold Line.c, Line.p in *; lia.

Lemma MakeSkipped_ok i tr x : nth_error (transitions_ z) i = Some tr -> p i < x < c i ->
  MakeSkipped tr (at_ x) = Some (clamp_lookup (mk_cl SKIPPED (u z i - 1 + (x - p i)) (u z i) (u z i - (c i - x)))).
Proof.
  intros E X. destruct (near i (nth_cnt z i tr E)) as (U & O1 & O2). destruct (tr_civil i tr E) as (Eu & Ec & Ep). unfold MakeSkipped. rewrite Eu, Ec, Ep.
  rewrite !near_diff by (change (2 ^ 62) with 4611686018427387904; in_range). cbn [obind]. unfold s64. rewrite !checked_in by in_range. cbn [obind].
  rewrite checked_in by in_range. cbn [obind]. unfold clamp_lookup. cbn [kind pre trans post]. now rewrite !clamp_id by in_range.
Qed.

Lemma MakeRepeated_ok i tr x : nth_error (transitions_ z) i = Some tr -> c i <= x <= p i ->
  MakeRepeated tr (at_ x) = Some (clamp_lookup (mk_cl REPEATED (u z i - 1 - (p i - x)) (u z i) (u z i + (x - c i)))).
Proof.
  intros E X. destruct (near i (nth_cnt z i tr E)) as (U & O1 & O2). destruct (tr_civil i tr E) as (Eu & Ec & Ep). unfold MakeRepeated. rewrite Eu, Ec, Ep.
  rewrite !near_diff by (change (2 ^ 62) with 4611686018427387904; in_range). cbn [obind]. unfold s64. rewrite !checked_in by in_range. cbn [obind].
  rewrite checked_in by in_range. cbn [obind]. unfold clamp_lookup. cbn [kind pre trans post]. now rewrite !clamp_id by in_range.
Qed.

Lemma unique_after_ok i tr x : nth_error (transitions_ z) i = Some tr -> in_s 64 (x - c i) -> in_s 64 (x - o z (S i)) -> unique_after tr (at_ x) = Some (clamp_lookup (MakeUnique (x - o z (S i)))).
Proof.
  intros E X Y. destruct (near i (nth_cnt z i tr E)) as (U & O1 & O2). destruct (tr_civil i tr E) as (Eu & Ec & Ep). unfold unique_after. rewrite Eu, Ec. pose proof X as X'. pose proof Y as Y'. rewrite in_s64_iff in X', Y'.
  rewrite at_diff; [|apply at_year_range; change (2 ^ 70) with 1180591620717411303424; in_range|apply at_year_range; change (2 ^ 70) with 1180591620717411303424; in_range|exact X]. cbn [obind]. unfold s64.
  replace (u z i + (x - c i)) with (x - o z (S i)) by (unfold Line.c; lia). rewrite checked_in by exact Y. cbn [obind]. unfold MakeUnique, clamp_lookup. cbn [kind pre trans post]. now rewrite clamp_id by exact Y.
Qed.

Lemma sorted_civil : sorted_by (fun tr => sec_ord (civil_sec tr)) (transitions_ z).
Proof.
  intros i j a b Ij Ea Eb. destruct (tr_civil i a Ea) as (_ & -> & _). destruct (tr_civil j b Eb) as (_ & -> & _). rewrite !at_sec.
  apply (Line.adjacent_le (cnt z) c (fun i H => proj2 (ok_order z OK i H))); [exact Ij|exact (nth_cnt z j b Eb)].
Qed.

Lemma first_after_ok hint x : exists i h, first_after (transitions_ z) hint (at_ x) = Some (i, h) /\ Line.just_after (cnt z) (u z) (o z) i x.
Proof.
  pose proof (ok_some z OK) as Some0. unfold first_after. destruct (some_nth z 0 Some0) as (first & E0). rewrite E0. cbn [obind]. destruct (tr_civil 0 first E0) as (_ & C0 & _). rewrite C0, at_ltb.
  destruct (Z.ltb_spec x (c 0)) as [H|H]; [eexists _, _; split; [reflexivity|split; [lia|split; [lia|auto]]]|].
  destruct (some_nth z (cnt z - 1) ltac:(lia)) as (last & E1). change (length (transitions_ z)) with (cnt z). rewrite E1. cbn [obind]. destruct (tr_civil _ last E1) as (_ & C1 & _). rewrite C1, at_geb.
  destruct (Z.leb_spec (c (cnt z - 1)) x) as [H1|H1]; [eexists _, _; split; [reflexivity|split; [lia|split; [auto|lia]]]|].
  destruct (hinted_ok (fun a b => civil_leb (civil_sec a) (at_ x) && civil_ltb (at_ x) (civil_sec b)) (transitions_ z) hint) as (b & -> & Hb). cbn [obind]. destruct b.
  - destruct (Hb eq_refl) as (i & a & nx & -> & Ei & En & B). destruct (tr_civil i a Ei) as (_ & Ca & _). destruct (tr_civil _ nx En) as (_ & Cn & _). rewrite Ca, Cn, at_leb, at_ltb in B. zbool. eexists _, _. split; [reflexivity|].
    pose proof (nth_cnt z _ nx En). split; [lia|]. rewrite Nat.sub_succ, Nat.sub_0_r. auto.
  - destruct (upper_bound_ok (fun tr => sec_ord (civil_sec tr)) ByCivilTime (transitions_ z) 0 (mk_tr 0 0 (at_ x) epoch) x) as (r & -> & R & Pr); [|exact sorted_civil|lia|].
    { intros y Hy. apply In_nth_error in Hy as (i & Ey). destruct (tr_civil i y Ey) as (_ & Cy & _). unfold ByCivilTime. cbn [civil_sec]. now rewrite Cy, at_ltb, at_sec. }
    cbn [obind]. eexists _, _. split; [reflexivity|].
    split; [unfold cnt; lia|split; intros G].
    + destruct (some_nth z (r - 1) ltac:(unfold cnt; lia)) as (a & Ea). destruct (tr_civil _ a Ea) as (_ & Ca & _). pose proof (proj2 (Pr (r - 1)%nat a ltac:(lia) Ea) ltac:(lia)) as Q. cbv beta in Q. rewrite Ca, at_sec in Q. exact Q.
    + destruct (some_nth z r G) as (a & Ea). destruct (tr_civil _ a Ea) as (_ & Ca & _). destruct (Z.le_gt_cases (c r) x) as [Q|Q]; [|exact Q]. pose proof (proj1 (Pr r a ltac:(lia) Ea)) as Q'. cbv beta in Q'. rewrite Ca, at_sec in Q'. specialize (Q' Q). lia.
Qed.

Section Table.
Context (Sp : spaced (transitions_ z) = true).

Lemma spaced_line i : (S i < cnt z)%nat -> p i < c (S i) /\ p i < p (S i).
Proof.
  intros I. destruct (some_nth z i ltac:(lia)) as (a & Ea). destruct (some_nth z (S i) I) as (b & Eb). destruct (spaced_nth _ Sp i a b Ea Eb) as (A & B).
  destruct (tr_civil i a Ea) as (_ & _ & Pa). destruct (tr_civil _ b Eb) as (_ & Cb & Pb). rewrite Pa, Cb, at_ltb in A. rewrite Pa, Pb, at_ltb in B. zbool. now split.
Qed.

Lemma raw_segment t k : Line.segment (cnt z) (u z) t k -> raw z t = t + o z k.
Proof. intros K. unfold raw. now rewrite (passed_unique z OK t k K). Qed.

#[local] Abbreviation line lemma := (lemma (cnt z) (u z) (o z) (raw z) raw_segment (fun i H => proj1 (ok_order z OK i H)) (fun i H => proj2 (ok_order z OK i H)) spaced_line).

Lemma make_first fuel hint x h : first_after (transitions_ z) hint (at_ x) = Some (0%nat, h) -> Line.just_after (cnt z) (u z) (o z) 0 x ->
  exists cl, MakeTime (S fuel) z hint (at_ x) = Some (clamp_lookup cl, h) /\ Line.means (raw z) x cl.
Proof.
  intros Ef J. cbn [MakeTime]. rewrite Ef. cbn [obind]. rewrite Nat.eqb_refl. pose proof (ok_some z OK) as Some0. destruct (some_nth z 0 Some0) as (tr & E0). rewrite E0. cbn [obind]. destruct (tr_civil 0 tr E0) as (_ & _ & ->). rewrite at_geb.
  destruct (near 0 Some0) as (U & O1 & _). pose proof (ok_first z OK) as U0. destruct (Z.leb_spec x (p 0)) as [H|H].
  - destruct (type_read z OK 0 ltac:(lia)) as (ty & Et & (_ & _ & _ & Tm) & Eo). cbn [kinds nth] in Et. rewrite Et. cbn [obind]. rewrite Tm, at_ltb, <- Eo. exists (MakeUnique (x - o z 0)). split; [|apply (line Line.unique_means); [exact J|auto|lia]].
    unfold Line.p in H. destruct (Z.ltb_spec x (tp_min + o z 0)) as [M|M]; unfold tp_min in M; change (2 ^ 63) with 9223372036854775808 in M.
    + do 2 f_equal. unfold clamp_lookup, MakeUnique. cbn [kind pre trans post]. unfold clamp, tp_min, tp_max. change (2 ^ 63) with 9223372036854775808. now replace (Z.max _ _) with (-9223372036854775808) by lia.
    + change (cs_add epoch (o z 0)) with (at_ (o z 0)). rewrite at_diff; [|apply at_year_range; change (2 ^ 70) with 1180591620717411303424; lia|apply at_year_range; change (2 ^ 70) with 1180591620717411303424; lia|rewrite in_s64_iff; lia]. cbn [obind].
      do 2 f_equal. unfold clamp_lookup, MakeUnique. cbn [kind pre trans post]. now rewrite clamp_id by (rewrite in_s64_iff; lia).
  - destruct J as (J0 & J1 & J2) eqn:EJ. pose proof (J2 Some0) as X. rewrite (MakeSkipped_ok 0 tr x E0) by lia. cbn [obind]. eexists. split; [reflexivity|]. now apply (line Line.skipped_means).
Qed.

Lemma make_last fuel hint x h : first_after (transitions_ z) hint (at_ x) = Some (cnt z, h) -> Line.just_after (cnt z) (u z) (o z) (cnt z) x -> (extended_ z = true -> f_y (at_ x) <= last_year_ z) ->
  exists cl, MakeTime (S fuel) z hint (at_ x) = Some (clamp_lookup cl, h) /\ Line.means (raw z) x cl.
Proof.
  intros Ef J Y. cbn [MakeTime]. rewrite Ef. cbn [obind]. pose proof (ok_some z OK) as Some0. rewrite (proj2 (Nat.eqb_neq _ 0)) by lia. change (length (transitions_ z)) with (cnt z). rewrite Nat.eqb_refl. destruct (some_nth z (cnt z - 1) ltac:(lia)) as (tr & E1). rewrite E1. cbn [obind]. destruct (tr_civil _ tr E1) as (_ & _ & ->). rewrite at_gtb.
  destruct (near (cnt z - 1) ltac:(lia)) as (U & _ & O2). pose proof (ok_last z OK) as U0. unfold last_u in U0. pose proof J as (_ & J1 & _). specialize (J1 Some0). destruct (Z.ltb_spec (p (cnt z - 1)) x) as [H|H].
  - assert (En : extended_ z && (f_y (at_ x) >? last_year_ z) = false) by (destruct (extended_ z); [cbn [andb]; rewrite Z.gtb_ltb; apply Z.ltb_ge; now apply Y|reflexivity]). rewrite En.
    destruct (type_read z OK (cnt z) ltac:(lia)) as (ty & Et & (_ & _ & Tm & _) & Eo). assert (Ek : nth (cnt z) (kinds z) 0 = type_index tr) by (rewrite <- (kind_nth z _ tr E1); f_equal; lia). rewrite Ek in Et. rewrite Et. cbn [obind]. rewrite Tm, at_gtb, <- Eo.
    exists (MakeUnique (x - o z (cnt z))). split; [|apply (line Line.unique_means); [exact J|lia|auto]]. replace (S (cnt z - 1)) with (cnt z) in O2 by lia. assert (Ec : c (cnt z - 1) = u z (cnt z - 1) + o z (cnt z)) by (unfold Line.c; do 2 f_equal; lia).
    destruct (Z.ltb_spec (tp_max + o z (cnt z)) x) as [M|M]; unfold tp_max in M; change (2 ^ 63) with 9223372036854775808 in M.
    + do 2 f_equal. unfold clamp_lookup, MakeUnique. cbn [kind pre trans post]. unfold clamp, tp_min, tp_max. change (2 ^ 63) with 9223372036854775808. now replace (Z.max _ _) with (9223372036854775808 - 1) by lia.
    + pose proof (unique_after_ok (cnt z - 1) tr x E1) as Q. replace (S (cnt z - 1)) with (cnt z) in Q by lia. rewrite Q; [reflexivity|rewrite in_s64_iff; lia|rewrite in_s64_iff; lia].
  - rewrite (MakeRepeated_ok _ tr x E1) by lia. cbn [obind]. eexists. split; [reflexivity|]. apply (line Line.repeated_means); [|exact H]. now replace (S (cnt z - 1)) with (cnt z) by lia.
Qed.

Lemma make_middle fuel hint x i h : first_after (transitions_ z) hint (at_ x) = Some (S i, h) -> Line.just_after (cnt z) (u z) (o z) (S i) x -> (S i < cnt z)%nat ->
  exists cl, MakeTime (S fuel) z hint (at_ x) = Some (clamp_lookup cl, h) /\ Line.means (raw z) x cl.
Proof.
  intros Ef J I. cbn [MakeTime]. rewrite Ef. cbn [obind]. rewrite (proj2 (Nat.eqb_neq _ 0)) by lia. change (length (transitions_ z)) with (cnt z). rewrite (proj2 (Nat.eqb_neq _ (cnt z))) by lia.
  destruct (some_nth z (S i) I) as (nx & En). rewrite En. cbn [obind]. destruct (tr_civil _ nx En) as (_ & _ & ->). rewrite at_ltb. pose proof J as (_ & J1 & J2). specialize (J1 ltac:(lia)). specialize (J2 I). rewrite Nat.sub_succ, Nat.sub_0_r in *.
  destruct (Z.ltb_spec (p (S i)) x) as [H|H].
  - rewrite (MakeSkipped_ok _ nx x En) by lia. cbn [obind]. eexists. split; [reflexivity|]. now apply (line Line.skipped_means).
  - destruct (some_nth z i ltac:(lia)) as (tr & Ei). rewrite Ei. cbn [obind]. destruct (tr_civil _ tr Ei) as (_ & _ & ->). rewrite at_leb. destruct (Z.leb_spec x (p i)) as [G|G].
    + rewrite (MakeRepeated_ok _ tr x Ei) by lia. cbn [obind]. eexists. split; [reflexivity|]. now apply (line Line.repeated_means).
    + destruct (near i ltac:(lia)) as (U1 & _ & O1). destruct (near (S i) I) as (U2 & O2 & _). rewrite (unique_after_ok i tr x Ei) by (rewrite in_s64_iff; unfold Line.c, Line.p in *; lia). cbn [obind]. eexists. split; [reflexivity|].
      apply (line Line.unique_means); [exact J|auto|]. now rewrite Nat.sub_succ, Nat.sub_0_r.
Qed.

(** Civil times that the table decides. *)
Lemma make_table fuel hint x : (extended_ z = true -> f_y (at_ x) <= last_year_ z) -> exists cl h, MakeTime (S fuel) z hint (at_ x) = Some (clamp_lookup cl, h) /\ Line.means (raw z) x cl.
Proof.
  intros Y. destruct (first_after_ok hint x) as (i & h & Ef & J). pose proof J as (J0 & _).
  enough (exists cl, MakeTime (S fuel) z hint (at_ x) = Some (clamp_lookup cl, h) /\ Line.means (raw z) x cl) as (cl & Q) by eauto.
  destruct i as [|i]; [now apply make_first|]. destruct (Nat.eq_dec (S i) (cnt z)) as [E|N]; [rewrite E in *; now apply make_last|]. apply (make_middle fuel hint x i h Ef J). lia.
Qed.
End Table.
End Make.

(** *** Extended zones *)

(** The last transition of the table is over two days before its last year ends, and it is in effect, 400 years before,
    until two days after the end of that year. *)
Definition year_end (z : TimeZoneInfo) : Z := year_start (last_year_ z + 1).
Definition two_days : Z := 172800.

Definition quiet_new_year (z : TimeZoneInfo) : bool :=
  (last_u z + two_days <=? year_end z) &&
  (passed z (last_u z - kSecsPer400Years) =? passed z (year_end z + two_days - kSecsPer400Years))%nat &&
  (type_at z (last_u z - kSecsPer400Years) =? nth (cnt z) (kinds z) 0).

Lemma passed_mono z s t : s <= t -> (passed z s <= passed z t)%nat.
Proof.
  intros L. unfold passed. induction (transitions_ z) as [|tr l IH]; cbn [filter]; [lia|]. destruct (Z.leb_spec (unix_time tr) s); destruct (Z.leb_spec (unix_time tr) t); cbn [length]; lia.
Qed.

Section Extended.
Context (z : TimeZoneInfo) (OK : zone_ok z) (Ex : extended_ z = true) (Q : quiet_new_year z = true).

Lemma quiet_facts : last_u z + 172800 <= year_end z /\ (forall t, last_u z - kSecsPer400Years <= t <= year_end z + 172800 - kSecsPer400Years -> type_at z t = nth (cnt z) (kinds z) 0) /\ year_end z + 172800 - kSecsPer400Years < last_u z.
Proof.
  pose proof Q as Q'. unfold quiet_new_year in Q'. apply andb_true_iff in Q' as (Q1 & Q3). apply andb_true_iff in Q1 as (Q1 & Q2). apply Nat.eqb_eq in Q2. zbool. unfold two_days in *. split; [exact Q1|]. split.
  - intros t (L & R). pose proof (passed_mono z _ _ L). pose proof (passed_mono z _ _ R). assert (E : passed z t = passed z (last_u z - kSecsPer400Years)) by lia. unfold type_at in *. now rewrite E.
  - destruct (Z.lt_ge_cases (year_end z + 172800 - kSecsPer400Years) (last_u z)) as [|H]; [assumption|exfalso]. pose proof (ok_some z OK).
    assert (Pn : passed z (year_end z + 172800 - kSecsPer400Years) = cnt z) by (apply (passed_unique z OK); split; [lia|split; [auto|lia]]). rewrite Pn in Q2.
    destruct (passed_segment z OK (last_u z - kSecsPer400Years)) as (_ & S & _). rewrite Q2 in S. specialize (S ltac:(lia)). fold (last_u z) in S. unfold kSecsPer400Years, kSecsPerDay in *. lia.
Qed.

Lemma zone_offset_range t : - 100000 < offset_at z t < 100000.
Proof. apply (o_range z OK). apply (passed_segment z OK). Qed.

(** Up to two days into the next year, the clock is that of the table. *)
Lemma local_raw t : t <= year_end z + 172800 -> local z t = raw z t.
Proof.
  intros L. destruct quiet_facts as (_ & Q2 & Q3). unfold local, raw. f_equal. unfold offset_at, o. f_equal. destruct (Z.lt_ge_cases t (last_u z)) as [H|H].
  - unfold table_time. now rewrite (proj2 (Z.leb_gt _ _)), andb_false_r by exact H.
  - destruct (table_time_range z t H Ex) as (k & K & Et & R & Ek). assert (k = 1). { rewrite Ek. rewrite Z.div_small by lia. lia. } subst k. rewrite Et, Q2 by lia. pose proof (ok_some z OK).
    assert (Pn : passed z t = cnt z) by (apply (passed_unique z OK); split; [lia|split; [auto|lia]]). now rewrite Pn.
Qed.

Lemma local_period k s : 0 <= k -> last_u z - kSecsPer400Years <= s -> local z (s + k * kSecsPer400Years) = local z s + k * kSecsPer400Years.
Proof.
  intros K L. unfold local. enough (table_time z (s + k * kSecsPer400Years) = table_time z s) as E by (unfold offset_at; rewrite E; lia).
  assert (Norm : forall t, last_u z - kSecsPer400Years <= t -> exists j, table_time z t = t - j * kSecsPer400Years /\ last_u z - kSecsPer400Years <= table_time z t < last_u z).
  { intros t T. destruct (Z.lt_ge_cases t (last_u z)) as [H|H]; [|destruct (table_time_range z t H Ex) as (j & _ & Et & R & _); eauto]. exists 0. unfold table_time. rewrite (proj2 (Z.leb_gt _ _)), andb_false_r by exact H. lia. }
  destruct (Norm s L) as (j & Ej & Rj). destruct (Norm (s + k * kSecsPer400Years) ltac:(assert (0 < kSecsPer400Years) by reflexivity; nia)) as (i & Ei & Ri). rewrite Ej in Rj |- *. rewrite Ei in Ri |- *. unfold kSecsPer400Years, kSecsPerDay in *. lia.
Qed.

Lemma shift_time_ok k tp : 1 <= k -> - 3000000 <= tp < 2 ^ 62 -> shift_time k (clamp tp) = Some (clamp (tp + k * kSecsPer400Years)).
Proof.
  intros K T. change (2 ^ 62) with 4611686018427387904 in T. rewrite clamp_id by (rewrite in_s64_iff; lia). unfold shift_time. change (Z.quot tp_max kSecsPer400Years) with 730692561. unfold kSecsPer400Years. change (146097 * kSecsPerDay) with 12622780800. unfold clamp, tp_min, tp_max. change (2 ^ 63) with 9223372036854775808.
  rewrite Z.gtb_ltb. destruct (Z.ltb_spec 730692561 k) as [H|H]; [f_equal; lia|]. unfold s64. rewrite checked_in by (rewrite in_s64_iff; lia). cbn [obind]. rewrite checked_in by (rewrite in_s64_iff; lia). cbn [obind].
  rewrite Z.gtb_ltb. match goal with |- context [?a <? ?b] => destruct (Z.ltb_spec a b) end; [f_equal; lia|]. rewrite checked_in by (rewrite in_s64_iff; lia). f_equal. lia.
Qed.

Lemma means_near x cl : Line.means (local z) x cl -> x - 100000 < pre cl < x + 100000 /\ x - 100000 < trans cl < x + 200000 /\ x - 100000 < post cl < x + 100000.
Proof.
  intros (M & _). destruct (kind cl).
  - destruct M as (-> & -> & M). pose proof (proj2 (M _) eq_refl) as E. unfold local in E. pose proof (zone_offset_range (pre cl)). lia.
  - destruct M as (L & _ & R & E1 & E2). pose proof (zone_offset_range (trans cl)). pose proof (zone_offset_range (trans cl - 1)). unfold local in *. lia.
  - destruct M as (L & _ & R & E1 & E2). pose proof (zone_offset_range (trans cl)). pose proof (zone_offset_range (trans cl - 1)). unfold local in *. lia.
Qed.

Context (Sp : spaced (transitions_ z) = true).

Lemma make_near fuel hint x : x < year_end z -> exists cl h, MakeTime (S fuel) z hint (at_ x) = Some (clamp_lookup cl, h) /\ Line.means (local z) x cl.
Proof.
  intros X. destruct quiet_facts as (Q1 & _). destruct (make_table z OK Sp fuel hint x) as (cl & h & E & M); [intros _; now apply year_le_iff|]. exists cl, h. split; [exact E|].
  apply (Line.means_ext (raw z) (local z) (year_end z + 172800 - 1)); [intros t T; symmetry; apply local_raw; lia| |exact M].
  intros t T. pose proof (zone_offset_range t). assert (Pc : (passed z t <= cnt z)%nat) by apply (passed_segment z OK). pose proof (o_range z OK _ Pc). unfold raw, local. lia.
Qed.

(** Later civil times, by a shift of whole cycles. *)
Lemma make_later fuel hint x : (0 < fuel)%nat -> in_s 64 (f_y (at_ x)) -> year_end z <= x -> exists cl h, MakeTime (S fuel) z hint (at_ x) = Some (clamp_lookup cl, h) /\ Line.means (local z) x cl.
Proof.
  intros F Iy X. destruct quiet_facts as (Q1 & _). destruct (ok_year z OK Ex) as (Yr & Pl). pose proof (ok_some z OK) as Some0. assert (Y : last_year_ z < f_y (at_ x)) by (pose proof (proj1 (year_le_iff x (last_year_ z))) as G; destruct (Z.le_gt_cases (f_y (at_ x)) (last_year_ z)) as [L|L]; [specialize (G L); unfold year_end in X; lia|exact L]).
  set (k := (f_y (at_ x) - last_year_ z - 1) / 400 + 1). pose proof (Z.div_mod (f_y (at_ x) - last_year_ z - 1) 400 ltac:(lia)) as Dm. pose proof (Z.mod_pos_bound (f_y (at_ x) - last_year_ z - 1) 400 ltac:(lia)) as Mb.
  set (x' := x + - k * kSecsPer400Years). assert (Ey : f_y (at_ x') = f_y (at_ x) - 400 * k) by (unfold x'; rewrite at_shift; cbn [f_y]; lia).
  assert (X' : x' < year_end z) by (apply year_le_iff; fold k in Dm; lia). assert (X1 : year_end z - kSecsPer400Years <= x').
  { pose proof (proj2 (year_le_iff x' (last_year_ z - 400))) as G. replace (last_year_ z - 400 + 1) with (last_year_ z + 1 + 400 * (-1)) in G by lia. rewrite year_start_period in G. fold (year_end z) in G. destruct (Z.lt_ge_cases x' (year_end z - kSecsPer400Years)) as [L|L]; [|exact L]. specialize (G ltac:(lia)). lia. }
  assert (K1 : 1 <= k) by (unfold k; pose proof (Z.div_pos (f_y (at_ x) - last_year_ z - 1) 400 ltac:(lia) ltac:(lia)); lia).
  pose proof (year_start_range (last_year_ z + 1)) as Ye. fold (year_end z) in Ye.
  assert (Ef : exists h, first_after (transitions_ z) hint (at_ x) = Some (cnt z, h)).
  { destruct (first_after_ok z OK hint x) as (i & h & E & J0 & J1 & J2). exists h. rewrite E. do 2 f_equal. destruct (Nat.eq_dec i (cnt z)) as [|N]; [assumption|exfalso]. specialize (J2 ltac:(lia)).
    pose proof (Line.adjacent_le (cnt z) _ (fun i H => proj2 (ok_order z OK i H)) i (cnt z - 1) ltac:(lia) ltac:(lia)) as C. pose proof (o_range z OK (cnt z) ltac:(lia)) as O. unfold Line.c in C, J2. replace (S (cnt z - 1)) with (cnt z) in C by lia. fold (last_u z) in C. lia. }
  destruct Ef as (h & Ef). destruct fuel as [|fuel]; [lia|]. destruct (make_near fuel h x' X') as (cl & h' & Em & M). remember (S fuel) as f1. cbn [MakeTime]. rewrite Ef. cbn [obind]. rewrite (proj2 (Nat.eqb_neq _ 0)) by lia. change (length (transitions_ z)) with (cnt z). rewrite Nat.eqb_refl.
  destruct (some_nth z (cnt z - 1) ltac:(lia)) as (tr & E1). rewrite E1. cbn [obind]. destruct (tr_civil z OK _ tr E1) as (_ & _ & ->). rewrite at_gtb. pose proof (o_range z OK (cnt z - 1) ltac:(lia)) as O. rewrite (proj2 (Z.ltb_lt _ _)) by (unfold Line.p; fold (last_u z); lia).
  rewrite Ex, Z.gtb_ltb, (proj2 (Z.ltb_lt _ _)) by exact Y. cbn [andb]. change (2 ^ 36) with 68719476736 in Yr. pose proof Iy as Iy'. rewrite in_s64_iff in Iy'. unfold s64. rewrite checked_in by (rewrite in_s64_iff; lia). cbn [obind]. rewrite checked_in by (rewrite in_s64_iff; lia). cbn [obind].
  rewrite Z.quot_div_nonneg by lia. fold k. replace (k * -400) with (- k * 400) by lia. rewrite YearShift_at; [|fold x'; rewrite Ey, in_s64_iff; fold k in Dm; lia]. fold x'. cbn [obind]. unfold TimeLocal. fold k in Dm. rewrite Ey, (proj2 (Z.ltb_lt _ _)), (proj2 (Z.leb_le _ _)) by lia. cbn [andb]. rewrite Em. cbn [obind fst snd clamp_lookup kind pre trans post].
  destruct (means_near x' cl M) as (N1 & N2 & N3).
  assert (Lo : 172800 - 2592000 <= x') by lia. specialize (Ye ltac:(change (2 ^ 36) with 68719476736; lia)). change (2 ^ 61) with 2305843009213693952 in Ye. rewrite !shift_time_ok by (try change (2 ^ 62) with 4611686018427387904; lia). cbn [obind].
  exists (Line.shifted (k * kSecsPer400Years) cl), h'. split; [reflexivity|]. replace x with (x' + k * kSecsPer400Years) by (unfold x'; lia).
  apply (Line.means_shift (local z) (last_u z - kSecsPer400Years)); [intros s S; apply local_period; lia| | |exact M].
  - intros t T. pose proof (zone_offset_range t). unfold local. lia.
  - intros t T. pose proof (zone_offset_range t). unfold local. lia.
Qed.
End Extended.

Lemma make_spec z (OK : zone_ok z) fuel hint x : (0 < fuel)%nat -> spaced (transitions_ z) = true -> (extended_ z = true -> quiet_new_year z = true) -> in_s 64 (f_y (at_ x)) ->
  exists cl h, MakeTime (S fuel) z hint (at_ x) = Some (clamp_lookup cl, h) /\ Line.means (local z) x cl.
Proof.
  intros F Sp Q Iy. destruct (extended_ z) eqn:Ex.
  - destruct (Z.lt_ge_cases x (year_end z)); [now apply make_near; auto|now apply make_later; auto].
  - destruct (make_table z OK Sp fuel hint x) as (cl & h & E & M); [congruence|]. exists cl, h. split; [exact E|]. destruct M as (M & C).
    assert (El : forall t, local z t = raw z t) by (intros t; unfold local, raw, offset_at, o, table_time; now rewrite Ex).
    split; [destruct (kind cl); rewrite ?El; repeat setoid_rewrite El; exact M|]. intros t. rewrite C. now setoid_rewrite El.
Qed.

(** ** Neighbouring transitions *)
Section Neighbours.
Context (z : TimeZoneInfo) (OK : zone_ok z).

Lemma first_reported_ok : exists begin, first_reported (transitions_ z) = Some begin /\ (begin <= 1)%nat /\ (begin <= cnt z)%nat /\ (begin = 1%nat <-> u z 0 <= - 2 ^ 59).
Proof.
  pose proof (ok_some z OK). destruct (some_nth z 0 (ok_some z OK)) as (tr & E). unfold first_reported. rewrite E. cbn [obind]. rewrite <- (u_nth z 0 tr E). eexists. split; [reflexivity|]. destruct (Z.leb_spec (u z 0) (- 2 ^ 59)); (split; [lia|split; [lia|]]); split; lia.
Qed.

Lemma no_op_defined begin i : (begin <= i < cnt z)%nat -> exists b, no_op z begin i = Some b.
Proof.
  intros I. unfold no_op, type_before. destruct (some_nth z i ltac:(lia)) as (tr & E).
  assert (Eq : forall k l, (k <= cnt z)%nat -> (l <= cnt z)%nat -> exists b, EquivTransitions (transition_types_ z) (nth k (kinds z) 0) (nth l (kinds z) 0) = Some b).
  { intros k l K L. unfold EquivTransitions. destruct (_ =? _); [eauto|]. destruct (type_read z OK k K) as (a & -> & _). destruct (type_read z OK l L) as (b & -> & _). cbn [obind]. eauto. }
  rewrite E. cbn [obind]. rewrite <- (kind_nth z i tr E). destruct (Nat.eqb_spec i begin) as [_|N]; [cbn [obind]; apply (Eq 0%nat (S i)); lia|]. destruct (some_nth z (i - 1) ltac:(lia)) as (pr & Ep). rewrite Ep. cbn [obind]. rewrite <- (kind_nth z _ pr Ep). apply Eq; lia.
Qed.

Lemma skip_forward_ok begin : forall fuel i, (cnt z - i < fuel)%nat -> (begin <= i <= cnt z)%nat -> exists r, skip_forward fuel z begin i = Some r /\ (i <= r <= cnt z)%nat /\
  (forall j, (i <= j < r)%nat -> no_op z begin j = Some true) /\ ((r < cnt z)%nat -> no_op z begin r = Some false).
Proof.
  induction fuel as [|fuel IH]; intros i F I; [lia|]. cbn [skip_forward]. change (length (transitions_ z)) with (cnt z). destruct (Nat.eqb_spec i (cnt z)) as [->|N]; [exists (cnt z); repeat split; intros; lia|].
  destruct (no_op_defined begin i ltac:(lia)) as ([|] & E); rewrite E; cbn [obind]; [|exists i; repeat split; intros; lia || auto].
  destruct (IH (S i) ltac:(lia) ltac:(lia)) as (r & Er & R & A & B). exists r. split; [exact Er|split; [lia|split; [|exact B]]]. intros j J. destruct (Nat.eq_dec j i) as [->|]; [exact E|apply A; lia].
Qed.

Lemma skip_backward_ok begin : forall fuel i, (i - begin < fuel)%nat -> (begin <= i <= cnt z)%nat -> exists r, skip_backward fuel z begin i = Some r /\ (begin <= r <= i)%nat /\
  (forall j, (r <= j < i)%nat -> no_op z begin j = Some true) /\ ((begin < r)%nat -> no_op z begin (r - 1) = Some false).
Proof.
  induction fuel as [|fuel IH]; intros i F I; [lia|]. cbn [skip_backward]. destruct (Nat.eqb_spec i begin) as [->|N]; [exists begin; repeat split; intros; lia|].
  destruct (no_op_defined begin (i - 1) ltac:(lia)) as ([|] & E); rewrite E; cbn [obind]; [|exists i; repeat split; intros; lia || auto].
  destruct (IH (i - 1)%nat ltac:(lia) ltac:(lia)) as (r & Er & R & A & B). exists r. split; [exact Er|split; [lia|split; [|exact B]]]. intros j J. destruct (Nat.eq_dec j (i - 1)) as [->|]; [exact E|apply A; lia].
Qed.

(** Transition [i] is one that is reported: it changes the type, and lies after the sentinel. *)
Definition effective (begin i : nat) : Prop := (begin <= i < cnt z)%nat /\ no_op z begin i = Some false.

Lemma reported_civil i tr : nth_error (transitions_ z) i = Some tr -> reported tr = mk_ct (at_ (u z i + o z i)) (at_ (u z i + o z (S i))).
Proof. intros E. destruct (tr_civil z OK i tr E) as (_ & C & P). unfold reported. rewrite C, P, at_add. unfold Line.c, Line.p. do 2 f_equal. lia. Qed.

Lemma next_spec t : exists begin r, first_reported (transitions_ z) = Some begin /\ NextTransition z t = Some r /\
  match r with
  | None => forall i, effective begin i -> u z i <= t
  | Some ct => exists i, effective begin i /\ t < u z i /\ ct = mk_ct (at_ (u z i + o z i)) (at_ (u z i + o z (S i))) /\ forall j, effective begin j -> t < u z j -> u z i <= u z j
  end.
Proof.
  destruct first_reported_ok as (begin & Eb & B1 & B2 & _). exists begin. unfold NextTransition. pose proof (ok_some z OK) as Some0. change (length (transitions_ z)) with (cnt z). rewrite (proj2 (Nat.eqb_neq _ 0)) by lia. rewrite Eb. cbn [obind].
  destruct (upper_bound_ok unix_time ByUnixTime (transitions_ z) begin (mk_tr t 0 epoch epoch) t) as (r0 & -> & R0 & P0); [reflexivity|exact (sorted_unix z OK)|exact B2|]. cbn [obind].
  destruct (skip_forward_ok begin (S (cnt z)) r0 ltac:(lia) R0) as (r & -> & R & A & B). cbn [obind].
  assert (After : forall j, effective begin j -> t < u z j -> (r <= j)%nat).
  { intros j (J & Ej) T. destruct (some_nth z j ltac:(lia)) as (tj & Etj). rewrite (u_nth z j tj Etj) in T. destruct (Nat.lt_ge_cases j r0) as [L|L]; [apply (P0 j tj ltac:(lia) Etj) in L; lia|]. destruct (Nat.lt_ge_cases j r) as [L'|L']; [|exact L']. rewrite (A j ltac:(lia)) in Ej. discriminate. }
  destruct (Nat.eqb_spec r (cnt z)) as [->|N].
  - exists None. split; [reflexivity|split; [reflexivity|]]. intros i Hi. destruct (Z.le_gt_cases (u z i) t) as [|T]; [assumption|]. specialize (After i Hi T). destruct Hi. lia.
  - destruct (some_nth z r ltac:(lia)) as (tr & E). rewrite E. cbn [obind]. rewrite (reported_civil r tr E). eexists. split; [reflexivity|split; [reflexivity|]]. exists r. split; [split; [lia|apply B; lia]|]. split; [|split; [reflexivity|]].
    + rewrite (u_nth z r tr E). destruct (Z.lt_ge_cases t (unix_time tr)) as [|T]; [assumption|]. apply (P0 r tr ltac:(lia) E) in T. lia.
    + intros j Hj T. specialize (After j Hj T). destruct Hj as (Hj & _). apply (Line.adjacent_le (cnt z) (u z) (fun i H => proj1 (ok_order z OK i H))); lia.
Qed.

Lemma prev_spec t : exists begin r, first_reported (transitions_ z) = Some begin /\ PrevTransition z t = Some r /\
  match r with
  | None => forall i, effective begin i -> t <= u z i
  | Some ct => exists i, effective begin i /\ u z i < t /\ ct = mk_ct (at_ (u z i + o z i)) (at_ (u z i + o z (S i))) /\ forall j, effective begin j -> u z j < t -> u z j <= u z i
  end.
Proof.
  destruct first_reported_ok as (begin & Eb & B1 & B2 & _). exists begin. unfold PrevTransition, ToUnixSeconds, FromUnixSeconds, last_before. pose proof (ok_some z OK) as Some0. change (length (transitions_ z)) with (cnt z). rewrite (proj2 (Nat.eqb_neq _ 0)) by lia. rewrite Eb. cbn [obind]. rewrite Z.eqb_refl. cbn [negb].
  destruct (lower_bound_ok unix_time ByUnixTime (transitions_ z) begin (mk_tr t 0 epoch epoch) t) as (r0 & -> & R0 & P0); [reflexivity|exact (sorted_unix z OK)|exact B2|]. cbn [obind].
  destruct (skip_backward_ok begin (S (cnt z)) r0 ltac:(unfold cnt in *; lia) R0) as (r & -> & R & A & B). cbn [obind].
  assert (Before : forall j, effective begin j -> u z j < t -> (j < r)%nat).
  { intros j (J & Ej) T. destruct (some_nth z j ltac:(lia)) as (tj & Etj). rewrite (u_nth z j tj Etj) in T. apply (P0 j tj ltac:(lia) Etj) in T. destruct (Nat.lt_ge_cases j r) as [L|L]; [exact L|]. rewrite (A j ltac:(lia)) in Ej. discriminate. }
  destruct (Nat.eqb_spec r begin) as [->|N].
  - exists None. split; [reflexivity|split; [reflexivity|]]. intros i Hi. destruct (Z.le_gt_cases t (u z i)) as [|T]; [assumption|]. specialize (Before i Hi ltac:(lia)). destruct Hi. lia.
  - assert (Rc : (r - 1 < cnt z)%nat) by (unfold cnt in *; lia). destruct (some_nth z (r - 1) Rc) as (tr & E). rewrite E. cbn [obind]. rewrite (reported_civil _ tr E). eexists. split; [reflexivity|split; [reflexivity|]]. exists (r - 1)%nat. split; [split; [lia|apply B; lia]|]. split; [|split; [reflexivity|]].
    + rewrite (u_nth z _ tr E). apply (P0 (r - 1)%nat tr ltac:(lia) E). lia.
    + intros j Hj T. specialize (Before j Hj T). apply (Line.adjacent_le (cnt z) (u z) (fun i H => proj1 (ok_order z OK i H))); lia.
Qed.
End Neighbours.
End Lookup.
