(* ===== verification/ZoneLoad.v ===== *)
(** Loading a time zone: [absl/time/internal/cctz/src/time_zone_info.cc] from the bytes of a zoneinfo file to the state
    that [ZoneInfo] looks times up in, with the rule for future transitions, the built-in zones with a fixed offset and
    the check of a zone's name before it becomes a path. *)
From Stdlib Require Import Ascii String.
From Stdlib Require Import ZArith Lia List Bool.
From S2P Require Import Prelude Digits CivilTime ZoneText ZoneInfo.
Import ListNotations.
#[local] Open Scope Z_scope.
#[local] Open Scope mach_scope.

Module Load.
Import Posix Zone.

(** What a step of loading does: go on, return false, or have no defined behaviour. *)
Inductive result (A : Type) : Type :=
| Ret (a : A)
| Reject
| Undefined.
Arguments Ret {A} a.
Arguments Reject {A}.
Arguments Undefined {A}.

Definition rbind {A B} (m : result A) (k : A -> result B) : result B :=
  match m with
  | Ret a => k a
  | Reject => Reject
  | Undefined => Undefined
  end.

Notation "'run' x <- m ; k" := (rbind m (fun x => k)) (at level 60, x pattern, m at next level, k at level 200, right associativity).

(** A value that must be defined. *)
Definition defined {A} (o : option A) : result A := match o with Some a => Ret a | None => Undefined end.

(** [if (b) return false]. *)
Definition reject_if (b : bool) : result unit := if b then Reject else Ret tt.

(** ** Decoding *)
Definition Decode8 (c : Z) : Z := Z.land c 255.

Fixpoint decode_loop (n : nat) (v : Z) (cp : list Z) : option Z :=
  match n with
  | O => Some v
  | S n =>
    match cp with
    | [] => None
    | c :: cp => decode_loop n (Z.lor (v <<[64] 8) (Decode8 c)) cp
    end
  end.

(** [w]-bit values in twos complement, the most significant byte first. *)
Definition from_unsigned (w v : Z) : Z :=
  let smax := 2 ^ (w - 1) - 1 in
  if v <=? smax then v else (v - smax - 1) - smax - 1.

Definition Decode32 (cp : list Z) : option Z := do v <- decode_loop 4 0 cp; Some (from_unsigned 32 v).
Definition Decode64 (cp : list Z) : option Z := do v <- decode_loop 8 0 cp; Some (from_unsigned 64 v).

(** ** The source of the bytes: [FileZoneInfoSource::Read] and [Skip] *)
Definition Read (src : list Z) (size : Z) : list Z * list Z :=
  let n := Z.to_nat (Z.min size (Z.of_nat (length src))) in (firstn n src, skipn n src).

Definition Skip (src : list Z) (offset : Z) : list Z := skipn (Z.to_nat (Z.min offset (Z.of_nat (length src)))) src.

(** A read that must give all the bytes. *)
Definition read_all (src : list Z) (size : Z) : result (list Z * list Z) :=
  let r := Read src size in
  run _ <- reject_if (negb (Z.of_nat (length (fst r)) =? size));
  Ret r.

(** [tzhead]: where the fields of the header are. *)
Definition sizeof_tzhead : Z := 44.
Definition tzh_version (tzh : list Z) : option Z := nth_error tzh 4.
Definition tzh_field (tzh : list Z) (i : nat) : option Z := Decode32 (skipn i tzh).

Definition TZ_MAGIC : list Z := str "TZif".
Definition TZ_MAX_TIMES : Z := 2000.
Definition TZ_MAX_TYPES : Z := 256.
Definition TZ_MAX_CHARS : Z := 256.

Record Header := mk_header {
  timecnt : Z;
  typecnt : Z;
  charcnt : Z;
  leapcnt : Z;
  ttisstdcnt : Z;
  ttisutcnt : Z
}.

Definition count_at (tzh : list Z) (i : nat) : result Z :=
  run v <- defined (tzh_field tzh i);
  if v <? 0 then Reject else Ret v.

Definition Build (tzh : list Z) : result Header :=
  run timecnt <- count_at tzh 32;
  run typecnt <- count_at tzh 36;
  run charcnt <- count_at tzh 40;
  run leapcnt <- count_at tzh 28;
  run ttisstdcnt <- count_at tzh 24;
  run ttisutcnt <- count_at tzh 20;
  Ret (mk_header timecnt typecnt charcnt leapcnt ttisstdcnt ttisutcnt).

Definition DataLength (h : Header) (time_len : Z) : Z :=
  let len := 0 in
  let len := len +[64] (wrapu 64 ((time_len + 1) * timecnt h)) in
  let len := len +[64] (wrapu 64 ((4 + 1 + 1) * typecnt h)) in
  let len := len +[64] (1 * charcnt h) in
  let len := len +[64] (wrapu 64 ((time_len + 4) * leapcnt h)) in
  let len := len +[64] (1 * ttisstdcnt h) in
  len +[64] (1 * ttisutcnt h).

(** ** The rule for future transitions *)
Definition AllYearDST (posix : PosixTimeZone) : bool :=
  match date (dst_start posix), date (dst_end posix) with
  | N n, J j =>
    (n =? 0) && (time_offset (dst_start posix) =? 0) && (j =? kDaysPerYear false) &&
    (time_offset (dst_end posix) + (std_offset posix - dst_offset posix) =? kSecsPerDay)
  | _, _ => false
  end.

(** The day of the year, from 0, of a date of the rule; the subscripts of the table are in its range. *)
Definition trans_day (leap_year : bool) (jan1_weekday : Z) (d : Date) : option Z :=
  match d with
  | J day => Some (if negb leap_year || (day <? 60) then day - 1 else day)
  | N day => Some day
  | M month week wd =>
    let last_week := week =? 5 in
    do days <- read (kMonthOffsets leap_year) (month + Z.b2z last_week);
    let weekday := Z.rem (jan1_weekday + days) 7 in
    Some (if last_week then days - (Z.rem (weekday + 7 - 1 - wd) 7 + 1) else days + Z.rem (wd + 7 - weekday) 7 + (week - 1) * 7)
  end.

Definition TransOffset (leap_year : bool) (jan1_weekday : Z) (pt : PosixTransition) : option Z :=
  do days <- trans_day leap_year jan1_weekday (date pt);
  Some (days * kSecsPerDay + time_offset pt).

(** Find or make a transition type: the types, the abbreviations and the index. *)
Fixpoint find_type (types : list TransitionType) (abbrs : list Z) (off : Z) (dst : bool) (abbr : list Z) (i abbr_i : Z) : option (Z * Z) :=
  match types with
  | [] => Some (i, abbr_i)
  | ty :: types =>
    do tt_abbr <- abbr_at abbrs (abbr_index ty);
    let abbr_i := if list_eqb tt_abbr abbr then abbr_index ty else abbr_i in
    if (utc_offset ty =? off) && Bool.eqb (is_dst ty) dst && (abbr_i =? abbr_index ty) then Some (i, abbr_i)
    else find_type types abbrs off dst abbr (i + 1) abbr_i
  end.

Definition GetTransitionType (types : list TransitionType) (abbrs : list Z) (off : Z) (dst : bool) (abbr : list Z) : result (list TransitionType * list Z * Z) :=
  run (type_index, abbr_i) <- defined (find_type types abbrs off dst abbr 0 (Z.of_nat (length abbrs)));
  run _ <- reject_if ((type_index >? 255) || (abbr_i >? 255));
  if type_index =? Z.of_nat (length types) then
    let abbrs' := if abbr_i =? Z.of_nat (length abbrs) then abbrs ++ abbr ++ [0] else abbrs in
    Ret (types ++ [mk_tt off epoch epoch dst abbr_i], abbrs', type_index)
  else Ret (types, abbrs, type_index).

(** The transitions that the rule gives for one year. *)
Definition year_transitions (posix : PosixTimeZone) (std_ti dst_ti : Z) (leap_year : bool) (jan1_time jan1_weekday : Z) : option (Transition * Transition) :=
  do dst_trans_off <- TransOffset leap_year jan1_weekday (dst_start posix);
  do std_trans_off <- TransOffset leap_year jan1_weekday (dst_end posix);
  do a <- s64 (jan1_time + dst_trans_off);
  do dst_time <- s64 (a - std_offset posix);
  do b <- s64 (jan1_time + std_trans_off);
  do std_time <- s64 (b - dst_offset posix);
  let dst := mk_tr dst_time dst_ti epoch epoch in
  let std := mk_tr std_time std_ti epoch epoch in
  Some (if dst_time <? std_time then (dst, std) else (std, dst)).

(** What is added for the pair [ta], [tb] of a year. *)
Definition push_year (last_time : Z) (l : list Transition) (ta tb : Transition) : list Transition :=
  if last_time <? unix_time tb then (if last_time <? unix_time ta then l ++ [ta] else l) ++ [tb] else l.

(** The years from [year] to [limit]. *)
Fixpoint extend_loop (fuel : nat) (posix : PosixTimeZone) (std_ti dst_ti last_time limit year : Z) (leap_year : bool) (jan1_time jan1_weekday : Z) (l : list Transition) : option (list Transition * Z) :=
  match fuel with
  | O => None
  | S fuel =>
    do p <- year_transitions posix std_ti dst_ti leap_year jan1_time jan1_weekday;
    let l := push_year last_time l (fst p) (snd p) in
    if year =? limit then Some (l, year)
    else
      do jan1_time' <- s64 (jan1_time + kSecsPerYear leap_year);
      extend_loop fuel posix std_ti dst_ti last_time limit (year + 1) (negb leap_year && IsLeap (year + 1))
        jan1_time' (Z.rem (jan1_weekday + kDaysPerYear leap_year) 7) l
  end.

(** A rule before it is parsed; no value of it is read before it is set. *)
Definition blank_rule : PosixTimeZone := mk_zone [] 0 [] 0 (mk_transition (N 0) 0) (mk_transition (N 0) 0).

Definition with_types (z : TimeZoneInfo) (p : list TransitionType * list Z * Z) : TimeZoneInfo :=
  let '(types, abbrs, _) := p in
  mk_tz (transitions_ z) types (default_transition_type_ z) abbrs (version_ z) (future_spec_ z) (extended_ z) (last_year_ z).

Definition with_transitions (z : TimeZoneInfo) (l : list Transition) (extended : bool) (last_year : Z) : TimeZoneInfo :=
  mk_tz l (transition_types_ z) (default_transition_type_ z) (abbreviations_ z) (version_ z) (future_spec_ z) extended last_year.

(** The transitions of 402 years after the last one of the file. *)
Definition extend_years (z : TimeZoneInfo) (posix : PosixTimeZone) (std_ti dst_ti : Z) : option TimeZoneInfo :=
  do last <- nth_error (transitions_ z) (length (transitions_ z) - 1);
  let last_time := unix_time last in
  do last_tt <- read (transition_types_ z) (type_index last);
  do al <- LocalTime_type (abbreviations_ z) last_time last_tt;
  let last_year := f_y (al_cs al) in
  let jan1 := ct_f (make_civil second_tag last_year 1 1 0 0 0) in
  do jan1_time <- cs_diff jan1 epoch;
  do r <- extend_loop 402 posix std_ti dst_ti last_time (last_year + 401) last_year (IsLeap last_year) jan1_time (ToPosixWeekday (get_weekday jan1)) (transitions_ z);
  Some (with_transitions z (fst r) true (snd r)).

Definition ExtendTransitions (z : TimeZoneInfo) : result TimeZoneInfo :=
  let z := with_transitions z (transitions_ z) false (last_year_ z) in
  match future_spec_ z with
  | [] => Ret z
  | _ =>
    run spec <- defined (ParsePosixSpec (future_spec_ z) blank_rule);
    match spec with
    | None => Reject
    | Some posix =>
      run p <- GetTransitionType (transition_types_ z) (abbreviations_ z) (std_offset posix) false (std_abbr posix);
      let std_ti := snd p in
      let z := with_types z p in
      run last <- defined (nth_error (transitions_ z) (length (transitions_ z) - 1));
      match dst_abbr posix with
      | [] =>
        run same <- defined (EquivTransitions (transition_types_ z) (type_index last) std_ti);
        run _ <- reject_if (negb same);
        Ret z
      | _ =>
        run q <- GetTransitionType (transition_types_ z) (abbreviations_ z) (dst_offset posix) true (dst_abbr posix);
        let dst_ti := snd q in
        let z := with_types z q in
        if AllYearDST posix then
          run same <- defined (EquivTransitions (transition_types_ z) (type_index last) dst_ti);
          run _ <- reject_if (negb same);
          Ret z
        else
          run _ <- reject_if (unix_time last <? 0);
          defined (extend_years z posix std_ti dst_ti)
      end
    end
  end.

(** ** The body of the file *)

(** A header with its magic number. *)
Definition read_header (src : list Z) : result (list Z * Z * list Z) :=
  run (tzh, src) <- read_all src sizeof_tzhead;
  run _ <- reject_if (negb (list_eqb (firstn 4 tzh) TZ_MAGIC));
  run version <- defined (tzh_version tzh);
  Ret (tzh, version, src).

(** The header of the section that is used, the length of its times, whether there is a rule, and the rest. *)
Definition read_headers (src : list Z) : result (Header * Z * bool * list Z) :=
  run (tzh, version, src) <- read_header src;
  run hdr <- Build tzh;
  if negb (version =? 0) then
    let src := Skip src (DataLength hdr 4) in
    run (tzh, version, src) <- read_header src;
    run _ <- reject_if (version =? 0);
    run hdr <- Build tzh;
    Ret (hdr, 8, true, src)
  else Ret (hdr, 4, false, src).

Definition check_header (h : Header) : result unit :=
  run _ <- reject_if (typecnt h =? 0);
  run _ <- reject_if (negb (leapcnt h =? 0));
  run _ <- reject_if (negb (ttisstdcnt h =? 0) && negb (ttisstdcnt h =? typecnt h));
  run _ <- reject_if (negb (ttisutcnt h =? 0) && negb (ttisutcnt h =? typecnt h));
  run _ <- reject_if (timecnt h >? TZ_MAX_TIMES);
  run _ <- reject_if (typecnt h >? TZ_MAX_TYPES);
  reject_if (charcnt h >? TZ_MAX_CHARS).

(** Moving a pointer; past the end of the buffer is undefined. *)
Definition advance (bp : list Z) (n : nat) : result (list Z) := if (n <=? length bp)%nat then Ret (skipn n bp) else Undefined.

Fixpoint decode_times (n : nat) (time_len : Z) (bp : list Z) : result (list Z * list Z) :=
  match n with
  | O => Ret ([], bp)
  | S n =>
    run t <- defined (if time_len =? 4 then Decode32 bp else Decode64 bp);
    run bp <- advance bp (Z.to_nat time_len);
    run _ <- reject_if ((t <? - 2 ^ 59) || (t >? 2 ^ 59));
    run (ts, bp) <- decode_times n time_len bp;
    Ret (t :: ts, bp)
  end.

(** The byte a pointer points at, and the pointer after it. *)
Definition next8 (bp : list Z) : result (Z * list Z) :=
  match bp with
  | [] => Undefined
  | c :: bp => Ret (Decode8 c, bp)
  end.

Fixpoint decode_indices (n : nat) (typecnt : Z) (bp : list Z) : result (list Z * list Z) :=
  match n with
  | O => Ret ([], bp)
  | S n =>
    run (i, bp) <- next8 bp;
    run _ <- reject_if (i >=? typecnt);
    run (idx, bp) <- decode_indices n typecnt bp;
    Ret (i :: idx, bp)
  end.

Fixpoint decode_types (n : nat) (charcnt : Z) (bp : list Z) : result (list TransitionType * list Z) :=
  match n with
  | O => Ret ([], bp)
  | S n =>
    run off <- defined (Decode32 bp);
    run _ <- reject_if ((off >=? kSecsPerDay) || (off <=? - kSecsPerDay));
    run bp <- advance bp 4;
    run (dst, bp) <- next8 bp;
    run (abbr, bp) <- next8 bp;
    run _ <- reject_if (abbr >=? charcnt);
    run (types, bp) <- decode_types n charcnt bp;
    Ret (mk_tt off epoch epoch (negb (dst =? 0)) abbr :: types, bp)
  end.

(** The type before the first transition. *)
Fixpoint dst_down (fuel : nat) (types : list TransitionType) (index : Z) : option Z :=
  match fuel with
  | O => None
  | S fuel =>
    if index =? 0 then Some index
    else do ty <- read types index; if is_dst ty then dst_down fuel types (index - 1) else Some index
  end.

Fixpoint dst_up (fuel : nat) (types : list TransitionType) (index : Z) : option Z :=
  match fuel with
  | O => None
  | S fuel =>
    if index =? Z.of_nat (length types) then Some index
    else do ty <- read types index; if is_dst ty then dst_up fuel types (index + 1) else Some index
  end.

Definition default_type (types : list TransitionType) (indices : list Z) : option Z :=
  let seen_type_0 := existsb (Z.eqb 0) indices in
  if seen_type_0 && negb (length indices =? 0)%nat then
    do ty0 <- read types 0;
    do index <- (if is_dst ty0 then do i0 <- nth_error indices 0; dst_down (S (length types)) types i0 else Some 0);
    do index <- dst_up (S (length types)) types index;
    Some (if negb (index =? Z.of_nat (length types)) then index else 0)
  else Some 0.

(** The rule between two newlines. *)
Fixpoint read_line (src : list Z) : result (list Z * list Z) :=
  match src with
  | [] => Reject
  | c :: src => if c =? 10 then Ret ([], src) else run (s, src) <- read_line src; Ret (c :: s, src)
  end.

Definition read_spec (src : list Z) : result (list Z * list Z) :=
  match src with
  | [] => Reject
  | c :: src => run _ <- reject_if (negb (c =? 10)); read_line src
  end.

Fixpoint make_transitions (ts idx : list Z) : list Transition :=
  match ts, idx with
  | t :: ts, i :: idx => mk_tr t i epoch epoch :: make_transitions ts idx
  | _, _ => []
  end.

(** The sections of the data, in order; [zip_version] is what [zip->Version()] gives. *)
Definition decode_data (h : Header) (time_len : Z) (bp : list Z) : result (list Transition * list TransitionType * Z * list Z) :=
  run (ts, bp) <- decode_times (Z.to_nat (timecnt h)) time_len bp;
  run (idx, bp) <- decode_indices (Z.to_nat (timecnt h)) (typecnt h) bp;
  run (types, bp) <- decode_types (Z.to_nat (typecnt h)) (charcnt h) bp;
  run default <- defined (default_type types idx);
  run nul <- defined (read bp (charcnt h - 1));
  run _ <- reject_if (negb (nul =? 0));
  let abbrs := firstn (Z.to_nat (charcnt h)) bp in
  run bp <- advance bp (Z.to_nat (charcnt h));
  run bp <- advance bp (Z.to_nat ((time_len + 4) * leapcnt h));
  run bp <- advance bp (Z.to_nat (ttisstdcnt h));
  run bp <- advance bp (Z.to_nat (ttisutcnt h));
  match bp with
  | [] => Ret (make_transitions ts idx, types, default, abbrs)
  | _ => Undefined
  end.

(** A transition in the first half of the time line, and one in the second half. *)
Definition first_half (l : list Transition) (default : Z) : list Transition :=
  match l with
  | [] => [mk_tr (- 2 ^ 59) default epoch epoch]
  | tr :: _ => if unix_time tr >=? 0 then mk_tr (- 2 ^ 59) default epoch epoch :: l else l
  end.

Definition second_half (z : TimeZoneInfo) : result TimeZoneInfo :=
  let l := transitions_ z in
  run last <- defined (nth_error l (length l - 1));
  if unix_time last <? 0 then
    if extended_ z then Undefined
    else Ret (with_transitions z (l ++ [mk_tr 2147483647 (type_index last) epoch epoch]) (extended_ z) (last_year_ z))
  else Ret z.

(** The civil times of each transition, with the check of their order; [prev] is the transition before. *)
Fixpoint civil_times (abbrs : list Z) (types : list TransitionType) (ttp : TransitionType) (prev : option Transition) (l : list Transition) : result (list Transition) :=
  match l with
  | [] => Ret []
  | tr :: l =>
    run before <- defined (LocalTime_type abbrs (unix_time tr) ttp);
    run ttp <- defined (read types (type_index tr));
    run after <- defined (LocalTime_type abbrs (unix_time tr) ttp);
    let tr := mk_tr (unix_time tr) (type_index tr) (al_cs after) (cs_sub (al_cs before) 1) in
    run _ <- reject_if match prev with None => false | Some p => negb (ByUnixTime p tr) || negb (ByCivilTime p tr) end;
    run l <- civil_times abbrs types ttp (Some tr) l;
    Ret (tr :: l)
  end.

(** The extreme civil times of a type. *)
Definition civil_limits (abbrs : list Z) (ty : TransitionType) : result TransitionType :=
  run hi <- defined (LocalTime_type abbrs tp_max ty);
  run lo <- defined (LocalTime_type abbrs tp_min ty);
  Ret (mk_tt (utc_offset ty) (al_cs hi) (al_cs lo) (is_dst ty) (abbr_index ty)).

Fixpoint map_result {A B} (f : A -> result B) (l : list A) : result (list B) :=
  match l with
  | [] => Ret []
  | a :: l => run b <- f a; run bs <- map_result f l; Ret (b :: bs)
  end.

Definition finish (z : TimeZoneInfo) : result TimeZoneInfo :=
  run ttp <- defined (read (transition_types_ z) (default_transition_type_ z));
  run l <- civil_times (abbreviations_ z) (transition_types_ z) ttp None (transitions_ z);
  run types <- map_result (civil_limits (abbreviations_ z)) (transition_types_ z);
  Ret (mk_tz l types (default_transition_type_ z) (abbreviations_ z) (version_ z) (future_spec_ z) (extended_ z) (last_year_ z)).

(** The state with what the data section holds. *)
Definition decode_zone (src zip_version : list Z) : result TimeZoneInfo :=
  run (hdr, time_len, has_spec, src) <- read_headers src;
  run _ <- check_header hdr;
  run (tbuf, src) <- read_all src (DataLength hdr time_len);
  run (l, types, default, abbrs) <- decode_data hdr time_len tbuf;
  run (spec, src) <- (if has_spec then read_spec src else Ret ([], src));
  Ret (mk_tz (first_half l default) types default abbrs zip_version spec false 0).

(** [TimeZoneInfo::Load] from a [ZoneInfoSource]. *)
Definition Load (src zip_version : list Z) : result TimeZoneInfo :=
  run z <- decode_zone src zip_version;
  run z <- ExtendTransitions z;
  run z <- second_half z;
  finish z.

(** ** Built-in zones and names *)
Definition utc_times : list Z :=
  [- 2 ^ 59; 1420070400; 1451606400; 1483228800; 1514764800; 1546300800; 1577836800; 1609459200; 1640995200; 1672531200; 1704067200; 1735689600].

(** The abbreviation of the lookups is not used. *)
Definition local_civil (t off : Z) : fields := cs_add (cs_add epoch t) off.

Definition ResetToBuiltinUTC (offset : Z) : TimeZoneInfo :=
  let mk t := let cs := local_civil t offset in mk_tr t 0 cs (cs_sub cs 1) in
  mk_tz (map mk utc_times) [mk_tt offset (local_civil tp_max offset) (local_civil tp_min offset) false 0] 0
    (Fixed.FixedOffsetToAbbr offset ++ [0]) [] [] false 0.

Definition IsPathSeparator (c : Z) : bool := c =? chr "/".

(** [name.find("..", i)]: the position of the next two dots. *)
Fixpoint find_dots (fuel : nat) (name : list Z) (i : nat) : option nat :=
  match fuel with
  | O => None
  | S fuel =>
    match nth_error name i, nth_error name (S i) with
    | Some a, Some b => if (a =? chr ".") && (b =? chr ".") then Some i else find_dots fuel name (S i)
    | _, _ => None
    end
  end.

Fixpoint unsafe_loop (fuel : nat) (name : list Z) (pos i : nat) : bool :=
  match fuel with
  | O => false
  | S fuel =>
    match find_dots (S (length name)) name i with
    | None => false
    | Some i =>
      if ((i =? pos)%nat || IsPathSeparator (nth (i - 1) name 0)) && ((i =? length name - 2)%nat || IsPathSeparator (nth (i + 2) name 0)) then true
      else unsafe_loop fuel name pos (i + 2)
    end
  end.

Definition UnsafePath (name : list Z) (pos : nat) : bool := unsafe_loop (S (length name)) name pos pos.

(** The path that [FileZoneInfoSource::Open] opens; [tzdir_env] is the environment's [TZDIR]. *)
Definition open_path (tzdir_env : option (list Z)) (name : list Z) : option (list Z) :=
  let pos := if list_eqb (firstn 5 name) (str "file:") then 5%nat else 0%nat in
  if UnsafePath name pos then None
  else
    let prefix :=
      if (pos =? length name)%nat || negb (nth pos name 0 =? chr "/") then
        match tzdir_env with Some (c :: d) => c :: d | _ => str "/usr/share/zoneinfo" end ++ [chr "/"]
      else [] in
    Some (prefix ++ skipn pos name).

(** [TimeZoneInfo::Make]; [factory] gives the bytes and the version of a named source. *)
Definition Make (factory : list Z -> option (list Z * list Z)) (name : list Z) : result TimeZoneInfo :=
  run offset <- defined (Fixed.FixedOffsetFromName name);
  match offset with
  | Some offset => Ret (ResetToBuiltinUTC offset)
  | None =>
    match factory name with
    | None => Reject
    | Some (src, zip_version) => Load src zip_version
    end
  end.
End Load.
