(* ===== verification/ZoneDecode.v ===== *)
(** Decoding zoneinfo data is safe: whatever the bytes are, nothing outside the source or the buffer is read, and the
    state that the data section gives has its indices, offsets and times in range. *)
From Stdlib Require Import ZArith Lia List Bool.
From S2P Require Import Prelude CivilTime ZoneText ZoneInfo ZoneTime ZoneLookup ZoneLoad.
Import ListNotations.
#[local] Open Scope Z_scope.
#[local] Open Scope mach_scope.

Module Decode.
Import Zone Load.

(** A step is defined, and [Q] holds of what it gives. *)
Definition good {A} (m : result A) (Q : A -> Prop) : Prop :=
  match m with
  | Ret a => Q a
  | Reject => True
  | Undefined => False
  end.

Lemma good_bind {A B} (m : result A) (k : A -> result B) P Q : good m P -> (forall a, P a -> good (k a) Q) -> good (rbind m k) Q.
Proof. destruct m; cbn; auto. Qed.

Lemma good_weaken {A} (m : result A) (P Q : A -> Prop) : good m P -> (forall a, P a -> Q a) -> good m Q.
Proof. destruct m; cbn; auto. Qed.

Lemma good_reject b : good (reject_if b) (fun _ => b = false).
Proof. destruct b; cbn; auto. Qed.

Lemma good_defined {A} (m : option A) a (Q : A -> Prop) : m = Some a -> Q a -> good (defined m) Q.
Proof. now intros -> H. Qed.

(** ** Headers *)
Lemma decode_loop_defined n : forall v cp, (n <= length cp)%nat -> exists r, decode_loop n v cp = Some r.
Proof. induction n as [|n IH]; intros v cp L; cbn; [eauto|]. destruct cp as [|c cp]; cbn in L; [lia|]. apply IH. lia. Qed.

Lemma Decode32_defined cp : (4 <= length cp)%nat -> exists r, Decode32 cp = Some r.
Proof. intros L. unfold Decode32. destruct (decode_loop_defined 4 0 cp L) as (v & ->). cbn. eauto. Qed.

Lemma Decode64_defined cp : (8 <= length cp)%nat -> exists r, Decode64 cp = Some r.
Proof. intros L. unfold Decode64. destruct (decode_loop_defined 8 0 cp L) as (v & ->). cbn. eauto. Qed.

Lemma good_count tzh i : (i + 4 <= length tzh)%nat -> good (count_at tzh i) (fun v => 0 <= v).
Proof.
  intros L. unfold count_at, tzh_field. destruct (Decode32_defined (skipn i tzh)) as (v & ->); [rewrite length_skipn; lia|]. cbn. destruct (Z.ltb_spec v 0); cbn; auto.
Qed.

Definition header_ok (h : Header) : Prop := 0 <= timecnt h /\ 0 <= typecnt h /\ 0 <= charcnt h /\ 0 <= leapcnt h /\ 0 <= ttisstdcnt h /\ 0 <= ttisutcnt h.

Lemma good_Build tzh : length tzh = 44%nat -> good (Build tzh) header_ok.
Proof.
  intros L. unfold Build. do 6 (eapply good_bind; [apply good_count; lia|]; cbv beta; intros ? ?). repeat split; assumption.
Qed.

Lemma good_read_all src n : 0 <= n -> good (read_all src n) (fun r => Z.of_nat (length (fst r)) = n).
Proof. intros N. unfold read_all. eapply good_bind; [apply good_reject|]. cbv beta. intros _ H. zbool. exact H. Qed.

Lemma good_read_header src : good (read_header src) (fun r => length (fst (fst r)) = 44%nat).
Proof.
  unfold read_header. eapply good_bind; [apply good_read_all; discriminate|]. intros (tzh & src') L. cbn [fst] in L. unfold sizeof_tzhead in L. eapply good_bind; [apply good_reject|]. intros _ _.
  assert (L4 : length tzh = 44%nat) by lia. unfold tzh_version. destruct (nth_error tzh 4) eqn:E; [|apply nth_error_None in E; lia]. exact L4.
Qed.

Lemma good_read_headers src : good (read_headers src) (fun r => let '(h, time_len, _, _) := r in header_ok h /\ (time_len = 4 \/ time_len = 8)).
Proof.
  unfold read_headers. eapply good_bind; [apply good_read_header|]. intros ((tzh & version) & src1) L. eapply good_bind; [now apply good_Build|]. intros h H. destruct (negb (version =? 0)); [|cbn; auto].
  eapply good_bind; [apply good_read_header|]. intros ((tzh2 & version2) & src2) L2. eapply good_bind; [apply good_reject|]. intros _ _. eapply good_bind; [now apply good_Build|]. intros h2 H2. cbn. auto.
Qed.

(** The limits that bound the allocation. *)
Definition header_small (h : Header) : Prop :=
  0 <= timecnt h <= 2000 /\ 1 <= typecnt h <= 256 /\ 0 <= charcnt h <= 256 /\ leapcnt h = 0 /\ 0 <= ttisstdcnt h <= 256 /\ 0 <= ttisutcnt h <= 256.

Lemma good_check_header h : header_ok h -> good (check_header h) (fun _ => header_small h).
Proof.
  intros (H1 & H2 & H3 & H4 & H5 & H6). unfold check_header, TZ_MAX_TIMES, TZ_MAX_TYPES, TZ_MAX_CHARS. do 6 (eapply good_bind; [apply good_reject|]; cbv beta; intros _ ?). eapply good_weaken; [apply good_reject|]. cbv beta. intros _ ?. zbool. unfold header_small. lia.
Qed.

Lemma DataLength_small h time_len : header_small h -> time_len = 4 \/ time_len = 8 ->
  DataLength h time_len = (time_len + 1) * timecnt h + 6 * typecnt h + charcnt h + ttisstdcnt h + ttisutcnt h.
Proof.
  intros (H1 & H2 & H3 & H4 & H5 & H6) T. unfold DataLength. rewrite H4. assert (B : 18446744073709551616 = 2 ^ 64) by reflexivity.
  assert (E : forall x, 0 <= x < 18446744073709551616 -> wrapu 64 x = x) by (intros x X; apply wrapu_small; lia).
  destruct T as [->| ->]; repeat match goal with |- context [wrapu 64 ?x] => lazymatch x with context [wrapu _ _] => fail | _ => rewrite (E x) by lia end end; lia.
Qed.

(** ** The data *)
Lemma good_advance bp n : (n <= length bp)%nat -> good (advance bp n) (fun q => q = skipn n bp).
Proof. intros L. unfold advance. rewrite (proj2 (Nat.leb_le _ _)) by exact L. reflexivity. Qed.

Lemma good_decode_times time_len rest : time_len = 4 \/ time_len = 8 -> forall n bp, length bp = (n * Z.to_nat time_len + rest)%nat ->
  good (decode_times n time_len bp) (fun r => length (fst r) = n /\ Forall (fun t => - 2 ^ 59 <= t <= 2 ^ 59) (fst r) /\ length (snd r) = rest).
Proof.
  intros T. induction n as [|n IH]; intros bp L; cbn [decode_times]; [cbn; auto|].
  assert (D : exists t, (if time_len =? 4 then Decode32 bp else Decode64 bp) = Some t) by (destruct T as [->| ->]; [apply Decode32_defined|apply Decode64_defined]; cbn in L; lia).
  destruct D as (t & Et). eapply good_bind; [apply (good_defined _ t (fun _ => True) Et I)|]. intros t' _. eapply good_bind; [apply good_advance; destruct T as [->| ->]; cbn in L |- *; lia|]. cbv beta. intros q ->.
  eapply good_bind; [apply good_reject|]. cbv beta. intros _ R. eapply good_bind; [apply IH; rewrite length_skipn; lia|]. intros (ts & q) (A & B & C). cbn [fst snd good length] in *. zbool. split; [lia|split; [constructor; [lia|exact B]|exact C]].
Qed.

Lemma good_next8 c bp : good (next8 (c :: bp)) (fun r => snd r = bp /\ 0 <= fst r < 256).
Proof. cbn. split; [reflexivity|]. unfold Decode8. change 255 with (Z.ones 8). rewrite Z.land_ones by lia. apply Z.mod_pos_bound. lia. Qed.

Lemma good_decode_indices tc rest : forall n bp, length bp = (n + rest)%nat ->
  good (decode_indices n tc bp) (fun r => length (fst r) = n /\ Forall (fun i => 0 <= i < tc) (fst r) /\ length (snd r) = rest).
Proof.
  induction n as [|n IH]; intros bp L; cbn [decode_indices]; [cbn; auto|]. destruct bp as [|c bp]; [cbn in L; lia|]. eapply good_bind; [apply good_next8|]. intros (i & q) (Eq & Hi). cbn [fst snd] in *. subst q.
  eapply good_bind; [apply good_reject|]. cbv beta. intros _ R. eapply good_bind; [apply IH; cbn in L; lia|]. intros (idx & q) (A & B & C). cbn [fst snd good length] in *. zbool. split; [lia|split; [constructor; [lia|exact B]|exact C]].
Qed.

(** A type as the data gives it. *)
Definition raw_type_ok (chars : Z) (ty : TransitionType) : Prop := - 100000 < utc_offset ty < 100000 /\ 0 <= abbr_index ty < chars.

Lemma good_decode_types cc rest : forall n bp, length bp = (6 * n + rest)%nat ->
  good (decode_types n cc bp) (fun r => length (fst r) = n /\ Forall (raw_type_ok cc) (fst r) /\ length (snd r) = rest /\ ((0 < n)%nat -> 0 < cc)).
Proof.
  induction n as [|n IH]; intros bp L; cbn [decode_types]; [cbn; repeat split; auto; lia|].
  destruct (Decode32_defined bp ltac:(lia)) as (off & Eo). eapply good_bind; [apply (good_defined _ off (fun _ => True) Eo I)|]. intros off' _. eapply good_bind; [apply good_reject|]. cbv beta. intros _ R.
  eapply good_bind; [apply good_advance; lia|]. cbv beta. intros q ->. assert (Lq : length (skipn 4 bp) = (2 + (6 * n + rest))%nat) by (rewrite length_skipn; lia). destruct (skipn 4 bp) as [|c1 [|c2 q]]; [cbn in Lq; lia..|].
  eapply good_bind; [apply good_next8|]. intros (dst & q1) (E1 & H1). cbn [fst snd] in *. subst q1. eapply good_bind; [apply good_next8|]. intros (abbr & q1) (E1 & H2). cbn [fst snd] in *. subst q1.
  eapply good_bind; [apply good_reject|]. cbv beta. intros _ R2. eapply good_bind; [apply IH; cbn in Lq; lia|]. intros (types & q') (A & B & C & D). cbn [fst snd good length] in *. unfold kSecsPerDay in R. zbool.
  split; [lia|split; [constructor; [split; cbn [utc_offset abbr_index]; lia|exact B]|split; [exact C|lia]]].
Qed.

(** ** The type before the first transition *)
Lemma read_in {A} (l : list A) i : 0 <= i < Z.of_nat (length l) -> exists a, read l i = Some a /\ In a l.
Proof. intros H. unfold read. rewrite (proj2 (Z.leb_le _ _)) by lia. destruct (nth_error l (Z.to_nat i)) as [a|] eqn:E; [|apply nth_error_None in E; lia]. exists a. split; [reflexivity|eapply nth_error_In, E]. Qed.

Lemma dst_down_ok types : forall fuel i, 0 <= i < Z.of_nat (length types) -> (Z.to_nat i < fuel)%nat -> exists r, dst_down fuel types i = Some r /\ 0 <= r <= i.
Proof.
  induction fuel as [|fuel IH]; intros i I F; [lia|]. cbn [dst_down]. destruct (Z.eqb_spec i 0) as [->|N]; [exists 0; split; [reflexivity|lia]|]. destruct (read_in types i I) as (ty & -> & _). cbn [obind]. destruct (is_dst ty); [|exists i; split; [reflexivity|lia]].
  destruct (IH (i - 1) ltac:(lia) ltac:(lia)) as (r & Er & R). exists r. split; [exact Er|lia].
Qed.

Lemma dst_up_ok types : forall fuel i, 0 <= i <= Z.of_nat (length types) -> (length types - Z.to_nat i < fuel)%nat -> exists r, dst_up fuel types i = Some r /\ 0 <= r <= Z.of_nat (length types).
Proof.
  induction fuel as [|fuel IH]; intros i I F; [lia|]. cbn [dst_up]. destruct (Z.eqb_spec i (Z.of_nat (length types))) as [->|N]; [eexists; split; [reflexivity|lia]|]. destruct (read_in types i ltac:(lia)) as (ty & -> & _). cbn [obind]. destruct (is_dst ty); [|exists i; split; [reflexivity|lia]].
  apply IH; lia.
Qed.

Lemma default_type_ok types idx : (0 < length types)%nat -> Forall (fun i => 0 <= i < Z.of_nat (length types)) idx -> exists d, default_type types idx = Some d /\ 0 <= d < Z.of_nat (length types).
Proof.
  intros L F. unfold default_type. destruct (existsb (Z.eqb 0) idx && negb (length idx =? 0)%nat) eqn:E; [|exists 0; split; [reflexivity|lia]]. apply andb_true_iff in E as (_ & E). apply negb_true_iff, Nat.eqb_neq in E.
  destruct (read_in types 0 ltac:(lia)) as (ty0 & -> & _). cbn [obind]. assert (S1 : exists i, (if is_dst ty0 then do i0 <- nth_error idx 0; dst_down (S (length types)) types i0 else Some 0) = Some i /\ 0 <= i < Z.of_nat (length types)).
  { destruct (is_dst ty0); [|exists 0; split; [reflexivity|lia]]. destruct idx as [|i0 idx]; [now destruct E|]. inversion F as [|? ? Hi _]; subst. cbn [nth_error obind]. destruct (dst_down_ok types (S (length types)) i0 Hi ltac:(lia)) as (r & Er & R). exists r. split; [exact Er|lia]. }
  destruct S1 as (i & -> & Hi). cbn [obind]. destruct (dst_up_ok types (S (length types)) i ltac:(lia) ltac:(lia)) as (r & -> & R). cbn [obind]. eexists. split; [reflexivity|]. destruct (Z.eqb_spec r (Z.of_nat (length types))); cbn [negb]; lia.
Qed.

(** ** The state that the data section gives *)

(** What holds of a zone while it is loaded. *)
Record loading (z : TimeZoneInfo) : Prop := mk_loading {
  ld_types : Forall (raw_type_ok (Z.of_nat (length (abbreviations_ z)))) (transition_types_ z);
  ld_kinds : Forall (fun k => 0 <= k < Z.of_nat (length (transition_types_ z))) (Lookup.kinds z);
  ld_nul : exists q, abbreviations_ z = q ++ [0];
  ld_times : Forall (fun tr => - 2 ^ 60 <= unix_time tr <= 2 ^ 60) (transitions_ z);
  ld_first : exists tr l, transitions_ z = tr :: l /\ unix_time tr < 0
}.

Lemma make_transitions_ok (P R : Z -> Prop) : forall ts idx, Forall P ts -> Forall R idx -> Forall (fun tr => P (unix_time tr) /\ R (type_index tr)) (make_transitions ts idx).
Proof. induction ts as [|t ts IH]; intros idx Ft Fi; [constructor|]. destruct idx as [|i idx]; [constructor|]. inversion Ft; inversion Fi; subst. cbn. constructor; [now split|now apply IH]. Qed.

Definition data_ok (r : list Transition * list TransitionType * Z * list Z) : Prop :=
  let '(l, types, default, abbrs) := r in
  Forall (fun tr => - 2 ^ 59 <= unix_time tr <= 2 ^ 59 /\ 0 <= type_index tr < Z.of_nat (length types)) l /\
  Forall (raw_type_ok (Z.of_nat (length abbrs))) types /\ 0 <= default < Z.of_nat (length types) /\ exists q, abbrs = q ++ [0].

(** The abbreviations end where the last byte of their area is NUL. *)
Lemma area_nul (bp : list Z) n : 0 < n <= Z.of_nat (length bp) -> read bp (n - 1) = Some 0 -> exists q, firstn (Z.to_nat n) bp = q ++ [0].
Proof.
  intros N R. unfold read in R. rewrite (proj2 (Z.leb_le _ _)) in R by lia. exists (firstn (Z.to_nat (n - 1)) bp). replace (Z.to_nat n) with (S (Z.to_nat (n - 1))) by lia.
  generalize dependent (Z.to_nat (n - 1)). clear. induction bp as [|c bp IH]; intros [|k]; cbn; intros R; try discriminate; [congruence|]. now rewrite <- IH.
Qed.

Lemma good_decode_data h time_len bp : header_small h -> time_len = 4 \/ time_len = 8 -> Z.of_nat (length bp) = DataLength h time_len -> good (decode_data h time_len bp) data_ok.
Proof.
  intros Hs T L. rewrite (DataLength_small h time_len Hs T) in L. destruct Hs as (H1 & H2 & H3 & H4 & H5 & H6). unfold decode_data.
  set (r3 := (Z.to_nat (charcnt h) + Z.to_nat (ttisstdcnt h) + Z.to_nat (ttisutcnt h))%nat). set (r2 := (6 * Z.to_nat (typecnt h) + r3)%nat). set (r1 := (Z.to_nat (timecnt h) + r2)%nat).
  eapply good_bind; [apply (good_decode_times time_len r1 T); unfold r1, r2, r3; destruct T as [->| ->]; lia|]. intros (ts & bp1) (L1 & F1 & B1). cbn [fst snd] in *.
  eapply good_bind; [apply (good_decode_indices (typecnt h) r2); unfold r1 in B1; lia|]. intros (idx & bp2) (L2 & F2 & B2). cbn [fst snd] in *.
  eapply good_bind; [apply (good_decode_types (charcnt h) r3); unfold r2 in B2; lia|]. intros (types & bp3) (L3 & F3 & B3 & C3). cbn [fst snd] in *. specialize (C3 ltac:(lia)).
  assert (Et : typecnt h = Z.of_nat (length types)) by lia. rewrite Et in F2. destruct (default_type_ok types idx ltac:(lia) F2) as (d & Ed & Hd). eapply good_bind; [apply (good_defined _ d (fun v => v = d) Ed eq_refl)|]. cbv beta. intros d' ->.
  destruct (read_in bp3 (charcnt h - 1) ltac:(unfold r3 in B3; lia)) as (nul & En & _). eapply good_bind; [apply (good_defined _ nul (fun v => v = nul) En eq_refl)|]. cbv beta. intros nul' ->. eapply good_bind; [apply good_reject|]. cbv beta. intros _ N0. zbool. subst nul.
  eapply good_bind; [apply good_advance; unfold r3 in B3; lia|]. cbv beta. intros q1 ->. rewrite H4, Z.mul_0_r. cbn [Z.to_nat]. eapply good_bind; [apply good_advance; lia|]. cbv beta. intros q2 ->. rewrite skipn_0.
  eapply good_bind; [apply good_advance; rewrite length_skipn; unfold r3 in B3; lia|]. cbv beta. intros q3 ->. eapply good_bind; [apply good_advance; rewrite !length_skipn; unfold r3 in B3; lia|]. cbv beta. intros q4 E4.
  assert (L4 : length q4 = 0%nat) by (rewrite E4, !length_skipn; unfold r3 in B3; lia). destruct q4; [|discriminate]. cbn [good data_ok]. split; [now apply (make_transitions_ok (fun t => - 2 ^ 59 <= t <= 2 ^ 59) (fun i => 0 <= i < Z.of_nat (length types)))|].
  split; [|split; [exact Hd|apply (area_nul bp3); [unfold r3 in B3; lia|exact En]]]. rewrite length_firstn, Nat.min_l by (unfold r3 in B3; lia). now rewrite Z2Nat.id by lia.
Qed.

Lemma good_read_line : forall src, good (read_line src) (fun _ => True).
Proof. induction src as [|c src IH]; cbn; [exact I|]. destruct (c =? 10); [exact I|]. destruct (read_line src) as [(s & q)| |]; cbn in *; auto. Qed.

Lemma first_half_ok l d : let l' := first_half l d in exists tr rest, l' = tr :: rest /\ unix_time tr < 0 /\ (l' = l \/ l' = mk_tr (- 2 ^ 59) d epoch epoch :: l).
Proof.
  destruct l as [|tr l]; cbn [first_half]; [eexists _, _; split; [reflexivity|]; split; [reflexivity|now right]|]. rewrite Z.geb_leb. destruct (Z.leb_spec 0 (unix_time tr)).
  - eexists _, _. split; [reflexivity|]. split; [reflexivity|now right].
  - eexists _, _. split; [reflexivity|]. split; [lia|now left].
Qed.

Lemma good_decode_zone src v : good (decode_zone src v) (fun z => loading z /\ Forall (fun tr => - 2 ^ 59 <= unix_time tr <= 2 ^ 59) (transitions_ z) /\ extended_ z = false).
Proof.
  unfold decode_zone. eapply good_bind; [apply good_read_headers|]. intros (((h & time_len) & has_spec) & src1) (Hh & T). eapply good_bind; [now apply good_check_header|]. cbv beta. intros _ Hs.
  eapply good_bind; [apply good_read_all; rewrite (DataLength_small h time_len Hs T); unfold header_small in Hs; destruct T as [->| ->]; lia|]. intros (tbuf & src2) L. cbn [fst] in L.
  eapply good_bind; [now apply good_decode_data|]. intros (((l & types) & d) & abbrs) (F & Ft & Hd & Nul). eapply (good_bind _ _ (fun _ => True)).
  { destruct has_spec; [|exact I]. destruct src2 as [|c src2]; cbn; [exact I|]. destruct (negb (c =? 10)); [exact I|]. apply good_read_line. }
  intros (spec & src3) _. cbn [good]. destruct (first_half_ok l d) as (tr & rest & E & U & C).
  assert (F' : Forall (fun tr => - 2 ^ 59 <= unix_time tr <= 2 ^ 59 /\ 0 <= type_index tr < Z.of_nat (length types)) (first_half l d)) by (destruct C as [->| ->]; [exact F|constructor; [cbn [unix_time type_index]; split; [lia|exact Hd]|exact F]]).
  split; [|split; [eapply Forall_impl; [|exact F']; now intros a (A & _)|reflexivity]]. constructor; cbn [transition_types_ abbreviations_ transitions_]; [exact Ft| |exact Nul| |eauto].
  - constructor; [exact Hd|]. cbn [transitions_]. apply Forall_map. eapply Forall_impl; [|exact F']. now intros a (_ & A).
  - eapply Forall_impl; [|exact F']. intros a (A & _). change (2 ^ 59) with 576460752303423488 in A. change (2 ^ 60) with 1152921504606846976. lia.
Qed.
End Decode.
