(* ===== verification/ZoneRule.v ===== *)
(** The rule for future transitions: the days its dates mean in each year, the transitions it gives, and the state that
    [ExtendTransitions] leaves. *)
From Stdlib Require Import ZArith Lia List Bool.
From S2P Require Import Prelude CivilTime ZoneText ZoneInfo ZoneTime ZoneLookup ZoneLoad ZoneDecode.
Import ListNotations.
#[local] Open Scope Z_scope.
#[local] Open Scope mach_scope.

Module Rule.
Import Posix Zone Civil Load Decode.

(** ** Years *)

(** The weekday of January 1, from Sunday. *)
Definition jan1_wd (y : Z) : Z := (ymd_ord y 1 1 + 4) mod 7.

Lemma jan1_weekday y : ToPosixWeekday (get_weekday (mk_fields y 1 1 0 0 0)) = jan1_wd y.
Proof.
  pose proof (get_weekday_index _ (year_start_valid y)) as W. unfold ord in W. cbn [f_y f_m f_d] in W. unfold jan1_wd.
  assert (E : ToPosixWeekday (get_weekday (mk_fields y 1 1 0 0 0)) = (weekday_index (get_weekday (mk_fields y 1 1 0 0 0)) + 1) mod 7) by (destruct (get_weekday _); reflexivity). rewrite E, W, Zplus_mod_idemp_l. f_equal. lia.
Qed.

Lemma year_length y : ymd_ord (y + 1) 1 1 = ymd_ord y 1 1 + kDaysPerYear (IsLeap y).
Proof.
  rewrite !ymd_ord_closed by lia. change (eyear (y + 1) 1) with (y + 1 - 1). change (eyear y 1) with (y - 1). change (IsLeap y) with (is_leap_year y). rewrite is_leap_year_mod. unfold kDaysPerYear, year_days.
  replace (y + 1 - 1) with y by lia. destruct (Z.eqb_spec (y mod 4) 0), (Z.eqb_spec (y mod 100) 0), (Z.eqb_spec (y mod 400) 0); cbn [andb orb negb]; zlia.
Qed.

Lemma year_start_succ y : year_start (y + 1) = year_start y + kSecsPerYear (IsLeap y).
Proof. unfold year_start, kSecsPerYear, kSecsPerDay. rewrite year_length. lia. Qed.

Lemma jan1_wd_succ y : Z.rem (jan1_wd y + kDaysPerYear (IsLeap y)) 7 = jan1_wd (y + 1).
Proof.
  unfold jan1_wd. rewrite year_length. pose proof (Z.mod_pos_bound (ymd_ord y 1 1 + 4) 7 ltac:(lia)). rewrite Z.rem_mod_nonneg by (unfold kDaysPerYear; destruct (IsLeap y); lia). rewrite Zplus_mod_idemp_l. f_equal. lia.
Qed.

Lemma leap_succ y : negb (IsLeap y) && IsLeap (y + 1) = IsLeap (y + 1).
Proof.
  destruct (IsLeap y) eqn:E; [cbn [negb andb]|reflexivity]. change IsLeap with is_leap_year in *. rewrite is_leap_year_mod in *. zbool. rewrite (proj2 (Z.eqb_neq _ _)) by zlia. reflexivity.
Qed.

Lemma jan1_wd_period y k : jan1_wd (y + 400 * k) = jan1_wd y.
Proof. unfold jan1_wd. rewrite ymd_ord_period by lia. replace (ymd_ord y 1 1 + 146097 * k + 4) with (ymd_ord y 1 1 + 4 + k * 20871 * 7) by lia. apply Z.mod_add. lia. Qed.

(** The first of a month, and the day after the last one. *)
Lemma month_start y m : 1 <= m <= 12 -> exists n, read (kMonthOffsets (IsLeap y)) m = Some n /\ (forall d, ymd_ord y m d = ymd_ord y 1 1 + n + d - 1) /\ read (kMonthOffsets (IsLeap y)) (m + 1) = Some (n + days_per_month y m) /\ 0 <= n <= 335.
Proof.
  intros M. pose proof (year_length y) as Y. assert (E : forall d, ymd_ord y m d = ymd_ord y 1 1 + (if m <=? 2 then 31 * (m - 1) else month_days m + 59 + Z.b2z (IsLeap y)) + d - 1).
  { intros d. rewrite !ymd_ord_closed in * by lia. change (eyear (y + 1) 1) with (y + 1 - 1) in Y. change (eyear y 1) with (y - 1) in *. replace (y + 1 - 1) with y in Y by lia. unfold kDaysPerYear in Y. change (month_days 1) with 306 in *. unfold eyear.
    destruct (Z.leb_spec m 2) as [L|L]; [assert (C : m = 1 \/ m = 2) by lia; destruct C as [->| ->]; [change (month_days 1) with 306|change (month_days 2) with 337]; lia|]. destruct (IsLeap y); cbn [Z.b2z]; lia. }
  unfold days_per_month. change (is_leap_year y) with (IsLeap y).
  month_cases m; destruct (IsLeap y); (eexists; repeat apply conj; [reflexivity|exact E|reflexivity|cbn; lia|cbn; lia]).
Qed.

(** ** Days *)

(** The day of the year, from 0, that a date of the rule means: the n-th day, the n-th day of a year without February
    29, or the w-th or last such weekday of a month. *)
Definition day_means (y : Z) (d : Date) (n : Z) : Prop :=
  match d with
  | N k => n = k
  | J k => exists m dd, valid_ymd y m dd /\ ymd_ord y m dd = ymd_ord y 1 1 + n /\ valid_ymd 1970 m dd /\ ymd_ord 1970 m dd = k - 1
  | M m w wd => exists dd, valid_ymd y m dd /\ ymd_ord y m dd = ymd_ord y 1 1 + n /\ (ymd_ord y m dd + 4) mod 7 = wd /\
      (if w =? 5 then days_per_month y m - 7 < dd else 7 * (w - 1) < dd <= 7 * w)
  end.

Lemma julian_day y k : 1 <= k <= 365 -> day_means y (J k) (if negb (IsLeap y) || (k <? 60) then k - 1 else k).
Proof.
  intros K. pose proof (at_valid ((k - 1) * 86400)) as V. pose proof (at_sec ((k - 1) * 86400)) as S. pose proof (proj2 (year_le_iff ((k - 1) * 86400) 1970)) as Y1. pose proof (proj1 (year_le_iff ((k - 1) * 86400) 1969)) as Y0.
  change (year_start (1970 + 1)) with 31536000 in Y1. change (year_start (1969 + 1)) with 0 in Y0. destruct (at_ ((k - 1) * 86400)) as [y0 m d hh mm ss]. destruct V as ((Hm & Hd) & H). unfold sec_ord, ord in S. cbn [f_y f_m f_d f_hh f_mm f_ss] in *.
  assert (y0 = 1970) by lia. subst y0. clear Y0 Y1. assert (E : ymd_ord 1970 m d = k - 1) by lia. exists m, d. pose proof (days_per_month_range y m Hm). destruct (month_start y m Hm) as (n & Rn & En & _ & _). destruct (month_start 1970 m Hm) as (n0 & Rn0 & En0 & _ & _).
  pose proof E as E'. rewrite En0 in E'. change (ymd_ord 1970 1 1) with 0 in E'. change (IsLeap 1970) with false in Rn0. unfold days_per_month in *. change (is_leap_year 1970) with false in Hd. change (is_leap_year y) with (IsLeap y) in *. unfold valid_ymd, days_per_month. change (is_leap_year 1970) with false. change (is_leap_year y) with (IsLeap y).
  assert (Hd2 : d <= 31 /\ (m <= 2 -> k < 60) /\ (3 <= m -> 60 <= k) /\ n = n0 + Z.b2z (IsLeap y && (3 <=? m)) /\ 1 <= d <= (nth (Z.to_nat m) k_days_per_month 0 + Z.b2z ((m =? 2) && IsLeap y))).
  { clear -Hm Hd E' Rn Rn0. revert Hd. month_cases m; injection Rn0 as <-; destruct (IsLeap y); injection Rn as <-; eval_tables; cbv [Z.b2z andb Z.leb Z.eqb Z.compare Pos.compare Pos.compare_cont Pos.eqb]; lia. }
  destruct Hd2 as (B1 & B2 & B3 & B4 & B5). split; [split; [exact Hm|exact B5]|]. split; [|split; [split; [exact Hm|exact Hd]|exact E]]. rewrite En, B4. destruct (Z.leb_spec 3 m) as [L|L], (IsLeap y); cbn [andb orb negb Z.b2z]; destruct (Z.ltb_spec k 60); lia.
Qed.

Lemma weekday_before a wd : 0 <= wd <= 6 -> (a - 1 - (a mod 7 + 7 - 1 - wd) mod 7) mod 7 = wd.
Proof. intros H. zlia. Qed.

Lemma weekday_from a wd k : 0 <= wd <= 6 -> (a + (wd + 7 - a mod 7) mod 7 + k * 7) mod 7 = wd.
Proof. intros H. rewrite Z.mod_add by lia. zlia. Qed.

Lemma week_day y m w wd : 1 <= m <= 12 -> 1 <= w <= 5 -> 0 <= wd <= 6 -> exists n, trans_day (IsLeap y) (jan1_wd y) (M m w wd) = Some n /\ day_means y (M m w wd) n.
Proof.
  intros Hm Hw Hwd. destruct (month_start y m Hm) as (n & Rn & En & Rl & Nb). pose proof (days_per_month_range y m Hm) as Dm. pose proof (Z.mod_pos_bound (ymd_ord y 1 1 + 4) 7 ltac:(lia)) as Jb. fold (jan1_wd y) in Jb.
  cbn [trans_day day_means]. unfold valid_ymd. assert (Jm : forall a, (jan1_wd y + a) mod 7 = (ymd_ord y 1 1 + a + 4) mod 7) by (intros a; unfold jan1_wd; rewrite Zplus_mod_idemp_l; f_equal; lia).
  destruct (Z.eqb_spec w 5) as [->|Nw]; cbn [Z.b2z].
  - rewrite Rl. cbn [obind]. rewrite (Z.rem_mod_nonneg (jan1_wd y + _)) by lia. set (f := (jan1_wd y + (n + days_per_month y m)) mod 7).
    assert (Fb : 0 <= f < 7) by (apply Z.mod_pos_bound; lia). rewrite Z.rem_mod_nonneg by lia. set (g := (f + 7 - 1 - wd) mod 7). assert (Gb : 0 <= g < 7) by (apply Z.mod_pos_bound; lia). eexists. split; [reflexivity|].
    exists (days_per_month y m - g). rewrite En. split; [lia|]. split; [lia|]. split; [|lia]. rewrite <- (weekday_before (ymd_ord y 1 1 + (n + days_per_month y m) + 4) wd Hwd) at 1. unfold g, f. rewrite Jm. f_equal. lia.
  - rewrite Z.add_0_r, Rn. cbn [obind]. rewrite (Z.rem_mod_nonneg (jan1_wd y + _)) by lia. set (f := (jan1_wd y + n) mod 7). assert (Fb : 0 <= f < 7) by (apply Z.mod_pos_bound; lia). rewrite Z.rem_mod_nonneg by lia.
    set (g := (wd + 7 - f) mod 7). assert (Gb : 0 <= g < 7) by (apply Z.mod_pos_bound; lia). eexists. split; [reflexivity|]. exists (g + (w - 1) * 7 + 1). rewrite En. split; [lia|]. split; [lia|]. split; [|lia]. rewrite <- (weekday_from (ymd_ord y 1 1 + n + 4) wd (w - 1) Hwd). unfold g, f. rewrite Jm. f_equal. lia.
Qed.

Lemma trans_day_means y d : date_ok d -> exists n, trans_day (IsLeap y) (jan1_wd y) d = Some n /\ day_means y d n /\ 0 <= n <= 366.
Proof.
  destruct d as [k|k|m w wd]; intros D; cbn [date_ok] in D.
  - eexists. split; [reflexivity|]. split; [now apply julian_day|]. destruct (negb (IsLeap y) || (k <? 60)); lia.
  - exists k. repeat split; lia.
  - destruct D as (Hm & Hw & Hd). destruct (week_day y m w wd Hm Hw Hd) as (n & E & (dd & V & Eo & R)). exists n. split; [exact E|]. split; [now exists dd|].
    destruct (month_start y m Hm) as (n0 & _ & En & _ & Nb). pose proof (days_per_month_range y m Hm). rewrite En in Eo. destruct V as (_ & V). lia.
Qed.

(** ** The transitions of the rule *)
Definition rule_day (pt : PosixTransition) (y : Z) : Z := match trans_day (IsLeap y) (jan1_wd y) (date pt) with Some n => n | None => 0 end.

(** When daylight time begins and ends in a year. *)
Definition rule_instant (posix : PosixTimeZone) (dst : bool) (y : Z) : Z :=
  if dst then year_start y + rule_day (dst_start posix) y * 86400 + time_offset (dst_start posix) - std_offset posix
  else year_start y + rule_day (dst_end posix) y * 86400 + time_offset (dst_end posix) - dst_offset posix.

Definition rule_pair (posix : PosixTimeZone) (std_ti dst_ti y : Z) : Transition * Transition :=
  let dst := mk_tr (rule_instant posix true y) dst_ti epoch epoch in
  let std := mk_tr (rule_instant posix false y) std_ti epoch epoch in
  if rule_instant posix true y <? rule_instant posix false y then (dst, std) else (std, dst).

(** Those of [n] years from [y] that come after the last transition of the file. *)
Fixpoint rule_list (posix : PosixTimeZone) (std_ti dst_ti last_time : Z) (n : nat) (y : Z) : list Transition :=
  match n with
  | O => []
  | S n =>
    let p := rule_pair posix std_ti dst_ti y in
    filter (fun tr => last_time <? unix_time tr) [fst p; snd p] ++ rule_list posix std_ti dst_ti last_time n (y + 1)
  end.

Section Rule.
Context (posix : PosixTimeZone) (Ok1 : std_ok (std_abbr posix) (std_offset posix)) (Ok2 : dst_ok posix).

Lemma offsets_small : - 100000 < std_offset posix < 100000 /\ - 100000 < dst_offset posix < 100000.
Proof. destruct Ok1 as (_ & _ & A). destruct Ok2 as (_ & B & _). unfold offset_ok in *. lia. Qed.

(** The instants of a year are at most a few days away from it. *)
Lemma rule_instant_near dst y : year_start y - 900000 <= rule_instant posix dst y <= year_start (y + 1) + 900000.
Proof.
  destruct offsets_small as (A & B). destruct Ok2 as (_ & _ & (D1 & T1) & (D2 & T2)). destruct (trans_day_means y _ D1) as (n1 & E1 & _ & N1). destruct (trans_day_means y _ D2) as (n2 & E2 & _ & N2).
  rewrite year_start_succ. unfold rule_instant, rule_day, kSecsPerYear, kSecsPerDay, kDaysPerYear. rewrite E1, E2. unfold offset_ok in *. destruct dst, (IsLeap y); lia.
Qed.

Lemma year_transitions_ok std_ti dst_ti y : - 2 ^ 62 <= year_start y <= 2 ^ 62 ->
  year_transitions posix std_ti dst_ti (IsLeap y) (year_start y) (jan1_wd y) = Some (rule_pair posix std_ti dst_ti y).
Proof.
  intros R. change (2 ^ 62) with 4611686018427387904 in R. destruct offsets_small as (A & B). destruct Ok2 as (_ & _ & (D1 & T1) & (D2 & T2)). destruct (trans_day_means y _ D1) as (n1 & E1 & _ & N1). destruct (trans_day_means y _ D2) as (n2 & E2 & _ & N2).
  unfold year_transitions, TransOffset, rule_pair, rule_instant, rule_day. rewrite E1, E2. cbn [obind]. change kSecsPerDay with 86400. unfold offset_ok, s64 in *.
  repeat (rewrite checked_in by (rewrite in_s64_iff; lia); cbn [obind]). rewrite !Z.add_assoc. match goal with |- context [?a <? ?b] => destruct (a <? b) end; reflexivity.
Qed.

Lemma push_year_filter last_time l std_ti dst_ti y : let p := rule_pair posix std_ti dst_ti y in
  push_year last_time l (fst p) (snd p) = l ++ filter (fun tr => last_time <? unix_time tr) [fst p; snd p].
Proof.
  unfold rule_pair. set (a := rule_instant posix true y). set (b := rule_instant posix false y). unfold push_year. destruct (Z.ltb_spec a b); cbn [fst snd unix_time filter].
  - destruct (Z.ltb_spec last_time b), (Z.ltb_spec last_time a); try lia; cbn [app]; rewrite ?app_nil_r, <- ?app_assoc; reflexivity.
  - destruct (Z.ltb_spec last_time b), (Z.ltb_spec last_time a); try lia; cbn [app]; rewrite ?app_nil_r, <- ?app_assoc; reflexivity.
Qed.

Lemma extend_loop_ok std_ti dst_ti last_time : forall n y l, 0 <= y -> y + Z.of_nat n <= 2 ^ 36 ->
  extend_loop (S n) posix std_ti dst_ti last_time (y + Z.of_nat n) y (IsLeap y) (year_start y) (jan1_wd y) l = Some (l ++ rule_list posix std_ti dst_ti last_time (S n) y, y + Z.of_nat n).
Proof.
  induction n as [|n IH]; intros y l Y L; change (2 ^ 36) with 68719476736 in L; pose proof (year_start_range y ltac:(change (2 ^ 36) with 68719476736; lia)) as R; change (2 ^ 61) with 2305843009213693952 in R.
  - cbn [extend_loop]. rewrite year_transitions_ok by (change (2 ^ 62) with 4611686018427387904; lia). cbn [obind]. rewrite push_year_filter. change (Z.of_nat 0) with 0. rewrite Z.add_0_r, Z.eqb_refl. cbn [rule_list]. now rewrite app_nil_r.
  - remember (S n) as m. cbn [extend_loop]. rewrite year_transitions_ok by (change (2 ^ 62) with 4611686018427387904; lia). cbn [obind]. rewrite push_year_filter. rewrite (proj2 (Z.eqb_neq _ _)) by lia.
    rewrite <- year_start_succ, jan1_wd_succ, leap_succ. pose proof (year_start_range (y + 1) ltac:(change (2 ^ 36) with 68719476736; lia)) as R1. change (2 ^ 61) with 2305843009213693952 in R1. unfold s64. rewrite checked_in by (rewrite in_s64_iff; lia). cbn [obind]. subst m.
    replace (y + Z.of_nat (S n)) with (y + 1 + Z.of_nat n) by lia. rewrite IH by (change (2 ^ 36) with 68719476736; lia). f_equal. f_equal. cbn [rule_list]. now rewrite <- app_assoc.
Qed.
End Rule.
End Rule.
