(* ===== verification/ZoneExtend.v ===== *)
(** From decoded data to a zone that lookups can use: the types and transitions that the rule adds, the civil times of
    the transitions, and the invariant of every zone that loads. *)
From Stdlib Require Import ZArith Lia List Bool.
From S2P Require Import Prelude CivilTime ZoneText ZoneInfo ZoneTime ZoneLookup ZoneLoad ZoneDecode ZoneRule.
Import ListNotations.
#[local] Open Scope Z_scope.
#[local] Open Scope mach_scope.

Module Extend.
Import Posix Zone Civil Load Decode Rule.

(** ** Abbreviations *)
Lemma abbr_at_some s i : 0 <= i <= Z.of_nat (length s) -> abbr_at s i = Some (until_nul (skipn (Z.to_nat i) s)).
Proof. intros H. unfold abbr_at. now rewrite !(proj2 (Z.leb_le _ _)) by lia. Qed.

Lemma until_nul_app s : In 0 s -> forall x, until_nul (s ++ x) = until_nul s.
Proof. induction s as [|c s IH]; intros H x; [destruct H|]. cbn. destruct (Z.eqb_spec c 0); [reflexivity|]. rewrite IH; [reflexivity|]. destruct H; [congruence|assumption]. Qed.

Lemma until_nul_text s : forallb (fun c => negb (c =? 0)) s = true -> until_nul (s ++ [0]) = s.
Proof. induction s as [|c s IH]; cbn; [reflexivity|]. intros H. zbool. rewrite (proj2 (Z.eqb_neq _ _)) by assumption. now rewrite IH. Qed.

(** What is appended after the last NUL changes no abbreviation. *)
Lemma abbr_at_app s x i : (exists q, s = q ++ [0]) -> 0 <= i < Z.of_nat (length s) -> abbr_at (s ++ x) i = abbr_at s i.
Proof.
  intros (q & ->) H. rewrite length_app in H. cbn [length] in H. rewrite !abbr_at_some by (rewrite !length_app; cbn [length]; lia). f_equal.
  rewrite !skipn_app. rewrite length_app. cbn [length]. replace (Z.to_nat i - (length q + 1))%nat with 0%nat by lia. replace (Z.to_nat i - length q)%nat with 0%nat by lia. cbn [skipn]. apply until_nul_app. apply in_or_app. right. now left.
Qed.

Lemma abbr_no_nul a : abbr_ok a -> forallb (fun c => negb (c =? 0)) a = true /\ a <> [].
Proof.
  intros [H|(L & H & _)].
  - unfold quotable in H. apply andb_true_iff in H as (N & F). split; [|now destruct a]. eapply forallb_forall. intros c Hc. rewrite forallb_forall in F. specialize (F c Hc). unfold quoted_char in F. now destruct (c =? 0).
  - split; [|now destruct a]. eapply forallb_forall. intros c Hc. rewrite forallb_forall in H. specialize (H c Hc). unfold plain_char in H. now destruct (c =? 0).
Qed.

(** Type [k] has these attributes. *)
Definition type_is (types : list TransitionType) (abbrs : list Z) (k off : Z) (dst : bool) (abbr : list Z) : Prop :=
  exists ty, read types k = Some ty /\ utc_offset ty = off /\ is_dst ty = dst /\ abbr_at abbrs (abbr_index ty) = Some abbr.

Lemma find_type_ok abbrs off dst abbr : forall types i abbr_i, Forall (raw_type_ok (Z.of_nat (length abbrs))) types ->
  (abbr_i = Z.of_nat (length abbrs) \/ (0 <= abbr_i < Z.of_nat (length abbrs) /\ abbr_at abbrs abbr_i = Some abbr)) ->
  exists k a, find_type types abbrs off dst abbr i abbr_i = Some (k, a) /\ i <= k <= i + Z.of_nat (length types) /\
    (a = Z.of_nat (length abbrs) \/ (0 <= a < Z.of_nat (length abbrs) /\ abbr_at abbrs a = Some abbr)) /\
    (k < i + Z.of_nat (length types) -> type_is types abbrs (k - i) off dst abbr).
Proof.
  induction types as [|ty types IH]; intros i abbr_i F A; cbn [find_type length]; [exists i, abbr_i; repeat split; try assumption; lia|]. inversion F as [|? ? (Ho & Ha) F']; subst. rewrite abbr_at_some by lia. cbn [obind]. set (s := until_nul _).
  set (a' := if list_eqb s abbr then abbr_index ty else abbr_i). assert (A' : a' = Z.of_nat (length abbrs) \/ (0 <= a' < Z.of_nat (length abbrs) /\ abbr_at abbrs a' = Some abbr)).
  { unfold a'. destruct (list_eqb s abbr) eqn:E; [right|exact A]. split; [exact Ha|]. rewrite abbr_at_some by lia. fold s. f_equal. now apply list_eqb_eq. }
  destruct ((utc_offset ty =? off) && Bool.eqb (is_dst ty) dst && (a' =? abbr_index ty)) eqn:E.
  - zbool. exists i, a'. split; [reflexivity|]. split; [lia|]. split; [exact A'|]. intros _. exists ty. rewrite Z.sub_diag. split; [reflexivity|]. split; [assumption|]. split; [now apply eqb_prop|]. destruct A' as [A'|(_ & A')]; [lia|]. congruence.
  - destruct (IH (i + 1) a' F' A') as (k & a & Ek & K & Ha' & T). exists k, a. split; [exact Ek|]. split; [lia|]. split; [exact Ha'|]. intros L. destruct (T ltac:(lia)) as (t & Rt & Q). exists t. split; [|exact Q].
    unfold read in *. destruct (Z.leb_spec 0 (k - (i + 1))); [|discriminate]. rewrite (proj2 (Z.leb_le _ _)) by lia. now replace (Z.to_nat (k - i)) with (S (Z.to_nat (k - (i + 1)))) by lia.
Qed.

(** The types and abbreviations after a request: more of them, none changed. *)
Definition grown (types types' : list TransitionType) (abbrs abbrs' : list Z) : Prop :=
  (exists x, types' = types ++ x) /\ (exists x, abbrs' = abbrs ++ x) /\ Forall (raw_type_ok (Z.of_nat (length abbrs'))) types' /\ exists q, abbrs' = q ++ [0].

Lemma raw_type_weaken a b ty : a <= b -> raw_type_ok a ty -> raw_type_ok b ty.
Proof. intros L (A & B). split; [exact A|lia]. Qed.

Lemma good_GetTransitionType types abbrs off dst abbr : Forall (raw_type_ok (Z.of_nat (length abbrs))) types -> (exists q, abbrs = q ++ [0]) -> - 100000 < off < 100000 -> abbr_ok abbr ->
  good (GetTransitionType types abbrs off dst abbr) (fun r => let '(types', abbrs', k) := r in grown types types' abbrs abbrs' /\ type_is types' abbrs' k off dst abbr).
Proof.
  intros F Nul Ho Ha. unfold GetTransitionType. destruct (find_type_ok abbrs off dst abbr types 0 _ F (or_introl eq_refl)) as (k & a & E & K & A & T). eapply good_bind; [apply (good_defined _ (k, a) (fun v => v = (k, a)) E eq_refl)|]. cbv beta. intros ? ->.
  eapply good_bind; [apply good_reject|]. cbv beta. intros _ R. destruct (Z.eqb_spec k (Z.of_nat (length types))) as [->|N]; cbn [good].
  - destruct (abbr_no_nul abbr Ha) as (Nz & _). set (abbrs' := if a =? Z.of_nat (length abbrs) then abbrs ++ abbr ++ [0] else abbrs).
    assert (Q : (exists x, abbrs' = abbrs ++ x) /\ (exists q, abbrs' = q ++ [0]) /\ 0 <= a < Z.of_nat (length abbrs') /\ abbr_at abbrs' a = Some abbr).
    { unfold abbrs'. destruct (Z.eqb_spec a (Z.of_nat (length abbrs))) as [->|Na].
      - split; [eauto|]. split; [exists (abbrs ++ abbr); now rewrite app_assoc|]. rewrite !length_app. cbn [length]. split; [lia|]. rewrite abbr_at_some by (rewrite !length_app; cbn [length]; lia). rewrite Nat2Z.id, skipn_app, skipn_all, Nat.sub_diag. cbn [skipn app]. f_equal. now apply until_nul_text.
      - destruct A as [A|(A1 & A2)]; [congruence|]. split; [exists []; now rewrite app_nil_r|]. auto. }
    destruct Q as ((x & Ex) & Nul' & Ra & Ea). split.
    + split; [eauto|]. split; [eauto|]. split; [|exact Nul']. apply Forall_app. split; [|constructor; [split; [exact Ho|exact Ra]|constructor]]. eapply Forall_impl; [|exact F]. intros ty. apply raw_type_weaken. rewrite Ex, length_app. lia.
    + eexists. split; [unfold read; rewrite (proj2 (Z.leb_le _ _)) by lia; rewrite Nat2Z.id, nth_error_app2, Nat.sub_diag by lia; reflexivity|]. now repeat split.
  - split; [|rewrite Z.sub_0_r in T; apply T; lia]. split; [exists []; now rewrite app_nil_r|]. split; [exists []; now rewrite app_nil_r|]. now split.
Qed.

Lemma type_is_grown types types' abbrs abbrs' k off dst abbr : grown types types' abbrs abbrs' -> Forall (raw_type_ok (Z.of_nat (length abbrs))) types -> (exists q, abbrs = q ++ [0]) ->
  type_is types abbrs k off dst abbr -> type_is types' abbrs' k off dst abbr.
Proof.
  intros ((x & ->) & (y & ->) & _) F Nul (ty & R & Eo & Ed & Ea). exists ty. unfold read in *. destruct (0 <=? k); [|discriminate]. pose proof (nth_error_In _ _ R) as In. split; [rewrite nth_error_app1; [exact R|apply nth_error_Some; congruence]|]. split; [exact Eo|]. split; [exact Ed|].
  rewrite abbr_at_app; [exact Ea|exact Nul|]. rewrite Forall_forall in F. now destruct (F ty In).
Qed.

Lemma type_is_range types abbrs k off dst abbr : type_is types abbrs k off dst abbr -> 0 <= k < Z.of_nat (length types).
Proof. intros (ty & R & _). unfold read in R. destruct (Z.leb_spec 0 k); [|discriminate]. assert (Z.to_nat k < length types)%nat by (apply nth_error_Some; congruence). lia. Qed.

(** ** Extending a zone *)
Definition key (tr : Transition) : Z * Z := (unix_time tr, type_index tr).

(** A zone whose transitions are those of the file, the last at [last_time] in the year [y0], and then those of its rule. *)
Record extended_by (z : TimeZoneInfo) (posix : PosixTimeZone) (std_ti dst_ti : Z) (l0 : list Transition) (last_time y0 : Z) : Prop := mk_extended {
  eb_spec : ParsePosixSpec (future_spec_ z) blank_rule = Some (Some posix);
  eb_std_ok : std_ok (std_abbr posix) (std_offset posix);
  eb_dst_ok : dst_ok posix;
  eb_std : type_is (transition_types_ z) (abbreviations_ z) std_ti (std_offset posix) false (std_abbr posix);
  eb_dst : type_is (transition_types_ z) (abbreviations_ z) dst_ti (dst_offset posix) true (dst_abbr posix);
  eb_list : map key (transitions_ z) = map key (l0 ++ rule_list posix std_ti dst_ti last_time 402 y0);
  eb_last : exists l1 tr, l0 = l1 ++ [tr] /\ unix_time tr = last_time;
  eb_nonneg : 0 <= last_time;
  eb_year : 1969 <= y0 <= 2 ^ 35;
  eb_near : year_start y0 - 100000 < last_time < year_start (y0 + 1) + 100000;
  eb_limit : last_year_ z = y0 + 401
}.

Lemma last_split {A} (l : list A) a : l <> [] -> nth_error l (length l - 1) = Some a -> exists l1, l = l1 ++ [a].
Proof.
  intros N. destruct (exists_last N) as (l1 & x & ->). rewrite length_app. cbn [length]. replace (length l1 + 1 - 1)%nat with (length l1) by lia. rewrite nth_error_app2, Nat.sub_diag by lia. cbn. intros [= <-]. eauto.
Qed.

Lemma last_nth {A} (l : list A) a : nth_error (l ++ [a]) (length (l ++ [a]) - 1) = Some a.
Proof. rewrite length_app. cbn [length]. replace (length l + 1 - 1)%nat with (length l) by lia. now rewrite nth_error_app2, Nat.sub_diag by lia. Qed.

(** The year of the last transition. *)
Lemma last_year_range t off : 0 <= t <= 2 ^ 59 -> - 100000 < off < 100000 -> let y := f_y (at_ (t + off)) in 1969 <= y <= 2 ^ 35 /\ year_start y - 100000 < t < year_start (y + 1) + 100000.
Proof.
  intros T O y. pose proof (proj1 (year_le_iff (t + off) y) ltac:(lia)) as A. pose proof (proj2 (year_le_iff (t + off) (y - 1))) as B. replace (y - 1 + 1) with y in B by lia. pose proof (proj1 (year_le_iff (t + off) 1968)) as C. change (year_start (1968 + 1)) with (-31536000) in C.
  assert (L : 1969 <= y) by (fold y in C; lia). change (2 ^ 59) with 576460752303423488 in T. pose proof (year_of_sec _ (at_valid (t + off))) as D. rewrite at_sec in D. fold y in D. change (2 ^ 35) with 34359738368. fold y in B. split; [lia|]. destruct (Z.lt_ge_cases (t + off) (year_start y)); lia.
Qed.

Lemma extend_years_ok z posix std_ti dst_ti l1 last : loading z -> std_ok (std_abbr posix) (std_offset posix) -> dst_ok posix -> transitions_ z = l1 ++ [last] -> 0 <= unix_time last <= 2 ^ 59 ->
  exists y0, 1969 <= y0 <= 2 ^ 35 /\ year_start y0 - 100000 < unix_time last < year_start (y0 + 1) + 100000 /\
    extend_years z posix std_ti dst_ti = Some (with_transitions z (transitions_ z ++ rule_list posix std_ti dst_ti (unix_time last) 402 y0) true (y0 + 401)).
Proof.
  intros Ld Os Od El T. assert (K : 0 <= type_index last < Z.of_nat (length (transition_types_ z))).
  { apply (proj1 (Forall_forall _ _) (ld_kinds z Ld)). right. apply in_map. rewrite El. apply in_or_app. right. now left. }
  destruct (read_in _ _ K) as (ty & Rt & In). pose proof (proj1 (Forall_forall _ _) (ld_types z Ld) ty In) as (Ho & Ha). destruct (last_year_range (unix_time last) (utc_offset ty) T Ho) as (Y & N). set (y0 := f_y (at_ (unix_time last + utc_offset ty))) in *. exists y0. split; [exact Y|]. split; [exact N|].
  unfold extend_years. rewrite El at 1 2. rewrite last_nth. cbn [obind]. rewrite Rt. cbn [obind]. unfold LocalTime_type. rewrite abbr_at_some by lia. cbn [obind al_cs]. change (cs_add epoch (unix_time last)) with (at_ (unix_time last)). rewrite at_add. fold y0.
  change (ct_f (make_civil second_tag y0 1 1 0 0 0)) with (mk_fields y0 1 1 0 0 0). change (2 ^ 35) with 34359738368 in Y. pose proof (year_start_range y0 ltac:(change (2 ^ 36) with 68719476736; lia)) as R. change (2 ^ 61) with 2305843009213693952 in R.
  assert (D : cs_diff (mk_fields y0 1 1 0 0 0) epoch = Some (year_start y0)). { rewrite <- year_start_at. change epoch with (at_ 0). rewrite at_diff; [f_equal; lia|apply at_year_range; change (2 ^ 70) with 1180591620717411303424; lia..|rewrite in_s64_iff; lia]. }
  rewrite D. cbn [obind]. rewrite jan1_weekday. change (y0 + 401) with (y0 + Z.of_nat 401). rewrite (extend_loop_ok posix Os Od std_ti dst_ti (unix_time last) 401 y0) by (change (2 ^ 36) with 68719476736; lia). reflexivity.
Qed.

Lemma rule_list_range posix std_ti dst_ti last_time : std_ok (std_abbr posix) (std_offset posix) -> dst_ok posix -> 0 <= last_time -> forall n y, 0 <= y -> y + Z.of_nat n <= 2 ^ 36 ->
  Forall (fun tr => 0 <= unix_time tr <= year_start (y + Z.of_nat n) + 900000 /\ (type_index tr = std_ti \/ type_index tr = dst_ti)) (rule_list posix std_ti dst_ti last_time n y).
Proof.
  intros Os Od T. induction n as [|n IH]; intros y Y L; cbn [rule_list]; [constructor|]. apply Forall_app. split.
  - assert (Hi : forall d, rule_instant posix d y <= year_start (y + Z.of_nat (S n)) + 900000).
    { intros d. pose proof (rule_instant_near posix Os Od d y) as R. assert (year_start (y + 1) <= year_start (y + Z.of_nat (S n))); [|lia]. clear -Y. replace (y + Z.of_nat (S n)) with (y + 1 + Z.of_nat n) by lia. induction n as [|n IH]; [replace (y + 1 + Z.of_nat 0) with (y + 1) by lia; lia|].
      replace (y + 1 + Z.of_nat (S n)) with (y + 1 + Z.of_nat n + 1) by lia. rewrite (year_start_succ (y + 1 + Z.of_nat n)). unfold kSecsPerYear, kDaysPerYear, kSecsPerDay. destruct (IsLeap _); lia. }
    apply Forall_forall. intros tr In. apply filter_In in In as (In & B). zbool. unfold rule_pair in In. destruct (rule_instant posix true y <? rule_instant posix false y); cbn [fst snd] in In; destruct In as [<-|[<-|[]]]; cbn [unix_time type_index] in *; (split; [split; [lia|apply Hi]|auto]).
  - specialize (IH (y + 1) ltac:(lia) ltac:(lia)). eapply Forall_impl; [|exact IH]. intros tr. replace (y + 1 + Z.of_nat n) with (y + Z.of_nat (S n)) by lia. auto.
Qed.

Lemma with_types_loading z types abbrs k : loading z -> grown (transition_types_ z) types (abbreviations_ z) abbrs -> loading (with_types z (types, abbrs, k)).
Proof.
  intros Ld ((x & ->) & _ & F & Nul). constructor; cbn [with_types transition_types_ abbreviations_ transitions_]; [exact F| |exact Nul|apply (ld_times z Ld)|apply (ld_first z Ld)].
  eapply Forall_impl; [|exact (ld_kinds z Ld)]. cbv beta. intros a A. rewrite length_app. lia.
Qed.

Lemma equiv_defined types a b : 0 <= a < Z.of_nat (length types) -> 0 <= b < Z.of_nat (length types) -> exists r, EquivTransitions types a b = Some r.
Proof. intros A B. unfold EquivTransitions. destruct (a =? b); [eauto|]. destruct (read_in types a A) as (x & -> & _). destruct (read_in types b B) as (y & -> & _). cbn. eauto. Qed.

(** What [ExtendTransitions] leaves: the zone as it was but for types, or the zone with the transitions of its rule. *)
Definition extension (z z' : TimeZoneInfo) : Prop :=
  loading z' /\ ((extended_ z' = false /\ transitions_ z' = transitions_ z) \/
    (extended_ z' = true /\ exists posix std_ti dst_ti last_time y0, extended_by z' posix std_ti dst_ti (transitions_ z) last_time y0)).

Lemma extend_years_loading z posix std_ti dst_ti y0 last_time : loading z -> std_ok (std_abbr posix) (std_offset posix) -> dst_ok posix -> 0 <= last_time -> 1969 <= y0 <= 2 ^ 35 ->
  0 <= std_ti < Z.of_nat (length (transition_types_ z)) -> 0 <= dst_ti < Z.of_nat (length (transition_types_ z)) ->
  loading (with_transitions z (transitions_ z ++ rule_list posix std_ti dst_ti last_time 402 y0) true (y0 + 401)).
Proof.
  intros Ld Os Od T Y Hs Hd. change (2 ^ 35) with 34359738368 in Y. pose proof (rule_list_range posix std_ti dst_ti last_time Os Od T 402 y0 ltac:(lia) ltac:(change (2 ^ 36) with 68719476736; lia)) as R.
  pose proof (year_start_range (y0 + Z.of_nat 402) ltac:(change (2 ^ 36) with 68719476736; lia)) as Yr.
  assert (Yb : year_start (y0 + Z.of_nat 402) <= 1152921504600000000). { unfold year_start. rewrite ymd_ord_closed by lia. change (eyear (y0 + Z.of_nat 402) 1) with (y0 + Z.of_nat 402 - 1). change (month_days 1) with 306. unfold year_days. clear -Y. zlia. }
  constructor; cbn [with_transitions transition_types_ abbreviations_ transitions_]; [apply (ld_types z Ld)| |apply (ld_nul z Ld)| |].
  - pose proof (ld_kinds z Ld) as K. unfold Lookup.kinds in *. cbn [default_transition_type_ transitions_ with_transitions]. inversion K as [|? ? K1 K2]; subst. constructor; [exact K1|]. rewrite map_app. apply Forall_app. split; [exact K2|]. apply Forall_map. eapply Forall_impl; [|exact R]. intros tr (_ & [->| ->]); assumption.
  - apply Forall_app. split; [exact (ld_times z Ld)|]. eapply Forall_impl; [|exact R]. cbv beta. intros tr (A & _). change (2 ^ 60) with 1152921504606846976. lia.
  - destruct (ld_first z Ld) as (tr & l & -> & U). exists tr, (l ++ rule_list posix std_ti dst_ti last_time 402 y0). now split.
Qed.

Lemma last_some z : loading z -> exists l1 last, transitions_ z = l1 ++ [last] /\ nth_error (transitions_ z) (length (transitions_ z) - 1) = Some last /\ 0 <= type_index last < Z.of_nat (length (transition_types_ z)).
Proof.
  intros Ld. destruct (ld_first z Ld) as (tr & l & E & _). destruct (@exists_last _ (transitions_ z)) as (l1 & last & El); [rewrite E; discriminate|]. exists l1, last. split; [exact El|]. split; [rewrite El; apply last_nth|].
  apply (proj1 (Forall_forall _ _) (ld_kinds z Ld)). right. apply in_map. rewrite El. apply in_or_app. right. now left.
Qed.

Lemma good_ExtendTransitions z : loading z -> Forall (fun tr => - 2 ^ 59 <= unix_time tr <= 2 ^ 59) (transitions_ z) -> good (ExtendTransitions z) (extension z).
Proof.
  intros Ld0 Ft. unfold ExtendTransitions. set (z1 := with_transitions z (transitions_ z) false (last_year_ z)). assert (Ld : loading z1) by (constructor; apply Ld0). assert (Et : transitions_ z1 = transitions_ z) by reflexivity.
  destruct (future_spec_ z1) as [|c0 spec0] eqn:Es; [cbn [good]; split; [exact Ld|now left]|]. rewrite <- Es. destruct (ParsePosixSpec_safe (future_spec_ z1) blank_rule) as (r & Er & Hr).
  eapply good_bind; [apply (good_defined _ r (fun v => v = r) Er eq_refl)|]. cbv beta. intros ? ->. destruct r as [posix|]; [|exact I]. destruct (Hr posix eq_refl) as (Os & Od). clear Hr.
  assert (Ho : - 100000 < std_offset posix < 100000) by (destruct Os as (_ & _ & A); unfold offset_ok in A; lia).
  eapply good_bind; [apply good_GetTransitionType; [apply (ld_types z1 Ld)|apply (ld_nul z1 Ld)|exact Ho|apply Os]|]. intros ((types2 & abbrs2) & std_ti) (G2 & T2). cbn [snd]. set (z2 := with_types z1 (types2, abbrs2, std_ti)). assert (Ld2 : loading z2) by now apply with_types_loading.
  destruct (last_some z2 Ld2) as (l1 & last & El & En & Kl). eapply good_bind; [apply (good_defined _ last (fun v => v = last) En eq_refl)|]. cbv beta. intros ? ->. destruct (dst_abbr posix) as [|c1 abbr1] eqn:Eda.
  - destruct (equiv_defined (transition_types_ z2) (type_index last) std_ti Kl (type_is_range _ _ _ _ _ _ T2)) as (b & Eb). eapply good_bind; [apply (good_defined _ b (fun _ => True) Eb I)|]. intros b' _. eapply good_bind; [apply good_reject|]. intros _ _. cbn [good]. split; [exact Ld2|now left].
  - rewrite <- Eda. assert (Od' : dst_ok posix) by (destruct Od as [Od|Od]; [rewrite Od in Eda; discriminate|exact Od]). destruct (offsets_small posix Os Od') as (_ & Ho2).
    eapply good_bind; [apply good_GetTransitionType; [apply (ld_types z2 Ld2)|apply (ld_nul z2 Ld2)|exact Ho2|apply Od']|]. intros ((types3 & abbrs3) & dst_ti) (G3 & T3). cbn [snd]. set (z3 := with_types z2 (types3, abbrs3, dst_ti)). assert (Ld3 : loading z3) by now apply with_types_loading.
    assert (T2' : type_is types3 abbrs3 std_ti (std_offset posix) false (std_abbr posix)) by (eapply type_is_grown; [exact G3|apply (ld_types z2 Ld2)|apply (ld_nul z2 Ld2)|exact T2]).
    destruct (AllYearDST posix).
    + destruct (equiv_defined (transition_types_ z3) (type_index last) dst_ti) as (b & Eb); [destruct G3 as ((x & Ex) & _); cbn [z3 with_types transition_types_]; rewrite Ex, length_app; lia|exact (type_is_range _ _ _ _ _ _ T3)|].
      eapply good_bind; [apply (good_defined _ b (fun _ => True) Eb I)|]. intros b' _. eapply good_bind; [apply good_reject|]. intros _ _. cbn [good]. split; [exact Ld3|now left].
    + eapply good_bind; [apply good_reject|]. cbv beta. intros _ U. zbool. assert (Ul : - 2 ^ 59 <= unix_time last <= 2 ^ 59) by (apply (proj1 (Forall_forall _ _) Ft); rewrite <- Et; change (transitions_ z1) with (transitions_ z2); rewrite El; apply in_or_app; right; now left).
      destruct (extend_years_ok z3 posix std_ti dst_ti l1 last Ld3 Os Od' El ltac:(lia)) as (y0 & Y0 & N0 & E0). rewrite E0. cbn [defined good]. split.
      * apply extend_years_loading; try assumption; [exact (type_is_range _ _ _ _ _ _ T2')|exact (type_is_range _ _ _ _ _ _ T3)].
      * right. split; [reflexivity|]. exists posix, std_ti, dst_ti, (unix_time last), y0. constructor; cbn [with_transitions future_spec_ transition_types_ abbreviations_ transitions_ last_year_]; auto. exists l1, last. split; [exact El|reflexivity].
Qed.

(** ** The end of the table *)
Lemma year_start_mono a b : a <= b -> year_start a <= year_start b.
Proof.
  intros L. replace b with (a + Z.of_nat (Z.to_nat (b - a))) by lia. induction (Z.to_nat (b - a)) as [|n IH]; [replace (a + Z.of_nat 0) with a by lia; lia|].
  replace (a + Z.of_nat (S n)) with (a + Z.of_nat n + 1) by lia. rewrite (year_start_succ (a + Z.of_nat n)). unfold kSecsPerYear, kDaysPerYear, kSecsPerDay. destruct (IsLeap _); lia.
Qed.

Definition rule_max (posix : PosixTimeZone) (y : Z) : Z := Z.max (rule_instant posix true y) (rule_instant posix false y).

Lemma rule_list_last posix std_ti dst_ti last_time : forall n y, last_time < rule_max posix (y + Z.of_nat n) -> exists l tr, rule_list posix std_ti dst_ti last_time (S n) y = l ++ [tr] /\ unix_time tr = rule_max posix (y + Z.of_nat n).
Proof.
  induction n as [|n IH]; intros y H.
  - change (Z.of_nat 0) with 0 in *. rewrite Z.add_0_r in *. cbn [rule_list]. rewrite app_nil_r. unfold rule_pair, rule_max in *. destruct (Z.ltb_spec (rule_instant posix true y) (rule_instant posix false y)); cbn [fst snd filter unix_time].
    + rewrite (proj2 (Z.ltb_lt last_time (rule_instant posix false y))) by lia. destruct (last_time <? _); [exists [mk_tr (rule_instant posix true y) dst_ti epoch epoch]|exists []]; eexists; (split; [reflexivity|cbn [unix_time]; lia]).
    + rewrite (proj2 (Z.ltb_lt last_time (rule_instant posix true y))) by lia. destruct (last_time <? _); [exists [mk_tr (rule_instant posix false y) std_ti epoch epoch]|exists []]; eexists; (split; [reflexivity|cbn [unix_time]; lia]).
  - remember (S n) as m. cbn [rule_list]. replace (y + Z.of_nat m) with (y + 1 + Z.of_nat n) in * by lia. destruct (IH (y + 1) H) as (l & tr & E & U). subst m. rewrite E. eexists _, tr. rewrite app_assoc. split; [reflexivity|exact U].
Qed.

(** The table of an extended zone ends with the last transition of the rule in its last year. *)
Lemma extended_last z posix std_ti dst_ti l0 last_time y0 : extended_by z posix std_ti dst_ti l0 last_time y0 ->
  Lookup.last_u z = rule_max posix (last_year_ z) /\ kSecsPer400Years - 2592000 <= Lookup.last_u z /\ (0 < Lookup.cnt z)%nat /\ 0 <= last_year_ z <= 2 ^ 36.
Proof.
  intros E. pose proof (eb_year _ _ _ _ _ _ _ E) as Y. change (2 ^ 35) with 34359738368 in Y. rewrite (eb_limit _ _ _ _ _ _ _ E). pose proof (rule_instant_near posix (eb_std_ok _ _ _ _ _ _ _ E) (eb_dst_ok _ _ _ _ _ _ _ E) true (y0 + 401)) as Nr.
  pose proof (year_start_period (y0 + 1) 1) as P. replace (y0 + 1 + 400 * 1) with (y0 + 401) in P by lia. pose proof (year_start_mono 1970 (y0 + 1) ltac:(lia)) as M. change (year_start 1970) with 0 in M. pose proof (eb_near _ _ _ _ _ _ _ E) as Ne.
  assert (B : last_time < rule_max posix (y0 + Z.of_nat 401)) by (unfold rule_max; unfold kSecsPer400Years, kSecsPerDay in P; change (Z.of_nat 401) with 401; lia).
  destruct (rule_list_last posix std_ti dst_ti last_time 401 y0 B) as (l & tr & El & U). change (Z.of_nat 401) with 401 in U.
  pose proof (eb_list _ _ _ _ _ _ _ E) as L. rewrite El, app_assoc, (map_app key _ [tr]) in L. assert (Lu : map unix_time (transitions_ z) = map unix_time (l0 ++ l) ++ [unix_time tr]).
  { apply (f_equal (map fst)) in L. rewrite map_app, !map_map in L. exact L. }
  assert (C : Lookup.cnt z = S (length (l0 ++ l))) by (unfold Lookup.cnt; rewrite <- (length_map unix_time), Lu, length_app, length_map; cbn [length]; lia).
  assert (Eu : Lookup.last_u z = rule_max posix (y0 + 401)). { unfold Lookup.last_u, Lookup.u. rewrite Lu, C. rewrite app_nth2; rewrite length_map; [|lia]. replace (S (length (l0 ++ l)) - 1 - length (l0 ++ l))%nat with 0%nat by lia. exact U. }
  split; [exact Eu|]. split; [rewrite Eu; unfold rule_max; lia|]. split; [lia|]. change (2 ^ 36) with 68719476736. lia.
Qed.

(** ** Civil times *)
Fixpoint chained (types : list TransitionType) (off : Z) (prev : option Transition) (l : list Transition) : Prop :=
  match l with
  | [] => True
  | tr :: l =>
    civil_sec tr = at_ (unix_time tr + Lookup.offset_of types (type_index tr)) /\ prev_civil_sec tr = at_ (unix_time tr + off - 1) /\
    match prev with None => True | Some p => unix_time p < unix_time tr /\ civil_ltb (civil_sec p) (civil_sec tr) = true end /\
    chained types (Lookup.offset_of types (type_index tr)) (Some tr) l
  end.

Lemma LocalTime_type_ok abbrs t ty : raw_type_ok (Z.of_nat (length abbrs)) ty -> exists al, LocalTime_type abbrs t ty = Some al /\ al_cs al = at_ (t + utc_offset ty).
Proof. intros (_ & Ha). unfold LocalTime_type. rewrite abbr_at_some by lia. cbn [obind]. eexists. split; [reflexivity|]. cbn [al_cs]. apply at_add. Qed.

Lemma good_civil_times abbrs types : Forall (raw_type_ok (Z.of_nat (length abbrs))) types -> forall l ttp prev, raw_type_ok (Z.of_nat (length abbrs)) ttp -> Forall (fun tr => 0 <= type_index tr < Z.of_nat (length types)) l ->
  good (civil_times abbrs types ttp prev l) (fun r => map key r = map key l /\ chained types (utc_offset ttp) prev r).
Proof.
  intros F. induction l as [|tr l IH]; intros ttp prev Ht Fl; cbn [civil_times]; [split; [reflexivity|exact I]|]. inversion Fl as [|? ? Hk Fl']; subst.
  destruct (LocalTime_type_ok abbrs (unix_time tr) ttp Ht) as (al & Ea & Ca). eapply good_bind; [apply (good_defined _ al (fun v => v = al) Ea eq_refl)|]. cbv beta. intros ? ->.
  destruct (read_in types (type_index tr) Hk) as (ty & Rt & In). eapply good_bind; [apply (good_defined _ ty (fun v => v = ty) Rt eq_refl)|]. cbv beta. intros ? ->. pose proof (proj1 (Forall_forall _ _) F ty In) as Hty.
  destruct (LocalTime_type_ok abbrs (unix_time tr) ty Hty) as (al2 & Ea2 & Ca2). eapply good_bind; [apply (good_defined _ al2 (fun v => v = al2) Ea2 eq_refl)|]. cbv beta. intros ? ->.
  eapply good_bind; [apply good_reject|]. cbv beta. intros _ R. eapply good_bind; [apply IH; assumption|]. cbv beta. intros r (Kr & Cr). cbn [good map chained unix_time type_index civil_sec prev_civil_sec].
  assert (Eo : Lookup.offset_of types (type_index tr) = utc_offset ty) by (unfold Lookup.offset_of; now rewrite Rt). rewrite Eo, Ca, Ca2, at_sub1. split; [unfold key at 1; cbn [unix_time type_index]; now rewrite Kr|]. split; [reflexivity|]. split; [reflexivity|]. split; [|now rewrite Ca, Ca2, at_sub1 in Cr].
  destruct prev as [pr|]; [|exact I]. apply orb_false_iff in R as (R1 & R2). apply negb_false_iff in R1, R2. unfold ByUnixTime, ByCivilTime in *. cbn [unix_time civil_sec] in *. rewrite Ca2 in R2. split; [now apply Z.ltb_lt|exact R2].
Qed.

Lemma chained_nth types : forall l off prev, chained types off prev l -> forall i tr, nth_error l i = Some tr ->
  civil_sec tr = at_ (unix_time tr + Lookup.offset_of types (type_index tr)) /\ prev_civil_sec tr = at_ (unix_time tr + nth i (off :: map (fun tr => Lookup.offset_of types (type_index tr)) l) 0 - 1).
Proof.
  induction l as [|a l IH]; intros off prev C i tr E; [destruct i; discriminate|]. destruct C as (C1 & C2 & _ & C4). destruct i as [|i]; [injection E as <-; now split|]. exact (IH _ _ C4 i tr E).
Qed.

Lemma chained_order types : forall l off prev, chained types off prev l -> forall i a b, nth_error l i = Some a -> nth_error l (S i) = Some b -> unix_time a < unix_time b /\ civil_ltb (civil_sec a) (civil_sec b) = true.
Proof.
  induction l as [|a l IH]; intros off prev C i x y Ex Ey; [destruct i; discriminate|]. destruct C as (_ & _ & _ & C4). destruct i as [|i]; [|exact (IH _ _ C4 i x y Ex Ey)]. injection Ex as <-. destruct l as [|b l]; [discriminate|]. injection Ey as <-. destruct C4 as (_ & _ & Q & _). exact Q.
Qed.

(** ** The finished zone *)
Definition limited (ty : TransitionType) : TransitionType := mk_tt (utc_offset ty) (at_ (tp_max + utc_offset ty)) (at_ (tp_min + utc_offset ty)) (is_dst ty) (abbr_index ty).

Lemma civil_limits_ok abbrs types : Forall (raw_type_ok (Z.of_nat (length abbrs))) types -> map_result (civil_limits abbrs) types = Ret (map limited types).
Proof.
  induction types as [|ty types IH]; intros F; [reflexivity|]. inversion F as [|? ? Ht F']; subst. cbn [map_result map]. unfold civil_limits at 1. destruct (LocalTime_type_ok abbrs tp_max ty Ht) as (a & -> & Ca). destruct (LocalTime_type_ok abbrs tp_min ty Ht) as (b & -> & Cb).
  cbn [defined rbind]. rewrite IH by exact F'. cbn [rbind]. unfold limited at 1. now rewrite Ca, Cb.
Qed.

Lemma read_map {A B} (f : A -> B) l k : read (map f l) k = option_map f (read l k).
Proof. unfold read. destruct (0 <=? k); [apply nth_error_map|reflexivity]. Qed.

Lemma offset_limited types k : Lookup.offset_of (map limited types) k = Lookup.offset_of types k.
Proof. unfold Lookup.offset_of. rewrite read_map. now destruct (read types k). Qed.

Lemma type_is_limited types abbrs k off dst abbr : type_is types abbrs k off dst abbr -> type_is (map limited types) abbrs k off dst abbr.
Proof. intros (ty & R & Q). exists (limited ty). rewrite read_map, R. now split. Qed.

Lemma map_key l r : map key r = map key l -> map unix_time r = map unix_time l /\ map type_index r = map type_index l.
Proof. intros E. split; [apply (f_equal (map fst)) in E|apply (f_equal (map snd)) in E]; rewrite !map_map in E; exact E. Qed.

(** Everything that finishing needs. *)
Definition complete (z : TimeZoneInfo) : Prop :=
  loading z /\ 0 <= Lookup.last_u z /\ (extended_ z = true -> 0 <= last_year_ z <= 2 ^ 36 /\ kSecsPer400Years - 2592000 <= Lookup.last_u z).

(** The zone whose transitions have their civil times. *)
Definition finished (z z' : TimeZoneInfo) : Prop :=
  map key (transitions_ z') = map key (transitions_ z) /\ transition_types_ z' = map limited (transition_types_ z) /\ abbreviations_ z' = abbreviations_ z /\
  default_transition_type_ z' = default_transition_type_ z /\ future_spec_ z' = future_spec_ z /\ extended_ z' = extended_ z /\ last_year_ z' = last_year_ z.

Lemma good_finish z : complete z -> good (finish z) (fun z' => Lookup.zone_ok z' /\ finished z z').
Proof.
  intros (Ld & U0 & Ex). unfold finish. pose proof (ld_kinds z Ld) as K. unfold Lookup.kinds in K. inversion K as [|? ? Kd Kt]; subst. destruct (read_in _ _ Kd) as (ttp & Rd & Ind). eapply good_bind; [apply (good_defined _ ttp (fun v => v = ttp) Rd eq_refl)|]. cbv beta. intros ? ->.
  pose proof (proj1 (Forall_forall _ _) (ld_types z Ld) ttp Ind) as Http. eapply good_bind; [apply good_civil_times; [apply (ld_types z Ld)|exact Http|exact (proj1 (Forall_map type_index (fun k => 0 <= k < Z.of_nat (length (transition_types_ z))) _) Kt)]|]. cbv beta. intros r (Kr & Cr). rewrite civil_limits_ok by apply (ld_types z Ld). cbn [rbind good].
  set (z' := mk_tz r _ _ _ _ _ _ _). split; [|repeat split; exact Kr]. destruct (map_key _ _ Kr) as (Mu & Mt).
  assert (Ek : Lookup.kinds z' = Lookup.kinds z) by (unfold Lookup.kinds; cbn [z' transitions_ default_transition_type_]; now rewrite Mt). assert (Eu : forall i, Lookup.u z' i = Lookup.u z i) by (intros i; unfold Lookup.u; cbn [z' transitions_]; now rewrite Mu).
  assert (Ec : Lookup.cnt z' = Lookup.cnt z) by (unfold Lookup.cnt; cbn [z' transitions_]; rewrite <- (length_map unix_time r), Mu; apply length_map).
  assert (Eo : forall i, (i <= Lookup.cnt z)%nat -> Lookup.o z' i = nth i (utc_offset ttp :: map (fun tr => Lookup.offset_of (transition_types_ z) (type_index tr)) r) 0).
  { intros i Hi. unfold Lookup.o. cbn [z' transition_types_]. rewrite offset_limited, Ek. assert (D : Lookup.offset_of (transition_types_ z) (default_transition_type_ z) = utc_offset ttp) by (unfold Lookup.offset_of; now rewrite Rd). destruct i as [|i]; [exact D|]. cbn [Lookup.kinds nth]. rewrite <- Mt, <- (map_map type_index (Lookup.offset_of (transition_types_ z))).
    symmetry. erewrite nth_indep; [apply (map_nth (Lookup.offset_of (transition_types_ z)))|]. rewrite !length_map. unfold Lookup.cnt in *. cbn [z' transitions_] in Ec. lia. }
  assert (Civ : forall i tr, nth_error r i = Some tr -> civil_sec tr = at_ (unix_time tr + Lookup.o z' (S i)) /\ prev_civil_sec tr = at_ (unix_time tr + Lookup.o z' i - 1)).
  { intros i tr E. assert (I : (i < Lookup.cnt z)%nat) by (rewrite <- Ec; apply nth_error_Some; cbn [z' transitions_]; congruence). destruct (chained_nth _ _ _ _ Cr i tr E) as (A & B). rewrite !Eo by lia. split; [|exact B]. rewrite A. cbn [nth]. erewrite nth_error_nth; [reflexivity|]. now rewrite nth_error_map, E. }
  constructor; cbn [z' transition_types_ abbreviations_ transitions_ extended_ last_year_].
  - apply Forall_map. eapply Forall_impl; [|exact (ld_types z Ld)]. intros ty (A & B). repeat split; cbn [limited utc_offset abbr_index]; lia.
  - fold z'. rewrite Ek, length_map. exact K.
  - intros i tr E. destruct (Civ i tr E) as (A & B). split; [|now split]. pose proof (proj2 (Forall_map unix_time (fun t => - 2 ^ 60 <= t <= 2 ^ 60) _) (ld_times z Ld)) as T. rewrite <- Mu in T. apply (proj1 (Forall_map unix_time (fun t => - 2 ^ 60 <= t <= 2 ^ 60) _)) in T.
    apply (proj1 (Forall_forall _ _) T). eapply nth_error_In, E.
  - fold z'. intros i I. destruct (Lookup.some_nth z' i ltac:(lia)) as (a & Ea). destruct (Lookup.some_nth z' (S i) I) as (b & Eb). destruct (chained_order _ _ _ _ Cr i a b Ea Eb) as (A & B). destruct (Civ i a Ea) as (Ca & _). destruct (Civ (S i) b Eb) as (Cb & _).
    rewrite (Lookup.u_nth z' i a Ea), (Lookup.u_nth z' _ b Eb). split; [exact A|]. unfold Line.c. rewrite (Lookup.u_nth z' i a Ea), (Lookup.u_nth z' _ b Eb). rewrite Ca, Cb, at_ltb in B. now apply Z.ltb_lt.
  - fold z'. rewrite Ec. destruct (ld_first z Ld) as (tr & l & E & _). unfold Lookup.cnt. rewrite E. cbn. lia.
  - fold z'. rewrite Eu. destruct (ld_first z Ld) as (tr & l & E & U). unfold Lookup.u. rewrite E. exact U.
  - fold z'. unfold Lookup.last_u in *. now rewrite Ec, Eu.
  - fold z'. intros X. unfold Lookup.last_u in *. rewrite Ec, Eu. now apply Ex.
Qed.

Lemma good_second_half z0 z : extension z0 z -> good (second_half z) (fun z' => complete z' /\ (extended_ z = true -> z' = z) /\ extended_ z' = extended_ z).
Proof.
  intros (Ld & C). unfold second_half. destruct (last_some z Ld) as (l1 & last & El & En & Kl). eapply good_bind; [apply (good_defined _ last (fun v => v = last) En eq_refl)|]. cbv beta. intros ? ->.
  assert (Lu : Lookup.last_u z = unix_time last) by (unfold Lookup.last_u; now apply Lookup.u_nth).
  assert (Ex : extended_ z = true -> 0 <= last_year_ z <= 2 ^ 36 /\ kSecsPer400Years - 2592000 <= Lookup.last_u z).
  { intros E. destruct C as [(C & _)|(_ & posix & std_ti & dst_ti & lt & y0 & X)]; [congruence|]. destruct (extended_last _ _ _ _ _ _ _ X) as (_ & A & _ & B). now split. }
  destruct (Z.ltb_spec (unix_time last) 0) as [N|N]; [|cbn [good]; split; [split; [exact Ld|split; [lia|exact Ex]]|now split]].
  destruct (extended_ z) eqn:E; [destruct (Ex eq_refl) as (_ & A); unfold kSecsPer400Years, kSecsPerDay in A; lia|]. cbn [good]. split; [|now split]. split; [|split; [|now cbn [with_transitions extended_]]].
  - constructor; cbn [with_transitions transition_types_ abbreviations_ transitions_]; [apply (ld_types z Ld)| |apply (ld_nul z Ld)| |].
    + pose proof (ld_kinds z Ld) as K. unfold Lookup.kinds in *. cbn [with_transitions default_transition_type_ transitions_]. inversion K as [|? ? K1 K2]; subst. constructor; [exact K1|]. rewrite map_app. apply Forall_app. split; [exact K2|]. constructor; [exact Kl|constructor].
    + apply Forall_app. split; [exact (ld_times z Ld)|]. constructor; [cbn [unix_time]; lia|constructor].
    + destruct (ld_first z Ld) as (tr & l & -> & U). eexists _, _. split; [reflexivity|exact U].
  - unfold Lookup.last_u, Lookup.u, Lookup.cnt. cbn [with_transitions transitions_]. rewrite map_app, length_app. cbn [length map]. rewrite app_nth2; rewrite length_map; [|lia]. replace (length (transitions_ z) + 1 - 1 - length (transitions_ z))%nat with 0%nat by lia. cbn. lia.
Qed.

(** ** Loading *)
Lemma extended_finished z z' posix std_ti dst_ti l0 last_time y0 : finished z z' -> extended_by z posix std_ti dst_ti l0 last_time y0 -> extended_by z' posix std_ti dst_ti l0 last_time y0.
Proof.
  intros (K & T & A & D & S & E & Y) X. constructor; try rewrite K; try rewrite T; try rewrite A; try rewrite S; try rewrite Y; try apply X; [now apply type_is_limited, X|now apply type_is_limited, X].
Qed.

Lemma good_Load src v : good (Load src v) (fun z => Lookup.zone_ok z /\ (extended_ z = true -> exists posix std_ti dst_ti l0 last_time y0, extended_by z posix std_ti dst_ti l0 last_time y0)).
Proof.
  unfold Load. eapply good_bind; [apply good_decode_zone|]. intros z0 (Ld0 & Ft & _). eapply good_bind; [now apply good_ExtendTransitions|]. intros z1 X. eapply good_bind; [eapply good_second_half, X|]. cbv beta. intros z2 (C2 & Same & E2).
  eapply good_weaken; [now apply good_finish|]. cbv beta. intros z3 (Ok & F). split; [exact Ok|]. intros E. pose proof F as (_ & _ & _ & _ & _ & Ef & _). rewrite Ef in E. rewrite E2 in E. specialize (Same E). subst z2.
  destruct X as (_ & [(X & _)|(_ & posix & std_ti & dst_ti & lt & y0 & X)]); [congruence|]. exists posix, std_ti, dst_ti, (transitions_ z0), lt, y0. now apply (extended_finished z1).
Qed.
End Extend.
