(* ===== verification/ZoneFuture.v ===== *)
(** Times after the data of a zone: the transitions of its rule are in order in every year, and lookups follow the rule
    for ever, though the table holds only four hundred years of it. *)
From Stdlib Require Import ZArith Lia List Bool Sorted.
From S2P Require Import Prelude CivilTime ZoneText ZoneInfo ZoneTime ZoneLookup ZoneLoad ZoneDecode ZoneRule ZoneExtend.
Import ListNotations.
#[local] Open Scope Z_scope.

Module Future.
Import Posix Zone Civil Load Rule Extend.

(** The earlier and the later transition of a year are [rule_min] and [rule_max]. *)
Definition rule_min (posix : PosixTimeZone) (y : Z) : Z := Z.min (rule_instant posix true y) (rule_instant posix false y).

(** The latest transition of the rule at or before an instant. *)
Definition in_effect (posix : PosixTimeZone) (t : Z) (dst : bool) (y : Z) : Prop :=
  rule_instant posix dst y <= t /\ forall dst' y', rule_instant posix dst' y' <= t -> rule_instant posix dst' y' <= rule_instant posix dst y.

(** ** Order *)
Lemma rule_instant_period posix dst y k : rule_instant posix dst (y + 400 * k) = rule_instant posix dst y + k * kSecsPer400Years.
Proof.
  unfold rule_instant, rule_day. rewrite year_start_period, jan1_wd_period. change (IsLeap (y + 400 * k)) with (is_leap_year (y + 400 * k)). rewrite is_leap_year_shift. change (is_leap_year y) with (IsLeap y). destruct dst; lia.
Qed.

Lemma sorted_app {A} (R : A -> A -> Prop) l1 l2 : StronglySorted R (l1 ++ l2) -> StronglySorted R l1 /\ StronglySorted R l2 /\ forall a b, In a l1 -> In b l2 -> R a b.
Proof.
  induction l1 as [|x l1 IH]; cbn [app]; intros S; [split; [constructor|split; [exact S|intros a b []]]|]. inversion S as [|? ? S' F]; subst. destruct (IH S') as (A1 & A2 & A3). apply Forall_app in F as (F1 & F2).
  split; [now constructor|]. split; [exact A2|]. intros a b [<-|Ha] Hb; [now apply (proj1 (Forall_forall _ _) F2)|now apply A3].
Qed.

Section Sorted.
Context (posix : PosixTimeZone) (std_ti dst_ti last_time : Z).

(** The members of the list are the instants after [last_time], with their types. *)
Lemma rule_list_in n : forall y tr, In tr (rule_list posix std_ti dst_ti last_time n y) <->
  exists dst a, y <= a < y + Z.of_nat n /\ last_time < rule_instant posix dst a /\ tr = mk_tr (rule_instant posix dst a) (if dst then dst_ti else std_ti) epoch epoch.
Proof.
  assert (Pair : forall y tr, In tr [fst (rule_pair posix std_ti dst_ti y); snd (rule_pair posix std_ti dst_ti y)] <-> exists dst : bool, tr = mk_tr (rule_instant posix dst y) (if dst then dst_ti else std_ti) epoch epoch).
  { intros y tr. unfold rule_pair. destruct (rule_instant posix true y <? rule_instant posix false y); cbn [fst snd In]; (split; [|intros ([|] & ->); auto]).
    - intros [<-|[<-|[]]]; [now exists true|now exists false].
    - intros [<-|[<-|[]]]; [now exists false|now exists true]. }
  induction n as [|n IH]; intros y tr; cbn [rule_list]; [split; [intros []|intros (dst & a & H & _); lia]|]. rewrite in_app_iff, filter_In, IH, Pair. split.
  - intros [((dst & ->) & B)|(dst & a & H & Q)]; [|exists dst, a; split; [lia|exact Q]]. zbool. exists dst, y. split; [lia|]. split; [exact B|reflexivity].
  - intros (dst & a & H & B & ->). destruct (Z.eq_dec a y) as [->|Ne]; [left|right; exists dst, a; split; [lia|auto]]. split; [eauto|]. cbn [unix_time]. now apply Z.ltb_lt.
Qed.

Lemma rule_sorted n : forall y, StronglySorted Z.lt (map unix_time (rule_list posix std_ti dst_ti last_time n y)) -> forall a, y <= a < y + Z.of_nat n ->
  (last_time < rule_min posix a -> rule_instant posix true a <> rule_instant posix false a) /\
  (a + 1 < y + Z.of_nat n -> last_time < rule_max posix a -> last_time < rule_min posix (a + 1) -> rule_max posix a < rule_min posix (a + 1)).
Proof.
  induction n as [|n IH]; intros y S a A; [lia|]. cbn [rule_list] in S. rewrite map_app in S. destruct (sorted_app _ _ _ S) as (S1 & S2 & S3). destruct (Z.eq_dec a y) as [->|N]; [|replace (y + Z.of_nat (Datatypes.S n)) with (y + 1 + Z.of_nat n) in * by lia; apply (IH (y + 1)); [exact S2|lia]]. split.
  - intros L E. unfold rule_min in L. unfold rule_pair in S1. rewrite E, Z.ltb_irrefl in S1. cbn [fst snd filter unix_time] in S1. rewrite (proj2 (Z.ltb_lt _ _)) in S1 by lia. cbn [map unix_time] in S1. inversion S1 as [|? ? _ F]; subst. inversion F; lia.
  - intros Ln Lm Lm'. assert (M1 : exists d, rule_instant posix d y = rule_max posix y) by (unfold rule_max; destruct (Z.max_spec (rule_instant posix true y) (rule_instant posix false y)) as [(_ & ->)|(_ & ->)]; eauto).
    assert (M2 : exists d, rule_instant posix d (y + 1) = rule_min posix (y + 1)) by (unfold rule_min; destruct (Z.min_spec (rule_instant posix true (y + 1)) (rule_instant posix false (y + 1))) as [(_ & ->)|(_ & ->)]; eauto).
    destruct M1 as (d1 & M1), M2 as (d2 & M2). rewrite <- M1, <- M2. apply S3.
    + change (rule_instant posix d1 y) with (unix_time (mk_tr (rule_instant posix d1 y) (if d1 then dst_ti else std_ti) epoch epoch)). apply in_map, filter_In. cbn [unix_time]. split; [|apply Z.ltb_lt; lia]. unfold rule_pair. destruct (rule_instant posix true y <? rule_instant posix false y), d1; cbn [fst snd In]; auto.
    + change (rule_instant posix d2 (y + 1)) with (unix_time (mk_tr (rule_instant posix d2 (y + 1)) (if d2 then dst_ti else std_ti) epoch epoch)). apply in_map, rule_list_in. exists d2, (y + 1). split; [lia|]. split; [lia|reflexivity].
Qed.
End Sorted.

Lemma sorted_unix_times z : Lookup.zone_ok z -> StronglySorted Z.lt (map unix_time (transitions_ z)).
Proof.
  intros OK. apply Sorted_StronglySorted; [intros a b c; lia|].
  assert (H : forall l : list Z, (forall i a b, nth_error l i = Some a -> nth_error l (S i) = Some b -> a < b) -> Sorted Z.lt l).
  { induction l as [|a l IH]; intros H; constructor; [apply IH; intros i x y Ex Ey; exact (H (S i) x y Ex Ey)|]. destruct l as [|b l]; constructor. exact (H 0%nat a b eq_refl eq_refl). }
  apply H. intros i a b Ea Eb. rewrite nth_error_map in Ea, Eb. destruct (nth_error (transitions_ z) i) as [x|] eqn:Ex; [|discriminate]. destruct (nth_error (transitions_ z) (S i)) as [y|] eqn:Ey; [|discriminate]. injection Ea as <-. injection Eb as <-.
  rewrite <- (Lookup.u_nth z i x Ex), <- (Lookup.u_nth z _ y Ey). now apply (Lookup.ok_order z OK), (Lookup.nth_cnt z _ y).
Qed.

(** A transition at or before an instant, with no later such one, has the type in effect. *)
Lemma type_at_latest z t tr : Lookup.zone_ok z -> In tr (transitions_ z) -> unix_time tr <= t -> (forall tr', In tr' (transitions_ z) -> unix_time tr' <= t -> unix_time tr' <= unix_time tr) -> Lookup.type_at z t = type_index tr.
Proof.
  intros OK In Ht L. apply In_nth_error in In as (i & E). pose proof (Lookup.nth_cnt z i tr E) as I. unfold Lookup.type_at. rewrite (Lookup.passed_unique z OK t (S i)); [now apply Lookup.kind_nth|]. split; [lia|]. rewrite Nat.sub_succ, Nat.sub_0_r, (Lookup.u_nth z i tr E). split; [auto|]. intros I'.
  destruct (Lookup.some_nth z (S i) I') as (nx & En). rewrite (Lookup.u_nth z _ nx En). destruct (Z.lt_ge_cases t (unix_time nx)) as [|G]; [assumption|]. specialize (L nx (nth_error_In _ _ En) G). destruct (Lookup.ok_order z OK i I') as (O & _). rewrite (Lookup.u_nth z i tr E), (Lookup.u_nth z _ nx En) in O. lia.
Qed.

Section Extended.
Context (z : TimeZoneInfo) (posix : PosixTimeZone) (std_ti dst_ti : Z) (l0 : list Transition) (last_time y0 : Z).
Context (OK : Lookup.zone_ok z) (Ex : extended_by z posix std_ti dst_ti l0 last_time y0).

Lemma near_year dst y : year_start y - 900000 <= rule_instant posix dst y <= year_start (y + 1) + 900000.
Proof. exact (rule_instant_near posix (eb_std_ok _ _ _ _ _ _ _ Ex) (eb_dst_ok _ _ _ _ _ _ _ Ex) dst y). Qed.

Lemma year_long y k : 0 <= k -> year_start y + k * 31536000 <= year_start (y + k).
Proof.
  intros K. replace k with (Z.of_nat (Z.to_nat k)) by lia. induction (Z.to_nat k) as [|n IH]; [replace (y + Z.of_nat 0) with y by lia; lia|]. replace (y + Z.of_nat (S n)) with (y + Z.of_nat n + 1) by lia. rewrite (year_start_succ (y + Z.of_nat n)). unfold kSecsPerYear, kDaysPerYear, kSecsPerDay. destruct (IsLeap _); lia.
Qed.

Lemma table_sorted : StronglySorted Z.lt (map unix_time l0 ++ map unix_time (rule_list posix std_ti dst_ti last_time 402 y0)).
Proof. rewrite <- map_app. destruct (map_key _ _ (eb_list _ _ _ _ _ _ _ Ex)) as (<- & _). now apply sorted_unix_times. Qed.

(** Four hundred years in order. *)
Lemma window_order y : y0 + 1 <= y <= y0 + 400 -> rule_max posix y < rule_min posix (y + 1).
Proof.
  intros Y. destruct (sorted_app _ _ _ table_sorted) as (_ & S & _). pose proof (eb_near _ _ _ _ _ _ _ Ex) as N. pose proof (year_long (y0 + 1) (y - y0) ltac:(lia)) as L. replace (y0 + 1 + (y - y0)) with (y + 1) in L by lia.
  assert (B : last_time < rule_min posix (y + 1)). { pose proof (near_year true (y + 1)). pose proof (near_year false (y + 1)). unfold rule_min. lia. }
  destruct (Z.lt_ge_cases last_time (rule_max posix y)) as [G|G]; [|lia]. change (Z.of_nat 402) with 402 in *. destruct (rule_sorted posix std_ti dst_ti last_time 402 y0 S y) as (_ & Q); [change (Z.of_nat 402) with 402; lia|]. apply Q; [change (Z.of_nat 402) with 402; lia|exact G|exact B].
Qed.

Lemma window_distinct y : y0 + 2 <= y <= y0 + 401 -> rule_instant posix true y <> rule_instant posix false y.
Proof.
  intros Y. destruct (sorted_app _ _ _ table_sorted) as (_ & S & _). pose proof (eb_near _ _ _ _ _ _ _ Ex) as N. pose proof (year_long (y0 + 1) (y - (y0 + 1)) ltac:(lia)) as L. replace (y0 + 1 + (y - (y0 + 1))) with y in L by lia.
  destruct (rule_sorted posix std_ti dst_ti last_time 402 y0 S y) as (Q & _); [change (Z.of_nat 402) with 402; lia|]. apply Q. pose proof (near_year true y). pose proof (near_year false y). unfold rule_min. lia.
Qed.

Lemma cycle_year y c : exists k, c <= y + 400 * k < c + 400.
Proof. exists (- ((y - c) / 400)). pose proof (Z.div_mod (y - c) 400 ltac:(lia)). pose proof (Z.mod_pos_bound (y - c) 400 ltac:(lia)). lia. Qed.

(** Every year in order. *)
Lemma rule_order y : rule_instant posix true y <> rule_instant posix false y /\ rule_max posix y < rule_min posix (y + 1).
Proof.
  split.
  - destruct (cycle_year y (y0 + 2)) as (k & K). pose proof (window_distinct (y + 400 * k) ltac:(lia)) as D. rewrite !rule_instant_period in D. lia.
  - destruct (cycle_year y (y0 + 1)) as (k & K). pose proof (window_order (y + 400 * k) ltac:(lia)) as D. replace (y + 400 * k + 1) with (y + 1 + 400 * k) in D by lia. unfold rule_max, rule_min in *. rewrite !rule_instant_period in D. lia.
Qed.

Lemma rule_years a b : a < b -> rule_max posix a < rule_min posix b.
Proof.
  intros L. replace b with (a + 1 + Z.of_nat (Z.to_nat (b - a - 1))) by lia. induction (Z.to_nat (b - a - 1)) as [|n IH]; [replace (a + 1 + Z.of_nat 0) with (a + 1) by lia; apply rule_order|].
  destruct (rule_order (a + 1 + Z.of_nat n)) as (_ & O). replace (a + 1 + Z.of_nat (S n)) with (a + 1 + Z.of_nat n + 1) by lia. unfold rule_min, rule_max in *. lia.
Qed.

(** Instants of different years are ordered as the years. *)
Lemma instant_years d a d' b : a < b -> rule_instant posix d a < rule_instant posix d' b.
Proof. intros L. pose proof (rule_years a b L). unfold rule_min, rule_max in *. destruct d, d'; lia. Qed.

(** There is always a latest transition, and it is unique. *)
Lemma in_effect_exists t : exists dst y, in_effect posix t dst y.
Proof.
  set (a := f_y (at_ t)). pose proof (proj1 (year_le_iff t a) ltac:(lia)) as A1. pose proof (proj2 (year_le_iff t (a - 1))) as A2. replace (a - 1 + 1) with a in A2 by lia. assert (A : year_start a <= t < year_start (a + 1)) by (fold a in A2; destruct (Z.lt_ge_cases t (year_start a)); lia).
  pose proof (year_long (a - 1) 1 ltac:(lia)) as L1. replace (a - 1 + 1) with a in L1 by lia. pose proof (year_long (a + 1) 1 ltac:(lia)) as L2. replace (a + 1 + 1) with (a + 2) in L2 by lia.
  assert (Lo : rule_max posix (a - 2) <= t). { pose proof (near_year true (a - 2)) as N1. pose proof (near_year false (a - 2)) as N2. replace (a - 2 + 1) with (a - 1) in * by lia. unfold rule_max. lia. }
  assert (Hi : t < rule_min posix (a + 2)). { pose proof (near_year true (a + 2)). pose proof (near_year false (a + 2)). unfold rule_min. lia. }
  assert (Step : exists y, rule_max posix (y - 1) <= t < rule_max posix y).
  { destruct (Z.lt_ge_cases t (rule_max posix (a - 1))); [exists (a - 1); replace (a - 1 - 1) with (a - 2) by lia; lia|]. destruct (Z.lt_ge_cases t (rule_max posix a)); [exists a; lia|]. destruct (Z.lt_ge_cases t (rule_max posix (a + 1))); [exists (a + 1); replace (a + 1 - 1) with a by lia; lia|].
    exists (a + 2). replace (a + 2 - 1) with (a + 1) by lia. unfold rule_min, rule_max in *. lia. }
  destruct Step as (y & Y1 & Y2). destruct (rule_order y) as (D & _). pose proof (rule_years (y - 1) y ltac:(lia)) as O. destruct (Z.le_gt_cases (rule_min posix y) t) as [G|G].
  - exists (rule_instant posix true y <? rule_instant posix false y), y. assert (E : rule_instant posix (rule_instant posix true y <? rule_instant posix false y) y = rule_min posix y) by (unfold rule_min; destruct (Z.ltb_spec (rule_instant posix true y) (rule_instant posix false y)); lia). split; [lia|]. rewrite E. intros d b B.
    destruct (Z.lt_trichotomy b y) as [H|[->|H]]; [pose proof (rule_years b y H); unfold rule_min, rule_max in *; destruct d; lia|unfold rule_min, rule_max in *; destruct d; lia|pose proof (rule_years y b H); unfold rule_min, rule_max in *; destruct d; lia].
  - exists (rule_instant posix false (y - 1) <? rule_instant posix true (y - 1)), (y - 1). assert (E : rule_instant posix (rule_instant posix false (y - 1) <? rule_instant posix true (y - 1)) (y - 1) = rule_max posix (y - 1)) by (unfold rule_max; destruct (Z.ltb_spec (rule_instant posix false (y - 1)) (rule_instant posix true (y - 1))); lia). split; [lia|]. rewrite E. intros d b B.
    destruct (Z.lt_trichotomy b (y - 1)) as [H|[->|H]]; [pose proof (rule_years b (y - 1) H); unfold rule_min, rule_max in *; destruct d; lia|unfold rule_max; destruct d; lia|]. assert (rule_min posix y <= rule_instant posix d b); [|lia]. destruct (Z.eq_dec b y) as [->|N]; [unfold rule_min; destruct d; lia|]. pose proof (rule_years y b ltac:(lia)). unfold rule_min, rule_max in *. destruct d; lia.
Qed.

(** ** Lookups follow the rule *)

(** The data of the file reaches past the rule's transitions of the year before its last one, and does not reach past
    those of the next year. *)
Definition joined : Prop := rule_max posix (y0 - 1) <= last_time < rule_max posix (y0 + 1).

Lemma file_before tr : In tr l0 -> unix_time tr <= last_time.
Proof.
  intros In0. destruct (eb_last _ _ _ _ _ _ _ Ex) as (l1 & x & E & U). destruct (sorted_app _ _ _ table_sorted) as (S & _ & _). rewrite E in S, In0. rewrite map_app in S. destruct (sorted_app _ _ _ S) as (_ & _ & Q). apply in_app_or in In0 as [H|[<-|[]]]; [|lia].
  specialize (Q (unix_time tr) (unix_time x) (in_map unix_time _ _ H) (or_introl eq_refl)). lia.
Qed.

(** In the table, a rule transition that is the latest one. *)
Lemma table_follows s dst y : in_effect posix s dst y -> last_time < rule_instant posix dst y -> y0 <= y <= y0 + 401 -> Lookup.type_at z s = if dst then dst_ti else std_ti.
Proof.
  intros (E1 & E2) L Y. assert (In1 : In (rule_instant posix dst y, if dst then dst_ti else std_ti) (map key (transitions_ z))).
  { rewrite (eb_list _ _ _ _ _ _ _ Ex), map_app. apply in_or_app. right. apply (in_map key _ (mk_tr (rule_instant posix dst y) (if dst then dst_ti else std_ti) epoch epoch)). apply rule_list_in. exists dst, y. split; [change (Z.of_nat 402) with 402; lia|]. now split. }
  apply in_map_iff in In1 as (tr & Ek & In1). injection Ek as Eu Et. rewrite <- Et. apply type_at_latest; [exact OK|exact In1|lia|]. intros tr' In2 B. apply (in_map key) in In2. rewrite (eb_list _ _ _ _ _ _ _ Ex), map_app in In2. rewrite Eu.
  apply in_app_or in In2 as [H|H]; apply in_map_iff in H as (x & Ek & H); injection Ek as Eu' _; [pose proof (file_before x H); lia|]. apply rule_list_in in H as (d & a & _ & _ & ->). cbn [unix_time] in Eu'. rewrite <- Eu' in *. now apply E2.
Qed.

Lemma in_effect_shift t dst y k : in_effect posix t dst y -> in_effect posix (t - k * kSecsPer400Years) dst (y - 400 * k).
Proof.
  intros (E1 & E2). replace (y - 400 * k) with (y + 400 * - k) by lia. split; [rewrite rule_instant_period; lia|]. intros d b B. rewrite rule_instant_period. specialize (E2 d (b + 400 * k)). rewrite rule_instant_period in E2. lia.
Qed.

Lemma future_follows t dst y : extended_ z = true -> joined -> in_effect posix t dst y -> last_time < rule_instant posix dst y -> Lookup.type_at z (Lookup.table_time z t) = if dst then dst_ti else std_ti.
Proof.
  intros Xt (J1 & J2) E L. destruct (extended_last _ _ _ _ _ _ _ Ex) as (Lu & _). rewrite (eb_limit _ _ _ _ _ _ _ Ex) in Lu.
  assert (Upper : forall s d b, in_effect posix s d b -> s < Lookup.last_u z -> b <= y0 + 401) by (intros s d b (B & _) S; destruct (Z.le_gt_cases b (y0 + 401)) as [|G]; [assumption|]; pose proof (rule_years (y0 + 401) b ltac:(lia)); unfold rule_min, rule_max in *; destruct d; lia).
  destruct (Z.lt_ge_cases t (Lookup.last_u z)) as [H|H].
  - unfold Lookup.table_time. rewrite (proj2 (Z.leb_gt _ _)), andb_false_r by exact H. apply (table_follows t dst y E L). split; [|now apply (Upper t dst)]. destruct (Z.le_gt_cases y0 y) as [|G]; [assumption|].
    destruct (Z.eq_dec y (y0 - 1)) as [->|N]; [unfold rule_max in J1; destruct dst; lia|]. pose proof (instant_years dst y dst (y0 - 1) ltac:(lia)). unfold rule_max in J1. destruct dst; lia.
  - destruct (Lookup.table_time_range z t H Xt) as (k & K & Et & R & _). rewrite Et in *. pose proof (in_effect_shift t dst y k E) as E'.
    assert (Lm : rule_max posix (y0 + 401) - kSecsPer400Years = rule_max posix (y0 + 1)). { unfold rule_max. replace (y0 + 401) with (y0 + 1 + 400 * 1) by lia. rewrite !rule_instant_period. lia. }
    assert (Ge : rule_max posix (y0 + 1) <= rule_instant posix dst (y - 400 * k)). { destruct E' as (_ & E2). pose proof (E2 true (y0 + 1)). pose proof (E2 false (y0 + 1)). unfold rule_max in *. lia. }
    apply (table_follows _ dst (y - 400 * k) E'); [lia|]. split; [|apply (Upper _ dst _ E'); lia]. destruct (Z.le_gt_cases y0 (y - 400 * k)) as [|G]; [assumption|]. pose proof (rule_years (y - 400 * k) (y0 + 1) ltac:(lia)). unfold rule_min, rule_max in *. destruct dst; lia.
Qed.
End Extended.
End Future.
