(* ===== verification/ZoneLaws.v ===== *)
(** Time zones as a whole: the built-in zones, the names that become paths, and what holds of every zone that
    [TimeZoneInfo::Make] gives. *)
From Stdlib Require Import Ascii String.
From Stdlib Require Import ZArith Lia List Bool.
From S2P Require Import Prelude Digits CivilTime ZoneText ZoneInfo ZoneTime ZoneLookup ZoneLoad ZoneDecode ZoneRule ZoneExtend ZoneFuture.
Import ListNotations.
#[local] Open Scope Z_scope.
#[local] Open Scope mach_scope.

Module Laws.
Import Posix Zone Civil Load Decode.

(** ** Zones with a fixed offset *)
Section Builtin.
Context (offset : Z) (Small : Z.abs offset <= 86400).

#[local] Abbreviation utc := (ResetToBuiltinUTC offset).

Lemma utc_o i : Lookup.o utc i = offset.
Proof.
  assert (E : nth i (Lookup.kinds utc) 0 = 0). { change (Lookup.kinds utc) with (repeat 0 13). destruct (Nat.lt_ge_cases i 13); [apply nth_repeat_lt; lia|apply nth_overflow; rewrite repeat_length; lia]. }
  unfold Lookup.o. rewrite E. reflexivity.
Qed.

Lemma utc_u i : Lookup.u utc i = nth i utc_times 0.
Proof. reflexivity. Qed.

Lemma utc_abbr_length : (0 < length (abbreviations_ utc))%nat.
Proof. cbn [ResetToBuiltinUTC abbreviations_]. rewrite length_app. cbn. lia. Qed.

Lemma utc_order i : (S i < 12)%nat -> nth i utc_times 0 < nth (S i) utc_times 0.
Proof. intros H. do 11 (destruct i as [|i]; [reflexivity|]). lia. Qed.

Lemma utc_ok : Lookup.zone_ok utc.
Proof.
  pose proof utc_abbr_length as La. constructor.
  - constructor; [|constructor]. repeat split; cbn [utc_offset abbr_index]; try lia; unfold tt_civil_max, tt_civil_min, local_civil; cbn [utc_offset]; apply at_add.
  - change (Lookup.kinds utc) with (repeat 0 13). apply Forall_forall. intros k K. apply repeat_spec in K. subst k. cbn. lia.
  - intros i tr E. cbn [ResetToBuiltinUTC transitions_] in E. rewrite nth_error_map in E. destruct (nth_error utc_times i) as [t|] eqn:Et; [|discriminate]. injection E as <-. cbn [unix_time civil_sec prev_civil_sec]. rewrite !utc_o. unfold local_civil. change (cs_add epoch t) with (at_ t). rewrite at_add, at_sub1. split; [|now split].
    assert (F : Forall (fun t => - 2 ^ 60 <= t <= 2 ^ 60) utc_times) by (repeat constructor; vm_compute; discriminate). apply (proj1 (Forall_forall _ _) F). eapply nth_error_In, Et.
  - intros i I. rewrite !utc_u. unfold Line.c. rewrite !utc_o, !utc_u. pose proof (utc_order i I). lia.
  - vm_compute. lia.
  - reflexivity.
  - vm_compute. discriminate.
  - discriminate.
Qed.

Lemma utc_spaced : Lookup.spaced (transitions_ utc) = true.
Proof.
  assert (M : forall t, local_civil t offset = at_ (t + offset)) by (intros t; unfold local_civil; apply at_add). cbn [ResetToBuiltinUTC transitions_ utc_times map Lookup.spaced prev_civil_sec civil_sec].
  rewrite !M, !at_sub1, !at_ltb. rewrite !(proj2 (Z.ltb_lt _ _)) by lia. reflexivity.
Qed.

(** The clock is always off by the offset. *)
Lemma utc_local t : Lookup.local utc t = t + offset.
Proof. unfold Lookup.local. f_equal. apply (utc_o (Lookup.passed utc (Lookup.table_time utc t))). Qed.
End Builtin.

(** ** Unsafe paths *)

(** Two dots that are a whole component of the name from [pos]. *)
Definition dots_at (name : list Z) (i : nat) : Prop := nth_error name i = Some (chr ".") /\ nth_error name (S i) = Some (chr ".").

Definition dots_component (name : list Z) (pos i : nat) : Prop :=
  (pos <= i)%nat /\ dots_at name i /\ (i = pos \/ nth_error name (i - 1) = Some (chr "/")) /\ (length name = i + 2 \/ nth_error name (i + 2) = Some (chr "/"))%nat.

Lemma find_dots_spec name : forall fuel i, (length name - i < fuel)%nat ->
  match find_dots fuel name i with
  | Some j => (i <= j)%nat /\ dots_at name j /\ forall k, (i <= k < j)%nat -> ~ dots_at name k
  | None => forall k, (i <= k)%nat -> ~ dots_at name k
  end.
Proof.
  induction fuel as [|fuel IH]; intros i F; [lia|]. cbn [find_dots].
  destruct (nth_error name i) as [a|] eqn:Ea; [|intros k K (D & _); apply nth_error_None in Ea; assert (k < length name)%nat by (apply nth_error_Some; congruence); lia].
  destruct (nth_error name (S i)) as [b|] eqn:Eb; [|intros k K (_ & D); apply nth_error_None in Eb; assert (S k < length name)%nat by (apply nth_error_Some; congruence); lia].
  assert (I : (S i < length name)%nat) by (apply nth_error_Some; congruence). destruct ((a =? chr ".") && (b =? chr ".")) eqn:E.
  - zbool. subst. split; [lia|]. split; [now split|]. intros; lia.
  - assert (N : ~ dots_at name i). { intros (D1 & D2). rewrite Ea in D1. rewrite Eb in D2. injection D1 as ->. injection D2 as ->. discriminate. }
    specialize (IH (S i) ltac:(lia)). destruct (find_dots fuel name (S i)) as [j|].
    + destruct IH as (A & B & C). split; [lia|]. split; [exact B|]. intros k K. destruct (Nat.eq_dec k i) as [->|]; [exact N|apply C; lia].
    + intros k K. destruct (Nat.eq_dec k i) as [->|]; [exact N|apply IH; lia].
Qed.

Lemma separator_nth name i : IsPathSeparator (nth i name 0) = true <-> nth_error name i = Some (chr "/").
Proof.
  unfold IsPathSeparator. rewrite Z.eqb_eq. split; intros H; [|now apply nth_error_nth with (d := 0) in H]. destruct (nth_error name i) as [c|] eqn:E; [f_equal; apply nth_error_nth with (d := 0) in E; congruence|]. apply nth_error_None in E. rewrite nth_overflow in H by exact E. discriminate.
Qed.

Lemma component_test name pos i : (pos <= i)%nat -> dots_at name i ->
  ((i =? pos)%nat || IsPathSeparator (nth (i - 1) name 0)) && ((i =? length name - 2)%nat || IsPathSeparator (nth (i + 2) name 0)) = true <-> dots_component name pos i.
Proof.
  intros P D. assert (L : (S i < length name)%nat) by (apply nth_error_Some; destruct D; congruence). rewrite andb_true_iff, !orb_true_iff, !Nat.eqb_eq, !separator_nth. unfold dots_component. intuition lia.
Qed.

Lemma unsafe_loop_spec name pos : forall fuel i, (pos <= i)%nat -> (length name - i < fuel)%nat ->
  unsafe_loop fuel name pos i = true <-> exists j, (i <= j)%nat /\ dots_component name pos j.
Proof.
  induction fuel as [|fuel IH]; intros i P F; [lia|]. cbn [unsafe_loop]. pose proof (find_dots_spec name (S (length name)) i ltac:(lia)) as D. destruct (find_dots (S (length name)) name i) as [j|].
  - destruct D as (Ij & Dj & Nj). assert (L : (S j < length name)%nat) by (apply nth_error_Some; destruct Dj; congruence). pose proof (component_test name pos j ltac:(lia) Dj) as T. destruct (_ && _) eqn:E.
    + split; [|reflexivity]. intros _. exists j. split; [exact Ij|now apply T].
    + rewrite IH by lia. split; [intros (k & K & C); exists k; split; [lia|exact C]|]. intros (k & K & C). exists k. split; [|exact C]. destruct (Nat.lt_ge_cases k j) as [H|H]; [destruct (Nj k ltac:(lia)); apply C|].
      destruct (Nat.eq_dec k j) as [->|N]; [apply T in C; discriminate|]. destruct (Nat.eq_dec k (S j)) as [->|N']; [|lia]. destruct C as (_ & _ & [C|C] & _); [lia|]. rewrite Nat.sub_succ, Nat.sub_0_r in C. destruct Dj as (Dj & _). rewrite Dj in C. discriminate.
  - split; [discriminate|]. intros (k & K & C). destruct (D k K). apply C.
Qed.

(** A name is unsafe just when two dots are one of its components, and no other name is refused before its path is opened. *)
Lemma unsafe_path_correct name pos tzdir_env : (UnsafePath name pos = true <-> exists i, dots_component name pos i) /\
  (open_path tzdir_env name = None -> exists pos' i, (pos' = 0 \/ pos' = 5)%nat /\ dots_component name pos' i).
Proof.
  assert (U : forall p, UnsafePath name p = true <-> exists i, dots_component name p i).
  { intros p. unfold UnsafePath. rewrite unsafe_loop_spec by lia. split; [intros (i & _ & C); eauto|]. intros (i & C). exists i. split; [apply C|exact C]. }
  split; [apply U|]. unfold open_path. cbv zeta. intros H. destruct (list_eqb (firstn 5 name) (str "file:")).
  - exists 5%nat. destruct (UnsafePath name 5) eqn:E; [|discriminate]. apply U in E as (i & C). exists i. auto.
  - exists 0%nat. destruct (UnsafePath name 0) eqn:E; [|discriminate]. apply U in E as (i & C). exists i. auto.
Qed.

(** ** Every zone *)
Lemma good_Make factory name : good (Make factory name) (fun z => Lookup.zone_ok z /\ (extended_ z = true -> exists posix std_ti dst_ti l0 last_time y0, Extend.extended_by z posix std_ti dst_ti l0 last_time y0)).
Proof.
  unfold Make. destruct (proj1 (proj2 fixed_zone_correct) name) as (r & Er & Hr). eapply good_bind; [apply (good_defined _ r (fun v => v = r) Er eq_refl)|]. cbv beta. intros ? ->. destruct r as [offset|].
  - cbn [good]. split; [now apply utc_ok, Hr|discriminate].
  - destruct (factory name) as [(src & v)|]; [|exact I]. apply Extend.good_Load.
Qed.

Lemma Make_ok factory name z : Make factory name = Ret z -> Lookup.zone_ok z.
Proof. intros E. pose proof (good_Make factory name) as G. rewrite E in G. apply G. Qed.

Lemma lookup_clock z (OK : Lookup.zone_ok z) t al : Lookup.lookup_at z (Lookup.type_at z (Lookup.table_time z t)) t = Some al -> al_cs al = at_ (Lookup.local z t) /\ al_offset al = Lookup.offset_at z t.
Proof.
  intros E. assert (Pc : (Lookup.passed z (Lookup.table_time z t) <= Lookup.cnt z)%nat) by apply (Lookup.passed_segment z OK). destruct (Lookup.lookup_defined z OK _ t Pc) as (al' & E' & C & O). unfold Lookup.type_at in E. assert (al' = al) by congruence. subst al'. now split.
Qed.

(** Transitions more than the sum of two offsets apart are spaced. *)
Lemma spaced_apart z : Lookup.zone_ok z -> (forall i, (S i < Lookup.cnt z)%nat -> Lookup.u z i + 200000 <= Lookup.u z (S i)) -> Lookup.spaced (transitions_ z) = true.
Proof.
  intros OK A. assert (H : forall l, (forall i a b, nth_error l i = Some a -> nth_error l (S i) = Some b -> civil_ltb (prev_civil_sec a) (civil_sec b) && civil_ltb (prev_civil_sec a) (prev_civil_sec b) = true) -> Lookup.spaced l = true).
  { induction l as [|a [|b l] IH]; intros Q; [reflexivity..|]. cbn [Lookup.spaced]. apply andb_true_iff. split; [exact (Q 0%nat a b eq_refl eq_refl)|]. apply IH. intros i x y Ex Ey. exact (Q (S i) x y Ex Ey). }
  apply H. intros i a b Ea Eb. pose proof (Lookup.nth_cnt z _ b Eb) as I. destruct (Lookup.tr_civil z OK i a Ea) as (_ & _ & Pa). destruct (Lookup.tr_civil z OK _ b Eb) as (_ & Cb & Pb). rewrite Pa, Cb, Pb, !at_ltb. specialize (A i I).
  destruct (Lookup.near z OK i ltac:(lia)) as (_ & O1 & O2). destruct (Lookup.near z OK (S i) I) as (_ & _ & O3). unfold Line.c, Line.p. rewrite !(proj2 (Z.ltb_lt _ _)) by lia. reflexivity.
Qed.

Lemma convert_clamp cl : convert_lookup (Lookup.clamp_lookup cl) = Lookup.clamp (convert_lookup cl).
Proof. unfold convert_lookup, Lookup.clamp_lookup. cbn [kind pre trans post]. now destruct (kind cl). Qed.

Lemma clamp_mono a b : a <= b -> Lookup.clamp a <= Lookup.clamp b.
Proof. unfold Lookup.clamp. lia. Qed.

Lemma local_range z t : Lookup.zone_ok z -> in_s 64 t -> in_s 64 (f_y (at_ (Lookup.local z t))).
Proof.
  intros OK I. rewrite in_s64_iff in I. apply at_year_range. change (2 ^ 70) with 1180591620717411303424. assert (Pc : (Lookup.passed z (Lookup.table_time z t) <= Lookup.cnt z)%nat) by apply (Lookup.passed_segment z OK). pose proof (Lookup.o_range z OK _ Pc) as O.
  unfold Lookup.local. change (Lookup.offset_at z t) with (Lookup.o z (Lookup.passed z (Lookup.table_time z t))). lia.
Qed.

(** A time that a clock shows is found by what it shows. *)
Lemma shown_found local t cl : in_s 64 t -> Line.means local (local t) cl -> kind (Lookup.clamp_lookup cl) <> SKIPPED /\ (pre (Lookup.clamp_lookup cl) = t \/ post (Lookup.clamp_lookup cl) = t).
Proof.
  intros I (M & _). cbn [Lookup.clamp_lookup kind pre post]. destruct (kind cl).
  - destruct M as (_ & _ & M). split; [discriminate|left]. rewrite <- (proj1 (M t) eq_refl). now apply Lookup.clamp_id.
  - destruct M as (_ & M & _). now destruct (M t).
  - destruct M as (_ & M & _). split; [discriminate|]. destruct (proj1 (M t) eq_refl) as [<-|<-]; [left|right]; now apply Lookup.clamp_id.
Qed.
End Laws.

(** ** Data to look at *)
Module Data.
Import Zone Load.

(** A zone that [TimeZoneInfo::Make] gives, for some name and some source of zoneinfo data. *)
Definition made (z : TimeZoneInfo) : Prop := exists factory name, Make factory name = Ret z.

(** A load that has no undefined behaviour and gives, if anything, a zone that lookups can use. *)
Definition usable (m : result TimeZoneInfo) : Prop := m <> Undefined /\ forall z, m = Ret z -> Lookup.zone_ok z.

(** The end of New York's history with its rule. *)
Definition new_york : list Z :=
  [84; 90; 105; 102; 50; 0; 0; 0; 0; 0; 0; 0; 0; 0; 0; 0; 0; 0; 0; 0; 0; 0; 0; 0; 0; 0; 0; 0; 0; 0; 0; 0; 0; 0; 0; 0; 0; 0; 0; 1; 0; 0; 0; 1; 0; 0; 0; 0; 0; 0; 0; 84; 90; 105; 102; 50; 0; 0; 0; 0; 0; 0; 0; 0; 0; 0; 0; 0; 0; 0; 0; 0; 0; 0; 0; 0; 0; 0; 0; 0; 0; 0; 0; 0; 0; 0; 2; 0; 0; 0; 3; 0; 0; 0; 12; 255; 255; 255; 255; 94; 3; 240; 144; 0; 0; 0; 0; 69; 243; 168; 240; 2; 1; 255; 255; 186; 158; 0; 0; 255; 255; 199; 192; 1; 4; 255; 255; 185; 176; 0; 8; 76; 77; 84; 0; 69; 68; 84; 0; 69; 83; 84; 0; 10; 69; 83; 84; 53; 69; 68; 84; 44; 77; 51; 46; 50; 46; 48; 44; 77; 49; 49; 46; 49; 46; 48; 10].

Definition new_york_source (name : list Z) : option (list Z * list Z) := Some (new_york, []).

Definition zone_of (src : list Z) : TimeZoneInfo := match Load src [] with Ret z => z | _ => ResetToBuiltinUTC 0 end.

(** Two hours back, and forward again ten minutes later. *)
Definition crossing : list Z :=
  [84; 90; 105; 102; 50; 0; 0; 0; 0; 0; 0; 0; 0; 0; 0; 0; 0; 0; 0; 0; 0; 0; 0; 0; 0; 0; 0; 0; 0; 0; 0; 0; 0; 0; 0; 0; 0; 0; 0; 1; 0; 0; 0; 1; 0; 0; 0; 0; 0; 0; 0; 84; 90; 105; 102; 50; 0; 0; 0; 0; 0; 0; 0; 0; 0; 0; 0; 0; 0; 0; 0; 0; 0; 0; 0; 0; 0; 0; 0; 0; 0; 0; 0; 0; 0; 0; 2; 0; 0; 0; 2; 0; 0; 0; 8; 0; 0; 0; 0; 0; 15; 66; 64; 0; 0; 0; 0; 0; 15; 68; 152; 1; 0; 0; 0; 28; 32; 0; 0; 0; 0; 0; 0; 0; 4; 65; 65; 65; 0; 66; 66; 66; 0; 10; 10].

Lemma new_york_loads : Make new_york_source (str "America/New_York") = Ret (zone_of new_york).
Proof.
  assert (E : match Load new_york [] with Ret _ => true | _ => false end = true) by (vm_compute; reflexivity). unfold zone_of. change (Make new_york_source (str "America/New_York")) with (Load new_york []). destruct (Load new_york []); [reflexivity|discriminate..].
Qed.

Lemma new_york_regular : Lookup.spaced (transitions_ (zone_of new_york)) && (extended_ (zone_of new_york) && Lookup.quiet_new_year (zone_of new_york)) = true.
Proof. vm_compute. reflexivity. Qed.

Definition new_york_rule : Posix.PosixTimeZone :=
  Posix.mk_zone (str "EST") (-18000) (str "EDT") (-14400) (Posix.mk_transition (Posix.M 3 2 0) 7200) (Posix.mk_transition (Posix.M 11 1 0) 7200).

Definition new_york_file : list Transition := [mk_tr (-2717650800) 2 epoch epoch; mk_tr 1173596400 1 epoch epoch].

(** A type with its abbreviation. *)
Definition attributes (z : TimeZoneInfo) (k : Z) : option (Z * bool * option (list Z)) :=
  option_map (fun ty => (utc_offset ty, is_dst ty, abbr_at (abbreviations_ z) (abbr_index ty))) (read (transition_types_ z) k).

Definition facts (z : TimeZoneInfo) : option (option Posix.PosixTimeZone) * option (Z * bool * option (list Z)) * option (Z * bool * option (list Z)) * list (Z * Z) * Z :=
  (Posix.ParsePosixSpec (future_spec_ z) blank_rule, attributes z 2, attributes z 1, map Extend.key (transitions_ z), last_year_ z).

Lemma attributes_type z k off dst abbr : attributes z k = Some (off, dst, Some abbr) -> Extend.type_is (transition_types_ z) (abbreviations_ z) k off dst abbr.
Proof. unfold attributes. destruct (read (transition_types_ z) k) as [ty|] eqn:E; [|discriminate]. cbn [option_map]. intros [= A B C]. now exists ty. Qed.

Lemma facts_extended z : facts z = (Some (Some new_york_rule), Some (-18000, false, Some (str "EST")), Some (-14400, true, Some (str "EDT")),
    map Extend.key (new_york_file ++ Rule.rule_list new_york_rule 2 1 1173596400 402 2007), 2408) -> Extend.extended_by z new_york_rule 2 1 new_york_file 1173596400 2007.
Proof.
  unfold facts. intros F. apply pair_equal_spec in F as (F & F5). apply pair_equal_spec in F as (F & F4). apply pair_equal_spec in F as (F & F3). apply pair_equal_spec in F as (F1 & F2). constructor; [exact F1| | |now apply attributes_type|now apply attributes_type|exact F4| |lia| | |exact F5].
  - split; [right; split; [cbn; lia|split; [reflexivity|discriminate]]|]. split; [discriminate|vm_compute; discriminate].
  - split; [right; split; [cbn; lia|split; [reflexivity|discriminate]]|]. split; [now left|]. split; (split; [cbn; lia|vm_compute; discriminate]).
  - exists [mk_tr (-2717650800) 2 epoch epoch], (mk_tr 1173596400 1 epoch epoch). split; reflexivity.
  - vm_compute. split; discriminate.
  - split; vm_compute; reflexivity.
Qed.

Lemma new_york_extended : Extend.extended_by (zone_of new_york) new_york_rule 2 1 new_york_file 1173596400 2007.
Proof. apply facts_extended. vm_compute. reflexivity. Qed.

(** The check of the order while loading lets changes of offset cross: the clock shows 1970-01-12 15:10:00, and the lookup
    of that civil time calls it skipped. *)
Lemma crossing_changes_load : exists z, Load crossing [] = Ret z /\ Lookup.spaced (transitions_ z) = false /\
  option_map (fun r => al_cs (fst r)) (BreakTime 2 z 0 997800) = Some (mk_fields 1970 1 12 15 10 0) /\
  option_map (fun r => kind (fst r)) (MakeTime 2 z 0 (mk_fields 1970 1 12 15 10 0)) = Some SKIPPED.
Proof. eexists. split; [vm_compute; reflexivity|]. repeat split; vm_compute; reflexivity. Qed.

(** Data that ends on 2 January 2008, with a rule that ends daylight saving time 167 hours into 31 December. *)
Definition late_rule : list Z :=
  [84; 90; 105; 102; 50; 0; 0; 0; 0; 0; 0; 0; 0; 0; 0; 0; 0; 0; 0; 0; 0; 0; 0; 0; 0; 0; 0; 0; 0; 0; 0; 0; 0; 0; 0; 0; 0; 0; 0; 1; 0; 0; 0; 1; 0; 0; 0; 0; 0; 0; 0; 84; 90; 105; 102; 50; 0; 0; 0; 0; 0; 0; 0; 0; 0; 0; 0; 0; 0; 0; 0; 0; 0; 0; 0; 0; 0; 0; 0; 0; 0; 0; 0; 0; 0; 0; 2; 0; 0; 0; 3; 0; 0; 0; 12; 255; 255; 255; 255; 94; 3; 240; 144; 0; 0; 0; 0; 71; 122; 212; 0; 2; 1; 255; 255; 186; 158; 0; 0; 255; 255; 199; 192; 1; 4; 255; 255; 185; 176; 0; 8; 76; 77; 84; 0; 69; 68; 84; 0; 69; 83; 84; 0; 10; 69; 83; 84; 53; 69; 68; 84; 44; 77; 51; 46; 50; 46; 48; 44; 74; 51; 54; 53; 47; 49; 54; 55; 10].

Definition late_posix : Posix.PosixTimeZone :=
  Posix.mk_zone (str "EST") (-18000) (str "EDT") (-14400) (Posix.mk_transition (Posix.M 3 2 0) 7200) (Posix.mk_transition (Posix.J 365) 601200).

(** The extension starts with the rule of 2008 and misses the end of daylight saving time that the rule of 2007 puts into
    January 2008, after the data: on 10 January the rule is at standard time and the zone is not. *)
Lemma late_rule_missed : exists z, Load late_rule [] = Ret z /\ extended_ z = true /\
  Posix.ParsePosixSpec (future_spec_ z) blank_rule = Some (Some late_posix) /\
  1199232000 < Rule.rule_instant late_posix false 2007 <= 1199966400 /\ 1199966400 < Rule.rule_instant late_posix true 2008 /\
  option_map (fun r => al_is_dst (fst r)) (BreakTime 2 z 0 1199966400) = Some true.
Proof.
  eexists. split; [vm_compute; reflexivity|]. split; [vm_compute; reflexivity|]. split; [vm_compute; reflexivity|].
  split; [vm_compute; split; congruence|]. split; [vm_compute; reflexivity|vm_compute; reflexivity].
Qed.
End Data.

Import Zone Load.

(** A zone that [TimeZoneInfo::Make] gives, for some name and some source of zoneinfo data. *)
Definition made (z : TimeZoneInfo) : Prop := exists factory name, Make factory name = Ret z.

(** A load that has no undefined behaviour and gives, if anything, a zone that lookups can use. *)
Definition usable (m : result TimeZoneInfo) : Prop := m <> Undefined /\ forall z, m = Ret z -> Lookup.zone_ok z.

(** C13: Loading is safe and gives a usable zone: whatever the bytes of a zoneinfo file, [Load] reads nothing outside them and
    computes nothing undefined; a zone that loads, or that [Make] gives for any name and source, has its transitions in
    order of time and of civil time with their civil times right, every index in its table, its offsets within their
    bounds, and a transition in each half of the time line. *)
Theorem zone_load_safe :
  (forall src zip_version, usable (Load src zip_version)) /\ (forall factory name, usable (Make factory name)).
Proof.
  split; [intros src v; pose proof (Extend.good_Load src v) as G|intros factory name; pose proof (Laws.good_Make factory name) as G]; (split; [intros E; now rewrite E in G|intros z E; rewrite E in G; apply G]).
Qed.

(** C14: Lookups by absolute time: in every zone that [Make] gives, [BreakTime] answers every time point, whatever position was
    remembered, with the attributes of the type in effect and the civil second that the clock of the zone shows; a zone that
    was extended repeats its last 400 years.  [NextTransition] and [PrevTransition] give the nearest transition after or
    before a time point that changes the type, if there is one. *)
Theorem break_time_correct z : made z ->
  (forall hint t, in_s 64 t -> exists al h, BreakTime 2 z hint t = Some (al, h) /\
    Lookup.lookup_at z (Lookup.type_at z (Lookup.table_time z t)) t = Some al /\ al_cs al = Civil.at_ (Lookup.local z t)) /\
  forall t, exists begin r s, first_reported (transitions_ z) = Some begin /\ NextTransition z t = Some r /\ PrevTransition z t = Some s /\
    match r with
    | None => forall i, Lookup.effective z begin i -> Lookup.u z i <= t
    | Some ct => exists i, Lookup.effective z begin i /\ t < Lookup.u z i /\ ct = mk_ct (Civil.at_ (Lookup.u z i + Lookup.o z i)) (Civil.at_ (Lookup.u z i + Lookup.o z (S i))) /\
        forall j, Lookup.effective z begin j -> t < Lookup.u z j -> Lookup.u z i <= Lookup.u z j
    end /\
    match s with
    | None => forall i, Lookup.effective z begin i -> t <= Lookup.u z i
    | Some ct => exists i, Lookup.effective z begin i /\ Lookup.u z i < t /\ ct = mk_ct (Civil.at_ (Lookup.u z i + Lookup.o z i)) (Civil.at_ (Lookup.u z i + Lookup.o z (S i))) /\
        forall j, Lookup.effective z begin j -> Lookup.u z j < t -> Lookup.u z j <= Lookup.u z i
    end.
Proof.
  intros (factory & name & E). pose proof (Laws.Make_ok factory name z E) as OK. split.
  - intros hint t I. destruct (Lookup.break_spec z OK 1 hint t (le_n 1) I) as (al & h & Eb & El). exists al, h. split; [exact Eb|]. split; [exact El|]. now apply Laws.lookup_clock.
  - intros t. destruct (Lookup.next_spec z OK t) as (begin & r & E1 & E2 & E3). destruct (Lookup.prev_spec z OK t) as (begin' & s & E4 & E5 & E6). assert (begin' = begin) by congruence. subst begin'. exists begin, r, s. now repeat split.
Qed.

Lemma break_time_correct_witness : exists al h, BreakTime 2 (ResetToBuiltinUTC 0) 7 1700000000 = Some (al, h) /\ al_cs al = Civil.at_ (Lookup.local (ResetToBuiltinUTC 0) 1700000000).
Proof.
  destruct (break_time_correct (ResetToBuiltinUTC 0) (ex_intro _ (fun _ => None) (ex_intro _ (str "UTC") eq_refl))) as (B & _). destruct (B 7%nat 1700000000) as (al & h & E & _ & C); [split; [discriminate|reflexivity]|]. eauto.
Defined.

(** C15: Lookups by civil time: in every zone that [Make] gives whose changes of offset do not cross (and, if it was extended,
    whose last year ends quietly), [MakeTime] answers every civil second, whatever position was remembered: the instants
    at which the clock shows it, or none, or both, with those by the offsets around the change, as far as time points
    reach; [convert] never puts a later civil second at an earlier instant; and each instant is found again from what the
    clock shows. *)
Theorem make_time_correct z : made z ->
  Lookup.spaced (transitions_ z) = true -> (extended_ z = true -> Lookup.quiet_new_year z = true) ->
  (forall hint cs, valid_fields cs -> in_s 64 (f_y cs) -> exists cl h, MakeTime 2 z hint cs = Some (Lookup.clamp_lookup cl, h) /\ Line.means (Lookup.local z) (sec_ord cs) cl) /\
  (forall hint hint' cs cs' cl cl' h h', valid_fields cs -> in_s 64 (f_y cs) -> valid_fields cs' -> in_s 64 (f_y cs') -> civil_leb cs cs' = true ->
    MakeTime 2 z hint cs = Some (cl, h) -> MakeTime 2 z hint' cs' = Some (cl', h') -> convert_lookup cl <= convert_lookup cl') /\
  (forall hint hint' t, in_s 64 t -> exists al h cl h', BreakTime 2 z hint t = Some (al, h) /\ MakeTime 2 z hint' (al_cs al) = Some (cl, h') /\
    kind cl <> SKIPPED /\ (pre cl = t \/ post cl = t)).
Proof.
  intros (factory & name & E) Sp Q. pose proof (Laws.Make_ok factory name z E) as OK.
  assert (M : forall hint cs, valid_fields cs -> in_s 64 (f_y cs) -> exists cl h, MakeTime 2 z hint cs = Some (Lookup.clamp_lookup cl, h) /\ Line.means (Lookup.local z) (sec_ord cs) cl).
  { intros hint cs V I. pose proof (Lookup.make_spec z OK 1 hint (sec_ord cs) (le_n 1) Sp Q) as H. rewrite <- (Civil.at_of cs V) in H. now apply H. }
  split; [exact M|]. split.
  - intros hint hint' cs cs' cl cl' h h' V I V' I' L E1 E2. destruct (M hint cs V I) as (c1 & k1 & F1 & M1). destruct (M hint' cs' V' I') as (c2 & k2 & F2 & M2). rewrite F1 in E1. rewrite F2 in E2. injection E1 as <- _. injection E2 as <- _.
    rewrite !Laws.convert_clamp. apply Laws.clamp_mono. apply (Line.convert_mono (Lookup.local z) (sec_ord cs) (sec_ord cs')); [exact M1|exact M2|]. unfold civil_leb in L. rewrite civil_ltb_sec in L by assumption. zbool. exact L.
  - intros hint hint' t I. destruct (Lookup.break_spec z OK 1 hint t (le_n 1) I) as (al & h & Eb & El). destruct (Laws.lookup_clock z OK t al El) as (C & _).
    destruct (M hint' (al_cs al)) as (cl & h' & Em & Mm); [rewrite C; apply Civil.at_valid|rewrite C; now apply Laws.local_range|]. rewrite C, Civil.at_sec in Mm. exists al, h, (Lookup.clamp_lookup cl), h'. split; [exact Eb|]. split; [exact Em|]. now apply (Laws.shown_found (Lookup.local z) t cl).
Qed.

Lemma make_time_correct_witness : exists cl h, MakeTime 2 (Data.zone_of Data.new_york) 3 (mk_fields 12024 3 12 2 30 0) = Some (Lookup.clamp_lookup cl, h) /\
  Line.means (Lookup.local (Data.zone_of Data.new_york)) (sec_ord (mk_fields 12024 3 12 2 30 0)) cl.
Proof.
  destruct (proj1 (andb_true_iff _ _) Data.new_york_regular) as (Sp & Q). apply andb_true_iff in Q as (_ & Q).
  destruct (make_time_correct (Data.zone_of Data.new_york) (ex_intro _ Data.new_york_source (ex_intro _ (str "America/New_York") Data.new_york_loads)) Sp (fun _ => Q)) as (M & _). apply M; [vm_compute; repeat split; discriminate|split; [discriminate|reflexivity]].
Defined.

(** C16: An extended zone follows its rule for ever.  The table of a loaded zone with a rule holds the file's transitions and
    then those of 402 years of the rule; then in every year the dates of the rule mean the days that POSIX gives them, the
    two transitions of each year are distinct and before those of the next, so that at each instant exactly one is the
    latest; and, if the data joins the rule in the year where it ends, [BreakTime] gives at every time point whose latest
    rule transition is past the data the offset, flag and abbreviation of that transition. *)
Theorem future_follows_rule z : made z -> extended_ z = true ->
  (exists posix std_ti dst_ti l0 last_time y0, Extend.extended_by z posix std_ti dst_ti l0 last_time y0) /\
  forall posix std_ti dst_ti l0 last_time y0, Extend.extended_by z posix std_ti dst_ti l0 last_time y0 ->
  (forall y, Rule.day_means y (Posix.date (Posix.dst_start posix)) (Rule.rule_day (Posix.dst_start posix) y) /\ Rule.day_means y (Posix.date (Posix.dst_end posix)) (Rule.rule_day (Posix.dst_end posix) y) /\
    Rule.rule_instant posix true y <> Rule.rule_instant posix false y /\ Extend.rule_max posix y < Future.rule_min posix (y + 1)) /\
  (forall t, exists dst y, Future.in_effect posix t dst y) /\
  (Future.joined posix last_time y0 -> forall hint t dst y, in_s 64 t -> Future.in_effect posix t dst y -> last_time < Rule.rule_instant posix dst y ->
    let off := if dst then Posix.dst_offset posix else Posix.std_offset posix in
    exists h, BreakTime 2 z hint t = Some (mk_al (Civil.at_ (t + off)) off dst (if dst then Posix.dst_abbr posix else Posix.std_abbr posix), h)).
Proof.
  intros (factory & name & E) X. pose proof (Laws.good_Make factory name) as G. rewrite E in G. destruct G as (OK & G). split; [exact (G X)|]. clear G. intros posix std_ti dst_ti l0 last_time y0 Ex. split; [|split; [now apply (Future.in_effect_exists z posix std_ti dst_ti l0 last_time y0)|]].
  - intros y. destruct (Extend.eb_dst_ok _ _ _ _ _ _ _ Ex) as (_ & _ & (D1 & _) & (D2 & _)). destruct (Rule.trans_day_means y _ D1) as (n1 & E1 & M1 & _). destruct (Rule.trans_day_means y _ D2) as (n2 & E2 & M2 & _). unfold Rule.rule_day. rewrite E1, E2. split; [exact M1|]. split; [exact M2|]. exact (Future.rule_order z posix std_ti dst_ti l0 last_time y0 OK Ex y).
  - intros J hint t dst y I Ef L. destruct (Lookup.break_spec z OK 1 hint t (le_n 1) I) as (al & h & Eb & El). exists h. rewrite Eb. do 2 f_equal. rewrite (Future.future_follows z posix std_ti dst_ti l0 last_time y0 OK Ex t dst y X J Ef L) in El.
    unfold Lookup.lookup_at in El. destruct (Extend.eb_std _ _ _ _ _ _ _ Ex) as (ts & Rs & <- & Ds & As). destruct (Extend.eb_dst _ _ _ _ _ _ _ Ex) as (td & Rd & <- & Dd & Ad). destruct dst; [rewrite Rd in El; cbn [obind] in El; rewrite Ad in El|rewrite Rs in El; cbn [obind] in El; rewrite As in El]; cbn [obind] in El; injection El as <-; congruence.
Qed.

Lemma future_follows_rule_witness : extended_ (Data.zone_of Data.new_york) = true /\ Future.joined Data.new_york_rule 1173596400 2007 /\
  forall hint t dst y, in_s 64 t -> Future.in_effect Data.new_york_rule t dst y -> 1173596400 < Rule.rule_instant Data.new_york_rule dst y ->
    exists h, BreakTime 2 (Data.zone_of Data.new_york) hint t = Some (mk_al (Civil.at_ (t + (if dst then -14400 else -18000))) (if dst then -14400 else -18000) dst (if dst then str "EDT" else str "EST"), h).
Proof.
  destruct (proj1 (andb_true_iff _ _) Data.new_york_regular) as (_ & Q). apply andb_true_iff in Q as (X & _). assert (J : Future.joined Data.new_york_rule 1173596400 2007) by (split; vm_compute; congruence). split; [exact X|]. split; [exact J|].
  destruct (future_follows_rule (Data.zone_of Data.new_york) (ex_intro _ Data.new_york_source (ex_intro _ (str "America/New_York") Data.new_york_loads)) X) as (_ & F). destruct (F _ _ _ _ _ _ Data.new_york_extended) as (_ & _ & B). intros hint t dst y I Ef L. destruct (B J hint t dst y I Ef L) as (h & Eh). exists h. rewrite Eh. destruct dst; reflexivity.
Defined.
